(* ===== verification/_CoqProject ===== *)
-Q . S2P
Prelude.v
Refinement.v
BinaryHeap.v
Forest.v
UnionSet.v
UnionFindRollback.v
SegmentTree.v
SparseTable.v
FenwickTree.v
Circular.v
RingBuffer.v
Deque.v
LinkedList.v
SortedList.v
SearchTree.v
AVLTree.v
TreeSet.v
TreeMap.v
Treap.v
SplayTree.v
CacheSpec.v
LRUCache.v
LFUCache.v
CacheClient.v
HashLRUCache.v
SnowflakeGenerator.v
RadixToolkit.v
Graph.v
BreadthFirst.v
TreiberStack.v
Trie.v
TopologicalSort.v
BellmanFord.v
RobinHood.v
RedBlackTree.v
PersistentVector.v
AhoCorasick.v
SpanningForest.v
KruskalMST.v
IntervalTree.v
ClassicalCiphers.v
StreamCipher.v
Dijkstra.v
BloomFilter.v
LSMTree.v
MerkleTree.v
PasswordStore.v
UserAuthenticator.v
Reader.v
BufferedReader.v
PushbackReader.v
BTree.v
MichaelScottQueue.v
CuckooHashMap.v
TarjanSCC.v
CuckooFilter.v
Buffers.v
OutputStream.v
InputStream.v
FloydWarshall.v
PrimMST.v
