(* ===== verification/Prelude.v ===== *)
(** * cppforge: a verification development for the data-structure library

    The repository is a C++26 library; its core is the header-only containers
    under [src/common/include/cppforge] (with some [.cc] files under
    [src/common/src]).  This development models the containers and the small
    services that carry logic of their own, and proves what makes them correct.

    ** How the code is modelled

    - A class is a Record of its data members; a member function is a Definition
      from the object (and the arguments) to an [outcome] of the result and the
      object after the call.  [Throw e] is an exception the code throws, [Undef]
      is undefined behaviour (an unchecked index out of range, a null or dangling
      pointer, a signed overflow, a division by zero).  So a theorem that a call
      equals [Ret _] also says that it is free of undefined behaviour.
    - [NoFuel] is no C++ behaviour.  Loops that are not structural take fuel, and
      every component proves that the fuel its definitions supply is enough (the
      height or size of a forest, the number of nodes of a list, the width of an
      integer plus one, the bits of an index).
    - [std::vector] is a list with [vget] and [vset], undefined out of range;
      [std::unordered_map] is a [gmap]; [std::unique_ptr] trees are inductive
      trees; raw pointers and [std::list] iterators are addresses or identities in
      a store, so that dangling is visible.  [size_t] is [nat] or a wrapping [Z]
      where the code depends on the wrap; [int32_t] addition is checked.
    - What the standard leaves to the compiler or to chance is a parameter too, and what it leaves
      undefined is [Undef], also where every compiler does something.
    - Element types, comparators, random priorities, allocators and the clock are
      parameters.

    ** Files

    - [Prelude] (this file): outcomes, vectors, slices and reductions, strict
      weak orders, machine integers (checked [int32_t] counters, casts to [size_t],
      the smearing of bits that rounds up to a power of two), shared tactics, hints and notations.
    - [Refinement]: contracts as abstract step functions; [Simulates] is the
      class a component instantiates, [trace_refines] what its clients use.
    - [BinaryHeap] ([data_structure/heap/Heap.hpp]): push, pop and heapify keep
      the heap property and the multiset; the top is a minimum.
    - [Forest] (parent forests and their ranks), [UnionSet]
      ([union_find/UnionSet.hpp]: path compression, connectivity, rank bounds) and
      [UnionFindRollback] ([union_find/UnionSetWithRollback.hpp]: undo history).
    - [SegmentTree], [SparseTable], [FenwickTree] ([tree/range/]): range queries
      and point updates equal the reduction of the slice.
    - [Circular], [RingBuffer] ([queue/RingBuffer.hpp]), [Deque]
      ([deque/Deque.hpp]): circular arrays refine sequences.
    - [LinkedList] ([list/LinkedList.hpp]): a store of nodes with owning and raw
      pointers refines a sequence.
    - [SortedList] is the specification of the ordered containers; [SearchTree]
      ([tree/node/TreeNode.hpp], [tree/core/]) proves the CRTP base class against
      the interface [BSTHooksLaws] of its hooks; [AVLTree] discharges it;
      [TreeSet] and [TreeMap] ([set/], [map/]) are its clients; [Treap] and
      [SplayTree] stand alone.
    - [CacheSpec] ([interface/ICache.hpp]) holds the interface of caches, its laws
      and the recency lists; [LRUCache] and [LFUCache] ([cache/]) instantiate it;
      [CacheClient] proves the coherence of a client against the laws, and states it of both;
      [HashLRUCache] ([data_structure/hash/LRUCache.hpp]) refines the contract of
      [LRUCache] with hand-linked nodes.
    - [RedBlackTree] ([tree/balanced/]): a store of nodes with parent pointers, its
      colours and both rebalancing loops; [IntervalTree] ([spatial/]): an augmented
      tree that does not rebalance and loses its maxima in some removals.
    - [BTree] ([tree/multiway/BTree.hpp]): nodes split on the way down and filled before a removal.
    - [RobinHood] ([hash/RobinHoodHashMap.hpp]): open addressing with backward shift.
      [CuckooHashMap] ([hash/CuckooHashMap.hpp]): two tables and a stash, with displacements and rehashes.
      [Trie] ([tree/multiway/Trie.hpp]) and [AhoCorasick] ([string/]): words.
    - [PersistentVector] ([persistent/]): a radix tree with a tail, versions shared.
      [LSMTree] ([tree/lsm/]): memtable, runs and compaction of an LSM tree.
      [BloomFilter] and [CuckooFilter] ([filter/]): blocks and salts of a Bloom filter; buckets of
      fingerprints, displacements and their undoing.
      [MerkleTree] ([tree/crypto/]): roots and membership proofs.
    - [TreiberStack] ([concurrent/TreiberStack.hpp]): the lock-free stack with its
      free pool, as interleavings of the threads' accesses; sequentially consistent.
      [MichaelScottQueue] ([concurrent/MichaelScottQueue.hpp]): the queue on the same pool, likewise.
    - [Graph] ([graph/Graph], [Edge], [GraphTraits]), and the algorithms on it
      ([graph/algorithm/]): [BreadthFirst], [TopologicalSort], [BellmanFord], [Dijkstra],
      [FloydWarshall], [TarjanSCC], [KruskalMST] and [PrimMST] with [SpanningForest], which reasons about forests of edges.
    - [SnowflakeGenerator] ([gen/]): unique, increasing identifiers under any
      clock within a range, and when a call returns.
    - [RadixToolkit] ([toolkit/]): writing and reading integers in a base, with
      the overflow behaviour of every integral type.
    - [ClassicalCiphers] and [StreamCipher] ([crypto/cipher/]): Caesar, substitution
      and exclusive-or ciphers; the modes and the state of the last.
    - [PasswordStore] ([sql/PasswordSQL], [sql/sqlite/SQLiteManager]): the user table
      over an interface of SQLite; [UserAuthenticator] ([auth/]): policy, lockout and
      the sessions on it.
    - [Reader] ([io/reader/]): the interface of character readers, its laws, and the
      readers of strings and arrays; [BufferedReader] and [PushbackReader] are
      decorators over any lawful reader.  [OutputStream] and [InputStream] ([io/writer/], [io/reader/]): the same for
      bytes, with byte arrays, filters, buffers and pushback.
    - [Buffers] ([buffer/]): the seven classes with a position, a limit and a capacity refine a zipper.

    ** Groups of theorems

    Refinement theorems (names in [_refines]) say that every sequence of
    operations on the component observes what it observes on the abstract state,
    exceptions included, and that no operation is undefined where the contract is
    not.  The [_spec] theorems give one operation on every branch.  Graph algorithms
    are proved against walks, orders and spanning forests ([bfs_shortest_path_spec],
    [dijkstra_shortest], [kruskal_minimum_spanning_forest]), two of them against each other
    ([dijkstra_bellman_ford_equivalent]).  [treiber_linearizable] gives every
    interleaving a sequential history, [michael_scott_not_linearizable] is an interleaving that has none.  [merkle_proof_sound] reduces a forged proof to a collision,
    [auth_guessing_bound] bounds the guesses of a password.

    Some theorems state defects the code has: [tree_set_copy_crashes],
    [linked_list_insert_middle], [deque_copy_spec], [radix_roundtrip] (the minimum of a
    wide signed type), [robin_hood_index_overwrites], [robin_hood_rehash_loops],
    [treiber_copy_undefined], [dijkstra_overflow], [bloom_filter_no_table],
    [substitution_mapping_out_of_range], [lsm_moved_from_flush], [merkle_duplicate_last],
    [merkle_inner_node], [auth_restart_forgets], [auth_first_login_overflows],
    [chars_new_range_wraps], [buffered_reset_skips], [buffered_ready_late], [pushback_small_buffer], [btree_duplicate],
    [michael_scott_not_linearizable], [cuckoo_index_overwrites], [cuckoo_insert_diverges], [cuckoo_moved_from_stash],
    [cuckoo_filter_loses], [cuckoo_filter_wide_bucket], [float_get_n_wraps], [buffered_write_vector_overtakes],
    [buffered_reset_wrong], [buffered_read_after_close], [buffered_vector_overtakes], [pushback_eof_stays],
    [floyd_warshall_parallel], [floyd_warshall_self_loop], [floyd_warshall_phantom], [prim_leaves_components],
    [snowflake_out_of_range], [persistent_vector_raw_slot] and the lemmas on removal in [IntervalTree].

    ** Bounds and fuel

    Loops run on the size of what they consume (nodes, characters, probes, edges)
    plus one; each component's theorems supply that fuel or quantify over every fuel
    that is at least as large.

    ** Not modelled

    File systems, RPC, HTTP, logging, processes and user interfaces are effects on the
    outside world with no state of their own to verify; digests and modern ciphers call
    OpenSSL, MySQL is a client library.  Sketches and spatial trees compute with
    floating point, the skip list draws random levels.  Of the concurrent containers only the stack and the
    queue are modelled; the rest are hazard pointers, sequence locks and adapters under a mutex.  The B+ tree
    repeats the B-tree with linked leaves; the remaining graph algorithms are searches like those modelled. *)

From stdpp Require Export base tactics option list numbers gmap.
From Stdlib Require Export ZArith Lia.

#[export] Set Warnings "-clear-no-such-hyp".

#[global] Arguments Nat.div : simpl never.
#[global] Arguments Nat.modulo : simpl never.
#[global] Arguments Nat.mul : simpl never.
#[global] Arguments Nat.sub : simpl never.
#[global] Arguments Nat.pow : simpl never.
#[global] Arguments Z.mul : simpl never.
#[global] Arguments Z.add : simpl never.
#[global] Arguments Z.sub : simpl never.
#[global] Arguments Z.pow : simpl never.

(** ** Outcomes of a C++ operation

    A call returns a value, leaves by one of the exceptions the library
    throws, or has undefined behaviour (an out-of-range [operator[]], a null
    dereference, a signed overflow).  [NoFuel] is no C++ behaviour: it marks a
    loop of the model that was given too few iterations, and each component
    proves that the fuel it supplies is enough. *)
Inductive exn :=
| invalid_argument
| out_of_range
| overflow_error
| underflow_error
| runtime_error.

#[global] Instance exn_eq_dec : EqDecision exn.
Proof. solve_decision. Defined.

Inductive outcome (A : Type) :=
| Ret (a : A)
| Throw (e : exn)
| Undef
| NoFuel.
Arguments Ret {A} a.
Arguments Throw {A} e.
Arguments Undef {A}.
Arguments NoFuel {A}.

#[global] Instance outcome_ret : MRet outcome := @Ret.
#[global] Instance outcome_bind : MBind outcome := fun A B f m =>
  match m with
  | Ret a => f a
  | Throw e => Throw e
  | Undef => Undef
  | NoFuel => NoFuel
  end.
#[global] Instance outcome_fmap : FMap outcome := fun A B f m =>
  match m with
  | Ret a => Ret (f a)
  | Throw e => Throw e
  | Undef => Undef
  | NoFuel => NoFuel
  end.

(** A guard that throws: [if (b) throw e;]. *)
Definition throw_if (b : bool) (e : exn) : outcome unit :=
  if b then Throw e else Ret tt.

Lemma bind_Ret {A B} (a : A) (f : A -> outcome B) : (Ret a ≫= f) = f a.
Proof. reflexivity. Qed.

Lemma fmap_Ret {A B} (a : A) (f : A -> B) : f <$> Ret a = Ret (f a).
Proof. reflexivity. Qed.

Lemma bind_Ret_inv {A B} (m : outcome A) (f : A -> outcome B) (b : B) :
  (m ≫= f) = Ret b -> exists a, m = Ret a /\ f a = Ret b.
Proof. destruct m; cbn; intros H; try discriminate; eauto. Qed.

Lemma bind_assoc {A B C} (m : outcome A) (f : A -> outcome B) (g : B -> outcome C) :
  ((m ≫= f) ≫= g) = (m ≫= fun a => f a ≫= g).
Proof. by destruct m. Qed.

Lemma Ret_inj {A} (a b : A) : Ret a = Ret b -> a = b.
Proof. by intros [= ->]. Qed.

(** Run one [Ret] of a monadic computation, without unfolding what follows. *)
Ltac ret_step := rewrite bind_Ret; cbn beta iota zeta.

(** Equality of two concatenations, up to associativity. *)
Ltac app_simpl := repeat first [rewrite <- app_assoc | progress cbn [app]]; reflexivity.

Lemma singleton_union_L {K} `{!EqDecision K, !Countable K} (x : K) (X : gset K) : x ∈ X -> {[x]} ∪ X = X.
Proof. intros. apply subseteq_union_1_L. by apply singleton_subseteq_l. Qed.

Lemma size_singleton_union_le {K} `{!EqDecision K, !Countable K} (x : K) (X : gset K) :
  size ({[x]} ∪ X) <= S (size X).
Proof.
  rewrite size_union_alt, size_singleton.
  assert (size (X ∖ {[x]}) <= size X) by (apply subseteq_size, subseteq_difference_l; done). lia.
Qed.

(** ** [std::vector] accesses: unchecked indexing is undefined out of range. *)
Definition vget {A} (v : list A) (i : nat) : outcome A :=
  match v !! i with Some x => Ret x | None => Undef end.

Definition vset {A} (v : list A) (i : nat) (x : A) : outcome (list A) :=
  if decide (i < length v) then Ret (<[i:=x]> v) else Undef.

(** [std::swap(v[i], v[j])] *)
Definition vswap {A} (v : list A) (i j : nat) : outcome (list A) :=
  x ← vget v i; y ← vget v j; v' ← vset v i y; vset v' j x.

(** The pure counterpart used in specifications. *)
Definition swap_at {A} (i j : nat) (v : list A) : list A :=
  match v !! i, v !! j with
  | Some x, Some y => <[j:=x]> (<[i:=y]> v)
  | _, _ => v
  end.

Section vectors.
Context {A : Type}.
Implicit Types (v : list A) (x y : A).

Lemma vget_Some v i x : v !! i = Some x -> vget v i = Ret x.
Proof. unfold vget. by intros ->. Qed.

Lemma vget_Ret v i x : vget v i = Ret x <-> v !! i = Some x.
Proof. unfold vget. destruct (v !! i); naive_solver. Qed.

Lemma vget_lt v i : i < length v -> exists x, v !! i = Some x /\ vget v i = Ret x.
Proof. intros [x Hx]%lookup_lt_is_Some. exists x. split; [done|]. by apply vget_Some. Qed.

Lemma vset_lt v i x : i < length v -> vset v i x = Ret (<[i:=x]> v).
Proof. intros. unfold vset. by rewrite decide_True. Qed.

Lemma vset_Ret v i x v' : vset v i x = Ret v' -> i < length v /\ v' = <[i:=x]> v.
Proof. unfold vset. case_decide; naive_solver. Qed.

Lemma length_swap_at i j v : length (swap_at i j v) = length v.
Proof. unfold swap_at. repeat case_match; by rewrite ?length_insert. Qed.

Lemma vswap_lt v i j :
    i < length v -> j < length v -> vswap v i j = Ret (swap_at i j v).
Proof.
    intros Hi Hj. unfold vswap, swap_at.
    destruct (vget_lt v i Hi) as (x & Hx & ->), (vget_lt v j Hj) as (y & Hy & ->).
    rewrite Hx, Hy. cbn. rewrite (vset_lt v i y Hi). cbn.
    by rewrite vset_lt by (by rewrite length_insert).
Qed.

Lemma swap_at_Permutation i j v : swap_at i j v ≡ₚ v.
Proof.
    unfold swap_at. destruct (v !! i) as [x|] eqn:Hi; [|done].
    destruct (v !! j) as [y|] eqn:Hj; [|done].
    by apply Permutation_insert_swap.
Qed.

Lemma lookup_swap_at i j v k :
    i < length v -> j < length v ->
    swap_at i j v !! k =
      if decide (k = j) then v !! i else if decide (k = i) then v !! j else v !! k.
Proof.
    intros Hi Hj. unfold swap_at.
    destruct (vget_lt v i Hi) as (x & Hx & _), (vget_lt v j Hj) as (y & Hy & _).
    rewrite Hx, Hy. case_decide as Hkj; [subst k|case_decide as Hki; [subst k|]].
    - rewrite list_lookup_insert_eq; [done|by rewrite length_insert].
    - by rewrite list_lookup_insert_ne, list_lookup_insert_eq by done.
    - by rewrite !list_lookup_insert_ne by done.
Qed.
End vectors.

Lemma filter_all {A} (P : A -> Prop) `{!forall x, Decision (P x)} (l : list A) :
  Forall P l -> filter P l = l.
Proof. induction 1; [done|]. rewrite filter_cons_True by done. by f_equal. Qed.

Lemma filter_ext_in {A} (P Q : A -> Prop) `{!forall x, Decision (P x), !forall x, Decision (Q x)} (l : list A) :
  (forall x, x ∈ l -> P x <-> Q x) -> filter P l = filter Q l.
Proof.
  induction l as [|x l IH]; intros HPQ; [done|]. rewrite !filter_cons, IH by (intros; apply HPQ; by right).
  pose proof (HPQ x (list_elem_of_here x l)). destruct (decide (P x)), (decide (Q x)); naive_solver.
Qed.

(** Excluding one element of a duplicate-free list shortens a filter by one. *)
Lemma length_filter_exclude {A} `{!EqDecision A} (P Q : A -> Prop) `{!forall x, Decision (P x), !forall x, Decision (Q x)}
    (a : A) (l : list A) :
  NoDup l -> a ∈ l -> P a -> (forall x, Q x <-> P x /\ x <> a) ->
  S (length (filter Q l)) = length (filter P l).
Proof.
  intros Hnd Ha HPa HQ.
  assert (forall l : list A, a ∉ l -> filter Q l = filter P l) as Hout.
  { clear Hnd Ha l. induction l as [|x l IH]; intros Ha; [done|].
    apply not_elem_of_cons in Ha as [Hax Ha]. rewrite !filter_cons, IH by done.
    destruct (decide (P x)), (decide (Q x)); naive_solver. }
  induction Hnd as [|x l Hx Hnd IH]; [by apply elem_of_nil in Ha|].
  destruct (decide (x = a)) as [->|Hne].
  - rewrite filter_cons_False by naive_solver. rewrite filter_cons_True by done. cbn. by rewrite Hout.
  - apply elem_of_cons in Ha as [->|Ha]; [done|]. rewrite !filter_cons.
    destruct (decide (P x)), (decide (Q x)); cbn; rewrite ?IH; naive_solver.
Qed.

(** The last element of a non-empty vector. *)
Lemma take_last {A} (v : list A) x :
  v !! (length v - 1) = Some x -> v = take (length v - 1) v ++ [x].
Proof.
  intros Hx. apply lookup_lt_Some in Hx as Hlt. rewrite <- (take_S_r _ _ _ Hx).
  rewrite take_ge; [done|lia].
Qed.

(** Indexing as the code writes it, in a scope of its own. *)
Declare Scope cpp_scope.
Delimit Scope cpp_scope with cpp.
Notation "v .[ i ]" := (vget v i) (at level 1, left associativity, format "v .[ i ]") : cpp_scope.
Notation "v .[ i <- x ]" := (vset v i x) (at level 1, left associativity, format "v .[ i  <-  x ]") : cpp_scope.

(** Accesses in range: what the proofs about vectors close their side goals with. *)
Create HintDb cpp discriminated.
#[export] Hint Resolve vget_Some vset_lt vswap_lt lookup_lt_Some : cpp.
Create Rewrite HintDb cpp_length.
#[export] Hint Rewrite @length_insert @length_swap_at @length_app @length_replicate @length_fmap : cpp_length.

(** Length goals of updated vectors. *)
Ltac solve_length := autorewrite with cpp_length in *; (done || lia).

(** ** Orders supplied by the template arguments

    [StrictWeak] is what [std::less]-like functors must satisfy (the C++
    named requirement Compare); [StrictTotal] adds that incomparable keys are
    equal, which holds of the keys the trees are used with. *)
Class StrictWeak {T} (lt : T -> T -> bool) : Prop := {
  sw_irrefl : forall x, lt x x = false;
  sw_trans : forall x y z, lt x y = true -> lt y z = true -> lt x z = true;
  sw_cotrans : forall x y z, lt x y = false -> lt y z = false -> lt x z = false;
}.

Class StrictTotal {T} (lt : T -> T -> bool) : Prop := {
  st_weak :: StrictWeak lt;
  st_total : forall x y, lt x y = false -> lt y x = false -> x = y;
}.

Lemma sw_asym {T} (lt : T -> T -> bool) `{!StrictWeak lt} x y :
  lt x y = true -> lt y x = false.
Proof.
  intros H. destruct (lt y x) eqn:E; [|done].
  pose proof (sw_trans _ _ _ H E) as Hx. by rewrite (sw_irrefl x) in Hx.
Qed.

(** [x < y <= z] gives [x < z], and [x <= y < z] gives [x < z]. *)
Lemma sw_lt_le {T} (lt : T -> T -> bool) `{!StrictWeak lt} x y z :
  lt x y = true -> lt z y = false -> lt x z = true.
Proof.
  intros H1 H2. destruct (lt x z) eqn:E; [done|].
  by rewrite (sw_cotrans _ _ _ E H2) in H1.
Qed.

Lemma sw_le_lt {T} (lt : T -> T -> bool) `{!StrictWeak lt} x y z :
  lt y x = false -> lt y z = true -> lt x z = true.
Proof.
  intros H1 H2. destruct (lt x z) eqn:E; [done|].
  by rewrite (sw_cotrans _ _ _ H1 E) in H2.
Qed.

#[global] Instance nat_ltb_total : StrictTotal Nat.ltb.
Proof.
  split; [split|]; intros *; rewrite ?Nat.ltb_lt, ?Nat.ltb_ge, ?Nat.ltb_irrefl; try done; lia.
Qed.

#[global] Instance Z_ltb_total : StrictTotal Z.ltb.
Proof.
  split; [split|]; intros *; rewrite ?Z.ltb_lt, ?Z.ltb_ge, ?Z.ltb_irrefl; try done; lia.
Qed.

(** ** Machine integers: unsigned wrap, signed overflow undefined *)
Definition u32 (z : Z) : Z := (z mod 2 ^ 32)%Z.
Definition u64 (z : Z) : Z := (z mod 2 ^ 64)%Z.

Definition INT32_MAX : Z := 2147483647%Z.
Definition INT32_MIN : Z := (-2147483648)%Z.

Definition in_i32 (z : Z) : Prop := (INT32_MIN <= z <= INT32_MAX)%Z.
#[global] Instance in_i32_dec z : Decision (in_i32 z).
Proof. unfold in_i32. apply _. Defined.

(** [int32_t] addition. *)
Definition add32 (a b : Z) : outcome Z :=
  if decide (in_i32 (a + b)%Z) then Ret (a + b)%Z else Undef.

(** [++n] on an [int32_t] that counts from zero. *)
Definition inc32 (n : nat) : outcome nat := if decide (Z.of_nat n < INT32_MAX)%Z then Ret (S n) else Undef.

Lemma inc32_lt n : (Z.of_nat n < INT32_MAX)%Z -> inc32 n = Ret (S n).
Proof. intros. unfold inc32. by rewrite decide_True. Qed.

(** [static_cast<std::size_t>] of a floating-point number that truncates to [z]; [None] stands
    for the infinities and NaN.  What does not fit is undefined. *)
Definition to_size (q : option Z) : outcome Z :=
  match q with Some z => if decide (0 <= z < 2 ^ 64)%Z then Ret z else Undef | None => Undef end.

Lemma to_size_in z : (0 <= z < 2 ^ 64)%Z -> to_size (Some z) = Ret z.
Proof. intros. unfold to_size. by rewrite decide_True. Qed.

Lemma add32_in a b : in_i32 (a + b)%Z -> add32 a b = Ret (a + b)%Z.
Proof. intros. unfold add32. by rewrite decide_True. Qed.

Lemma u32_small z : (0 <= z < 2 ^ 32)%Z -> u32 z = z.
Proof. apply Z.mod_small. Qed.

Lemma u64_small z : (0 <= z < 2 ^ 64)%Z -> u64 z = z.
Proof. apply Z.mod_small. Qed.

(** [static_cast<int32_t>] of a wider integer. *)
Definition to_i32 (z : Z) : Z := ((z + 2 ^ 31) mod 2 ^ 32 - 2 ^ 31)%Z.

Lemma to_i32_in z : in_i32 z -> to_i32 z = z.
Proof.
  unfold in_i32, INT32_MIN, INT32_MAX, to_i32. intros H. rewrite Z.mod_small; [lia|].
  change (2 ^ 32)%Z with 4294967296%Z. change (2 ^ 31)%Z with 2147483648%Z. lia.
Qed.

(** Indexing a vector with [static_cast<size_t>] of an [int32_t]: a negative
    index becomes a huge one. *)
Definition vgetz {A} (v : list A) (i : Z) : outcome A := if decide (0 <= i)%Z then vget v (Z.to_nat i) else Undef.
Definition vsetz {A} (v : list A) (i : Z) (x : A) : outcome (list A) := if decide (0 <= i)%Z then vset v (Z.to_nat i) x else Undef.

Lemma vgetz_Some {A} (l : list A) i x : (0 <= i)%Z -> l !! Z.to_nat i = Some x -> vgetz l i = Ret x.
Proof. intros Hi Hx. unfold vgetz. rewrite decide_True by done. by apply vget_Some. Qed.

Lemma vsetz_lt {A} (l : list A) i x : (0 <= i < Z.of_nat (length l))%Z -> vsetz l i x = Ret (<[Z.to_nat i := x]> l).
Proof. intros Hi. unfold vsetz. rewrite decide_True by lia. apply vset_lt. lia. Qed.

Lemma lookup_z {A} (l : list A) i : (0 <= i < Z.of_nat (length l))%Z -> exists x, l !! Z.to_nat i = Some x.
Proof. intros Hi. apply lookup_lt_is_Some. lia. Qed.

(** Joining a field with disjoint low bits is addition. *)
Lemma lor_low (a b n : Z) :
  (0 <= n -> 0 <= b < 2 ^ n -> Z.lor (Z.shiftl a n) b = a * 2 ^ n + b)%Z.
Proof.
  intros Hn Hb. rewrite <- Z.shiftl_mul_pow2 by done.
  assert (Z.land (Z.shiftl a n) b = 0%Z) as Hz.
  { apply Z.bits_inj'. intros i Hi. rewrite Z.land_spec, Z.bits_0.
    destruct (Z.lt_ge_cases i n) as [Hlt|Hge]; [by rewrite Z.shiftl_spec_low|].
    assert (Z.testbit b i = false) as ->; [|apply andb_false_r].
    destruct (decide (b = 0%Z)) as [->|Hnz]; [apply Z.bits_0|].
    apply Z.bits_above_log2; [lia|]. apply Z.log2_lt_pow2; [lia|].
    apply Z.lt_le_trans with (2 ^ n)%Z; [lia|]. by apply Z.pow_le_mono_r. }
  by rewrite <- (Z.lxor_lor _ _ Hz), <- (Z.add_nocarry_lxor _ _ Hz).
Qed.

(** ** Smearing bits: [n |= n >> 1], [n |= n >> 2], ... *)
Definition smear (s n : Z) : Z := Z.lor n (Z.shiftr n s).

(** Bit [i] of [y] is set when one of the bits [i .. i + w - 1] of [x] is. *)
Definition smeared (w x y : Z) : Prop :=
  (0 <= y)%Z /\ forall i, (0 <= i)%Z -> Z.testbit y i = true <-> exists j, (i <= j < i + w)%Z /\ Z.testbit x j = true.

Lemma smear_smeared w x y : (0 < w)%Z -> smeared w x y -> smeared (2 * w) x (smear w y).
Proof.
  intros Hw [Hy Hb]. unfold smear. split; [apply Z.lor_nonneg; split; [done|by apply Z.shiftr_nonneg]|].
  intros i Hi. rewrite Z.lor_spec, Z.shiftr_spec, orb_true_iff, !Hb by lia. split.
  - intros [(j & Hj & Hx)|(j & Hj & Hx)]; exists j; (split; [lia|done]).
  - intros (j & Hj & Hx). destruct (decide (j < i + w)%Z); [left|right]; exists j; (split; [lia|done]).
Qed.

Lemma smeared_ones x y : (0 < x < 2 ^ 64)%Z -> smeared 64 x y -> y = Z.ones (Z.log2 x + 1).
Proof.
  intros Hx [Hy Hb]. apply Z.bits_inj'. intros i Hi.
  assert (Z.log2 x < 64)%Z by (apply Z.log2_lt_pow2; lia). pose proof (Z.log2_nonneg x).
  destruct (decide (i <= Z.log2 x)%Z) as [Hle|Hgt].
  - rewrite Z.ones_spec_low by lia. apply Hb; [done|]. exists (Z.log2 x). split; [lia|]. apply Z.bit_log2. lia.
  - rewrite Z.ones_spec_high by lia. apply not_true_iff_false. rewrite Hb by done. intros (j & Hj & Hx').
    rewrite Z.bits_above_log2 in Hx' by lia. done.
Qed.

(** The six steps for 64 bits set every bit below the first. *)
Lemma smear_all n : (0 <= n < 2 ^ 64)%Z -> smear 32 (smear 16 (smear 8 (smear 4 (smear 2 (smear 1 n))))) = if decide (n = 0)%Z then 0%Z else Z.ones (Z.log2 n + 1).
Proof.
  intros Hn. case_decide as H0; [by subst|]. apply smeared_ones; [lia|].
  apply (smear_smeared 32), (smear_smeared 16), (smear_smeared 8), (smear_smeared 4), (smear_smeared 2), (smear_smeared 1); try done.
  split; [lia|]. intros i Hi. split; [intros H; exists i; (split; [lia|done])|]. intros (j & Hj & H). by replace i with j by lia.
Qed.

(** ** Half-open ranges [\[l, r)] of a vector and their reduction *)
Definition slice {A} (l r : nat) (v : list A) : list A := take (r - l) (drop l v).

Section slices.
Context {A : Type}.
Implicit Types (v : list A) (x : A).

Lemma slice_nil l r v : r <= l -> slice l r v = [].
Proof. intros. unfold slice. by replace (r - l) with 0 by lia. Qed.

Lemma slice_app l m r v : l <= m -> m <= r -> slice l r v = slice l m v ++ slice m r v.
Proof.
  intros. unfold slice. replace (drop m v) with (drop (m - l) (drop l v)) by (rewrite drop_drop; f_equal; lia).
  replace (r - l) with ((m - l) + (r - m)) by lia. by rewrite take_take_drop.
Qed.

Lemma slice_one l v x : v !! l = Some x -> slice l (S l) v = [x].
Proof.
  intros Hx. unfold slice. rewrite (drop_S v x l Hx). replace (S l - l) with 1 by lia. done.
Qed.

Lemma slice_insert_out l r v i x : i < l \/ r <= i -> slice l r (<[i:=x]> v) = slice l r v.
Proof.
  intros Hi. unfold slice. apply list_eq. intros k.
  destruct (decide (k < r - l)); [|rewrite !lookup_take_ge by lia; done].
  rewrite !lookup_take by done. rewrite !lookup_drop. rewrite list_lookup_insert_ne; [done|lia].
Qed.

Lemma slice_full v : slice 0 (length v) v = v.
Proof. unfold slice. rewrite drop_0. apply take_ge. lia. Qed.

Lemma length_slice l r v : r <= length v -> length (slice l r v) = r - l.
Proof. intros. unfold slice. rewrite length_take, length_drop. lia. Qed.

Lemma lookup_slice l r v k : k < r - l -> slice l r v !! k = v !! (l + k).
Proof. intros. unfold slice. rewrite lookup_take_lt by lia. apply lookup_drop. Qed.
End slices.

(** [reduce op \[x1; ...; xn\]] is [op x1 (... xn)]; nothing for an empty list. *)
Section reduce.
Context {A : Type} (op : A -> A -> A).

Definition join (a b : option A) : option A := union_with (fun x y => Some (op x y)) a b.

Fixpoint reduce (xs : list A) : option A :=
  match xs with
  | [] => None
  | x :: xs => join (Some x) (reduce xs)
  end.

Lemma reduce_Some xs : xs <> [] -> exists v, reduce xs = Some v.
Proof. destruct xs as [|x xs]; [done|]. intros _. cbn. destruct (reduce xs); cbn; eauto. Qed.

Context `{!Assoc (=) op}.

Lemma join_assoc a b c : join a (join b c) = join (join a b) c.
Proof. destruct a, b, c; try done. cbn. by rewrite (assoc op). Qed.

Lemma reduce_app xs ys : reduce (xs ++ ys) = join (reduce xs) (reduce ys).
Proof.
  induction xs as [|x xs IH]; [cbn; by destruct (reduce ys)|].
  change ((x :: xs) ++ ys) with (x :: (xs ++ ys)). cbn [reduce]. rewrite IH. apply join_assoc.
Qed.
End reduce.
