(* ===== verification/Refinement.v ===== *)
(** * Refinement of components by abstract specifications

    A component is a step function from a state and an operation to an outcome;
    its contract is a step function of the same shape on an abstract state.  A
    client that catches an exception continues from the state before the call
    (the guards of the modelled operations throw before they change anything).
    The class [Simulates] is what a component proves, operation by operation;
    [trace_refines] is what its clients use: every sequence of operations
    observes what the specification says. *)

From S2P Require Import Prelude.

Section traces.
Context {St Op Obs : Type} (step : St -> Op -> outcome (St * Obs)).

(** Run a sequence of operations, recording what each returned or threw. *)
Fixpoint trace (s : St) (ops : list Op) : outcome (St * list (Obs + exn)) :=
  match ops with
  | [] => Ret (s, [])
  | op :: ops =>
    match step s op with
    | Ret (s, o) => '(s, os) ← trace s ops; Ret (s, inl o :: os)
    | Throw e => '(s, os) ← trace s ops; Ret (s, inr e :: os)
    | Undef => Undef
    | NoFuel => NoFuel
    end
  end.
End traces.

(** The concrete step does what the abstract one does; operations the
    specification leaves undefined (a violated precondition) are unconstrained. *)
Class Simulates {St Ab Op Obs : Type} (step : St -> Op -> outcome (St * Obs))
    (spec : Ab -> Op -> outcome (Ab * Obs)) (R : St -> Ab -> Prop) : Prop :=
  sim_step : forall s a op, R s a ->
    match spec a op with
    | Ret (a', o) => exists s', step s op = Ret (s', o) /\ R s' a'
    | Throw e => step s op = Throw e
    | Undef | NoFuel => True
    end.

(** A specification that never leaves an operation undefined. *)
Definition total_spec {Ab Op Obs} (spec : Ab -> Op -> outcome (Ab * Obs)) : Prop :=
  forall a op, spec a op <> Undef /\ spec a op <> NoFuel.

Section refinement.
Context {St Ab Op Obs : Type} {step : St -> Op -> outcome (St * Obs)}
  {spec : Ab -> Op -> outcome (Ab * Obs)} {R : St -> Ab -> Prop} `{!Simulates step spec R}.

Lemma trace_refines ops : forall s a a' os,
  R s a -> trace spec a ops = Ret (a', os) ->
  exists s', trace step s ops = Ret (s', os) /\ R s' a'.
Proof.
  induction ops as [|op ops IH]; intros s a a' os HR; cbn [trace]; [intros [= <- <-]; eauto|].
  pose proof (sim_step s a op HR) as Hs. destruct (spec a op) as [[a1 o]|e| |]; try done.
  - destruct Hs as (s1 & -> & HR1). intros ([a2 os2] & Ht & [= <- <-])%bind_Ret_inv.
    destruct (IH _ _ _ _ HR1 Ht) as (s2 & -> & HR2). exists s2. split; [done|done].
  - rewrite Hs. intros ([a2 os2] & Ht & [= <- <-])%bind_Ret_inv.
    destruct (IH _ _ _ _ HR Ht) as (s2 & -> & HR2). exists s2. split; [done|done].
Qed.

Lemma trace_total ops : total_spec spec -> forall a, exists a' os, trace spec a ops = Ret (a', os).
Proof.
  intros Ht. induction ops as [|op ops IH]; intros a; cbn [trace]; [eauto|].
  destruct (Ht a op) as [Hu Hf]. destruct (spec a op) as [[a1 o]|e| |]; try done.
  - destruct (IH a1) as (a2 & os & ->). exists a2, (inl o :: os). done.
  - destruct (IH a) as (a2 & os & ->). exists a2, (inr e :: os). done.
Qed.

(** A total specification decides every sequence of operations. *)
Lemma trace_refines_total ops s a :
  total_spec spec -> R s a ->
  exists s' a' os, trace spec a ops = Ret (a', os) /\ trace step s ops = Ret (s', os) /\ R s' a'.
Proof.
  intros Ht HR. destruct (trace_total ops Ht a) as (a' & os & Ha).
  destruct (trace_refines ops s a a' os HR Ha) as (s' & Hs & HR'). eauto 10.
Qed.
End refinement.

(** What an operation of a container returns to its caller. *)
Inductive obs (T : Type) :=
| ODone
| OVal (x : T)
| ONum (n : nat)
| OBool (b : bool)
| OSeq (l : list T)
| OOpt (x : option T).
Arguments ODone {T}.
Arguments OVal {T} x.
Arguments ONum {T} n.
Arguments OBool {T} b.
Arguments OSeq {T} l.
Arguments OOpt {T} x.
