(* ===== verification/BinaryHeap.v ===== *)
(** * Binary heap

    Models [data_structure/heap/Heap.hpp]: a [std::vector] kept in heap order
    by [heapify_up], [heapify_down] and Floyd's [heapify].  The comparison
    functor is the section variable [compare]; all indexing goes through
    [vget]/[vswap], so a result [Ret _] also says that no access was out of
    range. *)

From stdpp Require Import sorting.
From S2P Require Import Prelude Refinement.

Section heap.
  Context {T : Type} (compare : T -> T -> bool).

Record Heap := mkHeap { data_ : list T }.

Implicit Types (d : list T) (h : Heap) (x y : T).

(** ** Operations *)

Fixpoint heapify_up (fuel : nat) (d : list T) (index : nat) : outcome (list T) :=
  match fuel with
  | 0 => NoFuel
  | S fuel =>
    if decide (index = 0) then Ret d else
    let parent := (index - 1) / 2 in
    x ← vget d parent;
    y ← vget d index;
    if negb (compare x y) then Ret d else
    d' ← vswap d index parent;
    heapify_up fuel d' parent
  end.

Definition heap_target (d : list T) (index : nat) : outcome nat :=
  let size := length d in
  let left := 2 * index + 1 in
  let right := 2 * index + 2 in
  t ← (if decide (left < size) then
         x ← vget d index; y ← vget d left; Ret (if compare x y then left else index)
       else Ret index);
  if decide (right < size) then
    x ← vget d t; y ← vget d right; Ret (if compare x y then right else t)
  else Ret t.

Fixpoint heapify_down (fuel : nat) (d : list T) (index : nat) : outcome (list T) :=
  match fuel with
  | 0 => NoFuel
  | S fuel =>
    target ← heap_target d index;
    if decide (target = index) then Ret d else
    d' ← vswap d index target;
    heapify_down fuel d' target
  end.

(** [for (auto i = size / 2; i > 0; --i) heapify_down(i - 1);] *)
Fixpoint heapify_loop (d : list T) (i : nat) : outcome (list T) :=
  match i with
  | 0 => Ret d
  | S i' => d' ← heapify_down (S (length d)) d i'; heapify_loop d' i'
  end.

Definition heapify (h : Heap) : outcome Heap :=
  let size := length (data_ h) in
  if decide (size <= 1) then Ret h
  else mkHeap <$> heapify_loop (data_ h) (size / 2).

Definition heap_new : Heap := mkHeap [].

Definition heap_of_range (xs : list T) : outcome Heap := heapify (mkHeap xs).

Definition empty (h : Heap) : bool := bool_decide (data_ h = []).

Definition size (h : Heap) : nat := length (data_ h).

Definition push (h : Heap) (value : T) : outcome Heap :=
  let d := data_ h ++ [value] in
  mkHeap <$> heapify_up (S (length d)) d (length d - 1).

Definition pop (h : Heap) : outcome Heap :=
  if empty h then Throw out_of_range else
  d ← vswap (data_ h) 0 (length (data_ h) - 1);
  let d := take (length d - 1) d in
  if empty (mkHeap d) then Ret (mkHeap d)
  else mkHeap <$> heapify_down (S (length d)) d 0.

Definition top (h : Heap) : outcome T :=
  if empty h then Throw out_of_range else vget (data_ h) 0.

Definition clear (_ : Heap) : Heap := mkHeap [].

Definition swap (a b : Heap) : Heap * Heap := (b, a).

Definition validate_at (d : list T) (i : nat) : outcome bool :=
  let size := length d in
  let left := 2 * i + 1 in
  let right := 2 * i + 2 in
  l ← (if decide (left < size) then x ← vget d i; y ← vget d left; Ret (compare x y)
       else Ret false);
  if (l : bool) then Ret false else
  r ← (if decide (right < size) then x ← vget d i; y ← vget d right; Ret (compare x y)
       else Ret false);
  Ret (negb r).

(** The loop of [validate_heap_property], [n] iterations from index [i]. *)
Fixpoint validate_from (d : list T) (i n : nat) : outcome bool :=
  match n with
  | 0 => Ret true
  | S n => b ← validate_at d i; if (b : bool) then validate_from d (S i) n else Ret false
  end.

Definition validate_heap_property (d : list T) : outcome bool :=
  validate_from d 0 (length d).

Definition is_valid (h : Heap) : outcome bool := validate_heap_property (data_ h).

(** ** Invariant *)

(** The parent of [c] exists and the pair is in order. *)
Definition pair_ok d (c : nat) : Prop :=
  forall x y, d !! ((c - 1) / 2) = Some x -> d !! c = Some y -> compare x y = false.

(** Heap order for every node whose parent is at index [lo] or later. *)
Definition ordered_from (lo : nat) d : Prop :=
  forall c, 0 < c -> lo <= (c - 1) / 2 -> pair_ok d c.

Definition heap_ordered d : Prop := ordered_from 0 d.

Definition heap_ok h : Prop := heap_ordered (data_ h).

(** ** Lemmas *)

Context `{!StrictWeak compare}.

(** Grandparents are in order with the children of [k]. *)
Definition skip_ok d (k : nat) : Prop :=
  forall c x y, (c - 1) / 2 = k -> 0 < c ->
    d !! ((k - 1) / 2) = Some x -> d !! c = Some y -> compare x y = false.

Definition up_inv d (k : nat) : Prop :=
  (forall c, 0 < c -> c <> k -> pair_ok d c) /\ (0 < k -> skip_ok d k).

Definition down_inv (lo : nat) d (k : nat) : Prop :=
  (forall c, 0 < c -> lo <= (c - 1) / 2 -> (c - 1) / 2 <> k -> pair_ok d c) /\
  (0 < k -> lo <= (k - 1) / 2 -> skip_ok d k).

Lemma half_lt k : 0 < k -> (k - 1) / 2 < k.
Proof. intros. apply Nat.Div0.div_lt_upper_bound; lia. Qed.

Lemma child_parent c i : (c - 1) / 2 = i -> 0 < c -> c = 2 * i + 1 \/ c = 2 * i + 2.
Proof. intros. pose proof (Nat.div_mod_eq (c - 1) 2). pose proof (Nat.mod_upper_bound (c - 1) 2). lia. Qed.

Lemma parent_left i : (2 * i + 1 - 1) / 2 = i.
Proof. replace (2 * i + 1 - 1) with (i * 2) by lia. by apply Nat.div_mul. Qed.

Lemma parent_right i : (2 * i + 2 - 1) / 2 = i.
Proof. replace (2 * i + 2 - 1) with (1 + i * 2) by lia. by rewrite Nat.div_add. Qed.

(** Lookups in a swapped vector, by cases on the index. *)
Ltac lookup_swapped :=
  repeat match goal with
  | H : swap_at ?i ?j ?d !! ?k = Some _ |- _ =>
      rewrite (lookup_swap_at i j d k) in H by lia; repeat case_decide; simplify_eq
  end.

Lemma up_inv_step d k x y :
  0 < k -> k < length d ->
  d !! ((k - 1) / 2) = Some x -> d !! k = Some y -> compare x y = true ->
  up_inv d k -> up_inv (swap_at k ((k - 1) / 2) d) ((k - 1) / 2).
Proof.
  intros Hk Hlen Hx Hy Hlt [Hpairs Hskip]. pose proof (half_lt k Hk) as Hp.
  assert (Hsw := sw_asym compare x y Hlt). split.
  - intros c Hc Hcp u v Hu Hv. pose proof (half_lt c Hc). lookup_swapped; try lia.
    + done.
    + eapply sw_cotrans; [exact Hsw|]. eapply (Hpairs c Hc); eauto; congruence.
    + by eapply Hskip; eauto.
    + by eapply Hpairs; eauto.
  - intros Hp0 c u v Hcp Hc Hu Hv. pose proof (half_lt _ Hp0). lookup_swapped; try lia.
    + by eapply (Hpairs ((k - 1) / 2)); eauto; lia.
    + eapply sw_cotrans; [by eapply (Hpairs ((k - 1) / 2)); eauto; lia|].
      by eapply (Hpairs c Hc); eauto; congruence.
Qed.

Lemma heapify_up_spec fuel d k :
  k < fuel -> k < length d ->
  exists d', heapify_up fuel d k = Ret d' /\ d' ≡ₚ d /\ (up_inv d k -> heap_ordered d').
Proof.
  revert d k. induction fuel as [|fuel IH]; intros d k Hf Hk; [lia|]. cbn [heapify_up].
  case_decide as H0.
  { subst k. exists d. split_and!; [done..|]. intros [Hp _] c Hc _. apply Hp; lia. }
  assert (0 < k) as Hk0 by lia. pose proof (half_lt k Hk0) as Hp.
  destruct (vget_lt d ((k - 1) / 2)) as (x & Hx & ->); [lia|].
  destruct (vget_lt d k Hk) as (y & Hy & ->). cbn.
  destruct (compare x y) eqn:E; cbn.
  - rewrite vswap_lt by lia. cbn.
    destruct (IH (swap_at k ((k - 1) / 2) d) ((k - 1) / 2)) as (d' & -> & Hperm & Hinv);
      [lia|by rewrite length_swap_at; lia|].
    exists d'. split_and!; [done| |].
    + by rewrite Hperm, swap_at_Permutation.
    + intros Hup. apply Hinv. by eapply up_inv_step.
  - exists d. split_and!; [done..|]. intros [Hpairs _] c Hc _.
    destruct (decide (c = k)) as [->|]; [|by apply Hpairs].
    intros u v Hu Hv. congruence.
Qed.

(** [heapify_down]: the target is the largest of a node and its children. *)
Lemma heap_target_spec d k x :
  d !! k = Some x ->
  exists t y, heap_target d k = Ret t /\ d !! t = Some y /\
    ((t = k /\ forall c, (c - 1) / 2 = k -> 0 < c -> pair_ok d c) \/
     ((t - 1) / 2 = k /\ k < t /\ compare x y = true /\
      forall c z, (c - 1) / 2 = k -> 0 < c -> d !! c = Some z -> compare y z = false)).
Proof.
  intros Hx. unfold heap_target.
  pose proof (parent_left k) as Hl. pose proof (parent_right k) as Hr.
  assert (forall c, (c - 1) / 2 = k -> 0 < c -> c = 2 * k + 1 \/ c = 2 * k + 2) as Hch
    by (intros; by apply child_parent).
  destruct (d !! (2 * k + 1)) as [l|] eqn:Hlk.
  - assert (2 * k + 1 < length d) by (by eapply lookup_lt_Some).
    rewrite decide_True by done. rewrite (vget_Some _ _ _ Hx), (vget_Some _ _ _ Hlk). cbn.
    destruct (d !! (2 * k + 2)) as [r|] eqn:Hrk.
    + assert (2 * k + 2 < length d) by (by eapply lookup_lt_Some).
      rewrite decide_True by done. rewrite (vget_Some _ _ _ Hrk).
      destruct (compare x l) eqn:Exl.
      * rewrite (vget_Some _ _ _ Hlk). cbn. destruct (compare l r) eqn:Elr.
        -- exists (2 * k + 2), r. split_and!; [done..|right]. split_and!; [done|lia| |].
           ++ by eapply sw_trans.
           ++ intros c z Hc Hc0 Hz. destruct (Hch c Hc Hc0) as [->| ->]; simplify_eq.
              ** by apply sw_asym.
              ** apply sw_irrefl.
        -- exists (2 * k + 1), l. split_and!; [done..|right]. split_and!; [done|lia|done|].
           intros c z Hc Hc0 Hz. destruct (Hch c Hc Hc0) as [->| ->]; simplify_eq; [|done].
           apply sw_irrefl.
      * rewrite (vget_Some _ _ _ Hx). cbn. destruct (compare x r) eqn:Exr.
        -- exists (2 * k + 2), r. split_and!; [done..|right]. split_and!; [done|lia|done|].
           intros c z Hc Hc0 Hz. destruct (Hch c Hc Hc0) as [->| ->]; simplify_eq.
           ++ eapply sw_cotrans; [|exact Exl]. by apply sw_asym.
           ++ apply sw_irrefl.
        -- exists k, x. split_and!; [done..|left]. split; [done|].
           intros c Hc Hc0 u v Hu Hv. rewrite Hc in Hu.
           destruct (Hch c Hc Hc0) as [->| ->]; simplify_eq; done.
    + rewrite decide_False by (apply lookup_ge_None in Hrk; lia).
      destruct (compare x l) eqn:Exl.
      * exists (2 * k + 1), l. split_and!; [done..|right]. split_and!; [done|lia|done|].
        intros c z Hc Hc0 Hz. destruct (Hch c Hc Hc0) as [->| ->]; simplify_eq. apply sw_irrefl.
      * exists k, x. split_and!; [done..|left]. split; [done|].
        intros c Hc Hc0 u v Hu Hv. rewrite Hc in Hu.
        destruct (Hch c Hc Hc0) as [->| ->]; simplify_eq; done.
  - apply lookup_ge_None in Hlk. rewrite decide_False by lia. cbn.
    rewrite decide_False by lia. exists k, x. split_and!; [done..|left]. split; [done|].
    intros c Hc Hc0 u v Hu Hv. apply lookup_lt_Some in Hv.
    destruct (Hch c Hc Hc0) as [->| ->]; lia.
Qed.

Lemma down_inv_step lo d k t x y :
  lo <= k -> k < t -> (t - 1) / 2 = k -> t < length d ->
  d !! k = Some x -> d !! t = Some y -> compare x y = true ->
  (forall c z, (c - 1) / 2 = k -> 0 < c -> d !! c = Some z -> compare y z = false) ->
  down_inv lo d k -> down_inv lo (swap_at k t d) t.
Proof.
  intros Hlo Hkt Hpt Hlen Hx Hy Hlt Hmax [Hpairs Hskip].
  assert (Hsw := sw_asym compare x y Hlt). split.
  - intros c Hc Hloc Hct u v Hu Hv. pose proof (half_lt c Hc).
    destruct (decide ((c - 1) / 2 = k)) as [Hck|Hck].
    + rewrite Hck in Hu. lookup_swapped; try lia; [done|by eapply Hmax].
    + assert (c <> t) by congruence. destruct (decide (c = k)) as [->|].
      * lookup_swapped; try lia. by eapply (Hskip ltac:(lia) Hloc t); eauto; lia.
      * lookup_swapped. by eapply (Hpairs c).
  - intros Ht0 Hlot c u v Hc Hc0 Hu Hv. rewrite Hpt in Hu.
    pose proof (half_lt c Hc0). lookup_swapped; try lia.
    eapply (Hpairs c); first [done|lia].
Qed.

Lemma heapify_down_spec lo fuel d k :
  lo <= k -> length d - k < fuel -> k < length d ->
  exists d', heapify_down fuel d k = Ret d' /\ d' ≡ₚ d /\
    (down_inv lo d k -> ordered_from lo d').
Proof.
  revert d k. induction fuel as [|fuel IH]; intros d k Hlo Hf Hk; [lia|]. cbn [heapify_down].
  destruct (vget_lt d k Hk) as (x & Hx & _).
  destruct (heap_target_spec d k x Hx) as (t & y & -> & Hy & Ht). cbn.
  destruct Ht as [[-> Hch]|(Hpt & Hkt & Hlt & Hmax)].
  - rewrite decide_True by done. exists d. split_and!; [done..|]. intros [Hpairs _] c Hc Hloc.
    destruct (decide ((c - 1) / 2 = k)) as [Hck|Hck]; [by apply Hch|by apply Hpairs].
  - rewrite decide_False by lia. assert (t < length d) by (by eapply lookup_lt_Some).
    rewrite vswap_lt by lia. cbn.
    destruct (IH (swap_at k t d) t) as (d' & -> & Hperm & Hinv);
      [lia|rewrite length_swap_at; lia..|].
    exists d'. split_and!; [done|by rewrite Hperm, swap_at_Permutation|].
    intros Hd. apply Hinv. by eapply down_inv_step.
Qed.

Lemma ordered_from_weaken lo lo' d : lo <= lo' -> ordered_from lo d -> ordered_from lo' d.
Proof. intros ? H c ??. apply H; lia. Qed.

Lemma heapify_loop_spec d i :
  i <= length d -> exists d', heapify_loop d i = Ret d' /\ d' ≡ₚ d /\
    (ordered_from i d -> ordered_from 0 d').
Proof.
  revert d. induction i as [|i IH]; intros d Hi; [by exists d|]. cbn [heapify_loop].
  destruct (heapify_down_spec i (S (length d)) d i) as (d1 & -> & Hp1 & Ho1); [lia..|]. cbn.
  destruct (IH d1) as (d2 & -> & Hp2 & Ho2); [rewrite (Permutation_length Hp1); lia|].
  exists d2. split_and!; [done|by rewrite Hp2|]. intros Hd. apply Ho2, Ho1. split.
  - intros c Hc Hle Hne. apply Hd; lia.
  - intros Hi0 Hlt. pose proof (half_lt i Hi0). lia.
Qed.

Lemma heap_top_max d x y i :
  heap_ordered d -> d !! 0 = Some x -> d !! i = Some y -> compare x y = false.
Proof.
  intros Hd Hx. revert y. induction i as [i IH] using lt_wf_ind. intros y Hy.
  destruct (decide (i = 0)) as [->|]; [simplify_eq; apply sw_irrefl|].
  pose proof (half_lt i ltac:(lia)) as Hp. apply lookup_lt_Some in Hy as Hlt.
  destruct (vget_lt d ((i - 1) / 2) ltac:(lia)) as (z & Hz & _).
  eapply sw_cotrans; [by eapply IH|]. eapply (Hd i); eauto; lia.
Qed.

Lemma up_inv_snoc d v : heap_ordered d -> up_inv (d ++ [v]) (length d).
Proof.
  intros Hd. split.
  - intros c Hc Hne u w Hu Hw. pose proof (half_lt c Hc).
    apply lookup_lt_Some in Hw as Hlt. rewrite length_app in Hlt. cbn in Hlt.
    rewrite lookup_app_l in Hu, Hw by lia. by eapply (Hd c); eauto; lia.
  - intros _ c u w Hc Hc0 _ Hw. pose proof (half_lt c Hc0).
    apply lookup_lt_Some in Hw. rewrite length_app in Hw. cbn in Hw. lia.
Qed.

(** What [pop] does to the vector before sifting down. *)
Lemma pop_vector d x :
  d !! 0 = Some x ->
  let d' := take (length d - 1) (swap_at 0 (length d - 1) d) in
  x :: d' ≡ₚ d /\ (heap_ordered d -> down_inv 0 d' 0).
Proof.
  intros Hx d'. subst d'. set (d1 := swap_at 0 (length d - 1) d).
  apply lookup_lt_Some in Hx as Hlen. assert (length d1 = length d) as Hl1 by apply length_swap_at.
  assert (d1 !! (length d1 - 1) = Some x) as Hlast.
  { unfold d1. rewrite length_swap_at, lookup_swap_at by lia. by rewrite decide_True. }
  split.
  - transitivity d1; [|apply swap_at_Permutation].
    pose proof (take_last _ _ Hlast) as Hd1. rewrite Hl1 in Hd1.
    rewrite Hd1 at 2. apply Permutation_cons_append.
  - intros Hd. split; [|lia]. intros c Hc _ Hne u w Hu Hw.
    apply lookup_take_Some in Hu as [Hu ?], Hw as [Hw ?].
    unfold d1 in Hu, Hw. pose proof (half_lt c Hc). lookup_swapped; try lia.
    by eapply (Hd c); eauto; lia.
Qed.

(** ** Correctness *)

(** [push] on a valid heap succeeds without an out-of-range access, keeps
    the heap order, and stores exactly the old elements and the new one. *)
Lemma push_ok h value :
  heap_ok h ->
  exists h', push h value = Ret h' /\ heap_ok h' /\ data_ h' ≡ₚ value :: data_ h.
Proof.
  intros Hh. unfold push. set (d := data_ h ++ [value]).
  assert (length d = S (length (data_ h))) as Hl by (unfold d; rewrite length_app; cbn; lia).
  destruct (heapify_up_spec (S (length d)) d (length d - 1)) as (d' & -> & Hp & Ho); [lia..|].
  exists (mkHeap d'). split_and!; [done| |].
  - apply Ho. replace (length d - 1) with (length (data_ h)) by lia. by apply up_inv_snoc.
  - cbn. rewrite Hp. symmetry. apply Permutation_cons_append.
Qed.

(** on a valid non-empty heap [top] returns an element no other element
    exceeds, and [pop] removes exactly that element and keeps the heap order;
    on an empty heap both throw [std::out_of_range]. *)
Lemma top_pop_ok h :
  heap_ok h ->
  (data_ h = [] -> top h = Throw out_of_range /\ pop h = Throw out_of_range) /\
  (data_ h <> [] -> exists m h', top h = Ret m /\ pop h = Ret h' /\ heap_ok h' /\
     m :: data_ h' ≡ₚ data_ h /\ Forall (fun x => compare m x = false) (data_ h)).
Proof.
  intros Hh. unfold top, pop, empty. split.
  { intros ->. by rewrite bool_decide_true. }
  intros Hne. rewrite bool_decide_false by done.
  destruct (data_ h) as [|x0 rest] eqn:Ed; [done|]. rewrite <- Ed in *.
  assert (data_ h !! 0 = Some x0) as Hx0 by (by rewrite Ed).
  assert (0 < length (data_ h)) as Hlen by (rewrite Ed; cbn; lia).
  rewrite (vget_Some _ _ _ Hx0), vswap_lt by lia. rewrite bind_Ret, length_swap_at.
  cbn [data_].
  destruct (pop_vector (data_ h) x0 Hx0) as [Hperm Hinv]. specialize (Hinv Hh).
  set (d' := take (length (data_ h) - 1) (swap_at 0 (length (data_ h) - 1) (data_ h))) in *.
  assert (Forall (fun x => compare x0 x = false) (data_ h)) as Hmax.
  { apply Forall_lookup. intros i y Hy. by eapply heap_top_max. }
  case_bool_decide as Hd'.
  - exists x0, (mkHeap d'). split_and!; [done..| |done|done].
    unfold heap_ok. cbn. rewrite Hd'. by intros c ???? Hu.
  - destruct (heapify_down_spec 0 (S (length d')) d' 0) as (d2 & -> & Hp & Ho);
      [lia|lia|destruct d'; cbn; [done|lia]|].
    exists x0, (mkHeap d2). split_and!; [done..|by apply Ho| |done]. cbn. by rewrite Hp.
Qed.

(** constructing a heap from any range (Floyd's algorithm) succeeds and
    yields a valid heap holding exactly the elements of the range. *)
Lemma of_range_ok xs :
  exists h, heap_of_range xs = Ret h /\ heap_ok h /\ data_ h ≡ₚ xs.
Proof.
  unfold heap_of_range, heapify. cbn. case_decide as Hs.
  - exists (mkHeap xs). split_and!; [done| |done]. intros c Hc _ u w _ Hw. cbn in Hw.
    apply lookup_lt_Some in Hw. lia.
  - destruct (heapify_loop_spec xs (length xs / 2)) as (d & -> & Hp & Ho).
    { apply Nat.Div0.div_le_upper_bound; lia. }
    exists (mkHeap d). split_and!; [done| |done]. apply Ho. intros c Hc Hlo u w _ Hw.
    apply lookup_lt_Some in Hw.
    pose proof (Nat.div_mod_eq (length xs) 2). pose proof (Nat.div_mod_eq (c - 1) 2).
    pose proof (Nat.mod_upper_bound (length xs) 2). pose proof (Nat.mod_upper_bound (c - 1) 2).
    lia.
Qed.

Lemma validate_at_spec d i :
  i < length d -> exists b, validate_at d i = Ret b /\
    (b = true <-> pair_ok d (2 * i + 1) /\ pair_ok d (2 * i + 2)).
Proof.
  intros Hi. destruct (vget_lt d i Hi) as (x & Hx & Hgx). unfold validate_at, pair_ok. cbn zeta.
  rewrite parent_left, parent_right, Hgx, Hx.
  destruct (d !! (2 * i + 1)) as [l|] eqn:Hl.
  - apply lookup_lt_Some in Hl as Hll. rewrite (decide_True (P := 2 * i + 1 < length d)) by done.
    rewrite (vget_Some _ _ _ Hl). cbn.
    destruct (compare x l) eqn:Exl; [exists false; split; [done|]; split; [done|]; intros [Hp _]; by rewrite <- (Hp x l), Exl|].
    destruct (d !! (2 * i + 2)) as [r|] eqn:Hr.
    + apply lookup_lt_Some in Hr as Hrl. rewrite (decide_True (P := 2 * i + 2 < length d)) by done.
      rewrite (vget_Some _ _ _ Hr). cbn.
      exists (negb (compare x r)). split; [done|]. rewrite negb_true_iff. split; [naive_solver|].
      intros [_ Hp]. by apply Hp.
    + rewrite decide_False by (apply lookup_ge_None in Hr; lia). cbn. exists true. naive_solver.
  - apply lookup_ge_None in Hl as Hge. rewrite decide_False by lia. cbn.
    rewrite decide_False by lia. rewrite (lookup_ge_None_2 d (2 * i + 2)) by lia.
    exists true. naive_solver.
Qed.

Lemma validate_from_spec d n i :
  i + n = length d -> exists b, validate_from d i n = Ret b /\
    (b = true <-> forall c, 0 < c -> i <= (c - 1) / 2 -> pair_ok d c).
Proof.
  revert i. induction n as [|n IH]; intros i Hin; cbn [validate_from].
  { exists true. split; [done|]. split; [|done]. intros _ c Hc Hle u w Hu _.
    apply lookup_lt_Some in Hu. lia. }
  destruct (validate_at_spec d i) as (b & -> & Hb); [lia|]. cbn.
  destruct b.
  - destruct (IH (S i)) as (b' & -> & Hb'); [lia|]. exists b'. split; [done|].
    rewrite Hb'. destruct (proj1 Hb eq_refl) as [Hl Hr]. split; intros H c Hc Hle; [|apply H; lia].
    destruct (decide ((c - 1) / 2 = i)) as [Hci|]; [|apply H; lia].
    by destruct (child_parent c i Hci Hc) as [->| ->].
  - exists false. split; [done|]. split; [done|]. intros H. apply Hb. split; apply H; try lia.
    + by rewrite parent_left.
    + by rewrite parent_right.
Qed.

(** [is_valid] never reads out of range and decides the heap property. *)
Lemma is_valid_ok h :
  exists b, is_valid h = Ret b /\ (b = true <-> heap_ok h).
Proof.
  destruct (validate_from_spec (data_ h) (length (data_ h)) 0 eq_refl) as (b & Hb & Hiff).
  exists b. split; [done|]. rewrite Hiff. split; intros H c ?; apply H; lia.
Qed.

Lemma validated_ok h : is_valid h = Ret true -> heap_ok h.
Proof.
  intros Hv. destruct (validate_from_spec (data_ h) (length (data_ h)) 0 eq_refl) as (b & Hb & Hiff).
  unfold is_valid, validate_heap_property in Hv. rewrite Hv in Hb. injection Hb as <-.
  intros c ??. apply Hiff; [done..|lia].
Qed.

End heap.

(** ** Sequences of operations: a priority queue *)
Section priority_queue.
Context {T : Type} (compare : T -> T -> bool) `{!StrictTotal compare}.
Implicit Types (l : list T) (h : @Heap T) (x y v : T).

(** The specification: the elements in order of priority. *)
Definition descending l : Prop := StronglySorted (fun x y => compare x y = false) l.

Fixpoint pq_insert v l : list T :=
  match l with
  | [] => [v]
  | x :: l => if compare x v then v :: x :: l else x :: pq_insert v l
  end.

Lemma pq_insert_Permutation v l : pq_insert v l ≡ₚ v :: l.
Proof. induction l as [|x l IH]; cbn; [done|]. case_match; [done|]. rewrite IH. apply Permutation_swap. Qed.

Lemma pq_insert_descending v l : descending l -> descending (pq_insert v l).
Proof.
  induction 1 as [|x l Hs IH Hx]; cbn; [by repeat constructor|]. destruct (compare x v) eqn:E.
  - pose proof (sw_asym _ _ _ E) as Hvx. repeat constructor; try done.
    eapply Forall_impl; [exact Hx|]. cbn beta. intros y Hy. by apply (sw_cotrans v x y).
  - constructor; [done|]. rewrite pq_insert_Permutation. by constructor.
Qed.

Lemma sort_descending l : descending (foldr pq_insert [] l).
Proof. induction l; cbn; [constructor|]. by apply pq_insert_descending. Qed.

Lemma sort_Permutation l : foldr pq_insert [] l ≡ₚ l.
Proof. induction l as [|x l IH]; cbn; [done|]. by rewrite pq_insert_Permutation, IH. Qed.

Inductive heap_op := HPush v | HTop | HPop | HSize | HEmpty | HClear | HIsValid.

Definition heap_step h (o : heap_op) : outcome (@Heap T * obs T) :=
  match o with
  | HPush v => h ← push compare h v; Ret (h, ODone)
  | HTop => v ← top h; Ret (h, OVal v)
  | HPop => h ← pop compare h; Ret (h, ODone)
  | HSize => Ret (h, ONum (size h))
  | HEmpty => Ret (h, OBool (empty h))
  | HClear => Ret (clear h, ODone)
  | HIsValid => b ← is_valid compare h; Ret (h, OBool b)
  end.

Definition heap_spec l (o : heap_op) : outcome (list T * obs T) :=
  match o, l with
  | HPush v, _ => Ret (pq_insert v l, ODone)
  | HTop, x :: _ => Ret (l, OVal x)
  | HPop, _ :: l => Ret (l, ODone)
  | HTop, [] | HPop, [] => Throw out_of_range
  | HSize, _ => Ret (l, ONum (length l))
  | HEmpty, _ => Ret (l, OBool (bool_decide (l = [])))
  | HClear, _ => Ret ([], ODone)
  | HIsValid, _ => Ret (l, OBool true)
  end.

Definition heap_rep h l : Prop := heap_ok compare h /\ data_ h ≡ₚ l /\ descending l.

(** The element no other exceeds is the first of the sorted sequence. *)
Lemma descending_max m x l :
  descending (x :: l) -> m ∈ x :: l -> Forall (fun y => compare m y = false) (x :: l) -> m = x.
Proof.
  intros [_ Hx]%StronglySorted_inv Hm Hall. apply st_total.
  - rewrite Forall_forall in Hall. apply Hall, list_elem_of_here.
  - apply elem_of_cons in Hm as [->|Hm]; [apply sw_irrefl|]. rewrite Forall_forall in Hx. by apply Hx.
Qed.

#[global] Instance heap_simulates : Simulates heap_step heap_spec heap_rep.
Proof.
  intros h l o (Hok & Hp & Hl). destruct o as [v| | | | | |]; cbn [heap_step heap_spec].
  - destruct (push_ok compare h v Hok) as (h' & -> & Hok' & Hp'). exists h'. split; [done|]. split; [done|].
    split; [by rewrite Hp', pq_insert_Permutation, Hp|by apply pq_insert_descending].
  - destruct (top_pop_ok compare h Hok) as [He Hne]. destruct l as [|x l].
    + apply Permutation_nil_r in Hp. by destruct (He Hp) as [-> _].
    + destruct Hne as (m & h' & -> & _ & _ & Hm & Hall); [intros E; rewrite E in Hp; by apply Permutation_nil_l in Hp|].
      rewrite Hp in Hm, Hall. assert (m = x) as ->.
      { apply (descending_max m x l); [done| |done]. rewrite <- Hm. apply list_elem_of_here. }
      by exists h.
  - destruct (top_pop_ok compare h Hok) as [He Hne]. destruct l as [|x l].
    + apply Permutation_nil_r in Hp. by destruct (He Hp) as [_ ->].
    + destruct Hne as (m & h' & _ & -> & Hok' & Hm & Hall); [intros E; rewrite E in Hp; by apply Permutation_nil_l in Hp|].
      rewrite Hp in Hm, Hall. assert (m = x) as ->.
      { apply (descending_max m x l); [done| |done]. rewrite <- Hm. apply list_elem_of_here. }
      exists h'. split; [done|]. split; [done|]. split; [by apply Permutation_cons_inv in Hm|by apply StronglySorted_inv in Hl as [? _]].
  - exists h. split; [|done]. unfold size. by rewrite Hp.
  - exists h. split; [|done]. unfold empty. do 3 f_equal. apply bool_decide_ext. split; intros E; rewrite E in Hp;
      [by apply Permutation_nil_l in Hp|by apply Permutation_nil_r in Hp].
  - exists (clear h). split; [done|]. split; [by intros c ???? Hu|]. split; [done|constructor].
  - destruct (is_valid_ok compare h) as (b & -> & Hb). apply Hb in Hok as ->. exists h. split; [done|]. split; [by apply Hb|done].
Qed.

(** from any range the heap is built, and every sequence of operations then
    observes what it observes on the sequence of elements sorted by priority: [top]
    is the first and [pop] removes it, an empty heap throws, and no access is out
    of range. *)
Theorem heap_refines xs ops :
  exists h h' l' os, heap_of_range compare xs = Ret h /\
    trace heap_spec (foldr pq_insert [] xs) ops = Ret (l', os) /\ trace heap_step h ops = Ret (h', os) /\ heap_rep h' l'.
Proof.
  destruct (of_range_ok compare xs) as (h & Hh & Hok & Hp). exists h.
  destruct (trace_refines_total (R := heap_rep) (step := heap_step) (spec := heap_spec) ops h (foldr pq_insert [] xs))
    as (h' & l' & os & H1 & H2 & H3).
  - intros l o. destruct o, l; cbn; done.
  - split; [done|]. split; [by rewrite Hp, sort_Permutation|apply sort_descending].
  - by exists h', l', os.
Qed.
End priority_queue.

Section heap_witnesses.

#[local] Definition h0 : Heap := @mkHeap nat [9; 5; 7; 1].

Lemma h0_ok : heap_ok Nat.ltb h0.
Proof. apply validated_ok. reflexivity. Qed.

Lemma heap_push_witness :
  heap_ok Nat.ltb h0 /\ exists h', push Nat.ltb h0 8 = Ret h' /\ data_ h' = [9; 8; 7; 1; 5].
Proof.
  split; [exact h0_ok|].
  destruct (push_ok Nat.ltb h0 8 h0_ok) as (h' & Hp & _).
  exists h'. split; [exact Hp|]. vm_compute in Hp. injection Hp as <-. reflexivity.
Defined.

Lemma heap_top_pop_witness :
  heap_ok Nat.ltb h0 /\ exists h', pop Nat.ltb h0 = Ret h' /\ 9 :: data_ h' ≡ₚ data_ h0.
Proof.
  split; [exact h0_ok|].
  destruct (proj2 (top_pop_ok Nat.ltb h0 h0_ok) ltac:(discriminate))
    as (m & h' & Hm & Hp & _ & Hperm & _).
  exists h'. split; [exact Hp|]. vm_compute in Hm. injection Hm as <-. exact Hperm.
Defined.

Lemma heap_of_range_witness :
  exists h, heap_of_range Nat.ltb [3; 1; 4; 1; 5] = Ret h /\ data_ h ≡ₚ [3; 1; 4; 1; 5].
Proof.
  destruct (of_range_ok Nat.ltb [3; 1; 4; 1; 5]) as (h & Hh & _ & Hp). by exists h.
Defined.

Lemma heap_is_valid_witness : is_valid Nat.ltb (mkHeap [2; 3]) = Ret false /\ ~ heap_ok Nat.ltb (mkHeap [2; 3]).
Proof.
  split; [reflexivity|]. destruct (is_valid_ok Nat.ltb (mkHeap [2; 3])) as (b & Hb & Hiff).
  vm_compute in Hb. injection Hb as <-. intros H. apply Hiff in H. discriminate.
Defined.

Lemma heap_refines_witness :
  exists h h', heap_of_range Nat.ltb [3; 1; 4; 1; 5] = Ret h /\
    trace (heap_step Nat.ltb) h [HTop; HPush 9; HPop; HPop; HTop; HIsValid; HClear; HPop] =
      Ret (h', [inl (OVal 5); inl ODone; inl ODone; inl ODone; inl (OVal 4); inl (OBool true); inl ODone; inr out_of_range]).
Proof.
  destruct (heap_refines Nat.ltb [3; 1; 4; 1; 5] [HTop; HPush 9; HPop; HPop; HTop; HIsValid; HClear; HPop])
    as (h & h' & l' & os & H1 & H2 & H3 & _).
  vm_compute in H2. injection H2 as <- <-. exists h, h'. split; [exact H1|exact H3].
Defined.

End heap_witnesses.
