(* ===== verification/Forest.v ===== *)
(** * Parent-pointer forests

    The reasoning shared by the three disjoint-set structures of the library
    ([UnionSet], [UnionSetWithRollback] and the [UnionFind] inside
    [KruskalMST.cc]).  A forest is a partial parent function [p]; a root is its
    own parent.  [dsu_wf] is the invariant of union by rank: parents have
    larger ranks, and a root of rank [k] has at least [2 ^ k] descendants,
    which bounds ranks by the logarithm of the number of elements and so
    bounds the length of every find loop. *)

From S2P Require Import Prelude.

Section forest.
  Context {A : Type} `{Countable A}.
  Implicit Types (p : A -> option A) (rk : A -> nat) (x y r : A).

(** [reaches p x r]: following parents from [x] ends in the root [r]. *)
Inductive reaches p : A -> A -> Prop :=
| reaches_root r : p r = Some r -> reaches p r r
| reaches_step x y r : p x = Some y -> x <> y -> reaches p y r -> reaches p x r.

(** Two elements are in the same set; unregistered elements are singletons. *)
Definition conn p x y : Prop := x = y \/ exists r, reaches p x r /\ reaches p y r.

Record dsu_wf p rk : Prop := {
  wf_total : forall x, is_Some (p x) -> exists r, reaches p x r;
  wf_rank : forall x y, p x = Some y -> x <> y -> rk x < rk y;
  wf_size : forall r, p r = Some r ->
    exists X : gset A, (forall y, y ∈ X -> reaches p y r) /\ 2 ^ rk r <= size X;
}.

(** ** Reachability *)

Lemma reaches_is_root p x r : reaches p x r -> p r = Some r.
Proof. by induction 1. Qed.

Lemma reaches_dom p x r : reaches p x r -> is_Some (p x).
Proof. destruct 1; eauto. Qed.

Lemma reaches_det p x r r' : reaches p x r -> reaches p x r' -> r = r'.
Proof.
  intros Hr. revert r'. induction Hr as [r Hr|x y r Hx Hxy Hy IH]; intros r' H2.
  - destruct H2 as [|? ? ? Hp Hne]; [done|]. congruence.
  - destruct H2 as [|? ? ? Hp Hne H2]; [congruence|]. apply IH. by simplify_eq.
Qed.

Lemma reaches_from_root p r r' : p r = Some r -> reaches p r r' -> r' = r.
Proof. intros Hr H1. eapply reaches_det; [done|]. by apply reaches_root. Qed.

Lemma reaches_rank p rk x r : dsu_wf p rk -> reaches p x r -> rk x <= rk r.
Proof.
  intros Hwf. induction 1 as [|x y r Hx Hxy _ IH]; [done|].
  pose proof (wf_rank _ _ Hwf x y Hx Hxy). lia.
Qed.

Lemma reaches_ext p p' x r : (forall z, p z = p' z) -> reaches p x r -> reaches p' x r.
Proof.
  intros He. induction 1 as [r Hr|x y r Hx Hxy _ IH].
  - apply reaches_root. by rewrite <- He.
  - eapply reaches_step; [by rewrite <- He|done|done].
Qed.

Lemma dsu_wf_ext p p' rk : (forall z, p z = p' z) -> dsu_wf p rk -> dsu_wf p' rk.
Proof.
  intros He [H1 H2 H3]. split.
  - intros x. rewrite <- He. intros [r Hr]%H1. exists r. by eapply reaches_ext.
  - intros x y. rewrite <- He. apply H2.
  - intros r. rewrite <- He. intros (X & HX & Hs)%H3. exists X. split; [|done].
    intros y Hy. eapply reaches_ext; [done|by apply HX].
Qed.

Lemma conn_ext p p' x y : (forall z, p z = p' z) -> conn p x y -> conn p' x y.
Proof.
  intros He [->|(r & H1 & H2)]; [by left|]. right. exists r.
  split; by eapply reaches_ext.
Qed.

#[global] Instance conn_equiv p : Equivalence (conn p).
Proof.
  split; [by left| |].
  - intros x y [->|(r & ? & ?)]; [by left|]. right. by exists r.
  - intros x y z [->|(r & Hx & Hy)]; [done|]. intros [<-|(r' & Hy' & Hz)].
    + right. by exists r.
    + right. exists r. split; [done|]. by rewrite (reaches_det _ _ _ _ Hy Hy').
Qed.

Lemma conn_reaches p x y r s : reaches p x r -> reaches p y s -> conn p x y <-> r = s.
Proof.
  intros Hx Hy. split; [|intros ->; right; eauto]. intros [->|(t & Ht & Ht')].
  - by eapply reaches_det.
  - rewrite (reaches_det _ _ _ _ Hx Ht). by rewrite (reaches_det _ _ _ _ Hy Ht').
Qed.

Lemma conn_rep p x y r : conn p x y -> reaches p x r -> reaches p y r.
Proof. intros [->|(r' & Hx & Hy)] Hr; [done|]. by rewrite (reaches_det _ _ _ _ Hr Hx). Qed.

(** The rank of a root is below the number of elements. *)
Lemma rank_bound p rk r (D : gset A) :
  dsu_wf p rk -> (forall z, is_Some (p z) -> z ∈ D) -> p r = Some r -> 2 ^ rk r <= size D.
Proof.
  intros Hwf HD (X & HX & Hs)%(wf_size _ _ Hwf). etransitivity; [exact Hs|].
  apply subseteq_size. intros y Hy. apply HD. by eapply reaches_dom, HX.
Qed.

(** ** The three updates of the structures *)

(** A new element is its own root with rank 0. *)
Lemma register_wf p rk x p' :
  dsu_wf p rk -> p x = None -> rk x = 0 ->
  (forall z, p' z = if decide (z = x) then Some x else p z) ->
  dsu_wf p' rk /\ (forall a r, reaches p a r -> reaches p' a r) /\
  (forall a b, conn p' a b <-> conn p a b).
Proof.
  intros Hwf Hx Hrk Hp'.
  assert (p' x = Some x) as Hx' by (rewrite Hp'; by rewrite decide_True).
  assert (forall a r, reaches p a r -> reaches p' a r) as Hmono.
  { induction 1 as [r Hr|a b r Ha Hab _ IH].
    - apply reaches_root. rewrite Hp'. case_decide; congruence.
    - eapply reaches_step; [|done|done]. rewrite Hp'. case_decide; congruence. }
  assert (forall a r, reaches p' a r -> (a = x /\ r = x) \/ reaches p a r) as Hinv.
  { induction 1 as [r Hr|a b r Ha Hab Hb IH]; rewrite Hp' in *; case_decide; simplify_eq.
    - by left.
    - right. by apply reaches_root.
    - destruct IH as [[-> ->]|IH]; [|right; by eapply reaches_step].
      exfalso. (* a registered element never points to an unregistered one *)
      destruct (wf_total _ _ Hwf a) as [s Hs]; [by eexists|].
      destruct Hs as [|? ? ? Ha' ? Hs]; [congruence|]. simplify_eq.
      apply reaches_dom in Hs as [? ?]. congruence. }
  split; [split|split; [exact Hmono|]].
  - intros z. rewrite Hp'. case_decide as Hz.
    + subst z. intros _. exists x. by apply reaches_root.
    + intros [r Hr]%(wf_total _ _ Hwf). exists r. by apply Hmono.
  - intros a b. rewrite Hp'. case_decide; [congruence|]. by apply (wf_rank _ _ Hwf).
  - intros r. rewrite Hp'. case_decide as Hr.
    + subst r. intros _. exists {[x]}. rewrite size_singleton, Hrk. split; [|done].
      intros y ->%elem_of_singleton. by apply reaches_root.
    + intros (X & HX & Hs)%(wf_size _ _ Hwf). exists X. split; [|done].
      intros y Hy. by apply Hmono, HX.
  - intros a b. split; (intros [->|(r & Ha & Hb)]; [by left|]).
    + apply Hinv in Ha as [[-> ->]|Ha], Hb as [[-> Hb]|Hb]; subst; [by left| | |right; eauto].
      * apply reaches_is_root in Hb. congruence.
      * apply reaches_is_root in Ha. congruence.
    + right. eauto.
Qed.

(** Path compression: [x] is redirected to its root. *)
Lemma compress_wf p rk x r p' :
  dsu_wf p rk -> reaches p x r -> x <> r ->
  (forall z, p' z = if decide (z = x) then Some r else p z) ->
  dsu_wf p' rk /\ (forall a s, reaches p' a s <-> reaches p a s).
Proof.
  intros Hwf Hx Hne Hp'. pose proof (reaches_is_root _ _ _ Hx) as Hr.
  assert (p' r = Some r) as Hr' by (rewrite Hp'; by rewrite decide_False).
  assert (forall a s, reaches p a s -> reaches p' a s) as Hmono.
  { induction 1 as [s Hs|a b s Ha Hab Hb IH].
    - apply reaches_root. rewrite Hp'. case_decide; [|done]. subst s.
      by rewrite (reaches_from_root _ _ _ Hs Hx) in Hne.
    - destruct (decide (a = x)) as [->|].
      + assert (reaches p x s) as Hxs by (by eapply reaches_step).
        rewrite (reaches_det _ _ _ _ Hxs Hx). eapply (reaches_step _ x r); [|done|by apply reaches_root].
        rewrite Hp'. by rewrite decide_True.
      + eapply (reaches_step _ a b); [|done|done]. rewrite Hp'. by rewrite decide_False. }
  assert (forall a s, reaches p' a s -> reaches p a s) as Hback.
  { induction 1 as [s Hs|a b s Ha Hab Hb IH]; rewrite Hp' in *; case_decide; simplify_eq.
    - by apply reaches_root.
    - by rewrite (reaches_from_root _ _ _ Hr IH).
    - by eapply reaches_step. }
  split; [split|by split; auto].
  - intros z. rewrite Hp'. case_decide as Hz.
    + subst z. intros _. exists r. by apply Hmono.
    + intros [s Hs]%(wf_total _ _ Hwf). exists s. by apply Hmono.
  - intros a b. rewrite Hp'. case_decide as Ha; [|by apply (wf_rank _ _ Hwf)].
    intros [= <-] Har. subst a. destruct Hx as [|x y r Hxy Hne' Hyr]; [done|].
    pose proof (wf_rank _ _ Hwf x y Hxy Hne'). pose proof (reaches_rank _ _ _ _ Hwf Hyr). lia.
  - intros s. rewrite Hp'. case_decide; [congruence|].
    intros (X & HX & Hs)%(wf_size _ _ Hwf). exists X. split; [|done].
    intros y Hy. by apply Hmono, HX.
Qed.

Lemma conn_of_reaches p p' :
  (forall a s, reaches p' a s <-> reaches p a s) -> forall a b, conn p' a b <-> conn p a b.
Proof. intros He a b. unfold conn. by setoid_rewrite He. Qed.

(** Linking the root [a] below the root [b]; [up] says that the ranks were
    equal and [b]'s was incremented. *)
Lemma link_wf p rk a b p' rk' (up : bool) :
  dsu_wf p rk -> p a = Some a -> p b = Some b -> a <> b ->
  (if up then rk a = rk b else rk a < rk b) ->
  (forall z, p' z = if decide (z = a) then Some b else p z) ->
  (forall z, rk' z = if decide (z = b) then (if up then S (rk b) else rk b) else rk z) ->
  dsu_wf p' rk' /\ (forall x r, reaches p' x r <->
     (reaches p x r /\ r <> a) \/ (reaches p x a /\ r = b)).
Proof.
  intros Hwf Ha Hb Hab Hup Hp' Hrk'.
  assert (p' b = Some b) as Hb' by (rewrite Hp'; by rewrite decide_False).
  assert (forall x r, reaches p x r -> reaches p' x (if decide (r = a) then b else r)) as Hmono.
  { induction 1 as [r Hr|x y r Hx Hxy Hy IH].
    - case_decide as Hra; [subst r|].
      + eapply (reaches_step _ a b); [|done|by apply reaches_root]. by rewrite Hp', decide_True.
      + apply reaches_root. by rewrite Hp', decide_False.
    - eapply reaches_step; [|done|exact IH]. rewrite Hp'. rewrite decide_False; [done|congruence]. }
  assert (forall x r, reaches p' x r ->
    (reaches p x r /\ r <> a) \/ (reaches p x a /\ r = b)) as Hinv.
  { induction 1 as [r Hr|x y r Hx Hxy Hy IH]; rewrite Hp' in *; case_decide; simplify_eq.
    - left. split; [by apply reaches_root|done].
    - right. split; [by apply reaches_root|].
      destruct IH as [[IH _]|[IH _]]; [by eapply reaches_from_root|].
      by pose proof (reaches_from_root _ _ _ Hb IH).
    - destruct IH as [[IH ?]|[IH ->]]; [left|right]; (split; [by eapply reaches_step|done]). }
  assert (forall x, rk x <= rk' x) as Hrkmono.
  { intros x. rewrite Hrk'. case_decide; [subst|done]. destruct up; lia. }
  split; [split|].
  - intros z Hz. assert (is_Some (p z)) as [r Hr]%(wf_total _ _ Hwf).
    { rewrite Hp' in Hz. case_decide; [subst; by eexists|done]. }
    eexists. by apply Hmono.
  - intros x y. rewrite Hp'. case_decide as Hxa.
    + intros [= <-] _. subst x. rewrite !Hrk', decide_False, decide_True by done.
      destruct up; lia.
    + intros Hxy Hne. pose proof (wf_rank _ _ Hwf x y Hxy Hne). pose proof (Hrkmono y).
      rewrite (Hrk' x). case_decide; [subst; congruence|lia].
  - intros r. rewrite Hp'. case_decide as Hra; [congruence|]. intros Hr.
    destruct (wf_size _ _ Hwf r Hr) as (X & HX & Hs). rewrite Hrk'. case_decide as Hrb.
    + subst r. destruct up.
      * destruct (wf_size _ _ Hwf a Ha) as (Y & HY & HsY). exists (X ∪ Y). split.
        -- intros y [Hy|Hy]%elem_of_union.
           ++ pose proof (Hmono _ _ (HX y Hy)) as Hm. by rewrite decide_False in Hm.
           ++ pose proof (Hmono _ _ (HY y Hy)) as Hm. by rewrite decide_True in Hm.
        -- rewrite size_union.
           ++ rewrite Hup in HsY. rewrite Nat.pow_succ_r'. lia.
           ++ intros y Hy1 Hy2. by rewrite (reaches_det _ _ _ _ (HX y Hy1) (HY y Hy2)) in Hra.
      * exists X. split; [|done]. intros y Hy. pose proof (Hmono _ _ (HX y Hy)) as Hm.
        by rewrite decide_False in Hm.
    + exists X. split; [|done]. intros y Hy. pose proof (Hmono _ _ (HX y Hy)) as Hm.
      by rewrite decide_False in Hm.
  - intros x r. split; [apply Hinv|]. intros [[Hx Hne]|[Hx ->]]; apply Hmono in Hx.
    + by rewrite decide_False in Hx.
    + by rewrite decide_True in Hx.
Qed.

(** After linking two roots, exactly their classes are merged. *)
Lemma link_conn p p' x y a b :
  (forall z r, reaches p' z r <-> (reaches p z r /\ r <> a) \/ (reaches p z a /\ r = b)) ->
  reaches p x a -> reaches p y b -> a <> b ->
  forall u v, conn p' u v <->
    conn p u v \/ (conn p u x /\ conn p y v) \/ (conn p u y /\ conn p x v).
Proof.
  intros Hlink Hx Hy Hab u v.
  assert (forall z, conn p z x <-> reaches p z a) as Hzx.
  { intros z. split; [intros Hc; symmetry in Hc; by eapply conn_rep|intros; right; eauto]. }
  assert (forall z, conn p z y <-> reaches p z b) as Hzy.
  { intros z. split; [intros Hc; symmetry in Hc; by eapply conn_rep|intros; right; eauto]. }
  assert (forall z, conn p x z <-> reaches p z a) as Hxz by (intros; rewrite <- Hzx; split; by intros <-).
  assert (forall z, conn p y z <-> reaches p z b) as Hyz by (intros; rewrite <- Hzy; split; by intros <-).
  rewrite Hzx, Hzy, Hxz, Hyz. split.
  - intros [->|(r & [[Hu ?]|[Hu ->]]%Hlink & [[Hv Hr]|[Hv Hr]]%Hlink)].
    + by left; left.
    + left. right. eauto.
    + subst r. right. right. eauto.
    + right. left. eauto.
    + left. right. eauto.
  - assert (reaches p b b) as Hbb by (apply reaches_root; by eapply reaches_is_root).
    intros [[->|(r & Hu & Hv)]|[[Hu Hv]|[Hu Hv]]]; [by left|..]; right.
    + destruct (decide (r = a)) as [->|].
      * exists b. rewrite !Hlink. by split; right.
      * exists r. rewrite !Hlink. by split; left.
    + exists b. rewrite !Hlink. split; [by right|left; split; [done|congruence]].
    + exists b. rewrite !Hlink. split; [left; split; [done|congruence]|by right].
Qed.

End forest.
