(* ===== verification/UnionSet.v ===== *)
(** * Disjoint sets over arbitrary keys

    Models [data_structure/union_find/UnionSet.hpp]: two hash maps, union by
    rank and two-pass path compression.  [operator\[\]] of
    [std::unordered_map] inserts a value-initialised entry for a missing key;
    [idx_parent] and [idx_rank] keep that behaviour ([T_default] stands for
    [T\{\}]), and the proofs show it is never exercised. *)

From S2P Require Import Prelude Forest.

Section union_set.
  Context {T : Type} `{Countable T} (T_default : T).

Record UnionSet := mkUnionSet {
  parent_ : gmap T T;
  rank_ : gmap T Z;
}.

Implicit Types (s : UnionSet) (x y r z : T).

(** ** Operations *)

Definition idx_parent s x : T * UnionSet :=
  match parent_ s !! x with
  | Some p => (p, s)
  | None => (T_default, mkUnionSet (<[x:=T_default]> (parent_ s)) (rank_ s))
  end.

Definition idx_rank s x : Z * UnionSet :=
  match rank_ s !! x with
  | Some k => (k, s)
  | None => (0%Z, mkUnionSet (parent_ s) (<[x:=0%Z]> (rank_ s)))
  end.

Definition set_parent s x p : UnionSet := mkUnionSet (<[x:=p]> (parent_ s)) (rank_ s).
Definition set_rank s x k : UnionSet := mkUnionSet (parent_ s) (<[x:=k]> (rank_ s)).

Definition union_set_new : UnionSet := mkUnionSet ∅ ∅.

(** [try_emplace] on both maps. *)
Definition ensureRegistered s x : UnionSet :=
  mkUnionSet
    (match parent_ s !! x with Some _ => parent_ s | None => <[x:=x]> (parent_ s) end)
    (match rank_ s !! x with Some _ => rank_ s | None => <[x:=0%Z]> (rank_ s) end).

(** [while (parent_\[root\] != root) root = parent_\[root\];] *)
Fixpoint find_root (fuel : nat) s root : outcome (T * UnionSet) :=
  match fuel with
  | 0 => NoFuel
  | S fuel =>
    let '(p, s) := idx_parent s root in
    if decide (p = root) then Ret (root, s) else
    let '(p, s) := idx_parent s root in
    find_root fuel s p
  end.

(** The second loop: every node on the path is hung below [root]. *)
Fixpoint compress (fuel : nat) s cur root : outcome UnionSet :=
  match fuel with
  | 0 => NoFuel
  | S fuel =>
    let '(p, s) := idx_parent s cur in
    if decide (p = root) then Ret s else
    let '(next, s) := idx_parent s cur in
    compress fuel (set_parent s cur root) next root
  end.

Definition find s x : outcome (T * UnionSet) :=
  let s := ensureRegistered s x in
  let n := S (size (parent_ s)) in
  '(root, s) ← find_root n s x;
  s ← compress n s x root;
  Ret (root, s).

Definition unionSets s x y : outcome (bool * UnionSet) :=
  '(rootX, s) ← find s x;
  '(rootY, s) ← find s y;
  if decide (rootX = rootY) then Ret (false, s) else
  let '(rx, s) := idx_rank s rootX in
  let '(ry, s) := idx_rank s rootY in
  if (rx <? ry)%Z then Ret (true, set_parent s rootX rootY)
  else if (rx >? ry)%Z then Ret (true, set_parent s rootY rootX)
  else Ret (true, set_rank (set_parent s rootY rootX) rootX (u32 (rx + 1))).

Definition connected s x y : outcome (bool * UnionSet) :=
  '(rx, s) ← find s x;
  '(ry, s) ← find s y;
  Ret (bool_decide (rx = ry), s).

(** ** Invariant *)

Definition par s : T -> option T := fun z => parent_ s !! z.
Definition rk s : T -> nat := fun z => Z.to_nat (default 0%Z (rank_ s !! z)).

Record us_ok s : Prop := {
  us_dsu : dsu_wf (par s) (rk s);
  us_dom : dom (rank_ s) = dom (parent_ s);
  us_nonneg : forall z k, rank_ s !! z = Some k -> (0 <= k)%Z;
}.

(** The number of registered elements is a [size_t]; two more may come. *)
Definition us_small s : Prop := (Z.of_nat (size (parent_ s)) + 2 < 2 ^ 64)%Z.

(** ** Lemmas *)

Lemma idx_parent_Some s x p : par s x = Some p -> idx_parent s x = (p, s).
Proof. unfold par, idx_parent. by intros ->. Qed.

Lemma idx_rank_ok s x : us_ok s -> is_Some (par s x) -> idx_rank s x = (Z.of_nat (rk s x), s).
Proof.
  intros Hok Hx. assert (is_Some (rank_ s !! x)) as [k Hk].
  { apply elem_of_dom. rewrite (us_dom _ Hok). by apply elem_of_dom. }
  unfold idx_rank, rk. rewrite Hk. cbn. rewrite Z2Nat.id; [done|]. by eapply us_nonneg.
Qed.

Lemma rank_lt_size s r : us_ok s -> par s r = Some r -> 2 ^ rk s r <= size (parent_ s).
Proof.
  intros Hok Hr. rewrite <- (size_dom (D := gset T)).
  eapply rank_bound; [by apply us_dsu| |done]. intros z Hz. by apply elem_of_dom.
Qed.

Lemma find_root_spec fuel s x r :
  us_ok s -> reaches (par s) x r -> rk s r - rk s x < fuel -> find_root fuel s x = Ret (r, s).
Proof.
  intros Hok. revert x. induction fuel as [|fuel IH]; intros x Hx Hf; [lia|]. cbn [find_root].
  destruct Hx as [r Hr|x y r Hxy Hne Hy].
  - rewrite (idx_parent_Some _ _ _ Hr). by rewrite decide_True.
  - rewrite (idx_parent_Some _ _ _ Hxy). rewrite decide_False by congruence.
    rewrite (idx_parent_Some _ _ _ Hxy). apply IH; [done|].
    pose proof (wf_rank _ _ (us_dsu _ Hok) x y Hxy Hne).
    pose proof (reaches_rank _ _ _ _ (us_dsu _ Hok) Hy). lia.
Qed.

Lemma par_set_parent s x p z : par (set_parent s x p) z = if decide (z = x) then Some p else par s z.
Proof.
  unfold par. cbn. rewrite lookup_insert. case_decide; case_decide; congruence.
Qed.

(** Redirecting a node to its root keeps the invariant and every root. *)
Lemma set_parent_root_ok s x r :
  us_ok s -> reaches (par s) x r -> x <> r ->
  us_ok (set_parent s x r) /\
  (forall a t, reaches (par (set_parent s x r)) a t <-> reaches (par s) a t).
Proof.
  intros Hok Hx Hne.
  destruct (compress_wf (par s) (rk s) x r (par (set_parent s x r)) (us_dsu _ Hok) Hx Hne)
    as [Hwf He]; [intros z; apply par_set_parent|].
  split; [|exact He]. split; [exact Hwf| |exact (us_nonneg _ Hok)].
  cbn. rewrite dom_insert_L, (us_dom _ Hok), singleton_union_L; [done|].
  apply elem_of_dom. exact (reaches_dom _ _ _ Hx).
Qed.

Lemma compress_spec fuel s x r :
  us_ok s -> reaches (par s) x r -> rk s r - rk s x < fuel ->
  exists s', compress fuel s x r = Ret s' /\ us_ok s' /\ rank_ s' = rank_ s /\
    dom (parent_ s') = dom (parent_ s) /\
    (forall a t, reaches (par s') a t <-> reaches (par s) a t).
Proof.
  revert s x. induction fuel as [|fuel IH]; intros s x Hok Hx Hf; [lia|]. cbn [compress].
  destruct Hx as [r Hr|x y r Hxy Hne Hy].
  { rewrite (idx_parent_Some _ _ _ Hr), decide_True by done. by exists s. }
  rewrite (idx_parent_Some _ _ _ Hxy). case_decide as Hyr; [by exists s|].
  assert (reaches (par s) x r) as Hx by (by eapply reaches_step).
  pose proof (wf_rank _ _ (us_dsu _ Hok) x y Hxy Hne) as Hrk.
  pose proof (reaches_rank _ _ _ _ (us_dsu _ Hok) Hy) as Hle.
  assert (x <> r) as Hxr by (intros ->; lia).
  destruct (set_parent_root_ok s x r Hok Hx Hxr) as [Hok' He].
  rewrite (idx_parent_Some _ _ _ Hxy).
  destruct (IH (set_parent s x r) y Hok') as (s' & -> & Hs' & Hrank & Hdom & He').
  { by apply He. }
  { change (rk (set_parent s x r)) with (rk s). lia. }
  exists s'. split_and!; [done|done|done| |].
  - rewrite Hdom. cbn. rewrite dom_insert_L, singleton_union_L; [done|].
    apply elem_of_dom. by eexists.
  - intros a t. by rewrite He'.
Qed.

Lemma ensureRegistered_ok s x :
  us_ok s -> us_ok (ensureRegistered s x) /\ is_Some (par (ensureRegistered s x) x) /\
    dom (parent_ (ensureRegistered s x)) = {[x]} ∪ dom (parent_ s) /\
    (forall a r, reaches (par s) a r -> reaches (par (ensureRegistered s x)) a r) /\
    (forall a b, conn (par (ensureRegistered s x)) a b <-> conn (par s) a b).
Proof.
  intros Hok. unfold ensureRegistered.
  destruct (parent_ s !! x) as [p|] eqn:Hp.
  - assert (x ∈ dom (parent_ s)) as Hin by (apply elem_of_dom; by eexists).
    assert (x ∈ dom (rank_ s)) as [k Hk]%elem_of_dom by (by rewrite (us_dom _ Hok)).
    rewrite Hk. split_and!; [by destruct s|by eexists|by rewrite singleton_union_L|by destruct s..].
  - assert (x ∉ dom (parent_ s)) as Hin by (by apply not_elem_of_dom).
    assert (rank_ s !! x = None) as Hk.
    { apply not_elem_of_dom. by rewrite (us_dom _ Hok). }
    rewrite Hk. set (s' := mkUnionSet _ _).
    destruct (register_wf (par s) (rk s) x (par s')) as (Hwf & Hm & Hc).
    + by apply us_dsu.
    + done.
    + unfold rk. by rewrite Hk.
    + intros z. unfold par, s'. cbn. rewrite lookup_insert. repeat case_decide; congruence.
    + split_and!; [split| |cbn; by rewrite dom_insert_L|exact Hm|exact Hc].
      * destruct Hwf as [H1 H2 H3].
        assert (forall z, rk s' z = rk s z) as Hrk.
        { intros z. unfold rk, s'. cbn. rewrite lookup_insert. case_decide; [|done].
          subst z. by rewrite Hk. }
        split; [done|by setoid_rewrite Hrk|by setoid_rewrite Hrk].
      * cbn. by rewrite !dom_insert_L, (us_dom _ Hok).
      * intros z k. cbn. rewrite lookup_insert. case_decide; [by intros [= <-]|].
        by apply us_nonneg.
      * unfold par, s'. cbn. rewrite lookup_insert_eq. by eexists.
Qed.

Lemma us_find_ok s x :
  us_ok s -> exists r s', find s x = Ret (r, s') /\ us_ok s' /\
    reaches (par s') x r /\ dom (parent_ s') = {[x]} ∪ dom (parent_ s) /\
    (forall a t, reaches (par s) a t -> reaches (par s') a t) /\
    (forall a b, conn (par s') a b <-> conn (par s) a b).
Proof.
  intros Hok. destruct (ensureRegistered_ok s x Hok) as (Hok1 & Hx & Hdom & Hm & Hc).
  unfold find. set (s1 := ensureRegistered s x) in *.
  destruct (wf_total _ _ (us_dsu _ Hok1) x Hx) as [r Hr].
  assert (rk s1 r - rk s1 x < S (size (parent_ s1))) as Hf.
  { pose proof (rank_lt_size s1 r Hok1 (reaches_is_root _ _ _ Hr)).
    pose proof (Nat.pow_gt_lin_r 2 (rk s1 r)). lia. }
  rewrite (find_root_spec _ _ _ _ Hok1 Hr Hf). ret_step.
  destruct (compress_spec _ s1 x r Hok1 Hr Hf) as (s2 & -> & Hok2 & _ & Hd2 & He).
  exists r, s2. split_and!; [done|done|by apply He|congruence| |].
  { intros a t ?. by apply He, Hm. }
  intros a b. rewrite <- Hc. by apply conn_of_reaches.
Qed.

Lemma us_ok_new : us_ok union_set_new.
Proof.
  split; [split|done|].
  - by intros x [? ?].
  - by intros x y ?.
  - by intros r ?.
  - by intros z k ?.
Qed.

(** The link of [unionSets]: [a] goes below [b]; [up] increments [b]'s rank. *)
Lemma link_ok s a b s' (up : bool) :
  us_ok s -> par s a = Some a -> par s b = Some b -> a <> b ->
  (if up then rk s a = rk s b else rk s a < rk s b) ->
  parent_ s' = <[a:=b]> (parent_ s) ->
  rank_ s' = (if up then <[b:=Z.of_nat (S (rk s b))]> (rank_ s) else rank_ s) ->
  us_ok s' /\
  (forall x y, reaches (par s) x a -> reaches (par s) y b -> forall u v,
     conn (par s') u v <-> conn (par s) u v \/
       (conn (par s) u x /\ conn (par s) y v) \/ (conn (par s) u y /\ conn (par s) x v)).
Proof.
  intros Hok Ha Hb Hab Hup Hp Hr.
  assert (a ∈ dom (parent_ s) /\ b ∈ dom (parent_ s)) as [Hda Hdb].
  { split; apply elem_of_dom; by eexists. }
  destruct (link_wf (par s) (rk s) a b (par s') (rk s') up (us_dsu _ Hok) Ha Hb Hab Hup)
    as [Hwf Hlink].
  - intros z. unfold par. rewrite Hp, lookup_insert. repeat case_decide; congruence.
  - intros z. unfold rk. rewrite Hr. destruct up.
    + rewrite lookup_insert. repeat case_decide; subst; try congruence. cbn. apply Nat2Z.id.
    + case_decide; by subst.
  - split; [split|].
    + done.
    + rewrite Hp, dom_insert_L, singleton_union_L by done. rewrite Hr. destruct up.
      * rewrite dom_insert_L, (us_dom _ Hok). by apply singleton_union_L.
      * apply (us_dom _ Hok).
    + intros z k. rewrite Hr. destruct up; [|by apply us_nonneg].
      rewrite lookup_insert. case_decide; [intros [= <-]; lia|by apply us_nonneg].
    + intros x y Hx Hy. by eapply link_conn.
Qed.

(** ** Correctness *)

(** [find] terminates on every well-formed structure and returns the root
    of the element's tree; path compression and lazy registration leave every
    connectivity fact unchanged, and only the argument is registered. *)
Theorem union_set_find_spec s x :
  us_ok s ->
  exists r s', find s x = Ret (r, s') /\ us_ok s' /\ reaches (par s') x r /\
    dom (parent_ s') = {[x]} ∪ dom (parent_ s) /\
    (forall a b, conn (par s') a b <-> conn (par s) a b).
Proof.
  intros Hok. destruct (us_find_ok s x Hok) as (r & s' & ?). exists r, s'. naive_solver.
Qed.

(** Two finds in a row, the common prefix of [unionSets] and [connected]. *)
Lemma find_two s x y :
  us_ok s -> exists rx ry s1 s2,
    find s x = Ret (rx, s1) /\ find s1 y = Ret (ry, s2) /\ us_ok s2 /\
    reaches (par s2) x rx /\ reaches (par s2) y ry /\
    dom (parent_ s2) = {[y]} ∪ ({[x]} ∪ dom (parent_ s)) /\
    (forall a b, conn (par s2) a b <-> conn (par s) a b).
Proof.
  intros Hok. destruct (us_find_ok s x Hok) as (rx & s1 & Hf1 & Hok1 & Hx1 & Hd1 & _ & Hc1).
  destruct (us_find_ok s1 y Hok1) as (ry & s2 & Hf2 & Hok2 & Hy2 & Hd2 & Hm2 & Hc2).
  exists rx, ry, s1, s2.
  split_and!; [done|done|done|by apply Hm2|done|congruence|intros a b; by rewrite Hc2].
Qed.

Lemma us_small_rank s r :
  us_ok s -> (Z.of_nat (size (parent_ s)) < 2 ^ 64)%Z -> par s r = Some r -> rk s r < 64.
Proof.
  intros Hok Hs Hr. pose proof (rank_lt_size s r Hok Hr) as Hb.
  destruct (decide (rk s r < 64)) as [|Hge]; [done|]. exfalso.
  assert (2 ^ 64 <= 2 ^ rk s r) as Hpow by (apply Nat.pow_le_mono_r; lia).
  apply inj_le in Hpow. rewrite Nat2Z.inj_pow in Hpow. apply inj_le in Hb. lia.
Qed.

(** [unionSets] reports whether the two sets were different, and merges
    exactly those two classes: afterwards two elements are connected iff they
    already were, or one was connected to [x] and the other to [y]. *)
Theorem union_set_union_spec s x y :
  us_ok s -> us_small s ->
  exists b s', unionSets s x y = Ret (b, s') /\ us_ok s' /\
    (b = true <-> ~ conn (par s) x y) /\
    (forall u v, conn (par s') u v <-> conn (par s) u v \/
       (conn (par s) u x /\ conn (par s) y v) \/ (conn (par s) u y /\ conn (par s) x v)).
Proof.
  intros Hok Hsmall.
  destruct (find_two s x y Hok) as (rx & ry & s1 & s2 & Hf1 & Hf2 & Hok2 & Hx & Hy & Hd & Hc).
  unfold unionSets. rewrite Hf1. ret_step. rewrite Hf2. ret_step.
  pose proof (conn_reaches _ _ _ _ _ Hx Hy) as Hxy. rewrite Hc in Hxy.
  pose proof (reaches_is_root _ _ _ Hx) as Hrx. pose proof (reaches_is_root _ _ _ Hy) as Hry.
  case_decide as Heq.
  { exists false, s2. split_and!; [done|done|naive_solver|]. intros u v. rewrite Hc.
    split; [by left|]. apply Hxy in Heq.
    intros [?|[[-> ?]|[-> ?]]]; [done|by rewrite Heq|by rewrite <- Heq]. }
  rewrite (idx_rank_ok s2 rx Hok2) by (by eexists). cbn beta iota.
  rewrite (idx_rank_ok s2 ry Hok2) by (by eexists). cbn beta iota.
  assert (forall s' b, us_ok s' -> b = true ->
    (forall u v, conn (par s') u v <-> conn (par s2) u v \/
       (conn (par s2) u x /\ conn (par s2) y v) \/ (conn (par s2) u y /\ conn (par s2) x v)) ->
    us_ok s' /\ (b = true <-> ~ conn (par s) x y) /\
    (forall u v, conn (par s') u v <-> conn (par s) u v \/
       (conn (par s) u x /\ conn (par s) y v) \/ (conn (par s) u y /\ conn (par s) x v))) as Hfin.
  { intros s' b Hs' Hb Hu. split_and!; [done|naive_solver|]. intros u v. by rewrite Hu, !Hc. }
  assert (forall P Q R : Prop, P \/ Q \/ R <-> P \/ R \/ Q) as Hswap by tauto.
  case_match eqn:E1; [|case_match eqn:E2].
  - eexists true, _. split; [done|]. apply Z.ltb_lt in E1.
    destruct (link_ok s2 rx ry (set_parent s2 rx ry) false Hok2 Hrx Hry Heq ltac:(cbn; lia) eq_refl eq_refl)
      as [Hok' Hu].
    apply Hfin; [done|done|]. by apply Hu.
  - eexists true, _. split; [done|]. rewrite Z.gtb_lt in E2.
    destruct (link_ok s2 ry rx (set_parent s2 ry rx) false Hok2 Hry Hrx (not_eq_sym Heq) ltac:(cbn; lia)
      eq_refl eq_refl) as [Hok' Hu].
    apply Hfin; [done|done|]. intros u v. rewrite (Hu y x Hy Hx). apply Hswap.
  - apply Z.ltb_ge in E1. rewrite Z.gtb_ltb, Z.ltb_ge in E2.
    eexists true, _. split; [done|].
    assert ((Z.of_nat (size (parent_ s2)) < 2 ^ 64)%Z) as Hsz.
    { unfold us_small in Hsmall. rewrite <- (size_dom (D := gset T) (parent_ s2)), Hd.
      rewrite <- (size_dom (D := gset T) (parent_ s)) in Hsmall.
      pose proof (size_singleton_union_le y ({[x]} ∪ dom (parent_ s))).
      pose proof (size_singleton_union_le x (dom (parent_ s))). lia. }
    pose proof (us_small_rank s2 rx Hok2 Hsz Hrx) as Hrk64.
    destruct (link_ok s2 ry rx (set_rank (set_parent s2 ry rx) rx (u32 (Z.of_nat (rk s2 rx) + 1))) true
      Hok2 Hry Hrx (not_eq_sym Heq) ltac:(cbn; lia) eq_refl) as [Hok' Hu].
    { cbn. rewrite u32_small by lia. f_equal. lia. }
    apply Hfin; [done|done|]. intros u v. rewrite (Hu y x Hy Hx). apply Hswap.
Qed.

(** [connected] decides connectivity and changes no connectivity fact. *)
Theorem union_set_connected_spec s x y :
  us_ok s ->
  exists b s', connected s x y = Ret (b, s') /\ us_ok s' /\
    (b = true <-> conn (par s) x y) /\
    (forall u v, conn (par s') u v <-> conn (par s) u v).
Proof.
  intros Hok.
  destruct (find_two s x y Hok) as (rx & ry & s1 & s2 & Hf1 & Hf2 & Hok2 & Hx & Hy & Hd & Hc).
  unfold connected. rewrite Hf1. ret_step. rewrite Hf2. ret_step.
  exists (bool_decide (rx = ry)), s2. split_and!; [done|done| |done].
  rewrite bool_decide_eq_true, <- Hc. symmetry. by apply conn_reaches.
Qed.

End union_set.

Section union_set_witnesses.

#[local] Definition u0 : UnionSet (T := nat) := union_set_new.

Lemma union_set_find_witness :
  us_ok u0 /\ exists s', find 0 u0 7 = Ret (7, s') /\ us_ok s'.
Proof.
  split; [apply us_ok_new|].
  destruct (union_set_find_spec 0 u0 7 us_ok_new) as (r & s' & Hf & Hok & _).
  vm_compute in Hf. injection Hf as <- <-. eexists. split; [reflexivity|exact Hok].
Defined.

Lemma union_set_union_witness :
  us_ok u0 /\ us_small u0 /\
  exists s', unionSets 0 u0 1 2 = Ret (true, s') /\ conn (par s') 1 2 /\ ~ conn (par s') 1 3.
Proof.
  split; [apply us_ok_new|]. split; [vm_compute; reflexivity|].
  destruct (union_set_union_spec 0 u0 1 2 us_ok_new eq_refl) as (b & s' & Hf & _ & _ & Hc).
  assert (forall a b : nat, conn (par u0) a b -> a = b) as Hu.
  { intros x y [->|(r & Hx & _)]; [done|]. by destruct (reaches_dom _ _ _ Hx). }
  vm_compute in Hf. injection Hf as <- <-. eexists. split; [reflexivity|].
  rewrite !Hc. split; [right; left; by split|].
  intros [H%Hu|[[_ H%Hu]|[H%Hu _]]]; discriminate.
Defined.

Lemma union_set_connected_witness :
  us_ok u0 /\ exists s', connected 0 u0 4 5 = Ret (false, s') /\ us_ok s'.
Proof.
  split; [apply us_ok_new|].
  destruct (union_set_connected_spec 0 u0 4 5 us_ok_new) as (b & s' & Hf & Hok & _).
  vm_compute in Hf. injection Hf as <- <-. eexists. split; [reflexivity|exact Hok].
Defined.

End union_set_witnesses.
