(* ===== verification/UnionFindRollback.v ===== *)
(** * Disjoint sets with rollback

    Models [data_structure/union_find/UnionSetWithRollback.hpp]: index-based
    union by rank without path compression, a history of changes, snapshots
    and rollback.  Indices are [nat]; [index_max] is
    [std::numeric_limits<Index>::max()].

    [rollback] reads the popped record once more after [history_.pop_back()],
    through a dangling reference.  The section variable [read_after_pop]
    stands for what that read yields; the theorems that depend on it assume
    that the storage still holds the record. *)

From S2P Require Import Prelude Forest.

Section rollback.
  Context (index_max : nat).

Record ChangeRecord := mkChange {
  node : nat;
  old_parent : nat;
  old_rank : option Z;
}.

Record UnionSetWithRollback := mkUSR {
  parent_ : list nat;
  rank_ : list Z;
  history_ : list ChangeRecord;
  set_count_ : Z;
}.

  Context (read_after_pop : ChangeRecord -> ChangeRecord).

Implicit Types (s : UnionSetWithRollback) (x y r : nat).

(** ** Operations *)

Definition usr_new (n : nat) : outcome UnionSetWithRollback :=
  if decide (n = 0) then Throw invalid_argument
  else if decide (index_max < n) then Throw overflow_error
  else Ret (mkUSR (seq 0 n) (replicate n 0%Z) [] (Z.of_nat n)).

(** [while (parent_\[root\] != root) root = parent_\[root\];] *)
Fixpoint find_loop (fuel : nat) (parent : list nat) (root : nat) : outcome nat :=
  match fuel with
  | 0 => NoFuel
  | S fuel =>
    p ← vget parent root;
    if decide (p = root) then Ret root else find_loop fuel parent p
  end.

Definition find s x : outcome nat := find_loop (S (length (parent_ s))) (parent_ s) x.

Definition connected s x y : outcome bool :=
  rx ← find s x; ry ← find s y; Ret (bool_decide (rx = ry)).

(** [history_.push_back({node, parent_\[node\], old}); parent_\[node\] = p;] *)
Definition attach s (nd p : nat) : outcome UnionSetWithRollback :=
  old ← vget (parent_ s) nd;
  parent ← vset (parent_ s) nd p;
  Ret (mkUSR parent (rank_ s) (history_ s ++ [mkChange nd old None]) (set_count_ s)).

(** [history_.push_back({rx, parent_\[rx\], rank_\[rx\]}); ++rank_\[rx\];] *)
Definition raise_rank s (rx : nat) : outcome UnionSetWithRollback :=
  p ← vget (parent_ s) rx;
  k ← vget (rank_ s) rx;
  k' ← add32 k 1;
  rank ← vset (rank_ s) rx k';
  Ret (mkUSR (parent_ s) rank (history_ s ++ [mkChange rx p (Some k)]) (set_count_ s)).

Definition decr_count s : UnionSetWithRollback :=
  mkUSR (parent_ s) (rank_ s) (history_ s) (u64 (set_count_ s - 1)).

Definition unionSets s x y : outcome (bool * UnionSetWithRollback) :=
  rx ← find s x;
  ry ← find s y;
  if decide (rx = ry) then Ret (false, s) else
  kx ← vget (rank_ s) rx;
  ky ← vget (rank_ s) ry;
  if (kx <? ky)%Z then s ← attach s rx ry; Ret (true, decr_count s)
  else if (kx >? ky)%Z then s ← attach s ry rx; Ret (true, decr_count s)
  else s ← attach s ry rx; s ← raise_rank s rx; Ret (true, decr_count s).

Definition snapshot s : nat := length (history_ s).

(** One iteration of the loop of [rollback]. *)
Definition pop_one s : outcome UnionSetWithRollback :=
  match last (history_ s) with
  | None => Undef
  | Some rec =>
    parent ← vset (parent_ s) (node rec) (old_parent rec);
    rank ← match old_rank rec with
           | Some k => vset (rank_ s) (node rec) k
           | None => Ret (rank_ s)
           end;
    let history := removelast (history_ s) in
    let rec := read_after_pop rec in
    Ret (mkUSR parent rank history
      (if decide (old_rank rec = None) then u64 (set_count_ s + 1) else set_count_ s))
  end.

Fixpoint rollback_loop (fuel : nat) s (id : nat) : outcome UnionSetWithRollback :=
  match fuel with
  | 0 => NoFuel
  | S fuel =>
    if decide (id < length (history_ s)) then s ← pop_one s; rollback_loop fuel s id
    else Ret s
  end.

(** The [assert] on [id] stops the program: no defined continuation. *)
Definition rollback s (id : nat) : outcome UnionSetWithRollback :=
  if decide (id <= length (history_ s)) then rollback_loop (S (length (history_ s))) s id
  else Undef.

Definition commit s : UnionSetWithRollback :=
  mkUSR (parent_ s) (rank_ s) [] (set_count_ s).

Definition size s : nat := length (parent_ s).

Definition setCount s : Z := set_count_ s.

Definition clear s : UnionSetWithRollback :=
  mkUSR (seq 0 (length (parent_ s))) (replicate (length (rank_ s)) 0%Z) []
    (Z.of_nat (length (parent_ s))).

(** ** Invariant *)

Definition par s : nat -> option nat := fun i => parent_ s !! i.
Definition rk s : nat -> nat := fun i => Z.to_nat (default 0%Z (rank_ s !! i)).

(** The roots, in index order. *)
Definition roots s : list nat :=
  filter (fun i => par s i = Some i) (seq 0 (length (parent_ s))).

Record usr_ok s : Prop := {
  usr_dsu : dsu_wf (par s) (rk s);
  usr_len : length (rank_ s) = length (parent_ s);
  usr_nonneg : Forall (fun k => (0 <= k)%Z) (rank_ s);
  usr_count : set_count_ s = Z.of_nat (length (roots s));
  usr_small : (Z.of_nat (length (parent_ s)) < 2 ^ 64)%Z;
}.

(** ** Lemmas *)

Lemma par_lt s x y : par s x = Some y -> x < length (parent_ s).
Proof. apply lookup_lt_Some. Qed.

Lemma rank_get s x : usr_ok s -> x < length (parent_ s) ->
  rank_ s !! x = Some (Z.of_nat (rk s x)).
Proof.
  intros Hok Hx. destruct (vget_lt (rank_ s) x) as (k & Hk & _); [by rewrite (usr_len _ Hok)|].
  unfold rk. rewrite Hk. cbn. rewrite Z2Nat.id; [done|].
  by eapply Forall_lookup_1 in Hk; [|apply usr_nonneg].
Qed.

Lemma rank_pow s r : usr_ok s -> par s r = Some r -> 2 ^ rk s r <= length (parent_ s).
Proof.
  intros Hok Hr.
  assert (base.size (list_to_set (seq 0 (length (parent_ s))) : gset nat) = length (parent_ s)) as Hs.
  { rewrite size_list_to_set by apply NoDup_seq. apply length_seq. }
  rewrite <- Hs. eapply rank_bound; [by apply usr_dsu| |done].
  intros z [? Hz%par_lt]. apply elem_of_list_to_set, elem_of_seq. lia.
Qed.

Lemma find_loop_spec fuel s x r :
  usr_ok s -> reaches (par s) x r -> rk s r - rk s x < fuel ->
  find_loop fuel (parent_ s) x = Ret r.
Proof.
  intros Hok. revert x. induction fuel as [|fuel IH]; intros x Hx Hf; [lia|]. cbn [find_loop].
  destruct Hx as [r Hr|x y r Hxy Hne Hy].
  - rewrite (vget_Some _ _ _ Hr). ret_step. by rewrite decide_True.
  - rewrite (vget_Some _ _ _ Hxy). ret_step. rewrite decide_False by congruence.
    apply IH; [done|]. pose proof (wf_rank _ _ (usr_dsu _ Hok) x y Hxy Hne).
    pose proof (reaches_rank _ _ _ _ (usr_dsu _ Hok) Hy). lia.
Qed.

Lemma usr_find_ok s x : usr_ok s -> x < length (parent_ s) ->
  exists r, find s x = Ret r /\ reaches (par s) x r.
Proof.
  intros Hok Hx. destruct (wf_total _ _ (usr_dsu _ Hok) x) as [r Hr].
  { by apply lookup_lt_is_Some. }
  exists r. split; [|done]. eapply find_loop_spec; [done..|].
  pose proof (rank_pow s r Hok (reaches_is_root _ _ _ Hr)).
  pose proof (Nat.pow_gt_lin_r 2 (rk s r)). lia.
Qed.

(** *** Popping records *)

Fixpoint pops (n : nat) s : outcome UnionSetWithRollback :=
  match n with 0 => Ret s | S n => s ← pop_one s; pops n s end.

Lemma pops_add n m s : pops (n + m) s = (s ← pops n s; pops m s).
Proof. revert s. induction n as [|n IH]; intros s; cbn; [done|]. destruct (pop_one s); cbn; auto. Qed.

Lemma pop_one_length s s' :
  pop_one s = Ret s' -> length (history_ s') = length (history_ s) - 1 /\ 0 < length (history_ s).
Proof.
  unfold pop_one. destruct (last (history_ s)) as [rec|] eqn:Hl; [|done].
  intros (? & _ & (? & _ & [= <-])%bind_Ret_inv)%bind_Ret_inv. cbn.
  destruct (history_ s) as [|c h]; [done|]. rewrite removelast_firstn_len, length_take. cbn. lia.
Qed.

Lemma pops_length n s s' :
  pops n s = Ret s' -> length (history_ s') = length (history_ s) - n /\ n <= length (history_ s).
Proof.
  revert s. induction n as [|n IH]; intros s; cbn; [intros [= <-]; lia|].
  intros (s1 & H1%pop_one_length & H2%IH)%bind_Ret_inv. lia.
Qed.

Lemma rollback_loop_pops fuel s id :
  length (history_ s) - id < fuel -> rollback_loop fuel s id = pops (length (history_ s) - id) s.
Proof.
  revert s. induction fuel as [|fuel IH]; intros s Hf; [lia|]. cbn [rollback_loop].
  case_decide as Hid; [|by replace (length (history_ s) - id) with 0 by lia].
  replace (length (history_ s) - id) with (S (length (history_ s) - 1 - id)) by lia. cbn.
  destruct (pop_one s) as [s1| | |] eqn:Hp; [|done..]. cbn.
  apply pop_one_length in Hp as [Hl _]. rewrite <- Hl. apply IH. lia.
Qed.

Lemma rollback_pops s id :
  id <= length (history_ s) -> rollback s id = pops (length (history_ s) - id) s.
Proof. intros. unfold rollback. rewrite decide_True by done. apply rollback_loop_pops. lia. Qed.

Lemma pop_one_snoc s h rec parent :
  history_ s = h ++ [rec] -> vset (parent_ s) (node rec) (old_parent rec) = Ret parent ->
  old_rank rec = None -> read_after_pop rec = rec ->
  pop_one s = Ret (mkUSR parent (rank_ s) h (u64 (set_count_ s + 1))).
Proof.
  intros Hh Hp Hr Hrd. unfold pop_one.
  by rewrite Hh, last_snoc, removelast_last, Hp, Hrd, Hr, decide_True.
Qed.

Lemma pop_one_snoc_rank s h rec k parent rank :
  history_ s = h ++ [rec] -> vset (parent_ s) (node rec) (old_parent rec) = Ret parent ->
  old_rank rec = Some k -> vset (rank_ s) (node rec) k = Ret rank -> read_after_pop rec = rec ->
  pop_one s = Ret (mkUSR parent rank h (set_count_ s)).
Proof.
  intros Hh Hp Hr Hk Hrd. unfold pop_one.
  by rewrite Hh, last_snoc, removelast_last, Hp, Hrd, Hr, Hk, decide_False.
Qed.

Lemma vset_undo {A} (v : list A) i (x y : A) :
  v !! i = Some x -> vset (<[i:=y]> v) i x = Ret v.
Proof.
  intros Hx. rewrite vset_lt by (rewrite length_insert; by eapply lookup_lt_Some).
  by rewrite list_insert_insert_eq, list_insert_id.
Qed.

Lemma attach_eq s a b pa :
  parent_ s !! a = Some pa ->
  attach s a b = Ret (mkUSR (<[a:=b]> (parent_ s)) (rank_ s)
    (history_ s ++ [mkChange a pa None]) (set_count_ s)).
Proof.
  intros Ha. unfold attach. rewrite (vget_Some _ _ _ Ha). ret_step.
  rewrite vset_lt by (by eapply lookup_lt_Some). done.
Qed.

Lemma u64_decr_incr c : (0 <= c < 2 ^ 64)%Z -> u64 (u64 (c - 1) + 1) = c.
Proof.
  intros Hc. unfold u64. rewrite Zplus_mod_idemp_l.
  replace (c - 1 + 1)%Z with c by lia. by apply Z.mod_small.
Qed.

(** The state after linking root [a] below root [b]. *)
Definition linked s (a b : nat) : UnionSetWithRollback :=
  mkUSR (<[a:=b]> (parent_ s)) (rank_ s) (history_ s ++ [mkChange a a None]) (u64 (set_count_ s - 1)).

(** The same, with the rank of [b] raised. *)
Definition linked_up s (a b : nat) : UnionSetWithRollback :=
  mkUSR (<[a:=b]> (parent_ s)) (<[b:=Z.of_nat (S (rk s b))]> (rank_ s))
    ((history_ s ++ [mkChange a a None]) ++ [mkChange b b (Some (Z.of_nat (rk s b)))])
    (u64 (set_count_ s - 1)).

Lemma usr_small_rank s r : usr_ok s -> par s r = Some r -> rk s r < 64.
Proof.
  intros Hok Hr. pose proof (rank_pow s r Hok Hr) as Hb. pose proof (usr_small _ Hok).
  destruct (decide (rk s r < 64)) as [|Hge]; [done|]. exfalso.
  assert (2 ^ 64 <= 2 ^ rk s r) as Hpow by (apply Nat.pow_le_mono_r; lia).
  apply inj_le in Hpow. rewrite Nat2Z.inj_pow in Hpow. apply inj_le in Hb. lia.
Qed.

(** [unionSets] in terms of the roots it finds. *)
Lemma unionSets_cases s x y rx ry :
  usr_ok s -> find s x = Ret rx -> find s y = Ret ry ->
  reaches (par s) x rx -> reaches (par s) y ry ->
  unionSets s x y =
    if decide (rx = ry) then Ret (false, s)
    else if decide (rk s rx < rk s ry) then Ret (true, linked s rx ry)
    else if decide (rk s ry < rk s rx) then Ret (true, linked s ry rx)
    else Ret (true, linked_up s ry rx).
Proof.
  intros Hok Hfx Hfy Hx Hy. unfold unionSets. rewrite Hfx. ret_step. rewrite Hfy. ret_step.
  case_decide as Heq; [done|].
  pose proof (reaches_is_root _ _ _ Hx) as Hrx. pose proof (reaches_is_root _ _ _ Hy) as Hry.
  pose proof (rank_get s rx Hok (par_lt _ _ _ Hrx)) as Hkx.
  pose proof (rank_get s ry Hok (par_lt _ _ _ Hry)) as Hky.
  rewrite (vget_Some _ _ _ Hkx). ret_step. rewrite (vget_Some _ _ _ Hky). ret_step.
  rewrite Z.gtb_ltb. repeat case_decide; repeat case_match; rewrite ?Z.ltb_lt, ?Z.ltb_ge in *; try lia.
  - by rewrite (attach_eq _ _ _ _ Hrx).
  - by rewrite (attach_eq _ _ _ _ Hry).
  - rewrite (attach_eq _ _ _ _ Hry). ret_step. unfold raise_rank. cbn [parent_ rank_].
    assert (<[ry:=rx]> (parent_ s) !! rx = Some rx) as Hrx' by (by rewrite list_lookup_insert_ne).
    rewrite (vget_Some _ _ _ Hrx'). ret_step. rewrite (vget_Some _ _ _ Hkx). ret_step.
    pose proof (usr_small_rank s rx Hok Hrx).
    rewrite add32_in by (unfold in_i32, INT32_MIN, INT32_MAX; lia). ret_step.
    rewrite vset_lt by (by eapply lookup_lt_Some). ret_step. unfold linked_up, decr_count. cbn.
    replace (Z.of_nat (rk s rx) + 1)%Z with (Z.of_nat (S (rk s rx))) by lia. done.
Qed.

Lemma linked_conn s s' a b (up : bool) :
  usr_ok s -> par s a = Some a -> par s b = Some b -> a <> b ->
  (if up then rk s a = rk s b else rk s a < rk s b) ->
  s' = (if up then linked_up s a b else linked s a b) ->
  usr_ok s' /\ set_count_ s' = (set_count_ s - 1)%Z /\
  (forall x y, reaches (par s) x a -> reaches (par s) y b -> forall u v,
     conn (par s') u v <-> conn (par s) u v \/
       (conn (par s) u x /\ conn (par s) y v) \/ (conn (par s) u y /\ conn (par s) x v)).
Proof.
  intros Hok Ha Hb Hab Hup Hs'.
  assert (parent_ s' = <[a:=b]> (parent_ s)) as Hp by (destruct up; by rewrite Hs').
  assert (rank_ s' = if up then <[b:=Z.of_nat (S (rk s b))]> (rank_ s) else rank_ s) as Hr
    by (destruct up; by rewrite Hs').
  assert (set_count_ s' = u64 (set_count_ s - 1)) as Hc by (destruct up; by rewrite Hs').
  assert (forall z, par s' z = if decide (z = a) then Some b else par s z) as Hpz.
  { intros z. unfold par. rewrite Hp. case_decide as Hz; [subst z|].
    - apply list_lookup_insert_eq. by eapply par_lt.
    - by apply list_lookup_insert_ne. }
  assert (S (length (roots s')) = length (roots s)) as Hroots.
  { unfold roots. rewrite Hp, length_insert. apply (length_filter_exclude _ _ a).
    - apply NoDup_seq.
    - apply elem_of_seq. apply par_lt in Ha. lia.
    - done.
    - intros z. rewrite Hpz. case_decide; naive_solver. }
  destruct (link_wf (par s) (rk s) a b (par s') (rk s') up (usr_dsu _ Hok) Ha Hb Hab Hup Hpz)
    as [Hwf Hlink].
  { intros z. unfold rk. rewrite Hr. destruct up; [|case_decide; by subst].
    case_decide as Hz; [subst z|].
    - rewrite list_lookup_insert_eq by (rewrite (usr_len _ Hok); by eapply par_lt).
      cbn. apply Nat2Z.id.
    - by rewrite list_lookup_insert_ne. }
  assert (set_count_ s' = (set_count_ s - 1)%Z) as Hc'.
  { rewrite Hc. unfold u64. apply Z.mod_small. rewrite (usr_count _ Hok).
    pose proof (usr_small _ Hok). pose proof (length_filter (fun i => par s i = Some i)
      (seq 0 (length (parent_ s)))) as Hl. rewrite length_seq in Hl. unfold roots in *. lia. }
  split; [split|split; [exact Hc'|]].
  - exact Hwf.
  - rewrite Hp, Hr. destruct up; rewrite !length_insert; apply (usr_len _ Hok).
  - rewrite Hr. destruct up; [|apply (usr_nonneg _ Hok)].
    apply Forall_insert; [apply (usr_nonneg _ Hok)|lia].
  - rewrite Hc', (usr_count _ Hok). lia.
  - rewrite Hp, length_insert. apply (usr_small _ Hok).
  - intros x y Hx Hy. by eapply link_conn.
Qed.

(** ** Correctness *)

Lemma usr_new_ok n s : (Z.of_nat n < 2 ^ 64)%Z -> usr_new n = Ret s -> usr_ok s.
Proof.
  unfold usr_new. intros Hn Hs. repeat case_decide; simplify_eq.
  assert (forall i, i < n -> par (mkUSR (seq 0 n) (replicate n 0%Z) [] (Z.of_nat n)) i = Some i) as Hp.
  { intros i Hi. unfold par. cbn. by rewrite lookup_seq_lt. }
  assert (forall i, rk (mkUSR (seq 0 n) (replicate n 0%Z) [] (Z.of_nat n)) i = 0) as Hr.
  { intros i. unfold rk. cbn. destruct (replicate n 0%Z !! i) eqn:E; [|done].
    apply lookup_replicate in E as [-> _]. done. }
  split; [split| | | |]; cbn.
  - intros i [? Hi%par_lt]. cbn in Hi. rewrite length_seq in Hi. exists i. by apply reaches_root, Hp.
  - intros i j Hi Hij. pose proof (par_lt _ _ _ Hi) as Hlt. cbn in Hlt. rewrite length_seq in Hlt.
    rewrite Hp in Hi by done. congruence.
  - intros r Hrr. exists {[r]}. rewrite Hr, size_singleton. split; [|done].
    intros y ->%elem_of_singleton. by apply reaches_root.
  - by rewrite length_replicate, length_seq.
  - apply Forall_forall. by intros k [-> _]%elem_of_replicate.
  - unfold roots. cbn. rewrite length_seq. rewrite filter_all; [by rewrite length_seq|].
    apply Forall_forall. intros i Hi%elem_of_seq. apply Hp. lia.
  - by rewrite length_seq.
Qed.

(** [unionSets] on valid indices reports whether the sets differed, merges
    exactly those two classes, decrements [setCount] exactly when it merges,
    and keeps the invariant that [setCount] is the number of roots. *)
Theorem usr_union_spec s x y :
  usr_ok s -> x < length (parent_ s) -> y < length (parent_ s) ->
  exists b s', unionSets s x y = Ret (b, s') /\ usr_ok s' /\
    (b = true <-> ~ conn (par s) x y) /\
    setCount s' = (if b then setCount s - 1 else setCount s)%Z /\
    (forall u v, conn (par s') u v <-> conn (par s) u v \/
       (conn (par s) u x /\ conn (par s) y v) \/ (conn (par s) u y /\ conn (par s) x v)).
Proof.
  intros Hok Hxl Hyl.
  destruct (usr_find_ok s x Hok Hxl) as (rx & Hfx & Hx), (usr_find_ok s y Hok Hyl) as (ry & Hfy & Hy).
  pose proof (conn_reaches _ _ _ _ _ Hx Hy) as Hxy.
  pose proof (reaches_is_root _ _ _ Hx) as Hrx. pose proof (reaches_is_root _ _ _ Hy) as Hry.
  rewrite (unionSets_cases s x y rx ry) by done. case_decide as Heq.
  { exists false, s. split_and!; [done|done|naive_solver|done|]. intros u v.
    split; [by left|]. apply Hxy in Heq.
    intros [?|[[-> ?]|[-> ?]]]; [done|by rewrite Heq|by rewrite <- Heq]. }
  assert (forall P Q R : Prop, P \/ Q \/ R <-> P \/ R \/ Q) as Hswap by tauto.
  repeat case_decide; eexists true, _; (split; [done|]).
  - destruct (linked_conn s (linked s rx ry) rx ry false) as (Hok' & Hc & Hu); [done..|].
    split_and!; [done|naive_solver|done|by apply Hu].
  - destruct (linked_conn s (linked s ry rx) ry rx false) as (Hok' & Hc & Hu); [done..|].
    split_and!; [done|naive_solver|done|]. intros u v. rewrite (Hu y x Hy Hx). apply Hswap.
  - destruct (linked_conn s (linked_up s ry rx) ry rx true) as (Hok' & Hc & Hu);
      [done|done|done|done|lia|done|].
    split_and!; [done|naive_solver|done|]. intros u v. rewrite (Hu y x Hy Hx). apply Hswap.
Qed.

(** The counter is a [size_t]. *)
Definition count_ok s : Prop := (0 <= set_count_ s < 2 ^ 64)%Z.

Lemma attach_inv s a b s1 :
  attach s a b = Ret s1 -> exists pa, parent_ s !! a = Some pa /\
    s1 = mkUSR (<[a:=b]> (parent_ s)) (rank_ s) (history_ s ++ [mkChange a pa None]) (set_count_ s).
Proof.
  unfold attach. intros (pa & Ha%vget_Ret & Hs)%bind_Ret_inv.
  apply bind_Ret_inv in Hs as (v & [_ ->]%vset_Ret & Hs). exists pa. by simplify_eq.
Qed.

Lemma raise_rank_inv s r s1 :
  raise_rank s r = Ret s1 -> exists p k k', parent_ s !! r = Some p /\ rank_ s !! r = Some k /\
    s1 = mkUSR (parent_ s) (<[r:=k']> (rank_ s)) (history_ s ++ [mkChange r p (Some k)]) (set_count_ s).
Proof.
  unfold raise_rank. intros (p & Hp%vget_Ret & Hs)%bind_Ret_inv.
  apply bind_Ret_inv in Hs as (k & Hk%vget_Ret & Hs).
  apply bind_Ret_inv in Hs as (k' & _ & Hs).
  apply bind_Ret_inv in Hs as (v & [_ ->]%vset_Ret & Hs). exists p, k, k'. by simplify_eq.
Qed.

Lemma attach_undo s a b s1 :
  (forall c, read_after_pop c = c) -> count_ok s -> attach s a b = Ret s1 ->
  pop_one (decr_count s1) = Ret s /\ length (history_ s1) = S (length (history_ s)).
Proof.
  intros Hrd Hcnt (pa & Ha & ->)%attach_inv. split; [|cbn; rewrite length_app; cbn; lia].
  erewrite pop_one_snoc; [|reflexivity|cbn; by apply vset_undo|done|done].
  cbn. rewrite u64_decr_incr by done. by destruct s.
Qed.

Lemma raise_rank_undo s r s1 :
  (forall c, read_after_pop c = c) -> raise_rank s r = Ret s1 ->
  pop_one (decr_count s1) = Ret (decr_count s) /\
  length (history_ s1) = S (length (history_ s)).
Proof.
  intros Hrd (p & k & k' & Hp & Hk & ->)%raise_rank_inv.
  split; [|cbn; rewrite length_app; cbn; lia].
  erewrite pop_one_snoc_rank; [|reflexivity| |reflexivity|cbn; by apply vset_undo|done].
  - reflexivity.
  - cbn. rewrite vset_lt by (by eapply lookup_lt_Some). by rewrite list_insert_id.
Qed.

(** Popping the records of a union restores the whole state. *)
Lemma union_undo s x y b s' :
  (forall c, read_after_pop c = c) -> count_ok s -> unionSets s x y = Ret (b, s') ->
  count_ok s' /\ exists n, pops n s' = Ret s /\ length (history_ s') = n + length (history_ s).
Proof.
  intros Hrd Hcnt. unfold unionSets.
  intros (rx & _ & (ry & _ & Hu)%bind_Ret_inv)%bind_Ret_inv. case_decide.
  { simplify_eq. split; [done|]. by exists 0. }
  assert (forall s1, count_ok (decr_count s1)) as Hdc by (intros; apply Z.mod_pos_bound; lia).
  apply bind_Ret_inv in Hu as (kx & _ & (ky & _ & Hu)%bind_Ret_inv).
  assert (forall a c, (s1 ← attach s a c; Ret (true, decr_count s1)) = Ret (b, s') ->
    count_ok s' /\ exists n, pops n s' = Ret s /\ length (history_ s') = n + length (history_ s)) as Hone.
  { intros a c (s1 & Ha & Hs)%bind_Ret_inv. simplify_eq.
    destruct (attach_undo s a c s1) as [Hp Hl]; [done..|].
    split; [done|]. exists 1. cbn [pops]. rewrite Hp. split; [done|]. cbn. lia. }
  case_match; [by eapply Hone|]. case_match; [by eapply Hone|].
  apply bind_Ret_inv in Hu as (s1 & Ha & (s2 & Hr & Hs)%bind_Ret_inv). simplify_eq.
  destruct (attach_undo s ry rx s1) as [Hp1 Hl1]; [done..|].
  destruct (raise_rank_undo s1 rx s2) as [Hp2 Hl2]; [done..|].
  split; [done|]. exists 2. cbn [pops]. rewrite Hp2. cbn. rewrite Hp1. split; [done|]. cbn. lia.
Qed.

Lemma pop_one_count s s' : count_ok s -> pop_one s = Ret s' -> count_ok s'.
Proof.
  unfold pop_one, count_ok. intros Hc. destruct (last (history_ s)) as [rec|]; [|done].
  intros (? & _ & (? & _ & [= <-])%bind_Ret_inv)%bind_Ret_inv. cbn.
  case_decide; [apply Z.mod_pos_bound; lia|done].
Qed.

Lemma pops_count n s s' : count_ok s -> pops n s = Ret s' -> count_ok s'.
Proof.
  revert s. induction n as [|n IH]; intros s Hc; cbn; [by intros [= <-]|].
  intros (s1 & H1 & H2)%bind_Ret_inv. eapply IH; [|done]. by eapply pop_one_count.
Qed.

(** Executions that never roll back below the history position [k]. *)
Inductive steps_above (k : nat) : UnionSetWithRollback -> UnionSetWithRollback -> Prop :=
| sa_refl s : steps_above k s s
| sa_union s s1 s2 x y b :
    steps_above k s s1 -> x < length (parent_ s1) -> y < length (parent_ s1) ->
    unionSets s1 x y = Ret (b, s2) -> steps_above k s s2
| sa_rollback s s1 s2 id :
    steps_above k s s1 -> k <= id -> rollback s1 id = Ret s2 -> steps_above k s s2.

(** [rollback] to a snapshot restores the entire state - parents, ranks,
    history and set count - after any sequence of unions and of rollbacks that
    did not go below the snapshot, provided that the record read after
    [pop_back] is still intact. *)
Theorem usr_rollback_restores s s' :
  (forall c, read_after_pop c = c) -> count_ok s ->
  steps_above (snapshot s) s s' -> rollback s' (snapshot s) = Ret s.
Proof.
  intros Hrd Hcnt Hsteps.
  cut (count_ok s' /\ snapshot s <= length (history_ s') /\
       pops (length (history_ s') - snapshot s) s' = Ret s).
  { intros (_ & Hle & Hp). by rewrite rollback_pops. }
  remember (snapshot s) as k eqn:Hk.
  induction Hsteps as [s|s s1 s2 x y b Hs IH Hx Hy Hu|s s1 s2 id Hs IH Hid Hr].
  - subst k. unfold snapshot. rewrite Nat.sub_diag. done.
  - destruct (IH Hcnt Hk) as (Hc1 & Hle & Hp).
    destruct (union_undo s1 x y b s2 Hrd Hc1 Hu) as (Hc2 & n & Hn & Hl).
    split_and!; [done|lia|]. rewrite Hl.
    replace (n + length (history_ s1) - k) with (n + (length (history_ s1) - k)) by lia.
    rewrite pops_add, Hn. exact Hp.
  - destruct (IH Hcnt Hk) as (Hc1 & Hle & Hp).
    assert (id <= length (history_ s1)) as Hidl.
    { unfold rollback in Hr. case_decide; [done|discriminate]. }
    rewrite rollback_pops in Hr by done. pose proof (pops_length _ _ _ Hr) as [Hl _].
    split_and!; [by eapply pops_count|lia|].
    replace (length (history_ s1) - k) with
      ((length (history_ s1) - id) + (length (history_ s2) - k)) in Hp by lia.
    rewrite pops_add, Hr in Hp. exact Hp.
Qed.

End rollback.

Section rollback_witnesses.

#[local] Definition intact (c : ChangeRecord) : ChangeRecord := c.
#[local] Definition r4 : UnionSetWithRollback := mkUSR [0; 1; 2; 3] [0%Z; 0%Z; 0%Z; 0%Z] [] 4.

Lemma r4_ok : usr_ok r4.
Proof. by eapply (usr_new_ok 100 4). Qed.

Lemma usr_union_witness :
  usr_ok r4 /\ exists s', unionSets r4 0 1 = Ret (true, s') /\ setCount s' = 3%Z /\ conn (par s') 0 1.
Proof.
  split; [exact r4_ok|].
  destruct (usr_union_spec r4 0 1 r4_ok) as (b & s' & Hu & _ & _ & Hc & Hconn); [cbn; lia..|].
  vm_compute in Hu. injection Hu as <- <-. eexists. split; [reflexivity|]. split; [exact Hc|].
  apply Hconn. right. left. split; reflexivity.
Defined.

#[local] Definition after (r : outcome (bool * UnionSetWithRollback)) : UnionSetWithRollback :=
  match r with Ret (_, s) => s | _ => r4 end.
#[local] Definition r5 : UnionSetWithRollback := Eval vm_compute in after (unionSets r4 0 1).
#[local] Definition r6 : UnionSetWithRollback := Eval vm_compute in after (unionSets r5 2 0).

Lemma usr_rollback_witness :
  unionSets r4 0 1 = Ret (true, r5) /\ unionSets r5 2 0 = Ret (true, r6) /\
    rollback intact r6 (snapshot r4) = Ret r4.
Proof.
  split; [vm_compute; reflexivity|]. split; [vm_compute; reflexivity|].
  apply (usr_rollback_restores intact r4).
  - reflexivity.
  - unfold count_ok. cbn. lia.
  - eapply (sa_union _ _ r4 r5 r6 2 0 true); [eapply (sa_union _ _ r4 r4 r5 0 1 true); [apply sa_refl|..]|..];
      first [vm_compute; reflexivity | cbn; lia].
Defined.

End rollback_witnesses.
