(* ===== verification/SegmentTree.v ===== *)
(** * Segment tree

    Models [data_structure/tree/range/SegmentTree.hpp]: a complete binary tree
    stored in a vector of [4 n] cells, node [i] having children [2 i] and
    [2 i + 1], each node holding the merge of a half-open segment of [data_]. *)

From S2P Require Import Prelude Refinement.

(** ** Nodes below a node: [m] is below [n] when some shift of [m] gives [n]. *)
Definition under (n m : nat) : Prop := exists d, m / 2 ^ d = n.

Lemma under_refl n : under n n.
Proof. exists 0. apply Nat.div_1_r. Qed.

Lemma under_child n c m : c / 2 = n -> under c m -> under n m.
Proof.
  intros <- [d <-]. exists (d + 1). rewrite Nat.pow_add_r, Nat.Div0.div_div. done.
Qed.

Lemma child_div n : (n * 2) / 2 = n /\ (n * 2 + 1) / 2 = n.
Proof.
  split; [apply Nat.div_mul; lia|].
  rewrite Nat.div_add_l, (Nat.div_small 1) by lia. lia.
Qed.

Lemma under_left n m : under (n * 2) m -> under n m.
Proof. apply under_child, child_div. Qed.

Lemma under_right n m : under (n * 2 + 1) m -> under n m.
Proof. apply under_child, child_div. Qed.

(** A shift and a longer one of the same number differ once they are positive. *)
Lemma under_le n m : under n m -> n <= m.
Proof. intros [d <-]. apply Nat.Div0.div_le_upper_bound. pose proof (Nat.pow_nonzero 2 d). nia. Qed.

Lemma under_not_parent n c : 0 < n -> c / 2 = n -> ~ under c n.
Proof. intros Hn Hc Hu%under_le. pose proof (Nat.div_mod_eq c 2). lia. Qed.

Lemma under_disjoint n m : 0 < n -> under (n * 2) m -> ~ under (n * 2 + 1) m.
Proof.
  intros Hn [d Hd] [e He].
  assert (forall a b x y, m / 2 ^ a = x -> m / 2 ^ (a + b) = y -> 0 < b -> y <= x / 2) as Hsh.
  { intros a b x y <- <- Hb. rewrite Nat.pow_add_r, <- Nat.Div0.div_div.
    apply Nat.div_le_compat_l. split; [lia|]. change 2 with (2 ^ 1) at 1. apply Nat.pow_le_mono_r; lia. }
  destruct (lt_eq_lt_dec d e) as [[Hlt|Heq]|Hlt].
  - pose proof (Hsh d (e - d) (n * 2) (n * 2 + 1) Hd) as Hx. replace (d + (e - d)) with e in Hx by lia.
    specialize (Hx He ltac:(lia)). destruct (child_div n) as [Hc _]. lia.
  - subst e. lia.
  - pose proof (Hsh e (d - e) (n * 2 + 1) (n * 2) He) as Hx. replace (e + (d - e)) with d in Hx by lia.
    specialize (Hx Hd ltac:(lia)). destruct (child_div n) as [_ Hc]. lia.
Qed.

Section segment_tree.
Context {T : Type} (T_default : T) (merge_ : T -> T -> T).

Record SegmentTree := mkST {
  data_ : list T;
  n_ : nat;
  tree_ : list T;
}.

Implicit Types (st : SegmentTree) (tree data : list T) (node l r : nat).

(** ** Operations *)

Definition set_merged tree node : outcome (list T) :=
  a ← vget tree (node * 2);
  b ← vget tree (node * 2 + 1);
  vset tree node (merge_ a b).

Fixpoint buildTree (fuel : nat) data tree node l r : outcome (list T) :=
  match fuel with
  | 0 => NoFuel
  | S fuel =>
    if decide (l + 1 = r) then x ← vget data l; vset tree node x else
    let mid := l + (r - l) / 2 in
    tree ← buildTree fuel data tree (node * 2) l mid;
    tree ← buildTree fuel data tree (node * 2 + 1) mid r;
    set_merged tree node
  end.

Definition st_of_data data : outcome SegmentTree :=
  let n := length data in
  let tree := replicate (4 * n) T_default in
  if decide (0 < n) then
    tree ← buildTree (S n) data tree 1 0 n;
    Ret (mkST data n tree)
  else Ret (mkST data n tree).

Definition st_new (n : nat) : outcome SegmentTree := st_of_data (replicate n T_default).

Definition st_fill (n : nat) (init_value : T) : outcome SegmentTree :=
  st_of_data (replicate n init_value).

Fixpoint updateTree (fuel : nat) data tree node l r (pos : nat) (value : T)
    : outcome (list T * list T) :=
  match fuel with
  | 0 => NoFuel
  | S fuel =>
    if decide (l + 1 = r) then
      tree ← vset tree node value;
      data ← vset data pos value;
      Ret (data, tree)
    else
    let mid := l + (r - l) / 2 in
    '(data, tree) ← (if decide (pos < mid) then updateTree fuel data tree (node * 2) l mid pos value
                     else updateTree fuel data tree (node * 2 + 1) mid r pos value);
    tree ← set_merged tree node;
    Ret (data, tree)
  end.

Definition update st (pos : nat) (value : T) : outcome SegmentTree :=
  if decide (n_ st <= pos) then Throw out_of_range else
  '(data, tree) ← updateTree (S (n_ st)) (data_ st) (tree_ st) 1 0 (n_ st) pos value;
  Ret (mkST data (n_ st) tree).

Fixpoint queryTree (fuel : nat) tree node l r (ql qr : nat) : outcome (option T) :=
  match fuel with
  | 0 => NoFuel
  | S fuel =>
    if decide (r <= ql \/ qr <= l) then Ret None
    else if decide (ql <= l /\ r <= qr) then Some <$> vget tree node
    else
    let mid := l + (r - l) / 2 in
    left ← queryTree fuel tree (node * 2) l mid ql qr;
    right ← queryTree fuel tree (node * 2 + 1) mid r ql qr;
    match left, right with
    | None, _ => Ret right
    | _, None => Ret left
    | Some a, Some b => Ret (Some (merge_ a b))
    end
  end.

Definition query st (l r : nat) : outcome T :=
  if decide (r <= l \/ n_ st < r) then Throw out_of_range else
  result ← queryTree (S (n_ st)) (tree_ st) 1 0 (n_ st) l r;
  match result with
  | None => Throw out_of_range
  | Some v => Ret v
  end.

Definition at_ st (pos : nat) : outcome T :=
  if decide (n_ st <= pos) then Throw out_of_range else vget (data_ st) pos.

Definition empty st : bool := bool_decide (n_ st = 0).
Definition size st : nat := n_ st.
Definition swap (a b : SegmentTree) : SegmentTree * SegmentTree := (b, a).

(** ** Invariant: every node holds the reduction of its segment. *)
Inductive seg_ok data tree : nat -> nat -> nat -> Prop :=
| seg_leaf node l x :
    data !! l = Some x -> tree !! node = Some x -> seg_ok data tree node l (l + 1)
| seg_branch node l r a b :
    l + 1 < r ->
    seg_ok data tree (node * 2) l (l + (r - l) / 2) ->
    seg_ok data tree (node * 2 + 1) (l + (r - l) / 2) r ->
    tree !! (node * 2) = Some a -> tree !! (node * 2 + 1) = Some b ->
    tree !! node = Some (merge_ a b) ->
    seg_ok data tree node l r.

Definition st_ok st : Prop :=
  n_ st = length (data_ st) /\ length (tree_ st) = 4 * n_ st /\
  (0 < n_ st -> seg_ok (data_ st) (tree_ st) 1 0 (n_ st)).

(** ** Lemmas *)

Lemma mid_bounds l r : l + 1 < r -> l < l + (r - l) / 2 < r.
Proof.
  intros. assert (0 < (r - l) / 2) by (apply Nat.div_str_pos; lia).
  assert ((r - l) / 2 < r - l) by (apply Nat.div_lt; lia). lia.
Qed.

Lemma halves_le l r k :
  l + 1 < r -> r - l <= 2 ^ S k -> (l + (r - l) / 2) - l <= 2 ^ k /\ r - (l + (r - l) / 2) <= 2 ^ k.
Proof.
  intros Hl. rewrite Nat.pow_succ_r'. pose proof (Nat.div_mod_eq (r - l) 2).
  pose proof (Nat.mod_upper_bound (r - l) 2). lia.
Qed.

(** A segment survives changes of the data outside it and of nodes not below its node. *)
Lemma seg_ok_frame data data' tree tree' node l r :
  seg_ok data tree node l r ->
  (forall i, l <= i < r -> data' !! i = data !! i) ->
  (forall m, under node m -> tree' !! m = tree !! m) ->
  seg_ok data' tree' node l r.
Proof.
  induction 1 as [node l x Hd Ht|node l r a b Hlr H1 IH1 H2 IH2 Ha Hb Hn]; intros Hdata Htree.
  - econstructor; [rewrite Hdata by lia|rewrite Htree by apply under_refl]; done.
  - pose proof (mid_bounds l r Hlr). econstructor; [done|..].
    + apply IH1; [intros; apply Hdata; lia|]. intros m Hm. by apply Htree, under_left.
    + apply IH2; [intros; apply Hdata; lia|]. intros m Hm. by apply Htree, under_right.
    + rewrite Htree; [done|]. apply under_left, under_refl.
    + rewrite Htree; [done|]. apply under_right, under_refl.
    + rewrite Htree; [done|]. apply under_refl.
Qed.

Lemma seg_ok_node data tree node l r : seg_ok data tree node l r -> exists v, tree !! node = Some v.
Proof. destruct 1; eauto. Qed.

Lemma seg_ok_range data tree node l r : seg_ok data tree node l r -> l < r /\ r <= length data.
Proof.
  induction 1 as [node l x Hd _|]; [|lia]. apply lookup_lt_Some in Hd. lia.
Qed.

(** Writing the merge into a node whose two subtrees are in order. *)
Lemma set_merged_ok data tree node l r :
  0 < node -> node < length tree -> l + 1 < r ->
  seg_ok data tree (node * 2) l (l + (r - l) / 2) ->
  seg_ok data tree (node * 2 + 1) (l + (r - l) / 2) r ->
  exists tree', set_merged tree node = Ret tree' /\ length tree' = length tree /\
    seg_ok data tree' node l r /\ (forall m, m <> node -> tree' !! m = tree !! m).
Proof.
  intros Hn Hlen Hlr H1 H2. destruct (seg_ok_node _ _ _ _ _ H1) as [a Ha], (seg_ok_node _ _ _ _ _ H2) as [b Hb].
  destruct (child_div node) as [Hc1 Hc2].
  exists (<[node:=merge_ a b]> tree). unfold set_merged.
  rewrite (vget_Some _ _ _ Ha), bind_Ret, (vget_Some _ _ _ Hb), bind_Ret, vset_lt by done.
  rewrite length_insert. split_and!; [done..| |intros; by apply list_lookup_insert_ne].
  assert (forall c, c / 2 = node -> forall m, under c m -> <[node:=merge_ a b]> tree !! m = tree !! m) as Hout.
  { intros c Hc m Hm. apply list_lookup_insert_ne. intros ->. by eapply under_not_parent. }
  apply (seg_branch _ _ _ _ _ a b); try done.
  - eapply seg_ok_frame; [done..|]. by apply Hout.
  - eapply seg_ok_frame; [done..|]. by apply Hout.
  - rewrite (Hout _ Hc1 _ (under_refl _)). done.
  - rewrite (Hout _ Hc2 _ (under_refl _)). done.
  - by apply list_lookup_insert_eq.
Qed.

Lemma pow2_mul_lt n k len : (n + 1) * 2 ^ k <= len -> n < len.
Proof. pose proof (Nat.pow_nonzero 2 k ltac:(lia)). nia. Qed.

Lemma buildTree_ok k : forall fuel data tree node l r,
  k < fuel -> l < r -> r <= length data -> r - l <= 2 ^ k -> 0 < node -> (node + 1) * 2 ^ k <= length tree ->
  exists tree', buildTree fuel data tree node l r = Ret tree' /\ length tree' = length tree /\
    seg_ok data tree' node l r /\ (forall m, ~ under node m -> tree' !! m = tree !! m).
Proof.
  induction k as [|k IH]; intros [|fuel] data tree node l r Hf Hlr Hr Hk Hn Hlen; try lia;
    cbn [buildTree]; destruct (decide (l + 1 = r)) as [<-|Hne].
  1, 3: destruct (vget_lt data l ltac:(lia)) as (x & Hx & ->); rewrite bind_Ret;
    apply pow2_mul_lt in Hlen;
    rewrite vset_lt by done; exists (<[node:=x]> tree); rewrite length_insert;
    (split_and!; [done..|by eapply seg_leaf; [|apply list_lookup_insert_eq]|]);
    intros m Hm; apply list_lookup_insert_ne; intros ->; by apply Hm, under_refl.
  { rewrite Nat.pow_0_r in Hk. lia. }
  pose proof (mid_bounds l r ltac:(lia)). destruct (halves_le l r k ltac:(lia) Hk) as [Hk1 Hk2].
  rewrite Nat.pow_succ_r' in Hlen. pose proof (Nat.pow_nonzero 2 k ltac:(lia)).
  destruct (IH fuel data tree (node * 2) l (l + (r - l) / 2)) as (t1 & -> & Hl1 & Hs1 & Hf1); [nia..|].
  ret_step.
  destruct (IH fuel data t1 (node * 2 + 1) (l + (r - l) / 2) r) as (t2 & -> & Hl2 & Hs2 & Hf2); [nia..|].
  ret_step.
  assert (seg_ok data t2 (node * 2) l (l + (r - l) / 2)) as Hs1'.
  { eapply seg_ok_frame; [done..|]. intros m Hm. apply Hf2. by apply under_disjoint. }
  destruct (set_merged_ok data t2 node l r) as (t3 & -> & Hl3 & Hs3 & Hf3); [nia..|lia|done|done|].
  exists t3. split_and!; [done|lia|done|]. intros m Hm.
  rewrite Hf3, Hf2, Hf1; [done|..].
  - contradict Hm. by apply under_left.
  - contradict Hm. by apply under_right.
  - intros ->. apply Hm, under_refl.
Qed.

Lemma updateTree_ok k : forall fuel data tree node l r pos value,
  k < fuel -> r - l <= 2 ^ k -> 0 < node -> l <= pos < r -> seg_ok data tree node l r ->
  exists tree', updateTree fuel data tree node l r pos value = Ret (<[pos:=value]> data, tree') /\
    length tree' = length tree /\ seg_ok (<[pos:=value]> data) tree' node l r /\
    (forall m, ~ under node m -> tree' !! m = tree !! m).
Proof.
  induction k as [|k IH]; intros [|fuel] data tree node l r pos value Hf Hk Hn Hpos Hseg; try lia;
    cbn [updateTree]; destruct (decide (l + 1 = r)) as [<-|Hne].
  1, 3: destruct (seg_ok_node _ _ _ _ _ Hseg) as [v Hv%lookup_lt_Some];
    apply seg_ok_range in Hseg as [_ Hlen]; replace pos with l by lia;
    rewrite !vset_lt by lia; cbn -[under]; exists (<[node:=value]> tree); rewrite length_insert;
    (split_and!; [done..|by eapply seg_leaf; apply list_lookup_insert_eq; lia|]);
    intros m Hm; apply list_lookup_insert_ne; intros ->; by apply Hm, under_refl.
  { apply seg_ok_range in Hseg. rewrite Nat.pow_0_r in Hk. lia. }
  inversion Hseg as [? ? ? ? ? E|? ? ? a b Hlr H1 H2 Ha Hb Hnode]; subst; [lia|].
  pose proof (mid_bounds l r ltac:(lia)). destruct (halves_le l r k ltac:(lia) Hk) as [Hk1 Hk2].
  apply lookup_lt_Some in Hnode as Hlen.
  assert (exists t2, (if decide (pos < l + (r - l) / 2)
      then updateTree fuel data tree (node * 2) l (l + (r - l) / 2) pos value
      else updateTree fuel data tree (node * 2 + 1) (l + (r - l) / 2) r pos value)
        = Ret (<[pos:=value]> data, t2) /\ length t2 = length tree /\
      seg_ok (<[pos:=value]> data) t2 (node * 2) l (l + (r - l) / 2) /\
      seg_ok (<[pos:=value]> data) t2 (node * 2 + 1) (l + (r - l) / 2) r /\
      (forall m, ~ under node m -> t2 !! m = tree !! m)) as (t2 & -> & Hl2 & Hs1 & Hs2 & Hf2).
  { destruct (decide (pos < l + (r - l) / 2)) as [Hlt|Hge].
    - destruct (IH fuel data tree (node * 2) l (l + (r - l) / 2) pos value) as (t2 & -> & Hl2 & Hs & Hfr); [lia..|done|].
      exists t2. split_and!; [done..| |intros m Hm; apply Hfr; contradict Hm; by apply under_left].
      eapply seg_ok_frame; [done|intros; apply list_lookup_insert_ne; lia|].
      intros m Hm. apply Hfr. intros Hm'. by eapply under_disjoint.
    - destruct (IH fuel data tree (node * 2 + 1) (l + (r - l) / 2) r pos value) as (t2 & -> & Hl2 & Hs & Hfr); [lia..|done|].
      exists t2. split_and!; [done..| |done|intros m Hm; apply Hfr; contradict Hm; by apply under_right].
      eapply seg_ok_frame; [done|intros; apply list_lookup_insert_ne; lia|].
      intros m Hm. apply Hfr. by apply under_disjoint. }
  ret_step.
  destruct (set_merged_ok (<[pos:=value]> data) t2 node l r) as (t3 & -> & Hl3 & Hs3 & Hf3); [lia..|done|done|].
  ret_step. exists t3. split_and!; [done|lia|done|]. intros m Hm.
  rewrite Hf3; [by apply Hf2|]. intros ->. apply Hm, under_refl.
Qed.

Section values.
Context `{!Assoc (=) merge_}.

Lemma seg_ok_value data tree node l r :
  seg_ok data tree node l r -> tree !! node = reduce merge_ (slice l r data).
Proof.
  induction 1 as [node l x Hd Ht|node l r a b Hlr H1 IH1 H2 IH2 Ha Hb Hn].
  - replace (l + 1) with (S l) by lia. rewrite Ht. by rewrite (slice_one l data x Hd).
  - pose proof (mid_bounds l r Hlr).
    rewrite (slice_app l (l + (r - l) / 2) r), reduce_app, <- IH1, <- IH2, Ha, Hb by (done || lia). done.
Qed.

Lemma queryTree_ok k : forall fuel data tree node l r ql qr,
  k < fuel -> r - l <= 2 ^ k -> ql < qr -> seg_ok data tree node l r ->
  queryTree fuel tree node l r ql qr = Ret (reduce merge_ (slice (l `max` ql) (r `min` qr) data)).
Proof.
  induction k as [|k IH]; intros [|fuel] data tree node l r ql qr Hf Hk Hq Hseg; try lia;
    apply seg_ok_range in Hseg as Hlr; cbn [queryTree].
  all: destruct (decide (r <= ql \/ qr <= l)) as [Hout|Hin]; [by rewrite slice_nil by lia|].
  all: destruct (decide (ql <= l /\ r <= qr)) as [Hcov|Hpart].
  1, 3: destruct (seg_ok_node _ _ _ _ _ Hseg) as [v Hv]; rewrite (vget_Some _ _ _ Hv), fmap_Ret;
    replace (l `max` ql) with l by lia; replace (r `min` qr) with r by lia;
    rewrite <- (seg_ok_value _ _ _ _ _ Hseg); by rewrite Hv.
  { rewrite Nat.pow_0_r in Hk. lia. }
  inversion Hseg as [? ? ? ? ? E|? ? ? a b Hlr' H1 H2 Ha Hb Hnode]; subst; [lia|].
  pose proof (mid_bounds l r ltac:(lia)). destruct (halves_le l r k ltac:(lia) Hk) as [Hk1 Hk2].
  rewrite (IH fuel data tree (node * 2) l (l + (r - l) / 2)) by (done || lia). ret_step.
  rewrite (IH fuel data tree (node * 2 + 1) (l + (r - l) / 2) r) by (done || lia). ret_step.
  set (mid := l + (r - l) / 2) in *.
  assert (reduce merge_ (slice (l `max` ql) (r `min` qr) data) =
    join merge_ (reduce merge_ (slice (l `max` ql) (mid `min` qr) data))
                (reduce merge_ (slice (mid `max` ql) (r `min` qr) data))) as ->.
  { rewrite <- reduce_app by done. f_equal. destruct (decide (mid <= ql)); [|destruct (decide (qr <= mid))].
    - rewrite (slice_nil (l `max` ql) (mid `min` qr)) by lia. cbn. f_equal; lia.
    - rewrite (slice_nil (mid `max` ql) (r `min` qr)) by lia. rewrite app_nil_r. f_equal; lia.
    - replace (mid `max` ql) with mid by lia. replace (mid `min` qr) with mid by lia. apply slice_app; lia. }
  by destruct (reduce merge_ (slice (l `max` ql) (mid `min` qr) data)),
    (reduce merge_ (slice (mid `max` ql) (r `min` qr) data)).
Qed.
End values.

(** The depth needed for [n] elements, and that [4 n] cells are enough. *)
Lemma depth_of n : 0 < n -> exists k, n <= 2 ^ k /\ 2 ^ k < 2 * n /\ k < S n.
Proof.
  intros Hn. exists (Nat.log2_up n). destruct (decide (n = 1)) as [->|]; [by vm_compute; repeat constructor|].
  destruct (Nat.log2_up_spec n) as [H1 H2]; [lia|].
  assert (Nat.log2_up n <> 0) by (intros E; rewrite E in H2; rewrite Nat.pow_0_r in H2; lia).
  assert (2 ^ Nat.log2_up n = 2 * 2 ^ Nat.pred (Nat.log2_up n)) as E.
  { rewrite <- Nat.pow_succ_r'. f_equal. lia. }
  split_and!; [lia|lia|]. pose proof (Nat.log2_up_lt_lin n). lia.
Qed.

Lemma st_of_data_ok data : exists st, st_of_data data = Ret st /\ st_ok st /\ data_ st = data.
Proof.
  unfold st_of_data. destruct (decide (0 < length data)) as [Hn|Hn].
  - destruct (depth_of _ Hn) as (k & Hk1 & Hk2 & Hk3).
    destruct (buildTree_ok k (S (length data)) data (replicate (4 * length data) T_default) 1 0 (length data))
      as (t & Ht & Hl & Hs & _); [rewrite ?length_replicate; lia..|].
    rewrite Ht. eexists. split; [done|]. rewrite length_replicate in Hl. by unfold st_ok.
  - eexists. split; [done|]. unfold st_ok. cbn. rewrite length_replicate. split_and!; [done..|lia|done].
Qed.

Lemma update_ok st pos value :
  st_ok st -> pos < n_ st ->
  exists st', update st pos value = Ret st' /\ st_ok st' /\ data_ st' = <[pos:=value]> (data_ st).
Proof.
  intros (Hn & Ht & Hs) Hpos. unfold update. rewrite decide_False by lia.
  destruct (depth_of (n_ st) ltac:(lia)) as (k & Hk1 & Hk2 & Hk3).
  destruct (updateTree_ok k (S (n_ st)) (data_ st) (tree_ st) 1 0 (n_ st) pos value)
    as (t & -> & Hl & Hs' & _); [lia..|by apply Hs; lia|].
  eexists. split; [done|]. unfold st_ok. cbn. rewrite length_insert. split_and!; [done|lia|done|done].
Qed.

Lemma query_ok st l r `{!Assoc (=) merge_} :
  st_ok st -> l < r <= n_ st ->
  exists v, query st l r = Ret v /\ reduce merge_ (slice l r (data_ st)) = Some v.
Proof.
  intros (Hn & _ & Hs) Hlr. unfold query. rewrite decide_False by lia.
  destruct (depth_of (n_ st)) as (k & Hk1 & Hk2 & Hk3); [lia|].
  rewrite (queryTree_ok k _ (data_ st)) by (lia || apply Hs; lia). ret_step.
  replace (0 `max` l) with l by lia. replace (n_ st `min` r) with r by lia.
  destruct (reduce_Some merge_ (slice l r (data_ st))) as [v ->]; [|eauto].
  intros E. apply (f_equal length) in E. rewrite length_slice in E by lia. cbn in E. lia.
Qed.

(** ** Properties *)

(** building the tree from any data succeeds within the [4 n] cells, and
    [query] on every non-empty range within bounds then returns the merge of
    exactly the elements of that range, in order, for an associative merge;
    other ranges throw [out_of_range]. *)
Theorem segment_tree_query_spec data `{!Assoc (=) merge_} :
  exists st, st_of_data data = Ret st /\ st_ok st /\ data_ st = data /\
    forall l r,
      (l < r <= length data -> exists v, query st l r = Ret v /\ reduce merge_ (slice l r data) = Some v) /\
      (~ (l < r <= length data) -> query st l r = Throw out_of_range).
Proof.
  destruct (st_of_data_ok data) as (st & Hst & Hok & Hd). exists st. split_and!; [done..|]. intros l r.
  pose proof Hok as (Hn & _ & _). rewrite <- Hd, <- Hn. split; intros Hlr; [by apply query_ok|].
  unfold query. by rewrite decide_True by lia.
Qed.

(** [update] at a position in bounds replaces that element of the data
    and keeps every node of the tree equal to the merge of its segment; out of
    bounds it throws. *)
Theorem segment_tree_update_spec st pos value :
  st_ok st ->
  (pos < n_ st -> exists st', update st pos value = Ret st' /\ st_ok st' /\
     data_ st' = <[pos:=value]> (data_ st) /\ at_ st' pos = Ret value) /\
  (n_ st <= pos -> update st pos value = Throw out_of_range /\ at_ st pos = Throw out_of_range).
Proof.
  intros Hok. split; intros Hpos; [|unfold update, at_; by rewrite !decide_True].
  destruct (update_ok st pos value Hok Hpos) as (st' & -> & Hok' & Hd).
  destruct Hok as [Hn _], Hok' as [Hn' Hrest]. rewrite Hd, length_insert, <- Hn in Hn'.
  exists st'. split_and!; [done|split; [by rewrite Hd, length_insert, <- Hn|done]|done|].
  unfold at_. rewrite decide_False by lia. apply vget_Some. rewrite Hd. apply list_lookup_insert_eq. lia.
Qed.

(** *** Sequences of operations *)
Inductive st_op := StQuery (l r : nat) | StUpdate (pos : nat) (value : T) | StAt (pos : nat).

Definition st_step (st : SegmentTree) (o : st_op) : outcome (SegmentTree * obs T) :=
  match o with
  | StQuery l r => v ← query st l r; Ret (st, OVal v)
  | StUpdate pos value => st ← update st pos value; Ret (st, ODone)
  | StAt pos => v ← at_ st pos; Ret (st, OVal v)
  end.

(** The same operations on a plain vector. *)
Definition st_spec (data : list T) (o : st_op) : outcome (list T * obs T) :=
  match o with
  | StQuery l r => if decide (l < r <= length data) then
      match reduce merge_ (slice l r data) with Some v => Ret (data, OVal v) | None => Undef end
      else Throw out_of_range
  | StUpdate pos value => if decide (pos < length data) then Ret (<[pos := value]> data, ODone) else Throw out_of_range
  | StAt pos => match data !! pos with Some v => Ret (data, OVal v) | None => Throw out_of_range end
  end.

Definition st_rep (st : SegmentTree) (data : list T) : Prop := st_ok st /\ data_ st = data.

#[global] Instance st_simulates `{!Assoc (=) merge_} : Simulates st_step st_spec st_rep.
Proof.
  intros st data o [Hok <-]. pose proof Hok as (Hn & _ & _). destruct o as [l r|pos value|pos]; cbn [st_spec st_step].
  - destruct (decide (l < r <= length (data_ st))) as [Hlr|Hlr].
    + destruct (query_ok st l r Hok) as (v & -> & ->); [lia|]. exists st. done.
    + unfold query. by rewrite decide_True by lia.
  - case_decide as Hp.
    + destruct (update_ok st pos value Hok) as (st' & -> & Hok' & Hd); [lia|]. by exists st'.
    + unfold update. by rewrite decide_True by lia.
  - unfold at_. destruct (data_ st !! pos) as [v|] eqn:Hv.
    + apply lookup_lt_Some in Hv as Hlt. rewrite decide_False by lia. rewrite (vget_Some _ _ _ Hv). by exists st.
    + apply lookup_ge_None in Hv. by rewrite decide_True by lia.
Qed.

(** from any data the tree is built within its [4 n] cells, and every sequence
    of queries, updates and reads then observes what it observes on the plain
    vector: a query in bounds is the merge of exactly the elements of its range,
    in order, and accesses out of bounds throw. *)
Theorem segment_tree_refines `{!Assoc (=) merge_} data ops :
  exists st st' data' os, st_of_data data = Ret st /\
    trace st_spec data ops = Ret (data', os) /\ trace st_step st ops = Ret (st', os) /\ st_rep st' data'.
Proof.
  destruct (st_of_data_ok data) as (st & Hst & Hok & Hd). exists st.
  destruct (trace_refines_total (R := st_rep) (step := st_step) (spec := st_spec) ops st data)
    as (st' & data' & os & H1 & H2 & H3); [|done|by exists st', data', os].
  intros d o. destruct o as [l r|pos value|pos]; cbn; [|by case_decide|by case_match].
  case_decide as Hlr; [|done]. destruct (reduce_Some merge_ (slice l r d)) as [v ->]; [|done].
  intros E. apply (f_equal length) in E. rewrite length_slice in E by lia. cbn in E. lia.
Qed.

End segment_tree.

Section segment_tree_witnesses.

#[local] Instance add_assoc : Assoc (=) Nat.add.
Proof. intros x y z. lia. Qed.

#[local] Definition st5 : SegmentTree := mkST [3; 1; 4; 1; 5] 5
  [0; 14; 4; 10; 3; 1; 4; 6; 0; 0; 0; 0; 0; 0; 1; 5; 0; 0; 0; 0].

Lemma segment_tree_query_witness :
  exists st, st_of_data 0 Nat.add [3; 1; 4; 1; 5] = Ret st /\ query Nat.add st 1 4 = Ret 6.
Proof.
  destruct (segment_tree_query_spec 0 Nat.add [3; 1; 4; 1; 5]) as (st & Hst & _ & _ & Hq).
  exists st. split; [exact Hst|]. destruct (Hq 1 4) as [[v [Hv E]] _]; [cbn; lia|].
  vm_compute in E. injection E as <-. exact Hv.
Defined.

Lemma segment_tree_refines_witness :
  exists st st', st_of_data 0 Nat.add [3; 1; 4; 1; 5] = Ret st /\
    trace (st_step Nat.add) st [StQuery 1 4; StUpdate 2 10; StQuery 0 5; StQuery 3 3; StAt 2; StUpdate 5 1] =
      Ret (st', [inl (OVal 6); inl ODone; inl (OVal 20); inr out_of_range; inl (OVal 10); inr out_of_range]).
Proof.
  destruct (segment_tree_refines 0 Nat.add [3; 1; 4; 1; 5] [StQuery 1 4; StUpdate 2 10; StQuery 0 5; StQuery 3 3; StAt 2; StUpdate 5 1])
    as (st & st' & data' & os & H1 & H2 & H3 & _).
  vm_compute in H2. injection H2 as <- <-. exists st, st'. split; [exact H1|exact H3].
Defined.

Lemma st5_ok : st_ok Nat.add st5.
Proof.
  destruct (st_of_data_ok 0 Nat.add [3; 1; 4; 1; 5]) as (st & Hst & Hok & _).
  vm_compute in Hst. injection Hst as <-. exact Hok.
Qed.

Lemma segment_tree_update_witness :
  exists st', update Nat.add st5 3 10 = Ret st' /\ st_ok Nat.add st' /\ at_ st' 3 = Ret 10.
Proof.
  destruct (segment_tree_update_spec Nat.add st5 3 10 st5_ok) as [H _].
  destruct (H ltac:(cbn; lia)) as (st' & H1 & H2 & _ & H3). exists st'. split; [exact H1|]. split; [exact H2|exact H3].
Defined.

End segment_tree_witnesses.
