(* ===== verification/SparseTable.v ===== *)
(** * Sparse table

    Models [data_structure/tree/range/SparseTable.hpp]: row [k] holds the
    reductions of the [2^k] elements starting at each index; a query merges two
    rows that may overlap, which is right for an idempotent merge. *)

From S2P Require Import Prelude.

(** [std::bit_width] *)
Definition bit_width (x : nat) : nat := if decide (x = 0) then 0 else S (Nat.log2 x).

Section sparse_table.
Context {T : Type} (T_default : T) (merge_ : T -> T -> T).

Record SparseTable := mkSparse {
  n_ : nat;
  st_ : list (list T);
}.

Implicit Types (s : SparseTable) (data prev row : list T).

(** ** Operations *)

(** The inner loop of [buildFrom]: [cnt] cells of [row] from index [i]. *)
Fixpoint fill_row (cnt : nat) prev (half : nat) row (i : nat) : outcome (list T) :=
  match cnt with
  | 0 => Ret row
  | S cnt =>
    a ← vget prev i;
    b ← vget prev (i + half);
    row ← vset row i (merge_ a b);
    fill_row cnt prev half row (S i)
  end.

(** The outer loop, [cnt] rows from row [k]. *)
Fixpoint build_rows (cnt n : nat) (st : list (list T)) (k : nat) : outcome (list (list T)) :=
  match cnt with
  | 0 => Ret st
  | S cnt =>
    let half := 2 ^ (k - 1) in
    let len := n - 2 ^ k + 1 in
    prev ← vget st (k - 1);
    row ← fill_row len prev half (replicate len T_default) 0;
    build_rows cnt n (st ++ [row]) (S k)
  end.

Definition buildFrom data : outcome SparseTable :=
  let n := length data in
  if decide (n = 0) then Ret (mkSparse 0 []) else
  st ← build_rows (bit_width n - 1) n [data] 1;
  Ret (mkSparse n st).

Definition sparse_new (n : nat) (init_value : T) : outcome SparseTable :=
  if decide (0 < n) then buildFrom (replicate n init_value) else Ret (mkSparse 0 []).

Definition sparse_sized (n : nat) : outcome SparseTable := sparse_new n T_default.

Definition query s (l r : nat) : outcome T :=
  if decide (n_ s = 0) then Throw out_of_range else
  if decide (r <= l \/ n_ s < r) then Throw out_of_range else
  let len := r - l in
  if decide (len = 1) then row ← vget (st_ s) 0; vget row l else
  let k := bit_width len - 1 in
  let half := 2 ^ k in
  row ← vget (st_ s) k;
  a ← vget row l;
  b ← vget row (r - half);
  Ret (merge_ a b).

Definition at_ s (pos : nat) : outcome T :=
  if decide (n_ s <= pos) then Throw out_of_range else
  row ← vget (st_ s) 0; vget row pos.

Definition empty s : bool := bool_decide (n_ s = 0).
Definition size s : nat := n_ s.
Definition swap (a b : SparseTable) : SparseTable * SparseTable := (b, a).

(** ** Invariant *)

(** [row] holds the reductions of [2^k] consecutive elements of [data]. *)
Definition row_ok data (k : nat) row : Prop :=
  length row = length data - 2 ^ k + 1 /\
  forall i, i + 2 ^ k <= length data -> row !! i = reduce merge_ (slice i (i + 2 ^ k) data).

Definition rows_ok data (st : list (list T)) : Prop :=
  forall k row, st !! k = Some row -> row_ok data k row.

(** ** Lemmas *)

Lemma fill_row_ok cnt : forall prev half row i,
  i + cnt <= length row -> i + cnt + half <= length prev ->
  exists row', fill_row cnt prev half row i = Ret row' /\ length row' = length row /\
    (forall j, j < i -> row' !! j = row !! j) /\
    (forall j, i <= j < i + cnt -> row' !! j = join merge_ (prev !! j) (prev !! (j + half))).
Proof.
  induction cnt as [|cnt IH]; intros prev half row i Hr Hp; cbn [fill_row].
  { exists row. split_and!; [done..|]. lia. }
  destruct (vget_lt prev i ltac:(lia)) as (a & Ha & ->); ret_step.
  destruct (vget_lt prev (i + half) ltac:(lia)) as (b & Hb & ->); ret_step.
  rewrite vset_lt by lia; ret_step.
  destruct (IH prev half (<[i:=merge_ a b]> row) (S i)) as (row' & -> & Hl & Hlow & Hhigh);
    [rewrite ?length_insert; lia..|].
  rewrite length_insert in Hl. exists row'. split_and!; [done|done|..].
  - intros j Hj. rewrite Hlow by lia. apply list_lookup_insert_ne. lia.
  - intros j Hj. destruct (decide (j = i)) as [->|]; [|apply Hhigh; lia].
    rewrite Hlow by lia. rewrite list_lookup_insert_eq by lia. by rewrite Ha, Hb.
Qed.

Section laws.
Context `{!Assoc (=) merge_}.

(** One doubling step: a row of width [2^(k+1)] from one of width [2^k]. *)
Lemma row_ok_double data k prev :
  row_ok data k prev -> 2 ^ S k <= length data ->
  exists row, fill_row (length data - 2 ^ S k + 1) prev (2 ^ k)
    (replicate (length data - 2 ^ S k + 1) T_default) 0 = Ret row /\ row_ok data (S k) row.
Proof.
  intros [Hl Hv] Hk. rewrite Nat.pow_succ_r' in *.
  destruct (fill_row_ok (length data - 2 * 2 ^ k + 1) prev (2 ^ k) (replicate (length data - 2 * 2 ^ k + 1) T_default) 0)
    as (row & -> & Hlen & _ & Hrow); [rewrite ?length_replicate; lia..|].
  rewrite length_replicate in Hlen. exists row. split; [done|].
  unfold row_ok. rewrite Nat.pow_succ_r'. split; [done|].
  intros i Hi. rewrite Hrow, !Hv by lia.
  rewrite (slice_app i (i + 2 ^ k) (i + 2 * 2 ^ k)), reduce_app by (done || lia).
  by replace (i + 2 ^ k + 2 ^ k) with (i + 2 * 2 ^ k) by lia.
Qed.

Lemma build_rows_ok cnt data : forall st k,
  0 < k -> length st = k -> rows_ok data st -> (0 < cnt -> 2 ^ (k + cnt - 1) <= length data) ->
  exists st', build_rows cnt (length data) st k = Ret st' /\ length st' = k + cnt /\ rows_ok data st'.
Proof.
  induction cnt as [|cnt IH]; intros st k Hk Hl Hst Hp; cbn [build_rows].
  { exists st. split_and!; [done|lia|done]. }
  destruct (vget_lt st (k - 1) ltac:(lia)) as (prev & Hprev & ->); ret_step.
  destruct k as [|k]; [lia|]. replace (S k - 1) with k in * by lia.
  assert (2 ^ S k <= length data) as Hle.
  { etransitivity; [|apply Hp; lia]. apply Nat.pow_le_mono_r; lia. }
  destruct (row_ok_double data k prev (Hst _ _ Hprev) Hle) as (row & -> & Hrow); ret_step.
  destruct (IH (st ++ [row]) (S (S k))) as (st' & -> & Hl' & Hst'); [lia|rewrite length_app; cbn; lia|..].
  - intros j row' [Hj|[Hj Hx]]%lookup_app_Some; [by eapply Hst|].
    apply list_lookup_singleton_Some in Hx as [Hj0 <-]. by replace j with (S k) by lia.
  - intros _. etransitivity; [|apply Hp; lia]. apply Nat.pow_le_mono_r; lia.
  - exists st'. split_and!; [done|lia|done].
Qed.

Lemma row_ok_0 data : 0 < length data -> row_ok data 0 data.
Proof.
  intros Hd. split; rewrite Nat.pow_0_r.
  - lia.
  - intros i Hi. destruct (vget_lt data i) as (x & Hx & _); [lia|].
    replace (i + 1) with (S i) by lia. by rewrite (slice_one i data x Hx).
Qed.
End laws.

Lemma bit_width_pow x : 0 < x -> 2 ^ (bit_width x - 1) <= x < 2 * 2 ^ (bit_width x - 1).
Proof.
  intros Hx. unfold bit_width. rewrite decide_False by lia.
  replace (S (Nat.log2 x) - 1) with (Nat.log2 x) by lia.
  pose proof (Nat.log2_spec x Hx) as Hl. rewrite Nat.pow_succ_r' in Hl. lia.
Qed.

Lemma bit_width_mono x y : x <= y -> bit_width x <= bit_width y.
Proof.
  intros Hxy. unfold bit_width. repeat case_decide; try lia. apply le_n_S, Nat.log2_le_mono. lia.
Qed.

(** Merging the reductions of two overlapping ranges reduces their union. *)
Lemma reduce_overlap `{!Assoc (=) merge_, !IdemP (=) merge_} data l m1 m2 r :
  l <= m1 -> m1 <= m2 -> m2 <= r ->
  join merge_ (reduce merge_ (slice l m2 data)) (reduce merge_ (slice m1 r data)) =
  reduce merge_ (slice l r data).
Proof.
  intros. rewrite (slice_app l m1 m2), (slice_app m1 m2 r), (slice_app l m1 r), (slice_app m1 m2 r) by lia.
  rewrite !reduce_app by done.
  set (a := reduce merge_ (slice l m1 data)). set (b := reduce merge_ (slice m1 m2 data)).
  rewrite <- !join_assoc by done. f_equal. rewrite (join_assoc merge_ b b) by done. f_equal.
  destruct b as [x|]; [|done]. cbn. by rewrite (idemp merge_).
Qed.

(** ** Properties *)

(** building the table from any data succeeds, and [query] on every
    non-empty range within bounds returns the merge of exactly that range for
    an associative and idempotent merge; other ranges throw. *)
Theorem sparse_table_query_spec data `{!Assoc (=) merge_, !IdemP (=) merge_} :
  exists s, buildFrom data = Ret s /\ n_ s = length data /\
    forall l r,
      (l < r <= length data -> exists v, query s l r = Ret v /\ reduce merge_ (slice l r data) = Some v) /\
      (~ (l < r <= length data) -> query s l r = Throw out_of_range).
Proof.
  unfold buildFrom, query. destruct (decide (length data = 0)) as [E|E].
  { exists (mkSparse 0 []). rewrite E. split_and!; [done..|]. intros l r. split; [lia|done]. }
  pose proof (bit_width_pow (length data) ltac:(lia)) as Hbw.
  destruct (build_rows_ok (bit_width (length data) - 1) data [data] 1) as (st & -> & Hl & Hst); [lia|done|..].
  { intros k row [Hk <-]%list_lookup_singleton_Some. rewrite Hk. apply row_ok_0. lia. }
  { intros _. replace (1 + (bit_width (length data) - 1) - 1) with (bit_width (length data) - 1) by lia. lia. }
  exists (mkSparse (length data) st). split_and!; [done..|]. intros l r. cbn [n_ st_].
  rewrite (decide_False (P := length data = 0)) by done.
  split; intros Hlr; [|by rewrite decide_True by lia]. rewrite decide_False by lia.
  destruct (reduce_Some merge_ (slice l r data)) as [v Hv].
  { intros E'. apply (f_equal length) in E'. rewrite length_slice in E' by lia. cbn in E'. lia. }
  exists v. split; [|done]. case_decide as H1.
  - destruct (vget_lt st 0 ltac:(lia)) as (row & Hrow & ->); ret_step.
    destruct (Hst _ _ Hrow) as [_ Hr]. rewrite Nat.pow_0_r in Hr. apply vget_Some.
    rewrite Hr by lia. by replace (l + 1) with r by lia.
  - pose proof (bit_width_pow (r - l) ltac:(lia)) as Hp. pose proof (bit_width_mono (r - l) (length data) ltac:(lia)).
    assert (0 < bit_width (r - l)) by (unfold bit_width; case_decide; lia).
    set (k := bit_width (r - l) - 1) in *.
    destruct (vget_lt st k ltac:(lia)) as (row & Hrow & ->); ret_step. destruct (Hst _ _ Hrow) as [Hlen Hr].
    destruct (vget_lt row l ltac:(lia)) as (a & Ha & ->); ret_step.
    destruct (vget_lt row (r - 2 ^ k) ltac:(lia)) as (b & Hb & ->); ret_step.
    pose proof (reduce_overlap data l (r - 2 ^ k) (l + 2 ^ k) r) as Ho.
    rewrite <- Hr in Ho by lia. pose proof (Hr (r - 2 ^ k)) as Hr2.
    replace (r - 2 ^ k + 2 ^ k) with r in Hr2 by lia. rewrite <- Hr2, Ha, Hb, Hv in Ho by lia.
    specialize (Ho ltac:(lia) ltac:(lia) ltac:(lia)). cbn in Ho. injection Ho as Ho. by rewrite Ho.
Qed.

End sparse_table.

Section sparse_table_witnesses.

#[local] Instance min_assoc : Assoc (=) Nat.min.
Proof. intros x y z. lia. Qed.
#[local] Instance min_idem : IdemP (=) Nat.min.
Proof. intros x. lia. Qed.

Lemma sparse_table_query_witness :
  exists s, buildFrom 0 Nat.min [3; 1; 4; 1; 5; 9; 2] = Ret s /\ query Nat.min s 2 6 = Ret 1.
Proof.
  destruct (sparse_table_query_spec 0 Nat.min [3; 1; 4; 1; 5; 9; 2]) as (s & Hs & _ & Hq).
  exists s. split; [exact Hs|]. destruct (Hq 2 6) as [[v [Hv E]] _]; [cbn; lia|].
  vm_compute in E. injection E as <-. exact Hv.
Defined.

End sparse_table_witnesses.
