(* ===== verification/FenwickTree.v ===== *)
(** * Fenwick tree

    Models [data_structure/tree/range/FenwickTree.hpp]: cell [i] of the
    1-based array holds the sum of the [lowbit i] elements that end at [i].
    Indices are [size_t]s; a vector has fewer than [2^63] elements, so that the
    index steps of the loops do not wrap. *)

From S2P Require Import Prelude Refinement.

(** [x & -x] on [size_t]. *)
Definition lowbit (x : nat) : nat :=
  Z.to_nat (Z.land (Z.of_nat x) (u64 (- Z.of_nat x))).

(** ** The arithmetic of [lowbit] *)

(** Bound on the indices that occur (vectors are shorter than [2^63]). *)
Definition index_ok (x : nat) : Prop := (0 < Z.of_nat x < 2 ^ 64)%Z.

Lemma odd_part x : 0 < x -> exists k m, x = 2 ^ k * (2 * m + 1).
Proof.
  induction (lt_wf x) as [x _ IH]. intros Hx. destruct (Nat.Even_or_Odd x) as [[y ->]|[y ->]].
  - destruct (IH y) as (k & m & ->); [lia..|]. exists (S k), m. rewrite Nat.pow_succ_r'. lia.
  - exists 0, y. rewrite Nat.pow_0_r. lia.
Qed.

Lemma land_opp_odd m : Z.land (2 * m + 1) (- (2 * m + 1)) = 1%Z.
Proof.
  replace (- (2 * m + 1))%Z with (Z.lnot (2 * m)) by (unfold Z.lnot; lia).
  rewrite <- Z.ldiff_land. apply Z.bits_inj'. intros n Hn. rewrite Z.ldiff_spec.
  destruct (decide (n = 0%Z)) as [->|].
  - by rewrite Z.testbit_odd_0, Z.testbit_even_0.
  - replace n with (Z.succ (n - 1)) by lia. rewrite Z.testbit_odd_succ, Z.testbit_even_succ by lia.
    change 1%Z with (2 * 0 + 1)%Z. rewrite Z.testbit_odd_succ, Z.bits_0 by lia. apply andb_negb_r.
Qed.

Lemma lowbit_odd_part k m : index_ok (2 ^ k * (2 * m + 1)) -> lowbit (2 ^ k * (2 * m + 1)) = 2 ^ k.
Proof.
  unfold index_ok, lowbit. set (x := Z.of_nat (2 ^ k * (2 * m + 1))). intros Hx. unfold u64.
  assert (x = Z.shiftl (2 * Z.of_nat m + 1) (Z.of_nat k)) as E.
  { rewrite Z.shiftl_mul_pow2 by lia. subst x. rewrite Nat2Z.inj_mul, Nat2Z.inj_pow. lia. }
  rewrite <- Z.land_ones, Z.land_assoc, Z.land_ones by lia.
  assert (Z.land x (- x) = 2 ^ Z.of_nat k)%Z as ->.
  { rewrite E. replace (- Z.shiftl (2 * Z.of_nat m + 1) (Z.of_nat k))%Z
      with (Z.shiftl (- (2 * Z.of_nat m + 1)) (Z.of_nat k)) by (rewrite !Z.shiftl_mul_pow2 by lia; lia).
    rewrite <- Z.shiftl_land, land_opp_odd, Z.shiftl_mul_pow2 by lia. lia. }
  rewrite Z.shiftl_mul_pow2 in E by lia. rewrite Z.mod_small.
  - rewrite <- (Nat2Z.id (2 ^ k)), Nat2Z.inj_pow. done.
  - assert (0 < 2 ^ Z.of_nat k)%Z by (apply Z.pow_pos_nonneg; lia). nia.
Qed.

Lemma lowbit_bounds x : index_ok x -> 0 < lowbit x <= x.
Proof.
  intros Hx. destruct (odd_part x) as (k & m & ->); [unfold index_ok in Hx; lia|].
  rewrite lowbit_odd_part by done. pose proof (Nat.pow_nonzero 2 k ltac:(lia)). nia.
Qed.

(** The next index of [add] covers at least twice as much. *)
Lemma lowbit_next x : index_ok x -> index_ok (x + lowbit x) -> 2 * lowbit x <= lowbit (x + lowbit x).
Proof.
  intros Hx. destruct (odd_part x) as (k & m & ->); [unfold index_ok in Hx; lia|].
  rewrite lowbit_odd_part by done.
  replace (2 ^ k * (2 * m + 1) + 2 ^ k) with (2 ^ S k * (m + 1)) by (rewrite Nat.pow_succ_r'; lia).
  destruct (odd_part (m + 1)) as (a & b & ->); [lia|]. rewrite Nat.mul_assoc, <- Nat.pow_add_r.
  intros Hy. rewrite lowbit_odd_part by done. rewrite <- Nat.pow_succ_r'. apply Nat.pow_le_mono_r; lia.
Qed.

(** Between an index and the next one, cells start at or after the index. *)
Lemma lowbit_between x t :
  index_ok x -> index_ok (x + t) -> 0 < t < lowbit x -> lowbit (x + t) <= t.
Proof.
  intros Hx Hy Ht. destruct (odd_part x) as (k & m & ->); [unfold index_ok in Hx; lia|].
  rewrite lowbit_odd_part in Ht by done. destruct (odd_part t) as (a & b & ->); [lia|].
  assert (a < k) as Hak.
  { apply (Nat.pow_lt_mono_r_iff 2); [lia|]. pose proof (Nat.pow_nonzero 2 a ltac:(lia)). nia. }
  assert (2 ^ k * (2 * m + 1) + 2 ^ a * (2 * b + 1) = 2 ^ a * (2 * (2 ^ (k - a - 1) * (2 * m + 1) + b) + 1)) as E.
  { replace k with (a + S (k - a - 1)) at 1 by lia. rewrite Nat.pow_add_r, Nat.pow_succ_r'. nia. }
  rewrite E in *. rewrite lowbit_odd_part by done. nia.
Qed.

(** ** The element type: addition and its inverse, as for unsigned integers *)
Class AddLaws {T} (zero : T) (add sub : T -> T -> T) : Prop := {
  al_comm :: Comm (=) add;
  al_assoc :: Assoc (=) add;
  al_zero : forall x, add zero x = x;
  al_sub : forall x y, sub (add x y) x = y;
}.

Section fenwick.
Context {T : Type} (T_zero : T) (T_add T_sub : T -> T -> T).

Record FenwickTree := mkFenwick {
  n_ : nat;
  tree_ : list T;
}.

Implicit Types (f : FenwickTree) (tree data : list T) (i pos : nat).

(** ** Operations *)

Definition fenwick_sized (n : nat) : FenwickTree := mkFenwick n (replicate (n + 1) T_zero).

(** [for (i = pos + 1; i <= n_; i += lowbit(i)) tree_\[i\] += delta;] *)
Fixpoint add_loop (fuel n : nat) tree i (delta : T) : outcome (list T) :=
  match fuel with
  | 0 => NoFuel
  | S fuel =>
    if decide (i <= n) then
      x ← vget tree i;
      tree ← vset tree i (T_add x delta);
      add_loop fuel n tree (i + lowbit i) delta
    else Ret tree
  end.

Definition add f pos (delta : T) : outcome FenwickTree :=
  if decide (n_ f <= pos) then Throw out_of_range else
  mkFenwick (n_ f) <$> add_loop (S (n_ f)) (n_ f) (tree_ f) (pos + 1) delta.

(** The constructors' loops: [add(i, data\[i\])] for each element in turn. *)
Fixpoint add_all f i data : outcome FenwickTree :=
  match data with
  | [] => Ret f
  | x :: data => f ← add f i x; add_all f (S i) data
  end.

Definition fenwick_of_data data : outcome FenwickTree :=
  add_all (fenwick_sized (length data)) 0 data.

Definition fenwick_fill (n : nat) (init_value : T) : outcome FenwickTree :=
  add_all (fenwick_sized n) 0 (replicate n init_value).

(** [for (i = pos; i > 0; i -= lowbit(i)) result += tree_\[i\];] *)
Fixpoint sum_loop (fuel : nat) tree i (result : T) : outcome T :=
  match fuel with
  | 0 => NoFuel
  | S fuel =>
    if decide (0 < i) then
      x ← vget tree i;
      sum_loop fuel tree (i - lowbit i) (T_add result x)
    else Ret result
  end.

Definition sum f pos : outcome T :=
  if decide (n_ f < pos) then Throw out_of_range else
  sum_loop (S pos) (tree_ f) pos T_zero.

Definition sum_range f (l r : nat) : outcome T :=
  if decide (r <= l \/ n_ f < r) then Throw out_of_range else
  b ← sum f r; a ← sum f l; Ret (T_sub b a).

Definition at_ f pos : outcome T :=
  if decide (n_ f <= pos) then Throw out_of_range else sum_range f pos (pos + 1).

Definition empty f : bool := bool_decide (n_ f = 0).
Definition size f : nat := n_ f.
Definition swap (a b : FenwickTree) : FenwickTree * FenwickTree := (b, a).

(** ** Invariant *)

Definition total (xs : list T) : T := foldr T_add T_zero xs.

Record fenwick_ok f data : Prop := {
  fo_n : n_ f = length data;
  fo_tree : length (tree_ f) = n_ f + 1;
  fo_max : (Z.of_nat (n_ f) < 2 ^ 63)%Z;
  fo_cells : forall i, 0 < i <= n_ f -> tree_ f !! i = Some (total (slice (i - lowbit i) i data));
}.

(** ** Lemmas *)

Section laws.
Context `{!AddLaws T_zero T_add T_sub}.

Lemma total_app xs ys : total (xs ++ ys) = T_add (total xs) (total ys).
Proof.
  unfold total. induction xs as [|x xs IH]; cbn; [by rewrite al_zero|]. by rewrite IH, (assoc T_add).
Qed.

Lemma total_one x : total [x] = x.
Proof. unfold total. cbn. by rewrite (comm T_add), al_zero. Qed.

Lemma total_update data l r pos x delta :
  l <= pos < r -> r <= length data -> data !! pos = Some x ->
  total (slice l r (<[pos:=T_add x delta]> data)) = T_add (total (slice l r data)) delta.
Proof.
  intros Hlr Hlen Hx.
  assert (forall (d : list T) y, d !! pos = Some y ->
    slice l r d = slice l pos d ++ [y] ++ slice (S pos) r d) as Hsplit.
  { intros d y Hy. rewrite <- (slice_one pos d y Hy).
    rewrite (slice_app l pos r), (slice_app pos (S pos) r) by lia. done. }
  rewrite (Hsplit data x Hx), (Hsplit _ (T_add x delta)) by (apply list_lookup_insert_eq; lia).
  rewrite !slice_insert_out by lia. rewrite !total_app, !total_one, <- !(assoc T_add).
  do 2 f_equal. apply (comm T_add).
Qed.

Lemma add_loop_ok fuel : forall n tree i delta pos,
  (Z.of_nat n < 2 ^ 63)%Z -> length tree = n + 1 -> n + 1 - i < fuel -> index_ok i ->
  i - lowbit i <= pos < i ->
  exists tree', add_loop fuel n tree i delta = Ret tree' /\ length tree' = length tree /\
    (forall j, ~ (i <= j <= n /\ j - lowbit j <= pos) -> tree' !! j = tree !! j) /\
    (forall j, i <= j <= n -> j - lowbit j <= pos -> tree' !! j = (fun x => T_add x delta) <$> tree !! j).
Proof.
  induction fuel as [|fuel IH]; intros n tree i delta pos Hn Hl Hf Hi Hpos; [lia|]. cbn [add_loop].
  destruct (decide (i <= n)) as [Hin|Hout]; [|exists tree; split_and!; [done..|lia]].
  destruct (vget_lt tree i ltac:(lia)) as (x & Hx & ->); ret_step. rewrite vset_lt by lia; ret_step.
  pose proof (lowbit_bounds i Hi) as Hb.
  assert (index_ok (i + lowbit i)) as Hi' by (unfold index_ok in *; lia).
  pose proof (lowbit_next i Hi Hi') as Hnext.
  destruct (IH n (<[i:=T_add x delta]> tree) (i + lowbit i) delta pos) as (tree' & -> & Hl' & Hout & Hin');
    [done|rewrite ?length_insert; lia..|done|lia|].
  rewrite length_insert in Hl'. exists tree'. split_and!; [done..| |].
  - intros j Hj. rewrite Hout by lia. apply list_lookup_insert_ne. intros ->. apply Hj. lia.
  - intros j Hj Hjp. destruct (decide (j = i)) as [->|Hne].
    { rewrite Hout by lia. rewrite list_lookup_insert_eq by lia. by rewrite Hx. }
    destruct (decide (i + lowbit i <= j)) as [Hge|Hlt].
    { rewrite Hin' by lia. by rewrite list_lookup_insert_ne by lia. }
    pose proof (lowbit_between i (j - i) Hi) as Hbt. replace (i + (j - i)) with j in Hbt by lia.
    unfold index_ok in *. lia.
Qed.

Lemma sum_loop_ok fuel : forall f data i acc,
  fenwick_ok f data -> i < fuel -> i <= n_ f ->
  sum_loop fuel (tree_ f) i acc = Ret (T_add acc (total (slice 0 i data))).
Proof.
  induction fuel as [|fuel IH]; intros f data i acc Hok Hf Hi; [lia|]. cbn [sum_loop].
  destruct (decide (0 < i)) as [Hpos|Hz].
  - rewrite (vget_Some _ _ _ (fo_cells _ _ Hok i ltac:(lia))). ret_step.
    pose proof (fo_max _ _ Hok). pose proof (lowbit_bounds i ltac:(unfold index_ok; lia)).
    rewrite (IH f data) by (done || lia). rewrite (slice_app 0 (i - lowbit i) i), total_app by lia.
    rewrite <- (assoc T_add). by rewrite (comm T_add (total (slice 0 (i - lowbit i) data))).
  - rewrite slice_nil by lia. cbn. by rewrite (comm T_add), al_zero.
Qed.

Lemma sum_ok f data i : fenwick_ok f data -> i <= length data -> sum f i = Ret (total (slice 0 i data)).
Proof.
  intros Hok Hi. rewrite <- (fo_n _ _ Hok) in Hi. unfold sum. rewrite decide_False by lia.
  rewrite (sum_loop_ok _ f data) by (done || lia). by rewrite al_zero.
Qed.

Lemma sum_range_ok f data l r :
  fenwick_ok f data -> l < r <= length data -> sum_range f l r = Ret (total (slice l r data)).
Proof.
  intros Hok Hlr. unfold sum_range. rewrite (fo_n _ _ Hok), decide_False by lia.
  rewrite !(sum_ok f data) by (done || lia). rewrite !bind_Ret.
  by rewrite (slice_app 0 l r), total_app, al_sub by lia.
Qed.

Lemma add_ok f data pos x delta :
  fenwick_ok f data -> data !! pos = Some x ->
  exists f', add f pos delta = Ret f' /\ fenwick_ok f' (<[pos:=T_add x delta]> data).
Proof.
  intros [Hn Ht Hm Hc] Hx. apply lookup_lt_Some in Hx as Hpos. unfold add. rewrite decide_False by lia.
  assert (index_ok (pos + 1)) as Hi by (unfold index_ok; lia). pose proof (lowbit_bounds _ Hi).
  destruct (add_loop_ok (S (n_ f)) (n_ f) (tree_ f) (pos + 1) delta pos) as (tree & -> & Hl & Hout & Hin); [first [done | lia]..|].
  eexists. split; [done|]. split; cbn; [by rewrite length_insert|lia|done|]. intros i Hi'.
  destruct (decide (pos + 1 <= i /\ i - lowbit i <= pos)) as [Hcov|Hnot].
  - rewrite Hin, Hc by lia. cbn. by rewrite (total_update data _ _ pos x) by (done || lia).
  - rewrite Hout by lia. rewrite slice_insert_out by lia. apply Hc. lia.
Qed.

Lemma total_zeros n : total (replicate n T_zero) = T_zero.
Proof. induction n as [|n IH]; [done|]. cbn. unfold total in IH. by rewrite IH, al_zero. Qed.

Lemma sized_ok n : (Z.of_nat n < 2 ^ 63)%Z -> fenwick_ok (fenwick_sized n) (replicate n T_zero).
Proof.
  intros Hn. split; cbn; rewrite ?length_replicate; [done..|]. intros i Hi.
  rewrite lookup_replicate_2 by lia. f_equal. unfold slice. rewrite drop_replicate, take_replicate.
  symmetry. apply total_zeros.
Qed.

Lemma add_all_ok data : forall f dn,
  fenwick_ok f (dn ++ replicate (length data) T_zero) ->
  exists f', add_all f (length dn) data = Ret f' /\ fenwick_ok f' (dn ++ data).
Proof.
  induction data as [|x data IH]; intros f dn Hok; cbn [add_all length replicate] in *; [eauto|].
  destruct (add_ok f (dn ++ T_zero :: replicate (length data) T_zero) (length dn) T_zero x) as (f' & -> & Hok').
  { done. } { by rewrite list_lookup_middle. }
  ret_step. rewrite al_zero in Hok'.
  replace (<[length dn:=x]> (dn ++ T_zero :: replicate (length data) T_zero))
    with ((dn ++ [x]) ++ replicate (length data) T_zero) in Hok'.
  - destruct (IH f' (dn ++ [x]) Hok') as (f2 & Hf2 & Hok2).
    rewrite length_app in Hf2. cbn in Hf2. replace (length dn + 1) with (S (length dn)) in Hf2 by lia.
    exists f2. split; [done|]. by rewrite <- app_assoc in Hok2.
  - rewrite <- app_assoc. by rewrite insert_app_r_alt, Nat.sub_diag by lia.
Qed.

(** ** Properties *)

(** constructing the tree from data of any length a vector can have
    succeeds, and [sum(l, r)] is then the sum of exactly the elements of
    [\[l, r)], [sum(p)] of the first [p], and [at(p)] the element; positions out
    of bounds throw. *)
Theorem fenwick_sum_spec data :
  (Z.of_nat (length data) < 2 ^ 63)%Z ->
  exists f, fenwick_of_data data = Ret f /\ fenwick_ok f data /\
    (forall p, p <= length data -> sum f p = Ret (total (slice 0 p data))) /\
    (forall l r, l < r <= length data -> sum_range f l r = Ret (total (slice l r data))) /\
    (forall p x, data !! p = Some x -> at_ f p = Ret x) /\
    (forall l r, ~ (l < r <= length data) -> sum_range f l r = Throw out_of_range) /\
    (forall p, length data <= p -> at_ f p = Throw out_of_range).
Proof.
  intros Hmax. destruct (add_all_ok data (fenwick_sized (length data)) []) as (f & Hf & Hok); [by apply sized_ok|].
  exists f. split; [done|]. split; [done|]. pose proof (fo_n _ _ Hok) as Hn. cbn in Hok, Hn.
  split_and!.
  - intros p Hp. by apply sum_ok.
  - intros l r Hlr. by apply sum_range_ok.
  - intros p x Hx. apply lookup_lt_Some in Hx as Hlt. unfold at_. rewrite decide_False by lia.
    rewrite (sum_range_ok f data) by (done || lia). replace (p + 1) with (S p) by lia.
    rewrite (slice_one p data x Hx). cbn. by rewrite (comm T_add), al_zero.
  - intros l r Hlr. unfold sum_range. by rewrite decide_True by lia.
  - intros p Hp. unfold at_. by rewrite decide_True by lia.
Qed.

(** [add(pos, delta)] turns a tree of [data] into the tree of the data
    with [delta] added at [pos], for every later query, and throws when [pos]
    is out of bounds. *)
Theorem fenwick_add_spec f data pos delta :
  fenwick_ok f data ->
  (forall x, data !! pos = Some x ->
    exists f', add f pos delta = Ret f' /\ fenwick_ok f' (<[pos:=T_add x delta]> data) /\
      forall p, p <= length data ->
        sum f' p = Ret (if decide (pos < p) then T_add (total (slice 0 p data)) delta
                        else total (slice 0 p data))) /\
  (length data <= pos -> add f pos delta = Throw out_of_range).
Proof.
  intros Hok. split; [|intros; unfold add; rewrite (fo_n _ _ Hok); by rewrite decide_True].
  intros x Hx. destruct (add_ok f data pos x delta Hok Hx) as (f' & -> & Hok').
  exists f'. split_and!; [done..|]. intros p Hp. rewrite (sum_ok f' _ p Hok') by (by rewrite length_insert).
  f_equal. case_decide; [by apply total_update; [lia|..]|]. by rewrite slice_insert_out by lia.
Qed.

(** *** Sequences of operations *)
Inductive fenwick_op := FwAdd (pos : nat) (delta : T) | FwSum (p : nat) | FwSumRange (l r : nat) | FwAt (p : nat).

Definition fenwick_step (f : FenwickTree) (o : fenwick_op) : outcome (FenwickTree * obs T) :=
  match o with
  | FwAdd pos delta => f ← add f pos delta; Ret (f, ODone)
  | FwSum p => v ← sum f p; Ret (f, OVal v)
  | FwSumRange l r => v ← sum_range f l r; Ret (f, OVal v)
  | FwAt p => v ← at_ f p; Ret (f, OVal v)
  end.

(** The same operations on a plain vector; [sum] does not check its argument. *)
Definition fenwick_spec (data : list T) (o : fenwick_op) : outcome (list T * obs T) :=
  match o with
  | FwAdd pos delta => match data !! pos with Some x => Ret (<[pos := T_add x delta]> data, ODone) | None => Throw out_of_range end
  | FwSum p => if decide (p <= length data) then Ret (data, OVal (total (slice 0 p data))) else Undef
  | FwSumRange l r => if decide (l < r <= length data) then Ret (data, OVal (total (slice l r data))) else Throw out_of_range
  | FwAt p => match data !! p with Some x => Ret (data, OVal x) | None => Throw out_of_range end
  end.

#[global] Instance fenwick_simulates : Simulates fenwick_step fenwick_spec fenwick_ok.
Proof.
  intros f data o Hok. pose proof (fo_n _ _ Hok) as Hn. destruct o as [pos delta|p|l r|p]; cbn [fenwick_spec fenwick_step].
  - destruct (data !! pos) as [x|] eqn:Hx.
    + destruct (add_ok f data pos x delta Hok Hx) as (f' & -> & Hok'). by exists f'.
    + apply lookup_ge_None in Hx. unfold add. by rewrite decide_True by lia.
  - case_decide; [|done]. rewrite (sum_ok f data) by done. by exists f.
  - case_decide.
    + rewrite (sum_range_ok f data) by done. by exists f.
    + unfold sum_range. by rewrite decide_True by lia.
  - destruct (data !! p) as [x|] eqn:Hx; [apply lookup_lt_Some in Hx as Hlt|apply lookup_ge_None in Hx]; unfold at_.
    + rewrite decide_False by lia. rewrite (sum_range_ok f data) by (done || lia). replace (p + 1) with (S p) by lia.
      rewrite (slice_one p data x Hx). assert (total [x] = x) as -> by (cbn; by rewrite (comm T_add), al_zero). by exists f.
    + by rewrite decide_True by lia.
Qed.

(** from any data of a length a vector can have the tree is built, and every
    sequence of additions, prefix sums (within bounds), range sums and reads then
    observes what it observes on the plain vector; accesses out of bounds throw. *)
Theorem fenwick_refines data ops data' os :
  (Z.of_nat (length data) < 2 ^ 63)%Z -> trace fenwick_spec data ops = Ret (data', os) ->
  exists f f', fenwick_of_data data = Ret f /\ trace fenwick_step f ops = Ret (f', os) /\ fenwick_ok f' data'.
Proof.
  intros Hmax Ht. destruct (add_all_ok data (fenwick_sized (length data)) []) as (f & Hf & Hok); [by apply sized_ok|].
  destruct (trace_refines (R := fenwick_ok) (step := fenwick_step) (spec := fenwick_spec) ops f data data' os Hok Ht)
    as (f' & H1 & H2).
  by exists f, f'.
Qed.

End laws.
End fenwick.

Section fenwick_witnesses.

#[local] Instance Z_laws : AddLaws 0%Z Z.add Z.sub.
Proof. split; [intros x y|intros x y z|intros x|intros x y]; lia. Qed.

#[local] Definition f6 : FenwickTree := mkFenwick 6 [0; 3; 4; 4; 9; 5; 14]%Z.

Lemma fenwick_sum_witness :
  exists f, fenwick_of_data 0%Z Z.add [3; 1; 4; 1; 5; 9]%Z = Ret f /\ sum_range 0%Z Z.add Z.sub f 1 4 = Ret 6%Z.
Proof.
  destruct (fenwick_sum_spec 0%Z Z.add Z.sub [3; 1; 4; 1; 5; 9]%Z) as (f & Hf & _ & _ & Hs & _); [vm_compute; reflexivity|].
  exists f. split; [exact Hf|]. apply (Hs 1 4). cbn. lia.
Defined.

Lemma fenwick_refines_witness :
  exists f f', fenwick_of_data 0%Z Z.add [3; 1; 4; 1; 5; 9]%Z = Ret f /\
    trace (fenwick_step 0%Z Z.add Z.sub) f [FwSumRange 1 4; FwAdd 2 10%Z; FwSum 4; FwAt 2; FwAdd 6 1%Z; FwSumRange 2 2] =
      Ret (f', [inl (OVal 6%Z); inl ODone; inl (OVal 19%Z); inl (OVal 14%Z); inr out_of_range; inr out_of_range]).
Proof.
  destruct (fenwick_refines 0%Z Z.add Z.sub [3; 1; 4; 1; 5; 9]%Z
    [FwSumRange 1 4; FwAdd 2 10%Z; FwSum 4; FwAt 2; FwAdd 6 1%Z; FwSumRange 2 2] [3; 1; 14; 1; 5; 9]%Z
    [inl (OVal 6%Z); inl ODone; inl (OVal 19%Z); inl (OVal 14%Z); inr out_of_range; inr out_of_range])
    as (f & f' & H1 & H2 & _); [vm_compute; reflexivity|vm_compute; reflexivity|].
  exists f, f'. split; [exact H1|exact H2].
Defined.

Lemma f6_ok : fenwick_ok 0%Z Z.add f6 [3; 1; 4; 1; 5; 9]%Z.
Proof.
  destruct (add_all_ok 0%Z Z.add Z.sub [3; 1; 4; 1; 5; 9]%Z (fenwick_sized 0%Z 6) []) as (f & Hf & Hok).
  { apply (sized_ok 0%Z Z.add Z.sub 6). vm_compute. reflexivity. }
  vm_compute in Hf. injection Hf as <-. exact Hok.
Qed.

Lemma fenwick_add_witness :
  exists f', add Z.add f6 2 10%Z = Ret f' /\ sum 0%Z Z.add f' 4 = Ret 19%Z.
Proof.
  destruct (fenwick_add_spec 0%Z Z.add Z.sub f6 _ 2 10%Z f6_ok) as [H _].
  destruct (H 4%Z eq_refl) as (f' & H1 & _ & H2). exists f'. split; [exact H1|].
  rewrite (H2 4); [vm_compute; reflexivity|cbn; lia].
Defined.

End fenwick_witnesses.
