(* ===== verification/Circular.v ===== *)
(** * Circular storage shared by the ring buffer and the deque

    A sequence stored in a vector from a head index on, wrapping at the
    capacity; the lemmas say what writing past either end and moving the head
    do to the sequence. *)

From S2P Require Import Prelude.

Section circular.
Context {T : Type}.
Implicit Types (buf l : list T) (h c i : nat).

(** The sequence [l] is stored in [buf] (of [c] cells) from cell [h] on. *)
Record circ buf h c l : Prop := {
  circ_len : length buf = c;
  circ_fits : length l <= c;
  circ_head : h < c;
  circ_get : forall i, i < length l -> buf !! ((h + i) mod c) = l !! i;
}.

Lemma wrap h c i : h < c -> i <= c -> (h + i) mod c = if decide (h + i < c) then h + i else h + i - c.
Proof.
  intros Hh Hi. case_decide as Hlt; [by apply Nat.mod_small|].
  replace (h + i) with (h + i - c + 1 * c) at 1 by lia. rewrite Nat.Div0.mod_add. apply Nat.mod_small. lia.
Qed.

Lemma wrap_lt h c i : 0 < c -> (h + i) mod c < c.
Proof. intros. apply Nat.mod_upper_bound. lia. Qed.

Lemma wrap_inj h c i j : h < c -> i < c -> j < c -> (h + i) mod c = (h + j) mod c -> i = j.
Proof. intros Hh Hi Hj. rewrite !wrap by lia. repeat case_decide; lia. Qed.

(** Moving the start: cell [i] from the successor of [h] is cell [i+1] from [h]. *)
Lemma wrap_succ h c i : ((h + 1) mod c + i) mod c = (h + S i) mod c.
Proof. rewrite Nat.Div0.add_mod_idemp_l. f_equal. lia. Qed.

Lemma wrap_pred h c i : h < c -> ((h + c - 1) mod c + S i) mod c = (h + i) mod c.
Proof.
  intros Hh. rewrite Nat.Div0.add_mod_idemp_l.
  replace (h + c - 1 + S i) with (h + i + 1 * c) by lia. apply Nat.Div0.mod_add.
Qed.

Lemma circ_nil buf h c : length buf = c -> h < c -> circ buf h c [].
Proof. intros. split; cbn; lia. Qed.

Lemma circ_lookup buf h c l i x :
  circ buf h c l -> l !! i = Some x -> vget buf ((h + i) mod c) = Ret x.
Proof.
  intros Hc Hx. apply vget_Some. rewrite (circ_get _ _ _ _ Hc); [done|]. by eapply lookup_lt_Some.
Qed.

Lemma circ_snoc buf h c l x :
  circ buf h c l -> length l < c -> circ (<[(h + length l) mod c := x]> buf) h c (l ++ [x]).
Proof.
  intros [Hb Hf Hh Hg] Hl. split; rewrite ?length_insert, ?length_app; cbn [length]; [lia..|].
  intros i Hi. destruct (decide (i = length l)) as [->|Hne].
  - rewrite list_lookup_insert_eq by (rewrite Hb; apply wrap_lt; lia). by rewrite list_lookup_middle.
  - rewrite list_lookup_insert_ne by (intros E; apply wrap_inj in E; lia).
    rewrite lookup_app_l by lia. apply Hg. lia.
Qed.

Lemma circ_cons buf h c l x :
  circ buf h c l -> length l < c ->
  circ (<[(h + c - 1) mod c := x]> buf) ((h + c - 1) mod c) c (x :: l).
Proof.
  intros [Hb Hf Hh Hg] Hl. assert ((h + c - 1) mod c < c) as Hlt by (apply Nat.mod_upper_bound; lia).
  split; rewrite ?length_insert; cbn [length]; [lia..|]. intros i Hi.
  destruct i as [|i]; cbn [lookup list_lookup].
  - rewrite Nat.add_0_r, Nat.Div0.mod_mod. by rewrite list_lookup_insert_eq by lia.
  - rewrite list_lookup_insert_ne.
    + rewrite wrap_pred by done. apply Hg. lia.
    + intros E. replace ((h + c - 1) mod c) with (((h + c - 1) mod c + 0) mod c) in E at 1
        by (rewrite Nat.add_0_r; apply Nat.Div0.mod_mod).
      apply wrap_inj in E; lia.
Qed.

Lemma circ_tail buf h c x l : circ buf h c (x :: l) -> circ buf ((h + 1) mod c) c l.
Proof.
  intros [Hb Hf Hh Hg]. cbn [length] in *. split; [done|lia|apply wrap_lt; lia|].
  intros i Hi. rewrite wrap_succ. by rewrite Hg by lia.
Qed.

Lemma circ_init buf h c l x : circ buf h c (l ++ [x]) -> circ buf h c l.
Proof.
  intros [Hb Hf Hh Hg]. rewrite length_app in *. cbn [length] in *. split; [done|lia|done|].
  intros i Hi. rewrite Hg by lia. by rewrite lookup_app_l.
Qed.

(** [for (i = 0; i < n; ++i) dst\[i\] = src\[(h + i) % c\];] *)
Fixpoint copy_loop (cnt : nat) (src dst : list T) h c (i : nat) : outcome (list T) :=
  match cnt with
  | 0 => Ret dst
  | S cnt =>
    x ← vget src ((h + i) mod c);
    dst ← vset dst i x;
    copy_loop cnt src dst h c (S i)
  end.

Lemma copy_loop_ok cnt : forall src dst h c l i,
  circ src h c l -> i + cnt <= length l -> i + cnt <= length dst ->
  exists dst', copy_loop cnt src dst h c i = Ret dst' /\ length dst' = length dst /\
    (forall j, j < i -> dst' !! j = dst !! j) /\ (forall j, i <= j < i + cnt -> dst' !! j = l !! j).
Proof.
  induction cnt as [|cnt IH]; intros src dst h c l i Hc Hl Hd; cbn [copy_loop].
  { exists dst. split_and!; [done..|lia]. }
  destruct (vget_lt l i ltac:(lia)) as (x & Hx & _). rewrite (circ_lookup _ _ _ _ _ _ Hc Hx). ret_step.
  rewrite vset_lt by lia. ret_step.
  destruct (IH src (<[i:=x]> dst) h c l (S i)) as (dst' & -> & Hlen & Hlow & Hhigh); [done|rewrite ?length_insert; lia..|].
  rewrite length_insert in Hlen. exists dst'. split_and!; [done..| |].
  - intros j Hj. rewrite Hlow by lia. apply list_lookup_insert_ne. lia.
  - intros j Hj. destruct (decide (j = i)) as [->|]; [|apply Hhigh; lia].
    rewrite Hlow by lia. by rewrite list_lookup_insert_eq by lia.
Qed.

(** Copying the first [cnt] elements to the start of a fresh vector of [c'] cells. *)
Lemma copy_circ cnt src h c l x0 c' :
  circ src h c l -> cnt <= length l -> cnt <= c' -> 0 < c' ->
  exists dst, copy_loop cnt src (replicate c' x0) h c 0 = Ret dst /\ circ dst 0 c' (take cnt l).
Proof.
  intros Hc Hl Hc' Hpos. destruct (copy_loop_ok cnt src (replicate c' x0) h c l 0) as (dst & -> & Hlen & _ & Hd);
    [done|rewrite ?length_replicate; lia..|].
  rewrite length_replicate in Hlen. exists dst. split; [done|].
  split; rewrite ?length_take; [done|lia|lia|]. intros i Hi. rewrite Nat.add_0_l, Nat.mod_small by lia.
  rewrite lookup_take_lt by lia. apply Hd. lia.
Qed.
End circular.
