(* ===== verification/RingBuffer.v ===== *)
(** * Ring buffer

    Models [data_structure/queue/RingBuffer.hpp]: a bounded sequence in a
    circular vector with one spare cell; pushing at one end of a full buffer
    drops the element at the other.  The constructor's argument is below the
    maximum of [size_t], so that [capacity + 1] does not wrap. *)

From S2P Require Import Prelude Refinement Circular.

Section ring_buffer.
Context {T : Type} (T_default : T).

Record RingBuffer := mkRing {
  buffer_ : list T;
  head_ : nat;
  tail_ : nat;
  capacity_ : nat;
}.

Implicit Types (s : RingBuffer) (l : list T) (x : T).

(** ** Operations *)

Definition ring_new (capacity : nat) : outcome RingBuffer :=
  if decide (capacity = 0) then Throw invalid_argument
  else Ret (mkRing (replicate (capacity + 1) T_default) 0 0 (capacity + 1)).

(** [index % capacity_]: division by zero on a moved-from buffer. *)
Definition modc s (i : nat) : outcome nat :=
  if decide (capacity_ s = 0) then Undef else Ret (i mod capacity_ s).

Definition next s (index : nat) : outcome nat := modc s (index + 1).
Definition prev s (index : nat) : outcome nat := modc s (index + capacity_ s - 1).

Definition size s : outcome nat := modc s (tail_ s + capacity_ s - head_ s).
Definition capacity s : nat := capacity_ s - 1.
Definition empty s : bool := bool_decide (head_ s = tail_ s).
Definition full s : outcome bool := n ← next s (tail_ s); Ret (bool_decide (n = head_ s)).

Definition front s : outcome T :=
  if empty s then Throw out_of_range else vget (buffer_ s) (head_ s).

Definition back s : outcome T :=
  if empty s then Throw out_of_range else p ← prev s (tail_ s); vget (buffer_ s) p.

(** [operator\[\]] *)
Definition index_op s (index : nat) : outcome T :=
  i ← modc s (head_ s + index); vget (buffer_ s) i.

Definition at_ s (index : nat) : outcome T :=
  n ← size s;
  if decide (n <= index) then Throw out_of_range else index_op s index.

Definition push_back s x : outcome RingBuffer :=
  buffer ← vset (buffer_ s) (tail_ s) x;
  tail ← next s (tail_ s);
  head ← (if decide (tail = head_ s) then next s (head_ s) else Ret (head_ s));
  Ret (mkRing buffer head tail (capacity_ s)).

Definition push_front s x : outcome RingBuffer :=
  head ← prev s (head_ s);
  buffer ← vset (buffer_ s) head x;
  tail ← (if decide (head = tail_ s) then prev s (tail_ s) else Ret (tail_ s));
  Ret (mkRing buffer head tail (capacity_ s)).

Definition pop_front s : outcome RingBuffer :=
  if empty s then Throw out_of_range else
  head ← next s (head_ s); Ret (mkRing (buffer_ s) head (tail_ s) (capacity_ s)).

Definition pop_back s : outcome RingBuffer :=
  if empty s then Throw out_of_range else
  tail ← prev s (tail_ s); Ret (mkRing (buffer_ s) (head_ s) tail (capacity_ s)).

Definition clear s : RingBuffer := mkRing (buffer_ s) 0 0 (capacity_ s).

Definition resize s (new_capacity : nat) : outcome RingBuffer :=
  if decide (new_capacity = capacity s) then Ret s
  else if decide (new_capacity = 0) then Throw invalid_argument else
  n ← size s;
  let copy_count := Nat.min n new_capacity in
  new_buffer ← copy_loop copy_count (buffer_ s) (replicate (new_capacity + 1) T_default)
                 (head_ s) (capacity_ s) 0;
  Ret (mkRing new_buffer 0 copy_count (new_capacity + 1)).

Definition swap (a b : RingBuffer) : RingBuffer * RingBuffer := (b, a).
Definition copy s : RingBuffer := s.

(** The move constructor: the new object and what is left of the old one. *)
Definition move s : RingBuffer * RingBuffer := (s, mkRing [] 0 0 0).

Inductive op :=
| PushBack (x : T) | PushFront (x : T) | PopFront | PopBack
| Front | Back | At (i : nat) | Index (i : nat)
| Size | Capacity | Empty | Full | Clear | Resize (n : nat).

Definition step s (o : op) : outcome (RingBuffer * obs T) :=
  match o with
  | PushBack x => s ← push_back s x; Ret (s, ODone)
  | PushFront x => s ← push_front s x; Ret (s, ODone)
  | PopFront => s ← pop_front s; Ret (s, ODone)
  | PopBack => s ← pop_back s; Ret (s, ODone)
  | Front => x ← front s; Ret (s, OVal x)
  | Back => x ← back s; Ret (s, OVal x)
  | At i => x ← at_ s i; Ret (s, OVal x)
  | Index i => x ← index_op s i; Ret (s, OVal x)
  | Size => n ← size s; Ret (s, ONum n)
  | Capacity => Ret (s, ONum (capacity s))
  | Empty => Ret (s, OBool (empty s))
  | Full => b ← full s; Ret (s, OBool b)
  | Clear => Ret (clear s, ODone)
  | Resize n => s ← resize s n; Ret (s, ODone)
  end.

(** ** Specification: a list of at most [cap] elements *)
Definition sized (cap : nat) l : Prop := length l <= cap.

Definition spec (a : nat * list T) (o : op) : outcome ((nat * list T) * obs T) :=
  let '(cap, l) := a in
  match o with
  | PushBack x => Ret ((cap, if decide (length l = cap) then tail l ++ [x] else l ++ [x]), ODone)
  | PushFront x => Ret ((cap, if decide (length l = cap) then x :: removelast l else x :: l), ODone)
  | PopFront => match l with [] => Throw out_of_range | _ :: l => Ret ((cap, l), ODone) end
  | PopBack => match l with [] => Throw out_of_range | _ => Ret ((cap, removelast l), ODone) end
  | Front => match l with [] => Throw out_of_range | x :: _ => Ret (a, OVal x) end
  | Back => match last l with None => Throw out_of_range | Some x => Ret (a, OVal x) end
  | At i => match l !! i with None => Throw out_of_range | Some x => Ret (a, OVal x) end
  | Index i => match l !! i with None => Undef | Some x => Ret (a, OVal x) end
  | Size => Ret (a, ONum (length l))
  | Capacity => Ret (a, ONum cap)
  | Empty => Ret (a, OBool (bool_decide (l = [])))
  | Full => Ret (a, OBool (bool_decide (length l = cap)))
  | Clear => Ret ((cap, []), ODone)
  | Resize n => if decide (n = cap) then Ret (a, ODone) else if decide (n = 0) then Throw invalid_argument
                else Ret ((n, take n l), ODone)
  end.

(** ** The representation relation *)
Record ring_rep s (a : nat * list T) : Prop := {
  rr_cap : capacity_ s = a.1 + 1;
  rr_pos : 0 < a.1;
  rr_len : length a.2 <= a.1;
  rr_circ : circ (buffer_ s) (head_ s) (capacity_ s) a.2;
  rr_tail : tail_ s = (head_ s + length a.2) mod capacity_ s;
}.

(** ** Lemmas *)

Lemma modc_eq s i : 0 < capacity_ s -> modc s i = Ret (i mod capacity_ s).
Proof. intros. unfold modc. by rewrite decide_False by lia. Qed.

Section facts.
Context (s : RingBuffer) (a : nat * list T) (HR : ring_rep s a).

Lemma ring_empty : empty s = bool_decide (a.2 = []).
Proof.
  destruct HR as [Hc Hp Hl [_ _ Hh _] Ht]. unfold empty. apply bool_decide_ext. rewrite Ht.
  rewrite wrap by lia. destruct a as [cap [|x l]]; cbn [fst snd length] in *.
  - rewrite decide_True by lia. split; [done|lia].
  - split; [case_decide; lia|done].
Qed.

Lemma ring_size : size s = Ret (length a.2).
Proof.
  destruct HR as [Hc Hp Hl [_ _ Hh _] Ht]. unfold size. rewrite modc_eq by lia. f_equal. rewrite Ht, wrap by lia.
  case_decide; [|].
  - replace (head_ s + length a.2 + capacity_ s - head_ s) with (length a.2 + 1 * capacity_ s) by lia.
    rewrite Nat.Div0.mod_add. apply Nat.mod_small. lia.
  - rewrite Nat.mod_small by lia. lia.
Qed.

Lemma ring_index i x : a.2 !! i = Some x -> index_op s i = Ret x.
Proof.
  intros Hx. pose proof (rr_circ _ _ HR) as Hci. unfold index_op.
  rewrite modc_eq by (rewrite (rr_cap _ _ HR); lia). ret_step. by eapply circ_lookup.
Qed.

(** The cell before the tail, and the tail after dropping the last element. *)
Lemma ring_prev_tail : a.2 <> [] -> prev s (tail_ s) = Ret ((head_ s + (length a.2 - 1)) mod capacity_ s).
Proof.
  destruct HR as [Hc Hp Hl [_ _ Hh _] Ht]. intros Hne. destruct (a.2) as [|x l] eqn:E; [done|]. cbn [length] in *.
  unfold prev. rewrite modc_eq by lia. f_equal. rewrite Ht. replace (S (length l) - 1) with (length l) by lia.
  rewrite !wrap by lia. repeat case_decide; try lia.
  all: rewrite <- (Nat.Div0.mod_add _ 1) by lia.
  - replace (head_ s + S (length l) + capacity_ s - 1) with (head_ s + length l + 1 * capacity_ s) by lia.
    rewrite !Nat.Div0.mod_add. apply Nat.mod_small. lia.
  - rewrite Nat.Div0.mod_add. rewrite Nat.mod_small; lia.
  - replace (head_ s + S (length l) - capacity_ s + capacity_ s - 1)
      with (head_ s + length l - capacity_ s + 1 * capacity_ s) by lia.
    rewrite !Nat.Div0.mod_add. apply Nat.mod_small. lia.
Qed.

Lemma ring_next_tail : next s (tail_ s) = Ret ((head_ s + S (length a.2)) mod capacity_ s).
Proof.
  destruct HR as [Hc Hp Hl _ Ht]. unfold next. rewrite modc_eq by lia. f_equal. rewrite Ht.
  rewrite Nat.Div0.add_mod_idemp_l. f_equal. lia.
Qed.
End facts.

Lemma push_back_sim s cap l x :
  ring_rep s (cap, l) ->
  exists s', push_back s x = Ret s' /\
    ring_rep s' (cap, if decide (length l = cap) then tail l ++ [x] else l ++ [x]).
Proof.
  intros HR. pose proof (ring_next_tail _ _ HR) as Hnt. destruct HR as [Hc Hp Hl Hci Ht]. cbn [fst snd] in *.
  pose proof (circ_len _ _ _ _ Hci) as Hb. pose proof (circ_head _ _ _ _ Hci) as Hh.
  assert (circ (<[tail_ s:=x]> (buffer_ s)) (head_ s) (capacity_ s) (l ++ [x])) as Hci'
    by (rewrite Ht; apply circ_snoc; [done|lia]).
  unfold push_back. rewrite vset_lt by (rewrite Hb, Ht; apply wrap_lt; lia). ret_step.
  rewrite Hnt. ret_step. rewrite (wrap _ _ (S (length l))) in * by lia.
  destruct (decide (length l = cap)) as [Hfull|Hnf].
  - rewrite (decide_True (P := _ = head_ s)) by (case_decide; lia).
    unfold next. rewrite modc_eq by lia. ret_step. eexists. split; [done|].
    destruct l as [|y l]; cbn [length] in *; [lia|]. cbn [tail].
    split; cbn [fst snd capacity_ buffer_ head_ tail_]; rewrite ?length_app; cbn [length]; [lia..|by apply (circ_tail _ _ _ y)|].
    rewrite wrap_succ. replace (S (length l + 1)) with (capacity_ s) by lia.
    rewrite wrap by lia. repeat case_decide; lia.
  - rewrite (decide_False (P := _ = head_ s)) by (case_decide; lia). ret_step. eexists. split; [done|].
    split; cbn [fst snd capacity_ buffer_ head_ tail_]; rewrite ?length_app; cbn [length]; [lia..|done|].
    rewrite wrap by lia. repeat case_decide; lia.
Qed.

Lemma push_front_sim s cap l x :
  ring_rep s (cap, l) ->
  exists s', push_front s x = Ret s' /\
    ring_rep s' (cap, if decide (length l = cap) then x :: removelast l else x :: l).
Proof.
  intros HR. pose proof (ring_prev_tail _ _ HR) as Hpt. destruct HR as [Hc Hp Hl Hci Ht]. cbn [fst snd] in *.
  pose proof (circ_len _ _ _ _ Hci) as Hb. pose proof (circ_head _ _ _ _ Hci) as Hh.
  pose proof (circ_cons _ _ _ _ x Hci ltac:(lia)) as Hci'.
  assert (prev s (head_ s) = Ret ((head_ s + capacity_ s - 1) mod capacity_ s)) as Hph
    by (unfold prev; by rewrite modc_eq by lia).
  unfold push_front. rewrite Hph. ret_step. clear Hph. set (h' := (head_ s + capacity_ s - 1) mod capacity_ s) in *.
  assert (h' < capacity_ s) as Hh' by (apply Nat.mod_upper_bound; lia).
  assert (h' = if decide (head_ s = 0) then capacity_ s - 1 else head_ s - 1) as Hval.
  { subst h'. case_decide; [by rewrite Nat.mod_small; lia|].
    replace (head_ s + capacity_ s - 1) with (head_ s - 1 + 1 * capacity_ s) by lia.
    rewrite Nat.Div0.mod_add. apply Nat.mod_small. lia. }
  rewrite vset_lt by lia. ret_step. rewrite Ht in *. rewrite wrap in Ht by lia.
  destruct (decide (length l = cap)) as [Hfull|Hnf].
  - rewrite (decide_True (P := h' = _)) by (rewrite wrap by lia; repeat case_decide; lia).
    rewrite Hpt by (intros ->; cbn in *; lia). ret_step. eexists. split; [done|].
    destruct (exists_last (l := l)) as (l0 & y & ->); [intros ->; cbn in *; lia|].
    rewrite removelast_last, length_app in *. cbn [length] in *.
    split; cbn [fst snd capacity_ buffer_ head_ tail_ length]; [lia..| |].
    + by apply (circ_init _ _ _ (x :: l0) y).
    + replace (length l0 + 1 - 1) with (length l0) by lia. symmetry. by apply wrap_pred.
  - rewrite (decide_False (P := h' = _)) by (rewrite wrap by lia; repeat case_decide; lia).
    ret_step. eexists. split; [done|].
    split; cbn [fst snd capacity_ buffer_ head_ tail_ length]; [lia..|done|]. symmetry. by apply wrap_pred.
Qed.

Lemma pop_front_sim s cap x l :
  ring_rep s (cap, x :: l) -> exists s', pop_front s = Ret s' /\ ring_rep s' (cap, l).
Proof.
  intros HR. unfold pop_front. rewrite (ring_empty _ _ HR). destruct HR as [Hc Hp Hl Hci Ht]. cbn [fst snd length] in *.
  rewrite bool_decide_eq_false_2 by done. unfold next. rewrite modc_eq by lia. ret_step. eexists. split; [done|].
  split; cbn [fst snd capacity_ buffer_ head_ tail_]; [lia..|by eapply circ_tail|]. by rewrite wrap_succ.
Qed.

Lemma pop_back_sim s cap l :
  ring_rep s (cap, l) -> l <> [] -> exists s', pop_back s = Ret s' /\ ring_rep s' (cap, removelast l).
Proof.
  intros HR Hne. unfold pop_back. rewrite (ring_empty _ _ HR), (ring_prev_tail _ _ HR Hne).
  destruct HR as [Hc Hp Hl Hci Ht]. cbn [fst snd] in *.
  rewrite bool_decide_eq_false_2 by done. ret_step. eexists. split; [done|].
  destruct (exists_last Hne) as (l0 & y & ->). rewrite removelast_last, length_app in *. cbn [length] in *.
  split; cbn [fst snd capacity_ buffer_ head_ tail_]; [lia..|by eapply circ_init|]. do 2 f_equal. lia.
Qed.

Lemma resize_sim s cap l n :
  ring_rep s (cap, l) -> n <> cap -> 0 < n -> exists s', resize s n = Ret s' /\ ring_rep s' (n, take n l).
Proof.
  intros HR Hn Hpos. unfold resize, capacity. rewrite (ring_size _ _ HR). destruct HR as [Hc Hp Hl Hci Ht]. cbn [fst snd] in *.
  rewrite decide_False by lia. rewrite decide_False by lia. ret_step.
  destruct (copy_circ (length l `min` n) (buffer_ s) (head_ s) (capacity_ s) l T_default (n + 1) Hci)
    as (dst & -> & Hd); [lia..|]. ret_step. eexists. split; [done|].
  replace (take (length l `min` n) l) with (take n l) in Hd.
  - split; cbn [fst snd capacity_ buffer_ head_ tail_]; rewrite ?length_take; [lia..|done|].
    rewrite Nat.mod_small; lia.
  - destruct (decide (n <= length l)); [f_equal; lia|]. rewrite !take_ge; [done|lia..].
Qed.

Lemma ring_new_rep n : 0 < n -> exists s, ring_new n = Ret s /\ ring_rep s (n, []).
Proof.
  intros Hn. unfold ring_new. rewrite decide_False by lia. eexists. split; [done|].
  split; cbn [fst snd capacity_ buffer_ head_ tail_ length]; [done|lia..| |].
  - apply circ_nil; [by rewrite length_replicate|lia].
  - rewrite Nat.mod_small; lia.
Qed.

Lemma ring_back s cap l : ring_rep s (cap, l) ->
  back s = match last l with None => Throw out_of_range | Some x => Ret x end.
Proof.
  intros HR. unfold back. rewrite (ring_empty _ _ HR). cbn [snd].
  destruct l as [|y l']; [done|]. set (l := y :: l') in *. rewrite bool_decide_eq_false_2 by done.
  rewrite (ring_prev_tail _ _ HR) by done. ret_step. rewrite last_lookup. cbn [snd].
  replace (pred (length l)) with (length l - 1) by lia.
  destruct (vget_lt l (length l - 1)) as (x & Hx & _); [cbn; lia|]. rewrite Hx.
  eapply circ_lookup; [apply (rr_circ _ _ HR)|done].
Qed.

(** Every operation does to the buffer what the specification does to the list. *)
#[global] Instance ring_simulates : Simulates step spec ring_rep.
Proof.
  intros s [cap l] o HR. pose proof (ring_empty _ _ HR) as He. cbn [snd] in He. destruct o; cbn [spec step].
  - destruct (push_back_sim s cap l x HR) as (s' & -> & H). eexists. split; [done|exact H].
  - destruct (push_front_sim s cap l x HR) as (s' & -> & H). eexists. split; [done|exact H].
  - destruct l as [|x l]; [unfold pop_front; by rewrite He|].
    destruct (pop_front_sim s cap x l HR) as (s' & -> & H). eauto.
  - destruct l as [|x l]; [unfold pop_back; by rewrite He|].
    destruct (pop_back_sim s cap _ HR) as (s' & -> & H); [done|]. eauto.
  - destruct l as [|x l]; [unfold front; by rewrite He|].
    assert (front s = Ret x) as ->; [|eauto]. unfold front. rewrite He, bool_decide_eq_false_2 by done.
    replace (head_ s) with ((head_ s + 0) mod capacity_ s).
    { by eapply circ_lookup; [apply (rr_circ _ _ HR)|]. }
    rewrite Nat.add_0_r, Nat.mod_small; [done|]. apply (circ_head _ _ _ _ (rr_circ _ _ HR)).
  - rewrite (ring_back s cap l HR). destruct (last l); cbn; eauto.
  - unfold at_. rewrite (ring_size _ _ HR). ret_step. cbn [snd]. destruct (l !! i) as [x|] eqn:Hx.
    + apply lookup_lt_Some in Hx as Hlt. rewrite decide_False by lia. rewrite (ring_index _ _ HR i x Hx). eauto.
    + apply lookup_ge_None in Hx. by rewrite decide_True.
  - destruct (l !! i) as [x|] eqn:Hx; [|done]. rewrite (ring_index _ _ HR i x Hx). eauto.
  - rewrite (ring_size _ _ HR). eauto.
  - exists s. split; [|done]. unfold capacity. rewrite (rr_cap _ _ HR). cbn [fst]. do 3 f_equal. lia.
  - rewrite He. eauto.
  - unfold full. rewrite (ring_next_tail _ _ HR). do 2 ret_step. exists s. split; [|done]. do 3 f_equal.
    apply bool_decide_ext. destruct HR as [Hc Hp Hl [_ _ Hh _] _]. cbn [fst snd] in *.
    rewrite wrap by lia. case_decide; lia.
  - eexists. split; [done|]. destruct HR as [Hc Hp Hl [Hb _ Hh _] _]. cbn [fst snd] in *.
    split; cbn [clear fst snd capacity_ buffer_ head_ tail_ length]; [lia..|apply circ_nil; [done|lia]|].
    rewrite Nat.mod_small; lia.
  - case_decide as Hn; [|case_decide as Hz].
    + unfold resize, capacity. rewrite (rr_cap _ _ HR). cbn [fst]. rewrite decide_True by lia. eauto.
    + unfold resize, capacity. rewrite (rr_cap _ _ HR). cbn [fst]. rewrite decide_False by lia. by rewrite decide_True.
    + destruct (resize_sim s cap l n HR Hn ltac:(lia)) as (s' & -> & H). eauto.
Qed.

(** ** Properties *)

(** from construction on, every sequence of operations on a ring buffer
    observes exactly what the same operations on a list bounded by the capacity
    observe - values, sizes, exceptions - and never reads or writes outside the
    storage; a full buffer drops the element at the other end. *)
Theorem ring_buffer_refines n ops a os :
  0 < n -> trace spec (n, []) ops = Ret (a, os) ->
  exists s0 s, ring_new n = Ret s0 /\ trace step s0 ops = Ret (s, os) /\ ring_rep s a /\ size s = Ret (length a.2).
Proof.
  intros Hn Hs. destruct (ring_new_rep n Hn) as (s0 & H0 & HR).
  destruct (trace_refines ops _ _ _ _ HR Hs) as (s & Ht & HR'). exists s0, s. eauto using ring_size.
Qed.

End ring_buffer.

Section ring_witnesses.

Lemma ring_buffer_witness :
  exists s0 s, ring_new 0 2 = Ret s0 /\
    trace (step 0) s0 [PushBack 1; PushBack 2; PushBack 3; Front; PushFront 7; Back; PopBack; PopBack; PopBack; Size]
      = Ret (s, [inl ODone; inl ODone; inl ODone; inl (OVal 2); inl ODone; inl (OVal 2); inl ODone; inl ODone;
                 inr out_of_range; inl (ONum 0)]).
Proof.
  edestruct (ring_buffer_refines 0 2
    [PushBack 1; PushBack 2; PushBack 3; Front; PushFront 7; Back; PopBack; PopBack; PopBack; Size])
    as (s0 & s & H1 & H2 & _); [lia|vm_compute; reflexivity|]. exists s0, s. split; [exact H1|exact H2].
Defined.

End ring_witnesses.
