(* ===== verification/Deque.v ===== *)
(** * Double-ended queue

    Models [data_structure/deque/Deque.hpp]: a growable circular vector that
    doubles its capacity when full and starts from no storage at all. *)

From S2P Require Import Prelude Refinement Circular.

Section deque.
Context {T : Type} (T_default : T).

Record Deque := mkDeque {
  buffer_ : list T;
  head_ : nat;
  tail_ : nat;
  deque_size_ : nat;
  capacity_ : nat;
}.

Implicit Types (s : Deque) (l : list T) (x : T).

(** ** Operations *)

Definition kMinCapacity : nat := 8.

Definition deque_new : Deque := mkDeque [] 0 0 0 0.

Definition empty s : bool := bool_decide (deque_size_ s = 0).
Definition size s : nat := deque_size_ s.

(** [i % capacity_]: a division by zero when there is no storage. *)
Definition modc s (i : nat) : outcome nat :=
  if decide (capacity_ s = 0) then Undef else Ret (i mod capacity_ s).

Definition front s : outcome T :=
  if empty s then Throw out_of_range else vget (buffer_ s) (head_ s).

Definition back s : outcome T :=
  if empty s then Throw out_of_range else
  let back_index := if decide (tail_ s = 0) then capacity_ s - 1 else tail_ s - 1 in
  vget (buffer_ s) back_index.

Definition index_op s (index : nat) : outcome T :=
  i ← modc s (head_ s + index); vget (buffer_ s) i.

Definition at_ s (index : nat) : outcome T :=
  if decide (deque_size_ s <= index) then Throw out_of_range else index_op s index.

Definition reserve s (new_capacity : nat) : outcome Deque :=
  if decide (new_capacity <= capacity_ s) then Ret s else
  new_buffer ← copy_loop (deque_size_ s) (buffer_ s) (replicate new_capacity T_default)
                 (head_ s) (capacity_ s) 0;
  Ret (mkDeque new_buffer 0 (deque_size_ s) (deque_size_ s) new_capacity).

Definition grow s : outcome Deque :=
  let new_capacity := if decide (capacity_ s = 0) then kMinCapacity else capacity_ s * 2 in
  reserve s new_capacity.

Definition grow_if_full s : outcome Deque :=
  if decide (deque_size_ s = capacity_ s) then grow s else Ret s.

Definition push_front s x : outcome Deque :=
  s ← grow_if_full s;
  let head := if decide (head_ s = 0) then capacity_ s - 1 else head_ s - 1 in
  buffer ← vset (buffer_ s) head x;
  Ret (mkDeque buffer head (tail_ s) (S (deque_size_ s)) (capacity_ s)).

Definition push_back s x : outcome Deque :=
  s ← grow_if_full s;
  buffer ← vset (buffer_ s) (tail_ s) x;
  tail ← modc s (tail_ s + 1);
  Ret (mkDeque buffer (head_ s) tail (S (deque_size_ s)) (capacity_ s)).

Definition pop_front s : outcome Deque :=
  if empty s then Throw out_of_range else
  head ← modc s (head_ s + 1);
  Ret (mkDeque (buffer_ s) head (tail_ s) (deque_size_ s - 1) (capacity_ s)).

Definition pop_back s : outcome Deque :=
  if empty s then Throw out_of_range else
  let tail := if decide (tail_ s = 0) then capacity_ s - 1 else tail_ s - 1 in
  Ret (mkDeque (buffer_ s) (head_ s) tail (deque_size_ s - 1) (capacity_ s)).

Definition clear (_ : Deque) : Deque := mkDeque [] 0 0 0 0.
Definition swap (a b : Deque) : Deque * Deque := (b, a).

(** The copy constructor. *)
Definition copy (other : Deque) : outcome Deque :=
  if decide (0 < deque_size_ other) then
    buffer ← copy_loop (deque_size_ other) (buffer_ other) (replicate (capacity_ other) T_default)
               (head_ other) (capacity_ other) 0;
    Ret (mkDeque buffer 0 (deque_size_ other) (deque_size_ other) (capacity_ other))
  else Ret deque_new.

(** The move constructor: the new object and what is left of the old one. *)
Definition move s : Deque * Deque := (s, mkDeque [] 0 0 0 0).

Definition assign (_ other : Deque) : outcome Deque := copy other.

Inductive op :=
| PushFront (x : T) | PushBack (x : T) | PopFront | PopBack
| Front | Back | At (i : nat) | Index (i : nat) | Size | Empty | Clear | Reserve (n : nat).

Definition step s (o : op) : outcome (Deque * obs T) :=
  match o with
  | PushFront x => s ← push_front s x; Ret (s, ODone)
  | PushBack x => s ← push_back s x; Ret (s, ODone)
  | PopFront => s ← pop_front s; Ret (s, ODone)
  | PopBack => s ← pop_back s; Ret (s, ODone)
  | Front => x ← front s; Ret (s, OVal x)
  | Back => x ← back s; Ret (s, OVal x)
  | At i => x ← at_ s i; Ret (s, OVal x)
  | Index i => x ← index_op s i; Ret (s, OVal x)
  | Size => Ret (s, ONum (size s))
  | Empty => Ret (s, OBool (empty s))
  | Clear => Ret (clear s, ODone)
  | Reserve n => s ← reserve s n; Ret (s, ODone)
  end.

(** ** Specification: an unbounded list *)
Definition spec l (o : op) : outcome (list T * obs T) :=
  match o with
  | PushFront x => Ret (x :: l, ODone)
  | PushBack x => Ret (l ++ [x], ODone)
  | PopFront => match l with [] => Throw out_of_range | _ :: l => Ret (l, ODone) end
  | PopBack => match l with [] => Throw out_of_range | _ => Ret (removelast l, ODone) end
  | Front => match l with [] => Throw out_of_range | x :: _ => Ret (l, OVal x) end
  | Back => match last l with None => Throw out_of_range | Some x => Ret (l, OVal x) end
  | At i => match l !! i with None => Throw out_of_range | Some x => Ret (l, OVal x) end
  | Index i => match l !! i with None => Undef | Some x => Ret (l, OVal x) end
  | Size => Ret (l, ONum (length l))
  | Empty => Ret (l, OBool (bool_decide (l = [])))
  | Clear => Ret ([], ODone)
  | Reserve _ => Ret (l, ODone)
  end.

(** ** The representation relation *)
Record stored s l : Prop := {
  st_circ : circ (buffer_ s) (head_ s) (capacity_ s) l;
  st_size : deque_size_ s = length l;
  st_tail : tail_ s = (head_ s + length l) mod capacity_ s;
}.

Definition deque_rep s l : Prop := stored s l \/ (s = deque_new /\ l = []).

(** ** Lemmas *)

Lemma rep_size s l : deque_rep s l -> deque_size_ s = length l.
Proof. intros [H|[-> ->]]; [apply H|done]. Qed.

Lemma deque_empty s l : deque_rep s l -> empty s = bool_decide (l = []).
Proof.
  intros H. unfold empty. apply bool_decide_ext. rewrite (rep_size s l H). apply length_zero_iff_nil.
Qed.

Lemma rep_stored s l : deque_rep s l -> l <> [] -> stored s l.
Proof. intros [H|[-> ->]]; done. Qed.

Lemma deque_modc_eq s l i : stored s l -> modc s i = Ret (i mod capacity_ s).
Proof. intros [[_ _ Hh _] _ _]. unfold modc. by rewrite decide_False by lia. Qed.

Lemma pred_wrap h c : h < c -> (if decide (h = 0) then c - 1 else h - 1) = (h + c - 1) mod c.
Proof.
  intros Hh. case_decide as E; [subst; by rewrite Nat.mod_small; lia|].
  replace (h + c - 1) with (h - 1 + 1 * c) by lia. rewrite Nat.Div0.mod_add. symmetry. apply Nat.mod_small. lia.
Qed.

(** The cell before the tail is the last element's. *)
Lemma pred_tail s l :
  stored s l -> l <> [] ->
  (if decide (tail_ s = 0) then capacity_ s - 1 else tail_ s - 1) = (head_ s + (length l - 1)) mod capacity_ s.
Proof.
  intros [[_ Hf Hh _] _ Ht] Hne. destruct l as [|x l]; [done|]. cbn [length] in *.
  rewrite Ht. replace (S (length l) - 1) with (length l) by lia. rewrite !wrap by lia. repeat case_decide; lia.
Qed.

Lemma reserve_rep s l n : deque_rep s l -> exists s', reserve s n = Ret s' /\ deque_rep s' l /\
  (capacity_ s < n -> stored s' l /\ capacity_ s' = n).
Proof.
  intros HR. unfold reserve. case_decide as Hn; [exists s; split_and!; [done..|lia]|].
  rewrite (rep_size s l HR).
  assert (exists dst, copy_loop (length l) (buffer_ s) (replicate n T_default) (head_ s) (capacity_ s) 0 = Ret dst /\
    circ dst 0 n l) as (dst & -> & Hd).
  { destruct HR as [[Hci _ _]|[-> ->]].
    - destruct (copy_circ (length l) (buffer_ s) (head_ s) (capacity_ s) l T_default n Hci) as (dst & -> & Hd).
      { done. } { destruct Hci. lia. } { lia. } exists dst. by rewrite take_ge in Hd.
    - exists (replicate n T_default). split; [done|]. apply circ_nil; [by rewrite length_replicate|]. lia. }
  ret_step. eexists. split; [done|].
  assert (length l < n) as Hlt.
  { destruct HR as [[[] _ _]|[-> ->]]; [lia|]. cbn in *. lia. }
  assert (stored (mkDeque dst 0 (length l) (length l) n) l) as Hs.
  { split; cbn [buffer_ head_ tail_ deque_size_ capacity_]; [done|done|]. by rewrite Nat.mod_small. }
  split; [by left|done].
Qed.

(** After growing there is room for one more element. *)
Lemma grow_if_full_rep s l :
  deque_rep s l -> exists s', grow_if_full s = Ret s' /\ stored s' l /\ length l < capacity_ s'.
Proof.
  intros HR. unfold grow_if_full. rewrite (rep_size s l HR). case_decide as Hf.
  - set (n := if decide (capacity_ s = 0) then kMinCapacity else capacity_ s * 2).
    assert (capacity_ s < n) as Hn by (subst n; unfold kMinCapacity; case_decide; lia).
    destruct (reserve_rep s l n HR) as (s' & Hs' & _ & Hst). destruct (Hst Hn) as [Hst' Hc].
    exists s'. unfold grow. fold n. split_and!; [done..|lia].
  - destruct HR as [HR|[-> ->]]; [|done]. exists s. split_and!; [done..|]. destruct HR as [[] _ _]. lia.
Qed.

Lemma push_front_rep s l x : deque_rep s l -> exists s', push_front s x = Ret s' /\ deque_rep s' (x :: l).
Proof.
  intros HR. unfold push_front. destruct (grow_if_full_rep s l HR) as (s1 & -> & [Hci Hsz Ht] & Hroom). ret_step.
  pose proof (circ_head _ _ _ _ Hci) as Hh. rewrite pred_wrap by done.
  rewrite vset_lt by (rewrite (circ_len _ _ _ _ Hci); apply Nat.mod_upper_bound; lia). ret_step.
  eexists. split; [done|]. left.
  split; cbn [buffer_ head_ tail_ deque_size_ capacity_ length]; [by apply circ_cons|by rewrite Hsz|].
  by rewrite wrap_pred.
Qed.

Lemma push_back_rep s l x : deque_rep s l -> exists s', push_back s x = Ret s' /\ deque_rep s' (l ++ [x]).
Proof.
  intros HR. unfold push_back. destruct (grow_if_full_rep s l HR) as (s1 & -> & Hst & Hroom). ret_step.
  rewrite (deque_modc_eq s1 l) by done. destruct Hst as [Hci Hsz Ht]. pose proof (circ_head _ _ _ _ Hci) as Hh.
  rewrite Ht, vset_lt by (rewrite (circ_len _ _ _ _ Hci); apply wrap_lt; lia). do 2 ret_step.
  eexists. split; [done|]. left.
  split; cbn [buffer_ head_ tail_ deque_size_ capacity_]; rewrite ?length_app; cbn [length];
    [by apply circ_snoc|rewrite Hsz; lia|].
  rewrite Nat.Div0.add_mod_idemp_l. f_equal. lia.
Qed.

Lemma pop_front_rep s x l : deque_rep s (x :: l) -> exists s', pop_front s = Ret s' /\ deque_rep s' l.
Proof.
  intros HR. unfold pop_front. rewrite (deque_empty _ _ HR), bool_decide_eq_false_2 by done.
  apply rep_stored in HR; [|done]. rewrite (deque_modc_eq _ _ _ HR). ret_step. destruct HR as [Hci Hsz Ht].
  eexists. split; [done|]. left. cbn [length] in *.
  split; cbn [buffer_ head_ tail_ deque_size_ capacity_]; [by eapply circ_tail|rewrite Hsz; lia|].
  by rewrite wrap_succ.
Qed.

Lemma pop_back_rep s l : deque_rep s l -> l <> [] -> exists s', pop_back s = Ret s' /\ deque_rep s' (removelast l).
Proof.
  intros HR Hne. unfold pop_back. rewrite (deque_empty _ _ HR), bool_decide_eq_false_2 by done.
  apply rep_stored in HR; [|done]. eexists. split; [done|]. left.
  pose proof (pred_tail _ _ HR Hne) as Ht. destruct HR as [Hci Hsz _].
  destruct (exists_last Hne) as (l0 & y & ->). rewrite removelast_last, length_app in *. cbn [length] in *.
  split; cbn [buffer_ head_ tail_ deque_size_ capacity_]; [by eapply circ_init|rewrite Hsz; lia|].
  rewrite Ht. do 2 f_equal. lia.
Qed.

Lemma index_rep s l i x : deque_rep s l -> l !! i = Some x -> index_op s i = Ret x.
Proof.
  intros HR Hx. apply rep_stored in HR; [|by intros ->]. unfold index_op. rewrite (deque_modc_eq _ _ _ HR). ret_step.
  eapply circ_lookup; [apply HR|done].
Qed.

Lemma front_rep s x l : deque_rep s (x :: l) -> front s = Ret x.
Proof.
  intros HR. unfold front. rewrite (deque_empty _ _ HR), bool_decide_eq_false_2 by done.
  apply rep_stored in HR; [|done]. pose proof (circ_lookup _ _ _ _ 0 x (st_circ _ _ HR) eq_refl) as H.
  rewrite Nat.add_0_r, Nat.mod_small in H; [done|]. apply (circ_head _ _ _ _ (st_circ _ _ HR)).
Qed.

Lemma back_rep s l : deque_rep s l -> back s = match last l with None => Throw out_of_range | Some x => Ret x end.
Proof.
  intros HR. unfold back. rewrite (deque_empty _ _ HR). destruct l as [|y l']; [done|]. set (l := y :: l') in *.
  rewrite bool_decide_eq_false_2 by done. apply rep_stored in HR; [|done]. rewrite (pred_tail _ _ HR) by done.
  rewrite last_lookup. replace (pred (length l)) with (length l - 1) by lia.
  destruct (vget_lt l (length l - 1)) as (x & Hx & _); [cbn; lia|]. rewrite Hx.
  eapply circ_lookup; [apply HR|done].
Qed.

#[global] Instance deque_simulates : Simulates step spec deque_rep.
Proof.
  intros s l o HR. pose proof (deque_empty _ _ HR) as He. pose proof (rep_size _ _ HR) as Hsz.
  destruct o; cbn [spec step].
  - destruct (push_front_rep s l x HR) as (s' & -> & H). eauto.
  - destruct (push_back_rep s l x HR) as (s' & -> & H). eauto.
  - destruct l as [|x l]; [unfold pop_front; by rewrite He|]. destruct (pop_front_rep s x l HR) as (s' & -> & H). eauto.
  - destruct l as [|x l]; [unfold pop_back; by rewrite He|].
    destruct (pop_back_rep s _ HR) as (s' & -> & H); [done|]. eauto.
  - destruct l as [|x l]; [unfold front; by rewrite He|]. rewrite (front_rep _ _ _ HR). eauto.
  - rewrite (back_rep _ _ HR). destruct (last l); cbn; eauto.
  - unfold at_. rewrite Hsz. destruct (l !! i) as [x|] eqn:Hx.
    + apply lookup_lt_Some in Hx as Hlt. rewrite decide_False by lia. rewrite (index_rep _ _ _ _ HR Hx). eauto.
    + apply lookup_ge_None in Hx. by rewrite decide_True.
  - destruct (l !! i) as [x|] eqn:Hx; [|done]. rewrite (index_rep _ _ _ _ HR Hx). eauto.
  - unfold size. rewrite Hsz. eauto.
  - rewrite He. eauto.
  - exists (clear s). split; [done|]. by right.
  - destruct (reserve_rep s l n HR) as (s' & -> & H & _). eauto.
Qed.

(** Copying a deque that is not full preserves the sequence. *)
Lemma copy_rep s l : deque_rep s l -> length l < capacity_ s -> exists s', copy s = Ret s' /\ deque_rep s' l.
Proof.
  intros HR Hroom. unfold copy. rewrite (rep_size _ _ HR). case_decide as Hne.
  - destruct HR as [[Hci _ _]|[-> ->]]; [|cbn in *; lia].
    destruct (copy_circ (length l) (buffer_ s) (head_ s) (capacity_ s) l T_default (capacity_ s) Hci)
      as (dst & -> & Hd); [lia..|]. ret_step. eexists. split; [done|]. left. rewrite take_ge in Hd by done.
    split; cbn [buffer_ head_ tail_ deque_size_ capacity_]; [done|done|]. by rewrite Nat.mod_small.
  - exists deque_new. split; [done|]. right. destruct l; [done|]. cbn in Hne. lia.
Qed.

(** ** Properties *)

(** from the empty deque every sequence of operations observes exactly
    what the same operations on an unbounded list observe, through every growth
    and wrap-around, and never touches memory outside the storage. *)
Theorem deque_refines ops l os :
  trace spec [] ops = Ret (l, os) ->
  exists s, trace step deque_new ops = Ret (s, os) /\ deque_rep s l.
Proof. intros Hs. eapply trace_refines; [|done]. by right. Qed.

(** copying preserves the sequence of a deque with a free cell, and a copy
    of a full deque is broken: its tail index lies one past the storage, so
    that removing an element at the front and adding one at the back writes
    outside the buffer. *)
Theorem deque_copy_spec s l x y :
  deque_rep s (x :: l) ->
  exists c, copy s = Ret c /\
    (length (x :: l) < capacity_ s -> deque_rep c (x :: l)) /\
    (length (x :: l) = capacity_ s -> trace step c [PopFront; PushBack y] = Undef).
Proof.
  intros HR. destruct (decide (length (x :: l) = capacity_ s)) as [Hfull|Hroom].
  - apply rep_stored in HR; [|done]. destruct HR as [Hci Hsz _]. unfold copy. rewrite Hsz, decide_True by (cbn; lia).
    assert (0 < capacity_ s) by (cbn [length] in Hfull; lia).
    destruct (copy_circ (length (x :: l)) (buffer_ s) (head_ s) (capacity_ s) (x :: l) T_default (capacity_ s) Hci)
      as (dst & -> & Hd); [lia..|]. ret_step. eexists. split; [done|]. split; [lia|]. intros _.
    cbn [trace step]. unfold pop_front, empty, modc. cbn [buffer_ head_ tail_ deque_size_ capacity_].
    rewrite bool_decide_eq_false_2, decide_False by (cbn [length] in *; lia). do 2 ret_step.
    unfold push_back, grow_if_full. cbn [buffer_ head_ tail_ deque_size_ capacity_].
    rewrite decide_False by (cbn [length] in *; lia). ret_step. cbn [buffer_ tail_].
    assert (vset dst (length (x :: l)) y = Undef) as ->; [|done].
    unfold vset. rewrite decide_False; [done|]. rewrite (circ_len _ _ _ _ Hd). lia.
  - assert (length (x :: l) < capacity_ s) as Hlt.
    { apply rep_stored in HR; [|done]. destruct HR as [[] _ _]. lia. }
    destruct (copy_rep s _ HR Hlt) as (c & -> & Hc). exists c. split_and!; [done..|lia].
Qed.

End deque.

Section deque_witnesses.

#[local] Definition eight : list (op (T := nat)) := PushBack <$> [1; 2; 3; 4; 5; 6; 7; 8].

Lemma deque_refines_witness :
  exists s, trace (step 0) deque_new [PushBack 1; PushFront 2; PushBack 3; At 1; PopFront; Front; Size; At 5]
    = Ret (s, [inl ODone; inl ODone; inl ODone; inl (OVal 1); inl ODone; inl (OVal 1); inl (ONum 2); inr out_of_range]).
Proof.
  destruct (deque_refines 0 [PushBack 1; PushFront 2; PushBack 3; At 1; PopFront; Front; Size; At 5] _ _ eq_refl) as (s & Hs & _).
  exists s. exact Hs.
Defined.

Lemma deque_copy_witness :
  exists s c, trace (step 0) deque_new eight = Ret (s, replicate 8 (inl ODone)) /\ copy 0 s = Ret c /\
    trace (step 0) c [PopFront; PushBack 9] = Undef.
Proof.
  destruct (trace_refines (R := deque_rep) (step := step 0) (spec := spec) eight deque_new [] _ _ (or_intror (conj eq_refl eq_refl)) eq_refl)
    as (s & Hs & HR).
  destruct (deque_copy_spec 0 s _ 1 9 HR) as (c & Hc & _ & Hbad). exists s, c.
  split; [exact Hs|]. split; [exact Hc|]. apply Hbad. vm_compute in Hs. injection Hs as <-. reflexivity.
Defined.

End deque_witnesses.
