(* ===== verification/LinkedList.v ===== *)
(** * Doubly linked list

    Models [data_structure/list/LinkedList.hpp].  Nodes live in a store indexed
    by addresses; [next_] owns its target ([std::unique_ptr]), [prev_] and
    [tail_] are raw pointers.  Overwriting an owning pointer destroys the node
    it owned and, through that node's own [next_], everything after it;
    following a pointer to a destroyed node is undefined.  The addresses handed
    out by [std::make_unique] are a parameter: any allocator that returns an
    unused address. *)

From stdpp Require Import fin_sets.
From S2P Require Import Prelude Refinement.

Section linked_list.
Context {T : Type}.

Record Node := mkNode {
  data_ : T;
  next_ : option nat;
  prev_ : option nat;
}.

Record LinkedList := mkLL {
  store : gmap nat Node;
  head_ : option nat;
  tail_ : option nat;
  list_size_ : nat;
}.

Context (alloc : gmap nat Node -> nat).

Implicit Types (s : LinkedList) (st : gmap nat Node) (x : T) (l : list T) (a : nat) (ns : list nat) (p q : option nat).

(** ** Pointers *)

Definition deref st p : outcome (nat * Node) :=
  match p with
  | None => Undef
  | Some a => match st !! a with None => Undef | Some nd => Ret (a, nd) end
  end.

Definition set_next st p q : outcome (gmap nat Node) :=
  '(a, nd) ← deref st p; Ret (<[a := mkNode (data_ nd) q (prev_ nd)]> st).

Definition set_prev st p q : outcome (gmap nat Node) :=
  '(a, nd) ← deref st p; Ret (<[a := mkNode (data_ nd) (next_ nd) q]> st).

(** The destructor of a [unique_ptr]: a node and everything it owns. *)
Fixpoint destroy (fuel : nat) st p : outcome (gmap nat Node) :=
  match fuel, p with
  | _, None => Ret st
  | 0, Some _ => NoFuel
  | S fuel, Some a =>
    '(_, nd) ← deref st (Some a); destroy fuel (delete a st) (next_ nd)
  end.

Definition reset st p : outcome (gmap nat Node) := destroy (base.size st) st p.

(** [std::move(src->next_)]: the pointer, and the store with the source nulled. *)
Definition take_next st src : outcome (option nat * gmap nat Node) :=
  '(_, nd) ← deref st src; st ← set_next st src None; Ret (next_ nd, st).

(** [dst->next_ = p], destroying what [dst] owned. *)
Definition give_next st dst p : outcome (gmap nat Node) :=
  '(_, nd) ← deref st dst; st ← set_next st dst p; reset st (next_ nd).

(** ** Operations *)

Definition ll_new : LinkedList := mkLL ∅ None None 0.

Definition empty s : bool := bool_decide (list_size_ s = 0).
Definition size s : nat := list_size_ s.
Definition begin s : option nat := head_ s.
Definition end_ (_ : LinkedList) : option nat := None.

(** [operator++] and [operator*] of the iterators. *)
Definition iter_next s p : outcome (option nat) := '(_, nd) ← deref (store s) p; Ret (next_ nd).
Definition iter_get s p : outcome T := '(_, nd) ← deref (store s) p; Ret (data_ nd).

Definition front s : outcome T := if empty s then Throw out_of_range else iter_get s (head_ s).
Definition back s : outcome T := if empty s then Throw out_of_range else iter_get s (tail_ s).

Definition push_front s x : outcome LinkedList :=
  let a := alloc (store s) in
  let st := <[a := mkNode x (head_ s) None]> (store s) in
  '(st, tl) ← (match head_ s with
               | Some _ => st ← set_prev st (head_ s) (Some a); Ret (st, tail_ s)
               | None => Ret (st, Some a)
               end);
  Ret (mkLL st (Some a) tl (S (list_size_ s))).

Definition push_back s x : outcome LinkedList :=
  let a := alloc (store s) in
  let st := <[a := mkNode x None (tail_ s)]> (store s) in
  '(st, hd) ← (match tail_ s with
               | Some _ => st ← give_next st (tail_ s) (Some a); Ret (st, head_ s)
               | None => st ← reset st (head_ s); Ret (st, Some a)
               end);
  Ret (mkLL st hd (Some a) (S (list_size_ s))).

Definition pop_front s : outcome LinkedList :=
  if empty s then Throw out_of_range else
  '(hd, st) ← take_next (store s) (head_ s);
  st ← reset st (head_ s);
  '(st, tl) ← (match hd with
               | Some _ => st ← set_prev st hd None; Ret (st, tail_ s)
               | None => Ret (st, None)
               end);
  Ret (mkLL st hd tl (list_size_ s - 1)).

Definition pop_back s : outcome LinkedList :=
  if empty s then Throw out_of_range else
  if decide (head_ s = tail_ s) then
    st ← reset (store s) (head_ s);
    Ret (mkLL st None None (list_size_ s - 1))
  else
    '(_, nd) ← deref (store s) (tail_ s);
    st ← give_next (store s) (prev_ nd) None;
    Ret (mkLL st (head_ s) (prev_ nd) (list_size_ s - 1)).

Definition insert s (pos : option nat) x : outcome (option nat * LinkedList) :=
  if decide (pos = begin s) then s ← push_front s x; Ret (begin s, s)
  else if decide (pos = end_ s) then s ← push_back s x; Ret (tail_ s, s)
  else
    let a := alloc (store s) in
    let st := <[a := mkNode x None None]> (store s) in
    '(_, next_node) ← deref st pos;
    let prev_node := prev_ next_node in
    st ← set_prev st (Some a) prev_node;
    '(nx, st) ← take_next st prev_node;
    st ← give_next st (Some a) nx;
    st ← give_next st prev_node (Some a);
    Ret (Some a, mkLL st (head_ s) (tail_ s) (S (list_size_ s))).

Definition erase s (pos : option nat) : outcome (option nat * LinkedList) :=
  if decide (pos = end_ s) then Ret (end_ s, s) else
  '(_, target) ← deref (store s) pos;
  '(nx, st) ← take_next (store s) pos;
  match prev_ target with
  | Some _ =>
    st ← give_next st (prev_ target) nx;
    '(st, tl) ← (match nx with
                 | Some _ => st ← set_prev st nx (prev_ target); Ret (st, tail_ s)
                 | None => Ret (st, prev_ target)
                 end);
    Ret (nx, mkLL st (head_ s) tl (list_size_ s - 1))
  | None =>
    st ← reset st (head_ s);
    '(st, tl) ← (match nx with
                 | Some _ => st ← set_prev st nx None; Ret (st, tail_ s)
                 | None => Ret (st, None)
                 end);
    Ret (nx, mkLL st nx tl (list_size_ s - 1))
  end.

Fixpoint remove_loop (fuel : nat) s (pred : T -> bool) (it : option nat) (count : nat)
    : outcome (nat * LinkedList) :=
  match fuel with
  | 0 => NoFuel
  | S fuel =>
    if decide (it = end_ s) then Ret (count, s) else
    x ← iter_get s it;
    if pred x then '(it, s) ← erase s it; remove_loop fuel s pred it (S count)
    else it ← iter_next s it; remove_loop fuel s pred it count
  end.

Definition remove_if s (pred : T -> bool) : outcome (nat * LinkedList) :=
  remove_loop (S (list_size_ s)) s pred (begin s) 0.

Definition remove `{!EqDecision T} s x : outcome (nat * LinkedList) :=
  remove_if s (fun y => bool_decide (y = x)).

Definition clear s : outcome LinkedList :=
  st ← reset (store s) (head_ s); Ret (mkLL st None None 0).

Fixpoint reverse_loop (fuel : nat) st (prev current : option nat) : outcome (gmap nat Node * option nat) :=
  match fuel with
  | 0 => NoFuel
  | S fuel =>
    match current with
    | None => Ret (st, prev)
    | Some _ =>
      '(next, st) ← take_next st current;
      st ← give_next st current prev;
      st ← set_prev st current next;
      reverse_loop fuel st current next
    end
  end.

Definition reverse s : outcome LinkedList :=
  if decide (list_size_ s < 2) then Ret s else
  '(st, prev) ← reverse_loop (S (list_size_ s)) (store s) None (head_ s);
  st ← set_prev st prev None;
  Ret (mkLL st prev (head_ s) (list_size_ s)).

Fixpoint toVector_loop (fuel : nat) s (it : option nat) : outcome (list T) :=
  match fuel with
  | 0 => NoFuel
  | S fuel =>
    if decide (it = end_ s) then Ret [] else
    x ← iter_get s it; it ← iter_next s it; l ← toVector_loop fuel s it; Ret (x :: l)
  end.

Definition toVector s : outcome (list T) := toVector_loop (S (base.size (store s))) s (begin s).

Definition swap (a b : LinkedList) : LinkedList * LinkedList := (b, a).
Definition move s : LinkedList * LinkedList := (s, mkLL ∅ None None 0).

(** The loop of the copy constructor: append a copy of what follows [src]. *)
Fixpoint copy_loop (fuel : nat) (other : LinkedList) (src : option nat) st (dst : option nat)
    : outcome (gmap nat Node * option nat) :=
  match fuel with
  | 0 => NoFuel
  | S fuel =>
    '(_, nd) ← deref (store other) src;
    match next_ nd with
    | None => Ret (st, dst)
    | Some _ =>
      x ← iter_get other (next_ nd);
      let a := alloc st in
      let st := <[a := mkNode x None None]> st in
      st ← give_next st dst (Some a);
      st ← set_prev st (Some a) dst;
      copy_loop fuel other (next_ nd) st (Some a)
    end
  end.

Definition copy (other : LinkedList) : outcome LinkedList :=
  if empty other then Ret ll_new else
  x ← iter_get other (head_ other);
  let a := alloc ∅ in
  '(st, dst) ← copy_loop (S (list_size_ other)) other (head_ other) {[a := mkNode x None None]} (Some a);
  Ret (mkLL st (Some a) dst (list_size_ other)).

(** The iterator reached from [begin()] by [i] increments. *)
Fixpoint advance s (i : nat) p : outcome (option nat) :=
  match i with 0 => Ret p | S i => p ← iter_next s p; advance s i p end.

Inductive op :=
| PushFront (x : T) | PushBack (x : T) | PopFront | PopBack | Front | Back | Size | Empty
| InsertBegin (x : T) | InsertEnd (x : T) | Erase (i : nat) | RemoveIf (pred : T -> bool)
| Clear | Reverse | ToVector.

Definition step s (o : op) : outcome (LinkedList * obs T) :=
  match o with
  | PushFront x => s ← push_front s x; Ret (s, ODone)
  | PushBack x => s ← push_back s x; Ret (s, ODone)
  | PopFront => s ← pop_front s; Ret (s, ODone)
  | PopBack => s ← pop_back s; Ret (s, ODone)
  | Front => x ← front s; Ret (s, OVal x)
  | Back => x ← back s; Ret (s, OVal x)
  | Size => Ret (s, ONum (size s))
  | Empty => Ret (s, OBool (empty s))
  | InsertBegin x => '(it, s) ← insert s (begin s) x; y ← iter_get s it; Ret (s, OVal y)
  | InsertEnd x => '(it, s) ← insert s (end_ s) x; y ← iter_get s it; Ret (s, OVal y)
  | Erase i => it ← advance s i (begin s); '(_, s) ← erase s it; Ret (s, ODone)
  | RemoveIf pred => '(n, s) ← remove_if s pred; Ret (s, ONum n)
  | Clear => s ← clear s; Ret (s, ODone)
  | Reverse => s ← reverse s; Ret (s, ODone)
  | ToVector => l ← toVector s; Ret (s, OSeq l)
  end.

(** ** Specification: a list.  Iterators are positions; [operator++] beyond the
    end is undefined. *)
Definition spec l (o : op) : outcome (list T * obs T) :=
  match o with
  | PushFront x => Ret (x :: l, ODone)
  | PushBack x => Ret (l ++ [x], ODone)
  | PopFront => match l with [] => Throw out_of_range | _ :: l => Ret (l, ODone) end
  | PopBack => match l with [] => Throw out_of_range | _ => Ret (removelast l, ODone) end
  | Front => match l with [] => Throw out_of_range | x :: _ => Ret (l, OVal x) end
  | Back => match last l with None => Throw out_of_range | Some x => Ret (l, OVal x) end
  | Size => Ret (l, ONum (length l))
  | Empty => Ret (l, OBool (bool_decide (l = [])))
  | InsertBegin x => Ret (x :: l, OVal x)
  | InsertEnd x => Ret (l ++ [x], OVal x)
  | Erase i => if decide (i <= length l) then Ret (delete i l, ODone) else Undef
  | RemoveIf pred => Ret (filter (fun x => pred x = false) l, ONum (length (filter (fun x => pred x = true) l)))
  | Clear => Ret ([], ODone)
  | Reverse => Ret (rev l, ODone)
  | ToVector => Ret (l, OSeq l)
  end.

(** ** Doubly linked segments *)
Definition first ns q : option nat := match ns with [] => q | a :: _ => Some a end.
Definition lastp p ns : option nat := match last ns with None => p | Some a => Some a end.

(** The nodes [ns] hold [l], are linked both ways, start after [p] and end before [q]. *)
Fixpoint dlseg st p ns l q : Prop :=
  match ns, l with
  | [], [] => True
  | a :: ns, x :: l => st !! a = Some (mkNode x (first ns q) p) /\ dlseg st (Some a) ns l q
  | _, _ => False
  end.

(** The same, forward links only. *)
Fixpoint chain st ns l : Prop :=
  match ns, l with
  | [], [] => True
  | a :: ns, x :: l => (exists p, st !! a = Some (mkNode x (first ns None) p)) /\ chain st ns l
  | _, _ => False
  end.

Record ll_nodes s ns l : Prop := {
  ln_nodup : NoDup ns;
  ln_seg : dlseg (store s) None ns l None;
  ln_dom : forall a, is_Some (store s !! a) <-> a ∈ ns;
  ln_head : head_ s = first ns None;
  ln_tail : tail_ s = lastp None ns;
  ln_size : list_size_ s = length l;
}.

(** [s] holds the list [l], and its store nothing else. *)
Definition ll_rep s l : Prop := exists ns, ll_nodes s ns l.

(** ** Lemmas on segments *)

Lemma lastp_cons p a ns : lastp p (a :: ns) = lastp (Some a) ns.
Proof using. clear alloc. unfold lastp. rewrite last_cons. by destruct (last ns). Qed.

Lemma lastp_snoc p ns a : lastp p (ns ++ [a]) = Some a.
Proof using. clear alloc. unfold lastp. by rewrite last_snoc. Qed.

Lemma first_app ns1 ns2 q : first (ns1 ++ ns2) q = first ns1 (first ns2 q).
Proof using. by destruct ns1. Qed.

Lemma dlseg_length st p ns l q : dlseg st p ns l q -> length ns = length l.
Proof using. clear alloc.
  revert p l. induction ns as [|a ns IH]; intros p [|x l]; cbn; try done. intros [_ H]. f_equal. by eapply IH.
Qed.

Lemma dlseg_app st p ns1 ns2 l1 l2 q :
  length ns1 = length l1 ->
  dlseg st p (ns1 ++ ns2) (l1 ++ l2) q <->
  dlseg st p ns1 l1 (first ns2 q) /\ dlseg st (lastp p ns1) ns2 l2 q.
Proof using. clear alloc.
  revert p l1. induction ns1 as [|a ns1 IH]; intros p [|x l1] Hl; try done; cbn [app dlseg].
  - split; [by split|by intros []].
  - rewrite IH by (cbn in Hl; lia). rewrite first_app, lastp_cons. tauto.
Qed.

Lemma dlseg_frame st st' p ns l q :
  (forall a, a ∈ ns -> st' !! a = st !! a) -> dlseg st p ns l q -> dlseg st' p ns l q.
Proof using. clear alloc.
  revert p l. induction ns as [|a ns IH]; intros p [|x l] Hf; cbn [dlseg]; try done.
  intros [Ha Hr]. split; [rewrite Hf by set_solver; done|]. apply IH; [set_solver|done].
Qed.

Lemma dlseg_in st p ns l q a : dlseg st p ns l q -> a ∈ ns -> is_Some (st !! a).
Proof using. clear alloc.
  revert p l. induction ns as [|b ns IH]; intros p [|x l]; cbn [dlseg]; try done; [set_solver|].
  intros [Hb Hr] [->|Ha]%elem_of_cons; [eauto|]. by eapply IH.
Qed.

Lemma dlseg_chain st p ns l : dlseg st p ns l None -> chain st ns l.
Proof using. clear alloc.
  revert p l. induction ns as [|a ns IH]; intros p [|x l]; cbn [dlseg chain]; try done.
  intros [Ha Hs]. split; [by exists p|by eapply IH].
Qed.

Lemma chain_frame st st' ns l : (forall a, a ∈ ns -> st' !! a = st !! a) -> chain st ns l -> chain st' ns l.
Proof using. clear alloc.
  revert l. induction ns as [|a ns IH]; intros [|x l] Hf; cbn [chain]; try done.
  intros [[p Ha] Hs]. split; [exists p; rewrite Hf by set_solver; done|]. apply IH; [set_solver|done].
Qed.

(** A doubly linked segment continued by a chain. *)
Lemma dlseg_chain_app st p ns l q ns2 l2 :
  dlseg st p ns l q -> q = first ns2 None -> chain st ns2 l2 -> chain st (ns ++ ns2) (l ++ l2).
Proof using. clear alloc.
  intros Hs -> Hc. revert p l Hs. induction ns as [|a ns IH]; intros p [|x l]; cbn [dlseg chain app]; try done.
  intros [Ha Hs]. split; [exists p; by rewrite first_app|by eapply IH].
Qed.

Lemma chain_size_le st ns l : chain st ns l -> NoDup ns -> length ns <= base.size st.
Proof using. clear alloc.
  intros Hs Hnd. rewrite <- size_dom, <- (size_list_to_set (C := gset nat) ns) by done.
  apply subseteq_size. intros a Ha%elem_of_list_to_set. apply elem_of_dom. clear Hnd.
  revert l Hs. induction ns as [|b ns IH]; intros [|x l]; cbn [chain]; try done; [set_solver|].
  intros [[p Hb] Hr]. apply elem_of_cons in Ha as [->|Ha]; [eauto|]. by eapply IH.
Qed.

(** The whole store is one segment: what is needed of an updated object. *)
Lemma ll_nodes_intro st ns l hd tl n :
  NoDup ns -> dlseg st None ns l None -> (forall a, is_Some (st !! a) <-> a ∈ ns) ->
  hd = first ns None -> tl = lastp None ns -> n = length l -> ll_nodes (mkLL st hd tl n) ns l.
Proof using. clear alloc. intros. by split. Qed.

(** ** Lemmas on pointers *)

Lemma deref_ok st a nd : st !! a = Some nd -> deref st (Some a) = Ret (a, nd).
Proof using. clear alloc. unfold deref. by intros ->. Qed.

Lemma set_prev_ok st a nd q :
  st !! a = Some nd -> set_prev st (Some a) q = Ret (<[a := mkNode (data_ nd) (next_ nd) q]> st).
Proof using. clear alloc. intros H. unfold set_prev. by rewrite (deref_ok _ _ _ H). Qed.

Lemma take_next_ok st a nd :
  st !! a = Some nd ->
  take_next st (Some a) = Ret (next_ nd, <[a := mkNode (data_ nd) None (prev_ nd)]> st).
Proof using. clear alloc. intros H. unfold take_next, set_next. by rewrite (deref_ok _ _ _ H). Qed.

Lemma reset_None st : reset st None = Ret st.
Proof using. clear alloc. unfold reset. by destruct (base.size st). Qed.

Lemma size_pos st a nd : st !! a = Some nd -> exists n, base.size st = S n.
Proof using. clear alloc.
  intros H. destruct (base.size st) eqn:E; [|eauto]. apply map_size_empty_iff in E. subst. by rewrite lookup_empty in H.
Qed.

Lemma reset_one st a nd : st !! a = Some nd -> next_ nd = None -> reset st (Some a) = Ret (delete a st).
Proof using. clear alloc.
  intros H Hn. unfold reset. destruct (size_pos _ _ _ H) as [n ->]. cbn [destroy].
  rewrite (deref_ok _ _ _ H). ret_step. rewrite Hn. by destruct n.
Qed.

Lemma give_next_free st a nd q :
  st !! a = Some nd -> next_ nd = None ->
  give_next st (Some a) q = Ret (<[a := mkNode (data_ nd) q (prev_ nd)]> st).
Proof using. clear alloc.
  intros H Hn. unfold give_next, set_next. rewrite (deref_ok _ _ _ H). do 2 ret_step. rewrite Hn. apply reset_None.
Qed.

Lemma give_next_drop st a nd b nd' q :
  st !! a = Some nd -> next_ nd = Some b -> a <> b -> st !! b = Some nd' -> next_ nd' = None ->
  give_next st (Some a) q = Ret (delete b (<[a := mkNode (data_ nd) q (prev_ nd)]> st)).
Proof using. clear alloc.
  intros H Hn Hab Hb Hn'. unfold give_next, set_next. rewrite (deref_ok _ _ _ H). do 2 ret_step. rewrite Hn.
  apply (reset_one _ _ nd'); [|done]. by rewrite lookup_insert_ne.
Qed.

(** Destroying the first node of a segment destroys the whole segment. *)
Lemma destroy_chain fuel : forall st ns l,
  chain st ns l -> NoDup ns -> length ns <= fuel ->
  exists st', destroy fuel st (first ns None) = Ret st' /\
    forall a, st' !! a = if decide (a ∈ ns) then None else st !! a.
Proof using. clear alloc.
  induction fuel as [|fuel IH]; intros st [|a ns] [|x l]; cbn [chain length first destroy]; intros Hs Hnd Hf;
    try done; try lia; try (exists st; split; [done|]; intros; by rewrite decide_False by set_solver).
  destruct Hs as [[p Ha] Hs]. apply NoDup_cons in Hnd as [Hna Hnd]. rewrite (deref_ok _ _ _ Ha). ret_step.
  destruct (IH (delete a st) ns l) as (st' & H' & Hst'); [|done|lia|].
  { eapply chain_frame; [|done]. intros b Hb. apply lookup_delete_ne. set_solver. }
  exists st'. split; [by rewrite <- H'|]. intros b. rewrite Hst'. destruct (decide (b = a)) as [->|Hne].
  - rewrite lookup_delete_eq. rewrite (decide_True (P := a ∈ a :: ns)) by set_solver. by case_decide.
  - rewrite lookup_delete_ne by done. repeat case_decide; set_solver.
Qed.

(** Change the back link of the first node of a segment, when there is one. *)
Lemma relink_prev {A} st p p' ns l q (t1 t2 : A) :
  dlseg st p ns l q -> NoDup ns ->
  exists st', match first ns None with
              | Some _ => st1 ← set_prev st (first ns None) p'; Ret (st1, t1)
              | None => Ret (st, t2)
              end = Ret (st', if decide (ns = []) then t2 else t1) /\
    dlseg st' p' ns l q /\ (forall a, a ∉ ns -> st' !! a = st !! a) /\
    (forall a, is_Some (st' !! a) <-> is_Some (st !! a)).
Proof using. clear alloc.
  destruct ns as [|a ns], l as [|x l]; cbn [dlseg first]; try done; [exists st; split_and!; done|].
  intros [Ha Hs] Hnd. apply NoDup_cons in Hnd as [Hna Hnd]. rewrite (set_prev_ok _ _ _ _ Ha). ret_step.
  eexists. split; [done|]. cbn [data_ next_]. split_and!.
  - by rewrite lookup_insert_eq.
  - eapply dlseg_frame; [|done]. intros b Hb. apply lookup_insert_ne. set_solver.
  - intros b Hb. apply lookup_insert_ne. set_solver.
  - intros b. destruct (decide (b = a)) as [->|]; [|by rewrite lookup_insert_ne].
    rewrite lookup_insert_eq, Ha. split; eauto.
Qed.

(** The last node of a segment. *)
Lemma dlseg_last st p ns a l x q :
  dlseg st p (ns ++ [a]) (l ++ [x]) q ->
  length ns = length l /\ dlseg st p ns l (Some a) /\ st !! a = Some (mkNode x q (lastp p ns)).
Proof using. clear alloc.
  intros Hs. pose proof (dlseg_length _ _ _ _ _ Hs) as Hl. rewrite !length_app in Hl. cbn in Hl.
  assert (length ns = length l) as Hl' by lia. apply (dlseg_app _ _ _ _ _ _ _ Hl') in Hs as [H1 H2].
  cbn [dlseg first] in *. tauto.
Qed.

Lemma dlseg_snoc st p ns a l x q :
  dlseg st p ns l (Some a) -> st !! a = Some (mkNode x q (lastp p ns)) -> dlseg st p (ns ++ [a]) (l ++ [x]) q.
Proof using. clear alloc.
  intros H1 Ha. apply dlseg_app; [by eapply dlseg_length|]. split; [done|]. cbn [dlseg first]. done.
Qed.

(** ** Operations on represented lists *)

Section operations.
Context (alloc_fresh : forall st, st !! alloc st = None).

Lemma ll_empty s ns l : ll_nodes s ns l -> empty s = bool_decide (l = []).
Proof.
  intros H. unfold empty. apply bool_decide_ext. rewrite (ln_size _ _ _ H). apply length_zero_iff_nil.
Qed.

Lemma fresh_not_in s ns l : ll_nodes s ns l -> alloc (store s) ∉ ns.
Proof. intros H Ha%(ln_dom _ _ _ H). rewrite alloc_fresh in Ha. by destruct Ha. Qed.

Lemma push_front_nodes s ns l x :
  ll_nodes s ns l -> exists s', push_front s x = Ret s' /\ ll_nodes s' (alloc (store s) :: ns) (x :: l).
Proof.
  intros H. pose proof (fresh_not_in _ _ _ H) as Hfr. destruct H as [Hnd Hs Hd Hh Ht Hsz].
  unfold push_front. rewrite Hh. set (a := alloc (store s)) in *.
  destruct (relink_prev (<[a:=mkNode x (first ns None) None]> (store s)) None (Some a) ns l None (tail_ s) (Some a))
    as (st' & E & Hs' & Hout & Hdom'); [|done|].
  { eapply dlseg_frame; [|done]. intros b Hb. apply lookup_insert_ne. set_solver. }
  rewrite E. ret_step. eexists. split; [done|]. apply ll_nodes_intro.
  - by apply NoDup_cons.
  - cbn [dlseg]. split; [|done]. rewrite Hout by done. by rewrite lookup_insert_eq.
  - intros b. rewrite Hdom', elem_of_cons. destruct (decide (b = a)) as [->|Hne].
    + rewrite lookup_insert_eq. split; eauto.
    + rewrite lookup_insert_ne, Hd by done. naive_solver.
  - done.
  - rewrite lastp_cons. case_decide as E'; [by subst|]. rewrite Ht. unfold lastp.
    destruct (last ns) eqn:El; [done|]. by apply last_None in El.
  - by rewrite Hsz.
Qed.

Lemma push_back_nodes s ns l x :
  ll_nodes s ns l -> exists s', push_back s x = Ret s' /\ ll_nodes s' (ns ++ [alloc (store s)]) (l ++ [x]).
Proof.
  intros H. pose proof (fresh_not_in _ _ _ H) as Hfr. destruct H as [Hnd Hs Hd Hh Ht Hsz].
  unfold push_back. rewrite Hh, Ht. set (a := alloc (store s)) in *.
  assert (NoDup (ns ++ [a])) as Hnd' by (apply NoDup_app; split_and!; [done|set_solver|apply NoDup_singleton]).
  destruct (list_eq_nil_dec ns) as [->|Hne]; [|destruct (exists_last Hne) as (ns0 & b & ->)].
  - destruct l; [|done]. cbn [first lastp last]. rewrite reset_None. do 2 ret_step. eexists. split; [done|].
    apply ll_nodes_intro; try done; [cbn; by rewrite lookup_insert_eq| |by rewrite Hsz].
    intros b. rewrite elem_of_app, list_elem_of_singleton. destruct (decide (b = a)) as [->|Hne'].
    + rewrite lookup_insert_eq. split; eauto.
    + rewrite lookup_insert_ne, Hd by done. naive_solver.
  - pose proof (dlseg_length _ _ _ _ _ Hs) as Hlen. rewrite length_app in Hlen. cbn in Hlen.
    destruct l as [|y l'] using rev_ind; [cbn in Hlen; lia|clear IHl'].
    apply dlseg_last in Hs as (Hl0 & Hs0 & Hb). rewrite lastp_snoc.
    assert (a <> b) as Hab by set_solver.
    rewrite (give_next_free _ b (mkNode y None (lastp None ns0))); [|by rewrite lookup_insert_ne|done].
    do 2 ret_step. eexists. split; [done|]. cbn [data_ prev_]. apply NoDup_app in Hnd as (Hnd0 & Hdis & _).
    apply ll_nodes_intro; [done|..].
    + apply dlseg_snoc.
      * apply dlseg_snoc; [|by rewrite lookup_insert_eq].
        eapply dlseg_frame; [|done]. intros c Hc. rewrite !lookup_insert_ne; [done|set_solver..].
      * rewrite lastp_snoc. rewrite lookup_insert_ne by done. by rewrite lookup_insert_eq.
    + intros c. rewrite elem_of_app, list_elem_of_singleton. destruct (decide (c = b)) as [->|].
      { rewrite lookup_insert_eq. split; [left; set_solver|eauto]. }
      rewrite lookup_insert_ne by done. destruct (decide (c = a)) as [->|].
      { rewrite lookup_insert_eq. split; eauto. }
      rewrite lookup_insert_ne, Hd by done. naive_solver.
    + rewrite !first_app. by destruct ns0.
    + by rewrite lastp_snoc.
    + rewrite Hsz, !length_app. cbn. lia.
Qed.

(** Unlinking a node in the middle or at either end. *)
Lemma erase_nodes s ns1 a ns2 l1 x l2 :
  ll_nodes s (ns1 ++ a :: ns2) (l1 ++ x :: l2) -> length ns1 = length l1 ->
  exists s', erase s (Some a) = Ret (first ns2 None, s') /\ ll_nodes s' (ns1 ++ ns2) (l1 ++ l2).
Proof.
  intros [Hnd Hs Hd Hh Ht Hsz] Hl. pose proof Hs as Hs0. apply (dlseg_app _ _ _ _ _ _ _ Hl) in Hs as [H1 [Ha H2]].
  cbn [first] in H1. pose proof Hnd as Hnd0. apply NoDup_app in Hnd as (Hnd1 & Hdis & [Hna Hnd2]%NoDup_cons).
  assert (a ∉ ns1) as Ha1 by (intros Hin; by apply (Hdis a Hin), list_elem_of_here).
  assert (forall b, b ∈ ns1 -> b ∉ ns2) as Hd12 by (intros b Hb Hb2; by apply (Hdis b Hb), list_elem_of_further).
  assert (NoDup (ns1 ++ ns2)) as Hnd12 by (apply NoDup_app; by split_and!).
  assert (list_size_ s - 1 = length (l1 ++ l2)) as Hsz' by (rewrite Hsz, !length_app; cbn; lia).
  unfold erase, end_. rewrite decide_False by done. rewrite (deref_ok _ _ _ Ha), (take_next_ok _ _ _ Ha).
  do 2 ret_step. cbn [data_ next_ prev_].
  assert (forall st', (forall b, b ∉ ns2 -> b <> a -> is_Some (st' !! b) <-> b ∈ ns1) ->
      (forall b, b ∈ ns2 -> is_Some (st' !! b)) -> st' !! a = None ->
      forall b, is_Some (st' !! b) <-> b ∈ ns1 ++ ns2) as Hdom.
  { intros st' Ho Hi Hn b. rewrite elem_of_app. destruct (decide (b = a)) as [->|].
    - rewrite Hn. split; [by intros []|naive_solver].
    - destruct (decide (b ∈ ns2)); [naive_solver|]. rewrite Ho by done. naive_solver. }
  assert (forall b, b ∉ ns2 -> b <> a -> is_Some (store s !! b) <-> b ∈ ns1) as Hold
    by (intros b Hb Hba; rewrite Hd; set_solver).
  destruct (list_eq_nil_dec ns1) as [->|Hne]; [|destruct (exists_last Hne) as (ns0 & b & ->)].
  - destruct l1; [|done]. cbn [lastp last app first] in *. rewrite Hh.
    rewrite (reset_one _ a (mkNode x None None)) by (done || by rewrite lookup_insert_eq). ret_step.
    destruct (relink_prev (delete a (<[a:=mkNode x None None]> (store s))) (Some a) None ns2 l2 None (tail_ s) None)
      as (st' & E & Hs' & Hout & Hdom'); [|done|].
    { eapply dlseg_frame; [|exact H2]. intros c Hc. rewrite lookup_delete_ne, lookup_insert_ne; [done|set_solver..]. }
    rewrite E. ret_step. eexists. split; [done|]. apply ll_nodes_intro; try done.
    + apply Hdom.
      * intros b Hb Hba. rewrite Hout, lookup_delete_ne, lookup_insert_ne by done. by apply Hold.
      * intros b Hb. eapply dlseg_in; done.
      * rewrite Hout by done. apply lookup_delete_eq.
    + case_decide as E'; [by subst|]. rewrite Ht, lastp_cons. unfold lastp.
      destruct (last ns2) eqn:El; [done|]. by apply last_None in El.
  - destruct l1 as [|y l0] using rev_ind; [rewrite length_app in Hl; cbn in Hl; lia|clear IHl0].
    apply dlseg_last in H1 as (Hl0 & H0 & Hb). rewrite lastp_snoc in *.
    assert (a <> b) as Hab by set_solver.
    rewrite (give_next_drop _ b (mkNode y (Some a) (lastp None ns0)) a (mkNode x None (Some b)));
      [|by rewrite lookup_insert_ne|done|done|by rewrite lookup_insert_eq|done].
    ret_step. cbn [data_ prev_].
    set (st1 := delete a _). assert (forall c, c <> a -> c <> b -> st1 !! c = store s !! c) as Hst1.
    { intros c Hca Hcb. subst st1. rewrite lookup_delete_ne, !lookup_insert_ne by done. done. }
    assert (st1 !! b = Some (mkNode y (first ns2 None) (lastp None ns0))) as Hb1.
    { subst st1. rewrite lookup_delete_ne by done. by rewrite lookup_insert_eq. }
    apply NoDup_app in Hnd1 as (Hnd0' & Hdis0 & _).
    assert (b ∉ ns0) as Hb0 by (intros Hin; apply (Hdis0 b Hin); set_solver).
    assert (b ∉ ns2) as Hb2 by (apply Hd12; set_solver).
    destruct (relink_prev st1 (Some a) (Some b) ns2 l2 None (tail_ s) (Some b)) as (st' & E & Hs' & Hout & Hdom'); [|done|].
    { eapply dlseg_frame; [|exact H2]. intros c Hc. apply Hst1; set_solver. }
    rewrite E. ret_step. eexists. split; [done|]. apply ll_nodes_intro; try done.
    + apply dlseg_app; [by rewrite !length_app; cbn; lia|]. rewrite lastp_snoc. split; [|done].
      apply dlseg_snoc; [|by rewrite Hout].
      eapply dlseg_frame; [|exact H0]. intros c Hc. rewrite Hout by (apply Hd12; set_solver). apply Hst1; set_solver.
    + apply Hdom.
      * intros c Hc Hca. rewrite Hdom'. destruct (decide (c = b)) as [->|]; [rewrite Hb1; split; [set_solver|eauto]|].
        rewrite Hst1 by done. by apply Hold.
      * intros c Hc. eapply dlseg_in; done.
      * rewrite Hout by done. apply lookup_delete_eq.
    + rewrite Hh, !first_app. by destruct ns0.
    + case_decide as E'; [by subst; rewrite app_nil_r, lastp_snoc|]. rewrite Ht. unfold lastp.
      rewrite !last_app, last_cons. destruct (last ns2) eqn:El; [done|]. by apply last_None in El.
Qed.

Lemma pop_front_nodes s a ns x l :
  ll_nodes s (a :: ns) (x :: l) -> exists s', pop_front s = Ret s' /\ ll_nodes s' ns l.
Proof.
  intros H. destruct (erase_nodes s [] a ns [] x l H eq_refl) as (s' & He & Hs'). exists s'. split; [|done].
  pose proof (ll_empty _ _ _ H) as Hem. pose proof (ln_head _ _ _ H) as Hh. cbn [first] in Hh.
  pose proof (ln_seg _ _ _ H) as [Ha _]. unfold pop_front. rewrite Hem, bool_decide_eq_false_2 by done.
  unfold erase, end_ in He. rewrite decide_False in He by done.
  rewrite (deref_ok _ _ _ Ha), bind_Ret in He. cbn [prev_] in He. rewrite Hh.
  destruct (take_next (store s) (Some a)) as [[nx st]| | |]; try discriminate. rewrite !bind_Ret in *. cbn beta iota in *.
  rewrite Hh in He. destruct (reset st (Some a)) as [st1| | |]; try discriminate. rewrite !bind_Ret in *. cbn beta iota in *.
  apply bind_Ret_inv in He as ([st2 tl] & E & [= -> <-]). by rewrite E.
Qed.

Lemma pop_back_nodes s ns a l x :
  ll_nodes s (ns ++ [a]) (l ++ [x]) -> exists s', pop_back s = Ret s' /\ ll_nodes s' ns l.
Proof.
  intros H. pose proof (ll_empty _ _ _ H) as Hem. destruct H as [Hnd Hs Hd Hh Ht Hsz].
  rewrite lastp_snoc in Ht. apply dlseg_last in Hs as (Hl & Hs & Ha). apply NoDup_app in Hnd as (Hnd & Hdis & _).
  assert (a ∉ ns) as Hna by (intros Hin; apply (Hdis a Hin); set_solver).
  unfold pop_back. rewrite Hem, bool_decide_eq_false_2 by (by destruct l). rewrite Hh, Ht, first_app.
  assert (list_size_ s - 1 = length l) as Hsz' by (rewrite Hsz, length_app; cbn; lia).
  destruct (list_eq_nil_dec ns) as [->|Hne]; [|destruct (exists_last Hne) as (ns0 & b & ->)].
  - destruct l; [|done]. cbn [first]. rewrite decide_True by done. cbn [lastp last] in Ha.
    rewrite (reset_one _ a _ Ha eq_refl). ret_step. eexists. split; [done|]. apply ll_nodes_intro; try done.
    intros b. destruct (decide (b = a)) as [->|Hb]; [rewrite lookup_delete_eq|rewrite lookup_delete_ne, Hd by done].
    + split; [by intros []|set_solver].
    + set_solver.
  - destruct l as [|y l0] using rev_ind; [rewrite length_app in Hl; cbn in Hl; lia|clear IHl0].
    apply dlseg_last in Hs as (Hl0 & H0 & Hb). rewrite lastp_snoc in Ha.
    assert (a <> b) as Hab by set_solver. apply NoDup_app in Hnd as (Hnd0 & Hdis0 & Hndb).
    assert (b ∉ ns0) as Hb0 by (intros Hin; apply (Hdis0 b Hin); set_solver).
    rewrite decide_False by (destruct ns0; cbn; [congruence|set_solver]).
    rewrite (deref_ok _ _ _ Ha). ret_step. cbn [prev_].
    rewrite (give_next_drop _ b _ a _ None Hb eq_refl ltac:(done) Ha eq_refl). ret_step. cbn [data_ prev_].
    eexists. split; [done|]. apply ll_nodes_intro; [by apply NoDup_app|..].
    + apply dlseg_snoc.
      * eapply dlseg_frame; [|exact H0]. intros c Hc. rewrite lookup_delete_ne, lookup_insert_ne; [done|set_solver..].
      * rewrite lookup_delete_ne by done. by rewrite lookup_insert_eq.
    + intros c. destruct (decide (c = a)) as [->|Hca].
      { rewrite lookup_delete_eq. split; [by intros []|done]. }
      rewrite lookup_delete_ne by done. destruct (decide (c = b)) as [->|Hcb].
      { rewrite lookup_insert_eq. split; [set_solver|eauto]. }
      rewrite lookup_insert_ne, Hd by done. set_solver.
    + rewrite first_app. by destruct ns0.
    + by rewrite lastp_snoc.
    + done.
Qed.

Lemma clear_nodes s ns l : ll_nodes s ns l -> exists s', clear s = Ret s' /\ ll_nodes s' [] [].
Proof.
  intros [Hnd Hs Hd Hh Ht Hsz]. unfold clear, reset. rewrite Hh.
  apply dlseg_chain in Hs. destruct (destroy_chain (base.size (store s)) _ _ _ Hs Hnd) as (st' & -> & Hst').
  { by eapply chain_size_le. }
  ret_step. eexists. split; [done|]. apply ll_nodes_intro; try done; [by apply NoDup_nil|].
  intros a. rewrite Hst'. case_decide as Ha; [split; [by intros []|set_solver]|]. rewrite Hd. set_solver.
Qed.

Lemma reverse_loop_ok fuel : forall st ds dl todo tl,
  length todo < fuel -> NoDup (ds ++ todo) ->
  dlseg st (first todo None) ds dl None -> dlseg st (first ds None) todo tl None ->
  exists st', reverse_loop fuel st (first ds None) (first todo None) = Ret (st', first (rev todo ++ ds) None) /\
    dlseg st' None (rev todo ++ ds) (rev tl ++ dl) None /\
    (forall a, is_Some (st' !! a) <-> is_Some (st !! a)).
Proof.
  induction fuel as [|fuel IH]; intros st ds dl [|c todo] [|x tl] Hf Hnd Hds Htl; cbn [dlseg length] in *; try done; try lia.
  { exists st. cbn [reverse_loop first]. by split_and!. }
  cbn [reverse_loop first] in *. destruct Htl as [Hc Htl].
  apply NoDup_app in Hnd as (Hnd1 & Hdis & [Hnc Hnd2]%NoDup_cons).
  assert (c ∉ ds) as Hcd by (intros Hin; apply (Hdis c Hin); set_solver).
  rewrite (take_next_ok _ _ _ Hc). ret_step. cbn [data_ next_ prev_].
  rewrite (give_next_free _ c (mkNode x None (first ds None))) by (done || by rewrite lookup_insert_eq). ret_step.
  rewrite (set_prev_ok _ c (mkNode x (first ds None) (first ds None))) by by rewrite lookup_insert_eq. ret_step.
  cbn [data_ next_ prev_]. set (st1 := <[c:=_]> _).
  assert (st1 !! c = Some (mkNode x (first ds None) (first todo None))) as Hc1 by apply lookup_insert_eq.
  assert (forall b, b <> c -> st1 !! b = st !! b) as Hst1 by (intros b Hb; subst st1; by rewrite !lookup_insert_ne).
  destruct (IH st1 (c :: ds) (x :: dl) todo tl) as (st' & E & Hs' & Hd'); [lia|..].
  - cbn [app]. apply NoDup_cons. split; [set_solver|]. apply NoDup_app. split_and!; [done|set_solver|done].
  - cbn [dlseg]. split; [done|]. eapply dlseg_frame; [|exact Hds]. intros b Hb. apply Hst1. set_solver.
  - cbn [first]. eapply dlseg_frame; [|exact Htl]. intros b Hb. apply Hst1. set_solver.
  - cbn [first rev] in *. rewrite <- !app_assoc. exists st'. split_and!; [done..|]. intros b. rewrite Hd'.
    destruct (decide (b = c)) as [->|]; [rewrite Hc1, Hc; split; eauto|by rewrite Hst1].
Qed.

Lemma lastp_rev ns : first (rev ns) None = lastp None ns.
Proof.
  destruct (list_eq_nil_dec ns) as [->|Hne]; [done|]. destruct (exists_last Hne) as (ns0 & b & ->).
  by rewrite rev_app_distr, lastp_snoc.
Qed.

Lemma rev_lastp ns : lastp None (rev ns) = first ns None.
Proof. by rewrite <- lastp_rev, rev_involutive. Qed.

Lemma reverse_nodes s ns l : ll_nodes s ns l -> exists s', reverse s = Ret s' /\ ll_nodes s' (rev ns) (rev l).
Proof.
  intros [Hnd Hs Hd Hh Ht Hsz]. unfold reverse. pose proof (dlseg_length _ _ _ _ _ Hs) as Hl. case_decide as H2.
  { exists s. split; [done|]. destruct ns as [|a [|]], l as [|y [|]]; cbn in Hl, Hsz; try lia; by split. }
  destruct (reverse_loop_ok (S (list_size_ s)) (store s) [] [] ns l) as (st' & E & Hs' & Hd'); [lia|done|done|done|].
  cbn [first] in E. rewrite Hh, E. ret_step. rewrite !app_nil_r in *.
  destruct (rev ns) as [|a ns'] eqn:Er, (rev l) as [|y l'] eqn:El; try done.
  { apply (f_equal length) in Er. rewrite length_rev in Er. cbn in Er. lia. }
  destruct Hs' as [Ha Hs']. cbn [first]. rewrite (set_prev_ok _ _ _ _ Ha). ret_step. cbn [data_ next_].
  rewrite insert_id by done. eexists. split; [done|]. rewrite <- El. apply ll_nodes_intro.
  - rewrite <- Er. by rewrite <- Permutation_rev.
  - rewrite El. done.
  - intros b. rewrite Hd', Hd, <- Er. by rewrite <- Permutation_rev.
  - done.
  - by rewrite <- Er, rev_lastp.
  - by rewrite length_rev.
Qed.

(** The node between two parts of the list. *)
Lemma node_at s ns1 a ns2 l1 x l2 :
  ll_nodes s (ns1 ++ a :: ns2) (l1 ++ x :: l2) -> length ns1 = length l1 ->
  store s !! a = Some (mkNode x (first ns2 None) (lastp None ns1)).
Proof. intros [_ Hs _ _ _ _] Hl. by apply (dlseg_app _ _ _ _ _ _ _ Hl) in Hs as [_ [Ha _]]. Qed.

Lemma iter_ok s ns1 a ns2 l1 x l2 :
  ll_nodes s (ns1 ++ a :: ns2) (l1 ++ x :: l2) -> length ns1 = length l1 ->
  iter_get s (Some a) = Ret x /\ iter_next s (Some a) = Ret (first ns2 None).
Proof.
  intros H Hl. pose proof (node_at _ _ _ _ _ _ _ H Hl) as Ha.
  unfold iter_get, iter_next. by rewrite (deref_ok _ _ _ Ha).
Qed.

Lemma nodes_length s ns l : ll_nodes s ns l -> length ns = length l.
Proof. intros [_ Hs _ _ _ _]. by eapply dlseg_length. Qed.

Lemma remove_loop_ok fuel : forall s pred nd ld nt lt cnt,
  ll_nodes s (nd ++ nt) (ld ++ lt) -> length nd = length ld -> length lt < fuel ->
  exists s' ns', remove_loop fuel s pred (first nt None) cnt
      = Ret (cnt + length (filter (fun x => pred x = true) lt), s') /\
    ll_nodes s' ns' (ld ++ filter (fun x => pred x = false) lt).
Proof.
  induction fuel as [|fuel IH]; intros s pred nd ld nt lt cnt H Hl Hf; [lia|]. cbn [remove_loop].
  pose proof (nodes_length _ _ _ H) as Hlen. rewrite !length_app in Hlen.
  destruct nt as [|a nt], lt as [|x lt]; cbn [length] in Hlen; try lia; cbn [first end_].
  { rewrite decide_True by done. exists s, (nd ++ []). split; [|done]. by rewrite Nat.add_0_r. }
  rewrite decide_False by done. destruct (iter_ok _ _ _ _ _ _ _ H Hl) as [-> Hn]. ret_step.
  rewrite !filter_cons. destruct (pred x) eqn:Ep; cbn [length].
  - rewrite (decide_True (P := true = true)), (decide_False (P := true = false)) by done.
    destruct (erase_nodes _ _ _ _ _ _ _ H Hl) as (s1 & -> & H1). ret_step. cbn [length].
    destruct (IH s1 pred nd ld nt lt (S cnt) H1 Hl) as (s' & ns' & -> & H'); [cbn in Hf; lia|].
    exists s', ns'. split; [do 2 f_equal; lia|done].
  - rewrite (decide_False (P := false = true)), (decide_True (P := false = false)) by done. rewrite Hn. ret_step.
    destruct (IH s pred (nd ++ [a]) (ld ++ [x]) nt lt cnt) as (s' & ns' & -> & H');
      [by rewrite <- !app_assoc|rewrite !length_app; cbn; lia|cbn in Hf; lia|].
    exists s', ns'. split; [done|]. by rewrite <- app_assoc in H'.
Qed.

Lemma toVector_loop_ok fuel : forall s ns l,
  chain (store s) ns l -> length ns < fuel -> toVector_loop fuel s (first ns None) = Ret l.
Proof.
  induction fuel as [|fuel IH]; intros s [|a ns] [|x l]; cbn [chain length toVector_loop first end_]; intros Hs Hf;
    try done; try lia.
  rewrite decide_False by done. destruct Hs as [[p Ha] Hs].
  unfold iter_get, iter_next. rewrite (deref_ok _ _ _ Ha). do 4 ret_step. cbn [next_ data_]. rewrite (IH s ns l) by (done || lia). done.
Qed.

Lemma toVector_ok s ns l :
  chain (store s) ns l -> NoDup ns -> head_ s = first ns None -> toVector s = Ret l.
Proof.
  intros Hs Hnd Hh. unfold toVector, begin. rewrite Hh. apply toVector_loop_ok; [done|].
  pose proof (chain_size_le _ _ _ Hs Hnd). lia.
Qed.

Lemma advance_ok i : forall s nd ld nt lt,
  ll_nodes s (nd ++ nt) (ld ++ lt) -> length nd = length ld -> i <= length lt ->
  advance s i (first nt None) = Ret (first (drop i nt) None).
Proof.
  induction i as [|i IH]; intros s nd ld nt lt H Hl Hi; [done|].
  pose proof (nodes_length _ _ _ H) as Hlen. rewrite !length_app in Hlen.
  destruct nt as [|a nt], lt as [|x lt]; cbn [length] in *; try lia. cbn [advance first].
  destruct (iter_ok _ _ _ _ _ _ _ H Hl) as [_ ->]. ret_step.
  rewrite (IH s (nd ++ [a]) (ld ++ [x]) nt lt); [done|by rewrite <- !app_assoc|rewrite !length_app; cbn; lia|lia].
Qed.

(** Appending one copied node does what [push_back] does. *)
Lemma copy_step st hd b n nd ld x :
  ll_nodes (mkLL st hd (Some b) n) nd ld ->
  exists st', (let a := alloc st in
    st1 ← give_next (<[a := mkNode x None None]> st) (Some b) (Some a); set_prev st1 (Some a) (Some b)) = Ret st' /\
    ll_nodes (mkLL st' hd (Some (alloc st)) (S n)) (nd ++ [alloc st]) (ld ++ [x]).
Proof.
  intros H. destruct (push_back_nodes _ _ _ x H) as (s' & E & H').
  pose proof (fresh_not_in _ _ _ H) as Hfr. cbn [store] in *.
  destruct (list_eq_nil_dec nd) as [->|Hne]; [pose proof (ln_tail _ _ _ H); done|].
  destruct (exists_last Hne) as (nd0 & b' & ->).
  pose proof (ln_tail _ _ _ H) as Ht. rewrite lastp_snoc in Ht. injection Ht as <-.
  pose proof (nodes_length _ _ _ H) as Hlen. rewrite length_app in Hlen. cbn in Hlen.
  destruct ld as [|y ld0] using rev_ind; [cbn in Hlen; lia|clear IHld0].
  pose proof (ln_seg _ _ _ H) as Hs. apply dlseg_last in Hs as (_ & _ & Hb). cbn [store] in Hb.
  set (a := alloc st) in *. assert (a <> b) as Hab by set_solver.
  unfold push_back in E. cbn [store tail_ head_ list_size_] in E.
  rewrite (give_next_free _ b (mkNode y None (lastp None nd0))) in E by (done || by rewrite lookup_insert_ne).
  rewrite !bind_Ret in E. cbn beta iota zeta in E. injection E as <-. cbn zeta.
  rewrite (give_next_free _ b (mkNode y None (lastp None nd0))) by (done || by rewrite lookup_insert_ne). ret_step.
  rewrite (set_prev_ok _ a (mkNode x None None)) by (rewrite lookup_insert_ne by done; by rewrite lookup_insert_eq).
  eexists. split; [done|]. cbn [data_ next_ prev_] in *. fold a in H'.
  rewrite insert_insert_ne by done. rewrite insert_insert_eq. exact H'.
Qed.

Lemma ll_copy_loop_ok fuel : forall other no1 a no2 lo1 x lo2 st hd b n nd,
  ll_nodes other (no1 ++ a :: no2) (lo1 ++ x :: lo2) -> length no1 = length lo1 -> length lo2 < fuel ->
  ll_nodes (mkLL st hd (Some b) n) nd (lo1 ++ [x]) ->
  exists st' dst' nd', copy_loop fuel other (Some a) st (Some b) = Ret (st', dst') /\
    ll_nodes (mkLL st' hd dst' (n + length lo2)) nd' (lo1 ++ x :: lo2).
Proof.
  induction fuel as [|fuel IH]; intros other no1 a no2 lo1 x lo2 st hd b n nd Ho Hl Hf H; [lia|].
  cbn [copy_loop]. rewrite (deref_ok _ _ _ (node_at _ _ _ _ _ _ _ Ho Hl)). ret_step. cbn [next_].
  pose proof (nodes_length _ _ _ Ho) as Hlen. rewrite !length_app in Hlen.
  destruct no2 as [|c no2], lo2 as [|y lo2]; cbn [length first] in *; try lia.
  { exists st, (Some b), nd. by rewrite Nat.add_0_r. }
  assert (ll_nodes other ((no1 ++ [a]) ++ c :: no2) ((lo1 ++ [x]) ++ y :: lo2)) as Ho' by (by rewrite <- !app_assoc).
  assert (length (no1 ++ [a]) = length (lo1 ++ [x])) as Hl' by (rewrite !length_app; cbn; lia).
  destruct (iter_ok _ _ _ _ _ _ _ Ho' Hl') as [-> _]. ret_step.
  destruct (copy_step st hd b n nd (lo1 ++ [x]) y H) as (st1 & E & H1). cbn zeta in E.
  rewrite <- bind_assoc, E. ret_step.
  destruct (IH other (no1 ++ [a]) c no2 (lo1 ++ [x]) y lo2 st1 hd (alloc st) (S n) (nd ++ [alloc st]) Ho' Hl')
    as (st' & dst' & nd' & -> & H'); [lia|done|].
  exists st', dst', nd'. split; [done|]. rewrite <- app_assoc in H'. by rewrite Nat.add_succ_r.
Qed.

Lemma copy_nodes s ns l : ll_nodes s ns l -> exists s', copy s = Ret s' /\ ll_rep s' l.
Proof.
  intros H. unfold copy. rewrite (ll_empty _ _ _ H). destruct l as [|x l].
  { rewrite bool_decide_eq_true_2 by done. exists ll_new. split; [done|]. exists []. split; try done; [by apply NoDup_nil|].
    intros a. cbn. rewrite lookup_empty. split; [by intros []|set_solver]. }
  rewrite bool_decide_eq_false_2 by done. pose proof (nodes_length _ _ _ H) as Hlen.
  destruct ns as [|a ns]; [done|]. rewrite (ln_head _ _ _ H). cbn [first].
  destruct (iter_ok s [] a ns [] x l H eq_refl) as [-> _]. ret_step. set (b := alloc ∅).
  assert (ll_nodes (mkLL {[b := mkNode x None None]} (Some b) (Some b) 1) [b] [x]) as H1.
  { apply ll_nodes_intro; try done; [apply NoDup_singleton|cbn; by rewrite lookup_singleton_eq|].
    intros c. rewrite list_elem_of_singleton. destruct (decide (c = b)) as [->|].
    - rewrite lookup_singleton_eq. split; eauto.
    - rewrite lookup_singleton_ne by done. split; [by intros []|done]. }
  destruct (ll_copy_loop_ok (S (list_size_ s)) s [] a ns [] x l {[b := mkNode x None None]} (Some b) b 1 [b] H eq_refl)
    as (st' & dst' & nd' & -> & H'); [rewrite (ln_size _ _ _ H); cbn; lia|done|].
  ret_step. eexists. split; [done|]. exists nd'. rewrite (ln_size _ _ _ H). exact H'.
Qed.

Lemma insert_begin_nodes s ns l x :
  ll_nodes s ns l -> exists it s', insert s (begin s) x = Ret (it, s') /\ ll_rep s' (x :: l) /\ iter_get s' it = Ret x.
Proof.
  intros H. unfold insert. rewrite decide_True by done. destruct (push_front_nodes _ _ _ x H) as (s' & -> & H'). ret_step.
  exists (begin s'), s'. split; [done|]. split; [by eexists|].
  unfold begin. rewrite (ln_head _ _ _ H'). by apply (iter_ok s' [] _ ns [] x l H').
Qed.

Lemma insert_end_nodes s ns l x :
  ll_nodes s ns l -> exists it s', insert s (end_ s) x = Ret (it, s') /\ ll_rep s' (l ++ [x]) /\ iter_get s' it = Ret x.
Proof.
  intros H. pose proof (ln_head _ _ _ H) as Hh. destruct ns as [|a ns].
  - destruct l as [|]; [|by pose proof (nodes_length _ _ _ H)].
    replace (end_ s) with (begin s) by done. by eapply (insert_begin_nodes s [] []).
  - unfold insert, begin, end_. rewrite Hh. cbn [first]. rewrite decide_False, decide_True by done.
    destruct (push_back_nodes _ _ _ x H) as (s' & -> & H'). ret_step.
    exists (tail_ s'), s'. split; [done|]. split; [by eexists|]. rewrite (ln_tail _ _ _ H'), lastp_snoc.
    by apply (iter_ok s' (a :: ns) _ [] l x [] H'), (nodes_length _ _ _ H).
Qed.

Lemma erase_at s ns l i :
  ll_nodes s ns l -> i <= length l ->
  exists it it' s', advance s i (begin s) = Ret it /\ erase s it = Ret (it', s') /\ ll_rep s' (delete i l).
Proof.
  intros H Hi. unfold begin. rewrite (ln_head _ _ _ H), (advance_ok i s [] [] ns l H eq_refl Hi).
  exists (first (drop i ns) None). pose proof (nodes_length _ _ _ H) as Hlen.
  destruct (decide (i = length l)) as [->|Hne].
  - rewrite drop_ge by lia. exists None, s. split_and!; [done..|]. exists ns. by rewrite delete_take_drop, take_ge, drop_ge, app_nil_r by lia.
  - destruct (vget_lt l i ltac:(lia)) as (x & Hx & _), (vget_lt ns i ltac:(lia)) as (a & Ha & _).
    rewrite (drop_S _ _ _ Ha). cbn [first].
    rewrite <- (take_drop_middle _ _ _ Hx), <- (take_drop_middle _ _ _ Ha) in H.
    destruct (erase_nodes _ _ _ _ _ _ _ H) as (s' & He & H'); [rewrite !length_take; lia|].
    exists (first (drop (S i) ns) None), s'. split_and!; [done..|]. eexists. by rewrite delete_take_drop.
Qed.

#[global] Instance list_simulates : Simulates step spec ll_rep.
Proof.
  intros s l o [ns H]. pose proof (ll_empty _ _ _ H) as He. destruct o; cbn [spec step].
  - destruct (push_front_nodes s ns l x H) as (s' & -> & H'). eexists. split; [done|by eexists].
  - destruct (push_back_nodes s ns l x H) as (s' & -> & H'). eexists. split; [done|by eexists].
  - destruct l as [|x l]; [unfold pop_front; by rewrite He|]. pose proof (nodes_length _ _ _ H).
    destruct ns as [|a ns]; [done|]. destruct (pop_front_nodes _ _ _ _ _ H) as (s' & -> & H').
    eexists. split; [done|by eexists].
  - destruct l as [|x l]; [unfold pop_back; by rewrite He|]. pose proof (nodes_length _ _ _ H) as Hlen.
    destruct (exists_last (l := x :: l)) as (l0 & y & E); [done|].
    destruct (exists_last (l := ns)) as (ns0 & a & ->); [by intros ->|]. rewrite E in *. rewrite removelast_last.
    destruct (pop_back_nodes _ _ _ _ _ H) as (s' & -> & H'). destruct (l0 ++ [y]) eqn:E'; [by destruct l0|].
    eexists. split; [done|by eexists].
  - destruct l as [|x l]; unfold front; rewrite He; [done|]. rewrite bool_decide_eq_false_2 by done.
    pose proof (nodes_length _ _ _ H) as Hlen. destruct ns as [|a ns]; [done|]. rewrite (ln_head _ _ _ H). cbn [first].
    destruct (iter_ok s [] a ns [] x l H eq_refl) as [-> _]. eexists. split; [done|by eexists].
  - unfold back. rewrite He. destruct (list_eq_nil_dec l) as [->|Hne]; [done|]. rewrite bool_decide_eq_false_2 by done.
    pose proof (nodes_length _ _ _ H) as Hlen. destruct (exists_last Hne) as (l0 & y & ->).
    destruct (exists_last (l := ns)) as (ns0 & a & ->); [intros ->; by destruct l0|].
    rewrite (ln_tail _ _ _ H), lastp_snoc, last_snoc. rewrite !length_app in Hlen. cbn in Hlen.
    destruct (iter_ok s ns0 a [] l0 y [] H) as [-> _]; [lia|]. eexists. split; [done|by eexists].
  - unfold size. rewrite (ln_size _ _ _ H). eexists. split; [done|by eexists].
  - rewrite He. eexists. split; [done|by eexists].
  - destruct (insert_begin_nodes s ns l x H) as (it & s' & -> & H' & Hg). ret_step. rewrite Hg. eauto.
  - destruct (insert_end_nodes s ns l x H) as (it & s' & -> & H' & Hg). ret_step. rewrite Hg. eauto.
  - case_decide as Hi; [|done]. destruct (erase_at s ns l i H Hi) as (it & it' & s' & -> & He' & H').
    ret_step. rewrite He'. eauto.
  - unfold remove_if, begin. rewrite (ln_head _ _ _ H).
    destruct (remove_loop_ok (S (list_size_ s)) s pred [] [] ns l 0 H eq_refl) as (s' & ns' & -> & H').
    { rewrite (ln_size _ _ _ H). lia. } eexists. split; [done|by eexists].
  - destruct (clear_nodes s ns l H) as (s' & -> & H'). eexists. split; [done|by eexists].
  - destruct (reverse_nodes s ns l H) as (s' & -> & H'). eexists. split; [done|by eexists].
  - rewrite (toVector_ok s ns l (dlseg_chain _ _ _ _ (ln_seg _ _ _ H)) (ln_nodup _ _ _ H) (ln_head _ _ _ H)).
    eexists. split; [done|by eexists].
Qed.

Lemma ll_new_rep : ll_rep ll_new [].
Proof.
  exists []. split; try done; [by apply NoDup_nil|]. intros a. cbn. rewrite lookup_empty. split; [by intros []|set_solver].
Qed.

(** ** Properties *)

(** C3: from the empty list, every sequence of insertions and removals at
    either end, erasures at any position, conditional removals, reversals and
    clears observes what it observes on an abstract list, whatever addresses the
    allocator returns; no destroyed node is ever followed and no node leaks. *)
Theorem linked_list_refines ops l os :
  trace spec [] ops = Ret (l, os) ->
  exists s, trace step ll_new ops = Ret (s, os) /\ ll_rep s l /\
    exists c, copy s = Ret c /\ toVector c = Ret l.
Proof.
  intros Hs. destruct (trace_refines ops _ _ _ _ ll_new_rep Hs) as (s & Ht & ns & H).
  exists s. split; [done|]. split; [by exists ns|]. destruct (copy_nodes s ns l H) as (c & -> & nc & Hc).
  exists c. split; [done|]. by apply (toVector_ok c nc l (dlseg_chain _ _ _ _ (ln_seg _ _ _ Hc)) (ln_nodup _ _ _ Hc)), (ln_head _ _ _ Hc).
Qed.

(** The store after inserting [a] between the last two nodes [b] and [t]:
    the forward links are right, [t]'s back link is still [b]. *)
Lemma insert_before_last s ns b t l z y x :
  ll_nodes s (ns ++ [b; t]) (l ++ [z; y]) -> length ns = length l ->
  let a := alloc (store s) in
  exists st, insert s (Some t) x = Ret (Some a, mkLL st (head_ s) (tail_ s) (S (list_size_ s))) /\
    dlseg st None ns l (Some b) /\ st !! b = Some (mkNode z (Some a) (lastp None ns)) /\
    st !! a = Some (mkNode x (Some t) (Some b)) /\ st !! t = Some (mkNode y None (Some b)).
Proof.
  intros H Hl a. pose proof (fresh_not_in _ _ _ H) as Hfr. fold a in Hfr.
  pose proof (ln_seg _ _ _ H) as Hs. apply (dlseg_app _ _ _ _ _ _ _ Hl) in Hs as (H0 & Hb & Ht & _).
  pose proof (ln_nodup _ _ _ H) as Hnd. apply NoDup_app in Hnd as (_ & Hdis & Hnd2).
  assert ((b ∉ ns) /\ (t ∉ ns)) as [Hbn Htn] by (split; intros Hin; apply (Hdis _ Hin); set_solver).
  assert (b <> t /\ a <> b /\ a <> t) as (Hbt & Hab & Hat).
  { split_and!; [|set_solver..]. intros ->. apply NoDup_cons in Hnd2 as [Hx _]. set_solver. }
  cbn [first] in *. unfold insert, begin, end_. rewrite (ln_head _ _ _ H). fold a.
  rewrite decide_False by (destruct ns; cbn; [congruence|set_solver]). rewrite decide_False by done. cbn zeta.
  rewrite (deref_ok _ t _ ltac:(rewrite lookup_insert_ne by done; exact Ht)). ret_step. cbn [prev_].
  rewrite (set_prev_ok _ a (mkNode x None None)) by by rewrite lookup_insert_eq. ret_step. cbn [data_ next_].
  rewrite insert_insert_eq. set (st1 := <[a:=_]> (store s)).
  rewrite (take_next_ok st1 b _ ltac:(subst st1; rewrite lookup_insert_ne by done; exact Hb)). ret_step. cbn [data_ next_ prev_].
  rewrite (give_next_free _ a (mkNode x None (Some b)));
    [|rewrite lookup_insert_ne by done; subst st1; apply lookup_insert_eq|done]. ret_step. cbn [data_ prev_].
  rewrite (give_next_free _ b (mkNode z None (lastp None ns)));
    [|rewrite lookup_insert_ne by done; apply lookup_insert_eq|done]. ret_step. cbn [data_ prev_].
  eexists. split; [done|]. subst st1. split_and!.
  - eapply dlseg_frame; [|exact H0]. intros c Hc. rewrite !lookup_insert_ne; [done|set_solver..].
  - apply lookup_insert_eq.
  - rewrite lookup_insert_ne by done. apply lookup_insert_eq.
  - rewrite !lookup_insert_ne by done. exact Ht.
Qed.

(** inserting before the last element of a list of two or more yields the
    right sequence forwards, but leaves that element's back pointer at its old
    predecessor: a [pop_back] that follows also destroys the inserted element,
    while [size] still counts it. *)
Theorem linked_list_insert_middle s l y z x :
  ll_rep s (l ++ [z; y]) ->
  exists it s1 s2,
    insert s (tail_ s) x = Ret (it, s1) /\ toVector s1 = Ret (l ++ [z; x; y]) /\ size s1 = length l + 3 /\
    pop_back s1 = Ret s2 /\ toVector s2 = Ret (l ++ [z]) /\ size s2 = length l + 2.
Proof.
  intros [ns' H]. pose proof (nodes_length _ _ _ H) as Hlen. rewrite length_app in Hlen. cbn in Hlen.
  destruct (exists_last (l := ns')) as (ns1 & t & ->); [intros ->; cbn in Hlen; lia|].
  rewrite length_app in Hlen. cbn in Hlen.
  destruct (exists_last (l := ns1)) as (ns & b & ->); [intros ->; cbn in Hlen; lia|].
  rewrite length_app in Hlen. cbn in Hlen. rewrite <- app_assoc in H. cbn [app] in H. assert (length ns = length l) as Hl by lia.
  destruct (insert_before_last s ns b t l z y x H Hl) as (st & E & H0 & Hb & Ha & Ht).
  set (a := alloc (store s)) in *. pose proof (fresh_not_in _ _ _ H) as Hfr. fold a in Hfr.
  pose proof (ln_tail _ _ _ H) as Htl. change [b; t] with ([b] ++ [t]) in Htl. rewrite app_assoc, lastp_snoc in Htl.
  rewrite Htl in *. pose proof (ln_nodup _ _ _ H) as Hnd.
  assert (NoDup ([b; t] ++ ns)) as Hnd' by (by rewrite (Permutation_app_comm [b; t] ns)).
  cbn [app] in Hnd'. apply NoDup_cons in Hnd' as [Hb0 [Ht0 Hnd0]%NoDup_cons].
  assert (NoDup [a; t]) as Hndat by (apply NoDup_cons; split; [set_solver|apply NoDup_singleton]).
  assert (chain st [a; t] [x; y]) as Hat by (cbn; eauto).
  pose proof (ln_size _ _ _ H) as Hsz. rewrite length_app in Hsz. cbn in Hsz.
  destruct (destroy_chain (base.size (<[b:=mkNode z None (lastp None ns)]> st)) (<[b:=mkNode z None (lastp None ns)]> st)
    [a; t] [x; y]) as (st2 & E2 & Hst2).
  { eapply chain_frame; [|exact Hat]. intros c Hc. apply lookup_insert_ne. set_solver. }
  { done. }
  { eapply chain_size_le; [|done]. eapply chain_frame; [|exact Hat]. intros c Hc. apply lookup_insert_ne. set_solver. }
  exists (Some a), (mkLL st (head_ s) (Some t) (S (list_size_ s))), (mkLL st2 (head_ s) (Some b) (list_size_ s)).
  split_and!; [exact E| |unfold size; cbn [list_size_]; lia| | |unfold size; cbn [list_size_]; lia].
  - apply (toVector_ok _ (ns ++ [b; a; t])).
    + eapply dlseg_chain_app; [exact H0|done|]. cbn. eauto.
    + apply NoDup_app. split_and!; [done|set_solver|]. apply NoDup_cons. split; [set_solver|done].
    + cbn [head_]. rewrite (ln_head _ _ _ H). by destruct ns.
  - unfold pop_back, empty. cbn [head_ tail_ list_size_ store]. rewrite bool_decide_eq_false_2 by done.
    rewrite decide_False by (rewrite (ln_head _ _ _ H); destruct ns; cbn; [set_solver|set_solver]).
    rewrite (deref_ok _ _ _ Ht). ret_step. cbn [prev_]. unfold give_next, set_next.
    rewrite (deref_ok _ _ _ Hb). do 2 ret_step. cbn [data_ next_ prev_]. unfold reset. cbn [first] in E2. ret_step. rewrite E2.
    ret_step. do 2 f_equal. lia.
  - apply (toVector_ok _ (ns ++ [b])).
    + eapply dlseg_chain_app; [|done|].
      * eapply dlseg_frame; [|exact H0]. intros c Hc. cbn [store].
        rewrite Hst2, decide_False by set_solver. apply lookup_insert_ne. set_solver.
      * cbn. split; [|done]. exists (lastp None ns). rewrite Hst2, decide_False by set_solver. apply lookup_insert_eq.
    + apply NoDup_app. split_and!; [done|set_solver|apply NoDup_singleton].
    + cbn [head_]. rewrite (ln_head _ _ _ H). by destruct ns.
Qed.

End operations.
End linked_list.

Section linked_list_witnesses.

#[local] Definition bump (st : gmap nat (Node (T := nat))) : nat := fresh (dom st : gset nat).

Lemma bump_fresh st : st !! bump st = None.
Proof. apply (not_elem_of_dom (D := gset nat)). unfold bump. apply (is_fresh (C := gset nat) (dom st)). Qed.

#[local] Definition odd_only (x : nat) : bool := Nat.even x.

Lemma linked_list_refines_witness :
  exists s, trace (step bump) ll_new
    [PushBack 1; PushFront 2; InsertEnd 4; Reverse; ToVector; Erase 1; RemoveIf odd_only; ToVector; PopBack]
    = Ret (s, [inl ODone; inl ODone; inl (OVal 4); inl ODone; inl (OSeq [4; 1; 2]); inl ODone; inl (ONum 2);
               inl (OSeq []); inr out_of_range]).
Proof.
  destruct (linked_list_refines bump bump_fresh
    [PushBack 1; PushFront 2; InsertEnd 4; Reverse; ToVector; Erase 1; RemoveIf odd_only; ToVector; PopBack] _ _ eq_refl)
    as (s & Hs & _).
  exists s. exact Hs.
Defined.

Lemma linked_list_insert_witness :
  exists s it s1 s2, trace (step bump) ll_new [PushBack 1; PushBack 2] = Ret (s, [inl ODone; inl ODone]) /\
    insert bump s (tail_ s) 9 = Ret (it, s1) /\ pop_back s1 = Ret s2 /\
    toVector s2 = Ret [1] /\ size s2 = 2.
Proof.
  destruct (trace_refines (step := step bump) (spec := spec) (R := ll_rep) (Simulates0 := list_simulates bump bump_fresh)
    [PushBack 1; PushBack 2] ll_new [] _ _ (ll_new_rep bump bump_fresh) eq_refl) as (s & Hs & HR).
  destruct (linked_list_insert_middle bump bump_fresh s [] 2 1 9 HR) as (it & s1 & s2 & H1 & _ & _ & H2 & H3 & H4).
  exists s, it, s1, s2. split; [exact Hs|]. split; [exact H1|]. split; [exact H2|]. split; [exact H3|exact H4].
Defined.

End linked_list_witnesses.
