(* ===== verification/SortedList.v ===== *)
(** * Sorted sequences: the specification shared by all search trees

    A search tree of any balancing scheme denotes the sorted list of its
    elements, compared by a strict weak order; elements that neither precede
    nor follow each other are the same to the tree.  This file states insertion,
    removal and lookup on such lists and how they act around a root element. *)

From stdpp Require Import sorting.
From S2P Require Import Prelude.

Section sorted_list.
Context {T : Type} (lt : T -> T -> bool).
Implicit Types (l : list T) (x y d : T).

(** Neither before the other: what the trees treat as equal. *)
Definition equiv x y : bool := negb (lt x y) && negb (lt y x).

Definition sorted l : Prop := StronglySorted (fun x y => lt x y = true) l.

Fixpoint ins x l : list T :=
  match l with
  | [] => [x]
  | y :: l' => if lt x y then x :: l else if lt y x then y :: ins x l' else l
  end.

Fixpoint del x l : list T :=
  match l with
  | [] => []
  | y :: l' => if lt x y then l else if lt y x then y :: del x l' else l'
  end.

Fixpoint get x l : option T :=
  match l with
  | [] => None
  | y :: l' => if lt x y then None else if lt y x then get x l' else Some y
  end.

Lemma sorted_mid l1 d l2 :
  sorted (l1 ++ d :: l2) <->
  sorted l1 /\ sorted l2 /\ (forall x, x ∈ l1 -> lt x d = true) /\ (forall y, y ∈ l2 -> lt d y = true) /\
  (forall x y, x ∈ l1 -> y ∈ l2 -> lt x y = true).
Proof.
  unfold sorted. rewrite StronglySorted_app, StronglySorted_cons, Forall_forall.
  split; [intros (H1 & H2 & H3 & H4)|intros (H1 & H2 & H3 & H4 & H5)]; split_and!; try done; set_solver.
Qed.

Context `{!StrictWeak lt}.

Lemma equiv_refl x : equiv x x = true.
Proof. unfold equiv. by rewrite (sw_irrefl (lt := lt)). Qed.

Lemma equiv_spec x y : equiv x y = true <-> lt x y = false /\ lt y x = false.
Proof. unfold equiv. destruct (lt x y), (lt y x); naive_solver. Qed.

Lemma equiv_lt_l x y z : equiv x y = true -> lt x z = lt y z.
Proof.
  intros [H1 H2]%equiv_spec. destruct (lt y z) eqn:E.
  - by apply (sw_le_lt lt x y z).
  - destruct (lt x z) eqn:E'; [|done]. pose proof (sw_le_lt lt y x z H1 E'). congruence.
Qed.

Lemma equiv_lt_r x y z : equiv x y = true -> lt z x = lt z y.
Proof.
  intros [H1 H2]%equiv_spec. destruct (lt z y) eqn:E.
  - by apply (sw_lt_le lt z y x).
  - destruct (lt z x) eqn:E'; [|done]. pose proof (sw_lt_le lt z x y E' H2). congruence.
Qed.

(** Around a root [d]: where an element goes by comparing it with [d]. *)
Section around.
Context (l1 : list T) (d : T) (l2 : list T) (Hs : sorted (l1 ++ d :: l2)).

Lemma ins_left x : lt x d = true -> ins x (l1 ++ d :: l2) = ins x l1 ++ d :: l2.
Proof using All.
  intros Hx. clear Hs. induction l1 as [|y l IH]; cbn; [by rewrite Hx|]. destruct (lt x y); [done|]. destruct (lt y x); [|done].
  by rewrite IH.
Qed.

Lemma del_left x : lt x d = true -> del x (l1 ++ d :: l2) = del x l1 ++ d :: l2.
Proof using All.
  intros Hx. clear Hs. induction l1 as [|y l IH]; cbn; [by rewrite Hx|]. destruct (lt x y); [done|]. destruct (lt y x); [|done].
  by rewrite IH.
Qed.

Lemma get_left x : lt x d = true -> get x (l1 ++ d :: l2) = get x l1.
Proof using All.
  intros Hx. clear Hs. induction l1 as [|y l IH]; cbn; [by rewrite Hx|]. destruct (lt x y); [done|]. destruct (lt y x); [|done].
  by rewrite IH.
Qed.

(** Elements not after [d] are skipped by what comes after the left part. *)
Lemma skip_left x : lt x d = false -> forall y, y ∈ l1 -> lt x y = false /\ lt y x = true.
Proof using All.
  intros Hx y Hy. apply sorted_mid in Hs as (_ & _ & H & _). specialize (H y Hy).
  pose proof (sw_lt_le lt y d x H Hx) as Hyx. split; [by apply sw_asym|done].
Qed.

Lemma ins_right x : lt d x = true -> ins x (l1 ++ d :: l2) = l1 ++ d :: ins x l2.
Proof using All.
  intros Hx. pose proof (skip_left x (sw_asym lt _ _ Hx)) as Hsk. clear Hs. induction l1 as [|y l IH]; cbn.
  - by rewrite (sw_asym lt _ _ Hx), Hx.
  - destruct (Hsk y) as [-> ->]; [set_solver|]. rewrite IH; [done|]. intros z Hz. apply Hsk. set_solver.
Qed.

Lemma del_right x : lt d x = true -> del x (l1 ++ d :: l2) = l1 ++ d :: del x l2.
Proof using All.
  intros Hx. pose proof (skip_left x (sw_asym lt _ _ Hx)) as Hsk. clear Hs. induction l1 as [|y l IH]; cbn.
  - by rewrite (sw_asym lt _ _ Hx), Hx.
  - destruct (Hsk y) as [-> ->]; [set_solver|]. rewrite IH; [done|]. intros z Hz. apply Hsk. set_solver.
Qed.

Lemma get_right x : lt d x = true -> get x (l1 ++ d :: l2) = get x l2.
Proof using All.
  intros Hx. pose proof (skip_left x (sw_asym lt _ _ Hx)) as Hsk. clear Hs. induction l1 as [|y l IH]; cbn.
  - by rewrite (sw_asym lt _ _ Hx), Hx.
  - destruct (Hsk y) as [-> ->]; [set_solver|]. apply IH. intros z Hz. apply Hsk. set_solver.
Qed.

Lemma ins_here x : equiv x d = true -> ins x (l1 ++ d :: l2) = l1 ++ d :: l2.
Proof using All.
  intros [H1 H2]%equiv_spec. pose proof (skip_left x H1) as Hsk. clear Hs. induction l1 as [|y l IH]; cbn.
  - by rewrite H1, H2.
  - destruct (Hsk y) as [-> ->]; [set_solver|]. rewrite IH; [done|]. intros z Hz. apply Hsk. set_solver.
Qed.

Lemma del_here x : equiv x d = true -> del x (l1 ++ d :: l2) = l1 ++ l2.
Proof using All.
  intros [H1 H2]%equiv_spec. pose proof (skip_left x H1) as Hsk. clear Hs. induction l1 as [|y l IH]; cbn.
  - by rewrite H1, H2.
  - destruct (Hsk y) as [-> ->]; [set_solver|]. rewrite IH; [done|]. intros z Hz. apply Hsk. set_solver.
Qed.

Lemma get_here x : equiv x d = true -> get x (l1 ++ d :: l2) = Some d.
Proof using All.
  intros [H1 H2]%equiv_spec. pose proof (skip_left x H1) as Hsk. clear Hs. induction l1 as [|y l IH]; cbn.
  - by rewrite H1, H2.
  - destruct (Hsk y) as [-> ->]; [set_solver|]. apply IH. intros z Hz. apply Hsk. set_solver.
Qed.
End around.

(** ** The sorted list as a finite set with representatives *)

Lemma elem_of_ins x l z : z ∈ ins x l -> z = x \/ z ∈ l.
Proof.
  induction l as [|y l IH]; cbn; [set_solver|]. destruct (lt x y); [set_solver|]. destruct (lt y x); set_solver.
Qed.

Lemma elem_of_del x l z : z ∈ del x l -> z ∈ l.
Proof.
  induction l as [|y l IH]; cbn; [set_solver|]. destruct (lt x y); [set_solver|]. destruct (lt y x); set_solver.
Qed.

Lemma sorted_cons y l : sorted (y :: l) <-> (forall z, z ∈ l -> lt y z = true) /\ sorted l.
Proof. unfold sorted. by rewrite StronglySorted_cons, Forall_forall. Qed.

Lemma ins_sorted x l : sorted l -> sorted (ins x l).
Proof.
  induction l as [|y l IH]; cbn; [intros; apply sorted_cons; split; [set_solver|done]|].
  intros [Hy Hl]%sorted_cons. destruct (lt x y) eqn:E1; [|destruct (lt y x) eqn:E2].
  - apply sorted_cons. split; [|by apply sorted_cons]. intros z [->|Hz]%elem_of_cons; [done|].
    eapply sw_trans; [done|by apply Hy].
  - apply sorted_cons. split; [|by apply IH]. intros z [->|Hz]%elem_of_ins; [done|by apply Hy].
  - by apply sorted_cons.
Qed.

Lemma del_sorted x l : sorted l -> sorted (del x l).
Proof.
  induction l as [|y l IH]; cbn; [done|].
  intros [Hy Hl]%sorted_cons. destruct (lt x y) eqn:E1; [by apply sorted_cons|destruct (lt y x) eqn:E2; [|done]].
  apply sorted_cons. split; [|by apply IH]. intros z Hz%elem_of_del. by apply Hy.
Qed.

(** Nothing equivalent is found before the first greater element. *)
Lemma get_below x y l : sorted (y :: l) -> lt x y = true -> get x l = None.
Proof.
  intros [Hy _]%sorted_cons Hx. destruct l as [|z l]; [done|]. cbn.
  by rewrite (sw_trans x y z Hx (Hy z (list_elem_of_here z l))).
Qed.

Lemma get_Some x l y : sorted l -> get x l = Some y <-> y ∈ l /\ equiv x y = true.
Proof.
  induction l as [|z l IH]; cbn; [split; [done|set_solver]|]. intros Hs. pose proof Hs as [Hz Hl]%sorted_cons.
  destruct (lt x z) eqn:E1; [|destruct (lt z x) eqn:E2].
  - split; [done|]. intros [[->|Hy]%elem_of_cons [Hxy _]%equiv_spec]; [congruence|].
    pose proof (sw_trans _ _ _ E1 (Hz y Hy)). congruence.
  - rewrite IH by done. split; [set_solver|]. intros [[->|Hy]%elem_of_cons He]; [|done].
    apply equiv_spec in He as [_ He]. congruence.
  - split; [intros [= ->]; split; [set_solver|by apply equiv_spec]|].
    intros [[->|Hy]%elem_of_cons He]; [done|]. exfalso. pose proof (Hz y Hy) as Hzy.
    assert (equiv x z = true) as Hxz by by apply equiv_spec.
    rewrite <- (equiv_lt_l x z y Hxz) in Hzy. apply equiv_spec in He as [He _]. congruence.
Qed.

Lemma get_ins x y l :
  sorted l -> get x (ins y l) = if equiv x y then Some (default y (get x l)) else get x l.
Proof.
  induction l as [|z l IH]; cbn; intros Hs.
  { unfold equiv. destruct (lt x y), (lt y x); done. }
  pose proof Hs as [Hz Hl]%sorted_cons. destruct (lt y z) eqn:E1; [|destruct (lt z y) eqn:E2]; cbn.
  - destruct (lt x y) eqn:E3; [|destruct (lt y x) eqn:E4].
    + unfold equiv. rewrite E3. cbn. by rewrite (sw_trans _ _ _ E3 E1).
    + unfold equiv. rewrite E3, E4. done.
    + assert (equiv x y = true) as -> by (by apply equiv_spec).
      by rewrite (sw_le_lt lt x y z E4 E1).
  - destruct (lt x z) eqn:E3; [|destruct (lt z x) eqn:E4].
    + unfold equiv. by rewrite (sw_trans _ _ _ E3 E2).
    + by apply IH.
    + assert (lt x y = true) as Hxy by (by apply (sw_le_lt lt x z y)). unfold equiv. by rewrite Hxy.
  - destruct (lt x z) eqn:E3; [|destruct (lt z x) eqn:E4].
    + unfold equiv. rewrite (sw_lt_le lt x z y E3 E1). done.
    + unfold equiv. rewrite (sw_le_lt lt y z x E2 E4). by rewrite andb_false_r.
    + destruct (equiv x y); done.
Qed.

Lemma get_del x y l : sorted l -> get x (del y l) = if equiv x y then None else get x l.
Proof.
  induction l as [|z l IH]; cbn; intros Hs; [by destruct (equiv x y)|].
  pose proof Hs as [Hz Hl]%sorted_cons. destruct (lt y z) eqn:E1; [|destruct (lt z y) eqn:E2]; cbn.
  - destruct (equiv x y) eqn:E; [|done]. by rewrite (equiv_lt_l x y z E), E1.
  - destruct (lt x z) eqn:E3; [|destruct (lt z x) eqn:E4].
    + by destruct (equiv x y).
    + by apply IH.
    + destruct (equiv x y) eqn:E; [|done]. rewrite (equiv_lt_r x y z E) in E4. congruence.
  - assert (equiv y z = true) as Hyz by (by apply equiv_spec).
    destruct (equiv x y) eqn:E.
    + assert (lt x z = false /\ lt z x = false) as [Hxz Hzx].
      { rewrite (equiv_lt_l x y z E), (equiv_lt_r x y z E). done. }
      destruct l as [|w l]; [done|]. cbn.
      by rewrite (sw_le_lt lt x z w Hzx (Hz w (list_elem_of_here w l))).
    + destruct (lt x z) eqn:E3; [by eapply get_below|].
      destruct (lt z x) eqn:E4; [done|]. exfalso. revert E. unfold equiv.
      by rewrite (equiv_lt_r y z x Hyz), (equiv_lt_l y z x Hyz), E3, E4.
Qed.

Lemma length_ins x l : sorted l -> length (ins x l) = if get x l is Some _ then length l else S (length l).
Proof.
  induction l as [|y l IH]; cbn; intros Hs; [done|]. pose proof Hs as [_ Hl]%sorted_cons.
  destruct (lt x y); [done|]. destruct (lt y x); [|done]. cbn. rewrite IH by done. by destruct (get x l).
Qed.

Lemma length_del x l : sorted l -> length (del x l) = if get x l is Some _ then length l - 1 else length l.
Proof.
  induction l as [|y l IH]; cbn; intros Hs; [done|]. pose proof Hs as [_ Hl]%sorted_cons.
  destruct (lt x y); [done|]. destruct (lt y x); [|lia]. cbn. rewrite IH by done.
  destruct (get x l) eqn:E; [|done]. apply get_Some in E as [Hin _]; [|done].
  destruct l; [set_solver|]. cbn. lia.
Qed.

Lemma ins_found x l : sorted l -> is_Some (get x l) -> ins x l = l.
Proof.
  induction l as [|y l IH]; cbn; intros Hs; [by intros []|]. pose proof Hs as [_ Hl]%sorted_cons.
  destruct (lt x y); [by intros []|]. destruct (lt y x); [|done]. intros. by rewrite IH.
Qed.

Lemma del_missing x l : sorted l -> get x l = None -> del x l = l.
Proof.
  induction l as [|y l IH]; cbn; intros Hs; [done|]. pose proof Hs as [_ Hl]%sorted_cons.
  destruct (lt x y); [done|]. destruct (lt y x); [|done]. intros. by rewrite IH.
Qed.
End sorted_list.
