(* ===== verification/SearchTree.v ===== *)
(** * Binary search trees

    Models [tree/node/TreeNode.hpp], [tree/core/TreeToolkit.hpp],
    [tree/core/BSTBase.hpp] and [tree/core/BinarySearchTree.hpp].  The CRTP hooks
    [postInsert] and [postRemove] are an interface, the class [BSTHooks]; what a
    derived tree owes its base class is [BSTHooksLaws], against which the base
    class is verified once for every derived tree.  Subtrees are owned
    ([std::unique_ptr]) and moved, so they are values here. *)

From S2P Require Import Prelude SortedList.

Section tree_node.
Context {T : Type} (lt : T -> T -> bool).

(** [TreeNode<T>]; a null pointer is [Leaf]. *)
Inductive tree :=
| Leaf
| Node (left_ : tree) (data : T) (right_ : tree) (height_ : Z).

Implicit Types (t l r node : tree) (x d value : T) (h : Z).

Definition new_node value : tree := Node Leaf value Leaf 1.

Definition is_null node : bool := match node with Leaf => true | _ => false end.

Fixpoint findMin node : option T :=
  match node with
  | Leaf => None
  | Node Leaf d _ _ => Some d
  | Node l _ _ _ => findMin l
  end.

Fixpoint findNode node value : option T :=
  match node with
  | Leaf => None
  | Node l d r _ =>
    if equiv lt value d then Some d
    else if lt value d then findNode l value else findNode r value
  end.

(** [TreeToolkit::height] (edges, -1 for null) and [TreeToolkit::size]. *)
Fixpoint height node : Z :=
  match node with
  | Leaf => -1
  | Node l _ r _ => 1 + Z.max (height l) (height r)
  end.

Fixpoint size node : nat :=
  match node with
  | Leaf => 0
  | Node l _ r _ => 1 + size l + size r
  end.

Fixpoint inorder node : list T :=
  match node with
  | Leaf => []
  | Node l d r _ => inorder l ++ d :: inorder r
  end.
End tree_node.

Arguments tree : clear implicits.
Arguments Leaf {T}.
Arguments Node {T} left_ data right_ height_.

(** The hooks a derived class supplies. *)
Class BSTHooks (T : Type) := {
  postInsert : tree T -> T -> outcome (tree T);
  postRemove : tree T -> outcome (tree T);
}.

Section bst_base.
Context {T : Type} (lt : T -> T -> bool) `{!BSTHooks T}.
Implicit Types (t l r node : tree T) (x d value : T) (h : Z).

Fixpoint insertImpl node value : outcome (tree T) :=
  match node with
  | Leaf => Ret (new_node value)
  | Node l d r h =>
    if lt value d then l ← insertImpl l value; postInsert (Node l d r h) value
    else if lt d value then r ← insertImpl r value; postInsert (Node l d r h) value
    else Ret node
  end.

Fixpoint removeImpl node value : outcome (tree T) :=
  match node with
  | Leaf => Ret Leaf
  | Node l d r h =>
    if lt value d then l ← removeImpl l value; postRemove (Node l d r h)
    else if lt d value then r ← removeImpl r value; postRemove (Node l d r h)
    else match l, r with
    | Leaf, Leaf => Ret Leaf
    | Leaf, _ => Ret r
    | _, Leaf => Ret l
    | _, _ =>
      match findMin r with
      | None => Undef
      | Some d => r ← removeImpl r d; postRemove (Node l d r h)
      end
    end
  end.

Record BSTBase := mkBST { root_ : tree T }.

Definition insert (s : BSTBase) value : outcome BSTBase := mkBST <$> insertImpl (root_ s) value.
Definition remove (s : BSTBase) value : outcome BSTBase := mkBST <$> removeImpl (root_ s) value.
Definition find (s : BSTBase) value : bool := bool_decide (is_Some (findNode lt (root_ s) value)).
Definition findValue (s : BSTBase) value : option T := findNode lt (root_ s) value.
End bst_base.

(** ** What the base class relies on

    [inv] is the derived class's invariant of a subtree; [grew x t t'] relates a
    subtree before and after inserting [x] into it, [shrank t t'] before and
    after removing an element.  A hook receives a node with one updated child. *)
Class BSTHooksLaws {T} (lt : T -> T -> bool) `{!BSTHooks T} (inv : tree T -> Prop)
    (grew : T -> tree T -> tree T -> Prop) (shrank : tree T -> tree T -> Prop) : Prop := {
  inv_children : forall l d r h, inv (Node l d r h) -> inv l /\ inv r;
  inv_leaf : inv Leaf;
  grew_new : forall x, inv (new_node x) /\ grew x Leaf (new_node x);
  grew_same : forall x t, grew x t t;
  post_insert_left : forall l d r h l' x,
    inv (Node l d r h) -> inv l' -> grew x l l' -> lt x d = true ->
    sorted lt (inorder (Node l' d r h)) -> is_Some (get lt x (inorder l')) ->
    exists t', postInsert (Node l' d r h) x = Ret t' /\ inv t' /\ grew x (Node l d r h) t' /\
      inorder t' = inorder (Node l' d r h);
  post_insert_right : forall l d r h r' x,
    inv (Node l d r h) -> inv r' -> grew x r r' -> lt d x = true ->
    sorted lt (inorder (Node l d r' h)) -> is_Some (get lt x (inorder r')) ->
    exists t', postInsert (Node l d r' h) x = Ret t' /\ inv t' /\ grew x (Node l d r h) t' /\
      inorder t' = inorder (Node l d r' h);
  shrank_same : forall t, shrank t t;
  shrank_left : forall l d h, inv (Node l d Leaf h) -> shrank (Node l d Leaf h) l;
  shrank_right : forall d r h, inv (Node Leaf d r h) -> shrank (Node Leaf d r h) r;
  post_remove_left : forall l d r h l' d',
    inv (Node l d r h) -> inv l' -> shrank l l' ->
    exists t', postRemove (Node l' d' r h) = Ret t' /\ inv t' /\ shrank (Node l d r h) t' /\
      inorder t' = inorder (Node l' d' r h);
  post_remove_right : forall l d r h r' d',
    inv (Node l d r h) -> inv r' -> shrank r r' ->
    exists t', postRemove (Node l d' r' h) = Ret t' /\ inv t' /\ shrank (Node l d r h) t' /\
      inorder t' = inorder (Node l d' r' h);
}.

Section verified.
Context {T : Type} (lt : T -> T -> bool) `{!StrictWeak lt}.
Implicit Types (t l r node : tree T) (x d value : T) (h : Z).

Lemma findNode_get node value : sorted lt (inorder node) -> findNode lt node value = get lt value (inorder node).
Proof.
  induction node as [|l IHl d r IHr h]; [done|]. cbn [findNode inorder]. intros Hs.
  pose proof Hs as Hm. apply sorted_mid in Hm as (Hl & Hr & _). destruct (equiv lt value d) eqn:E.
  - by rewrite get_here.
  - unfold equiv in E. destruct (lt value d) eqn:E1; [by rewrite get_left, IHl|].
    destruct (lt d value) eqn:E2; [|done]. by rewrite get_right, IHr.
Qed.

Lemma findMin_first node : findMin node = head (inorder node).
Proof.
  induction node as [|l IHl d r IHr h]; [done|]. cbn [findMin inorder]. destruct l as [|ll ld lr lh]; [done|].
  rewrite IHl. cbn. by destruct (inorder ll).
Qed.

Lemma size_inorder node : size node = length (inorder node).
Proof. induction node as [|l IHl d r IHr h]; [done|]. cbn. rewrite length_app. cbn. lia. Qed.

Context `{!BSTHooks T} {inv : tree T -> Prop} {grew : T -> tree T -> tree T -> Prop}
  {shrank : tree T -> tree T -> Prop} `{!BSTHooksLaws lt inv grew shrank}.

Lemma insertImpl_ok node x :
  inv node -> sorted lt (inorder node) ->
  exists t', insertImpl lt node x = Ret t' /\ inv t' /\ grew x node t' /\ inorder t' = ins lt x (inorder node).
Proof.
  induction node as [|l IHl d r IHr h]; intros Hi Hs; cbn [insertImpl].
  { destruct (grew_new x) as [H1 H2]. eauto. }
  destruct (inv_children _ _ _ _ Hi) as [Hil Hir]. cbn [inorder] in Hs.
  pose proof (ins_sorted lt x _ Hs) as Hs'. pose proof Hs as (Hl & Hr & _)%sorted_mid.
  destruct (lt x d) eqn:E1; [|destruct (lt d x) eqn:E2].
  - destruct (IHl Hil Hl) as (l' & -> & Hi' & Hg & Ho). ret_step.
    rewrite (ins_left lt _ _ _ Hs x E1) in Hs'.
    destruct (post_insert_left l d r h l' x) as (t' & -> & Ht & Hg' & Ho'); try done; [cbn; by rewrite Ho| |].
    { rewrite Ho, get_ins by done. rewrite equiv_refl by done. eauto. }
    exists t'. split_and!; try done. rewrite Ho'. cbn. by rewrite Ho, ins_left.
  - destruct (IHr Hir Hr) as (r' & -> & Hi' & Hg & Ho). ret_step.
    rewrite (ins_right lt _ _ _ Hs x E2) in Hs'.
    destruct (post_insert_right l d r h r' x) as (t' & -> & Ht & Hg' & Ho'); try done; [cbn; by rewrite Ho| |].
    { rewrite Ho, get_ins by done. rewrite equiv_refl by done. eauto. }
    exists t'. split_and!; try done. rewrite Ho'. cbn. by rewrite Ho, ins_right.
  - exists (Node l d r h). split_and!; try done; [apply grew_same|]. cbn. by rewrite ins_here by (done || by apply equiv_spec).
Qed.

(** Removing the smallest element of a non-empty right subtree. *)
Lemma del_first m (xs : list T) : del lt m (m :: xs) = xs.
Proof. cbn. by rewrite (sw_irrefl (lt := lt)). Qed.

Lemma removeImpl_ok node x :
  inv node -> sorted lt (inorder node) ->
  exists t', removeImpl lt node x = Ret t' /\ inv t' /\ shrank node t' /\ inorder t' = del lt x (inorder node).
Proof.
  revert x. induction node as [|l IHl d r IHr h]; intros x Hi Hs; cbn [removeImpl].
  { exists Leaf. split_and!; try done. apply shrank_same. }
  destruct (inv_children _ _ _ _ Hi) as [Hil Hir]. cbn [inorder] in Hs. pose proof Hs as (Hl & Hr & _)%sorted_mid.
  destruct (lt x d) eqn:E1; [|destruct (lt d x) eqn:E2].
  - destruct (IHl x Hil Hl) as (l' & -> & Hi' & Hg & Ho). ret_step.
    destruct (post_remove_left l d r h l' d) as (t' & -> & Ht & Hg' & Ho'); try done.
    exists t'. split_and!; try done. rewrite Ho'. cbn. by rewrite Ho, del_left.
  - destruct (IHr x Hir Hr) as (r' & -> & Hi' & Hg & Ho). ret_step.
    destruct (post_remove_right l d r h r' d) as (t' & -> & Ht & Hg' & Ho'); try done.
    exists t'. split_and!; try done. rewrite Ho'. cbn. by rewrite Ho, del_right.
  - cbn [inorder]. rewrite del_here by (done || by apply equiv_spec).
    destruct (is_null l) eqn:Enl; [destruct l; [|done]|destruct (is_null r) eqn:Enr; [destruct r; [|done]|]].
    + exists r. split_and!; try done; [by destruct r|by apply shrank_right].
    + exists l. split_and!; try done; [by destruct l|by apply shrank_left|]. cbn. by rewrite app_nil_r.
    + replace (match l, r with Leaf, Leaf => Ret Leaf | Leaf, _ => Ret r | _, Leaf => Ret l | _, _ =>
          match findMin r with None => Undef | Some d => r ← removeImpl lt r d; postRemove (Node l d r h) end end)
        with (match findMin r with None => Undef | Some d => r ← removeImpl lt r d; postRemove (Node l d r h) end)
        by (by destruct l, r).
      rewrite findMin_first. destruct (inorder r) as [|m rest] eqn:Er.
      { destruct r as [|rl rd rr rh]; [done|]. cbn in Er. by destruct (inorder rl). }
      cbn [head]. destruct (IHr m Hir Hr) as (r' & -> & Hi' & Hg & Ho). ret_step. rewrite del_first in Ho.
      destruct (post_remove_right l d r h r' m) as (t' & -> & Ht & Hg' & Ho'); try done.
      exists t'. split_and!; try done. rewrite Ho'. cbn. by rewrite Ho.
Qed.
End verified.

(** ** The plain tree: hooks that return the node *)
Module BinarySearchTree.

#[export] Instance hooks {T} : BSTHooks T := {
  postInsert node _ := Ret node;
  postRemove node := Ret node;
}.

#[export] Instance laws {T} (lt : T -> T -> bool) :
  BSTHooksLaws lt (fun _ => True) (fun _ _ _ => True) (fun _ _ => True).
Proof. split; eauto 10. Qed.

End BinarySearchTree.

Section properties.
Context {T : Type} (lt : T -> T -> bool) `{!StrictWeak lt} `{!BSTHooks T} {inv : tree T -> Prop}
  {grew : T -> tree T -> tree T -> Prop} {shrank : tree T -> tree T -> Prop} `{!BSTHooksLaws lt inv grew shrank}.

Definition bst_rep (s : BSTBase (T := T)) (l : list T) : Prop :=
  inv (root_ s) /\ inorder (root_ s) = l /\ sorted lt l.

(** C2: for every derived tree whose hooks satisfy the interface, [insert] and
    [remove] succeed, keep the derived class's invariant and the order, and
    insert or remove exactly the element equivalent to the argument; [findValue]
    returns that element. *)
Theorem bst_operations_spec s l x :
  bst_rep s l ->
  (exists s', insert lt s x = Ret s' /\ bst_rep s' (ins lt x l)) /\
  (exists s', remove lt s x = Ret s' /\ bst_rep s' (del lt x l)) /\
  findValue lt s x = get lt x l /\ find lt s x = bool_decide (is_Some (get lt x l)).
Proof.
  intros (Hi & Ho & Hs). rewrite <- Ho in Hs. split_and!.
  - destruct (insertImpl_ok lt _ x Hi Hs) as (t' & E & Hi' & _ & Ho'). exists (mkBST t').
    unfold insert. rewrite E. split; [done|]. split_and!; [done|by rewrite <- Ho|]. rewrite <- Ho. by apply ins_sorted.
  - destruct (removeImpl_ok lt _ x Hi Hs) as (t' & E & Hi' & _ & Ho'). exists (mkBST t').
    unfold remove. rewrite E. split; [done|]. split_and!; [done|by rewrite <- Ho|]. rewrite <- Ho. by apply del_sorted.
  - unfold findValue. by rewrite findNode_get, Ho by done.
  - unfold find. by rewrite findNode_get, Ho by done.
Qed.
End properties.

Section search_tree_witnesses.
Import BinarySearchTree.

#[local] Definition t3 : BSTBase := mkBST (Node (new_node 2) 5 (new_node 7) 1).

Lemma bst_operations_witness :
  exists s', remove Nat.ltb t3 5 = Ret s' /\ inorder (root_ s') = [2; 7].
Proof.
  destruct (bst_operations_spec Nat.ltb t3 [2; 5; 7] 5) as (_ & (s' & H1 & H2) & _).
  { split; [exact I|]. split; [reflexivity|]. repeat constructor. }
  exists s'. split; [exact H1|]. apply H2.
Defined.

End search_tree_witnesses.
