(* ===== verification/AVLTree.v ===== *)
(** * AVL trees

    Models [tree/balanced/AVLTree.hpp]: the hooks that restore balance after an
    insertion or a removal, from the heights cached in the nodes.  Heights are
    [int32_t]s; a tree that fits in memory is far lower than [2^31]. *)

From S2P Require Import Prelude SortedList SearchTree.

Section avl.
Context {T : Type} (lt : T -> T -> bool).
Implicit Types (t l r node : tree T) (x d value : T) (h : Z).

(** ** Operations *)

Definition getHeight node : Z := match node with Leaf => 0 | Node _ _ _ h => h end.

Definition getBalance node : Z :=
  match node with Leaf => 0 | Node l _ r _ => getHeight l - getHeight r end.

(** A node with its height recomputed. *)
Definition mk l d r : tree T := Node l d r (1 + Z.max (getHeight l) (getHeight r)).

Definition rotateRight (y : tree T) : outcome (tree T) :=
  match y with
  | Node (Node a x T2 _) d r _ => Ret (mk a x (mk T2 d r))
  | _ => Undef
  end.

Definition rotateLeft (x : tree T) : outcome (tree T) :=
  match x with
  | Node l d (Node T2 y b _) _ => Ret (mk (mk l d T2) y b)
  | _ => Undef
  end.

(** [value < node->data] and [value > node->data] through a child pointer. *)
Definition below value node : outcome bool :=
  match node with Leaf => Undef | Node _ d _ _ => Ret (lt value d) end.
Definition above value node : outcome bool :=
  match node with Leaf => Undef | Node _ d _ _ => Ret (lt d value) end.

(** [a && b]: the second operand is evaluated only when the first is true. *)
Definition and_then (a : bool) (b : outcome bool) : outcome bool := if a then b else Ret false.

Definition avl_postInsert node value : outcome (tree T) :=
  match node with
  | Leaf => Undef
  | Node l d r _ =>
    let node := mk l d r in
    let balance := getBalance node in
    c ← and_then (1 <? balance)%Z (below value l);
    if (c : bool) then rotateRight node else
    c ← and_then (balance <? -1)%Z (above value r);
    if (c : bool) then rotateLeft node else
    c ← and_then (1 <? balance)%Z (above value l);
    if (c : bool) then l ← rotateLeft l; rotateRight (Node l d r (getHeight node)) else
    c ← and_then (balance <? -1)%Z (below value r);
    if (c : bool) then r ← rotateRight r; rotateLeft (Node l d r (getHeight node)) else
    Ret node
  end.

Definition avl_postRemove node : outcome (tree T) :=
  match node with
  | Leaf => Ret Leaf
  | Node l d r _ =>
    let node := mk l d r in
    let balance := getBalance node in
    if (1 <? balance)%Z then
      if (0 <=? getBalance l)%Z then rotateRight node
      else l ← rotateLeft l; rotateRight (Node l d r (getHeight node))
    else if (balance <? -1)%Z then
      if (getBalance r <=? 0)%Z then rotateLeft node
      else r ← rotateRight r; rotateLeft (Node l d r (getHeight node))
    else Ret node
  end.

Definition avl_hooks : BSTHooks T := {|
  postInsert := avl_postInsert;
  postRemove := avl_postRemove;
|}.

(** ** Invariant: cached heights are right and siblings differ by at most one *)
Fixpoint avl node : Prop :=
  match node with
  | Leaf => True
  | Node l _ r h =>
    avl l /\ avl r /\ h = (1 + Z.max (getHeight l) (getHeight r))%Z /\
    (-1 <= getHeight l - getHeight r <= 1)%Z
  end.

(** What insertion does to a subtree: it keeps the height, or raises it by one
    and is then heavier on the side the value went to. *)
Definition avl_grew (x : T) t t' : Prop :=
  getHeight t' = getHeight t \/
  (getHeight t' = (getHeight t + 1)%Z /\
   match t' with
   | Leaf => False
   | Node l d r _ => t = Leaf \/
       (lt x d = true /\ getHeight l = (getHeight r + 1)%Z) \/
       (lt d x = true /\ getHeight r = (getHeight l + 1)%Z)
   end).

Definition avl_shrank t t' : Prop :=
  getHeight t' = getHeight t \/ getHeight t' = (getHeight t - 1)%Z.

(** ** Lemmas *)

Lemma avl_height_nonneg t : avl t -> (0 <= getHeight t)%Z.
Proof. induction t as [|l IHl d r IHr h]; cbn; [lia|]. intros (Hl & Hr & -> & _). specialize (IHl Hl). lia. Qed.

Lemma avl_mk l d r : avl l -> avl r -> (-1 <= getHeight l - getHeight r <= 1)%Z -> avl (mk l d r).
Proof. intros. cbn. split_and!; done || lia. Qed.

(** Destructuring a subtree high enough to be a node. *)
Lemma avl_node t : avl t -> (0 < getHeight t)%Z -> exists l d r,
  t = mk l d r /\ avl l /\ avl r /\ (-1 <= getHeight l - getHeight r <= 1)%Z /\ (0 <= getHeight l)%Z /\ (0 <= getHeight r)%Z.
Proof.
  destruct t as [|l d r h]; cbn; [lia|]. intros (Hl & Hr & -> & Hb) _. exists l, d, r.
  pose proof (avl_height_nonneg l Hl); pose proof (avl_height_nonneg r Hr). split_and!; done || lia.
Qed.

Lemma inorder_mk l d r : inorder (mk l d r) = inorder l ++ d :: inorder r.
Proof. done. Qed.

Lemma getHeight_mk l d r : getHeight (mk l d r) = (1 + Z.max (getHeight l) (getHeight r))%Z.
Proof. done. Qed.
End avl.

(** Case analysis on the boolean tests of the hooks, and arithmetic on heights. *)
Ltac avl_arith := cbn [getHeight getBalance mk] in *; rewrite ?getHeight_mk in *; lia.

Section avl_laws.
Context {T : Type} (lt : T -> T -> bool) `{!StrictWeak lt}.
Implicit Types (t l r node : tree T) (x d value : T) (h : Z).

#[local] Existing Instance avl_hooks.

(** The left subtree is two higher than the right one. *)
Lemma rotate_left_heavy l d r :
  avl l -> avl r -> getHeight l = (getHeight r + 2)%Z ->
  exists ll ld lr, l = mk ll ld lr /\ avl ll /\ avl lr /\ (0 <= getHeight ll)%Z /\ (0 <= getHeight lr)%Z /\
    (getHeight lr <= getHeight ll <= getHeight lr + 1 ->
      exists t', rotateRight (mk l d r) = Ret t' /\ avl t' /\ inorder t' = inorder (mk l d r) /\
        getHeight t' = getHeight r + 2 + (if decide (getHeight ll = getHeight lr) then 1 else 0))%Z /\
    (getHeight lr = getHeight ll + 1 ->
      exists l' t', rotateLeft l = Ret l' /\ (forall h, rotateRight (Node l' d r h) = Ret t') /\ avl t' /\
        inorder t' = inorder (mk l d r) /\ getHeight t' = getHeight r + 2)%Z.
Proof.
  intros Hl Hr Hh. pose proof (avl_height_nonneg r Hr).
  destruct (avl_node l Hl ltac:(lia)) as (ll & ld & lr & -> & Hll & Hlr & Hb & Hp1 & Hp2).
  exists ll, ld, lr. rewrite getHeight_mk in Hh. split_and!; try done.
  - intros Hc. eexists. split; [done|]. split_and!.
    + apply avl_mk; [done|apply avl_mk; [done|done|lia]|avl_arith].
    + by rewrite !inorder_mk, <- app_assoc.
    + avl_arith || (rewrite !getHeight_mk; case_decide; lia).
  - intros Hc. destruct (avl_node lr Hlr ltac:(lia)) as (a & m & b & -> & Ha & Hbb & Hab & Hp3 & Hp4).
    rewrite getHeight_mk in *. eexists _, _. split; [done|]. split_and!; [by intros h| | |].
    + apply avl_mk; [apply avl_mk|apply avl_mk|]; try done; avl_arith.
    + rewrite !inorder_mk, <- !app_assoc. cbn. by rewrite <- app_assoc.
    + rewrite !getHeight_mk. lia.
Qed.

(** The mirror image. *)
Lemma rotate_right_heavy l d r :
  avl l -> avl r -> getHeight r = (getHeight l + 2)%Z ->
  exists rl rd rr, r = mk rl rd rr /\ avl rl /\ avl rr /\ (0 <= getHeight rl)%Z /\ (0 <= getHeight rr)%Z /\
    (getHeight rl <= getHeight rr <= getHeight rl + 1 ->
      exists t', rotateLeft (mk l d r) = Ret t' /\ avl t' /\ inorder t' = inorder (mk l d r) /\
        getHeight t' = getHeight l + 2 + (if decide (getHeight rl = getHeight rr) then 1 else 0))%Z /\
    (getHeight rl = getHeight rr + 1 ->
      exists r' t', rotateRight r = Ret r' /\ (forall h, rotateLeft (Node l d r' h) = Ret t') /\ avl t' /\
        inorder t' = inorder (mk l d r) /\ getHeight t' = getHeight l + 2)%Z.
Proof.
  intros Hl Hr Hh. pose proof (avl_height_nonneg l Hl).
  destruct (avl_node r Hr ltac:(lia)) as (rl & rd & rr & -> & Hrl & Hrr & Hb & Hp1 & Hp2).
  exists rl, rd, rr. rewrite getHeight_mk in Hh. split_and!; try done.
  - intros Hc. eexists. split; [done|]. split_and!.
    + apply avl_mk; [apply avl_mk; [done|done|lia]|done|avl_arith].
    + rewrite !inorder_mk, <- app_assoc. done.
    + rewrite !getHeight_mk. case_decide; lia.
  - intros Hc. destruct (avl_node rl Hrl ltac:(lia)) as (a & m & b & -> & Ha & Hbb & Hab & Hp3 & Hp4).
    rewrite getHeight_mk in *. eexists _, _. split; [done|]. split_and!; [by intros h| | |].
    + apply avl_mk; [apply avl_mk|apply avl_mk|]; try done; avl_arith.
    + rewrite !inorder_mk, <- !app_assoc. done.
    + rewrite !getHeight_mk. lia.
Qed.

(** Without a height difference of two the hooks only refresh the height. *)
Lemma postInsert_balanced l d r h x :
  (-1 <= getHeight l - getHeight r <= 1)%Z -> avl_postInsert lt (Node l d r h) x = Ret (mk l d r).
Proof.
  intros Hb. cbn [avl_postInsert getBalance mk].
  assert ((1 <? getHeight l - getHeight r)%Z = false) as -> by lia.
  assert ((getHeight l - getHeight r <? -1)%Z = false) as -> by lia. done.
Qed.

Lemma postRemove_balanced l d r h :
  (-1 <= getHeight l - getHeight r <= 1)%Z -> avl_postRemove (Node l d r h) = Ret (mk l d r).
Proof.
  intros Hb. cbn [avl_postRemove getBalance mk].
  assert ((1 <? getHeight l - getHeight r)%Z = false) as -> by lia.
  assert ((getHeight l - getHeight r <? -1)%Z = false) as -> by lia. done.
Qed.

Lemma avl_insert_left l d r h l' x :
  avl (Node l d r h) -> avl l' -> avl_grew lt x l l' -> lt x d = true ->
  exists t', avl_postInsert lt (Node l' d r h) x = Ret t' /\ avl t' /\ avl_grew lt x (Node l d r h) t' /\
    inorder t' = inorder (Node l' d r h).
Proof.
  intros (Hl & Hr & -> & Hb) Hl' Hg Hx. pose proof (avl_height_nonneg l Hl). pose proof (avl_height_nonneg r Hr).
  destruct (decide (getHeight l' - getHeight r <= 1)%Z) as [Hbal|Hbal].
  - assert (-1 <= getHeight l' - getHeight r <= 1)%Z by (destruct Hg as [?|[? _]]; lia).
    rewrite postInsert_balanced by done. eexists. split; [done|]. split; [by apply avl_mk|]. split; [|done].
    unfold avl_grew. rewrite getHeight_mk. cbn [getHeight mk].
    destruct (decide (getHeight l' = getHeight r + 1)%Z) as [Hup|];
      [destruct (decide (getHeight l = getHeight r))|]; [right; split; [lia|right; left; split; [done|lia]]|left..];
      destruct Hg as [?|[? _]]; lia.
  - destruct Hg as [?|[Hup Hside]]; [lia|].
    destruct (rotate_left_heavy l' d r Hl' Hr ltac:(lia)) as (ll & ld & lr & -> & Hll & Hlr & Hp1 & Hp2 & Hone & Htwo).
    cbn [avl_postInsert getBalance mk]. assert ((1 <? getHeight (mk ll ld lr) - getHeight r)%Z = true) as Et by lia.
    assert ((getHeight (mk ll ld lr) - getHeight r <? -1)%Z = false) as Ef by lia.
    change (Node ll ld lr (1 + Z.max (getHeight ll) (getHeight lr))) with (mk ll ld lr).
    change (Node (mk ll ld lr) d r (1 + Z.max (getHeight (mk ll ld lr)) (getHeight r))) with (mk (mk ll ld lr) d r).
    rewrite Et, Ef. cbn [and_then below above mk]. change (Node ll ld lr _) with (mk ll ld lr).
    destruct Hside as [->|[[Hlt Hh]|[Hlt Hh]]]; [cbn in *; lia| |].
    + rewrite Hlt. ret_step. destruct Hone as (t' & E & Ht' & Ho & Hh'); [lia|].
      exists t'. split_and!; try done. left. rewrite decide_False in Hh' by lia. rewrite Hh'. cbn [getHeight]. lia.
    + rewrite Hlt, (sw_asym lt _ _ Hlt). do 3 ret_step.
      destruct Htwo as (l2 & t' & E2 & E & Ht' & Ho & Hh'); [lia|]. rewrite E2. ret_step.
      exists t'. split_and!; try done. left. rewrite Hh'. cbn [getHeight]. lia.
Qed.

Lemma avl_insert_right l d r h r' x :
  avl (Node l d r h) -> avl r' -> avl_grew lt x r r' -> lt d x = true ->
  exists t', avl_postInsert lt (Node l d r' h) x = Ret t' /\ avl t' /\ avl_grew lt x (Node l d r h) t' /\
    inorder t' = inorder (Node l d r' h).
Proof.
  intros (Hl & Hr & -> & Hb) Hr' Hg Hx. pose proof (avl_height_nonneg l Hl). pose proof (avl_height_nonneg r Hr).
  destruct (decide (getHeight r' - getHeight l <= 1)%Z) as [Hbal|Hbal].
  - assert (-1 <= getHeight l - getHeight r' <= 1)%Z by (destruct Hg as [?|[? _]]; lia).
    rewrite postInsert_balanced by done. eexists. split; [done|]. split; [by apply avl_mk|]. split; [|done].
    unfold avl_grew. rewrite getHeight_mk. cbn [getHeight mk].
    destruct (decide (getHeight r' = getHeight l + 1)%Z) as [Hup|];
      [destruct (decide (getHeight r = getHeight l))|]; [right; split; [lia|right; right; split; [done|lia]]|left..];
      destruct Hg as [?|[? _]]; lia.
  - destruct Hg as [?|[Hup Hside]]; [lia|].
    destruct (rotate_right_heavy l d r' Hl Hr' ltac:(lia)) as (rl & rd & rr & -> & Hrl & Hrr & Hp1 & Hp2 & Hone & Htwo).
    cbn [avl_postInsert getBalance mk].
    assert ((1 <? getHeight l - getHeight (mk rl rd rr))%Z = false) as Ef by lia.
    assert ((getHeight l - getHeight (mk rl rd rr) <? -1)%Z = true) as Et by lia.
    change (Node rl rd rr (1 + Z.max (getHeight rl) (getHeight rr))) with (mk rl rd rr).
    change (Node l d (mk rl rd rr) (1 + Z.max (getHeight l) (getHeight (mk rl rd rr)))) with (mk l d (mk rl rd rr)).
    rewrite Et, Ef. cbn [and_then below above mk]. change (Node rl rd rr _) with (mk rl rd rr). ret_step.
    destruct Hside as [->|[[Hlt Hh]|[Hlt Hh]]]; [cbn in *; lia| |].
    + rewrite Hlt, (sw_asym lt _ _ Hlt). do 3 ret_step.
      destruct Htwo as (r2 & t' & E2 & E & Ht' & Ho & Hh'); [lia|]. rewrite E2. ret_step.
      exists t'. split_and!; try done. left. rewrite Hh'. cbn [getHeight]. lia.
    + rewrite Hlt. ret_step. destruct Hone as (t' & E & Ht' & Ho & Hh'); [lia|].
      exists t'. split_and!; try done. left. rewrite decide_False in Hh' by lia. rewrite Hh'. cbn [getHeight]. lia.
Qed.

Lemma avl_remove_left l d r h l' d' :
  avl (Node l d r h) -> avl l' -> avl_shrank l l' ->
  exists t', avl_postRemove (Node l' d' r h) = Ret t' /\ avl t' /\ avl_shrank (Node l d r h) t' /\
    inorder t' = inorder (Node l' d' r h).
Proof.
  intros (Hl & Hr & -> & Hb) Hl' Hs. pose proof (avl_height_nonneg l Hl). pose proof (avl_height_nonneg r Hr).
  unfold avl_shrank in *. destruct (decide (getHeight r - getHeight l' <= 1)%Z) as [Hbal|Hbal].
  - rewrite postRemove_balanced by lia. eexists. split; [done|]. split; [apply avl_mk; done || lia|]. split; [|done].
    rewrite getHeight_mk. cbn [getHeight]. lia.
  - destruct (rotate_right_heavy l' d' r Hl' Hr ltac:(lia)) as (rl & rd & rr & -> & Hrl & Hrr & Hp1 & Hp2 & Hone & Htwo).
    cbn [avl_postRemove getBalance mk].
    assert ((1 <? getHeight l' - getHeight (mk rl rd rr))%Z = false) as Ef by lia.
    assert ((getHeight l' - getHeight (mk rl rd rr) <? -1)%Z = true) as Et by lia.
    change (Node rl rd rr (1 + Z.max (getHeight rl) (getHeight rr))) with (mk rl rd rr).
    change (Node l' d' (mk rl rd rr) (1 + Z.max (getHeight l') (getHeight (mk rl rd rr)))) with (mk l' d' (mk rl rd rr)).
    rewrite Et, Ef. pose proof Hr as (_ & _ & _ & Hbr). destruct (getHeight rl - getHeight rr <=? 0)%Z eqn:E1.
    + destruct Hone as (t' & E & Ht' & Ho & Hh'); [lia|]. exists t'. split_and!; try done.
      rewrite Hh'. cbn [getHeight] in *. case_decide; lia.
    + destruct Htwo as (r2 & t' & E2 & E & Ht' & Ho & Hh'); [lia|]. rewrite E2. ret_step.
      exists t'. split_and!; try done. rewrite Hh'. cbn [getHeight] in *. lia.
Qed.

Lemma avl_remove_right l d r h r' d' :
  avl (Node l d r h) -> avl r' -> avl_shrank r r' ->
  exists t', avl_postRemove (Node l d' r' h) = Ret t' /\ avl t' /\ avl_shrank (Node l d r h) t' /\
    inorder t' = inorder (Node l d' r' h).
Proof.
  intros (Hl & Hr & -> & Hb) Hr' Hs. pose proof (avl_height_nonneg l Hl). pose proof (avl_height_nonneg r Hr).
  unfold avl_shrank in *. destruct (decide (getHeight l - getHeight r' <= 1)%Z) as [Hbal|Hbal].
  - rewrite postRemove_balanced by lia. eexists. split; [done|]. split; [apply avl_mk; done || lia|]. split; [|done].
    rewrite getHeight_mk. cbn [getHeight]. lia.
  - destruct (rotate_left_heavy l d' r' Hl Hr' ltac:(lia)) as (ll & ld & lr & -> & Hll & Hlr & Hp1 & Hp2 & Hone & Htwo).
    cbn [avl_postRemove getBalance mk].
    assert ((1 <? getHeight (mk ll ld lr) - getHeight r')%Z = true) as Et by lia.
    change (Node ll ld lr (1 + Z.max (getHeight ll) (getHeight lr))) with (mk ll ld lr).
    change (Node (mk ll ld lr) d' r' (1 + Z.max (getHeight (mk ll ld lr)) (getHeight r'))) with (mk (mk ll ld lr) d' r').
    rewrite Et. pose proof Hl as (_ & _ & _ & Hbl). destruct (0 <=? getHeight ll - getHeight lr)%Z eqn:E1.
    + destruct Hone as (t' & E & Ht' & Ho & Hh'); [lia|]. exists t'. split_and!; try done.
      rewrite Hh'. cbn [getHeight] in *. case_decide; lia.
    + destruct Htwo as (l2 & t' & E2 & E & Ht' & Ho & Hh'); [lia|]. rewrite E2. ret_step.
      exists t'. split_and!; try done. rewrite Hh'. cbn [getHeight] in *. lia.
Qed.

(** The AVL hooks satisfy what the base class relies on. *)
#[export] Instance avl_hooks_laws : BSTHooksLaws (BSTHooks0 := avl_hooks lt) lt avl (avl_grew lt) avl_shrank.
Proof.
  split; cbn [postInsert postRemove avl_hooks].
  - by intros l d r h (? & ? & _).
  - done.
  - intros x. split; [cbn; lia|]. right. split; [done|]. by left.
  - intros x t. by left.
  - intros. by apply avl_insert_left with (l := l).
  - intros. by apply avl_insert_right with (r := r).
  - intros t. by left.
  - intros l d h (Hl & _ & -> & Hb). pose proof (avl_height_nonneg l Hl). unfold avl_shrank. cbn in *. lia.
  - intros d r h (_ & Hr & -> & Hb). pose proof (avl_height_nonneg r Hr). unfold avl_shrank. cbn in *. lia.
  - intros. by apply avl_remove_left with (l := l) (d := d).
  - intros. by apply avl_remove_right with (r := r) (d := d).
Qed.

(** An AVL tree of cached height [h] has at least [fib] many nodes: each two
    levels double the size. *)
Lemma avl_size t : avl t -> (2 ^ (getHeight t / 2) <= Z.of_nat (size t) + 1)%Z.
Proof.
  assert (forall n t, avl t -> (getHeight t <= n)%Z -> (0 <= n)%Z ->
    (2 ^ (getHeight t / 2) <= Z.of_nat (size t) + 1)%Z) as H.
  { intros n t0 Ht Hn Hpos. revert t0 Ht Hn. induction n as [n IH] using (well_founded_induction (Z.lt_wf 0)).
    intros [|l d r h] Ht Hn; [by vm_compute|]. pose proof Ht as (Hl & Hr & Hh & Hb). cbn [getHeight size] in *.
    pose proof (avl_height_nonneg l Hl). pose proof (avl_height_nonneg r Hr).
    destruct (decide (h <= 1)%Z).
    { assert (h = 1)%Z as -> by lia. change (2 ^ (1 / 2))%Z with 1%Z. lia. }
    assert (2 ^ ((h - 2) / 2) <= Z.of_nat (size l) + 1)%Z as H1.
    { etransitivity; [|apply (IH (n - 1)%Z); [lia|lia|done|lia]]. apply Z.pow_le_mono_r; [lia|].
      apply Z.div_le_mono; lia. }
    assert (2 ^ ((h - 2) / 2) <= Z.of_nat (size r) + 1)%Z as H2.
    { etransitivity; [|apply (IH (n - 1)%Z); [lia|lia|done|lia]]. apply Z.pow_le_mono_r; [lia|].
      apply Z.div_le_mono; lia. }
    replace (h / 2)%Z with (Z.succ ((h - 2) / 2)) by (replace h with (h - 2 + 1 * 2)%Z at 2 by lia; rewrite Z.div_add; lia).
    rewrite Z.pow_succ_r by (apply Z.div_pos; lia). lia. }
  intros Ht. apply (H (getHeight t)); [done|lia|by apply avl_height_nonneg].
Qed.

(** The cached height is the number of levels ([TreeToolkit::height] counts edges). *)
Lemma avl_levels t : avl t -> getHeight t = (height t + 1)%Z.
Proof.
  induction t as [|l IHl d r IHr h]; [done|]. intros (Hl & Hr & -> & _). cbn.
  rewrite (IHl Hl), (IHr Hr). lia.
Qed.

(** ** Programs on a tree *)
Inductive avl_op := AInsert (x : T) | ARemove (x : T).

Definition avl_step (s : BSTBase (T := T)) (o : avl_op) : outcome BSTBase :=
  match o with
  | AInsert x => insert (BSTHooks0 := avl_hooks lt) lt s x
  | ARemove x => remove (BSTHooks0 := avl_hooks lt) lt s x
  end.

Fixpoint avl_run (s : BSTBase (T := T)) (ops : list avl_op) : outcome BSTBase :=
  match ops with [] => Ret s | o :: ops => s ← avl_step s o; avl_run s ops end.

Definition avl_spec (l : list T) (o : avl_op) : list T :=
  match o with AInsert x => ins lt x l | ARemove x => del lt x l end.

Lemma avl_run_ok ops : forall s,
  avl (root_ s) -> sorted lt (inorder (root_ s)) ->
  exists s', avl_run s ops = Ret s' /\ avl (root_ s') /\ inorder (root_ s') = foldl avl_spec (inorder (root_ s)) ops.
Proof.
  induction ops as [|o ops IH]; intros s Ha Hs; cbn [avl_run foldl]; [eauto|].
  assert (exists s1, avl_step s o = Ret s1 /\ avl (root_ s1) /\ inorder (root_ s1) = avl_spec (inorder (root_ s)) o)
    as (s1 & -> & Ha1 & Ho1).
  { destruct o as [x|x]; cbn [avl_step avl_spec].
    - destruct (insertImpl_ok (BSTHooks0 := avl_hooks lt) lt (root_ s) x Ha Hs) as (t' & E & Ht & _ & Ho).
      exists (mkBST t'). unfold insert. by rewrite E.
    - destruct (removeImpl_ok (BSTHooks0 := avl_hooks lt) lt (root_ s) x Ha Hs) as (t' & E & Ht & _ & Ho).
      exists (mkBST t'). unfold remove. by rewrite E. }
  ret_step. rewrite <- Ho1. apply IH; [done|]. rewrite Ho1. destruct o; cbn; [by apply ins_sorted|by apply del_sorted].
Qed.

(** C1: from the empty AVL tree, every sequence of insertions and removals
    succeeds - no rotation meets a null child -, leaves exactly the elements the
    sequence says in order, and the height stays logarithmic: a tree of [n]
    elements has height [h] with [2^((h+1)/2) <= n + 1]. *)
Theorem avl_balanced ops :
  exists s, avl_run (mkBST Leaf) ops = Ret s /\
    inorder (root_ s) = foldl avl_spec [] ops /\ sorted lt (inorder (root_ s)) /\
    (2 ^ ((height (root_ s) + 1) / 2) <= Z.of_nat (size (root_ s)) + 1)%Z.
Proof.
  destruct (avl_run_ok ops (mkBST Leaf)) as (s & E & Ha & Ho); [done|constructor|].
  exists s. split; [done|]. split; [done|]. split.
  - rewrite Ho. cbn [root_ inorder]. assert (sorted lt []) as Hs by constructor. revert Hs. generalize (@nil T).
    induction ops as [|o ops IH] in |- *; intros l Hl; cbn [foldl]; [done|]. apply IH.
    destruct o; cbn; [by apply ins_sorted|by apply del_sorted].
  - rewrite <- avl_levels by done. by apply avl_size.
Qed.

End avl_laws.

Section avl_witnesses.

Lemma avl_balanced_witness :
  exists s, avl_run Nat.ltb (mkBST Leaf) (AInsert <$> [1; 2; 3; 4; 5; 6; 7]) = Ret s /\ height (root_ s) = 2%Z /\
    inorder (root_ s) = [1; 2; 3; 4; 5; 6; 7].
Proof.
  destruct (avl_balanced Nat.ltb (AInsert <$> [1; 2; 3; 4; 5; 6; 7])) as (s & E & Ho & _).
  exists s. split; [exact E|]. split; [|exact Ho]. vm_compute in E. injection E as <-. reflexivity.
Defined.

End avl_witnesses.
