(* ===== verification/TreeSet.v ===== *)
(** * Ordered set

    Models [data_structure/set/TreeSet.hpp], a set over [AVLTree] that counts
    its elements.  The copy constructor clones the nodes' data but not their
    cached heights; what that does to later operations is proved at the end. *)

From S2P Require Import Prelude Refinement SortedList SearchTree AVLTree.

Section tree_set.
Context {T : Type} (lt : T -> T -> bool).

#[local] Existing Instance avl_hooks.

Record TreeSet := mkSet {
  base_ : BSTBase (T := T);
  set_size_ : nat;
}.

Implicit Types (s : TreeSet) (x : T) (l : list T) (node t : tree T).

(** ** Operations *)

Definition set_new : TreeSet := mkSet (mkBST Leaf) 0.

Definition base_insert (b : BSTBase) x : outcome BSTBase := insert (BSTHooks0 := avl_hooks lt) lt b x.
Definition base_remove (b : BSTBase) x : outcome BSTBase := remove (BSTHooks0 := avl_hooks lt) lt b x.

Definition set_insert s x : outcome (bool * TreeSet) :=
  if find lt (base_ s) x then Ret (false, s) else
  b ← base_insert (base_ s) x; Ret (true, mkSet b (S (set_size_ s))).

Definition set_erase s x : outcome (bool * TreeSet) :=
  if negb (find lt (base_ s) x) then Ret (false, s) else
  b ← base_remove (base_ s) x; Ret (true, mkSet b (set_size_ s - 1)).

Definition set_contains s x : bool := find lt (base_ s) x.
Definition set_findValue s x : option T := findNode lt (root_ (base_ s)) x.
Definition set_size s : nat := set_size_ s.
Definition set_empty s : bool := bool_decide (set_size_ s = 0).
Definition set_clear (_ : TreeSet) : TreeSet := mkSet (mkBST Leaf) 0.
Definition set_swap (a b : TreeSet) : TreeSet * TreeSet := (b, a).

(** [inorder_collect], appending to [out]. *)
Fixpoint inorder_collect node (out : list T) : list T :=
  match node with
  | Leaf => out
  | Node l d r _ => inorder_collect r (inorder_collect l out ++ [d])
  end.

Definition set_toVector s : list T := inorder_collect (root_ (base_ s)) [].

(** [while (node->right_) node = node->right_.get();] *)
Fixpoint findMax node : outcome T :=
  match node with
  | Leaf => Undef
  | Node _ d Leaf _ => Ret d
  | Node _ _ r _ => findMax r
  end.

Definition set_min s : outcome (option T) :=
  if set_empty s then Ret None else
  match findMin (root_ (base_ s)) with None => Undef | Some x => Ret (Some x) end.

Definition set_max s : outcome (option T) :=
  if set_empty s then Ret None else Some <$> findMax (root_ (base_ s)).

Fixpoint clone_node node : tree T :=
  match node with
  | Leaf => Leaf
  | Node l d r _ => Node (clone_node l) d (clone_node r) 1
  end.

Definition set_copy s : TreeSet := mkSet (mkBST (clone_node (root_ (base_ s)))) (set_size_ s).
Definition set_move s : TreeSet * TreeSet := (s, mkSet (mkBST Leaf) 0).

Inductive op :=
| Insert (x : T) | Erase (x : T) | Contains (x : T) | FindValue (x : T)
| Size | Empty | Clear | ToVector | Min | Max.

Definition step s (o : op) : outcome (TreeSet * obs T) :=
  match o with
  | Insert x => '(b, s) ← set_insert s x; Ret (s, OBool b)
  | Erase x => '(b, s) ← set_erase s x; Ret (s, OBool b)
  | Contains x => Ret (s, OBool (set_contains s x))
  | FindValue x => Ret (s, OOpt (set_findValue s x))
  | Size => Ret (s, ONum (set_size s))
  | Empty => Ret (s, OBool (set_empty s))
  | Clear => Ret (set_clear s, ODone)
  | ToVector => Ret (s, OSeq (set_toVector s))
  | Min => m ← set_min s; Ret (s, OOpt m)
  | Max => m ← set_max s; Ret (s, OOpt m)
  end.

(** ** Specification: the sorted list of the elements *)
Definition spec l (o : op) : outcome (list T * obs T) :=
  match o with
  | Insert x => if get lt x l is Some _ then Ret (l, OBool false) else Ret (ins lt x l, OBool true)
  | Erase x => if get lt x l is Some _ then Ret (del lt x l, OBool true) else Ret (l, OBool false)
  | Contains x => Ret (l, OBool (bool_decide (is_Some (get lt x l))))
  | FindValue x => Ret (l, OOpt (get lt x l))
  | Size => Ret (l, ONum (length l))
  | Empty => Ret (l, OBool (bool_decide (l = [])))
  | Clear => Ret ([], ODone)
  | ToVector => Ret (l, OSeq l)
  | Min => Ret (l, OOpt (head l))
  | Max => Ret (l, OOpt (last l))
  end.

Record set_rep s l : Prop := {
  sr_avl : avl (root_ (base_ s));
  sr_inorder : inorder (root_ (base_ s)) = l;
  sr_sorted : sorted lt l;
  sr_size : set_size_ s = length l;
}.

(** ** Lemmas *)

Lemma inorder_collect_eq node out : inorder_collect node out = out ++ inorder node.
Proof.
  revert out. induction node as [|l IHl d r IHr h]; intros out; cbn; [by rewrite app_nil_r|].
  by rewrite IHr, IHl, <- !app_assoc.
Qed.

Lemma findMax_last node : node <> Leaf -> exists x, findMax node = Ret x /\ last (inorder node) = Some x.
Proof.
  induction node as [|l IHl d r IHr h]; [done|]. intros _. cbn [findMax inorder].
  destruct r as [|rl rd rr rh].
  - exists d. split; [done|]. cbn [inorder]. by rewrite last_snoc.
  - destruct IHr as (x & Hx & Hl); [done|]. exists x. split; [done|].
    rewrite last_app, last_cons, Hl. done.
Qed.

Lemma inorder_clone node : inorder (clone_node node) = inorder node.
Proof. induction node as [|l IHl d r IHr h]; [done|]. cbn. by rewrite IHl, IHr. Qed.

Context `{!StrictWeak lt}.

Section facts.
Context (s : TreeSet) (l : list T) (HR : set_rep s l).

Lemma rep_sorted_root : sorted lt (inorder (root_ (base_ s))).
Proof using HR. rewrite (sr_inorder _ _ HR). apply HR. Qed.

Lemma rep_find x : findNode lt (root_ (base_ s)) x = get lt x l.
Proof using All. rewrite findNode_get by (done || apply rep_sorted_root). by rewrite (sr_inorder _ _ HR). Qed.

Lemma rep_contains x : find lt (base_ s) x = bool_decide (is_Some (get lt x l)).
Proof using All. unfold find. by rewrite rep_find. Qed.

Lemma rep_set_empty : set_empty s = bool_decide (l = []).
Proof using HR. unfold set_empty. rewrite (sr_size _ _ HR). apply bool_decide_ext, length_zero_iff_nil. Qed.

Lemma rep_min : set_min s = Ret (head l).
Proof using All.
  unfold set_min. rewrite rep_set_empty. destruct l as [|x l'] eqn:E; [done|].
  rewrite bool_decide_eq_false_2 by done. by rewrite findMin_first, (sr_inorder _ _ HR).
Qed.

Lemma rep_max : set_max s = Ret (last l).
Proof using All.
  unfold set_max. rewrite rep_set_empty. destruct (decide (l = [])) as [E|Hne].
  - rewrite bool_decide_eq_true_2 by done. by rewrite E.
  - rewrite bool_decide_eq_false_2 by done.
    destruct (findMax_last (root_ (base_ s))) as (x & -> & Hx).
    + intros E. pose proof (sr_inorder _ _ HR) as Ho. rewrite E in Ho. by apply Hne.
    + rewrite (sr_inorder _ _ HR) in Hx. by rewrite Hx.
Qed.

Lemma rep_insert x : get lt x l = None -> exists b, base_insert (base_ s) x = Ret b /\
  set_rep (mkSet b (S (set_size_ s))) (ins lt x l).
Proof using All.
  intros Hg. destruct (insertImpl_ok (BSTHooks0 := avl_hooks lt) lt _ x (sr_avl _ _ HR) rep_sorted_root) as (t' & E & Ht & _ & Ho).
  exists (mkBST t'). unfold base_insert, insert. rewrite E. split; [done|]. rewrite (sr_inorder _ _ HR) in Ho.
  pose proof (sr_sorted _ _ HR). split; cbn [base_ root_ set_size_]; [done|done|by apply ins_sorted|].
  rewrite length_ins by done. rewrite Hg. by rewrite (sr_size _ _ HR).
Qed.

Lemma rep_erase x : is_Some (get lt x l) -> exists b, base_remove (base_ s) x = Ret b /\
  set_rep (mkSet b (set_size_ s - 1)) (del lt x l).
Proof using All.
  intros [y Hg]. destruct (removeImpl_ok (BSTHooks0 := avl_hooks lt) lt _ x (sr_avl _ _ HR) rep_sorted_root) as (t' & E & Ht & _ & Ho).
  exists (mkBST t'). unfold base_remove, remove. rewrite E. split; [done|]. rewrite (sr_inorder _ _ HR) in Ho.
  pose proof (sr_sorted _ _ HR). split; cbn [base_ root_ set_size_]; [done|done|by apply del_sorted|].
  rewrite length_del by done. rewrite Hg. by rewrite (sr_size _ _ HR).
Qed.
End facts.

Lemma set_new_rep : set_rep set_new [].
Proof. split; try done. constructor. Qed.

#[global] Instance set_simulates : Simulates step spec set_rep.
Proof.
  intros s l o HR. destruct o; cbn [spec step].
  - unfold set_insert. rewrite (rep_contains _ _ HR). destruct (get lt x l) eqn:E.
    + rewrite bool_decide_eq_true_2 by eauto. eauto.
    + rewrite bool_decide_eq_false_2 by by intros []. destruct (rep_insert _ _ HR x E) as (b & -> & H). eauto.
  - unfold set_erase. rewrite (rep_contains _ _ HR). destruct (get lt x l) eqn:E.
    + rewrite bool_decide_eq_true_2 by eauto. cbn [negb].
      destruct (rep_erase _ _ HR x ltac:(eauto)) as (b & -> & H). eauto.
    + rewrite bool_decide_eq_false_2 by by intros []. eauto.
  - unfold set_contains. rewrite (rep_contains _ _ HR). eauto.
  - unfold set_findValue. rewrite (rep_find _ _ HR). eauto.
  - unfold set_size. rewrite (sr_size _ _ HR). eauto.
  - rewrite (rep_set_empty _ _ HR). eauto.
  - eexists. split; [done|]. apply set_new_rep.
  - unfold set_toVector. rewrite inorder_collect_eq, (sr_inorder _ _ HR). eauto.
  - rewrite (rep_min _ _ HR). eauto.
  - rewrite (rep_max _ _ HR). eauto.
Qed.

(** ** Properties *)

(** from the empty set, every sequence of operations observes exactly what
    it observes on the sorted list of the elements, and never fails. *)
Theorem tree_set_refines ops :
  exists s l os, trace spec [] ops = Ret (l, os) /\ trace step set_new ops = Ret (s, os) /\ set_rep s l.
Proof.
  destruct (trace_refines_total (R := set_rep) (step := step) (spec := spec) ops set_new []) as (s & l & os & H1 & H2 & H3).
  - intros l o. destruct o; cbn; repeat case_match; done.
  - apply set_new_rep.
  - eauto 10.
Qed.

(** the copy constructor copies the elements in order but resets every
    cached height to 1: the copy of a set of three or more levels is no AVL tree. *)
Theorem tree_set_copy_spec s l :
  set_rep s l ->
  inorder (root_ (base_ (set_copy s))) = l /\ set_size (set_copy s) = length l /\
  (forall x, set_contains (set_copy s) x = set_contains s x) /\
  ((1 <= height (root_ (base_ s)))%Z -> ~ avl (root_ (base_ (set_copy s)))).
Proof.
  intros HR. pose proof (rep_sorted_root _ _ HR) as Hs.
  assert (inorder (clone_node (root_ (base_ s))) = l) as Ho by (rewrite inorder_clone; apply HR).
  split_and!; [done|apply HR| |].
  - intros x. unfold set_contains, find. cbn [base_ root_ set_copy].
    rewrite !findNode_get by (rewrite ?inorder_clone; done). by rewrite inorder_clone.
  - cbn [base_ root_ set_copy]. destruct (root_ (base_ s)) as [|l0 d r h]; [cbn; lia|]. intros Hh (_ & _ & H1 & _).
    destruct l0 as [|], r as [|]; cbn in *; lia.
Qed.
End tree_set.

Section tree_set_witnesses.

Lemma tree_set_refines_witness :
  exists s, trace (step Nat.ltb) set_new [Insert 5; Insert 3; Insert 5; ToVector; Erase 4; Min; Size]
    = Ret (s, [inl (OBool true); inl (OBool true); inl (OBool false); inl (OSeq [3; 5]); inl (OBool false);
               inl (OOpt (Some 3)); inl (ONum 2)]).
Proof.
  destruct (tree_set_refines Nat.ltb [Insert 5; Insert 3; Insert 5; ToVector; Erase 4; Min; Size])
    as (s & l & os & H1 & H2 & _).
  vm_compute in H1. injection H1 as <- <-. exists s. exact H2.
Defined.

Lemma tree_set_copy_witness :
  exists s, trace (step Nat.ltb) set_new [Insert 5; Insert 3] = Ret (s, [inl (OBool true); inl (OBool true)]) /\
    ~ avl (root_ (base_ (set_copy s))).
Proof.
  destruct (trace_refines (step := step Nat.ltb) (spec := spec Nat.ltb) (R := set_rep Nat.ltb)
    [Insert 5; Insert 3] set_new [] _ _ (set_new_rep Nat.ltb) eq_refl) as (s & E & HR).
  exists s. split; [exact E|]. apply (tree_set_copy_spec Nat.ltb s _ HR).
  vm_compute in E. injection E as <-. vm_compute. discriminate.
Defined.

End tree_set_witnesses.

(** ** A copied set that crashes *)
Section crash.

Definition crash_build : list (op (T := nat)) :=
  Insert <$> [227; 1616; 567; 374; 1433; 1816; 495; 1888; 149; 719; 1508; 1049; 1165; 1104; 1635].

(** fifteen insertions, a copy, one erasure and three insertions of new
    elements, all legal, end in a null dereference inside a rotation of the
    copy; on the original the same operations succeed. *)
Theorem tree_set_copy_crashes :
  exists s os os', trace (step Nat.ltb) set_new crash_build = Ret (s, os) /\
    trace (step Nat.ltb) (set_copy s) [Erase 227; Insert 1931; Insert 585; Insert 514] = Undef /\
    snd <$> trace (step Nat.ltb) s [Erase 227; Insert 1931; Insert 585; Insert 514] = Ret os'.
Proof. eexists _, _, _. split; [vm_compute; reflexivity|]. split; vm_compute; reflexivity. Qed.

End crash.
