(* ===== verification/TreeMap.v ===== *)
(** * Ordered map

    Models [data_structure/map/TreeMap.hpp]: an [AVLTree] of entries compared by
    key only.  Writing through the reference that [at], [operator\[\]] or the
    node found by [insert_or_assign] gives changes the entry's value in place. *)

From S2P Require Import Prelude Refinement SortedList SearchTree AVLTree TreeSet.

(** [TreeMapEntry] *)
Record Entry {K V : Type} := mkEntry { key_ : K; value_ : V }.
Arguments Entry : clear implicits.
Arguments mkEntry {K V} key_ value_.

Section tree_map.
Context {K V : Type} (V_default : V) (comp : K -> K -> bool).

Local Abbreviation entry := (Entry K V).
Implicit Types (k : K) (v : V) (e : entry) (l : list entry) (node t : tree entry).

(** [operator<=>] of the entries. *)
Definition entry_lt e1 e2 : bool := comp (key_ e1) (key_ e2).

(** [Entry(key)] *)
Definition probe k : entry := mkEntry k V_default.

Record TreeMap := mkMap {
  base_ : BSTBase (T := entry);
  map_size_ : nat;
}.

Implicit Types (s : TreeMap).

(** ** Operations *)

Definition map_new : TreeMap := mkMap (mkBST Leaf) 0.

Definition find_entry s k : option entry := findNode entry_lt (root_ (base_ s)) (probe k).

(** [node->data.value_ = v] for the node [findNode] returns. *)
Fixpoint set_value node k v : tree entry :=
  match node with
  | Leaf => Leaf
  | Node l d r h =>
    if equiv entry_lt (probe k) d then Node l (mkEntry (key_ d) v) r h
    else if entry_lt (probe k) d then Node (set_value l k v) d r h
    else Node l d (set_value r k v) h
  end.

Definition assign_value s k v : TreeMap :=
  mkMap (mkBST (set_value (root_ (base_ s)) k v)) (map_size_ s).

Definition base_insert (s : TreeMap) e : outcome TreeMap :=
  b ← insert (BSTHooks0 := avl_hooks entry_lt) entry_lt (base_ s) e; Ret (mkMap b (S (map_size_ s))).

Definition map_insert s k v : outcome (bool * TreeMap) :=
  if find entry_lt (base_ s) (probe k) then Ret (false, s) else
  s ← base_insert s (mkEntry k v); Ret (true, s).

Definition map_insert_or_assign s k v : outcome (bool * TreeMap) :=
  match find_entry s k with
  | Some _ => Ret (false, assign_value s k v)
  | None => s ← base_insert s (mkEntry k v); Ret (true, s)
  end.

Definition map_erase s k : outcome (bool * TreeMap) :=
  if negb (find entry_lt (base_ s) (probe k)) then Ret (false, s) else
  b ← remove (BSTHooks0 := avl_hooks entry_lt) entry_lt (base_ s) (probe k);
  Ret (true, mkMap b (map_size_ s - 1)).

Definition map_at s k : outcome V :=
  match find_entry s k with None => Throw out_of_range | Some e => Ret (value_ e) end.

(** [operator\[\]]: the value, after inserting a default one if absent. *)
Definition map_index s k : outcome (V * TreeMap) :=
  match find_entry s k with
  | Some e => Ret (value_ e, s)
  | None =>
    s ← base_insert s (probe k);
    match find_entry s k with None => Undef | Some e => Ret (value_ e, s) end
  end.

(** [m\[k\] = v] *)
Definition map_index_assign s k v : outcome TreeMap :=
  '(_, s) ← map_index s k; Ret (assign_value s k v).

Definition map_contains s k : bool := find entry_lt (base_ s) (probe k).
Definition map_findValue s k : option V := value_ <$> find_entry s k.
Definition map_size s : nat := map_size_ s.
Definition map_empty s : bool := bool_decide (map_size_ s = 0).
Definition map_clear (_ : TreeMap) : TreeMap := mkMap (mkBST Leaf) 0.
Definition map_swap (a b : TreeMap) : TreeMap * TreeMap := (b, a).
Definition map_toVector s : list entry := inorder_collect (root_ (base_ s)) [].

Definition map_min s : outcome (option entry) :=
  if map_empty s then Ret None else
  match findMin (root_ (base_ s)) with None => Undef | Some x => Ret (Some x) end.

Definition map_max s : outcome (option entry) :=
  if map_empty s then Ret None else Some <$> findMax (root_ (base_ s)).

Definition map_copy s : TreeMap := mkMap (mkBST (clone_node (root_ (base_ s)))) (map_size_ s).
Definition map_move s : TreeMap * TreeMap := (s, mkMap (mkBST Leaf) 0).

Inductive mop :=
| MInsert k v | MInsertOrAssign k v | MErase k | MAt k | MIndex k | MIndexAssign k v
| MContains k | MFindValue k | MSize | MEmpty | MClear | MToVector | MMin | MMax.

(** A value is observed as the entry of the key asked for. *)
Definition val k v : obs entry := OVal (mkEntry k v).

Definition map_step s (o : mop) : outcome (TreeMap * obs entry) :=
  match o with
  | MInsert k v => '(b, s) ← map_insert s k v; Ret (s, OBool b)
  | MInsertOrAssign k v => '(b, s) ← map_insert_or_assign s k v; Ret (s, OBool b)
  | MErase k => '(b, s) ← map_erase s k; Ret (s, OBool b)
  | MAt k => v ← map_at s k; Ret (s, val k v)
  | MIndex k => '(v, s) ← map_index s k; Ret (s, val k v)
  | MIndexAssign k v => s ← map_index_assign s k v; Ret (s, ODone)
  | MContains k => Ret (s, OBool (map_contains s k))
  | MFindValue k => Ret (s, OOpt (mkEntry k <$> map_findValue s k))
  | MSize => Ret (s, ONum (map_size s))
  | MEmpty => Ret (s, OBool (map_empty s))
  | MClear => Ret (map_clear s, ODone)
  | MToVector => Ret (s, OSeq (map_toVector s))
  | MMin => m ← map_min s; Ret (s, OOpt m)
  | MMax => m ← map_max s; Ret (s, OOpt m)
  end.

(** ** Specification: an association list sorted by key *)

(** The value stored for a key. *)
Definition lookup_key k l : option V := value_ <$> get entry_lt (probe k) l.

(** Replace the value of a present key. *)
Definition replace_key k v l : list entry :=
  (fun e => if equiv entry_lt (probe k) e then mkEntry (key_ e) v else e) <$> l.

(** Insert or replace. *)
Definition put k v l : list entry :=
  if lookup_key k l is Some _ then replace_key k v l else ins entry_lt (mkEntry k v) l.

Definition map_spec l (o : mop) : outcome (list entry * obs entry) :=
  match o with
  | MInsert k v => if lookup_key k l is Some _ then Ret (l, OBool false) else Ret (put k v l, OBool true)
  | MInsertOrAssign k v => Ret (put k v l, OBool (bool_decide (lookup_key k l = None)))
  | MErase k => Ret (del entry_lt (probe k) l, OBool (bool_decide (is_Some (lookup_key k l))))
  | MAt k => match lookup_key k l with None => Throw out_of_range | Some v => Ret (l, val k v) end
  | MIndex k => match lookup_key k l with Some v => Ret (l, val k v) | None => Ret (put k V_default l, val k V_default) end
  | MIndexAssign k v => Ret (put k v l, ODone)
  | MContains k => Ret (l, OBool (bool_decide (is_Some (lookup_key k l))))
  | MFindValue k => Ret (l, OOpt (mkEntry k <$> lookup_key k l))
  | MSize => Ret (l, ONum (length l))
  | MEmpty => Ret (l, OBool (bool_decide (l = [])))
  | MClear => Ret ([], ODone)
  | MToVector => Ret (l, OSeq l)
  | MMin => Ret (l, OOpt (head l))
  | MMax => Ret (l, OOpt (last l))
  end.

Record map_rep s l : Prop := {
  mr_avl : avl (root_ (base_ s));
  mr_inorder : inorder (root_ (base_ s)) = l;
  mr_sorted : sorted entry_lt l;
  mr_size : map_size_ s = length l;
}.

Context `{!StrictWeak comp}.

#[local] Instance entry_lt_weak : StrictWeak entry_lt.
Proof.
  split; unfold entry_lt; intros *; [apply sw_irrefl|apply sw_trans|apply sw_cotrans].
Qed.

(** ** Lemmas *)

(** Only the key of the argument matters. *)
Lemma entry_lt_key k v v' e :
  entry_lt (mkEntry k v) e = entry_lt (mkEntry k v') e /\ entry_lt e (mkEntry k v) = entry_lt e (mkEntry k v').
Proof. done. Qed.

Lemma get_key k v l : get entry_lt (mkEntry k v) l = get entry_lt (probe k) l.
Proof. induction l as [|e l IH]; [done|]. cbn [get]. by rewrite IH. Qed.

Lemma set_value_inorder node k v :
  sorted entry_lt (inorder node) -> inorder (set_value node k v) = replace_key k v (inorder node).
Proof.
  assert (forall l, (forall e, e ∈ l -> equiv entry_lt (probe k) e = false) -> replace_key k v l = l) as Hout.
  { induction l as [|e l IH]; intros Hl; [done|]. cbn. rewrite (Hl e) by set_solver. f_equal. apply IH. set_solver. }
  induction node as [|l IHl d r IHr h]; [done|]. cbn [set_value inorder]. intros Hs.
  pose proof Hs as (Hl & Hr & Hld & Hdr & _)%sorted_mid. unfold replace_key. rewrite fmap_app, fmap_cons. fold (replace_key k v).
  destruct (equiv entry_lt (probe k) d) eqn:E; cbn [inorder].
  - f_equal; [|f_equal]; symmetry; apply Hout; intros e He; unfold equiv.
    + rewrite (equiv_lt_r entry_lt (probe k) d e E), (Hld e He). by rewrite andb_false_r.
    + rewrite (equiv_lt_l entry_lt (probe k) d e E), (Hdr e He). done.
  - destruct (entry_lt (probe k) d) eqn:E1; cbn [inorder].
    + rewrite (IHl Hl). unfold replace_key. do 2 f_equal. symmetry. apply Hout. intros e He. unfold equiv.
      by rewrite (sw_trans (lt := entry_lt) _ _ _ E1 (Hdr e He)).
    + rewrite (IHr Hr). unfold replace_key. f_equal. symmetry. apply Hout. intros e He. unfold equiv in *.
      rewrite E1 in E. cbn in E. destruct (entry_lt d (probe k)) eqn:E2; [|done].
      rewrite (sw_trans (lt := entry_lt) _ _ _ (Hld e He) E2). by rewrite andb_false_r.
Qed.

Lemma set_value_shape node k v :
  getHeight (set_value node k v) = getHeight node /\ (avl node -> avl (set_value node k v)).
Proof.
  induction node as [|l [IHl1 IHl2] d r [IHr1 IHr2] h]; [done|]. cbn [set_value].
  repeat case_match; (split; [done|]); cbn [avl]; rewrite ?IHl1, ?IHr1; tauto.
Qed.

Lemma replace_key_keys k v l : key_ <$> replace_key k v l = key_ <$> l.
Proof. unfold replace_key. rewrite <- list_fmap_compose. apply list_fmap_ext. intros i e _. cbn. by case_match. Qed.

Lemma sorted_keys l : sorted entry_lt l <-> sorted comp (key_ <$> l).
Proof.
  induction l as [|e l IH]; [split; constructor|]. rewrite fmap_cons, !sorted_cons, IH.
  split; intros [H1 H2]; (split; [|done]).
  - intros k (e' & -> & He')%list_elem_of_fmap. by apply H1.
  - intros e' He'. apply (H1 (key_ e')). apply list_elem_of_fmap. eauto.
Qed.

Lemma replace_sorted k v l : sorted entry_lt l -> sorted entry_lt (replace_key k v l).
Proof. rewrite !sorted_keys. by rewrite replace_key_keys. Qed.

Section facts.
Context (s : TreeMap) (l : list entry) (HR : map_rep s l).

Lemma map_sorted_root : sorted entry_lt (inorder (root_ (base_ s))).
Proof using HR. rewrite (mr_inorder _ _ HR). apply HR. Qed.

Lemma map_find_entry k : find_entry s k = get entry_lt (probe k) l.
Proof using All.
  unfold find_entry. rewrite findNode_get by (apply _ || apply map_sorted_root). by rewrite (mr_inorder _ _ HR).
Qed.

Lemma map_find k : find entry_lt (base_ s) (probe k) = bool_decide (is_Some (lookup_key k l)).
Proof using All.
  unfold find, lookup_key. pose proof (map_find_entry k) as H. unfold find_entry in H. rewrite H.
  apply bool_decide_ext. by rewrite fmap_is_Some.
Qed.

Lemma map_insert_ok k v :
  lookup_key k l = None -> exists s', base_insert s (mkEntry k v) = Ret s' /\ map_rep s' (put k v l).
Proof using All.
  intros Hg. destruct (insertImpl_ok (BSTHooks0 := avl_hooks entry_lt) entry_lt _ (mkEntry k v) (mr_avl _ _ HR) map_sorted_root)
    as (t' & E & Ht & _ & Ho).
  unfold base_insert, insert. rewrite E. eexists. split; [done|]. rewrite (mr_inorder _ _ HR) in Ho.
  unfold put. rewrite Hg. pose proof (mr_sorted _ _ HR).
  split; cbn [base_ root_ map_size_]; [done|done|by apply ins_sorted; [apply _|]|].
  rewrite length_ins by (apply _ || done). rewrite get_key. unfold lookup_key in Hg.
  apply fmap_None in Hg. rewrite Hg. by rewrite (mr_size _ _ HR).
Qed.

Lemma map_assign_ok k v : is_Some (lookup_key k l) -> map_rep (assign_value s k v) (put k v l).
Proof using All.
  intros [v0 Hg]. unfold put. rewrite Hg. split; cbn [base_ root_ map_size_ assign_value].
  - apply set_value_shape, HR.
  - rewrite set_value_inorder by apply map_sorted_root. by rewrite (mr_inorder _ _ HR).
  - apply replace_sorted, HR.
  - unfold replace_key. rewrite length_fmap. apply HR.
Qed.

Lemma map_erase_ok k : is_Some (lookup_key k l) ->
  exists b, remove (BSTHooks0 := avl_hooks entry_lt) entry_lt (base_ s) (probe k) = Ret b /\
    map_rep (mkMap b (map_size_ s - 1)) (del entry_lt (probe k) l).
Proof using All.
  intros Hg. destruct (removeImpl_ok (BSTHooks0 := avl_hooks entry_lt) entry_lt _ (probe k) (mr_avl _ _ HR) map_sorted_root)
    as (t' & E & Ht & _ & Ho).
  unfold remove. rewrite E. eexists. split; [done|]. rewrite (mr_inorder _ _ HR) in Ho. pose proof (mr_sorted _ _ HR).
  split; cbn [base_ root_ map_size_]; [done|done|by apply del_sorted; [apply _|]|].
  rewrite length_del by (apply _ || done). apply fmap_is_Some in Hg as [e Hg].
  rewrite Hg. by rewrite (mr_size _ _ HR).
Qed.

Lemma map_rep_empty : map_empty s = bool_decide (l = []).
Proof using HR. unfold map_empty. rewrite (mr_size _ _ HR). apply bool_decide_ext, length_zero_iff_nil. Qed.

Lemma map_rep_min : map_min s = Ret (head l).
Proof using HR.
  unfold map_min. rewrite map_rep_empty. destruct l as [|x l'] eqn:E; [done|].
  rewrite bool_decide_eq_false_2 by done. by rewrite findMin_first, (mr_inorder _ _ HR).
Qed.

Lemma map_rep_max : map_max s = Ret (last l).
Proof using HR.
  unfold map_max. rewrite map_rep_empty. destruct (list_eq_nil_dec l) as [E|Hne].
  - rewrite bool_decide_eq_true_2 by done. by rewrite E.
  - rewrite bool_decide_eq_false_2 by done. destruct (findMax_last (root_ (base_ s))) as (x & -> & Hx).
    + intros E. pose proof (mr_inorder _ _ HR) as Ho. rewrite E in Ho. by apply Hne.
    + rewrite (mr_inorder _ _ HR) in Hx. by rewrite Hx.
Qed.
End facts.

(** ** The association list as a finite map *)

Lemma get_equiv x y l : equiv entry_lt x y = true -> get entry_lt x l = get entry_lt y l.
Proof.
  intros E. induction l as [|e l IH]; [done|]. cbn [get].
  by rewrite (equiv_lt_l entry_lt x y e E), (equiv_lt_r entry_lt x y e E), IH.
Qed.

Lemma get_found x l y : sorted entry_lt l -> get entry_lt x l = Some y -> equiv entry_lt x y = true.
Proof. intros Hs H. by apply (proj1 (get_Some entry_lt x l y Hs) H). Qed.

Lemma get_replace k k' v l :
  get entry_lt (probe k) (replace_key k' v l) =
  (fun e => if equiv entry_lt (probe k') e then mkEntry (key_ e) v else e) <$> get entry_lt (probe k) l.
Proof.
  induction l as [|e l IH]; [done|]. unfold replace_key in *. rewrite fmap_cons. cbn [get]. rewrite IH.
  set (e' := if equiv entry_lt (probe k') e then mkEntry (key_ e) v else e).
  assert (key_ e' = key_ e) as Hk by (subst e'; by case_match).
  assert (entry_lt (probe k) e' = entry_lt (probe k) e) as -> by (unfold entry_lt; by rewrite Hk).
  assert (entry_lt e' (probe k) = entry_lt e (probe k)) as -> by (unfold entry_lt; by rewrite Hk).
  by repeat case_match.
Qed.

(** Looking a key up after putting one, and after erasing one. *)
Lemma lookup_put k k' v l :
  sorted entry_lt l -> lookup_key k (put k' v l) = if equiv comp k k' then Some v else lookup_key k l.
Proof.
  intros Hs. unfold put. destruct (lookup_key k' l) as [v0|] eqn:E; unfold lookup_key in *.
  - rewrite get_replace. apply fmap_Some in E as (e' & He' & ->). destruct (equiv comp k k') eqn:Ek.
    + rewrite (get_equiv (probe k) (probe k')), He' by done. cbn.
      apply get_found in He'; [|done]. by rewrite He'.
    + destruct (get entry_lt (probe k) l) as [e|] eqn:Eg; [|done]. cbn.
      apply get_found in Eg; [|done].
      destruct (equiv entry_lt (probe k') e) eqn:E2; [|done]. exfalso.
      apply (equiv_spec entry_lt) in E2 as [E2 E2'], Eg as [E1 E1'].
      assert (equiv comp k k' = true) as Hx; [|congruence]. apply equiv_spec.
      split; [by apply (sw_cotrans k (key_ e) k')|by apply (sw_cotrans k' (key_ e) k)].
  - apply fmap_None in E. rewrite get_ins by (apply _ || done).
    change (equiv entry_lt (probe k) (mkEntry k' v)) with (equiv comp k k'). destruct (equiv comp k k') eqn:Ek; [|done].
    rewrite (get_equiv (probe k) (probe k')), E by done. done.
Qed.

Lemma lookup_del k k' l :
  sorted entry_lt l -> lookup_key k (del entry_lt (probe k') l) = if equiv comp k k' then None else lookup_key k l.
Proof.
  intros Hs. unfold lookup_key. rewrite get_del by (apply _ || done).
  change (equiv entry_lt (probe k) (probe k')) with (equiv comp k k'). by destruct (equiv comp k k').
Qed.

(** Writing the value of a freshly inserted entry. *)
Lemma replace_ins k v v' l :
  sorted entry_lt l -> get entry_lt (probe k) l = None ->
  replace_key k v (ins entry_lt (mkEntry k v') l) = ins entry_lt (mkEntry k v) l.
Proof.
  intros Hs Hg. assert (forall e, e ∈ l -> equiv entry_lt (probe k) e = false) as Hne.
  { intros e He. destruct (equiv entry_lt (probe k) e) eqn:E; [|done].
    assert (get entry_lt (probe k) l = Some e) as H by (apply get_Some; [apply _|done|done]). congruence. }
  assert (forall l, (forall e, e ∈ l -> equiv entry_lt (probe k) e = false) -> replace_key k v l = l) as Hid.
  { clear. induction l as [|e l IH]; intros Hl; [done|]. unfold replace_key in *. rewrite fmap_cons.
    rewrite (Hl e) by set_solver. f_equal. apply IH. set_solver. }
  assert (equiv entry_lt (probe k) (mkEntry k v') = true) as Hr by (by apply (equiv_refl comp)).
  clear Hs Hg. induction l as [|e l IH].
  - cbn [ins]. unfold replace_key. by rewrite fmap_cons, Hr.
  - cbn [ins]. change (entry_lt (mkEntry k v') e) with (entry_lt (mkEntry k v) e).
    change (entry_lt e (mkEntry k v')) with (entry_lt e (mkEntry k v)).
    destruct (entry_lt (mkEntry k v) e) eqn:E1; [|destruct (entry_lt e (mkEntry k v)) eqn:E2].
    + unfold replace_key. rewrite fmap_cons, Hr. fold (replace_key k v (e :: l)). by rewrite Hid.
    + unfold replace_key. rewrite fmap_cons, (Hne e) by set_solver. f_equal. apply IH. set_solver.
    + by apply Hid.
Qed.

Lemma put_put k v v' l : sorted entry_lt l -> lookup_key k l = None -> put k v (put k v' l) = put k v l.
Proof.
  intros Hs Hl. assert (equiv comp k k = true) as Hkk by (by apply equiv_refl).
  assert (lookup_key k (put k v' l) = Some v') as Hp by (rewrite lookup_put by done; by rewrite Hkk).
  unfold put at 1. rewrite Hp. unfold put. rewrite Hl. apply replace_ins; [done|]. by apply fmap_None in Hl.
Qed.

Lemma map_new_rep : map_rep map_new [].
Proof. split; try done. constructor. Qed.

Lemma map_index_ok s l k :
  map_rep s l -> exists v s', map_index s k = Ret (v, s') /\
    v = default V_default (lookup_key k l) /\
    map_rep s' (if lookup_key k l is Some _ then l else put k V_default l).
Proof.
  intros HR. unfold map_index. rewrite (map_find_entry _ _ HR). destruct (lookup_key k l) as [v|] eqn:E.
  - unfold lookup_key in E. apply fmap_Some in E as (e & -> & ->). eauto.
  - unfold lookup_key in E. apply fmap_None in E as E'. rewrite E'.
    destruct (map_insert_ok s l HR k V_default E) as (s' & Ei & HR'). fold (probe k) in Ei. rewrite Ei. ret_step.
    rewrite (map_find_entry _ _ HR').
    assert (lookup_key k (put k V_default l) = Some V_default) as Hp.
    { rewrite lookup_put by apply HR. by rewrite equiv_refl. }
    unfold lookup_key in Hp. apply fmap_Some in Hp as (e & -> & Hv). exists (value_ e), s'. by rewrite <- Hv.
Qed.

#[global] Instance map_simulates : Simulates map_step map_spec map_rep.
Proof.
  intros s l o HR. pose proof (mr_sorted _ _ HR) as Hs. destruct o; cbn [map_spec map_step].
  - unfold map_insert. rewrite (map_find _ _ HR). destruct (lookup_key k l) eqn:E.
    + rewrite bool_decide_eq_true_2 by eauto. eauto.
    + rewrite bool_decide_eq_false_2 by by intros []. destruct (map_insert_ok _ _ HR k v E) as (s' & -> & H). eauto.
  - unfold map_insert_or_assign. rewrite (map_find_entry _ _ HR). destruct (lookup_key k l) eqn:E.
    + rewrite bool_decide_eq_false_2 by done. pose proof E as E'. apply fmap_Some in E' as (e & -> & _).
      eexists. split; [done|]. apply map_assign_ok; eauto.
    + rewrite bool_decide_eq_true_2 by done. pose proof E as E'. apply fmap_None in E' as ->.
      destruct (map_insert_ok _ _ HR k v E) as (s' & -> & H). eauto.
  - unfold map_erase. rewrite (map_find _ _ HR). destruct (lookup_key k l) eqn:E.
    + rewrite !bool_decide_eq_true_2 by eauto. cbn [negb].
      destruct (map_erase_ok _ _ HR k ltac:(eauto)) as (b & -> & H). eauto.
    + rewrite !bool_decide_eq_false_2 by by intros []. cbn [negb]. apply fmap_None in E.
      rewrite del_missing by (apply _ || done). eauto.
  - unfold map_at. rewrite (map_find_entry _ _ HR). unfold lookup_key.
    destruct (get entry_lt (probe k) l); cbn; eauto.
  - destruct (map_index_ok _ _ k HR) as (v & s' & -> & -> & H). destruct (lookup_key k l); cbn; eauto.
  - unfold map_index_assign. destruct (map_index_ok _ _ k HR) as (v0 & s' & -> & -> & H). do 2 ret_step.
    exists (assign_value s' k v). split; [done|]. destruct (lookup_key k l) as [v1|] eqn:E.
    + apply map_assign_ok; eauto.
    + rewrite <- (put_put k v V_default l Hs E). apply map_assign_ok; [done|].
      rewrite lookup_put by done. rewrite equiv_refl by apply _. eauto.
  - unfold map_contains. rewrite (map_find _ _ HR). eauto.
  - unfold map_findValue, lookup_key. rewrite (map_find_entry _ _ HR). eauto.
  - unfold map_size. rewrite (mr_size _ _ HR). eauto.
  - rewrite (map_rep_empty _ _ HR). eauto.
  - eexists. split; [done|]. apply map_new_rep.
  - unfold map_toVector. rewrite inorder_collect_eq, (mr_inorder _ _ HR). eauto.
  - rewrite (map_rep_min _ _ HR). eauto.
  - rewrite (map_rep_max _ _ HR). eauto.
Qed.

(** ** Properties *)

(** from the empty map, every sequence of operations observes exactly what
    it observes on the association list sorted by key, without ever reaching a
    null node; and that list behaves as a finite map: a key put last is found,
    an erased key is not, other keys are untouched. *)
Theorem tree_map_refines ops :
  exists s l os, trace map_spec [] ops = Ret (l, os) /\ trace map_step map_new ops = Ret (s, os) /\ map_rep s l /\
    (forall k k' v, lookup_key k (put k' v l) = if equiv comp k k' then Some v else lookup_key k l) /\
    (forall k k', lookup_key k (del entry_lt (probe k') l) = if equiv comp k k' then None else lookup_key k l).
Proof.
  destruct (trace_refines_total (R := map_rep) (step := map_step) (spec := map_spec) ops map_new [])
    as (s & l & os & H1 & H2 & H3).
  - intros l o. destruct o; cbn; repeat case_match; done.
  - apply map_new_rep.
  - exists s, l, os. split_and!; try done; intros; [apply lookup_put, H3|apply lookup_del, H3].
Qed.

End tree_map.

Section tree_map_witnesses.

Lemma tree_map_refines_witness :
  exists s, trace (map_step 0 Nat.ltb) map_new [MInsert 5 50; MIndexAssign 3 30; MInsertOrAssign 5 51; MIndex 9; MAt 7; MToVector]
    = Ret (s, [inl (OBool true); inl ODone; inl (OBool false); inl (OVal (mkEntry 9 0)); inr out_of_range;
               inl (OSeq [mkEntry 3 30; mkEntry 5 51; mkEntry 9 0])]).
Proof.
  destruct (tree_map_refines 0 Nat.ltb [MInsert 5 50; MIndexAssign 3 30; MInsertOrAssign 5 51; MIndex 9; MAt 7; MToVector])
    as (s & l & os & H1 & H2 & _).
  vm_compute in H1. injection H1 as <- <-. exists s. exact H2.
Defined.

End tree_map_witnesses.
