(* ===== verification/Treap.v ===== *)
(** * Treap

    Models [tree/balanced/Treap.hpp]: a search tree by data and a max-heap by
    priority.  The priority [randomPriority()] draws for a new node is an
    argument of [insert]: the theorems hold for every draw. *)

From S2P Require Import Prelude SortedList.

Section treap.
Context {T : Type} (lt : T -> T -> bool).

Inductive node :=
| Null
| Node (left : node) (data : T) (priority : Z) (right : node).

Implicit Types (t l r : node) (x d value : T) (p b : Z).

Record Treap := mkTreap { root_ : node; size_ : nat }.

Implicit Types (s : Treap).

(** ** Operations *)

Definition treap_new : Treap := mkTreap Null 0.

Fixpoint inorderRecursive t (result : list T) : list T :=
  match t with
  | Null => result
  | Node l d _ r => inorderRecursive r (inorderRecursive l result ++ [d])
  end.

Definition inorder s : list T := inorderRecursive (root_ s) [].

Fixpoint findNode t value : option T :=
  match t with
  | Null => None
  | Node l d _ r =>
    if equiv lt value d then Some d
    else if lt value d then findNode l value else findNode r value
  end.

Definition find s value : bool := bool_decide (is_Some (findNode (root_ s) value)).
Definition findValue s value : option T := findNode (root_ s) value.
Definition empty s : bool := bool_decide (size_ s = 0).
Definition size s : nat := size_ s.
Definition clear (_ : Treap) : Treap := mkTreap Null 0.
Definition move s : Treap * Treap := (s, mkTreap Null 0).

Definition rotateRight t : outcome node :=
  match t with
  | Node (Node ll ld lp lr) d p r => Ret (Node ll ld lp (Node lr d p r))
  | _ => Undef
  end.

Definition rotateLeft t : outcome node :=
  match t with
  | Node l d p (Node rl rd rp rr) => Ret (Node (Node l d p rl) rd rp rr)
  | _ => Undef
  end.

(** [child->priority] *)
Definition prio t : outcome Z := match t with Null => Undef | Node _ _ p _ => Ret p end.

(** The node, and [size_] as it is after the call. *)
Fixpoint insertImpl t value (drawn : Z) (sz : nat) : outcome (node * nat) :=
  match t with
  | Null => Ret (Node Null value drawn Null, S sz)
  | Node l d p r =>
    if lt value d then
      '(l, sz) ← insertImpl l value drawn sz;
      q ← prio l;
      if (p <? q)%Z then t ← rotateRight (Node l d p r); Ret (t, sz) else Ret (Node l d p r, sz)
    else if lt d value then
      '(r, sz) ← insertImpl r value drawn sz;
      q ← prio r;
      if (p <? q)%Z then t ← rotateLeft (Node l d p r); Ret (t, sz) else Ret (Node l d p r, sz)
    else Ret (Node l d p r, sz)
  end.

(** After a rotation: remove from the child the node went to. *)
Fixpoint removeImpl (fuel : nat) t value (sz : nat) : outcome (node * nat) :=
  match fuel with
  | 0 => NoFuel
  | S fuel =>
    match t with
    | Null => Ret (Null, sz)
    | Node l d p r =>
      if lt value d then '(l, sz) ← removeImpl fuel l value sz; Ret (Node l d p r, sz)
      else if lt d value then '(r, sz) ← removeImpl fuel r value sz; Ret (Node l d p r, sz)
      else match l, r with
      | Null, Null => Ret (Null, sz - 1)
      | Null, _ => Ret (r, sz - 1)
      | _, Null => Ret (l, sz - 1)
      | Node _ _ lp _, Node _ _ rp _ =>
        if (rp <? lp)%Z then
          t ← rotateRight (Node l d p r);
          match t with
          | Null => Undef
          | Node l d p r => '(r, sz) ← removeImpl fuel r value sz; Ret (Node l d p r, sz)
          end
        else
          t ← rotateLeft (Node l d p r);
          match t with
          | Null => Undef
          | Node l d p r => '(l, sz) ← removeImpl fuel l value sz; Ret (Node l d p r, sz)
          end
      end
    end
  end.

Fixpoint count t : nat := match t with Null => 0 | Node l _ _ r => S (count l + count r) end.

Definition insert s value (drawn : Z) : outcome Treap :=
  '(t, sz) ← insertImpl (root_ s) value drawn (size_ s); Ret (mkTreap t sz).

Definition remove s value : outcome Treap :=
  '(t, sz) ← removeImpl (S (count (root_ s))) (root_ s) value (size_ s); Ret (mkTreap t sz).

Fixpoint verifyHeap t : bool :=
  match t with
  | Null => true
  | Node l _ p r =>
    match l with Node _ _ q _ => negb (p <? q)%Z | Null => true end &&
    match r with Node _ _ q _ => negb (p <? q)%Z | Null => true end &&
    verifyHeap l && verifyHeap r
  end.

(** The loop of [verify] on the in-order sequence. *)
Fixpoint verify_sorted (xs : list T) : bool :=
  match xs with
  | x :: (y :: _) as ys => negb (lt y x) && verify_sorted ys
  | _ => true
  end.

Definition verify s : bool := verify_sorted (inorder s) && verifyHeap (root_ s).

(** ** Invariant *)

Fixpoint elements t : list T :=
  match t with Null => [] | Node l d _ r => elements l ++ d :: elements r end.

Definition prio_le t b : Prop := match t with Null => True | Node _ _ p _ => (p <= b)%Z end.
Definition kids_le t b : Prop := match t with Null => True | Node l _ _ r => prio_le l b /\ prio_le r b end.

Fixpoint heap t : Prop :=
  match t with Null => True | Node l _ p r => prio_le l p /\ prio_le r p /\ heap l /\ heap r end.

Record treap_rep s (xs : list T) : Prop := {
  tr_heap : heap (root_ s);
  tr_elements : elements (root_ s) = xs;
  tr_sorted : sorted lt xs;
  tr_size : size_ s = length xs;
}.

(** ** Lemmas *)

Lemma prio_le_trans t b b' : prio_le t b -> (b <= b')%Z -> prio_le t b'.
Proof. destruct t; cbn; lia. Qed.

Lemma heap_kids t b : heap t -> prio_le t b -> kids_le t b.
Proof. destruct t as [|l d p r]; cbn; [done|]. intros (? & ? & _) ?. split; by eapply prio_le_trans. Qed.

Lemma treap_inorder_eq t acc : inorderRecursive t acc = acc ++ elements t.
Proof.
  revert acc. induction t as [|l IHl d p r IHr]; intros acc; cbn; [by rewrite app_nil_r|].
  by rewrite IHr, IHl, <- !app_assoc.
Qed.

Lemma verifyHeap_spec t : heap t -> verifyHeap t = true.
Proof.
  induction t as [|l IHl d p r IHr]; [done|]. cbn. intros (Hl & Hr & Hhl & Hhr).
  rewrite IHl, IHr by done. destruct l, r; cbn in *; rewrite ?(proj2 (Z.ltb_ge _ _)) by lia; done.
Qed.

Context `{!StrictWeak lt}.

Lemma verify_sorted_spec xs : sorted lt xs -> verify_sorted xs = true.
Proof.
  induction xs as [|x xs IH]; [done|]. intros [Hx Hs]%sorted_cons. cbn. destruct xs as [|y ys]; [done|].
  rewrite (sw_asym lt x y) by (apply Hx; set_solver). by apply IH.
Qed.

Lemma treap_findNode_get t value : sorted lt (elements t) -> findNode t value = get lt value (elements t).
Proof.
  induction t as [|l IHl d p r IHr]; [done|]. cbn [findNode elements]. intros Hs.
  pose proof Hs as (Hl & Hr & _)%sorted_mid. destruct (equiv lt value d) eqn:E.
  - by rewrite get_here.
  - unfold equiv in E. destruct (lt value d) eqn:E1; [by rewrite get_left, IHl|].
    destruct (lt d value) eqn:E2; [|done]. by rewrite get_right, IHr.
Qed.

(** Insertion: a rotation is made exactly where the new node's priority asks. *)
Lemma treap_insertImpl_ok t x drawn sz :
  heap t -> sorted lt (elements t) ->
  exists t' sz', insertImpl t x drawn sz = Ret (t', sz') /\ heap t' /\ t' <> Null /\
    (forall b, prio_le t b -> kids_le t' b) /\
    elements t' = ins lt x (elements t) /\
    sz' = (if get lt x (elements t) is Some _ then sz else S sz).
Proof.
  induction t as [|l IHl d p r IHr]; cbn [insertImpl elements heap]; intros Hh Hs.
  { exists (Node Null x drawn Null), (S sz). by split_and!. }
  destruct Hh as (Hlp & Hrp & Hhl & Hhr). pose proof Hs as (Hl & Hr & _)%sorted_mid.
  destruct (lt x d) eqn:E1; [|destruct (lt d x) eqn:E2].
  - destruct (IHl Hhl Hl) as (l' & sz' & -> & Hh' & Hne & Hk & Ho & Hz). ret_step.
    rewrite ins_left, get_left by done. destruct l' as [|ll ld lp lr]; [done|]. cbn [prio]. ret_step.
    destruct (Hk p Hlp) as [Hk1 Hk2]. destruct Hh' as (H1 & H2 & H3 & H4).
    destruct (p <? lp)%Z eqn:Ep; cbn [rotateRight]; try ret_step; eexists _, _; (split; [done|]).
    + cbn [heap kids_le prio_le elements] in *. split_and!; try done; try lia.
      * intros b Hb. split; [by eapply prio_le_trans|lia].
      * by rewrite <- Ho, <- app_assoc.
    + cbn [heap kids_le prio_le elements] in *. split_and!; try done; try lia.
      * intros b Hb. split; [lia|by eapply prio_le_trans].
      * by rewrite <- Ho.
  - destruct (IHr Hhr Hr) as (r' & sz' & -> & Hh' & Hne & Hk & Ho & Hz). ret_step.
    rewrite ins_right, get_right by done. destruct r' as [|rl rd rp rr]; [done|]. cbn [prio]. ret_step.
    destruct (Hk p Hrp) as [Hk1 Hk2]. destruct Hh' as (H1 & H2 & H3 & H4).
    destruct (p <? rp)%Z eqn:Ep; cbn [rotateLeft]; try ret_step; eexists _, _; (split; [done|]).
    + cbn [heap kids_le prio_le elements] in *. split_and!; try done; try lia.
      * intros b Hb. split; [lia|by eapply prio_le_trans].
      * rewrite <- Ho, <- app_assoc. done.
    + cbn [heap kids_le prio_le elements] in *. split_and!; try done; try lia.
      * intros b Hb. split; [by eapply prio_le_trans|lia].
      * by rewrite <- Ho.
  - exists (Node l d p r), sz. assert (equiv lt x d = true) as He by by apply equiv_spec.
    rewrite ins_here, get_here by done. split_and!; try done. intros b Hb. by apply (heap_kids (Node l d p r)).
Qed.

(** Removal: the node is rotated down below its higher-priority child. *)
Lemma treap_removeImpl_ok fuel : forall t x sz,
  count t < fuel -> heap t -> sorted lt (elements t) ->
  exists t' sz', removeImpl fuel t x sz = Ret (t', sz') /\ heap t' /\
    (forall b, prio_le t b -> prio_le t' b) /\
    (forall l d p r b, t = Node l d p r -> equiv lt x d = true -> kids_le t b -> prio_le t' b) /\
    elements t' = del lt x (elements t) /\
    sz' = (if get lt x (elements t) is Some _ then sz - 1 else sz).
Proof.
  induction fuel as [|fuel IH]; intros t x sz Hf Hh Hs; [lia|]. cbn [removeImpl].
  destruct t as [|l d p r]; [exists Null, sz; by split_and!|]. cbn [count elements heap] in *.
  destruct Hh as (Hlp & Hrp & Hhl & Hhr). pose proof Hs as (Hl & Hr & Hld & Hdr & Hlr)%sorted_mid.
  destruct (lt x d) eqn:E1; [|destruct (lt d x) eqn:E2].
  - destruct (IH l x sz ltac:(lia) Hhl Hl) as (l' & sz' & -> & Hh' & Hb & _ & Ho & Hz). ret_step.
    rewrite del_left, get_left by done. eexists _, _. split; [done|]. cbn [heap prio_le elements kids_le].
    split_and!; try done; [by apply Hb| |by rewrite Ho].
    intros ? d' ? ? b [= <- <- <- <-] [He _]%equiv_spec. congruence.
  - destruct (IH r x sz ltac:(lia) Hhr Hr) as (r' & sz' & -> & Hh' & Hb & _ & Ho & Hz). ret_step.
    rewrite del_right, get_right by done. eexists _, _. split; [done|]. cbn [heap prio_le elements kids_le].
    split_and!; try done; [by apply Hb| |by rewrite Ho].
    intros ? d' ? ? b [= <- <- <- <-] [_ He]%equiv_spec. congruence.
  - assert (equiv lt x d = true) as He by by apply equiv_spec. rewrite del_here, get_here by done.
    destruct l as [|ll ld lp lr], r as [|rl rd rp rr].
    + exists Null, (sz - 1). split_and!; try done; set_solver.
    + eexists _, _. split; [done|]. split_and!; try done; cbn [prio_le kids_le] in *; [lia|].
      intros ? ? ? ? b [= <- <- <- <-] _ [_ H]. exact H.
    + eexists _, _. split; [done|]. split_and!; try done; cbn [prio_le kids_le] in *; [lia| |by rewrite app_nil_r].
      intros ? ? ? ? b [= <- <- <- <-] _ [H _]. exact H.
    + destruct (rp <? lp)%Z eqn:Ep; cbn [rotateRight rotateLeft]; ret_step.
      * cbn [heap prio_le elements count] in *. destruct Hhl as (Hl1 & Hl2 & Hl3 & Hl4), Hhr as (Hr1 & Hr2 & Hr3 & Hr4).
        assert (sorted lt ((elements lr ++ d :: elements rl ++ rd :: elements rr))) as Hs'.
        { rewrite <- app_assoc in Hs. cbn in Hs. by apply sorted_mid in Hs as (_ & Hs & _). }
        destruct (IH (Node lr d p (Node rl rd rp rr)) x sz) as (r' & sz' & -> & Hh' & _ & Hb & Ho & Hz);
          [cbn; lia|cbn; split_and!; try done; by eapply prio_le_trans|done|]. ret_step.
        eexists _, _. split; [done|]. cbn [elements] in Ho, Hz. rewrite del_here in Ho by done. rewrite get_here in Hz by done.
        assert (prio_le r' lp) as Hr' by (eapply Hb; [done|done|split; [done|cbn; lia]]).
        cbn [heap prio_le elements kids_le]. split_and!; try done; [lia| |].
        -- intros ? ? ? ? b [= <- <- <- <-] _ [H _]. exact H.
        -- rewrite Ho. cbn. by rewrite <- app_assoc.
      * cbn [heap prio_le elements count] in *. destruct Hhl as (Hl1 & Hl2 & Hl3 & Hl4), Hhr as (Hr1 & Hr2 & Hr3 & Hr4).
        assert (sorted lt ((elements ll ++ ld :: elements lr) ++ d :: elements rl)) as Hs'.
        { change (d :: elements rl ++ rd :: elements rr) with ((d :: elements rl) ++ rd :: elements rr) in Hs.
          rewrite app_assoc in Hs. by apply sorted_mid in Hs as (Hs & _). }
        destruct (IH (Node (Node ll ld lp lr) d p rl) x sz) as (l' & sz' & -> & Hh' & _ & Hb & Ho & Hz);
          [cbn; lia|cbn; split_and!; try done; by eapply prio_le_trans|done|]. ret_step.
        eexists _, _. split; [done|]. cbn [elements] in Ho, Hz. rewrite del_here in Ho by done. rewrite get_here in Hz by done.
        assert (prio_le l' rp) as Hl' by (eapply Hb; [done|done|split; [cbn; lia|done]]).
        cbn [heap prio_le elements kids_le]. split_and!; try done; [lia| |].
        -- intros ? ? ? ? b [= <- <- <- <-] _ [_ H]. exact H.
        -- rewrite Ho. by rewrite <- !app_assoc.
Qed.

(** ** Properties *)

(** whatever priorities are drawn, [insert] and [remove] succeed, keep the
    heap order of the priorities and the order of the data, change exactly the
    element equivalent to the argument, count it, and [verify] stays true. *)
Theorem treap_operations_spec s xs x :
  treap_rep s xs ->
  verify s = true /\ inorder s = xs /\ size s = length xs /\ findValue s x = get lt x xs /\
  (forall drawn, exists s', insert s x drawn = Ret s' /\ treap_rep s' (ins lt x xs)) /\
  (exists s', remove s x = Ret s' /\ treap_rep s' (del lt x xs)).
Proof.
  intros [Hh Ho Hs Hz]. rewrite <- Ho in Hs.
  assert (inorder s = xs) as Hin by (unfold inorder; by rewrite treap_inorder_eq, <- Ho). split_and!.
  - unfold verify. rewrite Hin, verify_sorted_spec, verifyHeap_spec by (done || by rewrite <- Ho). done.
  - done.
  - done.
  - unfold findValue. by rewrite treap_findNode_get, Ho by done.
  - intros drawn. destruct (treap_insertImpl_ok (root_ s) x drawn (size_ s) Hh Hs) as (t' & sz' & E & Hh' & _ & _ & Ho' & Hz').
    unfold insert. rewrite E. eexists. split; [done|]. rewrite Ho in *.
    split; cbn [root_ size_]; [done|done|by apply ins_sorted|]. rewrite length_ins by done. rewrite Hz', Hz. done.
  - destruct (treap_removeImpl_ok (S (count (root_ s))) (root_ s) x (size_ s) ltac:(lia) Hh Hs)
      as (t' & sz' & E & Hh' & _ & _ & Ho' & Hz').
    unfold remove. rewrite E. eexists. split; [done|]. rewrite Ho in *.
    split; cbn [root_ size_]; [done|done|by apply del_sorted|]. rewrite length_del by done. rewrite Hz', Hz. done.
Qed.
End treap.

Section treap_witnesses.

#[local] Definition tr3 : Treap (T := nat) := mkTreap (Node (Node Null 2 10 Null) 5 30 (Node Null 7 20 Null)) 3.

Lemma treap_operations_witness :
  exists s', remove Nat.ltb tr3 5 = Ret s' /\ treap_rep Nat.ltb s' [2; 7] /\
    exists s2, insert Nat.ltb tr3 6 99 = Ret s2 /\ treap_rep Nat.ltb s2 [2; 5; 6; 7].
Proof.
  destruct (treap_operations_spec Nat.ltb tr3 [2; 5; 7] 5) as (_ & _ & _ & _ & _ & s' & H1 & H2).
  { split; [cbn; lia|reflexivity|repeat constructor|reflexivity]. }
  destruct (treap_operations_spec Nat.ltb tr3 [2; 5; 7] 6) as (_ & _ & _ & _ & H & _).
  { split; [cbn; lia|reflexivity|repeat constructor|reflexivity]. }
  exists s'. split; [exact H1|]. split; [exact H2|]. apply (H 99%Z).
Defined.

End treap_witnesses.
