(* ===== verification/SplayTree.v ===== *)
(** * Splay tree

    Models [tree/balanced/SplayTree.hpp], a self-adjusting tree over [TreeNode]:
    every access moves the element it looks for to the root.  The cached heights
    of the nodes are not maintained and play no role. *)

From S2P Require Import Prelude Refinement SortedList SearchTree.

Section splay.
Context {T : Type} (lt : T -> T -> bool).
Implicit Types (t l r node : tree T) (x d value : T) (h : Z) (xs : list T).

Record SplayTree := mkSplay { root_ : tree T; size_ : nat }.
Implicit Types (s : SplayTree).

(** ** Operations *)

Definition splay_new : SplayTree := mkSplay Leaf 0.

Definition rotateRight node : outcome (tree T) :=
  match node with
  | Node (Node ll ld lr lh) d r h => Ret (Node ll ld (Node lr d r h) lh)
  | _ => Undef
  end.

Definition rotateLeft node : outcome (tree T) :=
  match node with
  | Node l d (Node rl rd rr rh) h => Ret (Node (Node l d rl h) rd rr rh)
  | _ => Undef
  end.

(** [if (node->left_) return rotateRight(node); return node;] and its mirror image. *)
Definition lift_left node : outcome (tree T) :=
  match node with
  | Leaf => Undef
  | Node l _ _ _ => if is_null l then Ret node else rotateRight node
  end.

Definition lift_right node : outcome (tree T) :=
  match node with
  | Leaf => Undef
  | Node _ _ r _ => if is_null r then Ret node else rotateLeft node
  end.

Fixpoint splay node value : outcome (tree T) :=
  match node with
  | Leaf => Ret Leaf
  | Node l d r h =>
    if equiv lt d value then Ret node
    else if lt value d then
      match l with
      | Leaf => Ret node
      | Node ll ld lr lh =>
        node ←
          (if lt value ld then
             ll ← splay ll value; rotateRight (Node (Node ll ld lr lh) d r h)
           else if lt ld value then
             lr ← splay lr value;
             if is_null lr then Ret (Node (Node ll ld lr lh) d r h)
             else l ← rotateLeft (Node ll ld lr lh); Ret (Node l d r h)
           else Ret (Node (Node ll ld lr lh) d r h));
        lift_left node
      end
    else
      match r with
      | Leaf => Ret node
      | Node rl rd rr rh =>
        node ←
          (if lt rd value then
             rr ← splay rr value; rotateLeft (Node l d (Node rl rd rr rh) h)
           else if lt value rd then
             rl ← splay rl value;
             if is_null rl then Ret (Node l d (Node rl rd rr rh) h)
             else r ← rotateRight (Node rl rd rr rh); Ret (Node l d r h)
           else Ret (Node l d (Node rl rd rr rh) h));
        lift_right node
      end
  end.

Fixpoint insertImpl node value (sz : nat) : outcome (tree T * nat) :=
  match node with
  | Leaf => Ret (new_node value, S sz)
  | Node l d r h =>
    if lt value d then '(l, sz) ← insertImpl l value sz; t ← splay (Node l d r h) value; Ret (t, sz)
    else if lt d value then '(r, sz) ← insertImpl r value sz; t ← splay (Node l d r h) value; Ret (t, sz)
    else Ret (node, sz)
  end.

Definition insert s value : outcome SplayTree :=
  '(t, sz) ← insertImpl (root_ s) value (size_ s); Ret (mkSplay t sz).

Definition remove s value : outcome SplayTree :=
  if is_null (root_ s) then Ret s else
  root ← splay (root_ s) value;
  match root with
  | Leaf => Ret (mkSplay Leaf (size_ s))
  | Node l d r h =>
    if equiv lt d value then
      root ← (if is_null l then Ret r
              else if is_null r then Ret l
              else new_root ← splay l value;
                   match new_root with
                   | Leaf => Undef
                   | Node nl nd _ nh => Ret (Node nl nd r nh)
                   end);
      Ret (mkSplay root (size_ s - 1))
    else Ret (mkSplay root (size_ s))
  end.

Definition findValue s value : outcome (option T * SplayTree) :=
  if is_null (root_ s) then Ret (None, s) else
  root ← splay (root_ s) value;
  match root with
  | Leaf => Undef
  | Node _ d _ _ => Ret (if equiv lt d value then Some d else None, mkSplay root (size_ s))
  end.

Definition find s value : outcome (bool * SplayTree) :=
  if is_null (root_ s) then Ret (false, s) else
  root ← splay (root_ s) value;
  match root with
  | Leaf => Undef
  | Node _ d _ _ => Ret (equiv lt d value, mkSplay root (size_ s))
  end.

Definition empty s : bool := bool_decide (size_ s = 0).
Definition size s : nat := size_ s.
Definition clear (_ : SplayTree) : SplayTree := mkSplay Leaf 0.

Fixpoint inorderRecursive node (result : list T) : list T :=
  match node with
  | Leaf => result
  | Node l d r _ => inorderRecursive r (inorderRecursive l result ++ [d])
  end.

Definition splay_inorder s : list T := inorderRecursive (root_ s) [].
Definition move s : SplayTree * SplayTree := (s, mkSplay Leaf 0).

Inductive op := Insert (x : T) | Remove (x : T) | Find (x : T) | FindValue (x : T) | Size | Empty | Clear | Inorder.

Definition step s (o : op) : outcome (SplayTree * obs T) :=
  match o with
  | Insert x => s ← insert s x; Ret (s, ODone)
  | Remove x => s ← remove s x; Ret (s, ODone)
  | Find x => '(b, s) ← find s x; Ret (s, OBool b)
  | FindValue x => '(v, s) ← findValue s x; Ret (s, OOpt v)
  | Size => Ret (s, ONum (size s))
  | Empty => Ret (s, OBool (empty s))
  | Clear => Ret (clear s, ODone)
  | Inorder => Ret (s, OSeq (splay_inorder s))
  end.

(** ** Specification *)
Definition spec xs (o : op) : outcome (list T * obs T) :=
  match o with
  | Insert x => Ret (ins lt x xs, ODone)
  | Remove x => Ret (del lt x xs, ODone)
  | Find x => Ret (xs, OBool (bool_decide (is_Some (get lt x xs))))
  | FindValue x => Ret (xs, OOpt (get lt x xs))
  | Size => Ret (xs, ONum (length xs))
  | Empty => Ret (xs, OBool (bool_decide (xs = [])))
  | Clear => Ret ([], ODone)
  | Inorder => Ret (xs, OSeq xs)
  end.

Record splay_rep s xs : Prop := {
  sp_inorder : inorder (root_ s) = xs;
  sp_sorted : sorted lt xs;
  sp_size : size_ s = length xs;
}.

(** ** Lemmas *)
Context `{!StrictWeak lt}.

Lemma equiv_sym x y : equiv lt x y = equiv lt y x.
Proof. unfold equiv. apply andb_comm. Qed.

(** The element sought is at the root if it is in the tree. *)
Definition found_at_root x xs t : Prop :=
  match t with Leaf => xs = [] | Node _ d _ _ => get lt x xs = if equiv lt d x then Some d else None end.

Definition right_null t : Prop := match t with Leaf => True | Node _ _ r _ => r = Leaf end.

Definition splayed x xs t' : Prop :=
  inorder t' = xs /\ found_at_root x xs t' /\ ((forall y, y ∈ xs -> lt y x = true) -> right_null t').

Lemma not_equiv d x : lt x d = true \/ lt d x = true -> equiv lt d x = false.
Proof. unfold equiv. intros [-> | ->]; [apply andb_false_r|done]. Qed.

Lemma splay_left_case l d r h x :
  sorted lt (inorder (Node l d r h)) -> lt x d = true ->
  (forall t, SearchTree.size t < SearchTree.size (Node l d r h) -> sorted lt (inorder t) ->
    exists t', splay t x = Ret t' /\ splayed x (inorder t) t') ->
  exists t', splay (Node l d r h) x = Ret t' /\ splayed x (inorder (Node l d r h)) t'.
Proof.
  intros Hs Hx IH. cbn [splay]. rewrite (not_equiv d x) by tauto. rewrite Hx. cbn [inorder] in *.
  assert (~ (forall y, y ∈ inorder l ++ d :: inorder r -> lt y x = true)) as Hnl.
  { intros H. pose proof (sw_asym lt _ _ Hx). rewrite H in *; [done|set_solver]. }
  unfold splayed. pose proof Hs as (Hl & _)%sorted_mid.
  destruct l as [|ll ld lr lh].
  { eexists. split; [done|]. split_and!; [done| |done]. cbn [found_at_root inorder].
    rewrite get_left, not_equiv by tauto. done. }
  cbn [inorder] in *. pose proof Hl as (Hll & Hlr & _)%sorted_mid. cbn [SearchTree.size] in IH.
  destruct (lt x ld) eqn:E1; [|destruct (lt ld x) eqn:E2].
  - destruct (IH ll ltac:(lia) Hll) as (ll' & -> & Ho & Hf & _). ret_step. cbn [rotateRight]. ret_step.
    destruct ll' as [|a y b k]; cbn [lift_left is_null rotateRight found_at_root inorder] in *.
    + eexists. split; [done|]. split_and!; [cbn [inorder]; rewrite <- Hf; app_simpl| |done].
      cbn [found_at_root]. rewrite !get_left by done. rewrite Hf. rewrite not_equiv by tauto. done.
    + eexists. split; [done|]. split_and!; [cbn [inorder]; rewrite <- Ho; app_simpl| |done].
      cbn [found_at_root]. by rewrite !get_left, Hf by done.
  - destruct (IH lr ltac:(lia) Hlr) as (lr' & -> & Ho & Hf & _). ret_step.
    destruct lr' as [|a y b k]; cbn [is_null rotateLeft found_at_root inorder] in *; repeat ret_step;
      cbn [lift_left is_null rotateRight].
    + eexists. split; [done|]. split_and!; [cbn [inorder]; rewrite <- Hf; app_simpl| |done].
      cbn [found_at_root]. rewrite get_left, get_right by done. rewrite Hf. rewrite not_equiv by tauto. done.
    + eexists. split; [done|]. split_and!; [cbn [inorder]; rewrite <- Ho; app_simpl| |done].
      cbn [found_at_root]. by rewrite get_left, get_right, Hf by done.
  - ret_step. cbn [lift_left is_null rotateRight]. eexists. split; [done|].
    assert (equiv lt x ld = true) as He by by apply equiv_spec.
    split_and!; [cbn [inorder]; app_simpl| |done].
    cbn [found_at_root]. by rewrite get_left, get_here, equiv_sym, He by done.
Qed.

Lemma splay_right_case l d r h x :
  sorted lt (inorder (Node l d r h)) -> lt d x = true ->
  (forall t, SearchTree.size t < SearchTree.size (Node l d r h) -> sorted lt (inorder t) ->
    exists t', splay t x = Ret t' /\ splayed x (inorder t) t') ->
  exists t', splay (Node l d r h) x = Ret t' /\ splayed x (inorder (Node l d r h)) t'.
Proof.
  intros Hs Hx IH. cbn [splay]. rewrite (not_equiv d x) by tauto. rewrite (sw_asym lt _ _ Hx). cbn [inorder] in *.
  unfold splayed. pose proof Hs as (_ & Hr & _)%sorted_mid.
  destruct r as [|rl rd rr rh].
  { eexists. split; [done|]. split_and!; [done| |done]. cbn [found_at_root inorder].
    rewrite get_right, not_equiv by tauto. done. }
  cbn [inorder] in *. pose proof Hr as (Hrl & Hrr & _)%sorted_mid. cbn [SearchTree.size] in IH.
  destruct (lt rd x) eqn:E1; [|destruct (lt x rd) eqn:E2].
  - destruct (IH rr ltac:(lia) Hrr) as (rr' & -> & Ho & Hf & Hn). ret_step. cbn [rotateLeft]. ret_step.
    destruct rr' as [|a y b k]; cbn [lift_right is_null rotateLeft found_at_root inorder right_null] in *.
    + eexists. split; [done|]. split_and!; [cbn [inorder]; rewrite <- Hf; app_simpl| |done].
      cbn [found_at_root]. rewrite !get_right by done. rewrite Hf. rewrite not_equiv by tauto. done.
    + eexists. split; [done|]. split_and!; [cbn [inorder]; rewrite <- Ho; app_simpl| |].
      * cbn [found_at_root]. by rewrite !get_right, Hf by done.
      * cbn [right_null]. intros H. apply Hn. intros z Hz. apply H. set_solver.
  - assert (~ (forall y, y ∈ inorder l ++ d :: inorder rl ++ rd :: inorder rr -> lt y x = true)) as Hnl.
    { intros H. rewrite H in E1; [done|set_solver]. }
    destruct (IH rl ltac:(lia) Hrl) as (rl' & -> & Ho & Hf & _). ret_step.
    destruct rl' as [|a y b k]; cbn [is_null rotateRight found_at_root inorder] in *; repeat ret_step;
      cbn [lift_right is_null rotateLeft].
    + eexists. split; [done|]. split_and!; [cbn [inorder]; rewrite <- Hf; app_simpl| |done].
      cbn [found_at_root]. rewrite get_right, get_left by done. rewrite Hf. rewrite not_equiv by tauto. done.
    + eexists. split; [done|]. split_and!; [cbn [inorder]; rewrite <- Ho; app_simpl| |done].
      cbn [found_at_root]. by rewrite get_right, get_left, Hf by done.
  - ret_step. cbn [lift_right is_null rotateLeft]. eexists. split; [done|].
    assert (equiv lt x rd = true) as He by by apply equiv_spec.
    split_and!; [cbn [inorder]; app_simpl| |].
    + cbn [found_at_root]. by rewrite get_right, get_here, equiv_sym, He by done.
    + intros H. rewrite H in E1; [done|set_solver].
Qed.

(** [splay] keeps the elements, brings the one sought to the root, and leaves no
    right subtree when every element is smaller. *)
Lemma splay_ok t x : sorted lt (inorder t) -> exists t', splay t x = Ret t' /\ splayed x (inorder t) t'.
Proof.
  remember (SearchTree.size t) as n eqn:Hn. revert t Hn. induction (lt_wf n) as [n _ IH]. intros t -> Hs.
  destruct t as [|l d r h]; [by exists Leaf|].
  assert (forall t, SearchTree.size t < SearchTree.size (Node l d r h) -> sorted lt (inorder t) ->
    exists t', splay t x = Ret t' /\ splayed x (inorder t) t') as IH' by (intros t' Ht'; by eapply IH).
  destruct (lt x d) eqn:E1; [by apply splay_left_case|]. destruct (lt d x) eqn:E2; [by apply splay_right_case|].
  assert (equiv lt d x = true) as He by by apply equiv_spec. cbn [splay]. rewrite He. eexists. split; [done|].
  split_and!; [done| |].
  - cbn [found_at_root inorder] in *. rewrite get_here by (done || by rewrite equiv_sym). by rewrite He.
  - intros H. rewrite H in E2; [done|cbn; set_solver].
Qed.

Lemma splay_insertImpl_ok t x sz :
  sorted lt (inorder t) ->
  exists t', insertImpl t x sz = Ret (t', if get lt x (inorder t) is Some _ then sz else S sz) /\
    inorder t' = ins lt x (inorder t).
Proof.
  induction t as [|l IHl d r IHr h]; cbn [insertImpl inorder]; intros Hs; [by eexists|].
  pose proof Hs as (Hl & Hr & _)%sorted_mid. pose proof (ins_sorted lt x _ Hs) as Hs'.
  destruct (lt x d) eqn:E1; [|destruct (lt d x) eqn:E2].
  - destruct (IHl Hl) as (l' & -> & Ho). ret_step. rewrite get_left, ins_left in * by done.
    destruct (splay_ok (Node l' d r h) x) as (t' & -> & Ho' & _); [cbn; by rewrite Ho|]. ret_step.
    eexists. split; [done|]. rewrite Ho'. cbn. by rewrite Ho.
  - destruct (IHr Hr) as (r' & -> & Ho). ret_step. rewrite get_right, ins_right in * by done.
    destruct (splay_ok (Node l d r' h) x) as (t' & -> & Ho' & _); [cbn; by rewrite Ho|]. ret_step.
    eexists. split; [done|]. rewrite Ho'. cbn. by rewrite Ho.
  - assert (equiv lt x d = true) as He by by apply equiv_spec. rewrite get_here, ins_here by done. by eexists.
Qed.

Lemma splay_inorder_eq t acc : inorderRecursive t acc = acc ++ inorder t.
Proof.
  revert acc. induction t as [|l IHl d r IHr h]; intros acc; cbn; [by rewrite app_nil_r|].
  by rewrite IHr, IHl, <- !app_assoc.
Qed.

Lemma insert_rep s xs x : splay_rep s xs -> exists s', insert s x = Ret s' /\ splay_rep s' (ins lt x xs).
Proof.
  intros [Ho Hs Hz]. rewrite <- Ho in Hs. destruct (splay_insertImpl_ok (root_ s) x (size_ s) Hs) as (t' & E & Ho').
  unfold insert. rewrite E. eexists. split; [done|]. rewrite Ho in *.
  split; cbn [root_ size_]; [done|by apply ins_sorted|]. rewrite length_ins by done. by rewrite Hz.
Qed.

Lemma remove_rep s xs x : splay_rep s xs -> exists s', remove s x = Ret s' /\ splay_rep s' (del lt x xs).
Proof.
  intros [Ho Hs Hz]. unfold remove. destruct (is_null (root_ s)) eqn:En.
  { exists s. split; [done|]. destruct (root_ s) eqn:E; [|done]. cbn in Ho. subst xs. by split; rewrite ?E. }
  rewrite <- Ho in Hs. destruct (splay_ok (root_ s) x Hs) as (t' & -> & Ho' & Hf & _). ret_step. rewrite Ho in *.
  destruct t' as [|l d r h]; cbn [found_at_root inorder] in *.
  { eexists. split; [done|]. rewrite Hf in *. split; cbn; [done|constructor|done]. }
  destruct (equiv lt d x) eqn:He.
  - assert (equiv lt x d = true) as He' by by rewrite equiv_sym.
    rewrite <- Ho' in Hs. pose proof Hs as (Hl & Hr & Hld & _)%sorted_mid.
    assert (del lt x xs = inorder l ++ inorder r) as Hdel by (rewrite <- Ho'; by apply del_here).
    assert (exists root, (if is_null l then Ret r else if is_null r then Ret l else
       new_root ← splay l x; match new_root with Leaf => Undef | Node nl nd _ nh => Ret (Node nl nd r nh) end)
        = Ret root /\ inorder root = inorder l ++ inorder r) as (root & -> & Hroot).
    { destruct (is_null l) eqn:El; [destruct l; [|done]; by exists r|].
      destruct (is_null r) eqn:Er; [destruct r; [|done]; exists l; split; [done|]; cbn; by rewrite app_nil_r|].
      destruct (splay_ok l x Hl) as (l' & -> & Hol & Hfl & Hn). ret_step.
      assert (right_null l') as Hrn.
      { apply Hn. intros y Hy. rewrite (equiv_lt_r lt x d y He'). by apply Hld. }
      destruct l' as [|nl nd nr nh]; cbn [inorder right_null] in *.
      - destruct l as [|l1 ? ? ?]; [done|]. cbn in Hol. by destruct (inorder l1).
      - eexists. split; [done|]. cbn. rewrite <- Hol, Hrn. cbn. by rewrite <- app_assoc. }
    ret_step. eexists. split; [done|]. rewrite <- Ho' in Hdel. rewrite Ho' in Hdel, Hs.
    split; cbn [root_ size_]; [by rewrite Hroot, Hdel|by apply del_sorted|].
    rewrite length_del by done. by rewrite Hf, Hz.
  - eexists. split; [done|]. rewrite del_missing by done. by split.
Qed.

Lemma findValue_rep s xs x :
  splay_rep s xs -> exists s', findValue s x = Ret (get lt x xs, s') /\ splay_rep s' xs /\
    find s x = Ret (bool_decide (is_Some (get lt x xs)), s').
Proof.
  intros [Ho Hs Hz]. unfold findValue, find. destruct (is_null (root_ s)) eqn:En.
  { exists s. destruct (root_ s) eqn:E; [|done]. cbn in Ho. subst xs.
    split_and!; [done|by split; rewrite ?E|done]. }
  rewrite <- Ho in Hs. destruct (splay_ok (root_ s) x Hs) as (t' & -> & Ho' & Hf & _). rewrite !bind_Ret. rewrite Ho in *.
  destruct t' as [|l d r h]; cbn [found_at_root] in Hf.
  { destruct (root_ s) as [|l1 ? ? ?]; [done|]. rewrite Hf in Ho. cbn in Ho. by destruct (inorder l1). }
  rewrite Hf. eexists. split_and!; [done|by split|]. by destruct (equiv lt d x).
Qed.

#[global] Instance splay_simulates : Simulates step spec splay_rep.
Proof.
  intros s xs o HR. destruct o; cbn [spec step].
  - destruct (insert_rep s xs x HR) as (s' & -> & H). eauto.
  - destruct (remove_rep s xs x HR) as (s' & -> & H). eauto.
  - destruct (findValue_rep s xs x HR) as (s' & _ & H & ->). eauto.
  - destruct (findValue_rep s xs x HR) as (s' & -> & H & _). eauto.
  - unfold size. rewrite (sp_size _ _ HR). eauto.
  - unfold empty. rewrite (sp_size _ _ HR). exists s. split; [|done]. do 3 f_equal.
    apply bool_decide_ext, length_zero_iff_nil.
  - eexists. split; [done|]. split; [done|constructor|done].
  - unfold splay_inorder. rewrite splay_inorder_eq, (sp_inorder _ _ HR). eauto.
Qed.

(** ** Properties *)

(** from the empty splay tree, every sequence of operations observes what it
    observes on the sorted list of the elements; no rotation meets a null child,
    and joining the two subtrees of a removed root loses no element. *)
Theorem splay_tree_refines ops :
  exists s xs os, trace spec [] ops = Ret (xs, os) /\ trace step splay_new ops = Ret (s, os) /\ splay_rep s xs.
Proof.
  destruct (trace_refines_total (R := splay_rep) (step := step) (spec := spec) ops splay_new [])
    as (s & xs & os & H1 & H2 & H3); [| |eauto 10].
  - intros xs o. by destruct o.
  - split; [done|constructor|done].
Qed.

(** looking an element up moves it to the root. *)
Theorem splay_find_root s xs x y :
  splay_rep s xs -> get lt x xs = Some y ->
  exists l r h s', find s x = Ret (true, s') /\ root_ s' = Node l y r h /\ splay_rep s' xs.
Proof.
  intros HR Hg. destruct HR as [Ho Hs Hz]. pose proof Hs as Hs0. rewrite <- Ho in Hs.
  destruct (splay_ok (root_ s) x Hs) as (t' & E & Ho' & Hf & _). rewrite Ho in *. unfold find.
  assert (is_null (root_ s) = false) as -> by (destruct (root_ s); [|done]; cbn in Ho; by subst).
  rewrite E. ret_step. destruct t' as [|l d r h]; cbn [found_at_root] in Hf; [by rewrite Hf in Hg|].
  rewrite Hg in Hf. destruct (equiv lt d x) eqn:He; [|done]. injection Hf as ->.
  exists l, r, h, (mkSplay (Node l d r h) (size_ s)). split_and!; [done|done|by split].
Qed.
End splay.

Section splay_witnesses.

Lemma splay_tree_refines_witness :
  exists s, trace (step Nat.ltb) splay_new [Insert 5; Insert 3; Insert 8; Insert 5; Remove 5; Inorder; Find 5; Size]
    = Ret (s, [inl ODone; inl ODone; inl ODone; inl ODone; inl ODone; inl (OSeq [3; 8]); inl (OBool false); inl (ONum 2)]).
Proof.
  destruct (splay_tree_refines Nat.ltb [Insert 5; Insert 3; Insert 8; Insert 5; Remove 5; Inorder; Find 5; Size])
    as (s & xs & os & H1 & H2 & _).
  vm_compute in H1. injection H1 as <- <-. exists s. exact H2.
Defined.

#[local] Definition sp3 : SplayTree := mkSplay (Node (new_node 2) 5 (Node Leaf 7 (new_node 9) 1) 1) 4.

Lemma splay_find_root_witness :
  exists l r h s', find Nat.ltb sp3 9 = Ret (true, s') /\ root_ s' = Node l 9 r h.
Proof.
  destruct (splay_find_root Nat.ltb sp3 [2; 5; 7; 9] 9 9) as (l & r & h & s' & H1 & H2 & _).
  - split; [reflexivity|repeat constructor|reflexivity].
  - reflexivity.
  - exists l, r, h, s'. split; [exact H1|exact H2].
Defined.

End splay_witnesses.
