(* ===== verification/CacheSpec.v ===== *)
(** * The cache interface and recency lists

    Models [interface/ICache.hpp]: the operations every cache offers, as a class,
    and what a client may rely on whatever the eviction policy, as the laws
    [ICacheLaws].  The rest of the file is about recency lists - entries from the
    most to the least recently used - by which the policies are specified. *)

From S2P Require Import Prelude Refinement.

(** [ICache<Key, Value>] *)
Class ICache (K V C : Type) := {
  get : C -> K -> outcome (option V * C);
  put : C -> K -> V -> outcome (bool * C);
  remove : C -> K -> outcome (bool * C);
  clear : C -> C;
  size : C -> nat;
  capacity : C -> nat;
  empty : C -> bool;
  contains : C -> K -> bool;
}.

(** [holds c m]: the cache [c] is in a valid state and its entries are [m]. *)
Class ICacheLaws {K V C : Type} `{Countable K} `{!ICache K V C} (holds : C -> gmap K V -> Prop) : Prop := {
  law_get : forall c m k, holds c m -> exists c', get c k = Ret (m !! k, c') /\ holds c' m /\ capacity c' = capacity c;
  law_put : forall c m k v, holds c m -> exists c' m', put c k v = Ret (true, c') /\ holds c' m' /\
    m' !! k = Some v /\ m' ⊆ <[k:=v]> m /\ capacity c' = capacity c /\
    (is_Some (m !! k) \/ base.size m < capacity c -> m' = <[k:=v]> m);
  law_remove : forall c m k, holds c m -> exists c', remove c k = Ret (bool_decide (is_Some (m !! k)), c') /\
    holds c' (delete k m) /\ capacity c' = capacity c;
  law_clear : forall c m, holds c m -> holds (clear c) ∅ /\ capacity (clear c) = capacity c;
  law_size : forall c m, holds c m -> size c = base.size m /\ base.size m <= capacity c;
  law_empty : forall c m, holds c m -> empty c = bool_decide (m = ∅);
  law_contains : forall c m k, holds c m -> contains c k = bool_decide (is_Some (m !! k));
}.

(** Filters that agree on the elements of a list, and filters of an image. *)

Lemma filter_image {A B} (f : A -> B) (P : B -> Prop) `{!forall x, Decision (P x)} (l : list A) :
  filter P (f <$> l) = f <$> filter (fun x => P (f x)) l.
Proof.
  induction l as [|x l IH]; [done|]. rewrite fmap_cons, !filter_cons, IH. by destruct (decide (P (f x))).
Qed.

Section recency.
Context {K V : Type} `{Countable K}.
Implicit Types (l : list (K * V)) (k : K) (v : V).

(** The entries but for the one of [k]. *)
Definition rm k l : list (K * V) := filter (fun e => e.1 <> k) l.

Definition entries l : gmap K V := list_to_map l.

Definition distinct l : Prop := NoDup (fst <$> l).

Lemma entries_lookup l k v : distinct l -> entries l !! k = Some v <-> (k, v) ∈ l.
Proof. intros Hd. symmetry. by apply elem_of_list_to_map. Qed.

Lemma entries_None l k : entries l !! k = None <-> k ∉ l.*1.
Proof. symmetry. apply not_elem_of_list_to_map. Qed.

Lemma rm_distinct k l : distinct l -> distinct (rm k l) /\ k ∉ (rm k l).*1.
Proof.
  intros Hd. split.
  - unfold distinct, rm in *. eapply sublist_NoDup; [exact Hd|]. apply (fmap_sublist fst), sublist_filter.
  - intros ([k' v] & -> & [Hk _]%list_elem_of_filter)%list_elem_of_fmap. by apply Hk.
Qed.

Lemma rm_entries k l : entries (rm k l) = delete k (entries l).
Proof.
  unfold rm, entries. induction l as [|[k' v] l IH]; [symmetry; apply delete_empty|]. rewrite filter_cons. cbn [fst list_to_map foldr uncurry].
  destruct (decide (k' <> k)) as [Hne|Heq%dec_stable].
  - rewrite list_to_map_cons, IH, delete_insert_ne; done.
  - subst k'. rewrite IH. by rewrite delete_insert_eq.
Qed.

Lemma push_distinct k v l : distinct l -> distinct ((k, v) :: rm k l).
Proof.
  intros Hd. destruct (rm_distinct k l Hd) as [H1 H2]. unfold distinct. cbn. apply NoDup_cons. by split.
Qed.

Lemma push_entries k v l : entries ((k, v) :: rm k l) = <[k:=v]> (entries l).
Proof.
  unfold entries. cbn. fold (entries (rm k l)). rewrite rm_entries. by rewrite insert_delete_eq.
Qed.

Lemma entries_size l : distinct l -> base.size (entries l) = length l.
Proof.
  intros Hd. exact (map_size_list_to_map (M := gmap K) l Hd).
Qed.

(** Moving a present entry to the front changes no entry. *)
Lemma promote_entries k v l : entries l !! k = Some v -> entries ((k, v) :: rm k l) = entries l.
Proof. intros Hk. rewrite push_entries. by apply insert_id. Qed.

Lemma rm_absent k l : entries l !! k = None -> rm k l = l.
Proof.
  intros Hk%entries_None. unfold rm. apply filter_all. apply Forall_forall. intros [k' v] He E; cbn in E; subst k'.
  apply Hk. apply list_elem_of_fmap. by exists (k, v).
Qed.

Lemma length_rm k l : distinct l -> length (rm k l) = length l - (if entries l !! k is Some _ then 1 else 0).
Proof.
  intros Hd. destruct (entries l !! k) as [v|] eqn:E.
  - pose proof (rm_distinct k l Hd) as [Hd' _]. rewrite <- (entries_size _ Hd'), rm_entries.
    rewrite map_size_delete, E, entries_size by done. lia.
  - rewrite rm_absent by done. lia.
Qed.

Lemma nil_entries l : bool_decide (l = []) = bool_decide (entries l = ∅).
Proof.
  apply bool_decide_ext. split; [by intros ->|]. destruct l as [|[k v] l]; [done|]. cbn.
  intros E. by apply insert_non_empty in E.
Qed.

Lemma distinct_removelast l : distinct l -> distinct (removelast l) /\ removelast l `sublist_of` l.
Proof.
  destruct l as [|e l] using rev_ind; [done|]. rewrite removelast_last. unfold distinct. rewrite fmap_app.
  intros [Hd _]%NoDup_app. split; [done|]. by apply sublist_inserts_r.
Qed.

Lemma sublist_entries l l' : distinct l -> l' `sublist_of` l -> entries l' ⊆ entries l.
Proof.
  intros Hd Hsub. assert (distinct l') as Hd' by (eapply sublist_NoDup; [exact Hd|by apply (fmap_sublist fst)]).
  apply map_subseteq_spec. intros k v Hk%(entries_lookup _ _ _ Hd'). apply entries_lookup; [done|].
  by eapply elem_of_sublist.
Qed.

(** Keys of the entries read through another field. *)
Lemma elem_of_keys l k : k ∈ l.*1 <-> is_Some (entries l !! k).
Proof.
  rewrite <- not_eq_None_Some, entries_None. split; [intros ? Hn; by apply Hn|]. apply dec_stable.
Qed.

Lemma distinct_cons k v l : distinct ((k, v) :: l) <-> (k ∉ l.*1) /\ distinct l.
Proof. apply NoDup_cons. Qed.

Lemma distinct_app l1 l2 : distinct (l1 ++ l2) -> distinct l1 /\ distinct l2 /\ forall k, k ∈ l1.*1 -> (k ∉ l2.*1).
Proof. unfold distinct. rewrite fmap_app. intros (H1 & H2 & H3)%NoDup_app. by split_and!. Qed.

Lemma rm_middle k v l1 l2 : distinct (l1 ++ (k, v) :: l2) -> rm k (l1 ++ (k, v) :: l2) = l1 ++ l2.
Proof.
  intros (_ & Hd2 & Hk)%distinct_app. apply distinct_cons in Hd2 as [Hk2 _].
  unfold rm. rewrite filter_app, filter_cons_False by naive_solver. fold (rm k l1) (rm k l2).
  rewrite !rm_absent; [done|by apply entries_None|]. apply entries_None. intros Hk'. apply (Hk _ Hk'). by left.
Qed.

(** Promoting an entry permutes the list. *)
Lemma rm_perm k v l : distinct l -> (k, v) ∈ l -> (k, v) :: rm k l ≡ₚ l.
Proof.
  intros Hd (l1 & l2 & ->)%list_elem_of_split. rewrite rm_middle by done. apply Permutation_middle.
Qed.

Lemma rm_snoc k v l : distinct (l ++ [(k, v)]) -> rm k (l ++ [(k, v)]) = l.
Proof. intros Hd. by rewrite rm_middle, app_nil_r. Qed.
End recency.

(** ** Operations on caches and the least-recently-used policy

    The contract of an LRU cache: the entries from the most to the least
    recently used, of which an insertion into a full cache drops the last. *)
Section lru_policy.
Context {K V : Type} `{Countable K} (cap : nat).

Inductive cache_op := Get (k : K) | Put (k : K) (v : V) | Remove (k : K) | Clear | Size | Capacity | Empty | Contains (k : K).

Definition lru_put (l : list (K * V)) (k : K) (v : V) : list (K * V) :=
  match entries l !! k with
  | Some _ => (k, v) :: rm k l
  | None => (k, v) :: (if decide (cap <= length l) then removelast l else l)
  end.

Definition lru_spec (l : list (K * V)) (o : cache_op) : outcome (list (K * V) * obs V) :=
  match o with
  | Get k => match entries l !! k with
             | Some v => Ret ((k, v) :: rm k l, OOpt (Some v))
             | None => Ret (l, OOpt None)
             end
  | Put k v => Ret (lru_put l k v, OBool true)
  | Remove k => Ret (rm k l, OBool (bool_decide (is_Some (entries l !! k))))
  | Clear => Ret ([], ODone)
  | Size => Ret (l, ONum (length l))
  | Capacity => Ret (l, ONum cap)
  | Empty => Ret (l, OBool (bool_decide (l = [])))
  | Contains k => Ret (l, OBool (bool_decide (is_Some (entries l !! k))))
  end.

Lemma lru_spec_total : total_spec lru_spec.
Proof. intros l o. destruct o; cbn; repeat case_match; split; discriminate. Qed.

Lemma lru_put_ok l k v : 0 < cap -> distinct l -> length l <= cap ->
  distinct (lru_put l k v) /\ length (lru_put l k v) <= cap /\
  entries (lru_put l k v) !! k = Some v /\ entries (lru_put l k v) ⊆ <[k:=v]> (entries l) /\
  (is_Some (entries l !! k) \/ length l < cap -> entries (lru_put l k v) = <[k:=v]> (entries l)).
Proof.
  intros Hcap Hd Hlen. unfold lru_put. destruct (entries l !! k) as [v0|] eqn:Hk.
  - rewrite push_entries. split_and!; [by apply push_distinct| |by rewrite lookup_insert_eq|done|done].
    cbn. rewrite length_rm, Hk by done. destruct l; [done|cbn in *; lia].
  - set (l' := if decide _ then _ else _).
    assert (distinct l' /\ l' `sublist_of` l) as [Hd' Hsub]
      by (unfold l'; case_decide; [by apply distinct_removelast|done]).
    assert (k ∉ l'.*1) as Hkl.
    { apply entries_None. apply (sublist_entries _ _ Hd) in Hsub. by eapply lookup_weaken_None. }
    split_and!.
    + by apply distinct_cons.
    + cbn. unfold l'. case_decide; [|lia]. destruct l as [|e l] using rev_ind; [cbn in *; lia|].
      rewrite removelast_last. rewrite length_app in Hlen. cbn in Hlen. lia.
    + cbn. by rewrite lookup_insert_eq.
    + cbn. apply insert_mono. by apply sublist_entries.
    + intros [[v0 ?]|Hlt]; [done|]. cbn. unfold l'. by rewrite decide_False by lia.
Qed.
End lru_policy.
Arguments cache_op : clear implicits.

(** A client of the interface performing one operation. *)
Definition cache_step {K V C} `{!ICache K V C} (c : C) (o : cache_op K V) : outcome (C * obs V) :=
  match o with
  | Get k => '(r, c) ← get c k; Ret (c, OOpt r)
  | Put k v => '(r, c) ← put c k v; Ret (c, OBool r)
  | Remove k => '(r, c) ← remove c k; Ret (c, OBool r)
  | Clear => Ret (clear c, ODone)
  | Size => Ret (c, ONum (size c))
  | Capacity => Ret (c, ONum (capacity c))
  | Empty => Ret (c, OBool (empty c))
  | Contains k => Ret (c, OBool (contains c k))
  end.
