(* ===== verification/LRUCache.v ===== *)
(** * Least-recently-used cache over [std::list]

    Models [cache/LRUCache.hpp].  The list holds its nodes by identity, so that
    an iterator - what [cache_map_] stores - is the identity of a node and
    using one that is not in the list is undefined behaviour.  A new node gets
    an identity that no live node has. *)

From stdpp Require Import fin_sets.
From S2P Require Import Prelude Refinement CacheSpec.

(** ** [std::list] as a list of nodes *)
Module NodeList.
Section node_list.
Context {A : Type}.
Definition node := nat.
Implicit Types (l : list (node * A)) (it : node) (a : A).

(** [*it] *)
Definition deref l it : outcome A := match entries l !! it with Some a => Ret a | None => Undef end.

(** [*it = a] *)
Definition assign l it a : list (node * A) := (fun e => if decide (e.1 = it) then (it, a) else e) <$> l.

(** [l.erase(it)] *)
Definition erase l it : outcome (list (node * A)) := match entries l !! it with Some _ => Ret (rm it l) | None => Undef end.

Definition begin_is l it : bool := if l is e :: _ then bool_decide (e.1 = it) else false.

(** [l.splice(l.begin(), l, it)] *)
Definition splice_front l it : outcome (list (node * A)) := a ← deref l it; Ret ((it, a) :: rm it l).

(** [std::prev(l.end())] *)
Definition prev_end l : outcome node := match last l with Some e => Ret e.1 | None => Undef end.

(** [l.pop_back()] *)
Definition pop_back l : outcome (list (node * A)) := if decide (l = []) then Undef else Ret (removelast l).

(** The identity of a node allocated next to the nodes [used]. *)
Definition alloc (used : list node) : node := fresh (list_to_set used : gset node).

Lemma alloc_fresh used : alloc used ∉ used.
Proof.
  intros Hin. apply (is_fresh (C := gset node) (list_to_set used)). by apply elem_of_list_to_set.
Qed.

Lemma deref_in l it a : distinct l -> (it, a) ∈ l -> deref l it = Ret a.
Proof. intros Hd Ha. unfold deref. by rewrite (proj2 (entries_lookup l it a Hd) Ha). Qed.

Lemma erase_in l it a : distinct l -> (it, a) ∈ l -> erase l it = Ret (rm it l).
Proof. intros Hd Ha. unfold erase. by rewrite (proj2 (entries_lookup l it a Hd) Ha). Qed.

Lemma splice_front_in l it a : distinct l -> (it, a) ∈ l -> splice_front l it = Ret ((it, a) :: rm it l).
Proof. intros Hd Ha. unfold splice_front. by rewrite (deref_in l it a Hd Ha). Qed.

Lemma assign_rm l it a : rm it (assign l it a) = rm it l.
Proof.
  unfold rm, assign. induction l as [|[i b] l IH]; [done|]. cbn [fmap list_fmap fst]. rewrite !filter_cons, IH.
  cbn. repeat (case_decide; cbn in *); naive_solver.
Qed.

Lemma assign_distinct l it a : distinct l -> distinct (assign l it a).
Proof.
  unfold distinct, assign. replace ((fun e => if decide (e.1 = it) then (it, a) else e) <$> l).*1 with l.*1; [done|].
  rewrite <- list_fmap_compose. apply list_fmap_ext. intros i [j b] _. cbn. case_decide; cbn; congruence.
Qed.

Lemma assign_in l it a b : (it, b) ∈ l -> (it, a) ∈ assign l it a.
Proof. intros Hb. unfold assign. apply list_elem_of_fmap. exists (it, b). cbn. by rewrite decide_True. Qed.

Lemma assign_middle l1 it b l2 a :
  distinct (l1 ++ (it, b) :: l2) -> assign (l1 ++ (it, b) :: l2) it a = l1 ++ (it, a) :: l2.
Proof.
  intros (_ & [Hi2 _]%distinct_cons & Hk)%distinct_app.
  assert (forall l, it ∉ l.*1 -> assign l it a = l) as Hout.
  { unfold assign. intros l Hl. trans (id <$> l); [|apply list_fmap_id]. apply list_fmap_ext. intros i [j c] Hj%list_elem_of_lookup_2.
    cbn. case_decide as Hij; [|done]. subst j. destruct Hl. apply list_elem_of_fmap. by exists (it, c). }
  assert (it ∉ l1.*1) as Hi1 by (intros Hi; apply (Hk _ Hi); by left).
  rewrite <- (Hout l1 Hi1) at 2. rewrite <- (Hout l2 Hi2) at 2. unfold assign. rewrite fmap_app, fmap_cons. cbn [fst].
  by rewrite decide_True.
Qed.

(** A node at the front is where moving it to the front would put it. *)
Lemma begin_is_front l it a : distinct l -> (it, a) ∈ l -> begin_is l it = true -> l = (it, a) :: rm it l.
Proof.
  destruct l as [|[i b] l]; [done|]. cbn [begin_is fst]. intros [Hi Hd]%distinct_cons Ha Hit%bool_decide_eq_true. subst i.
  apply elem_of_cons in Ha as [[= ->]|Ha]; [|destruct Hi; apply list_elem_of_fmap; by exists (it, a)].
  unfold rm. rewrite filter_cons_False by (cbn; naive_solver). f_equal. symmetry.
  apply rm_absent. by apply entries_None.
Qed.
End node_list.
End NodeList.

Module LRU.
Import NodeList.
Section lru_cache.
Context {Key Value : Type} `{Countable Key}.

Record LRUCache := mkLRU {
  cache_list_ : list (node * (Key * Value));
  cache_map_ : gmap Key node;
  capacity_ : nat;
}.

Implicit Types (c : LRUCache) (a : list (Key * Value)) (l : list (node * (Key * Value))) (e : node * (Key * Value)) (it : node) (key : Key) (value : Value).

(** ** Operations *)

Definition lru_new (capacity : nat) : outcome LRUCache :=
  if decide (capacity = 0) then Throw invalid_argument else Ret (mkLRU [] ∅ capacity).

Definition move_to_front c (it : node) : outcome LRUCache :=
  if begin_is (cache_list_ c) it then Ret c
  else l ← splice_front (cache_list_ c) it; Ret (mkLRU l (cache_map_ c) (capacity_ c)).

Definition get_impl c key : outcome (option Value * LRUCache) :=
  match cache_map_ c !! key with
  | None => Ret (None, c)
  | Some it =>
    c ← move_to_front c it;
    e ← deref (cache_list_ c) it;
    Ret (Some e.2, c)
  end.

Definition put_impl c key value : outcome (bool * LRUCache) :=
  match cache_map_ c !! key with
  | Some it =>
    e ← deref (cache_list_ c) it;
    let c := mkLRU (assign (cache_list_ c) it (e.1, value)) (cache_map_ c) (capacity_ c) in
    c ← move_to_front c it;
    Ret (true, c)
  | None =>
    c ← (if decide (capacity_ c <= length (cache_list_ c))
         then last_it ← prev_end (cache_list_ c);
              e ← deref (cache_list_ c) last_it;
              let m := delete e.1 (cache_map_ c) in
              l ← pop_back (cache_list_ c);
              Ret (mkLRU l m (capacity_ c))
         else Ret c);
    let it := alloc (cache_list_ c).*1 in
    Ret (true, mkLRU ((it, (key, value)) :: cache_list_ c) (<[key:=it]> (cache_map_ c)) (capacity_ c))
  end.

Definition lru_remove c key : outcome (bool * LRUCache) :=
  match cache_map_ c !! key with
  | None => Ret (false, c)
  | Some it =>
    l ← erase (cache_list_ c) it;
    Ret (true, mkLRU l (delete key (cache_map_ c)) (capacity_ c))
  end.

Definition lru_clear c : LRUCache := mkLRU [] ∅ (capacity_ c).
Definition lru_size c : nat := length (cache_list_ c).
Definition lru_capacity c : nat := capacity_ c.
Definition lru_empty c : bool := bool_decide (cache_list_ c = []).
Definition lru_contains c key : bool := bool_decide (is_Some (cache_map_ c !! key)).

#[global] Instance LRUCache_ICache : ICache Key Value LRUCache := {|
  get := get_impl; put := put_impl; remove := lru_remove; clear := lru_clear; size := lru_size;
  capacity := lru_capacity; empty := lru_empty; contains := lru_contains;
|}.

(** ** Representation of the recency list

    Every node is reachable from the map under its own key, and nothing else is. *)
Definition index (l : list (node * (Key * Value))) : list (Key * node) := (fun e => (e.2.1, e.1)) <$> l.

Record lru_rep c a : Prop := {
  rep_list : (cache_list_ c).*2 = a;
  rep_nodes : distinct (cache_list_ c);
  rep_keys : distinct a;
  rep_map : cache_map_ c = entries (index (cache_list_ c));
  rep_cap : 0 < capacity_ c;
  rep_len : length a <= capacity_ c;
}.

Lemma index_keys l : (index l).*1 = (l.*2).*1.
Proof. unfold index. by rewrite <- !list_fmap_compose. Qed.

Lemma index_lookup l key it :
  distinct (l.*2) -> (entries (index l) !! key = Some it) <-> exists value, (it, (key, value)) ∈ l.
Proof.
  intros Hd. rewrite entries_lookup by (unfold distinct; by rewrite index_keys). unfold index.
  rewrite list_elem_of_fmap. split.
  - intros ([i [k v]] & [= -> ->] & Hin). eauto.
  - intros [v Hin]. by exists (it, (key, v)).
Qed.

(** A node is found by its identity or by its key alike. *)
Lemma node_key l it key value e :
  distinct l -> distinct (l.*2) -> (it, (key, value)) ∈ l -> e ∈ l -> (e.1 = it <-> e.2.1 = key).
Proof.
  intros Hn Hk Hin He. destruct e as [i [k v]]. cbn. split.
  - intros ->. apply (entries_lookup _ _ _ Hn) in Hin, He. congruence.
  - intros ->. assert (exists v', (it, (key, v')) ∈ l) as H1%(index_lookup l key it Hk) by eauto.
    assert (exists v', (i, (key, v')) ∈ l) as H2%(index_lookup l key i Hk) by eauto. congruence.
Qed.

Lemma rm_node l it key value :
  distinct l -> distinct (l.*2) -> (it, (key, value)) ∈ l ->
  (rm it l).*2 = rm key (l.*2) /\ index (rm it l) = rm key (index l).
Proof.
  intros Hn Hk Hin.
  assert (rm it l = filter (fun e => e.2.1 <> key) l) as ->.
  { apply filter_ext_in. intros e He. by rewrite (node_key l it key value e). }
  unfold rm, index. by rewrite !filter_image.
Qed.

Lemma rep_lookup c a key : lru_rep c a ->
  match cache_map_ c !! key with
  | Some it => exists value, (it, (key, value)) ∈ cache_list_ c /\ entries a !! key = Some value
  | None => entries a !! key = None
  end.
Proof.
  intros [<- Hn Hk -> _ _]. destruct (entries (index (cache_list_ c)) !! key) as [it|] eqn:E.
  - apply index_lookup in E as [v Hin]; [|done]. exists v. split; [done|]. apply entries_lookup; [done|].
    apply list_elem_of_fmap. by exists (it, (key, v)).
  - apply entries_None. apply entries_None in E. by rewrite <- index_keys.
Qed.

Lemma lru_front_rep l m cap a it key value :
  lru_rep (mkLRU l m cap) a -> (it, (key, value)) ∈ l ->
  lru_rep (mkLRU ((it, (key, value)) :: rm it l) m cap) ((key, value) :: rm key a).
Proof.
  intros [<- Hn Hk Hm Hc Hl] Hin. cbn [cache_list_ cache_map_ capacity_] in *.
  destruct (rm_node l it key value Hn Hk Hin) as [Ha Hi].
  assert (entries l.*2 !! key = Some value) as Hv
    by (apply entries_lookup; [done|]; apply list_elem_of_fmap; by exists (it, (key, value))).
  split; cbn [cache_list_ cache_map_ capacity_].
  - rewrite fmap_cons. by rewrite Ha.
  - by apply push_distinct.
  - by apply push_distinct.
  - change (index ((it, (key, value)) :: rm it l)) with ((key, it) :: index (rm it l)). rewrite Hi, Hm.
    symmetry. apply promote_entries. apply index_lookup; eauto.
  - done.
  - cbn. rewrite length_rm, Hv by done. destruct l.*2; [done|]. cbn in *. lia.
Qed.

Lemma move_to_front_rep c a it key value :
  lru_rep c a -> (it, (key, value)) ∈ cache_list_ c ->
  exists c', move_to_front c it = Ret c' /\ lru_rep c' ((key, value) :: rm key a) /\
    capacity_ c' = capacity_ c /\ deref (cache_list_ c') it = Ret (key, value).
Proof.
  destruct c as [l m cap]. intros HR Hin. pose proof (lru_front_rep _ _ _ _ _ _ _ HR Hin) as HF.
  unfold move_to_front. cbn [cache_list_ cache_map_ capacity_] in *.
  destruct (begin_is l it) eqn:Hb.
  - eexists. split_and!; [done| |done|by apply deref_in; [apply HR|]].
    by rewrite (begin_is_front l it _ (rep_nodes _ _ HR) Hin Hb).
  - rewrite (splice_front_in l it (key, value)) by (done || apply HR). ret_step.
    eexists. split_and!; [done|exact HF|done|]. apply deref_in; [apply HF|]. by left.
Qed.

Lemma assign_rep l m cap a it key v0 value :
  lru_rep (mkLRU l m cap) a -> (it, (key, v0)) ∈ l ->
  lru_rep (mkLRU (assign l it (key, value)) m cap) ((assign l it (key, value)).*2) /\
  rm key ((assign l it (key, value)).*2) = rm key a.
Proof.
  intros [<- Hn Hk Hm Hc Hl] Hin. cbn [cache_list_ cache_map_ capacity_] in *.
  assert (index (assign l it (key, value)) = index l) as Hi.
  { unfold index, assign. rewrite <- list_fmap_compose. apply list_fmap_ext. intros i e He%list_elem_of_lookup_2. cbn.
    case_decide as Hit; [|done]. apply (node_key l it key v0 e) in Hit as Hkey; try done. cbn. congruence. }
  assert (distinct ((assign l it (key, value)).*2)) as Hk'
    by (unfold distinct; rewrite <- index_keys, Hi, index_keys; done).
  split.
  - split; cbn [cache_list_ cache_map_ capacity_]; [done|by apply assign_distinct|done|by rewrite Hi|done|].
    unfold assign. by rewrite !length_fmap in *.
  - destruct (rm_node _ it key value (assign_distinct _ _ _ Hn) Hk' (assign_in _ _ _ _ Hin)) as [<- _].
    rewrite assign_rm. by destruct (rm_node l it key v0 Hn Hk Hin).
Qed.

Lemma lru_get_rep c a key : lru_rep c a ->
  exists c', get_impl c key = Ret (entries a !! key, c') /\ capacity_ c' = capacity_ c /\
    lru_rep c' (if entries a !! key is Some v then (key, v) :: rm key a else a).
Proof.
  intros HR. pose proof (rep_lookup _ _ key HR) as Hm. unfold get_impl.
  destruct (cache_map_ c !! key) as [it|]; [|rewrite Hm; eauto].
  destruct Hm as (v & Hin & ->). destruct (move_to_front_rep c a it key v HR Hin) as (c' & -> & HR' & Hc & Hd).
  ret_step. rewrite Hd. ret_step. eauto.
Qed.

Lemma rep_length c a : lru_rep c a -> length (cache_list_ c) = length a.
Proof. intros HR. by rewrite <- (rep_list _ _ HR), length_fmap. Qed.

(** A new front node for a key that is not there. *)
Lemma emplace_rep l m cap a it key value :
  lru_rep (mkLRU l m cap) a -> it ∉ l.*1 -> entries a !! key = None -> length a < cap ->
  lru_rep (mkLRU ((it, (key, value)) :: l) (<[key:=it]> m) cap) ((key, value) :: a).
Proof.
  intros [<- Hn Hk Hm Hc Hl] Hit Hkey%entries_None Hlt. cbn [cache_list_ cache_map_ capacity_] in *.
  split; cbn [cache_list_ cache_map_ capacity_]; [done| | | |done|cbn; lia].
  - by apply distinct_cons.
  - by apply distinct_cons.
  - by rewrite Hm.
Qed.

(** Dropping a node and its key. *)
Lemma drop_rep l m cap a it key value :
  lru_rep (mkLRU l m cap) a -> (it, (key, value)) ∈ l ->
  lru_rep (mkLRU (rm it l) (delete key m) cap) (rm key a).
Proof.
  intros [<- Hn Hk Hm Hc Hl] Hin. cbn [cache_list_ cache_map_ capacity_] in *.
  destruct (rm_node _ it key value Hn Hk Hin) as [Hr Hi].
  split; cbn [cache_list_ cache_map_ capacity_]; [done| | | |done|].
  - by apply rm_distinct.
  - by apply rm_distinct.
  - by rewrite Hi, rm_entries, Hm.
  - rewrite length_rm by done. lia.
Qed.

(** The last entry of the recency list is the last node. *)
Lemma drop_last_rep l m cap a it key value :
  lru_rep (mkLRU (l ++ [(it, (key, value))]) m cap) a ->
  lru_rep (mkLRU l (delete key m) cap) (removelast a) /\ a = removelast a ++ [(key, value)].
Proof.
  intros HR. assert (a = l.*2 ++ [(key, value)]) as Ha by (rewrite <- (rep_list _ _ HR); cbn; by rewrite fmap_app).
  subst a. rewrite removelast_last. split; [|done].
  rewrite <- (rm_snoc it (key, value) l (rep_nodes _ _ HR)), <- (rm_snoc key value l.*2 (rep_keys _ _ HR)) at 1.
  eapply drop_rep; [exact HR|]. apply elem_of_app. right. by left.
Qed.

(** What [std::prev(end)] and [pop_back] do to a list of represented nodes. *)
Lemma lru_evict_rep c a : lru_rep c a -> a <> [] ->
  exists it key value, prev_end (cache_list_ c) = Ret it /\ deref (cache_list_ c) it = Ret (key, value) /\
    pop_back (cache_list_ c) = Ret (removelast (cache_list_ c)) /\
    lru_rep (mkLRU (removelast (cache_list_ c)) (delete key (cache_map_ c)) (capacity_ c)) (removelast a).
Proof.
  destruct c as [l m cap]. intros HR Ha. cbn [cache_list_ cache_map_ capacity_] in *.
  destruct l as [|[it [key v]] l _] using rev_ind; [by rewrite <- (rep_list _ _ HR) in Ha|].
  exists it, key, v. rewrite removelast_last. split_and!.
  - unfold prev_end. by rewrite last_snoc.
  - apply deref_in; [apply HR|]. apply elem_of_app. right. by left.
  - unfold pop_back. rewrite decide_False by (by destruct l). by rewrite removelast_last.
  - by apply (drop_last_rep _ _ _ _ it key v).
Qed.

Lemma lru_put_rep c a key value : lru_rep c a ->
  exists c', put_impl c key value = Ret (true, c') /\ capacity_ c' = capacity_ c /\
    lru_rep c' (lru_put (capacity_ c) a key value).
Proof.
  intros HR. pose proof (rep_lookup _ _ key HR) as Hm. unfold put_impl, lru_put.
  destruct (cache_map_ c !! key) as [it|] eqn:Hck.
  - destruct Hm as (v & Hin & ->). rewrite (deref_in _ it (key, v)) by (done || apply HR). ret_step.
    destruct c as [l m cap]. destruct (assign_rep l m cap a it key v value HR Hin) as [HA Hrm].
    cbn [cache_list_ cache_map_ capacity_ fst] in *.
    destruct (move_to_front_rep _ _ it key value HA) as (c' & -> & HR' & Hc & _); [by eapply assign_in|].
    ret_step. exists c'. rewrite Hrm in HR'. done.
  - rewrite Hm. rewrite (rep_length _ _ HR). case_decide as Hfull.
    + pose proof (rep_cap _ _ HR). destruct (lru_evict_rep c a HR) as (it & k & v & -> & Hd & Hp & HE);
        [by destruct a; cbn in *; [lia|]|].
      ret_step. rewrite Hd. ret_step. rewrite Hp. ret_step.
      eexists. split_and!; [done|done|]. cbn [cache_list_ cache_map_ capacity_]. apply emplace_rep; [done|apply alloc_fresh| |].
      * eapply lookup_weaken_None; [exact Hm|]. apply sublist_entries; [apply HR|]. apply distinct_removelast, HR.
      * pose proof (rep_len _ _ HR). destruct a as [|e a _] using rev_ind; [cbn in *; lia|].
        rewrite removelast_last. rewrite length_app in *. cbn in *. lia.
    + ret_step. eexists. split_and!; [done|done|]. destruct c as [l m cap]. cbn [cache_list_ cache_map_ capacity_] in *.
      apply emplace_rep; [done|apply alloc_fresh|done|lia].
Qed.

Lemma lru_remove_rep c a key : lru_rep c a ->
  exists c', lru_remove c key = Ret (bool_decide (is_Some (entries a !! key)), c') /\ capacity_ c' = capacity_ c /\
    lru_rep c' (rm key a).
Proof.
  intros HR. pose proof (rep_lookup _ _ key HR) as Hm. unfold lru_remove.
  destruct (cache_map_ c !! key) as [it|]; [|rewrite Hm, rm_absent by done; eauto].
  destruct Hm as (v & Hin & Hv). rewrite Hv, (erase_in _ it (key, v)) by (done || apply HR). ret_step.
  eexists. split_and!; [done|done|]. destruct c. by eapply drop_rep.
Qed.

Lemma lru_empty_rep c a : lru_rep c a -> lru_empty c = bool_decide (a = []).
Proof.
  intros HR. unfold lru_empty. apply bool_decide_ext. rewrite <- (rep_list _ _ HR). by destruct (cache_list_ c).
Qed.

Lemma lru_contains_rep c a key : lru_rep c a -> lru_contains c key = bool_decide (is_Some (entries a !! key)).
Proof.
  intros HR. pose proof (rep_lookup _ _ key HR) as Hm. unfold lru_contains. apply bool_decide_ext.
  destruct (cache_map_ c !! key); [destruct Hm as (v & _ & ->)|rewrite Hm]; split; by eauto.
Qed.

Lemma clear_rep c a : lru_rep c a -> lru_rep (lru_clear c) [].
Proof. intros HR. split; cbn; try done; [by apply NoDup_nil_2..|apply HR|lia]. Qed.

Definition lru_sim (cap : nat) c a : Prop := lru_rep c a /\ capacity_ c = cap.

#[global] Instance lru_simulates (cap : nat) : Simulates (cache_step (C := LRUCache)) (lru_spec cap) (lru_sim cap).
Proof.
  intros c a o [HR <-]. unfold lru_sim. destruct o as [k|k v|k| | | | |k]; cbn [lru_spec cache_step].
  - destruct (lru_get_rep c a k HR) as (c' & Hg & Hc & HR'). cbn [get LRUCache_ICache]. rewrite Hg.
    destruct (entries a !! k); eauto.
  - destruct (lru_put_rep c a k v HR) as (c' & Hp & Hc & HR'). cbn [put LRUCache_ICache]. rewrite Hp. eauto.
  - destruct (lru_remove_rep c a k HR) as (c' & Hr & Hc & HR'). cbn [remove LRUCache_ICache]. rewrite Hr. eauto.
  - eauto using clear_rep.
  - cbn [size LRUCache_ICache]. unfold lru_size. rewrite (rep_length _ _ HR). eauto.
  - eauto.
  - cbn [empty LRUCache_ICache]. rewrite (lru_empty_rep _ _ HR). eauto.
  - cbn [contains LRUCache_ICache]. rewrite (lru_contains_rep _ _ _ HR). eauto.
Qed.

Lemma lru_new_sim (cap : nat) : 0 < cap -> lru_sim cap (mkLRU [] ∅ cap) [].
Proof. intros. split; [|done]. split; cbn; try done; [by apply NoDup_nil_2..|lia]. Qed.

Definition lru_holds c (m : gmap Key Value) : Prop := exists a, lru_rep c a /\ m = entries a.

#[global] Instance lru_laws : ICacheLaws lru_holds.
Proof.
  split.
  - intros c m k (a & HR & ->). destruct (lru_get_rep c a k HR) as (c' & Hg & Hc & HR'). exists c'. split_and!; [done| |done].
    eexists. split; [done|]. destruct (entries a !! k) eqn:Hk; [|done]. by rewrite promote_entries.
  - intros c m k v (a & HR & ->). destruct (lru_put_rep c a k v HR) as (c' & Hp & Hc & HR').
    destruct (lru_put_ok (capacity_ c) a k v) as (Hd & Hl & Hk & Hs & He); [apply HR..|].
    exists c', (entries (lru_put (capacity_ c) a k v)). split_and!; [done|by eexists|done|done|done|].
    rewrite entries_size by apply HR. exact He.
  - intros c m k (a & HR & ->). destruct (lru_remove_rep c a k HR) as (c' & Hr & Hc & HR'). exists c'.
    split_and!; [done| |done]. exists (rm k a). by rewrite rm_entries.
  - intros c m (a & HR & ->). split; [|done]. exists []. eauto using clear_rep.
  - intros c m (a & HR & ->). rewrite entries_size by apply HR. cbn. unfold lru_size, lru_capacity.
    rewrite (rep_length _ _ HR). split; [done|apply HR].
  - intros c m (a & HR & ->). cbn. rewrite (lru_empty_rep _ _ HR). apply nil_entries.
  - intros c m k (a & HR & ->). by apply lru_contains_rep.
Qed.
End lru_cache.
Arguments LRUCache Key Value {_ _}.
End LRU.

(** From a new cache of a positive capacity every sequence of operations
    observes what it observes on the recency list: a hit moves its entry to the
    front, a new key in a full cache evicts the entry least recently used and
    nothing else, and no iterator is ever used after its node is gone. *)
Theorem lru_cache_refines {Key Value : Type} `{Countable Key} (cap : nat) (ops : list (cache_op Key Value)) :
  0 < cap ->
  exists c a os c',
    LRU.lru_new cap = Ret c /\ trace (lru_spec cap) [] ops = Ret (a, os) /\
    trace cache_step c ops = Ret (c', os) /\ (LRU.cache_list_ c').*2 = a /\ length a <= cap /\ distinct a.
Proof.
  intros Hcap. destruct (trace_refines_total ops _ [] (lru_spec_total cap) (LRU.lru_new_sim cap Hcap)) as (c' & a & os & Ha & Hc & [HR Hcap']).
  exists (LRU.mkLRU [] ∅ cap), a, os, c'. unfold LRU.lru_new. rewrite decide_False by lia.
  destruct HR. subst. by split_and!.
Qed.

Lemma lru_cache_refines_witness :
  exists c a os c', LRU.lru_new 2 = Ret c /\
    trace (lru_spec 2) [] [Put 1 10; Put 2 20; Get 1; Put 3 30; Get 2; Size; Put 3 31; Remove 1; Contains 3] = Ret (a, os) /\
    trace cache_step c [Put 1 10; Put 2 20; Get 1; Put 3 30; Get 2; Size; Put 3 31; Remove 1; Contains 3] = Ret (c', os) /\
    (LRU.cache_list_ c').*2 = a /\ length a <= 2 /\ distinct a.
Proof. apply (lru_cache_refines 2). lia. Defined.

(** The operations of the witness evaluate: key 2, not 1, was evicted. *)
Example lru_evicts_oldest :
  snd <$> trace cache_step (LRU.mkLRU [] ∅ 2) [Put 1 10; Put 2 20; Get 1; Put 3 30; Get 2; Get 1] =
  Ret (inl <$> [OBool true; OBool true; OOpt (Some 10); OBool true; OOpt None; OOpt (Some 10)]).
Proof. vm_compute. reflexivity. Qed.
