(* ===== verification/LFUCache.v ===== *)
(** * Least-frequently-used cache

    Models [cache/LFUCache.hpp].  One list of nodes per frequency, a map from
    keys to nodes, and the least frequency in use.  An iterator is the identity
    of a node, whichever list the node is in; erasing a node from a list it is
    not in, or using one that is in none, is undefined.  Frequencies are
    unbounded here: a [size_t] counter wraps after 2^64 accesses to one entry. *)

From stdpp Require Import fin_sets.
From S2P Require Import Prelude Refinement CacheSpec LRUCache.

Module LFU.
Import NodeList.
Section lfu_cache.
Context {Key Value : Type} `{Countable Key}.

Record LFUCache := mkLFU {
  freq_list_map_ : gmap nat (list (node * (Key * (Value * nat))));
  key_map_ : gmap Key node;
  capacity_ : nat;
  min_freq_ : nat;
}.

Implicit Types (c : LFUCache) (key : Key) (value : Value) (it : node) (freq : nat).
Implicit Types (e : Key * (Value * nat)) (l : list (node * (Key * (Value * nat)))).
Implicit Types (m : gmap nat (list (node * (Key * (Value * nat))))) (a : list (Key * (Value * nat))).

Definition with_lists c m : LFUCache := mkLFU m (key_map_ c) (capacity_ c) (min_freq_ c).
Definition with_keys c (km : gmap Key node) : LFUCache := mkLFU (freq_list_map_ c) km (capacity_ c) (min_freq_ c).
Definition with_min c freq : LFUCache := mkLFU (freq_list_map_ c) (key_map_ c) (capacity_ c) freq.

(** ** Iterators into whichever list holds the node *)

Definition map_deref m it : outcome (Key * (Value * nat)) :=
  match omap (fun fl => entries fl.2 !! it) (map_to_list m) with
  | e :: _ => Ret e
  | [] => Undef
  end.

Definition map_assign m it e : gmap nat (list (node * (Key * (Value * nat)))) :=
  (fun l => assign l it e) <$> m.

(** A node unlike every node of every list. *)
Definition map_alloc m : node := alloc (mjoin (map_to_list m).*2).*1.

(** [std::min_element] over the keys of the map. *)
Definition min_element (fs : list nat) : option nat :=
  match fs with [] => None | f :: fs => Some (foldl Nat.min f fs) end.

(** ** Operations *)

Definition lfu_new (capacity : Z) : outcome LFUCache :=
  if decide (capacity <= 0)%Z then Throw invalid_argument else Ret (mkLFU ∅ ∅ (Z.to_nat capacity) 0).

(** [freq_list_map_\[freq\]] *)
Definition get_or_create_freq_list c freq : list (node * (Key * (Value * nat))) := default [] (freq_list_map_ c !! freq).

Definition remove_empty_freq_list c freq : LFUCache :=
  match freq_list_map_ c !! freq with
  | None => c
  | Some freq_list =>
    if decide (freq_list = []) then
      let c := with_lists c (delete freq (freq_list_map_ c)) in
      if decide (freq = min_freq_ c) then
        with_min c (match min_element (map_to_list (freq_list_map_ c)).*1 with Some f => f | None => 0 end)
      else c
    else c
  end.

(** Erase a node from the list of its frequency, and the list if it is left empty. *)
Definition erase_node c freq it : outcome LFUCache :=
  l ← erase (get_or_create_freq_list c freq) it;
  Ret (remove_empty_freq_list (with_lists c (<[freq:=l]> (freq_list_map_ c))) freq).

(** Put a new node at the front of the list of its frequency. *)
Definition push_node c key value freq : LFUCache :=
  let it := map_alloc (freq_list_map_ c) in
  let l := (it, (key, (value, freq))) :: get_or_create_freq_list c freq in
  with_keys (with_lists c (<[freq:=l]> (freq_list_map_ c))) (<[key:=it]> (key_map_ c)).

Definition update_frequency c it : outcome LFUCache :=
  '(key, (value, old_freq)) ← map_deref (freq_list_map_ c) it;
  let new_freq := S old_freq in
  c ← erase_node c old_freq it;
  let c := push_node c key value new_freq in
  Ret (if decide (min_freq_ c = 0 \/ new_freq < min_freq_ c) then with_min c new_freq else c).

(** [get]: the non-const overload counts the access, the const one does not. *)
Definition get_impl (is_const : bool) c key : outcome (option Value * LFUCache) :=
  match key_map_ c !! key with
  | None => Ret (None, c)
  | Some it =>
    e ← map_deref (freq_list_map_ c) it;
    let value := e.2.1 in
    c ← (if is_const then Ret c else update_frequency c it);
    Ret (Some value, c)
  end.

Definition evict_lfu_item c : outcome (bool * LFUCache) :=
  match freq_list_map_ c !! min_freq_ c with
  | None => Ret (false, c)
  | Some min_freq_list =>
    lfu_it ← prev_end min_freq_list;
    e ← deref min_freq_list lfu_it;
    let c := with_keys c (delete e.1 (key_map_ c)) in
    c ← erase_node c (min_freq_ c) lfu_it;
    Ret (true, c)
  end.

Definition put_impl c key value : outcome (bool * LFUCache) :=
  match key_map_ c !! key with
  | Some it =>
    e ← map_deref (freq_list_map_ c) it;
    let c := with_lists c (map_assign (freq_list_map_ c) it (e.1, (value, e.2.2))) in
    c ← update_frequency c it;
    Ret (true, c)
  | None =>
    '(ok, c) ← (if decide (capacity_ c <= base.size (key_map_ c)) then evict_lfu_item c else Ret (true, c));
    if ok : bool then Ret (true, with_min (push_node c key value 1) 1)
    else Ret (false, c)
  end.

Definition lfu_remove c key : outcome (bool * LFUCache) :=
  match key_map_ c !! key with
  | None => Ret (false, c)
  | Some it =>
    e ← map_deref (freq_list_map_ c) it;
    c ← erase_node c e.2.2 it;
    Ret (true, with_keys c (delete key (key_map_ c)))
  end.

Definition lfu_clear c : LFUCache := mkLFU ∅ ∅ (capacity_ c) 0.
Definition lfu_size c : nat := base.size (key_map_ c).
Definition lfu_capacity c : nat := capacity_ c.
Definition lfu_empty c : bool := bool_decide (key_map_ c = ∅).
Definition lfu_contains c key : bool := bool_decide (is_Some (key_map_ c !! key)).

#[global] Instance LFUCache_ICache : ICache Key Value LFUCache := {|
  get := get_impl false; put := put_impl; remove := lfu_remove; clear := lfu_clear; size := lfu_size;
  capacity := lfu_capacity; empty := lfu_empty; contains := lfu_contains;
|}.

(** ** Specification: the entries with their frequencies, most recent first *)

Definition min_freq a : nat := default 0 (min_element ((fun e => e.2.2) <$> a)).

(** The victim: the least recently used among the least frequently used. *)
Definition victim a : option Key := fst <$> last (filter (fun e => e.2.2 = min_freq a) a).

Definition lfu_touch a key value freq : list (Key * (Value * nat)) := (key, (value, freq)) :: rm key a.

Definition lfu_evict a : list (Key * (Value * nat)) := match victim a with Some k => rm k a | None => a end.

Definition lfu_put (cap : nat) a key value : list (Key * (Value * nat)) :=
  match entries a !! key with
  | Some (_, f) => lfu_touch a key value (S f)
  | None => (key, (value, 1)) :: (if decide (cap <= length a) then lfu_evict a else a)
  end.

Definition lfu_spec (cap : nat) a (o : cache_op Key Value) : outcome (list (Key * (Value * nat)) * obs Value) :=
  match o with
  | Get k => match entries a !! k with
             | Some (v, f) => Ret (lfu_touch a k v (S f), OOpt (Some v))
             | None => Ret (a, OOpt None)
             end
  | Put k v => Ret (lfu_put cap a k v, OBool true)
  | Remove k => Ret (rm k a, OBool (bool_decide (is_Some (entries a !! k))))
  | Clear => Ret ([], ODone)
  | Size => Ret (a, ONum (length a))
  | Capacity => Ret (a, ONum cap)
  | Empty => Ret (a, OBool (bool_decide (a = [])))
  | Contains k => Ret (a, OBool (bool_decide (is_Some (entries a !! k))))
  end.

Lemma lfu_spec_total cap : total_spec (lfu_spec cap).
Proof. intros a o. destruct o; cbn; repeat case_match; split; discriminate. Qed.

(** ** Minima *)

Definition is_min (fs : list nat) f : Prop := (fs = [] /\ f = 0) \/ (f ∈ fs /\ forall g, g ∈ fs -> f <= g).

Lemma min_element_spec fs f : default 0 (min_element fs) = f <-> is_min fs f.
Proof using.
  assert (forall gs g, let r := foldl Nat.min g gs in r ∈ g :: gs /\ forall x, x ∈ g :: gs -> r <= x) as Hfold.
  { induction gs as [|y gs IH]; intros g; cbn; [by split; [left|intros x ->%list_elem_of_singleton]|].
    destruct (IH (g `min` y)) as [Hin Hle]. split.
    - apply elem_of_cons in Hin as [->|Hin]; [|by do 2 right]. destruct (Nat.min_spec g y) as [[_ ->]|[_ ->]]; [left|right; left].
    - pose proof (Hle (g `min` y) (list_elem_of_here _ _)).
      intros x [->|[->|Hx]%elem_of_cons]%elem_of_cons; [lia|lia|]. apply Hle. by right. }
  destruct fs as [|g gs]; cbn.
  - split; [intros <-; by left|]. by intros [[_ ->]|[?%elem_of_nil _]].
  - destruct (Hfold gs g) as [Hin Hle]. split; [intros <-; by right|].
    intros [[? _]|[Hin' Hle']]; [done|]. apply Nat.le_antisymm; auto.
Qed.

Lemma is_min_same fs fs' f : (forall g, g ∈ fs <-> g ∈ fs') -> is_min fs f -> is_min fs' f.
Proof using.
  intros Heq [[-> ->]|[Hin Hle]].
  - left. split; [|done]. destruct fs' as [|g fs']; [done|]. exfalso. by apply (not_elem_of_nil g), Heq, list_elem_of_here.
  - right. split; [by apply Heq|]. intros g Hg. by apply Hle, Heq.
Qed.

Definition freqs a : list nat := (fun e => e.2.2) <$> a.

Lemma min_freq_is_min a f : is_min (freqs a) f <-> min_freq a = f.
Proof using. symmetry. apply min_element_spec. Qed.

(** ** The lists by frequency are the recency list of the nodes, filtered *)

Definition of_freq freq l := filter (fun n => n.2.2.2 = freq) l.
Definition bucket freq l : option (list (node * (Key * (Value * nat)))) :=
  if decide (of_freq freq l = []) then None else Some (of_freq freq l).
Definition buckets m l : Prop := forall freq, m !! freq = bucket freq l.

Lemma of_freq_in freq l it e : (it, e) ∈ of_freq freq l <-> e.2.2 = freq /\ (it, e) ∈ l.
Proof using. unfold of_freq. by rewrite list_elem_of_filter. Qed.

Lemma of_freq_distinct freq l : distinct l -> distinct (of_freq freq l).
Proof using. intros Hd. eapply sublist_NoDup; [exact Hd|]. apply (fmap_sublist fst), sublist_filter. Qed.

Lemma buckets_default m l freq : buckets m l -> default [] (m !! freq) = of_freq freq l.
Proof using. intros Hb. rewrite Hb. unfold bucket. by case_decide as E. Qed.

Lemma buckets_in m l freq lf : buckets m l -> (freq, lf) ∈ map_to_list m <-> lf = of_freq freq l /\ lf <> [].
Proof using.
  intros Hb. rewrite elem_of_map_to_list, Hb. unfold bucket. case_decide as E; split; [done|naive_solver|naive_solver|naive_solver].
Qed.

(** Every node is in the list of its frequency. *)
Lemma buckets_node m l it e : buckets m l -> (it, e) ∈ l -> (e.2.2, of_freq e.2.2 l) ∈ map_to_list m.
Proof using.
  intros Hb Hin. apply (buckets_in _ _ _ _ Hb). split; [done|]. intros E.
  assert ((it, e) ∈ of_freq e.2.2 l) as Hin' by (by apply of_freq_in). rewrite E in Hin'. by apply elem_of_nil in Hin'.
Qed.

Lemma map_deref_ok m l it e : buckets m l -> distinct l -> (it, e) ∈ l -> map_deref m it = Ret e.
Proof using.
  intros Hb Hd Hin. unfold map_deref. set (es := omap _ _).
  assert (forall x, x ∈ es -> x = e) as Hall.
  { intros x ([f lf] & Hf & Hx)%list_elem_of_omap. apply (buckets_in _ _ _ _ Hb) in Hf as [-> _]. cbn in Hx.
    apply (entries_lookup _ _ _ (of_freq_distinct _ _ Hd)), of_freq_in in Hx as [_ Hx].
    apply (entries_lookup _ _ _ Hd) in Hin, Hx. congruence. }
  assert (e ∈ es) as He.
  { apply list_elem_of_omap. eexists. split; [by eapply buckets_node|]. cbn.
    apply entries_lookup; [by apply of_freq_distinct|]. by apply of_freq_in. }
  destruct es as [|x es]; [by apply elem_of_nil in He|]. by rewrite (Hall x (list_elem_of_here _ _)).
Qed.

Lemma map_alloc_fresh m l : buckets m l -> map_alloc m ∉ l.*1.
Proof using.
  intros Hb ([it e] & E & Hin)%list_elem_of_fmap. apply (alloc_fresh (mjoin (map_to_list m).*2).*1).
  change (alloc (mjoin (map_to_list m).*2).*1) with (map_alloc m). rewrite E. apply list_elem_of_fmap. exists (it, e). split; [done|].
  apply list_elem_of_join. exists (of_freq e.2.2 l). split; [by apply of_freq_in|].
  apply list_elem_of_fmap. eexists (_, _). split; [|by eapply buckets_node]. done.
Qed.

(** Removing a node from the recency list removes it from its frequency's list only. *)
Lemma of_freq_rm freq l it : of_freq freq (rm it l) = rm it (of_freq freq l).
Proof using.
  unfold of_freq, rm. rewrite !list_filter_filter. apply list_filter_iff. naive_solver.
Qed.

Lemma of_freq_rm_ne freq l it e : distinct l -> (it, e) ∈ l -> e.2.2 <> freq -> of_freq freq (rm it l) = of_freq freq l.
Proof using.
  intros Hd Hin Hne. rewrite of_freq_rm. apply rm_absent, entries_None.
  intros ([i x] & -> & [Hx Hin']%of_freq_in)%list_elem_of_fmap. cbn in *.
  apply (entries_lookup _ _ _ Hd) in Hin, Hin'. congruence.
Qed.

Lemma buckets_keys m l : buckets m l -> forall freq, freq ∈ (map_to_list m).*1 <-> freq ∈ freqs l.*2.
Proof using.
  intros Hb freq. unfold freqs. rewrite <- list_fmap_compose, !list_elem_of_fmap. split.
  - intros ([f lf] & -> & [-> Hne]%(buckets_in _ _ _ _ Hb)). cbn. destruct (of_freq f l) as [|[it e] lf] eqn:E; [done|].
    assert ((it, e) ∈ of_freq f l) as [Hf Hin]%of_freq_in by (rewrite E; left). by exists (it, e).
  - intros ([it e] & -> & Hin). eexists (_, _). split; [|by eapply buckets_node]. done.
Qed.

Lemma freqs_in l freq : freq ∈ freqs l.*2 <-> of_freq freq l <> [].
Proof using.
  unfold freqs. rewrite <- list_fmap_compose, list_elem_of_fmap. split.
  - intros ([it e] & -> & Hin) E. assert ((it, e) ∈ of_freq e.2.2 l) as Hin' by (by apply of_freq_in).
    cbn in E. rewrite E in Hin'. by apply elem_of_nil in Hin'.
  - destruct (of_freq freq l) as [|[it e] lf] eqn:E; [done|]. intros _.
    assert ((it, e) ∈ of_freq freq l) as [Hf Hin]%of_freq_in by (rewrite E; left). by exists (it, e).
Qed.

(** When the least frequency still has an entry it stays the least. *)
Lemma is_min_rm l it f :
  is_min (freqs l.*2) f -> of_freq f (rm it l) <> [] -> is_min (freqs (rm it l).*2) f.
Proof using.
  intros [[E _]|[_ Hle]] Hne.
  - destruct l; [|done]. done.
  - right. split; [by apply freqs_in|]. intros g Hg%freqs_in. apply Hle, freqs_in. rewrite of_freq_rm in Hg.
    intros E. by rewrite E in Hg.
Qed.

Lemma erase_node_ok c l it e :
  buckets (freq_list_map_ c) l -> distinct l -> (it, e) ∈ l -> is_min (freqs l.*2) (min_freq_ c) ->
  exists c', erase_node c e.2.2 it = Ret c' /\ buckets (freq_list_map_ c') (rm it l) /\
    is_min (freqs (rm it l).*2) (min_freq_ c') /\ key_map_ c' = key_map_ c /\ capacity_ c' = capacity_ c.
Proof using.
  intros Hb Hd Hin Hmin. unfold erase_node, get_or_create_freq_list. rewrite (buckets_default _ _ _ Hb).
  set (freq := e.2.2). rewrite (erase_in _ it e); [|by apply of_freq_distinct|by apply of_freq_in]. ret_step.
  eexists. split; [done|]. rewrite <- of_freq_rm. set (lf := of_freq freq (rm it l)).
  assert (forall g, g <> freq -> bucket g (rm it l) = bucket g l) as Hother.
  { intros g Hg. unfold bucket. by rewrite !(of_freq_rm_ne g l it e) by done. }
  unfold remove_empty_freq_list. cbn [freq_list_map_ with_lists]. rewrite lookup_insert_eq.
  destruct (decide (lf = [])) as [Hlf|Hlf].
  - assert (buckets (delete freq (<[freq:=lf]> (freq_list_map_ c))) (rm it l)) as Hb'.
    { intros g. destruct (decide (g = freq)) as [->|Hg]; [rewrite lookup_delete_eq; unfold bucket; by rewrite decide_True|].
      rewrite lookup_delete_ne, lookup_insert_ne, Hother by done. apply Hb. }
    cbn [min_freq_ with_lists]. case_decide as Hf; cbn [freq_list_map_ min_freq_ key_map_ capacity_ with_min with_lists];
      (split_and!; [exact Hb'| |done|done]).
    + apply (is_min_same (map_to_list (delete freq (<[freq:=lf]> (freq_list_map_ c)))).*1); [by apply buckets_keys|].
      apply min_element_spec. by destruct (min_element _).
    + apply is_min_rm; [done|]. rewrite (of_freq_rm_ne _ _ _ e) by (done || congruence).
      destruct Hmin as [[E _]|[Hm _]]; [by destruct l; [apply elem_of_nil in Hin|]|by apply freqs_in].
  - split_and!; try done; cbn [freq_list_map_ min_freq_ with_lists].
    + intros g. destruct (decide (g = freq)) as [->|Hg]; [rewrite lookup_insert_eq; unfold bucket; by rewrite decide_False|].
      rewrite lookup_insert_ne, Hother by done. apply Hb.
    + apply is_min_rm; [done|]. destruct (decide (min_freq_ c = freq)) as [->|Hne]; [done|].
      rewrite (of_freq_rm_ne _ _ _ e) by (done || congruence).
      destruct Hmin as [[E _]|[Hm _]]; [by destruct l; [apply elem_of_nil in Hin|]|by apply freqs_in].
Qed.

Lemma push_node_ok c l key value freq :
  buckets (freq_list_map_ c) l ->
  let it := map_alloc (freq_list_map_ c) in
  let c' := push_node c key value freq in
  (it ∉ l.*1) /\ buckets (freq_list_map_ c') ((it, (key, (value, freq))) :: l) /\
  key_map_ c' = <[key:=it]> (key_map_ c) /\ capacity_ c' = capacity_ c /\ min_freq_ c' = min_freq_ c.
Proof using.
  intros Hb it c'. split_and!; [by apply map_alloc_fresh| |done..].
  intros g. unfold c', push_node, get_or_create_freq_list. cbn [freq_list_map_ with_lists with_keys].
  rewrite (buckets_default _ _ _ Hb). unfold bucket, of_freq. rewrite filter_cons. cbn [snd].
  destruct (decide (freq = g)) as [->|Hne]; [by rewrite lookup_insert_eq|].
  rewrite lookup_insert_ne by done. apply Hb.
Qed.

Lemma assign_freqs l it key v v' f :
  distinct l -> (it, (key, (v, f))) ∈ l ->
  freqs (assign l it (key, (v', f))).*2 = freqs l.*2.
Proof using.
  intros Hd Hin. unfold freqs, assign. rewrite <- !list_fmap_compose. apply list_fmap_ext. intros i [j x] Hx%list_elem_of_lookup_2. cbn.
  case_decide as Hj; [|done]. subst j. apply (entries_lookup _ _ _ Hd) in Hin, Hx. rewrite Hin in Hx. by injection Hx as <-.
Qed.

Lemma list_assign_ok m l it e e' :
  buckets m l -> distinct l -> (it, e) ∈ l -> e'.2.2 = e.2.2 -> buckets (map_assign m it e') (assign l it e').
Proof using.
  intros Hb Hd Hin He g. unfold map_assign. rewrite lookup_fmap, Hb. unfold bucket.
  assert (of_freq g (assign l it e') = assign (of_freq g l) it e') as ->.
  { unfold of_freq, assign. rewrite filter_image. f_equal. apply filter_ext_in. intros [i x] Hx. cbn.
    case_decide as Hi; [|done]. subst i. cbn. apply (entries_lookup _ _ _ Hd) in Hin, Hx. naive_solver congruence. }
  unfold assign. destruct (of_freq g l); by repeat case_decide.
Qed.

(** ** Representation *)

Record lfu_nodes c l a : Prop := {
  ln_rep : LRU.lru_rep (LRU.mkLRU l (key_map_ c) (capacity_ c)) a;
  ln_buckets : buckets (freq_list_map_ c) l;
  ln_min : is_min (freqs a) (min_freq_ c);
  ln_pos : Forall (fun e => 1 <= e.2.2) a;
}.

Definition lfu_rep c a : Prop := exists l, lfu_nodes c l a.

Lemma nodes_snd c l a : lfu_nodes c l a -> l.*2 = a.
Proof using. intros HR. apply (LRU.rep_list _ _ (ln_rep _ _ _ HR)). Qed.

Lemma nodes_distinct c l a : lfu_nodes c l a -> distinct l /\ distinct a.
Proof using. intros HR. split; apply (ln_rep _ _ _ HR). Qed.

Lemma lfu_lookup c l a key : lfu_nodes c l a ->
  match key_map_ c !! key with
  | Some it => exists e, e.1 = key /\ (it, e) ∈ l /\ entries a !! key = Some e.2 /\ map_deref (freq_list_map_ c) it = Ret e
  | None => entries a !! key = None
  end.
Proof using.
  intros HR. pose proof (LRU.rep_lookup _ _ key (ln_rep _ _ _ HR)) as Hm. cbn [LRU.cache_map_ LRU.cache_list_] in Hm.
  destruct (key_map_ c !! key) as [it|]; [|done]. destruct Hm as (v & Hin & Hv). exists (key, v). split_and!; try done.
  eapply map_deref_ok; [apply HR|apply (nodes_distinct _ _ _ HR)|done].
Qed.

Lemma min_push fs f g : (forall h, h ∈ fs -> 1 <= h) -> is_min fs f -> is_min (g :: fs) (if decide (f = 0 \/ g < f) then g else f).
Proof using.
  intros Hpos Hm. right. destruct Hm as [[-> ->]|[Hin Hle]].
  - rewrite decide_True by lia. split; [left|]. by intros h ->%list_elem_of_singleton.
  - pose proof (Hpos f Hin). case_decide as Hd; (split; [by constructor|]);
      (intros h [->|Hh%Hle]%elem_of_cons; lia).
Qed.

Lemma rm_pos key a : Forall (fun e => 1 <= e.2.2) a -> Forall (fun e => 1 <= e.2.2) (rm key a).
Proof using. rewrite !Forall_forall. intros Ha e [_ He]%list_elem_of_filter. by apply Ha. Qed.

(** Unlinking a node: its frequency's list, and the minimum. *)
Lemma unlink_ok c l a it e :
  lfu_nodes c l a -> (it, e) ∈ l ->
  exists c', erase_node c e.2.2 it = Ret c' /\ key_map_ c' = key_map_ c /\ capacity_ c' = capacity_ c /\
    lfu_nodes (with_keys c' (delete e.1 (key_map_ c))) (rm it l) (rm e.1 a).
Proof using.
  intros HR Hin. destruct e as [k [v f]]. pose proof (nodes_snd _ _ _ HR) as Hs. pose proof (ln_min _ _ _ HR) as Hmin.
  rewrite <- Hs in Hmin.
  destruct (erase_node_ok c l it (k, (v, f)) (ln_buckets _ _ _ HR) (proj1 (nodes_distinct _ _ _ HR)) Hin Hmin)
    as (c' & Hc' & Hb & Hm & Hk & Hcap).
  exists c'. split_and!; try done. pose proof (LRU.drop_rep _ _ _ _ _ _ _ (ln_rep _ _ _ HR) Hin) as HD.
  split; cbn [freq_list_map_ key_map_ capacity_ min_freq_ with_keys fst]; [by rewrite Hcap|done| |apply rm_pos, HR].
  by rewrite <- (LRU.rep_list _ _ HD).
Qed.

(** Linking a node for a key that is not there. *)
Lemma lfu_link_ok c l a key value freq :
  lfu_nodes c l a -> entries a !! key = None -> length a < capacity_ c -> 1 <= freq ->
  let c' := push_node c key value freq in
  lfu_nodes (with_min c' (if decide (min_freq_ c' = 0 \/ freq < min_freq_ c') then freq else min_freq_ c'))
    ((map_alloc (freq_list_map_ c), (key, (value, freq))) :: l) ((key, (value, freq)) :: a).
Proof using.
  intros HR Hk Hlt Hf c'. destruct (push_node_ok c l key value freq (ln_buckets _ _ _ HR)) as (Hit & Hb & Hkm & Hcap & Hmin).
  fold c' in Hb, Hkm, Hcap, Hmin.
  split; cbn [freq_list_map_ key_map_ capacity_ min_freq_ with_min].
  - rewrite Hkm, Hcap. apply LRU.emplace_rep; [apply HR|done..].
  - done.
  - rewrite Hmin. apply min_push; [|apply HR]. intros h (e & -> & He)%list_elem_of_fmap.
    pose proof (ln_pos _ _ _ HR) as Hpos. rewrite Forall_forall in Hpos. by apply Hpos.
  - constructor; [done|apply HR].
Qed.

Lemma update_frequency_ok c l a it key value freq :
  lfu_nodes c l a -> (it, (key, (value, freq))) ∈ l ->
  exists c', update_frequency c it = Ret c' /\ capacity_ c' = capacity_ c /\ lfu_rep c' (lfu_touch a key value (S freq)).
Proof using.
  intros HR Hin. destruct (nodes_distinct _ _ _ HR) as [Hdl Hda].
  unfold update_frequency. rewrite (map_deref_ok _ _ _ _ (ln_buckets _ _ _ HR) Hdl Hin). ret_step.
  destruct (unlink_ok c l a it _ HR Hin) as (c1 & E1 & Hk1 & Hcap1 & HR1). cbn [fst snd] in E1, HR1. rewrite E1. ret_step. set (c2 := with_keys c1 (delete key (key_map_ c))) in *.
  assert (push_node c1 key value (S freq) = push_node c2 key value (S freq)) as ->.
  { unfold push_node, c2, with_keys, with_lists, get_or_create_freq_list. cbn. by rewrite Hk1, insert_delete_eq. }
  assert (entries a !! key = Some (value, freq)) as Hv.
  { apply entries_lookup; [done|]. rewrite <- (nodes_snd _ _ _ HR). apply list_elem_of_fmap. by eexists (_, _). }
  pose proof (lfu_link_ok c2 _ _ key value (S freq) HR1) as HL. cbn zeta in HL.
  eexists. split; [done|].
  split; [by case_decide|]. eexists.
  match goal with |- lfu_nodes ?x _ _ => assert (x = with_min (push_node c2 key value (S freq)) (if decide (min_freq_ (push_node c2 key value (S freq)) = 0 \/ S freq < min_freq_ (push_node c2 key value (S freq))) then S freq else min_freq_ (push_node c2 key value (S freq)))) as -> end.
  { by case_decide. }
  apply HL; [|  |lia].
  - rewrite rm_entries. apply lookup_delete_eq.
  - unfold c2. cbn. rewrite Hcap1, length_rm, Hv by done. pose proof (LRU.rep_len _ _ (ln_rep _ _ _ HR)) as Hlen. cbn in Hlen.
    destruct a; [|cbn in *; lia]. apply entries_lookup in Hv; [by apply elem_of_nil in Hv|done].
Qed.

Lemma lfu_get_rep c a key : lfu_rep c a ->
  exists c', get_impl false c key = Ret (fst <$> entries a !! key, c') /\ capacity_ c' = capacity_ c /\
    lfu_rep c' (if entries a !! key is Some (v, f) then lfu_touch a key v (S f) else a).
Proof using.
  intros [l HR]. pose proof (lfu_lookup _ _ _ key HR) as Hm. unfold get_impl.
  destruct (key_map_ c !! key) as [it|].
  - destruct Hm as ([k [v f]] & Hk & Hin & -> & ->). cbn [fst] in Hk. subst k. ret_step. cbn [fst snd].
    destruct (update_frequency_ok _ _ _ _ _ _ _ HR Hin) as (c' & -> & Hc & HR'). ret_step. eauto.
  - rewrite Hm. eexists. split_and!; [done..|by exists l].
Qed.

(** The const overload returns the same and changes nothing. *)
Lemma get_const c a key : lfu_rep c a -> get_impl true c key = Ret (fst <$> entries a !! key, c).
Proof using.
  intros [l HR]. pose proof (lfu_lookup _ _ _ key HR) as Hm. unfold get_impl.
  destruct (key_map_ c !! key) as [it|]; [|by rewrite Hm]. by destruct Hm as (e & _ & _ & -> & ->).
Qed.

Lemma lfu_size_rep c a : lfu_rep c a -> base.size (key_map_ c) = length a.
Proof using.
  intros [l HR]. pose proof (LRU.rep_map _ _ (ln_rep _ _ _ HR)) as Hm. cbn in Hm. rewrite Hm.
  pose proof (nodes_snd _ _ _ HR) as Hs. rewrite <- Hs, length_fmap. trans (length (LRU.index l)); [|apply length_fmap].
  apply entries_size. unfold distinct. rewrite LRU.index_keys, (nodes_snd _ _ _ HR). apply (nodes_distinct _ _ _ HR).
Qed.

(** The last node of the list of the least frequency is the victim's. *)
Lemma victim_node c l a : lfu_nodes c l a -> a <> [] ->
  exists it e l0, of_freq (min_freq_ c) l = l0 ++ [(it, e)] /\ (it, e) ∈ l /\ e.2.2 = min_freq_ c /\ victim a = Some e.1 /\ e.1 ∈ a.*1.
Proof using.
  intros HR Ha. pose proof (ln_min _ _ _ HR) as Hmin. pose proof (proj1 (min_freq_is_min _ _) Hmin) as Hmf.
  destruct Hmin as [[E _]|[Hin _]]; [by destruct a|]. rewrite <- (nodes_snd _ _ _ HR) in Hin. apply freqs_in in Hin.
  destruct (exists_last Hin) as (l0 & [it e] & E). exists it, e, l0.
  assert ((it, e) ∈ of_freq (min_freq_ c) l) as [Hf Hel]%of_freq_in by (rewrite E; apply elem_of_app; right; left).
  split_and!; try done.
  - unfold victim. rewrite Hmf, <- (nodes_snd _ _ _ HR), filter_image. unfold of_freq in E. rewrite E, fmap_app. cbn.
    by rewrite last_snoc.
  - apply list_elem_of_fmap. exists e. split; [done|]. rewrite <- (nodes_snd _ _ _ HR). apply list_elem_of_fmap. by exists (it, e).
Qed.

Lemma lfu_evict_rep c a : lfu_rep c a -> a <> [] ->
  exists c', evict_lfu_item c = Ret (true, c') /\ capacity_ c' = capacity_ c /\ lfu_rep c' (lfu_evict a) /\
    length (lfu_evict a) < length a /\ lfu_evict a `sublist_of` a.
Proof using.
  intros [l HR] Ha. destruct (nodes_distinct _ _ _ HR) as [Hdl Hda].
  destruct (victim_node c l a HR Ha) as (it & e & l0 & E & Hin & Hf & Hv & Hk).
  unfold evict_lfu_item. rewrite (ln_buckets _ _ _ HR). unfold bucket. rewrite decide_False by (rewrite E; by destruct l0).
  unfold prev_end. rewrite E, last_snoc. ret_step. rewrite (deref_in _ it e); cycle 1.
  { rewrite <- E. by apply of_freq_distinct. } { apply elem_of_app. right. left. }
  ret_step. destruct (unlink_ok c l a it e HR Hin) as (c1 & E1 & Hk1 & Hcap1 & HR1).
  change (min_freq_ (with_keys c (delete e.1 (key_map_ c)))) with (min_freq_ c). change (it, e).1 with it.
  assert (erase_node (with_keys c (delete e.1 (key_map_ c))) (min_freq_ c) it =
          Ret (with_keys c1 (delete e.1 (key_map_ c)))) as ->.
  { rewrite <- Hf. unfold erase_node in *. unfold get_or_create_freq_list, with_keys in *. cbn [freq_list_map_].
    destruct (erase _ _) as [lf| | |]; try done. revert E1. rewrite !bind_Ret. intros [= <-].
    f_equal. unfold remove_empty_freq_list, with_lists, with_min. cbn [freq_list_map_ key_map_ capacity_ min_freq_].
    rewrite lookup_insert_eq. by repeat case_decide. }
  ret_step. unfold lfu_evict. rewrite Hv. eexists. split_and!; [done|done|by eexists| |].
  - apply elem_of_keys in Hk as [x Hx]. rewrite length_rm, Hx by done. destruct a; [done|cbn; lia].
  - apply sublist_filter.
Qed.

Lemma lfu_put_rep c a key value : lfu_rep c a ->
  exists c', put_impl c key value = Ret (true, c') /\ capacity_ c' = capacity_ c /\ lfu_rep c' (lfu_put (capacity_ c) a key value).
Proof using.
  intros Hrep. pose proof Hrep as [l HR]. pose proof (lfu_lookup _ _ _ key HR) as Hm. unfold put_impl, lfu_put.
  destruct (nodes_distinct _ _ _ HR) as [Hdl Hda].
  destruct (key_map_ c !! key) as [it|].
  - destruct Hm as ([k [v f]] & Hk & Hin & -> & ->). cbn [fst] in Hk. subst k. ret_step. cbn [fst snd].
    destruct (LRU.assign_rep _ _ _ _ _ _ _ (value, f) (ln_rep _ _ _ HR) Hin) as [HA Hrm].
    assert (Hin' : (it, (key, (value, f))) ∈ assign l it (key, (value, f))) by (by eapply assign_in).
    destruct (update_frequency_ok (with_lists c (map_assign (freq_list_map_ c) it (key, (value, f))))
      (assign l it (key, (value, f))) ((assign l it (key, (value, f))).*2) it key value f) as (c' & -> & Hc & HR'); [|exact Hin'|].
    + split; cbn [freq_list_map_ key_map_ capacity_ min_freq_ with_lists].
      * done.
      * eapply list_assign_ok; [apply HR|done|done|done].
      * eapply is_min_same; [|apply HR]. intros g. rewrite <- (nodes_snd _ _ _ HR). by rewrite (assign_freqs l it key v value f).
      * pose proof (ln_pos _ _ _ HR) as Hp. rewrite Forall_forall in *. intros e He.
        assert (e.2.2 ∈ freqs a) as (e' & -> & He')%list_elem_of_fmap; [|by apply Hp].
        rewrite <- (nodes_snd _ _ _ HR), <- (assign_freqs l it key v value f) by done. apply list_elem_of_fmap. by exists e.
    + ret_step. exists c'. unfold lfu_touch in *. rewrite Hrm in HR'. done.
  - rewrite Hm, (lfu_size_rep c a Hrep).
    pose proof (LRU.rep_cap _ _ (ln_rep _ _ _ HR)) as Hcap. pose proof (LRU.rep_len _ _ (ln_rep _ _ _ HR)) as Hlen. cbn in Hcap, Hlen.
    assert (forall c1 a1, lfu_rep c1 a1 -> capacity_ c1 = capacity_ c -> entries a1 !! key = None -> length a1 < capacity_ c ->
      lfu_rep (with_min (push_node c1 key value 1) 1) ((key, (value, 1)) :: a1)) as Hpush.
    { intros c1 a1 [l1 HR1] Hc1 Hk1 Hl1. eexists. pose proof (lfu_link_ok c1 l1 a1 key value 1 HR1 Hk1) as HL. cbn zeta in HL.
      destruct (decide (min_freq_ (push_node c1 key value 1) = 0 \/ 1 < min_freq_ (push_node c1 key value 1))) as [Hd|Hd].
      - apply HL; lia.
      - replace 1 with (min_freq_ (push_node c1 key value 1)) at 2; [apply HL; lia|].
        lia. }
    case_decide as Hfull.
    + destruct (lfu_evict_rep c a Hrep) as (c1 & -> & Hc1 & HR1 & Hl1 & Hs1); [by destruct a; cbn in *; [lia|]|]. ret_step.
      eexists. split_and!; [done|done|]. apply Hpush; [done|done| |lia].
      eapply lookup_weaken_None; [exact Hm|]. by apply sublist_entries.
    + ret_step. eexists. split_and!; [done|done|]. apply Hpush; try done. lia.
Qed.

Lemma lfu_remove_rep c a key : lfu_rep c a ->
  exists c', lfu_remove c key = Ret (bool_decide (is_Some (entries a !! key)), c') /\ capacity_ c' = capacity_ c /\ lfu_rep c' (rm key a).
Proof using.
  intros [l HR]. pose proof (lfu_lookup _ _ _ key HR) as Hm. unfold lfu_remove.
  destruct (key_map_ c !! key) as [it|]; [|rewrite Hm, rm_absent by done; eexists; split_and!; [done..|by exists l]].
  destruct Hm as (e & Hk & Hin & -> & ->). ret_step.
  destruct (unlink_ok c l a it e HR Hin) as (c1 & -> & Hk1 & Hcap1 & HR1). ret_step. subst key. rewrite Hk1.
  eexists. split_and!; [done|done|by eexists].
Qed.

Lemma lfu_clear_rep c a : lfu_rep c a -> lfu_rep (lfu_clear c) [].
Proof using.
  intros [l HR]. exists []. split; [|done|by left|done]. apply (LRU.clear_rep _ _ (ln_rep _ _ _ HR)).
Qed.

Lemma lfu_empty_rep c a : lfu_rep c a -> lfu_empty c = bool_decide (a = []).
Proof using.
  intros HR. unfold lfu_empty. apply bool_decide_ext. rewrite <- map_size_empty_iff, (lfu_size_rep _ _ HR). apply length_zero_iff_nil.
Qed.

Lemma lfu_contains_rep c a key : lfu_rep c a -> lfu_contains c key = bool_decide (is_Some (entries a !! key)).
Proof using. intros [l HR]. by apply (LRU.lru_contains_rep _ _ key (ln_rep _ _ _ HR)). Qed.

Definition lfu_sim (cap : nat) c a : Prop := lfu_rep c a /\ capacity_ c = cap.

#[global] Instance lfu_simulates (cap : nat) : Simulates (cache_step (C := LFUCache)) (lfu_spec cap) (lfu_sim cap).
Proof using.
  intros c a o [HR <-]. unfold lfu_sim. destruct o as [k|k v|k| | | | |k]; cbn [lfu_spec cache_step].
  - destruct (lfu_get_rep c a k HR) as (c' & Hg & Hc & HR'). cbn [get LFUCache_ICache]. rewrite Hg.
    destruct (entries a !! k) as [[v f]|]; eauto.
  - destruct (lfu_put_rep c a k v HR) as (c' & Hp & Hc & HR'). cbn [put LFUCache_ICache]. rewrite Hp. eauto.
  - destruct (lfu_remove_rep c a k HR) as (c' & Hr & Hc & HR'). cbn [remove LFUCache_ICache]. rewrite Hr. eauto.
  - eauto using lfu_clear_rep.
  - cbn [size LFUCache_ICache]. unfold lfu_size. rewrite (lfu_size_rep _ _ HR). eauto.
  - eauto.
  - cbn [empty LFUCache_ICache]. rewrite (lfu_empty_rep _ _ HR). eauto.
  - cbn [contains LFUCache_ICache]. rewrite (lfu_contains_rep _ _ _ HR). eauto.
Qed.

Lemma lfu_new_sim (cap : nat) : 0 < cap -> lfu_sim cap (mkLFU ∅ ∅ cap 0) [].
Proof using.
  intros. split; [|done]. exists []. split; [|done|by left|done]. split; cbn; try done; [by apply NoDup_nil_2..|lia].
Qed.

(** The entries of the cache, without their frequencies. *)
Definition values a : list (Key * Value) := (fun e => (e.1, e.2.1)) <$> a.

Lemma values_lookup a key : entries (values a) !! key = fst <$> entries a !! key.
Proof using.
  unfold entries, values. trans ((fst <$> (list_to_map a : gmap Key (Value * nat))) !! key); [|apply lookup_fmap].
  by rewrite <- list_to_map_fmap.
Qed.

Lemma values_distinct a : distinct a -> distinct (values a).
Proof using. unfold distinct, values. by rewrite <- list_fmap_compose. Qed.

Lemma values_rm a key : values (rm key a) = rm key (values a).
Proof using. unfold values, rm. by rewrite filter_image. Qed.

Lemma values_touch a k v f : values (lfu_touch a k v f) = (k, v) :: rm k (values a).
Proof using. rewrite <- values_rm. done. Qed.

Definition lfu_holds c (m : gmap Key Value) : Prop := exists a, lfu_rep c a /\ m = entries (values a).

Lemma rep_distinct c a : lfu_rep c a -> distinct a /\ length a <= capacity_ c.
Proof using. intros [l HR]. split; apply (ln_rep _ _ _ HR). Qed.

#[global] Instance lfu_laws : ICacheLaws lfu_holds.
Proof using.
  split.
  - intros c m k (a & HR & ->). destruct (lfu_get_rep c a k HR) as (c' & Hg & Hc & HR'). exists c'.
    rewrite values_lookup. split_and!; [done| |done]. eexists. split; [done|].
    destruct (entries a !! k) as [[v f]|] eqn:Hk; [|done]. rewrite values_touch, (promote_entries k v); [done|]. by rewrite values_lookup, Hk.
  - intros c m k v (a & HR & ->). destruct (lfu_put_rep c a k v HR) as (c' & Hp & Hc & HR').
    destruct (rep_distinct _ _ HR) as [Hd Hl]. pose proof (rep_distinct _ _ HR') as [Hd' _].
    exists c', (entries (values (lfu_put (capacity_ c) a k v))). split_and!; [done|by eexists| | |done|].
    + unfold lfu_put. destruct (entries a !! k) as [[v0 f]|].
      * rewrite values_touch, push_entries. apply lookup_insert_eq.
      * cbn. apply lookup_insert_eq.
    + unfold lfu_put. destruct (entries a !! k) as [[v0 f]|] eqn:Hk; [by rewrite values_touch, push_entries|].
      * cbn. apply insert_mono. apply sublist_entries; [by apply values_distinct|]. apply fmap_sublist.
        case_decide; [|done]. unfold lfu_evict. destruct (victim a); [apply sublist_filter|done].
    + rewrite entries_size by (by apply values_distinct). unfold values at 2. rewrite length_fmap.
      rewrite values_lookup. intros Hor. unfold lfu_put. destruct (entries a !! k) as [[v0 f]|] eqn:Hk.
      * by rewrite values_touch, push_entries.
      * destruct Hor as [[? [=]]|Hlt]. rewrite decide_False by (cbn in Hlt; unfold lfu_capacity in Hlt; lia). done.
  - intros c m k (a & HR & ->). destruct (lfu_remove_rep c a k HR) as (c' & Hr & Hc & HR'). exists c'.
    rewrite values_lookup. split_and!; [|by exists (rm k a); rewrite values_rm, rm_entries|done].
    cbn [remove LFUCache_ICache]. rewrite Hr. do 2 f_equal. apply bool_decide_ext. by rewrite fmap_is_Some.
  - intros c m (a & HR & ->). split; [|done]. exists []. eauto using lfu_clear_rep.
  - intros c m (a & HR & ->). destruct (rep_distinct _ _ HR) as [Hd Hl]. rewrite entries_size by (by apply values_distinct).
    unfold values. rewrite length_fmap. cbn. unfold lfu_size, lfu_capacity. rewrite (lfu_size_rep _ _ HR). done.
  - intros c m (a & HR & ->). cbn. rewrite (lfu_empty_rep _ _ HR), <- nil_entries. apply bool_decide_ext. by destruct a.
  - intros c m k (a & HR & ->). cbn. rewrite (lfu_contains_rep _ _ _ HR), values_lookup. apply bool_decide_ext. by rewrite fmap_is_Some.
Qed.

(** The victim of an eviction is an entry of the least frequency, the least
    recently used of those. *)
Lemma victim_spec a : a <> [] ->
  exists a1 k v a2, a = a1 ++ (k, (v, min_freq a)) :: a2 /\ victim a = Some k /\
    (forall e, e ∈ a -> min_freq a <= e.2.2) /\ forall e, e ∈ a2 -> min_freq a < e.2.2.
Proof using.
  intros Ha. destruct (proj2 (min_freq_is_min a (min_freq a)) eq_refl) as [[E _]|[Hin Hle]]; [by destruct a|].
  assert (forall e, e ∈ a -> min_freq a <= e.2.2) as Hle' by (intros e He; apply Hle, list_elem_of_fmap; eauto).
  unfold victim. set (f := min_freq a) in *. clearbody f. clear Hle Ha.
  induction a as [|[k [v g]] a IH] using rev_ind; [by apply elem_of_nil in Hin|].
  rewrite filter_app, filter_cons, filter_nil. cbn [snd]. destruct (decide (g = f)) as [->|Hne].
  - exists a, k, v, []. rewrite last_snoc. split_and!; try done. intros e He. by apply elem_of_nil in He.
  - rewrite app_nil_r. unfold freqs in Hin. rewrite fmap_app, elem_of_app in Hin. cbn in Hin. rewrite list_elem_of_singleton in Hin.
    destruct IH as (a1 & k' & v' & a2 & -> & Hv & _ & Ha2); [by destruct Hin|intros e He; apply Hle', elem_of_app; by left|].
    exists a1, k', v', (a2 ++ [(k, (v, g))]). split_and!; [by rewrite <- app_assoc|done|done|].
    intros e [He| ->%list_elem_of_singleton]%elem_of_app; [by apply Ha2|]. cbn.
    assert (f <= g) by (apply (Hle' (k, (v, g))), elem_of_app; right; left). lia.
Qed.
End lfu_cache.
Arguments LFUCache Key Value {_ _}.
End LFU.


(** C4: From a new cache of a positive capacity every sequence of operations
    observes what it observes on the entries with their frequencies in recency
    order: an access raises the frequency, and a new key in a full cache evicts
    the least recently used of the least frequently used entries, which exists;
    no iterator is used after its node is gone. *)
Theorem lfu_cache_refines {Key Value : Type} `{Countable Key} (capacity : Z) (ops : list (cache_op Key Value)) :
  (0 < capacity)%Z ->
  exists c a os c',
    LFU.lfu_new capacity = Ret c /\ trace (LFU.lfu_spec (Z.to_nat capacity)) [] ops = Ret (a, os) /\
    trace cache_step c ops = Ret (c', os) /\ length a <= Z.to_nat capacity /\ distinct a /\
    LFU.min_freq_ c' = LFU.min_freq a /\ (forall k, LFU.get_impl true c' k = Ret (fst <$> entries a !! k, c')) /\
    (a <> [] -> exists a1 k v a2, a = a1 ++ (k, (v, LFU.min_freq a)) :: a2 /\ LFU.victim a = Some k /\
      (forall e, e ∈ a -> LFU.min_freq a <= e.2.2) /\ forall e, e ∈ a2 -> LFU.min_freq a < e.2.2).
Proof.
  intros Hcap. assert (0 < Z.to_nat capacity) as Hcap' by lia.
  destruct (trace_refines_total ops _ [] (LFU.lfu_spec_total _) (LFU.lfu_new_sim _ Hcap')) as (c' & a & os & Ha & Hc & [HR Hcc]).
  exists (LFU.mkLFU ∅ ∅ (Z.to_nat capacity) 0), a, os, c'. unfold LFU.lfu_new. rewrite decide_False by lia.
  destruct (LFU.rep_distinct _ _ HR) as [Hd Hl]. split_and!; try done; [lia| | |by apply LFU.victim_spec].
  - destruct HR as [l HR]. symmetry. apply LFU.min_freq_is_min. apply HR.
  - intros k. by apply LFU.get_const.
Qed.

Lemma lfu_cache_refines_witness :
  exists c a os c',
    LFU.lfu_new 2 = Ret c /\ trace (LFU.lfu_spec (Z.to_nat 2)) [] [Put 1 10; Put 2 20; Get 1; Put 3 30; Get 2] = Ret (a, os) /\
    trace cache_step c [Put 1 10; Put 2 20; Get 1; Put 3 30; Get 2] = Ret (c', os) /\ length a <= Z.to_nat 2 /\ distinct a /\
    LFU.min_freq_ c' = LFU.min_freq a /\ (forall k, LFU.get_impl true c' k = Ret (fst <$> entries a !! k, c')) /\
    (a <> [] -> exists a1 k v a2, a = a1 ++ (k, (v, LFU.min_freq a)) :: a2 /\ LFU.victim a = Some k /\
      (forall e, e ∈ a -> LFU.min_freq a <= e.2.2) /\ forall e, e ∈ a2 -> LFU.min_freq a < e.2.2).
Proof. apply (lfu_cache_refines 2). lia. Defined.

(** Key 2, used once, is evicted; then 3 and 1 are used twice and three times. *)
Example lfu_run :
  snd <$> trace cache_step (LFU.mkLFU (Key := nat) (Value := nat) ∅ ∅ 2 0)
     [Put 1 10; Put 2 20; Get 1; Put 3 30; Get 2; Get 3; Get 1; Put 4 40; Contains 3; Remove 1; Size] =
  Ret (inl <$> [OBool true; OBool true; OOpt (Some 10); OBool true; OOpt None; OOpt (Some 30); OOpt (Some 10); OBool true;
     OBool false; OBool true; ONum 1]).
Proof. vm_compute. reflexivity. Qed.
