(* ===== verification/CacheClient.v ===== *)
(** * What a client of a cache may rely on, whatever its eviction policy

    Against the interface [interface/ICache.hpp]: a cache that satisfies
    the laws never returns a value that was overwritten, removed or cleared, and
    the latest insertion is there.  The theorem is stated of the two classes that implement
    the interface, [LRUCache] and [LFUCache] ([cache/]). *)

From S2P Require Import Prelude Refinement CacheSpec LRUCache LFUCache.

Section coherence.
Context {K V C : Type} `{Countable K} `{!ICache K V C} (holds : C -> gmap K V -> Prop) `{!ICacheLaws holds}.
Implicit Types (m : gmap K V) (ops : list (cache_op K V)).

(** The map a cache that never evicts would be. *)
Definition shadow m (o : cache_op K V) : gmap K V :=
  match o with
  | Put k v => <[k:=v]> m
  | Remove k => delete k m
  | Clear => ∅
  | _ => m
  end.

(** The entry the operation certainly leaves in the cache. *)
Definition latest (o : cache_op K V) : option (K * V) := if o is Put k v then Some (k, v) else None.

(** What an operation may return when the unbounded map is [m] and the
    operation before it certainly left [r]. *)
Definition allowed (cap : nat) m (r : option (K * V)) (o : cache_op K V) (x : obs V + exn) : Prop :=
  match o, x with
  | Get k, inl (OOpt y) => (y = None \/ y = m !! k) /\ forall v, r = Some (k, v) -> y = Some v
  | Put _ _, inl (OBool b) => b = true
  | Remove k, inl (OBool b) | Contains k, inl (OBool b) => b = true -> is_Some (m !! k)
  | Clear, inl ODone => True
  | Size, inl (ONum n) => n <= base.size m /\ n <= cap
  | Capacity, inl (ONum n) => n = cap
  | Empty, inl (OBool b) => b = false -> m <> ∅
  | _, _ => False
  end.

Fixpoint coherent (cap : nat) m (r : option (K * V)) ops (os : list (obs V + exn)) : Prop :=
  match ops, os with
  | [], [] => True
  | o :: ops, x :: os => allowed cap m r o x /\ coherent cap (shadow m o) (latest o) ops os
  | _, _ => False
  end.

Lemma step_coherent c mc m r o :
  holds c mc -> mc ⊆ m -> (forall k v, r = Some (k, v) -> mc !! k = Some v) ->
  exists c' mc' x, cache_step c o = Ret (c', x) /\ holds c' mc' /\ mc' ⊆ shadow m o /\
    (forall k v, latest o = Some (k, v) -> mc' !! k = Some v) /\ capacity c' = capacity c /\
    allowed (capacity c) m r o (inl x).
Proof using All.
  intros Hc Hm Hr. destruct o as [k|k v|k| | | | |k]; cbn [cache_step shadow latest allowed].
  - destruct (law_get c mc k Hc) as (c' & -> & Hc' & Hcap). exists c', mc, (OOpt (mc !! k)).
    split_and!; try done; [|by intros v ->%Hr].
    destruct (mc !! k) eqn:E; [|by left]. right. symmetry. by eapply lookup_weaken.
  - destruct (law_put c mc k v Hc) as (c' & mc' & -> & Hc' & Hk & Hs & Hcap & _). exists c', mc', (OBool true).
    split_and!; try done; [|by intros ? ? [= <- <-]]. etrans; [exact Hs|]. by apply insert_mono.
  - destruct (law_remove c mc k Hc) as (c' & -> & Hc' & Hcap). eexists c', (delete k mc), _.
    split_and!; try done; [by apply delete_mono|]. intros [v Hv]%bool_decide_eq_true. exists v. by eapply lookup_weaken.
  - destruct (law_clear c mc Hc) as [Hc' Hcap]. exists (clear c), ∅, ODone. by split_and!.
  - destruct (law_size c mc Hc) as [-> Hle]. eexists c, mc, _. split_and!; try done. split; [by apply map_subseteq_size|done].
  - eexists c, mc, _. by split_and!.
  - rewrite (law_empty c mc Hc). eexists c, mc, _. split_and!; try done.
    intros Hne%bool_decide_eq_false ->. apply Hne. apply map_empty. intros i. eapply lookup_weaken_None; [apply lookup_empty|exact Hm].
  - rewrite (law_contains c mc k Hc). eexists c, mc, _. split_and!; try done.
    intros [v Hv]%bool_decide_eq_true. exists v. by eapply lookup_weaken.
Qed.

Lemma trace_coherent ops : forall c mc m r,
  holds c mc -> mc ⊆ m -> (forall k v, r = Some (k, v) -> mc !! k = Some v) ->
  exists c' os, trace cache_step c ops = Ret (c', os) /\ coherent (capacity c) m r ops os.
Proof using All.
  induction ops as [|o ops IH]; intros c mc m r Hc Hm Hr; [by eexists c, []|].
  destruct (step_coherent c mc m r o Hc Hm Hr) as (c' & mc' & x & Hs & Hc' & Hm' & Hl & Hcap & Ha).
  destruct (IH c' mc' (shadow m o) (latest o) Hc' Hm' Hl) as (c2 & os & Ht & Hco).
  exists c2, (inl x :: os). cbn [trace coherent]. rewrite Hs, Ht, <- Hcap. rewrite <- Hcap in Ha. done.
Qed.
End coherence.

(** C40: From the constructor of either class that implements the interface, [LRUCache] and [LFUCache], every
    sequence of operations succeeds; a lookup returns nothing or the value last stored under
    the key and not removed since, the entry just inserted is found, and the
    size never exceeds the capacity. *)
Theorem cache_coherent {K V : Type} `{Countable K} (cap : nat) (ops : list (cache_op K V)) :
  0 < cap ->
  (exists c c' os, LRU.lru_new cap = Ret c /\ trace (cache_step (C := LRU.LRUCache K V)) c ops = Ret (c', os) /\ coherent cap ∅ None ops os) /\
  (exists c c' os, LFU.lfu_new (Z.of_nat cap) = Ret c /\ trace (cache_step (C := LFU.LFUCache K V)) c ops = Ret (c', os) /\ coherent cap ∅ None ops os).
Proof.
  intros Hcap. split.
  - destruct (trace_coherent LRU.lru_holds ops (LRU.mkLRU [] ∅ cap) ∅ ∅ None) as (c' & os & Ht & Hco); [exists []; split; [by apply LRU.lru_new_sim|done]|done|done|].
    exists (LRU.mkLRU [] ∅ cap), c', os. unfold LRU.lru_new. rewrite decide_False by lia. done.
  - destruct (trace_coherent LFU.lfu_holds ops (LFU.mkLFU ∅ ∅ cap 0) ∅ ∅ None) as (c' & os & Ht & Hco); [exists []; split; [by apply LFU.lfu_new_sim|done]|done|done|].
    exists (LFU.mkLFU ∅ ∅ cap 0), c', os. unfold LFU.lfu_new. rewrite decide_False, Nat2Z.id by lia. done.
Qed.

Lemma cache_coherent_witness :
  (exists c c' os, LRU.lru_new 2 = Ret c /\ trace (cache_step (C := LRU.LRUCache nat nat)) c [Put 1 10; Put 2 20; Get 1; Put 3 30; Get 2; Get 3] = Ret (c', os) /\
     coherent 2 ∅ None [Put 1 10; Put 2 20; Get 1; Put 3 30; Get 2; Get 3] os) /\
  (exists c c' os, LFU.lfu_new (Z.of_nat 2) = Ret c /\ trace (cache_step (C := LFU.LFUCache nat nat)) c [Put 1 10; Put 2 20; Get 1; Put 3 30; Get 2; Get 3] = Ret (c', os) /\
     coherent 2 ∅ None [Put 1 10; Put 2 20; Get 1; Put 3 30; Get 2; Get 3] os).
Proof. apply (cache_coherent (K := nat) (V := nat) 2 [Put 1 10; Put 2 20; Get 1; Put 3 30; Get 2; Get 3]). lia. Defined.
