(* ===== verification/HashLRUCache.v ===== *)
(** * Least-recently-used cache over a hash map and hand-linked nodes

    Models [data_structure/hash/LRUCache.hpp].  The map owns the nodes; [prev]
    and [next] are raw pointers that link them between two sentinels.  The nodes
    live in the store of [LinkedList.v] with a key-value pair as data; destroying
    a node removes it from the store, and following a pointer to it afterwards is
    undefined.  [K{}] and [V{}], the contents of the sentinels, are parameters. *)

From stdpp Require Import fin_sets.
From S2P Require Import Prelude Refinement LinkedList CacheSpec LRUCache.

Section hash_lru.
Context {K V : Type} `{Countable K} (K_default : K) (V_default : V).

Record HashLRU := mkHash {
  nodes : gmap nat (@Node (K * V));
  map_ : gmap K nat;
  head_ : option nat;
  tail_ : option nat;
  capacity_ : nat;
  size_ : nat;
}.

Implicit Types (c : HashLRU) (st : gmap nat (@Node (K * V))) (a : list (K * V)) (l : list (nat * (K * V))) (k : K) (v : V) (n : nat).

Definition with_nodes c st : HashLRU := mkHash st (map_ c) (head_ c) (tail_ c) (capacity_ c) (size_ c).

(** [new Node(k, v)] *)
Definition new_node st k v : nat * gmap nat (@Node (K * V)) :=
  let n := fresh (dom st) in (n, <[n := mkNode (k, v) None None]> st).

(** ** Links *)

Definition add_to_head c (node : option nat) : outcome HashLRU :=
  let st := nodes c in
  '(_, h) ← deref st (head_ c);
  st ← set_next st node (next_ h);
  st ← set_prev st node (head_ c);
  '(_, h) ← deref st (head_ c);
  st ← set_prev st (next_ h) node;
  st ← set_next st (head_ c) node;
  Ret (with_nodes c st).

Definition remove_node c (node : option nat) : outcome HashLRU :=
  let st := nodes c in
  '(_, nd) ← deref st node;
  st ← set_next st (prev_ nd) (next_ nd);
  '(_, nd) ← deref st node;
  st ← set_prev st (next_ nd) (prev_ nd);
  Ret (with_nodes c st).

Definition move_to_head c (node : option nat) : outcome HashLRU :=
  c ← remove_node c node; add_to_head c node.

(** [map_.erase]: the entry and the node it owns. *)
Definition map_erase c k : HashLRU :=
  match map_ c !! k with
  | Some n => mkHash (delete n (nodes c)) (delete k (map_ c)) (head_ c) (tail_ c) (capacity_ c) (size_ c)
  | None => c
  end.

Definition evict_tail c : outcome HashLRU :=
  '(_, t) ← deref (nodes c) (tail_ c);
  let lru := prev_ t in
  if decide (lru = head_ c) then Ret c else
  c ← remove_node c lru;
  '(_, nd) ← deref (nodes c) lru;
  let c := map_erase c (data_ nd).1 in
  Ret (mkHash (nodes c) (map_ c) (head_ c) (tail_ c) (capacity_ c) (size_ c - 1)).

(** ** Operations *)

Definition init_sentinels : outcome (gmap nat (@Node (K * V)) * nat * nat) :=
  let '(h, st) := new_node ∅ K_default V_default in
  let '(t, st) := new_node st K_default V_default in
  st ← set_next st (Some h) (Some t);
  st ← set_prev st (Some t) (Some h);
  Ret (st, h, t).

Definition hash_new (capacity : nat) : outcome HashLRU :=
  if decide (capacity = 0) then Throw invalid_argument else
  '(st, h, t) ← init_sentinels;
  Ret (mkHash st ∅ (Some h) (Some t) capacity 0).

Definition hash_get c k : outcome (option V * HashLRU) :=
  match map_ c !! k with
  | None => Ret (None, c)
  | Some n =>
    c ← move_to_head c (Some n);
    '(_, nd) ← deref (nodes c) (Some n);
    Ret (Some (data_ nd).2, c)
  end.

Definition hash_put c k v : outcome HashLRU :=
  match map_ c !! k with
  | Some n =>
    '(_, nd) ← deref (nodes c) (Some n);
    let c := with_nodes c (<[n := mkNode ((data_ nd).1, v) (next_ nd) (prev_ nd)]> (nodes c)) in
    move_to_head c (Some n)
  | None =>
    c ← (if decide (capacity_ c <= size_ c) then evict_tail c else Ret c);
    let '(n, st) := new_node (nodes c) k v in
    c ← add_to_head (with_nodes c st) (Some n);
    Ret (mkHash (nodes c) (<[k:=n]> (map_ c)) (head_ c) (tail_ c) (capacity_ c) (S (size_ c)))
  end.

Definition hash_contains c k : bool := bool_decide (is_Some (map_ c !! k)).

Definition hash_erase c k : outcome (bool * HashLRU) :=
  match map_ c !! k with
  | None => Ret (false, c)
  | Some n =>
    c ← remove_node c (Some n);
    let c := map_erase c k in
    Ret (true, mkHash (nodes c) (map_ c) (head_ c) (tail_ c) (capacity_ c) (size_ c - 1))
  end.

Definition hash_size c : nat := size_ c.
Definition hash_capacity c : nat := capacity_ c.
Definition hash_empty c : bool := bool_decide (size_ c = 0).

(** The nodes the map owns are destroyed, the sentinels linked to each other. *)
Definition hash_clear c : outcome HashLRU :=
  let st := filter (fun e => e.1 ∉ (map_to_list (map_ c)).*2) (nodes c) in
  match head_ c with
  | None => Ret (mkHash st ∅ (head_ c) (tail_ c) (capacity_ c) 0)
  | Some _ =>
    st ← set_next st (head_ c) (tail_ c);
    st ← set_prev st (tail_ c) (head_ c);
    Ret (mkHash st ∅ (head_ c) (tail_ c) (capacity_ c) 0)
  end.

(** Move construction: the new object, and what is left of the old one. *)
Definition hash_move c : HashLRU * HashLRU := (c, mkHash ∅ ∅ None None (capacity_ c) 0).

Definition hash_step c (o : cache_op K V) : outcome (HashLRU * obs V) :=
  match o with
  | Get k => '(r, c) ← hash_get c k; Ret (c, OOpt r)
  | Put k v => c ← hash_put c k v; Ret (c, ODone)
  | Remove k => '(r, c) ← hash_erase c k; Ret (c, OBool r)
  | Clear => c ← hash_clear c; Ret (c, ODone)
  | Size => Ret (c, ONum (hash_size c))
  | Capacity => Ret (c, ONum (hash_capacity c))
  | Empty => Ret (c, OBool (hash_empty c))
  | Contains k => Ret (c, OBool (hash_contains c k))
  end.

(** The same contract as the cache over [std::list]; [put] returns nothing. *)
Definition hash_spec (cap : nat) (a : list (K * V)) (o : cache_op K V) : outcome (list (K * V) * obs V) :=
  match o with
  | Put k v => Ret (lru_put cap a k v, ODone)
  | _ => lru_spec cap a o
  end.

(** ** Links between the sentinels *)

Implicit Types (A B : list nat) (e : K * V) (la lb : list (K * V)).

Lemma set_next_ok st n nd q :
  st !! n = Some nd -> set_next st (Some n) q = Ret (<[n := mkNode (data_ nd) q (prev_ nd)]> st).
Proof using. intros Hn. unfold set_next. by rewrite (deref_ok _ _ _ Hn). Qed.

(** Skipping a node of a segment. *)
Lemma dlseg_unlink st p A x n y B la ex en ey lb q :
  NoDup (A ++ x :: n :: y :: B) -> length A = length la ->
  dlseg st p (A ++ x :: n :: y :: B) (la ++ ex :: en :: ey :: lb) q ->
  st !! x = Some (mkNode ex (Some n) (lastp p A)) /\ st !! n = Some (mkNode en (Some y) (Some x)) /\
  st !! y = Some (mkNode ey (first B q) (Some n)) /\
  dlseg (<[y := mkNode ey (first B q) (Some x)]> (<[x := mkNode ex (Some y) (lastp p A)]> st)) p
    (A ++ x :: y :: B) (la ++ ex :: ey :: lb) q.
Proof using.
  intros Hnd Hl Hs. apply dlseg_app in Hs as [H1 (Hx & Hn & Hy & H2)]; [|done]. cbn [first] in *.
  split_and!; try done.
  apply NoDup_app in Hnd as (_ & HA & Hnd). rewrite !NoDup_cons in Hnd. destruct Hnd as (Hx1 & Hn1 & Hy1 & HB).
  rewrite !not_elem_of_cons in *.
  apply dlseg_app; [done|]. cbn [first dlseg]. split_and!.
  - eapply dlseg_frame; [|done]. intros b Hb. pose proof (HA b Hb). rewrite !lookup_insert_ne; set_solver.
  - rewrite lookup_insert_ne, lookup_insert_eq by naive_solver. done.
  - by rewrite lookup_insert_eq.
  - eapply dlseg_frame; [|done]. intros b Hb. rewrite !lookup_insert_ne; [done|set_solver..].
Qed.

(** Linking a node after the first of a segment. *)
Lemma dlseg_link st p x n y B ex en ey lb q o r :
  NoDup (x :: n :: y :: B) -> dlseg st p (x :: y :: B) (ex :: ey :: lb) q -> st !! n = Some (mkNode en o r) ->
  dlseg (<[x := mkNode ex (Some n) p]> (<[y := mkNode ey (first B q) (Some n)]> (<[n := mkNode en (Some y) (Some x)]> st))) p
    (x :: n :: y :: B) (ex :: en :: ey :: lb) q.
Proof using.
  intros Hnd (Hx & Hy & H2) Hn. cbn [first] in *. rewrite !NoDup_cons, !not_elem_of_cons in Hnd.
  destruct Hnd as ((Hxn & Hxy & HxB) & (Hny & HnB) & HyB & HB). cbn [first dlseg]. split_and!.
  - by rewrite lookup_insert_eq.
  - rewrite lookup_insert_ne, lookup_insert_ne, lookup_insert_eq by naive_solver. done.
  - rewrite lookup_insert_ne, lookup_insert_eq by naive_solver. done.
  - eapply dlseg_frame; [|done]. intros b Hb. rewrite !lookup_insert_ne; [done|set_solver..].
Qed.

(** The nodes [l] between the sentinels [h] and [t]. *)
Record linked st (h t : nat) l : Prop := {
  lk_nodup : NoDup (h :: l.*1 ++ [t]);
  lk_seg : exists d1 d2, dlseg st None (h :: l.*1 ++ [t]) (d1 :: l.*2 ++ [d2]) None;
}.

Lemma linked_in st h t l n e : linked st h t l -> (n, e) ∈ l -> exists o r, st !! n = Some (mkNode e o r).
Proof using.
  intros [_ (d1 & d2 & _ & Hs)] (l1 & l2 & ->)%list_elem_of_split.
  rewrite !fmap_app, <- !app_assoc in Hs. apply dlseg_app in Hs as [_ [Hn _]]; [eauto|by rewrite !length_fmap].
Qed.

(** The last node, and the tail's view of it. *)
Lemma linked_tail st h t l : linked st h t l -> exists d, st !! t = Some (mkNode d None (lastp (Some h) l.*1)).
Proof using.
  intros [_ (d1 & d2 & _ & Hs)]. apply dlseg_app in Hs as [_ [Ht _]]; [|by rewrite !length_fmap]. cbn in Ht. eauto.
Qed.

(** The first link, seen from the head. *)
Lemma linked_head st h t l : linked st h t l ->
  exists d y B ey lb, st !! h = Some (mkNode d (Some y) None) /\ l.*1 ++ [t] = y :: B /\
    st !! y = Some (mkNode ey (first B None) (Some h)) /\ dlseg st None (h :: y :: B) (d :: ey :: lb) None /\
    exists d2, l.*2 ++ [d2] = ey :: lb.
Proof using.
  intros [_ (d1 & d2 & Hs)]. destruct (l.*1 ++ [t]) as [|y B] eqn:E1; [by destruct l.*1|].
  destruct (l.*2 ++ [d2]) as [|ey lb] eqn:E2; [by destruct l.*2|]. pose proof Hs as (Hh & Hy & _). cbn [first] in Hh.
  exists d1, y, B, ey, lb. split_and!; eauto.
Qed.

(** A non-empty list ends in an element, and one starts with one. *)
Lemma cons_snoc {X} (x : X) (xs : list X) : exists ys y, x :: xs = ys ++ [y] /\ length ys = length xs.
Proof using.
  destruct (exists_last (l := x :: xs)) as (ys & y & E); [done|]. exists ys, y. split; [done|].
  apply (f_equal length) in E. rewrite length_app in E. cbn in E. lia.
Qed.

Lemma snoc_cons {X} (x : X) (xs : list X) : exists y ys, xs ++ [x] = y :: ys /\ length ys = length xs.
Proof using.
  destruct xs as [|y ys]; [by exists x, []|]. exists y, (ys ++ [x]). split; [done|]. rewrite length_app. cbn. lia.
Qed.

Lemma dom_insert_same st n nd nd' : st !! n = Some nd -> dom (<[n:=nd']> st) = dom st.
Proof using. intros Hn. apply dom_insert_lookup_L. eauto. Qed.

Lemma remove_node_ok c h t l1 n e l2 :
  linked (nodes c) h t (l1 ++ (n, e) :: l2) ->
  exists st', remove_node c (Some n) = Ret (with_nodes c st') /\ linked st' h t (l1 ++ l2) /\
    (exists o r, st' !! n = Some (mkNode e o r)) /\ dom st' = dom (nodes c).
Proof using.
  intros [Hnd (d1 & d2 & Hs)]. set (st := nodes c) in *.
  destruct (cons_snoc h l1.*1) as (A & x & EA & HlA), (cons_snoc d1 l1.*2) as (la & ex & Ela & Hla).
  destruct (snoc_cons t l2.*1) as (y & B & EB & HlB), (snoc_cons d2 l2.*2) as (ey & lb & Elb & Hlb).
  assert (forall L, h :: (l1 ++ L).*1 ++ [t] = A ++ x :: L.*1 ++ [t]) as E1
    by (intros L; rewrite fmap_app, <- app_assoc, app_comm_cons, EA, <- app_assoc; done).
  assert (forall L, d1 :: (l1 ++ L).*2 ++ [d2] = la ++ ex :: L.*2 ++ [d2]) as E2
    by (intros L; rewrite fmap_app, <- app_assoc, app_comm_cons, Ela, <- app_assoc; done).
  rewrite E1, fmap_cons in Hnd. rewrite E1, E2, !fmap_cons in Hs. cbn [fst snd app] in Hnd, Hs. rewrite EB in *. rewrite Elb in Hs.
  assert (length A = length la) as Hl by (rewrite HlA, Hla, !length_fmap; done).
  destruct (dlseg_unlink st None A x n y B la ex e ey lb None Hnd Hl Hs) as (Hx & Hn & Hy & Hs').
  assert (x <> n /\ y <> n /\ x <> y) as (Hxn & Hyn & Hxy).
  { apply NoDup_app in Hnd as (_ & _ & Hnd). rewrite !NoDup_cons, !not_elem_of_cons in Hnd. naive_solver. }
  unfold remove_node. fold st. rewrite (deref_ok _ _ _ Hn). ret_step. cbn [prev_ next_].
  rewrite (set_next_ok _ _ _ _ Hx). ret_step. cbn [data_ prev_].
  rewrite (deref_ok _ n (mkNode e (Some y) (Some x))) by (by rewrite lookup_insert_ne). ret_step. cbn [prev_ next_].
  rewrite (set_prev_ok _ y (mkNode ey (first B None) (Some n))) by (by rewrite lookup_insert_ne). ret_step. cbn [data_ next_].
  eexists. split; [done|]. split_and!.
  - split.
    + rewrite E1, EB. apply NoDup_app in Hnd as (H1 & H2 & H3). rewrite !NoDup_cons in H3.
      apply NoDup_app. split_and!; [done|intros b Hb; pose proof (H2 b Hb); set_solver|].
      rewrite !NoDup_cons. rewrite !not_elem_of_cons in *. naive_solver.
    + exists d1, d2. rewrite E1, E2, EB, Elb. exact Hs'.
  - exists (Some y), (Some x). by rewrite !lookup_insert_ne.
  - rewrite (dom_insert_same _ y (mkNode ey (first B None) (Some n))) by (by rewrite lookup_insert_ne).
    by apply (dom_insert_same _ _ _ _ Hx).
Qed.

Lemma add_to_head_ok c h t l n e o r :
  linked (nodes c) h t l -> head_ c = Some h -> nodes c !! n = Some (mkNode e o r) -> n ∉ h :: l.*1 ++ [t] ->
  exists st', add_to_head c (Some n) = Ret (with_nodes c st') /\ linked st' h t ((n, e) :: l) /\
    dom st' = dom (nodes c) /\ exists o r, st' !! n = Some (mkNode e o r).
Proof using.
  intros HL Hh Hn Hnin. set (st := nodes c) in *.
  destruct (linked_head _ _ _ _ HL) as (d & y & B & ey & lb & Hhd & E1 & Hy & Hs & d2 & E2).
  destruct HL as [Hnd _]. rewrite E1 in *.
  assert (NoDup (h :: n :: y :: B)) as Hnd'.
  { rewrite !NoDup_cons, !not_elem_of_cons in *. naive_solver. }
  pose proof (dlseg_link st None h n y B d e ey lb None o r Hnd' Hs Hn) as Hs'.
  rewrite !NoDup_cons, !not_elem_of_cons in Hnd'. destruct Hnd' as ((Hhn & Hhy & _) & (Hny & _) & _).
  unfold add_to_head. fold st. rewrite Hh. rewrite (deref_ok _ _ _ Hhd). ret_step. cbn [next_].
  rewrite (set_next_ok _ _ _ _ Hn). ret_step. cbn [data_ prev_].
  rewrite (set_prev_ok _ n (mkNode e (Some y) r)) by (by rewrite lookup_insert_eq). ret_step. cbn [data_ next_].
  rewrite insert_insert_eq.
  rewrite (deref_ok _ h (mkNode d (Some y) None)) by (by rewrite lookup_insert_ne). ret_step. cbn [next_].
  rewrite (set_prev_ok _ y (mkNode ey (first B None) (Some h))) by (by rewrite lookup_insert_ne). ret_step. cbn [data_ next_].
  rewrite (set_next_ok _ h (mkNode d (Some y) None)) by (by rewrite !lookup_insert_ne). ret_step. cbn [data_ prev_].
  eexists. split; [done|]. split_and!.
  - split; [|exists d, d2; rewrite !fmap_cons; cbn [fst snd app]; rewrite E1, E2; exact Hs'].
    rewrite fmap_cons. cbn [fst app]. rewrite E1. rewrite !NoDup_cons, !not_elem_of_cons in *. naive_solver.
  - rewrite !dom_insert_L. assert (h ∈ dom st /\ n ∈ dom st /\ y ∈ dom st) by (rewrite !elem_of_dom; eauto). set_solver.
  - exists (Some y), (Some h). rewrite !lookup_insert_ne by done. by rewrite lookup_insert_eq.
Qed.

(** ** Representation

    The linked nodes, the map and the capacity represent a recency list as the
    nodes of a [std::list] do; the store holds nothing but them and the sentinels. *)
Definition hash_rep c a : Prop := exists h t l,
  head_ c = Some h /\ tail_ c = Some t /\ linked (nodes c) h t l /\
  (forall n, n ∈ dom (nodes c) <-> n ∈ h :: l.*1 ++ [t]) /\
  LRU.lru_rep (LRU.mkLRU l (map_ c) (capacity_ c)) a /\ size_ c = length a.

(** The map finds a key's node. *)
Lemma hash_lookup l (m : gmap K nat) cap a k : LRU.lru_rep (LRU.mkLRU l m cap) a ->
  match m !! k with
  | Some n => exists v, (n, (k, v)) ∈ l /\ entries a !! k = Some v
  | None => entries a !! k = None
  end.
Proof using. exact (LRU.rep_lookup _ _ k). Qed.

Lemma move_to_head_ok c h t l n e :
  linked (nodes c) h t l -> head_ c = Some h -> (n, e) ∈ l -> distinct l ->
  exists st', move_to_head c (Some n) = Ret (with_nodes c st') /\ linked st' h t ((n, e) :: rm n l) /\
    dom st' = dom (nodes c) /\ exists o r, st' !! n = Some (mkNode e o r).
Proof using.
  intros HL Hh Hin Hd. apply list_elem_of_split in Hin as (l1 & l2 & ->). rewrite (rm_middle n e l1 l2 Hd).
  destruct (remove_node_ok c h t l1 n e l2 HL) as (st1 & E1 & HL1 & (o & r & Hn) & Hdom1).
  unfold move_to_head. rewrite E1. ret_step.
  destruct (add_to_head_ok (with_nodes c st1) h t (l1 ++ l2) n e o r) as (st2 & E2 & HL2 & Hdom2 & Hn2); [done|done|done| |].
  - destruct HL as [Hnd _]. clear -Hnd. rewrite fmap_app in *. cbn in Hnd.
    apply NoDup_cons in Hnd as [Hh Hnd]. rewrite <- app_assoc in Hnd. cbn in Hnd.
    apply NoDup_app in Hnd as (_ & Hdis & [Hn _]%NoDup_cons). rewrite elem_of_cons, !elem_of_app in *.
    rewrite elem_of_cons in Hh. naive_solver set_solver.
  - exists st2. split_and!; [by rewrite E2| |by rewrite Hdom2|]; done.
Qed.

Lemma hash_get_rep c a k : hash_rep c a ->
  exists c', hash_get c k = Ret (entries a !! k, c') /\ capacity_ c' = capacity_ c /\
    hash_rep c' (if entries a !! k is Some v then (k, v) :: rm k a else a).
Proof using.
  intros (h & t & l & Hh & Ht & HL & Hdom & HR & Hsz). pose proof (hash_lookup _ _ _ _ k HR) as Hm. unfold hash_get.
  destruct (map_ c !! k) as [n|]; [|rewrite Hm; eexists; split_and!; [done..|]; by exists h, t, l].
  destruct Hm as (v & Hin & ->).
  destruct (move_to_head_ok c h t l n (k, v) HL Hh Hin) as (st' & -> & HL' & Hd' & o & r & Hn); [apply HR|].
  ret_step. cbn [nodes with_nodes]. rewrite (deref_ok _ _ _ Hn). ret_step. eexists. split_and!; [done|done|].
  pose proof (LRU.lru_front_rep _ _ _ _ _ _ _ HR Hin) as HF.
  exists h, t, ((n, (k, v)) :: rm n l). split_and!; try done.
  - intros b. cbn [nodes with_nodes]. rewrite Hd', Hdom. by rewrite (rm_perm n (k, v) l (LRU.rep_nodes _ _ HR) Hin).
  - rewrite <- (LRU.rep_length _ _ HF). cbn [size_ with_nodes LRU.cache_list_]. rewrite Hsz, <- (LRU.rep_length _ _ HR).
    by rewrite (rm_perm n (k, v) l (LRU.rep_nodes _ _ HR) Hin).
Qed.

Lemma linked_frame st st' h t l :
  (forall b, b ∈ h :: l.*1 ++ [t] -> st' !! b = st !! b) -> linked st h t l -> linked st' h t l.
Proof using. intros Hf [Hnd (d1 & d2 & Hs)]. split; [done|]. exists d1, d2. by eapply dlseg_frame. Qed.

(** A node is in the middle of the segment once. *)
Lemma linked_split h t l1 n e l2 :
  NoDup (h :: (l1 ++ (n, e) :: l2).*1 ++ [t]) -> n ∉ h :: (l1 ++ l2).*1 ++ [t].
Proof using.
  rewrite !fmap_app. cbn. intros [Hh Hnd]%NoDup_cons. rewrite <- app_assoc in Hnd. cbn in Hnd.
  apply NoDup_app in Hnd as (_ & Hdis & [Hn _]%NoDup_cons). rewrite elem_of_cons, !elem_of_app, !elem_of_cons in *.
  naive_solver set_solver.
Qed.

(** Assigning to the value of a linked node. *)
Lemma linked_assign st h t l n k v0 v o r :
  linked st h t l -> (n, (k, v0)) ∈ l -> st !! n = Some (mkNode (k, v0) o r) ->
  linked (<[n := mkNode (k, v) o r]> st) h t (NodeList.assign l n (k, v)).
Proof using.
  intros HL Hin Hn. assert (distinct l) as Hd.
  { destruct HL as [[_ Hnd]%NoDup_cons _]. by apply NoDup_app in Hnd as [? _]. }
  pose proof HL as [Hnd (d1 & d2 & Hs)]. apply list_elem_of_split in Hin as (l1 & l2 & ->).
  pose proof (linked_split h t l1 n _ l2 Hnd) as Hout.
  rewrite (NodeList.assign_middle _ _ _ _ _ Hd). rewrite !fmap_app in *. cbn [fmap list_fmap fst snd] in *.
  split; [by rewrite fmap_app|]. exists d1, d2. rewrite !fmap_app. cbn [fmap list_fmap fst snd].
  rewrite <- !app_assoc, !app_comm_cons in *. rewrite <- !app_comm_cons in *.
  destruct Hs as [Hh Hs]. apply dlseg_app in Hs as [H1 [Hn' H2]]; [|by rewrite !length_fmap]. cbn [first] in H1.
  rewrite Hn in Hn'. injection Hn' as -> ->.
  rewrite elem_of_cons, !elem_of_app in Hout.
  split; [rewrite lookup_insert_ne by naive_solver; by rewrite Hh; destruct l1|].
  apply dlseg_app; [by rewrite !length_fmap|]. cbn [first dlseg]. split_and!.
  - eapply dlseg_frame; [|exact H1]. intros b Hb. apply lookup_insert_ne. naive_solver.
  - by rewrite lookup_insert_eq.
  - eapply dlseg_frame; [|exact H2]. intros b Hb. apply lookup_insert_ne. rewrite elem_of_app in Hb. naive_solver.
Qed.

Lemma rep_owner l (m : gmap K nat) cap a n k v : LRU.lru_rep (LRU.mkLRU l m cap) a -> (n, (k, v)) ∈ l -> m !! k = Some n.
Proof using.
  intros HR Hin. pose proof (LRU.rep_map _ _ HR) as Hm. cbn in Hm. rewrite Hm. apply LRU.index_lookup; [|eauto].
  pose proof (LRU.rep_list _ _ HR) as Hl. cbn in Hl. rewrite Hl. apply HR.
Qed.

(** Unlinking a node and erasing its key. *)
Lemma drop_node c a h t l n k v :
  head_ c = Some h -> tail_ c = Some t -> linked (nodes c) h t l ->
  (forall b, b ∈ dom (nodes c) <-> b ∈ h :: l.*1 ++ [t]) ->
  LRU.lru_rep (LRU.mkLRU l (map_ c) (capacity_ c)) a -> size_ c = length a -> (n, (k, v)) ∈ l ->
  exists c1 c2 o r, remove_node c (Some n) = Ret c1 /\ nodes c1 !! n = Some (mkNode (k, v) o r) /\ map_erase c1 k = c2 /\
    size_ c2 = length a /\ capacity_ c2 = capacity_ c /\
    hash_rep (mkHash (nodes c2) (map_ c2) (head_ c2) (tail_ c2) (capacity_ c2) (size_ c2 - 1)) (rm k a).
Proof using.
  intros Hh Ht HL Hdom HR Hsz Hin. pose proof (rep_owner _ _ _ _ _ _ _ HR Hin) as Hm.
  pose proof (LRU.drop_rep _ _ _ _ _ _ _ HR Hin) as HD.
  pose proof (LRU.rep_keys _ _ HR) as Hka. pose proof (LRU.rep_nodes _ _ HR) as Hnl. cbn in Hnl.
  assert (entries a !! k = Some v) as Hv.
  { apply entries_lookup; [done|]. rewrite <- (LRU.rep_list _ _ HR). apply list_elem_of_fmap. by exists (n, (k, v)). }
  apply list_elem_of_split in Hin as (l1 & l2 & ->). rewrite (rm_middle n (k, v) l1 l2 Hnl) in HD.
  pose proof (linked_split h t l1 n (k, v) l2 (lk_nodup _ _ _ _ HL)) as Hout.
  destruct (remove_node_ok c h t l1 n (k, v) l2 HL) as (st1 & E1 & HL1 & (o & r & Hn) & Hdom1).
  eexists _, _, o, r. split_and!; [exact E1|done|reflexivity|..].
  1-2: unfold map_erase; cbn [map_ with_nodes]; rewrite Hm; done.
  unfold map_erase. cbn [map_ with_nodes]. rewrite Hm. cbn [nodes map_ head_ tail_ capacity_ size_ with_nodes].
  exists h, t, (l1 ++ l2). cbn [nodes map_ head_ tail_ capacity_ size_]. split_and!; try done.
  - eapply linked_frame; [|exact HL1]. intros b Hb. apply lookup_delete_ne. by intros ->.
  - intros b. rewrite dom_delete_L, Hdom1, elem_of_difference, elem_of_singleton, Hdom.
    rewrite !fmap_app in *. cbn in *. rewrite !elem_of_cons, !elem_of_app, !elem_of_cons in *. naive_solver.
  - rewrite length_rm, Hv by done. by rewrite Hsz.
Qed.

Lemma hash_erase_rep c a k : hash_rep c a ->
  exists c', hash_erase c k = Ret (bool_decide (is_Some (entries a !! k)), c') /\ capacity_ c' = capacity_ c /\
    hash_rep c' (rm k a).
Proof using.
  intros (h & t & l & Hh & Ht & HL & Hdom & HR & Hsz). pose proof (hash_lookup _ _ _ _ k HR) as Hm. unfold hash_erase.
  destruct (map_ c !! k) as [n|].
  - destruct Hm as (v & Hin & ->).
    destruct (drop_node c a h t l n k v Hh Ht HL Hdom HR Hsz Hin) as (c1 & c2 & o & r & -> & _ & <- & _ & Hc & HR').
    ret_step. eexists. split_and!; [done|done|done].
  - rewrite Hm. rewrite rm_absent by done. eexists. split_and!; [done..|]. by exists h, t, l.
Qed.

Lemma evict_tail_rep c a : hash_rep c a -> a <> [] ->
  exists c', evict_tail c = Ret c' /\ capacity_ c' = capacity_ c /\ hash_rep c' (removelast a).
Proof using.
  intros (h & t & l & Hh & Ht & HL & Hdom & HR & Hsz) Ha.
  destruct l as [|[n [k v]] l _] using rev_ind; [by rewrite <- (LRU.rep_list _ _ HR) in Ha|].
  destruct (linked_tail _ _ _ _ HL) as (d & Htl). rewrite fmap_app in Htl. cbn in Htl. rewrite lastp_snoc in Htl.
  assert (n <> h) as Hnh.
  { pose proof (lk_nodup _ _ _ _ HL) as Hnd. rewrite fmap_app in Hnd. apply NoDup_cons in Hnd as [Hnd _]. set_solver. }
  unfold evict_tail. rewrite Ht, Hh, (deref_ok _ _ _ Htl). ret_step. cbn [prev_]. rewrite decide_False by congruence.
  assert ((n, (k, v)) ∈ l ++ [(n, (k, v))]) as Hin by (apply elem_of_app; right; by left).
  destruct (LRU.drop_last_rep _ _ _ _ _ _ _ HR) as [_ Hrl].
  assert (rm k a = removelast a) as Hrm by (rewrite Hrl at 1; apply (rm_snoc k v); rewrite <- Hrl; apply HR).
  destruct (drop_node c a h t _ n k v Hh Ht HL Hdom HR Hsz Hin) as (c1 & c2 & o & r & E1 & Hn & E2 & _ & Hc & HR').
  rewrite E1. ret_step. rewrite (deref_ok _ _ _ Hn). ret_step. cbn [data_ fst]. rewrite E2. rewrite Hrm in HR'.
  eexists. split_and!; done.
Qed.

(** Linking a new node for a key that is not there. *)
Lemma add_node_rep c a k v : hash_rep c a -> entries a !! k = None -> length a < capacity_ c ->
  exists n st c', new_node (nodes c) k v = (n, st) /\ add_to_head (with_nodes c st) (Some n) = Ret c' /\
    capacity_ c' = capacity_ c /\
    hash_rep (mkHash (nodes c') (<[k:=n]> (map_ c')) (head_ c') (tail_ c') (capacity_ c') (S (size_ c'))) ((k, v) :: a).
Proof using.
  intros (h & t & l & Hh & Ht & HL & Hdom & HR & Hsz) Hk Hlt. unfold new_node.
  set (n := fresh (dom (nodes c))). assert (n ∉ dom (nodes c)) as Hfr by apply is_fresh.
  assert (n ∉ h :: l.*1 ++ [t]) as Hnin by (by rewrite <- Hdom).
  set (st := <[n:=mkNode (k, v) None None]> (nodes c)).
  destruct (add_to_head_ok (with_nodes c st) h t l n (k, v) None None) as (st' & E & HL' & Hd' & _).
  - eapply linked_frame; [|exact HL]. intros b Hb. apply lookup_insert_ne. by intros ->.
  - done.
  - cbn [nodes with_nodes]. unfold st. by rewrite lookup_insert_eq.
  - done.
  - exists n, st, (with_nodes c st'). split_and!; [done|by rewrite E|done|].
    exists h, t, ((n, (k, v)) :: l). cbn [nodes map_ head_ tail_ capacity_ size_ with_nodes]. split_and!; try done.
    + intros b. rewrite Hd'. cbn [nodes with_nodes]. unfold st. rewrite dom_insert_L, elem_of_union, elem_of_singleton, Hdom.
      cbn. rewrite !elem_of_cons. naive_solver.
    + apply LRU.emplace_rep; [done| |done|done]. rewrite elem_of_cons, elem_of_app in Hnin. naive_solver.
    + cbn. by rewrite Hsz.
Qed.

Lemma hash_put_rep c a k v : hash_rep c a ->
  exists c', hash_put c k v = Ret c' /\ capacity_ c' = capacity_ c /\ hash_rep c' (lru_put (capacity_ c) a k v).
Proof using.
  intros Hrep. pose proof Hrep as (h & t & l & Hh & Ht & HL & Hdom & HR & Hsz).
  pose proof (hash_lookup _ _ _ _ k HR) as Hm. unfold hash_put, lru_put.
  destruct (map_ c !! k) as [n|].
  - destruct Hm as (v0 & Hin & ->). destruct (linked_in _ _ _ _ _ _ HL Hin) as (o & r & Hn).
    rewrite (deref_ok _ _ _ Hn). ret_step. cbn [data_ next_ prev_ fst].
    set (st := <[n:=mkNode (k, v) o r]> (nodes c)).
    destruct (LRU.assign_rep _ _ _ _ _ _ _ v HR Hin) as [HA Hrm].
    set (l' := NodeList.assign l n (k, v)) in *.
    assert (l'.*1 = l.*1) as Hl1.
    { unfold l', NodeList.assign. rewrite <- list_fmap_compose. apply list_fmap_ext. intros i [j b] _. cbn. case_decide; cbn; congruence. }
    assert (linked st h t l') as HL' by (by eapply linked_assign).
    destruct (move_to_head_ok (with_nodes c st) h t l' n (k, v)) as (st' & E & HL2 & Hd' & _); [done|done| |apply HA|].
    { by eapply NodeList.assign_in. }
    rewrite E. eexists. split_and!; [done|done|]. rewrite <- Hrm.
    pose proof (LRU.lru_front_rep _ _ _ _ _ _ _ HA (NodeList.assign_in _ _ _ _ Hin)) as HF.
    exists h, t, ((n, (k, v)) :: rm n l'). cbn [nodes map_ head_ tail_ capacity_ size_ with_nodes]. split_and!; try done.
    + intros b. rewrite Hd'. cbn [nodes with_nodes]. unfold st. rewrite (dom_insert_same _ _ _ _ Hn), Hdom.
      rewrite (rm_perm n (k, v) l' (LRU.rep_nodes _ _ HA)) by (by eapply NodeList.assign_in). by rewrite <- Hl1.
    + rewrite <- (LRU.rep_length _ _ HF). cbn [LRU.cache_list_]. rewrite Hsz, <- (LRU.rep_length _ _ HR).
      rewrite (rm_perm n (k, v) l' (LRU.rep_nodes _ _ HA)) by (by eapply NodeList.assign_in).
      unfold l', NodeList.assign. by rewrite length_fmap.
  - rewrite Hm. pose proof (LRU.rep_cap _ _ HR) as Hcap. pose proof (LRU.rep_len _ _ HR) as Hlen. cbn in Hcap, Hlen.
    rewrite Hsz. case_decide as Hfull.
    + destruct (evict_tail_rep c a Hrep) as (c' & -> & Hc & HR'); [by destruct a; cbn in *; [lia|]|]. ret_step.
      destruct (add_node_rep c' (removelast a) k v HR') as (n & st & c2 & E1 & E2 & Hc2 & HR2).
      * eapply lookup_weaken_None; [exact Hm|]. apply sublist_entries; [apply HR|]. apply distinct_removelast, HR.
      * destruct a as [|e a _] using rev_ind; [cbn in *; lia|]. rewrite removelast_last. rewrite length_app in *. cbn in *. lia.
      * rewrite E1. cbn beta iota. rewrite E2. ret_step. eexists. split_and!; [done| |done]. cbn. congruence.
    + ret_step. destruct (add_node_rep c a k v Hrep Hm) as (n & st & c2 & E1 & E2 & Hc2 & HR2); [lia|].
      rewrite E1. cbn beta iota. rewrite E2. ret_step. eexists. split_and!; done.
Qed.

Lemma owned_nodes c a l : LRU.lru_rep (LRU.mkLRU l (map_ c) (capacity_ c)) a ->
  forall n, n ∈ (map_to_list (map_ c)).*2 <-> n ∈ l.*1.
Proof using.
  intros HR n. pose proof (LRU.rep_list _ _ HR) as Hl. cbn in Hl. rewrite !list_elem_of_fmap. split.
  - intros ([k m] & -> & Hin%elem_of_map_to_list). pose proof (LRU.rep_map _ _ HR) as Hm. cbn in Hm. rewrite Hm in Hin.
    apply LRU.index_lookup in Hin as [v Hin]; [|rewrite Hl; apply HR]. by exists (m, (k, v)).
  - intros ([m [k v]] & -> & Hin). exists (k, m). split; [done|]. apply elem_of_map_to_list. by eapply rep_owner.
Qed.

Lemma hash_clear_rep c a : hash_rep c a -> exists c', hash_clear c = Ret c' /\ capacity_ c' = capacity_ c /\ hash_rep c' [].
Proof using.
  intros (h & t & l & Hh & Ht & HL & Hdom & HR & Hsz). pose proof (owned_nodes _ _ _ HR) as Ho.
  unfold hash_clear. set (st := filter _ (nodes c)). rewrite Hh, Ht.
  pose proof (lk_nodup _ _ _ _ HL) as Hnd. destruct (linked_head _ _ _ _ HL) as (d1 & y & B & ey & lb & Hhd & _).
  destruct (linked_tail _ _ _ _ HL) as (d2 & Htl). apply NoDup_cons in Hnd as [Hhn Hnd].
  apply NoDup_app in Hnd as (_ & Hdis & _). rewrite elem_of_app in Hhn.
  assert (h <> t) as Hht by (intros ->; apply Hhn; right; by left).
  assert (forall b nd, nodes c !! b = Some nd -> b ∉ l.*1 -> st !! b = Some nd) as Hkeep.
  { intros b nd Hb Hn. apply map_lookup_filter_Some. split; [done|]. cbn. by rewrite Ho. }
  rewrite (set_next_ok _ h (mkNode d1 (Some y) None)) by (apply Hkeep; naive_solver). ret_step. cbn [data_ prev_].
  assert (t ∉ l.*1) as Htn by (intros Hin; apply (Hdis t Hin); by left).
  rewrite (set_prev_ok _ t (mkNode d2 None (lastp (Some h) l.*1))) by (rewrite lookup_insert_ne by done; by apply Hkeep).
  ret_step. cbn [data_ next_]. eexists. split_and!; [done|done|].
  exists h, t, []. cbn [nodes map_ head_ tail_ capacity_ size_]. split_and!; try done.
  - split; [apply NoDup_cons; split; [set_solver|apply NoDup_singleton]|]. exists d1, d2. cbn. split_and!; [|by rewrite lookup_insert_eq|done].
    rewrite lookup_insert_ne by done. by rewrite lookup_insert_eq.
  - intros b. rewrite !dom_insert_L, !elem_of_union, !elem_of_singleton. cbn. rewrite !elem_of_cons, elem_of_nil.
    assert (b ∈ dom st -> b = h \/ b = t) as Hst.
    { intros [nd [Hb Hb2]%map_lookup_filter_Some]%elem_of_dom. cbn in Hb2. rewrite Ho in Hb2.
      assert (b ∈ dom (nodes c)) as Hin by (apply elem_of_dom; eauto). apply Hdom in Hin.
      rewrite elem_of_cons, elem_of_app, list_elem_of_singleton in Hin. clear -Hin Hb2. tauto. }
    clear -Hst. tauto.
  - split; cbn; try done; [by apply NoDup_nil_2..|apply HR|lia].
Qed.

Lemma hash_new_rep cap : 0 < cap -> exists c, hash_new cap = Ret c /\ capacity_ c = cap /\ hash_rep c [].
Proof using.
  intros Hcap. unfold hash_new. rewrite decide_False by lia. unfold init_sentinels, new_node.
  set (h := fresh (dom ∅)). set (st := <[h:=_]> ∅). set (t := fresh (dom st)).
  assert (h <> t) as Hht.
  { intros E. apply (is_fresh (C := gset nat) (dom st)). fold t. rewrite <- E. unfold st. set_solver. }
  rewrite (set_next_ok _ h (mkNode (K_default, V_default) None None))
    by (rewrite lookup_insert_ne by done; unfold st; by rewrite lookup_insert_eq). ret_step. cbn [data_ prev_].
  rewrite (set_prev_ok _ t (mkNode (K_default, V_default) None None))
    by (rewrite lookup_insert_ne by done; by rewrite lookup_insert_eq). do 2 ret_step. cbn [data_ next_].
  eexists. split_and!; [done|done|]. exists h, t, []. cbn [nodes map_ head_ tail_ capacity_ size_]. split_and!; try done.
  - split; [apply NoDup_cons; split; [set_solver|apply NoDup_singleton]|]. exists (K_default, V_default), (K_default, V_default).
    cbn. split_and!; [|by rewrite lookup_insert_eq|done]. rewrite lookup_insert_ne by done. by rewrite lookup_insert_eq.
  - intros b. unfold st. rewrite !dom_insert_L, dom_empty_L. cbn. set_solver.
  - split; cbn; try done; [by apply NoDup_nil_2..|lia].
Qed.

(** The sentinels enclose exactly the nodes the map owns, doubly linked in the order of [a], and nothing else is allocated. *)
Definition enclosed c a : Prop := exists h t l,
  head_ c = Some h /\ tail_ c = Some t /\ linked (nodes c) h t l /\ l.*2 = a /\
  (forall n, n ∈ dom (nodes c) <-> n ∈ h :: l.*1 ++ [t]) /\ (forall k n, map_ c !! k = Some n <-> exists v, (n, (k, v)) ∈ l).

Lemma hash_rep_enclosed c a : hash_rep c a -> enclosed c a.
Proof using.
  intros (h & t & l & Hh & Ht & HL & Hdom & HR & _). exists h, t, l. split_and!; try done; [exact (LRU.rep_list _ _ HR)|].
  intros k n. pose proof (LRU.rep_map _ _ HR) as Hm. cbn in Hm. rewrite Hm. apply LRU.index_lookup. pose proof (LRU.rep_list _ _ HR) as Hl. cbn in Hl. rewrite Hl. apply HR.
Qed.

Definition hash_sim (cap : nat) c a : Prop := hash_rep c a /\ capacity_ c = cap.

#[global] Instance hash_simulates (cap : nat) : Simulates hash_step (hash_spec cap) (hash_sim cap).
Proof using.
  intros c a o [HR <-]. unfold hash_sim. pose proof HR as (h & t & l & Hh & Ht & HL & Hdom & HR' & Hsz).
  destruct o as [k|k v|k| | | | |k]; cbn [hash_spec lru_spec hash_step].
  - destruct (hash_get_rep c a k HR) as (c' & -> & Hc & H'). destruct (entries a !! k); eauto.
  - destruct (hash_put_rep c a k v HR) as (c' & -> & Hc & H'). eauto.
  - destruct (hash_erase_rep c a k HR) as (c' & -> & Hc & H'). eauto.
  - destruct (hash_clear_rep c a HR) as (c' & -> & Hc & H'). eauto.
  - unfold hash_size. rewrite Hsz. eauto.
  - eauto.
  - unfold hash_empty. rewrite Hsz. rewrite (bool_decide_ext (length a = 0) (a = [])) by apply length_zero_iff_nil. eauto.
  - pose proof (hash_lookup _ _ _ _ k HR') as Hm. unfold hash_contains.
    assert (is_Some (map_ c !! k) <-> is_Some (entries a !! k)) as Hiff; [|rewrite (bool_decide_ext _ _ Hiff); eauto].
    destruct (map_ c !! k); [destruct Hm as (v & _ & ->); split; eauto|by rewrite Hm].
Qed.

Lemma hash_spec_total cap : total_spec (hash_spec cap).
Proof using. intros a o. destruct o; cbn; repeat case_match; split; discriminate. Qed.
End hash_lru.

(** C5: From a new cache of a positive capacity every sequence of operations
    observes what it observes on the recency list, the contract of the cache over
    [std::list]: the raw links never dangle, the two sentinels always enclose
    exactly the owned nodes, linked both ways in the order of the list, and [size_] counts them. *)
Theorem hash_lru_refines {K V : Type} `{Countable K} (K_default : K) (V_default : V) (cap : nat) (ops : list (cache_op K V)) :
  0 < cap ->
  exists c a os c',
    hash_new K_default V_default cap = Ret c /\ trace (hash_spec cap) [] ops = Ret (a, os) /\
    trace hash_step c ops = Ret (c', os) /\ size_ c' = length a /\ length a <= cap /\
    enclosed c' a.
Proof.
  intros Hcap. destruct (hash_new_rep K_default V_default cap Hcap) as (c & Hnew & Hc & HR0).
  destruct (trace_refines_total ops c [] (hash_spec_total cap) (conj HR0 Hc)) as (c' & a & os & Ha & Hc' & [HR Hcap']).
  exists c, a, os, c'. split_and!; try done; [| |by apply hash_rep_enclosed]; destruct HR as (h & t & l & Hh & Ht & HL & Hdom & HR & Hsz); [done|].
  rewrite <- Hcap'. apply HR.
Qed.

Lemma hash_lru_refines_witness :
  exists c a os c', hash_new 0 0 2 = Ret c /\
    trace (hash_spec 2) [] [Put 1 10; Put 2 20; Get 1; Put 3 30; Get 2; Remove 1; Size] = Ret (a, os) /\
    trace hash_step c [Put 1 10; Put 2 20; Get 1; Put 3 30; Get 2; Remove 1; Size] = Ret (c', os) /\
    size_ c' = length a /\ length a <= 2 /\
    enclosed c' a.
Proof. apply (hash_lru_refines 0 0 2). lia. Defined.

Example hash_lru_run :
  (c ← hash_new 0 0 2; snd <$> trace hash_step c [Put 1 10; Put 2 20; Get 1; Put 3 30; Get 2; Remove 1; Size]) =
  Ret (inl <$> [ODone; ODone; OOpt (Some 10); ODone; OOpt None; OBool true; ONum 1]).
Proof. vm_compute. reflexivity. Qed.
