(* ===== verification/SnowflakeGenerator.v ===== *)
(** * Snowflake identifiers

    Models [gen/SnowflakeGenerator.hpp] and [.cc].  The clock is the sequence of
    readings [GetCurrentTimestamp] returns, one per call; sleeping only separates
    two readings.  A wait that never sees a late enough reading is a run out of
    readings ([NoFuel]).  Shifts of [int64_t] wrap, as C++20 defines them. *)

From Stdlib Require Import Sorted.
From S2P Require Import Prelude.
Local Open Scope Z_scope.

Definition machine_id_bits_ : Z := 5.
Definition datacenter_id_bits_ : Z := 5.
Definition worker_bits_ : Z := machine_id_bits_ + datacenter_id_bits_.
Definition sequence_bits_ : Z := 12.
Definition max_sequence_ : Z := Z.lnot (Z.shiftl (-1) sequence_bits_).
Definition max_machine_id_ : Z := Z.lnot (Z.shiftl (-1) machine_id_bits_).
Definition max_datacenter_id_ : Z := Z.lnot (Z.shiftl (-1) datacenter_id_bits_).
Definition TWEPOCH : Z := 1288855200000.

(** [int64_t] arithmetic *)
Definition i64 (z : Z) : Z := (z + 2 ^ 63) mod 2 ^ 64 - 2 ^ 63.
Definition shl64 (a n : Z) : Z := i64 (Z.shiftl a n).

Record SnowflakeGenerator := mkGen {
  last_timestamp_ : Z;
  sequence_ : Z;
  machine_id_ : Z;
  datacenter_id_ : Z;
}.

Implicit Types (g : SnowflakeGenerator) (clock : list Z) (ts : Z).

Definition generator_new (machine_id datacenter_id : Z) : outcome SnowflakeGenerator :=
  if decide (machine_id < 0 \/ max_machine_id_ < machine_id) then Throw invalid_argument else
  if decide (datacenter_id < 0 \/ max_datacenter_id_ < datacenter_id) then Throw invalid_argument else
  Ret (mkGen (-1) 0 machine_id datacenter_id).

Definition GenerateUniqueId (timestamp datacenter_id machine_id sequence : Z) : Z :=
  let kShift := worker_bits_ + sequence_bits_ in
  let nodeId := Z.lor (shl64 datacenter_id 5) machine_id in
  Z.lor (Z.lor (shl64 timestamp kShift) (shl64 nodeId sequence_bits_)) sequence.

(** The next reading of the system clock (milliseconds), from the epoch. *)
Definition GetCurrentTimestamp clock : outcome (Z * list Z) :=
  match clock with
  | [] => NoFuel
  | now :: clock => Ret (now - TWEPOCH, clock)
  end.

(** Read the clock until a reading satisfies [ok]: the wait loops. *)
Fixpoint wait (ok : Z -> bool) clock : outcome (Z * list Z) :=
  match clock with
  | [] => NoFuel
  | now :: clock => if ok (now - TWEPOCH) then Ret (now - TWEPOCH, clock) else wait ok clock
  end.

Definition TilNextMillis (last_timestamp : Z) clock : outcome (Z * list Z) :=
  wait (fun timestamp => negb (timestamp <=? last_timestamp)) clock.

Definition NextId g clock : outcome (Z * SnowflakeGenerator * list Z) :=
  '(timestamp, clock) ← GetCurrentTimestamp clock;
  '(timestamp, clock) ← (if timestamp <? last_timestamp_ g
                         then wait (fun timestamp => negb (timestamp <? last_timestamp_ g)) clock
                         else Ret (timestamp, clock));
  '(timestamp, sequence, clock) ←
    (if timestamp =? last_timestamp_ g then
       let sequence := Z.land (sequence_ g + 1) max_sequence_ in
       if sequence =? 0 then
         '(timestamp, clock) ← TilNextMillis (last_timestamp_ g) clock; Ret (timestamp, sequence, clock)
       else Ret (timestamp, sequence, clock)
     else Ret (timestamp, 0, clock));
  Ret (GenerateUniqueId timestamp (datacenter_id_ g) (machine_id_ g) sequence,
       mkGen timestamp sequence (machine_id_ g) (datacenter_id_ g), clock).

(** [n] successive calls. *)
Fixpoint NextIds (n : nat) g clock : outcome (list Z * SnowflakeGenerator * list Z) :=
  match n with
  | O => Ret ([], g, clock)
  | S n =>
    '(id, g, clock) ← NextId g clock;
    '(ids, g, clock) ← NextIds n g clock;
    Ret (id :: ids, g, clock)
  end.

(** ** The fields of an identifier *)
Definition timestamp_of (id : Z) : Z := Z.shiftr id 22.
Definition datacenter_of (id : Z) : Z := Z.land (Z.shiftr id 17) 31.
Definition machine_of (id : Z) : Z := Z.land (Z.shiftr id 12) 31.
Definition sequence_of (id : Z) : Z := Z.land id 4095.

(** A reading before the year 2080, when the timestamp's 41 bits run out. *)
Definition in_range (now : Z) : Prop := TWEPOCH <= now < TWEPOCH + 2 ^ 41.

Record wf_generator g : Prop := {
  wf_machine : 0 <= machine_id_ g < 32;
  wf_datacenter : 0 <= datacenter_id_ g < 32;
  wf_sequence : 0 <= sequence_ g < 4096;
  wf_last : -1 <= last_timestamp_ g < 2 ^ 41;
}.

Lemma i64_small z : - 2 ^ 63 <= z < 2 ^ 63 -> i64 z = z.
Proof. intros Hz. unfold i64. rewrite Z.mod_small; lia. Qed.

(** The identifier is the concatenation of its fields. *)
Lemma GenerateUniqueId_fields ts d m s :
  0 <= ts < 2 ^ 41 -> 0 <= d < 32 -> 0 <= m < 32 -> 0 <= s < 4096 ->
  GenerateUniqueId ts d m s = ((ts * 32 + d) * 32 + m) * 4096 + s.
Proof.
  intros Ht Hd Hm Hs. unfold GenerateUniqueId, shl64.
  change (worker_bits_ + sequence_bits_) with 22. change sequence_bits_ with 12.
  assert (2 ^ 41 = 2199023255552) as E41 by done. assert (2 ^ 63 = 9223372036854775808) as E63 by done.
  assert (2 ^ 22 = 4194304) as E22 by done. assert (2 ^ 12 = 4096) as E12 by done. assert (2 ^ 5 = 32) as E5 by done.
  rewrite (i64_small (Z.shiftl d 5)), (i64_small (Z.shiftl ts 22)) by (rewrite Z.shiftl_mul_pow2; lia).
  rewrite (lor_low d m 5) by lia. rewrite E5.
  rewrite (i64_small (Z.shiftl _ 12)) by (rewrite Z.shiftl_mul_pow2; lia).
  rewrite (lor_low ts _ 22) by (rewrite ?Z.shiftl_mul_pow2; lia). rewrite E22, Z.shiftl_mul_pow2, E12 by lia.
  replace (ts * 4194304 + (d * 32 + m) * 4096) with (Z.shiftl (ts * 1024 + (d * 32 + m)) 12)
    by (rewrite Z.shiftl_mul_pow2, E12 by lia; lia).
  rewrite lor_low by lia. rewrite E12. lia.
Qed.

Lemma fields_inverse ts d m s :
  0 <= ts < 2 ^ 41 -> 0 <= d < 32 -> 0 <= m < 32 -> 0 <= s < 4096 ->
  let id := GenerateUniqueId ts d m s in
  timestamp_of id = ts /\ datacenter_of id = d /\ machine_of id = m /\ sequence_of id = s /\ 0 <= id < 2 ^ 63.
Proof.
  intros Ht Hd Hm Hs id. unfold id. rewrite GenerateUniqueId_fields by done.
  unfold timestamp_of, datacenter_of, machine_of, sequence_of.
  change 31 with (Z.ones 5). change 4095 with (Z.ones 12). rewrite !Z.land_ones, !Z.shiftr_div_pow2 by lia.
  assert (2 ^ 41 = 2199023255552) as E41 by done. assert (2 ^ 63 = 9223372036854775808) as E63 by done.
  change (2 ^ 22) with 4194304. change (2 ^ 17) with 131072. change (2 ^ 12) with 4096. change (2 ^ 5) with 32.
  split_and!; [..|lia|lia]; Z.to_euclidean_division_equations; lia.
Qed.

(** ** The wait loops *)
Lemma wait_Ret ok clock t rest :
  wait ok clock = Ret (t, rest) -> ok t = true /\ exists pre now, clock = pre ++ now :: rest /\ t = now - TWEPOCH.
Proof.
  induction clock as [|now clock IH]; cbn; [done|]. destruct (ok (now - TWEPOCH)) eqn:E.
  - intros [= <- <-]. split; [done|]. by exists [], now.
  - intros (Hok & pre & now' & -> & ->)%IH. split; [done|]. by exists (now :: pre), now'.
Qed.

Lemma wait_cases ok clock : (exists t rest, wait ok clock = Ret (t, rest)) \/
  (wait ok clock = NoFuel /\ forall now, now ∈ clock -> ok (now - TWEPOCH) = false).
Proof.
  induction clock as [|now clock IH]; cbn; [right; split; [done|]; by intros ? ?%elem_of_nil|].
  destruct (ok (now - TWEPOCH)) eqn:E; [eauto|]. destruct IH as [IH|[-> IH]]; [by left|].
  right. split; [done|]. intros now' [->|Hin]%elem_of_cons; [done|by apply IH].
Qed.

(** The readings that precede the one a wait accepts do not satisfy it. *)
Lemma wait_first ok clock t rest now :
  wait ok clock = Ret (t, rest) -> now ∈ clock -> ok (now - TWEPOCH) = true -> t = now - TWEPOCH \/ now ∈ rest.
Proof.
  induction clock as [|n clock IH]; cbn; [done|]. destruct (ok (n - TWEPOCH)) eqn:E.
  - intros [= <- <-] [->|Hin]%elem_of_cons _; auto.
  - intros Hw [->|Hin]%elem_of_cons Hok; [congruence|by apply IH].
Qed.

(** ** One call *)

(** The order of the states: timestamps first, then sequence numbers. *)
Definition stamp g : Z := last_timestamp_ g * 4096 + sequence_ g.

(** The first reading and the loop that follows it are one wait. *)
Lemma NextId_unfold g clock :
  NextId g clock =
    '(timestamp, clock) ← wait (fun timestamp => negb (timestamp <? last_timestamp_ g)) clock;
    '(timestamp, sequence, clock) ←
      (if timestamp =? last_timestamp_ g then
         let sequence := Z.land (sequence_ g + 1) max_sequence_ in
         if sequence =? 0 then
           '(timestamp, clock) ← TilNextMillis (last_timestamp_ g) clock; Ret (timestamp, sequence, clock)
         else Ret (timestamp, sequence, clock)
       else Ret (timestamp, 0, clock));
    Ret (GenerateUniqueId timestamp (datacenter_id_ g) (machine_id_ g) sequence,
         mkGen timestamp sequence (machine_id_ g) (datacenter_id_ g), clock).
Proof. unfold NextId. destruct clock as [|now clock]; [done|]. cbn. by destruct (now - TWEPOCH <? last_timestamp_ g). Qed.

Lemma next_sequence s : 0 <= s < 4096 ->
  Z.land (s + 1) max_sequence_ = (if s + 1 =? 4096 then 0 else s + 1).
Proof.
  intros Hs. change max_sequence_ with (Z.ones 12). rewrite Z.land_ones by lia. change (2 ^ 12) with 4096.
  destruct (Z.eqb_spec (s + 1) 4096) as [->|Hne]; [done|]. apply Z.mod_small. lia.
Qed.

Lemma NextId_step g clock id g' rest :
  wf_generator g -> Forall in_range clock -> NextId g clock = Ret (id, g', rest) ->
  wf_generator g' /\ stamp g < stamp g' /\ 0 <= last_timestamp_ g' /\
  machine_id_ g' = machine_id_ g /\ datacenter_id_ g' = datacenter_id_ g /\
  id = GenerateUniqueId (last_timestamp_ g') (datacenter_id_ g) (machine_id_ g) (sequence_ g') /\
  exists pre now, clock = pre ++ now :: rest /\ last_timestamp_ g' = now - TWEPOCH.
Proof.
  intros [Hm Hd Hs Hl] Hc. rewrite NextId_unfold. intros ([t c1] & Hw & H1)%bind_Ret_inv.
  apply wait_Ret in Hw as (Hok & pre & now & -> & ->). apply negb_true_iff, Z.ltb_ge in Hok.
  apply Forall_app in Hc as [_ [[Hr1 Hr2] Hc]%Forall_cons].
  apply bind_Ret_inv in H1 as ([[t s'] c2] & Hif & [= <- <- ->]). cbn. unfold stamp. cbn.
  destruct (Z.eqb_spec (now - TWEPOCH) (last_timestamp_ g)) as [Heq|Hne].
  - cbn zeta in Hif. rewrite next_sequence in Hif by done. destruct (Z.eqb_spec (sequence_ g + 1) 4096) as [Hmax|Hmax].
    + cbn in Hif. apply bind_Ret_inv in Hif as ([t2 c3] & Hw & [= <- <- ->]). apply wait_Ret in Hw as (Hok2 & pre2 & now2 & -> & ->).
      apply negb_true_iff, Z.leb_gt in Hok2. apply Forall_app in Hc as [_ [[Hr3 Hr4] Hc]%Forall_cons].
      split_and!; try done; try lia; [split; cbn; lia|]. exists (pre ++ now :: pre2), now2. by rewrite <- app_assoc.
    + destruct (Z.eqb_spec (sequence_ g + 1) 0); [lia|]. injection Hif as <- <- <-.
      split_and!; try done; try lia; [split; cbn; lia|]. by exists pre, now.
  - injection Hif as <- <- <-. split_and!; try done; try lia; [split; cbn; lia|]. by exists pre, now.
Qed.

Lemma NextId_returns g clock : wf_generator g ->
  (exists id g' rest, NextId g clock = Ret (id, g', rest)) \/
  (NextId g clock = NoFuel /\ forall now, now ∈ clock -> now - TWEPOCH <= last_timestamp_ g).
Proof.
  intros Hwf. rewrite NextId_unfold. set (ok := fun timestamp => negb (timestamp <? last_timestamp_ g)).
  destruct (wait_cases ok clock) as [(t & c1 & E)|[E Hno]]; rewrite E; [ret_step|].
  - destruct (Z.eqb_spec t (last_timestamp_ g)) as [->|Hne]; [|left; by eexists _, _, _].
    cbn zeta. rewrite next_sequence by apply Hwf. case_match; [|left; by eexists _, _, _].
    unfold TilNextMillis. destruct (wait_cases (fun timestamp => negb (timestamp <=? last_timestamp_ g)) c1) as [(t2 & c2 & E2)|[E2 Hno]].
    + rewrite E2. left. by eexists _, _, _.
    + rewrite E2. right. split; [done|]. intros now Hin. destruct (Z.le_gt_cases (now - TWEPOCH) (last_timestamp_ g)) as [|Hgt]; [done|].
      destruct (wait_first _ _ _ _ now E Hin) as [->|Hin']; [apply negb_true_iff, Z.ltb_ge; lia|lia|].
      apply Hno in Hin'. apply negb_false_iff, Z.leb_le in Hin'. lia.
  - right. split; [done|]. intros now Hin%Hno. apply negb_false_iff, Z.ltb_lt in Hin. lia.
Qed.

Lemma step_id g clock id g' rest :
  wf_generator g -> Forall in_range clock -> NextId g clock = Ret (id, g', rest) ->
  id = ((last_timestamp_ g' * 32 + datacenter_id_ g) * 32 + machine_id_ g) * 4096 + sequence_ g'.
Proof.
  intros Hwf Hc H. destruct (NextId_step _ _ _ _ _ Hwf Hc H) as (Hwf' & _ & Hpos & _ & _ & -> & _).
  apply GenerateUniqueId_fields; try apply Hwf; try apply Hwf'. split; [done|]. apply Hwf'.
Qed.

(** Every identifier drawn from a state is above what the state has used. *)
Lemma NextIds_spec n : forall g clock ids g' rest,
  wf_generator g -> Forall in_range clock -> NextIds n g clock = Ret (ids, g', rest) ->
  length ids = n /\ StronglySorted Z.lt ids /\
  Forall (fun id => ((last_timestamp_ g * 32 + datacenter_id_ g) * 32 + machine_id_ g) * 4096 + sequence_ g < id) ids /\
  Forall (fun id => 0 <= id < 2 ^ 63 /\ machine_of id = machine_id_ g /\ datacenter_of id = datacenter_id_ g /\
                    exists now, now ∈ clock /\ timestamp_of id = now - TWEPOCH) ids.
Proof.
  induction n as [|n IH]; intros g clock ids g' rest Hwf Hc; cbn [NextIds].
  - intros [= <- _ _]. split_and!; constructor.
  - intros ([[id g1] c1] & H1 & ([[ids2 g2] c2] & H2 & [= <- _ _])%bind_Ret_inv)%bind_Ret_inv.
    destruct (NextId_step _ _ _ _ _ Hwf Hc H1) as (Hwf1 & Hlt & Hpos & Hm & Hd & Hid & pre & now & Hcl & Hts).
    pose proof (step_id _ _ _ _ _ Hwf Hc H1) as Hid2. unfold stamp in Hlt.
    assert (Forall in_range c1) as Hc1 by (rewrite Hcl in Hc; apply Forall_app in Hc as [_ [_ Hc]%Forall_cons]; done).
    destruct (IH g1 c1 ids2 g2 c2 Hwf1 Hc1 H2) as (Hlen & Hsort & Hgt & Hall). rewrite Hm, Hd in *.
    assert (((last_timestamp_ g * 32 + datacenter_id_ g) * 32 + machine_id_ g) * 4096 + sequence_ g < id) as Hgtid.
    { rewrite Hid2. destruct Hwf as [H3 H4 H5 H6], Hwf1 as [_ _ H7 H8]. nia. }
    split_and!.
    + cbn. by rewrite Hlen.
    + constructor; [done|]. by rewrite Hid2.
    + constructor; [done|]. eapply Forall_impl; [exact Hgt|]. cbn. intros x Hx. rewrite <- Hid2 in Hx. lia.
    + constructor.
      * destruct (fields_inverse (last_timestamp_ g1) (datacenter_id_ g) (machine_id_ g) (sequence_ g1)) as (F1 & F2 & F3 & _ & F5);
          [split; [done|apply Hwf1]|apply Hwf|apply Hwf|apply Hwf1|].
        rewrite <- Hid in F1, F2, F3, F5. split_and!; try done; try apply F5. exists now. split; [|by rewrite F1].
        rewrite Hcl. apply elem_of_app. right. left.
      * eapply Forall_impl; [exact Hall|]. cbn. intros x (Hx & Hx2 & Hx3 & now' & Hin & Hx4). split_and!; try done; try apply Hx.
        exists now'. split; [|done]. rewrite Hcl. apply elem_of_app. right. by right.
Qed.

Lemma generator_new_wf m d g : generator_new m d = Ret g -> wf_generator g /\ machine_id_ g = m /\ datacenter_id_ g = d.
Proof.
  unfold generator_new. change max_machine_id_ with 31. change max_datacenter_id_ with 31.
  destruct (decide (m < 0 \/ 31 < m)); [done|]. destruct (decide (d < 0 \/ 31 < d)); [done|].
  intros [= <-]. split; [|done]. split; cbn; lia.
Qed.

(** C37: As long as every reading of the clock lies in the [2^41] milliseconds from the
    generator's epoch (November 2010 to July 2080; the code does not check it), whatever order the readings come in
    (repeat, step back, exhaust a millisecond's sequence numbers), the identifiers one generator draws are strictly
    increasing, fit in 63 bits and decode to the generator's machine and
    datacenter and to a reading of the clock; so no two are equal, and none equals
    one of a generator with another machine or datacenter. *)
Theorem snowflake_ids_unique m d g n clock ids g' rest m2 d2 g2 n2 clock2 ids2 g2' rest2 :
  generator_new m d = Ret g -> Forall in_range clock -> NextIds n g clock = Ret (ids, g', rest) ->
  generator_new m2 d2 = Ret g2 -> Forall in_range clock2 -> NextIds n2 g2 clock2 = Ret (ids2, g2', rest2) ->
  (m, d) <> (m2, d2) ->
  length ids = n /\ StronglySorted Z.lt ids /\ (forall id, id ∈ ids -> id ∉ ids2) /\
  Forall (fun id => 0 <= id < 2 ^ 63 /\ machine_of id = m /\ datacenter_of id = d /\
                    exists now, now ∈ clock /\ timestamp_of id = now - TWEPOCH) ids.
Proof.
  intros (Hwf & <- & <-)%generator_new_wf Hc H1 (Hwf2 & <- & <-)%generator_new_wf Hc2 H2 Hne.
  destruct (NextIds_spec _ _ _ _ _ _ Hwf Hc H1) as (Hlen & Hs & _ & Hall).
  destruct (NextIds_spec _ _ _ _ _ _ Hwf2 Hc2 H2) as (_ & _ & _ & Hall2).
  split_and!; try done. intros id Hin Hin2. rewrite Forall_forall in Hall, Hall2.
  destruct (Hall id Hin) as (_ & H3 & H4 & _), (Hall2 id Hin2) as (_ & H5 & H6 & _). congruence.
Qed.

(** A call never fails: it returns, or the clock has not yet passed the last
    timestamp used and it keeps waiting. *)
Theorem snowflake_next_id_returns g clock :
  wf_generator g ->
  (exists id g' rest, NextId g clock = Ret (id, g', rest) /\ (Forall in_range clock -> wf_generator g')) \/
  (NextId g clock = NoFuel /\ forall now, now ∈ clock -> now - TWEPOCH <= last_timestamp_ g).
Proof.
  intros Hwf. destruct (NextId_returns g clock Hwf) as [(id & g' & rest & E)|H]; [|by right].
  left. exists id, g', rest. split; [done|]. intros Hc. by apply (NextId_step _ _ _ _ _ Hwf Hc E).
Qed.

Lemma snowflake_next_id_witness :
  wf_generator (mkGen 5 4095 1 2) /\
  ((exists id g' rest, NextId (mkGen 5 4095 1 2) [TWEPOCH + 4; TWEPOCH + 5; TWEPOCH + 5; TWEPOCH + 6] = Ret (id, g', rest) /\
     (Forall in_range [TWEPOCH + 4; TWEPOCH + 5; TWEPOCH + 5; TWEPOCH + 6] -> wf_generator g')) \/
   (NextId (mkGen 5 4095 1 2) [TWEPOCH + 4; TWEPOCH + 5; TWEPOCH + 5; TWEPOCH + 6] = NoFuel /\
     forall now, now ∈ [TWEPOCH + 4; TWEPOCH + 5; TWEPOCH + 5; TWEPOCH + 6] -> now - TWEPOCH <= 5)).
Proof.
  assert (wf_generator (mkGen 5 4095 1 2)) as Hwf by (split; cbn; lia).
  split; [exact Hwf|]. exact (snowflake_next_id_returns _ _ Hwf).
Defined.

(** Two draws within one millisecond, one after the clock stepped back. *)
Lemma snowflake_ids_witness :
  let clock := [TWEPOCH + 7; TWEPOCH + 7; TWEPOCH + 6; TWEPOCH + 8] in
  let ids := [29626368; 29626369; 33820672] in
  NextIds 3 (mkGen (-1) 0 1 2) clock = Ret (ids, mkGen 8 0 1 2, []) /\
    length ids = 3%nat /\ StronglySorted Z.lt ids /\ (forall id, id ∈ ids -> id ∉ [29630464]) /\
    Forall (fun id => 0 <= id < 2 ^ 63 /\ machine_of id = 1 /\ datacenter_of id = 2 /\
      exists now, now ∈ clock /\ timestamp_of id = now - TWEPOCH) ids.
Proof.
  intros clock ids. assert (NextIds 3 (mkGen (-1) 0 1 2) clock = Ret (ids, mkGen 8 0 1 2, [])) as H1 by (vm_compute; reflexivity).
  split; [exact H1|].
  apply (snowflake_ids_unique 1 2 (mkGen (-1) 0 1 2) 3 clock ids (mkGen 8 0 1 2) []
           2 2 (mkGen (-1) 0 2 2) 1 [TWEPOCH + 7] [29630464] (mkGen 7 0 2 2) []).
  - reflexivity.
  - repeat constructor; vm_compute; intros; discriminate.
  - exact H1.
  - reflexivity.
  - repeat constructor; vm_compute; intros; discriminate.
  - vm_compute. reflexivity.
  - discriminate.
Defined.

(** ** Outside of the range

    The millisecond before the epoch equals the initial [last_timestamp_]: the first identifier is negative and has sequence number 1.
    The timestamp [2^41] sets the sign bit, and [2^42] is shifted out altogether. *)
Example snowflake_out_of_range :
  (exists g, generator_new 0 0 = Ret g /\ fst <$> NextId g [TWEPOCH - 1] = Ret (- 2 ^ 22 + 1, mkGen (-1) 1 0 0)) /\
  GenerateUniqueId (2 ^ 41) 0 0 0 = - 2 ^ 63 /\
  exists g ids g' rest, generator_new 0 0 = Ret g /\ NextIds 2 g [TWEPOCH; TWEPOCH + 2 ^ 42] = Ret (ids, g', rest) /\ ids = [0; 0].
Proof. split; [eexists; split; [reflexivity|vm_compute; reflexivity]|]. split; [vm_compute; reflexivity|]. eexists _, _, _, _. split; [reflexivity|]. split; [vm_compute; reflexivity|done]. Qed.
