(* ===== verification/RadixToolkit.v ===== *)
(** * Integer-to-string conversion in an arbitrary base

    Models [toolkit/RadixToolkit.hpp] for every integral type [T]: a type is its
    width and signedness, its values are integers in range, unsigned arithmetic
    wraps and signed overflow is undefined.  A character set is the list of its
    elements; for an array of characters that list ends in the terminating NUL,
    which the code counts.  [from_string_nothrow] is a call of [std::from_chars]
    and is not modelled. *)

From Stdlib Require Import Ascii.
From S2P Require Import Prelude.
Local Open Scope Z_scope.

(** ** Integral types *)
Record int_type := mkType { width : Z; is_signed : bool }.

Definition int8_t := mkType 8 true.
Definition int32_t := mkType 32 true.
Definition int64_t := mkType 64 true.
Definition uint8_t := mkType 8 false.
Definition uint64_t := mkType 64 false.

(** [std::numeric_limits] *)
Definition T_min (T : int_type) : Z := if is_signed T then - 2 ^ (width T - 1) else 0.
Definition T_max (T : int_type) : Z := if is_signed T then 2 ^ (width T - 1) - 1 else 2 ^ width T - 1.
Definition U_max (T : int_type) : Z := 2 ^ width T - 1.

(** Conversions to the unsigned type and, since C++20, to the type itself wrap. *)
Definition to_U (T : int_type) (z : Z) : Z := z mod 2 ^ width T.
Definition to_T (T : int_type) (z : Z) : Z :=
  if is_signed T then (z + 2 ^ (width T - 1)) mod 2 ^ width T - 2 ^ (width T - 1) else z mod 2 ^ width T.

(** [-x], returned as [T]: types narrower than [int] are promoted first, wider ones overflow. *)
Definition neg_T (T : int_type) (x : Z) : outcome Z :=
  if decide (width T < 32) then Ret (to_T T (- x))
  else if decide (T_min T <= - x <= T_max T) then Ret (- x) else Undef.

(** ** Characters *)
Definition code (c : ascii) : Z := Z.of_N (N_of_ascii c).

Definition char_to_digit (c : ascii) : Z :=
  if decide (code "0" <= code c <= code "9") then code c - code "0"
  else if decide (code "A" <= code c <= code "Z") then code c - code "A" + 10
  else if decide (code "a" <= code c <= code "z") then code c - code "a" + 10
  else -1.

Definition digits : list ascii := ["0"; "1"; "2"; "3"; "4"; "5"; "6"; "7"; "8"; "9"]%char.
Definition upper : list ascii := ["A"; "B"; "C"; "D"; "E"; "F"; "G"; "H"; "I"; "J"; "K"; "L"; "M";
  "N"; "O"; "P"; "Q"; "R"; "S"; "T"; "U"; "V"; "W"; "X"; "Y"; "Z"]%char.
Definition default_charset : list ascii := digits ++ upper.

(** A string literal bound to an array: its characters and the terminator. *)
Definition literal (s : list ascii) : list ascii := s ++ ["000"%char].

(** ** Stateless conversions *)

Fixpoint emit_digits (fuel : nat) (T : int_type) (ubase abs_value : Z) (charset : list ascii) : outcome (list ascii) :=
  match fuel with
  | O => NoFuel
  | S fuel =>
    if decide (0 < abs_value) then
      if decide (ubase = 0) then Undef else
      c ← vget charset (Z.to_nat (abs_value mod ubase));
      result ← emit_digits fuel T ubase (abs_value / ubase) charset;
      Ret (c :: result)
    else Ret []
  end.

Definition convert_to_string (T : int_type) (value base : Z) (charset : list ascii) : outcome (list ascii) :=
  if decide (base < 2 \/ Z.of_nat (length charset) < base) then Throw invalid_argument else
  if decide (value = 0) then c ← vget charset 0; Ret [c] else
  let negative := is_signed T && (value <? 0) in
  let abs_value := if negative then to_U T (to_U T (- (value + 1)) + 1) else to_U T value in
  result ← emit_digits (S (Z.to_nat (width T))) T (to_U T base) abs_value charset;
  Ret (rev (result ++ if negative then ["-"%char] else [])).

Fixpoint accumulate (T : int_type) (base result : Z) (str : list ascii) : outcome Z :=
  match str with
  | [] => Ret result
  | c :: str =>
    let digit := char_to_digit c in
    if decide (digit < 0 \/ base <= digit) then Throw invalid_argument else
    if decide ((U_max T - digit) / base < result) then Throw out_of_range else
    accumulate T base (to_U T (result * base + digit)) str
  end.

Definition convert_from_string (T : int_type) (str : list ascii) (base : Z) : outcome Z :=
  if decide (base < 2 \/ 36 < base) then Throw invalid_argument else
  match str with
  | [] => Throw invalid_argument
  | c :: rest =>
    '(negative, body) ←
      (if is_signed T then
         if decide (c = "-"%char) then if decide (rest = []) then Throw invalid_argument else Ret (true, rest)
         else if decide (c = "+"%char) then Ret (false, rest) else Ret (false, str)
       else Ret (false, str));
    result ← accumulate T base 0 body;
    if is_signed T then
      if negative : bool then
        let min_mag := to_U T (T_min T) in
        if decide (min_mag < result) then Throw out_of_range else neg_T T (to_T T result)
      else if decide (to_U T (T_max T) < result) then Throw out_of_range else Ret (to_T T result)
    else Ret (to_T T result)
  end.

Definition to_binary T value := convert_to_string T value 2 (literal (take 2 digits)).
Definition to_octal T value := convert_to_string T value 8 (literal (take 8 digits)).
Definition to_hex T value := convert_to_string T value 16 (literal (digits ++ take 6 upper)).
Definition to_hex_lower T value := convert_to_string T value 16 (literal (digits ++ ["a"; "b"; "c"; "d"; "e"; "f"]%char)).

(** ** Instances *)
Record RadixToolkit := mkRadix { default_base_ : Z; charset_ : list ascii }.

Definition radix_new (default_base : Z) (charset : list ascii) : outcome RadixToolkit :=
  if decide (default_base < 2 \/ Z.of_nat (length charset) < default_base) then Throw invalid_argument
  else Ret (mkRadix default_base charset).

Definition effective_base (r : RadixToolkit) (override_base : Z) : Z :=
  if decide (override_base = 0) then default_base_ r else override_base.

Definition to_string (r : RadixToolkit) T value override_base :=
  convert_to_string T value (effective_base r override_base) (charset_ r).

Definition from_string (r : RadixToolkit) T str override_base :=
  convert_from_string T str (effective_base r override_base).

Definition get_default_base (r : RadixToolkit) : Z := default_base_ r.
Definition get_charset (r : RadixToolkit) : list ascii := charset_ r.

Example to_hex_255 : to_hex int32_t (-255) = Ret ["-"; "F"; "F"]%char.
Proof. vm_compute. reflexivity. Qed.
Example from_hex_ff : convert_from_string int32_t ["-"; "f"; "F"]%char 16 = Ret (-255).
Proof. vm_compute. reflexivity. Qed.
Example min8 : convert_from_string int8_t ["-"; "8"; "0"]%char 16 = Ret (-128).
Proof. vm_compute. reflexivity. Qed.
Example nul_digit : to_binary int32_t 2 = Ret ["1"; "0"]%char /\ convert_to_string int32_t 2 3 (literal (take 2 digits)) = Ret ["000"]%char.
Proof. vm_compute. done. Qed.

(** ** Specification: positional notation *)

Definition digit_ok (base : Z) (c : ascii) : Prop := 0 <= char_to_digit c < base.

(** Horner's rule from an accumulator. *)
Definition horner (base result : Z) (str : list ascii) : Z :=
  fold_left (fun r c => r * base + char_to_digit c) str result.

(** Types of 8 to 64 bits. *)
Definition wf_type (T : int_type) : Prop := 8 <= width T <= 64.
Definition in_type (T : int_type) (z : Z) : Prop := T_min T <= z <= T_max T.

(** The one value whose text cannot be read back: the minimum of a signed type
    of 32 bits or more, whose magnitude is negated in the type itself. *)
Definition unreadable (T : int_type) (z : Z) : bool := is_signed T && (32 <=? width T) && (z =? T_min T).

(** A character set whose digits the parser reads back. *)
Definition charset_ok (charset : list ascii) (base : Z) : Prop :=
  forall i, 0 <= i < base -> exists c, charset !! Z.to_nat i = Some c /\ char_to_digit c = i.

(** The sign and the digits of a text: only signed types take a sign. *)
Definition sign_split (T : int_type) (str : list ascii) : bool * list ascii :=
  match str with
  | c :: rest =>
    if is_signed T then
      if decide (c = "-"%char) then (true, rest) else if decide (c = "+"%char) then (false, rest) else (false, str)
    else (false, str)
  | [] => (false, [])
  end.

Lemma pow_width T : wf_type T -> 256 <= 2 ^ width T /\ 2 ^ width T = 2 * 2 ^ (width T - 1) /\ 128 <= 2 ^ (width T - 1).
Proof.
  intros Hw. unfold wf_type in Hw. change 256 with (2 ^ 8). change 128 with (2 ^ 7).
  split_and!; [apply Z.pow_le_mono_r; lia| |apply Z.pow_le_mono_r; lia].
  rewrite <- Z.pow_succ_r by lia. f_equal. lia.
Qed.

Lemma to_U_small T z : 0 <= z <= U_max T -> to_U T z = z.
Proof. intros Hz. unfold to_U, U_max in *. apply Z.mod_small. lia. Qed.

Lemma to_T_small T z : wf_type T -> in_type T z -> to_T T z = z.
Proof.
  intros Hw Hz. destruct (pow_width T Hw) as (_ & E & _). unfold to_T, in_type, T_min, T_max in *.
  destruct (is_signed T); rewrite Z.mod_small; lia.
Qed.

Lemma horner_le base r str : 1 <= base -> 0 <= r -> Forall (digit_ok base) str -> r <= horner base r str.
Proof.
  intros Hb Hr Hstr. revert r Hr. induction Hstr as [|c str Hc Hstr IH]; intros r Hr; cbn; [lia|].
  unfold digit_ok in Hc. etrans; [|apply IH]; nia.
Qed.

Lemma horner_snoc base r str c : horner base r (str ++ [c]) = horner base r str * base + char_to_digit c.
Proof. unfold horner. by rewrite fold_left_app. Qed.

Lemma accumulate_ok T base str : wf_type T -> 2 <= base <= 36 -> Forall (digit_ok base) str ->
  forall r, 0 <= r <= U_max T ->
  accumulate T base r str = if decide (horner base r str <= U_max T) then Ret (horner base r str) else Throw out_of_range.
Proof.
  intros Hw Hb Hstr. destruct (pow_width T Hw) as (E & _ & _).
  induction Hstr as [|c str Hc Hstr IH]; intros r Hr; cbn [accumulate]; [by rewrite decide_True by apply Hr|].
  unfold digit_ok in Hc. rewrite (decide_False (P := _ \/ _)) by lia. cbn [horner fold_left].
  set (r' := r * base + char_to_digit c). fold (horner base r' str).
  assert (((U_max T - char_to_digit c) / base < r) <-> U_max T < r') as Hiff.
  { unfold r'. split; intros Hlt.
    - apply Z.lt_nge. intros Hge. apply Z.lt_nge in Hlt. apply Hlt. apply Z.div_le_lower_bound; lia.
    - apply Z.div_lt_upper_bound; lia. }
  destruct (decide ((U_max T - char_to_digit c) / base < r)) as [Hov|Hok].
  - apply Hiff in Hov. rewrite decide_False; [done|]. intros Hle.
    assert (r' <= horner base r' str) by (apply horner_le; [lia|unfold r'; nia|done]). lia.
  - assert (r' <= U_max T) by (apply Z.le_ngt; by rewrite <- Hiff). assert (0 <= r') by (unfold r'; nia).
    rewrite to_U_small by done. by apply IH.
Qed.

Lemma accumulate_bad T base str : ~ Forall (digit_ok base) str ->
  forall r, accumulate T base r str = Throw invalid_argument \/ accumulate T base r str = Throw out_of_range.
Proof.
  induction str as [|c str IH]; intros Hbad r; [by destruct Hbad|]. cbn [accumulate]. case_decide; [by left|].
  case_decide; [by right|]. apply IH. intros Hok. apply Hbad. constructor; [unfold digit_ok; lia|done].
Qed.

(** ** Writing *)
Lemma emit_digits_ok T base charset : 2 <= base -> charset_ok charset base ->
  forall n abs, 0 <= abs < 2 ^ Z.of_nat n ->
  exists l, emit_digits (S n) T base abs charset = Ret l /\ Forall (digit_ok base) l /\ horner base 0 (rev l) = abs /\
    (0 < abs -> l <> []).
Proof.
  intros Hb Hcs. induction n as [|n IH]; intros abs Habs; cbn [emit_digits].
  - change (2 ^ Z.of_nat 0) with 1 in Habs. rewrite decide_False by lia. exists []. split_and!; [done|done|cbn; lia|lia].
  - destruct (decide (0 < abs)) as [Hpos|Hz]; [|exists []; split_and!; [done|done|cbn; lia|lia]].
    rewrite decide_False by lia. pose proof (Z.mod_pos_bound abs base ltac:(lia)) as Hmod.
    destruct (Hcs (abs mod base) Hmod) as (c & Hc & Hd). rewrite (vget_Some _ _ _ Hc). ret_step.
    destruct (IH (abs / base)) as (l & E & Hl & Hv & _).
    { rewrite Nat2Z.inj_succ, Z.pow_succ_r in Habs by lia. split; [apply Z.div_pos; lia|]. apply Z.div_lt_upper_bound; [lia|]. nia. }
    cbn [emit_digits] in E. rewrite E. ret_step. exists (c :: l). split_and!; [done| | |done].
    + constructor; [unfold digit_ok; lia|done].
    + cbn [rev]. rewrite horner_snoc, Hv, Hd. pose proof (Z.div_mod abs base ltac:(lia)). lia.
Qed.

(** ** Reading *)

(** What a text of valid digits denotes. *)
Definition denotes (T : int_type) (base : Z) (str : list ascii) : Z :=
  let '(negative, body) := sign_split T str in
  if negative then - horner base 0 body else horner base 0 body.

(** The minimum's magnitude, its reinterpretation, and its negation. *)
Lemma to_U_min T : wf_type T -> is_signed T = true -> to_U T (T_min T) = 2 ^ (width T - 1).
Proof.
  intros Hw Hs. destruct (pow_width T Hw) as (E1 & E2 & E3). unfold to_U, T_min. rewrite Hs, E2.
  symmetry. apply (Z.mod_unique_pos _ _ (-1)); lia.
Qed.

Lemma to_T_min T : wf_type T -> is_signed T = true -> to_T T (2 ^ (width T - 1)) = T_min T.
Proof.
  intros Hw Hs. destruct (pow_width T Hw) as (E1 & E2 & E3). unfold to_T, T_min. rewrite Hs.
  replace (2 ^ (width T - 1) + 2 ^ (width T - 1)) with (2 ^ width T) by lia. rewrite Z.mod_same; lia.
Qed.

Lemma neg_T_ok T x : wf_type T -> is_signed T = true -> 0 <= x <= 2 ^ (width T - 1) ->
  neg_T T (to_T T x) = if unreadable T (- x) then Undef else Ret (- x).
Proof.
  intros Hw Hs Hx. destruct (pow_width T Hw) as (E1 & E2 & E3).
  assert (T_min T = - 2 ^ (width T - 1) /\ T_max T = 2 ^ (width T - 1) - 1) as [Emin Emax] by (unfold T_min, T_max; by rewrite Hs).
  assert (x < 2 ^ (width T - 1) -> to_T T x = x) as Hsmall by (intros; apply to_T_small; [done|unfold in_type; lia]).
  unfold neg_T, unreadable. rewrite Hs. cbn [andb].
  destruct (decide (width T < 32)) as [Hn|Hn]; [rewrite (proj2 (Z.leb_gt 32 (width T))) by lia|rewrite (proj2 (Z.leb_le 32 (width T))) by lia]; cbn [andb].
  - f_equal. destruct (Z.eq_dec x (2 ^ (width T - 1))) as [->|Hne].
    + rewrite to_T_min, Emin by done. rewrite Z.opp_involutive, to_T_min by done. lia.
    + rewrite Hsmall by lia. apply to_T_small; [done|]. unfold in_type. lia.
  - destruct (Z.eqb_spec (- x) (T_min T)) as [He|He].
    + assert (x = 2 ^ (width T - 1)) as -> by lia. rewrite to_T_min by done. rewrite decide_False by lia. done.
    + rewrite Hsmall by lia. by rewrite decide_True by lia.
Qed.

Lemma finish_ok T (negative : bool) result :
  wf_type T -> 0 <= result <= U_max T -> (negative = true -> is_signed T = true) ->
  (if is_signed T then
     if negative then
       let min_mag := to_U T (T_min T) in
       if decide (min_mag < result) then Throw out_of_range else neg_T T (to_T T result)
     else if decide (to_U T (T_max T) < result) then Throw out_of_range else Ret (to_T T result)
   else Ret (to_T T result)) =
  let v := if negative then - result else result in
  if decide (in_type T v) then if unreadable T v then Undef else Ret v else Throw out_of_range.
Proof.
  intros Hw Hr Hneg. destruct (pow_width T Hw) as (E1 & E2 & E3). cbn zeta. unfold U_max in Hr.
  destruct (is_signed T) eqn:Hs.
  - assert (T_min T = - 2 ^ (width T - 1) /\ T_max T = 2 ^ (width T - 1) - 1) as [Emin Emax] by (unfold T_min, T_max; by rewrite Hs).
    destruct negative.
    + rewrite to_U_min by done. unfold in_type. destruct (decide (2 ^ (width T - 1) < result)).
      * by rewrite decide_False by lia.
      * rewrite decide_True by lia. apply neg_T_ok; [done|done|lia].
    + rewrite to_U_small by (unfold U_max; lia). destruct (decide (T_max T < result)).
      * rewrite decide_False; [done|unfold in_type; lia].
      * rewrite decide_True by (unfold in_type; lia). rewrite to_T_small by (done || (unfold in_type; lia)).
        unfold unreadable. rewrite (proj2 (Z.eqb_neq result (T_min T))) by lia. by rewrite andb_false_r.
  - destruct negative; [by specialize (Hneg eq_refl)|].
    assert (in_type T result) as Hin by (unfold in_type, T_min, T_max; rewrite Hs; lia).
    rewrite decide_True by done. rewrite to_T_small by done. unfold unreadable. by rewrite Hs.
Qed.

Lemma sign_split_signed T str : (sign_split T str).1 = true -> is_signed T = true.
Proof. destruct str as [|c str]; cbn; [done|]. by destruct (is_signed T). Qed.

(** The guards and the sign, then the accumulation and the range check. *)
Lemma convert_from_string_unfold T str base : 2 <= base <= 36 -> str <> [] ->
  convert_from_string T str base =
    let '(negative, body) := sign_split T str in
    if decide (negative = true /\ body = []) then Throw invalid_argument else
    result ← accumulate T base 0 body;
    if is_signed T then
      if negative then
        let min_mag := to_U T (T_min T) in
        if decide (min_mag < result) then Throw out_of_range else neg_T T (to_T T result)
      else if decide (to_U T (T_max T) < result) then Throw out_of_range else Ret (to_T T result)
    else Ret (to_T T result).
Proof.
  intros Hb Hne. unfold convert_from_string. rewrite decide_False by lia. destruct str as [|c rest]; [done|]. cbn [sign_split].
  destruct (is_signed T); [|rewrite decide_False by (by intros []); done].
  destruct (decide (c = "-"%char)).
  - destruct (decide (rest = [])) as [->|Hr]; [by rewrite decide_True|]. by rewrite decide_False by (by intros []).
  - destruct (decide (c = "+"%char)); by rewrite decide_False by (by intros []).
Qed.

Definition lone_minus (T : int_type) (str : list ascii) : Prop := is_signed T = true /\ str = ["-"%char].

Lemma lone_minus_split T str : str <> [] ->
  (let '(negative, body) := sign_split T str in negative = true /\ body = []) <-> lone_minus T str.
Proof.
  intros Hne. destruct str as [|c rest]; [done|]. cbn. unfold lone_minus. destruct (is_signed T).
  - repeat case_decide; naive_solver.
  - naive_solver.
Qed.

Lemma parse_digits T base str : wf_type T -> 2 <= base <= 36 -> str <> [] -> ~ lone_minus T str ->
  Forall (digit_ok base) (sign_split T str).2 ->
  convert_from_string T str base =
    if decide (in_type T (denotes T base str)) then
      if unreadable T (denotes T base str) then Undef else Ret (denotes T base str)
    else Throw out_of_range.
Proof.
  intros Hw Hb Hne Hlone Hok. destruct (pow_width T Hw) as (E1 & E2 & E3). rewrite convert_from_string_unfold by done.
  unfold denotes. rewrite <- (lone_minus_split T str Hne) in Hlone. pose proof (sign_split_signed T str) as Hsig.
  destruct (sign_split T str) as [negative body] eqn:E. cbn [fst snd] in *. rewrite (decide_False (P := _ /\ _)) by done.
  rewrite accumulate_ok by (done || (unfold U_max; lia)). set (r := horner base 0 body).
  assert (0 <= r) by (apply horner_le; [lia|lia|done]).
  destruct (decide (r <= U_max T)) as [Hr|Hr]; [ret_step; by apply finish_ok|]. cbn.
  rewrite decide_False; [done|]. unfold in_type, T_min, T_max, U_max in *.
  destruct (is_signed T); destruct negative; lia.
Qed.

Lemma parse_bad T base str : 2 <= base <= 36 -> ~ Forall (digit_ok base) (sign_split T str).2 ->
  convert_from_string T str base = Throw invalid_argument \/ convert_from_string T str base = Throw out_of_range.
Proof.
  intros Hb Hbad. assert (str <> []) as Hne by (intros ->; apply Hbad; constructor).
  rewrite convert_from_string_unfold by done. destruct (sign_split T str) as [negative body]. cbn [snd] in Hbad.
  case_decide; [by left|]. destruct (accumulate_bad T base body Hbad 0) as [-> | ->]; auto.
Qed.

(** reading a text of valid digits gives the number it denotes when the type
    holds it and throws [out_of_range] otherwise; the minimum of a signed type of
    32 bits or more is undefined behaviour instead.  An empty text, a lone minus
    and a base outside 2 to 36 throw, and so does a text with an invalid character
    (a range error when its prefix is already too large). *)
Theorem radix_parse_spec T base str :
  wf_type T ->
  (~ 2 <= base <= 36 \/ str = [] \/ lone_minus T str -> convert_from_string T str base = Throw invalid_argument) /\
  (2 <= base <= 36 -> str <> [] -> ~ lone_minus T str -> Forall (digit_ok base) (sign_split T str).2 ->
   convert_from_string T str base =
     if decide (in_type T (denotes T base str)) then
       if unreadable T (denotes T base str) then Undef else Ret (denotes T base str)
     else Throw out_of_range) /\
  (2 <= base <= 36 -> ~ Forall (digit_ok base) (sign_split T str).2 ->
   convert_from_string T str base = Throw invalid_argument \/ convert_from_string T str base = Throw out_of_range).
Proof.
  intros Hw. split_and!; [|by apply parse_digits|by apply parse_bad].
  intros H. unfold convert_from_string. destruct (decide (base < 2 \/ 36 < base)) as [|Hb]; [done|].
  destruct H as [H|[->|[Hs ->]]]; [lia|done|]. by rewrite Hs.
Qed.

Lemma radix_parse_witness :
  wf_type int32_t /\ convert_from_string int32_t ["-"; "7"; "f"]%char 16 = Ret (-127).
Proof.
  assert (wf_type int32_t) as Hw by (unfold wf_type; cbn; lia). split; [exact Hw|].
  pose proof (proj1 (proj2 (radix_parse_spec int32_t 16 ["-"; "7"; "f"]%char Hw))) as H. rewrite H; [reflexivity|lia|discriminate| |].
  - intros [_ [=]].
  - cbn. repeat constructor; vm_compute; try discriminate; done.
Defined.

(** A text that starts with a digit has no sign. *)
Lemma sign_split_digits T base str : Forall (digit_ok base) str -> sign_split T str = (false, str).
Proof.
  destruct 1 as [|c str Hc _]; [done|]. cbn. unfold digit_ok in Hc. destruct (is_signed T); [|done].
  destruct (decide (c = "-"%char)) as [->|]; [by vm_compute in Hc; destruct Hc|].
  by destruct (decide (c = "+"%char)) as [->|]; [vm_compute in Hc; destruct Hc|].
Qed.

Lemma parse_plain T base str v : wf_type T -> 2 <= base <= 36 -> str <> [] -> Forall (digit_ok base) str ->
  horner base 0 str = v -> in_type T v -> unreadable T v = false -> convert_from_string T str base = Ret v.
Proof.
  intros Hw Hb Hne Hok <- Hin Hun. pose proof (sign_split_digits T base str Hok) as Hs.
  rewrite parse_digits; [| done|done|done| |by rewrite Hs].
  - unfold denotes. rewrite Hs, decide_True by done. by rewrite Hun.
  - rewrite <- lone_minus_split by done. rewrite Hs. by intros [].
Qed.

Lemma convert_to_string_digits T value base charset :
  wf_type T -> in_type T value -> 2 <= base <= 36 -> charset_ok charset base ->
  exists l, l <> [] /\ Forall (digit_ok base) l /\ horner base 0 l = Z.abs value /\
    convert_to_string T value base charset = Ret (if value <? 0 then "-"%char :: l else l).
Proof.
  intros Hw Hv Hb Hcs. destruct (pow_width T Hw) as (E1 & E2 & E3). unfold convert_to_string.
  assert (base <= Z.of_nat (length charset)) as Hlen.
  { destruct (Hcs (base - 1) ltac:(lia)) as (c & Hc%lookup_lt_Some & _). lia. }
  rewrite (decide_False (P := base < 2 \/ _)) by lia.
  destruct (decide (value = 0)) as [->|Hnz].
  { destruct (Hcs 0 ltac:(lia)) as (c & Hc & Hd). change (Z.to_nat 0) with 0%nat in Hc. rewrite (vget_Some _ _ c Hc). ret_step. exists [c].
    split_and!; [done| |cbn; lia|done]. constructor; [unfold digit_ok; lia|done]. }
  set (abs := if is_signed T && (value <? 0) then to_U T _ else _).
  assert (abs = Z.abs value /\ is_signed T && (value <? 0) = (value <? 0)) as [Habs Hneg].
  { unfold abs, in_type, T_min, T_max in *. destruct (is_signed T); cbn [andb].
    - split; [|done]. destruct (Z.ltb_spec value 0).
      + rewrite (to_U_small T (- (value + 1))), to_U_small by (unfold U_max; lia). lia.
      + rewrite to_U_small by (unfold U_max; lia). lia.
    - rewrite (proj2 (Z.ltb_ge value 0)) by lia. rewrite to_U_small by (unfold U_max; lia). split; [lia|done]. }
  rewrite Habs, Hneg. rewrite (to_U_small T base) by (unfold U_max; lia).
  destruct (emit_digits_ok T base charset (proj1 Hb) Hcs (Z.to_nat (width T)) (Z.abs value)) as (l & E & Hl & Hval & Hlne).
  { unfold wf_type in Hw. rewrite Z2Nat.id by lia. unfold in_type, T_min, T_max in Hv. destruct (is_signed T); lia. }
  rewrite E. ret_step. exists (rev l). split_and!; [| |done|].
  - intros Hrev. apply Hlne; [lia|]. by rewrite <- (rev_involutive l), Hrev.
  - by apply List.Forall_rev.
  - destruct (value <? 0); [by rewrite rev_app_distr|by rewrite app_nil_r].
Qed.

(** C36: Reading back what was written gives the value, in every base, for every type
    and every character set of the parser's digits - except the minimum of a
    signed type of 32 bits or more, whose text is written but whose reading
    negates it in the type: undefined behaviour. *)
Theorem radix_roundtrip T value base charset :
  wf_type T -> in_type T value -> 2 <= base <= 36 -> charset_ok charset base ->
  exists str, convert_to_string T value base charset = Ret str /\
    convert_from_string T str base = if unreadable T value then Undef else Ret value.
Proof.
  intros Hw Hv Hb Hcs. destruct (convert_to_string_digits T value base charset Hw Hv Hb Hcs) as (l & Hne & Hok & Hval & ->).
  eexists. split; [done|]. destruct (Z.ltb_spec value 0) as [Hneg|Hpos].
  - assert (is_signed T = true) as Hs by (unfold in_type, T_min in Hv; destruct (is_signed T); [done|lia]).
    assert (sign_split T ("-"%char :: l) = (true, l)) as Hsp by (cbn; by rewrite Hs).
    rewrite parse_digits; [|done|done|done|by intros [_ [=]]|by rewrite Hsp].
    unfold denotes. rewrite Hsp, Hval. replace (- Z.abs value) with value by lia. by rewrite decide_True.
  - assert (unreadable T value = false) as Hun.
    { unfold unreadable, T_min. destruct (is_signed T); [|done]. destruct (pow_width T Hw) as (_ & _ & E3).
      rewrite (proj2 (Z.eqb_neq value _)) by lia. by rewrite andb_false_r. }
    rewrite Hun. apply parse_plain; try done. lia.
Qed.

Lemma default_charset_ok base : 2 <= base <= 36 -> charset_ok default_charset base.
Proof.
  intros Hb i Hi. assert (Forall (fun n => exists c, default_charset !! n = Some c /\ char_to_digit c = Z.of_nat n) (seq 0 36)) as Hall.
  { repeat constructor; eexists; split; reflexivity. }
  rewrite Forall_forall in Hall. destruct (Hall (Z.to_nat i)) as (c & Hc & Hd); [apply elem_of_seq; lia|].
  exists c. split; [done|]. rewrite Hd. lia.
Qed.

Lemma radix_roundtrip_witness :
  (exists str, convert_to_string int32_t (-123456) 36 default_charset = Ret str /\
    convert_from_string int32_t str 36 = Ret (-123456)) /\
  (exists str, convert_to_string int32_t (-2147483648) 10 default_charset = Ret str /\
    convert_from_string int32_t str 10 = Undef).
Proof.
  split.
  - apply (radix_roundtrip int32_t (-123456) 36 default_charset);
      [unfold wf_type; cbn; lia|unfold in_type; cbn; lia|lia|apply default_charset_ok; lia].
  - apply (radix_roundtrip int32_t (-2147483648) 10 default_charset);
      [unfold wf_type; cbn; lia|unfold in_type; cbn; lia|lia|apply default_charset_ok; lia].
Defined.

(** A lone plus is read as zero, a lone minus is rejected. *)
Example plus_is_zero : convert_from_string int32_t ["+"%char] 10 = Ret 0 /\ convert_from_string int32_t ["-"%char] 10 = Throw invalid_argument.
Proof. vm_compute. done. Qed.
