(* ===== verification/Graph.v ===== *)
(** * Graphs as adjacency lists

    Models [data_structure/graph/Graph.hpp], [Edge.hpp] and their [.cc] files.
    Node numbers and weights are [int32_t]; the edge counter overflows, which is
    undefined, after [2^31 - 1] edges. *)

From S2P Require Import Prelude.
Local Open Scope Z_scope.

Record Edge := mkEdge { to_ : Z; weight_ : Z }.

Definition setTo (e : Edge) (to : Z) : Edge := mkEdge to (weight_ e).
Definition setWeight (e : Edge) (weight : Z) : Edge := mkEdge (to_ e) weight.
Definition edge_eqb (e other : Edge) : bool := bool_decide (to_ e = to_ other) && bool_decide (weight_ e = weight_ other).
Definition edge_neqb (e other : Edge) : bool := negb (edge_eqb e other).

Record Graph := mkGraph {
  num_nodes_ : Z;
  edge_count_ : Z;
  adj_list_ : list (list Edge);
}.

Implicit Types (g : Graph) (u v w : Z) (e : Edge).

(** ** Operations *)

Definition graph_new (n : Z) : outcome Graph :=
  if decide (n < 0) then Throw invalid_argument else Ret (mkGraph n 0 (replicate (Z.to_nat n) [])).

Definition addEdge g (from to weight : Z) : outcome Graph :=
  if decide (from < 0 \/ num_nodes_ g <= from \/ to < 0 \/ num_nodes_ g <= to) then Throw out_of_range else
  edges ← vgetz (adj_list_ g) from;
  adj ← vsetz (adj_list_ g) from (edges ++ [mkEdge to weight]);
  count ← add32 (edge_count_ g) 1;
  Ret (mkGraph (num_nodes_ g) count adj).

Definition addUndirectedEdge g (u v weight : Z) : outcome Graph :=
  g ← addEdge g u v weight; addEdge g v u weight.

Definition getAdjList g (node : Z) : outcome (list Edge) :=
  if decide (node < 0 \/ num_nodes_ g <= node) then Throw out_of_range else vgetz (adj_list_ g) node.

(** [getMutableAdjList]: an assignment through the reference it returns. *)
Definition setAdjList g (node : Z) (edges : list Edge) : outcome Graph :=
  if decide (node < 0 \/ num_nodes_ g <= node) then Throw out_of_range else
  adj ← vsetz (adj_list_ g) node edges; Ret (mkGraph (num_nodes_ g) (edge_count_ g) adj).

Definition getNodeCount g : Z := num_nodes_ g.
Definition getEdgeCount g : Z := edge_count_ g.
Definition isEmpty g : bool := bool_decide (num_nodes_ g = 0).

(** ** Invariant and the relation a graph represents *)

Definition node g v : Prop := 0 <= v < num_nodes_ g.

Record wf_graph g : Prop := {
  wf_nodes : num_nodes_ g = Z.of_nat (length (adj_list_ g));
  wf_int : num_nodes_ g <= INT32_MAX;
  wf_edges : Forall (Forall (fun e => node g (to_ e))) (adj_list_ g);
  wf_count : edge_count_ g = Z.of_nat (length (mjoin (adj_list_ g)));
}.

Definition adj g u : list Edge := default [] (adj_list_ g !! Z.to_nat u).
Definition edge g u v : Prop := node g u /\ v ∈ (to_ <$> adj g u).

Lemma adj_ok g u : wf_graph g -> node g u -> adj_list_ g !! Z.to_nat u = Some (adj g u) /\ getAdjList g u = Ret (adj g u).
Proof.
  intros Hwf Hu. unfold node in Hu. destruct (lookup_z (adj_list_ g) u) as [es Hes]; [rewrite <- (wf_nodes _ Hwf); lia|].
  unfold adj, getAdjList. rewrite Hes, decide_False by lia. split; [done|]. apply vgetz_Some; [lia|done].
Qed.

Lemma edge_node g u v : wf_graph g -> edge g u v -> node g u /\ node g v.
Proof.
  intros Hwf [Hu (e & -> & He)%list_elem_of_fmap]. split; [done|].
  destruct (adj_ok g u Hwf Hu) as [Ha _]. pose proof (wf_edges _ Hwf) as Hall. rewrite Forall_forall in Hall.
  specialize (Hall (adj g u)). rewrite Forall_forall in Hall. apply Hall; [by eapply list_elem_of_lookup_2|done].
Qed.

Lemma graph_new_ok n : 0 <= n <= INT32_MAX -> exists g, graph_new n = Ret g /\ wf_graph g /\ num_nodes_ g = n /\ forall u v, ~ edge g u v.
Proof.
  intros Hn. unfold graph_new. rewrite decide_False by lia. eexists. split_and!; [done| |done|].
  - split; cbn; [rewrite length_replicate; lia|lia|by apply Forall_replicate|].
    clear. induction (Z.to_nat n); [done|]. cbn. done.
  - intros u v [_ Hv]. unfold adj in Hv. cbn in Hv. destruct (replicate (Z.to_nat n) [] !! Z.to_nat u) eqn:E; [|by apply elem_of_nil in Hv].
    apply lookup_replicate in E as [-> _]. by apply elem_of_nil in Hv.
Qed.

Lemma length_join_insert {A} (ls : list (list A)) i l x :
  ls !! i = Some l -> length (mjoin (<[i := l ++ [x]]> ls)) = S (length (mjoin ls)).
Proof.
  revert i. induction ls as [|l' ls IH]; intros [|i]; try done; change (mjoin (l' :: ls)) with (l' ++ mjoin ls).
  - intros [= ->]. change (mjoin (<[0%nat := l ++ [x]]> (l :: ls))) with ((l ++ [x]) ++ mjoin ls).
    rewrite !length_app. cbn. lia.
  - intros Hi. change (mjoin (<[S i := l ++ [x]]> (l' :: ls))) with (l' ++ mjoin (<[i := l ++ [x]]> ls)).
    rewrite !length_app, (IH i Hi). lia.
Qed.

(** Adding an edge adds exactly that edge, or throws and changes nothing. *)
Lemma addEdge_ok g u v x : wf_graph g -> node g u -> node g v -> edge_count_ g < INT32_MAX ->
  exists g', addEdge g u v x = Ret g' /\ wf_graph g' /\ num_nodes_ g' = num_nodes_ g /\
    edge_count_ g' = edge_count_ g + 1 /\ forall a b, edge g' a b <-> edge g a b \/ (a = u /\ b = v).
Proof.
  intros Hwf Hu Hv Hc. destruct (adj_ok g u Hwf Hu) as [Ha _]. unfold addEdge, node in *.
  rewrite decide_False by lia. rewrite (vgetz_Some _ _ _ (proj1 Hu) Ha). ret_step.
  pose proof (wf_nodes _ Hwf) as Hn. rewrite vsetz_lt by lia. ret_step.
  rewrite add32_in by (unfold in_i32, INT32_MIN; rewrite (wf_count _ Hwf) in *; lia). ret_step.
  eexists. split; [done|]. split_and!; [|done|done|].
  - split; cbn; [by rewrite length_insert|apply Hwf| |].
    + apply Forall_insert; [apply (wf_edges _ Hwf)|]. apply Forall_app. split; [|constructor; [done|constructor]].
      pose proof (wf_edges _ Hwf) as Hall. rewrite Forall_lookup in Hall. by eapply Hall.
    + rewrite (length_join_insert _ _ _ _ Ha), (wf_count _ Hwf). lia.
  - intros a b. unfold edge, adj, node. cbn. destruct (decide (a = u)) as [->|Hne].
    + rewrite list_lookup_insert_eq by lia. rewrite Ha. cbn. rewrite fmap_app, elem_of_app. cbn. rewrite list_elem_of_singleton.
      naive_solver.
    + destruct (decide (0 <= a)) as [Ha0|Ha0]; [|naive_solver lia].
      rewrite list_lookup_insert_ne by lia. naive_solver.
Qed.

(** A graph built edge by edge. *)
Fixpoint addEdges g (es : list (Z * Z * Z)) : outcome Graph :=
  match es with
  | [] => Ret g
  | (u, v, w) :: es => g ← addEdge g u v w; addEdges g es
  end.

Lemma addEdges_ok es : forall g, wf_graph g -> Forall (fun '(u, v, _) => node g u /\ node g v) es ->
  edge_count_ g + Z.of_nat (length es) <= INT32_MAX ->
  exists g', addEdges g es = Ret g' /\ wf_graph g' /\ num_nodes_ g' = num_nodes_ g.
Proof.
  induction es as [|[[u v] w] es IH]; intros g Hwf Hes Hc; cbn [addEdges]; [eauto|].
  apply Forall_cons in Hes as [[Hu Hv] Hes]. cbn [length] in Hc.
  destruct (addEdge_ok g u v w Hwf Hu Hv) as (g1 & -> & Hwf1 & Hn & Hc1 & _); [lia|]. ret_step.
  destruct (IH g1 Hwf1) as (g' & -> & Hwf' & Hn'); [|rewrite Hc1; lia|eexists; split_and!; [done|done|congruence]].
  eapply Forall_impl; [exact Hes|]. intros [[a b] c]. unfold node. by rewrite Hn.
Qed.
