(* ===== verification/BreadthFirst.v ===== *)
(** * Breadth-first traversal and shortest paths by number of edges

    Models [data_structure/graph/algorithm/BFS.cc] and [TraversalResult] of
    [GraphTraits.hpp].  A visitor is the list of the events it is told of; a null
    visitor is told of none.  The loop runs once per enqueued node and the
    reconstruction once per node of the path: as many iterations as there are
    nodes, plus one, are enough. *)

From S2P Require Import Prelude Graph.
Local Open Scope Z_scope.
Local Open Scope cpp_scope.

Inductive event := onNodeVisit (u : Z) | onEdgeTraverse (u v w : Z).

Record TraversalResult := mkTraversal {
  order : list Z;
  parent : list Z;
  distance : list Z;
}.

Implicit Types (g : Graph) (u v s : Z) (r : TraversalResult) (q : list Z) (log : list event) (d p : list Z).

Definition emit (visitor : bool) log (e : event) : list event := if visitor then log ++ [e] else log.

(** The loop over the neighbours of [u]. *)
Fixpoint explore (visitor : bool) u (edges : list Edge) d p q log : outcome (list Z * list Z * list Z * list event) :=
  match edges with
  | [] => Ret (d, p, q, log)
  | e :: edges =>
    let v := to_ e in
    dv ← vgetz d v;
    if decide (dv = INT32_MAX) then
      du ← vgetz d u;
      dist ← add32 du 1;
      d ← vsetz d v dist;
      p ← vsetz p v u;
      explore visitor u edges d p (q ++ [v]) (emit visitor log (onEdgeTraverse u v (weight_ e)))
    else explore visitor u edges d p q log
  end.

Fixpoint bfs_loop (fuel : nat) (visitor : bool) g (head : nat) q r log : outcome (TraversalResult * list event) :=
  match fuel with
  | O => NoFuel
  | S fuel =>
    if decide (head < length q)%nat then
      u ← q.[head];
      let order := order r ++ [u] in
      let log := emit visitor log (onNodeVisit u) in
      edges ← getAdjList g u;
      '(d, p, q, log) ← explore visitor u edges (distance r) (parent r) q log;
      bfs_loop fuel visitor g (S head) q (mkTraversal order p d) log
    else Ret (r, log)
  end.

Definition traverse g s (visitor : bool) : outcome (TraversalResult * list event) :=
  let n := Z.to_nat (getNodeCount g) in
  let r := mkTraversal [] (replicate n (-1)) (replicate n INT32_MAX) in
  if decide (getNodeCount g = 0 \/ s < 0 \/ getNodeCount g <= s) then Ret (r, []) else
  d ← vsetz (distance r) s 0;
  bfs_loop (S n) visitor g 0 [s] (mkTraversal (order r) (parent r) d) [].

Fixpoint path_loop (fuel : nat) p v : outcome (list Z) :=
  match fuel with
  | O => NoFuel
  | S fuel =>
    if decide (v = -1) then Ret [] else
    next ← vgetz p v; path ← path_loop fuel p next; Ret (v :: path)
  end.

Definition reconstructPath r (to : Z) : outcome (list Z) :=
  if decide (to < 0 \/ Z.of_nat (length (parent r)) <= to) then Ret [] else
  dt ← vgetz (distance r) to;
  if decide (dt = INT32_MAX) then Ret [] else
  path ← path_loop (S (length (parent r))) (parent r) to; Ret (rev path).

Definition shortestPath g s (target : Z) : outcome (list Z) :=
  '(r, _) ← traverse g s false; reconstructPath r target.

(** ** Walks *)
Inductive walk g : Z -> Z -> Z -> Prop :=
| walk_nil u : node g u -> walk g 0 u u
| walk_snoc k u v w : walk g k u v -> edge g v w -> walk g (k + 1) u w.

(** [k] is the least number of edges of a walk from [u] to [v]. *)
Definition shortest g u v (k : Z) : Prop := walk g k u v /\ forall k', walk g k' u v -> k <= k'.

Definition reachable g u v : Prop := exists k, walk g k u v.

(** ** Invariant *)
Definition dist_of d v : Z := default INT32_MAX (d !! Z.to_nat v).
Definition parent_of p v : Z := default (-1) (p !! Z.to_nat v).

Section search.
Context (g : Graph) (s : Z) (Hwf : wf_graph g) (Hs : node g s).

(** [q] is the list of the nodes found, at their distances; those whose
    distance and parent are not known yet are unmarked. *)
Record found d p q : Prop := {
  fd_len : length d = length (adj_list_ g) /\ length p = length (adj_list_ g);
  fd_nodup : NoDup q;
  fd_node : forall v, v ∈ q -> node g v;
  fd_mark : forall v, node g v -> v ∈ q <-> dist_of d v <> INT32_MAX;
  fd_walk : forall v, v ∈ q -> walk g (dist_of d v) s v;
  fd_bound : forall i v, q !! i = Some v -> 0 <= dist_of d v <= Z.of_nat i;
  fd_mono : forall i j u v, (i <= j)%nat -> q !! i = Some u -> q !! j = Some v -> dist_of d u <= dist_of d v;
  fd_source : q !! 0%nat = Some s /\ dist_of d s = 0 /\ parent_of p s = -1;
  fd_parent : forall v, v ∈ q -> v <> s ->
    parent_of p v ∈ q /\ edge g (parent_of p v) v /\ dist_of d v = dist_of d (parent_of p v) + 1;
}.

(** The nodes before [head] have all their neighbours found, at most one further away. *)
Definition explored d q (head : nat) : Prop :=
  forall i u v, (i < head)%nat -> q !! i = Some u -> edge g u v -> v ∈ q /\ dist_of d v <= dist_of d u + 1.

(** No node found is more than one further away than the node at [head]. *)
Definition level d q u : Prop := forall v, v ∈ q -> dist_of d v <= dist_of d u + 1.

Lemma dist_insert d v x w : node g v -> length d = length (adj_list_ g) -> 0 <= w ->
  dist_of (<[Z.to_nat v := x]> d) w = if decide (w = v) then x else dist_of d w.
Proof using Hwf.
  intros [Hv1 Hv2] Hl Hw. pose proof (wf_nodes _ Hwf) as Hn. unfold dist_of. case_decide as E.
  - subst w. rewrite list_lookup_insert_eq by lia. done.
  - rewrite list_lookup_insert_ne by lia. done.
Qed.

Lemma parent_insert p v x w : node g v -> length p = length (adj_list_ g) -> 0 <= w ->
  parent_of (<[Z.to_nat v := x]> p) w = if decide (w = v) then x else parent_of p w.
Proof using Hwf.
  intros [Hv1 Hv2] Hl Hw. pose proof (wf_nodes _ Hwf) as Hn. unfold parent_of. case_decide as E.
  - subst w. rewrite list_lookup_insert_eq by lia. done.
  - rewrite list_lookup_insert_ne by lia. done.
Qed.

Lemma get_dist d v : node g v -> length d = length (adj_list_ g) -> vgetz d v = Ret (dist_of d v).
Proof using Hwf.
  intros [Hv1 Hv2] Hl. pose proof (wf_nodes _ Hwf) as Hn. destruct (lookup_z d v) as [x Hx]; [lia|].
  unfold dist_of. rewrite Hx. by apply vgetz_Some.
Qed.

Lemma nodes_size q : NoDup q -> (forall v, v ∈ q -> node g v) -> (length q <= length (adj_list_ g))%nat.
Proof using Hwf.
  intros Hnd Hq. pose proof (wf_nodes _ Hwf) as Hn.
  assert (q ⊆+ (Z.of_nat <$> seq 0 (length (adj_list_ g)))) as Hsub.
  { apply NoDup_submseteq; [done|]. intros v Hv. destruct (Hq v Hv) as [H1 H2].
    apply list_elem_of_fmap. exists (Z.to_nat v). split; [lia|]. apply elem_of_seq. lia. }
  apply submseteq_length in Hsub. by rewrite length_fmap, length_seq in Hsub.
Qed.

(** Enqueueing a node found from [u]. *)
Lemma found_push d p q u v :
  found d p q -> u ∈ q -> level d q u -> edge g u v -> v ∉ q ->
  in_i32 (dist_of d u + 1) /\
  found (<[Z.to_nat v := dist_of d u + 1]> d) (<[Z.to_nat v := u]> p) (q ++ [v]) /\
  (forall w, w ∈ q -> dist_of (<[Z.to_nat v := dist_of d u + 1]> d) w = dist_of d w) /\
  (forall w, w ∈ q -> parent_of (<[Z.to_nat v := u]> p) w = parent_of p w) /\
  level (<[Z.to_nat v := dist_of d u + 1]> d) (q ++ [v]) u.
Proof using Hwf Hs.
  intros Hf Hu Hlev Hedge Hv. destruct (edge_node g u v Hwf Hedge) as [Hnu Hnv].
  pose proof Hf as [[Hld Hlp] Hnd Hnode Hmark Hwalk Hbound Hmono Hsrc Hpar].
  assert (NoDup (q ++ [v])) as Hnd' by (apply NoDup_app; split_and!; [done|set_solver|apply NoDup_singleton]).
  assert (forall w, w ∈ q ++ [v] -> node g w) as Hnode' by (intros w [Hw| ->%list_elem_of_singleton]%elem_of_app; auto).
  pose proof (nodes_size _ Hnd' Hnode') as Hsz. rewrite length_app in Hsz. cbn in Hsz.
  pose proof (wf_nodes _ Hwf) as Hn. pose proof (wf_int _ Hwf) as Hint.
  apply list_elem_of_lookup in Hu as [iu Hiu]. pose proof (Hbound iu u Hiu) as Hdu. pose proof (lookup_lt_Some _ _ _ Hiu) as Hlt.
  set (d' := <[Z.to_nat v := dist_of d u + 1]> d). set (p' := <[Z.to_nat v := u]> p).
  assert (forall w, w ∈ q -> w <> v) as Hne by (intros w Hw ->; done).
  assert (forall w, node g w -> dist_of d' w = if decide (w = v) then dist_of d u + 1 else dist_of d w) as Hd'
    by (intros w [Hw _]; by apply dist_insert).
  assert (forall w, node g w -> parent_of p' w = if decide (w = v) then u else parent_of p w) as Hp'
    by (intros w [Hw _]; by apply parent_insert).
  assert (forall w, w ∈ q -> dist_of d' w = dist_of d w) as Hold by (intros w Hw; rewrite Hd', decide_False; auto).
  assert (forall w, w ∈ q -> parent_of p' w = parent_of p w) as Hpold by (intros w Hw; rewrite Hp', decide_False; auto).
  assert (dist_of d' v = dist_of d u + 1 /\ parent_of p' v = u) as [Hdv Hpv] by (rewrite Hd', Hp', !decide_True; done).
  assert (forall i w, (q ++ [v]) !! i = Some w -> (q !! i = Some w /\ w ∈ q) \/ (i = length q /\ w = v)) as Hcase.
  { intros i w [Hw|[Hge Hw]]%lookup_app_Some; [left; split; [done|by eapply list_elem_of_lookup_2]|].
    apply list_lookup_singleton_Some in Hw as [Hi ->]. right. split; [lia|done]. }
  assert (u ∈ q) as Huq by (by eapply list_elem_of_lookup_2).
  split_and!; [unfold in_i32, INT32_MIN, INT32_MAX in *; lia| |done|done|].
  - split.
    + unfold d', p'. by rewrite !length_insert.
    + done.
    + done.
    + intros w Hw. rewrite Hd' by done. rewrite elem_of_app, list_elem_of_singleton, Hmark by done.
      case_decide as E; [|naive_solver]. split; [unfold INT32_MAX in *; lia|by right].
    + intros w [Hw| ->%list_elem_of_singleton]%elem_of_app; [rewrite Hold by done; by apply Hwalk|].
      rewrite Hdv. eapply walk_snoc; [by apply Hwalk|done].
    + intros i w Hi. destruct (Hcase i w Hi) as [[Hq Hw]|[-> ->]]; [rewrite Hold by done; by apply Hbound|]. rewrite Hdv. lia.
    + intros i j a b Hij Ha Hb. destruct (Hcase i a Ha) as [[Hqa Hwa]|[-> ->]], (Hcase j b Hb) as [[Hqb Hwb]|[Hj ->]].
      * rewrite !Hold by done. by eapply Hmono.
      * rewrite Hdv, Hold by done. by apply Hlev.
      * apply lookup_lt_Some in Hqb. lia.
      * done.
    + destruct Hsrc as (H0 & Hd0 & Hp0). assert (s ∈ q) by (by eapply list_elem_of_lookup_2).
      rewrite Hold, Hpold by done. split_and!; [by apply lookup_app_l_Some|done|done].
    + intros w [Hw| ->%list_elem_of_singleton]%elem_of_app Hws.
      * rewrite Hpold by done. destruct (Hpar w Hw Hws) as (H1 & H2 & H3). rewrite !Hold by done.
        split_and!; [by apply elem_of_app; left|done|done].
      * rewrite Hpv, Hdv, Hold by done. split_and!; [by apply elem_of_app; left|done|done].
  - intros w [Hw| ->%list_elem_of_singleton]%elem_of_app; rewrite (Hold u) by done; [rewrite Hold by done; by apply Hlev|lia].
Qed.

Lemma explore_ok visitor u edges : forall d p q log,
  found d p q -> u ∈ q -> level d q u -> (forall e, e ∈ edges -> edge g u (to_ e)) ->
  exists d' p' q' log', explore visitor u edges d p q log = Ret (d', p', q ++ q', log') /\
    found d' p' (q ++ q') /\ (forall w, w ∈ q -> dist_of d' w = dist_of d w) /\
    (forall e, e ∈ edges -> to_ e ∈ q ++ q') /\ level d' (q ++ q') u.
Proof using Hwf Hs.
  induction edges as [|e edges IH]; intros d p q log Hf Hu Hlev He; cbn [explore].
  - exists d, p, [], log. rewrite app_nil_r. split_and!; try done. intros e He'. by apply elem_of_nil in He'.
  - pose proof (He e (list_elem_of_here _ _)) as Hedge. destruct (edge_node g u (to_ e) Hwf Hedge) as [Hnu Hnv].
    destruct (fd_len _ _ _ Hf) as [Hld Hlp]. rewrite (get_dist d (to_ e)) by done. ret_step.
    assert (forall e', e' ∈ edges -> edge g u (to_ e')) as He' by (intros e' ?; apply He; by right).
    destruct (decide (dist_of d (to_ e) = INT32_MAX)) as [Hun|Hin].
    + assert (to_ e ∉ q) as Hv by (rewrite (fd_mark _ _ _ Hf _ Hnv); naive_solver).
      destruct (found_push d p q u (to_ e) Hf Hu Hlev Hedge Hv) as (Hi32 & Hf' & Hold & _ & Hlev').
      rewrite (get_dist d u) by done. ret_step. rewrite add32_in by done. ret_step.
      pose proof (wf_nodes _ Hwf) as Hn. unfold node in Hnv. rewrite !vsetz_lt by lia. do 2 ret_step.
      destruct (IH _ _ (q ++ [to_ e]) (emit visitor log (onEdgeTraverse u (to_ e) (weight_ e))) Hf') as (d' & p' & q' & log' & E & Hf2 & Hold2 & Hall & Hlev2);
        [by apply elem_of_app; left|done|done|].
      exists d', p', (to_ e :: q'), log'. change (to_ e :: q') with ([to_ e] ++ q'). rewrite app_assoc. split_and!; [exact E|done| | |done].
      * intros w Hw. rewrite Hold2 by (by apply elem_of_app; left). by apply Hold.
      * intros e' [->|Hin]%elem_of_cons; [|by apply Hall]. apply elem_of_app. left. apply elem_of_app. right. left.
    + assert (to_ e ∈ q) as Hv by (by rewrite (fd_mark _ _ _ Hf _ Hnv)).
      destruct (IH d p q log Hf Hu Hlev He') as (d' & p' & q' & log' & E & Hf2 & Hold2 & Hall & Hlev2).
      exists d', p', q', log'. split_and!; try done. intros e' [->|Hin']%elem_of_cons; [by apply elem_of_app; left|by apply Hall].
Qed.

Lemma bfs_loop_ok visitor fuel : forall head q r log,
  found (distance r) (parent r) q -> explored (distance r) q head -> order r = take head q -> (head <= length q)%nat ->
  (forall u, q !! head = Some u -> level (distance r) q u) -> (length (adj_list_ g) < fuel + head)%nat ->
  exists r' log', bfs_loop fuel visitor g head q r log = Ret (r', log') /\
    found (distance r') (parent r') (order r') /\ explored (distance r') (order r') (length (order r')).
Proof using Hwf Hs.
  induction fuel as [|fuel IH]; intros head q r log Hf Hex Hord Hhead Hlev Hfuel.
  { pose proof (nodes_size q (fd_nodup _ _ _ Hf) (fd_node _ _ _ Hf)). lia. }
  cbn [bfs_loop]. destruct (decide (head < length q)%nat) as [Hlt|Hge].
  - destruct (vget_lt q head Hlt) as (u & Hu & ->). ret_step. pose proof (list_elem_of_lookup_2 _ _ _ Hu) as Huq.
    destruct (adj_ok g u Hwf (fd_node _ _ _ Hf u Huq)) as [_ ->]. ret_step.
    destruct (explore_ok visitor u (adj g u) (distance r) (parent r) q (emit visitor log (onNodeVisit u)) Hf Huq (Hlev u Hu))
      as (d' & p' & q' & log' & -> & Hf' & Hold & Hall & Hlev').
    { intros e He. split; [by apply Hf|]. apply list_elem_of_fmap. eauto. }
    ret_step. assert ((q ++ q') !! head = Some u) as Hu' by (by apply lookup_app_l_Some).
    apply IH; cbn [distance parent order]; [done| | | | |lia].
    + intros i a b Hi Ha Hab. destruct (decide (i = head)) as [->|Hne].
      * rewrite Hu' in Ha. injection Ha as <-. destruct Hab as [_ (e & -> & He)%list_elem_of_fmap]. split; [by apply Hall|].
        apply Hlev'. by apply Hall.
      * rewrite lookup_app_l in Ha by lia. destruct (Hex i a b ltac:(lia) Ha Hab) as [Hb Hd].
        pose proof (list_elem_of_lookup_2 _ _ _ Ha). rewrite !Hold by done. split; [by apply elem_of_app; left|done].
    + rewrite Hord. rewrite (take_S_r _ _ _ Hu'), take_app_le by lia. done.
    + rewrite length_app. lia.
    + intros u' Hu2 w Hw. etrans; [by apply Hlev'|]. pose proof (fd_mono _ _ _ Hf' head (S head) u u' ltac:(lia) Hu' Hu2). lia.
  - exists r, log. assert (order r = q) as -> by (rewrite Hord; apply take_ge; lia). split_and!; try done.
    intros i a b Hi Ha Hab. apply (Hex i a b); [lia|done|done].
Qed.

Lemma found_start : found (<[Z.to_nat s := 0]> (replicate (length (adj_list_ g)) INT32_MAX)) (replicate (length (adj_list_ g)) (-1)) [s].
Proof using Hwf Hs.
  pose proof (wf_nodes _ Hwf) as Hn.
  assert (forall v, node g v -> dist_of (<[Z.to_nat s := 0]> (replicate (length (adj_list_ g)) INT32_MAX)) v = if decide (v = s) then 0 else INT32_MAX) as Hd.
  { intros v [Hv1 Hv2]. rewrite dist_insert by (done || by rewrite length_replicate). case_decide; [done|].
    unfold dist_of. rewrite lookup_replicate_2 by lia. done. }
  assert (dist_of (<[Z.to_nat s := 0]> (replicate (length (adj_list_ g)) INT32_MAX)) s = 0) as Hds by (rewrite Hd by done; by rewrite decide_True).
  split.
  - by rewrite length_insert, !length_replicate.
  - apply NoDup_singleton.
  - by intros v ->%list_elem_of_singleton.
  - intros v Hv. rewrite Hd, list_elem_of_singleton by done. case_decide; naive_solver.
  - intros v ->%list_elem_of_singleton. rewrite Hds. by apply walk_nil.
  - intros i v [-> ->]%list_lookup_singleton_Some. rewrite Hds. lia.
  - intros i j u v _ [-> ->]%list_lookup_singleton_Some [-> ->]%list_lookup_singleton_Some. lia.
  - split_and!; [done|done|]. unfold parent_of. destruct Hs. by rewrite lookup_replicate_2 by lia.
  - by intros v ->%list_elem_of_singleton.
Qed.

Lemma traverse_ok visitor : exists r log, traverse g s visitor = Ret (r, log) /\
  found (distance r) (parent r) (order r) /\ explored (distance r) (order r) (length (order r)).
Proof using Hwf Hs.
  pose proof (wf_nodes _ Hwf) as Hn. pose proof Hs as [Hs1 Hs2]. unfold traverse, getNodeCount. rewrite decide_False by lia.
  cbn [distance order parent]. rewrite vsetz_lt by (rewrite length_replicate; lia). ret_step.
  rewrite Hn, Nat2Z.id.
  apply bfs_loop_ok; cbn [distance parent order]; [apply found_start|intros i u v Hi; lia|done|cbn; lia| |lia].
  intros u [_ ->]%list_lookup_singleton_Some w ->%list_elem_of_singleton. lia.
Qed.

(** At the end nothing is nearer than its distance says. *)
Lemma explored_walk d p q k v : found d p q -> explored d q (length q) -> walk g k s v -> v ∈ q /\ dist_of d v <= k.
Proof using Hwf Hs.
  intros Hf Hex Hw. destruct (fd_source _ _ _ Hf) as (H0 & Hd0 & _).
  remember s as s' eqn:E in Hw. induction Hw as [u Hu|k u v w Hw IH He]; subst u.
  - split; [by eapply list_elem_of_lookup_2|lia].
  - destruct (IH eq_refl) as [Hv Hle]. apply list_elem_of_lookup in Hv as [i Hi]. pose proof (lookup_lt_Some _ _ _ Hi).
    destruct (Hex i v w ltac:(lia) Hi He). split; [done|lia].
Qed.

Lemma distance_shortest d p q v : found d p q -> explored d q (length q) -> node g v ->
  (v ∈ q /\ shortest g s v (dist_of d v)) \/ ((v ∉ q) /\ dist_of d v = INT32_MAX /\ ~ reachable g s v).
Proof using Hwf Hs.
  intros Hf Hex Hv. destruct (decide (v ∈ q)) as [Hin|Hout].
  - left. split; [done|]. split; [by apply Hf|]. intros k Hk. by apply (explored_walk d p q k v Hf Hex Hk).
  - right. split_and!; [done| |].
    + destruct (decide (dist_of d v = INT32_MAX)) as [|Hne]; [done|]. by apply (fd_mark _ _ _ Hf v Hv) in Hne.
    + intros [k Hk]. apply Hout. by apply (explored_walk d p q k v Hf Hex Hk).
Qed.

(** A path: a list of nodes joined by edges, from [s]. *)
Fixpoint path_to (path : list Z) v : Prop :=
  match path with
  | [] => False
  | [a] => a = v
  | a :: ((b :: _) as path) => edge g a b /\ path_to path v
  end.

Lemma path_loop_ok d p q : found d p q -> forall fuel v, v ∈ q -> dist_of d v < Z.of_nat fuel ->
  exists path, path_loop (S fuel) p v = Ret path /\ Z.of_nat (length path) = dist_of d v + 1 /\
    exists rest, rev path = s :: rest /\ path_to (s :: rest) v.
Proof using Hwf Hs.
  intros Hf. destruct (fd_source _ _ _ Hf) as (H0 & Hd0 & Hp0). pose proof (wf_nodes _ Hwf) as Hn. destruct (fd_len _ _ _ Hf) as [Hld Hlp].
  induction fuel as [|fuel IH]; intros v Hv Hd.
  { apply list_elem_of_lookup in Hv as [i Hi]. pose proof (fd_bound _ _ _ Hf i v Hi). lia. }
  pose proof (fd_node _ _ _ Hf v Hv) as [Hv1 Hv2]. change (path_loop (S (S fuel)) p v) with
    (if decide (v = -1) then Ret [] else next ← vgetz p v; path ← path_loop (S fuel) p next; Ret (v :: path)).
  rewrite decide_False by lia.
  destruct (lookup_z p v) as [x Hx]; [lia|]. rewrite (vgetz_Some _ _ _ Hv1 Hx). ret_step.
  assert (parent_of p v = x) as Hpv by (unfold parent_of; by rewrite Hx).
  destruct (decide (v = s)) as [->|Hne].
  - assert (x = -1) as -> by congruence. cbn [path_loop]. rewrite decide_True by done. ret_step.
    exists [s]. split_and!; [done|cbn; lia|]. by exists [].
  - destruct (fd_parent _ _ _ Hf v Hv Hne) as (Hp & He & Hdv). rewrite Hpv in Hp, He, Hdv.
    destruct (IH x Hp ltac:(lia)) as (path & -> & Hlen & rest & Hrev & Hpath). ret_step.
    exists (v :: path). split_and!; [done|cbn; lia|]. exists (rest ++ [v]). cbn [rev]. rewrite Hrev. split; [done|].
    clear -Hpath He. revert Hpath. generalize s. induction rest as [|b rest IH]; intros a; cbn.
    + intros ->. done.
    + intros [Hab Hp]. split; [done|]. by apply IH.
Qed.
End search.

(** From a node of the graph the traversal visits exactly the reachable nodes,
    each once, nearest first; [distance] is the least number of edges of a walk
    and [INT32_MAX] for the other nodes; with a visitor or without. *)
Theorem bfs_traverse_spec g s visitor :
  wf_graph g -> node g s ->
  exists r log, traverse g s visitor = Ret (r, log) /\ NoDup (order r) /\
    (forall v, node g v -> v ∈ order r <-> reachable g s v) /\
    (forall v, node g v -> exists k, distance r !! Z.to_nat v = Some k /\
       (reachable g s v /\ shortest g s v k \/ ~ reachable g s v /\ k = INT32_MAX)) /\
    (forall i j u v, (i <= j)%nat -> order r !! i = Some u -> order r !! j = Some v ->
       dist_of (distance r) u <= dist_of (distance r) v).
Proof.
  intros Hwf Hs. destruct (traverse_ok g s Hwf Hs visitor) as (r & log & -> & Hf & Hex). exists r, log.
  split_and!; [done|apply Hf| | |apply Hf].
  - intros v Hv. destruct (distance_shortest g s Hwf Hs _ _ _ v Hf Hex Hv) as [[Hin [Hw _]]|(Hout & _ & Hno)]; [|done].
    split; [intros _; by eexists|done].
  - intros v Hv. pose proof (wf_nodes _ Hwf) as Hn. destruct (fd_len _ _ _ _ _ Hf) as [Hl _]. pose proof Hv as [Hv1 Hv2].
    destruct (lookup_z (distance r) v) as [k Hk]; [lia|]. exists k. split; [done|].
    assert (dist_of (distance r) v = k) as <- by (unfold dist_of; by rewrite Hk).
    destruct (distance_shortest g s Hwf Hs _ _ _ v Hf Hex Hv) as [[Hin Hsh]|(Hout & E & Hno)]; [left|by right].
    split; [by eexists; apply Hsh|done].
Qed.

(** C9: [shortestPath] returns a path of edges from the source to the target with
    the least number of edges, and the empty path exactly when there is none. *)
Theorem bfs_shortest_path_spec g s target :
  wf_graph g -> node g s -> node g target ->
  exists path, shortestPath g s target = Ret path /\
    (path = [] /\ ~ reachable g s target \/
     exists rest k, path = s :: rest /\ path_to g path target /\ shortest g s target k /\ Z.of_nat (length path) = k + 1).
Proof.
  intros Hwf Hs Ht. destruct (traverse_ok g s Hwf Hs false) as (r & log & E & Hf & Hex).
  unfold shortestPath. rewrite E. ret_step. unfold reconstructPath. destruct (fd_len _ _ _ _ _ Hf) as [Hld Hlp].
  pose proof (wf_nodes _ Hwf) as Hn. pose proof Ht as [Ht1 Ht2]. rewrite decide_False by lia.
  rewrite (get_dist g Hwf) by done. ret_step.
  destruct (distance_shortest g s Hwf Hs _ _ _ target Hf Hex Ht) as [[Hin Hsh]|(Hout & Ed & Hno)].
  - rewrite decide_False by (by apply (fd_mark _ _ _ _ _ Hf)). rewrite Hlp.
    destruct (path_loop_ok g s Hwf Hs _ _ _ Hf (length (adj_list_ g)) target Hin) as (path & -> & Hlen & rest & Hrev & Hp).
    { apply list_elem_of_lookup in Hin as [i Hi]. pose proof (fd_bound _ _ _ _ _ Hf i target Hi). pose proof (lookup_lt_Some _ _ _ Hi).
      pose proof (nodes_size g Hwf _ (fd_nodup _ _ _ _ _ Hf) (fd_node _ _ _ _ _ Hf)). lia. }
    ret_step. exists (rev path). split; [done|]. right. exists rest, (dist_of (distance r) target). rewrite length_rev, Hrev. by split_and!.
  - rewrite decide_True by done. exists []. split; [done|]. by left.
Qed.

(** ** A concrete graph: 0 - 1 - 2 - 3 with a shortcut from 0 to 2, and 4 apart. *)
Definition sample : Graph :=
  mkGraph 5 4 [[mkEdge 1 7; mkEdge 2 1]; [mkEdge 2 (-3)]; [mkEdge 3 0]; []; []].

Example sample_built : (g ← graph_new 5; addEdges g [(0, 1, 7); (1, 2, -3); (0, 2, 1); (2, 3, 0)]) = Ret sample.
Proof. vm_compute. reflexivity. Qed.

Lemma sample_wf : wf_graph sample.
Proof. split; [done|vm_compute; discriminate|repeat constructor; vm_compute; (done || discriminate)|done]. Qed.

Lemma bfs_traverse_witness :
  exists r log, traverse sample 0 true = Ret (r, log) /\ NoDup (order r) /\
    (forall v, node sample v -> v ∈ order r <-> reachable sample 0 v) /\
    (forall v, node sample v -> exists k, distance r !! Z.to_nat v = Some k /\
       (reachable sample 0 v /\ shortest sample 0 v k \/ ~ reachable sample 0 v /\ k = INT32_MAX)) /\
    (forall i j u v, (i <= j)%nat -> order r !! i = Some u -> order r !! j = Some v ->
       dist_of (distance r) u <= dist_of (distance r) v).
Proof. apply (bfs_traverse_spec sample 0 true); [exact sample_wf|split; vm_compute; (done || discriminate)]. Defined.

Lemma bfs_shortest_path_witness :
  shortestPath sample 0 3 = Ret [0; 2; 3] /\
  exists path, shortestPath sample 0 3 = Ret path /\
    (path = [] /\ ~ reachable sample 0 3 \/
     exists rest k, path = 0 :: rest /\ path_to sample path 3 /\ shortest sample 0 3 k /\ Z.of_nat (length path) = k + 1).
Proof.
  split; [vm_compute; reflexivity|].
  apply (bfs_shortest_path_spec sample 0 3); [exact sample_wf|split; vm_compute; (done || discriminate)..].
Defined.
