(* ===== verification/TreiberStack.v ===== *)
(** * The lock-free Treiber stack ([data_structure/concurrent/TreiberStack.hpp])

    Any number of threads call [push] and [try_pop] on one object.  The model
    interleaves their atomic accesses: each operation is a program counter type
    and a step function that performs one access of the shared state (one load,
    store, [compare_exchange_weak] or [fetch_add], one read or write of a node's
    optional), so every schedule of the threads is an execution.  Words are 64-bit
    integers, a 48-bit address with a 16-bit tag above it; addresses come from an
    allocator that returns any fresh user-space address; a weak
    compare-exchange may fail spuriously; constructors and [new] may throw.

    Executions are sequentially consistent. *)

From stdpp Require Import functions.
From S2P Require Import Prelude.

Local Open Scope Z_scope.

(** ** Packed pointers *)
Definition kPtrMask : Z := 0x0000FFFFFFFFFFFF.
Definition kTagShift : Z := 48.
Definition u16 (z : Z) : Z := z mod 2 ^ 16.

Definition pack_ptr (ptr tag : Z) : Z := Z.lor ptr (Z.shiftl tag kTagShift).
Definition unpack_ptr (tagged : Z) : Z := Z.land tagged kPtrMask.
Definition unpack_tag (tagged : Z) : Z := u16 (Z.shiftr tagged kTagShift).

(** ** The shared object

    The store holds every node ever allocated: nodes are deleted only by
    [destroy_all_nodes], which is not concurrent with the operations. *)
Record Node (T : Type) := mkNode { value : option T; next : Z }.
Arguments mkNode {T} value next.
Arguments value {T} n.
Arguments next {T} n.

Record stack (T : Type) := mkStack {
  top_ : Z;
  free_head_ : Z;
  size_ : Z;
  store : gmap Z (Node T);
}.
Arguments mkStack {T} top_ free_head_ size_ store.
Arguments top_ {T} s.
Arguments free_head_ {T} s.
Arguments size_ {T} s.
Arguments store {T} s.

(** [TreiberStack() = default]. *)
Definition new_stack {T} : stack T := mkStack 0 0 0 ∅.

(** What the environment decides during one step: a spurious failure of the weak
    compare-exchange, the address [new] returns, an exception of a constructor. *)
Record choice := mkChoice { spurious : bool; new_at : Z; throws : bool }.

(** [word.compare_exchange_weak(expected, desired)]: the word stored on success,
    the value loaded into [expected] on failure. *)
Definition compare_exchange_weak (c : choice) (word expected desired : Z) : Z + Z :=
  if decide (word = expected /\ spurious c = false) then inl desired else inr word.

Section accesses.
Context {T : Type}.
Implicit Types (s : stack T) (n : Z).

Definition set_top s w : stack T := mkStack w (free_head_ s) (size_ s) (store s).
Definition set_free s w : stack T := mkStack (top_ s) w (size_ s) (store s).
Definition set_size s z : stack T := mkStack (top_ s) (free_head_ s) z (store s).
Definition set_node s n nd : stack T := mkStack (top_ s) (free_head_ s) (size_ s) (<[n := nd]> (store s)).

Definition deref s n : outcome (Node T) :=
  match store s !! n with Some nd => Ret nd | None => Undef end.

Definition store_next s n w : outcome (stack T) :=
  nd ← deref s n; Ret (set_node s n (mkNode (value nd) w)).

Definition store_value s n v : outcome (stack T) :=
  nd ← deref s n; Ret (set_node s n (mkNode v (next nd))).

(** ** The free pool *)
Inductive pop_free_pc :=
| PfLoad
| PfHead (old_head : Z)
| PfCas (old_head next : Z)
| PfReset (node : Z).

(** One access of [pop_free_node]; the right component is the returned pointer. *)
Definition pop_free_node (c : choice) s (q : pop_free_pc) : outcome (stack T * (pop_free_pc + Z)) :=
  match q with
  | PfLoad => Ret (s, inl (PfHead (free_head_ s)))
  | PfHead old_head =>
    let head_node := unpack_ptr old_head in
    if decide (head_node = 0) then Ret (s, inr 0)
    else nd ← deref s head_node; Ret (s, inl (PfCas old_head (next nd)))
  | PfCas old_head nx =>
    let desired := pack_ptr (unpack_ptr nx) (u16 (unpack_tag old_head + 1)) in
    match compare_exchange_weak c (free_head_ s) old_head desired with
    | inl w => Ret (set_free s w, inl (PfReset (unpack_ptr old_head)))
    | inr w => Ret (s, inl (PfHead w))
    end
  | PfReset node => s ← store_next s node 0; Ret (s, inr node)
  end.

Inductive push_free_pc :=
| FrLoad
| FrLink (old_head : Z)
| FrCas (old_head : Z).

(** One access of [push_free_node(node)]. *)
Definition push_free_node (c : choice) s (node : Z) (q : push_free_pc) : outcome (stack T * option push_free_pc) :=
  match q with
  | FrLoad => Ret (s, Some (FrLink (free_head_ s)))
  | FrLink old_head => s ← store_next s node old_head; Ret (s, Some (FrCas old_head))
  | FrCas old_head =>
    let desired := pack_ptr node (u16 (unpack_tag old_head + 1)) in
    match compare_exchange_weak c (free_head_ s) old_head desired with
    | inl w => Ret (set_free s w, None)
    | inr w => Ret (s, Some (FrLink w))
    end
  end.
End accesses.

(** ** Push and pop *)
Inductive op (T : Type) := Push (value : T) | Pop.
Arguments Push {T} value.
Arguments Pop {T}.

(** How a call ends: [push] returns, [try_pop] returns an optional, an exception
    of the element type or of [new] leaves. *)
Inductive result (T : Type) := Pushed | Popped (v : option T) | Threw.
Arguments Pushed {T}.
Arguments Popped {T} v.
Arguments Threw {T}.

Inductive push_pc (T : Type) :=
| PushPool (value : T) (q : pop_free_pc)
| PushNew (value : T)
| PushEmplace (value : T) (node : Z)
| PushConstruct (value : T) (node : Z)
| PushRecover (value : T) (node : Z) (q : push_free_pc)
| PushLoad (node : Z)
| PushLink (node old_top : Z)
| PushCas (node old_top : Z)
| PushCount.
Arguments PushPool {T} value q.
Arguments PushNew {T} value.
Arguments PushEmplace {T} value node.
Arguments PushConstruct {T} value node.
Arguments PushRecover {T} value node q.
Arguments PushLoad {T} node.
Arguments PushLink {T} node old_top.
Arguments PushCas {T} node old_top.
Arguments PushCount {T}.

(** What [try_pop] does after it has recycled its node: return the value it
    extracted, or reload [top_] and continue. *)
Inductive pop_pc (T : Type) :=
| PopLoad
| PopHead (old_top : Z)
| PopHasValue (old_top next : Z)
| PopCopy (old_top next : Z)
| PopCas (old_top next : Z) (extracted_value : option T)
| PopTake (node : Z)
| PopRecycle (node : Z) (extracted_value : option T) (q : push_free_pc)
| PopCount (extracted_value : T).
Arguments PopLoad {T}.
Arguments PopHead {T} old_top.
Arguments PopHasValue {T} old_top next.
Arguments PopCopy {T} old_top next.
Arguments PopCas {T} old_top next extracted_value.
Arguments PopTake {T} node.
Arguments PopRecycle {T} node extracted_value q.
Arguments PopCount {T} extracted_value.

Inductive pc (T : Type) := Idle | Pushing (q : push_pc T) | Popping (q : pop_pc T).
Arguments Idle {T}.
Arguments Pushing {T} q.
Arguments Popping {T} q.

Section operations.
Context {T : Type} (copyable : bool) (moved_from : T -> T).
Implicit Types (s : stack T).

(** One access of [push]; [emplace] first destroys the old value of the optional. *)
Definition push (c : choice) s (q : push_pc T) : outcome (stack T * (push_pc T + result T)) :=
  match q with
  | PushPool v q =>
    '(s, r) ← pop_free_node c s q;
    Ret (s, inl (match r with
                 | inl q => PushPool v q
                 | inr node => if decide (node = 0) then PushNew v else PushEmplace v node
                 end))
  | PushNew v =>
    if throws c then Ret (s, inr Threw)
    else Ret (set_node s (new_at c) (mkNode None 0), inl (PushEmplace v (new_at c)))
  | PushEmplace v node => s ← store_value s node None; Ret (s, inl (PushConstruct v node))
  | PushConstruct v node =>
    if throws c then Ret (s, inl (PushRecover v node FrLoad))
    else s ← store_value s node (Some v); Ret (s, inl (PushLoad node))
  | PushRecover v node q =>
    '(s, r) ← push_free_node c s node q;
    Ret (s, match r with Some q => inl (PushRecover v node q) | None => inr Threw end)
  | PushLoad node => Ret (s, inl (PushLink node (top_ s)))
  | PushLink node old_top => s ← store_next s node old_top; Ret (s, inl (PushCas node old_top))
  | PushCas node old_top =>
    let desired := pack_ptr node (u16 (unpack_tag old_top + 1)) in
    match compare_exchange_weak c (top_ s) old_top desired with
    | inl w => Ret (set_top s w, inl PushCount)
    | inr w => Ret (s, inl (PushLink node w))
    end
  | PushCount => Ret (set_size s (u64 (size_ s + 1)), inr Pushed)
  end.

(** One access of [try_pop], with both branches of its [if constexpr]. *)
Definition try_pop (c : choice) s (q : pop_pc T) : outcome (stack T * (pop_pc T + result T)) :=
  match q with
  | PopLoad => Ret (s, inl (PopHead (top_ s)))
  | PopHead old_top =>
    let top_node := unpack_ptr old_top in
    if decide (top_node = 0) then Ret (s, inr (Popped None))
    else nd ← deref s top_node;
      Ret (s, inl (if copyable then PopHasValue old_top (next nd) else PopCas old_top (next nd) None))
  | PopHasValue old_top nx =>
    nd ← deref s (unpack_ptr old_top);
    Ret (s, inl (match value nd with Some _ => PopCopy old_top nx | None => PopLoad end))
  | PopCopy old_top nx =>
    nd ← deref s (unpack_ptr old_top);
    match value nd with
    | Some x => if throws c then Ret (s, inr Threw) else Ret (s, inl (PopCas old_top nx (Some x)))
    | None => Undef
    end
  | PopCas old_top nx extracted =>
    let desired := pack_ptr (unpack_ptr nx) (u16 (unpack_tag old_top + 1)) in
    match compare_exchange_weak c (top_ s) old_top desired with
    | inl w =>
      let node := unpack_ptr old_top in
      Ret (set_top s w, inl (match extracted with
                             | Some x => PopRecycle node (Some x) FrLoad
                             | None => PopTake node
                             end))
    | inr w => Ret (s, inl (PopHead w))
    end
  | PopTake node =>
    nd ← deref s node;
    match value nd with
    | None => Ret (s, inl (PopRecycle node None FrLoad))
    | Some x => s ← store_value s node (Some (moved_from x)); Ret (s, inl (PopRecycle node (Some x) FrLoad))
    end
  | PopRecycle node extracted q =>
    '(s, r) ← push_free_node c s node q;
    Ret (s, inl (match r, extracted with
                 | Some q, _ => PopRecycle node extracted q
                 | None, Some x => PopCount x
                 | None, None => PopLoad
                 end))
  | PopCount x => Ret (set_size s (u64 (size_ s - 1)), inr (Popped (Some x)))
  end.

Definition size s : Z := size_ s.
Definition empty s : bool := bool_decide (size_ s = 0).

(** [destroy_all_nodes] walks one list and deletes its nodes; [fuel] is more than
    the nodes there are. *)
Fixpoint destroy_list (fuel : nat) (st : gmap Z (Node T)) (cur_tagged : Z) : outcome (gmap Z (Node T)) :=
  match fuel with
  | O => NoFuel
  | S fuel =>
    let cur := unpack_ptr cur_tagged in
    if decide (cur = 0) then Ret st
    else match st !! cur with
         | Some nd => destroy_list fuel (delete cur st) (next nd)
         | None => Undef
         end
  end.

(** The nodes left after the destructor. *)
Definition destroy_all_nodes s : outcome (gmap Z (Node T)) :=
  let fuel := S (base.size (store s)) in
  st ← destroy_list fuel (store s) (top_ s); destroy_list fuel st (free_head_ s).

(** The move constructor and assignment (to another object); the store of an
    object holds the nodes it owns. *)
Definition move_construct (other : stack T) : stack T * stack T :=
  (mkStack (top_ other) (free_head_ other) (size_ other) (store other), new_stack).

Definition move_assign s (other : stack T) : outcome (stack T * stack T) :=
  _ ← destroy_all_nodes s; Ret (move_construct other).

(** One access of the call a thread is in; it is idle again when the call ends. *)
Definition tstep (c : choice) s (p : pc T) : outcome (stack T * pc T * option (result T)) :=
  match p with
  | Idle => Undef
  | Pushing q =>
    '(s, r) ← push c s q;
    Ret (match r with inl q => (s, Pushing q, None) | inr r => (s, Idle, Some r) end)
  | Popping q =>
    '(s, r) ← try_pop c s q;
    Ret (match r with inl q => (s, Popping q, None) | inr r => (s, Idle, Some r) end)
  end.

Definition start (o : op T) : pc T :=
  match o with Push v => Pushing (PushPool v PfLoad) | Pop => Popping PopLoad end.

(** ** Executions: threads calling and stepping in any order *)
Record sys := mkSys { obj : stack T; threads : list (pc T) }.

Inductive event := Call (t : nat) (o : op T) | Return (t : nat) (r : result T).

(** [new] returns a fresh user-space address. *)
Definition alloc_ok (c : choice) s (p : pc T) : Prop :=
  match p with
  | Pushing (PushNew _) => 0 < new_at c < 2 ^ 48 /\ store s !! new_at c = None
  | _ => True
  end.

Inductive step (t : nat) : sys -> option event -> sys -> Prop :=
| step_call s ths o :
  ths !! t = Some Idle ->
  step t (mkSys s ths) (Some (Call t o)) (mkSys s (<[t := start o]> ths))
| step_run s ths p c s' p' r :
  ths !! t = Some p -> alloc_ok c s p -> tstep c s p = Ret (s', p', r) ->
  step t (mkSys s ths) (Return t <$> r) (mkSys s' (<[t := p']> ths)).

(** History variables: how often each word has changed, and the version of its
    word a thread saw when it last loaded it (a compare-exchange that fails loads). *)
Record ghost := mkGhost { vtop : Z; vfree : Z; seen : nat -> Z }.

Inductive word := Top | Free.

(** The word an access loads, and whether it is the compare-exchange of a pop,
    which stores a pointer the thread has read through its snapshot. *)
Definition access (p : pc T) : option (word * bool) :=
  match p with
  | Pushing (PushPool _ PfLoad) | Pushing (PushRecover _ _ FrLoad) | Popping (PopRecycle _ _ FrLoad)
  | Pushing (PushRecover _ _ (FrCas _)) | Popping (PopRecycle _ _ (FrCas _)) => Some (Free, false)
  | Pushing (PushPool _ (PfCas _ _)) => Some (Free, true)
  | Pushing (PushLoad _) | Popping PopLoad | Pushing (PushCas _ _) => Some (Top, false)
  | Popping (PopCas _ _ _) => Some (Top, true)
  | _ => None
  end.

Definition version (g : ghost) (w : word) : Z := match w with Top => vtop g | Free => vfree g end.

Definition advance (t : nat) (p : pc T) s s' (g : ghost) : ghost :=
  let vt := if decide (top_ s' = top_ s) then vtop g else vtop g + 1 in
  let vf := if decide (free_head_ s' = free_head_ s) then vfree g else vfree g + 1 in
  mkGhost vt vf (match access p with
                 | Some (Top, _) => <[t := vt]> (seen g)
                 | Some (Free, _) => <[t := vf]> (seen g)
                 | None => seen g
                 end).

(** A pop's compare-exchange comes fewer than 2^16 changes of the word after the
    thread loaded it. *)
Definition timely (t : nat) (p : pc T) (g : ghost) : Prop :=
  match access p with
  | Some (w, true) => version g w - seen g t < 2 ^ 16
  | _ => True
  end.

(** The executions of [n] threads on a new stack, with their histories. *)
Inductive exec (n : nat) : list event -> sys -> ghost -> Prop :=
| exec_init : exec n [] (mkSys new_stack (replicate n Idle)) (mkGhost 0 0 (fun _ => 0))
| exec_step t p evs S g e S' :
  exec n evs S g -> threads S !! t = Some p -> timely t p g -> step t S e S' ->
  exec n (evs ++ option_list e) S' (advance t p (obj S) (obj S') g).

(** ** The specification: an atomic stack

    A thread's call is pending until it takes effect, in one step, between its
    call and its return; a call may also end by an exception without effect. *)
Inductive status := SIdle | SPending (o : op T) | SDone (r : result T).

Inductive atomic (n : nat) : list event -> list T -> list status -> Prop :=
| atomic_init : atomic n [] [] (replicate n SIdle)
| atomic_call t o evs l sts :
  atomic n evs l sts -> sts !! t = Some SIdle -> atomic n (evs ++ [Call t o]) l (<[t := SPending o]> sts)
| atomic_push t v evs l sts :
  atomic n evs l sts -> sts !! t = Some (SPending (Push v)) -> atomic n evs (v :: l) (<[t := SDone Pushed]> sts)
| atomic_pop t x evs l sts :
  atomic n evs (x :: l) sts -> sts !! t = Some (SPending Pop) -> atomic n evs l (<[t := SDone (Popped (Some x))]> sts)
| atomic_pop_empty t evs sts :
  atomic n evs [] sts -> sts !! t = Some (SPending Pop) -> atomic n evs [] (<[t := SDone (Popped None)]> sts)
| atomic_throw t o evs l sts :
  atomic n evs l sts -> sts !! t = Some (SPending o) -> atomic n evs l (<[t := SDone Threw]> sts)
| atomic_return t r evs l sts :
  atomic n evs l sts -> sts !! t = Some (SDone r) -> atomic n (evs ++ [Return t r]) l (<[t := SIdle]> sts).
End operations.

(** ** Words: a pointer and a tag, packed and unpacked *)
Lemma unpack_ptr_mod w : unpack_ptr w = w mod 2 ^ 48.
Proof. unfold unpack_ptr. change kPtrMask with (Z.ones 48). apply Z.land_ones. lia. Qed.

Lemma unpack_ptr_range w : 0 <= unpack_ptr w < 2 ^ 48.
Proof. rewrite unpack_ptr_mod. apply Z.mod_pos_bound. lia. Qed.

Lemma pack_ptr_add p t : 0 <= p < 2 ^ 48 -> pack_ptr p t = t * 2 ^ 48 + p.
Proof. intros Hp. unfold pack_ptr. rewrite Z.lor_comm. apply lor_low; [done|done]. Qed.

Lemma unpack_pack_ptr p t : 0 <= p < 2 ^ 48 -> unpack_ptr (pack_ptr p t) = p.
Proof. intros Hp. rewrite unpack_ptr_mod, pack_ptr_add by done. rewrite Z.add_comm, Z_mod_plus_full. apply Z.mod_small. lia. Qed.

Lemma unpack_pack_tag p t : 0 <= p < 2 ^ 48 -> unpack_tag (pack_ptr p t) = u16 t.
Proof.
  intros Hp. unfold unpack_tag. rewrite Z.shiftr_div_pow2 by done. change (2 ^ kTagShift) with (2 ^ 48).
  rewrite pack_ptr_add, Z.div_add_l by lia. rewrite (Z.div_small p) by lia. f_equal. lia.
Qed.

Lemma u16_idemp t : u16 (u16 t) = u16 t.
Proof. unfold u16. apply Z.mod_mod. lia. Qed.

Lemma u16_succ t : u16 (u16 t + 1) = u16 (t + 1).
Proof. unfold u16. apply Z.add_mod_idemp_l. lia. Qed.

(** A word holds the tag of its version. *)
Definition tagged (w v : Z) : Prop := unpack_tag w = u16 v.

Lemma pack_tagged p w v : 0 <= p < 2 ^ 48 -> tagged w v -> tagged (pack_ptr p (u16 (unpack_tag w + 1))) (v + 1).
Proof. intros Hp Hw. unfold tagged in *. rewrite unpack_pack_tag by done. by rewrite u16_idemp, Hw, u16_succ. Qed.

(** Versions of one tag that are less than 2^16 apart are equal. *)
Lemma tagged_inj w v v' : tagged w v -> tagged w v' -> v <= v' -> v' - v < 2 ^ 16 -> v = v'.
Proof.
  unfold tagged, u16. intros -> E H1 H2.
  pose proof (Z.div_mod v (2 ^ 16) ltac:(lia)) as D1. pose proof (Z.div_mod v' (2 ^ 16) ltac:(lia)) as D2.
  rewrite E in D1. assert (v' - v = 2 ^ 16 * (v' / 2 ^ 16 - v / 2 ^ 16)) as D by lia.
  assert (v' / 2 ^ 16 - v / 2 ^ 16 = 0) by nia. lia.
Qed.

Lemma tagged_succ_ne w w' v : tagged w v -> tagged w' (v + 1) -> w' <> w.
Proof.
  intros H1 H2 ->. assert (v = v + 1); [|lia]. apply (tagged_inj w); [done|done|lia|lia].
Qed.

Lemma compare_exchange_inl c word expected desired w :
  compare_exchange_weak c word expected desired = inl w -> word = expected /\ w = desired.
Proof. unfold compare_exchange_weak. case_decide; naive_solver. Qed.

Lemma compare_exchange_inr c word expected desired w :
  compare_exchange_weak c word expected desired = inr w -> w = word.
Proof. unfold compare_exchange_weak. case_decide; naive_solver. Qed.

(** ** The invariant *)
Section invariant.
Context {T : Type}.
Implicit Types (s : stack T) (h : gmap Z (Node T)) (g : ghost) (l : list Z).

(** The nodes reached from a word along [next]. *)
Fixpoint chain h (w : Z) l : Prop :=
  match l with
  | [] => unpack_ptr w = 0
  | a :: l => unpack_ptr w = a /\ a <> 0 /\ exists nd, h !! a = Some nd /\ chain h (next nd) l
  end.

Definition val_at h (n : Z) : option T := h !! n ≫= value.
Definition contents h l : list T := omap (val_at h) l.

(** The node a thread has taken from the stack or the pool, or allocated. *)
Definition pop_free_owned (q : pop_free_pc) : option Z :=
  match q with PfReset n => Some n | _ => None end.

Definition owned (p : pc T) : option Z :=
  match p with
  | Pushing (PushPool _ q) => pop_free_owned q
  | Pushing (PushEmplace _ n) | Pushing (PushConstruct _ n) | Pushing (PushRecover _ n _)
  | Pushing (PushLoad n) | Pushing (PushLink n _) | Pushing (PushCas n _) => Some n
  | Popping (PopTake n) | Popping (PopRecycle n _ _) => Some n
  | _ => None
  end.

(** A thread's snapshot [w] of a word, taken at version [k]; and the [next]
    pointer read through it, right as long as the word has not changed. *)
Record snap h (cur ver k w : Z) : Prop := {
  snap_le : k <= ver;
  snap_tag : tagged w k;
  snap_cur : k = ver -> w = cur;
  snap_node : unpack_ptr w <> 0 -> is_Some (h !! unpack_ptr w);
}.

Definition fresh_read h (ver k w : Z) (P : Node T -> Prop) : Prop :=
  unpack_ptr w <> 0 /\ (k = ver -> exists nd, h !! unpack_ptr w = Some nd /\ P nd).

Definition snap_top s g k w := snap (store s) (top_ s) (vtop g) k w.
Definition snap_free s g k w := snap (store s) (free_head_ s) (vfree g) k w.

Definition pop_free_inv s g k (q : pop_free_pc) : Prop :=
  match q with
  | PfHead w => snap_free s g k w
  | PfCas w nx => snap_free s g k w /\ fresh_read (store s) (vfree g) k w (fun nd => next nd = nx)
  | _ => True
  end.

Definition linked h (n w : Z) : Prop := exists nd, h !! n = Some nd /\ next nd = w.

Definition push_free_inv s g k n (q : push_free_pc) : Prop :=
  match q with
  | FrLoad => True
  | FrLink w => snap_free s g k w
  | FrCas w => snap_free s g k w /\ linked (store s) n w
  end.

Definition thread_inv s g k (p : pc T) : Prop :=
  match p with
  | Idle => True
  | Pushing q =>
    match q with
    | PushPool _ q => pop_free_inv s g k q
    | PushRecover _ n q => push_free_inv s g k n q
    | PushLoad n => is_Some (val_at (store s) n)
    | PushLink n w => is_Some (val_at (store s) n) /\ snap_top s g k w
    | PushCas n w => is_Some (val_at (store s) n) /\ snap_top s g k w /\ linked (store s) n w
    | _ => True
    end
  | Popping q =>
    match q with
    | PopHead w => snap_top s g k w
    | PopHasValue w nx | PopCopy w nx | PopCas w nx None =>
      snap_top s g k w /\ fresh_read (store s) (vtop g) k w (fun nd => next nd = nx)
    | PopCas w nx (Some x) =>
      snap_top s g k w /\ fresh_read (store s) (vtop g) k w (fun nd => next nd = nx /\ value nd = Some x)
    | PopTake n => is_Some (val_at (store s) n)
    | PopRecycle n x q => is_Some x /\ push_free_inv s g k n q
    | _ => True
    end
  end.

(** What a thread still owes to [size_]. *)
Definition owed (p : pc T) : Z :=
  match p with
  | Pushing PushCount => 1
  | Popping (PopTake _) | Popping (PopRecycle _ _ _) | Popping (PopCount _) => -1
  | _ => 0
  end.

Definition debt (ths : list (pc T)) : Z := foldr Z.add 0 (owed <$> ths).

(** [ls] are the nodes of the stack and [lf] those of the free pool; with the
    nodes the threads own they are all the nodes there are, each once. *)
Record inv s (ths : list (pc T)) g ls lf : Prop := {
  inv_top : chain (store s) (top_ s) ls;
  inv_free : chain (store s) (free_head_ s) lf;
  inv_nodup : NoDup (ls ++ lf ++ omap owned ths);
  inv_dom : dom (store s) = list_to_set (ls ++ lf ++ omap owned ths);
  inv_addr : map_Forall (fun n _ => 0 < n < 2 ^ 48) (store s);
  inv_engaged : Forall (fun n => is_Some (val_at (store s) n)) ls;
  inv_tag_top : tagged (top_ s) (vtop g);
  inv_tag_free : tagged (free_head_ s) (vfree g);
  inv_size : size_ s = u64 (Z.of_nat (length ls) - debt ths);
  inv_threads : forall t p, ths !! t = Some p -> thread_inv s g (seen g t) p;
}.
End invariant.

Section preservation.
Context {T : Type}.
Implicit Types (s : stack T) (h : gmap Z (Node T)) (g : ghost) (l : list Z).

Lemma stack_chain_frame h h' l : forall w, (forall a, a ∈ l -> h' !! a = h !! a) -> chain h w l -> chain h' w l.
Proof.
  induction l as [|a l IH]; intros w Hf; cbn [chain]; [done|].
  intros (Hw & Ha & nd & Hnd & Hc). split; [done|]. split; [done|]. exists nd.
  rewrite Hf by apply list_elem_of_here. split; [done|]. apply IH; [|done]. intros. apply Hf. by apply list_elem_of_further.
Qed.

Lemma chain_ptr h w w' l : unpack_ptr w = unpack_ptr w' -> chain h w l -> chain h w' l.
Proof. intros Hw. destruct l; cbn [chain]; by rewrite Hw. Qed.

Lemma chain_cases h w l : chain h w l ->
  (unpack_ptr w = 0 /\ l = []) \/
  (unpack_ptr w <> 0 /\ exists l' nd, l = unpack_ptr w :: l' /\ h !! unpack_ptr w = Some nd /\ chain h (next nd) l').
Proof.
  destruct l as [|a l]; cbn [chain]; [by left|]. intros (<- & Ha & nd & Hnd & Hc). right. eauto 10.
Qed.

Lemma contents_frame h h' l : (forall a, a ∈ l -> h' !! a = h !! a) -> contents h' l = contents h l.
Proof.
  intros Hf. unfold contents, val_at. induction l as [|a l IH]; [done|]. cbn.
  rewrite Hf by apply list_elem_of_here. rewrite IH; [done|]. intros. apply Hf. by apply list_elem_of_further.
Qed.

Lemma contents_set_node s n nd l : (n ∉ l) -> contents (store (set_node s n nd)) l = contents (store s) l.
Proof. intros Hn. apply contents_frame. intros a Ha. cbn. apply lookup_insert_ne. by intros ->. Qed.

(** ** What other threads' steps do to a thread *)
Definition word_evolves h h' w w' v v' : Prop :=
  v <= v' /\ (v' = v -> w' = w /\ (unpack_ptr w <> 0 -> h' !! unpack_ptr w = h !! unpack_ptr w)).

Record evolves (o : option Z) s g s' g' : Prop := {
  ev_dom : forall a, is_Some (store s !! a) -> is_Some (store s' !! a);
  ev_own : forall a, o = Some a -> store s' !! a = store s !! a;
  ev_top : word_evolves (store s) (store s') (top_ s) (top_ s') (vtop g) (vtop g');
  ev_free : word_evolves (store s) (store s') (free_head_ s) (free_head_ s') (vfree g) (vfree g');
}.

Lemma snap_evolves h h' w w' v v' k x :
  (forall a, is_Some (h !! a) -> is_Some (h' !! a)) -> word_evolves h h' w w' v v' ->
  snap h w v k x -> snap h' w' v' k x.
Proof.
  intros Hd [Hle He] [H1 H2 H3 H4]. split; [lia|done| |auto].
  intros Hk. destruct He as [-> _]; [lia|]. apply H3. lia.
Qed.

Lemma fresh_read_evolves h h' w w' v v' k x P :
  word_evolves h h' w w' v v' -> snap h w v k x -> fresh_read h v k x P -> fresh_read h' v' k x P.
Proof.
  intros [Hle He] [H1 _ H3 _] [Hx Hr]. split; [done|]. intros Hk.
  destruct He as [_ Hh]; [lia|]. rewrite (H3 ltac:(lia)) in *. rewrite Hh by done. apply Hr. lia.
Qed.

Lemma thread_inv_evolves s g s' g' k p :
  evolves (owned p) s g s' g' -> thread_inv s g k p -> thread_inv s' g' k p.
Proof.
  intros [Hd Ho Ht Hf].
  assert (forall x, snap_top s g k x -> snap_top s' g' k x) as Hst by (intros x; by eapply snap_evolves).
  assert (forall x, snap_free s g k x -> snap_free s' g' k x) as Hsf by (intros x; by eapply snap_evolves).
  assert (forall x P, snap_top s g k x -> fresh_read (store s) (vtop g) k x P -> fresh_read (store s') (vtop g') k x P)
    as Hrt by (intros x P; by eapply fresh_read_evolves).
  assert (forall x P, snap_free s g k x -> fresh_read (store s) (vfree g) k x P -> fresh_read (store s') (vfree g') k x P)
    as Hrf by (intros x P; by eapply fresh_read_evolves).
  assert (forall n, owned p = Some n -> is_Some (val_at (store s) n) -> is_Some (val_at (store s') n)) as Hv.
  { intros n Hn. unfold val_at. by rewrite (Ho n Hn). }
  assert (forall n w, owned p = Some n -> linked (store s) n w -> linked (store s') n w) as Hl.
  { intros n w Hn. unfold linked. by rewrite (Ho n Hn). }
  clear Ht Hf Hd Ho.
  destruct p as [|q|q]; cbn [thread_inv owned] in *; [done| |]; destruct q; try done; cbn [thread_inv owned] in *;
    repeat match goal with q : pop_free_pc |- _ => destruct q | q : push_free_pc |- _ => destruct q
      | x : option T |- _ => destruct x end; try done;
    cbn [pop_free_inv push_free_inv pop_free_owned] in *; intros H; destruct_and?; split_and?; eauto.
Qed.
(** ** One thread moves: the shared invariant *)
Lemma owned_update (ths : list (pc T)) t p p' : ths !! t = Some p -> exists R,
  omap owned ths ≡ₚ option_list (owned p) ++ R /\
  omap owned (<[t := p']> ths) ≡ₚ option_list (owned p') ++ R /\
  (forall t' q n, t' <> t -> ths !! t' = Some q -> owned q = Some n -> n ∈ R).
Proof.
  intros Ht. exists (omap owned (take t ths) ++ omap owned (drop (S t) ths)).
  assert (forall q, omap owned (take t ths) ++ omap owned (q :: drop (S t) ths) ≡ₚ
    option_list (owned q) ++ omap owned (take t ths) ++ omap owned (drop (S t) ths)) as Hq.
  { intros q. cbn. destruct (owned q); cbn; [by rewrite Permutation_middle|done]. }
  split; [|split].
  - rewrite <- (take_drop_middle _ _ _ Ht) at 1. rewrite omap_app. apply Hq.
  - rewrite insert_take_drop by (by eapply lookup_lt_Some). rewrite omap_app. apply Hq.
  - intros t' q n Hne Hq' Hn. apply elem_of_app. destruct (decide (t' < t)%nat).
    + left. apply list_elem_of_omap. exists q. split; [|done].
      apply (list_elem_of_lookup_2 _ t'). by rewrite lookup_take_lt.
    + right. apply list_elem_of_omap. exists q. split; [|done].
      apply (list_elem_of_lookup_2 _ (t' - S t)). rewrite lookup_drop. by replace (S t + (t' - S t))%nat with t' by lia.
Qed.

Lemma debt_update (ths : list (pc T)) t p p' :
  ths !! t = Some p -> debt (<[t := p']> ths) = debt ths - owed p + owed p'.
Proof.
  assert (forall (q : pc T) qs, debt (q :: qs) = owed q + debt qs) as Hc by done.
  revert t. induction ths as [|q ths IH]; intros [|t] H; try done.
  - injection H as ->. change (<[0%nat := p']> (p :: ths)) with (p' :: ths). rewrite !Hc. lia.
  - change (<[S t := p']> (q :: ths)) with (q :: <[t := p']> ths). rewrite !Hc, (IH t H). lia.
Qed.

(** What a step of a thread that moves from [p] to [p'] must establish. *)
Record moves s g ls lf (p : pc T) s' g' ls' lf' (p' : pc T) (fr : list Z) : Prop := {
  mv_nodes : ls' ++ lf' ++ option_list (owned p') ≡ₚ fr ++ ls ++ lf ++ option_list (owned p);
  mv_fresh : NoDup fr /\ forall a, a ∈ fr -> store s !! a = None /\ 0 < a < 2 ^ 48;
  mv_dom : dom (store s') = list_to_set fr ∪ dom (store s);
  mv_frame : forall a, is_Some (store s !! a) -> owned p <> Some a -> store s' !! a = store s !! a;
  mv_top_chain : chain (store s') (top_ s') ls';
  mv_free_chain : chain (store s') (free_head_ s') lf';
  mv_engaged : Forall (fun n => is_Some (val_at (store s') n)) ls';
  mv_top : vtop g <= vtop g' /\ tagged (top_ s') (vtop g') /\ (vtop g' = vtop g -> top_ s' = top_ s);
  mv_free : vfree g <= vfree g' /\ tagged (free_head_ s') (vfree g') /\ (vfree g' = vfree g -> free_head_ s' = free_head_ s);
  mv_size : exists d, size_ s' = u64 (size_ s + d) /\
    Z.of_nat (length ls') - owed p' = Z.of_nat (length ls) - owed p + d;
}.

Lemma elem_of_chain_dom h w l a : chain h w l -> a ∈ l -> is_Some (h !! a).
Proof.
  revert w. induction l as [|b l IH]; intros w; [by intros _ ?%elem_of_nil|].
  intros (_ & _ & nd & Hnd & Hc) [->|Ha]%elem_of_cons; [by exists nd|]. by apply (IH (next nd)).
Qed.

Lemma moves_evolves s ths g ls lf t p s' g' ls' lf' p' fr t' q :
  inv s ths g ls lf -> ths !! t = Some p -> moves s g ls lf p s' g' ls' lf' p' fr ->
  t' <> t -> ths !! t' = Some q -> evolves (owned q) s g s' g'.
Proof.
  intros [] Ht [] Hne Hq. destruct (owned_update ths t p p Ht) as (R & HR & _ & Hown).
  assert (NoDup ((ls ++ lf) ++ option_list (owned p) ++ R)) as Hnd by (rewrite <- HR, <- app_assoc; done).
  apply NoDup_app in Hnd as (_ & Hdis & [_ [HdisR _]]%NoDup_app).
  assert (forall w l, (l = ls \/ l = lf) -> chain (store s) w l -> unpack_ptr w <> 0 ->
    store s' !! unpack_ptr w = store s !! unpack_ptr w) as Hhead.
  { intros w l Hl Hc Hw. destruct (chain_cases _ _ _ Hc) as [[? _]|(_ & l' & nd & El & Hnd & _)]; [done|].
    apply mv_frame0; [by eexists|]. intros Ho. apply (Hdis (unpack_ptr w)).
    - apply elem_of_app. destruct Hl as [<-|<-]; [left|right]; rewrite El; apply list_elem_of_here.
    - apply elem_of_app. left. rewrite Ho. apply list_elem_of_here. }
  split.
  - intros a Ha. apply elem_of_dom. rewrite mv_dom0. apply elem_of_union. right. by apply elem_of_dom.
  - intros a Ha. assert (a ∈ R) as HaR by (by apply (Hown t' q)). apply mv_frame0.
    + apply elem_of_dom. rewrite inv_dom0, elem_of_list_to_set, HR, !elem_of_app. auto.
    + intros Ho. apply (HdisR a); [|done]. rewrite Ho. apply list_elem_of_here.
  - destruct mv_top0 as (? & _ & ?). split; [done|]. intros Hv. split; [auto|]. apply (Hhead _ ls); auto.
  - destruct mv_free0 as (? & _ & ?). split; [done|]. intros Hv. split; [auto|]. apply (Hhead _ lf); auto.
Qed.

Lemma moves_inv s ths g ls lf t p s' g' ls' lf' p' fr :
  inv s ths g ls lf -> ths !! t = Some p -> moves s g ls lf p s' g' ls' lf' p' fr ->
  (forall t', t' <> t -> seen g' t' = seen g t') -> thread_inv s' g' (seen g' t) p' ->
  inv s' (<[t := p']> ths) g' ls' lf'.
Proof.
  intros Hinv Ht Hm Hseen Hp'.
  assert (forall t' q, t' <> t -> ths !! t' = Some q -> evolves (owned q) s g s' g') as Hev
    by eauto using moves_evolves.
  destruct Hinv, Hm. destruct (owned_update ths t p p' Ht) as (R & HR & HR' & _).
  assert (ls' ++ lf' ++ omap owned (<[t := p']> ths) ≡ₚ fr ++ ls ++ lf ++ omap owned ths) as Hperm.
  { rewrite HR, HR'. rewrite (app_assoc lf'), (app_assoc ls'), mv_nodes0. by rewrite <- !app_assoc. }
  split; try done.
  - rewrite Hperm. apply NoDup_app. destruct mv_fresh0 as [Hf1 Hf2]. split; [exact Hf1|]. split; [|exact inv_nodup0].
    intros a Ha Hin. destruct (Hf2 a Ha) as [Hn _]. apply not_elem_of_dom in Hn. apply Hn.
    rewrite inv_dom0. by apply elem_of_list_to_set.
  - rewrite mv_dom0, inv_dom0. apply set_eq. intros a.
    by rewrite elem_of_union, !elem_of_list_to_set, Hperm, (elem_of_app fr).
  - intros a nd Ha. assert (a ∈ dom (store s')) as Hd by (apply elem_of_dom; by exists nd).
    rewrite mv_dom0, elem_of_union, elem_of_list_to_set in Hd. destruct Hd as [Hd|[nd' Hd]%elem_of_dom].
    + by apply mv_fresh0.
    + by apply (inv_addr0 a nd').
  - by destruct mv_top0 as (_ & ? & _).
  - by destruct mv_free0 as (_ & ? & _).
  - destruct mv_size0 as (d & -> & Hd). rewrite inv_size0, (debt_update _ _ _ _ Ht). unfold u64.
    rewrite Z.add_mod_idemp_l by done. f_equal. lia.
  - intros t' q. destruct (decide (t' = t)) as [->|Hne].
    + rewrite list_lookup_insert_eq by (by eapply lookup_lt_Some). by intros [= <-].
    + rewrite list_lookup_insert_ne by done. intros Hq. rewrite Hseen by done.
      apply (thread_inv_evolves s g); [by apply (Hev t')|by apply inv_threads0].
Qed.
End preservation.

(** ** Kinds of moves *)
Section moves.
Context {T : Type}.
Implicit Types (s : stack T) (h : gmap Z (Node T)) (g : ghost) (ths : list (pc T)) (l : list Z) (p : pc T).

Lemma inv_owned s ths g ls lf t p n :
  inv s ths g ls lf -> ths !! t = Some p -> owned p = Some n ->
  (exists nd, store s !! n = Some nd) /\ 0 < n < 2 ^ 48 /\ (n ∉ ls) /\ (n ∉ lf).
Proof.
  intros [] Ht Hn. destruct (owned_update ths t p p Ht) as (R & HR & _). rewrite Hn in HR. cbn in HR.
  assert (exists nd, store s !! n = Some nd) as [nd Hnd].
  { apply elem_of_dom. rewrite inv_dom0, elem_of_list_to_set, HR, !elem_of_app. do 2 right. apply list_elem_of_here. }
  rewrite HR, app_assoc in inv_nodup0. apply NoDup_app in inv_nodup0 as (_ & Hdis & _).
  split; [by exists nd|]. split; [by apply (inv_addr0 n nd)|].
  split; intros Hin; apply (Hdis n); rewrite ?elem_of_app; auto using list_elem_of_here.
Qed.

Lemma advance_local t p s s' g :
  top_ s' = top_ s -> free_head_ s' = free_head_ s ->
  vtop (advance t p s s' g) = vtop g /\ vfree (advance t p s s' g) = vfree g.
Proof. intros Et Ef. unfold advance. cbn. by rewrite !decide_True. Qed.

Lemma advance_seen t p s s' g t' : t' <> t -> seen (advance t p s s' g) t' = seen g t'.
Proof. intros. unfold advance. cbn. repeat case_match; try done; by apply fn_lookup_insert_ne. Qed.

Lemma advance_access t p s s' g w b :
  access p = Some (w, b) -> seen (advance t p s s' g) t = version (advance t p s s' g) w.
Proof. intros Ha. unfold advance. cbn. rewrite Ha. by destruct w; apply fn_lookup_insert. Qed.

Lemma advance_quiet t p s s' g : access p = None -> seen (advance t p s s' g) t = seen g t.
Proof. intros Ha. unfold advance. cbn. by rewrite Ha. Qed.

Lemma size_wraps (z x : Z) : z = u64 x -> z = u64 (z + 0).
Proof. intros ->. rewrite Z.add_0_r. symmetry. apply Z.mod_mod. lia. Qed.

(** Only the counter and the thread's own program counter change. *)
Lemma moves_local s ths g ls lf t p p' d :
  inv s ths g ls lf -> owned p' = owned p -> owed p = owed p' + d ->
  moves s g ls lf p (set_size s (u64 (size_ s + d))) (advance t p s (set_size s (u64 (size_ s + d))) g) ls lf p' [].
Proof.
  intros [] Ho Hd. destruct (advance_local t p s (set_size s (u64 (size_ s + d))) g) as [Ev Ef]; [done|done|].
  split; rewrite ?Ev, ?Ef; try done.
  - by rewrite Ho.
  - split; [constructor|]. by intros a ?%elem_of_nil.
  - cbn. by rewrite (left_id_L ∅ (∪)).
  - exists d. split; [done|lia].
Qed.

Lemma moves_none s ths g ls lf t p p' :
  inv s ths g ls lf -> owned p' = owned p -> owed p' = owed p ->
  moves s g ls lf p s (advance t p s s g) ls lf p' [].
Proof.
  intros [] Ho Hd. destruct (advance_local t p s s g) as [Ev Ef]; [done|done|].
  split; rewrite ?Ev, ?Ef; try done.
  - by rewrite Ho.
  - split; [constructor|]. by intros a ?%elem_of_nil.
  - cbn. by rewrite (left_id_L ∅ (∪)).
  - exists 0. split; [by apply (size_wraps _ _ inv_size0)|lia].
Qed.

(** A thread writes to the node it owns. *)
Lemma moves_write s ths g ls lf t p p' n nd :
  inv s ths g ls lf -> ths !! t = Some p -> owned p = Some n -> owned p' = Some n -> owed p' = owed p ->
  moves s g ls lf p (set_node s n nd) (advance t p s (set_node s n nd) g) ls lf p' [].
Proof.
  intros Hinv Ht Ho Ho' Hd. destruct (inv_owned _ _ _ _ _ _ _ _ Hinv Ht Ho) as ([nd0 Hn] & _ & Hls & Hlf).
  destruct Hinv. destruct (advance_local t p s (set_node s n nd) g) as [Ev Ef]; [done|done|].
  assert (forall l, n ∉ l -> forall a, a ∈ l -> store (set_node s n nd) !! a = store s !! a) as Hne.
  { intros l Hl a Ha. cbn. apply lookup_insert_ne. by intros ->. }
  split; rewrite ?Ev, ?Ef; try done.
  - by rewrite Ho', Ho.
  - split; [constructor|]. by intros a ?%elem_of_nil.
  - cbn. rewrite dom_insert_lookup_L by (by exists nd0). by rewrite (left_id_L ∅ (∪)).
  - intros a _ Ha. cbn. apply lookup_insert_ne. congruence.
  - apply (stack_chain_frame (store s)); [by apply Hne|done].
  - apply (stack_chain_frame (store s)); [by apply Hne|done].
  - rewrite Forall_forall in *. intros a Ha. unfold val_at. rewrite (Hne ls) by done. by apply inv_engaged0.
  - exists 0. split; [by apply (size_wraps _ _ inv_size0)|lia].
Qed.

(** A compare-exchange of [top_] succeeds. *)
Lemma moves_top s ths g ls lf t p p' w ls' :
  inv s ths g ls lf -> tagged w (vtop g + 1) -> chain (store s) w ls' ->
  ls' ++ option_list (owned p') ≡ₚ ls ++ option_list (owned p) ->
  Forall (fun n => is_Some (val_at (store s) n)) ls' ->
  Z.of_nat (length ls') - owed p' = Z.of_nat (length ls) - owed p ->
  moves s g ls lf p (set_top s w) (advance t p s (set_top s w) g) ls' lf p' [].
Proof.
  intros [] Htag Hc Hp He Hd.
  assert (vtop (advance t p s (set_top s w) g) = vtop g + 1 /\ vfree (advance t p s (set_top s w) g) = vfree g) as [Ev Ef].
  { unfold advance. cbn. rewrite decide_False by (by eapply tagged_succ_ne). by rewrite decide_True. }
  split; rewrite ?Ev, ?Ef; try done.
  - cbn. rewrite !(Permutation_app_comm lf), !app_assoc. by rewrite Hp.
  - split; [constructor|]. by intros a ?%elem_of_nil.
  - cbn. by rewrite (left_id_L ∅ (∪)).
  - split; [lia|]. split; [done|]. lia.
  - exists 0. split; [by apply (size_wraps _ _ inv_size0)|lia].
Qed.

(** A compare-exchange of [free_head_] succeeds. *)
Lemma moves_free s ths g ls lf t p p' w lf' :
  inv s ths g ls lf -> tagged w (vfree g + 1) -> chain (store s) w lf' ->
  lf' ++ option_list (owned p') ≡ₚ lf ++ option_list (owned p) -> owed p' = owed p ->
  moves s g ls lf p (set_free s w) (advance t p s (set_free s w) g) ls lf' p' [].
Proof.
  intros [] Htag Hc Hp Hd.
  assert (vtop (advance t p s (set_free s w) g) = vtop g /\ vfree (advance t p s (set_free s w) g) = vfree g + 1) as [Ev Ef].
  { unfold advance. cbn. rewrite (decide_False (P := w = _)) by (by eapply tagged_succ_ne). by rewrite decide_True. }
  split; rewrite ?Ev, ?Ef; try done.
  - cbn. by rewrite Hp.
  - split; [constructor|]. by intros a ?%elem_of_nil.
  - cbn. by rewrite (left_id_L ∅ (∪)).
  - split; [lia|]. split; [done|]. lia.
  - exists 0. split; [by apply (size_wraps _ _ inv_size0)|lia].
Qed.

(** [new] returns a fresh node. *)
Lemma moves_alloc s ths g ls lf t p p' n nd :
  inv s ths g ls lf -> owned p = None -> owned p' = Some n -> owed p' = owed p ->
  0 < n < 2 ^ 48 -> store s !! n = None ->
  moves s g ls lf p (set_node s n nd) (advance t p s (set_node s n nd) g) ls lf p' [n].
Proof.
  intros Hinv Ho Ho' Hd Hn Hf. destruct Hinv. destruct (advance_local t p s (set_node s n nd) g) as [Ev Ef]; [done|done|].
  assert (forall a, is_Some (store s !! a) -> store (set_node s n nd) !! a = store s !! a) as Hne.
  { intros a [x Ha]. cbn. apply lookup_insert_ne. congruence. }
  assert (forall w l, chain (store s) w l -> chain (store (set_node s n nd)) w l) as Hc.
  { intros w l Hl. apply (stack_chain_frame (store s)); [|done]. intros a Ha. apply Hne. by eapply elem_of_chain_dom. }
  split; rewrite ?Ev, ?Ef; try done; auto.
  - rewrite Ho', Ho. cbn. rewrite app_nil_r, app_assoc. rewrite Permutation_app_comm. done.
  - split; [apply NoDup_singleton|]. by intros a ->%list_elem_of_singleton.
  - cbn. rewrite dom_insert_L. set_solver.
  - eapply Forall_impl; [exact inv_engaged0|]. cbn beta. intros a Ha. unfold val_at in *. rewrite Hne; [done|].
    destruct (store s !! a); [by eexists|by destruct Ha].
  - exists 0. split; [by apply (size_wraps _ _ inv_size0)|lia].
Qed.
End moves.

(** ** Where an operation takes effect *)
Section simulation.
Context {T : Type} (copyable : bool) (moved_from : T -> T).
Implicit Types (s : stack T) (h : gmap Z (Node T)) (g : ghost) (ths : list (pc T)) (l : list Z) (p : pc T).

(** A push takes effect when its compare-exchange of [top_] succeeds, and so does
    a pop that returns a value; a pop that finds the stack empty takes effect when
    it loads [top_]. *)
Definition status_of h p : status (T := T) :=
  match p with
  | Idle => SIdle
  | Pushing q =>
    match q with
    | PushPool v _ | PushNew v | PushEmplace v _ | PushConstruct v _ | PushRecover v _ _ => SPending (Push v)
    | PushLoad n | PushLink n _ | PushCas n _ => match val_at h n with Some v => SPending (Push v) | None => SIdle end
    | PushCount => SDone Pushed
    end
  | Popping q =>
    match q with
    | PopHead w => if decide (unpack_ptr w = 0) then SDone (Popped None) else SPending Pop
    | PopLoad | PopHasValue _ _ | PopCopy _ _ | PopCas _ _ _ => SPending Pop
    | PopTake n => SDone (Popped (val_at h n))
    | PopRecycle _ x _ => SDone (Popped x)
    | PopCount x => SDone (Popped (Some x))
    end
  end.

(** What a step of one thread does to the atomic stack. *)
Inductive effect : list T -> status -> option (result T) -> list T -> status -> Prop :=
| eff_none vs st : effect vs st None vs st
| eff_push v vs : effect vs (SPending (Push v)) None (v :: vs) (SDone Pushed)
| eff_pop x vs : effect (x :: vs) (SPending Pop) None vs (SDone (Popped (Some x)))
| eff_pop_empty : effect [] (SPending Pop) None [] (SDone (Popped None))
| eff_return r vs : effect vs (SDone r) (Some r) vs SIdle
| eff_throw o vs : effect vs (SPending o) (Some Threw) vs SIdle.

Lemma atomic_effect n evs (vs : list T) sts t st r vs' st' :
  atomic n evs vs sts -> sts !! t = Some st -> effect vs st r vs' st' ->
  atomic n (evs ++ option_list (Return t <$> r)) vs' (<[t := st']> sts).
Proof.
  intros Ha Ht He. assert (t < length sts)%nat as Hlt by (by eapply lookup_lt_Some).
  destruct He; cbn; rewrite ?app_nil_r.
  - by rewrite list_insert_id.
  - by apply atomic_push.
  - by eapply atomic_pop.
  - by apply atomic_pop_empty.
  - by apply atomic_return.
  - pose proof (atomic_throw n t o evs vs sts Ha Ht) as Hth.
    rewrite <- (list_insert_insert_eq sts t SIdle (SDone Threw)). apply atomic_return; [done|].
    by apply list_lookup_insert_eq.
Qed.

(** A thread's status reads the store only at the node it owns. *)
Lemma status_of_frame h h' p :
  (forall n, owned p = Some n -> h' !! n = h !! n) -> status_of h' p = status_of h p.
Proof.
  intros Hf. destruct p as [|q|q]; [done| |]; destruct q; try done; cbn [status_of owned] in *;
    unfold val_at; by rewrite Hf.
Qed.

(** The contract of one access. *)
Definition step_ok (s : stack T) (ths : list (pc T)) (g : ghost) (ls lf : list Z) (t : nat) (p : pc T)
    (s' : stack T) (p' : pc T) (r : option (result T)) : Prop :=
  exists ls' lf' fr,
    moves s g ls lf p s' (advance t p s s' g) ls' lf' p' fr /\
    thread_inv s' (advance t p s s' g) (seen (advance t p s s' g) t) p' /\
    effect (contents (store s) ls) (status_of (store s) p) r (contents (store s') ls') (status_of (store s') p').

Lemma step_ok_none s ths g ls lf t p p' r :
  inv s ths g ls lf -> owned p' = owned p -> owed p' = owed p ->
  thread_inv s (advance t p s s g) (seen (advance t p s s g) t) p' ->
  effect (contents (store s) ls) (status_of (store s) p) r (contents (store s) ls) (status_of (store s) p') ->
  step_ok s ths g ls lf t p s p' r.
Proof. intros. exists ls, lf, []. split; [by eapply moves_none|done]. Qed.

Lemma snap_load_top s ths g ls lf : inv s ths g ls lf -> snap_top s g (vtop g) (top_ s).
Proof.
  intros []. split; [done|done|done|]. intros Hw.
  destruct (chain_cases _ _ _ inv_top0) as [[? _]|(_ & l' & nd & _ & Hnd & _)]; [done|by exists nd].
Qed.

Lemma snap_load_free s ths g ls lf : inv s ths g ls lf -> snap_free s g (vfree g) (free_head_ s).
Proof.
  intros []. split; [done|done|done|]. intros Hw.
  destruct (chain_cases _ _ _ inv_free0) as [[? _]|(_ & l' & nd & _ & Hnd & _)]; [done|by exists nd].
Qed.

(** Without a change of its word a thread's ghost state is what it was. *)
Lemma advance_same t p s g : access p = None -> advance t p s s g = g.
Proof. intros Ha. unfold advance. rewrite Ha, !decide_True by done. by destruct g. Qed.

Lemma advance_load t p s g w b :
  access p = Some (w, b) ->
  vtop (advance t p s s g) = vtop g /\ vfree (advance t p s s g) = vfree g /\
  seen (advance t p s s g) t = version g w.
Proof.
  intros Ha. destruct (advance_local t p s s g) as [E1 E2]; [done|done|]. split; [done|]. split; [done|].
  rewrite (advance_access _ _ _ _ _ _ _ Ha). destruct w; cbn [version]; done.
Qed.

(** A timely compare-exchange that succeeds finds its snapshot current. *)
Lemma snap_current h cur ver k w :
  snap h cur ver k w -> tagged cur ver -> cur = w -> ver - k < 2 ^ 16 -> k = ver.
Proof. intros [Hle Ht _ _] Hc -> Hlt. by apply (tagged_inj w). Qed.

(** ** The free pool *)
Lemma pop_free_step c s ths g ls lf t v q s' r :
  inv s ths g ls lf -> ths !! t = Some (Pushing (PushPool v q)) -> timely t (Pushing (PushPool v q)) g ->
  pop_free_node c s q = Ret (s', r) ->
  step_ok s ths g ls lf t (Pushing (PushPool v q)) s'
    (Pushing match r with
     | inl q => PushPool v q
     | inr node => if decide (node = 0) then PushNew v else PushEmplace v node
     end) None.
Proof.
  intros Hinv Ht Htm. pose proof (inv_threads _ _ _ _ _ Hinv _ _ Ht) as Hp.
  destruct q as [|w|w nx|n]; cbn [pop_free_node thread_inv pop_free_inv] in *.
  - intros [= <- <-]. apply step_ok_none; [done|done|done| |constructor].
    destruct (advance_load t (Pushing (PushPool v PfLoad)) s g Free false) as (E1 & E2 & ->); [done|].
    cbn. unfold snap_free. rewrite E2. by eapply snap_load_free.
  - case_decide as Hw.
    + intros [= <- <-]. rewrite decide_True by done. apply step_ok_none; [done|done|done|done|constructor].
    + unfold deref. destruct (snap_node _ _ _ _ _ Hp Hw) as [nd Hnd]. rewrite Hnd. ret_step. intros [= <- <-].
      apply step_ok_none; [done|done|done| |constructor]. rewrite advance_same by done.
      cbn. split; [done|]. split; [done|]. intros _. by exists nd.
  - destruct Hp as [Hs Hr]. destruct compare_exchange_weak as [x|x] eqn:E; intros [= <- <-].
    + apply compare_exchange_inl in E as [Ew ->]. cbn in Htm.
      assert (seen g t = vfree g) as Hk.
      { apply (snap_current _ _ _ _ _ Hs); [apply Hinv|done|done]. }
      destruct Hr as [Hw Hr]. destruct (Hr Hk) as (nd & Hnd & <-). pose proof (snap_cur _ _ _ _ _ Hs Hk) as ->.
      destruct (chain_cases _ _ _ (inv_free _ _ _ _ _ Hinv)) as [[? _]|(_ & lf' & nd' & Elf & Hnd' & Hc)]; [done|].
      assert (nd' = nd) as -> by congruence.
      exists ls, lf', []. split; [|split; [done|constructor]].
      apply (moves_free s ths); [done| | | |done].
      * apply pack_tagged; [apply unpack_ptr_range|apply Hinv].
      * apply (chain_ptr _ (next nd)); [|done]. by rewrite unpack_pack_ptr by apply unpack_ptr_range.
      * cbn. rewrite Elf, app_nil_r. by rewrite Permutation_app_comm.
    + apply compare_exchange_inr in E as ->. apply step_ok_none; [done|done|done| |constructor].
      destruct (advance_load t (Pushing (PushPool v (PfCas w nx))) s g Free true) as (E1 & E2 & ->); [done|].
      cbn. unfold snap_free. rewrite E2. by eapply snap_load_free.
  - destruct (inv_owned _ _ _ _ _ _ _ n Hinv Ht) as ([nd Hnd] & Hn & Hls & _); [done|].
    unfold store_next, deref. rewrite Hnd. repeat ret_step. intros [= <- <-].
    rewrite decide_False by lia. exists ls, lf, []. split; [by apply (moves_write s ths)|]. split; [done|].
    rewrite contents_set_node by done. constructor.
Qed.

(** [push_free_node] inside a push that recovers or a pop that recycles. *)
Lemma push_free_step c s ths g ls lf t p p' n q s' r :
  inv s ths g ls lf -> ths !! t = Some p -> owned p = Some n ->
  access p = match q with FrLink _ => None | _ => Some (Free, false) end ->
  push_free_inv s g (seen g t) n q ->
  push_free_node c s n q = Ret (s', r) ->
  owned p' = (if r is Some _ then Some n else None) -> owed p' = owed p ->
  let g' := advance t p s s' g in
  exists lf', moves s g ls lf p s' g' ls lf' p' [] /\
    match r with Some q' => push_free_inv s' g' (seen g' t) n q' | None => True end /\
    contents (store s') ls = contents (store s) ls.
Proof.
  intros Hinv Ht Ho Ha Hq Hstep Ho' Hd. destruct (inv_owned _ _ _ _ _ _ _ n Hinv Ht Ho) as ([nd Hnd] & Hn & Hls & _).
  destruct q as [|w|w]; cbn [push_free_node push_free_inv] in *.
  - injection Hstep as <- <-. exists lf. split; [by apply (moves_none s ths); rewrite ?Ho|]. split; [|done].
    destruct (advance_load t p s g _ _ Ha) as (_ & E2 & ->). cbn. unfold snap_free. rewrite E2. by eapply snap_load_free.
  - unfold store_next, deref in Hstep. rewrite Hnd in Hstep. cbn in Hstep. injection Hstep as <- <-.
    exists lf. split; [by apply (moves_write s ths)|]. split; [|by apply contents_set_node].
    destruct (advance_local t p s (set_node s n (mkNode (value nd) w)) g) as [_ E2]; [done|done|].
    rewrite advance_quiet by done. cbn. destruct Hq as [H1 H2 H3 H4]. split; [split; try done|].
    + by rewrite E2.
    + by rewrite E2.
    + intros Hw. cbn. destruct (decide (n = unpack_ptr w)) as [->|Hne]; [rewrite lookup_insert_eq; by eexists|].
      rewrite lookup_insert_ne by done. by apply H4.
    + exists (mkNode (value nd) w). split; [apply lookup_insert_eq|done].
  - destruct Hq as [Hs (nd' & Hnd' & Hnx)]. assert (nd' = nd) as -> by congruence.
    destruct compare_exchange_weak as [x|x] eqn:E; injection Hstep as <- <-.
    + apply compare_exchange_inl in E as [Ew ->]. exists (n :: lf). split; [|split; done].
      apply (moves_free s ths); [done| | | |done].
      * apply pack_tagged; [lia|]. rewrite <- Ew. apply Hinv.
      * cbn. rewrite unpack_pack_ptr by lia. split; [done|]. split; [lia|]. exists nd. split; [done|].
        rewrite Hnx, <- Ew. apply Hinv.
      * rewrite Ho', Ho. cbn. rewrite app_nil_r. by rewrite Permutation_app_comm.
    + apply compare_exchange_inr in E as ->. exists lf. split; [by apply (moves_none s ths); rewrite ?Ho|]. split; [|done].
      destruct (advance_load t p s g _ _ Ha) as (_ & E2 & ->). cbn. unfold snap_free. rewrite E2. by eapply snap_load_free.
Qed.

(** ** Push *)
Lemma push_step c s ths g ls lf t q s' r :
  inv s ths g ls lf -> ths !! t = Some (Pushing q) -> timely t (Pushing q) g -> alloc_ok c s (Pushing q) ->
  push c s q = Ret (s', r) ->
  step_ok s ths g ls lf t (Pushing q) s'
    match r with inl q => Pushing q | inr _ => Idle end match r with inl _ => None | inr r => Some r end.
Proof.
  intros Hinv Ht Htm Hal. pose proof (inv_threads _ _ _ _ _ Hinv _ _ Ht) as Hp.
  pose proof (fun n => inv_owned _ _ _ _ _ _ _ n Hinv Ht) as Hown.
  destruct q as [v q|v|v n|v n|v n q|n|n w|n w|]; cbn [push thread_inv] in *.
  - intros ([s1 r1] & Hq & [= <- <-])%bind_Ret_inv. by eapply pop_free_step.
  - destruct (throws c); intros [= <- <-].
    + apply step_ok_none; [done|done|done|done|]. apply eff_throw.
    + destruct Hal as [Hn Hf]. exists ls, lf, [new_at c]. split; [by apply (moves_alloc s ths)|]. split; [done|].
      rewrite contents_set_node; [constructor|]. intros Hin.
      destruct (elem_of_chain_dom _ _ _ _ (inv_top _ _ _ _ _ Hinv) Hin) as [nd Hnd]. congruence.
  - destruct (Hown n) as ([nd Hnd] & Hn & Hls & _); [done|]. unfold store_value, deref. rewrite Hnd. cbn.
    intros [= <- <-]. exists ls, lf, []. split; [by apply (moves_write s ths)|]. split; [done|].
    rewrite contents_set_node by done. constructor.
  - destruct (Hown n) as ([nd Hnd] & Hn & Hls & _); [done|]. destruct (throws c).
    + intros [= <- <-]. apply step_ok_none; [done|done|done|done|]. constructor.
    + unfold store_value, deref. rewrite Hnd. cbn.
      intros [= <- <-]. exists ls, lf, []. split; [by apply (moves_write s ths)|].
      rewrite contents_set_node by done. cbn. unfold val_at. rewrite lookup_insert_eq. split; [by eexists|constructor].
  - intros ([s1 r1] & Hq & [= <- <-])%bind_Ret_inv.
    destruct (push_free_step c s ths g ls lf t (Pushing (PushRecover v n q))
      match r1 with Some q => Pushing (PushRecover v n q) | None => Idle end n q s1 r1) as (lf' & Hm & Hi & Hc);
      [done|done|done|by destruct q|done|done|by destruct r1|by destruct r1|].
    exists ls, lf', []. rewrite Hc. destruct r1; (split; [done|]; split; [done|constructor]).
  - intros [= <- <-]. apply step_ok_none; [done|done|done| |constructor].
    destruct (advance_load t (Pushing (PushLoad n)) s g Top false) as (E1 & E2 & ->); [done|].
    cbn. split; [done|]. unfold snap_top. rewrite E1. by eapply snap_load_top.
  - destruct (Hown n) as ([nd Hnd] & Hn & Hls & _); [done|]. unfold store_next, deref. rewrite Hnd. cbn.
    intros [= <- <-]. exists ls, lf, []. split; [by apply (moves_write s ths)|].
    destruct (advance_local t (Pushing (PushLink n w)) s (set_node s n (mkNode (value nd) w)) g) as [E1 _]; [done|done|].
    rewrite advance_quiet by done. destruct Hp as [Hv [H1 H2 H3 H4]].
    rewrite contents_set_node by done. unfold val_at in *. cbn. unfold val_at. rewrite lookup_insert_eq. rewrite Hnd in Hv |- *.
    split; [|constructor]. split; [done|]. split; [split; [by rewrite E1|done|by rewrite E1|]|].
    + intros Hw. cbn. destruct (decide (n = unpack_ptr w)) as [->|Hne]; [rewrite lookup_insert_eq; by eexists|].
      rewrite lookup_insert_ne by done. by apply H4.
    + exists (mkNode (value nd) w). split; [apply lookup_insert_eq|done].
  - destruct (Hown n) as ([nd Hnd] & Hn & Hls & _); [done|]. destruct Hp as ([v Hv] & Hs & nd' & Hnd' & Hnx).
    assert (nd' = nd) as -> by congruence.
    destruct compare_exchange_weak as [x|x] eqn:E; intros [= <- <-].
    + apply compare_exchange_inl in E as [Ew ->]. exists (n :: ls), lf, []. split; [|split; [done|]].
      * apply (moves_top s ths); [done| | | | |].
        { apply pack_tagged; [lia|]. rewrite <- Ew. apply Hinv. }
        { cbn. rewrite unpack_pack_ptr by lia. split; [done|]. split; [lia|]. exists nd. split; [done|].
          rewrite Hnx, <- Ew. apply Hinv. }
        { cbn. rewrite app_nil_r. by rewrite Permutation_app_comm. }
        { constructor; [by exists v|apply Hinv]. }
        { cbn [length owed]. lia. }
      * cbn. rewrite Hv. apply eff_push.
    + apply compare_exchange_inr in E as ->. apply step_ok_none; [done|done|done| |constructor].
      destruct (advance_load t (Pushing (PushCas n w)) s g Top false) as (E1 & E2 & ->); [done|].
      cbn. split; [by exists v|]. unfold snap_top. rewrite E1. by eapply snap_load_top.
  - intros [= <- <-]. exists ls, lf, []. split; [by apply (moves_local s ths)|]. split; [done|]. apply eff_return.
Qed.

(** ** Pop *)
Lemma snap_empty s ths g ls lf :
  inv s ths g ls lf -> unpack_ptr (top_ s) = 0 -> ls = [].
Proof.
  intros Hinv Hw. destruct (chain_cases _ _ _ (inv_top _ _ _ _ _ Hinv)) as [[_ ?]|[? _]]; done.
Qed.

(** Loading [top_], first or after a failed compare-exchange. *)
Lemma pop_load_step s ths g ls lf t p b :
  inv s ths g ls lf -> owned p = None -> owed p = 0 -> access p = Some (Top, b) ->
  status_of (store s) p = SPending Pop ->
  step_ok s ths g ls lf t p s (Popping (PopHead (top_ s))) None.
Proof.
  intros Hinv Ho Hd Ha Hst. apply step_ok_none; [done|done|done| |].
  - destruct (advance_load t p s g _ _ Ha) as (E1 & E2 & ->).
    cbn. unfold snap_top. rewrite E1. by eapply snap_load_top.
  - rewrite Hst. cbn. case_decide as Hw; [|constructor]. rewrite (snap_empty _ _ _ _ _ Hinv Hw). constructor.
Qed.

Lemma try_pop_cas c s ths g ls lf t w nx x s' r :
  inv s ths g ls lf -> ths !! t = Some (Popping (PopCas w nx x)) -> timely t (Popping (PopCas w nx x)) g ->
  try_pop copyable moved_from c s (PopCas w nx x) = Ret (s', r) ->
  step_ok s ths g ls lf t (Popping (PopCas w nx x)) s'
    match r with inl q => Popping q | inr _ => Idle end match r with inl _ => None | inr r => Some r end.
Proof.
  intros Hinv Ht Htm. pose proof (inv_threads _ _ _ _ _ Hinv _ _ Ht) as Hp. cbn [try_pop].
  destruct compare_exchange_weak as [y|y] eqn:E; intros [= <- <-].
  2:{ apply compare_exchange_inr in E as ->. by apply (pop_load_step s ths g ls lf t _ true). }
  apply compare_exchange_inl in E as [Ew ->].
  assert (snap_top s g (seen g t) w /\ fresh_read (store s) (vtop g) (seen g t) w
    (fun nd => next nd = nx /\ match x with Some x => value nd = Some x | None => True end)) as [Hs [Hw Hr]].
  { cbn in Hp. destruct x; [done|]. destruct Hp as (H1 & H2 & H3). split; [done|]. split; [done|].
    intros Hk. destruct (H3 Hk) as (nd & ? & ?). by exists nd. }
  assert (seen g t = vtop g) as Hk by (apply (snap_current _ _ _ _ _ Hs); [apply Hinv|done|done]).
  destruct (Hr Hk) as (nd & Hnd & <- & Hx). pose proof (snap_cur _ _ _ _ _ Hs Hk) as ->.
  destruct (chain_cases _ _ _ (inv_top _ _ _ _ _ Hinv)) as [[? _]|(_ & ls' & nd' & Els & Hnd' & Hc)]; [done|].
  assert (nd' = nd) as -> by congruence.
  pose proof (inv_engaged _ _ _ _ _ Hinv) as He. rewrite Els in He. apply Forall_cons in He as [[v Hv] He].
  set (q := match x with Some x => PopRecycle (unpack_ptr (top_ s)) (Some x) FrLoad | None => PopTake (unpack_ptr (top_ s)) end).
  assert (owned (Popping q) = Some (unpack_ptr (top_ s)) /\ owed (Popping q) = -1) as [Ho Hd] by (by destruct x).
  exists ls', lf, []. split; [|split].
  - apply (moves_top s ths); [done| | | |done|].
    + apply pack_tagged; [apply unpack_ptr_range|apply Hinv].
    + apply (chain_ptr _ (next nd)); [|done]. by rewrite unpack_pack_ptr by apply unpack_ptr_range.
    + rewrite Ho, Els. cbn. rewrite app_nil_r. by rewrite Permutation_app_comm.
    + rewrite Hd, Els. cbn [length owed]. lia.
  - subst q. destruct x; cbn; [split; [by eexists|done]|by exists v].
  - assert (contents (store s) ls = v :: contents (store s) ls') as -> by (rewrite Els; unfold contents; cbn; by rewrite Hv).
    change (store (set_top s _)) with (store s).
    replace (status_of (store s) (Popping q)) with (SDone (Popped (Some v))); [apply eff_pop|].
    subst q. destruct x; cbn; [|by rewrite Hv]. unfold val_at in Hv. rewrite Hnd in Hv. cbn in Hv. congruence.
Qed.

Lemma try_pop_step c s ths g ls lf t q s' r :
  inv s ths g ls lf -> ths !! t = Some (Popping q) -> timely t (Popping q) g ->
  try_pop copyable moved_from c s q = Ret (s', r) ->
  step_ok s ths g ls lf t (Popping q) s'
    match r with inl q => Popping q | inr _ => Idle end match r with inl _ => None | inr r => Some r end.
Proof.
  intros Hinv Ht Htm. pose proof (inv_threads _ _ _ _ _ Hinv _ _ Ht) as Hp.
  destruct q as [|w|w nx|w nx|w nx x|n|n x q|x]; [| | | |by apply try_pop_cas| | |]; cbn [try_pop thread_inv] in *.
  - intros [= <- <-]. by apply (pop_load_step s ths g ls lf t _ false).
  - case_decide as Hw.
    + intros [= <- <-]. apply step_ok_none; [done|done|done|done|]. cbn. rewrite decide_True by done. apply eff_return.
    + destruct (snap_node _ _ _ _ _ Hp Hw) as [nd Hnd]. unfold deref. rewrite Hnd. cbn. intros [= <- <-].
      apply step_ok_none; [done|by destruct copyable|by destruct copyable| |].
      * rewrite advance_same by done. assert (fresh_read (store s) (vtop g) (seen g t) w (fun nd' => next nd' = next nd)) as Hr.
        { split; [done|]. intros _. by exists nd. }
        by destruct copyable.
      * cbn. rewrite decide_False by done. destruct copyable; constructor.
  - destruct Hp as [Hs Hr]. destruct (snap_node _ _ _ _ _ Hs) as [nd Hnd]; [apply Hr|].
    unfold deref. rewrite Hnd. cbn. intros [= <- <-].
    destruct (value nd); (apply step_ok_none; [done|done|done| |constructor]); rewrite advance_same by done; done.
  - destruct Hp as [Hs Hr]. destruct (snap_node _ _ _ _ _ Hs) as [nd Hnd]; [apply Hr|].
    unfold deref. rewrite Hnd. cbn. destruct (value nd) as [x|] eqn:Hx; [|done].
    destruct (throws c); intros [= <- <-]; (apply step_ok_none; [done|done|done| |]).
    + done.
    + apply eff_throw.
    + rewrite advance_same by done. cbn. split; [done|]. destruct Hr as [Hw Hr]. split; [done|].
      intros Hk. destruct (Hr Hk) as (nd' & Hnd' & Hnx). exists nd'. split; [done|]. split; [done|]. congruence.
    + constructor.
  - destruct (inv_owned _ _ _ _ _ _ _ n Hinv Ht) as ([nd Hnd] & Hn & Hls & _); [done|].
    unfold val_at in Hp. unfold store_value, deref. rewrite Hnd in *. cbn in *. destruct Hp as [x Hx]. rewrite Hx.
    intros [= <- <-]. exists ls, lf, []. split; [by apply (moves_write s ths)|].
    split; [by split; [eexists|]|]. rewrite contents_set_node by done. cbn. unfold val_at. rewrite Hnd. cbn. rewrite Hx. constructor.
  - destruct Hp as [[x' ->] Hp]. intros ([s1 r1] & Hq & [= <- <-])%bind_Ret_inv.
    destruct (push_free_step c s ths g ls lf t (Popping (PopRecycle n (Some x') q))
      (Popping match r1 with Some q => PopRecycle n (Some x') q | None => PopCount x' end) n q s1 r1) as (lf' & Hm & Hi & Hc);
      [done|done|done|by destruct q|done|done|by destruct r1|by destruct r1|].
    exists ls, lf', []. rewrite Hc. destruct r1; (split; [done|]; split; [|constructor]); [by split; [eexists|]|done].
  - intros [= <- <-]. exists ls, lf, []. split; [by apply (moves_local s ths)|]. split; [done|]. apply eff_return.
Qed.

(** ** Executions *)
Lemma tstep_ok c s ths g ls lf t p s' p' r :
  inv s ths g ls lf -> ths !! t = Some p -> timely t p g -> alloc_ok c s p ->
  tstep copyable moved_from c s p = Ret (s', p', r) -> step_ok s ths g ls lf t p s' p' r.
Proof.
  intros Hinv Ht Htm Hal. destruct p as [|q|q]; cbn [tstep]; [done| |];
    intros ([s1 r1] & Hq & Hr)%bind_Ret_inv.
  - pose proof (push_step _ _ _ _ _ _ _ _ _ _ Hinv Ht Htm Hal Hq) as Hok. by destruct r1; injection Hr as <- <- <-.
  - pose proof (try_pop_step _ _ _ _ _ _ _ _ _ _ Hinv Ht Htm Hq) as Hok. by destruct r1; injection Hr as <- <- <-.
Qed.

Lemma status_update s ths g ls lf t p s' g' ls' lf' p' fr :
  inv s ths g ls lf -> ths !! t = Some p -> moves s g ls lf p s' g' ls' lf' p' fr ->
  status_of (store s') <$> <[t := p']> ths = <[t := status_of (store s') p']> (status_of (store s) <$> ths).
Proof.
  intros Hinv Ht Hm. rewrite list_fmap_insert. apply list_eq. intros t'.
  destruct (decide (t' = t)) as [->|Hne].
  - rewrite !list_lookup_insert_eq by (rewrite length_fmap; by eapply lookup_lt_Some). done.
  - rewrite !list_lookup_insert_ne by done. rewrite !list_lookup_fmap. destruct (ths !! t') as [q|] eqn:Hq; [|done].
    cbn. f_equal. apply status_of_frame. intros n Hn.
    by apply (ev_own _ _ _ _ _ (moves_evolves _ _ _ _ _ _ _ _ _ _ _ _ _ _ _ Hinv Ht Hm Hne Hq)).
Qed.

Lemma inv_init n : inv new_stack (replicate n (Idle (T := T))) (mkGhost 0 0 (fun _ => 0)) [] [].
Proof.
  assert (omap owned (replicate n (Idle (T := T))) = []) as Ho by (induction n; done).
  assert (debt (replicate n (Idle (T := T))) = 0) as Hd by (clear Ho; induction n as [|n IH]; [done|exact IH]).
  split; rewrite ?Ho, ?Hd; try done; [constructor|].
  intros t p [-> _]%lookup_replicate. done.
Qed.

Lemma exec_inv n evs S g : exec copyable moved_from n evs S g -> exists ls lf,
  inv (obj S) (threads S) g ls lf /\
  atomic n evs (contents (store (obj S)) ls) (status_of (store (obj S)) <$> threads S).
Proof.
  induction 1 as [|t p evs S g e S' _ (ls & lf & Hinv & Hat) Ht Htm Hs].
  { exists [], []. split; [apply inv_init|]. cbn. rewrite fmap_replicate. apply atomic_init. }
  destruct Hs as [s ths o Hid|s ths p0 c s' p' r Hp0 Hal Hstep]; cbn [obj threads] in *.
  - assert (p = Idle) as -> by congruence.
    assert (moves s g ls lf Idle s (advance t Idle s s g) ls lf (start o) []) as Hm
      by (apply (moves_none s ths); [done|by destruct o|by destruct o]).
    exists ls, lf. split.
    + eapply moves_inv; [done|done|done|intros; by apply advance_seen|by destruct o].
    + rewrite (status_update _ _ _ _ _ _ _ _ _ _ _ _ _ Hinv Ht Hm). cbn.
      replace (status_of (store s) (start o)) with (SPending o) by (by destruct o).
      apply atomic_call; [done|]. by rewrite list_lookup_fmap, Ht.
  - assert (p0 = p) as -> by congruence.
    destruct (tstep_ok _ _ _ _ _ _ _ _ _ _ _ Hinv Ht Htm Hal Hstep) as (ls' & lf' & fr & Hm & Hp' & He).
    exists ls', lf'. split.
    + eapply moves_inv; [done|done|done|intros; by apply advance_seen|done].
    + rewrite (status_update _ _ _ _ _ _ _ _ _ _ _ _ _ Hinv Ht Hm).
      eapply atomic_effect; [done| |done]. by rewrite list_lookup_fmap, Ht.
Qed.

(** ** Undefined behaviour *)
Lemma push_free_defined c s ths g ls lf t p n q :
  inv s ths g ls lf -> ths !! t = Some p -> owned p = Some n -> push_free_node c s n q <> Undef.
Proof.
  intros Hinv Ht Ho. destruct (inv_owned _ _ _ _ _ _ _ n Hinv Ht Ho) as ([nd Hnd] & _).
  destruct q; cbn [push_free_node]; unfold store_next, deref; rewrite ?Hnd; cbn; try done. by case_match.
Qed.

Lemma bind_defined {A B} (m : outcome A) (f : A -> B) : m <> Undef -> (a ← m; Ret (f a)) <> Undef.
Proof. by destruct m. Qed.

Lemma push_defined c s ths g ls lf t q :
  inv s ths g ls lf -> ths !! t = Some (Pushing q) -> push c s q <> Undef.
Proof.
  intros Hinv Ht. pose proof (inv_threads _ _ _ _ _ Hinv _ _ Ht) as Hp.
  assert (forall n, owned (Pushing q) = Some n -> exists nd, store s !! n = Some nd) as Hown
    by (intros n Hn; by destruct (inv_owned _ _ _ _ _ _ _ n Hinv Ht Hn)).
  destruct q as [v q|v|v n|v n|v n q|n|n w|n w|]; cbn [push thread_inv owned] in *; unfold store_value, store_next, deref;
    try (destruct (Hown n) as [nd ->]; [done|]); try done.
  - destruct q as [|w|w nx|n]; cbn [pop_free_node pop_free_inv pop_free_owned] in *; unfold store_next, deref; [done| | |].
    + case_decide as Hw; [done|]. by destruct (snap_node _ _ _ _ _ Hp Hw) as [nd ->].
    + by case_match.
    + by destruct (Hown n) as [nd ->].
  - by case_match.
  - by case_match.
  - pose proof (push_free_defined c _ _ _ _ _ _ _ n q Hinv Ht eq_refl). by destruct push_free_node as [[]| | |].
  - by case_match.
Qed.

(** Every access of a pop is defined but the copy of the value. *)
Lemma try_pop_defined c s ths g ls lf t q :
  inv s ths g ls lf -> ths !! t = Some (Popping q) -> try_pop copyable moved_from c s q = Undef ->
  exists w nx nd, q = PopCopy w nx /\ store s !! unpack_ptr w = Some nd /\ value nd = None.
Proof.
  intros Hinv Ht. pose proof (inv_threads _ _ _ _ _ Hinv _ _ Ht) as Hp.
  assert (forall w k, unpack_ptr w <> 0 -> snap_top s g k w -> exists nd, store s !! unpack_ptr w = Some nd) as Hsn
    by (intros w k Hw Hs; by destruct (snap_node _ _ _ _ _ Hs Hw) as [nd Hnd]; exists nd).
  destruct q as [|w|w nx|w nx|w nx x|n|n x q|x]; cbn [try_pop thread_inv] in *; unfold store_value, deref; try done.
  - case_decide as Hw; [done|]. by destruct (Hsn _ _ Hw Hp) as [nd ->].
  - destruct Hp as [Hs [Hw _]]. by destruct (Hsn _ _ Hw Hs) as [nd ->].
  - destruct Hp as [Hs [Hw _]]. destruct (Hsn _ _ Hw Hs) as [nd Hnd]. rewrite Hnd. cbn.
    destruct (value nd) as [x|] eqn:Hx; [by destruct (throws c)|]. intros _. exists w, nx, nd. done.
  - destruct compare_exchange_weak; intros [=].
  - destruct (inv_owned _ _ _ _ _ _ _ n Hinv Ht eq_refl) as ([nd ->] & _). cbn. by destruct (value nd).
  - pose proof (push_free_defined c _ _ _ _ _ _ _ n q Hinv Ht eq_refl). by destruct push_free_node as [[]| | |].
Qed.

(** ** Destroying a quiescent stack *)
Lemma destroy_list_spec l : forall fuel (st : gmap Z (Node T)) w,
  chain st w l -> NoDup l -> (length l < fuel)%nat ->
  exists st', destroy_list fuel st w = Ret st' /\ dom st' = dom st ∖ list_to_set l /\
    forall a, a ∉ l -> st' !! a = st !! a.
Proof.
  induction l as [|a l IH]; intros [|fuel] st w; cbn [chain length destroy_list]; try lia.
  - intros -> _ _. rewrite decide_True by done. exists st. split; [done|]. split; [set_solver|done].
  - intros (-> & Ha & nd & Hnd & Hc) [Hal Hnd']%NoDup_cons Hlt. rewrite decide_False by done. rewrite Hnd.
    assert (forall b, b <> a -> delete a st !! b = st !! b) as Hne by (intros; by apply lookup_delete_ne).
    destruct (IH fuel (delete a st) (next nd)) as (st' & -> & Hd & Hs); [|done|lia|].
    + apply (stack_chain_frame st); [|done]. intros b Hb. apply Hne. by intros ->.
    + exists st'. split; [done|]. split; [rewrite Hd, dom_delete_L; set_solver|].
      intros b [Hb Hbl]%not_elem_of_cons. rewrite Hs by done. by apply Hne.
Qed.

Lemma omap_owned_idle ths : Forall (eq Idle) ths -> omap owned ths = [] /\ debt ths = 0.
Proof.
  assert (forall (q : pc T) qs, debt (q :: qs) = owed q + debt qs) as Hc by done.
  induction 1 as [|p ths <- _ [IH1 IH2]]; [done|]. by rewrite Hc, IH2.
Qed.

Lemma length_le_store s ths g ls lf :
  inv s ths g ls lf -> (length ls + length lf <= base.size (store s))%nat.
Proof.
  intros []. rewrite <- size_dom, inv_dom0, size_list_to_set by done. rewrite !length_app. lia.
Qed.

Lemma destroy_all_spec s ths g ls lf :
  inv s ths g ls lf -> Forall (eq Idle) ths -> destroy_all_nodes s = Ret ∅.
Proof.
  intros Hinv Hid. pose proof (length_le_store _ _ _ _ _ Hinv) as Hlen. destruct Hinv.
  destruct (omap_owned_idle ths Hid) as [Ho _]. rewrite Ho, app_nil_r in *.
  apply NoDup_app in inv_nodup0 as (Hnl & Hdis & Hnf). unfold destroy_all_nodes.
  destruct (destroy_list_spec ls (S (base.size (store s))) (store s) (top_ s)) as (st & -> & Hd & Hs); [done|done|lia|].
  ret_step.
  destruct (destroy_list_spec lf (S (base.size (store s))) st (free_head_ s)) as (st' & -> & Hd' & _); [|done|lia|].
  { apply (stack_chain_frame (store s)); [|done]. intros a Ha. apply Hs. intros Hl. by apply (Hdis a). }
  f_equal. apply dom_empty_inv_L. rewrite Hd', Hd, inv_dom0, list_to_set_app_L. set_solver.
Qed.
End simulation.

(** ** Schedules: executions computed from a list of choices *)
Section schedules.
Context {T : Type} (copyable : bool) (moved_from : T -> T).

#[global] Instance timely_dec t (p : pc T) g : Decision (timely t p g).
Proof. unfold timely. repeat case_match; apply _. Defined.
#[global] Instance alloc_ok_dec c (s : stack T) p : Decision (alloc_ok c s p).
Proof. unfold alloc_ok. repeat case_match; apply _. Defined.

(** Thread [t] calls an operation, or does its next access. *)
Definition sched (x : list event * sys (T := T) * ghost) (a : nat * (op T + choice)) : option (list event * sys * ghost) :=
  let '(evs, sy, g) := x in
  let '(t, a) := a in
  p ← threads sy !! t;
  match a, p with
  | inl o, Idle => Some (evs ++ [Call t o], mkSys (obj sy) (<[t := start o]> (threads sy)), advance t p (obj sy) (obj sy) g)
  | inl o, _ => None
  | inr c, _ =>
    if decide (timely t p g /\ alloc_ok c (obj sy) p) then
      match tstep copyable moved_from c (obj sy) p with
      | Ret (s', p', r) =>
        Some (evs ++ option_list (Return t <$> r), mkSys s' (<[t := p']> (threads sy)), advance t p (obj sy) s' g)
      | _ => None
      end
    else None
  end.

Definition run (n : nat) (sch : list (nat * (op T + choice))) : option (list event * sys * ghost) :=
  foldl (fun x a => x ≫= fun x => sched x a)
    (Some ([], mkSys new_stack (replicate n Idle), mkGhost 0 0 (fun _ => 0))) sch.

Lemma sched_exec n evs S g a evs' S' g' :
  exec copyable moved_from n evs S g -> sched (evs, S, g) a = Some (evs', S', g') ->
  exec copyable moved_from n evs' S' g'.
Proof.
  destruct a as [t a]. destruct S as [s ths]. intros He. cbn. destruct (ths !! t) as [p|] eqn:Ht; cbn; [|done].
  destruct a as [o|c].
  - destruct p; try done. intros [= <- <- <-].
    refine (exec_step _ _ n t Idle evs (mkSys s ths) g (Some (Call t o)) _ He Ht _ _); [done|by apply step_call].
  - case_decide as Hd; [|done]. destruct Hd as [Htm Hal].
    destruct tstep as [[[s' p'] r]|e| |] eqn:Hs; try done. intros [= <- <- <-].
    refine (exec_step _ _ n t p evs (mkSys s ths) g _ (mkSys s' _) He Ht Htm _). by eapply step_run.
Qed.

Lemma run_exec n sch evs S g : run n sch = Some (evs, S, g) -> exec copyable moved_from n evs S g.
Proof.
  unfold run. revert evs S g. induction sch as [|a sch IH] using rev_ind; intros evs S g.
  - intros [= <- <- <-]. apply exec_init.
  - rewrite foldl_app. cbn. destruct foldl as [[[evs0 S0] g0]|]; [|done]. cbn [mbind option_bind].
    apply sched_exec. by apply IH.
Qed.
End schedules.

(** ** Properties of the stack *)
Section properties.
Context {T : Type} (copyable : bool) (moved_from : T -> T).


Lemma chain_length_bound (s : stack T) ths g ls lf : inv s ths g ls lf -> Z.of_nat (length ls) < 2 ^ 48.
Proof.
  intros []. apply NoDup_app in inv_nodup0 as (Hnd & _).
  assert (ls ⊆+ seqZ 1 (2 ^ 48 - 1)) as Hsub.
  { apply NoDup_submseteq; [done|]. intros a Ha. apply elem_of_seqZ.
    destruct (elem_of_chain_dom _ _ _ _ inv_top0 Ha) as [nd Hnd'].
    pose proof (inv_addr0 a nd Hnd'). cbn beta in *. lia. }
  apply submseteq_length in Hsub. rewrite length_seqZ in Hsub. lia.
Qed.

(** when no call is in progress the counter is the number of elements, and
    the destructor deletes every node the stack ever allocated, each once. *)
Theorem treiber_quiescent n evs S g :
  exec copyable moved_from n evs S g -> Forall (eq Idle) (threads S) -> exists ls,
    chain (store (obj S)) (top_ (obj S)) ls /\
    size (obj S) = Z.of_nat (length ls) /\ (empty (obj S) = true <-> ls = []) /\
    destroy_all_nodes (obj S) = Ret ∅.
Proof.
  intros (ls & lf & Hinv & _)%exec_inv Hid. exists ls. split; [apply Hinv|].
  assert (size (obj S) = Z.of_nat (length ls)) as Hsz.
  { unfold size. rewrite (inv_size _ _ _ _ _ Hinv). destruct (omap_owned_idle _ Hid) as [_ ->].
    rewrite Z.sub_0_r. apply u64_small. pose proof (chain_length_bound _ _ _ _ _ Hinv). lia. }
  split; [done|]. split; [|by eapply destroy_all_spec].
  unfold empty, size in *. rewrite Hsz, bool_decide_eq_true. destruct ls; cbn; split; (done || lia).
Qed.

(** The copying accesses are reached for copyable types only. *)
Definition copies (p : pc T) : Prop :=
  match p with Popping (PopHasValue _ _) | Popping (PopCopy _ _) => True | _ => False end.

Lemma tstep_copies c s p s' p' r :
  tstep copyable moved_from c s p = Ret (s', p', r) -> copies p' -> copyable = true \/ copies p.
Proof.
  destruct p as [|q|q]; cbn [tstep]; [done| |].
  - by intros ([s1 [?|?]] & _ & [= _ <- _])%bind_Ret_inv.
  - intros ([s1 r1] & Hq & Hr)%bind_Ret_inv. destruct q; cbn [try_pop copies] in *; try by right.
    + by injection Hq as <- <-; injection Hr as <- <- <-.
    + case_decide; [by injection Hq as <- <-; injection Hr as <- <- <-|].
      apply bind_Ret_inv in Hq as (nd & _ & [= <- <-]). injection Hr as <- <- <-. destruct copyable; [by left|done].
    + destruct compare_exchange_weak; injection Hq as <- <-; injection Hr as <- <- <-; by destruct extracted_value.
    + apply bind_Ret_inv in Hq as (nd & _ & Hq). destruct (value nd).
      * apply bind_Ret_inv in Hq as (s2 & _ & [= <- <-]). by injection Hr as <- <- <-.
      * injection Hq as <- <-. by injection Hr as <- <- <-.
    + apply bind_Ret_inv in Hq as ([s2 r2] & _ & [= <- <-]). injection Hr as <- <- <-. by destruct r2, extracted_value.
    + by injection Hq as <- <-; injection Hr as <- <- <-.
Qed.

Lemma exec_copies n evs S g t p :
  exec copyable moved_from n evs S g -> threads S !! t = Some p -> copies p -> copyable = true.
Proof.
  intros He. revert t p. induction He as [|t0 p0 evs S g e S' _ IH Ht0 _ Hs]; intros t p; cbn.
  - by intros [-> _]%lookup_replicate.
  - destruct Hs as [s ths o _|s ths p1 c s' p' r Hp1 _ Hstep]; cbn [threads] in *;
      (destruct (decide (t = t0)) as [->|Hne];
        [rewrite list_lookup_insert_eq by (by eapply lookup_lt_Some); intros [= <-]
        |rewrite list_lookup_insert_ne by done; apply IH]).
    + by destruct o.
    + intros Hc. destruct (tstep_copies _ _ _ _ _ _ Hstep Hc); [done|by eapply IH].
Qed.

(** for a move-only element type no access of any thread is ever undefined
    (no dangling or null pointer, no empty optional); for a copyable one the only
    undefined access is the copy of an optional that another thread has emptied. *)
Theorem treiber_defined n evs S g t p c :
  exec copyable moved_from n evs S g -> threads S !! t = Some p -> p <> Idle ->
  tstep copyable moved_from c (obj S) p = Undef ->
  copyable = true /\ exists w nx nd, p = Popping (PopCopy w nx) /\
    store (obj S) !! unpack_ptr w = Some nd /\ value nd = None.
Proof.
  intros He Ht Hid Hu. pose proof (exec_copies _ _ _ _ _ _ He Ht) as Hcop.
  apply exec_inv in He as (ls & lf & Hinv & _). destruct p as [|q|q]; [done| |]; cbn [tstep] in Hu.
  - pose proof (push_defined c _ _ _ _ _ _ _ Hinv Ht). by destruct push as [[]| | |].
  - destruct (try_pop_defined copyable moved_from c _ _ _ _ _ _ _ Hinv Ht) as (w & nx & nd & -> & Hnd & Hv).
    { by destruct try_pop as [[]| | |]. }
    split; [by apply Hcop|]. by exists w, nx, nd.
Qed.

(** an operation retries only because another thread has succeeded: a
    compare-exchange that fails, but not spuriously, finds its word changed since
    the thread loaded it. *)
Theorem treiber_lock_free n evs S g t p c s' p' r w nx x :
  exec copyable moved_from n evs S g -> threads S !! t = Some p -> spurious c = false ->
  p = Pushing (PushCas nx w) \/ p = Popping (PopCas w nx x) ->
  tstep copyable moved_from c (obj S) p = Ret (s', p', r) ->
  top_ s' <> top_ (obj S) \/ seen g t < vtop g.
Proof.
  intros (ls & lf & Hinv & _)%exec_inv Ht Hsp Hp Hs. destruct (decide (seen g t = vtop g)) as [Hk|Hk].
  - left. pose proof (inv_threads _ _ _ _ _ Hinv _ _ Ht) as Hi.
    assert (snap_top (obj S) g (seen g t) w) as Hsn by (destruct Hp as [->| ->]; cbn in Hi; [|destruct x]; tauto).
    pose proof (snap_cur _ _ _ _ _ Hsn Hk) as ->.
    assert (forall d, 0 <= d < 2 ^ 48 ->
      pack_ptr d (u16 (unpack_tag (top_ (obj S)) + 1)) <> top_ (obj S)) as Hne.
    { intros d Hd. apply (tagged_succ_ne _ _ (vtop g)); [apply Hinv|]. apply pack_tagged; [done|apply Hinv]. }
    destruct Hp as [->| ->]; cbn in Hs; unfold compare_exchange_weak in Hs; rewrite decide_True in Hs by done;
      cbn in Hs; injection Hs as <- <- <-; apply Hne; [|apply unpack_ptr_range].
    destruct (inv_owned _ _ _ _ _ _ _ nx Hinv Ht eq_refl) as (_ & ? & _). lia.
  - right. pose proof (inv_threads _ _ _ _ _ Hinv _ _ Ht) as Hi.
    assert (snap_top (obj S) g (seen g t) w) as [Hle _ _ _] by (destruct Hp as [->| ->]; cbn in Hi; [|destruct x]; tauto).
    lia.
Qed.
End properties.

(** ** Concrete schedules: two threads on a stack of numbers *)
Definition go : choice := mkChoice false 0 false.
Definition accesses (t k : nat) : list (nat * (op nat + choice)) := replicate k (t, inr go).
Definition allocate (t : nat) (a : Z) : nat * (op nat + choice) := (t, inr (mkChoice false a false)).

(** Both threads push; the second overtakes the first, whose compare-exchange
    fails and succeeds when retried. *)
Definition contended_pushes : list (nat * (op nat + choice)) :=
  [(0%nat, inl (Push 7%nat))] ++ accesses 0 2 ++ [allocate 0 4096] ++ accesses 0 4 ++
  [(1%nat, inl (Push 8%nat))] ++ accesses 1 2 ++ [allocate 1 8192] ++ accesses 1 6 ++ accesses 0 4.

(** Then the first thread pops. *)
Definition pushes_and_pop : list (nat * (op nat + choice)) :=
  contended_pushes ++ [(0%nat, inl Pop)] ++ accesses 0 9.

Lemma pushes_and_pop_history :
  (fun x => fst (fst x)) <$> run true id 2 pushes_and_pop =
    Some [Call 0 (Push 7%nat); Call 1 (Push 8%nat); Return 1 Pushed; Return 0 Pushed;
      Call 0 Pop; Return 0 (Popped (Some 7%nat))].
Proof. vm_compute. reflexivity. Qed.


Lemma treiber_quiescent_witness :
  match run true id 2 pushes_and_pop with
  | Some (evs, sy, g) => exists ls,
    chain (store (obj sy)) (top_ (obj sy)) ls /\
    size (obj sy) = Z.of_nat (length ls) /\ (empty (obj sy) = true <-> ls = []) /\
    destroy_all_nodes (obj sy) = Ret ∅
  | None => False
  end.
Proof.
  destruct (run true id 2 pushes_and_pop) as [[[evs sy] g]|] eqn:E; [|vm_compute in E; discriminate].
  apply (treiber_quiescent true id 2 evs sy g); [by eapply run_exec|].
  vm_compute in E. injection E as <- <- <-. by repeat constructor.
Defined.

Lemma treiber_lock_free_witness :
  match run true id 2 (take 18 contended_pushes) with
  | Some (evs, sy, g) => exists s' p' r,
    tstep true id go (obj sy) (Pushing (PushCas 4096 0)) = Ret (s', p', r) /\
    (top_ s' <> top_ (obj sy) \/ seen g 0 < vtop g)
  | None => False
  end.
Proof.
  destruct (run true id 2 (take 18 contended_pushes)) as [[[evs sy] g]|] eqn:E; [|vm_compute in E; discriminate].
  pose proof (run_exec _ _ _ _ _ _ _ E) as He.
  assert (exists s' p' r, threads sy !! 0%nat = Some (Pushing (PushCas 4096 0)) /\
    tstep true id go (obj sy) (Pushing (PushCas 4096 0)) = Ret (s', p', r)) as (s' & p' & r & Hp & Hs).
  { vm_compute in E. injection E as <- <- <-. eexists _, _, _. split; vm_compute; reflexivity. }
  exists s', p', r. split; [exact Hs|].
  exact (treiber_lock_free true id 2 evs sy g 0 _ go s' p' r 0 4096 None He Hp eq_refl (or_introl eq_refl) Hs).
Defined.

(** A pop of a copyable type is overtaken between its test of the optional and its
    copy: the other thread pops the node, takes it from the pool and empties it. *)
Definition overtaken_copy : list (nat * (op nat + choice)) :=
  [(0%nat, inl (Push 7%nat))] ++ accesses 0 2 ++ [allocate 0 4096] ++ accesses 0 6 ++
  [(0%nat, inl Pop)] ++ accesses 0 3 ++
  [(1%nat, inl Pop)] ++ accesses 1 9 ++ [(1%nat, inl (Push 8%nat))] ++ accesses 1 5.

(** the defensive [has_value] check does not suffice: some schedule of two
    threads dereferences an empty optional. *)
Theorem treiber_copy_undefined : exists evs sy g p,
  exec true (@id nat) 2 evs sy g /\ threads sy !! 0%nat = Some p /\ tstep true id go (obj sy) p = Undef.
Proof.
  destruct (run true id 2 overtaken_copy) as [[[evs sy] g]|] eqn:E; [|vm_compute in E; discriminate].
  pose proof (run_exec _ _ _ _ _ _ _ E) as He. vm_compute in E. injection E as <- <- <-.
  eexists _, _, _, _. split; [exact He|]. split; [reflexivity|]. vm_compute. reflexivity.
Qed.

(** [treiber_defined] at the end of that schedule. *)
Lemma treiber_defined_witness :
  match run true id 2 overtaken_copy with
  | Some (evs, sy, g) => exists p w nx nd,
    threads sy !! 0%nat = Some p /\ p = Popping (PopCopy w nx) /\
    store (obj sy) !! unpack_ptr w = Some nd /\ value nd = None
  | None => False
  end.
Proof.
  destruct (run true id 2 overtaken_copy) as [[[evs sy] g]|] eqn:E; [|vm_compute in E; discriminate].
  pose proof (run_exec _ _ _ _ _ _ _ E) as He.
  assert (exists p, threads sy !! 0%nat = Some p /\ p <> Idle /\ tstep true id go (obj sy) p = Undef) as (p & Hp & Hi & Hu).
  { vm_compute in E. injection E as <- <- <-. eexists. split; [reflexivity|]. split; [done|]. vm_compute. reflexivity. }
  destruct (treiber_defined true id 2 evs sy g 0 p go He Hp Hi Hu) as (_ & w & nx & nd & Hd).
  exists p, w, nx, nd. split; [exact Hp|exact Hd].
Defined.
