(* ===== verification/Trie.v ===== *)
(** * Prefix tree ([data_structure/tree/multiway/Trie.hpp])

    A node maps characters to its children ([std::unordered_map]) and may end a
    key.  The map of children is an association list; the order in which it is
    iterated is unspecified in C++ and a parameter here.  The trie refines a
    finite map from strings, and erasing prunes every node below which no key is
    left. *)

From Stdlib Require Import Ascii.
From stdpp Require Import strings.
From S2P Require Import Prelude Refinement.

(** ** Association lists: the lookups of [std::unordered_map] *)
Lemma omap_pointwise {A B} (f g : A -> option B) (l : list A) : (forall x, f x = g x) -> omap f l = omap g l.
Proof. intros H. apply list_omap_ext. induction l; constructor; auto. Qed.

Section children.
Context {A : Type}.
Implicit Types (c : ascii) (cs : list (ascii * A)) (x : A).

Fixpoint child c cs : option A :=
  match cs with
  | [] => None
  | (c', x) :: cs => if decide (c = c') then Some x else child c cs
  end.

Fixpoint set_child c x cs : list (ascii * A) :=
  match cs with
  | [] => [(c, x)]
  | (c', x') :: cs => if decide (c = c') then (c', x) :: cs else (c', x') :: set_child c x cs
  end.

Definition del_child c cs : list (ascii * A) := filter (fun p => p.1 <> c) cs.

Lemma child_set c c' x cs : child c' (set_child c x cs) = if decide (c' = c) then Some x else child c' cs.
Proof. induction cs as [|[c1 x1] cs IH]; cbn; [done|]. repeat (case_decide; subst; cbn); try congruence; done. Qed.

Lemma elem_of_child c cs : c ∈ cs.*1 <-> is_Some (child c cs).
Proof.
  induction cs as [|[c1 x1] cs IH]; cbn; [rewrite elem_of_nil, is_Some_alt; done|].
  rewrite elem_of_cons, IH. case_decide; [split; [by eexists|by left]|]. naive_solver.
Qed.

Lemma child_None c cs : child c cs = None <-> c ∉ cs.*1.
Proof. rewrite elem_of_child. rewrite <- eq_None_not_Some. done. Qed.

Lemma NoDup_set_child c x cs : NoDup cs.*1 -> NoDup (set_child c x cs).*1.
Proof.
  induction cs as [|[c1 x1] cs IH]; cbn; [intros; apply NoDup_singleton|].
  case_decide as Hc; [done|]. intros [Hn Hnd]%NoDup_cons. apply NoDup_cons. split; [|by apply IH].
  rewrite elem_of_child, child_set. rewrite (decide_False (P := c1 = c)) by congruence. by rewrite <- elem_of_child.
Qed.

Lemma child_del c c' cs : child c' (del_child c cs) = if decide (c' = c) then None else child c' cs.
Proof.
  unfold del_child. induction cs as [|[c1 x1] cs IH]; [cbn; by case_decide|].
  rewrite filter_cons. cbn [fst child]. destruct (decide (c1 <> c)) as [Hc|Hc].
  - cbn [child]. rewrite IH. repeat case_decide; congruence.
  - rewrite IH. repeat case_decide; try done. naive_solver.
Qed.

Lemma NoDup_del_child c cs : NoDup cs.*1 -> NoDup (del_child c cs).*1.
Proof. intros Hnd. eapply sublist_NoDup; [exact Hnd|]. apply fmap_sublist, sublist_filter. Qed.

Lemma children_nil cs : (forall c, child c cs = None) -> cs = [].
Proof.
  destruct cs as [|[c x] cs]; [done|]. intros H. specialize (H c). cbn in H. by rewrite decide_True in H.
Qed.
End children.

(** [struct Node] *)
#[warnings="-register-all"]
Inductive Node (T : Type) := mkNode { children : list (ascii * Node T); value : T; isEnd : bool }.
Arguments mkNode {T} children value isEnd.
Arguments children {T} n.
Arguments value {T} n.
Arguments isEnd {T} n.

(** A moved-from trie has no root. *)
Record Trie (T : Type) := mkTrie { root_ : option (Node T); size_ : nat }.
Arguments mkTrie {T} root_ size_.
Arguments root_ {T} t.
Arguments size_ {T} t.

Section trie.
Context {T : Type} (T_default : T) (order : list ascii -> list ascii).
Implicit Types (n : Node T) (key prefix : list ascii) (v : T) (s : Trie T).

(** [std::make_unique<Node>()] *)
Definition new_node : Node T := mkNode [] T_default false.

Definition trie_new : Trie T := mkTrie (Some new_node) 0.

Definition deref s : outcome (Node T) := match root_ s with Some n => Ret n | None => Undef end.

(** [insert] below a node; whether the key is new. *)
Fixpoint insert_at n key v : bool * Node T :=
  match key with
  | [] => (negb (isEnd n), mkNode (children n) v true)
  | c :: key =>
    let ch := default new_node (child c (children n)) in
    let (fresh, ch) := insert_at ch key v in
    (fresh, mkNode (set_child c ch (children n)) (value n) (isEnd n))
  end.

Definition insert s key v : outcome (Trie T) :=
  n ← deref s;
  let (fresh, n) := insert_at n key v in
  Ret (mkTrie (Some n) (if fresh then S (size_ s) else size_ s)).

(** The walk of [find] and [startsWith] along a string. *)
Fixpoint walk n key : option (Node T) :=
  match key with
  | [] => Some n
  | c :: key => match child c (children n) with Some ch => walk ch key | None => None end
  end.

Definition find_at n key : option T :=
  match walk n key with Some n => if isEnd n then Some (value n) else None | None => None end.

Definition find s key : outcome (option T) := n ← deref s; Ret (find_at n key).

Definition contains s key : outcome bool := r ← find s key; Ret (bool_decide (is_Some r)).

(** Writing through the pointer [find] returns. *)
Fixpoint set_at n key v : Node T :=
  match key with
  | [] => mkNode (children n) v (isEnd n)
  | c :: key =>
    match child c (children n) with
    | Some ch => mkNode (set_child c (set_at ch key v) (children n)) (value n) (isEnd n)
    | None => n
    end
  end.

Definition find_assign s key v : outcome (bool * Trie T) :=
  n ← deref s;
  Ret (match find_at n key with
       | Some _ => (true, mkTrie (Some (set_at n key v)) (size_ s))
       | None => (false, s)
       end).

(** [eraseHelper]: whether the caller should prune the node, the node and the
    size left. *)
Fixpoint eraseHelper n key (size : nat) : bool * Node T * nat :=
  match key with
  | [] =>
    if negb (isEnd n) then (false, n, size)
    else (bool_decide (children n = []), mkNode (children n) (value n) false, size - 1)
  | c :: key =>
    match child c (children n) with
    | None => (false, n, size)
    | Some ch =>
      let '(shouldPruneChild, ch, size) := eraseHelper ch key size in
      if shouldPruneChild then
        let cs := del_child c (children n) in
        (negb (isEnd n) && bool_decide (cs = []), mkNode cs (value n) (isEnd n), size)
      else (false, mkNode (set_child c ch (children n)) (value n) (isEnd n), size)
    end
  end.

Definition erase s key : outcome (bool * Trie T) :=
  b ← contains s key;
  if negb b then Ret (false, s) else
  n ← deref s;
  let '(_, n, size) := eraseHelper n key (size_ s) in
  Ret (true, mkTrie (Some n) size).

(** [collectKeys], the children in the order of the iteration. *)
Fixpoint collectKeys n prefix : list (list ascii) :=
  match n with
  | mkNode cs _ e =>
    let collect := fix go (cs : list (ascii * Node T)) :=
      match cs with
      | [] => []
      | (c, ch) :: cs => (c, collectKeys ch (prefix ++ [c])) :: go cs
      end in
    (if e then [prefix] else []) ++ mjoin (omap (fun c => child c (collect cs)) (order cs.*1))
  end.

Definition startsWith s prefix : outcome (list (list ascii)) :=
  n ← deref s;
  Ret (match walk n prefix with Some n => collectKeys n prefix | None => [] end).

Definition keys s : outcome (list (list ascii)) := n ← deref s; Ret (collectKeys n []).

Definition values s : outcome (list T) :=
  keyList ← keys s; n ← deref s; Ret (omap (find_at n) (keyList : list (list ascii))).

Definition empty s : bool := bool_decide (size_ s = 0).
Definition size s : nat := size_ s.
Definition clear s : Trie T := trie_new.

(** The move constructor and assignment (from another trie). *)
Definition move (other : Trie T) : Trie T * Trie T := (mkTrie (root_ other) (size_ other), mkTrie None 0).

(** ** Well-formedness: distinct children, and a key below every child *)
Definition live n : Prop := isEnd n = true \/ children n <> [].

Inductive wf : Node T -> Prop :=
| wf_node cs v e :
  NoDup cs.*1 -> (forall c n, child c cs = Some n -> live n) -> (forall c n, child c cs = Some n -> wf n) ->
  wf (mkNode cs v e).

Lemma wf_new : wf new_node.
Proof. by constructor; [constructor| |]. Qed.

Lemma wf_set n c ch : wf n -> wf ch -> live ch -> wf (mkNode (set_child c ch (children n)) (value n) (isEnd n)).
Proof.
  destruct 1 as [cs v e Hnd Hl Hw]. intros Hch Hlive. cbn. constructor; [by apply NoDup_set_child| |];
    intros c' n'; rewrite child_set; case_decide; try (by intros [= <-]); eauto.
Qed.

Lemma wf_del n c : wf n -> wf (mkNode (del_child c (children n)) (value n) (isEnd n)).
Proof.
  destruct 1 as [cs v e Hnd Hl Hw]. cbn [children value isEnd]. constructor; [by apply NoDup_del_child| |];
    intros c' n'; rewrite child_del; case_decide; try done; eauto.
Qed.

Lemma wf_child n c ch : wf n -> child c (children n) = Some ch -> wf ch /\ live ch.
Proof. destruct 1; cbn; eauto. Qed.

Lemma set_child_not_nil {A} c (x : A) cs : set_child c x cs <> [].
Proof. destruct cs as [|[c' x'] cs]; cbn; [done|by case_decide]. Qed.

(** ** Lookups after the operations *)
Lemma find_at_cons n c key :
  find_at n (c :: key) = match child c (children n) with Some ch => find_at ch key | None => None end.
Proof. unfold find_at. cbn. by destruct (child c (children n)). Qed.

Lemma find_at_new key : find_at new_node key = None.
Proof. by destruct key. Qed.

Lemma insert_at_spec key v : forall n, wf n ->
  let (fresh, n') := insert_at n key v in
  wf n' /\ live n' /\ fresh = bool_decide (find_at n key = None) /\
  forall key', find_at n' key' = if decide (key = key') then Some v else find_at n key'.
Proof.
  induction key as [|c key IH]; intros n Hn; cbn [insert_at].
  - split; [by destruct Hn; constructor|]. split; [by left|]. split.
    + unfold find_at. cbn. by destruct (isEnd n).
    + intros [|c' key']; [done|]. rewrite decide_False by done. done.
  - assert (wf (default new_node (child c (children n)))) as Hch.
    { destruct (child c (children n)) as [ch|] eqn:E; cbn; [by eapply wf_child|apply wf_new]. }
    specialize (IH _ Hch). destruct (insert_at _ key v) as [fresh ch]. destruct IH as (Hw & Hl & Hf & Hs).
    assert (forall key', find_at (default new_node (child c (children n))) key' = find_at n (c :: key')) as Hd.
    { intros key'. rewrite find_at_cons. destruct (child c (children n)); [done|]. apply find_at_new. }
    split; [by apply wf_set|]. split; [right; apply set_child_not_nil|]. split; [by rewrite Hf, Hd|].
    intros [|c' key']; [done|]. rewrite find_at_cons. cbn [children]. rewrite child_set.
    destruct (decide (c' = c)) as [->|Hc].
    + rewrite Hs, Hd. destruct (decide (key = key')) as [->|Hk]; [by rewrite decide_True|].
      rewrite decide_False by congruence. done.
    + rewrite decide_False by congruence. by rewrite find_at_cons.
Qed.

Lemma set_at_spec key v : forall n, wf n -> is_Some (find_at n key) ->
  wf (set_at n key v) /\ (live n -> live (set_at n key v)) /\
  forall key', find_at (set_at n key v) key' = if decide (key = key') then Some v else find_at n key'.
Proof.
  induction key as [|c key IH]; intros n Hn Hk; cbn [set_at].
  - split; [by destruct Hn; constructor|]. split; [done|].
    intros [|c' key']; [|done]. unfold find_at in *. cbn in *. by destruct (isEnd n), Hk.
  - rewrite find_at_cons in Hk. destruct (child c (children n)) as [ch|] eqn:E; [|by destruct Hk].
    destruct (wf_child _ _ _ Hn E) as [Hch Hl]. destruct (IH ch Hch Hk) as (Hw & Hl' & Hs).
    split; [by apply wf_set; auto|]. split; [intros _; right; apply set_child_not_nil|].
    intros [|c' key']; [done|]. rewrite !find_at_cons. cbn [children]. rewrite child_set.
    destruct (decide (c' = c)) as [->|Hc].
    + rewrite Hs, E. repeat case_decide; congruence.
    + rewrite decide_False by congruence. done.
Qed.

Lemma eraseHelper_spec key size : forall n, wf n -> is_Some (find_at n key) ->
  let '(prune, n', size') := eraseHelper n key size in
  wf n' /\ size' = size - 1 /\ (if prune then isEnd n' = false /\ children n' = [] else live n') /\
  forall key', find_at n' key' = if decide (key = key') then None else find_at n key'.
Proof.
  induction key as [|c key IH]; intros n Hn Hk; cbn [eraseHelper].
  - unfold find_at in Hk. cbn in Hk. destruct (isEnd n) eqn:Ee; [cbn [negb]|by destruct Hk].
    split; [by destruct Hn; constructor|]. split; [done|]. split; [case_bool_decide; cbn; [done|by right]|].
    intros [|c' key']; [done|]. by rewrite decide_False.
  - rewrite find_at_cons in Hk. destruct (child c (children n)) as [ch|] eqn:E; [|by destruct Hk].
    destruct (wf_child _ _ _ Hn E) as [Hch Hl]. specialize (IH ch Hch Hk).
    destruct (eraseHelper ch key size) as [[prune ch'] size']. destruct IH as (Hw & -> & Hp & Hs).
    assert (forall cs, (forall c', child c' cs = if decide (c' = c) then (if prune then None else Some ch') else child c' (children n)) ->
      forall key', find_at (mkNode cs (value n) (isEnd n)) key' = if decide (c :: key = key') then None else find_at n key') as Hfind.
    { intros cs Hcs [|c' key']; [done|]. rewrite !find_at_cons. cbn [children]. rewrite Hcs.
      destruct (decide (c' = c)) as [->|Hc].
      - rewrite E. transitivity (find_at ch' key').
        + destruct prune; [|done]. destruct Hp as [He Hc]. unfold find_at.
          destruct key' as [|c1 key']; cbn; [by rewrite He|by rewrite Hc].
        + rewrite Hs. repeat case_decide; congruence.
      - rewrite decide_False by congruence. done. }
    destruct prune; cbn.
    + split; [by apply wf_del|]. split; [done|]. split.
      * destruct (isEnd n) eqn:Ee; cbn; [by left|]. case_bool_decide; [done|by right].
      * apply Hfind. intros c'. apply child_del.
    + split; [by apply wf_set|]. split; [done|]. split; [right; apply set_child_not_nil|].
      apply Hfind. intros c'. apply child_set.
Qed.

(** Below a live node there is a key. *)
Lemma live_key n : wf n -> live n -> exists key, is_Some (find_at n key).
Proof.
  induction 1 as [cs v e Hnd Hlive Hw IH]. intros [He|Hc]; cbn in *.
  - exists []. unfold find_at. cbn. rewrite He. by eexists.
  - destruct cs as [|[c ch] cs]; [done|].
    assert (child c ((c, ch) :: cs) = Some ch) as E by (cbn; by rewrite decide_True).
    destruct (IH c ch E (Hlive c ch E)) as [key Hkey]. exists (c :: key). rewrite find_at_cons. cbn [children]. by rewrite E.
Qed.

Lemma walk_app p : forall n q, walk n (p ++ q) = match walk n p with Some n' => walk n' q | None => None end.
Proof. induction p as [|c p IH]; intros n q; cbn; [done|]. destruct (child c (children n)); [apply IH|done]. Qed.

Lemma find_at_app n n' p key : walk n p = Some n' -> find_at n (p ++ key) = find_at n' key.
Proof. intros Hw. unfold find_at. by rewrite walk_app, Hw. Qed.

Lemma walk_wf p : forall n n', wf n -> walk n p = Some n' -> wf n' /\ (p <> [] -> live n').
Proof.
  induction p as [|c p IH]; intros n n' Hn; cbn; [by intros [= <-]|].
  destruct (child c (children n)) as [ch|] eqn:E; [|done]. destruct (wf_child _ _ _ Hn E) as [Hch Hl]. intros Hw.
  destruct (IH _ _ Hch Hw) as [Hn' Hl']. split; [done|]. intros _. destruct p; [by injection Hw as <-|by apply Hl'].
Qed.

(** ** The keys below a node *)
Hypothesis order_perm : forall l, order l ≡ₚ l.

(** The children's results, as [collectKeys] builds them. *)
Definition collect prefix (cs : list (ascii * Node T)) : list (ascii * list (list ascii)) :=
  (fun p => (p.1, collectKeys p.2 (prefix ++ [p.1]))) <$> cs.

Lemma collectKeys_unfold cs v e prefix :
  collectKeys (mkNode cs v e) prefix =
    (if e then [prefix] else []) ++ mjoin (omap (fun c => child c (collect prefix cs)) (order cs.*1)).
Proof.
  cbn [collectKeys]. f_equal. f_equal. apply omap_pointwise. intros c. f_equal.
  induction cs as [|[c1 ch] cs IH]; [done|]. cbn [collect fmap list_fmap fst snd]. f_equal. exact IH.
Qed.

Lemma child_collect prefix c cs :
  child c (collect prefix cs) = (fun ch => collectKeys ch (prefix ++ [c])) <$> child c cs.
Proof.
  induction cs as [|[c1 ch] cs IH]; [done|]. cbn. case_decide as Hc; [by subst|]. exact IH.
Qed.

Lemma elem_of_collectKeys n prefix key : wf n ->
  key ∈ collectKeys n prefix <-> exists suffix, key = prefix ++ suffix /\ is_Some (find_at n suffix).
Proof.
  intros Hn. revert prefix key. induction Hn as [cs v e Hnd Hlive Hw IH]. intros prefix key.
  rewrite collectKeys_unfold, elem_of_app, list_elem_of_join.
  setoid_rewrite list_elem_of_omap. setoid_rewrite child_collect. split.
  - intros [He|(l & Hl & c & Hc & Hch)].
    + destruct e; [|by apply elem_of_nil in He]. apply list_elem_of_singleton in He as ->.
      exists []. rewrite app_nil_r. split; [done|]. by eexists.
    + destruct (child c cs) as [ch|] eqn:E; [|done]. injection Hch as <-.
      apply (IH c ch E) in Hl as (suffix & -> & Hs). exists (c :: suffix). rewrite <- app_assoc. split; [done|].
      rewrite find_at_cons. cbn [children]. by rewrite E.
  - intros ([|c suffix] & -> & Hs).
    + left. rewrite app_nil_r. unfold find_at in Hs. cbn in Hs. destruct e; [by apply list_elem_of_singleton|by destruct Hs].
    + right. rewrite find_at_cons in Hs. cbn [children] in Hs. destruct (child c cs) as [ch|] eqn:E; [|by destruct Hs].
      exists (collectKeys ch (prefix ++ [c])). split.
      * apply (IH c ch E). exists suffix. by rewrite <- app_assoc.
      * exists c. rewrite E. split; [|done]. rewrite order_perm. apply elem_of_child. by eexists.
Qed.

Lemma NoDup_collectKeys n prefix : wf n -> NoDup (collectKeys n prefix).
Proof.
  intros Hn. revert prefix. induction Hn as [cs v e Hnd Hlive Hw IH]. intros prefix. rewrite collectKeys_unfold.
  assert (NoDup (order cs.*1)) as Ho by (by rewrite order_perm).
  assert (forall c ch key, child c cs = Some ch -> key ∈ collectKeys ch (prefix ++ [c]) -> exists q, key = prefix ++ c :: q) as Hpre.
  { intros c ch key E. rewrite elem_of_collectKeys by eauto. intros (q & -> & _). exists q. by rewrite <- app_assoc. }
  assert (forall l key, key ∈ mjoin (omap (fun c => child c (collect prefix cs)) l) -> exists c q, c ∈ l /\ key = prefix ++ c :: q) as Hcat.
  { intros l key. rewrite list_elem_of_join. setoid_rewrite list_elem_of_omap. setoid_rewrite child_collect.
    intros (ks & Hk & c & Hc & Hch). destruct (child c cs) as [ch|] eqn:E; [|done]. injection Hch as <-.
    destruct (Hpre _ _ _ E Hk) as [q ->]. by exists c, q. }
  apply NoDup_app. split; [destruct e; [apply NoDup_singleton|constructor]|]. split.
  - intros key Hk (c & q & _ & ->)%Hcat. destruct e; [|by apply elem_of_nil in Hk].
    apply list_elem_of_singleton in Hk. apply (f_equal length) in Hk. rewrite length_app in Hk. cbn in Hk. lia.
  - induction Ho as [|c l Hc Ho IHl]; [constructor|]. cbn. rewrite child_collect.
    destruct (child c cs) as [ch|] eqn:E; cbn; [|done]. apply NoDup_app. split; [by eapply IH|]. split; [|done].
    intros key Hk (c' & q' & Hc' & ->)%Hcat. destruct (Hpre _ _ _ E Hk) as [q Hq].
    apply (inj (prefix ++.)) in Hq. injection Hq as -> ->. done.
Qed.

(** ** Refinement of finite maps *)
Record trie_rep s (m : gmap (list ascii) T) : Prop := {
  rep_root : exists n, root_ s = Some n /\ wf n /\ forall key, find_at n key = m !! key;
  rep_size : size_ s = base.size m;
}.

Inductive trie_op :=
| TInsert key v
| TFind key
| TAssign key v
| TContains key
| TErase key
| TEmpty
| TSize
| TClear.

Definition trie_step s (o : trie_op) : outcome (Trie T * obs T) :=
  match o with
  | TInsert key v => s ← insert s key v; Ret (s, ODone)
  | TFind key => r ← find s key; Ret (s, OOpt r)
  | TAssign key v => '(b, s) ← find_assign s key v; Ret (s, OBool b)
  | TContains key => b ← contains s key; Ret (s, OBool b)
  | TErase key => '(b, s) ← erase s key; Ret (s, OBool b)
  | TEmpty => Ret (s, OBool (empty s))
  | TSize => Ret (s, ONum (size s))
  | TClear => Ret (clear s, ODone)
  end.

Definition trie_spec (m : gmap (list ascii) T) (o : trie_op) : outcome (gmap (list ascii) T * obs T) :=
  match o with
  | TInsert key v => Ret (<[key := v]> m, ODone)
  | TFind key => Ret (m, OOpt (m !! key))
  | TAssign key v => Ret (if m !! key is Some _ then (<[key := v]> m, OBool true) else (m, OBool false))
  | TContains key => Ret (m, OBool (bool_decide (is_Some (m !! key))))
  | TErase key => Ret (delete key m, OBool (bool_decide (is_Some (m !! key))))
  | TEmpty => Ret (m, OBool (bool_decide (m = ∅)))
  | TSize => Ret (m, ONum (base.size m))
  | TClear => Ret (∅, ODone)
  end.

Lemma trie_new_rep : trie_rep trie_new ∅.
Proof.
  split; [|by rewrite map_size_empty]. exists new_node. split; [done|]. split; [apply wf_new|].
  intros key. rewrite lookup_empty. apply find_at_new.
Qed.

#[global] Instance trie_simulates : Simulates trie_step trie_spec trie_rep.
Proof using.
  intros s m o [(n & Hr & Hn & Hf) Hsz]. destruct s as [r sz]. cbn in Hr, Hsz. subst r sz.
  destruct o as [key v|key|key v|key|key| | |]; cbn [trie_spec trie_step];
    unfold erase, contains, insert, find, find_assign, deref; cbn [root_ size_]; repeat ret_step.
  - pose proof (insert_at_spec key v n Hn) as Hi. destruct (insert_at n key v) as [fresh n'].
    destruct Hi as (Hw & _ & Hfresh & Hs). eexists. split; [reflexivity|]. split.
    + exists n'. split; [done|]. split; [done|]. intros key'. rewrite Hs, lookup_insert. case_decide; [done|apply Hf].
    + cbn. rewrite Hf in Hfresh. subst fresh. case_bool_decide as Hm; [by rewrite map_size_insert_None|].
      destruct (m !! key) as [v'|] eqn:E; [|done]. by rewrite map_size_insert_Some by (by eexists).
  - eexists. rewrite Hf. split; [reflexivity|]. split; [|done]. by exists n.
  - rewrite Hf. destruct (m !! key) as [v'|] eqn:E.
    + eexists. split; [reflexivity|]. destruct (set_at_spec key v n Hn) as (Hw & _ & Hs); [rewrite Hf, E; by eexists|].
      split; [|cbn; by rewrite map_size_insert_Some by (by eexists)].
      exists (set_at n key v). split; [done|]. split; [done|]. intros key'. rewrite Hs, lookup_insert. case_decide; [done|apply Hf].
    + eexists. split; [reflexivity|]. split; [|done]. by exists n.
  - eexists. rewrite Hf. split; [reflexivity|]. split; [|done]. by exists n.
  - rewrite Hf. case_bool_decide as Hm; cbn [negb].
    + pose proof (eraseHelper_spec key (base.size m) n Hn) as He. rewrite Hf in He. specialize (He Hm).
      destruct (eraseHelper n key (base.size m)) as [[prune n'] sz']. destruct He as (Hw & -> & _ & Hs).
      eexists. split; [reflexivity|]. split.
      * exists n'. split; [done|]. split; [done|]. intros key'. rewrite Hs, lookup_delete. case_decide; [done|apply Hf].
      * cbn. rewrite map_size_delete_Some by done. lia.
    + eexists. split; [reflexivity|]. rewrite delete_id by (by apply eq_None_not_Some). split; [|done]. by exists n.
  - exists (mkTrie (Some n) (base.size m)). split; [|split; [by exists n|done]]. unfold empty. cbn [size_].
    by rewrite (bool_decide_ext _ _ (map_size_empty_iff m)).
  - eexists. split; [reflexivity|]. split; [|done]. by exists n.
  - eexists. split; [reflexivity|]. apply trie_new_rep.
Qed.

(** ** Properties *)

(** C12: from the empty trie, every sequence of operations observes exactly what
    it observes on a finite map from strings, without reaching a null node; and
    every node but the root lies on the way to some key (erasing prunes the rest). *)
Theorem trie_refines ops :
  exists s m os, trace trie_spec ∅ ops = Ret (m, os) /\ trace trie_step trie_new ops = Ret (s, os) /\ trie_rep s m /\
    forall n p n', root_ s = Some n -> walk n p = Some n' -> p <> [] ->
      exists key, p `prefix_of` key /\ is_Some (m !! key).
Proof using.
  destruct (trace_refines_total (R := trie_rep) (step := trie_step) (spec := trie_spec) ops trie_new ∅)
    as (s & m & os & H1 & H2 & H3).
  - intros m o. destruct o; cbn; repeat case_match; done.
  - apply trie_new_rep.
  - exists s, m, os. split_and!; [done|done|done|]. intros n p n' Hroot Hw Hp.
    destruct H3 as [(n0 & Hr & Hn & Hf) _]. assert (n0 = n) as -> by congruence.
    destruct (walk_wf p n n' Hn Hw) as [Hn' Hl]. destruct (live_key n' Hn' (Hl Hp)) as [q Hq].
    exists (p ++ q). split; [by exists q|]. rewrite <- Hf. by rewrite (find_at_app n n').
Qed.

(** whatever the order the children are iterated in, [keys] lists every key
    once, [startsWith] every key with the prefix once, and [values] the values in
    the order of [keys]. *)
Theorem trie_keys_spec s m prefix :
  trie_rep s m ->
  (exists ks, keys s = Ret ks /\ ks ≡ₚ (map_to_list m).*1 /\ values s = Ret (omap (fun key => m !! key) ks)) /\
  (exists ks, startsWith s prefix = Ret ks /\ NoDup ks /\
     forall key, key ∈ ks <-> prefix `prefix_of` key /\ is_Some (m !! key)).
Proof.
  intros [(n & Hr & Hn & Hf) _]. unfold values, keys, startsWith, deref. rewrite Hr. repeat ret_step. split.
  - exists (collectKeys n []). split; [done|]. split.
    + apply NoDup_Permutation; [by apply NoDup_collectKeys|apply NoDup_fst_map_to_list|].
      intros key. rewrite elem_of_collectKeys by done. rewrite list_elem_of_fmap. split.
      * intros (q & -> & [v Hv]). exists (q, v). split; [done|]. apply elem_of_map_to_list. by rewrite <- Hf.
      * intros ([q v] & -> & Hv%elem_of_map_to_list). exists q. split; [done|]. rewrite Hf. by eexists.
    + f_equal. by apply omap_pointwise.
  - eexists. split; [reflexivity|]. destruct (walk n prefix) as [n'|] eqn:Hw.
    + destruct (walk_wf _ _ _ Hn Hw) as [Hn' _]. split; [by apply NoDup_collectKeys|].
      intros key. rewrite elem_of_collectKeys by done. split.
      * intros (q & -> & Hq). split; [by exists q|]. by rewrite <- Hf, (find_at_app n n').
      * intros [[q ->] Hq]. exists q. split; [done|]. by rewrite <- (find_at_app n n' prefix), Hf.
    + split; [constructor|]. intros key. rewrite elem_of_nil. split; [done|]. intros [[q ->] Hq].
      rewrite <- Hf in Hq. unfold find_at in Hq. rewrite walk_app, Hw in Hq. by destruct Hq.
Qed.
End trie.

Section trie_witnesses.
Local Open Scope char_scope.

Definition words : list (trie_op (T := nat)) :=
  [TInsert ["t"; "o"] 1; TInsert ["t"; "e"; "a"] 2; TInsert ["t"; "e"; "n"] 3; TInsert ["i"] 4; TErase ["t"; "o"];
   TFind ["t"; "e"; "a"]; TFind ["t"; "e"]; TErase ["t"; "e"]; TAssign ["i"] 5; TSize].

(** [trie_refines] on a run that prunes a node. *)
Example trie_refines_run :
  exists s, trace (trie_step 0) (trie_new 0) words =
    Ret (s, [inl ODone; inl ODone; inl ODone; inl ODone; inl (OBool true); inl (OOpt (Some 2)); inl (OOpt None);
      inl (OBool false); inl (OBool true); inl (ONum 3)]).
Proof.
  destruct (trie_refines 0 words) as (s & m & os & H1 & H2 & _ & _). vm_compute in H1.
  injection H1 as _ <-. exists s. exact H2.
Qed.

(** The keys, with an iteration order that is not the order of insertion. *)
Lemma trie_keys_witness :
  exists s m,
  (exists ks, keys (@rev ascii) s = Ret ks /\ ks ≡ₚ (map_to_list m).*1 /\
     values (@rev ascii) s = Ret (omap (fun key => m !! key) ks)) /\
  (exists ks, startsWith (@rev ascii) s ["t"; "e"] = Ret ks /\ NoDup ks /\
     forall key, key ∈ ks <-> ["t"; "e"] `prefix_of` key /\ is_Some (m !! key)) /\
  startsWith (@rev ascii) s ["t"; "e"] = Ret [["t"; "e"; "n"]; ["t"; "e"; "a"]] /\ m !! ["i"] = Some 5.
Proof.
  destruct (trace trie_spec (∅ : gmap (list ascii) nat) words) as [[m os]| | |] eqn:Hm; try (vm_compute in Hm; discriminate).
  destruct (trace_refines (R := trie_rep) (step := trie_step 0) (spec := trie_spec) words _ _ _ _ (trie_new_rep 0) Hm)
    as (s & Hs & Hr).
  destruct (trie_keys_spec (@rev ascii) (fun l => Permutation_sym (Permutation_rev l)) s m ["t"; "e"] Hr) as [H1 H2].
  exists s, m. split; [exact H1|]. split; [exact H2|]. vm_compute in Hm, Hs. injection Hm as <- _. injection Hs as <- _.
  split; vm_compute; reflexivity.
Defined.
End trie_witnesses.
