(* ===== verification/TopologicalSort.v ===== *)
(** * Topological sorting

    Models [data_structure/graph/algorithm/TopologicalSort.cc]: the depth-first
    [sort] and Kahn's [sortKahn].  The recursion of [dfsTopo] is as deep as there
    are nodes at most, and Kahn's loop runs once per node: the number of nodes
    plus one is enough fuel for both.  Both return a topological order of all the
    nodes or, exactly when the graph has a cycle, the flag and no order. *)

From stdpp Require Import relations.
From S2P Require Import Prelude Graph.
Local Open Scope Z_scope.

Record TopologicalSortResult := mkTopo { order : list Z; has_cycle : bool }.

Implicit Types (g : Graph) (u v : Z) (st ord : list Z).

(** ** Depth-first sort *)

(** The loop of [dfsTopo] over the edges of a node; [dfs] is the recursive call. *)
Fixpoint visit_edges (dfs : Z -> list Z -> list Z -> outcome (bool * list Z * list Z))
    (edges : list Edge) st ord : outcome (bool * list Z * list Z) :=
  match edges with
  | [] => Ret (true, st, ord)
  | e :: edges =>
    let v := to_ e in
    sv ← vgetz st v;
    if decide (sv = 1) then Ret (false, st, ord) else
    if decide (sv = 0) then
      '(ok, st, ord) ← dfs v st ord;
      if negb ok then Ret (false, st, ord) else visit_edges dfs edges st ord
    else visit_edges dfs edges st ord
  end.

Fixpoint dfsTopo (fuel : nat) g u st ord : outcome (bool * list Z * list Z) :=
  match fuel with
  | O => NoFuel
  | S fuel =>
    st ← vsetz st u 1;
    edges ← getAdjList g u;
    '(ok, st, ord) ← visit_edges (dfsTopo fuel g) edges st ord;
    if negb ok then Ret (false, st, ord) else
    st ← vsetz st u 2;
    Ret (true, st, ord ++ [u])
  end.

Fixpoint sort_loop g (todo : list Z) st ord : outcome TopologicalSortResult :=
  match todo with
  | [] => Ret (mkTopo (rev ord) false)
  | i :: todo =>
    si ← vgetz st i;
    if decide (si = 0) then
      '(ok, st, ord) ← dfsTopo (S (Z.to_nat (getNodeCount g))) g i st ord;
      if negb ok then Ret (mkTopo [] true) else sort_loop g todo st ord
    else sort_loop g todo st ord
  end.

Definition sort g : outcome TopologicalSortResult :=
  let n := getNodeCount g in
  sort_loop g (seqZ 0 n) (replicate (Z.to_nat n) 0) [].

(** ** Kahn's algorithm *)
Fixpoint count_edges (edges : list Edge) (in_degree : list Z) : outcome (list Z) :=
  match edges with
  | [] => Ret in_degree
  | e :: edges =>
    d ← vgetz in_degree (to_ e);
    d ← add32 d 1;
    in_degree ← vsetz in_degree (to_ e) d;
    count_edges edges in_degree
  end.

Fixpoint count_in_degrees g (us : list Z) (in_degree : list Z) : outcome (list Z) :=
  match us with
  | [] => Ret in_degree
  | u :: us =>
    edges ← getAdjList g u; in_degree ← count_edges edges in_degree; count_in_degrees g us in_degree
  end.

Fixpoint queue_sources (todo : list Z) (in_degree : list Z) (q : list Z) : outcome (list Z) :=
  match todo with
  | [] => Ret q
  | i :: todo =>
    d ← vgetz in_degree i;
    queue_sources todo in_degree (if decide (d = 0) then q ++ [i] else q)
  end.

Fixpoint remove_edges (edges : list Edge) (in_degree : list Z) (q : list Z) : outcome (list Z * list Z) :=
  match edges with
  | [] => Ret (in_degree, q)
  | e :: edges =>
    let v := to_ e in
    d ← vgetz in_degree v;
    d ← add32 d (-1);
    in_degree ← vsetz in_degree v d;
    remove_edges edges in_degree (if decide (d = 0) then q ++ [v] else q)
  end.

Fixpoint kahn_loop (fuel : nat) g (in_degree q ord : list Z) (visited_count : Z) : outcome (list Z * Z) :=
  match fuel with
  | O => NoFuel
  | S fuel =>
    match q with
    | [] => Ret (ord, visited_count)
    | u :: q =>
      visited_count ← add32 visited_count 1;
      edges ← getAdjList g u;
      '(in_degree, q) ← remove_edges edges in_degree q;
      kahn_loop fuel g in_degree q (ord ++ [u]) visited_count
    end
  end.

Definition sortKahn g : outcome TopologicalSortResult :=
  let n := getNodeCount g in
  in_degree ← count_in_degrees g (seqZ 0 n) (replicate (Z.to_nat n) 0);
  q ← queue_sources (seqZ 0 n) in_degree [];
  '(ord, visited_count) ← kahn_loop (S (Z.to_nat n)) g in_degree q [] 0;
  Ret (if decide (visited_count = n) then mkTopo ord false else mkTopo [] true).

(** ** Topological orders *)
Definition nodes g : list Z := seqZ 0 (num_nodes_ g).

Definition cyclic g : Prop := exists v, tc (edge g) v v.

(** Every edge leads forward. *)
Definition topological_order g (l : list Z) : Prop :=
  l ≡ₚ nodes g /\ forall l1 u l2 v, l = l1 ++ u :: l2 -> edge g u v -> v ∈ l2.

(** Every edge leads backward: the order in which nodes are finished. *)
Definition post_order g (l : list Z) : Prop :=
  forall l1 u l2 v, l = l1 ++ u :: l2 -> edge g u v -> v ∈ l1.

(** What both functions promise. *)
Definition sort_result g (r : TopologicalSortResult) : Prop :=
  if has_cycle r then order r = [] /\ cyclic g else topological_order g (order r) /\ ~ cyclic g.

Lemma elem_of_nodes g v : v ∈ nodes g <-> node g v.
Proof. unfold nodes, node. rewrite elem_of_seqZ. lia. Qed.

Lemma topological_acyclic g l : topological_order g l -> ~ cyclic g.
Proof.
  intros [Hp Ht] [v Hv].
  assert (NoDup l) as Hnd by (rewrite Hp; apply NoDup_seqZ).
  assert (forall u w, tc (edge g) u w -> forall l1 l2, l = l1 ++ u :: l2 -> w ∈ l2) as Hfwd.
  { induction 1 as [u w He|u w x He _ IH]; intros l1 l2 Hl; [by apply (Ht l1 u)|].
    assert (w ∈ l2) as (a & b & ->)%list_elem_of_split by (by apply (Ht l1 u)).
    apply elem_of_app. right. apply elem_of_cons. right. apply (IH (l1 ++ u :: a)). by rewrite Hl, <- app_assoc. }
  assert (v ∈ l) as (l1 & l2 & ->)%list_elem_of_split.
  { rewrite Hp, elem_of_nodes. assert (forall u w, tc (edge g) u w -> node g u) as Hn; [|by eapply Hn].
    by destruct 1 as [u w [Hu _]|u w x [Hu _] _]. }
  specialize (Hfwd _ _ Hv l1 l2 eq_refl).
  apply NoDup_app in Hnd as (_ & _ & [Hn _]%NoDup_cons). done.
Qed.

Lemma post_order_rev g l : l ≡ₚ nodes g -> post_order g l -> topological_order g (rev l).
Proof.
  intros Hp Hpost. split; [by rewrite <- Permutation_rev|].
  intros l1 u l2 v Hl He. apply (f_equal (@rev _)) in Hl. rewrite rev_involutive, rev_app_distr in Hl. cbn in Hl.
  rewrite <- app_assoc in Hl. cbn in Hl. specialize (Hpost _ _ _ v Hl He). by rewrite <- Permutation_rev in Hpost.
Qed.

Lemma post_order_snoc g l u : post_order g l -> (forall v, edge g u v -> v ∈ l) -> post_order g (l ++ [u]).
Proof.
  intros Hl Hu l1 w l2 v Heq He. destruct l2 as [|x l2 _] using rev_ind.
  - apply app_inj_tail in Heq as [<- <-]. by apply Hu.
  - rewrite app_comm_cons, app_assoc in Heq. apply app_inj_tail in Heq as [-> _]. by apply (Hl l1 w l2).
Qed.

(** ** The depth-first search *)
Definition state_of st v : Z := default 0 (st !! Z.to_nat v).

Section dfs.
Context (g : Graph) (Hwf : wf_graph g).

(** [gs] are the nodes in progress, [ord] the finished ones. *)
Record dfs_inv st (gs ord : list Z) : Prop := {
  di_len : length st = length (adj_list_ g);
  di_state : forall v, node g v -> state_of st v = 0 \/ state_of st v = 1 \/ state_of st v = 2;
  di_gray : forall v, node g v -> state_of st v = 1 <-> v ∈ gs;
  di_black : forall v, node g v -> state_of st v = 2 <-> v ∈ ord;
  di_gs : NoDup gs /\ Forall (node g) gs;
  di_ord : NoDup ord /\ Forall (node g) ord;
  di_post : post_order g ord;
}.

Lemma state_ok st gs ord v : dfs_inv st gs ord -> node g v -> vgetz st v = Ret (state_of st v).
Proof.
  intros Hi Hv. unfold node in Hv. destruct (lookup_z st v) as [x Hx].
  { rewrite (di_len _ _ _ Hi), <- (wf_nodes _ Hwf). lia. }
  unfold state_of. rewrite Hx. by apply vgetz_Some; [lia|].
Qed.

Lemma state_set st u x v : length st = length (adj_list_ g) -> node g u -> node g v ->
  state_of (<[Z.to_nat u := x]> st) v = if decide (v = u) then x else state_of st v.
Proof.
  intros Hlen Hu Hv. unfold state_of, node in *. pose proof (wf_nodes _ Hwf). destruct (decide (v = u)) as [->|Hne].
  - rewrite list_lookup_insert_eq by lia. done.
  - by rewrite list_lookup_insert_ne by lia.
Qed.

Lemma set_ok st u x : length st = length (adj_list_ g) -> node g u -> vsetz st u x = Ret (<[Z.to_nat u := x]> st).
Proof. intros Hlen Hu. unfold node in Hu. apply vsetz_lt. rewrite Hlen, <- (wf_nodes _ Hwf). lia. Qed.

Lemma length_nodes (l : list Z) : NoDup l -> Forall (node g) l -> (length l <= length (adj_list_ g))%nat.
Proof.
  intros Hnd Hl. assert (l ⊆+ nodes g) as Hs.
  { apply NoDup_submseteq; [done|]. intros v Hv. apply elem_of_nodes. by eapply Forall_forall. }
  apply submseteq_length in Hs. unfold nodes in Hs. rewrite length_seqZ in Hs. pose proof (wf_nodes _ Hwf). lia.
Qed.

(** A white node turns gray. *)
Lemma dfs_enter st gs ord u :
  dfs_inv st gs ord -> node g u -> state_of st u = 0 -> dfs_inv (<[Z.to_nat u := 1]> st) (u :: gs) ord.
Proof.
  intros Hi Hu Hs. assert (u ∉ gs) as Hg by (rewrite <- (di_gray _ _ _ Hi u Hu); lia).
  assert (u ∉ ord) as Ho by (rewrite <- (di_black _ _ _ Hi u Hu); lia).
  pose proof (di_len _ _ _ Hi) as Hl. split; try apply Hi.
  - by rewrite length_insert.
  - intros v Hv. rewrite state_set by done. case_decide; [lia|by apply (di_state _ _ _ Hi)].
  - intros v Hv. rewrite state_set, elem_of_cons by done. case_decide; [tauto|]. rewrite (di_gray _ _ _ Hi v Hv). tauto.
  - intros v Hv. rewrite state_set by done. case_decide as Hc; [subst; split; [lia|done]|by apply (di_black _ _ _ Hi)].
  - destruct (di_gs _ _ _ Hi). split; by constructor.
Qed.

(** The node that entered last is finished. *)
Lemma dfs_leave st gs ord u :
  dfs_inv st (u :: gs) ord -> (forall v, edge g u v -> v ∈ ord) ->
  dfs_inv (<[Z.to_nat u := 2]> st) gs (ord ++ [u]).
Proof.
  intros Hi He. destruct (di_gs _ _ _ Hi) as [[Hg Hnd]%NoDup_cons [Hu Hgs]%Forall_cons].
  pose proof (di_len _ _ _ Hi) as Hl.
  assert (u ∉ ord) as Ho.
  { rewrite <- (di_black _ _ _ Hi u Hu). rewrite (proj2 (di_gray _ _ _ Hi u Hu)) by apply list_elem_of_here. lia. }
  split.
  - by rewrite length_insert.
  - intros v Hv. rewrite state_set by done. case_decide; [lia|by apply (di_state _ _ _ Hi)].
  - intros v Hv. rewrite state_set by done. case_decide as Hc; [subst; split; [lia|done]|].
    rewrite (di_gray _ _ _ Hi v Hv), elem_of_cons. tauto.
  - intros v Hv. rewrite state_set, elem_of_app, list_elem_of_singleton by done.
    case_decide; [tauto|]. rewrite (di_black _ _ _ Hi v Hv). tauto.
  - done.
  - destruct (di_ord _ _ _ Hi) as [Hn Hf]. split; [|by apply Forall_app; split; [|apply Forall_singleton]].
    apply NoDup_app. split; [done|]. split; [|apply NoDup_singleton]. intros v Hv ->%list_elem_of_singleton. done.
  - apply post_order_snoc; [apply Hi|done].
Qed.

(** The contract of the search from a white node, and of its loop. *)
Definition dfs_ok (gs : list Z) ord u (ok : bool) st' ord' : Prop :=
  if ok then dfs_inv st' gs ord' /\ u ∈ ord' /\ ord ⊆ ord' else cyclic g.

Definition dfs_contract (dfs : Z -> list Z -> list Z -> outcome (bool * list Z * list Z)) (gs : list Z) : Prop :=
  forall u st ord, dfs_inv st gs ord -> node g u -> state_of st u = 0 -> (forall w, w ∈ gs -> tc (edge g) w u) ->
    exists ok st' ord', dfs u st ord = Ret (ok, st', ord') /\ dfs_ok gs ord u ok st' ord'.

Lemma visit_edges_spec dfs gs u edges : forall st ord,
  dfs_contract dfs (u :: gs) -> dfs_inv st (u :: gs) ord -> node g u ->
  (forall w, w ∈ gs -> tc (edge g) w u) -> Forall (fun e => edge g u (to_ e)) edges ->
  exists ok st' ord', visit_edges dfs edges st ord = Ret (ok, st', ord') /\
    if ok then dfs_inv st' (u :: gs) ord' /\ ord ⊆ ord' /\ Forall (fun e => to_ e ∈ ord') edges else cyclic g.
Proof.
  induction edges as [|e edges IH]; intros st ord Hdfs Hi Hu Hgs Hes; cbn [visit_edges].
  { exists true, st, ord. split; [done|]. split; [done|]. split; [done|constructor]. }
  apply Forall_cons in Hes as [He Hes]. destruct (edge_node g _ _ Hwf He) as [_ Hv].
  assert (forall w, w ∈ u :: gs -> tc (edge g) w (to_ e)) as Hpath.
  { intros w [->|Hw]%elem_of_cons; [by apply tc_once|]. eapply tc_r; [by apply Hgs|done]. }
  rewrite (state_ok _ _ _ _ Hi Hv). ret_step. case_decide as H1.
  { exists false, st, ord. split; [done|]. exists (to_ e). apply Hpath. by apply (di_gray _ _ _ Hi). }
  case_decide as H0.
  - destruct (Hdfs (to_ e) st ord Hi Hv H0 Hpath) as (ok & st1 & ord1 & -> & Hok). ret_step. destruct ok; cbn [negb].
    + destruct Hok as (Hi1 & Hin & Hsub).
      destruct (IH st1 ord1 Hdfs Hi1 Hu Hgs Hes) as (ok & st' & ord' & -> & Hok). exists ok, st', ord'. split; [done|].
      destruct ok; [|done]. destruct Hok as (Hi' & Hsub' & Hall). split; [done|]. split; [set_solver|]. constructor; [set_solver|done].
    + exists false, st1, ord1. done.
  - assert (state_of st (to_ e) = 2) as H2 by (destruct (di_state _ _ _ Hi _ Hv) as [?|[?|?]]; done).
    apply (di_black _ _ _ Hi _ Hv) in H2.
    destruct (IH st ord Hdfs Hi Hu Hgs Hes) as (ok & st' & ord' & -> & Hok). exists ok, st', ord'. split; [done|].
    destruct ok; [|done]. destruct Hok as (Hi' & Hsub' & Hall). split; [done|]. split; [done|]. constructor; [set_solver|done].
Qed.

Lemma dfsTopo_spec fuel : forall gs, (length (adj_list_ g) < fuel + length gs)%nat -> dfs_contract (dfsTopo fuel g) gs.
Proof.
  induction fuel as [|fuel IH]; intros gs Hfuel u st ord Hi Hu Hs Hgs.
  { destruct (di_gs _ _ _ Hi) as [Hn Hf]. pose proof (length_nodes gs Hn Hf). lia. }
  pose proof (dfs_enter _ _ _ _ Hi Hu Hs) as Hi1. cbn [dfsTopo].
  rewrite (set_ok _ _ _ (di_len _ _ _ Hi) Hu). ret_step.
  destruct (adj_ok g u Hwf Hu) as [_ ->]. ret_step.
  assert (Forall (fun e => edge g u (to_ e)) (adj g u)) as Hes.
  { apply Forall_forall. intros e He. split; [done|]. apply list_elem_of_fmap. by exists e. }
  destruct (visit_edges_spec (dfsTopo fuel g) gs u (adj g u) (<[Z.to_nat u := 1]> st) ord) as (ok & st' & ord' & -> & Hok);
    [apply IH; cbn [length]; lia|done|done|done|done|].
  ret_step. destruct ok; cbn [negb]; [|by exists false, st', ord'].
  destruct Hok as (Hi' & Hsub & Hall). rewrite (set_ok _ _ _ (di_len _ _ _ Hi') Hu). ret_step.
  eexists true, _, _. split; [done|]. split; [|split; [set_solver|set_solver]].
  apply dfs_leave; [done|]. intros v [_ (e & -> & He)%list_elem_of_fmap]. rewrite Forall_forall in Hall. by apply Hall.
Qed.

Lemma sort_loop_spec todo : forall st ord, dfs_inv st [] ord -> Forall (node g) todo ->
  (forall v, node g v -> v ∈ ord \/ v ∈ todo) -> exists r, sort_loop g todo st ord = Ret r /\ sort_result g r.
Proof.
  induction todo as [|i todo IH]; intros st ord Hi Htodo Hall; cbn [sort_loop].
  - eexists. split; [done|]. unfold sort_result. cbn. destruct (di_ord _ _ _ Hi) as [Hn Hf]. rewrite Forall_forall in Hf.
    assert (topological_order g (rev ord)) as Ht.
    { apply post_order_rev; [|apply Hi]. apply NoDup_Permutation; [done|apply NoDup_seqZ|].
      intros v. rewrite elem_of_nodes. split; [apply Hf|]. intros Hv. destruct (Hall v Hv) as [?|Hin]; [done|by apply elem_of_nil in Hin]. }
    split; [done|by eapply topological_acyclic].
  - apply Forall_cons in Htodo as [Hv Htodo]. rewrite (state_ok _ _ _ _ Hi Hv). ret_step. case_decide as H0.
    + destruct (dfsTopo_spec (S (Z.to_nat (num_nodes_ g))) [] ltac:(rewrite (wf_nodes _ Hwf); cbn; lia) i st ord Hi Hv H0)
        as (ok & st' & ord' & Hd & Hok); [by intros w ?%elem_of_nil|].
      unfold getNodeCount. rewrite Hd. ret_step. destruct ok; cbn [negb].
      * destruct Hok as (Hi' & Hin & Hsub). apply IH; [done|done|]. intros v Hv'.
        destruct (Hall v Hv') as [?|[->|?]%elem_of_cons]; auto.
      * eexists. split; [done|]. by split.
    + apply IH; [done|done|]. intros v Hv'. destruct (Hall v Hv') as [?|[->|?]%elem_of_cons]; auto.
      left. apply (di_black _ _ _ Hi _ Hv). destruct (di_state _ _ _ Hi _ Hv) as [?|[Hg|?]]; [done| |done].
      apply (di_gray _ _ _ Hi _ Hv) in Hg. by apply elem_of_nil in Hg.
Qed.

Lemma sort_ok : exists r, sort g = Ret r /\ sort_result g r.
Proof.
  pose proof (wf_nodes _ Hwf) as Hn. unfold sort, getNodeCount. apply sort_loop_spec.
  - assert (forall v, state_of (replicate (Z.to_nat (num_nodes_ g)) 0) v = 0) as Hz.
    { intros v. unfold state_of. destruct (_ !! _) eqn:E; [|done]. by apply lookup_replicate in E as [-> _]. }
    split; try (intros v Hv; rewrite Hz).
    + rewrite length_replicate. lia.
    + by left.
    + rewrite elem_of_nil. lia.
    + rewrite elem_of_nil. lia.
    + split; constructor.
    + split; constructor.
    + intros l1 u l2 v Hl. by destruct l1.
  - apply Forall_forall. intros v. apply elem_of_nodes.
  - intros v Hv. right. by apply elem_of_nodes.
Qed.
End dfs.

(** ** Kahn's algorithm: counting the edges that are left *)
Definition occ v (l : list Z) : Z := Z.of_nat (length (filter (fun w => w = v) l)).

Lemma occ_app v l1 l2 : occ v (l1 ++ l2) = occ v l1 + occ v l2.
Proof. unfold occ. rewrite filter_app, length_app. lia. Qed.

Lemma occ_cons v w l : occ v (w :: l) = (if decide (w = v) then 1 else 0) + occ v l.
Proof. unfold occ. rewrite filter_cons. case_decide; cbn [length]; lia. Qed.

Lemma occ_one v w : occ v [w] = if decide (w = v) then 1 else 0.
Proof. rewrite occ_cons. change (occ v []) with 0. lia. Qed.

Lemma occ_le v l : 0 <= occ v l <= Z.of_nat (length l).
Proof. unfold occ. pose proof (length_filter (fun w => w = v) l). lia. Qed.

Lemma occ_pos v l : 0 < occ v l <-> v ∈ l.
Proof.
  unfold occ. split.
  - destruct (filter (fun w => w = v) l) as [|w k] eqn:E; cbn; [lia|]. intros _.
    assert (w ∈ filter (fun w => w = v) l) as [-> ?]%list_elem_of_filter by (rewrite E; apply list_elem_of_here). done.
  - intros Hv. assert (v ∈ filter (fun w => w = v) l) as Hf by (by apply list_elem_of_filter).
    destruct (filter _ l); [by apply elem_of_nil in Hf|cbn; lia].
Qed.

#[global] Instance occ_proper v : Proper (Permutation ==> eq) (occ v).
Proof. intros l l' H. unfold occ. by rewrite H. Qed.

(** Before every element come all the sources of its edges. *)
Definition pre_order g (l : list Z) : Prop :=
  forall l1 u l2 w, l = l1 ++ u :: l2 -> edge g w u -> w ∈ l1.

Lemma pre_order_snoc g l u : pre_order g l -> (forall w, edge g w u -> w ∈ l) -> pre_order g (l ++ [u]).
Proof.
  intros Hl Hu l1 v l2 w Heq He. destruct l2 as [|x l2 _] using rev_ind.
  - apply app_inj_tail in Heq as [<- <-]. by apply Hu.
  - rewrite app_comm_cons, app_assoc in Heq. apply app_inj_tail in Heq as [-> _]. by apply (Hl l1 v l2).
Qed.

Lemma pre_order_topological g l : wf_graph g -> l ≡ₚ nodes g -> pre_order g l -> topological_order g l.
Proof.
  intros Hwf Hp Hpre. split; [done|]. intros l1 u l2 v Hl He.
  assert (NoDup l) as Hnd by (rewrite Hp; apply NoDup_seqZ). rewrite Hl in Hnd.
  apply NoDup_app in Hnd as (_ & Hdis & _).
  assert (v ∈ l) as Hv by (rewrite Hp; apply elem_of_nodes; by eapply edge_node).
  rewrite Hl in Hv. apply elem_of_app in Hv as [(a & b & ->)%list_elem_of_split|[->|Hv]%elem_of_cons]; [| |done]; exfalso.
  - assert (u ∈ a) as Hu. { apply (Hpre a v (b ++ u :: l2)); [|done]. by rewrite Hl, <- app_assoc. }
    apply (Hdis u); [apply elem_of_app; by left|apply list_elem_of_here].
  - apply (Hdis u); [by apply (Hpre l1 u l2)|apply list_elem_of_here].
Qed.

Section kahn.
Context (g : Graph) (Hwf : wf_graph g).

Definition targets (us : list Z) : list Z := us ≫= fun u => to_ <$> adj g u.

Lemma targets_edges us v : v ∈ targets us <-> exists u, u ∈ us /\ v ∈ (to_ <$> adj g u).
Proof. unfold targets. rewrite list_elem_of_bind. naive_solver. Qed.

Lemma adj_nodes u e : node g u -> e ∈ adj g u -> node g (to_ e).
Proof using Hwf.
  intros Hu He. apply (edge_node g u); [done|]. split; [done|]. apply list_elem_of_fmap. by exists e.
Qed.

Lemma length_targets : Z.of_nat (length (targets (nodes g))) = edge_count_ g.
Proof using Hwf.
  rewrite (wf_count _ Hwf). f_equal.
  assert (adj g <$> nodes g = adj_list_ g) as Ha.
  { apply list_eq. intros i. rewrite list_lookup_fmap. unfold nodes. pose proof (wf_nodes _ Hwf) as Hn.
    destruct (decide (i < length (adj_list_ g))%nat) as [Hi|Hi].
    - rewrite lookup_seqZ_lt by lia. cbn. destruct (lookup_lt_is_Some_2 _ _ Hi) as [es Hes].
      unfold adj. replace (Z.to_nat (0 + Z.of_nat i)) with i by lia. by rewrite Hes.
    - rewrite lookup_seqZ_ge by lia. by rewrite lookup_ge_None_2 by lia. }
  rewrite <- Ha. clear Ha. unfold targets. induction (nodes g) as [|u us IH]; [done|].
  cbn. rewrite !length_app, length_fmap. f_equal. exact IH.
Qed.

(** [d] counts, for every node, its occurrences in a list of targets. *)
Definition counts (d l : list Z) : Prop :=
  length d = length (adj_list_ g) /\ forall v, node g v -> state_of d v = occ v l.

Lemma get_count d l v : counts d l -> node g v -> vgetz d v = Ret (occ v l).
Proof using Hwf.
  intros [Hlen Hd] Hv. rewrite <- (Hd v Hv). unfold node in Hv.
  destruct (lookup_z d v) as [x Hx]; [rewrite Hlen, <- (wf_nodes _ Hwf); lia|].
  unfold state_of. rewrite Hx. by apply vgetz_Some; [lia|].
Qed.

Lemma set_count d l l' v x : counts d l -> node g v -> x = occ v l' ->
  (forall w, w <> v -> occ w l' = occ w l) -> vsetz d v x = Ret (<[Z.to_nat v := x]> d) /\ counts (<[Z.to_nat v := x]> d) l'.
Proof using Hwf.
  intros [Hlen Hd] Hv -> Hw. split; [by apply (set_ok g Hwf)|]. split; [by rewrite length_insert|].
  intros w Hn. rewrite (state_set g Hwf) by done. case_decide as Hc; [by subst|]. rewrite Hw by done. by apply Hd.
Qed.

Lemma count_edges_spec es : forall d l, counts d l -> Forall (fun e => node g (to_ e)) es ->
  Z.of_nat (length l + length es) <= INT32_MAX ->
  exists d', count_edges es d = Ret d' /\ counts d' (l ++ (to_ <$> es)).
Proof using Hwf.
  induction es as [|e es IH]; intros d l Hd Hes Hlen; cbn [count_edges].
  { exists d. by rewrite app_nil_r. }
  apply Forall_cons in Hes as [He Hes]. cbn [length] in Hlen. rewrite (get_count _ _ _ Hd He). ret_step.
  pose proof (occ_le (to_ e) l). rewrite add32_in by (unfold in_i32, INT32_MIN; lia). ret_step.
  destruct (set_count d l (l ++ [to_ e]) (to_ e) (occ (to_ e) l + 1)) as [-> Hd'];
    [done|done|by rewrite occ_app, occ_one, decide_True| |].
  { intros w Hw. rewrite occ_app, occ_one, decide_False by done. lia. }
  ret_step. destruct (IH _ _ Hd' Hes) as (d' & -> & Hd''); [rewrite length_app; cbn [length]; lia|].
  exists d'. split; [done|]. by rewrite <- app_assoc in Hd''.
Qed.

Lemma count_in_degrees_spec us : forall d l, counts d l -> Forall (node g) us ->
  Z.of_nat (length l + length (targets us)) <= INT32_MAX ->
  exists d', count_in_degrees g us d = Ret d' /\ counts d' (l ++ targets us).
Proof using Hwf.
  induction us as [|u us IH]; intros d l Hd Hus Hlen; cbn [count_in_degrees].
  { exists d. cbn. by rewrite app_nil_r. }
  apply Forall_cons in Hus as [Hu Hus]. change (targets (u :: us)) with ((to_ <$> adj g u) ++ targets us) in *.
  rewrite length_app, length_fmap in Hlen. destruct (adj_ok g u Hwf Hu) as [_ ->]. ret_step.
  destruct (count_edges_spec (adj g u) d l Hd) as (d1 & -> & Hd1); [|lia|].
  { apply Forall_forall. intros e. by apply adj_nodes. }
  ret_step. destruct (IH _ _ Hd1 Hus) as (d' & -> & Hd'); [rewrite length_app, length_fmap; lia|].
  exists d'. split; [done|]. by rewrite <- app_assoc in Hd'.
Qed.

(** ** The queue

    [ord] has been output, [us] has not; [ord ++ q] are the nodes with no edge
    left into them, [es] the edges of the last node output still to remove. *)
Record kahn_inv (d q ord us : list Z) (es : list Edge) : Prop := {
  kh_nodes : ord ++ us ≡ₚ nodes g;
  kh_counts : counts d ((to_ <$> es) ++ targets us);
  kh_bound : Z.of_nat (length ((to_ <$> es) ++ targets us)) <= INT32_MAX;
  kh_ready : forall v, node g v -> v ∈ ord ++ q <-> state_of d v = 0;
  kh_nodup : NoDup (ord ++ q);
  kh_queue : Forall (node g) q;
  kh_pre : pre_order g (ord ++ q);
}.

Lemma queue_sources_spec todo d : forall q, length d = length (adj_list_ g) -> Forall (node g) todo ->
  queue_sources todo d q = Ret (q ++ filter (fun v => state_of d v = 0) todo).
Proof using Hwf.
  induction todo as [|i todo IH]; intros q Hlen Htodo; cbn [queue_sources]; [by rewrite app_nil_r|].
  apply Forall_cons in Htodo as [Hi Htodo]. unfold node in Hi.
  destruct (lookup_z d i) as [x Hx]; [rewrite Hlen, <- (wf_nodes _ Hwf); lia|].
  assert (state_of d i = x) as Hs by (unfold state_of; by rewrite Hx).
  rewrite (vgetz_Some _ _ _ (proj1 Hi) Hx). ret_step. rewrite IH by done. rewrite filter_cons, Hs.
  case_decide; [by rewrite <- app_assoc|done].
Qed.

Lemma remove_edges_spec es : forall d q ord us, kahn_inv d q ord us es -> Forall (fun e => node g (to_ e)) es ->
  exists d' q', remove_edges es d q = Ret (d', q') /\ kahn_inv d' q' ord us [].
Proof using Hwf.
  induction es as [|e es IH]; intros d q ord us Hi Hes; cbn [remove_edges]; [by exists d, q|].
  apply Forall_cons in Hes as [He Hes]. destruct Hi as [Hn Hd Hb Hr Hnd Hq Hp].
  set (l := (to_ <$> es) ++ targets us) in *. change ((to_ <$> e :: es) ++ targets us) with (to_ e :: l) in Hd, Hb.
  rewrite (get_count _ _ _ Hd He). ret_step.
  assert (occ (to_ e) (to_ e :: l) = 1 + occ (to_ e) l) as Ho by (by rewrite occ_cons, decide_True).
  pose proof (occ_le (to_ e) l) as Hle. cbn [length] in Hb.
  rewrite add32_in by (unfold in_i32, INT32_MIN, INT32_MAX in *; lia). ret_step.
  destruct (set_count d (to_ e :: l) l (to_ e) (occ (to_ e) (to_ e :: l) + -1)) as [-> Hd']; [done|done|lia| |].
  { intros w Hw. by rewrite occ_cons, decide_False by done. }
  ret_step. set (d' := <[_ := _]> d) in *.
  assert (to_ e ∉ ord ++ q) as Hnot by (rewrite (Hr _ He), (proj2 Hd _ He); lia).
  assert (forall v, node g v -> v <> to_ e -> state_of d' v = state_of d v) as Hsame.
  { intros v Hv Hne. rewrite (proj2 Hd' v Hv), (proj2 Hd v Hv). by rewrite occ_cons, decide_False by done. }
  apply IH; [|done]. case_decide as Hz.
  - split; try done; rewrite ?app_assoc.
    + fold l. lia.
    + intros v Hv. rewrite elem_of_app, list_elem_of_singleton. destruct (decide (v = to_ e)) as [->|Hne].
      * rewrite (proj2 Hd' _ He). split; [lia|by right].
      * rewrite (Hsame v Hv Hne), <- (Hr v Hv). naive_solver.
    + apply NoDup_app. split; [done|]. split; [|apply NoDup_singleton]. intros v Hv ->%list_elem_of_singleton. done.
    + apply Forall_app. split; [done|by apply Forall_singleton].
    + apply pre_order_snoc; [done|]. intros w [Hw Ht]. apply elem_of_app. left.
      assert (w ∈ ord ++ us) as [?|Hin]%elem_of_app by (rewrite Hn; by apply elem_of_nodes); [done|]. exfalso.
      assert (0 < occ (to_ e) l) as Hpos; [|lia]. apply occ_pos. unfold l. apply elem_of_app. right.
      apply targets_edges. by exists w.
  - split; try done; [fold l; lia|]. intros v Hv. destruct (decide (v = to_ e)) as [->|Hne].
    + rewrite (proj2 Hd' _ He). split; [done|lia].
    + by rewrite (Hsame v Hv Hne), <- (Hr v Hv).
Qed.

Lemma kahn_loop_spec fuel : forall d q ord us, kahn_inv d q ord us [] -> (length us < fuel)%nat ->
  exists d' ord' us', kahn_loop fuel g d q ord (Z.of_nat (length ord)) = Ret (ord', Z.of_nat (length ord')) /\
    kahn_inv d' [] ord' us' [].
Proof using Hwf.
  induction fuel as [|fuel IH]; intros d q ord us Hi Hf; [lia|]. cbn [kahn_loop]. destruct q as [|u q].
  { by exists d, ord, us. }
  destruct Hi as [Hn Hd Hb Hr Hnd Hq Hp]. apply Forall_cons in Hq as [Hu Hq].
  assert (Z.of_nat (length ord) + Z.of_nat (length us) = num_nodes_ g) as Hlen.
  { apply Permutation_length in Hn. rewrite length_app in Hn. unfold nodes in Hn. rewrite length_seqZ in Hn.
    pose proof (wf_nodes _ Hwf). lia. }
  assert (u ∈ us) as (us1 & us2 & ->)%list_elem_of_split.
  { assert (u ∈ ord ++ us) as [Ho|?]%elem_of_app by (rewrite Hn; by apply elem_of_nodes); [|done].
    apply NoDup_app in Hnd as (_ & Hdis & _). exfalso. apply (Hdis u Ho), list_elem_of_here. }
  rewrite length_app in Hlen, Hf. cbn [length] in Hlen, Hf. pose proof (wf_int _ Hwf).
  rewrite add32_in by (unfold in_i32, INT32_MIN; lia). ret_step. destruct (adj_ok g u Hwf Hu) as [_ ->]. ret_step.
  assert (targets (us1 ++ u :: us2) ≡ₚ (to_ <$> adj g u) ++ targets (us1 ++ us2)) as Hperm.
  { unfold targets. rewrite !bind_app. cbn [mbind list_bind]. by rewrite Permutation_app_swap_app. }
  assert (kahn_inv d q (ord ++ [u]) (us1 ++ us2) (adj g u)) as Hi.
  { split; try done; rewrite <- ?app_assoc; try done.
    - rewrite <- Hn. cbn. by rewrite Permutation_middle.
    - destruct Hd as [Hl Hd]. split; [done|]. intros v Hv. rewrite (Hd v Hv). cbn. by rewrite Hperm.
    - cbn in Hb. by rewrite Hperm in Hb. }
  destruct (remove_edges_spec (adj g u) d q _ _ Hi) as (d' & q' & -> & Hi').
  { apply Forall_forall. intros e. by apply adj_nodes. }
  ret_step. destruct (IH d' q' (ord ++ [u]) (us1 ++ us2) Hi') as (d2 & ord' & us' & Hk & Hi2); [rewrite length_app; lia|].
  exists d2, ord', us'. split; [|done]. rewrite <- Hk. f_equal. rewrite length_app. cbn. lia.
Qed.

(** Nodes left over all have an edge from one another: there is a cycle. *)
Lemma leftover_cyclic d ord us : kahn_inv d [] ord us [] -> us <> [] -> cyclic g.
Proof using Hwf.
  intros [Hn Hd _ Hr Hnd _ _] Hus. rewrite app_nil_r in *. destruct (sort_ok g Hwf) as (r & _ & Hres).
  unfold sort_result in Hres. destruct (has_cycle r); [apply Hres|]. exfalso.
  destruct Hres as [[Hp Ht] _]. set (l := TopologicalSort.order r) in *.
  assert (NoDup l) as Hndl by (rewrite Hp; apply NoDup_seqZ).
  assert (forall v, v ∈ us -> exists w, w ∈ us /\ edge g w v) as Hpred.
  { intros v Hv. assert (node g v) as Hnv by (apply elem_of_nodes; rewrite <- Hn; apply elem_of_app; by right).
    assert (v ∉ ord) as Hno.
    { assert (NoDup (ord ++ us)) as (_ & Hdis & _)%NoDup_app by (rewrite Hn; apply NoDup_seqZ). intros Ho. by apply (Hdis v). }
    assert (0 < occ v (targets us)) as (w & Hw & Hin)%occ_pos%targets_edges.
    { pose proof (occ_le v (targets us)). rewrite (Hr v Hnv), (proj2 Hd v Hnv) in Hno. cbn in Hno. lia. }
    exists w. split; [done|]. split; [|done]. apply elem_of_nodes. rewrite <- Hn. apply elem_of_app. by right. }
  assert (exists l1 u l2, l = l1 ++ u :: l2 /\ u ∈ us /\ Forall (fun w => w ∉ us) l1) as (l1 & u & l2 & Hl & Hu & Hl1).
  { assert (exists u, u ∈ us /\ u ∈ l) as (u & Hu & Hul).
    { destruct us as [|u us]; [done|]. exists u. split; [apply list_elem_of_here|]. rewrite Hp, <- Hn.
      apply elem_of_app. right. apply list_elem_of_here. }
    clear -Hu Hul. induction l as [|x l IH]; [by apply elem_of_nil in Hul|].
    destruct (decide (x ∈ us)) as [Hx|Hx]; [by exists [], x, l|].
    apply elem_of_cons in Hul as [<-|Hul]; [done|]. destruct (IH Hul) as (l1 & y & l2 & -> & Hy & Hf).
    exists (x :: l1), y, l2. split; [done|]. split; [done|by constructor]. }
  destruct (Hpred u Hu) as (w & Hw & He). rewrite Hl in Hndl.
  apply NoDup_app in Hndl as (_ & _ & [Hnu _]%NoDup_cons).
  assert (w ∈ l) as Hwl by (rewrite Hp, <- Hn; apply elem_of_app; by right).
  rewrite Hl in Hwl. apply elem_of_app in Hwl as [Hw1|[->|(a & b & ->)%list_elem_of_split]%elem_of_cons].
  - rewrite Forall_forall in Hl1. by apply (Hl1 w).
  - apply Hnu. by apply (Ht l1 u l2 u).
  - apply Hnu. apply elem_of_app. right. apply elem_of_cons. right.
    apply (Ht (l1 ++ u :: a) w b u); [|done]. by rewrite Hl, <- app_assoc.
Qed.

Lemma sortKahn_ok : edge_count_ g <= INT32_MAX -> exists r, sortKahn g = Ret r /\ sort_result g r.
Proof using Hwf.
  intros Hec. pose proof (wf_nodes _ Hwf) as Hn. pose proof length_targets as Hlt. unfold sortKahn, getNodeCount.
  assert (Forall (node g) (nodes g)) as Hnodes by (apply Forall_forall; intros v; apply elem_of_nodes).
  destruct (count_in_degrees_spec (nodes g) (replicate (Z.to_nat (num_nodes_ g)) 0) []) as (d & Hc & Hd);
    [|done|cbn; lia|].
  { split; [rewrite length_replicate; lia|]. intros v _. unfold state_of. destruct (_ !! _) eqn:E; [|done].
    by apply lookup_replicate in E as [-> _]. }
  cbn [app] in Hd. fold (nodes g). rewrite Hc. ret_step. rewrite queue_sources_spec by (apply Hd || done). ret_step. cbn [app].
  set (q := filter _ _).
  assert (kahn_inv d q [] (nodes g) []) as Hi.
  { split; try done; cbn.
    - lia.
    - intros v Hv. unfold q. rewrite list_elem_of_filter, elem_of_nodes. tauto.
    - apply NoDup_filter, NoDup_seqZ.
    - apply Forall_forall. intros v [_ ?%elem_of_nodes]%list_elem_of_filter. done.
    - intros l1 u l2 w Hq [Hw Ht]. exfalso. assert (u ∈ q) as Hu by (rewrite Hq; apply elem_of_app; right; apply list_elem_of_here).
      unfold q in Hu. apply list_elem_of_filter in Hu as [Hz Hu%elem_of_nodes]. rewrite (proj2 Hd u Hu) in Hz.
      assert (0 < occ u (targets (nodes g))) as Hpos; [|lia]. apply occ_pos, targets_edges. exists w.
      split; [by apply elem_of_nodes|done]. }
  destruct (kahn_loop_spec (S (Z.to_nat (num_nodes_ g))) d q [] (nodes g) Hi) as (d' & ord & us & Hk & Hi').
  { unfold nodes. rewrite length_seqZ. lia. }
  change (Z.of_nat (length [])) with 0 in Hk. rewrite Hk. ret_step. eexists. split; [done|].
  pose proof (kh_nodes _ _ _ _ _ Hi') as Hnn. pose proof (Permutation_length Hnn) as Hlen.
  rewrite length_app in Hlen. unfold nodes in Hlen. rewrite length_seqZ in Hlen.
  case_decide as Hv; unfold sort_result; cbn.
  - destruct us; [|cbn [length] in Hlen; lia]. rewrite app_nil_r in Hnn.
    assert (topological_order g ord) as Ht.
    { apply pre_order_topological; [done|done|]. pose proof (kh_pre _ _ _ _ _ Hi') as Hp. by rewrite app_nil_r in Hp. }
    split; [done|by eapply topological_acyclic].
  - split; [done|]. apply (leftover_cyclic d' ord us); [done|]. intros ->. cbn [length] in Hlen. lia.
Qed.
End kahn.

(** ** Properties *)

(** C26: both functions return: a topological order of all the nodes when the graph
    has no cycle, and otherwise the flag with an empty order; so they always agree
    on whether there is a cycle. *)
Theorem topological_sort_spec g : wf_graph g -> edge_count_ g <= INT32_MAX ->
  exists r r', sort g = Ret r /\ sort_result g r /\ sortKahn g = Ret r' /\ sort_result g r' /\
    has_cycle r = has_cycle r'.
Proof.
  intros Hwf Hec. destruct (sort_ok g Hwf) as (r & Hr & Hres). destruct (sortKahn_ok g Hwf Hec) as (r' & Hr' & Hres').
  exists r, r'. split_and!; try done. unfold sort_result in *. destruct (has_cycle r), (has_cycle r'); tauto.
Qed.

(** A diamond with two orders, and a graph with a cycle. *)
Definition diamond : outcome Graph :=
  g ← graph_new 5; addEdges g [(0, 1, 1); (0, 2, 1); (1, 3, 1); (2, 3, 1); (4, 0, 1)].

Lemma topological_sort_witness :
  exists g r r', diamond = Ret g /\ sort g = Ret r /\ sort_result g r /\ sortKahn g = Ret r' /\ sort_result g r' /\
    has_cycle r = has_cycle r' /\ order r = [4; 0; 2; 1; 3] /\ order r' = [4; 0; 1; 2; 3].
Proof.
  destruct (graph_new_ok 5) as (g0 & H0 & Hwf0 & Hn0 & _); [done|].
  destruct (addEdges_ok [(0, 1, 1); (0, 2, 1); (1, 3, 1); (2, 3, 1); (4, 0, 1)] g0) as (g & Hg & Hwf & Hn); [done| | |].
  { unfold node. rewrite Hn0. repeat constructor; lia. }
  { injection H0 as <-. done. }
  assert (edge_count_ g <= INT32_MAX) as Hec by (injection H0 as <-; vm_compute in Hg; injection Hg as <-; done).
  destruct (topological_sort_spec g Hwf Hec) as (r & r' & H1 & H2 & H3 & H4 & H5).
  exists g, r, r'. unfold diamond. rewrite H0. split_and!; try done.
  - injection H0 as <-. vm_compute in Hg. injection Hg as <-. vm_compute in H1. by injection H1 as <-.
  - injection H0 as <-. vm_compute in Hg. injection Hg as <-. vm_compute in H3. by injection H3 as <-.
Defined.
