(* ===== verification/BellmanFord.v ===== *)
(** * Bellman-Ford shortest paths and negative cycles

    Models [data_structure/graph/algorithm/BellmanFord.cc] and
    [ShortestPathResult] of [GraphTraits.hpp].  Distances are [int32_t]: an
    addition that overflows is undefined.  The two functions share their loops;
    [hasNegativeCycle] keeps no predecessors, so its [previous] is [None].

    Without negative cycles and for weights whose [n]-fold multiple fits,
    [shortestPath] is defined and returns the least weights of walks, and the
    predecessors lead to the source along walks of those weights; under the same
    conditions [hasNegativeCycle] returns false, and it never returns false when
    there is a negative cycle, whatever the weights. *)

From S2P Require Import Prelude Graph.
Local Open Scope Z_scope.

Record ShortestPathResult := mkShortest {
  source : Z;
  target : Z;
  distance : list Z;
  previous : list Z;
}.

Implicit Types (g : Graph) (u v s w c : Z) (d : list Z) (e : Edge) (prev : option (list Z)).

Definition set_previous prev (v u : Z) : outcome (option (list Z)) :=
  match prev with
  | None => Ret None
  | Some p => p ← vsetz p v u; Ret (Some p)
  end.

(** The loop over the edges of [u]. *)
Fixpoint relax_edges u (edges : list Edge) d prev (updated : bool) : outcome (list Z * option (list Z) * bool) :=
  match edges with
  | [] => Ret (d, prev, updated)
  | e :: edges =>
    let v := to_ e in
    du ← vgetz d u;
    new_dist ← add32 du (weight_ e);
    dv ← vgetz d v;
    if decide (new_dist < dv) then
      d ← vsetz d v new_dist;
      prev ← set_previous prev v u;
      relax_edges u edges d prev true
    else relax_edges u edges d prev updated
  end.

(** The loop over the nodes. *)
Fixpoint relax_nodes g (us : list Z) d prev (updated : bool) : outcome (list Z * option (list Z) * bool) :=
  match us with
  | [] => Ret (d, prev, updated)
  | u :: us =>
    du ← vgetz d u;
    if decide (du = INT32_MAX) then relax_nodes g us d prev updated else
    edges ← getAdjList g u;
    '(d, prev, updated) ← relax_edges u edges d prev updated;
    relax_nodes g us d prev updated
  end.

(** At most [k] rounds; the flag tells that a round changed nothing. *)
Fixpoint relax_rounds (k : nat) g d prev : outcome (list Z * option (list Z) * bool) :=
  match k with
  | O => Ret (d, prev, false)
  | S k =>
    '(d, prev, updated) ← relax_nodes g (seqZ 0 (getNodeCount g)) d prev false;
    if negb updated then Ret (d, prev, true) else relax_rounds k g d prev
  end.

Definition shortestPath g (start : Z) : outcome ShortestPathResult :=
  let n := getNodeCount g in
  let distance := replicate (Z.to_nat n) INT32_MAX in
  let previous := replicate (Z.to_nat n) (-1) in
  if decide (n = 0 \/ start < 0 \/ n <= start) then Ret (mkShortest start (-1) distance previous) else
  distance ← vsetz distance start 0;
  '(distance, prev, _) ← relax_rounds (Z.to_nat (n - 1)) g distance (Some previous);
  Ret (mkShortest start (-1) distance (default [] prev)).

(** The last pass of [hasNegativeCycle]. *)
Fixpoint can_relax_edges u (edges : list Edge) d : outcome bool :=
  match edges with
  | [] => Ret false
  | e :: edges =>
    du ← vgetz d u;
    new_dist ← add32 du (weight_ e);
    dv ← vgetz d (to_ e);
    if decide (new_dist < dv) then Ret true else can_relax_edges u edges d
  end.

Fixpoint can_relax g (us : list Z) d : outcome bool :=
  match us with
  | [] => Ret false
  | u :: us =>
    du ← vgetz d u;
    if decide (du = INT32_MAX) then can_relax g us d else
    edges ← getAdjList g u;
    b ← can_relax_edges u edges d;
    if (b : bool) then Ret true else can_relax g us d
  end.

Definition hasNegativeCycle g : outcome bool :=
  let n := getNodeCount g in
  if decide (n = 0) then Ret false else
  '(d, _, converged) ← relax_rounds (Z.to_nat (n - 1)) g (replicate (Z.to_nat n) 0) None;
  if (converged : bool) then Ret false else can_relax g (seqZ 0 n) d.

(** [ShortestPathResult::reconstructPath]. *)
Fixpoint previous_loop (fuel : nat) (previous : list Z) v : outcome (list Z) :=
  match fuel with
  | O => NoFuel
  | S fuel =>
    if decide (v = -1) then Ret [] else
    u ← vgetz previous v; path ← previous_loop fuel previous u; Ret (v :: path)
  end.

Definition reconstructPath (r : ShortestPathResult) (to : Z) : outcome (list Z) :=
  if decide (to < 0 \/ Z.of_nat (length (distance r)) <= to) then Ret [] else
  dt ← vgetz (distance r) to;
  if decide (dt = INT32_MAX) then Ret [] else
  path ← previous_loop (S (length (previous r))) (previous r) to; Ret (rev path).

Definition hasPath (r : ShortestPathResult) : bool := bool_decide (distance r <> []).

(** ** Weighted walks *)
Section walks.
Context (g : Graph).
Implicit Types (I : Z -> Prop) (ns : list Z).

Definition wedge u v c : Prop := node g u /\ mkEdge v c ∈ adj g u.

(** A walk from a node of [I] to [v] of weight [w]; its nodes, the last first. *)
Inductive wpath I : list Z -> Z -> Z -> Prop :=
| wp_nil s : I s -> node g s -> wpath I [s] s 0
| wp_snoc ns u v w c : wpath I ns u w -> wedge u v c -> wpath I (v :: ns) v (w + c).

(** No cycle through a node within reach has a negative weight. *)
Definition no_negative_cycle I : Prop :=
  forall v ns w ns' w', wpath I ns v w -> wpath (eq v) ns' v w' -> 0 <= w'.

(** [x] is the least weight of a walk to [v], or no walk leads there. *)
Definition is_distance I v x : Prop :=
  (x = INT32_MAX /\ forall ns w, ~ wpath I ns v w) \/
  ((exists ns, wpath I ns v x) /\ forall ns w, wpath I ns v w -> x <= w).

(** Every edge's weight is at most [W] in size, and a walk through all nodes fits. *)
Definition weights_fit (W : Z) : Prop :=
  0 <= W /\ num_nodes_ g * W < INT32_MAX /\ forall u v c, wedge u v c -> - W <= c <= W.
End walks.

Definition at_node d v : Z := default INT32_MAX (d !! Z.to_nat v).

Section search.
Context (g : Graph) (Hwf : wf_graph g) (I : Z -> Prop) (tracked : bool).
Implicit Types (ns : list Z).

Lemma wedge_nodes u v c : wedge g u v c -> node g u /\ node g v.
Proof using Hwf.
  intros [Hu He]. apply (edge_node g u v Hwf). split; [done|]. apply list_elem_of_fmap. by exists (mkEdge v c).
Qed.

Lemma wpath_nodes J ns v w : wpath g J ns v w -> node g v /\ Forall (node g) ns /\ exists ns', ns = v :: ns'.
Proof using Hwf.
  induction 1 as [s Hs Hn|ns u v w c Hp (Hu & Hf & _) He]; [by split; [|split; [apply Forall_singleton|eexists]]|].
  destruct (wedge_nodes _ _ _ He). split; [done|]. split; [by constructor|by eexists].
Qed.

Lemma get_at d v : length d = length (adj_list_ g) -> node g v -> vgetz d v = Ret (at_node d v).
Proof using Hwf.
  intros Hl Hv. unfold node in Hv. destruct (lookup_z d v) as [x Hx]; [rewrite Hl, <- (wf_nodes _ Hwf); lia|].
  unfold at_node. rewrite Hx. by apply vgetz_Some; [lia|].
Qed.

Lemma at_insert d u v x : length d = length (adj_list_ g) -> node g u -> node g v ->
  at_node (<[Z.to_nat u := x]> d) v = if decide (v = u) then x else at_node d v.
Proof using Hwf.
  intros Hlen Hu Hv. unfold at_node, node in *. pose proof (wf_nodes _ Hwf). destruct (decide (v = u)) as [->|Hne].
  - rewrite list_lookup_insert_eq by lia. done.
  - by rewrite list_lookup_insert_ne by lia.
Qed.

Lemma set_at d v x : length d = length (adj_list_ g) -> node g v -> vsetz d v x = Ret (<[Z.to_nat v := x]> d).
Proof using Hwf. intros Hlen Hv. unfold node in Hv. apply vsetz_lt. rewrite Hlen, <- (wf_nodes _ Hwf). lia. Qed.

Lemma length_simple ns : NoDup ns -> Forall (node g) ns -> Z.of_nat (length ns) <= num_nodes_ g.
Proof using Hwf.
  intros Hnd Hl. assert (ns ⊆+ seqZ 0 (num_nodes_ g)) as Hs.
  { apply NoDup_submseteq; [done|]. intros v Hv. rewrite Forall_forall in Hl. apply elem_of_seqZ.
    specialize (Hl v Hv). unfold node in Hl. lia. }
  apply submseteq_length in Hs. rewrite length_seqZ in Hs. pose proof (wf_nodes _ Hwf). lia.
Qed.

(** Walks of a bounded number of edges have bounded weight. *)
Lemma wpath_bound W J ns v w : weights_fit g W -> wpath g J ns v w ->
  - (W * (Z.of_nat (length ns) - 1)) <= w <= W * (Z.of_nat (length ns) - 1).
Proof using.
  intros (HW & _ & Hc). induction 1 as [s Hs Hn|ns u v w c Hp IH He]; cbn [length]; [lia|].
  pose proof (Hc _ _ _ He). lia.
Qed.

Lemma short_weight W J ns v w : weights_fit g W -> wpath g J ns v w -> Z.of_nat (length ns) <= num_nodes_ g ->
  - INT32_MAX < w - W /\ w + W < INT32_MAX.
Proof using.
  intros HW Hp Hl. pose proof (wpath_bound W J ns v w HW Hp) as Hb. destruct HW as (HW & Hfit & _).
  assert (W * (Z.of_nat (length ns) - 1) <= W * (num_nodes_ g - 1)) by (apply Z.mul_le_mono_nonneg_l; lia). lia.
Qed.

(** Cycles cut out of a walk do not make it heavier. *)
Lemma wpath_split J ns u w v : wpath g J ns u w -> v ∈ ns ->
  exists ns1 p ns2, wpath g J (v :: ns1) v p /\ wpath g (eq v) ns2 u (w - p) /\ v :: ns1 `suffix_of` ns.
Proof using Hwf.
  induction 1 as [s Hs Hn|ns u' v' w c Hp IH He]; intros Hv.
  - apply list_elem_of_singleton in Hv as ->. exists [], 0, [s]. split; [by constructor|]. split; [by constructor|done].
  - assert (v = v' -> exists ns1 p ns2, wpath g J (v :: ns1) v p /\ wpath g (eq v) ns2 v' (w + c - p) /\ v :: ns1 `suffix_of` v' :: ns) as Hhere.
    { intros ->. exists ns, (w + c), [v']. split; [by apply wp_snoc with u'|]. split; [|done].
      replace (w + c - (w + c)) with 0 by lia. constructor; [done|]. by destruct (wedge_nodes _ _ _ He). }
    apply elem_of_cons in Hv as [Hv|Hv]; [by apply Hhere|].
    destruct (IH Hv) as (ns1 & p & ns2 & H1 & H2 & H3). exists ns1, p, (v' :: ns2). split; [done|]. split.
    + replace (w + c - p) with (w - p + c) by lia. by apply wp_snoc with u'.
    + by apply suffix_cons_r.
Qed.

Lemma wpath_simple ns v w : no_negative_cycle g I -> wpath g I ns v w ->
  exists ns' w', wpath g I ns' v w' /\ NoDup ns' /\ w' <= w.
Proof using Hwf.
  intros Hneg. induction 1 as [s Hs Hn|ns u v w c Hp (ns' & w' & Hp' & Hnd & Hle) He].
  - exists [s], 0. split; [by constructor|]. split; [apply NoDup_singleton|done].
  - destruct (decide (v ∈ ns')) as [Hv|Hv].
    + destruct (wpath_split _ _ _ _ _ Hp' Hv) as (ns1 & p & ns2 & H1 & H2 & H3). exists (v :: ns1), p. split; [done|].
      split; [destruct H3 as [k ->]; by apply NoDup_app in Hnd as (_ & _ & ?)|].
      assert (0 <= w' - p + c) as Hc; [|lia]. apply (Hneg v (v :: ns1) p (v :: ns2)); [done|]. by apply wp_snoc with u.
    + exists (v :: ns'), (w' + c). split; [by apply wp_snoc with u|]. split; [by constructor|lia].
Qed.

(** ** The invariant of the relaxations

    A walk whose every prefix is at least as heavy as the distance recorded at
    its end. *)
Inductive gpath d : list Z -> Z -> Z -> Prop :=
| gp_nil s : I s -> node g s -> at_node d s <= 0 -> gpath d [s] s 0
| gp_snoc ns u v w c : gpath d ns u w -> wedge g u v c -> at_node d v <= w + c -> gpath d (v :: ns) v (w + c).

(** The chain of predecessors from a node to a source. *)
Inductive pchain d (p : list Z) : Z -> list Z -> Prop :=
| pc_root s : I s -> node g s -> at_node d s <= 0 -> p !! Z.to_nat s = Some (-1) -> pchain d p s [s]
| pc_step u v c ns : p !! Z.to_nat v = Some u -> wedge g u v c -> at_node d u + c <= at_node d v ->
    pchain d p u ns -> pchain d p v (v :: ns).

Record bf_inv d prev : Prop := {
  bf_len : length d = length (adj_list_ g);
  bf_source : forall s, I s -> node g s -> at_node d s <= 0;
  bf_walk : forall v, node g v -> at_node d v <> INT32_MAX -> exists ns, gpath d ns v (at_node d v) /\ NoDup ns;
  bf_prev : match prev with
            | None => tracked = false
            | Some p => tracked = true /\ length p = length (adj_list_ g) /\
                forall v, node g v -> at_node d v <> INT32_MAX -> exists ns, pchain d p v ns
            end;
}.

Lemma gpath_wpath d ns v w : gpath d ns v w -> wpath g I ns v w.
Proof using. induction 1; [by constructor|by eapply wp_snoc]. Qed.

Lemma gpath_mono d d' ns v w : (forall v, node g v -> at_node d' v <= at_node d v) -> gpath d ns v w -> gpath d' ns v w.
Proof using Hwf.
  intros Hd. induction 1 as [s Hs Hn Hle|ns u v w c Hp IH He Hle].
  - constructor; [done|done|]. specialize (Hd s Hn). lia.
  - apply gp_snoc with u; [done|done|]. destruct (wedge_nodes _ _ _ He) as [_ Hv]. specialize (Hd v Hv). lia.
Qed.

Lemma gpath_split d ns u w v : gpath d ns u w -> v ∈ ns ->
  exists x ns2, at_node d v <= x /\ wpath g (eq v) ns2 u (w - x).
Proof using Hwf.
  induction 1 as [s Hs Hn Hle|ns u' v' w c Hp IH He Hle]; intros Hv.
  - apply list_elem_of_singleton in Hv as ->. exists 0, [s]. split; [done|by constructor].
  - apply elem_of_cons in Hv as [->|Hv].
    + exists (w + c), [v']. split; [done|]. replace (w + c - (w + c)) with 0 by lia.
      constructor; [done|]. by destruct (wedge_nodes _ _ _ He).
    + destruct (IH Hv) as (x & ns2 & H1 & H2). exists x, (v' :: ns2). split; [done|].
      replace (w + c - x) with (w - x + c) by lia. by apply wp_snoc with u'.
Qed.

Lemma pchain_split d p u ns v : pchain d p u ns -> v ∈ ns ->
  exists x ns2, at_node d v + x <= at_node d u /\ wpath g (eq v) ns2 u x.
Proof using Hwf.
  induction 1 as [s Hs Hn Hz Hp|u v' c ns Hp He Hle Hch IH]; intros Hv.
  - apply list_elem_of_singleton in Hv as ->. exists 0, [s]. split; [lia|by constructor].
  - apply elem_of_cons in Hv as [->|Hv].
    + exists 0, [v']. split; [lia|]. constructor; [done|]. by destruct (wedge_nodes _ _ _ He).
    + destruct (IH Hv) as (x & ns2 & H1 & H2). exists (x + c), (v' :: ns2). split; [lia|]. by apply wp_snoc with u.
Qed.

Section relax.
Context (W : Z) (HW : weights_fit g W) (Hneg : no_negative_cycle g I).

Lemma bf_bound d prev v : bf_inv d prev -> node g v ->
  at_node d v = INT32_MAX \/ (- INT32_MAX < at_node d v - W /\ at_node d v + W < INT32_MAX).
Proof using Hwf HW.
  intros Hi Hv. destruct (decide (at_node d v = INT32_MAX)) as [?|Hne]; [by left|right].
  destruct (bf_walk _ _ Hi v Hv Hne) as (ns & Hp%gpath_wpath & Hnd).
  destruct (wpath_nodes _ _ _ _ Hp) as (_ & Hf & _). by apply (short_weight W I ns v), length_simple.
Qed.

(** A relaxation that improves [v] through [u] never closes a cycle. *)
Lemma relax_fresh d prev ns u v c : bf_inv d prev -> gpath d ns u (at_node d u) -> wedge g u v c ->
  at_node d u + c < at_node d v -> (v ∉ ns) /\ forall p ms, prev = Some p -> pchain d p u ms -> v ∉ ms.
Proof using Hwf Hneg.
  intros Hi Hp He Hlt.
  assert (forall ns2 x, wpath g (eq v) ns2 u x -> 0 <= x + c) as Hcyc.
  { intros ns2 x H2. assert (wpath g (eq v) (v :: ns2) v (x + c)) as Hc by (by apply wp_snoc with u).
    apply (Hneg v (v :: ns) (at_node d u + c) (v :: ns2)); [|done]. apply wp_snoc with u; [by apply (gpath_wpath d)|done]. }
  split.
  - intros Hv. destruct (gpath_split _ _ _ _ _ Hp Hv) as (x & ns2 & H1 & H2%Hcyc). lia.
  - intros p ms _ Hch Hv. destruct (pchain_split _ _ _ _ _ Hch Hv) as (x & ns2 & H1 & H2%Hcyc). lia.
Qed.

(** Recording the improvement. *)
Lemma relax_inv d prev u v c : bf_inv d prev -> at_node d u <> INT32_MAX -> wedge g u v c ->
  at_node d u + c < at_node d v -> exists prev',
    set_previous prev v u = Ret prev' /\ bf_inv (<[Z.to_nat v := at_node d u + c]> d) prev'.
Proof using Hwf HW Hneg.
  intros Hi Hu He Hlt. destruct (wedge_nodes _ _ _ He) as [Hnu Hnv]. pose proof (bf_len _ _ Hi) as Hlen.
  destruct (bf_walk _ _ Hi u Hnu Hu) as (ns & Hp & Hnd).
  destruct (relax_fresh d prev ns u v c Hi Hp He Hlt) as [Hv Hvp].
  set (d' := <[Z.to_nat v := at_node d u + c]> d).
  assert (forall x, node g x -> at_node d' x = if decide (x = v) then at_node d u + c else at_node d x) as Hat
    by (intros x Hx; by apply at_insert).
  assert (forall x, node g x -> at_node d' x <= at_node d x) as Hmono by (intros x Hx; rewrite Hat by done; case_decide; subst; lia).
  assert (u <> v) as Huv.
  { intros ->. apply Hv. destruct (wpath_nodes _ _ _ _ (gpath_wpath _ _ _ _ Hp)) as (_ & _ & ns' & ->). apply list_elem_of_here. }
  exists (match prev with None => None | Some p => Some (<[Z.to_nat v := u]> p) end). split.
  { unfold set_previous. destruct prev as [p|]; [|done]. destruct (bf_prev _ _ Hi) as (_ & Hlp & _). by rewrite set_at by done. }
  split.
  - unfold d'. by rewrite length_insert.
  - intros s Hs Hn. specialize (Hmono s Hn). pose proof (bf_source _ _ Hi s Hs Hn). lia.
  - intros x Hx. rewrite Hat by done. case_decide as Hxv; [subst x; intros _|intros Hne].
    + exists (v :: ns). split; [|by constructor]. apply gp_snoc with u; [by apply (gpath_mono d)|done|].
      rewrite Hat, decide_True by done. lia.
    + destruct (bf_walk _ _ Hi x Hx Hne) as (ns' & Hp' & Hnd'). exists ns'. split; [by apply (gpath_mono d)|done].
  - pose proof (bf_prev _ _ Hi) as Hch. destruct prev as [p|]; [|done]. destruct Hch as (Htr & Hlp & Hch).
    split; [done|]. split; [by rewrite length_insert|].
    assert (forall x ms, pchain d p x ms -> v ∉ ms -> pchain d' (<[Z.to_nat v := u]> p) x ms) as Hkeep.
    { assert (forall x, node g x -> x <> v -> Z.to_nat v <> Z.to_nat x) as Hidx by (unfold node in *; intros x Hx Hne; lia).
      induction 1 as [s Hs Hn Hz Hps|u' x c' ms Hpx Hex Hle Hc IH].
      - intros Hvs. assert (s <> v) by (intros ->; apply Hvs, list_elem_of_here). constructor; [done|done| |].
        + specialize (Hmono s Hn). lia.
        + rewrite list_lookup_insert_ne; [done|]. by apply Hidx.
      - intros [Hvx Hvm]%not_elem_of_cons. destruct (wedge_nodes _ _ _ Hex) as [Hu' Hx].
        apply pc_step with u' c'; [rewrite list_lookup_insert_ne; [done|by apply Hidx]|done| |by apply IH].
        rewrite (Hat x), decide_False by done. specialize (Hmono u' Hu'). lia. }
    assert (exists ms, pchain d' (<[Z.to_nat v := u]> p) v ms) as [msv Hcv].
    { destruct (Hch u Hnu Hu) as [ms Hms]. exists (v :: ms). apply pc_step with u c; [|done| |].
      - apply list_lookup_insert_eq. rewrite Hlp. pose proof (wf_nodes _ Hwf). unfold node in Hnv. lia.
      - rewrite !Hat by done. rewrite decide_False, decide_True by done. lia.
      - apply Hkeep; [done|]. by apply (Hvp p). }
    intros x Hx. rewrite Hat by done. case_decide as Hxv; [subst x; intros _; by exists msv|intros Hne].
    destruct (Hch x Hx Hne) as [ms Hms]. clear -Hms Hkeep Hcv Hmono Hat Hwf Hlp Hnv.
    (* the old chain, up to [v] if it meets it *)
    induction Hms as [s Hs Hn Hz Hps|u' x c' ms Hpx Hex Hle Hc IH].
    + destruct (decide (s = v)) as [->|Hsv]; [by exists msv|]. exists [s]. apply Hkeep; [by constructor|].
      by intros ->%list_elem_of_singleton.
    + destruct (decide (x = v)) as [->|Hxv]; [by exists msv|]. destruct IH as [ms' IH].
      destruct (wedge_nodes _ _ _ Hex) as [Hu' Hx]. exists (x :: ms'). apply pc_step with u' c'; [|done| |done].
      * rewrite list_lookup_insert_ne; [done|]. unfold node in *. lia.
      * rewrite (Hat x), decide_False by done. specialize (Hmono u' Hu'). lia.
Qed.

Definition below d d' : Prop := forall v, node g v -> at_node d' v <= at_node d v.

Lemma below_trans d1 d2 d3 : below d1 d2 -> below d2 d3 -> below d1 d3.
Proof using. intros H1 H2 v Hv. specialize (H1 v Hv). specialize (H2 v Hv). lia. Qed.

Lemma below_found d d' prev' v : bf_inv d' prev' -> below d d' -> node g v -> at_node d v < INT32_MAX -> at_node d' v < INT32_MAX.
Proof using. intros _ Hb Hv Hlt. specialize (Hb v Hv). lia. Qed.

Lemma relax_edges_spec u edges : forall d prev upd, bf_inv d prev -> node g u -> at_node d u < INT32_MAX ->
  Forall (fun e => wedge g u (to_ e) (weight_ e)) edges ->
  exists d' prev' upd', relax_edges u edges d prev upd = Ret (d', prev', upd') /\ bf_inv d' prev' /\ below d d' /\
    Forall (fun e => at_node d' (to_ e) <= at_node d u + weight_ e) edges /\
    (upd' = false -> upd = false /\ d' = d).
Proof using Hwf HW Hneg.
  induction edges as [|e edges IH]; intros d prev upd Hi Hu Hlt Hes; cbn [relax_edges].
  { exists d, prev, upd. split; [done|]. split; [done|]. split; [by intros v Hv|]. split; [constructor|done]. }
  apply Forall_cons in Hes as [He Hes]. destruct (wedge_nodes _ _ _ He) as [_ Hv]. pose proof (bf_len _ _ Hi) as Hlen.
  rewrite (get_at d u Hlen Hu). ret_step.
  assert (- W <= weight_ e <= W) as Hc by (destruct HW as (_ & _ & Hc); by eapply Hc).
  destruct (bf_bound d prev u Hi Hu) as [?|Hb]; [lia|].
  rewrite add32_in by (unfold in_i32, INT32_MIN, INT32_MAX in *; lia). ret_step. rewrite (get_at d _ Hlen Hv). ret_step.
  case_decide as Hrel.
  - destruct (relax_inv d prev u (to_ e) (weight_ e) Hi) as (prev1 & Hprev & Hi1); [lia|done|done|].
    rewrite set_at by done. ret_step. rewrite Hprev. ret_step. set (d1 := <[_ := _]> d) in *.
    assert (forall x, node g x -> at_node d1 x = if decide (x = to_ e) then at_node d u + weight_ e else at_node d x) as Hat
      by (intros x Hx; by apply at_insert).
    assert (below d d1) as Hb1 by (intros x Hx; rewrite Hat by done; case_decide; subst; lia).
    destruct (IH d1 prev1 true Hi1 Hu) as (d' & prev' & upd' & -> & Hi' & Hb' & Hall & Hupd); [|done|].
    { by apply (below_found d d1 prev1). }
    exists d', prev', upd'. split; [done|]. split; [done|]. split; [by apply (below_trans d d1)|].
    split; [|intros ->; by destruct (Hupd eq_refl)]. pose proof (Hb1 u Hu) as Hu1. constructor.
    + specialize (Hb' (to_ e) Hv). rewrite Hat, decide_True in Hb' by done. lia.
    + eapply Forall_impl; [exact Hall|]. cbn beta. intros e' He'. lia.
  - destruct (IH d prev upd Hi Hu Hlt Hes) as (d' & prev' & upd' & -> & Hi' & Hb' & Hall & Hupd).
    exists d', prev', upd'. split; [done|]. split; [done|]. split; [done|]. split; [|done].
    constructor; [|done]. specialize (Hb' (to_ e) Hv). lia.
Qed.

Lemma adj_wedges u : node g u -> Forall (fun e => wedge g u (to_ e) (weight_ e)) (adj g u).
Proof using. intros Hu. apply Forall_forall. intros [v c] He. by split. Qed.

Lemma relax_nodes_spec us : forall d prev upd, bf_inv d prev -> Forall (node g) us ->
  exists d' prev' upd', relax_nodes g us d prev upd = Ret (d', prev', upd') /\ bf_inv d' prev' /\ below d d' /\
    (forall u v c, u ∈ us -> wedge g u v c -> at_node d u < INT32_MAX -> at_node d' v <= at_node d u + c) /\
    (upd' = false -> upd = false /\ d' = d).
Proof using Hwf HW Hneg.
  induction us as [|u us IH]; intros d prev upd Hi Hus; cbn [relax_nodes].
  { exists d, prev, upd. split; [done|]. split; [done|]. split; [by intros v Hv|]. split; [by intros ??? ?%elem_of_nil|done]. }
  apply Forall_cons in Hus as [Hu Hus]. rewrite (get_at d u (bf_len _ _ Hi) Hu). ret_step. case_decide as Hmax.
  - destruct (IH d prev upd Hi Hus) as (d' & prev' & upd' & -> & Hi' & Hb' & Hall & Hupd).
    exists d', prev', upd'. split_and!; [done|done|done| |done].
    intros u' v c [->|Hu']%elem_of_cons He Hlt; [lia|by apply Hall].
  - destruct (bf_bound d prev u Hi Hu) as [?|Hb]; [done|]. destruct (adj_ok g u Hwf Hu) as [_ ->]. ret_step.
    destruct (relax_edges_spec u (adj g u) d prev upd Hi Hu) as (d1 & prev1 & upd1 & -> & Hi1 & Hb1 & Hall1 & Hupd1);
      [destruct HW; lia|by apply adj_wedges|].
    ret_step. destruct (IH d1 prev1 upd1 Hi1 Hus) as (d' & prev' & upd' & -> & Hi' & Hb' & Hall & Hupd).
    exists d', prev', upd'. split_and!; [done|done|by apply (below_trans d d1)| |].
    + intros u' v c [->|Hu']%elem_of_cons He Hlt.
      * rewrite Forall_forall in Hall1. destruct He as [Hn He]. specialize (Hall1 _ He). cbn in Hall1.
        destruct (wedge_nodes u v c (conj Hn He)) as [_ Hv]. specialize (Hb' v Hv). lia.
      * destruct (wedge_nodes _ _ _ He) as [Hn' _]. specialize (Hb1 u' Hn'). 
        assert (at_node d1 u' < INT32_MAX) as Hlt1 by lia. specialize (Hall u' v c Hu' He Hlt1). lia.
    + intros Hf. destruct (Hupd Hf) as [Hf1 ->]. by apply Hupd1.
Qed.

(** After [k] rounds no walk of at most [k] edges is lighter than the distance. *)
Definition complete (k : nat) d : Prop := forall ns v w, wpath g I ns v w -> (length ns <= S k)%nat -> at_node d v <= w.

Lemma wpath_found k d ns v w : complete k d -> (S k <= length (adj_list_ g))%nat -> wpath g I ns v w -> (length ns <= S k)%nat ->
  at_node d v < INT32_MAX.
Proof using Hwf HW.
  intros Hc Hk Hp Hl. pose proof (Hc ns v w Hp Hl). pose proof (wf_nodes _ Hwf).
  destruct (short_weight W I ns v w HW Hp) as [_ Hub]; [lia|]. destruct HW. lia.
Qed.

Lemma complete_start d prev : bf_inv d prev -> complete 0 d.
Proof using.
  intros Hi ns v w Hp Hl. destruct Hp as [s Hs Hn|ns u v w c Hp He]; [by apply (bf_source _ _ Hi)|].
  cbn in Hl. destruct Hp; cbn in Hl; lia.
Qed.

Lemma complete_round k d d' : (S k < length (adj_list_ g))%nat -> complete k d -> below d d' ->
  (forall u v c, wedge g u v c -> at_node d u < INT32_MAX -> at_node d' v <= at_node d u + c) ->
  complete 0 d' -> complete (S k) d'.
Proof using Hwf HW.
  intros Hk Hc Hb Hall H0 ns v w Hp Hl. destruct Hp as [s Hs Hn|ns u v w c Hp He].
  - apply (H0 [s]); [by constructor|cbn; lia].
  - cbn [length] in Hl. assert (length ns <= S k)%nat as Hl' by lia.
    pose proof (Hc ns u w Hp Hl'). pose proof (Hall u v c He (wpath_found k d ns u w Hc ltac:(lia) Hp Hl')). lia.
Qed.

(** A round that changes nothing leaves nothing to do. *)
Lemma complete_stable k d : complete 0 d -> 
  (forall u v c, wedge g u v c -> at_node d u < INT32_MAX -> at_node d v <= at_node d u + c) ->
  (k < length (adj_list_ g))%nat -> complete k d.
Proof using Hwf HW.
  intros H0 Hall. induction k as [|k IH]; intros Hk; [done|].
  apply (complete_round k d d); [lia|apply IH; lia|by intros v Hv|done|done].
Qed.

Lemma relax_rounds_spec k : forall j d prev, bf_inv d prev -> complete j d -> (j + k < length (adj_list_ g))%nat ->
  exists d' prev' conv, relax_rounds k g d prev = Ret (d', prev', conv) /\ bf_inv d' prev' /\ complete (j + k) d'.
Proof using Hwf HW Hneg.
  induction k as [|k IH]; intros j d prev Hi Hc Hj; cbn [relax_rounds].
  { exists d, prev, false. rewrite Nat.add_0_r. done. }
  assert (Forall (node g) (seqZ 0 (num_nodes_ g))) as Hnodes.
  { apply Forall_forall. intros v. rewrite elem_of_seqZ. unfold node. lia. }
  destruct (relax_nodes_spec (seqZ 0 (num_nodes_ g)) d prev false Hi Hnodes) as (d1 & prev1 & upd & Hr & Hi1 & Hb1 & Hall & Hupd).
  unfold getNodeCount. rewrite Hr. ret_step.
  assert (forall u v c, wedge g u v c -> at_node d u < INT32_MAX -> at_node d1 v <= at_node d u + c) as Hall'.
  { intros u v c He. apply Hall; [|done]. destruct (wedge_nodes _ _ _ He) as [Hu _]. rewrite elem_of_seqZ. unfold node in Hu. lia. }
  destruct upd; cbn [negb].
  - destruct (IH (S j) d1 prev1 Hi1) as (d' & prev' & conv & Hr' & Hi' & Hc'); [|lia|].
    { apply (complete_round j d d1); [lia|done|done|done|by apply (complete_start d1 prev1)]. }
    exists d', prev', conv. split; [exact Hr'|]. split; [done|]. by replace (j + S k)%nat with (S j + k)%nat by lia.
  - destruct (Hupd eq_refl) as [_ ->]. exists d, prev1, true. split; [done|]. split; [done|].
    apply complete_stable; [by apply (complete_start d prev1)|done|lia].
Qed.

(** The distances after all rounds are right. *)
Lemma complete_distance d prev v : bf_inv d prev -> complete (pred (length (adj_list_ g))) d -> node g v ->
  is_distance g I v (at_node d v).
Proof using Hwf HW Hneg.
  intros Hi Hc Hv. pose proof (wf_nodes _ Hwf) as Hn.
  assert (forall ns w, wpath g I ns v w -> at_node d v <= w /\ at_node d v < INT32_MAX) as Hmin.
  { intros ns w Hp. destruct (wpath_simple ns v w Hneg Hp) as (ns' & w' & Hp' & Hnd & Hle).
    destruct (wpath_nodes _ _ _ _ Hp') as (_ & Hf & _). pose proof (length_simple ns' Hnd Hf) as Hl.
    assert (length ns' <= S (pred (length (adj_list_ g))))%nat as Hl' by lia.
    pose proof (Hc ns' v w' Hp' Hl'). unfold node in Hv.
    pose proof (wpath_found _ d ns' v w' Hc ltac:(lia) Hp' Hl'). lia. }
  destruct (decide (at_node d v = INT32_MAX)) as [E|Hne].
  - left. split; [done|]. intros ns w Hp. destruct (Hmin ns w Hp). lia.
  - right. destruct (bf_walk _ _ Hi v Hv Hne) as (ns & Hp%gpath_wpath & _). split; [by exists ns|].
    intros ns' w Hp'. by apply (Hmin ns' w).
Qed.
End relax.
End search.

(** ** The predecessors lead to the source *)
Section reconstruction.
Context (g : Graph) (Hwf : wf_graph g) (I : Z -> Prop).

Lemma pchain_unique d p v ms : pchain g I d p v ms -> forall ms', pchain g I d p v ms' -> ms = ms'.
Proof using Hwf.
  induction 1 as [s Hs Hn Hz Hp|u v c ms Hp He Hle Hc IH]; intros ms' H'.
  - destruct H' as [|u v c ms' Hp' He' _ _]; [done|]. rewrite Hp in Hp'. injection Hp' as <-.
    destruct (wedge_nodes g Hwf _ _ _ He') as [Hu _]. unfold node in Hu. lia.
  - destruct H' as [s Hs Hn Hz Hp'|u' v c' ms' Hp' He' _ Hc'].
    + rewrite Hp in Hp'. injection Hp' as ->. destruct (wedge_nodes g Hwf _ _ _ He) as [Hu _]. unfold node in Hu. lia.
    + f_equal. apply IH. congruence.
Qed.

Lemma pchain_suffix d p v ms x : pchain g I d p v ms -> x ∈ ms -> exists ms', pchain g I d p x ms' /\ (length ms' <= length ms)%nat.
Proof using.
  induction 1 as [s Hs Hn Hz Hp|u v c ms Hp He Hle Hc IH]; intros Hx.
  - apply list_elem_of_singleton in Hx as ->. exists [s]. split; [by constructor|done].
  - apply elem_of_cons in Hx as [->|Hx]; [exists (v :: ms); split; [by apply pc_step with u c|done]|].
    destruct (IH Hx) as (ms' & H1 & H2). exists ms'. split; [done|]. cbn. lia.
Qed.

Lemma pchain_NoDup d p v ms : pchain g I d p v ms -> NoDup ms /\ Forall (node g) ms.
Proof using Hwf.
  induction 1 as [s Hs Hn Hz Hp|u v c ms Hp He Hle Hc [IH1 IH2]]; [split; [apply NoDup_singleton|by apply Forall_singleton]|].
  destruct (wedge_nodes g Hwf _ _ _ He) as [_ Hv]. split; constructor; try done. intros Hin.
  destruct (pchain_suffix d p u ms v Hc Hin) as (ms' & Hm & Hl).
  assert (pchain g I d p v (v :: ms)) as Hm' by (by apply pc_step with u c).
  rewrite (pchain_unique _ _ _ _ Hm _ Hm') in Hl. cbn in Hl. lia.
Qed.

Lemma previous_loop_spec d p v ms : pchain g I d p v ms -> forall fuel, (length ms < fuel)%nat -> previous_loop fuel p v = Ret ms.
Proof using Hwf.
  induction 1 as [s Hs Hn Hz Hp|u v c ms Hp He Hle Hc IH]; intros [|fuel] Hf; cbn [length previous_loop] in *; try lia.
  - unfold node in Hn. rewrite decide_False by lia. rewrite (vgetz_Some _ _ _ (proj1 Hn) Hp). ret_step.
    destruct fuel as [|fuel]; [lia|]. cbn [previous_loop]. by rewrite decide_True.
  - destruct (wedge_nodes g Hwf _ _ _ He) as [_ Hv]. unfold node in Hv. rewrite decide_False by lia.
    rewrite (vgetz_Some _ _ _ (proj1 Hv) Hp). ret_step. rewrite IH by lia. done.
Qed.

Lemma pchain_wpath d p v ms : (forall s, I s -> node g s -> 0 <= at_node d s) -> pchain g I d p v ms ->
  exists w, wpath g I ms v w /\ w <= at_node d v.
Proof using.
  intros H0. induction 1 as [s Hs Hn Hz Hp|u v c ms Hp He Hle Hc (w & IH1 & IH2)].
  - exists 0. split; [by constructor|by apply H0].
  - exists (w + c). split; [by apply wp_snoc with u|lia].
Qed.
End reconstruction.

(** ** Without assumptions on the weights *)
Section unbounded.
Context (g : Graph) (Hwf : wf_graph g).

(** The distances of [hasNegativeCycle] never exceed 0. *)
Definition potential d : Prop := length d = length (adj_list_ g) /\ forall v, node g v -> at_node d v <= 0.

(** No edge can be relaxed. *)
Definition stable d (es : Z -> Edge -> Prop) : Prop := forall u e, es u e -> at_node d (to_ e) <= at_node d u + weight_ e.

Lemma add32_cases a b : add32 a b = Undef \/ add32 a b = Ret (a + b).
Proof. unfold add32. case_decide; auto. Qed.

Lemma relax_edges_total u edges : forall d upd, potential d -> node g u -> Forall (fun e => node g (to_ e)) edges ->
  relax_edges u edges d None upd = Undef \/
  exists d' upd', relax_edges u edges d None upd = Ret (d', None, upd') /\ potential d' /\
    (upd' = false -> upd = false /\ d' = d /\ stable d (fun u' e => u' = u /\ e ∈ edges)).
Proof using Hwf.
  induction edges as [|e edges IH]; intros d upd [Hl Hd] Hu Hes; cbn [relax_edges].
  { right. exists d, upd. split; [done|]. split; [done|]. intros Hf. split; [done|]. split; [done|].
    by intros u' e [_ ?%elem_of_nil]. }
  apply Forall_cons in Hes as [Hv Hes]. rewrite (get_at g Hwf d u Hl Hu). ret_step.
  destruct (add32_cases (at_node d u) (weight_ e)) as [->| ->]; [by left|]. ret_step.
  rewrite (get_at g Hwf d _ Hl Hv). ret_step. case_decide as Hrel.
  - rewrite (set_at g Hwf) by done. cbn [set_previous]. repeat ret_step.
    destruct (IH (<[Z.to_nat (to_ e) := at_node d u + weight_ e]> d) true) as [->|(d' & upd' & -> & Hd' & Hupd)];
      [|done|done|by left|right].
    + split; [by rewrite length_insert|]. intros v Hv'. rewrite (at_insert g Hwf) by done.
      case_decide; [|by apply Hd]. specialize (Hd _ Hv). lia.
    + exists d', upd'. split; [done|]. split; [done|]. intros Hf. by destruct (Hupd Hf).
  - destruct (IH d upd (conj Hl Hd) Hu Hes) as [->|(d' & upd' & -> & Hd' & Hupd)]; [by left|right].
    exists d', upd'. split; [done|]. split; [done|]. intros Hf. destruct (Hupd Hf) as (H1 & H2 & H3).
    split; [done|]. split; [done|]. intros u' e' [-> [->|He']%elem_of_cons]; [lia|by apply H3].
Qed.

Lemma targets_nodes u : node g u -> Forall (fun e => node g (to_ e)) (adj g u).
Proof using Hwf.
  intros Hu. apply Forall_forall. intros e He. apply (edge_node g u _ Hwf). split; [done|]. apply list_elem_of_fmap. by exists e.
Qed.

Lemma potential_small d u : potential d -> node g u -> at_node d u <> INT32_MAX.
Proof using. intros [_ Hd] Hu. specialize (Hd u Hu). unfold INT32_MAX. lia. Qed.

Lemma relax_nodes_total us : forall d upd, potential d -> Forall (node g) us ->
  relax_nodes g us d None upd = Undef \/
  exists d' upd', relax_nodes g us d None upd = Ret (d', None, upd') /\ potential d' /\
    (upd' = false -> upd = false /\ d' = d /\ stable d (fun u e => u ∈ us /\ e ∈ adj g u)).
Proof using Hwf.
  induction us as [|u us IH]; intros d upd Hd Hus; cbn [relax_nodes].
  { right. exists d, upd. split; [done|]. split; [done|]. intros Hf. split; [done|]. split; [done|].
    by intros u' e [?%elem_of_nil _]. }
  apply Forall_cons in Hus as [Hu Hus]. rewrite (get_at g Hwf d u (proj1 Hd) Hu). ret_step.
  rewrite decide_False by (by apply potential_small). destruct (adj_ok g u Hwf Hu) as [_ ->]. ret_step.
  destruct (relax_edges_total u (adj g u) d upd Hd Hu (targets_nodes u Hu)) as [->|(d1 & upd1 & -> & Hd1 & Hupd1)]; [by left|].
  ret_step. destruct (IH d1 upd1 Hd1 Hus) as [->|(d' & upd' & -> & Hd' & Hupd)]; [by left|right].
  exists d', upd'. split; [done|]. split; [done|]. intros Hf. destruct (Hupd Hf) as (Hf1 & -> & H3).
  destruct (Hupd1 Hf1) as (-> & -> & H4). split; [done|]. split; [done|].
  intros u' e [[->|Hu']%elem_of_cons He]; [by apply H4|by apply H3].
Qed.

Definition nodes_of : list Z := seqZ 0 (num_nodes_ g).

Lemma nodes_of_node : Forall (node g) nodes_of.
Proof using. apply Forall_forall. intros v. unfold nodes_of. rewrite elem_of_seqZ. unfold node. lia. Qed.

Lemma relax_rounds_total k : forall d, potential d ->
  relax_rounds k g d None = Undef \/
  exists d' conv, relax_rounds k g d None = Ret (d', None, conv) /\ potential d' /\
    (conv = true -> stable d' (fun u e => u ∈ nodes_of /\ e ∈ adj g u)).
Proof using Hwf.
  induction k as [|k IH]; intros d Hd; cbn [relax_rounds]; [right; by exists d, false|].
  destruct (relax_nodes_total nodes_of d false Hd nodes_of_node) as [E|(d1 & upd & E & Hd1 & Hupd)];
    unfold nodes_of in E; unfold getNodeCount; rewrite E; [by left|]. ret_step. destruct upd; cbn [negb].
  - destruct (IH d1 Hd1) as [->|H]; [by left|by right].
  - destruct (Hupd eq_refl) as (_ & -> & Hs). right. by exists d, true.
Qed.

Lemma can_relax_edges_total u edges d : potential d -> node g u -> Forall (fun e => node g (to_ e)) edges ->
  can_relax_edges u edges d = Undef \/
  exists b, can_relax_edges u edges d = Ret b /\ (b = false -> stable d (fun u' e => u' = u /\ e ∈ edges)).
Proof using Hwf.
  intros [Hl Hd] Hu. induction edges as [|e edges IH]; intros Hes; cbn [can_relax_edges].
  { right. exists false. split; [done|]. by intros _ u' e [_ ?%elem_of_nil]. }
  apply Forall_cons in Hes as [Hv Hes]. rewrite (get_at g Hwf d u Hl Hu). ret_step.
  destruct (add32_cases (at_node d u) (weight_ e)) as [->| ->]; [by left|]. ret_step.
  rewrite (get_at g Hwf d _ Hl Hv). ret_step. case_decide as Hrel; [right; by exists true|].
  destruct (IH Hes) as [->|(b & -> & Hb)]; [by left|right]. exists b. split; [done|]. intros Hf.
  intros u' e' [-> [->|He']%elem_of_cons]; [lia|by apply (Hb Hf)].
Qed.

Lemma can_relax_total us d : potential d -> Forall (node g) us ->
  can_relax g us d = Undef \/
  exists b, can_relax g us d = Ret b /\ (b = false -> stable d (fun u e => u ∈ us /\ e ∈ adj g u)).
Proof using Hwf.
  intros Hd. induction us as [|u us IH]; intros Hus; cbn [can_relax].
  { right. exists false. split; [done|]. by intros _ u' e [?%elem_of_nil _]. }
  apply Forall_cons in Hus as [Hu Hus]. rewrite (get_at g Hwf d u (proj1 Hd) Hu). ret_step.
  rewrite decide_False by (by apply potential_small). destruct (adj_ok g u Hwf Hu) as [_ ->]. ret_step.
  destruct (can_relax_edges_total u (adj g u) d Hd Hu (targets_nodes u Hu)) as [->|(b & -> & Hb)]; [by left|].
  ret_step. destruct b; [right; by exists true|].
  destruct (IH Hus) as [->|(b & -> & Hb')]; [by left|right]. exists b. split; [done|]. intros Hf.
  intros u' e [[->|Hu']%elem_of_cons He]; [by apply Hb|by apply (Hb' Hf)].
Qed.

(** A potential no edge can lower excludes negative cycles. *)
Lemma stable_no_negative_cycle d J : stable d (fun u e => u ∈ nodes_of /\ e ∈ adj g u) -> no_negative_cycle g J.
Proof using Hwf.
  intros Hs v _ _ ns w _. assert (forall ns u w, wpath g (eq v) ns u w -> at_node d u <= at_node d v + w) as Hle.
  { induction 1 as [s <- Hn|ns' u' x w' c Hp IH [Hn He]]; [lia|].
    assert (u' ∈ nodes_of) as Hin by (unfold nodes_of; rewrite elem_of_seqZ; unfold node in Hn; lia).
    pose proof (Hs u' (mkEdge x c) (conj Hin He)) as Hx. cbn in Hx. lia. }
  intros Hp. specialize (Hle _ _ _ Hp). lia.
Qed.
End unbounded.

(** In a stable state the last pass finds nothing and overflows nowhere. *)
Section last_pass.
Context (g : Graph) (Hwf : wf_graph g) (I : Z -> Prop) (tracked : bool) (W : Z) (HW : weights_fit g W).

Lemma can_relax_edges_false d prev u edges : bf_inv g I tracked d prev -> node g u -> at_node d u <> INT32_MAX ->
  Forall (fun e => wedge g u (to_ e) (weight_ e)) edges ->
  (forall u v c, wedge g u v c -> ~ (at_node d u + c < at_node d v)) -> can_relax_edges u edges d = Ret false.
Proof using Hwf HW.
  intros Hi Hu Hne Hes Hst. pose proof (bf_len _ _ _ _ _ Hi) as Hlen. induction Hes as [|e edges He Hes IH]; cbn [can_relax_edges]; [done|].
  destruct (wedge_nodes g Hwf _ _ _ He) as [_ Hv]. rewrite (get_at g Hwf d u Hlen Hu). ret_step.
  destruct (bf_bound g Hwf I tracked W HW d prev u Hi Hu) as [?|Hb]; [done|].
  assert (- W <= weight_ e <= W) as Hc by (destruct HW as (_ & _ & Hc); by eapply Hc).
  rewrite add32_in by (unfold in_i32, INT32_MIN, INT32_MAX in *; lia). ret_step. rewrite (get_at g Hwf d _ Hlen Hv). ret_step.
  rewrite decide_False by (by apply Hst). exact IH.
Qed.

Lemma can_relax_false d prev : bf_inv g I tracked d prev -> (forall v, node g v -> at_node d v <= 0) ->
  (forall u v c, wedge g u v c -> ~ (at_node d u + c < at_node d v)) -> can_relax g (seqZ 0 (num_nodes_ g)) d = Ret false.
Proof using Hwf HW.
  intros Hi Hd Hst. pose proof (nodes_of_node g) as Hus. unfold nodes_of in Hus.
  induction Hus as [|u us Hu Hus IH]; cbn [can_relax]; [done|].
  rewrite (get_at g Hwf d u (bf_len _ _ _ _ _ Hi) Hu). ret_step.
  assert (at_node d u <> INT32_MAX) as Hne by (specialize (Hd u Hu); unfold INT32_MAX; lia).
  rewrite decide_False by done. destruct (adj_ok g u Hwf Hu) as [_ ->]. ret_step.
  rewrite (can_relax_edges_false d prev) by (done || by apply adj_wedges). ret_step. exact IH.
Qed.
End last_pass.

(** ** Properties *)

Lemma at_replicate n x v : (0 <= v < Z.of_nat n) -> at_node (replicate n x) v = x.
Proof. intros Hv. unfold at_node. by rewrite lookup_replicate_2 by lia. Qed.

Lemma start_inv g s : wf_graph g -> node g s ->
  bf_inv g (eq s) true (<[Z.to_nat s := 0]> (replicate (Z.to_nat (num_nodes_ g)) INT32_MAX))
    (Some (replicate (Z.to_nat (num_nodes_ g)) (-1))).
Proof.
  intros Hwf Hs. pose proof (wf_nodes _ Hwf) as Hn.
  assert (length (replicate (Z.to_nat (num_nodes_ g)) INT32_MAX) = length (adj_list_ g)) as Hlen
    by (rewrite length_replicate; lia).
  assert (forall v, node g v -> at_node (<[Z.to_nat s := 0]> (replicate (Z.to_nat (num_nodes_ g)) INT32_MAX)) v =
    if decide (v = s) then 0 else INT32_MAX) as Hat.
  { intros v Hv. rewrite (at_insert g Hwf) by done. unfold node in Hv. by rewrite at_replicate by lia. }
  split.
  - by rewrite length_insert.
  - intros s' <- _. by rewrite Hat, decide_True by done.
  - intros v Hv. rewrite Hat by done. case_decide as Hc; [subst v; intros _|done]. exists [s].
    split; [|apply NoDup_singleton]. constructor; [done|done|]. by rewrite Hat, decide_True by done.
  - split; [done|]. split; [rewrite length_replicate; lia|]. intros v Hv. rewrite Hat by done.
    case_decide as Hc; [subst v; intros _|done].
    exists [s]. constructor; [done|done|by rewrite Hat, decide_True by done|].
    unfold node in Hs. apply lookup_replicate_2. lia.
Qed.

(** What the distances and predecessors are worth once nothing is left to relax. *)
Lemma result_ok g s W d p v : wf_graph g -> node g s -> weights_fit g W -> no_negative_cycle g (eq s) ->
  bf_inv g (eq s) true d (Some p) -> complete g (eq s) (pred (length (adj_list_ g))) d -> node g v ->
  is_distance g (eq s) v (at_node d v) /\
  forall t, exists path, reconstructPath (mkShortest s t d p) v = Ret path /\
    if decide (at_node d v = INT32_MAX) then path = [] else wpath g (eq s) (rev path) v (at_node d v).
Proof.
  intros Hwf Hs HW Hneg Hi Hc Hv. pose proof (wf_nodes _ Hwf) as Hn. destruct (bf_prev _ _ _ _ _ Hi) as (_ & Hlp & Hch). pose proof (bf_len _ _ _ _ _ Hi) as Hlen.
  assert (forall v, node g v -> is_distance g (eq s) v (at_node d v)) as Hdist
    by (intros x Hx; by apply (complete_distance g Hwf (eq s) true W HW Hneg d (Some p))).
  split; [by apply Hdist|]. intros t. unfold reconstructPath. cbn [distance previous].
  pose proof Hv as Hv'. unfold node in Hv'. rewrite decide_False by lia. rewrite (get_at g Hwf d v Hlen Hv). ret_step.
  case_decide as Hmax; [by exists []|]. destruct (Hch v Hv Hmax) as [ms Hms].
  destruct (pchain_NoDup g Hwf _ _ _ _ _ Hms) as [Hnd Hf]. pose proof (length_simple g Hwf ms Hnd Hf) as Hl.
  rewrite (previous_loop_spec g Hwf (eq s) d p v ms Hms) by lia. ret_step. exists (rev ms). split; [done|]. rewrite rev_involutive.
  destruct (pchain_wpath g (eq s) d p v ms) as (w & Hw & Hle); [|done|].
  { intros s0 <- _. destruct (Hdist s Hs) as [[-> _]|[(ns & Hns) _]]; [unfold INT32_MAX; lia|]. by eapply Hneg. }
  destruct (Hdist v Hv) as [[? _]|[_ Hmin]]; [done|]. specialize (Hmin _ _ Hw).
  by replace (at_node d v) with w by lia.
Qed.

Lemma is_distance_unique g J v x y : is_distance g J v x -> is_distance g J v y -> x = y.
Proof.
  intros [[-> Hx]|[[ns Hx] Hx']] [[-> Hy]|[[ns' Hy] Hy']]; [done|by destruct (Hx ns' y)|by destruct (Hy ns x)|].
  specialize (Hx' _ _ Hy). specialize (Hy' _ _ Hx). lia.
Qed.

Lemma bellman_ford_ok g s W : wf_graph g -> node g s -> weights_fit g W -> no_negative_cycle g (eq s) ->
  exists d p, shortestPath g s = Ret (mkShortest s (-1) d p) /\ bf_inv g (eq s) true d (Some p) /\ complete g (eq s) (pred (length (adj_list_ g))) d.
Proof.
  intros Hwf Hs HW Hneg. pose proof (wf_nodes _ Hwf) as Hn. pose proof Hs as Hs'. unfold node in Hs'.
  unfold shortestPath, getNodeCount. rewrite decide_False by lia.
  rewrite (set_at g Hwf) by (done || rewrite length_replicate; lia). ret_step.
  pose proof (start_inv g s Hwf Hs) as Hi. set (d0 := <[_ := 0]> _) in *.
  destruct (relax_rounds_spec g Hwf (eq s) true W HW Hneg (Z.to_nat (num_nodes_ g - 1)) 0 d0 _ Hi) as (d & prev & conv & Hr & Hi' & Hc);
    [by eapply complete_start|lia|].
  rewrite Hr. ret_step. replace (0 + Z.to_nat (num_nodes_ g - 1))%nat with (pred (length (adj_list_ g))) in Hc by lia.
  pose proof (bf_prev _ _ _ _ _ Hi') as Hp. destruct prev as [p|]; [|done]. by exists d, p.
Qed.

(** from a node of a graph without a negative cycle within its reach, and with
    weights of which [n] together fit, [shortestPath] is defined, its distances are
    the least weights of walks from the source (and [INT32_MAX] where no walk
    leads), and [reconstructPath] returns the nodes of a walk of that weight. *)
Theorem bellman_ford_shortest g s W : wf_graph g -> node g s -> weights_fit g W -> no_negative_cycle g (eq s) ->
  exists r, shortestPath g s = Ret r /\ source r = s /\ length (distance r) = length (adj_list_ g) /\
    forall v, node g v -> is_distance g (eq s) v (at_node (distance r) v) /\
      exists path, reconstructPath r v = Ret path /\
        if decide (at_node (distance r) v = INT32_MAX) then path = []
        else wpath g (eq s) (rev path) v (at_node (distance r) v).
Proof.
  intros Hwf Hs HW Hneg. destruct (bellman_ford_ok g s W Hwf Hs HW Hneg) as (d & p & -> & Hi & Hc). eexists. split; [done|]. split; [done|].
  split; [apply (bf_len _ _ _ _ _ Hi)|]. intros v Hv. destruct (result_ok g s W d p v Hwf Hs HW Hneg Hi Hc Hv) as [Hdist Hpath]. split; [exact Hdist|exact (Hpath (-1))].
Qed.

Lemma zeros_inv g : wf_graph g -> bf_inv g (fun _ => True) false (replicate (Z.to_nat (num_nodes_ g)) 0) None.
Proof.
  intros Hwf. pose proof (wf_nodes _ Hwf) as Hn.
  assert (forall v, node g v -> at_node (replicate (Z.to_nat (num_nodes_ g)) 0) v = 0) as Hat.
  { intros v Hv. unfold node in Hv. apply at_replicate. lia. }
  split; [rewrite length_replicate; lia|intros s _ Hs; by rewrite Hat| |done].
  intros v Hv _. rewrite Hat by done. exists [v]. split; [|apply NoDup_singleton]. constructor; [done|done|by rewrite Hat].
Qed.

Lemma no_nodes_no_cycle g J : num_nodes_ g = 0 -> no_negative_cycle g J.
Proof.
  intros Hn v ns w ns' w' Hp _. exfalso.
  assert (exists u, node g u) as [u Hu]; [|unfold node in Hu; lia].
  induction Hp as [s _ Hs|ns u v w c _ IH _]; [by exists s|done].
Qed.

(** whatever the weights, [hasNegativeCycle] either overflows an [int32_t] or
    returns, and when it returns false there is no negative cycle; with weights of
    which [n] together fit it returns false whenever there is none. *)
Theorem bellman_ford_negative_cycle g : wf_graph g ->
  (hasNegativeCycle g = Undef \/
   exists b, hasNegativeCycle g = Ret b /\ (b = false -> no_negative_cycle g (fun _ => True))) /\
  (forall W, weights_fit g W -> no_negative_cycle g (fun _ => True) -> hasNegativeCycle g = Ret false).
Proof.
  intros Hwf. pose proof (wf_nodes _ Hwf) as Hn. unfold hasNegativeCycle, getNodeCount.
  case_decide as H0; [split; [right; exists false; split; [done|]; intros _; by apply no_nodes_no_cycle|done]|].
  pose proof (zeros_inv g Hwf) as Hi. set (d0 := replicate _ 0) in *.
  assert (potential g d0) as Hd0 by (split; [apply Hi|intros v Hv; by apply (bf_source _ _ _ _ _ Hi v)]).
  destruct (relax_rounds_total g Hwf (Z.to_nat (num_nodes_ g - 1)) d0 Hd0) as [Hr|(d & conv & Hr & Hd & Hst)]; rewrite Hr.
  { split; [by left|]. intros W HW Hneg. exfalso.
    destruct (relax_rounds_spec g Hwf _ false W HW Hneg (Z.to_nat (num_nodes_ g - 1)) 0 d0 None Hi) as (d & prev & conv & Hr' & _);
      [by eapply complete_start|lia|]. congruence. }
  ret_step. split.
  - destruct conv; [right; exists false; split; [done|]; intros _; by apply (stable_no_negative_cycle g Hwf d), Hst|].
    change (seqZ 0 (num_nodes_ g)) with (nodes_of g).
    destruct (can_relax_total g Hwf (nodes_of g) d Hd (nodes_of_node g)) as [->|(b & -> & Hb)]; [by left|right].
    exists b. split; [done|]. intros Hf. by apply (stable_no_negative_cycle g Hwf d), Hb.
  - intros W HW Hneg. destruct conv; [done|].
    destruct (relax_rounds_spec g Hwf _ false W HW Hneg (Z.to_nat (num_nodes_ g - 1)) 0 d0 None Hi) as (d' & prev & conv & Hr' & Hi' & Hc);
      [by eapply complete_start|lia|]. rewrite Hr in Hr'. injection Hr' as <- <- <-.
    assert (forall u v c, wedge g u v c -> ~ (at_node d u + c < at_node d v)) as Hstable.
    { intros u v c He Hlt. destruct (wedge_nodes g Hwf _ _ _ He) as [Hu Hv].
      assert (complete g (fun _ => True) (pred (length (adj_list_ g))) d) as Hc'.
      { replace (pred (length (adj_list_ g))) with (0 + Z.to_nat (num_nodes_ g - 1))%nat by lia. done. }
      destruct (complete_distance g Hwf _ false W HW Hneg d None u Hi' Hc' Hu) as [[E _]|[(ns & Hns) _]].
      { by apply (potential_small g d u Hd Hu). }
      destruct (complete_distance g Hwf _ false W HW Hneg d None v Hi' Hc' Hv) as [[E _]|[_ Hmin]].
      { by apply (potential_small g d v Hd Hv). }
      pose proof (Hmin (v :: ns) (at_node d u + c) (wp_snoc g _ ns u v _ c Hns He)). lia. }
    apply (can_relax_false g Hwf _ false W HW d None Hi' (proj2 Hd) Hstable).
Qed.

Section bellman_ford_witnesses.

(** A negative edge, an unreachable node and no cycle. *)
Definition sample_edges : list (Z * Z * Z) := [(0, 1, 4); (0, 2, 5); (2, 1, -3); (1, 3, 2)].

Lemma sample_graph : exists g, (g0 ← graph_new 5; addEdges g0 sample_edges) = Ret g /\ wf_graph g /\ num_nodes_ g = 5.
Proof.
  destruct (graph_new_ok 5) as (g0 & H0 & Hwf0 & Hn0 & _); [done|]. rewrite H0. ret_step.
  destruct (addEdges_ok sample_edges g0) as (g & -> & Hwf & Hn); [done| | |].
  - unfold node. rewrite Hn0. repeat constructor; lia.
  - injection H0 as <-. done.
  - exists g. split; [done|]. split; [done|congruence].
Qed.

Lemma edge_cases (g : Graph) u v c : num_nodes_ g = 5 -> wedge g u v c ->
  u ∈ [0; 1; 2; 3; 4] /\ mkEdge v c ∈ adj g u.
Proof.
  intros Hn [Hu He]. split; [|done]. unfold node in Hu. rewrite !elem_of_cons.
  assert (u = 0 \/ u = 1 \/ u = 2 \/ u = 3 \/ u = 4) by lia. tauto.
Qed.

Lemma sample_facts : exists g, (g0 ← graph_new 5; addEdges g0 sample_edges) = Ret g /\ wf_graph g /\
  weights_fit g 5 /\ no_negative_cycle g (fun _ => True).
Proof.
  destruct sample_graph as (g & Hg & Hwf & Hn). exists g. split; [done|]. split; [done|].
  vm_compute in Hg. injection Hg as <-. set (g := mkGraph _ _ _) in *. split.
  - split; [done|]. split; [done|]. intros u v c [Hu He]%(edge_cases g u v c Hn).
    repeat (apply elem_of_cons in Hu as [->|Hu]; [vm_compute in He; repeat (apply elem_of_cons in He as [[= -> ->]|He]; [lia|]); by apply elem_of_nil in He|]).
    by apply elem_of_nil in Hu.
  - apply (stable_no_negative_cycle g Hwf [0; 2; 5; 4; 0]). intros u [v c] [Hu He].
    assert (wedge g u v c) as [Hu' He']%(edge_cases g u v c Hn)
      by (split; [unfold nodes_of in Hu; rewrite elem_of_seqZ in Hu; exact Hu|done]).
    clear Hu He. repeat (apply elem_of_cons in Hu' as [->|Hu']; [vm_compute in He'; repeat (apply elem_of_cons in He' as [[= -> ->]|He']; [vm_compute; congruence|]); by apply elem_of_nil in He'|]).
    by apply elem_of_nil in Hu'.
Qed.

Lemma bellman_ford_shortest_witness :
  exists g r path, (g0 ← graph_new 5; addEdges g0 sample_edges) = Ret g /\ shortestPath g 0 = Ret r /\
    distance r = [0; 2; 5; 4; INT32_MAX] /\ reconstructPath r 3 = Ret path /\ wpath g (eq 0) (rev path) 3 4 /\
    is_distance g (eq 0) 3 4.
Proof.
  destruct sample_facts as (g & Hg & Hwf & HW & Hneg). vm_compute in Hg. injection Hg as <-. set (g := mkGraph _ _ _) in *.
  destruct (bellman_ford_shortest g 0 5 Hwf) as (r & Hr & _ & _ & Hall); [by vm_compute|done| |].
  { intros v ns w ns' w' _ H2. apply (Hneg v [v] 0 ns' w'); [|done]. constructor; [done|].
    destruct (wpath_nodes g Hwf _ _ _ _ H2) as (? & _). done. }
  assert (distance r = [0; 2; 5; 4; INT32_MAX]) as Hd by (vm_compute in Hr; by injection Hr as <-).
  destruct (Hall 3) as [Hdist (path & Hpath & Hwalk)]; [by vm_compute|]. rewrite Hd in Hdist, Hwalk. cbn in Hdist, Hwalk.
  exists g, r, path. split; [reflexivity|]. split; [exact Hr|]. split; [exact Hd|]. split; [exact Hpath|].
  split; [exact Hwalk|exact Hdist].
Defined.

Lemma bellman_ford_negative_witness :
  exists g, (g0 ← graph_new 5; addEdges g0 sample_edges) = Ret g /\ hasNegativeCycle g = Ret false.
Proof.
  destruct sample_facts as (g & Hg & Hwf & HW & Hneg). exists g. split; [exact Hg|].
  exact (proj2 (bellman_ford_negative_cycle g Hwf) 5 HW Hneg).
Defined.

(** A cycle of weight -1 is reported, and with large weights it overflows. *)
Example negative_cycle_found :
  (g ← graph_new 3; g ← addEdges g [(0, 1, 1); (1, 2, -3); (2, 0, 1)]; hasNegativeCycle g) = Ret true.
Proof. vm_compute. reflexivity. Qed.

Example negative_cycle_overflow :
  (g ← graph_new 3; g ← addEdges g [(0, 1, -1000000000); (1, 2, -1000000000); (2, 0, -1000000000)]; hasNegativeCycle g) = Undef.
Proof. vm_compute. reflexivity. Qed.
End bellman_ford_witnesses.
