(* ===== verification/RobinHood.v ===== *)
(** * Robin Hood hash map ([data_structure/hash/RobinHoodHashMap.hpp])

    Open addressing with linear probing: every entry remembers its distance from
    its ideal slot ([psr]), an entry further away takes the slot of one closer to
    home, and erasing shifts the following entries back.  The hash function and
    the load test and quotient in floating point are parameters; [KeyEqual] is equality.  A
    [psr] is an [int32_t] that is never negative, and stepping it past [INT32_MAX] is undefined: the contract ends at [2^31] slots.

    The probe loops visit a slot at most once as long as one slot is free: the
    number of slots plus one is enough fuel. *)

From S2P Require Import Prelude Refinement Circular.

(** ** Capacities *)
Definition next_power_of_two (n : Z) : Z :=
  if decide (n <= 1)%Z then 1%Z else
  u64 (smear 32 (smear 16 (smear 8 (smear 4 (smear 2 (smear 1 (n - 1))))))  + 1).

Definition INITIAL_CAPACITY : Z := 8.

Inductive State := EMPTY | OCCUPIED | TOMBSTONE.

#[global] Instance State_eq_dec : EqDecision State.
Proof. solve_decision. Defined.

Record Slot (K V : Type) := mkSlot { state : State; psr : nat; key : K; value : V }.
Arguments mkSlot {K V} state psr key value.
Arguments state {K V} s.
Arguments psr {K V} s.
Arguments key {K V} s.
Arguments value {K V} s.

Record RobinHoodHashMap (K V D : Type) := mkRobinHood {
  slots_ : list (Slot K V);
  size_ : nat;
  capacity_mask_ : Z;
  max_load_factor_ : D;
}.
Arguments mkRobinHood {K V D} slots_ size_ capacity_mask_ max_load_factor_.
Arguments slots_ {K V D} r.
Arguments size_ {K V D} r.
Arguments capacity_mask_ {K V D} r.
Arguments max_load_factor_ {K V D} r.

Section robin_hood.
Context {K V D : Type} `{!EqDecision K} (K_default : K) (V_default : V) (hasher : K -> Z).

(** [static_cast<double>(n) / static_cast<double>(cap) > mlf] (with 0 for the
    quotient by 0), the truncated [static_cast<double>(count) / mlf] if it is a number, and the
    default load factor 0.75. *)
Context (exceeds : D -> nat -> nat -> bool) (needed : D -> nat -> option Z) (mlf_default : D).

Implicit Types (k : K) (v : V) (s entry : Slot K V) (slots : list (Slot K V)) (mask : Z) (t : RobinHoodHashMap K V D).

Definition empty_slot : Slot K V := mkSlot EMPTY 0 K_default V_default.

Definition ideal_index mask k : nat := Z.to_nat (Z.land (u64 (hasher k)) mask).

(** [(idx + 1) & capacity_mask_] *)
Definition next_index mask (idx : nat) : nat := Z.to_nat (Z.land (u64 (Z.of_nat idx + 1)) mask).

Definition occupied s : Prop := state s = OCCUPIED.
#[global] Instance occupied_dec s : Decision (occupied s).
Proof. unfold occupied. apply _. Defined.

(** ** Lookup *)
Fixpoint find_loop (fuel : nat) slots mask k (idx dist : nat) : outcome (option nat) :=
  match fuel with
  | O => NoFuel
  | S fuel =>
    slot ← vget slots idx;
    if decide (state slot = EMPTY \/ psr slot < dist) then Ret None
    else if decide (state slot = OCCUPIED /\ key slot = k) then Ret (Some idx)
    else dist ← inc32 dist; find_loop fuel slots mask k (next_index mask idx) dist
  end.

(** [None] is [NOT_FOUND]. *)
Definition find_slot t k : outcome (option nat) :=
  if decide (slots_ t = []) then Ret None
  else find_loop (S (length (slots_ t))) (slots_ t) (capacity_mask_ t) k (ideal_index (capacity_mask_ t) k) 0.

(** ** Insertion

    The loop of [insert_entry], and with no key to check for that of
    [insert_no_resize]: the slots, the index it returns, whether it inserted. *)
Fixpoint place_loop (fuel : nat) mask slots entry (psr_ idx : nat) (key_check : option K) :
    outcome (list (Slot K V) * nat * bool) :=
  match fuel with
  | O => NoFuel
  | S fuel =>
    slot ← vget slots idx;
    if decide (occupied slot /\ key_check = Some (key slot)) then Ret (slots, idx, false)
    else if decide (~ occupied slot) then
      slots ← vset slots idx (mkSlot OCCUPIED psr_ (key entry) (value entry)); Ret (slots, idx, true)
    else if decide (psr slot < psr_) then
      slots ← vset slots idx (mkSlot OCCUPIED psr_ (key entry) (value entry));
      psr_ ← inc32 (psr slot);
      place_loop fuel mask slots slot psr_ (next_index mask idx) key_check
    else psr_ ← inc32 psr_; place_loop fuel mask slots entry psr_ (next_index mask idx) key_check
  end.

Definition insert_entry t entry k : outcome (RobinHoodHashMap K V D * nat * bool) :=
  let mask := capacity_mask_ t in
  '(slots, idx, b) ← place_loop (S (length (slots_ t))) mask (slots_ t) entry 0 (ideal_index mask (key entry)) (Some k);
  Ret (mkRobinHood slots (if (b : bool) then S (size_ t) else size_ t) mask (max_load_factor_ t), idx, b).

(** The loop has [fuel] iterations. *)
Definition insert_no_resize (fuel : nat) t entry : outcome (RobinHoodHashMap K V D) :=
  let mask := capacity_mask_ t in
  '(slots, idx, b) ← place_loop fuel mask (slots_ t) entry 0 (ideal_index mask (key entry)) None;
  Ret (mkRobinHood slots (S (size_ t)) mask (max_load_factor_ t)).

Fixpoint reinsert (fuel : nat) t (old : list (Slot K V)) : outcome (RobinHoodHashMap K V D) :=
  match old with
  | [] => Ret t
  | slot :: old =>
    if decide (occupied slot) then t ← insert_no_resize fuel t slot; reinsert fuel t old else reinsert fuel t old
  end.

Definition new_capacity_of (c : Z) : Z :=
  let c := next_power_of_two c in if decide (c < INITIAL_CAPACITY)%Z then INITIAL_CAPACITY else c.

Definition bucket_count t : nat := length (slots_ t).

Definition rehash_fuel (fuel : nat) t (new_capacity : Z) : outcome (RobinHoodHashMap K V D) :=
  let c := new_capacity_of new_capacity in
  if decide (c = Z.of_nat (bucket_count t)) then Ret t
  else reinsert fuel (mkRobinHood (replicate (Z.to_nat c) empty_slot) 0 (c - 1) (max_load_factor_ t)) (slots_ t).

Definition rehash t (new_capacity : Z) : outcome (RobinHoodHashMap K V D) :=
  rehash_fuel (S (Z.to_nat (new_capacity_of new_capacity))) t new_capacity.

Definition reserve t (count : nat) : outcome (RobinHoodHashMap K V D) :=
  c ← to_size (needed (max_load_factor_ t) count); rehash t (next_power_of_two c).

(** Member initialisers, before the constructor's body. *)
Definition no_slots : RobinHoodHashMap K V D := mkRobinHood [] 0 0 mlf_default.

Definition rh_new : outcome (RobinHoodHashMap K V D) := reserve no_slots 8.

Definition rh_sized (capacity : nat) : outcome (RobinHoodHashMap K V D) :=
  reserve no_slots (if decide (0 < capacity) then capacity else 8).

Definition ensure_capacity t : outcome (RobinHoodHashMap K V D) :=
  if decide (slots_ t = [] \/ exceeds (max_load_factor_ t) (S (size_ t)) (bucket_count t) = true) then
    rehash t (if decide (slots_ t = []) then INITIAL_CAPACITY else u64 (Z.of_nat (bucket_count t) * 2))
  else Ret t.

(** [insert]: the map, the index of the returned iterator, whether it inserted. *)
Definition insert t k v : outcome (RobinHoodHashMap K V D * nat * bool) :=
  t ← ensure_capacity t; insert_entry t (mkSlot EMPTY 0 k v) k.

(** [slots_\[idx\].value = v] *)
Definition set_value t (idx : nat) v : outcome (RobinHoodHashMap K V D) :=
  slot ← vget (slots_ t) idx;
  slots ← vset (slots_ t) idx (mkSlot (state slot) (psr slot) (key slot) v);
  Ret (mkRobinHood slots (size_ t) (capacity_mask_ t) (max_load_factor_ t)).

Definition insert_or_assign t k v : outcome (RobinHoodHashMap K V D * nat * bool) :=
  existing ← find_slot t k;
  match existing with
  | Some idx => t ← set_value t idx v; Ret (t, idx, false)
  | None => insert t k v
  end.

(** [operator\[\]] followed by an assignment through the reference it returns. *)
Definition index_assign t k v : outcome (RobinHoodHashMap K V D) :=
  '(t, idx, _) ← insert t k V_default; set_value t idx v.

(** ** Erasure by backward shift *)
Fixpoint erase_loop (fuel : nat) slots mask (idx : nat) : outcome (list (Slot K V)) :=
  match fuel with
  | O => NoFuel
  | S fuel =>
    let next := next_index mask idx in
    slot ← vget slots next;
    if decide (~ occupied slot \/ psr slot <= 0) then
      last ← vget slots idx; vset slots idx (mkSlot EMPTY 0 (key last) (value last))
    else
      slots ← vset slots idx (mkSlot (state slot) (psr slot - 1) (key slot) (value slot));
      erase_loop fuel slots mask next
  end.

Definition erase_at t (idx : nat) : outcome (RobinHoodHashMap K V D) :=
  slots ← erase_loop (S (bucket_count t)) (slots_ t) (capacity_mask_ t) idx;
  Ret (mkRobinHood slots (size_ t - 1) (capacity_mask_ t) (max_load_factor_ t)).

Definition erase t k : outcome (RobinHoodHashMap K V D * bool) :=
  r ← find_slot t k;
  match r with
  | None => Ret (t, false)
  | Some idx => t ← erase_at t idx; Ret (t, true)
  end.

(** ** Iteration: an iterator is the index of an occupied slot, [None] is [end()]. *)
Fixpoint first_occupied slots (idx : nat) : option nat :=
  match slots with
  | [] => None
  | s :: slots => if decide (occupied s) then Some idx else first_occupied slots (S idx)
  end.

Definition find_first_occupied_from t (idx : nat) : option nat := first_occupied (drop idx (slots_ t)) idx.
Definition begin t : option nat := find_first_occupied_from t 0.
Definition iterator_next t (idx : nat) : option nat := find_first_occupied_from t (S idx).

Definition erase_iterator t (idx : nat) : outcome (RobinHoodHashMap K V D * option nat) :=
  t ← erase_at t idx; Ret (t, find_first_occupied_from t idx).

(** ** The other members *)
Definition contains t k : outcome bool := r ← find_slot t k; Ret (bool_decide (is_Some r)).

(** [find] and a dereference of the iterator. *)
Definition find t k : outcome (option V) :=
  r ← find_slot t k;
  match r with Some idx => slot ← vget (slots_ t) idx; Ret (Some (value slot)) | None => Ret None end.

Definition at_ t k : outcome V :=
  r ← find_slot t k;
  match r with Some idx => slot ← vget (slots_ t) idx; Ret (value slot) | None => Throw out_of_range end.

Definition size t : nat := size_ t.
Definition empty t : bool := bool_decide (size_ t = 0).

Definition set_max_load_factor t (mlf : D) : outcome (RobinHoodHashMap K V D) :=
  let t := mkRobinHood (slots_ t) (size_ t) (capacity_mask_ t) mlf in
  if exceeds mlf (size_ t) (bucket_count t) then rehash t (Z.of_nat (bucket_count t)) else Ret t.

Definition clear t : RobinHoodHashMap K V D :=
  mkRobinHood ((fun s => mkSlot EMPTY 0 (key s) (value s)) <$> slots_ t) 0 (capacity_mask_ t) (max_load_factor_ t).

Definition swap a b : RobinHoodHashMap K V D * RobinHoodHashMap K V D := (b, a).
Definition copy t : RobinHoodHashMap K V D := mkRobinHood (slots_ t) (size_ t) (capacity_mask_ t) (max_load_factor_ t).

(** The move constructor and assignment: the new map and what is left of [other]. *)
Definition move other : RobinHoodHashMap K V D * RobinHoodHashMap K V D :=
  (copy other, mkRobinHood [] 0 0 (max_load_factor_ other)).
(** ** Capacities are powers of two *)

Lemma next_power_of_two_spec n : (n <= 2 ^ 63)%Z -> next_power_of_two n = (2 ^ Z.log2_up n)%Z.
Proof.
  intros Hn. unfold next_power_of_two. case_decide as H1; [by rewrite Z.log2_up_eqn0 by lia|].
  rewrite smear_all, decide_False, Z.log2_up_eqn by lia. change (Z.pred n) with (n - 1)%Z.
  rewrite Z.ones_equiv, <- Z.add_1_r, Z.add_1_r, Z.succ_pred. rewrite Z.add_1_r. apply u64_small. split; [apply Z.pow_nonneg; lia|].
  assert (Z.log2 (n - 1) < 63)%Z by (apply Z.log2_lt_pow2; lia). apply Z.pow_lt_mono_r; lia.
Qed.

(** The number of slots and the mask of a table. *)
Record pow_mask (cap : nat) (mask : Z) : Prop := {
  pm_pow : exists k : nat, (k < 32) /\ cap = 2 ^ k;
  pm_mask : mask = (Z.of_nat cap - 1)%Z;
  pm_min : 8 <= cap;
}.

Lemma pm_two cap mask : pow_mask cap mask -> 2 <= cap.
Proof. intros Hpm. pose proof (pm_min _ _ Hpm). lia. Qed.

Lemma land_mask cap mask n : pow_mask cap mask -> (0 <= n)%Z -> Z.land n mask = (n mod Z.of_nat cap)%Z.
Proof.
  intros [(k & Hk & ->) -> _] Hn. rewrite Nat2Z.inj_pow. change (Z.of_nat 2) with 2%Z.
  rewrite <- Z.land_ones by lia. by rewrite Z.ones_equiv.
Qed.

Lemma cap_small cap mask : pow_mask cap mask -> (Z.of_nat cap <= 2 ^ 31)%Z.
Proof.
  intros [(k & Hk & ->) _ _]. rewrite Nat2Z.inj_pow. change (Z.of_nat 2) with 2%Z. apply Z.pow_le_mono_r; lia.
Qed.

(** Distances stay below the number of slots. *)
Lemma inc32_cap cap mask d : pow_mask cap mask -> S d < cap -> inc32 d = Ret (S d).
Proof. intros Hpm Hd. apply inc32_lt. pose proof (cap_small _ _ Hpm). unfold INT32_MAX. lia. Qed.

Lemma next_index_mod cap mask idx : pow_mask cap mask -> idx < cap -> next_index mask idx = (idx + 1) mod cap.
Proof.
  intros Hpm Hi. pose proof (cap_small _ _ Hpm). unfold next_index.
  rewrite u64_small by lia. rewrite (land_mask cap) by (done || lia).
  replace (Z.of_nat idx + 1)%Z with (Z.of_nat (idx + 1)) by lia. by rewrite <- Nat2Z.inj_mod, Nat2Z.id.
Qed.

Lemma next_index_wrap cap mask h d :
  pow_mask cap mask -> next_index mask ((h + d) mod cap) = (h + S d) mod cap.
Proof.
  intros Hpm. pose proof (pm_two _ _ Hpm). rewrite (next_index_mod cap) by (done || (apply wrap_lt; lia)).
  rewrite Nat.Div0.add_mod_idemp_l. f_equal. lia.
Qed.

(** The distance from one cell to another. *)
Lemma wrap_distance h c j : h < c -> j < c -> exists m, m < c /\ (h + m) mod c = j.
Proof.
  intros Hh Hj. destruct (decide (h <= j)) as [Hle|Hgt].
  - exists (j - h). split; [lia|]. rewrite wrap by lia. rewrite decide_True by lia. lia.
  - exists (j + c - h). split; [lia|]. rewrite wrap by lia. rewrite decide_False by lia. lia.
Qed.

Context `{!Countable K}.

Lemma ideal_lt cap mask k : pow_mask cap mask -> ideal_index mask k < cap.
Proof.
  intros Hpm. unfold ideal_index. pose proof (pm_two _ _ Hpm).
  assert (0 <= u64 (hasher k))%Z by (apply Z.mod_pos_bound; lia).
  rewrite (land_mask cap) by done. pose proof (Z.mod_pos_bound (u64 (hasher k)) (Z.of_nat cap)). lia.
Qed.

(** ** What is stored *)
Definition stored s : option (K * V) := if decide (occupied s) then Some (key s, value s) else None.
Definition contents slots : list (K * V) := omap stored slots.

Lemma stored_occupied s : occupied s -> stored s = Some (key s, value s).
Proof. intros H. unfold stored. by rewrite decide_True. Qed.

Lemma stored_free s : ~ occupied s -> stored s = None.
Proof. intros H. unfold stored. by rewrite decide_False. Qed.

Lemma contents_app l1 l2 : contents (l1 ++ l2) = contents l1 ++ contents l2.
Proof. apply omap_app. Qed.

Lemma contents_cons s slots : contents (s :: slots) = option_list (stored s) ++ contents slots.
Proof. unfold contents. cbn. by destruct (stored s). Qed.

Lemma contents_used s slots : occupied s -> contents (s :: slots) = (key s, value s) :: contents slots.
Proof. intros Ho. rewrite contents_cons. by rewrite stored_occupied. Qed.

Lemma contents_unused s slots : ~ occupied s -> contents (s :: slots) = contents slots.
Proof. intros Ho. rewrite contents_cons. by rewrite stored_free. Qed.

Lemma contents_split slots i s :
  slots !! i = Some s -> contents slots ≡ₚ option_list (stored s) ++ contents (take i slots ++ drop (S i) slots).
Proof.
  intros Hs. rewrite <- (take_drop_middle _ _ _ Hs) at 1. rewrite !contents_app, contents_cons. apply Permutation_app_swap_app.
Qed.

Lemma contents_insert slots i s s' :
  slots !! i = Some s ->
  option_list (stored s) ++ contents (<[i := s']> slots) ≡ₚ option_list (stored s') ++ contents slots.
Proof.
  intros Hs. pose proof (lookup_lt_Some _ _ _ Hs) as Hlt.
  rewrite (contents_split slots i s Hs), (contents_split (<[i := s']> slots) i s') by (by rewrite list_lookup_insert_eq).
  rewrite take_insert_ge, drop_insert_lt by lia. rewrite !app_assoc. apply Permutation_app; [|done].
  apply Permutation_app_comm.
Qed.

Lemma elem_of_contents slots k v :
  (k, v) ∈ contents slots <-> exists i s, slots !! i = Some s /\ occupied s /\ key s = k /\ value s = v.
Proof.
  unfold contents. rewrite list_elem_of_omap. split.
  - intros (s & [i Hi]%list_elem_of_lookup & Hs). unfold stored in Hs. case_decide; [|done]. injection Hs as <- <-. eauto 10.
  - intros (i & s & Hi & Ho & <- & <-). exists s. split; [by eapply list_elem_of_lookup_2|]. by apply stored_occupied.
Qed.

Lemma contents_unique slots i j s s' :
  NoDup (contents slots).*1 -> slots !! i = Some s -> slots !! j = Some s' ->
  occupied s -> occupied s' -> key s = key s' -> i = j.
Proof.
  intros Hnd Hi Hj Ho Ho' Hk. destruct (decide (i = j)) as [|Hne]; [done|exfalso].
  pose proof (contents_insert slots i s (mkSlot EMPTY 0 (key s) (value s)) Hi) as Hp.
  rewrite (stored_occupied s), (stored_free (mkSlot EMPTY _ _ _)) in Hp by done. cbn in Hp.
  rewrite <- Hp in Hnd. cbn in Hnd. apply NoDup_cons in Hnd as [Hnot _]. apply Hnot.
  apply list_elem_of_fmap. exists (key s, value s'). split; [done|]. apply elem_of_contents.
  exists j, s'. rewrite list_lookup_insert_ne by done. eauto.
Qed.

Lemma free_slot slots : length (contents slots) < length slots -> exists j s, slots !! j = Some s /\ ~ occupied s.
Proof.
  induction slots as [|s slots IH]; cbn [length]; [lia|]. intros Hl.
  destruct (decide (occupied s)) as [Ho|Hn]; [|by exists 0, s].
  destruct IH as (j & s' & Hj & Hn); [|by exists (S j), s'].
  unfold contents in Hl. cbn [omap list_omap] in Hl. rewrite stored_occupied in Hl by done. cbn [length] in Hl. unfold contents. lia.
Qed.

(** ** The invariant of the slots

    An entry sits [psr] cells after its ideal one, and a cell after the ideal one
    is only used if the one before is, by an entry at most one cell closer. *)
Record tbl slots mask : Prop := {
  tbl_mask : pow_mask (length slots) mask;
  tbl_state : forall i s, slots !! i = Some s -> occupied s \/ state s = EMPTY;
  tbl_place : forall i s, slots !! i = Some s -> occupied s ->
    psr s < length slots /\ i = (ideal_index mask (key s) + psr s) mod length slots;
  tbl_order : forall i s', i < length slots -> slots !! ((i + 1) mod length slots) = Some s' -> occupied s' -> 0 < psr s' ->
    exists s, slots !! i = Some s /\ occupied s /\ psr s' <= S (psr s);
}.

Lemma tbl_lookup slots mask h d : tbl slots mask -> exists s, slots !! ((h + d) mod length slots) = Some s.
Proof. intros Ht. apply lookup_lt_is_Some. pose proof (pm_two _ _ (tbl_mask _ _ Ht)). apply wrap_lt. lia. Qed.

Lemma tbl_order_wrap slots mask h d s' :
  tbl slots mask -> slots !! ((h + S d) mod length slots) = Some s' -> occupied s' -> 0 < psr s' ->
  exists s, slots !! ((h + d) mod length slots) = Some s /\ occupied s /\ psr s' <= S (psr s).
Proof.
  intros Ht Hs. pose proof (pm_two _ _ (tbl_mask _ _ Ht)). apply (tbl_order _ _ Ht); [apply wrap_lt; lia|].
  rewrite Nat.Div0.add_mod_idemp_l. by replace (h + d + 1) with (h + S d) by lia.
Qed.

(** Before an entry that is [p] cells away from [h] no cell is closer to home. *)
Lemma chain_back slots mask h p s :
  tbl slots mask -> slots !! ((h + p) mod length slots) = Some s -> occupied s -> p <= psr s ->
  forall d, d <= p -> exists s', slots !! ((h + d) mod length slots) = Some s' /\ occupied s' /\ d <= psr s'.
Proof.
  intros Ht. revert s. induction p as [|p IH]; intros s Hs Ho Hp d Hd; [replace d with 0 by lia; eauto|].
  destruct (decide (d = S p)) as [->|]; [eauto|].
  destruct (tbl_order_wrap slots mask h p s Ht Hs Ho) as (s' & Hs' & Ho' & Hle); [lia|].
  apply (IH s'); [done|done|lia|lia].
Qed.

(** *** Lookup *)
Lemma find_loop_present slots mask k p s :
  tbl slots mask -> NoDup (contents slots).*1 ->
  slots !! ((ideal_index mask k + p) mod length slots) = Some s -> occupied s -> key s = k -> psr s = p ->
  forall j d fuel, d + j = p -> j < fuel ->
  find_loop fuel slots mask k ((ideal_index mask k + d) mod length slots) d = Ret (Some ((ideal_index mask k + p) mod length slots)).
Proof.
  intros Ht Hnd Hs Ho Hk Hp. pose proof (tbl_mask _ _ Ht) as Hpm. pose proof (ideal_lt _ _ k Hpm) as Hid.
  destruct (tbl_place _ _ Ht _ _ Hs Ho) as [Hlt _].
  induction j as [|j IH]; intros d fuel Hd Hf; destruct fuel as [|fuel]; try lia; cbn [find_loop];
    destruct (chain_back slots mask _ p s Ht Hs Ho ltac:(lia) d ltac:(lia)) as (s' & Hs' & Ho' & Hle);
    rewrite (vget_Some _ _ _ Hs'); ret_step;
    rewrite decide_False by (intros [H|H]; [unfold occupied in Ho'; congruence|lia]).
  - replace d with p in * by lia. assert (s' = s) as -> by congruence. by rewrite decide_True.
  - rewrite decide_False.
    + rewrite (inc32_cap _ _ _ Hpm) by lia. ret_step. rewrite (next_index_wrap (length slots)) by done. apply IH; lia.
    + intros [_ Hk']. pose proof (contents_unique slots _ _ s' s Hnd Hs' Hs Ho' Ho ltac:(congruence)) as E.
      apply wrap_inj in E; lia.
Qed.

Lemma find_loop_absent slots mask k :
  tbl slots mask -> k ∉ (contents slots).*1 ->
  forall m d fuel s, slots !! ((ideal_index mask k + (d + m)) mod length slots) = Some s -> ~ occupied s -> m < fuel -> d + m < length slots ->
  find_loop fuel slots mask k ((ideal_index mask k + d) mod length slots) d = Ret None.
Proof.
  intros Ht Hk. pose proof (tbl_mask _ _ Ht) as Hpm.
  induction m as [|m IH]; intros d fuel s Hs Hn Hf Hd; destruct fuel as [|fuel]; try lia; cbn [find_loop];
    destruct (tbl_lookup slots mask (ideal_index mask k) d Ht) as [s' Hs']; rewrite (vget_Some _ _ _ Hs'); ret_step.
  - rewrite Nat.add_0_r in Hs. assert (s' = s) as -> by congruence.
    destruct (tbl_state _ _ Ht _ _ Hs); [done|]. rewrite decide_True by (by left). done.
  - case_decide; [done|]. rewrite decide_False.
    + rewrite (inc32_cap _ _ _ Hpm) by lia. ret_step. rewrite (next_index_wrap (length slots)) by done. apply (IH _ _ s); [|done|lia|lia]. by replace (S d + m) with (d + S m) by lia.
    + intros [Ho Hk']. apply Hk. apply list_elem_of_fmap. exists (key s', value s'). split; [done|].
      apply elem_of_contents. eauto 10.
Qed.

(** *** Writing a slot *)
Lemma wrap_add a b c d : a mod c = b mod c -> (a + d) mod c = (b + d) mod c.
Proof. intros H. rewrite <- (Nat.Div0.add_mod_idemp_l a), H. apply Nat.Div0.add_mod_idemp_l. Qed.

Lemma wrap_ne a d c : S d < c -> a mod c <> (a + S d) mod c.
Proof.
  intros Hd E. assert (a mod c < c) by (apply Nat.mod_upper_bound; lia).
  rewrite <- (Nat.Div0.add_mod_idemp_l a), wrap in E by lia. case_decide; lia.
Qed.

Lemma wrap_before j h q c : j < c -> (j + 1) mod c = (h + S q) mod c -> j = (h + q) mod c.
Proof.
  intros Hj E. assert ((h + q) mod c < c) by (apply wrap_lt; lia).
  replace ((h + S q) mod c) with (((h + q) mod c + 1) mod c) in E
    by (rewrite Nat.Div0.add_mod_idemp_l; f_equal; lia).
  rewrite !wrap in E by lia. repeat case_decide; lia.
Qed.

Lemma wrap_not_next i c : 2 <= c -> i < c -> (i + 1) mod c <> i.
Proof. intros Hc Hi. rewrite wrap by lia. case_decide; lia. Qed.

Lemma tbl_write slots mask i s :
  tbl slots mask -> i < length slots -> occupied s \/ state s = EMPTY ->
  (occupied s -> psr s < length slots /\ i = (ideal_index mask (key s) + psr s) mod length slots) ->
  (occupied s -> 0 < psr s -> forall j, j < length slots -> (j + 1) mod length slots = i ->
     exists s', slots !! j = Some s' /\ occupied s' /\ psr s <= S (psr s')) ->
  (forall s', slots !! ((i + 1) mod length slots) = Some s' -> occupied s' -> 0 < psr s' -> occupied s /\ psr s' <= S (psr s)) ->
  tbl (<[i := s]> slots) mask.
Proof.
  intros Ht Hi Hst Hpl Hprev Hnext. pose proof (pm_two _ _ (tbl_mask _ _ Ht)) as H2. split; rewrite ?length_insert.
  - apply Ht.
  - intros j s' [(-> & <- & _)|[_ Hs']]%list_lookup_insert_Some; [done|by apply (tbl_state _ _ Ht j)].
  - intros j s' [(-> & <- & _)|[_ Hs']]%list_lookup_insert_Some; [done|by apply (tbl_place _ _ Ht)].
  - intros j s' Hj [(E & -> & _)|[Hne Hs']]%list_lookup_insert_Some Ho Hp.
    + pose proof (wrap_not_next j _ H2 Hj). rewrite list_lookup_insert_ne by congruence. by apply Hprev.
    + destruct (decide (i = j)) as [->|].
      * rewrite list_lookup_insert_eq by done. destruct (Hnext s' Hs' Ho Hp). eauto.
      * rewrite list_lookup_insert_ne by done. by apply (tbl_order _ _ Ht j s').
Qed.

(** *** Insertion *)

(** The entry being carried: [psr_] cells from its ideal one, where the cell before
    is used by one that is not further from its own, and a free cell is [m] away. *)
Record carried slots mask (h psr_ m : nat) : Prop := {
  ca_prev : forall q, psr_ = S q -> exists s, slots !! ((h + q) mod length slots) = Some s /\ occupied s /\ psr_ <= S (psr s);
  ca_free : exists s, slots !! ((h + psr_ + m) mod length slots) = Some s /\ ~ occupied s;
  ca_bound : psr_ + m < length slots;
}.

Lemma place_write slots mask entry psr_ m s :
  tbl slots mask -> let i := (ideal_index mask (key entry) + psr_) mod length slots in
  carried slots mask (ideal_index mask (key entry)) psr_ m ->
  slots !! i = Some s -> (occupied s -> psr s <= psr_) ->
  let slots' := <[i := mkSlot OCCUPIED psr_ (key entry) (value entry)]> slots in
  vset slots i (mkSlot OCCUPIED psr_ (key entry) (value entry)) = Ret slots' /\ tbl slots' mask /\
  option_list (stored s) ++ contents slots' ≡ₚ (key entry, value entry) :: contents slots.
Proof.
  intros Ht i Hca Hs Hle slots'. apply lookup_lt_Some in Hs as Hi. split; [by apply vset_lt|]. split.
  - apply tbl_write; [done|done|by left| | |]; cbn [psr key].
    + intros _. split; [|done]. pose proof (ca_bound _ _ _ _ _ Hca). lia.
    + intros _ Hp j Hj E. destruct psr_ as [|q]; [lia|]. apply (wrap_before _ _ q) in E as ->; [|done]. by apply (ca_prev _ _ _ _ _ Hca).
    + intros s' Hs' Ho Hp. split; [done|]. destruct (tbl_order _ _ Ht i s' Hi Hs' Ho Hp) as (s'' & Hs'' & Ho'' & Hp'').
      assert (s'' = s) as -> by congruence. specialize (Hle Ho''). lia.
  - subst slots'. rewrite (contents_insert slots i s _ Hs). by rewrite stored_occupied.
Qed.

(** One cell further: either with the same entry or with the one it displaced. *)
Lemma carried_next slots mask h psr_ m s h' q :
  carried slots mask h psr_ (S m) -> (h' + q) mod length slots = (h + psr_) mod length slots -> q <= psr_ ->
  slots !! ((h + psr_) mod length slots) = Some s -> occupied s -> q <= psr s ->
  carried slots mask h' (S q) m.
Proof.
  intros Hca E Hle Hs Ho Hq. pose proof (ca_bound _ _ _ _ _ Hca). split; [| |lia].
  - intros q' [= <-]. rewrite E. exists s. split_and!; [done|done|lia].
  - destruct (ca_free _ _ _ _ _ Hca) as (s0 & Hs0 & Hn). exists s0. split; [|done].
    replace (h' + S q + m) with (h' + q + S m) by lia. by rewrite (wrap_add _ _ _ (S m) E).
Qed.

Lemma carried_write slots mask h psr_ m i s :
  carried slots mask h psr_ m -> (forall q, psr_ = S q -> i = (h + q) mod length slots /\ occupied s /\ psr_ <= S (psr s)) ->
  i < length slots -> i <> (h + psr_ + m) mod length slots -> carried (<[i := s]> slots) mask h psr_ m.
Proof.
  intros Hca Hi Hlt Hne. split; rewrite ?length_insert.
  - intros q Hq. destruct (Hi q Hq) as (-> & Ho & Hle). exists s. by rewrite list_lookup_insert_eq.
  - destruct (ca_free _ _ _ _ _ Hca) as (s0 & Hs0 & Hn). exists s0. by rewrite list_lookup_insert_ne.
  - apply (ca_bound _ _ _ _ _ Hca).
Qed.

Lemma place_loop_spec mask key_check : forall m slots entry psr_ fuel,
  tbl slots mask -> carried slots mask (ideal_index mask (key entry)) psr_ m ->
  (forall d s, d <= m -> slots !! ((ideal_index mask (key entry) + psr_ + d) mod length slots) = Some s -> occupied s -> key_check <> Some (key s)) ->
  m < fuel ->
  exists slots' i, place_loop fuel mask slots entry psr_ ((ideal_index mask (key entry) + psr_) mod length slots) key_check = Ret (slots', i, true) /\
    tbl slots' mask /\ length slots' = length slots /\ contents slots' ≡ₚ (key entry, value entry) :: contents slots.
Proof.
  induction m as [|m IH]; intros slots entry psr_ fuel Ht Hca Hkc Hf; destruct fuel as [|fuel]; try lia; cbn [place_loop];
    pose proof (tbl_mask _ _ Ht) as Hpm; destruct (tbl_lookup slots mask (ideal_index mask (key entry)) psr_ Ht) as [s Hs]; rewrite (vget_Some _ _ _ Hs); ret_step;
    rewrite decide_False by (intros [Ho Hk]; apply (Hkc 0 s); [lia|by rewrite Nat.add_0_r|done|done]).
  - destruct (ca_free _ _ _ _ _ Hca) as (s0 & Hs0 & Hn). rewrite Nat.add_0_r in Hs0. assert (s0 = s) as -> by congruence.
    rewrite decide_True by done. destruct (place_write slots mask entry psr_ 0 s Ht Hca Hs) as (-> & Ht' & Hc); [done|].
    ret_step. do 2 eexists. split; [done|]. rewrite length_insert. rewrite (stored_free s Hn) in Hc. done.
  - case_decide as Hn.
    { destruct (place_write slots mask entry psr_ _ s Ht Hca Hs) as (-> & Ht' & Hc); [done|].
      ret_step. do 2 eexists. split; [done|]. rewrite length_insert. rewrite (stored_free s Hn) in Hc. done. }
    apply lookup_lt_Some in Hs as Hlt. pose proof (ca_bound _ _ _ _ _ Hca) as Hb.
    assert (ideal_index mask (key entry) < length slots) as Hh by by apply ideal_lt. case_decide as Hd.
    + destruct (place_write slots mask entry psr_ _ s Ht Hca Hs) as (-> & Ht' & Hc); [lia|]. ret_step.
      destruct (tbl_place _ _ Ht _ _ Hs Hn) as [Hps Hid].
      set (new := mkSlot OCCUPIED psr_ (key entry) (value entry)) in *. set (slots1 := <[(ideal_index mask (key entry) + psr_) mod length slots := new]> slots) in *.
      assert (length slots1 = length slots) as Hl1 by apply length_insert.
      destruct (IH slots1 s (S (psr s)) fuel) as (slots' & i & Hr & Ht'' & Hl & Hc'); rewrite ?Hl1; [done| | |lia|].
      * apply carried_write; [apply (carried_next slots mask (ideal_index mask (key entry)) psr_ m s); [done|done|lia|done|done|lia]| |done|].
        -- intros q [= <-]. split_and!; [done|done|cbn; lia].
        -- replace (ideal_index mask (key s) + S (psr s) + m) with (ideal_index mask (key s) + psr s + S m) by lia.
           rewrite (wrap_add _ _ _ _ (eq_sym Hid)). apply wrap_ne. lia.
      * intros d s' Hd'. replace (ideal_index mask (key s) + S (psr s) + d) with (ideal_index mask (key s) + psr s + S d) by lia.
        rewrite (wrap_add _ _ _ _ (eq_sym Hid)). unfold slots1.
        rewrite list_lookup_insert_ne by (apply wrap_ne; lia). apply Hkc. lia.
      * rewrite Hl1 in *. rewrite (inc32_cap _ _ _ Hpm) by lia. ret_step. rewrite (next_index_wrap (length slots)) by done.
        replace ((ideal_index mask (key entry) + S psr_) mod length slots) with ((ideal_index mask (key s) + S (psr s)) mod length slots).
        2: { replace (ideal_index mask (key s) + S (psr s)) with (ideal_index mask (key s) + psr s + 1) by lia.
             rewrite (wrap_add _ _ _ _ (eq_sym Hid)). f_equal. lia. }
        exists slots', i. split_and!; [done|done|congruence|]. rewrite Hc'. rewrite <- Hc. by rewrite stored_occupied.
    + destruct (IH slots entry (S psr_) fuel) as (slots' & i & Hr & Hrest); [done| | |lia|].
      * apply (carried_next slots mask (ideal_index mask (key entry)) psr_ m s); [done|done|lia|done|done|lia].
      * intros d s' Hd'. replace (ideal_index mask (key entry) + S psr_ + d) with (ideal_index mask (key entry) + psr_ + S d) by lia. apply Hkc. lia.
      * rewrite (inc32_cap _ _ _ Hpm) by lia. ret_step. rewrite (next_index_wrap (length slots)) by done. exists slots', i. done.
Qed.

(** A key that is present stops the loop at its cell, before anything is displaced. *)
Lemma place_loop_present slots mask entry k p s :
  tbl slots mask -> NoDup (contents slots).*1 ->
  slots !! ((ideal_index mask k + p) mod length slots) = Some s -> occupied s -> key s = k -> psr s = p ->
  forall j d fuel, d + j = p -> j < fuel ->
  place_loop fuel mask slots entry d ((ideal_index mask k + d) mod length slots) (Some k) =
    Ret (slots, (ideal_index mask k + p) mod length slots, false).
Proof.
  intros Ht Hnd Hs Ho Hk Hp. pose proof (tbl_mask _ _ Ht) as Hpm. pose proof (ideal_lt _ _ k Hpm) as Hid.
  destruct (tbl_place _ _ Ht _ _ Hs Ho) as [Hlt _].
  induction j as [|j IH]; intros d fuel Hd Hf; destruct fuel as [|fuel]; try lia; cbn [place_loop];
    destruct (chain_back slots mask _ p s Ht Hs Ho ltac:(lia) d ltac:(lia)) as (s' & Hs' & Ho' & Hle);
    rewrite (vget_Some _ _ _ Hs'); ret_step.
  - replace d with p in * by lia. assert (s' = s) as -> by congruence. rewrite decide_True by (split; congruence). done.
  - rewrite decide_False.
    + rewrite (decide_False (P := ~ occupied s')), decide_False by (done || lia || tauto).
      rewrite (inc32_cap _ _ _ Hpm) by lia. ret_step. rewrite (next_index_wrap (length slots)) by done. apply IH; lia.
    + intros [_ Hk']. pose proof (contents_unique slots _ _ s' s Hnd Hs' Hs Ho' Ho ltac:(congruence)) as E.
      apply wrap_inj in E; lia.
Qed.

(** *** Slots that store a finite map *)
Implicit Types (m : gmap K V).

Record filled slots mask m : Prop := {
  fi_tbl : tbl slots mask;
  fi_contents : contents slots ≡ₚ map_to_list m;
  fi_free : base.size m < length slots;
}.

Lemma filled_NoDup slots mask m : filled slots mask m -> NoDup (contents slots).*1.
Proof. intros Hf. rewrite (fi_contents _ _ _ Hf). apply NoDup_fst_map_to_list. Qed.

Lemma filled_elem slots mask m k v : filled slots mask m -> (k, v) ∈ contents slots <-> m !! k = Some v.
Proof. intros Hf. rewrite (fi_contents _ _ _ Hf). apply elem_of_map_to_list. Qed.

Lemma filled_absent slots mask m k : filled slots mask m -> m !! k = None -> k ∉ (contents slots).*1.
Proof. intros Hf Hk ([k' v] & -> & H)%list_elem_of_fmap. apply (filled_elem _ _ _ _ _ Hf) in H. cbn in Hk. congruence. Qed.

Lemma filled_found slots mask m k v :
  filled slots mask m -> m !! k = Some v ->
  exists p s, slots !! ((ideal_index mask k + p) mod length slots) = Some s /\ occupied s /\ key s = k /\ value s = v /\
    psr s = p /\ p < length slots.
Proof.
  intros Hf Hk. apply (filled_elem _ _ _ _ _ Hf), elem_of_contents in Hk as (i & s & Hs & Ho & Hk & Hv).
  destruct (tbl_place _ _ (fi_tbl _ _ _ Hf) _ _ Hs Ho) as [Hlt Hi]. exists (psr s), s. subst k. rewrite <- Hi. done.
Qed.

Lemma filled_distance slots mask m h :
  filled slots mask m -> h < length slots ->
  exists d s, d < length slots /\ slots !! ((h + d) mod length slots) = Some s /\ ~ occupied s.
Proof.
  intros Hf Hh. destruct (free_slot slots) as (j & s & Hj & Hn).
  { rewrite (fi_contents _ _ _ Hf), length_map_to_list. exact (fi_free _ _ _ Hf). }
  destruct (wrap_distance h (length slots) j Hh) as (d & Hd & <-); [by eapply lookup_lt_Some|]. by exists d, s.
Qed.

Lemma mod_start h c : h < c -> (h + 0) mod c = h.
Proof. intros. rewrite Nat.add_0_r. by apply Nat.mod_small. Qed.


Lemma find_loop_filled slots mask m k :
  filled slots mask m ->
  match m !! k with
  | Some v => exists i s, find_loop (S (length slots)) slots mask k (ideal_index mask k) 0 = Ret (Some i) /\
      slots !! i = Some s /\ occupied s /\ key s = k /\ value s = v
  | None => find_loop (S (length slots)) slots mask k (ideal_index mask k) 0 = Ret None
  end.
Proof.
  intros Hf. pose proof (tbl_mask _ _ (fi_tbl _ _ _ Hf)) as Hpm. pose proof (ideal_lt _ _ k Hpm) as Hid.
  rewrite <- (mod_start _ _ Hid). destruct (m !! k) as [v|] eqn:Hk.
  - destruct (filled_found _ _ _ _ _ Hf Hk) as (p & s & Hs & Ho & Hks & Hv & Hp & Hlt). do 2 eexists. split; [|done].
    rewrite (mod_start _ _ Hid) at 1. rewrite <- (mod_start _ _ Hid) at 1.
    by apply (find_loop_present slots mask k p s (fi_tbl _ _ _ Hf) (filled_NoDup _ _ _ Hf) Hs Ho Hks Hp p); [lia|lia].
  - destruct (filled_distance _ _ _ _ Hf Hid) as (d & s & Hd & Hs & Hn).
    apply (find_loop_absent slots mask k (fi_tbl _ _ _ Hf) (filled_absent _ _ _ _ Hf Hk) d 0 _ s); [done|done|lia|lia].
Qed.

Lemma place_loop_filled slots mask m k v st q fuel check :
  filled slots mask m -> S (base.size m) < length slots -> length slots <= fuel -> check = Some k \/ check = None /\ m !! k = None ->
  match m !! k with
  | Some v' => exists i s, place_loop fuel mask slots (mkSlot st q k v) 0 (ideal_index mask k) check = Ret (slots, i, false) /\
      slots !! i = Some s /\ occupied s /\ key s = k /\ value s = v'
  | None => exists slots' i, place_loop fuel mask slots (mkSlot st q k v) 0 (ideal_index mask k) check = Ret (slots', i, true) /\
      length slots' = length slots /\ filled slots' mask (<[k := v]> m)
  end.
Proof.
  intros Hf Hsz Hfuel Hc. pose proof (tbl_mask _ _ (fi_tbl _ _ _ Hf)) as Hpm. pose proof (ideal_lt _ _ k Hpm) as Hid.
  rewrite <- (mod_start _ _ Hid). destruct (m !! k) as [v'|] eqn:Hk.
  - destruct Hc as [->|[_ Hc]]; [|done].
    destruct (filled_found _ _ _ _ _ Hf Hk) as (p & s & Hs & Ho & Hks & Hv & Hp & Hlt). eexists _, s. split; [|done].
    by apply (place_loop_present slots mask _ k p s (fi_tbl _ _ _ Hf) (filled_NoDup _ _ _ Hf) Hs Ho Hks Hp p); [|lia].
  - destruct (filled_distance _ _ _ _ Hf Hid) as (d & s & Hd & Hs & Hn).
    destruct (place_loop_spec mask check d slots (mkSlot st q k v) 0 fuel (fi_tbl _ _ _ Hf)) as (slots' & i & Hr & Ht & Hl & Hp); cbn [key value] in *.
    { split; [done| |done]. rewrite Nat.add_0_r. by exists s. }
    { intros d' s' _ Hs' Ho'. destruct Hc as [->|[-> _]]; [|done]. intros [= ->].
      apply (filled_absent _ _ _ _ Hf Hk), list_elem_of_fmap. exists (key s', value s'). split; [done|]. apply elem_of_contents. eauto 10. }
    { lia. }
    exists slots', i. split_and!; [done|done|]. split; [done| |rewrite Hl, map_size_insert_None by done; done].
    rewrite Hp, map_to_list_insert by done. by rewrite (fi_contents _ _ _ Hf).
Qed.

(** *** Erasure *)
Lemma free_next slots i d s c :
  c = length slots -> i < c -> slots !! ((i + S d) mod c) = Some s -> slots !! (((i + 1) mod c + d) mod c) = Some s.
Proof. intros -> Hi. by rewrite wrap_succ. Qed.

(** What is stored once the cell [i], which is about to be overwritten, is left out. *)
Definition without (i : nat) slots : list (K * V) := contents (<[i := empty_slot]> slots).

Lemma without_contents slots i s :
  slots !! i = Some s -> occupied s -> contents slots ≡ₚ (key s, value s) :: without i slots.
Proof. intros Hs Ho. pose proof (contents_insert slots i s empty_slot Hs) as Hp. rewrite (stored_occupied s Ho) in Hp. by rewrite <- Hp. Qed.

Lemma without_move slots i j s : i <> j -> i < length slots -> slots !! j = Some s -> occupied s ->
  forall s', occupied s' -> key s' = key s -> value s' = value s -> without j (<[i := s']> slots) ≡ₚ without i slots.
Proof.
  intros Hne Hi Hj Ho s' Ho' Hk Hv. apply lookup_lt_is_Some in Hi as [s0 Hs0]. unfold without.
  rewrite list_insert_insert_ne by done.
  pose proof (contents_insert (<[j := empty_slot]> slots) i s0 s') as H1. rewrite list_lookup_insert_ne in H1 by done. specialize (H1 Hs0).
  pose proof (contents_insert slots j s empty_slot Hj) as H2. pose proof (contents_insert slots i s0 empty_slot Hs0) as H3.
  rewrite (stored_occupied s Ho) in H2. rewrite (stored_occupied s' Ho'), Hk, Hv in H1. cbn [option_list app stored] in *.
  change (stored empty_slot) with (@None (K * V)) in *. cbn [option_list app] in *.
  apply (Permutation_app_inv_l (option_list (stored s0))). by rewrite H1, H2, H3.
Qed.

Lemma without_free slots i s s' :
  slots !! i = Some s -> ~ occupied s' -> contents (<[i := s']> slots) ≡ₚ without i slots.
Proof.
  intros Hs Hn. pose proof (contents_insert slots i s s' Hs) as H1. pose proof (contents_insert slots i s empty_slot Hs) as H2.
  rewrite (stored_free s' Hn) in H1. apply (Permutation_app_inv_l (option_list (stored s))). unfold without. by rewrite H1, H2.
Qed.

(** Closing the gap: the entry after the hole moves one cell back. *)
Lemma tbl_shift slots mask i s s' :
  tbl slots mask -> slots !! i = Some s -> slots !! ((i + 1) mod length slots) = Some s' -> occupied s' -> 0 < psr s' ->
  tbl (<[i := mkSlot (state s') (psr s' - 1) (key s') (value s')]> slots) mask.
Proof.
  intros Ht Hs Hs' Ho Hp. apply lookup_lt_Some in Hs as Hi.
  destruct (tbl_order _ _ Ht i s' Hi Hs' Ho Hp) as (s0 & Hs0 & Hso & Hle). assert (s0 = s) as -> by congruence.
  destruct (tbl_place _ _ Ht _ _ Hs' Ho) as [Hlt Hpos].
  apply tbl_write; [done|done|by left|..]; cbn [psr key].
  - intros _. split; [lia|]. replace (psr s') with (S (psr s' - 1)) in Hpos by lia. by apply wrap_before in Hpos.
  - intros _ Hq j Hj E. destruct (tbl_order _ _ Ht j s Hj) as (s1 & Hs1 & Ho1 & Hle1); [by rewrite E|done|lia|].
    exists s1. split_and!; [done|done|lia].
  - intros s1 Hs1 Ho1 Hp1. assert (s1 = s') as -> by congruence. split; [done|lia].
Qed.

Lemma tbl_free slots mask i s k v :
  tbl slots mask -> slots !! i = Some s ->
  (forall s', slots !! ((i + 1) mod length slots) = Some s' -> ~ occupied s' \/ psr s' <= 0) ->
  tbl (<[i := mkSlot EMPTY 0 k v]> slots) mask.
Proof.
  intros Ht Hs Hnext. apply lookup_lt_Some in Hs as Hi. apply tbl_write; [done|done|by right|done|done|].
  intros s' Hs' Ho Hp. destruct (Hnext s' Hs'); [done|lia].
Qed.

Lemma erase_loop_spec mask : forall n slots i fuel s s0,
  tbl slots mask -> slots !! i = Some s -> occupied s ->
  slots !! ((i + S n) mod length slots) = Some s0 -> ~ occupied s0 -> S n < length slots -> n < fuel ->
  exists slots', erase_loop fuel slots mask i = Ret slots' /\ tbl slots' mask /\ length slots' = length slots /\
    contents slots' ≡ₚ without i slots.
Proof.
  induction n as [|n IH]; intros slots i fuel s s0 Ht Hs Ho Hs0 Hn Hlt Hf; destruct fuel as [|fuel]; try lia;
    cbn [erase_loop]; cbv zeta; apply lookup_lt_Some in Hs as Hi; pose proof (tbl_mask _ _ Ht) as Hpm;
    rewrite (next_index_mod (length slots)) by done;
    destruct (tbl_lookup slots mask i 1 Ht) as [s' Hs']; rewrite (vget_Some _ _ _ Hs'); ret_step; case_decide as Hd.
  - rewrite (vget_Some _ _ _ Hs). ret_step. rewrite vset_lt by done. eexists. split; [done|]. rewrite length_insert.
    split_and!; [by apply (tbl_free _ _ _ s); [..|naive_solver]|done|by apply (without_free _ _ s)].
  - exfalso. assert (s' = s0) as -> by congruence. apply Hd. by left.
  - rewrite (vget_Some _ _ _ Hs). ret_step. rewrite vset_lt by done. eexists. split; [done|]. rewrite length_insert.
    split_and!; [by apply (tbl_free _ _ _ s); [..|naive_solver]|done|by apply (without_free _ _ s)].
  - assert (occupied s') as Ho' by (destruct (decide (occupied s')); tauto). assert (0 < psr s') as Hp by lia.
    pose proof (wrap_not_next i _ (pm_two _ _ Hpm) Hi) as Hne. rewrite vset_lt by done. ret_step.
    pose proof (tbl_shift _ _ _ _ _ Ht Hs Hs' Ho' Hp) as Ht'.
    destruct (IH _ ((i + 1) mod length slots) fuel s' s0 Ht') as (slots' & Hr & Ht'' & Hl & Hc); rewrite ?length_insert; [..|lia|lia|].
    + by rewrite list_lookup_insert_ne.
    + done.
    + rewrite wrap_succ. rewrite list_lookup_insert_ne; [done|].
      intros E. apply (wrap_ne i (S n) (length slots)); [done|]. by rewrite <- E, Nat.mod_small.
    + done.
    + rewrite length_insert in Hl. exists slots'. split_and!; [done|done|done|]. rewrite Hc. by eapply without_move.
Qed.

Lemma erase_loop_filled slots mask m k v i s :
  filled slots mask m -> m !! k = Some v -> slots !! i = Some s -> occupied s -> key s = k ->
  exists slots', erase_loop (S (length slots)) slots mask i = Ret slots' /\ length slots' = length slots /\
    filled slots' mask (delete k m).
Proof.
  intros Hf Hk Hs Ho Hks. apply lookup_lt_Some in Hs as Hi.
  destruct (filled_distance _ _ _ i Hf Hi) as (d & s0 & Hd & Hs0 & Hn).
  destruct d as [|n]; [rewrite mod_start in Hs0 by done; congruence|].
  destruct (erase_loop_spec mask n slots i (S (length slots)) s s0) as (slots' & Hr & Ht & Hl & Hc);
    [apply (fi_tbl _ _ _ Hf)|done|done|done|done|done|lia|].
  exists slots'. split_and!; [done|done|]. split; [done| |].
  - pose proof (without_contents slots i s Hs Ho) as Hw. rewrite (fi_contents _ _ _ Hf), <- Hc, Hks in Hw.
    assert (value s = v) as Hv.
    { assert (m !! k = Some (value s)); [|congruence]. apply (filled_elem _ _ _ _ _ Hf), elem_of_contents. eauto 10. }
    rewrite Hv, <- (insert_delete_id m k v Hk), map_to_list_insert in Hw by apply lookup_delete_eq.
    symmetry. by apply Permutation_cons_inv in Hw.
  - rewrite Hl, map_size_delete_Some by (by eexists). pose proof (fi_free _ _ _ Hf). lia.
Qed.

(** *** Rebuilding the table *)
Lemma pow_mask_intro n : (3 <= n < 32)%Z -> pow_mask (Z.to_nat (2 ^ n)) (2 ^ n - 1).
Proof.
  intros Hn. assert (0 < 2 ^ n)%Z by (apply Z.pow_pos_nonneg; lia).
  assert (2 ^ 3 <= 2 ^ n)%Z by (apply Z.pow_le_mono_r; lia). split; [|lia|lia].
  exists (Z.to_nat n). split; [lia|]. apply Nat2Z.inj. rewrite Z2Nat.id, Nat2Z.inj_pow, Z2Nat.id by lia. done.
Qed.

Lemma contents_replicate n : contents (replicate n empty_slot) = [].
Proof. induction n; [done|]. by cbn [replicate]; rewrite contents_unused. Qed.

Lemma tbl_replicate n mask : pow_mask n mask -> tbl (replicate n empty_slot) mask.
Proof.
  intros Hpm. split; rewrite ?length_replicate; [done|..].
  - intros i s [-> _]%lookup_replicate. by right.
  - by intros i s [-> _]%lookup_replicate.
  - by intros i s' _ [-> _]%lookup_replicate.
Qed.

Lemma filled_replicate n mask : pow_mask n mask -> filled (replicate n empty_slot) mask ∅.
Proof.
  intros Hpm. pose proof (pm_two _ _ Hpm). split; [by apply tbl_replicate| |].
  - by rewrite contents_replicate, map_to_list_empty.
  - rewrite length_replicate, map_size_empty. lia.
Qed.

Record rh_filled t m : Prop := {
  rf_filled : filled (slots_ t) (capacity_mask_ t) m;
  rf_size : size_ t = base.size m;
}.

Lemma reinsert_spec fuel old : forall t m m',
  rh_filled t m -> length (slots_ t) <= fuel -> base.size m' < length (slots_ t) ->
  map_to_list m' ≡ₚ contents old ++ map_to_list m ->
  exists t', reinsert fuel t old = Ret t' /\ rh_filled t' m' /\ length (slots_ t') = length (slots_ t) /\
    max_load_factor_ t' = max_load_factor_ t.
Proof.
  induction old as [|s old IH]; intros t m m' [Hf Hsz] Hfuel Hm' Hp; cbn [reinsert].
  { apply map_to_list_inj in Hp as ->. exists t. done. }
  case_decide as Ho.
  - rewrite (contents_used s old Ho) in Hp. cbn [app] in Hp.
    assert (m !! key s = None) as Hk.
    { pose proof (NoDup_fst_map_to_list m') as Hnd. rewrite Hp in Hnd. cbn in Hnd. apply NoDup_cons in Hnd as [Hnd _].
      apply eq_None_not_Some. intros [v Hv]. apply Hnd. rewrite fmap_app. apply elem_of_app. right.
      apply list_elem_of_fmap. exists (key s, v). split; [done|]. by apply elem_of_map_to_list. }
    pose proof (Permutation_length Hp) as Hlen. cbn [length] in Hlen. rewrite length_app, !length_map_to_list in Hlen.
    unfold insert_no_resize. destruct s as [st q k v]. cbn [key value] in *.
    pose proof (place_loop_filled _ _ _ k v st q fuel None Hf) as Hpl. rewrite Hk in Hpl.
    destruct Hpl as (slots' & i & -> & Hl & Hf'); [lia|done|by right|]. ret_step. ret_step.
    destruct (IH (mkRobinHood slots' (S (size_ t)) (capacity_mask_ t) (max_load_factor_ t)) (<[k := v]> m) m') as (t' & Hr & Ht' & Hl' & Hmf);
      cbn [slots_] in *; [|lia|lia| |].
    + split; [done|]. cbn [size_]. by rewrite map_size_insert_None, Hsz.
    + by rewrite map_to_list_insert, Hp, Permutation_middle.
    + exists t'. rewrite Hl', Hl. done.
  - rewrite (contents_unused s old Ho) in Hp. by apply (IH t m m').
Qed.

(** The number of slots [rehash] asks for. *)
Definition rounded_capacity (c : Z) : nat := Nat.max 8 (Z.to_nat (2 ^ Z.log2_up c)).

Lemma rounded_min c : 8 <= rounded_capacity c.
Proof. apply Nat.le_max_l. Qed.

Lemma new_capacity_spec c : (c <= 2 ^ 31)%Z ->
  new_capacity_of c = Z.of_nat (rounded_capacity c) /\ pow_mask (rounded_capacity c) (new_capacity_of c - 1).
Proof.
  intros Hc. unfold new_capacity_of, rounded_capacity. cbv zeta. rewrite next_power_of_two_spec by lia.
  pose proof (Z.log2_up_nonneg c) as H0. assert (Z.log2_up c < 32)%Z as H32.
  { pose proof (Z.log2_up_le_mono c (2 ^ 31) Hc) as H. rewrite Z.log2_up_pow2 in H by lia. lia. }
  assert (0 < 2 ^ Z.log2_up c)%Z by (apply Z.pow_pos_nonneg; lia). unfold INITIAL_CAPACITY. case_decide as Hlt.
  - rewrite Nat.max_l by lia. split; [done|]. apply (pow_mask_intro 3). lia.
  - rewrite Nat.max_r by lia. split; [lia|]. apply pow_mask_intro. split; [|done].
    destruct (decide (3 <= Z.log2_up c)%Z); [done|]. exfalso.
    assert (2 ^ Z.log2_up c <= 2 ^ 2)%Z by (apply Z.pow_le_mono_r; lia). lia.
Qed.

Lemma rehash_spec t m c :
  contents (slots_ t) ≡ₚ map_to_list m -> (slots_ t <> [] -> rh_filled t m) -> (c <= 2 ^ 31)%Z -> base.size m < rounded_capacity c ->
  exists t', rehash t c = Ret t' /\ rh_filled t' m /\ length (slots_ t') = rounded_capacity c /\ max_load_factor_ t' = max_load_factor_ t.
Proof.
  intros Hcon Hfill Hc Hsz. destruct (new_capacity_spec c Hc) as [Hnew Hpm]. pose proof (pm_two _ _ Hpm) as H2.
  unfold rehash, rehash_fuel, bucket_count. cbv zeta. rewrite Hnew, Nat2Z.id. case_decide as E.
  - apply Nat2Z.inj in E. exists t. rewrite <- E. split_and!; [done| |done|done]. apply Hfill. intros E'. rewrite E' in E. cbn in E. lia.
  - rewrite Hnew in Hpm. destruct (reinsert_spec (S (rounded_capacity c)) (slots_ t)
      (mkRobinHood (replicate (rounded_capacity c) empty_slot) 0 (Z.of_nat (rounded_capacity c) - 1) (max_load_factor_ t)) ∅ m)
      as (t' & Hr & Hf & Hl & Hmf); cbn [slots_]; rewrite ?length_replicate; [|lia|lia| |].
    + split; [by apply filled_replicate|by rewrite map_size_empty].
    + by rewrite map_to_list_empty, app_nil_r.
    + exists t'. rewrite Hl. cbn [slots_]. by rewrite length_replicate.
Qed.

(** ** The map as a whole

    The abstract state also tells how many slots there are, since the loops of the
    code stop because one of them is free. *)
Record rh_abs := mkAbs { entries : gmap K V; buckets : nat; load : D }.

Implicit Types a : rh_abs.

Ltac rh_fields := cbn [slots_ size_ capacity_mask_ max_load_factor_ entries buckets load].

(** A load factor below one leaves a slot free. *)
Context (below_one : D -> bool).

Definition below_one_law : Prop := forall f n c, below_one f = true -> 0 < c -> exceeds f n c = false -> n < c.

Record rh_rep t a : Prop := {
  rr_slots : (slots_ t = [] /\ size_ t = 0 /\ entries a = ∅) \/ rh_filled t (entries a);
  rr_buckets : length (slots_ t) = buckets a;
  rr_load : max_load_factor_ t = load a;
  rr_below : below_one (load a) = true;
}.

Definition grown a : nat :=
  if decide (buckets a = 0) then 8
  else if exceeds (load a) (S (base.size (entries a))) (buckets a) then buckets a * 2 else buckets a.

Lemma filled_length t m : rh_filled t m -> slots_ t <> [].
Proof. intros [Hf _] E. pose proof (fi_free _ _ _ Hf). rewrite E in *. cbn in *. lia. Qed.

Lemma rep_contents t a : rh_rep t a -> contents (slots_ t) ≡ₚ map_to_list (entries a).
Proof. intros [[(-> & _ & ->)|[Hf _]] _ _]; [by rewrite map_to_list_empty|apply (fi_contents _ _ _ Hf)]. Qed.

Lemma rep_filled t a : rh_rep t a -> slots_ t <> [] -> rh_filled t (entries a).
Proof. intros [[(E & _)|Hf] _ _] Hne; done. Qed.

Lemma rh_rep_size t a : rh_rep t a -> size_ t = base.size (entries a).
Proof. intros [[(_ & -> & ->)|[_ ->]] _ _ _]; [by rewrite map_size_empty|done]. Qed.

Lemma rounded_pow n : (3 <= n)%Z -> rounded_capacity (2 ^ n) = Z.to_nat (2 ^ n).
Proof.
  intros Hn. unfold rounded_capacity. rewrite Z.log2_up_pow2 by lia.
  assert (2 ^ 3 <= 2 ^ n)%Z by (apply Z.pow_le_mono_r; lia). lia.
Qed.

Lemma rounded_cap cap mask : pow_mask cap mask ->
  rounded_capacity (Z.of_nat cap) = cap /\ rounded_capacity (Z.of_nat (cap * 2)) = cap * 2.
Proof.
  intros [(k & Hk & ->) _ H8]. assert (3 <= k) by (apply (Nat.pow_le_mono_r_iff 2); [lia|done]).
  replace (2 ^ k * 2) with (2 ^ S k) by (rewrite Nat.pow_succ_r'; lia). rewrite !Nat2Z.inj_pow. change (Z.of_nat 2) with 2%Z.
  rewrite !rounded_pow by lia. split; apply Nat2Z.inj; rewrite Z2Nat.id, Nat2Z.inj_pow; (done || by apply Z.pow_nonneg).
Qed.

Lemma ensure_capacity_rep t a : below_one_law -> rh_rep t a -> (Z.of_nat (buckets a) <= 2 ^ 30)%Z ->
  exists t', ensure_capacity t = Ret t' /\ rh_filled t' (entries a) /\ length (slots_ t') = grown a /\
    max_load_factor_ t' = load a /\ S (base.size (entries a)) < grown a.
Proof.
  intros Hlaw Hr Hb. pose proof (rep_filled _ _ Hr) as Hfill. pose proof (rep_contents _ _ Hr) as Hcon. pose proof (rh_rep_size _ _ Hr) as Hsz.
  destruct Hr as [Hs Hbk Hld Hbl]. unfold ensure_capacity, grown, bucket_count.
  destruct (decide (slots_ t = [])) as [E|Hne].
  - rewrite decide_True by (by left). rewrite E in Hbk. cbn in Hbk. rewrite <- Hbk.
    assert (entries a = ∅) as Em by (destruct Hs as [(_ & _ & H)|Hf]; [done|by destruct (filled_length _ _ Hf)]).
    destruct (rehash_spec t (entries a) INITIAL_CAPACITY) as (t' & -> & Hf & Hl & Hmf);
      [done|done|unfold INITIAL_CAPACITY; lia|rewrite Em, map_size_empty; pose proof (rounded_min INITIAL_CAPACITY); lia|].
    exists t'. rewrite (decide_True (P := 0 = 0)) by done. split_and!; [done|done|by rewrite Hl|by rewrite Hmf|].
    rewrite Em, map_size_empty. lia.
  - specialize (Hfill Hne). pose proof (rf_filled _ _ Hfill) as Hf. pose proof (tbl_mask _ _ (fi_tbl _ _ _ Hf)) as Hpm.
    pose proof (pm_min _ _ Hpm) as H8. pose proof (fi_free _ _ _ Hf) as Hfree. rewrite (decide_False (P := buckets a = 0)) by lia.
    rewrite Hld, Hsz, Hbk. destruct (exceeds (load a) (S (base.size (entries a))) (buckets a)) eqn:Ee.
    + rewrite decide_True by (by right). assert (Z.of_nat (buckets a) * 2 = Z.of_nat (buckets a * 2))%Z as -> by lia.
      rewrite u64_small by lia. destruct (rounded_cap _ _ Hpm) as [_ Hr2]. rewrite Hbk in Hr2.
      destruct (rehash_spec t (entries a) (Z.of_nat (buckets a * 2))) as (t' & -> & Hf' & Hl & Hmf); [done|done|lia|rewrite Hr2; lia|].
      exists t'. rewrite Hl, Hmf, Hr2. split_and!; [done|done|done|done|lia].
    + rewrite decide_False by (intros [|]; done). exists t. rewrite Hld. split_and!; [done|done|done|done|].
      apply (Hlaw (load a)); [done|lia|done].
Qed.

Lemma rh_insert_rep t a k v : below_one_law -> rh_rep t a -> (Z.of_nat (buckets a) <= 2 ^ 30)%Z ->
  exists t' i, insert t k v = Ret (t', i, bool_decide (entries a !! k = None)) /\
    rh_rep t' (mkAbs (if decide (entries a !! k = None) then <[k := v]> (entries a) else entries a) (grown a) (load a)) /\
    forall v', entries a !! k = Some v' -> exists s, slots_ t' !! i = Some s /\ occupied s /\ key s = k /\ value s = v'.
Proof.
  intros Hlaw Hr Hb. pose proof (rr_below _ _ Hr) as Hbl. destruct (ensure_capacity_rep t a Hlaw Hr Hb) as (t1 & Ht1 & [Hf Hsz] & Hl & Hmf & Hroom).
  unfold insert, insert_entry. rewrite Ht1. ret_step. cbv zeta. cbn [key].
  pose proof (place_loop_filled _ _ _ k v EMPTY 0 (S (length (slots_ t1))) (Some k) Hf) as Hp.
  destruct (entries a !! k) as [v'|] eqn:Hk.
  - destruct Hp as (i & s & -> & Hs & Ho & Hks & Hv); [lia|lia|by left|]. ret_step. eexists _, i. split; [done|]. rewrite decide_False by done.
    split; [split; rh_fields; [right; by split|done|done|done]|]. intros v2 [= <-]. by exists s.
  - destruct Hp as (slots' & i & -> & Hl' & Hf'); [lia|lia|by left|]. ret_step. eexists _, i. split; [done|]. rewrite decide_True by done.
    split; [|done]. split; rh_fields; [right; split; [done|]|by rewrite Hl'|done|done]. rh_fields. by rewrite map_size_insert_None, Hsz.
Qed.

Lemma find_slot_rep t a k : rh_rep t a ->
  match entries a !! k with
  | Some v => exists i s, find_slot t k = Ret (Some i) /\ slots_ t !! i = Some s /\ occupied s /\ key s = k /\ value s = v
  | None => find_slot t k = Ret None
  end.
Proof.
  intros Hr. unfold find_slot. case_decide as E.
  - destruct Hr as [[(_ & _ & ->)|Hf] _ _ _]; [by rewrite lookup_empty|by destruct (filled_length _ _ Hf)].
  - destruct (rep_filled _ _ Hr E) as [Hf _]. apply (find_loop_filled _ _ _ k Hf).
Qed.

Lemma erase_at_rep t a k v i s : rh_rep t a -> entries a !! k = Some v -> slots_ t !! i = Some s -> occupied s -> key s = k ->
  exists t', erase_at t i = Ret t' /\ rh_rep t' (mkAbs (delete k (entries a)) (buckets a) (load a)).
Proof.
  intros Hr Hk Hs Ho Hks. destruct (rep_filled _ _ Hr) as [Hf Hsz]; [intros E; by rewrite E in Hs|].
  destruct (erase_loop_filled _ _ _ k v i s Hf Hk Hs Ho Hks) as (slots' & He & Hl & Hf').
  unfold erase_at, bucket_count. rewrite He. ret_step. eexists. split; [done|]. destruct Hr as [_ Hb Hld Hbl].
  split; rh_fields; [right; split; [done|]|by rewrite Hl|done|done]. rh_fields. rewrite map_size_delete_Some by (by eexists). lia.
Qed.

Lemma contents_set slots i s v : slots !! i = Some s -> occupied s ->
  exists l, contents slots ≡ₚ (key s, value s) :: l /\ contents (<[i := mkSlot (state s) (psr s) (key s) v]> slots) ≡ₚ (key s, v) :: l.
Proof.
  intros Hs Ho. exists (without i slots). split; [by apply without_contents|].
  rewrite (without_contents _ i (mkSlot (state s) (psr s) (key s) v)); [|apply list_lookup_insert_eq; by eapply lookup_lt_Some|done].
  cbn [key value]. unfold without. by rewrite list_insert_insert_eq.
Qed.

Lemma set_value_rep t a k v' v i s : rh_rep t a -> entries a !! k = Some v' -> slots_ t !! i = Some s -> occupied s -> key s = k -> value s = v' ->
  exists t', set_value t i v = Ret t' /\ rh_rep t' (mkAbs (<[k := v]> (entries a)) (buckets a) (load a)).
Proof.
  intros Hr Hk Hs Ho Hks Hv. destruct (rep_filled _ _ Hr) as [Hf Hsz]; [intros E; by rewrite E in Hs|]. apply lookup_lt_Some in Hs as Hi.
  unfold set_value. rewrite (vget_Some _ _ _ Hs). ret_step. rewrite vset_lt by done. ret_step. eexists. split; [done|].
  destruct Hr as [_ Hb Hld Hbl]. assert (is_Some (entries a !! k)) as Hsome by by eexists.
  split; rh_fields; rewrite ?length_insert; [right; split; rh_fields; [split|by rewrite map_size_insert_Some, Hsz]|done|done|done].
  - destruct (tbl_place _ _ (fi_tbl _ _ _ Hf) _ _ Hs Ho). pose proof (fi_tbl _ _ _ Hf) as Ht. apply tbl_write; [done|done|by left|done| |].
    + intros _ Hp j Hj E. cbn in Hp. apply (tbl_order _ _ Ht j s); [done|by rewrite E|done|done].
    + intros s' Hs' Ho' Hp. destruct (tbl_order _ _ Ht i s' Hi Hs' Ho' Hp) as (s0 & Hs0 & Ho0 & Hle).
      assert (s0 = s) as -> by congruence. done.
  - destruct (contents_set (slots_ t) i s v Hs Ho) as (l & H1 & H2). rewrite H2. rewrite (fi_contents _ _ _ Hf), Hks, Hv in H1.
    rewrite <- (insert_delete_id _ _ _ Hk), map_to_list_insert in H1 by apply lookup_delete_eq. apply Permutation_cons_inv in H1.
    rewrite <- (insert_delete_eq (entries a)), map_to_list_insert by apply lookup_delete_eq. by rewrite H1, Hks.
  - rewrite length_insert, map_size_insert_Some by done. apply (fi_free _ _ _ Hf).
Qed.

Lemma rep_intro t m n f : rh_filled t m -> length (slots_ t) = n -> max_load_factor_ t = f -> below_one f = true -> rh_rep t (mkAbs m n f).
Proof. intros. split; rh_fields; [by right|done..]. Qed.

Lemma rehash_rep t a c : rh_rep t a -> (c <= 2 ^ 31)%Z -> base.size (entries a) < rounded_capacity c ->
  exists t', rehash t c = Ret t' /\ rh_rep t' (mkAbs (entries a) (rounded_capacity c) (load a)).
Proof.
  intros Hr Hc Hsz. destruct (rehash_spec t (entries a) c (rep_contents _ _ Hr) (rep_filled _ _ Hr) Hc Hsz) as (t' & -> & Hf & Hl & Hmf).
  exists t'. split; [done|]. destruct Hr as [_ _ Hld Hbl]. apply rep_intro; [done|done|congruence|done].
Qed.

Lemma rounded_next_power n : (n <= 2 ^ 31)%Z ->
  (next_power_of_two n <= 2 ^ 31)%Z /\ rounded_capacity (next_power_of_two n) = rounded_capacity n.
Proof.
  intros Hn. rewrite next_power_of_two_spec by lia. pose proof (Z.log2_up_nonneg n) as H0.
  pose proof (Z.log2_up_le_mono n (2 ^ 31) Hn) as H. rewrite Z.log2_up_pow2 in H by lia.
  split; [apply Z.pow_le_mono_r; lia|]. unfold rounded_capacity. by rewrite Z.log2_up_pow2.
Qed.

Lemma rh_reserve_rep t a n c : rh_rep t a -> needed (load a) n = Some c -> (0 <= c <= 2 ^ 31)%Z -> base.size (entries a) < rounded_capacity c ->
  exists t', reserve t n = Ret t' /\ rh_rep t' (mkAbs (entries a) (rounded_capacity c) (load a)).
Proof.
  intros Hr Hc [H0 Hn] Hsz. unfold reserve. rewrite (rr_load _ _ Hr), Hc, to_size_in by lia. ret_step. destruct (rounded_next_power _ Hn) as [Hle Hro].
  destruct (rehash_rep t a _ Hr Hle) as (t' & -> & Hr'); [by rewrite Hro|]. rewrite Hro in Hr'. by exists t'.
Qed.

(** Changing the load factor never moves an entry: the [rehash] it calls asks for
    the number of slots there already are. *)
Lemma set_max_load_factor_rep t a f : rh_rep t a -> below_one f = true ->
  exists t', set_max_load_factor t f = Ret t' /\ (slots_ t <> [] -> slots_ t' = slots_ t) /\
    rh_rep t' (mkAbs (entries a) (if decide (buckets a = 0 /\ exceeds f 0 0 = true) then 8 else buckets a) f).
Proof.
  intros Hr Hf. pose proof (rh_rep_size _ _ Hr) as Hsz. unfold set_max_load_factor, bucket_count. cbv zeta. rh_fields.
  set (t1 := mkRobinHood (slots_ t) (size_ t) (capacity_mask_ t) f).
  assert (rh_rep t1 (mkAbs (entries a) (buckets a) f)) as Hr1 by (destruct Hr as [[?|[? ?]] ? ? ?]; split; rh_fields; try done; [by left|right; by split]).
  rewrite (rr_buckets _ _ Hr), Hsz. destruct (decide (slots_ t = [])) as [E|Hne].
  - pose proof (rr_buckets _ _ Hr) as Hb. rewrite E in Hb. cbn in Hb. rewrite <- Hb in *.
    assert (entries a = ∅) as Em by (destruct Hr as [[(_ & _ & H)|H] _ _ _]; [done|by destruct (filled_length _ _ H)]).
    rewrite Em, map_size_empty in *. destruct (exceeds f 0 0) eqn:Ex.
    + destruct (rehash_rep t1 _ (Z.of_nat 0) Hr1) as (t' & -> & Hr'); [done|rh_fields; rewrite map_size_empty; pose proof (rounded_min (Z.of_nat 0)); lia|].
      rewrite decide_True by done. exists t'. split_and!; [done|done|exact Hr'].
    + rewrite decide_False by (intros [_ H]; done). by exists t1.
  - destruct (rep_filled _ _ Hr Hne) as [Hfi _]. pose proof (tbl_mask _ _ (fi_tbl _ _ _ Hfi)) as Hpm.
    pose proof (pm_min _ _ Hpm) as H8. pose proof (rr_buckets _ _ Hr) as Hb. rewrite (decide_False (P := buckets a = 0 /\ _)) by lia.
    case_match; [|by exists t1]. destruct (rounded_cap _ _ Hpm) as [Hro _]. rewrite Hb in Hro.
    unfold rehash, rehash_fuel, bucket_count. cbv zeta. destruct (new_capacity_spec (Z.of_nat (buckets a))) as [-> _].
    { rewrite <- Hb. by apply cap_small in Hpm. }
    rewrite Hro, decide_True by (subst t1; rh_fields; lia). by exists t1.
Qed.

Lemma rh_clear_rep t a : rh_rep t a -> rh_rep (clear t) (mkAbs ∅ (buckets a) (load a)).
Proof.
  intros [Hs Hb Hld Hbl]. unfold clear. destruct Hs as [(E & Hsz & Hm)|[Hf Hsz]].
  - split; rh_fields; rewrite ?E in *; [left|..]; done.
  - split; rh_fields; rewrite ?length_fmap; [right|done..]. split; rh_fields; [|by rewrite map_size_empty].
    pose proof (tbl_mask _ _ (fi_tbl _ _ _ Hf)) as Hpm. split.
    + split; rewrite ?length_fmap; [done|..].
      * intros i s (s' & -> & _)%list_lookup_fmap_Some. by right.
      * by intros i s (s' & -> & _)%list_lookup_fmap_Some.
      * by intros i s _ (s' & -> & _)%list_lookup_fmap_Some.
    + rewrite map_to_list_empty. clear. induction (slots_ t) as [|s l IH]; [done|]. by rewrite fmap_cons, contents_unused.
    + rewrite map_size_empty, length_fmap. pose proof (fi_free _ _ _ Hf). lia.
Qed.

(** *** Iteration *)

(** [for (auto e : map)]: what a walk from an iterator visits. *)
Fixpoint visited (fuel : nat) t (it : option nat) : outcome (list (K * V)) :=
  match fuel with
  | O => NoFuel
  | S fuel =>
    match it with
    | None => Ret []
    | Some i => s ← vget (slots_ t) i; rest ← visited fuel t (iterator_next t i); Ret ((key s, value s) :: rest)
    end
  end.

Lemma first_occupied_spec l : forall i,
  match first_occupied l i with
  | Some j => exists n s, j = i + n /\ l !! n = Some s /\ contents l = (key s, value s) :: contents (drop (S n) l)
  | None => contents l = []
  end.
Proof.
  induction l as [|s l IH]; intros i; cbn [first_occupied]; [done|]. case_decide as Ho.
  - exists 0, s. split_and!; [lia|done|]. cbn [drop]. by rewrite contents_used.
  - specialize (IH (S i)). rewrite (contents_unused s l Ho). case_match; [|done].
    destruct IH as (n' & s' & -> & Hs & Hc). exists (S n'), s'. split_and!; [lia|done|done].
Qed.

Lemma visited_spec t : forall fuel i, length (slots_ t) - i < fuel ->
  visited fuel t (find_first_occupied_from t i) = Ret (contents (drop i (slots_ t))).
Proof.
  induction fuel as [|fuel IH]; intros i Hf; [lia|]. cbn [visited]. unfold find_first_occupied_from at 1.
  pose proof (first_occupied_spec (drop i (slots_ t)) i) as H. destruct (first_occupied (drop i (slots_ t)) i) as [j|]; [|by rewrite H].
  destruct H as (n & s & -> & Hs & ->). rewrite lookup_drop in Hs. rewrite (vget_Some _ _ _ Hs). ret_step.
  apply lookup_lt_Some in Hs. unfold iterator_next. rewrite IH by lia. ret_step. rewrite drop_drop. by replace (i + S n) with (S (i + n)) by lia.
Qed.

(** *** The contract *)
Inductive rh_op :=
| RhInsert k v | RhInsertOrAssign k v | RhIndexAssign k v | RhErase k | RhFindErase k | RhFind k | RhContains k | RhAt k
| RhSize | RhEmpty | RhBucketCount | RhRehash (c : Z) | RhReserve (n : nat) | RhSetLoad (f : D) | RhClear | RhMoveOut.

Definition rh_step t (o : rh_op) : outcome (RobinHoodHashMap K V D * obs V) :=
  match o with
  | RhInsert k v => '(t, _, b) ← insert t k v; Ret (t, OBool b)
  | RhInsertOrAssign k v => '(t, _, b) ← insert_or_assign t k v; Ret (t, OBool b)
  | RhIndexAssign k v => t ← index_assign t k v; Ret (t, ODone)
  | RhErase k => '(t, b) ← erase t k; Ret (t, OBool b)
  | RhFindErase k =>
    r ← find_slot t k;
    match r with Some i => '(t, _) ← erase_iterator t i; Ret (t, OBool true) | None => Ret (t, OBool false) end
  | RhFind k => r ← find t k; Ret (t, OOpt r)
  | RhContains k => b ← contains t k; Ret (t, OBool b)
  | RhAt k => v ← at_ t k; Ret (t, OVal v)
  | RhSize => Ret (t, ONum (size t))
  | RhEmpty => Ret (t, OBool (empty t))
  | RhBucketCount => Ret (t, ONum (bucket_count t))
  | RhRehash c => t ← rehash t c; Ret (t, ODone)
  | RhReserve n => t ← reserve t n; Ret (t, ODone)
  | RhSetLoad f => t ← set_max_load_factor t f; Ret (t, ODone)
  | RhClear => Ret (clear t, ODone)
  | RhMoveOut => Ret ((move t).2, ODone)
  end.

Definition insert_spec a k v : outcome (rh_abs * obs V) :=
  if decide (Z.of_nat (buckets a) <= 2 ^ 30)%Z then
    Ret (mkAbs (if decide (entries a !! k = None) then <[k := v]> (entries a) else entries a) (grown a) (load a),
         OBool (bool_decide (entries a !! k = None)))
  else Undef.

(** A table that has to become smaller than its contents is left out: see
    [robin_hood_rehash_loops]; and so is assigning through [operator\[\]] to an absent key: see [robin_hood_index_overwrites]. *)
Definition rehash_spec_to a (c : Z) : outcome (rh_abs * obs V) :=
  if decide (0 <= c <= 2 ^ 31)%Z then
    if decide (base.size (entries a) < rounded_capacity c) then Ret (mkAbs (entries a) (rounded_capacity c) (load a), ODone) else Undef
  else Undef.

Definition erase_spec a k : outcome (rh_abs * obs V) :=
  Ret (mkAbs (delete k (entries a)) (buckets a) (load a), OBool (bool_decide (is_Some (entries a !! k)))).

Definition rh_spec a (o : rh_op) : outcome (rh_abs * obs V) :=
  match o with
  | RhInsert k v => insert_spec a k v
  | RhInsertOrAssign k v =>
    match entries a !! k with
    | Some _ => Ret (mkAbs (<[k := v]> (entries a)) (buckets a) (load a), OBool false)
    | None => insert_spec a k v
    end
  | RhIndexAssign k v =>
    match entries a !! k with
    | Some _ => '(a, _) ← insert_spec a k v; Ret (mkAbs (<[k := v]> (entries a)) (buckets a) (load a), ODone)
    | None => Undef
    end
  | RhErase k | RhFindErase k => erase_spec a k
  | RhFind k => Ret (a, OOpt (entries a !! k))
  | RhContains k => Ret (a, OBool (bool_decide (is_Some (entries a !! k))))
  | RhAt k => match entries a !! k with Some v => Ret (a, OVal v) | None => Throw out_of_range end
  | RhSize => Ret (a, ONum (base.size (entries a)))
  | RhEmpty => Ret (a, OBool (bool_decide (entries a = ∅)))
  | RhBucketCount => Ret (a, ONum (buckets a))
  | RhRehash c => rehash_spec_to a c
  | RhReserve n => match needed (load a) n with Some c => rehash_spec_to a c | None => Undef end
  | RhSetLoad f =>
    if below_one f then
      Ret (mkAbs (entries a) (if decide (buckets a = 0 /\ exceeds f 0 0 = true) then 8 else buckets a) f, ODone)
    else Undef
  | RhClear => Ret (mkAbs ∅ (buckets a) (load a), ODone)
  | RhMoveOut => Ret (mkAbs ∅ 0 (load a), ODone)
  end.

Lemma rep_eta t a : rh_rep t a -> rh_rep t (mkAbs (entries a) (buckets a) (load a)).
Proof. by destruct a. Qed.

Lemma insert_sim t a k v : below_one_law -> rh_rep t a ->
  match insert_spec a k v with
  | Ret (a', o) => exists t', ('(t, _, b) ← insert t k v; Ret (t, OBool b)) = Ret (t', o) /\ rh_rep t' a'
  | Throw _ => False
  | _ => True
  end.
Proof.
  intros Hlaw Hr. unfold insert_spec. case_decide; [|done].
  destruct (rh_insert_rep t a k v Hlaw Hr) as (t' & i & -> & Hr' & _); [done|]. by exists t'.
Qed.

Lemma erase_sim t a k : rh_rep t a ->
  exists t', erase t k = Ret (t', bool_decide (is_Some (entries a !! k))) /\
    rh_rep t' (mkAbs (delete k (entries a)) (buckets a) (load a)) /\
    (r ← find_slot t k;
     match r with Some i => '(t, _) ← erase_iterator t i; Ret (t, OBool true) | None => Ret (t, OBool false) end) =
      Ret (t', @OBool V (bool_decide (is_Some (entries a !! k)))).
Proof.
  intros Hr. unfold erase. pose proof (find_slot_rep t a k Hr) as Hfs. destruct (entries a !! k) as [v|] eqn:Hk.
  - destruct Hfs as (i & s & -> & Hs & Ho & Hks & Hv). repeat ret_step.
    destruct (erase_at_rep t a k v i s Hr Hk Hs Ho Hks) as (t' & He & Hr'). unfold erase_iterator. rewrite He. by exists t'.
  - rewrite Hfs. repeat ret_step. exists t. rewrite delete_id by done. split_and!; [done|by apply rep_eta|done].
Qed.

Lemma rh_simulates : below_one_law -> Simulates rh_step rh_spec rh_rep.
Proof.
  intros Hlaw t a o Hr. destruct o as [k v|k v|k v|k|k|k|k|k| | | |c|n|f| |]; cbn [rh_spec rh_step].
  - pose proof (insert_sim t a k v Hlaw Hr) as H. by destruct (insert_spec a k v) as [[a' o]| | |].
  - pose proof (find_slot_rep t a k Hr) as Hfs. unfold insert_or_assign. destruct (entries a !! k) as [v'|] eqn:Hk.
    + destruct Hfs as (i & s & -> & Hs & Ho & Hks & Hv). ret_step.
      destruct (set_value_rep t a k v' v i s Hr Hk Hs Ho Hks Hv) as (t' & -> & Hr'). by exists t'.
    + rewrite Hfs. ret_step. pose proof (insert_sim t a k v Hlaw Hr) as H. by destruct (insert_spec a k v) as [[a' o]| | |].
  - destruct (entries a !! k) as [v0|] eqn:Hk; [|done]. unfold insert_spec. case_decide as Hb; [|done]. rewrite decide_False by congruence. ret_step. cbn [entries buckets load].
    unfold index_assign. destruct (rh_insert_rep t a k V_default Hlaw Hr Hb) as (t1 & i & -> & Hr1 & Hi). ret_step. rewrite decide_False in Hr1 by congruence. destruct (Hi v0 Hk) as (s & Hs & Ho & Hks & Hv).
    destruct (set_value_rep t1 _ k v0 v i s Hr1 Hk Hs Ho Hks Hv) as (t' & -> & Hr'). by exists t'.
  - destruct (erase_sim t a k Hr) as (t' & -> & Hr' & _). by exists t'.
  - destruct (erase_sim t a k Hr) as (t' & _ & Hr' & ->). by exists t'.
  - pose proof (find_slot_rep t a k Hr) as Hfs. unfold find. destruct (entries a !! k) as [v|] eqn:Hk.
    + destruct Hfs as (i & s & -> & Hs & Ho & Hks & <-). ret_step. rewrite (vget_Some _ _ _ Hs). by exists t.
    + rewrite Hfs. by exists t.
  - pose proof (find_slot_rep t a k Hr) as Hfs. unfold contains. destruct (entries a !! k) as [v|] eqn:Hk.
    + destruct Hfs as (i & s & -> & _). by exists t.
    + rewrite Hfs. by exists t.
  - pose proof (find_slot_rep t a k Hr) as Hfs. unfold at_. destruct (entries a !! k) as [v|] eqn:Hk.
    + destruct Hfs as (i & s & -> & Hs & Ho & Hks & <-). ret_step. rewrite (vget_Some _ _ _ Hs). by exists t.
    + by rewrite Hfs.
  - unfold size. rewrite (rh_rep_size _ _ Hr). by exists t.
  - unfold empty. rewrite (rh_rep_size _ _ Hr), (bool_decide_ext _ _ (map_size_empty_iff (entries a))). by exists t.
  - unfold bucket_count. rewrite (rr_buckets _ _ Hr). by exists t.
  - unfold rehash_spec_to. case_decide; [|done]. case_decide; [|done].
    destruct (rehash_rep t a c Hr) as (t' & -> & Hr'); [lia|done|]. by exists t'.
  - destruct (needed (load a) n) as [c|] eqn:Hc; [|done]. unfold rehash_spec_to. case_decide; [|done]. case_decide; [|done].
    destruct (rh_reserve_rep t a n c Hr Hc) as (t' & -> & Hr'); [done|done|]. by exists t'.
  - destruct (below_one f) eqn:Hf; [|done]. destruct (set_max_load_factor_rep t a f Hr Hf) as (t' & -> & _ & Hr'). by exists t'.
  - eexists. split; [done|]. by apply rh_clear_rep.
  - eexists. split; [done|]. destruct Hr. split; cbn; [by left|done..].
Qed.

Lemma rh_new_rep c : below_one mlf_default = true -> needed mlf_default 8 = Some c -> (0 <= c <= 2 ^ 31)%Z ->
  exists t, rh_new = Ret t /\ rh_rep t (mkAbs ∅ (rounded_capacity c) mlf_default).
Proof.
  intros Hb Hn Hc. apply (rh_reserve_rep no_slots (mkAbs ∅ 0 mlf_default) 8 c); rh_fields; [|done|done|].
  - split; cbn; [by left|done..].
  - rewrite map_size_empty. pose proof (rounded_min c). lia.
Qed.

(** C18: From the default constructor on, every sequence of operations observes what a finite map would, without
    reading outside the slots, without overflow and with every probe loop ending; in the end a walk
    over the iterators visits each entry once.  The load test in floating point is a parameter, which refuses a full table for a factor
    below one, as the default is.  The contract [rh_spec] leaves undefined, and so says nothing of a sequence with: a maximum load
    factor that is not below one, [rehash] and [reserve] to a capacity that does not exceed the number of entries or is beyond [2^31], an insertion into more than [2^30] buckets, and an
    assignment through [operator\[\]] to an absent key. *)
Theorem robin_hood_refines ops a os c :
  below_one_law -> below_one mlf_default = true -> needed mlf_default 8 = Some c -> (0 <= c <= 2 ^ 31)%Z ->
  trace rh_spec (mkAbs ∅ (rounded_capacity c) mlf_default) ops = Ret (a, os) ->
  exists t t' es, rh_new = Ret t /\ trace rh_step t ops = Ret (t', os) /\ bucket_count t' = buckets a /\
    visited (S (bucket_count t')) t' (begin t') = Ret es /\ es ≡ₚ map_to_list (entries a).
Proof.
  intros Hlaw Hb Hn Hc Ht. destruct (rh_new_rep c Hb Hn Hc) as (t & Hnew & Hr). pose proof (rh_simulates Hlaw) as Hsim.
  destruct (trace_refines (R := rh_rep) (step := rh_step) (spec := rh_spec) ops t _ a os Hr Ht) as (t' & Htr & Hr').
  exists t, t', (contents (slots_ t')). split_and!; [done|done|apply Hr'| |by apply rep_contents].
  unfold begin. rewrite visited_spec by (unfold bucket_count; lia). done.
Qed.

End robin_hood.

(** ** Two defects, on integers with the identity as their hash *)
Section robin_hood_runs.
#[local] Open Scope Z_scope.

#[local] Definition exceeds_34 (_ : unit) (n c : nat) : bool := Nat.ltb (3 * c) (4 * n).
#[local] Definition needed_34 (_ : unit) (n : nat) : option Z := Some (Z.of_nat n * 4 / 3).

Local Abbreviation map_new := (rh_new 0 0 id needed_34 tt).
Local Abbreviation map_insert := (insert 0 0 id exceeds_34).
Local Abbreviation map_step := (rh_step 0 0 id exceeds_34 needed_34).

#[local] Definition insert_all (t : RobinHoodHashMap Z Z unit) (kvs : list (Z * Z)) : outcome (RobinHoodHashMap Z Z unit) :=
  foldl (fun m kv => t ← m; '(t, _, _) ← map_insert t kv.1 kv.2; Ret t) (Ret t) kvs.

(** The iterator [insert] returns points to the last entry it displaced, so that
    [map\[16\] = 20] leaves key 16 with the default value and overwrites the
    value of key 1. *)
Theorem robin_hood_index_overwrites :
  (t ← map_new; t ← insert_all t [(0, 10); (1, 11)]; t ← index_assign 0 0 id exceeds_34 t 16 20;
   x ← find id t 16; y ← find id t 1; Ret (x, y)) = Ret (Some 0, Some 20).
Proof. vm_compute. reflexivity. Qed.

(** The loop goes on as long as it is allowed to, until the distance overflows. *)
#[local] Definition never_returns {A} (m : outcome A) : Prop := m = NoFuel \/ m = Undef.

Lemma place_loop_full {K V} `{!EqDecision K} (mask : Z) fuel : forall (slots : list (Slot K V)) entry psr_ idx,
  pow_mask (length slots) mask -> (forall i s, slots !! i = Some s -> occupied s) -> (idx < length slots)%nat ->
  never_returns (place_loop fuel mask slots entry psr_ idx None).
Proof.
  induction fuel as [|fuel IH]; intros slots entry psr_ idx Hpm Hfull Hi; [by left|]. cbn [place_loop].
  destruct (vget_lt slots idx Hi) as (s & Hs & ->). ret_step. pose proof (Hfull _ _ Hs) as Ho.
  assert (next_index mask idx < length slots)%nat as Hnext.
  { pose proof (pm_two _ _ Hpm). rewrite (next_index_mod (length slots)) by done. apply wrap_lt. lia. }
  rewrite decide_False by (intros [_ H]; done). rewrite (decide_False (P := ~ occupied s)) by tauto.
  assert (forall n, inc32 n = Ret (S n) \/ inc32 n = Undef) as Hinc by (intros n; unfold inc32; case_decide; auto).
  case_decide; [|destruct (Hinc psr_) as [-> | ->]; [ret_step; by apply IH|by right]].
  rewrite vset_lt by done. ret_step. destruct (Hinc (psr s)) as [-> | ->]; [ret_step|by right]. apply IH; rewrite ?length_insert; [done| |done].
  intros i s' [(-> & <- & _)|[_ Hs']]%list_lookup_insert_Some; [done|by apply (Hfull i)].
Qed.

Lemma reinsert_app {K V D} `{!EqDecision K} (hasher : K -> Z) fuel (l1 l2 : list (Slot K V)) : forall t : RobinHoodHashMap K V D,
  reinsert hasher fuel t (l1 ++ l2) = (t ← reinsert hasher fuel t l1; reinsert hasher fuel t l2).
Proof.
  induction l1 as [|s l1 IH]; intros t; cbn [reinsert app]; [done|]. case_decide; [|done].
  rewrite bind_assoc. by destruct (insert_no_resize hasher fuel t s); cbn; rewrite ?IH.
Qed.

#[local] Definition nine : outcome (RobinHoodHashMap Z Z unit) :=
  Eval vm_compute in (t ← map_new; insert_all t ((fun k => (k, k)) <$> [0; 1; 2; 3; 4; 5; 6; 7; 8])).

#[local] Definition eight_slots : list (Slot Z Z) := (fun k => mkSlot OCCUPIED 0 k k) <$> [0; 1; 2; 3; 4; 5; 6; 7].

(** Nine entries do not fit into eight slots: the loop that reinserts the ninth
    never finds a free one, whatever the number of iterations, until its distance overflows. *)
Theorem robin_hood_rehash_loops fuel :
  (t ← map_new; t ← insert_all t ((fun k => (k, k)) <$> [0; 1; 2; 3; 4; 5; 6; 7; 8]); rehash_fuel 0 0 id fuel t 8) = NoFuel \/
  (t ← map_new; t ← insert_all t ((fun k => (k, k)) <$> [0; 1; 2; 3; 4; 5; 6; 7; 8]); rehash_fuel 0 0 id fuel t 8) = Undef.
Proof.
  rewrite <- bind_assoc. change (never_returns (nine ≫= (fun t => rehash_fuel 0 0 id fuel t 8))).
  unfold nine. ret_step. unfold rehash_fuel. cbv zeta. rewrite decide_False by (vm_compute; discriminate).
  cbn [slots_ max_load_factor_]. change (new_capacity_of 8) with 8.
  destruct fuel as [|fuel]; [left; vm_compute; reflexivity|].
  match goal with |- never_returns (reinsert _ _ ?t0 (?a :: ?b :: ?c :: ?d :: ?e :: ?f :: ?g :: ?h :: ?i :: ?rest)) =>
    change (never_returns (reinsert id (S fuel) t0 (eight_slots ++ i :: rest))) end.
  rewrite reinsert_app.
  assert (forall fuel, reinsert id (S fuel) (mkRobinHood (replicate (Z.to_nat 8) (empty_slot 0 0)) 0 (8 - 1) tt) eight_slots =
    Ret (mkRobinHood eight_slots 8 7 tt)) as H8 by (intros; vm_compute; reflexivity).
  rewrite (H8 fuel). ret_step. cbn [reinsert]. rewrite decide_True by done.
  unfold insert_no_resize. cbv zeta. cbn [slots_ capacity_mask_ key].
  match goal with |- context [place_loop ?fu ?ma ?sl ?en ?ps ?ix None] => destruct (place_loop_full 7 fu sl en ps ix) as [-> | ->]; [apply (pow_mask_intro 3); lia| |vm_compute; lia|by left|by right] end.
  intros i s (k & -> & _)%list_lookup_fmap_Some. done.
Qed.

Lemma robin_hood_refines_witness :
  exists t t', map_new = Ret t /\
    trace map_step t [RhInsert 0 10; RhInsert 1 11; RhInsert 16 12; RhInsert 32 13; RhFind 16; RhInsertOrAssign 1 21; RhFind 1;
                      RhIndexAssign 1 22; RhErase 16; RhAt 16; RhFind 32; RhSize; RhBucketCount] =
      Ret (t', [inl (OBool true); inl (OBool true); inl (OBool true); inl (OBool true); inl (OOpt (Some 12)); inl (OBool false);
                inl (OOpt (Some 21)); inl ODone; inl (OBool true); inr out_of_range; inl (OOpt (Some 13)); inl (ONum 3); inl (ONum 16)]).
Proof.
  destruct (robin_hood_refines 0 0 id exceeds_34 needed_34 tt (fun _ => true)
    [RhInsert 0 10; RhInsert 1 11; RhInsert 16 12; RhInsert 32 13; RhFind 16; RhInsertOrAssign 1 21; RhFind 1;
     RhIndexAssign 1 22; RhErase 16; RhAt 16; RhFind 32; RhSize; RhBucketCount]
    (mkAbs {[0 := 10; 1 := 22; 32 := 13]} 16 tt)
    [inl (OBool true); inl (OBool true); inl (OBool true); inl (OBool true); inl (OOpt (Some 12)); inl (OBool false);
     inl (OOpt (Some 21)); inl ODone; inl (OBool true); inr out_of_range; inl (OOpt (Some 13)); inl (ONum 3); inl (ONum 16)] 10)
    as (t & t' & es & H1 & H2 & _).
  - intros f n c _ Hc He. apply Nat.ltb_ge in He. lia.
  - reflexivity.
  - vm_compute. reflexivity.
  - lia.
  - vm_compute. reflexivity.
  - exists t, t'. split; [exact H1|exact H2].
Defined.
End robin_hood_runs.
