(* ===== verification/RedBlackTree.v ===== *)
(** * Red-black tree ([tree/balanced/RedBlackTree.hpp], [tree/node/RedBlackTreeNode.hpp])

    Nodes live in a store and hold pointers to their children and to their parent,
    as in the code; the loops climb along the parent pointers.  The branches of the
    code for a left and for a right child are mirror images of each other, line by
    line: the definitions take the side as an argument.  A node that no pointer
    reaches any more stays in the store.  The addresses handed out by
    [std::make_shared] are a parameter.

    Every loop follows one path of the tree, so that the number of nodes in the
    store plus two is enough fuel. *)

From stdpp Require Import list_tactics sorting fin_sets.
From S2P Require Import Prelude Refinement SortedList.

(** The colours of [base_type/Color.hpp] the tree uses. *)
Inductive Color := Red | Black.

#[global] Instance Color_eq_dec : EqDecision Color.
Proof. solve_decision. Defined.

Inductive side := SLeft | SRight.

#[global] Instance side_eq_dec : EqDecision side.
Proof. solve_decision. Defined.

Definition opp (d : side) : side := match d with SLeft => SRight | SRight => SLeft end.

Section red_black.
Context {T : Type}.

Record RedBlackTreeNode := mkNode {
  data_ : T;
  left_ : option nat;
  right_ : option nat;
  parent_ : option nat;
  color_ : Color;
}.

Record RedBlackTree := mkRBT { store : gmap nat RedBlackTreeNode; root_ : option nat }.

Context (lt eqb : T -> T -> bool) (alloc : gmap nat RedBlackTreeNode -> nat).

Implicit Types (s : RedBlackTree) (node parent sibling child uncle : option nat) (x value : T) (d : side) (c : Color).

(** ** Nodes *)
Definition deref s p : outcome RedBlackTreeNode :=
  match p with None => Undef | Some a => match store s !! a with Some n => Ret n | None => Undef end end.

Definition update s p (f : RedBlackTreeNode -> RedBlackTreeNode) : outcome RedBlackTree :=
  n ← deref s p; match p with Some a => Ret (mkRBT (<[a := f n]> (store s)) (root_ s)) | None => Undef end.

Definition getData s p : outcome T := n ← deref s p; Ret (data_ n).
Definition getLeft s p : outcome (option nat) := n ← deref s p; Ret (left_ n).
Definition getRight s p : outcome (option nat) := n ← deref s p; Ret (right_ n).
Definition getParent s p : outcome (option nat) := n ← deref s p; Ret (parent_ n).
Definition getColor s p : outcome Color := n ← deref s p; Ret (color_ n).

Definition setLeft s p q : outcome RedBlackTree := update s p (fun n => mkNode (data_ n) q (right_ n) (parent_ n) (color_ n)).
Definition setRight s p q : outcome RedBlackTree := update s p (fun n => mkNode (data_ n) (left_ n) q (parent_ n) (color_ n)).
Definition setParent s p q : outcome RedBlackTree := update s p (fun n => mkNode (data_ n) (left_ n) (right_ n) q (color_ n)).
Definition setColor s p c : outcome RedBlackTree := update s p (fun n => mkNode (data_ n) (left_ n) (right_ n) (parent_ n) c).

Definition getChild d s p : outcome (option nat) := match d with SLeft => getLeft s p | SRight => getRight s p end.
Definition setChild d s p q : outcome RedBlackTree := match d with SLeft => setLeft s p q | SRight => setRight s p q end.

(** [if (p) p->setParent(q)] and [if (p) p->setColor(c)]. *)
Definition adopt s p q : outcome RedBlackTree := match p with Some _ => setParent s p q | None => Ret s end.
Definition paint s p c : outcome RedBlackTree := match p with Some _ => setColor s p c | None => Ret s end.

(** [p && p->getColor() == Color::Red] *)
Definition is_red s p : outcome bool :=
  match p with Some _ => c ← getColor s p; Ret (bool_decide (c = Red)) | None => Ret false end.

(** ** Rotations *)

(** The pointer that leads to [node] is made to lead to [child]. *)
Definition relink s node child : outcome RedBlackTree :=
  parent ← getParent s node;
  match parent with
  | None => Ret (mkRBT (store s) child)
  | Some _ => l ← getLeft s parent; if decide (node = l) then setLeft s parent child else setRight s parent child
  end.

(** [leftRotate] for the left side, [rightRotate] for the right one. *)
Definition rotate d s node : outcome RedBlackTree :=
  child ← getChild (opp d) s node;
  inner ← getChild d s child;
  s ← setChild (opp d) s node inner;
  inner ← getChild d s child;
  s ← adopt s inner node;
  parent ← getParent s node;
  s ← setParent s child parent;
  s ← relink s node child;
  s ← setChild d s child node;
  setParent s node child.

(** ** Insertion *)

(** The branch for a node whose parent is the child of its grandparent on side [d]. *)
Definition fix_insert_step d s node : outcome (RedBlackTree * option nat) :=
  parent ← getParent s node;
  grand ← getParent s parent;
  uncle ← getChild (opp d) s grand;
  red ← is_red s uncle;
  if (red : bool) then
    s ← setColor s parent Black;
    s ← setColor s uncle Black;
    s ← setColor s grand Red;
    Ret (s, grand)
  else
    inner ← getChild (opp d) s parent;
    '(s, node) ← (if decide (node = inner) then s ← rotate d s parent; Ret (s, parent) else Ret (s, node));
    parent ← getParent s node;
    s ← setColor s parent Black;
    grand ← getParent s parent;
    s ← paint s grand Red;
    grand ← getParent s parent;
    s ← rotate (opp d) s grand;
    Ret (s, node).

Fixpoint fix_insert_loop (fuel : nat) s node : outcome RedBlackTree :=
  match fuel with
  | O => NoFuel
  | S fuel =>
    if decide (node = root_ s) then Ret s else
    parent ← getParent s node;
    red ← is_red s parent;
    if negb red then Ret s else
    grand ← getParent s parent;
    l ← getLeft s grand;
    '(s, node) ← fix_insert_step (if decide (parent = l) then SLeft else SRight) s node;
    fix_insert_loop fuel s node
  end.

Definition enough s : nat := S (S (base.size (store s))).

Definition fixInsert s node : outcome RedBlackTree :=
  s ← fix_insert_loop (enough s) s node; setColor s (root_ s) Black.

Fixpoint insert_loop (fuel : nat) s value (current parent : option nat) : outcome (option nat) :=
  match fuel with
  | O => NoFuel
  | S fuel =>
    match current with
    | None => Ret parent
    | Some _ =>
      x ← getData s current;
      next ← (if lt value x then getLeft s current else getRight s current);
      insert_loop fuel s value next current
    end
  end.

Definition insert s value : outcome RedBlackTree :=
  let node := Some (alloc (store s)) in
  let s := mkRBT (<[alloc (store s) := mkNode value None None None Red]> (store s)) (root_ s) in
  match root_ s with
  | None => setColor (mkRBT (store s) node) node Black
  | Some _ =>
    parent ← insert_loop (enough s) s value (root_ s) None;
    s ← setParent s node parent;
    x ← getData s parent;
    s ← (if lt value x then setLeft s parent node else setRight s parent node);
    fixInsert s node
  end.

(** ** Removal *)

(** The loop body for a node that is the child on side [d], once its sibling is
    black: the store, the next node and its parent. *)
Definition fix_delete_black d s parent sibling : outcome (RedBlackTree * option nat * option nat) :=
  both_black ← (match sibling with
    | None => Ret true
    | Some _ => l ← getLeft s sibling; r ← getRight s sibling; lred ← is_red s l; rred ← is_red s r; Ret (negb lred && negb rred)
    end);
  if (both_black : bool) then
    s ← paint s sibling Red;
    grand ← (match parent with Some _ => getParent s parent | None => Ret None end);
    Ret (s, parent, grand)
  else
    outer ← getChild (opp d) s sibling;
    red ← is_red s outer;
    '(s, sibling) ← (if negb red then
        inner ← getChild d s sibling;
        s ← paint s inner Black;
        s ← setColor s sibling Red;
        s ← rotate (opp d) s sibling;
        sibling ← getChild (opp d) s parent;
        Ret (s, sibling)
      else Ret (s, sibling));
    s ← (match sibling with
      | None => Ret s
      | Some _ =>
        c ← (match parent with Some _ => getColor s parent | None => Ret Black end);
        s ← setColor s sibling c;
        outer ← getChild (opp d) s sibling;
        paint s outer Black
      end);
    s ← paint s parent Black;
    s ← (match parent with Some _ => rotate d s parent | None => Ret s end);
    Ret (s, root_ s, parent).

Definition fix_delete_step d s parent : outcome (RedBlackTree * option nat * option nat) :=
  sibling ← (match parent with Some _ => getChild (opp d) s parent | None => Ret None end);
  red ← is_red s sibling;
  if (red : bool) then
    s ← setColor s sibling Black;
    s ← setColor s parent Red;
    s ← rotate d s parent;
    sibling ← getChild (opp d) s parent;
    fix_delete_black d s parent sibling
  else fix_delete_black d s parent sibling.

Fixpoint fix_delete_loop (fuel : nat) s node parent : outcome (RedBlackTree * option nat) :=
  match fuel with
  | O => NoFuel
  | S fuel =>
    if decide (node = root_ s) then Ret (s, node) else
    red ← is_red s node;
    if (red : bool) then Ret (s, node) else
    is_left ← (match parent with Some _ => l ← getLeft s parent; Ret (bool_decide (node = l)) | None => Ret false end);
    '(s, node, parent) ← fix_delete_step (if (is_left : bool) then SLeft else SRight) s parent;
    fix_delete_loop fuel s node parent
  end.

(** The parameter [is_left] of the code has no name and is not used. *)
Definition fixDelete s node parent : outcome RedBlackTree :=
  '(s, node) ← fix_delete_loop (enough s) s node parent; paint s node Black.

(** The node with the value, the node above it and the side it was reached from. *)
Fixpoint remove_loop (fuel : nat) s value node parent d : outcome (option nat * option nat * side) :=
  match fuel with
  | O => NoFuel
  | S fuel =>
    match node with
    | None => Ret (None, parent, d)
    | Some _ =>
      x ← getData s node;
      if eqb value x then Ret (node, parent, d)
      else if lt value x then next ← getLeft s node; remove_loop fuel s value next node SLeft
      else next ← getRight s node; remove_loop fuel s value next node SRight
    end
  end.

Fixpoint find_min_loop (fuel : nat) s node : outcome (option nat) :=
  match fuel with
  | O => NoFuel
  | S fuel => l ← getLeft s node; match l with Some _ => find_min_loop fuel s l | None => Ret node end
  end.

Definition findMinNode s node : outcome (option nat) :=
  match node with None => Ret None | Some _ => find_min_loop (enough s) s node end.

(** [if (parent) ... else root_ = q] *)
Definition splice s parent d q : outcome RedBlackTree :=
  match parent with Some _ => setChild d s parent q | None => Ret (mkRBT (store s) q) end.

(** A node with two children gives its place to its successor: the store, the
    colour that disappears, the replacement and its parent. *)
Definition remove_inner s node : outcome (RedBlackTree * Color * option nat * option nat) :=
  r ← getRight s node;
  successor ← findMinNode s r;
  deleted ← getColor s successor;
  replacement ← getRight s successor;
  sp ← getParent s successor;
  '(s, repl_parent) ← (if decide (sp = node) then
      s ← adopt s replacement successor; Ret (s, successor)
    else
      l ← getLeft s sp;
      s ← (if decide (l = successor) then setLeft s sp replacement else setRight s sp replacement);
      s ← adopt s replacement sp;
      r ← getRight s node;
      s ← setRight s successor r;
      s ← adopt s r successor;
      Ret (s, sp));
  l ← getLeft s node;
  s ← setLeft s successor l;
  s ← adopt s l successor;
  up ← getParent s node;
  s ← setParent s successor up;
  c ← getColor s node;
  s ← setColor s successor c;
  s ← relink s node successor;
  Ret (s, deleted, replacement, repl_parent).

(** The node leaves the tree: the store, the colour that disappears, the replacement
    and its parent. *)
Definition detach s node parent d : outcome (RedBlackTree * Color * option nat * option nat) :=
  n ← deref s node;
  match left_ n, right_ n with
  | None, None => s ← splice s parent d None; Ret (s, color_ n, None, parent)
  | None, r => s ← splice s parent d r; s ← setParent s r parent; Ret (s, color_ n, r, parent)
  | l, None => s ← splice s parent d l; s ← setParent s l parent; Ret (s, color_ n, l, parent)
  | _, _ => remove_inner s node
  end.

Definition remove s value : outcome RedBlackTree :=
  match root_ s with
  | None => Ret s
  | Some _ =>
    '(node, parent, d) ← remove_loop (enough s) s value (root_ s) None SRight;
    match node with
    | None => Ret s
    | Some _ =>
      '(s, deleted, replacement, repl_parent) ← detach s node parent d;
      if decide (deleted = Black) then fixDelete s replacement repl_parent else Ret s
    end
  end.

Definition getRoot s : option nat := root_ s.
Definition rbt_new : RedBlackTree := mkRBT ∅ None.

(** ** Trees with addresses, and trees with a hole *)
Inductive rb :=
| E
| N (a : nat) (c : Color) (l : rb) (x : T) (r : rb).

(** A node seen from side [d]: [t] is the child there, [u] the other one. *)
Definition mkN d a c (t : rb) x (u : rb) : rb := match d with SLeft => N a c t x u | SRight => N a c u x t end.

(** A node whose child on side [fside] is the hole; [fsib] is the other child. *)
Record frame := mkF { fside : side; faddr : nat; fcolor : Color; fdata : T; fsib : rb }.

Implicit Types (t l r u : rb) (k : list frame) (f : frame) (a b : nat).

Definition plug1 f t : rb := mkN (fside f) (faddr f) (fcolor f) t (fdata f) (fsib f).
Fixpoint plug k t : rb := match k with [] => t | f :: k => plug k (plug1 f t) end.

Definition ptr t : option nat := match t with E => None | N a _ _ _ _ => Some a end.
Definition up k : option nat := match k with [] => None | f :: _ => Some (faddr f) end.
Fixpoint top k p : option nat := match k with [] => p | f :: k => top k (Some (faddr f)) end.
Definition color_of t : Color := match t with E => Black | N _ c _ _ _ => c end.

Fixpoint inorder t : list T := match t with E => [] | N _ _ l x r => inorder l ++ x :: inorder r end.

(** The nodes in the store: of a tree whose parent is [p], of a context whose hole
    is filled by [q]. *)
Definition cell d x p q parent c : RedBlackTreeNode :=
  match d with SLeft => mkNode x p q parent c | SRight => mkNode x q p parent c end.

Fixpoint cells p t : list (nat * RedBlackTreeNode) :=
  match t with
  | E => []
  | N a c l x r => (a, mkNode x (ptr l) (ptr r) p c) :: cells (Some a) l ++ cells (Some a) r
  end.

Fixpoint ctx_cells k q : list (nat * RedBlackTreeNode) :=
  match k with
  | [] => []
  | f :: k => (faddr f, cell (fside f) (fdata f) q (ptr (fsib f)) (up k) (fcolor f)) ::
      cells (Some (faddr f)) (fsib f) ++ ctx_cells k (Some (faddr f))
  end.

Lemma ptr_mkN d a c t x u : ptr (mkN d a c t x u) = Some a.
Proof. by destruct d. Qed.

Lemma color_mkN d a c t x u : color_of (mkN d a c t x u) = c.
Proof. by destruct d. Qed.

Lemma mkN_opp d a c t x u : mkN (opp d) a c u x t = mkN d a c t x u.
Proof. by destruct d. Qed.

Lemma opp_opp d : opp (opp d) = d.
Proof. by destruct d. Qed.

Lemma cells_mkN d a c t x u p :
  cells p (mkN d a c t x u) ≡ₚ (a, cell d x (ptr t) (ptr u) p c) :: cells (Some a) t ++ cells (Some a) u.
Proof. destruct d; cbn; [done|]. solve_Permutation. Qed.

(** ** The store holds some nodes *)
Definition holds (h : gmap nat RedBlackTreeNode) (cs : list (nat * RedBlackTreeNode)) : Prop :=
  NoDup cs.*1 /\ forall a n, (a, n) ∈ cs -> h !! a = Some n.

#[global] Instance holds_Proper : Proper (eq ==> (≡ₚ) ==> iff) holds.
Proof.
  intros h _ <- cs cs' Hp. unfold holds. rewrite Hp. split; intros [Hn Hl]; (split; [done|]); intros a n; [rewrite <- Hp|rewrite Hp]; apply Hl.
Qed.

Lemma holds_lookup h a n cs : holds h ((a, n) :: cs) -> h !! a = Some n.
Proof. intros [_ Hl]. apply Hl. by left. Qed.

Lemma holds_insert h a n n' cs : holds h ((a, n) :: cs) -> holds (<[a := n']> h) ((a, n') :: cs).
Proof.
  intros [Hn Hl]. split; [done|]. intros b m [[= -> ->]|Hin]%elem_of_cons; [by rewrite lookup_insert_eq|].
  cbn in Hn. apply NoDup_cons in Hn as [Hnot _]. rewrite lookup_insert_ne; [apply Hl; by right|].
  intros ->. apply Hnot. apply list_elem_of_fmap. by exists (b, m).
Qed.

Lemma holds_app_r h cs cs' : holds h (cs ++ cs') -> holds h cs'.
Proof.
  intros [Hn Hl]. rewrite fmap_app in Hn. apply NoDup_app in Hn as (_ & _ & Hn). split; [done|]. intros a n Hin. apply Hl.
  apply elem_of_app. by right.
Qed.

Lemma holds_cons_r h e cs : holds h (e :: cs) -> holds h cs.
Proof. apply (holds_app_r h [e]). Qed.

(** The tree [plug k t] is the one the store holds, seen at the subtree [t]. *)
Record rep s k t : Prop := {
  rep_cells : holds (store s) (cells (up k) t ++ ctx_cells k (ptr t));
  rep_root : root_ s = top k (ptr t);
}.

Lemma cells_plug1 f k t :
  cells (up k) (plug1 f t) ++ ctx_cells k (ptr (plug1 f t)) ≡ₚ cells (up (f :: k)) t ++ ctx_cells (f :: k) (ptr t).
Proof. unfold plug1. rewrite cells_mkN, ptr_mkN. cbn [ctx_cells up]. solve_Permutation. Qed.

Lemma rep_plug1 s f k t : rep s (f :: k) t <-> rep s k (plug1 f t).
Proof.
  split; intros [Hc Hr]; (split; [by rewrite cells_plug1 in *|]); unfold plug1 in *; rewrite ?ptr_mkN in *; done.
Qed.

Lemma rep_down s d a c t x u k : rep s k (mkN d a c t x u) <-> rep s (mkF d a c x u :: k) t.
Proof. by rewrite rep_plug1. Qed.

Lemma rep_down_opp s d a c t x u k : rep s k (mkN d a c t x u) <-> rep s (mkF (opp d) a c x t :: k) u.
Proof. rewrite rep_plug1. unfold plug1. cbn. by rewrite mkN_opp. Qed.

Lemma go_down s d a c t x u k : rep s k (mkN d a c t x u) -> rep s (mkF d a c x u :: k) t.
Proof. apply rep_down. Qed.

Lemma go_down_opp s d a c t x u k : rep s k (mkN d a c t x u) -> rep s (mkF (opp d) a c x t :: k) u.
Proof. apply rep_down_opp. Qed.

Lemma go_up s d a c t x u k : rep s (mkF d a c x u :: k) t -> rep s k (mkN d a c t x u).
Proof. apply rep_down. Qed.

(** *** Reading *)
Lemma rb_deref_ok s a n cs : holds (store s) ((a, n) :: cs) -> deref s (Some a) = Ret n.
Proof. intros H. unfold deref. by rewrite (holds_lookup _ _ _ _ H). Qed.

Lemma rep_node s d a c t x u k :
  rep s k (mkN d a c t x u) -> deref s (Some a) = Ret (cell d x (ptr t) (ptr u) (up k) c).
Proof. intros [Hc _]. rewrite cells_mkN in Hc. by eapply rb_deref_ok. Qed.

Section reading.
Context s d a c t x u k (Hr : rep s k (mkN d a c t x u)).

Lemma getChild_ok : getChild d s (Some a) = Ret (ptr t).
Proof. unfold getChild, getLeft, getRight. rewrite (rep_node _ _ _ _ _ _ _ _ Hr). by destruct d. Qed.

Lemma getChild_opp_ok : getChild (opp d) s (Some a) = Ret (ptr u).
Proof. unfold getChild, getLeft, getRight. rewrite (rep_node _ _ _ _ _ _ _ _ Hr). by destruct d. Qed.

Lemma getParent_ok : getParent s (Some a) = Ret (up k).
Proof. unfold getParent. rewrite (rep_node _ _ _ _ _ _ _ _ Hr). by destruct d. Qed.

Lemma getColor_ok : getColor s (Some a) = Ret c.
Proof. unfold getColor. rewrite (rep_node _ _ _ _ _ _ _ _ Hr). by destruct d. Qed.

Lemma getData_ok : getData s (Some a) = Ret x.
Proof. unfold getData. rewrite (rep_node _ _ _ _ _ _ _ _ Hr). by destruct d. Qed.
End reading.

Lemma is_red_ok s k t : rep s k t -> is_red s (ptr t) = Ret (bool_decide (color_of t = Red)).
Proof.
  intros Hr. destruct t as [|a c l x r]; [done|]. cbn [ptr is_red]. by rewrite (getColor_ok _ SLeft _ _ _ _ _ _ Hr).
Qed.

(** Two siblings are different nodes. *)
Lemma siblings_ne s k d a c t x u : rep s k (mkN d a c t x u) -> ptr t = ptr u -> t = E /\ u = E.
Proof.
  intros [[Hn _] _] Hp. rewrite cells_mkN in Hn. destruct t as [|b c1 l1 x1 r1], u as [|b' c2 l2 x2 r2]; try done. exfalso.
  injection Hp as <-. cbn in Hn. rewrite !fmap_app in Hn. cbn in Hn. apply NoDup_cons in Hn as [_ Hn]. cbn in Hn.
  apply NoDup_cons in Hn as [Hn _]. apply Hn. rewrite !elem_of_app, elem_of_cons. tauto.
Qed.

(** Which child a pointer comes from. *)
Lemma which_side s k d a c t x u : rep s k (mkN d a c t x u) -> t <> E \/ u <> E ->
  exists q, getLeft s (Some a) = Ret q /\ (ptr t = q <-> d = SLeft).
Proof.
  intros Hr Hne. unfold getLeft. rewrite (rep_node _ _ _ _ _ _ _ _ Hr). destruct d; (eexists; split; [done|]); cbn; [done|].
  split; [|done]. intros Heq. destruct (siblings_ne _ _ _ _ _ _ _ _ Hr Heq). tauto.
Qed.

(** *** Writing *)
Lemma rb_update_ok s a n g cs : holds (store s) ((a, n) :: cs) ->
  exists s', update s (Some a) g = Ret s' /\ holds (store s') ((a, g n) :: cs) /\ root_ s' = root_ s.
Proof.
  intros H. unfold update. rewrite (rb_deref_ok _ _ _ _ H). ret_step. eexists. split; [done|]. split; [|done]. by eapply holds_insert.
Qed.

Lemma setChild_ok s d a x p q q' par c cs : holds (store s) ((a, cell d x p q par c) :: cs) ->
  exists s', setChild d s (Some a) q' = Ret s' /\ holds (store s') ((a, cell d x q' q par c) :: cs) /\ root_ s' = root_ s.
Proof.
  intros H. unfold setChild, setLeft, setRight. destruct d.
  - by apply (rb_update_ok _ _ _ (fun n => mkNode (data_ n) q' (right_ n) (parent_ n) (color_ n)) _ H).
  - by apply (rb_update_ok _ _ _ (fun n => mkNode (data_ n) (left_ n) q' (parent_ n) (color_ n)) _ H).
Qed.

Lemma setChild_opp_ok s d a x p q q' par c cs : holds (store s) ((a, cell d x p q par c) :: cs) ->
  exists s', setChild (opp d) s (Some a) q' = Ret s' /\ holds (store s') ((a, cell d x p q' par c) :: cs) /\ root_ s' = root_ s.
Proof.
  intros H. assert (forall v, cell d x p v par c = cell (opp d) x v p par c) as Hc by (intros; by destruct d).
  rewrite Hc in *. by apply (setChild_ok s (opp d) _ _ _ _ q') in H.
Qed.

Lemma setParent_ok s d a x p q par par' c cs : holds (store s) ((a, cell d x p q par c) :: cs) ->
  exists s', setParent s (Some a) par' = Ret s' /\ holds (store s') ((a, cell d x p q par' c) :: cs) /\ root_ s' = root_ s.
Proof.
  intros H. destruct (rb_update_ok _ _ _ (fun n => mkNode (data_ n) (left_ n) (right_ n) par' (color_ n)) _ H) as (s' & H1 & H2 & H3).
  exists s'. split; [done|]. by destruct d.
Qed.

Lemma setColor_ok s d a x p q par c c' cs : holds (store s) ((a, cell d x p q par c) :: cs) ->
  exists s', setColor s (Some a) c' = Ret s' /\ holds (store s') ((a, cell d x p q par c') :: cs) /\ root_ s' = root_ s.
Proof.
  intros H. destruct (rb_update_ok _ _ _ (fun n => mkNode (data_ n) (left_ n) (right_ n) (parent_ n) c') _ H) as (s' & H1 & H2 & H3).
  exists s'. split; [done|]. by destruct d.
Qed.

Lemma adopt_ok s t p p' cs : holds (store s) (cells p t ++ cs) ->
  exists s', adopt s (ptr t) p' = Ret s' /\ holds (store s') (cells p' t ++ cs) /\ root_ s' = root_ s.
Proof. intros H. destruct t as [|a c l x r]; [by exists s|]. cbn in *. by apply (setParent_ok s SLeft _ _ _ _ _ p') in H. Qed.

(** A hole is filled by something else: the pointer in the frame above changes. *)
Lemma fill_ok s f k q q' cs : holds (store s) (ctx_cells (f :: k) q ++ cs) ->
  exists s', setChild (fside f) s (Some (faddr f)) q' = Ret s' /\ holds (store s') (ctx_cells (f :: k) q' ++ cs) /\ root_ s' = root_ s.
Proof. cbn [ctx_cells]. intros H. by apply (setChild_ok s _ _ _ _ _ q') in H. Qed.

(** *** Colours and rotations *)
Lemma holds_perm h cs cs' : holds h cs -> cs ≡ₚ cs' -> holds h cs'.
Proof. by intros H <-. Qed.

(** Bring the nodes a step is about to the front. *)
Ltac front H cs := apply (holds_perm _ _ cs) in H; [|solve_Permutation].

Lemma color_rep s k d a c t x u c' : rep s k (mkN d a c t x u) ->
  exists s', setColor s (Some a) c' = Ret s' /\ rep s' k (mkN d a c' t x u).
Proof.
  intros [Hc Hr]. rewrite cells_mkN in Hc. cbn [app] in Hc. apply (setColor_ok s _ _ _ _ _ _ _ c') in Hc as (s' & Hs & Hc' & Hr').
  exists s'. split; [done|]. split; rewrite ?ptr_mkN in *; [by rewrite cells_mkN|by rewrite Hr'].
Qed.

Lemma paint_rep s k d a c t x u c' : rep s k (mkN d a c t x u) ->
  exists s', paint s (Some a) c' = Ret s' /\ rep s' k (mkN d a c' t x u).
Proof. apply color_rep. Qed.

(** Colouring the child on side [d], or the other one, which is not null. *)
Lemma color_child s k d a c e b c1 l y r x u c' : rep s k (mkN d a c (mkN e b c1 l y r) x u) ->
  exists s', setColor s (Some b) c' = Ret s' /\ rep s' k (mkN d a c (mkN e b c' l y r) x u).
Proof. intros Hr. apply go_down in Hr. apply (color_rep _ _ _ _ _ _ _ _ c') in Hr as (s' & Hs & Hr). exists s'. by rewrite rep_down. Qed.

Lemma color_child_opp s k d a c e b c1 l y r x t c' : rep s k (mkN d a c t x (mkN e b c1 l y r)) ->
  exists s', setColor s (Some b) c' = Ret s' /\ rep s' k (mkN d a c t x (mkN e b c' l y r)).
Proof. intros Hr. apply go_down_opp in Hr. apply (color_rep _ _ _ _ _ _ _ _ c') in Hr as (s' & Hs & Hr). exists s'. by rewrite rep_down_opp. Qed.

Lemma relink_ok s k d a x p q c b cs :
  holds (store s) ((a, cell d x p q (up k) c) :: ctx_cells k (Some a) ++ cs) -> root_ s = top k (Some a) ->
  exists s', relink s (Some a) (Some b) = Ret s' /\ holds (store s') ((a, cell d x p q (up k) c) :: ctx_cells k (Some b) ++ cs) /\
    root_ s' = top k (Some b).
Proof.
  intros Hc Hr. unfold relink, getParent. rewrite (rb_deref_ok _ _ _ _ Hc). ret_step.
  assert (parent_ (cell d x p q (up k) c) = up k) as -> by by destruct d. destruct k as [|f k]; cbn [up].
  { eexists. split; [done|]. split; [exact Hc|done]. }
  set (na := cell d x p q _ c) in *. front Hc (ctx_cells (f :: k) (Some a) ++ (a, na) :: cs).
  pose proof Hc as Hf. cbn [ctx_cells] in Hf. cbn [app] in Hf. ret_step. unfold getLeft. rewrite (rb_deref_ok _ _ _ _ Hf). repeat ret_step.
  destruct (fill_ok s f k (Some a) (Some b) _ Hc) as (s' & Hs & Hc' & Hr').
  exists s'. split; [|split; [front Hc' ((a, na) :: ctx_cells (f :: k) (Some b) ++ cs); done|by rewrite Hr', Hr]].
  destruct (fside f) eqn:Ef; cbn [cell left_].
  - rewrite decide_True by done. exact Hs.
  - rewrite decide_False; [exact Hs|]. intros Heq. destruct (fsib f) as [|a' c' l' y' r'] eqn:Es; [done|]. injection Heq as <-.
    destruct Hf as [Hn _]. cbn in Hn. apply NoDup_cons in Hn as [_ Hn]. rewrite !fmap_app in Hn. cbn in Hn.
    apply NoDup_cons in Hn as [Hn _]. apply Hn. rewrite !elem_of_app, elem_of_cons. tauto.
Qed.

Lemma rotate_rep s k d a c t x b c2 v y w :
  rep s k (mkN d a c t x (mkN d b c2 v y w)) ->
  exists s', rotate d s (Some a) = Ret s' /\ rep s' k (mkN d b c2 (mkN d a c t x v) y w).
Proof.
  intros Hrep. unfold rotate. rewrite (getChild_opp_ok _ _ _ _ _ _ _ _ Hrep), ptr_mkN. ret_step.
  pose proof (proj1 (rep_down_opp _ _ _ _ _ _ _ _) Hrep) as Hb. rewrite (getChild_ok _ _ _ _ _ _ _ _ Hb). ret_step.
  destruct Hrep as [Hc Hr]. rewrite !ptr_mkN, !cells_mkN in *. clear Hb.
  rewrite ptr_mkN in Hc. cbn [app] in Hc.
  apply (setChild_opp_ok s d a x _ _ (ptr v)) in Hc as (s1 & -> & Hc & Hr1). ret_step.
  set (na := cell d x (ptr t) (ptr v) (up k) c) in *.
  front Hc ((b, cell d y (ptr v) (ptr w) (Some a) c2) :: (cells (Some b) v ++ (a, na) :: cells (Some a) t ++ cells (Some b) w ++ ctx_cells k (Some a))).
  assert (getChild d s1 (Some b) = Ret (ptr v)) as ->
    by (unfold getChild, getLeft, getRight; rewrite (rb_deref_ok _ _ _ _ Hc); by destruct d). ret_step.
  set (nb := cell d y (ptr v) (ptr w) (Some a) c2) in *.
  front Hc (cells (Some b) v ++ (b, nb) :: (a, na) :: cells (Some a) t ++ cells (Some b) w ++ ctx_cells k (Some a)).
  apply (adopt_ok s1 v _ (Some a)) in Hc as (s2 & -> & Hc & Hr2). ret_step.
  front Hc ((a, na) :: (b, nb) :: cells (Some a) t ++ cells (Some a) v ++ cells (Some b) w ++ ctx_cells k (Some a)).
  unfold getParent. rewrite (rb_deref_ok _ _ _ _ Hc). ret_step. assert (parent_ na = up k) as -> by by destruct d. ret_step.
  front Hc ((b, nb) :: (a, na) :: cells (Some a) t ++ cells (Some a) v ++ cells (Some b) w ++ ctx_cells k (Some a)).
  apply (setParent_ok s2 d b y _ _ _ (up k)) in Hc as (s3 & -> & Hc & Hr3). ret_step. clear nb.
  set (nb := cell d y (ptr v) (ptr w) (up k) c2) in *.
  front Hc ((a, na) :: ctx_cells k (Some a) ++ ((b, nb) :: cells (Some a) t ++ cells (Some a) v ++ cells (Some b) w)).
  apply (relink_ok s3 k d a x _ _ c b) in Hc as (s4 & -> & Hc & Hr4); [|congruence]. ret_step. fold na in Hc.
  front Hc ((b, nb) :: (a, na) :: cells (Some a) t ++ cells (Some a) v ++ cells (Some b) w ++ ctx_cells k (Some b)).
  apply (setChild_ok s4 d b y _ _ (Some a)) in Hc as (s5 & -> & Hc & Hr5). ret_step. clear nb.
  set (nb := cell d y (Some a) (ptr w) (up k) c2) in *.
  front Hc ((a, na) :: (b, nb) :: cells (Some a) t ++ cells (Some a) v ++ cells (Some b) w ++ ctx_cells k (Some b)).
  apply (setParent_ok s5 d a x _ _ _ (Some b)) in Hc as (s6 & -> & Hc & Hr6).
  exists s6. split; [done|]. split; rewrite ?ptr_mkN; [|congruence]. rewrite !cells_mkN, ptr_mkN.
  eapply holds_perm; [exact Hc|]. subst nb. solve_Permutation.
Qed.

(** ** Red-black invariants

    [bal n t]: no red node has a red child, and every path has [n] black nodes. *)
Inductive bal : nat -> rb -> Prop :=
| bal_E : bal 0 E
| bal_red n a l x r : bal n l -> bal n r -> color_of l = Black -> color_of r = Black -> bal n (N a Red l x r)
| bal_black n a l x r : bal n l -> bal n r -> bal (S n) (N a Black l x r).

Definition rb_valid t : Prop := (exists n, bal n t) /\ color_of t = Black.

Lemma bal_mkN_red n d a t x u :
  bal n (mkN d a Red t x u) <-> bal n t /\ bal n u /\ color_of t = Black /\ color_of u = Black.
Proof. split; [intros H; destruct d; inversion H; done|]. intros (?&?&?&?). destruct d; by constructor. Qed.

Lemma bal_mkN_black m d a t x u : bal m (mkN d a Black t x u) <-> exists n, m = S n /\ bal n t /\ bal n u.
Proof. split; [intros H; destruct d; inversion H; subst; eauto|]. intros (n&->&?&?). destruct d; by constructor. Qed.

(** The colour above the hole; the root must be black, as if it had a red parent. *)
Definition top_color k : Color := match k with [] => Red | f :: _ => fcolor f end.

(** A context whose hole is to be filled by a tree of black height [n]. *)
Inductive ctx_ok : nat -> list frame -> Prop :=
| ctx_nil n : ctx_ok n []
| ctx_red n d a x u k : bal n u -> color_of u = Black -> top_color k = Black -> ctx_ok n k -> ctx_ok n (mkF d a Red x u :: k)
| ctx_black n d a x u k : bal n u -> ctx_ok (S n) k -> ctx_ok n (mkF d a Black x u :: k).

Definition goes k t : Prop := color_of t = Red -> top_color k = Black.

Lemma plug_valid n k : forall t, ctx_ok n k -> bal n t -> goes k t -> rb_valid (plug k t).
Proof.
  intros t Hk. revert t. induction Hk as [n|n d a x u k Hu Hc Ht Hk IH|n d a x u k Hu Hk IH]; intros t Hb Hg; cbn [plug].
  - split; [by exists n|]. unfold goes in Hg. destruct (color_of t); [by specialize (Hg eq_refl)|done].
  - unfold goes in Hg. apply IH; unfold plug1; cbn.
    + apply bal_mkN_red. split_and!; [done..| |done]. destruct (color_of t); [by specialize (Hg eq_refl)|done].
    + intros _. done.
  - apply IH; unfold plug1; cbn; [apply bal_mkN_black; eauto|]. unfold goes. by rewrite color_mkN.
Qed.

Lemma plug_split k : forall t m, bal m (plug k t) -> color_of (plug k t) = Black -> exists n, ctx_ok n k /\ bal n t /\ goes k t.
Proof.
  induction k as [|[d a c x u] k IH]; intros t m Hb Hc; cbn [plug] in *.
  - exists m. split_and!; [constructor|done|]. unfold goes. congruence.
  - destruct (IH _ _ Hb Hc) as (n & Hk & Hn & Hg). unfold plug1 in *. cbn [fside faddr fcolor fdata fsib] in *. unfold goes in *. rewrite color_mkN in Hg.
    destruct c.
    + apply bal_mkN_red in Hn as (Ht & Hu & Hct & Hcu). exists n. split_and!; [by constructor; auto|done|congruence].
    + apply bal_mkN_black in Hn as (n' & -> & Ht & Hu). exists n'. split_and!; [by constructor|done|done].
Qed.

Lemma valid_split k t : rb_valid (plug k t) -> exists n, ctx_ok n k /\ bal n t /\ goes k t.
Proof. intros [[m Hb] Hc]. by eapply plug_split. Qed.

(** The elements before and after the hole. *)
Fixpoint before k : list T :=
  match k with [] => [] | f :: k => before k ++ match fside f with SLeft => [] | SRight => inorder (fsib f) ++ [fdata f] end end.
Fixpoint after k : list T :=
  match k with [] => [] | f :: k => match fside f with SLeft => fdata f :: inorder (fsib f) | SRight => [] end ++ after k end.

Lemma inorder_plug k : forall t, inorder (plug k t) = before k ++ inorder t ++ after k.
Proof.
  induction k as [|[d a c x u] k IH]; intros t; cbn [plug before after]; [by rewrite app_nil_r|].
  rewrite IH. unfold plug1. destruct d; cbn; app_simpl || (rewrite ?app_nil_r; app_simpl).
Qed.

Lemma inorder_plug_eq k t t' : inorder t = inorder t' -> inorder (plug k t) = inorder (plug k t').
Proof. intros H. by rewrite !inorder_plug, H. Qed.

Lemma inorder_rotate d a c t x b c2 v y w a' b' c' c2' :
  inorder (mkN d b' c2' (mkN d a' c' t x v) y w) = inorder (mkN d a c t x (mkN d b c2 v y w)).
Proof. destruct d; cbn; app_simpl. Qed.

Lemma inorder_mkN d a c t x u a' c' t' u' : inorder t = inorder t' -> inorder u = inorder u' -> inorder (mkN d a c t x u) = inorder (mkN d a' c' t' x u').
Proof. intros H1 H2. destruct d; cbn; by rewrite H1, H2. Qed.

(** *** The root, and how deep the hole can be *)
Lemma top_cases k b : top k (Some b) = Some b \/ exists f, f ∈ k /\ top k (Some b) = Some (faddr f).
Proof.
  revert b. induction k as [|f k IH]; intros b; cbn; [by left|]. right.
  destruct (IH (faddr f)) as [->|(g & Hg & ->)]; [exists f|exists g]; (split; [|done]); set_solver.
Qed.

Lemma ctx_addr f k q : f ∈ k -> faddr f ∈ (ctx_cells k q).*1.
Proof.
  revert q. induction k as [|g k IH]; intros q; [by intros ?%elem_of_nil|].
  intros [->|Hin]%elem_of_cons; cbn; [by left|]. right. rewrite fmap_app. apply elem_of_app. right. by apply IH.
Qed.

Lemma root_ne s f k t : rep s (f :: k) t -> ptr t <> root_ s.
Proof.
  intros [[Hn _] Hr] E. rewrite Hr in E. destruct t as [|a c l x r]; cbn [ptr top] in *.
  { by destruct (top_cases k (faddr f)) as [Ht|(g & _ & Ht)]; rewrite Ht in E. }
  assert (exists g, g ∈ f :: k /\ a = faddr g) as (g & Hg & ->).
  { destruct (top_cases k (faddr f)) as [Ht|(g & Hg & Ht)]; rewrite Ht in E; injection E as E; [exists f|exists g]; set_solver. }
  rewrite fmap_app in Hn. apply NoDup_app in Hn as (_ & Hd & _). apply (Hd (faddr g)); [cbn; by left|]. by apply ctx_addr.
Qed.

Lemma root_eq s t : rep s [] t -> ptr t = root_ s.
Proof. by intros [_ ->]. Qed.

Lemma holds_length h cs : holds h cs -> length cs <= base.size h.
Proof.
  intros [Hn Hl]. rewrite <- (length_fmap fst), <- (size_list_to_set (C := gset nat)) by done. rewrite <- size_dom.
  apply subseteq_size. intros a. rewrite elem_of_list_to_set, elem_of_dom. intros ([b n] & -> & Hin)%list_elem_of_fmap. eexists. by apply Hl.
Qed.

Lemma ctx_cells_length k q : length k <= length (ctx_cells k q).
Proof. revert q. induction k as [|f k IH]; intros q; cbn [length ctx_cells]; [lia|]. rewrite length_app. specialize (IH (Some (faddr f))). lia. Qed.

Lemma rep_depth s k t : rep s k t -> length k <= base.size (store s).
Proof.
  intros [Hc _]. apply holds_length in Hc. rewrite length_app in Hc. pose proof (ctx_cells_length k (ptr t)). lia.
Qed.

Lemma rep_plug s k t : rep s k t <-> rep s [] (plug k t).
Proof. revert t. induction k as [|f k IH]; intros t; [done|]. cbn [plug]. rewrite <- IH. apply rep_plug1. Qed.

Lemma to_root s k t : rep s k t -> rep s [] (plug k t).
Proof. apply rep_plug. Qed.

(** The parent of any node below a frame. *)
Lemma parent_above s f k t a : rep s (f :: k) t -> ptr t = Some a -> getParent s (Some a) = Ret (Some (faddr f)).
Proof. intros Hr Ha. destruct t as [|a' c l x r]; [done|]. injection Ha as ->. by rewrite (getParent_ok _ SLeft _ _ _ _ _ _ Hr). Qed.

Lemma cells_plug k : forall t, cells (up k) t ++ ctx_cells k (ptr t) ≡ₚ cells None (plug k t).
Proof.
  induction k as [|f k IH]; intros t; cbn [plug]; [cbn; by rewrite app_nil_r|]. by rewrite <- IH, cells_plug1.
Qed.

Lemma top_plug k : forall t, top k (ptr t) = ptr (plug k t).
Proof. induction k as [|f k IH]; intros t; cbn [plug top]; [done|]. rewrite <- IH. unfold plug1. by rewrite ptr_mkN. Qed.

(** ** Rebalancing after an insertion *)
Definition red_at k s a t : Prop := rep s k t /\ ptr t = Some a /\ color_of t = Red.

(** The uncle is red: parent and uncle become black, the grandparent red. *)
Lemma fix_insert_recolor s k t a d p px sib e g gx b ul ux ur :
  rep s (mkF d p Red px sib :: mkF e g Black gx (N b Red ul ux ur) :: k) t -> ptr t = Some a ->
  exists s', fix_insert_step e s (Some a) = Ret (s', Some g) /\
    rep s' k (mkN e g Red (mkN d p Black t px sib) gx (N b Black ul ux ur)).
Proof.
  intros Hr Ha. rewrite !rep_plug1 in Hr. unfold plug1 in Hr. cbn [fside faddr fcolor fdata fsib] in Hr. unfold fix_insert_step.
  pose proof Hr as Hp. apply go_down in Hp. pose proof Hp as Ht. apply go_down in Ht.
  rewrite (parent_above _ _ _ _ _ Ht Ha). ret_step. cbn [faddr]. rewrite (getParent_ok _ _ _ _ _ _ _ _ Hp). ret_step. cbn [up faddr]. rewrite (getChild_opp_ok _ _ _ _ _ _ _ _ Hr). ret_step.
  pose proof Hr as Hu. apply go_down_opp in Hu. rewrite (is_red_ok _ _ _ Hu). cbn [color_of ptr]. ret_step.
  apply (color_child _ _ _ _ _ _ _ _ _ _ _ _ _ Black) in Hr as (s1 & -> & Hr). ret_step.
  apply (color_child_opp _ _ _ _ _ SLeft _ _ _ _ _ _ _ Black) in Hr as (s2 & -> & Hr). ret_step.
  apply (color_rep _ _ _ _ _ _ _ _ Red) in Hr as (s3 & -> & Hr). by exists s3.
Qed.

(** The rest of the other case: the parent [p] of the node takes the place of the
    black grandparent. *)
Lemma fix_insert_outer s k t a p px sib e g gx u :
  rep s k (mkN e g Black (mkN e p Red t px sib) gx u) -> ptr t = Some a ->
  exists s', (parent ← getParent s (Some a); s ← setColor s parent Black; grand ← getParent s parent; s ← paint s grand Red;
              grand ← getParent s parent; s ← rotate (opp e) s grand; Ret (s, Some a)) = Ret (s', Some a) /\
    rep s' k (mkN e p Black t px (mkN e g Red sib gx u)).
Proof.
  intros Hr Ha. pose proof Hr as Hp. apply go_down in Hp. pose proof Hp as Ht. apply go_down in Ht.
  rewrite (parent_above _ _ _ _ _ Ht Ha). ret_step. cbn [faddr]. clear Hp Ht.
  apply (color_child _ _ _ _ _ _ _ _ _ _ _ _ _ Black) in Hr as (s1 & -> & Hr). ret_step.
  pose proof Hr as Hp. apply go_down in Hp. rewrite (getParent_ok _ _ _ _ _ _ _ _ Hp). ret_step. cbn [up faddr]. clear Hp.
  apply (paint_rep _ _ _ _ _ _ _ _ Red) in Hr as (s2 & -> & Hr). ret_step.
  pose proof Hr as Hp. apply go_down in Hp. rewrite (getParent_ok _ _ _ _ _ _ _ _ Hp). ret_step. cbn [up faddr]. clear Hp.
  rewrite <- (mkN_opp e p), <- (mkN_opp e g) in Hr. apply rotate_rep in Hr as (s3 & -> & Hr). ret_step.
  exists s3. split; [done|]. by rewrite !mkN_opp in Hr.
Qed.

Lemma fix_insert_rotate s k t a d p px sib e g gx u n :
  rep s (mkF d p Red px sib :: mkF e g Black gx u :: k) t -> ptr t = Some a -> color_of t = Red -> bal n t ->
  color_of sib = Black -> bal n sib -> color_of u = Black -> bal n u ->
  exists s' a' p' t' px' r, fix_insert_step e s (Some a) = Ret (s', Some a') /\ ptr t' = Some a' /\
    rep s' k (mkN e p' Black t' px' r) /\ bal (S n) (mkN e p' Black t' px' r) /\
    inorder (mkN e p' Black t' px' r) = inorder (mkN e g Black (mkN d p Red t px sib) gx u).
Proof.
  intros Hr Ha Hcol Hb Hsc Hsb Huc Hub. rewrite !rep_plug1 in Hr. unfold plug1 in Hr. cbn [fside faddr fcolor fdata fsib] in Hr.
  unfold fix_insert_step. pose proof Hr as Hp. apply go_down in Hp. pose proof Hp as Ht. apply go_down in Ht.
  rewrite (parent_above _ _ _ _ _ Ht Ha). ret_step. cbn [faddr]. rewrite (getParent_ok _ _ _ _ _ _ _ _ Hp). ret_step. cbn [up faddr]. rewrite (getChild_opp_ok _ _ _ _ _ _ _ _ Hr). ret_step.
  pose proof Hr as Hu. apply go_down_opp in Hu. rewrite (is_red_ok _ _ _ Hu), Huc. rewrite bool_decide_false by done. ret_step.
  destruct (decide (d = e)) as [->|Hne].
  - rewrite (getChild_opp_ok _ _ _ _ _ _ _ _ Hp). ret_step. rewrite decide_False; [|intros E; rewrite <- Ha in E; destruct (siblings_ne _ _ _ _ _ _ _ _ Hp E) as [-> _]; done].
    ret_step. apply (fix_insert_outer _ _ _ a) in Hr as (s' & -> & Hr); [|done]. exists s', a, p, t, px, (mkN e g Red sib gx u).
    split_and!; [done|done|done| |].
    + apply bal_mkN_black. exists n. split_and!; [done|done|]. by apply bal_mkN_red.
    + destruct e; cbn; app_simpl.
  - assert (d = opp e) as -> by (destruct d, e; done). rewrite (getChild_ok _ _ _ _ _ _ _ _ Hp). ret_step. rewrite decide_True by done.
    destruct t as [|a' c tl tx tr]; [done|]. injection Ha as ->. cbn in Hcol. subst c.
    set (t1 := match e with SLeft => tl | SRight => tr end). set (t2 := match e with SLeft => tr | SRight => tl end).
    assert (N a Red tl tx tr = mkN e a Red t1 tx t2) as Et by by destruct e. rewrite Et in *. clearbody t1 t2. clear Et tl tr.
    rewrite mkN_opp in *. clear Hr. apply rotate_rep in Hp as (s1 & -> & Hr). repeat ret_step. apply go_up in Hr.
    apply bal_mkN_red in Hb as (H1 & H2 & H3 & H4).
    apply (fix_insert_outer _ _ _ p) in Hr as (s' & -> & Hr); [|by rewrite ptr_mkN].
    exists s', p, a, (mkN e p Red sib px t1), tx, (mkN e g Red t2 gx u). split_and!; [done|by rewrite ptr_mkN|done| |].
    + apply bal_mkN_black. exists n. split_and!; [done|..]; by apply bal_mkN_red.
    + destruct e; cbn; app_simpl.
Qed.

Definition rooted t : Prop := exists a c l x r n, t = N a c l x r /\ bal n (N a Black l x r).

Lemma valid_rooted t : rb_valid t -> t <> E -> rooted t.
Proof. intros [[n Hb] Hc]. destruct t as [|a c l x r]; [done|]. cbn in Hc. subst c. intros _. by exists a, Black, l, x, r, n. Qed.

Lemma plug_not_E k t : t <> E -> plug k t <> E.
Proof. revert t. induction k as [|f k IH]; intros t Ht; [done|]. cbn [plug]. apply IH. unfold plug1. by destruct (fside f). Qed.

Lemma fix_insert_loop_ok fuel : forall k s t a n,
  rep s k t -> ptr t = Some a -> color_of t = Red -> bal n t -> ctx_ok n k -> length k < fuel ->
  exists s' t', fix_insert_loop fuel s (Some a) = Ret s' /\ rep s' [] t' /\ rooted t' /\ inorder t' = inorder (plug k t).
Proof.
  induction fuel as [|fuel IH]; intros k s t a n Hr Ha Hcol Hb Hk Hf; [lia|]. cbn [fix_insert_loop].
  assert (t <> E) as Hne by (intros ->; done).
  destruct k as [|[d p c px sib] k].
  { rewrite <- Ha, (root_eq _ _ Hr). rewrite decide_True by done. exists s, t. split_and!; [done|done| |done].
    destruct t as [|a' c l x r]; [done|]. cbn in Hcol. subst c. exists a', Red, l, x, r, (S n). split; [done|].
    apply (bal_mkN_red n SLeft) in Hb as (H1 & H2 & _). by constructor. }
  rewrite decide_False by (rewrite <- Ha; by eapply root_ne).
  rewrite (parent_above _ _ _ _ _ Hr Ha). ret_step. cbn [faddr]. pose proof Hr as Hp. apply go_up in Hp.
  pose proof (is_red_ok _ _ _ Hp) as Hred. rewrite ptr_mkN, color_mkN in Hred. rewrite Hred. ret_step.
  destruct c; [rewrite bool_decide_true by done|rewrite bool_decide_false by done]; cbn [negb].
  2: { exists s, (plug (mkF d p Black px sib :: k) t). split_and!; [done|by apply to_root in Hr| |done].
       apply valid_rooted; [|by apply plug_not_E]. by apply (plug_valid n). }
  inversion Hk as [|? ? ? ? ? ? Hsb Hsc Htop Hk'|]; subst. destruct k as [|[e g c gx u] k]; [done|]. cbn in Htop. subst c.
  rewrite (getParent_ok _ _ _ _ _ _ _ _ Hp). ret_step. cbn [up faddr]. apply go_up in Hp.
  destruct (which_side _ _ _ _ _ _ _ _ Hp) as (q & -> & Hq); [left; by destruct d|]. rewrite ptr_mkN in Hq. ret_step.
  assert ((if decide (Some p = q) then SLeft else SRight) = e) as -> by (clear -Hq; case_decide; destruct e; naive_solver).
  inversion Hk' as [| |? ? ? ? ? ? Hub Hk'']; subst. destruct (color_of u) eqn:Eu.
  - destruct u as [|b c ul ux ur]; [done|]. cbn in Eu. subst c.
    destruct (fix_insert_recolor _ _ _ _ _ _ _ _ _ _ _ _ _ _ _ Hr Ha) as (s' & -> & Hr'). ret_step.
    apply (bal_mkN_red n SLeft) in Hub as (H1 & H2 & _).
    destruct (IH _ _ _ g (S n) Hr') as (s'' & t' & H3 & H4 & H5 & H6); [by rewrite ptr_mkN|by rewrite color_mkN| |done|cbn in Hf; lia|].
    + apply bal_mkN_red. split_and!; [by apply bal_mkN_black; eauto|by constructor|by rewrite color_mkN|done].
    + exists s'', t'. split_and!; [done|done|done|]. rewrite H6. cbn [plug]. apply inorder_plug_eq. unfold plug1. cbn.
      by apply inorder_mkN; [apply inorder_mkN|].
  - destruct (fix_insert_rotate _ _ _ _ _ _ _ _ _ _ _ _ n Hr Ha Hcol Hb Hsc Hsb Eu Hub) as (s' & a' & p' & t' & px' & r & -> & Ha' & Hr' & Hb' & Ho).
    ret_step. exists s', (plug k (mkN e p' Black t' px' r)). split_and!; [|by apply to_root in Hr'| |].
    + destruct fuel as [|fuel]; [cbn in Hf; lia|]. cbn [fix_insert_loop]. pose proof Hr' as Ht. apply go_down in Ht.
      rewrite decide_False by (rewrite <- Ha'; by eapply root_ne).
      rewrite (parent_above _ _ _ _ _ Ht Ha'). ret_step. cbn [faddr]. pose proof (is_red_ok _ _ _ Hr') as Hred'. rewrite ptr_mkN, color_mkN in Hred'. rewrite Hred'. done.
    + apply valid_rooted; [|apply plug_not_E; by destruct e]. apply (plug_valid (S n)); [done|done|]. unfold goes. by rewrite color_mkN.
    + cbn [plug]. apply inorder_plug_eq. exact Ho.
Qed.

Lemma fixInsert_ok k s t a n :
  rep s k t -> ptr t = Some a -> color_of t = Red -> bal n t -> ctx_ok n k ->
  exists s' t', fixInsert s (Some a) = Ret s' /\ rep s' [] t' /\ rb_valid t' /\ inorder t' = inorder (plug k t).
Proof.
  intros Hr Ha Hc Hb Hk. unfold fixInsert.
  destruct (fix_insert_loop_ok (enough s) k s t a n Hr Ha Hc Hb Hk) as (s1 & t1 & -> & Hr1 & (a1 & c1 & l & x & r & m & -> & Hb1) & Ho); [pose proof (rep_depth _ _ _ Hr); unfold enough; lia|].
  ret_step. rewrite <- (root_eq _ _ Hr1). cbn [ptr]. change (N a1 c1 l x r) with (mkN SLeft a1 c1 l x r) in Hr1.
  apply (color_rep _ _ _ _ _ _ _ _ Black) in Hr1 as (s2 & -> & Hr2). exists s2, (N a1 Black l x r).
  split_and!; [done|done| |done]. split; [by exists m|done].
Qed.

(** ** Rebalancing after a removal *)
Definition blacken t : rb := match t with E => E | N a _ l x r => N a Black l x r end.

Definition redb t : bool := bool_decide (color_of t = Red).

Lemma both_black_ok s k d b c t x u : rep s k (mkN d b c t x u) ->
  (l ← getLeft s (Some b); r ← getRight s (Some b); lred ← is_red s l; rred ← is_red s r; Ret (negb lred && negb rred)) =
    Ret (negb (redb t) && negb (redb u)).
Proof.
  intros Hr. pose proof (is_red_ok _ _ _ (go_down _ _ _ _ _ _ _ _ Hr)) as Ht. pose proof (is_red_ok _ _ _ (go_down_opp _ _ _ _ _ _ _ _ Hr)) as Hu.
  unfold getLeft, getRight. rewrite (rep_node _ _ _ _ _ _ _ _ Hr). repeat ret_step. destruct d; cbn [cell left_ right_].
  - rewrite Ht. ret_step. rewrite Hu. done.
  - rewrite Hu. ret_step. rewrite Ht. ret_step. by rewrite andb_comm.
Qed.

Lemma paint_child s k d a c t x u c' : rep s k (mkN d a c t x u) ->
  exists s' t', paint s (ptr t) c' = Ret s' /\ rep s' k (mkN d a c t' x u) /\
    t' = match t with E => E | N b _ l y r => N b c' l y r end.
Proof.
  intros Hr. destruct t as [|b c1 l y r]; [by exists s, E|]. change (N b c1 l y r) with (mkN SLeft b c1 l y r) in Hr.
  apply (color_child _ _ _ _ _ _ _ _ _ _ _ _ _ c') in Hr as (s' & Hs & Hr). by exists s', (N b c' l y r).
Qed.

Lemma paint_child_opp s k d a c t x u c' : rep s k (mkN d a c t x u) ->
  exists s' u', paint s (ptr u) c' = Ret s' /\ rep s' k (mkN d a c t x u') /\
    u' = match u with E => E | N b _ l y r => N b c' l y r end.
Proof. rewrite <- (mkN_opp d). intros Hr. apply (paint_child _ _ _ _ _ _ _ _ c') in Hr as (s' & u' & Hs & Hr & Hu). exists s', u'. by rewrite <- (mkN_opp d a). Qed.

(** Both nephews black: the sibling becomes red and the parent is next. *)
Lemma fix_delete_up s k d p pc t px b nl y fr :
  rep s k (mkN d p pc t px (mkN d b Black nl y fr)) -> color_of nl = Black -> color_of fr = Black ->
  exists s', fix_delete_black d s (Some p) (Some b) = Ret (s', Some p, up k) /\ rep s' k (mkN d p pc t px (mkN d b Red nl y fr)).
Proof.
  intros Hr Hn Hf. unfold fix_delete_black. pose proof Hr as Hb. apply go_down_opp in Hb. rewrite (both_black_ok _ _ _ _ _ _ _ _ Hb). ret_step.
  unfold redb. rewrite Hn, Hf. cbn [andb negb bool_decide]. rewrite bool_decide_false by done. cbn [andb negb]. clear Hb. cbn [paint].
  apply (color_child_opp _ _ _ _ _ _ _ _ _ _ _ _ _ Red) in Hr as (s1 & -> & Hr). ret_step.
  rewrite (getParent_ok _ _ _ _ _ _ _ _ Hr). ret_step. by exists s1.
Qed.

(** The last rotation, once the outer nephew is red. *)
Lemma fix_delete_outer s k d p pc t px b nl y fr :
  rep s k (mkN d p pc t px (mkN d b Black nl y fr)) ->
  exists s' fr', (s ← (c ← getColor s (Some p); s ← setColor s (Some b) c; outer ← getChild (opp d) s (Some b); paint s outer Black);
             s ← setColor s (Some p) Black; s ← rotate d s (Some p); Ret (s, root_ s, Some p)) = Ret (s', root_ s', Some p) /\
    rep s' k (mkN d b pc (mkN d p Black t px nl) y fr') /\ fr' = blacken fr.
Proof.
  intros Hr. rewrite (getColor_ok _ _ _ _ _ _ _ _ Hr). ret_step.
  apply (color_child_opp _ _ _ _ _ _ _ _ _ _ _ _ _ pc) in Hr as (s1 & -> & Hr). ret_step.
  pose proof Hr as Hb. apply go_down_opp in Hb. rewrite (getChild_opp_ok _ _ _ _ _ _ _ _ Hb). ret_step. clear Hr.
  apply (paint_child_opp _ _ _ _ _ _ _ _ Black) in Hb as (s2 & fr' & -> & Hb & Hfr). ret_step.
  apply go_up in Hb. rewrite mkN_opp in Hb. apply (color_rep _ _ _ _ _ _ _ _ Black) in Hb as (s3 & -> & Hr). ret_step.
  apply rotate_rep in Hr as (s4 & -> & Hr). ret_step. by exists s4, fr'.
Qed.

Definition height_with pc n : nat := match pc with Red => S n | Black => S (S n) end.

Lemma bal_mkN n d a pc t x u : bal (S n) t -> bal (S n) u -> color_of t = Black -> color_of u = Black -> bal (height_with pc n) (mkN d a pc t x u).
Proof. intros. destruct pc; [by apply bal_mkN_red|]. apply bal_mkN_black. eauto. Qed.

Lemma bal_blacken n t : bal n t -> color_of t = Red -> bal (S n) (blacken t).
Proof. intros Hb. inversion Hb; subst; cbn; try done. intros _. by constructor. Qed.

Lemma color_blacken t : color_of (blacken t) = Black.
Proof. by destruct t. Qed.

Lemma inorder_blacken t : inorder (blacken t) = inorder t.
Proof. by destruct t. Qed.

Lemma fix_delete_rotate s k d p pc t px b nl y fr n :
  rep s k (mkN d p pc t px (mkN d b Black nl y fr)) -> ~ (color_of nl = Black /\ color_of fr = Black) ->
  bal n t -> bal n nl -> bal n fr ->
  exists s' t', fix_delete_black d s (Some p) (Some b) = Ret (s', root_ s', Some p) /\ rep s' k t' /\
    bal (height_with pc n) t' /\ color_of t' = pc /\ inorder t' = inorder (mkN d p pc t px (mkN d b Black nl y fr)).
Proof.
  intros Hr Hnot Hbt Hbn Hbf. unfold fix_delete_black. pose proof Hr as Hb. apply go_down_opp in Hb. rewrite (both_black_ok _ _ _ _ _ _ _ _ Hb). ret_step.
  assert (negb (redb nl) && negb (redb fr) = false) as ->.
  { unfold redb. destruct (color_of nl), (color_of fr); done || (exfalso; by apply Hnot). }
  rewrite (getChild_opp_ok _ _ _ _ _ _ _ _ Hb). ret_step. pose proof (go_down_opp _ _ _ _ _ _ _ _ Hb) as Hfr. rewrite (is_red_ok _ _ _ Hfr). ret_step.
  clear Hfr. destruct (color_of fr) eqn:Ef; [rewrite bool_decide_true by done|rewrite bool_decide_false by done]; cbn [negb].
  - ret_step. cbn [paint]. destruct (fix_delete_outer _ _ _ _ _ _ _ _ _ _ _ Hr) as (s' & fr' & -> & Hr' & ->).
    exists s', (mkN d b pc (mkN d p Black t px nl) y (blacken fr)). split_and!; [done|done| |by rewrite color_mkN|].
    + apply bal_mkN; [apply bal_mkN_black; eauto|by apply bal_blacken|by rewrite color_mkN|apply color_blacken].
    + rewrite (inorder_rotate d p pc t px b Black nl y (blacken fr)). by repeat apply inorder_mkN; rewrite ?inorder_blacken.
  - destruct nl as [|e c ll z rr]; [exfalso; by apply Hnot|]. destruct c; [|exfalso; by apply Hnot].
    rewrite (getChild_ok _ _ _ _ _ _ _ _ Hb). ret_step. clear Hr. cbn [ptr].
    set (t1 := match d with SLeft => ll | SRight => rr end). set (t2 := match d with SLeft => rr | SRight => ll end).
    assert (N e Red ll z rr = mkN d e Red t1 z t2) as Et by by destruct d. rewrite Et in *. clearbody t1 t2. clear Et ll rr.
    apply bal_mkN_red in Hbn as (H1 & H2 & H3 & H4). cbn [paint].
    apply (color_child _ _ _ _ _ _ _ _ _ _ _ _ _ Black) in Hb as (s1 & -> & Hb). ret_step.
    apply (color_rep _ _ _ _ _ _ _ _ Red) in Hb as (s2 & -> & Hb). ret_step.
    rewrite <- (mkN_opp d b), <- (mkN_opp d e) in Hb. apply rotate_rep in Hb as (s3 & -> & Hb). ret_step. rewrite !mkN_opp in Hb.
    apply go_up in Hb. rewrite mkN_opp in Hb. rewrite (getChild_opp_ok _ _ _ _ _ _ _ _ Hb), ptr_mkN. repeat ret_step.
    destruct (fix_delete_outer _ _ _ _ _ _ _ _ _ _ _ Hb) as (s' & fr' & -> & Hr' & ->). rewrite <- mkN_opp in Hr'.
    exists s', (mkN d e pc (mkN d p Black t px t1) z (mkN d b Black t2 y fr)).
    assert (blacken (mkN d b Red t2 y fr) = mkN d b Black t2 y fr) as Hbl by by destruct d. rewrite mkN_opp, Hbl in Hr'.
    split_and!; [done|done| |by rewrite color_mkN|].
    + apply bal_mkN; [apply bal_mkN_black; eauto|apply bal_mkN_black; eauto|by rewrite color_mkN..].
    + destruct d; cbn; app_simpl.
Qed.

(** What the loop leaves: blackening the node it ends at gives a valid tree. *)
Definition mends s k0 t0 (l : list T) : Prop :=
  rep s k0 t0 /\ inorder (plug k0 t0) = l /\ exists m, ctx_ok m k0 /\ bal m (blacken t0).

Lemma fix_delete_loop_root fuel s t parent : rep s [] t -> fix_delete_loop (S fuel) s (root_ s) parent = Ret (s, ptr t).
Proof. intros Hr. cbn [fix_delete_loop]. rewrite decide_True by done. by rewrite (root_eq _ _ Hr). Qed.

Lemma fix_delete_loop_red fuel s k t parent : rep s k t -> color_of t = Red -> fix_delete_loop (S fuel) s (ptr t) parent = Ret (s, ptr t).
Proof.
  intros Hr Hc. cbn [fix_delete_loop]. case_decide; [done|]. rewrite (is_red_ok _ _ _ Hr), bool_decide_true by done. done.
Qed.

Lemma black_node t n : bal (S n) t -> color_of t = Black -> forall d, exists b nl y fr, t = mkN d b Black nl y fr /\ bal n nl /\ bal n fr.
Proof.
  intros Hb Hc d. destruct t as [|b c l y r]; [by inversion Hb|]. cbn in Hc. subst c. inversion Hb; subst.
  destruct d; [by exists b, l, y, r|by exists b, r, y, l].
Qed.

(** One iteration with a black sibling, and the iterations that follow. *)
Lemma fix_delete_black_ok fuel k s t n d p pc px sib :
  (forall s t, rep s k t -> bal (S n) t -> ctx_ok (S (S n)) k ->
    exists s' k0 t0, fix_delete_loop (S fuel) s (ptr t) (up k) = Ret (s', ptr t0) /\ mends s' k0 t0 (inorder (plug k t))) \/ pc = Red ->
  rep s (mkF d p pc px sib :: k) t -> bal n t -> ctx_ok (S n) (mkF d p pc px sib :: k) -> color_of sib = Black ->
  exists s' k0 t0, (
      '(s, node, parent) ← fix_delete_black d s (Some p) (ptr sib); fix_delete_loop (S fuel) s node parent) = Ret (s', ptr t0) /\
    mends s' k0 t0 (inorder (plug (mkF d p pc px sib :: k) t)).
Proof.
  intros HIH Hr Hb Hk Hsc. assert (bal (S n) sib /\ ctx_ok (height_with pc n) k /\ (pc = Red -> top_color k = Black)) as (Hsb & Hk' & Htop) by by inversion Hk.
  destruct (black_node _ _ Hsb Hsc d) as (b & nl & y & fr & -> & Hbn & Hbf). rewrite ptr_mkN. apply go_up in Hr. cbn [plug]. unfold plug1. cbn [fside faddr fcolor fdata fsib].
  destruct (decide (color_of nl = Black /\ color_of fr = Black)) as [[Hn Hf]|Hnot].
  - destruct (fix_delete_up _ _ _ _ _ _ _ _ _ _ _ Hr Hn Hf) as (s1 & -> & Hr1). ret_step.
    assert (bal n (mkN d b Red nl y fr)) as Hbr by by apply bal_mkN_red.
    assert (inorder (plug k (mkN d p pc t px (mkN d b Red nl y fr))) = inorder (plug k (mkN d p pc t px (mkN d b Black nl y fr)))) as Ho.
    { apply inorder_plug_eq. by apply inorder_mkN, inorder_mkN. }
    destruct pc.
    + pose proof (fix_delete_loop_red fuel _ _ _ (up k) Hr1) as Hex. rewrite ptr_mkN in Hex. rewrite Hex by (by rewrite color_mkN).
      exists s1, k, (mkN d p Red t px (mkN d b Red nl y fr)). rewrite ptr_mkN. split; [done|]. split_and!; [done|done|]. exists (S n).
      split; [done|]. assert (forall u, blacken (mkN d p Red t px u) = mkN d p Black t px u) as -> by (intros; by destruct d). apply bal_mkN_black. eauto.
    + destruct HIH as [HIH|]; [|done]. destruct (HIH s1 _ Hr1) as (s' & k0 & t0 & Hl & Hm); [apply bal_mkN_black; eauto|done|].
      rewrite ptr_mkN in Hl. exists s', k0, t0. by rewrite <- Ho.
  - destruct (fix_delete_rotate _ _ _ _ _ _ _ _ _ _ _ n Hr Hnot Hb Hbn Hbf) as (s1 & t1 & -> & Hr1 & Hb1 & Hc1 & Ho1). ret_step.
    pose proof (to_root _ _ _ Hr1) as Hroot. rewrite (fix_delete_loop_root _ _ _ _ Hroot).
    assert (rb_valid (plug k t1)) as [[m Hbm] Hcm] by (apply (plug_valid (height_with pc n)); [done|done|unfold goes; by rewrite Hc1]).
    exists s1, [], (plug k t1). split; [done|]. split_and!; [done|exact (inorder_plug_eq k _ _ Ho1)|]. exists m. split; [constructor|].
    destruct (plug k t1) as [|? c ? ? ?]; [done|]. cbn in Hcm. by subst c.
Qed.

Lemma fix_delete_loop_ok fuel : forall k s t n, rep s k t -> bal n t -> ctx_ok (S n) k -> length k < fuel ->
  exists s' k0 t0, fix_delete_loop (S fuel) s (ptr t) (up k) = Ret (s', ptr t0) /\ mends s' k0 t0 (inorder (plug k t)).
Proof.
  induction fuel as [|fuel IH]; intros k s t n Hr Hb Hk Hf; [lia|].
  destruct (color_of t) eqn:Ec.
  { rewrite (fix_delete_loop_red _ _ _ _ _ Hr Ec). exists s, k, t. split; [done|]. split_and!; [done|done|]. exists (S n). split; [done|]. by apply bal_blacken. }
  destruct k as [|[d p pc px sib] k].
  { rewrite (root_eq _ _ Hr), (fix_delete_loop_root _ _ _ _ Hr). exists s, [], t. split; [done|]. split_and!; [done|done|].
    exists n. split; [constructor|]. destruct t as [|a c l x r]; [done|]. cbn in Ec. by subst c. }
  remember (S fuel) as fuel1 eqn:E1. cbn [fix_delete_loop]. subst fuel1. rewrite decide_False by (by eapply root_ne). rewrite (is_red_ok _ _ _ Hr), Ec, bool_decide_false by done. ret_step. cbn [up faddr].
  assert (bal (S n) sib /\ ctx_ok (height_with pc n) k /\ (pc = Red -> color_of sib = Black)) as (Hsb & Hk' & Hsc) by by inversion Hk.
  pose proof (go_up _ _ _ _ _ _ _ _ Hr) as Hp. destruct (which_side _ _ _ _ _ _ _ _ Hp) as (q & -> & Hq); [right; intros ->; inversion Hsb|].
  repeat ret_step. assert ((if bool_decide (ptr t = q) then SLeft else SRight) = d) as -> by (clear -Hq; case_bool_decide; destruct d; naive_solver).
  unfold fix_delete_step. rewrite (getChild_opp_ok _ _ _ _ _ _ _ _ Hp). ret_step.
  pose proof (go_down_opp _ _ _ _ _ _ _ _ Hp) as Hs. rewrite (is_red_ok _ _ _ Hs). ret_step. clear Hs. cbn [length] in Hf.
  destruct (color_of sib) eqn:Es; [rewrite bool_decide_true by done|rewrite bool_decide_false by done].
  - destruct sib as [|b c0 ll y rr]; [done|]. cbn in Es. subst c0. cbn [ptr].
    set (sl := match d with SLeft => ll | SRight => rr end). set (sr := match d with SLeft => rr | SRight => ll end).
    assert (N b Red ll y rr = mkN d b Red sl y sr) as Et by by destruct d. rewrite Et in *. clearbody sl sr. clear Et ll rr.
    destruct pc; [by specialize (Hsc eq_refl); destruct d|]. apply bal_mkN_red in Hsb as (H1 & H2 & H3 & H4).
    apply (color_child_opp _ _ _ _ _ _ _ _ _ _ _ _ _ Black) in Hp as (s1 & -> & Hp). ret_step.
    apply (color_rep _ _ _ _ _ _ _ _ Red) in Hp as (s2 & -> & Hp). ret_step. apply rotate_rep in Hp as (s3 & -> & Hp). ret_step.
    apply go_down in Hp. rewrite (getChild_opp_ok _ _ _ _ _ _ _ _ Hp). ret_step. apply go_down in Hp.
    destruct (fix_delete_black_ok fuel _ _ _ n _ _ _ _ _ (or_intror eq_refl) Hp Hb) as (s' & k0 & t0 & Hl & Hm); [|done|].
    + constructor; [done..|]. by constructor.
    + exists s', k0, t0. split; [exact Hl|]. destruct Hm as (Hr' & Ho & Hm). split_and!; [done| |done]. rewrite Ho. cbn [plug].
      apply inorder_plug_eq. unfold plug1. cbn. destruct d; cbn; app_simpl.
  - apply (fix_delete_black_ok fuel _ _ _ n); [|done..]. left. intros s1 t1 Hr1 Hb1 Hk1. apply (IH _ _ _ (S n)); [done..|lia].
Qed.

Lemma fixDelete_ok k s t n : rep s k t -> bal n t -> ctx_ok (S n) k ->
  exists s' t', fixDelete s (ptr t) (up k) = Ret s' /\ rep s' [] t' /\ rb_valid t' /\ inorder t' = inorder (plug k t).
Proof.
  intros Hr Hb Hk. unfold fixDelete. pose proof (rep_depth _ _ _ Hr) as Hd. unfold enough in *.
  destruct (fix_delete_loop_ok (S (base.size (store s))) k s t n Hr Hb Hk) as (s1 & k0 & t0 & -> & Hr0 & Ho & m & Hk0 & Hb0); [lia|]. ret_step.
  assert (exists s', paint s1 (ptr t0) Black = Ret s' /\ rep s' k0 (blacken t0)) as (s' & -> & Hr').
  { destruct t0 as [|a c l x r]; [by exists s1|]. by apply (color_rep _ _ SLeft _ c _ _ _ Black) in Hr0. }
  exists s', (plug k0 (blacken t0)). split_and!; [done|by apply to_root|apply (plug_valid m); [done|done|]|].
  - unfold goes. by rewrite color_blacken.
  - rewrite <- Ho. apply inorder_plug_eq, inorder_blacken.
Qed.

(** ** Searching *)

(** The comparisons of the element type: a total order, and [operator==] agreeing
    with equality. *)
Context `{!StrictTotal lt} (to_eqb : forall x y, eqb x y = true <-> x = y).

Definition le x y : Prop := lt y x = false.

Lemma le_trans_lt x y z : lt x y = true -> le y z -> lt x z = true.
Proof. unfold le. intros H1 H2. by apply (sw_lt_le lt x y z). Qed.

Lemma le_antisym x y : le x y -> le y x -> x = y.
Proof. intros H1 H2. by apply st_total. Qed.

#[local] Instance le_AntiSymm : AntiSymm (=) le.
Proof. intros x y. apply le_antisym. Qed.

Definition ordered (l : list T) : Prop := StronglySorted le l.

Lemma ordered_app (l1 l2 : list T) : ordered (l1 ++ l2) <-> ordered l1 /\ ordered l2 /\ forall x y, x ∈ l1 -> y ∈ l2 -> le x y.
Proof.
  unfold ordered. induction l1 as [|z l1 IH]; cbn.
  - split; [intros H; split_and!; [constructor|done|by intros ? ? ?%elem_of_nil]|tauto].
  - split.
    + intros [H Hz]%StronglySorted_inv. apply IH in H as (H1 & H2 & H3). rewrite Forall_app, !Forall_forall in Hz. destruct Hz as [Hz1 Hz2].
      split_and!; [constructor; [done|by apply Forall_forall]|done|]. intros x y [->|Hx]%elem_of_cons Hy; auto.
    + intros (H1 & H2 & H3). apply StronglySorted_inv in H1 as [H1 Hz]. constructor.
      * apply IH. split_and!; [done|done|]. intros x y Hx. apply H3. by right.
      * rewrite Forall_app. split; [done|]. apply Forall_forall. intros y. apply H3. by left.
Qed.

Lemma ordered_cons x (l : list T) : ordered (x :: l) <-> ordered l /\ forall y, y ∈ l -> le x y.
Proof.
  rewrite (ordered_app [x] l). split; [intros (_ & H & Hx)|intros [H Hx]].
  - split; [done|]. intros y. apply Hx. by apply list_elem_of_singleton.
  - split_and!; [repeat constructor|done|]. intros ? y ->%list_elem_of_singleton. apply Hx.
Qed.

(** [insert] puts an element after those equal to it. *)
Fixpoint insert_sorted value (l : list T) : list T :=
  match l with [] => [value] | x :: l => if lt value x then value :: x :: l else x :: insert_sorted value l end.

Fixpoint remove_one value (l : list T) : list T :=
  match l with [] => [] | x :: l => if eqb value x then l else x :: remove_one value l end.

Lemma insert_sorted_app value (l1 l2 : list T) :
  (forall y, y ∈ l1 -> lt value y = false) -> (forall y, y ∈ l2 -> lt value y = true) ->
  insert_sorted value (l1 ++ l2) = l1 ++ value :: l2.
Proof.
  induction l1 as [|x l1 IH]; intros H1 H2; cbn.
  - destruct l2 as [|y l2]; [done|]. cbn. by rewrite H2 by left.
  - rewrite H1 by left. f_equal. apply IH; [|done]. intros y Hy. apply H1. by right.
Qed.

Lemma remove_one_app value (l1 l2 : list T) : ordered (l1 ++ value :: l2) -> remove_one value (l1 ++ value :: l2) = l1 ++ l2.
Proof.
  intros Ho. assert (eqb value value = true) as He by by apply to_eqb.
  induction l1 as [|x l1 IH]; cbn in *; [by rewrite He|]. apply ordered_cons in Ho as [Ho Hx].
  destruct (eqb value x) eqn:E; [|by rewrite IH]. apply to_eqb in E as <-. clear IH.
  induction l1 as [|z l1 IH]; [done|]. cbn in *. apply ordered_cons in Ho as [Ho Hz].
  assert (z = value) as ->.
  { apply le_antisym; [apply Hz|apply Hx]; rewrite ?elem_of_cons, ?elem_of_app, ?elem_of_cons; tauto. }
  f_equal. apply IH; [done|]. intros y Hy. apply Hx. by right.
Qed.

Lemma remove_one_absent value (l : list T) : value ∉ l -> remove_one value l = l.
Proof.
  induction l as [|x l IH]; cbn; [done|]. intros [Hne Hl]%not_elem_of_cons. destruct (eqb value x) eqn:E; [by apply to_eqb in E|]. by rewrite IH.
Qed.

Lemma insert_sorted_ordered value (l : list T) : ordered l -> ordered (insert_sorted value l).
Proof.
  induction l as [|x l IH]; cbn; [repeat constructor|]. intros Ho. pose proof Ho as [Hl Hx]%ordered_cons. destruct (lt value x) eqn:E.
  - apply ordered_cons. split; [done|]. intros y [->|Hy]%elem_of_cons; unfold le; apply (sw_asym lt); [done|].
    apply (le_trans_lt _ x); [done|]. by apply Hx.
  - apply ordered_cons. split; [by apply IH|]. intros y Hy. assert (y = value \/ y ∈ l) as [->|Hy'].
    { clear -Hy. induction l as [|z l IH]; cbn in Hy; [set_solver|]. destruct (lt value z); set_solver. }
    + exact E.
    + by apply Hx.
Qed.

Lemma remove_one_ordered value (l : list T) : ordered l -> ordered (remove_one value l).
Proof.
  intros Ho. destruct (decide (eqb value value = true /\ Exists (fun x => eqb value x = true) l)) as [[_ Hex]|Hno].
  - apply Exists_exists in Hex as (x & Hx & E). apply to_eqb in E as <-. apply list_elem_of_split in Hx as (l1 & l2 & ->).
    rewrite remove_one_app by done. apply ordered_app in Ho as (H1 & H2 & H3). apply ordered_cons in H2 as [H2 _]. apply ordered_app.
    split_and!; [done|done|]. intros x y Hx Hy. apply H3; [done|by right].
  - rewrite remove_one_absent; [done|]. intros Hin. apply Hno. split; [by apply to_eqb|]. apply Exists_exists. exists value. split; [done|]. by apply to_eqb.
Qed.

Lemma cells_inorder p t : length (cells p t) = length (inorder t).
Proof.
  revert p. induction t as [|a c l IHl x r IHr]; intros p; [done|]. cbn [cells inorder length]. rewrite !length_app. cbn [length]. rewrite IHl, IHr. lia.
Qed.

Lemma rep_nodes s k t : rep s k t -> length (inorder t) < enough s.
Proof. intros [Hc _]. apply holds_length in Hc. rewrite length_app, cells_inorder in Hc. unfold enough. lia. Qed.

Definition side_of value x : side := if lt value x then SLeft else SRight.

Definition came_from value k : Prop := match k with [] => True | f :: _ => fside f = side_of value (fdata f) end.

Lemma insert_loop_ok value : forall t k s fuel,
  rep s k t -> ordered (inorder (plug k t)) -> length (inorder t) < fuel -> came_from value k ->
  (forall y, y ∈ before k -> lt value y = false) -> (forall y, y ∈ after k -> lt value y = true) ->
  exists k', insert_loop fuel s value (ptr t) (up k) = Ret (up k') /\ plug k' E = plug k t /\ came_from value k' /\
    (t <> E -> k' <> []) /\ (k <> [] -> k' <> []) /\
    (forall y, y ∈ before k' -> lt value y = false) /\ (forall y, y ∈ after k' -> lt value y = true).
Proof.
  induction t as [|a c l IHl x r IHr]; intros k s fuel Hr Ho Hf Hcf Hb Ha; destruct fuel as [|fuel]; try lia; cbn [insert_loop ptr].
  { exists k. done. }
  rewrite (getData_ok _ SLeft _ _ _ _ _ _ Hr). ret_step. cbn [inorder] in Hf. rewrite length_app in Hf. cbn [length] in Hf.
  pose proof Ho as Ho'. rewrite inorder_plug in Ho'. cbn [inorder] in Ho'. rewrite !ordered_app, ordered_cons in Ho'.
  destruct Ho' as (_ & ((Hl & (Hor & Hxr) & Hlx) & _) & _).
  destruct (lt value x) eqn:E.
  - rewrite (getChild_ok _ SLeft _ _ _ _ _ _ Hr : getLeft _ _ = _). ret_step.
    destruct (IHl (mkF SLeft a c x r :: k) s fuel) as (k' & H2 & H3 & H4 & _ & H5 & H6 & H7); [by apply (go_down _ SLeft)|done|lia| | | |].
    + cbn. unfold side_of. by rewrite E.
    + cbn. by rewrite app_nil_r.
    + cbn. intros y. rewrite elem_of_cons, elem_of_app. intros [->|[Hy|Hy]]; [done| |by apply Ha].
      apply (le_trans_lt _ x); [done|by apply Hxr].
    + exists k'. split_and!; try done; intros _; by apply H5.
  - rewrite (getChild_opp_ok _ SLeft _ _ _ _ _ _ Hr : getRight _ _ = _). ret_step.
    destruct (IHr (mkF SRight a c x l :: k) s fuel) as (k' & H2 & H3 & H4 & _ & H5 & H6 & H7); [by apply (go_down_opp _ SLeft)|done|lia| | |done|].
    + cbn. unfold side_of. by rewrite E.
    + cbn. intros y. rewrite elem_of_app, elem_of_app, list_elem_of_singleton. intros [Hy|[Hy| ->]]; [by apply Hb| |done].
      destruct (lt value y) eqn:Ey; [|done]. rewrite (le_trans_lt value y x Ey) in E; [done|]. apply Hlx; [done|by left].
    + exists k'. split_and!; try done; intros _; by apply H5.
Qed.

(** ** Insertion *)
Context (alloc_fresh : forall h, h !! alloc h = None).

(** What a client may assume between calls: the store holds a red-black tree. *)
Definition is_tree s t : Prop := rep s [] t /\ rb_valid t /\ ordered (inorder t).

Lemma holds_fresh h cs a n : holds h cs -> h !! a = None -> holds (<[a := n]> h) ((a, n) :: cs).
Proof.
  intros [Hn Hl] Ha. assert (a ∉ cs.*1) as Hnot.
  { intros ([b m] & -> & Hin)%list_elem_of_fmap. apply Hl in Hin. cbn in Ha. congruence. }
  split; [by apply NoDup_cons|]. intros b m [[= -> ->]|Hin]%elem_of_cons; [by rewrite lookup_insert_eq|].
  rewrite lookup_insert_ne; [by apply Hl|]. intros ->. apply Hnot, list_elem_of_fmap. by exists (b, m).
Qed.

Lemma rep_weaken s h k t : rep s k t -> (forall a n, store s !! a = Some n -> h !! a = Some n) -> rep (mkRBT h (root_ s)) k t.
Proof. intros [[Hn Hl] Hr] Hh. split; [split; [done|]|done]. intros a n Hin. apply Hh. by apply Hl. Qed.

Lemma insert_ok s t value : is_tree s t ->
  exists s' t', insert s value = Ret s' /\ is_tree s' t' /\ inorder t' = insert_sorted value (inorder t).
Proof.
  intros (Hr & Hv & Ho). unfold insert. cbv zeta. set (a := alloc (store s)). set (n0 := mkNode value None None None Red).
  pose proof (holds_fresh _ _ a n0 (rep_cells _ _ _ Hr) (alloc_fresh _)) as Hc. cbn [root_ store].
  pose proof (rep_root _ _ _ Hr) as Hroot. cbn [top] in Hroot.
  assert (rep (mkRBT (<[a := n0]> (store s)) (root_ s)) [] t) as Hr1.
  { apply rep_weaken; [done|]. intros b m Hb. rewrite lookup_insert_ne; [done|]. intros <-. pose proof (alloc_fresh (store s)). subst a. congruence. }
  set (s1 := mkRBT (<[a := n0]> (store s)) (root_ s)) in *.
  destruct t as [|ra rc rl rx rr].
  - rewrite Hroot. assert (rep (mkRBT (<[a := n0]> (store s)) (Some a)) [] (N a Red E value E)) as Hr2 by (split; [exact Hc|done]).
    change (N a Red E value E) with (mkN SLeft a Red E value E) in Hr2. apply (color_rep _ _ _ _ _ _ _ _ Black) in Hr2 as (s' & -> & Hr2).
    exists s', (N a Black E value E). split_and!; [done| |done]. split_and!; [done| |repeat constructor]. split; [|done]. exists 1. repeat constructor.
  - rewrite Hroot. cbn [ptr]. set (t := N ra rc rl rx rr) in *.
    destruct (insert_loop_ok value t [] s1 (enough s1) Hr1) as (k & Hl & Hp & Hcf & Hne & _ & Hb & Ha);
      [done|by apply (rep_nodes _ _ _ Hr1)|done|by intros ? ?%elem_of_nil|by intros ? ?%elem_of_nil|].
    cbn [up ptr] in Hl. subst t. cbn [ptr] in Hl. rewrite Hl. ret_step. specialize (Hne ltac:(done)). destruct k as [|f k]; [done|]. cbn [up came_from] in *.
    change (plug [] (N ra rc rl rx rr)) with (N ra rc rl rx rr) in Hp.
    assert (holds (store s1) ((a, n0) :: ctx_cells (f :: k) None)) as Hc1.
    { eapply holds_perm; [exact Hc|]. constructor. pose proof (cells_plug (f :: k) E) as Hcp. rewrite Hp in Hcp. cbn [cells app ptr] in Hcp.
      rewrite Hcp. cbn [up ctx_cells]. by rewrite app_nil_r. }
    apply (setParent_ok s1 SLeft a value None None None (Some (faddr f)) Red) in Hc1 as (s2 & -> & Hc2 & Hr2). ret_step.
    cbn [cell] in Hc2. set (n1 := mkNode value None None (Some (faddr f)) Red) in *.
    front Hc2 (ctx_cells (f :: k) None ++ [(a, n1)]). pose proof Hc2 as Hf. cbn [ctx_cells app] in Hf.
    unfold getData. rewrite (rb_deref_ok _ _ _ _ Hf). repeat ret_step.
    assert (data_ (cell (fside f) (fdata f) None (ptr (fsib f)) (up k) (fcolor f)) = fdata f) as -> by by destruct (fside f).
    destruct (fill_ok s2 f k None (Some a) _ Hc2) as (s3 & Hs3 & Hc3 & Hr3).
    assert ((if lt value (fdata f) then setLeft s2 (Some (faddr f)) (Some a) else setRight s2 (Some (faddr f)) (Some a)) = Ret s3) as ->
      by (rewrite <- Hs3, Hcf; unfold side_of; by destruct (lt value (fdata f))). ret_step.
    assert (rep s3 (f :: k) (N a Red E value E)) as Hrep.
    { split; [front Hc3 ((a, n1) :: ctx_cells (f :: k) (Some a)); exact Hc3|]. rewrite Hr3, Hr2. subst s1. cbn [root_].
      rewrite Hroot. change (Some ra) with (ptr (N ra rc rl rx rr)). rewrite <- Hp, <- (top_plug (f :: k) E). done. }
    rewrite <- Hp in Hv. destruct (valid_split _ _ Hv) as (n & Hk & Hb0 & _). inversion Hb0; subst n.
    destruct (fixInsert_ok _ _ _ a 0 Hrep) as (s' & t' & -> & Hr' & Hv' & Ho'); [done|done|by repeat constructor|done|].
    assert (inorder t' = insert_sorted value (inorder (N ra rc rl rx rr))) as Hin.
    { rewrite Ho', <- Hp, !inorder_plug. cbn [inorder app]. symmetry. by apply insert_sorted_app. }
    exists s', t'. split_and!; [done| |exact Hin]. split_and!; [done|done|]. rewrite Hin. by apply insert_sorted_ordered.
Qed.

(** ** Removal *)
Definition below k d : Prop := match k with [] => True | f :: _ => fside f = d end.

Lemma search_ok value : forall t k s fuel d,
  rep s k t -> ordered (inorder t) -> length (inorder t) < fuel -> below k d ->
  exists k' t' d', remove_loop fuel s value (ptr t) (up k) d = Ret (ptr t', up k', d') /\ plug k' t' = plug k t /\ below k' d' /\
    match t' with E => value ∉ inorder t | N _ _ _ x _ => x = value end.
Proof.
  induction t as [|a c l IHl x r IHr]; intros k s fuel d Hr Ho Hf Hd; destruct fuel as [|fuel]; try lia; cbn [remove_loop ptr].
  { exists k, E, d. split_and!; [done|done|done|]. apply not_elem_of_nil. }
  rewrite (getData_ok _ SLeft _ _ _ _ _ _ Hr). ret_step. cbn [inorder] in *. rewrite length_app in Hf. cbn [length] in Hf.
  apply ordered_app in Ho as (Hl & Hx & Hlx). apply ordered_cons in Hx as [Hor Hxr].
  destruct (eqb value x) eqn:Eq.
  { apply to_eqb in Eq as <-. by exists k, (N a c l value r), d. }
  assert (value <> x) as Hne by (intros ->; assert (eqb x x = true) by (by apply to_eqb); congruence).
  destruct (lt value x) eqn:Elt.
  - rewrite (getChild_ok _ SLeft _ _ _ _ _ _ Hr : getLeft _ _ = _). ret_step.
    destruct (IHl (mkF SLeft a c x r :: k) s fuel SLeft) as (k' & t' & d' & H1 & H2 & H3 & H4); [by apply (go_down _ SLeft)|done|lia|done|].
    exists k', t', d'. split_and!; [done|done|done|]. destruct t'; [|done]. rewrite elem_of_app, elem_of_cons. intros [?|[?|Hin]]; [done..|].
    apply Hxr in Hin. unfold le in Hin. congruence.
  - rewrite (getChild_opp_ok _ SLeft _ _ _ _ _ _ Hr : getRight _ _ = _). ret_step.
    destruct (IHr (mkF SRight a c x l :: k) s fuel SRight) as (k' & t' & d' & H1 & H2 & H3 & H4); [by apply (go_down_opp _ SLeft)|done|lia|done|].
    exists k', t', d'. split_and!; [done|done|done|]. destruct t'; [|done]. rewrite elem_of_app, elem_of_cons. intros [Hin|[?|?]]; [|done..].
    apply Hne. apply le_antisym; [by apply Hlx; [|left]|exact Elt].
Qed.

Lemma splice_ok s k a t d cs :
  holds (store s) (ctx_cells k (Some a) ++ cs) -> root_ s = top k (Some a) -> below k d ->
  exists s', splice s (up k) d (ptr t) = Ret s' /\ holds (store s') (ctx_cells k (ptr t) ++ cs) /\ root_ s' = top k (ptr t).
Proof.
  intros Hc Hr Hd. destruct k as [|f k]; cbn [up splice]; [eexists; split; [done|]; by split|]. cbn in Hd. subst d.
  destruct (fill_ok s f k (Some a) (ptr t) cs Hc) as (s' & Hs & Hc' & Hr'). exists s'. split_and!; [done|done|]. by rewrite Hr', Hr.
Qed.

(** A node with at most one child: the child takes its place. *)
Lemma remove_outer_ok s k a c l x r d : rep s k (N a c l x r) -> below k d -> l = E \/ r = E ->
  exists s', detach s (Some a) (up k) d = Ret (s', c, ptr (match l with E => r | _ => l end), up k) /\ rep s' k (match l with E => r | _ => l end).
Proof.
  intros Hrep Hd He. unfold detach. rewrite (rep_node _ SLeft _ _ _ _ _ _ Hrep). ret_step. cbn [cell left_ right_ color_].
  destruct Hrep as [Hc Hr]. cbn [cells ptr] in *. set (t := match l with E => r | _ => l end).
  assert (holds (store s) (ctx_cells k (Some a) ++ cells (Some a) t)) as Hc1.
  { cbn [app] in Hc. apply holds_cons_r in Hc. destruct l as [|a1 c1 l1 x1 r1]; subst t; cbn [cells app] in *.
    - eapply holds_perm; [exact Hc|solve_Permutation].
    - destruct He as [|He]; [done|]. subst r. cbn [cells] in Hc. rewrite app_nil_r in Hc. eapply holds_perm; [exact Hc|].
      change ((a1, mkNode x1 (ptr l1) (ptr r1) (Some a) c1) :: cells (Some a1) l1 ++ cells (Some a1) r1) with (cells (Some a) (N a1 c1 l1 x1 r1)). solve_Permutation. }
  destruct (splice_ok s k a t d _ Hc1 Hr Hd) as (s1 & Hs & Hc2 & Hr2).
  front Hc2 (cells (Some a) t ++ ctx_cells k (ptr t)). destruct (adopt_ok s1 t _ (up k) _ Hc2) as (s2 & Hs2 & Hc3 & Hr3).
  assert (rep s2 k t) as Hrep by (split; [exact Hc3|congruence]). exists s2. split; [|done].
  destruct l as [|a1 c1 l1 x1 r1]; [destruct r as [|a1 c1 l1 x1 r1]|destruct He as [|He]; [done|]; subst r]; subst t; cbn [ptr adopt] in *; rewrite Hs; ret_step.
  - injection Hs2 as ->. done.
  - by rewrite Hs2.
  - by rewrite Hs2.
Qed.

Lemma find_min_ok : forall t k s fuel, rep s k t -> t <> E -> length (inorder t) <= fuel ->
  exists k2 b cb y rs, t = plug k2 (N b cb E y rs) /\ Forall (fun f => fside f = SLeft) k2 /\ find_min_loop fuel s (ptr t) = Ret (Some b).
Proof.
  induction t as [|a c l IHl x r _]; intros k s fuel Hr Hne Hf; [done|]. cbn [inorder] in Hf. rewrite length_app in Hf. cbn [length] in Hf.
  destruct fuel as [|fuel]; [lia|]. cbn [find_min_loop ptr]. rewrite (getChild_ok _ SLeft _ _ _ _ _ _ Hr : getLeft _ _ = _). ret_step.
  destruct l as [|a1 c1 l1 x1 r1]; [exists [], a, c, x, r; done|].
  destruct (IHl (mkF SLeft a c x r :: k) s fuel) as (k2 & b & cb & y & rs & Ht & Hk2 & Hfm); [by apply (go_down _ SLeft)|done|lia|].
  exists (k2 ++ [mkF SLeft a c x r]), b, cb, y, rs. split_and!; [|apply Forall_app; by repeat constructor|done].
  rewrite Ht. clear. revert b cb y rs. generalize E at 1 2. intros e b cb y rs. generalize (N b cb e y rs). clear.
  induction k2 as [|f k2 IH]; intros t; cbn [plug app]; [done|]. apply IH.
Qed.

Lemma plug_app k1 k2 : forall t, plug (k1 ++ k2) t = plug k2 (plug k1 t).
Proof. induction k1 as [|f k1 IH]; intros t; cbn [plug app]; [done|]. apply IH. Qed.

(** The successor, already unlinked from its place, takes over the removed node. *)
Lemma take_place_ok {A} (g : RedBlackTree -> outcome A) s k a c l x b y q par cb u cs R :
  holds (store s) ((b, mkNode y q (ptr u) par cb) :: (a, mkNode x (ptr l) R (up k) c) ::
    cells (Some a) l ++ cells (Some b) u ++ ctx_cells k (Some a) ++ cs) -> root_ s = top k (Some a) ->
  exists s', (l ← getLeft s (Some a); s ← setLeft s (Some b) l; s ← adopt s l (Some b); up ← getParent s (Some a);
              s ← setParent s (Some b) up; c ← getColor s (Some a); s ← setColor s (Some b) c; s ← relink s (Some a) (Some b);
              g s) = g s' /\ rep s' k (N b c l y u).
Proof.
  intros Hc Hr. set (na := mkNode x (ptr l) R (up k) c) in *. set (rest := cells (Some b) u ++ ctx_cells k (Some a) ++ cs) in *.
  front Hc ((a, na) :: (b, mkNode y q (ptr u) par cb) :: cells (Some a) l ++ rest).
  unfold getLeft. rewrite (rb_deref_ok _ _ _ _ Hc). repeat ret_step. cbn [left_ na].
  front Hc ((b, mkNode y q (ptr u) par cb) :: (a, na) :: cells (Some a) l ++ rest).
  apply (setChild_ok s SLeft b y _ _ (ptr l)) in Hc as (s1 & Hs & Hc & Hr1). cbn [setChild] in Hs. rewrite Hs. ret_step. clear Hs. cbn [cell] in Hc.
  front Hc (cells (Some a) l ++ (b, mkNode y (ptr l) (ptr u) par cb) :: (a, na) :: rest).
  apply (adopt_ok s1 l _ (Some b)) in Hc as (s2 & -> & Hc & Hr2). ret_step.
  front Hc ((a, na) :: (b, mkNode y (ptr l) (ptr u) par cb) :: cells (Some b) l ++ rest).
  unfold getParent at 1. rewrite (rb_deref_ok _ _ _ _ Hc). repeat ret_step. cbn [parent_ na].
  front Hc ((b, mkNode y (ptr l) (ptr u) par cb) :: (a, na) :: cells (Some b) l ++ rest).
  apply (setParent_ok s2 SLeft b y _ _ _ (up k)) in Hc as (s3 & -> & Hc & Hr3). ret_step. cbn [cell] in Hc.
  front Hc ((a, na) :: (b, mkNode y (ptr l) (ptr u) (up k) cb) :: cells (Some b) l ++ rest).
  unfold getColor. rewrite (rb_deref_ok _ _ _ _ Hc). repeat ret_step. cbn [color_ na].
  front Hc ((b, mkNode y (ptr l) (ptr u) (up k) cb) :: (a, na) :: cells (Some b) l ++ rest).
  apply (setColor_ok s3 SLeft b y _ _ _ _ c) in Hc as (s4 & -> & Hc & Hr4). ret_step. cbn [cell] in Hc. subst rest.
  set (nb := mkNode y (ptr l) (ptr u) (up k) c) in *.
  front Hc ((a, na) :: ctx_cells k (Some a) ++ ((b, nb) :: cells (Some b) l ++ cells (Some b) u ++ cs)).
  apply (relink_ok s4 k SLeft a x _ _ c b) in Hc as (s5 & -> & Hc & Hr5); [|congruence]. ret_step. exists s5. split; [done|].
  cbn [cell] in Hc. apply holds_cons_r in Hc. front Hc (cs ++ ((b, nb) :: cells (Some b) l ++ cells (Some b) u) ++ ctx_cells k (Some b)).
  apply holds_app_r in Hc. split; [exact Hc|done].
Qed.

Lemma rep_app s k1 k2 t : rep s (k1 ++ k2) t <-> rep s k2 (plug k1 t).
Proof. rewrite (rep_plug s (k1 ++ k2) t), (rep_plug s k2 (plug k1 t)). by rewrite plug_app. Qed.

(** The successor leaves its place, further down, to its right child. *)
Lemma unlink_successor_ok s k a c l x f2 k3 b cb y rs :
  let k2 := f2 :: k3 in
  rep s k (N a c l x (plug k2 (N b cb E y rs))) -> fside f2 = SLeft ->
  exists s', (l ← getLeft s (Some (faddr f2));
      s ← (if decide (l = Some b) then setLeft s (Some (faddr f2)) (ptr rs) else setRight s (Some (faddr f2)) (ptr rs));
      adopt s (ptr rs) (Some (faddr f2))) = Ret s' /\ root_ s' = root_ s /\
    holds (store s') ((b, mkNode y None (ptr rs) (Some (faddr f2)) cb) :: cells (up k) (N a c l x (plug k2 rs)) ++ ctx_cells k (Some a)).
Proof.
  intros k2 Hr Hside. set (f := mkF SRight a c x l). pose proof (go_down_opp _ SLeft _ _ _ _ _ _ Hr) as Hd. cbn [opp] in Hd.
  apply rep_app in Hd. pose proof Hd as [Hc _]. cbn [app k2 up] in Hc. set (nb := mkNode y None (ptr rs) (Some (faddr f2)) cb).
  change (ptr (N b cb E y rs)) with (Some b) in Hc. cbn [cells] in Hc. fold nb in Hc. cbn [app] in Hc.
  set (kk := k3 ++ mkF SRight a c x l :: k) in *.
  front Hc (ctx_cells (f2 :: kk) (Some b) ++ (b, nb) :: cells (Some b) rs). pose proof Hc as Hf. cbn [ctx_cells app] in Hf.
  unfold getLeft. rewrite (rb_deref_ok _ _ _ _ Hf). repeat ret_step. rewrite Hside. cbn [cell left_]. rewrite decide_True by done.
  destruct (fill_ok s f2 kk (Some b) (ptr rs) _ Hc) as (s1 & Hs1 & Hc1 & Hr1). rewrite Hside in Hs1. cbn [setChild] in Hs1. rewrite Hs1. ret_step.
  front Hc1 (cells (Some b) rs ++ (b, nb) :: ctx_cells (f2 :: kk) (ptr rs)).
  apply (adopt_ok s1 rs _ (Some (faddr f2))) in Hc1 as (s2 & -> & Hc2 & Hr2). exists s2. split_and!; [done|congruence|].
  eapply holds_perm; [exact Hc2|]. rewrite <- Permutation_middle. constructor.
  change (cells (up (f2 :: kk)) rs ++ ctx_cells (f2 :: kk) (ptr rs) ≡ₚ cells (up k) (N a c l x (plug k2 rs)) ++ ctx_cells k (ptr (N a c l x (plug k2 rs)))).
  rewrite (cells_plug (f2 :: kk) rs), (cells_plug k). by rewrite (plug_app k2 (f :: k) rs : plug (f2 :: kk) rs = _).
Qed.

Lemma remove_inner_ok s k a c l x r : rep s k (N a c l x r) -> r <> E ->
  exists s' k2 b cb y rs, r = plug k2 (N b cb E y rs) /\ Forall (fun f => fside f = SLeft) k2 /\
    remove_inner s (Some a) = Ret (s', cb, ptr rs, up (k2 ++ [mkF SRight b c y l])) /\ rep s' k (N b c l y (plug k2 rs)).
Proof.
  intros Hr Hne. pose proof (go_down_opp _ SLeft _ _ _ _ _ _ Hr) as Hd. cbn [opp] in Hd. pose proof (rep_nodes _ _ _ Hd) as Hn.
  destruct (find_min_ok r _ s (enough s) Hd Hne) as (k2 & b & cb & y & rs & -> & Hk2 & Hfm); [lia|].
  pose proof (proj2 (rep_app _ _ _ _) Hd) as Hb. unfold remove_inner. rewrite (getChild_opp_ok _ SLeft _ _ _ _ _ _ Hr : getRight _ _ = _). ret_step.
  assert (findMinNode s (ptr (plug k2 (N b cb E y rs))) = Ret (Some b)) as ->
    by (unfold findMinNode; rewrite Hfm; destruct (plug k2 (N b cb E y rs)) eqn:Ep; [by apply plug_not_E in Ep|done]).
  ret_step. rewrite (getColor_ok _ SLeft _ _ _ _ _ _ Hb). ret_step. rewrite (getChild_opp_ok _ SLeft _ _ _ _ _ _ Hb : getRight _ _ = _). ret_step.
  rewrite (getParent_ok _ SLeft _ _ _ _ _ _ Hb). ret_step. pose proof (rep_root _ _ _ Hr) as Hroot. cbn [ptr] in Hroot.
  destruct k2 as [|f2 k3]; cbn [app up faddr].
  - rewrite decide_True by done. cbn [plug] in *. destruct Hr as [Hc _]. cbn [cells ptr app] in Hc.
    set (na := mkNode x (ptr l) (Some b) (up k) c) in *. set (nb := mkNode y None (ptr rs) (Some a) cb) in *.
    front Hc (cells (Some b) rs ++ (b, nb) :: (a, na) :: cells (Some a) l ++ ctx_cells k (Some a)).
    apply (adopt_ok s rs _ (Some b)) in Hc as (s1 & -> & Hc & Hr1). repeat ret_step.
    destruct (take_place_ok (fun s => Ret (s, cb, ptr rs, Some b)) s1 k a c l x b y None (Some a) cb rs [] (Some b)) as (s' & Hs' & Hr'); [|congruence|].
    + rewrite app_nil_r. eapply holds_perm; [exact Hc|solve_Permutation].
    + exists s', [], b, cb, y, rs. split_and!; [done|done|exact Hs'|exact Hr'].
  - rewrite decide_False.
    2: { intros [= Heq]. destruct Hb as [[Hnd _] _]. cbn [app] in Hnd. rewrite fmap_app in Hnd. apply NoDup_app in Hnd as (_ & _ & Hnd).
         cbn [ctx_cells] in Hnd. cbn in Hnd. apply NoDup_cons in Hnd as [Hnd _]. apply Hnd. rewrite fmap_app. apply elem_of_app. right.
         rewrite Heq. apply (ctx_addr (mkF SRight a c x l)). apply elem_of_app. right. by left. }
    pose proof Hk2 as [Hside _]%Forall_cons. destruct (unlink_successor_ok _ _ _ _ _ _ _ _ _ _ _ _ Hr Hside) as (s1 & Hun & Hr1 & Hc).
    set (u := plug (f2 :: k3) rs) in *. set (nb := mkNode y None (ptr rs) (Some (faddr f2)) cb) in *. cbn [cells] in Hc.
    set (na := mkNode x (ptr l) (ptr u) (up k) c) in *. cbn [app] in Hc.
    apply bind_Ret_inv in Hun as (q & -> & Hun). ret_step. apply bind_Ret_inv in Hun as (s0 & -> & Hun). ret_step. rewrite Hun. ret_step.
    front Hc ((a, na) :: (b, nb) :: cells (Some a) l ++ cells (Some a) u ++ ctx_cells k (Some a)).
    unfold getRight at 1. rewrite (rb_deref_ok _ _ _ _ Hc). repeat ret_step. cbn [right_ na].
    front Hc ((b, nb) :: (a, na) :: cells (Some a) l ++ cells (Some a) u ++ ctx_cells k (Some a)).
    apply (setChild_ok s1 SRight b y _ _ (ptr u)) in Hc as (s2 & Hs2 & Hc & Hr2). cbn [setChild] in Hs2. rewrite Hs2. ret_step. cbn [cell] in Hc. clear nb.
    set (nb := mkNode y None (ptr u) (Some (faddr f2)) cb) in *.
    front Hc (cells (Some a) u ++ (b, nb) :: (a, na) :: cells (Some a) l ++ ctx_cells k (Some a)).
    apply (adopt_ok s2 u _ (Some b)) in Hc as (s3 & -> & Hc & Hr3). repeat ret_step.
    destruct (take_place_ok (fun s => Ret (s, cb, ptr rs, Some (faddr f2))) s3 k a c l x b y None (Some (faddr f2)) cb u [] (ptr u)) as (s' & Hs' & Hr'); [|congruence|].
    + rewrite app_nil_r. eapply holds_perm; [exact Hc|solve_Permutation].
    + exists s', (f2 :: k3), b, cb, y, rs. split_and!; [done|exact Hk2|exact Hs'|exact Hr'].
Qed.

(** The removed node was the black or red one above [t1]: what is left is mended. *)
Lemma removed_ok s k t1 d a c x n :
  rep s k t1 -> ctx_ok n k -> bal n (mkN d a c E x t1) ->
  exists s' t', (if decide (c = Black) then fixDelete s (ptr t1) (up k) else Ret s) = Ret s' /\ rep s' [] t' /\ rb_valid t' /\
    inorder t' = inorder (plug k t1).
Proof.
  intros Hr Hk Hb. destruct c.
  - rewrite decide_False by done. apply bal_mkN_red in Hb as (_ & Hb & _ & Hc). exists s, (plug k t1).
    split_and!; [done|by apply to_root| |done]. apply (plug_valid n); [done|done|]. unfold goes. by rewrite Hc.
  - rewrite decide_True by done. apply bal_mkN_black in Hb as (n' & -> & _ & Hb). by apply (fixDelete_ok _ _ _ n').
Qed.

Lemma ctx_ok_swap n k1 d a c x u b y k2 : ctx_ok n (k1 ++ mkF d a c x u :: k2) -> ctx_ok n (k1 ++ mkF d b c y u :: k2).
Proof.
  revert n. induction k1 as [|f k1 IH]; intros n H; cbn [app] in *.
  - inversion H; subst; by constructor.
  - inversion H as [|? ? ? ? ? ? ? ? Ht|]; subst; constructor; try done; [|by apply IH..]. by destruct k1.
Qed.

Lemma before_left k : Forall (fun f => fside f = SLeft) k -> before k = [].
Proof. induction 1 as [|f k Hf _ IH]; [done|]. cbn. by rewrite IH, Hf. Qed.

Lemma up_app k1 f k2 : up (k1 ++ f :: k2) = up (k1 ++ [f]).
Proof. by destruct k1. Qed.

Lemma remove_found_ok s k a c l x r d : rep s k (N a c l x r) -> rb_valid (plug k (N a c l x r)) -> below k d ->
  exists s' t', ('(s, deleted, replacement, repl_parent) ← detach s (Some a) (up k) d;
      if decide (deleted = Black) then fixDelete s replacement repl_parent else Ret s) = Ret s' /\
    rep s' [] t' /\ rb_valid t' /\ inorder t' = before k ++ inorder l ++ inorder r ++ after k.
Proof.
  intros Hr Hv Hd. destruct (valid_split _ _ Hv) as (n & Hk & Hb & _).
  assert ((l = E \/ r = E) \/ l <> E /\ r <> E) as [He|[Hl Hr']] by (destruct l, r; auto).
  { destruct (remove_outer_ok s k a c l x r d Hr Hd He) as (s1 & -> & Hr1). ret_step.
    destruct (removed_ok s1 k (match l with E => r | _ => l end) (match l with E => SLeft | _ => SRight end) a c x n Hr1 Hk) as (s' & t' & H1 & H2 & H3 & H4).
    { destruct l; [exact Hb|]. destruct He as [|He]; [done|]. by subst r. }
    exists s', t'. split_and!; [exact H1|done|done|]. rewrite H4, inorder_plug. destruct l; [done|]. destruct He as [|He]; [done|]. subst r. cbn. done. }
  assert (detach s (Some a) (up k) d = remove_inner s (Some a)) as ->
    by (unfold detach; rewrite (rep_node _ SLeft _ _ _ _ _ _ Hr); by destruct l, r).
  pose proof (go_down_opp _ SLeft _ _ _ _ _ _ Hr) as Hdn. cbn [opp] in Hdn.
  destruct (remove_inner_ok s k a c l x r Hr Hr') as (s1 & k2 & b & cb & y & rs & -> & Hk2 & -> & Hr1). ret_step.
  assert (plug k (N a c l x (plug k2 (N b cb E y rs))) = plug (k2 ++ mkF SRight a c x l :: k) (N b cb E y rs)) as E1 by by rewrite plug_app.
  rewrite E1 in Hv. destruct (valid_split _ _ Hv) as (m & Hk' & Hb' & _). apply (ctx_ok_swap _ _ _ _ _ _ _ b y) in Hk'.
  assert (rep s1 (k2 ++ mkF SRight b c y l :: k) rs) as Hr2 by (apply rep_app; by apply (go_down_opp _ SLeft)).
  rewrite <- (up_app k2 _ k). destruct (removed_ok s1 _ rs SLeft b cb y m Hr2 Hk' Hb') as (s' & t' & H1 & H2 & H3 & H4).
  exists s', t'. split_and!; [exact H1|done|done|]. rewrite H4, plug_app. cbn [plug]. rewrite !inorder_plug. unfold plug1. cbn [mkN fside faddr fcolor fdata fsib inorder].
  rewrite !inorder_plug, (before_left _ Hk2). cbn [inorder app]. app_simpl.
Qed.

Lemma remove_ok s t value : is_tree s t ->
  exists s' t', remove s value = Ret s' /\ is_tree s' t' /\ inorder t' = remove_one value (inorder t).
Proof.
  intros (Hr & Hv & Ho). pose proof (rep_root _ _ _ Hr) as Hroot. cbn [top] in Hroot. unfold remove. rewrite Hroot.
  destruct (search_ok value t [] s (enough s) SRight Hr Ho (rep_nodes _ _ _ Hr) I) as (k & t1 & d & Hl & Hp & Hd & Hfound).
  change (plug [] t) with t in Hp. cbn [up] in Hl. destruct t as [|ra rc rl rx rr]; [by exists s, E|]. cbn [ptr] in *. rewrite Hl. ret_step.
  destruct t1 as [|a c l x r].
  { exists s, (N ra rc rl rx rr). split_and!; [done|done|]. symmetry. by apply remove_one_absent. }
  subst x. rewrite <- Hp in Hv, Hr, Ho. apply rep_plug in Hr. cbn [ptr].
  destruct (remove_found_ok s k a c l value r d Hr Hv Hd) as (s' & t' & H1 & H2 & H3 & H4).
  assert (inorder t' = remove_one value (inorder (plug k (N a c l value r)))) as Hin.
  { rewrite inorder_plug in *. cbn [inorder] in *. rewrite <- !app_assoc in *. cbn [app] in *. rewrite (app_assoc (before k)) in *.
    rewrite remove_one_app by done. rewrite H4. app_simpl. }
  exists s', t'. rewrite Hp in *. split_and!; [exact H1| |done]. split_and!; [done|done|]. rewrite Hin. by apply remove_one_ordered.
Qed.

(** ** Height *)
Fixpoint levels t : nat := match t with E => 0 | N _ _ l _ r => S (Nat.max (levels l) (levels r)) end.

Lemma bal_levels n t : bal n t -> levels t <= 2 * n + (if redb t then 1 else 0) /\ 2 ^ n <= S (length (inorder t)).
Proof.
  unfold redb. induction 1 as [|n a l x r _ [Hl Hsl] _ [Hr Hsr] Hcl Hcr|n a l x r _ [Hl Hsl] _ [Hr Hsr]]; cbn [levels inorder color_of length].
  - split; [apply Nat.le_0_l|apply le_n].
  - rewrite Hcl in Hl. rewrite Hcr in Hr. rewrite bool_decide_false in Hl, Hr by done. rewrite bool_decide_true by done. rewrite length_app. cbn [length]. lia.
  - rewrite (bool_decide_false (Black = Red)) by done. rewrite length_app, Nat.pow_succ_r'. cbn [length].
    destruct (bool_decide (color_of l = Red)), (bool_decide (color_of r = Red)); lia.
Qed.

Lemma valid_levels t : rb_valid t -> levels t <= 2 * Nat.log2 (S (length (inorder t))).
Proof.
  intros [[n Hb] Hc]. destruct (bal_levels n t Hb) as [H1 H2]. unfold redb in H1. rewrite Hc, bool_decide_false in H1 by done.
  assert (n <= Nat.log2 (S (length (inorder t)))) by (apply Nat.log2_le_pow2; lia). lia.
Qed.

(** ** The contract *)

(** An in-order walk from [getRoot()], as a client would write it. *)
Fixpoint walk (fuel : nat) s node : outcome (list T) :=
  match fuel with
  | O => NoFuel
  | S fuel =>
    match node with
    | None => Ret []
    | Some _ =>
      l ← getLeft s node; xs ← walk fuel s l; x ← getData s node; r ← getRight s node; ys ← walk fuel s r; Ret (xs ++ x :: ys)
    end
  end.

Lemma walk_ok : forall t k s fuel, rep s k t -> levels t < fuel -> walk fuel s (ptr t) = Ret (inorder t).
Proof.
  induction t as [|a c l IHl x r IHr]; intros k s fuel Hr Hf; (destruct fuel as [|fuel]; [lia|]); [done|]. cbn [walk ptr levels] in *.
  rewrite (getChild_ok _ SLeft _ _ _ _ _ _ Hr : getLeft _ _ = _). ret_step.
  rewrite (IHl _ _ fuel (go_down _ SLeft _ _ _ _ _ _ Hr)) by lia. ret_step. rewrite (getData_ok _ SLeft _ _ _ _ _ _ Hr). ret_step.
  rewrite (getChild_opp_ok _ SLeft _ _ _ _ _ _ Hr : getRight _ _ = _). ret_step.
  rewrite (IHr _ _ fuel (go_down_opp _ SLeft _ _ _ _ _ _ Hr)) by lia. done.
Qed.

Inductive rb_op := RbInsert value | RbRemove value | RbWalk.

Definition rb_step s (o : rb_op) : outcome (RedBlackTree * obs T) :=
  match o with
  | RbInsert value => s ← insert s value; Ret (s, ODone)
  | RbRemove value => s ← remove s value; Ret (s, ODone)
  | RbWalk => xs ← walk (enough s) s (getRoot s); Ret (s, OSeq xs)
  end.

Definition rb_spec (l : list T) (o : rb_op) : outcome (list T * obs T) :=
  match o with
  | RbInsert value => Ret (insert_sorted value l, ODone)
  | RbRemove value => Ret (remove_one value l, ODone)
  | RbWalk => Ret (l, OSeq l)
  end.

Definition holds_sorted s (l : list T) : Prop := exists t, is_tree s t /\ inorder t = l.

Lemma levels_nodes t : levels t <= length (inorder t).
Proof. induction t as [|a c l IHl x r IHr]; [done|]. cbn [levels inorder]. rewrite length_app. cbn [length]. lia. Qed.

#[local] Instance rb_simulates : Simulates rb_step rb_spec holds_sorted.
Proof.
  intros s l o (t & Ht & <-). destruct o as [value|value|]; cbn [rb_step rb_spec].
  - destruct (insert_ok s t value Ht) as (s' & t' & -> & Ht' & Hin). exists s'. split; [done|]. by exists t'.
  - destruct (remove_ok s t value Ht) as (s' & t' & -> & Ht' & Hin). exists s'. split; [done|]. by exists t'.
  - pose proof Ht as (Hr & _ & _). unfold getRoot. rewrite <- (root_eq _ _ Hr). pose proof (levels_nodes t). pose proof (rep_nodes _ _ _ Hr).
    rewrite (walk_ok _ _ _ _ Hr) by lia. exists s. split; [done|]. by exists t.
Qed.

Lemma new_is_tree : holds_sorted rbt_new [].
Proof.
  exists E. split; [|done]. split_and!; [|split; [by exists 0; constructor|done]|constructor]. split; [|done].
  split; [constructor|]. by intros a n ?%elem_of_nil.
Qed.

(** C11: Every sequence of insertions, removals and walks is defined, its loops end,
    and the walks see the sorted sequence of the elements inserted and not removed,
    equal ones included. *)
Theorem red_black_refines ops :
  exists s xs os, trace rb_spec [] ops = Ret (xs, os) /\ trace rb_step rbt_new ops = Ret (s, os) /\ ordered xs.
Proof.
  destruct (trace_refines_total (R := holds_sorted) (step := rb_step) (spec := rb_spec) ops rbt_new []) as (s & l & os & H1 & H2 & H3);
    [by intros l []|apply new_is_tree|].
  exists s, l, os. split_and!; [done|done|]. destruct H3 as (t & (_ & _ & Ho) & <-). done.
Qed.

(** C10: Whatever the operations so far, the store holds a tree in which every child
    points back to its parent, the elements are in order, the root is black, no red
    node has a red child and all paths have as many black nodes; so it has at most
    [2 * log2 (n + 1)] levels. *)
Theorem red_black_well_formed ops s os :
  trace rb_step rbt_new ops = Ret (s, os) ->
  exists t, rep s [] t /\ ordered (inorder t) /\ color_of t = Black /\ (exists n, bal n t) /\
    levels t <= 2 * Nat.log2 (S (length (inorder t))).
Proof.
  intros Ht. destruct (trace_refines_total (R := holds_sorted) (step := rb_step) (spec := rb_spec) ops rbt_new []) as (s' & l & os' & _ & H2 & H3);
    [by intros l []|apply new_is_tree|].
  assert (s' = s) as -> by congruence. destruct H3 as (t & (Hr & Hv & Ho) & _). exists t.
  split_and!; [done|done|apply Hv|apply Hv|by apply valid_levels].
Qed.

End red_black.

Section red_black_witnesses.

#[local] Definition bump (h : gmap nat (RedBlackTreeNode (T := nat))) : nat := fresh (dom h : gset nat).

Lemma bump_unused h : h !! bump h = None.
Proof. apply (not_elem_of_dom (D := gset nat)). unfold bump. apply (is_fresh (C := gset nat) (dom h)). Qed.

Lemma nat_eqb_law (x y : nat) : Nat.eqb x y = true <-> x = y.
Proof. apply Nat.eqb_eq. Qed.

#[local] Definition sample_ops : list (rb_op (T := nat)) :=
  (RbInsert <$> [4; 2; 7; 1; 9; 3; 8; 5; 6; 4]) ++ [RbWalk; RbRemove 2; RbRemove 4; RbRemove 10; RbRemove 9; RbWalk].

Lemma red_black_refines_witness :
  exists s os, trace (rb_step Nat.ltb Nat.eqb bump) rbt_new sample_ops = Ret (s, os) /\
    drop 10 os = [inl (OSeq [1; 2; 3; 4; 4; 5; 6; 7; 8; 9]); inl ODone; inl ODone; inl ODone; inl ODone; inl (OSeq [1; 3; 4; 5; 6; 7; 8])].
Proof.
  destruct (red_black_refines Nat.ltb Nat.eqb bump nat_eqb_law bump_unused sample_ops) as (s & l & os & H1 & H2 & _).
  exists s, os. split; [exact H2|]. vm_compute in H1. injection H1 as _ <-. reflexivity.
Defined.

Lemma red_black_well_formed_witness :
  exists s os (t : rb (T := nat)), trace (rb_step Nat.ltb Nat.eqb bump) rbt_new sample_ops = Ret (s, os) /\ color_of t = Black /\
    root_ s = ptr t /\ levels t <= 2 * Nat.log2 (S (length (inorder t))).
Proof.
  destruct (trace (rb_step Nat.ltb Nat.eqb bump) rbt_new sample_ops) as [[s os]|e| |] eqn:E; [|vm_compute in E; discriminate..].
  destruct (red_black_well_formed Nat.ltb Nat.eqb bump nat_eqb_law bump_unused sample_ops s os E) as (t & [_ Hr] & _ & Hc & _ & Hl).
  exists s, os, t. split; [reflexivity|]. split; [exact Hc|]. split; [exact Hr|exact Hl].
Defined.
End red_black_witnesses.
