(* ===== verification/PersistentVector.v ===== *)
(** * Persistent vector ([data_structure/persistent/PersistentVector.hpp])

    An immutable vector: a radix tree of full leaves of 32 elements and a tail of at
    most 32.  The nodes are never changed once they are built, so that sharing them
    between versions cannot be observed, and they are values here.  No object is ever constructed in the slots of an
    inner node beyond [count_], and [pushLeaf] reads one when a subtree of more than one level is full: what this gives is the
    parameter [raw_slot].  C++ leaves it undefined; the storage is zeroed, and where zero bytes read as a null pointer it is
    [Ret None].  An index and a size are natural numbers: a vector of 2^64 elements does not fit
    into memory.

    The loops go down the levels of the tree; the shift plus one is enough fuel. *)

From S2P Require Import Prelude Refinement.

#[local] Set Warnings "-register-all".

Section persistent_vector.
Context {T : Type}.

Definition BRANCH_BITS : nat := 5.
Definition BRANCH_SIZE : nat := Nat.shiftl 1 BRANCH_BITS.
Definition BRANCH_MASK : nat := BRANCH_SIZE - 1.

(** A leaf with its values; an inner node with [count_] and its 32 slots. *)
Inductive Node :=
| Leaf (values : list T)
| Internal (count_ : nat) (children : list (option Node)).

(** Reading a slot in which no pointer was constructed. *)
Context (raw_slot : outcome (option Node)).

Record PersistentVector := mkPV {
  root_ : option Node;
  tail_ : Node;
  size_ : nat;
  shift_ : nat;
}.

Implicit Types (v : PersistentVector) (node leaf root : Node) (x : T) (index idx shift level : nat).

Definition values node : outcome (list T) := match node with Leaf xs => Ret xs | Internal _ _ => Undef end.

(** [node->children()\[i\]], which may be null. *)
Definition child node (i : nat) : outcome (option Node) :=
  match node with Leaf _ => Undef | Internal _ cs => vget cs i end.

(** Following a pointer. *)
Definition deref (p : option Node) : outcome Node := match p with Some node => Ret node | None => Undef end.

Definition tailOffset (sz : nat) : nat := if decide (sz = 0) then 0 else (sz - 1) / BRANCH_SIZE * BRANCH_SIZE.
Definition childIdx idx shift : nat := Nat.land (Nat.shiftr idx shift) BRANCH_MASK.
Definition leafIdx index : nat := Nat.land index BRANCH_MASK.

Definition emptyTail : Node := Leaf [].
Definition pv_new : PersistentVector := mkPV None emptyTail 0 0.

Definition size v : nat := size_ v.
Definition empty v : bool := bool_decide (size_ v = 0).

(** ** Element access *)
Fixpoint get_loop (fuel : nat) node level index : outcome T :=
  match fuel with
  | O => NoFuel
  | S fuel =>
    if decide (0 < level) then
      p ← child node (childIdx index level); node ← deref p; get_loop fuel node (level - BRANCH_BITS) index
    else xs ← values node; vget xs (leafIdx index)
  end.

Definition doGet v index : outcome T := node ← deref (root_ v); get_loop (S (shift_ v)) node (shift_ v) index.

Definition get v index : outcome T :=
  if decide (size_ v <= index) then Throw out_of_range
  else if decide (tailOffset (size_ v) <= index) then xs ← values (tail_ v); vget xs (leafIdx index)
  else doGet v index.

Definition front v : outcome T := if decide (size_ v = 0) then Throw out_of_range else get v 0.
Definition back v : outcome T := if decide (size_ v = 0) then Throw out_of_range else get v (size_ v - 1).

(** [for (const auto& elem : v)]: the iterator holds an index and reads with [get]. *)
Fixpoint walk (n : nat) v (i : nat) : outcome (list T) :=
  match n with
  | O => Ret []
  | S n => x ← get v i; xs ← walk n v (S i); Ret (x :: xs)
  end.

(** ** [push_back] *)

(** A fresh inner node: 32 null slots. *)
Definition no_children : list (option Node) := replicate BRANCH_SIZE None.

(** The first [n] slots copied into a fresh node. *)
Definition copy_children (cs : list (option Node)) (n : nat) : list (option Node) := take n cs ++ replicate (BRANCH_SIZE - n) None.

Fixpoint newPath (fuel : nat) leaf shift idx : outcome Node :=
  match fuel with
  | O => NoFuel
  | S fuel =>
    if decide (shift = 0) then Ret leaf else
    c ← newPath fuel leaf (shift - BRANCH_BITS) idx;
    cs ← vset no_children (childIdx idx shift) (Some c);
    Ret (Internal 1 cs)
  end.

Fixpoint pushLeaf (fuel : nat) root shift leaf idx : outcome Node :=
  match fuel with
  | O => NoFuel
  | S fuel =>
    match root with
    | Leaf _ => Undef
    | Internal count cs =>
      let dest := copy_children cs count in
      c ← (if decide (shift = BRANCH_BITS) then Ret leaf
           else
             existing ← (if decide (childIdx idx shift < count) then vget cs (childIdx idx shift) else raw_slot);
             match existing with
             | Some e => pushLeaf fuel e (shift - BRANCH_BITS) leaf idx
             | None => newPath fuel leaf (shift - BRANCH_BITS) idx
             end);
      dest ← vset dest (childIdx idx shift) (Some c);
      Ret (Internal (if decide (count <= childIdx idx shift) then childIdx idx shift + 1 else count) dest)
    end
  end.

(** New levels on top until the index fits. *)
Fixpoint elevate (fuel : nat) root shift idx : outcome (Node * nat) :=
  match fuel with
  | O => NoFuel
  | S fuel =>
    if decide (BRANCH_SIZE <= Nat.shiftr idx shift) then
      cs ← vset no_children 0 (Some root); elevate fuel (Internal 1 cs) (shift + BRANCH_BITS) idx
    else Ret (root, shift)
  end.

Definition push_back v x : outcome PersistentVector :=
  xs ← values (tail_ v);
  if decide (length xs < BRANCH_SIZE) then Ret (mkPV (root_ v) (Leaf (xs ++ [x])) (size_ v + 1) (shift_ v))
  else
    let idx := tailOffset (size_ v) in
    '(root, shift) ← (match root_ v with
      | None => node ← newPath (S BRANCH_BITS) (Leaf (take BRANCH_SIZE xs)) BRANCH_BITS idx; Ret (node, BRANCH_BITS)
      | Some node =>
        '(node, shift) ← elevate (S idx) node (shift_ v) idx;
        node ← pushLeaf (S shift) node shift (Leaf (take BRANCH_SIZE xs)) idx;
        Ret (node, shift)
      end);
    Ret (mkPV (Some root) (Leaf [x]) (size_ v + 1) shift).

(** ** [update] *)
Fixpoint doUpdate (fuel : nat) node level index x : outcome Node :=
  match fuel with
  | O => NoFuel
  | S fuel =>
    match node with
    | Leaf xs => Ret (Leaf (<[leafIdx index := x]> xs))
    | Internal count cs =>
      if decide (childIdx index level < count) then
        p ← vget cs (childIdx index level);
        c ← deref p;
        c ← doUpdate fuel c (level - BRANCH_BITS) index x;
        dest ← vset (copy_children cs count) (childIdx index level) (Some c);
        Ret (Internal count dest)
      else Ret (Internal count (copy_children cs count))
    end
  end.

Definition update v index x : outcome PersistentVector :=
  if decide (size_ v <= index) then Throw out_of_range
  else if decide (tailOffset (size_ v) <= index) then
    xs ← values (tail_ v); Ret (mkPV (root_ v) (Leaf (<[leafIdx index := x]> xs)) (size_ v) (shift_ v))
  else
    node ← deref (root_ v);
    node ← doUpdate (S (shift_ v)) node (shift_ v) index x;
    Ret (mkPV (Some node) (tail_ v) (size_ v) (shift_ v)).

(** ** [pop_back] *)

(** The node without its last leaf, null if nothing is left, and that leaf. *)
Fixpoint doPopBack (fuel : nat) node : outcome (option Node * Node) :=
  match fuel with
  | O => NoFuel
  | S fuel =>
    match node with
    | Leaf _ => Ret (None, node)
    | Internal count cs =>
      if decide (count = 0) then Undef else
      let lastIdx := count - 1 in
      p ← vget cs lastIdx;
      c ← deref p;
      '(newChild, popped) ← doPopBack fuel c;
      match newChild with
      | None =>
        if decide (lastIdx = 0) then Ret (None, popped)
        else Ret (Some (Internal lastIdx (copy_children cs lastIdx)), popped)
      | Some c => dest ← vset (copy_children cs count) lastIdx (Some c); Ret (Some (Internal count dest), popped)
      end
    end
  end.

(** Inner nodes with a single child are dropped from the top. *)
Fixpoint collapse (fuel : nat) (root : option Node) shift : outcome (option Node * nat) :=
  match fuel with
  | O => NoFuel
  | S fuel =>
    match root with
    | Some (Internal 1 cs) =>
      if decide (BRANCH_BITS < shift) then c ← vget cs 0; collapse fuel c (shift - BRANCH_BITS) else Ret (root, shift)
    | _ => Ret (root, shift)
    end
  end.

Definition count_of node : nat := match node with Leaf xs => length xs | Internal count _ => count end.

Definition pop_back v : outcome PersistentVector :=
  if decide (size_ v = 0) then Throw out_of_range else
  xs ← values (tail_ v);
  if decide (1 < length xs) then Ret (mkPV (root_ v) (Leaf (take (length xs - 1) xs)) (size_ v - 1) (shift_ v))
  else if decide (size_ v = 1) then Ret pv_new
  else
    node ← deref (root_ v);
    '(root, popped) ← doPopBack (S (shift_ v)) node;
    '(root, shift) ← collapse (S (shift_ v)) root (shift_ v);
    match root with
    | Some node => if decide (count_of node = 0) then Ret (mkPV None popped (size_ v - 1) 0) else Ret (mkPV root popped (size_ v - 1) shift)
    | None => Ret (mkPV None popped (size_ v - 1) 0)
    end.

(** ** Bulk operations: loops of [push_back] *)
Fixpoint push_all v (xs : list T) : outcome PersistentVector :=
  match xs with [] => Ret v | x :: xs => v ← push_back v x; push_all v xs end.

Definition of_list (init : list T) : outcome PersistentVector := push_all pv_new init.

(** [for (i = first; i < first + n; ++i) result = result.push_back(other.get(i))] *)
Fixpoint append_loop (n : nat) (result other : PersistentVector) (i : nat) : outcome PersistentVector :=
  match n with
  | O => Ret result
  | S n => x ← get other i; result ← push_back result x; append_loop n result other (S i)
  end.

Definition sub_vector v (first last : nat) : outcome PersistentVector :=
  if decide (last < first \/ size_ v < last) then Throw out_of_range
  else append_loop (last - first) pv_new v first.

Definition concat v (other : PersistentVector) : outcome PersistentVector :=
  append_loop (size_ other) v other 0.

(** What is left of a vector that was moved from. *)
Definition move v : PersistentVector * PersistentVector := (v, mkPV None emptyTail 0 0).
(** ** Positions in a sequence of blocks

    All blocks but the last have [c] elements. *)
Section blocks.
Context {A : Type}.
Implicit Types (lss : list (list A)) (l : list A).

Definition blocks (c : nat) lss : Prop := forall i l, lss !! i = Some l -> length l <= c /\ (S i < length lss -> length l = c).

Lemma mjoin_cons l lss : mjoin (l :: lss) = l ++ mjoin lss.
Proof. done. Qed.

Lemma blocks_nil c : blocks c [].
Proof. intros i l Hl. by rewrite lookup_nil in Hl. Qed.

Lemma blocks_cons c l lss : blocks c (l :: lss) <-> length l <= c /\ (lss <> [] -> length l = c) /\ blocks c lss.
Proof.
  split.
  - intros H. destruct (H 0 l eq_refl) as [H1 H2]. cbn in H2. split_and!; [done| |].
    + intros Hne. apply H2. destruct lss; [done|cbn; lia].
    + intros i l' Hl'. destruct (H (S i) l' Hl') as [H3 H4]. cbn in H4. split; [done|]. intros. apply H4. lia.
  - intros (H1 & H2 & H3) [|i] l' Hl'; cbn in Hl'.
    + injection Hl' as <-. split; [done|]. cbn. intros. apply H2. intros ->. cbn in *. lia.
    + destruct (H3 i l' Hl') as [H4 H5]. split; [done|]. cbn. intros. apply H5. lia.
Qed.

Lemma length_blocks_lt c lss : blocks c lss -> length (mjoin lss) <= c * length lss.
Proof.
  induction lss as [|l lss IH]; intros H; [cbn; lia|]. apply blocks_cons in H as (H1 & _ & H3).
  specialize (IH H3). rewrite mjoin_cons, length_app. cbn [length]. rewrite Nat.mul_succ_r. lia.
Qed.

Lemma next_block c i : 0 < c -> c <= i -> i / c = S ((i - c) / c) /\ i mod c = (i - c) mod c.
Proof.
  intros Hc Hi. assert (i = (i - c) + 1 * c) as E by lia. rewrite E at 1 3. rewrite Nat.div_add, Nat.Div0.mod_add by lia. split; [lia|done].
Qed.

Lemma blocks_lookup c lss : 0 < c -> blocks c lss -> forall i, mjoin lss !! i = l ← lss !! (i / c); l !! (i mod c).
Proof.
  intros Hc. induction lss as [|l lss IH]; intros H i; [done|]. rewrite mjoin_cons. apply blocks_cons in H as (H1 & H2 & H3).
  destruct (decide (i < c)) as [Hlt|Hge].
  - rewrite Nat.div_small, Nat.mod_small by done. cbn. destruct (decide (i < length l)); [by rewrite lookup_app_l|].
    rewrite lookup_app_r, (lookup_ge_None_2 l) by lia. apply lookup_ge_None_2. destruct lss as [|l' lss]; [cbn; lia|]. specialize (H2 ltac:(done)). lia.
  - destruct (next_block c i) as [-> ->]; [done|lia|]. change ((l :: lss) !! S ((i - c) / c)) with (lss !! ((i - c) / c)).
    rewrite <- (IH H3). destruct lss as [|l' lss].
    + cbn. rewrite app_nil_r. apply lookup_ge_None_2. lia.
    + rewrite lookup_app_r by (specialize (H2 ltac:(done)); lia). f_equal. by rewrite (H2 ltac:(done)).
Qed.

Lemma blocks_insert c lss i l (x : A) : 0 < c -> blocks c lss -> i < length (mjoin lss) -> lss !! (i / c) = Some l ->
  mjoin (<[i / c := <[i mod c := x]> l]> lss) = <[i := x]> (mjoin lss).
Proof.
  intros Hc. revert i. induction lss as [|l' lss IH]; intros i H Hi Hl; [by rewrite lookup_nil in Hl|]. rewrite mjoin_cons in *.
  apply blocks_cons in H as (H1 & H2 & H3). destruct (decide (i < c)) as [Hlt|Hge].
  - rewrite Nat.div_small, Nat.mod_small in * by done. cbn in Hl. injection Hl as <-. cbn.
    assert (i < length l') by (destruct lss as [|]; [cbn in Hi; rewrite app_nil_r in Hi; done|specialize (H2 ltac:(done)); lia]).
    by rewrite insert_app_l.
  - assert (lss <> []) as Hne by (intros ->; cbn in Hi; rewrite app_nil_r in Hi; lia). specialize (H2 Hne).
    destruct (next_block c i) as [E1 E2]; [done|lia|]. rewrite E1, E2 in *.
    change ((l' :: lss) !! S ((i - c) / c)) with (lss !! ((i - c) / c)) in Hl.
    change (<[S ((i - c) / c) := ?y]> (l' :: lss)) with (l' :: <[(i - c) / c := y]> lss). rewrite mjoin_cons, IH; [|done|rewrite length_app in Hi; lia|done].
    replace i with (length l' + (i - c)) at 2 by lia. by rewrite insert_app_r.
Qed.

Lemma mjoin_snoc lss l : mjoin (lss ++ [l]) = mjoin lss ++ l.
Proof.
  induction lss as [|l' lss IH]; [cbn; by rewrite app_nil_r|]. change ((l' :: lss) ++ [l]) with (l' :: (lss ++ [l])). by rewrite !mjoin_cons, IH, app_assoc.
Qed.

Lemma blocks_snoc c lss l : blocks c (lss ++ [l]) <-> (forall l', l' ∈ lss -> length l' = c) /\ length l <= c.
Proof.
  split.
  - intros H. split.
    + intros l' [i Hi]%list_elem_of_lookup. apply (H i); [apply lookup_app_l_Some; done|]. apply lookup_lt_Some in Hi. rewrite length_app. cbn. lia.
    + apply (H (length lss)). by rewrite list_lookup_middle.
  - intros [H1 H2] i l' [Hl'|[Hi Hl']]%lookup_app_Some.
    + rewrite (H1 l'); [done|]. by eapply list_elem_of_lookup_2.
    + apply list_lookup_singleton_Some in Hl' as [Hi' <-]. split; [done|]. rewrite length_app. cbn. lia.
Qed.

Lemma length_full c lss : (forall l', l' ∈ lss -> length l' = c) -> length (mjoin lss) = length lss * c.
Proof.
  induction lss as [|l lss IH]; intros H; [done|]. rewrite mjoin_cons, length_app, IH, (H l); [cbn; lia|by left|]. intros l' Hl'. apply H. by right.
Qed.
End blocks.

(** ** Indices *)
Lemma childIdx_eq idx k : childIdx idx (5 * S k) = idx / 32 / 32 ^ k mod 32.
Proof.
  unfold childIdx. rewrite Nat.shiftr_div_pow2. change BRANCH_MASK with (Nat.ones 5). rewrite Nat.land_ones. f_equal.
  rewrite Nat.Div0.div_div. f_equal. rewrite (Nat.pow_mul_r 2 5). change (2 ^ 5) with 32. by rewrite Nat.pow_succ_r'.
Qed.

Lemma leafIdx_eq index : leafIdx index = index mod 32.
Proof. unfold leafIdx. change BRANCH_MASK with (Nat.ones 5). apply Nat.land_ones. Qed.

Lemma pow32_pos k : 0 < 32 ^ k.
Proof. apply Nat.neq_0_lt_0, Nat.pow_nonzero. lia. Qed.

(** The position among the leaves of a subtree of [k + 1] levels, split into the
    child and the position in it. *)
Lemma split_position j n k : j mod 32 ^ S k = n ->
  (j / 32 ^ k) mod 32 = n / 32 ^ k /\ j mod 32 ^ k = n mod 32 ^ k.
Proof.
  intros <-. pose proof (pow32_pos k). split.
  - rewrite Nat.pow_succ_r', (Nat.mul_comm 32), Nat.Div0.mod_mul_r. rewrite Nat.mul_comm, Nat.add_comm, Nat.div_add_l by lia.
    rewrite (Nat.div_small (j mod 32 ^ k)) by (apply Nat.mod_upper_bound; lia). lia.
  - rewrite Nat.pow_succ_r', (Nat.mul_comm 32), Nat.Div0.mod_mul_r. rewrite Nat.mul_comm, Nat.Div0.mod_add. by rewrite Nat.Div0.mod_mod.
Qed.

(** ** The radix tree

    [tree k ls node]: a tree with [k] levels above its leaves, which hold [ls]. *)
Definition slots (cs : list Node) : list (option Node) := (Some <$> cs) ++ replicate (32 - length cs) None.
Definition inner (cs : list Node) : Node := Internal (length cs) (slots cs).

Fixpoint tree (k : nat) (ls : list (list T)) node : Prop :=
  match k with
  | O => exists xs, ls = [xs] /\ node = Leaf xs /\ length xs = 32
  | S k => exists lss cs, ls = mjoin lss /\ node = inner cs /\ Forall2 (tree k) lss cs /\ blocks (32 ^ k) lss /\ 1 <= length cs <= 32
  end.

Lemma slots_lookup cs i c : cs !! i = Some c -> slots cs !! i = Some (Some c).
Proof. intros Hc. unfold slots. apply lookup_app_l_Some. by rewrite list_lookup_fmap, Hc. Qed.

Lemma slots_free cs : length cs < 32 -> slots cs !! length cs = Some None.
Proof.
  intros Hl. unfold slots. rewrite lookup_app_r by (rewrite length_fmap; lia). rewrite length_fmap, Nat.sub_diag.
  apply lookup_replicate_2. lia.
Qed.

Lemma length_slots cs : length cs <= 32 -> length (slots cs) = 32.
Proof. intros. unfold slots. rewrite length_app, length_fmap, length_replicate. lia. Qed.

Lemma slots_insert cs i c : i < length cs -> <[i := Some c]> (slots cs) = slots (<[i := c]> cs).
Proof. intros. unfold slots. rewrite insert_app_l by (by rewrite length_fmap). by rewrite list_fmap_insert, length_insert. Qed.

Lemma slots_snoc cs c : length cs < 32 -> <[length cs := Some c]> (slots cs) = slots (cs ++ [c]).
Proof.
  intros. unfold slots. replace (length cs) with (length (Some <$> cs) + 0) at 1 by (rewrite length_fmap; lia).
  rewrite insert_app_r, length_app, fmap_app, <- app_assoc. f_equal. cbn [length fmap list_fmap app].
  replace (32 - length cs) with (S (32 - (length cs + 1))) by lia. done.
Qed.

Lemma copy_slots cs n : n <= length cs -> copy_children (slots cs) n = slots (take n cs).
Proof.
  intros Hn. unfold copy_children, slots. change BRANCH_SIZE with 32.
  rewrite take_app_le by (rewrite length_fmap; lia). by rewrite fmap_take, length_take, Nat.min_l by lia.
Qed.

Lemma copy_all cs : copy_children (slots cs) (length cs) = slots cs.
Proof. rewrite copy_slots by lia. by rewrite take_ge by lia. Qed.

Lemma tree_length k : forall ls node, tree k ls node -> 1 <= length ls <= 32 ^ k.
Proof.
  induction k as [|k IH]; intros ls node; cbn [tree]; [by intros (xs & -> & _)|].
  intros (lss & cs & -> & _ & Hf & Hb & Hl). pose proof (Forall2_length _ _ _ Hf) as Hlen. split.
  - destruct lss as [|l lss]; [cbn in Hlen; lia|]. destruct cs as [|c cs]; [done|]. apply Forall2_cons in Hf as [Hc _].
    rewrite mjoin_cons, length_app. specialize (IH _ _ Hc). lia.
  - pose proof (length_blocks_lt _ _ Hb) as Hle. rewrite Nat.pow_succ_r'. pose proof (pow32_pos k). nia.
Qed.

(** The child an index leads to. *)
Lemma tree_child k lss cs index ls (leaf : list T) :
  ls = mjoin lss -> Forall2 (tree k) lss cs -> blocks (32 ^ k) lss -> ls !! (index / 32 mod 32 ^ S k) = Some leaf ->
  exists l c, lss !! childIdx index (5 * S k) = Some l /\ cs !! childIdx index (5 * S k) = Some c /\ tree k l c /\
    l !! (index / 32 mod 32 ^ k) = Some leaf /\ childIdx index (5 * S k) = index / 32 mod 32 ^ S k / 32 ^ k.
Proof.
  intros -> Hf Hb Hl. rewrite (blocks_lookup _ _ (pow32_pos k) Hb) in Hl.
  destruct (split_position (index / 32) _ k eq_refl) as [E1 E2]. rewrite <- E1, <- E2, <- childIdx_eq in Hl.
  destruct (lss !! childIdx index (5 * S k)) as [l|] eqn:El; [|done]. cbn in Hl.
  destruct (Forall2_lookup_l _ _ _ _ _ Hf El) as (c & Hc & Ht). exists l, c. rewrite childIdx_eq in *. done.
Qed.

Lemma level_pred k : 5 * S k - BRANCH_BITS = 5 * k.
Proof. unfold BRANCH_BITS. lia. Qed.

Lemma get_loop_ok k : forall ls node index (leaf : list T) fuel,
  tree k ls node -> ls !! (index / 32 mod 32 ^ k) = Some leaf -> 5 * k < fuel ->
  get_loop fuel node (5 * k) index = vget leaf (index mod 32).
Proof.
  induction k as [|k IH]; intros ls node index leaf fuel Ht Hl Hf; (destruct fuel as [|fuel]; [lia|]); cbn [get_loop].
  - destruct Ht as (xs & -> & -> & _). rewrite decide_False by lia. cbn [values]. ret_step. rewrite leafIdx_eq.
    rewrite Nat.pow_0_r, Nat.mod_1_r in Hl. by injection Hl as ->.
  - destruct Ht as (lss & cs & -> & -> & Hfa & Hb & Hcs). rewrite decide_True by lia.
    destruct (tree_child _ _ _ _ _ _ eq_refl Hfa Hb Hl) as (l & c & _ & Hc & Ht & Hl' & _). unfold inner. cbn [child].
    rewrite (vget_Some _ _ _ (slots_lookup _ _ _ Hc)). ret_step. cbn [deref]. ret_step. rewrite level_pred. apply (IH l); [done|done|lia].
Qed.

Lemma doUpdate_ok k : forall ls node index (leaf : list T) x fuel,
  tree k ls node -> ls !! (index / 32 mod 32 ^ k) = Some leaf -> 5 * k < fuel ->
  exists node', doUpdate fuel node (5 * k) index x = Ret node' /\
    tree k (<[index / 32 mod 32 ^ k := <[index mod 32 := x]> leaf]> ls) node'.
Proof.
  induction k as [|k IH]; intros ls node index leaf x fuel Ht Hl Hf; (destruct fuel as [|fuel]; [lia|]); cbn [doUpdate].
  - destruct Ht as (xs & -> & -> & Hx). rewrite leafIdx_eq. rewrite Nat.pow_0_r, Nat.mod_1_r in *. injection Hl as ->.
    eexists. split; [done|]. exists (<[index mod 32 := x]> leaf). by rewrite length_insert.
  - destruct Ht as (lss & cs & -> & -> & Hfa & Hb & Hcs). unfold inner at 1.
    destruct (tree_child _ _ _ _ _ _ eq_refl Hfa Hb Hl) as (l & c & Hl1 & Hc & Ht & Hl' & Hidx).
    pose proof (lookup_lt_Some _ _ _ Hc) as Hlt. rewrite decide_True by done.
    rewrite (vget_Some _ _ _ (slots_lookup _ _ _ Hc)). ret_step. cbn [deref]. ret_step. rewrite level_pred.
    destruct (IH _ _ index leaf x fuel Ht Hl') as (c' & -> & Ht'); [lia|]. ret_step. rewrite copy_all, vset_lt by (rewrite length_slots; lia).
    ret_step. rewrite slots_insert by done. eexists. split; [done|].
    set (l' := <[index / 32 mod 32 ^ k := <[index mod 32 := x]> leaf]> l) in *. set (i := childIdx index (5 * S k)) in *.
    exists (<[i := l']> lss), (<[i := c']> cs). split_and!.
    + destruct (split_position (index / 32) _ k eq_refl) as [_ E2]. subst l'. rewrite Hidx, E2.
      symmetry. apply blocks_insert; [apply pow32_pos|done|by eapply lookup_lt_Some|by rewrite <- Hidx].
    + unfold inner. by rewrite length_insert.
    + by apply Forall2_insert.
    + intros j lj Hj. rewrite length_insert. apply list_lookup_insert_Some in Hj as [(-> & <- & _)|[_ Hj]]; [|by apply Hb].
      subst l'. rewrite !length_insert. exact (Hb j l Hl1).
    + rewrite length_insert. lia.
    + rewrite length_insert. lia.
Qed.

(** *** A new leaf *)
Lemma newPath_ok k : forall (leaf : list T) idx fuel, length leaf = 32 -> idx / 32 mod 32 ^ k = 0 -> 5 * k < fuel ->
  exists node, newPath fuel (Leaf leaf) (5 * k) idx = Ret node /\ tree k [leaf] node.
Proof.
  induction k as [|k IH]; intros leaf idx fuel Hl Hidx Hf; (destruct fuel as [|fuel]; [lia|]); cbn [newPath].
  - rewrite decide_True by lia. eexists. split; [done|]. by exists leaf.
  - rewrite decide_False by lia. rewrite level_pred. destruct (split_position (idx / 32) 0 k Hidx) as [E1 E2].
    pose proof (pow32_pos k). rewrite Nat.Div0.div_0_l in E1. rewrite Nat.Div0.mod_0_l in E2.
    destruct (IH leaf idx fuel Hl E2) as (c & -> & Ht); [lia|]. ret_step. rewrite childIdx_eq, E1.
    rewrite vset_lt by (vm_compute; lia). ret_step. eexists. split; [done|]. exists [[leaf]], [c].
    split_and!; [done|done|by constructor| |cbn; lia|cbn; lia]. apply (blocks_snoc _ [] [leaf]). split; [by intros ? ?%elem_of_nil|cbn; lia].
Qed.

(** The subtree with the last leaf, and how many leaves there are. *)
Lemma tree_last k ls node : tree (S k) ls node ->
  exists lss cs l c, ls = mjoin lss ++ l /\ node = inner (cs ++ [c]) /\ Forall2 (tree k) lss cs /\ tree k l c /\
    (forall l', l' ∈ lss -> length l' = 32 ^ k) /\ length cs < 32 /\ length lss = length cs /\ length ls = length cs * 32 ^ k + length l.
Proof.
  intros (lss & cs & -> & -> & Hf & Hb & Hcs). pose proof (Forall2_length _ _ _ Hf) as Hlen.
  destruct lss as [|l lss _] using rev_ind; [cbn in Hlen; lia|].
  apply Forall2_app_inv_l in Hf as (cs1 & cs2 & Hf & Hl & ->). apply Forall2_cons_inv_l in Hl as (c & cs3 & Hc & Hn & ->). apply Forall2_nil_inv_l in Hn as ->.
  apply blocks_snoc in Hb as [Hfull Hle]. rewrite mjoin_snoc. rewrite length_app in Hcs. cbn [length] in Hcs. pose proof (Forall2_length _ _ _ Hf) as Hlen'.
  exists lss, cs1, l, c. split_and!; [done|done|done|done|done|lia|done|]. by rewrite length_app, (length_full _ _ Hfull), Hlen'.
Qed.

Lemma tree_snoc k lss cs l c : Forall2 (tree k) lss cs -> tree k l c -> (forall l', l' ∈ lss -> length l' = 32 ^ k) -> length cs < 32 ->
  tree (S k) (mjoin lss ++ l) (inner (cs ++ [c])).
Proof.
  intros Hf Ht Hfull Hl. exists (lss ++ [l]), (cs ++ [c]). split_and!; [symmetry; apply mjoin_snoc|done| | |rewrite length_app; cbn; lia|rewrite length_app; cbn; lia].
  - apply Forall2_app; [done|by constructor].
  - apply blocks_snoc. split; [done|]. apply tree_length in Ht. lia.
Qed.

(** Where the leaf number [length ls] of a tree goes: into the last child if that is
    not full, else next to it. *)
Lemma push_position k n m idx : idx / 32 mod 32 ^ S k = n * 32 ^ k + m -> m <= 32 ^ k -> n < 32 ->
  (m < 32 ^ k /\ childIdx idx (5 * S k) = n /\ idx / 32 mod 32 ^ k = m) \/
  (m = 32 ^ k /\ childIdx idx (5 * S k) = S n /\ idx / 32 mod 32 ^ k = 0 /\ S n < 32).
Proof.
  intros Hidx Hm Hn. pose proof (pow32_pos k) as Hpos. destruct (split_position _ _ k Hidx) as [E1 E2]. rewrite childIdx_eq, E1, E2.
  assert (n * 32 ^ k + m < 32 * 32 ^ k) as Hlt.
  { rewrite <- Hidx, <- Nat.pow_succ_r'. apply Nat.mod_upper_bound. pose proof (pow32_pos (S k)). lia. }
  destruct (decide (m < 32 ^ k)) as [Hlt'|Hge]; [left|right].
  - rewrite Nat.div_add_l, (Nat.div_small m) by lia. rewrite (Nat.add_comm _ m), Nat.Div0.mod_add, Nat.mod_small by lia. lia.
  - assert (m = 32 ^ k) as -> by lia. replace (n * 32 ^ k + 32 ^ k) with (S n * 32 ^ k) in * by lia.
    rewrite Nat.div_mul, Nat.Div0.mod_mul by lia. split_and!; [done..|]. nia.
Qed.

Lemma pushLeaf_ok k : forall ls node (leaf : list T) idx fuel,
  tree (S k) ls node -> length leaf = 32 -> idx / 32 mod 32 ^ S k = length ls -> 5 * S k < fuel -> raw_slot = Ret None \/ length ls < 32 ->
  exists node', pushLeaf fuel node (5 * S k) (Leaf leaf) idx = Ret node' /\ tree (S k) (ls ++ [leaf]) node'.
Proof.
  induction k as [|k IH]; intros ls node leaf idx fuel Ht Hlf Hidx Hf Hraw; (destruct fuel as [|fuel]; [lia|]);
    destruct (tree_last _ _ _ Ht) as (lss & cs & l & c & -> & -> & Hfa & Hc & Hfull & Hcs & Hlen & Hll); rewrite Hll in Hidx, Hraw;
    pose proof (tree_length _ _ _ Hc) as Hl; cbn [pushLeaf]; unfold inner at 1; cbv zeta; rewrite copy_all;
    (destruct (push_position _ _ _ _ Hidx) as [(Hlt & -> & Hm)|(Heq & -> & Hm & Hcs')]; [lia|done|..]).
  - rewrite Nat.pow_0_r in Hlt. lia.
  - rewrite (decide_True (P := 5 * 1 = BRANCH_BITS)) by (unfold BRANCH_BITS; lia). ret_step. assert (S (length cs) = length (cs ++ [c])) as E by (rewrite length_app; cbn; lia). rewrite E.
    rewrite vset_lt by (rewrite length_slots; lia). ret_step. rewrite slots_snoc, decide_True by lia. eexists. split; [done|].
    rewrite <- mjoin_snoc. replace (length (cs ++ [c]) + 1) with (length ((cs ++ [c]) ++ [Leaf leaf])) by (rewrite (length_app (cs ++ [c])); cbn; lia).
    apply tree_snoc; [apply Forall2_app; [done|by constructor]|by exists leaf| |lia].
    intros l' [?| ->%list_elem_of_singleton]%elem_of_app; [by apply Hfull|done].
  - rewrite (decide_False (P := 5 * S (S k) = BRANCH_BITS)) by (unfold BRANCH_BITS; lia).
    rewrite (decide_True (P := length cs < length (cs ++ [c]))) by (rewrite length_app; cbn; lia). rewrite (vget_Some _ _ _ (slots_lookup _ _ c (list_lookup_middle cs [] c _ eq_refl))). ret_step. rewrite level_pred.
    destruct (IH _ _ leaf idx fuel Hc Hlf Hm) as (c' & -> & Hc'); [lia|destruct Hraw; [by left|right; lia]|]. ret_step.
    rewrite vset_lt by (rewrite length_slots by (rewrite length_app; cbn; lia); lia). ret_step. rewrite slots_insert by (rewrite length_app; cbn; lia).
    rewrite decide_False by (rewrite length_app; cbn; lia). eexists. split; [done|].
    replace (<[length cs := c']> (cs ++ [c])) with (cs ++ [c']) by (rewrite insert_app_r_alt, Nat.sub_diag by lia; done).
    rewrite <- app_assoc. replace (length (cs ++ [c])) with (length (cs ++ [c'])) by (by rewrite !length_app). by apply tree_snoc.
  - rewrite (decide_False (P := 5 * S (S k) = BRANCH_BITS)) by (unfold BRANCH_BITS; lia). assert (S (length cs) = length (cs ++ [c])) as E by (rewrite length_app; cbn; lia). rewrite E.
    rewrite (decide_False (P := length (cs ++ [c]) < length (cs ++ [c]))) by lia. assert (raw_slot = Ret None) as -> by (destruct Hraw as [?|Hlt]; [done|]; rewrite Heq, Nat.pow_succ_r' in Hlt; pose proof (pow32_pos k); lia). ret_step. rewrite level_pred.
    destruct (newPath_ok (S k) leaf idx fuel Hlf Hm) as (c' & -> & Hc'); [lia|]. ret_step.
    rewrite vset_lt by (rewrite length_slots; lia). ret_step. rewrite slots_snoc, decide_True by lia. eexists. split; [done|].
    rewrite <- mjoin_snoc. replace (length (cs ++ [c]) + 1) with (length ((cs ++ [c]) ++ [c'])) by (rewrite (length_app (cs ++ [c])); cbn; lia).
    apply tree_snoc; [apply Forall2_app; [done|by constructor]|done| |lia].
    intros l' [?| ->%list_elem_of_singleton]%elem_of_app; [by apply Hfull|done].
Qed.

(** *** Growing and shrinking at the top *)
Lemma tree_leaves k : forall ls node (leaf : list T), tree k ls node -> leaf ∈ ls -> length leaf = 32.
Proof.
  induction k as [|k IH]; intros ls node leaf.
  - intros (xs & -> & _ & Hl) ->%list_elem_of_singleton. done.
  - intros (lss & cs & -> & _ & Hf & _) (l & Hin & [i Hi]%list_elem_of_lookup)%list_elem_of_join.
    destruct (Forall2_lookup_l _ _ _ _ _ Hf Hi) as (c & _ & Hc). by apply (IH _ _ _ Hc).
Qed.

Lemma tree_elevate k ls node : tree k ls node -> tree (S k) ls (inner [node]).
Proof. intros Ht. pose proof (tree_snoc k [] [] ls node) as H. apply H; [by constructor|done|by intros ? ?%elem_of_nil|cbn; lia]. Qed.

Lemma elevate_ok k ls node fuel :
  tree (S k) ls node -> length ls < fuel ->
  exists k' node', elevate fuel node (5 * S k) (length ls * 32) = Ret (node', 5 * S k') /\ tree (S k') ls node' /\ length ls < 32 ^ S k'.
Proof.
  intros Ht Hf. pose proof (tree_length _ _ _ Ht) as [H1 H2]. pose proof (pow32_pos k) as Hpos.
  assert (forall k0, Nat.shiftr (length ls * 32) (5 * S k0) = length ls / 32 ^ k0) as Hsh.
  { intros k0. rewrite Nat.shiftr_div_pow2, (Nat.pow_mul_r 2 5). change (2 ^ 5) with 32. rewrite Nat.pow_succ_r'.
    rewrite <- Nat.Div0.div_div. by rewrite Nat.div_mul. }
  destruct fuel as [|[|fuel]]; [lia|lia|]. cbn [elevate]. change BRANCH_SIZE with 32. change BRANCH_BITS with 5. rewrite !Hsh. case_decide as Hd.
  - assert (length ls = 32 ^ S k) as Hfull.
    { rewrite Nat.pow_succ_r' in *. apply (Nat.mul_le_mono_r _ _ (32 ^ k)) in Hd. pose proof (Nat.Div0.mul_div_le (length ls) (32 ^ k)). lia. }
    rewrite vset_lt by (vm_compute; lia). ret_step. replace (5 * S k + 5) with (5 * S (S k)) by lia. rewrite Hsh, Hfull, Nat.div_same by (pose proof (pow32_pos (S k)); lia).
    rewrite decide_False by lia. do 2 eexists. split; [done|]. split; [by apply tree_elevate|]. apply Nat.pow_lt_mono_r; lia.
  - do 2 eexists. split; [done|]. split; [done|]. rewrite Nat.pow_succ_r'.
    apply Nat.nle_gt. intros Hge. apply (Nat.Div0.div_le_mono _ _ (32 ^ k)) in Hge. rewrite Nat.div_mul in Hge by lia. lia.
Qed.

Lemma tree_full k lss cs : Forall2 (tree k) lss cs -> (forall l', l' ∈ lss -> length l' = 32 ^ k) -> 1 <= length cs <= 32 -> tree (S k) (mjoin lss) (inner cs).
Proof.
  intros Hf Hfull Hl. exists lss, cs. split_and!; [done|done|done| |lia|lia]. intros i l Hi. rewrite (Hfull l) by (by eapply list_elem_of_lookup_2). lia.
Qed.

Lemma doPopBack_ok k : forall ls (leaf : list T) node fuel, tree k (ls ++ [leaf]) node -> k < fuel ->
  exists r, doPopBack fuel node = Ret (r, Leaf leaf) /\ match r with None => ls = [] | Some node' => ls <> [] /\ tree k ls node' end.
Proof.
  induction k as [|k IH]; intros ls leaf node fuel Ht Hf; (destruct fuel as [|fuel]; [lia|]); cbn [doPopBack].
  - destruct Ht as (xs & E & -> & _). apply (app_inj_tail ls []) in E as [-> ->]. by exists None.
  - destruct (tree_last _ _ _ Ht) as (lss & cs & l & c & E & -> & Hfa & Hc & Hfull & Hcs & Hlen & _). unfold inner at 1.
    rewrite length_app. cbn [length]. rewrite decide_False by lia. cbv zeta. replace (length cs + 1 - 1) with (length cs) by lia.
    rewrite (vget_Some _ _ _ (slots_lookup _ _ c (list_lookup_middle cs [] c _ eq_refl))). ret_step. cbn [deref]. ret_step.
    destruct l as [|x l0 _] using rev_ind; [apply tree_length in Hc; cbn in Hc; lia|]. rewrite app_assoc in E. apply app_inj_tail in E as [-> ->].
    destruct (IH _ _ _ fuel Hc) as (r & -> & Hr); [lia|]. ret_step. destruct r as [c'|].
    + destruct Hr as [Hne Hc']. pose proof (copy_all (cs ++ [c])) as Hcopy. rewrite length_app in Hcopy. cbn [length] in Hcopy. rewrite Hcopy.
      rewrite vset_lt by (rewrite length_slots; rewrite ?length_app; cbn; lia). ret_step. rewrite slots_insert by (rewrite length_app; cbn; lia).
      replace (<[length cs := c']> (cs ++ [c])) with (cs ++ [c']) by (rewrite insert_app_r_alt, Nat.sub_diag by lia; done).
      eexists. split; [done|]. split; [by intros [_ ?]%app_eq_nil|].
      replace (length cs + 1) with (length (cs ++ [c'])) by (rewrite length_app; done). by apply tree_snoc.
    + subst l0. rewrite app_nil_r in *. case_decide as Hz.
      * eexists. split; [done|]. destruct lss; [done|cbn in Hlen; lia].
      * rewrite copy_slots by (rewrite length_app; cbn; lia). rewrite take_app_length. eexists. split; [done|].
        assert (tree (S k) (mjoin lss) (inner cs)) as Ht' by (apply tree_full; [done|done|lia]). split; [|done].
        intros E. apply tree_length in Ht'. rewrite E in Ht'. cbn in Ht'. lia.
Qed.

Lemma collapse_ok k : forall ls node fuel, tree (S k) ls node -> k < fuel ->
  exists k' node', collapse fuel (Some node) (5 * S k) = Ret (Some node', 5 * S k') /\ tree (S k') ls node' /\ count_of node' <> 0.
Proof.
  induction k as [|k IH]; intros ls node fuel Ht Hf; (destruct fuel as [|fuel]; [lia|]); pose proof Ht as (lss & cs & Hls & -> & Hfa & _ & Hcs); cbn [collapse];
    unfold inner at 1; (assert (count_of (inner cs) <> 0) as Hcount by (cbn; lia)).
  - exists 0, (inner cs). split; [|done]. destruct cs as [|c [|c2 cs]]; [cbn in Hcs; lia| |done]. cbn [length]. by rewrite decide_False by (unfold BRANCH_BITS; lia).
  - destruct cs as [|c [|c2 cs]]; [cbn in Hcs; lia| |by exists (S k), (inner (c :: c2 :: cs))]. cbn [length]. rewrite decide_True by (unfold BRANCH_BITS; lia).
    rewrite (vget_Some _ _ _ (slots_lookup [c] 0 c eq_refl)). ret_step. rewrite level_pred.
    apply Forall2_cons_inv_r in Hfa as (l & lss' & Hc & Hn & ->). apply Forall2_nil_inv_r in Hn as ->. cbn in Hls. rewrite app_nil_r in Hls. subst ls.
    apply IH; [done|lia].
Qed.

(** ** What a vector stands for *)
Record pv_rep v (l : list T) : Prop := {
  pr_parts : exists ls ts, tail_ v = Leaf ts /\ l = mjoin ls ++ ts /\ length ts <= 32 /\ (ls <> [] -> ts <> []) /\
    match root_ v with
    | None => ls = [] /\ shift_ v = 0
    | Some node => exists k, shift_ v = 5 * S k /\ tree (S k) ls node
    end;
  pr_size : size_ v = length l;
}.

Lemma rep_full v ls :
  match root_ v with None => ls = [] /\ shift_ v = 0 | Some node => exists k, shift_ v = 5 * S k /\ tree (S k) ls node end ->
  (forall l', l' ∈ ls -> length (l' : list T) = 32) /\ blocks 32 ls /\ length (mjoin ls) = length ls * 32.
Proof.
  intros Hr. assert (forall l', l' ∈ ls -> length (l' : list T) = 32) as Hfull.
  { destruct (root_ v) as [node|]; [destruct Hr as (k & _ & Ht); by intros; eapply tree_leaves|]. destruct Hr as [-> _]. by intros ? ?%elem_of_nil. }
  split_and!; [done| |by apply length_full]. intros i l Hi. rewrite (Hfull l) by (by eapply list_elem_of_lookup_2). done.
Qed.

Lemma tailOffset_eq (n t : nat) : t <= 32 -> (n <> 0 -> t <> 0) -> tailOffset (n * 32 + t) = n * 32.
Proof.
  intros Ht Hn. unfold tailOffset. change BRANCH_SIZE with 32. case_decide as E.
  - destruct n; [done|]. specialize (Hn ltac:(done)). lia.
  - assert (t <> 0) by (destruct n; [lia|by apply Hn]). f_equal. replace (n * 32 + t - 1) with (n * 32 + (t - 1)) by lia.
    rewrite Nat.div_add_l, Nat.div_small by lia. lia.
Qed.

(** The tail and the tree of a represented vector, with the offset of the tail. *)
Lemma rep_parts v l : pv_rep v l ->
  exists ls ts, tail_ v = Leaf ts /\ l = mjoin ls ++ ts /\ length ts <= 32 /\ (ls <> [] -> ts <> []) /\
    match root_ v with None => ls = [] /\ shift_ v = 0 | Some node => exists k, shift_ v = 5 * S k /\ tree (S k) ls node end /\
    blocks 32 ls /\ length (mjoin ls) = length ls * 32 /\ length l = length ls * 32 + length ts /\ tailOffset (size_ v) = length ls * 32.
Proof.
  intros [(ls & ts & Ht & -> & Hts & Hne & Hr) Hs]. destruct (rep_full v ls Hr) as (_ & Hb & Hlen). exists ls, ts.
  rewrite length_app, Hlen in *. split_and!; try done. rewrite Hs. apply tailOffset_eq; [done|].
  intros Hn. destruct ts; [|done]. destruct ls; [done|]. by destruct (Hne ltac:(done)).
Qed.

Lemma mod_offset n i : n * 32 <= i -> i - n * 32 < 32 -> i mod 32 = i - n * 32.
Proof.
  intros H1 H2. replace i with (i - n * 32 + n * 32) at 1 by lia. rewrite Nat.Div0.mod_add. by apply Nat.mod_small.
Qed.

(** The leaf that holds an index of the tree. *)
Lemma leaf_of (ls : list (list T)) i k : blocks 32 ls -> i < length (mjoin ls) -> length ls <= 32 ^ k -> length (mjoin ls) = length ls * 32 ->
  exists (leaf : list T), ls !! (i / 32 mod 32 ^ k) = Some leaf /\ i / 32 mod 32 ^ k = i / 32 /\ mjoin ls !! i = leaf !! (i mod 32).
Proof.
  intros Hb Hi Hle Hlen. pose proof (pow32_pos k). assert (i / 32 < length ls) by (apply Nat.Div0.div_lt_upper_bound; lia).
  rewrite Nat.mod_small by lia. destruct (ls !! (i / 32)) as [leaf|] eqn:El; [|apply lookup_ge_None in El; lia].
  exists leaf. split_and!; [done|done|]. rewrite (blocks_lookup 32) by (done || lia). by rewrite El.
Qed.

Lemma get_ok v l index : pv_rep v l ->
  get v index = match l !! index with Some x => Ret x | None => Throw out_of_range end.
Proof.
  intros Hr. pose proof (pr_size _ _ Hr) as Hs. destruct (rep_parts _ _ Hr) as (ls & ts & Ht & -> & Hts & Hne & Hroot & Hb & Hlen & Hl & Hoff).
  unfold get. rewrite Hoff, Hs. case_decide as Hd; [by rewrite lookup_ge_None_2|]. rewrite Hl in Hd. case_decide as Hd'.
  - rewrite Ht. cbn [values]. ret_step. rewrite leafIdx_eq, (mod_offset (length ls)), lookup_app_r, Hlen by lia. unfold vget.
    destruct (ts !! (index - length ls * 32)) eqn:E; [done|]. apply lookup_ge_None in E. lia.
  - rewrite lookup_app_l by lia. unfold doGet. destruct (root_ v) as [node|]; [|destruct Hroot as [-> _]; cbn in Hd'; lia].
    destruct Hroot as (k & -> & Htree). cbn [deref]. ret_step.
    destruct (leaf_of ls index (S k)) as (leaf & Hleaf & _ & ->); [done|lia|by apply (tree_length _ _ _ Htree)|done|].
    rewrite (get_loop_ok _ _ _ _ _ _ Htree Hleaf) by lia. unfold vget.
    destruct (leaf !! (index mod 32)) eqn:E; [done|]. apply lookup_ge_None in E.
    rewrite (tree_leaves _ _ _ leaf Htree) in E by (by eapply list_elem_of_lookup_2). pose proof (Nat.mod_upper_bound index 32). lia.
Qed.

Lemma pv_update_ok v l index x : pv_rep v l ->
  if decide (index < length l) then exists v', update v index x = Ret v' /\ pv_rep v' (<[index := x]> l)
  else update v index x = Throw out_of_range.
Proof.
  intros Hr. pose proof (pr_size _ _ Hr) as Hs. destruct (rep_parts _ _ Hr) as (ls & ts & Ht & -> & Hts & Hne & Hroot & Hb & Hlen & Hl & Hoff).
  unfold update. rewrite Hoff, Hs. case_decide as Hd; [|by rewrite decide_True by lia]. rewrite decide_False by lia. rewrite Hl in Hd. case_decide as Hd'.
  - rewrite Ht. cbn [values]. ret_step. rewrite leafIdx_eq, (mod_offset (length ls)) by lia. eexists. split; [done|].
    replace index with (length (mjoin ls) + (index - length ls * 32)) at 2 by lia. rewrite insert_app_r.
    split; cbn [tail_ root_ size_ shift_]; [|rewrite !length_app, length_insert in *; lia].
    exists ls, (<[index - length ls * 32 := x]> ts). rewrite length_insert. split_and!; [done|done|done| |done].
    intros H E. apply (f_equal length) in E. rewrite length_insert in E. apply nil_length_inv in E. by apply Hne.
  - destruct (root_ v) as [node|]; [|destruct Hroot as [-> _]; cbn in Hd'; lia]. destruct Hroot as (k & -> & Htree). cbn [deref]. ret_step.
    destruct (leaf_of ls index (S k)) as (leaf & Hleaf & Emod & _); [done|lia|by apply (tree_length _ _ _ Htree)|done|].
    destruct (doUpdate_ok _ _ _ _ _ x (S (5 * S k)) Htree Hleaf) as (node' & -> & Htree'); [lia|]. ret_step. eexists. split; [done|].
    rewrite insert_app_l by lia. rewrite Emod in *.
    rewrite <- (blocks_insert 32 ls index leaf x) by (done || lia).
    split; cbn [tail_ root_ size_ shift_]; [|by rewrite (blocks_insert 32), !length_app, length_insert by (done || lia)].
    eexists _, ts. split_and!; [done|done|done| |by exists k]. intros H. apply Hne. intros ->. by rewrite lookup_nil in Hleaf.
Qed.

Lemma push_back_ok v l x : pv_rep v l -> raw_slot = Ret None \/ length l < 1056 -> exists v', push_back v x = Ret v' /\ pv_rep v' (l ++ [x]).
Proof.
  intros Hr Hraw. pose proof (pr_size _ _ Hr) as Hs. destruct (rep_parts _ _ Hr) as (ls & ts & Ht & -> & Hts & Hne & Hroot & Hb & Hlen & Hl & Hoff).
  unfold push_back. rewrite Ht. cbn [values]. ret_step. change BRANCH_SIZE with 32. case_decide as Hd.
  - eexists. split; [done|]. split; cbn [tail_ root_ size_ shift_]; [|rewrite Hs, (length_app (mjoin ls ++ ts)); done].
    exists ls, (ts ++ [x]). rewrite length_app. cbn [length]. split_and!; [done|by rewrite app_assoc|lia|intros _; by destruct ts|done].
  - rewrite (take_ge ts) by lia. rewrite Hoff. assert (length ts = 32) as Hts32 by lia.
    assert (exists k node, (match root_ v with
      | None => node ← newPath (S BRANCH_BITS) (Leaf ts) BRANCH_BITS (length ls * 32); Ret (node, BRANCH_BITS)
      | Some node =>
        '(node, shift) ← elevate (S (length ls * 32)) node (shift_ v) (length ls * 32);
        node ← pushLeaf (S shift) node shift (Leaf ts) (length ls * 32);
        Ret (node, shift)
      end) = Ret (node, 5 * S k) /\ tree (S k) (ls ++ [ts]) node) as (k & node & -> & Htree).
    { destruct (root_ v) as [node|].
      - destruct Hroot as (k & -> & Htree). destruct (elevate_ok k ls node (S (length ls * 32)) Htree) as (k' & node' & -> & Ht' & Hcap); [lia|].
        ret_step. destruct (pushLeaf_ok k' ls node' ts (length ls * 32) (S (5 * S k')) Ht' Hts32) as (node2 & -> & Ht2); [|lia|rewrite length_app in Hraw; destruct Hraw; [by left|right; lia]|].
        + rewrite Nat.div_mul by lia. by apply Nat.mod_small.
        + exists k', node2. done.
      - destruct Hroot as [-> _]. destruct (newPath_ok 1 ts 0 (S BRANCH_BITS) Hts32) as (node & Hn & Ht'); [done|unfold BRANCH_BITS; lia|].
        exists 0, node. change (newPath (S BRANCH_BITS) (Leaf ts) BRANCH_BITS 0 = Ret node) in Hn. cbn [length]. change (0 * 32) with 0. rewrite Hn. done. }
    ret_step. eexists. split; [done|]. split; cbn [tail_ root_ size_ shift_]; [|rewrite Hs, (length_app (mjoin ls ++ ts)); done].
    exists (ls ++ [ts]), [x]. rewrite mjoin_snoc. split_and!; [done|done|cbn; lia|done|by exists k].
Qed.

Lemma pv_new_rep : pv_rep pv_new [].
Proof. split; [|done]. exists [], []. split_and!; try done; cbn; lia. Qed.

Lemma pop_back_ok v l : pv_rep v l -> l <> [] -> exists v', pop_back v = Ret v' /\ pv_rep v' (removelast l).
Proof.
  intros Hr Hnil. pose proof (pr_size _ _ Hr) as Hs. destruct (rep_parts _ _ Hr) as (ls & ts & Ht & -> & Hts & Hne & Hroot & Hb & Hlen & Hl & Hoff).
  assert (ts <> []) as Hts0 by (destruct ls; [by intros ->|by apply Hne]).
  destruct ts as [|y ts _] using rev_ind; [done|]. clear Hts0. rewrite app_assoc, removelast_last. rewrite !length_app in *. cbn [length] in *.
  unfold pop_back. rewrite decide_False by lia. rewrite Ht. cbn [values]. ret_step. rewrite length_app. cbn [length]. case_decide as Hd.
  - replace (length ts + 1 - 1) with (length ts) by lia. rewrite take_app_length. eexists. split; [done|].
    split; cbn [tail_ root_ size_ shift_]; [|rewrite Hs, !length_app in *; cbn; lia].
    exists ls, ts. split_and!; [done|done|lia| |done]. intros _ ->. cbn in Hd. lia.
  - destruct ts; [|cbn in Hd; lia]. rewrite app_nil_r. cbn [length] in *. case_decide as H1.
    { assert (ls = []) as -> by (destruct ls; [done|cbn [length] in *; lia]). eexists. split; [done|]. apply pv_new_rep. }
    destruct (root_ v) as [node|]; [|destruct Hroot as [-> _]; cbn [length] in *; lia]. destruct Hroot as (k & -> & Htree). cbn [deref]. ret_step.
    destruct ls as [|leaf ls _] using rev_ind; [apply tree_length in Htree; cbn in Htree; lia|].
    destruct (doPopBack_ok _ _ _ _ (S (5 * S k)) Htree) as (r & -> & Hr'); [lia|]. ret_step.
    assert (length leaf = 32) as Hleaf by (apply (tree_leaves _ _ _ _ Htree), elem_of_app; right; by left).
    assert (size_ v - 1 = length (mjoin (ls ++ [leaf]))) as Hsz by (rewrite Hs, Hl, Hlen; lia).
    destruct r as [node'|].
    + destruct Hr' as [Hne' Htree']. destruct (collapse_ok k ls node' (S (5 * S k)) Htree') as (k' & node2 & -> & Ht2 & Hcount); [lia|]. ret_step.
      rewrite decide_False by done. eexists. split; [done|]. split; cbn [tail_ root_ size_ shift_]; [|done].
      exists ls, leaf. split_and!; [done|apply mjoin_snoc|lia|by intros _ ->|by exists k'].
    + subst ls. cbn [collapse]. ret_step. eexists. split; [done|]. split; cbn [tail_ root_ size_ shift_]; [|done].
      exists [], leaf. split_and!; [done|by rewrite mjoin_snoc|lia|done|done|done].
Qed.


Lemma front_ok v l : pv_rep v l -> front v = match head l with Some x => Ret x | None => Throw out_of_range end.
Proof.
  intros Hr. unfold front. rewrite (pr_size _ _ Hr), (get_ok _ _ _ Hr). by destruct l.
Qed.

Lemma back_ok v l : pv_rep v l -> back v = match last l with Some x => Ret x | None => Throw out_of_range end.
Proof.
  intros Hr. unfold back. rewrite (get_ok _ _ _ Hr), (pr_size _ _ Hr), last_lookup, Nat.sub_1_r. by destruct l.
Qed.

(** ** Bulk operations *)
Lemma push_all_ok xs : forall v l, pv_rep v l -> raw_slot = Ret None \/ length (l ++ xs) <= 1056 -> exists v', push_all v xs = Ret v' /\ pv_rep v' (l ++ xs).
Proof.
  induction xs as [|x xs IH]; intros v l Hr Hraw; cbn [push_all]; [exists v; by rewrite app_nil_r|]. rewrite length_app in Hraw. cbn [length] in Hraw.
  destruct (push_back_ok v l x Hr) as (v1 & -> & H1); [destruct Hraw; [by left|right; lia]|]. ret_step.
  destruct (IH _ _ H1) as (v2 & -> & H2); [rewrite !length_app; cbn [length]; destruct Hraw; [by left|right; lia]|]. exists v2.
  by rewrite <- app_assoc in H2.
Qed.

Lemma append_loop_ok other l n : pv_rep other l -> forall v l' i, pv_rep v l' -> i + n <= length l -> raw_slot = Ret None \/ length l' + n <= 1056 ->
  exists v', append_loop n v other i = Ret v' /\ pv_rep v' (l' ++ take n (drop i l)).
Proof.
  intros Ho. induction n as [|n IH]; intros v l' i Hr Hn Hraw; cbn [append_loop]; [exists v; by rewrite app_nil_r|].
  rewrite (get_ok _ _ _ Ho). destruct (l !! i) as [x|] eqn:E; [|apply lookup_ge_None in E; lia]. ret_step.
  destruct (push_back_ok v l' x Hr) as (v1 & -> & H1); [destruct Hraw; [by left|right; lia]|]. ret_step.
  destruct (IH _ _ (S i) H1) as (v2 & -> & H2); [lia|rewrite length_app; cbn [length]; destruct Hraw; [by left|right; lia]|].
  exists v2. rewrite (drop_S _ _ _ E). by rewrite <- app_assoc in H2.
Qed.

Lemma pv_walk_ok v l n i : pv_rep v l -> i + n <= length l -> walk n v i = Ret (take n (drop i l)).
Proof.
  intros Hr. revert i. induction n as [|n IH]; intros i Hn; cbn [walk]; [done|].
  rewrite (get_ok _ _ _ Hr). destruct (l !! i) as [x|] eqn:E; [|apply lookup_ge_None in E; lia]. ret_step.
  rewrite IH by lia. ret_step. by rewrite (drop_S _ _ _ E).
Qed.

(** ** The contract

    A client holds any number of versions; an operation reads some of them and
    adds its result as a new one.  Moving empties the version moved from. *)
Inductive pv_op :=
| PvNew
| PvOfList (init : list T)
| PvGet (i index : nat)
| PvFront (i : nat)
| PvBack (i : nat)
| PvSize (i : nat)
| PvEmpty (i : nat)
| PvWalk (i : nat)
| PvPush (i : nat) (x : T)
| PvUpdate (i index : nat) (x : T)
| PvPop (i : nat)
| PvSub (i first last : nat)
| PvConcat (i j : nat)
| PvMove (i : nat)
| PvAssign (i j : nat).

(** A call on version [i] that only reads, and one that gives a new version. *)
Definition reads {V O} (vs : list V) (i : nat) (f : V -> outcome O) : outcome (list V * O) :=
  v ← vget vs i; o ← f v; Ret (vs, o).
Definition makes {V O} (done : O) (vs : list V) (i : nat) (f : V -> outcome V) : outcome (list V * O) :=
  v ← vget vs i; v' ← f v; Ret (vs ++ [v'], done).

Definition pv_step (vs : list PersistentVector) (op : pv_op) : outcome (list PersistentVector * obs T) :=
  match op with
  | PvNew => Ret (vs ++ [pv_new], ODone)
  | PvOfList init => v ← of_list init; Ret (vs ++ [v], ODone)
  | PvGet i index => reads vs i (fun v => x ← get v index; Ret (OVal x))
  | PvFront i => reads vs i (fun v => x ← front v; Ret (OVal x))
  | PvBack i => reads vs i (fun v => x ← back v; Ret (OVal x))
  | PvSize i => reads vs i (fun v => Ret (ONum (size v)))
  | PvEmpty i => reads vs i (fun v => Ret (OBool (empty v)))
  | PvWalk i => reads vs i (fun v => xs ← walk (size v) v 0; Ret (OSeq xs))
  | PvPush i x => makes ODone vs i (fun v => push_back v x)
  | PvUpdate i index x => makes ODone vs i (fun v => update v index x)
  | PvPop i => makes ODone vs i pop_back
  | PvSub i first last => makes ODone vs i (fun v => sub_vector v first last)
  | PvConcat i j => other ← vget vs j; makes ODone vs i (fun v => concat v other)
  | PvMove i => v ← vget vs i; let '(v', old) := move v in Ret (<[i := old]> vs ++ [v'], ODone)
  | PvAssign i j =>
    v ← vget vs i; _ ← vget vs j;
    if decide (i = j) then Ret (vs, ODone)
    else let '(v', old) := move v in Ret (<[i := old]> (<[j := v']> vs), ODone)
  end.

(** The versions as lists. *)
Definition nilb (l : list T) : bool := match l with [] => true | _ => false end.
Definition at_or (x : option T) : outcome T := match x with Some x => Ret x | None => Throw out_of_range end.

(** Without the assumption on raw slots ([zeroed] is false) the contract leaves undefined what makes a version longer than 1056. *)
Definition grown (zeroed : bool) (l : list T) : outcome (list T) := if zeroed || bool_decide (length l <= 1056) then Ret l else Undef.

Definition pv_spec (zeroed : bool) (ls : list (list T)) (op : pv_op) : outcome (list (list T) * obs T) :=
  match op with
  | PvNew => Ret (ls ++ [[]], ODone)
  | PvOfList init => l ← grown zeroed init; Ret (ls ++ [l], ODone)
  | PvGet i index => reads ls i (fun l => x ← at_or (l !! index); Ret (OVal x))
  | PvFront i => reads ls i (fun l => x ← at_or (head l); Ret (OVal x))
  | PvBack i => reads ls i (fun l => x ← at_or (last l); Ret (OVal x))
  | PvSize i => reads ls i (fun l => Ret (ONum (length l)))
  | PvEmpty i => reads ls i (fun l => Ret (OBool (nilb l)))
  | PvWalk i => reads ls i (fun l => Ret (OSeq l))
  | PvPush i x => makes ODone ls i (fun l => grown zeroed (l ++ [x]))
  | PvUpdate i index x => makes ODone ls i (fun l => if decide (index < length l) then Ret (<[index := x]> l) else Throw out_of_range)
  | PvPop i => makes ODone ls i (fun l => if nilb l then Throw out_of_range else Ret (removelast l))
  | PvSub i first last =>
    makes ODone ls i (fun l => if decide (first <= last /\ last <= length l) then grown zeroed (take (last - first) (drop first l)) else Throw out_of_range)
  | PvConcat i j => other ← vget ls j; makes ODone ls i (fun l => grown zeroed (l ++ other))
  | PvMove i => l ← vget ls i; Ret (<[i := []]> ls ++ [l], ODone)
  | PvAssign i j => l ← vget ls i; _ ← vget ls j; Ret (if decide (i = j) then ls else <[i := []]> (<[j := l]> ls), ODone)
  end.

Definition pv_reps (vs : list PersistentVector) (ls : list (list T)) : Prop := Forall2 pv_rep vs ls.

Lemma reps_vget vs ls i : pv_reps vs ls ->
  match vget ls i with Ret l => exists v, vget vs i = Ret v /\ pv_rep v l | _ => True end.
Proof.
  intros HR. unfold vget. destruct (ls !! i) as [l|] eqn:E; [|done]. destruct (Forall2_lookup_r _ _ _ _ _ HR E) as (v & -> & Hv). by exists v.
Qed.

(** What a read and a new version have to match. *)
Definition sim_out {A B O} (R : A -> B -> Prop) (m : outcome (A * O)) (s : outcome (B * O)) : Prop :=
  match s with
  | Ret (b, o) => exists a, m = Ret (a, o) /\ R a b
  | Throw e => m = Throw e
  | _ => True
  end.

Lemma reads_sim vs ls i (f : PersistentVector -> outcome (obs T)) g :
  pv_reps vs ls -> (forall v l, pv_rep v l -> f v = g l) -> sim_out pv_reps (reads vs i f) (reads ls i g).
Proof.
  intros HR Hf. unfold reads. pose proof (reps_vget _ _ i HR) as H. destruct (vget ls i) as [l|e| |] eqn:E; [| |done..].
  - destruct H as (v & -> & Hv). rewrite !bind_Ret. rewrite (Hf _ _ Hv). destruct (g l); cbn; eauto.
  - unfold vget in E. by destruct (ls !! i).
Qed.

Lemma makes_sim vs ls i (f : PersistentVector -> outcome PersistentVector) g :
  pv_reps vs ls ->
  (forall v l, pv_rep v l -> match g l with Ret l' => exists v', f v = Ret v' /\ pv_rep v' l' | Throw e => f v = Throw e | _ => True end) ->
  sim_out pv_reps (makes (@ODone T) vs i f) (makes (@ODone T) ls i g).
Proof.
  intros HR Hf. unfold makes. pose proof (reps_vget _ _ i HR) as H. destruct (vget ls i) as [l|e| |] eqn:E; [| |done..].
  - destruct H as (v & -> & Hv). rewrite !bind_Ret. specialize (Hf _ _ Hv). destruct (g l) as [l'|e| |]; [|by rewrite Hf|done..].
    destruct Hf as (v' & -> & Hv'). eexists. split; [done|]. apply Forall2_app; [done|by constructor].
  - unfold vget in E. by destruct (ls !! i).
Qed.

Lemma at_or_bind {A} (o : option T) (k : T -> outcome A) :
  (x ← at_or o; k x) = match o with Some x => k x | None => Throw out_of_range end.
Proof. by destruct o. Qed.

Lemma grown_inv zeroed l : (zeroed = true -> raw_slot = Ret None) -> (grown zeroed l = Ret l /\ (raw_slot = Ret None \/ length l <= 1056)) \/ grown zeroed l = Undef.
Proof.
  intros Hz. unfold grown. destruct zeroed; [left; split; [done|left; by apply Hz]|]. cbn [orb]. case_bool_decide; [left; auto|by right].
Qed.

Lemma pv_simulates zeroed : (zeroed = true -> raw_slot = Ret None) -> Simulates pv_step (pv_spec zeroed) pv_reps.
Proof.
  intros Hz vs ls op HR. change (sim_out pv_reps (pv_step vs op) (pv_spec zeroed ls op)).
  destruct op as [|init|i index|i|i|i|i|i|i x|i index x|i|i first last|i j|i|i j]; cbn [pv_step pv_spec].
  - eexists. split; [done|]. apply Forall2_app; [done|]. constructor; [apply pv_new_rep|done].
  - destruct (grown_inv zeroed init Hz) as [[-> Hraw]| ->]; [|done]. ret_step. destruct (push_all_ok init _ _ pv_new_rep Hraw) as (v & Hv & Hr). unfold of_list. rewrite Hv. eexists. split; [done|].
    apply Forall2_app; [done|by constructor].
  - apply reads_sim; [done|]. intros v l Hr. rewrite (get_ok _ _ _ Hr). by destruct (l !! index).
  - apply reads_sim; [done|]. intros v l Hr. rewrite (front_ok _ _ Hr). by destruct l.
  - apply reads_sim; [done|]. intros v l Hr. rewrite (back_ok _ _ Hr). by destruct (last l).
  - apply reads_sim; [done|]. intros v l Hr. unfold size. by rewrite (pr_size _ _ Hr).
  - apply reads_sim; [done|]. intros v l Hr. unfold empty. rewrite (pr_size _ _ Hr). by destruct l.
  - apply reads_sim; [done|]. intros v l Hr. unfold size. rewrite (pr_size _ _ Hr), (pv_walk_ok _ _ _ _ Hr) by done.
    rewrite bind_Ret. by rewrite drop_0, firstn_all.
  - apply makes_sim; [done|]. intros v l Hr. destruct (grown_inv zeroed (l ++ [x]) Hz) as [[-> Hraw]| ->]; [|done].
    rewrite length_app in Hraw. cbn [length] in Hraw. apply push_back_ok; [done|]. destruct Hraw; [by left|right; lia].
  - apply makes_sim; [done|]. intros v l Hr. pose proof (pv_update_ok v l index x Hr) as H. by case_decide.
  - apply makes_sim; [done|]. intros v l Hr. destruct l as [|y l]; cbn [nilb].
    + unfold pop_back. by rewrite decide_True by apply (pr_size _ _ Hr).
    + by apply pop_back_ok.
  - apply makes_sim; [done|]. intros v l Hr. unfold sub_vector. rewrite (pr_size _ _ Hr). case_decide as Hd.
    + rewrite decide_False by lia. destruct (grown_inv zeroed (take (last - first) (drop first l)) Hz) as [[-> Hraw]| ->]; [|done].
      rewrite length_take, length_drop in Hraw. apply (append_loop_ok v l (last - first) Hr pv_new [] first pv_new_rep); [lia|]. cbn [length]. destruct Hraw; [by left|right; lia].
    + by rewrite decide_True by lia.
  - pose proof (reps_vget _ _ j HR) as H. destruct (vget ls j) as [l2|e| |] eqn:E; [| |done..].
    + destruct H as (other & -> & Ho). rewrite !bind_Ret. apply makes_sim; [done|]. intros v l Hr. unfold concat.
      destruct (grown_inv zeroed (l ++ l2) Hz) as [[-> Hraw]| ->]; [|done]. rewrite length_app in Hraw.
      destruct (append_loop_ok other l2 (length l2) Ho v l 0 Hr) as (v' & Hv & Hr'); [lia|done|]. exists v'.
      rewrite (pr_size _ _ Ho). by rewrite drop_0, firstn_all in Hr'.
    + unfold vget in E. by destruct (ls !! j).
  - pose proof (reps_vget _ _ i HR) as H. destruct (vget ls i) as [l|e| |] eqn:E; [| |done..].
    + destruct H as (v & -> & Hv). eexists. split; [done|]. apply Forall2_app; [|by constructor].
      apply Forall2_insert; [done|]. apply pv_new_rep.
    + unfold vget in E. by destruct (ls !! i).
  - pose proof (reps_vget _ _ i HR) as H. pose proof (reps_vget _ _ j HR) as H'.
    unfold vget in *. destruct (ls !! i) as [l|]; [|done]. destruct (ls !! j) as [l2|]; [|done].
    destruct H as (v & Hi & Hv). destruct H' as (v2 & Hj & _). rewrite Hi, Hj, !bind_Ret.
    case_decide; [by exists vs|]. eexists. split; [done|].
    apply Forall2_insert; [|apply pv_new_rep]. by apply Forall2_insert.
Qed.


(** C14: where a slot without an object reads as a null pointer ([zeroed] is true), every sequence of operations on any number of versions of a persistent
    vector observes what the same sequence on plain lists does: a version stays
    what it was whatever is derived from it, indices out of range throw and
    nothing else does, and a vector that was moved from is empty.  Without that assumption ([zeroed] is false) this holds,
    free of undefined behaviour, of every sequence that makes no version of more than 1056 elements. *)
Theorem persistent_vector_refines zeroed ops ls' os :
  (zeroed = true -> raw_slot = Ret None) -> trace (pv_spec zeroed) [] ops = Ret (ls', os) ->
  exists vs, trace pv_step [] ops = Ret (vs, os) /\ Forall2 (fun v l => walk (size v) v 0 = Ret l) vs ls'.
Proof.
  intros Hz Ht. pose proof (pv_simulates zeroed Hz) as Hsim. destruct (trace_refines (step := pv_step) (R := pv_reps) ops [] [] ls' os ltac:(constructor) Ht) as (vs & Hs & HR). exists vs. split; [done|].
  apply (Forall2_impl _ _ _ _ HR). intros v l Hr. unfold size. rewrite (pr_size _ _ Hr), (pv_walk_ok _ _ _ _ Hr), drop_0, firstn_all by done. done.
Qed.
End persistent_vector.

Section persistent_vector_witness.

(** 70 elements make two full leaves and a tail of 6; the tree is then cut down again. *)
#[local] Definition pv_sample : list (pv_op (T := nat)) :=
  [PvOfList (seq 0 70); PvUpdate 0 33 100; PvSub 1 30 64; PvPop 2; PvPop 3; PvPush 4 7; PvConcat 3 2; PvMove 5; PvAssign 0 0;
   PvGet 0 33; PvGet 1 33; PvGet 2 34; PvWalk 4; PvBack 7; PvEmpty 5; PvPop 5; PvSize 6; PvGet 6 66].

(** Both ways: 70 elements whatever a raw slot holds, and 1100 where it reads as null. *)
Lemma persistent_vector_refines_witness :
  (exists vs os, trace (pv_step Undef) [] pv_sample = Ret (vs, os) /\
    drop 9 os = [inl (OVal 33); inl (OVal 100); inr out_of_range; inl (OSeq [30; 31; 32; 100; 34; 35; 36; 37; 38; 39; 40; 41; 42; 43; 44;
      45; 46; 47; 48; 49; 50; 51; 52; 53; 54; 55; 56; 57; 58; 59; 60; 61]); inl (OVal 7); inl (OBool true); inr out_of_range;
      inl (ONum 67); inl (OVal 63)]) /\
  exists vs, trace (pv_step (Ret None)) [] [PvOfList (seq 0 1100); PvGet 0 1070] = Ret (vs, [inl ODone; inl (OVal 1070)]).
Proof.
  split.
  - destruct (trace (pv_spec false) [] pv_sample) as [[ls' os]|e| |] eqn:E; [|vm_compute in E; discriminate..].
    destruct (persistent_vector_refines Undef false pv_sample ls' os ltac:(discriminate) E) as (vs & Hs & _). exists vs, os. split; [exact Hs|].
    vm_compute in E. injection E as _ <-. reflexivity.
  - destruct (trace (pv_spec true) [] [PvOfList (seq 0 1100); PvGet 0 1070]) as [[ls' os]|e| |] eqn:E; [|vm_compute in E; discriminate..].
    destruct (persistent_vector_refines (Ret None) true _ ls' os ltac:(intros _; reflexivity) E) as (vs & Hs & _). exists vs. rewrite Hs. vm_compute in E. injection E as _ <-. reflexivity.
Defined.

(** The 1057th element is the first whose insertion reads a raw slot. *)
Example persistent_vector_raw_slot :
  (exists v, of_list Undef (seq 0 1056) = Ret v) /\ of_list Undef (seq 0 1057) = Undef.
Proof. split; [eexists|]; vm_compute; reflexivity. Qed.
End persistent_vector_witness.
