(* ===== verification/AhoCorasick.v ===== *)
(** * Aho-Corasick automaton ([data_structure/string/AhoCorasick.hpp], [.cc])

    A trie of the patterns in flat arrays (one row of 256 entries per state), fail
    links and merged outputs computed breadth first, and a completed transition
    table.  Strings are lists of characters; a state is an [int32_t] index.  The
    theorems ask that (bytes of all patterns + 1) * (number of patterns) fits an
    [int32_t]: beyond it the numbers of the flattened outputs are truncated.

    Fail links lead to shorter words, so the number of states is enough fuel for
    the walk along them, and each state is enqueued once. *)

From Stdlib Require Import Ascii NArith.
From stdpp Require Import strings sorting.
From S2P Require Import Prelude Refinement.

#[local] Set Warnings "-register-all".
Local Open Scope Z_scope.
Local Open Scope cpp_scope.

Definition ALPHABET_SIZE : Z := 256.
Definition NO_STATE : Z := -1.

Abbreviation str := (list ascii).

(** A character as [unsigned char]. *)
Definition uc (c : ascii) : Z := Z.of_N (N_of_ascii c).

(** [for (c = 0; c < ALPHABET_SIZE; ++c)] *)
Definition alphabet : list Z := seqZ 0 ALPHABET_SIZE.

(** The place of the entry of a state and a byte in a flat table. *)
Definition entry (s c : Z) : Z := s * ALPHABET_SIZE + c.

Record MatchResult := mkMatch { position : Z; length_ : Z; patternIndex : Z }.

Record AhoCorasick := mkAC {
  goto_ : list Z;
  trans_ : list Z;
  fail_ : list Z;
  outputData_ : list Z;
  outputPtr_ : list Z;
  outputCnt_ : list Z;
  patterns_ : list str;
  built_ : bool;
  output_ : list (list Z);
}.

Implicit Types (words : list str) (a : AhoCorasick) (goto fail trans q order : list Z) (out : list (list Z)) (u v s f c : Z) (w x y t p : str) (ps : list str).

Definition ac_new : AhoCorasick :=
  mkAC (replicate (Z.to_nat ALPHABET_SIZE) NO_STATE) [] [0] [] [0] [0] [] false [[]].

(** ** Inserting patterns *)
Definition addState a : AhoCorasick * Z :=
  let newState := Z.of_nat (length (goto_ a)) / ALPHABET_SIZE in
  (mkAC (goto_ a ++ replicate (Z.to_nat ALPHABET_SIZE) NO_STATE) (trans_ a) (fail_ a ++ [NO_STATE]) (outputData_ a)
     (outputPtr_ a ++ [0]) (outputCnt_ a ++ [0]) (patterns_ a) (built_ a) (output_ a ++ [[]]), newState).

Definition set_goto a goto : AhoCorasick :=
  mkAC goto (trans_ a) (fail_ a) (outputData_ a) (outputPtr_ a) (outputCnt_ a) (patterns_ a) (built_ a) (output_ a).

Fixpoint insert_loop a state (pattern : str) : outcome (AhoCorasick * Z) :=
  match pattern with
  | [] => Ret (a, state)
  | c :: pattern =>
    let idx := entry state (uc c) in
    g ← vgetz (goto_ a) idx;
    a ← (if decide (g = NO_STATE) then
           let '(a, newState) := addState a in
           goto ← vsetz (goto_ a) idx (to_i32 newState); Ret (set_goto a goto)
         else Ret a);
    state ← vgetz (goto_ a) idx;
    insert_loop a state pattern
  end.

Definition insert a (pattern : str) : outcome AhoCorasick :=
  match pattern with
  | [] => Throw invalid_argument
  | _ =>
    if built_ a then Throw runtime_error else
    '(a, state) ← insert_loop a 0 pattern;
    let patIdx := length (patterns_ a) in
    o ← vgetz (output_ a) state;
    out ← vsetz (output_ a) state (o ++ [to_i32 (Z.of_nat patIdx)]);
    Ret (mkAC (goto_ a) (trans_ a) (fail_ a) (outputData_ a) (outputPtr_ a) (outputCnt_ a) (patterns_ a ++ [pattern]) (built_ a) out)
  end.

(** ** Building *)
Definition merge (dst src : list Z) : list Z :=
  foldl (fun dst patIdx => if bool_decide (patIdx ∈ dst) then dst else dst ++ [patIdx]) dst src.

Definition mergeOutput out state failState : outcome (list (list Z)) :=
  src ← vgetz out failState;
  match src with
  | [] => Ret out
  | _ => dst ← vgetz out state; vsetz out state (merge dst src)
  end.

(** Step 1: missing transitions of the root lead back to it. *)
Fixpoint root_loops goto (cs : list Z) : outcome (list Z) :=
  match cs with
  | [] => Ret goto
  | c :: cs => g ← vgetz goto c; goto ← (if decide (g = NO_STATE) then vsetz goto c 0 else Ret goto); root_loops goto cs
  end.

(** Step 2: the children of the root. *)
Fixpoint queue_children goto fail q (cs : list Z) : outcome (list Z * list Z) :=
  match cs with
  | [] => Ret (fail, q)
  | c :: cs =>
    child ← vgetz goto c;
    if decide (child = 0) then queue_children goto fail q cs
    else fail ← vsetz fail child 0; queue_children goto fail (q ++ [child]) cs
  end.

(** Step 3: [while (f != 0 && goto_[f * 256 + c] == NO_STATE) f = fail_[f];] *)
Fixpoint follow_fail (fuel : nat) goto fail f c : outcome Z :=
  match fuel with
  | O => NoFuel
  | S fuel =>
    if decide (f = 0) then Ret f else
    g ← vgetz goto (entry f c);
    if decide (g = NO_STATE) then f ← vgetz fail f; follow_fail fuel goto fail f c else Ret f
  end.

Fixpoint link_children goto fail out q u (cs : list Z) : outcome (list Z * list (list Z) * list Z) :=
  match cs with
  | [] => Ret (fail, out, q)
  | c :: cs =>
    v ← vgetz goto (entry u c);
    if decide (v = NO_STATE) then link_children goto fail out q u cs else
    f ← vgetz fail u;
    f ← follow_fail (S (length fail)) goto fail f c;
    g ← vgetz goto (entry f c);
    fail ← vsetz fail v g;
    out ← mergeOutput out v g;
    link_children goto fail out (q ++ [v]) u cs
  end.

Fixpoint bfs_loop (fuel : nat) goto fail out q order : outcome (list Z * list (list Z) * list Z) :=
  match fuel with
  | O => NoFuel
  | S fuel =>
    match q with
    | [] => Ret (fail, out, order)
    | u :: q =>
      '(fail, out, q) ← link_children goto fail out q u alphabet;
      bfs_loop fuel goto fail out q (order ++ [u])
    end
  end.

(** Step 4 *)
Fixpoint flatten_loop (outs : list (list Z)) (s : nat) (ptr cnt flat : list Z) : outcome (list Z * list Z * list Z) :=
  match outs with
  | [] => Ret (ptr, cnt, flat)
  | o :: outs =>
    ptr ← vset ptr s (to_i32 (Z.of_nat (length flat)));
    cnt ← vset cnt s (to_i32 (Z.of_nat (length o)));
    flatten_loop outs (S s) ptr cnt (flat ++ o)
  end.

(** Step 5 *)
Fixpoint root_trans goto trans (cs : list Z) : outcome (list Z) :=
  match cs with
  | [] => Ret trans
  | c :: cs => g ← vgetz goto c; trans ← vsetz trans c (if decide (g = NO_STATE) then 0 else g); root_trans goto trans cs
  end.

Fixpoint complete_row goto trans s fs (cs : list Z) : outcome (list Z) :=
  match cs with
  | [] => Ret trans
  | c :: cs =>
    g ← vgetz goto (entry s c);
    g ← (if decide (g = NO_STATE) then vgetz trans (entry fs c) else Ret g);
    trans ← vsetz trans (entry s c) g;
    complete_row goto trans s fs cs
  end.

Fixpoint complete goto fail trans order : outcome (list Z) :=
  match order with
  | [] => Ret trans
  | s :: order => fs ← vgetz fail s; trans ← complete_row goto trans s fs alphabet; complete goto fail trans order
  end.

Definition build a : outcome AhoCorasick :=
  if built_ a then Ret a else
  let numStates := Z.of_nat (length (goto_ a)) / ALPHABET_SIZE in
  goto ← root_loops (goto_ a) alphabet;
  '(fail, q) ← queue_children goto (fail_ a) [] alphabet;
  '(fail, out, order) ← bfs_loop (S (Z.to_nat numStates)) goto fail (output_ a) q [];
  '(ptr, cnt, flat) ← flatten_loop out 0 (outputPtr_ a) (outputCnt_ a) [];
  trans ← root_trans goto (replicate (Z.to_nat (numStates * ALPHABET_SIZE)) 0) alphabet;
  trans ← complete goto fail trans order;
  Ret (mkAC [] trans fail flat ptr cnt (patterns_ a) true []).

(** ** Matching *)
Fixpoint emit_loop (n : nat) a (i off j : Z) : outcome (list MatchResult) :=
  match n with
  | O => Ret []
  | S n =>
    patIdx ← vgetz (outputData_ a) (off + j);
    pat ← vgetz (patterns_ a) patIdx;
    rs ← emit_loop n a i off (j + 1);
    Ret (mkMatch (u64 (u64 (i - Z.of_nat (length pat)) + 1)) (Z.of_nat (length pat)) patIdx :: rs)
  end.

(** The calls of the callback; [match] pushes each result into a vector. *)
Fixpoint scan a (text : str) (i state : Z) : outcome (list MatchResult) :=
  match text with
  | [] => Ret []
  | c :: text =>
    state ← vgetz (trans_ a) (entry state (uc c));
    cnt ← vgetz (outputCnt_ a) state;
    rs ← (if decide (0 < cnt) then off ← vgetz (outputPtr_ a) state; emit_loop (Z.to_nat cnt) a i off 0 else Ret []);
    rs' ← scan a text (i + 1) state;
    Ret (rs ++ rs')
  end.

Definition match_ a (text : str) : outcome (list MatchResult) := if built_ a then scan a text 0 0 else Throw runtime_error.

(** [matchEach] with a callback that changes a state. *)
Definition matchEach {S} a (text : str) (cb : S -> MatchResult -> S) (st : S) : outcome S :=
  if built_ a then rs ← scan a text 0 0; Ret (foldl cb st rs) else Throw runtime_error.

Definition patternCount a : nat := length (patterns_ a).

Definition getPattern a (index : nat) : outcome str :=
  match patterns_ a !! index with Some p => Ret p | None => Throw out_of_range end.

(** What is left of an automaton that was moved from: the flag is copied. *)
Definition move a : AhoCorasick * AhoCorasick := (a, mkAC [] [] [] [] [] [] [] (built_ a) []).

(** ** Characters and tables *)
Lemma uc_range ch : 0 <= uc ch < ALPHABET_SIZE.
Proof. unfold uc, ALPHABET_SIZE. pose proof (N_ascii_bounded ch). lia. Qed.

Lemma uc_inj ch ch' : uc ch = uc ch' -> ch = ch'.
Proof. unfold uc. intros H%N2Z.inj. by rewrite <- (ascii_N_embedding ch), H, ascii_N_embedding. Qed.

Definition chars : list ascii := (fun c => ascii_of_N (Z.to_N c)) <$> alphabet.

Lemma alphabet_chars : alphabet = uc <$> chars.
Proof. vm_compute. reflexivity. Qed.

Lemma elem_of_chars ch : ch ∈ chars.
Proof.
  unfold chars. apply list_elem_of_fmap. exists (uc ch). split.
  - unfold uc. by rewrite N2Z.id, ascii_N_embedding.
  - apply elem_of_seqZ. pose proof (uc_range ch). lia.
Qed.

Lemma NoDup_chars : NoDup chars.
Proof. apply (NoDup_fmap_1 uc). rewrite <- alphabet_chars. apply NoDup_seqZ. Qed.

Lemma entry_inj s ch s' ch' : entry s (uc ch) = entry s' (uc ch') -> s = s' /\ ch = ch'.
Proof.
  unfold entry. pose proof (uc_range ch). pose proof (uc_range ch'). unfold ALPHABET_SIZE in *. intros E.
  assert (s = s') as -> by lia. split; [done|]. apply uc_inj. lia.
Qed.

Lemma vgetz_nat {A} (l : list A) (i : nat) : vgetz l (Z.of_nat i) = vget l i.
Proof. unfold vgetz. by rewrite decide_True, Nat2Z.id by lia. Qed.

Lemma vsetz_nat {A} (l : list A) (i : nat) (b : A) : (i < length l)%nat -> vsetz l (Z.of_nat i) b = Ret (<[i := b]> l).
Proof. intros. by rewrite vsetz_lt, Nat2Z.id by lia. Qed.

Lemma vgetz_Ret_lt {A} (l : list A) (i : Z) (b : A) : vgetz l i = Ret b -> 0 <= i < Z.of_nat (length l).
Proof. unfold vgetz. case_decide; [|done]. intros Hi%vget_Ret%lookup_lt_Some. lia. Qed.

Lemma vsetz_get {A} (l : list A) (i : Z) (b b0 : A) : vgetz l i = Ret b0 ->
  exists l', vsetz l i b = Ret l' /\ length l' = length l /\ vgetz l' i = Ret b /\ forall j, j <> i -> vgetz l' j = vgetz l j.
Proof.
  intros Hi%vgetz_Ret_lt. rewrite vsetz_lt by done. eexists. split; [done|]. rewrite length_insert. split_and!; [done| |].
  - apply vgetz_Some; [lia|]. apply list_lookup_insert_eq. lia.
  - intros j Hj. unfold vgetz. case_decide; [|done]. unfold vget. by rewrite list_lookup_insert_ne by lia.
Qed.

Lemma vgetz_app_l {A} (l l' : list A) (i : Z) (b : A) : vgetz l i = Ret b -> vgetz (l ++ l') i = Ret b.
Proof.
  unfold vgetz. case_decide as Hd; [|done]. intros Hget%vget_Ret. apply vget_Some. by apply lookup_app_l_Some.
Qed.

(** ** The words of a trie

    A state stands for the word that leads to it from the root. *)
Section words.
Variable words : list str.

Definition st w : Z := match list_find (fun w' => w' = w) words with Some (i, _) => Z.of_nat i | None => NO_STATE end.

Record word_set : Prop := {
  ws_root : words !! 0%nat = Some [];
  ws_nodup : NoDup words;
  ws_prefix : forall w ch, w ++ [ch] ∈ words -> w ∈ words;
}.

(** The longest suffix of a text that is a word. *)
Fixpoint longest t : str :=
  match t with
  | [] => []
  | _ :: t' => if decide (t ∈ words) then t else longest t'
  end.

Lemma st_None w : w ∉ words -> st w = NO_STATE.
Proof.
  intros Hw. unfold st. destruct (list_find _ words) as [[i w']|] eqn:E; [|done].
  apply list_find_Some in E as (Hi & -> & _). by apply list_elem_of_lookup_2 in Hi.
Qed.

Lemma st_elem w : w ∈ words -> exists i, words !! i = Some w /\ st w = Z.of_nat i.
Proof.
  intros Hw. unfold st. destruct (list_find _ words) as [[i w']|] eqn:E.
  - apply list_find_Some in E as (Hi & -> & _). by exists i.
  - rewrite list_find_None, Forall_forall in E. by destruct (E w Hw).
Qed.

Context (Hw : word_set).

Lemma st_lookup i w : words !! i = Some w -> st w = Z.of_nat i.
Proof.
  intros Hi. destruct (st_elem w) as (j & Hj & ->); [by eapply list_elem_of_lookup_2|].
  f_equal. by eapply NoDup_lookup; [apply ws_nodup| |].
Qed.

Lemma st_inj w x : w ∈ words -> st w = st x -> w = x.
Proof.
  intros (i & Hi & Es)%st_elem E. rewrite Es in E. destruct (decide (x ∈ words)) as [Hx|Hx].
  - apply st_elem in Hx as (j & Hj & Ej). assert (i = j) as -> by lia. congruence.
  - rewrite (st_None _ Hx) in E. unfold NO_STATE in E. lia.
Qed.

Lemma root_word : [] ∈ words.
Proof. by eapply list_elem_of_lookup_2, ws_root. Qed.

Lemma st_root : st [] = 0.
Proof. by apply (st_lookup 0), ws_root. Qed.

Lemma st_nonneg w : w ∈ words -> 0 <= st w < Z.of_nat (length words).
Proof. intros (i & Hi%lookup_lt_Some & ->)%st_elem. lia. Qed.

Lemma st_not_root w : w ∈ words -> w <> [] -> st w <> 0.
Proof. intros Hin Hne E. apply Hne. apply st_inj; [done|]. by rewrite st_root. Qed.

Lemma st_no_state w : st w = NO_STATE <-> w ∉ words.
Proof. split; [|apply st_None]. intros E Hin%st_nonneg. unfold NO_STATE in *. lia. Qed.

(** A word has all its prefixes, so it is shorter than the number of words. *)
Lemma length_word w : w ∈ words -> (length w < length words)%nat.
Proof.
  intros Hin. assert (forall n, (n <= length w)%nat -> take n w ∈ words) as Hpre.
  { intros n. remember (length w - n)%nat as k eqn:Ek. revert n Ek. induction k as [|k IH]; intros n Ek Hn; [by rewrite take_ge by lia|].
    destruct (lookup_lt_is_Some_2 w n) as [ch Hc]; [lia|]. apply ws_prefix with ch; [done|]. rewrite <- (take_S_r _ _ _ Hc). apply IH; lia. }
  assert ((fun n => take n w) <$> seq 0 (S (length w)) ⊆+ words) as Hsub.
  { apply NoDup_submseteq.
    - apply NoDup_fmap_2_strong; [|apply NoDup_seq]. intros n m Hn%elem_of_seq Hm%elem_of_seq E%(f_equal length). rewrite !length_take in E. lia.
    - intros y (n & -> & Hn%elem_of_seq)%list_elem_of_fmap. apply Hpre. lia. }
  apply submseteq_length in Hsub. rewrite length_fmap, length_seq in Hsub. lia.
Qed.

Lemma longest_cons ch t : longest (ch :: t) = if decide (ch :: t ∈ words) then ch :: t else longest t.
Proof. done. Qed.

Lemma longest_id t : t ∈ words -> longest t = t.
Proof. destruct t; [done|]. intros. by rewrite longest_cons, decide_True. Qed.

Lemma longest_in t : longest t ∈ words.
Proof. induction t as [|ch t IH]; [apply root_word|]. rewrite longest_cons. by case_decide. Qed.

Lemma length_longest t : (length (longest t) <= length t)%nat.
Proof. induction t as [|ch t IH]; [done|]. rewrite longest_cons. case_decide; cbn [length]; lia. Qed.

(** The state after one more character depends on the state alone. *)
Lemma longest_step t ch : longest (longest t ++ [ch]) = longest (t ++ [ch]).
Proof.
  induction t as [|ch' t IH]; [done|]. rewrite longest_cons. case_decide as Hd; [done|]. rewrite IH.
  cbn [app]. rewrite longest_cons, decide_False; [done|]. intros Hin. by apply (ws_prefix Hw (ch' :: t) ch) in Hin.
Qed.

Lemma longest_tail w : w <> [] -> w ∉ words -> longest w = longest (tail w).
Proof. destruct w; [done|]. intros _ Hn. by rewrite longest_cons, decide_False. Qed.
End words.

(** ** What the patterns ending at a place are *)

(** The numbers of the patterns equal to a word. *)
Definition indices ps w : list nat := filter (fun i => ps !! i = Some w) (seq 0 (length ps)).

(** The patterns that are a suffix of a text, longest first. *)
Fixpoint outs ps t : list nat :=
  match t with
  | [] => []
  | _ :: t' => indices ps t ++ outs ps t'
  end.

Lemma elem_of_indices ps w i : i ∈ indices ps w <-> ps !! i = Some w.
Proof.
  unfold indices. rewrite list_elem_of_filter, elem_of_seq. split; [by intros [? _]|]. intros Hi. split; [done|].
  apply lookup_lt_Some in Hi. lia.
Qed.

Lemma indices_nil w : indices [] w = [].
Proof. done. Qed.

Lemma indices_snoc ps p w : indices (ps ++ [p]) w = indices ps w ++ (if decide (p = w) then [length ps] else []).
Proof.
  unfold indices. rewrite length_app. cbn [length]. rewrite Nat.add_1_r, seq_S, filter_app, Nat.add_0_l. f_equal.
  - apply filter_ext_in. intros i Hi%elem_of_seq. by rewrite lookup_app_l by lia.
  - rewrite filter_cons, list_lookup_middle by done. cbn [filter]. repeat case_decide; try done; naive_solver.
Qed.

Lemma indices_not_in ps w : w ∉ ps -> indices ps w = [].
Proof.
  intros Hn. destruct (indices ps w) as [|i l] eqn:E; [done|]. destruct Hn. apply (list_elem_of_lookup_2 _ i), elem_of_indices. rewrite E. by left.
Qed.

Lemma elem_of_outs ps t i : i ∈ outs ps t <-> exists p, ps !! i = Some p /\ p <> [] /\ p `suffix_of` t.
Proof.
  induction t as [|ch t IH]; cbn [outs].
  - split; [by intros ?%elem_of_nil|]. intros (p & _ & Hp & ->%suffix_nil_inv). done.
  - rewrite elem_of_app, elem_of_indices, IH. split.
    + intros [Hi|(p & Hi & Hp & Hs)]; [by exists (ch :: t)|]. exists p. split_and!; [done|done|by apply suffix_cons_r].
    + intros ([|ch' p] & Hi & Hp & Hs); [done|]. apply suffix_cons_inv in Hs as [[= -> ->]|Hs]; [by left|right; by eexists].
Qed.

Lemma NoDup_outs ps t : NoDup (outs ps t).
Proof.
  induction t as [|ch t IH]; cbn [outs]; [apply NoDup_nil_2|]. apply NoDup_app. split_and!; [apply NoDup_filter, NoDup_seq| |done].
  intros i Hi%elem_of_indices (p & Hp & _ & Hs)%elem_of_outs. rewrite Hi in Hp. injection Hp as <-.
  apply suffix_length in Hs. cbn in Hs. lia.
Qed.

Lemma length_outs ps t : (length (outs ps t) <= length ps)%nat.
Proof.
  rewrite <- (length_seq (length ps) 0). apply submseteq_length, NoDup_submseteq; [apply NoDup_outs|].
  intros i (p & Hi%lookup_lt_Some & _)%elem_of_outs. apply elem_of_seq. lia.
Qed.

Lemma outs_longest words ps t : (forall p, p ∈ ps -> p ∈ words) -> outs ps (longest words t) = outs ps t.
Proof.
  intros Hps. induction t as [|ch t IH]; [done|]. rewrite longest_cons. case_decide as Hd; [done|]. rewrite IH. cbn [outs].
  by rewrite indices_not_in by auto.
Qed.

Lemma outs_word ps w : w <> [] -> outs ps w = indices ps w ++ outs ps (tail w).
Proof. by destruct w. Qed.

(** Merging duplicate-free disjoint lists appends them. *)
Lemma merge_disjoint (src dst : list Z) : NoDup src -> (forall i, i ∈ src -> i ∉ dst) -> merge dst src = dst ++ src.
Proof.
  unfold merge. revert dst. induction src as [|i src IH]; intros dst Hnd Hdis; cbn [foldl]; [by rewrite app_nil_r|].
  apply NoDup_cons in Hnd as [Hi Hnd]. rewrite bool_decide_false by (apply Hdis; by left). rewrite IH; [by rewrite <- app_assoc|done|].
  intros j Hj. rewrite not_elem_of_app, list_elem_of_singleton. split; [apply Hdis; by right|by intros ->].
Qed.

Lemma merge_outs ps w : w <> [] ->
  merge (Z.of_nat <$> indices ps w) (Z.of_nat <$> outs ps (tail w)) = Z.of_nat <$> outs ps w.
Proof.
  intros Hne. rewrite (outs_word _ _ Hne), fmap_app. pose proof (NoDup_outs ps w) as Hnd. rewrite (outs_word _ _ Hne) in Hnd.
  apply NoDup_app in Hnd as (_ & Hdis & Hnd). apply merge_disjoint; [by apply NoDup_fmap_2; [intros ? ? ?%Nat2Z.inj|]|].
  intros i (j & -> & Hj)%list_elem_of_fmap (j' & E%Nat2Z.inj & Hj')%list_elem_of_fmap. subst j'. by apply (Hdis j).
Qed.

(** ** The trie while patterns are inserted *)
Record trie words (ps : list str) goto out : Prop := {
  tr_words : word_set words;
  tr_len : Z.of_nat (length goto) = ALPHABET_SIZE * Z.of_nat (length words);
  tr_goto : forall w ch, w ∈ words -> vgetz goto (entry (st words w) (uc ch)) = Ret (st words (w ++ [ch]));
  tr_out_len : length out = length words;
  tr_out : forall w, w ∈ words -> vgetz out (st words w) = Ret (Z.of_nat <$> indices ps w);
  tr_ps : forall p, p ∈ ps -> p ∈ words /\ p <> [];
}.

(** A new word gets the next state; the other states keep theirs. *)
Section new_word.
Context (words : list str) (Hw : word_set words) (w : str) (ch : ascii) (Hin : w ∈ words) (Hnew : w ++ [ch] ∉ words).

Lemma new_word_set : word_set (words ++ [w ++ [ch]]).
Proof.
  destruct Hw as [Hr Hnd Hp]. split.
  - by apply lookup_app_l_Some.
  - apply NoDup_app. split_and!; [done| |apply NoDup_singleton]. intros x Hx ->%list_elem_of_singleton. done.
  - intros x ch' [Hx|[-> _]%list_elem_of_singleton%app_inj_tail]%elem_of_app; apply elem_of_app; left; [by eapply Hp|done].
Qed.

Lemma st_new x : st (words ++ [w ++ [ch]]) x = if decide (x = w ++ [ch]) then Z.of_nat (length words) else st words x.
Proof.
  case_decide as Hd.
  - subst x. apply (st_lookup _ new_word_set). by apply list_lookup_middle.
  - destruct (decide (x ∈ words)) as [Hx|Hx].
    + destruct (st_elem _ _ Hx) as (i & Hi & ->). apply (st_lookup _ new_word_set). by apply lookup_app_l_Some.
    + rewrite !st_None; [done|done|]. rewrite not_elem_of_app, list_elem_of_singleton. done.
Qed.
End new_word.

Definition fits (n : nat) : Prop := Z.of_nat n < 2 ^ 31.

Lemma fits_i32 (n : nat) : fits n -> to_i32 (Z.of_nat n) = Z.of_nat n.
Proof. unfold fits. intros. apply to_i32_in. unfold in_i32, INT32_MIN, INT32_MAX. lia. Qed.

Lemma vgetz_replicate {A} (n : nat) (b : A) (i : Z) : 0 <= i < Z.of_nat n -> vgetz (replicate n b) i = Ret b.
Proof. intros. apply vgetz_Some; [lia|]. apply lookup_replicate_2. lia. Qed.

Lemma vgetz_app_r {A} (l l' : list A) (i : Z) : Z.of_nat (length l) <= i -> vgetz (l ++ l') i = vgetz l' (i - Z.of_nat (length l)).
Proof. intros Hi. unfold vgetz. rewrite !decide_True by lia. unfold vget. rewrite lookup_app_r by lia. by replace (Z.to_nat i - length l)%nat with (Z.to_nat (i - Z.of_nat (length l))) by lia. Qed.

Lemma entry_new (n : nat) goto ch : Z.of_nat (length goto) = ALPHABET_SIZE * Z.of_nat n ->
  vgetz (goto ++ replicate (Z.to_nat ALPHABET_SIZE) NO_STATE) (entry (Z.of_nat n) (uc ch)) = Ret NO_STATE.
Proof.
  intros Hl. pose proof (uc_range ch). unfold entry. rewrite vgetz_app_r by (unfold ALPHABET_SIZE in *; lia).
  apply vgetz_replicate. unfold ALPHABET_SIZE in *. lia.
Qed.

(** The fields of an automaton that inserting changes, besides the patterns. *)
Record growing words ps a : Prop := {
  gr_trie : trie words ps (goto_ a) (output_ a);
  gr_fail : length (fail_ a) = length words;
  gr_fail0 : vgetz (fail_ a) 0 = Ret 0;
  gr_ptr : length (outputPtr_ a) = length words;
  gr_cnt : length (outputCnt_ a) = length words;
  gr_patterns : patterns_ a = ps;
  gr_built : built_ a = false;
}.

Lemma insert_state words ps a w ch : growing words ps a -> w ∈ words -> w ++ [ch] ∉ words -> fits (length words) ->
  exists a', (let '(a', n) := addState a in goto ← vsetz (goto_ a') (entry (st words w) (uc ch)) (to_i32 n); Ret (set_goto a' goto)) = Ret a' /\
    growing (words ++ [w ++ [ch]]) ps a'.
Proof.
  intros [[Hw Hl Hg Hol Ho Hps] Hf Hf0 Hp Hc Hpat Hb] Hin Hnew Hfit. cbn [addState fst snd].
  assert (Z.of_nat (length (goto_ a)) / ALPHABET_SIZE = Z.of_nat (length words)) as ->.
  { rewrite Hl, Z.mul_comm. by apply Z.div_mul. }
  rewrite fits_i32 by done. unfold set_goto. cbn [goto_ trans_ fail_ outputData_ outputPtr_ outputCnt_ patterns_ built_ output_].
  pose proof (Hg w ch Hin) as Hget. rewrite (st_None _ _ Hnew) in Hget.
  destruct (vsetz_get _ _ (Z.of_nat (length words)) _ (vgetz_app_l _ (replicate (Z.to_nat ALPHABET_SIZE) NO_STATE) _ _ Hget)) as (goto & -> & Hlg & Hsame & Hother).
  ret_step. eexists. split; [done|].
  split; cbn [goto_ trans_ fail_ outputData_ outputPtr_ outputCnt_ patterns_ built_ output_]; rewrite ?length_app; cbn [length]; [|lia| |lia|lia|done|done].
  2: { by apply vgetz_app_l. }
  split; [by apply new_word_set| | | | |].
  - rewrite Hlg, !length_app, length_replicate. cbn [length]. unfold ALPHABET_SIZE in *. lia.
  - intros x ch' [Hx| ->%list_elem_of_singleton]%elem_of_app.
    + rewrite (st_new words Hw w ch Hin Hnew x), decide_False by (by intros ->).
      rewrite (st_new words Hw w ch Hin Hnew (x ++ [ch'])). case_decide as Hd.
      * apply app_inj_tail in Hd as [-> ->]. done.
      * rewrite Hother; [apply vgetz_app_l, Hg, Hx|]. intros [E ->]%entry_inj. apply Hd. f_equal. by apply (st_inj words).
    + rewrite (st_new words Hw w ch Hin Hnew (w ++ [ch])), decide_True by done.
      rewrite st_None; [|rewrite not_elem_of_app, list_elem_of_singleton; split].
      * rewrite Hother; [by apply entry_new|]. intros [E _]%entry_inj. pose proof (st_nonneg words w Hin). lia.
      * intros Hx. apply Hnew. by apply (ws_prefix _ Hw _ ch').
      * intros E%(f_equal length). rewrite !length_app in E. cbn in E. lia.
  - rewrite !length_app. cbn [length]. lia.
  - intros x [Hx| ->%list_elem_of_singleton]%elem_of_app; rewrite (st_new words Hw w ch Hin Hnew).
    + rewrite decide_False by (by intros ->). apply vgetz_app_l. by apply Ho.
    + rewrite decide_True by done. rewrite indices_not_in by (by intros [? _]%Hps).
      rewrite vgetz_app_r by lia. by rewrite Hol, Z.sub_diag.
  - intros p Hin'. destruct (Hps p Hin'). split; [|done]. apply elem_of_app. by left.
Qed.

Lemma neq_snoc {A} (l : list A) (b : A) : l <> l ++ [b].
Proof. intros E%(f_equal length). rewrite length_app in E. cbn in E. lia. Qed.

Lemma ac_insert_loop_ok pattern : forall words ps a w,
  growing words ps a -> w ∈ words -> fits (length words + length pattern) ->
  exists words' a', insert_loop a (st words w) pattern = Ret (a', st words' (w ++ pattern)) /\ growing words' ps a' /\
    w ++ pattern ∈ words' /\ (length words' <= length words + length pattern)%nat.
Proof.
  induction pattern as [|ch pattern IH]; intros words ps a w Hgr Hin Hfit; cbn [insert_loop].
  { exists words, a. rewrite app_nil_r. cbn [length]. split_and!; [done|done|done|lia]. }
  pose proof (gr_trie _ _ _ Hgr) as Htr. pose proof (tr_words _ _ _ _ Htr) as Hw. cbv zeta. rewrite (tr_goto _ _ _ _ Htr) by done. ret_step.
  unfold fits in *. cbn [length] in *. destruct (decide (w ++ [ch] ∈ words)) as [Hold|Hnew].
  - rewrite decide_False by (by intros Hn%st_no_state). ret_step. rewrite (tr_goto _ _ _ _ Htr) by done. ret_step.
    destruct (IH words ps a (w ++ [ch]) Hgr Hold) as (words' & a' & H1 & H2 & H3 & H4); [lia|]. rewrite <- app_assoc in H1, H3.
    exists words', a'. split_and!; [done|done|done|lia].
  - rewrite decide_True by (by apply st_None). destruct (insert_state words ps a w ch Hgr Hin Hnew) as (a1 & -> & Hgr1); [unfold fits; lia|].
    ret_step. assert (st words w = st (words ++ [w ++ [ch]]) w) as ->.
    { rewrite (st_new words Hw w ch Hin Hnew), decide_False by apply neq_snoc. done. }
    rewrite (tr_goto _ _ _ _ (gr_trie _ _ _ Hgr1)) by (apply elem_of_app; by left). ret_step.
    destruct (IH _ ps a1 (w ++ [ch]) Hgr1) as (words' & a' & H1 & H2 & H3 & H4); [apply elem_of_app; right; by left|rewrite length_app; cbn [length]; lia|].
    rewrite <- app_assoc in H1, H3. rewrite length_app in H4. cbn [length] in H4. exists words', a'. split_and!; [done|done|done|lia].
Qed.

Definition total ps : nat := sum_list_with length ps.

(** The sizes that the truncation to [int32_t] leaves as they are. *)
Definition limit ps : Prop := fits ((total ps + 1) * length ps).

Lemma total_snoc ps p : total (ps ++ [p]) = (total ps + length p)%nat.
Proof. unfold total. rewrite sum_list_with_app. cbn. lia. Qed.

Lemma limit_snoc ps p : limit (ps ++ [p]) -> limit ps /\ fits (total ps + 1 + length p) /\ fits (length ps).
Proof.
  unfold limit, fits. rewrite total_snoc, length_app. cbn [length]. nia.
Qed.

Definition grown ps a : Prop := exists words, growing words ps a /\ (length words <= total ps + 1)%nat.

Lemma ac_new_ok : grown [] ac_new.
Proof.
  exists [[]]. split; [|done]. split; try done. split; try done.
  - split; [done|apply NoDup_singleton|]. intros w ch ?%list_elem_of_singleton. by destruct w.
  - intros w ch ->%list_elem_of_singleton. rewrite (st_None [[]] ([] ++ [ch])) by (rewrite list_elem_of_singleton; done).
    change (st [[]] []) with 0. unfold entry. pose proof (uc_range ch). cbn [ac_new goto_]. apply vgetz_replicate. lia.
  - intros w ->%list_elem_of_singleton. done.
  - by intros p ?%elem_of_nil.
Qed.

Lemma ac_insert_ok ps a p : grown ps a -> p <> [] -> limit (ps ++ [p]) -> exists a', insert a p = Ret a' /\ grown (ps ++ [p]) a'.
Proof.
  intros (words & Hgr & Hlen) Hne (_ & Hfit & Hfit')%limit_snoc.
  pose proof (gr_trie _ _ _ Hgr) as Htr. pose proof (tr_words _ _ _ _ Htr) as Hw.
  destruct (ac_insert_loop_ok p words ps a [] Hgr (root_word _ Hw)) as (words' & a1 & Hloop & Hgr1 & Hin & Hlen'); [unfold fits in *; lia|].
  rewrite (st_root _ Hw) in Hloop. cbn [app] in *. unfold insert. destruct p as [|ch p]; [done|]. set (pat := ch :: p) in *.
  rewrite (gr_built _ _ _ Hgr), Hloop. ret_step. destruct Hgr1 as [[Hw1 Hl1 Hg1 Hol Ho Hps] Hf Hf0 Hp Hc Hpat Hb].
  rewrite Ho by done. ret_step. rewrite Hpat, fits_i32 by done.
  destruct (vsetz_get _ _ ((Z.of_nat <$> indices ps pat) ++ [Z.of_nat (length ps)]) _ (Ho _ Hin)) as (out & -> & Hlo & Hsame & Hother).
  ret_step. eexists. split; [done|]. exists words'. rewrite total_snoc. split; [|lia].
  split; cbn [goto_ trans_ fail_ outputData_ outputPtr_ outputCnt_ patterns_ built_ output_]; try done. split; [done|done|done|lia| |].
  - intros w Hw'. rewrite indices_snoc, fmap_app. destruct (decide (pat = w)) as [<-|Hd]; [done|].
    rewrite app_nil_r, Hother; [by apply Ho|]. intros E. apply Hd. by apply (st_inj words').
  - intros q [Hq| ->%list_elem_of_singleton]%elem_of_app; [by apply Hps|done].
Qed.

(** ** Building: the table with the loops of the root *)
Definition root_goto words w ch : Z := if decide (w = [] /\ [ch] ∉ words) then 0 else st words (w ++ [ch]).

Lemma root_entry ch : entry 0 (uc ch) = uc ch.
Proof. done. Qed.

Lemma root_loops_ok (cs : list ascii) : forall goto, (forall ch, exists g, vgetz goto (uc ch) = Ret g) ->
  exists goto', root_loops goto (uc <$> cs) = Ret goto' /\ length goto' = length goto /\
    (forall i, (forall ch, ch ∈ cs -> i <> uc ch) -> vgetz goto' i = vgetz goto i) /\
    forall ch g, ch ∈ cs -> vgetz goto (uc ch) = Ret g -> vgetz goto' (uc ch) = Ret (if decide (g = NO_STATE) then 0 else g).
Proof.
  induction cs as [|ch cs IH]; intros goto Hall; cbn [root_loops fmap list_fmap].
  { exists goto. split_and!; [done|done|done|]. by intros ? ? ?%elem_of_nil. }
  destruct (Hall ch) as [g Hg]. rewrite Hg. ret_step.
  assert (exists goto1, (if decide (g = NO_STATE) then vsetz goto (uc ch) 0 else Ret goto) = Ret goto1 /\ length goto1 = length goto /\
    vgetz goto1 (uc ch) = Ret (if decide (g = NO_STATE) then 0 else g) /\ forall j, j <> uc ch -> vgetz goto1 j = vgetz goto j) as (goto1 & -> & Hl1 & Hsame & Hother).
  { case_decide; [|by exists goto]. by apply (vsetz_get _ _ 0 g). }
  ret_step. destruct (IH goto1) as (goto' & -> & Hl & Hout & Hin).
  { intros ch'. destruct (decide (uc ch' = uc ch)) as [->|Hne]; [by eexists|]. rewrite Hother by done. apply Hall. }
  exists goto'. split_and!; [done|lia| |].
  - intros i Hi. rewrite Hout, Hother; [done|apply Hi; by left|]. intros ch' Hch. apply Hi. by right.
  - intros ch' g' Hch Hg'. destruct (decide (ch' ∈ cs)) as [Hcs|Hcs].
    + destruct (decide (uc ch' = uc ch)) as [E|Hne]; [|apply (Hin ch'); [done|by rewrite Hother]].
      rewrite E in *. rewrite Hg in Hg'. injection Hg' as ->. rewrite <- E. apply uc_inj in E as ->.
      rewrite (Hin ch _ Hcs Hsame). f_equal. repeat case_decide; done.
    + apply elem_of_cons in Hch as [->|Hch]; [|done]. rewrite Hg in Hg'. injection Hg' as ->.
      rewrite Hout; [done|]. intros ch' Hch' E%uc_inj. by subst.
Qed.

(** What step 1 leaves of the trie. *)
Record looped words goto : Prop := {
  lp_words : word_set words;
  lp_goto : forall w ch, w ∈ words -> vgetz goto (entry (st words w) (uc ch)) = Ret (root_goto words w ch);
}.

Lemma looped_ok words ps goto out : trie words ps goto out ->
  exists goto', root_loops goto alphabet = Ret goto' /\ length goto' = length goto /\ looped words goto'.
Proof.
  intros [Hw Hl Hg _ _ _]. rewrite alphabet_chars. pose proof (st_root _ Hw) as H0. pose proof (root_word _ Hw) as Hr.
  assert (forall ch, vgetz goto (uc ch) = Ret (st words [ch])) as Hroot by (intros ch; rewrite <- root_entry, <- H0; by apply Hg).
  destruct (root_loops_ok chars goto) as (goto' & -> & Hl' & Hother & Hsame); [intros ch; by eexists|].
  exists goto'. split_and!; [done|done|]. split; [done|]. intros w ch Hin. unfold root_goto.
  destruct (decide (w = [])) as [->|Hne].
  - rewrite H0, root_entry, (Hsame ch _ (elem_of_chars ch) (Hroot ch)). f_equal. cbn [app].
    pose proof (st_no_state words [ch]). repeat case_decide; naive_solver.
  - rewrite decide_False by naive_solver. rewrite Hother; [by apply Hg|]. intros ch' _ E.
    rewrite <- (root_entry ch') in E. apply entry_inj in E as [E _]. by apply (st_not_root words) in E.
Qed.

Lemma root_goto_word words w ch : w ++ [ch] ∈ words -> root_goto words w ch = st words (w ++ [ch]).
Proof. intros Hin. unfold root_goto. rewrite decide_False; [done|]. intros [-> Hn]. by apply Hn. Qed.

Lemma root_goto_none words w ch : w <> [] -> w ++ [ch] ∉ words -> root_goto words w ch = NO_STATE.
Proof. intros Hne Hn. unfold root_goto. rewrite decide_False by naive_solver. by apply st_None. Qed.

(** From the root the table gives the longest suffix. *)
Lemma root_goto_nil words ch : word_set words -> root_goto words [] ch = st words (longest words [ch]).
Proof.
  intros Hw. unfold root_goto. destruct (decide ([ch] ∈ words)) as [Hin|Hn].
  - rewrite decide_False by naive_solver. by rewrite longest_id.
  - rewrite decide_True by done. rewrite longest_cons, decide_False by done. symmetry. by apply st_root.
Qed.

(** ** Fail links and outputs of the states reached so far *)
Record links words ps fail out (K : list str) : Prop := {
  lk_fail_len : length fail = length words;
  lk_out_len : length out = length words;
  lk_fail : forall w, w ∈ K -> vgetz fail (st words w) = Ret (st words (longest words (tail w)));
  lk_out : forall w, w ∈ K -> vgetz out (st words w) = Ret (Z.of_nat <$> outs ps w);
  lk_rest : forall w, w ∈ words -> w ∉ K -> vgetz out (st words w) = Ret (Z.of_nat <$> indices ps w);
}.

Definition children_of words w (cs : list ascii) : list str := filter (fun x => x ∈ words) ((fun ch => w ++ [ch]) <$> cs).

Lemma elem_of_children words w cs x : x ∈ children_of words w cs <-> x ∈ words /\ exists ch, ch ∈ cs /\ x = w ++ [ch].
Proof. unfold children_of. rewrite list_elem_of_filter, list_elem_of_fmap. naive_solver. Qed.

Lemma children_cons words w ch cs :
  children_of words w (ch :: cs) = (if decide (w ++ [ch] ∈ words) then [w ++ [ch]] else []) ++ children_of words w cs.
Proof. unfold children_of. cbn [fmap list_fmap]. rewrite filter_cons. by case_decide. Qed.

Lemma NoDup_children words w cs : NoDup cs -> NoDup (children_of words w cs).
Proof. intros Hnd. apply NoDup_filter, NoDup_fmap_2; [|done]. intros c1 c2 E. by apply app_inj_tail in E as [_ ->]. Qed.

Lemma queue_children_ok words ps goto out (cs : list ascii) : looped words goto -> (forall p, p ∈ ps -> p <> []) ->
  forall fail q K, NoDup cs -> links words ps fail out K -> (forall ch, ch ∈ cs -> [ch] ∉ K) ->
  exists fail', queue_children goto fail q (uc <$> cs) = Ret (fail', q ++ (st words <$> children_of words [] cs)) /\
    links words ps fail' out (K ++ children_of words [] cs).
Proof.
  intros [Hw Hg] Hps. induction cs as [|ch cs IH]; intros fail q K Hnd Hlk Hnew; cbn [queue_children fmap list_fmap].
  { exists fail. cbn. by rewrite !app_nil_r. }
  apply NoDup_cons in Hnd as [Hch Hnd]. pose proof (Hg [] ch (root_word _ Hw)) as Hget. rewrite (st_root _ Hw), root_entry in Hget. rewrite Hget. ret_step.
  rewrite children_cons. change ([] ++ [ch]) with [ch]. destruct (decide ([ch] ∈ words)) as [Hin|Hn]; cbn [app].
  - rewrite root_goto_word by done. cbn [app]. rewrite decide_False by (by apply st_not_root).
    destruct (lookup_lt_is_Some_2 fail (Z.to_nat (st words [ch]))) as [f0 Hf0].
    { rewrite (lk_fail_len _ _ _ _ _ Hlk). pose proof (st_nonneg words _ Hin). lia. }
    pose proof (st_nonneg words _ Hin) as Hnn. destruct (vsetz_get fail _ 0 f0 (vgetz_Some _ _ _ (proj1 Hnn) Hf0)) as (fail1 & -> & Hl & Hsame & Hother). ret_step.
    destruct (IH fail1 (q ++ [st words [ch]]) (K ++ [[ch]]) Hnd) as (fail' & -> & Hlk').
    + destruct Hlk as [Hfl Hol Hf Ho Hr]. split; [lia|done| | |].
      * intros w [Hk| ->%list_elem_of_singleton]%elem_of_app.
        -- rewrite Hother; [by apply Hf|]. intros E. apply (Hnew ch); [by left|]. apply symmetry, (st_inj words) in E; [by subst|done].
        -- rewrite Hsame. cbn [tail longest]. by rewrite (st_root _ Hw).
      * intros w [Hk| ->%list_elem_of_singleton]%elem_of_app; [by apply Ho|]. cbn [outs]. rewrite app_nil_r. apply Hr; [done|]. apply Hnew. by left.
      * intros w Hin' [Hk _]%not_elem_of_app. by apply Hr.
    + intros ch' Hch'. rewrite not_elem_of_app, list_elem_of_singleton. split; [apply Hnew; by right|]. by intros [= ->].
    + exists fail'. rewrite <- !app_assoc in *. done.
  - assert (root_goto words [] ch = 0) as -> by (unfold root_goto; by rewrite decide_True). rewrite decide_True by done.
    apply IH; [done|done|]. intros ch' Hch'. apply Hnew. by right.
Qed.

(** The walk along the fail links. *)
Lemma follow_fail_ok words ps goto fail out K ch : looped words goto -> links words ps fail out K ->
  forall fuel y, y ∈ words -> (forall x, x ∈ words -> (length x <= length y)%nat -> x ∈ K) -> (length y < fuel)%nat ->
  exists z, follow_fail fuel goto fail (st words y) (uc ch) = Ret (st words z) /\ z ∈ words /\
    root_goto words z ch = st words (longest words (y ++ [ch])).
Proof.
  intros [Hw Hg] Hlk. induction fuel as [|fuel IH]; intros y Hy HK Hf; [lia|]. cbn [follow_fail].
  destruct (decide (y = [])) as [->|Hne].
  { rewrite (st_root _ Hw), decide_True by done. exists []. rewrite (st_root _ Hw). split_and!; [done|done|by apply root_goto_nil]. }
  rewrite decide_False by (by apply st_not_root). rewrite Hg by done. ret_step. destruct (decide (y ++ [ch] ∈ words)) as [Hin|Hn].
  - rewrite root_goto_word by done. rewrite decide_False by (by intros ?%st_no_state). exists y.
    rewrite longest_id by done. split_and!; [done|done|by apply root_goto_word].
  - rewrite root_goto_none by done. rewrite decide_True by done. rewrite (lk_fail _ _ _ _ _ Hlk) by (by apply HK). ret_step.
    assert (length (longest words (tail y)) < length y)%nat as Hlt.
    { pose proof (length_longest words (tail y)). destruct y; [done|]. cbn [tail length] in *. lia. }
    destruct (IH (longest words (tail y))) as (z & -> & Hz & Hr); [by apply longest_in|intros x Hx Hl; apply HK; [done|lia]|lia|].
    exists z. split_and!; [done|done|]. rewrite Hr, longest_step by done. destruct y as [|ch' y]; [done|]. cbn [tail app].
    rewrite (longest_cons words ch'), decide_False by done. done.
Qed.

Lemma mergeOutput_ok words ps fail out K w ch : word_set words -> (forall p, p ∈ ps -> p ∈ words) -> links words ps fail out K ->
  w ++ [ch] ∈ words -> w ++ [ch] ∉ K -> longest words (tail (w ++ [ch])) ∈ K ->
  exists out', length out' = length out /\ mergeOutput out (st words (w ++ [ch])) (st words (longest words (tail (w ++ [ch])))) = Ret out' /\
    vgetz out' (st words (w ++ [ch])) = Ret (Z.of_nat <$> outs ps (w ++ [ch])) /\
    forall i, i <> st words (w ++ [ch]) -> vgetz out' i = vgetz out i.
Proof.
  intros Hw Hps Hlk Hin Hnk Hfk. unfold mergeOutput. set (v := w ++ [ch]) in *. assert (v <> []) as Hne by (subst v; intros E; by apply app_nil in E as [_ ?]).
  pose proof (lk_rest _ _ _ _ _ Hlk _ Hin Hnk) as Hv. rewrite (lk_out _ _ _ _ _ Hlk (longest words (tail v)) Hfk). ret_step.
  rewrite outs_longest by done. rewrite <- (merge_outs _ _ Hne). destruct (Z.of_nat <$> outs ps (tail v)) as [|i l] eqn:E.
  - exists out. split; [done|]. split; [done|]. split; [exact Hv|done].
  - rewrite <- E, Hv. ret_step. destruct (vsetz_get _ _ (merge (Z.of_nat <$> indices ps v) (Z.of_nat <$> outs ps (tail v))) _ Hv) as (out' & H1 & H0 & H2 & H3).
    by exists out'.
Qed.

Lemma link_children_ok words ps goto w (cs : list ascii) : looped words goto -> (forall p, p ∈ ps -> p ∈ words) -> w ∈ words -> w <> [] ->
  forall fail out q K, NoDup cs -> links words ps fail out K -> (forall x, x ∈ words -> (length x <= length w)%nat -> x ∈ K) ->
  (forall ch, ch ∈ cs -> w ++ [ch] ∉ K) ->
  exists fail' out', link_children goto fail out q (st words w) (uc <$> cs) = Ret (fail', out', q ++ (st words <$> children_of words w cs)) /\
    links words ps fail' out' (K ++ children_of words w cs).
Proof.
  intros Hlp Hps Hin Hne. pose proof Hlp as [Hw Hg]. induction cs as [|ch cs IH]; intros fail out q K Hnd Hlk Hsh Hnew; cbn [link_children fmap list_fmap].
  { exists fail, out. cbn. by rewrite !app_nil_r. }
  apply NoDup_cons in Hnd as [Hch Hnd]. rewrite Hg by done. ret_step. rewrite children_cons.
  destruct (decide (w ++ [ch] ∈ words)) as [Hv|Hv].
  2: { rewrite root_goto_none by done. rewrite decide_True by done. apply IH; [done|done|done|]. intros ch' Hch'. apply Hnew. by right. }
  rewrite root_goto_word by done. rewrite decide_False by (by intros ?%st_no_state). pose proof (Hnew ch ltac:(by left)) as Hvk.
  rewrite (lk_fail _ _ _ _ _ Hlk) by (by apply Hsh). ret_step.
  pose proof (length_longest words (tail w)) as Hlt. pose proof (length_word _ Hw w Hin) as Hlw. rewrite (lk_fail_len _ _ _ _ _ Hlk).
  assert (length (longest words (tail w)) <= length w)%nat as Hlt' by (destruct w; cbn [tail length] in *; lia).
  destruct (follow_fail_ok words ps goto fail out K ch Hlp Hlk (S (length words)) (longest words (tail w))) as (z & -> & Hz & Hr);
    [by apply longest_in|intros x Hx Hl; apply Hsh; [done|lia]|lia|].
  ret_step. rewrite Hg, Hr by done. ret_step. rewrite longest_step by done.
  assert (tail w ++ [ch] = tail (w ++ [ch])) as -> by (by destruct w).
  set (v := w ++ [ch]) in *. set (f := longest words (tail v)).
  assert (f ∈ K) as Hfk.
  { apply Hsh; [by apply longest_in|]. pose proof (length_longest words (tail v)). subst f v. destruct w; [done|]. cbn [tail app length] in *. rewrite length_app in *. cbn [length] in *. lia. }
  pose proof (st_nonneg words _ Hv) as Hnn.
  destruct (lookup_lt_is_Some_2 fail (Z.to_nat (st words v))) as [f0 Hf0]; [rewrite (lk_fail_len _ _ _ _ _ Hlk); lia|].
  destruct (vsetz_get fail _ (st words f) f0 (vgetz_Some _ _ _ (proj1 Hnn) Hf0)) as (fail1 & -> & Hl & Hsame & Hother). ret_step.
  destruct (mergeOutput_ok words ps fail out K w ch Hw Hps Hlk Hv Hvk Hfk) as (out1 & Hlo & Hm & Hosame & Hoother). fold v in Hm, Hosame, Hoother. fold f in Hm.
  rewrite Hm. ret_step.
  destruct (IH fail1 out1 (q ++ [st words v]) (K ++ [v]) Hnd) as (fail' & out' & -> & Hlk').
  - destruct Hlk as [Hfl Hol Hf Ho Hrest]. assert (forall x, x ∈ words -> x <> v -> st words x <> st words v) as Hdiff by (intros x Hx Hxv E; by apply Hxv, (st_inj words)).
    assert (forall x, x ∈ K -> st words x <> st words v) as HdiffK.
    { intros x Hx E. symmetry in E. apply (st_inj words) in E; [by subst x|done]. }
    split; [lia|lia| | |].
    + intros x [Hk| ->%list_elem_of_singleton]%elem_of_app; [rewrite Hother; auto|done].
    + intros x [Hk| ->%list_elem_of_singleton]%elem_of_app; [rewrite Hoother; auto|done].
    + intros x Hx [Hk Hxv%not_elem_of_cons]%not_elem_of_app. destruct Hxv as [Hxv _]. rewrite Hoother by auto. by apply Hrest.
  - intros x Hx Hl'. apply elem_of_app. left. by apply Hsh.
  - intros ch' Hch'. rewrite not_elem_of_app, list_elem_of_singleton. split; [apply Hnew; by right|].
    intros E. subst v. apply app_inj_tail in E as [_ ->]. done.
  - exists fail', out'. rewrite <- !app_assoc in *. done.
Qed.

(** ** The breadth-first order *)
Definition shorter x y : Prop := (length x <= length y)%nat.

Record bfs_inv words (ow qw : list str) : Prop := {
  bi_nodup : NoDup ([] :: ow ++ qw);
  bi_words : forall w, w ∈ [] :: ow ++ qw -> w ∈ words;
  bi_children : forall w ch, w ∈ [] :: ow -> w ++ [ch] ∈ words -> w ++ [ch] ∈ ow ++ qw;
  bi_parents : forall w ch, w ++ [ch] ∈ ow ++ qw -> w ∈ [] :: ow;
  bi_sorted : StronglySorted shorter (ow ++ qw);
  bi_close : forall x y, x ∈ qw -> y ∈ qw -> (length x <= S (length y))%nat;
}.

(** Every word up to the length of the front of the queue has been reached. *)
Lemma bfs_shallow words ow w qw x : word_set words -> bfs_inv words ow (w :: qw) -> x ∈ words -> (length x <= length w)%nat ->
  x ∈ [] :: ow ++ w :: qw.
Proof.
  intros Hw Hi. induction x as [|ch x IH] using rev_ind; intros Hx Hl; [by left|].
  rewrite length_app in Hl. cbn [length] in Hl. apply ws_prefix in Hx as Hx'; [|done]. specialize (IH Hx' ltac:(lia)).
  right. apply (bi_children _ _ _ Hi); [|done]. rewrite app_comm_cons in IH. apply elem_of_app in IH as [IH|IH]; [done|exfalso].
  assert (length w <= length x)%nat; [|lia]. pose proof (bi_sorted _ _ _ Hi) as Hs. apply StronglySorted_app_1_r in Hs.
  apply elem_of_cons in IH as [->|IH]; [done|]. apply StronglySorted_inv in Hs as [_ Hs]. rewrite Forall_forall in Hs. by apply Hs.
Qed.

Lemma same_length_sorted n (l : list str) : Forall (fun x => length x = n) l -> StronglySorted shorter l.
Proof.
  induction 1 as [|x l Hx Hall IH]; constructor; [done|]. eapply Forall_impl; [exact Hall|]. intros y Hy. unfold shorter. cbn in *. lia.
Qed.

(** One state taken from the queue. *)
Lemma bfs_step words ow w qw : word_set words -> bfs_inv words ow (w :: qw) ->
  bfs_inv words (ow ++ [w]) (qw ++ children_of words w chars).
Proof.
  intros Hw Hi. pose proof Hi as [Hnd Hin Hch Hpar Hs Hcl]. set (new := children_of words w chars).
  assert (forall x, x ∈ new <-> x ∈ words /\ exists ch, x = w ++ [ch]) as Hnew.
  { intros x. unfold new. rewrite elem_of_children. pose proof elem_of_chars. naive_solver. }
  assert ((ow ++ [w]) ++ qw ++ new = (ow ++ w :: qw) ++ new) as Eapp by (by rewrite <- !app_assoc).
  apply StronglySorted_app in Hs as (Hs1 & Hs2 & Hs3). apply StronglySorted_cons in Hs3 as [Hs3 Hs4]. rewrite Forall_forall in Hs3.
  assert (forall x, x ∈ new -> length x = S (length w)) as Hlen by (intros x [_ [ch ->]]%Hnew; rewrite length_app; cbn; lia).
  rewrite app_comm_cons in Hnd. pose proof Hnd as Hnd0. apply NoDup_app in Hnd as (_ & Hnd & _).
  split; rewrite ?Eapp.
  - rewrite app_comm_cons. apply NoDup_app. split_and!; [done| |apply NoDup_children, NoDup_chars].
    intros x Hx [_ [ch ->]]%Hnew. apply elem_of_cons in Hx as [Hx|Hx]; [by apply app_nil in Hx as [_ ?]|].
    apply Hpar in Hx. apply (Hnd _ Hx). by left.
  - intros x Hx. rewrite app_comm_cons in Hx. apply elem_of_app in Hx as [Hx|[Hx _]%Hnew]; [by apply Hin|done].
  - intros x ch Hx Hxw. rewrite app_comm_cons in Hx. apply elem_of_app. apply elem_of_app in Hx as [Hx| ->%list_elem_of_singleton].
    + left. by apply Hch.
    + right. apply Hnew. by eauto.
  - intros x ch [Hx|Hx]%elem_of_app; rewrite app_comm_cons; apply elem_of_app; [left; by eapply Hpar|].
    apply Hnew in Hx as [_ [ch' [-> _]%app_inj_tail]]. right. by left.
  - apply StronglySorted_app. split_and!.
    + intros x y Hx Hy%Hlen. unfold shorter. rewrite Hy. apply elem_of_app in Hx as [Hx|[->|Hx]%elem_of_cons]; [|lia|].
      * assert (shorter x w) as Hxw by (apply Hs1; [done|by left]). unfold shorter in Hxw. lia.
      * apply Hcl; [by right|by left].
    + apply StronglySorted_app. split_and!; [done|done|]. apply StronglySorted_cons. by rewrite Forall_forall.
    + apply (same_length_sorted (S (length w))). by rewrite Forall_forall.
  - intros x y [Hx|Hx%Hlen]%elem_of_app [Hy|Hy%Hlen]%elem_of_app; [apply Hcl; by right| |apply Hs3 in Hy; unfold shorter in Hy; lia|lia].
    assert (length x <= S (length w))%nat by (apply Hcl; [by right|by left]). lia.
Qed.

Lemma ac_bfs_ok words ps goto : looped words goto -> (forall p, p ∈ ps -> p ∈ words) ->
  forall fuel fail out ow qw, bfs_inv words ow qw -> links words ps fail out ([] :: ow ++ qw) -> (length words < fuel + length ow)%nat ->
  exists fail' out' ow', bfs_loop fuel goto fail out (st words <$> qw) (st words <$> ow) = Ret (fail', out', st words <$> ow') /\
    bfs_inv words ow' [] /\ links words ps fail' out' ([] :: ow').
Proof.
  intros Hlp Hps. pose proof Hlp as [Hw _]. induction fuel as [|fuel IH]; intros fail out ow qw Hi Hlk Hf; cbn [bfs_loop].
  - assert (length ([] :: ow ++ qw) <= length words)%nat as Hle; [|cbn in Hle; rewrite length_app in Hle; lia].
    apply submseteq_length, NoDup_submseteq; [apply Hi|]. apply Hi.
  - destruct qw as [|w qw]; cbn [fmap list_fmap].
    { exists fail, out, ow. rewrite app_nil_r in Hlk. done. }
    assert (w ∈ words) as Hin by (apply (bi_words _ _ _ Hi); right; apply elem_of_app; right; by left).
    assert (w ∉ [] :: ow) as Hnow.
    { pose proof (bi_nodup _ _ _ Hi) as Hnd. rewrite app_comm_cons in Hnd. apply NoDup_app in Hnd as (_ & Hnd & _). intros Hx. apply (Hnd _ Hx). by left. }
    rewrite alphabet_chars.
    destruct (link_children_ok words ps goto w chars Hlp Hps Hin) with (fail := fail) (out := out) (q := st words <$> qw) (K := [] :: ow ++ w :: qw)
      as (fail' & out' & -> & Hlk'); [intros ->; apply Hnow; by left|apply NoDup_chars|done| | |].
    + intros x Hx Hl. by apply (bfs_shallow words).
    + intros ch _ [E|Hx]%elem_of_cons; [by apply app_nil in E as [_ ?]|]. apply (bi_parents _ _ _ Hi) in Hx. done.
    + ret_step. rewrite <- fmap_app. change [st words w] with (st words <$> [w]). rewrite <- fmap_app.
      apply IH; [by apply bfs_step| |rewrite length_app; cbn [length]; lia].
      replace ([] :: (ow ++ [w]) ++ qw ++ children_of words w chars) with (([] :: ow ++ w :: qw) ++ children_of words w chars); [done|].
      cbn [app]. f_equal. by rewrite <- !app_assoc.
Qed.

Lemma bfs_all words ow w : word_set words -> bfs_inv words ow [] -> w ∈ words -> w ∈ [] :: ow.
Proof.
  intros Hw Hi. induction w as [|ch w IH] using rev_ind; intros Hin; [by left|]. right.
  pose proof (bi_children _ _ _ Hi w ch) as Hc. rewrite app_nil_r in Hc. apply Hc; [|done]. apply IH. by eapply ws_prefix.
Qed.

(** The queue after step 2. *)
Lemma bfs_start words : word_set words -> bfs_inv words [] (children_of words [] chars).
Proof.
  intros Hw. assert (forall x, x ∈ children_of words [] chars <-> x ∈ words /\ exists ch, x = [ch]) as Hnew.
  { intros x. rewrite elem_of_children. pose proof elem_of_chars. naive_solver. }
  split; cbn [app].
  - apply NoDup_cons. split; [|apply NoDup_children, NoDup_chars]. by intros [_ [? ?]]%Hnew.
  - intros w [->|[Hin _]%Hnew]%elem_of_cons; [by apply root_word|done].
  - intros w ch ->%list_elem_of_singleton Hin. apply Hnew. eauto.
  - intros w ch [_ [ch' E]]%Hnew. apply (app_inj_tail w []) in E as [-> _]. by left.
  - apply (same_length_sorted 1), Forall_forall. by intros x [_ [ch ->]]%Hnew.
  - intros x y [_ [ch ->]]%Hnew [_ [ch' ->]]%Hnew. cbn. lia.
Qed.

(** ** The completed table *)
Definition completed words trans (K : list str) : Prop :=
  forall w ch, w ∈ K -> vgetz trans (entry (st words w) (uc ch)) = Ret (st words (longest words (w ++ [ch]))).

Lemma entry_range words w ch : w ∈ words -> 0 <= entry (st words w) (uc ch) < ALPHABET_SIZE * Z.of_nat (length words).
Proof. intros Hin%st_nonneg. pose proof (uc_range ch). unfold entry, ALPHABET_SIZE in *. lia. Qed.

Lemma complete_row_ok words goto (cs : list ascii) : looped words goto -> forall trans w K,
  Z.of_nat (length trans) = ALPHABET_SIZE * Z.of_nat (length words) -> w ∈ words -> w ∉ K -> w <> [] ->
  (forall x, x ∈ K -> x ∈ words) -> completed words trans K -> longest words (tail w) ∈ K ->
  exists trans', complete_row goto trans (st words w) (st words (longest words (tail w))) (uc <$> cs) = Ret trans' /\
    length trans' = length trans /\ completed words trans' K /\
    (forall ch, ch ∈ cs -> vgetz trans' (entry (st words w) (uc ch)) = Ret (st words (longest words (w ++ [ch])))) /\
    (forall ch, ch ∉ cs -> vgetz trans' (entry (st words w) (uc ch)) = vgetz trans (entry (st words w) (uc ch))).
Proof.
  intros [Hw Hg]. induction cs as [|ch cs IH]; intros trans w K Hl Hin Hnk Hne HK Hc Hfk; cbn [complete_row fmap list_fmap].
  { exists trans. split_and!; [done|done|done| |done]. by intros ch ?%elem_of_nil. }
  rewrite Hg by done. ret_step.
  assert ((if decide (root_goto words w ch = NO_STATE) then vgetz trans (entry (st words (longest words (tail w))) (uc ch)) else Ret (root_goto words w ch)) =
    Ret (st words (longest words (w ++ [ch])))) as ->.
  { destruct (decide (w ++ [ch] ∈ words)) as [Hx|Hx].
    - rewrite root_goto_word by done. rewrite decide_False by (by intros ?%st_no_state). by rewrite longest_id.
    - rewrite root_goto_none by done. rewrite decide_True by done. rewrite Hc by done. rewrite longest_step by done.
      rewrite (longest_tail words (w ++ [ch])); [by destruct w|by destruct w|done]. }
  ret_step. pose proof (entry_range words w ch Hin) as Hr. destruct (lookup_lt_is_Some_2 trans (Z.to_nat (entry (st words w) (uc ch)))) as [e0 He0]; [lia|].
  destruct (vsetz_get trans _ (st words (longest words (w ++ [ch]))) e0 (vgetz_Some _ _ _ (proj1 Hr) He0)) as (trans1 & -> & Hl1 & Hsame & Hother). ret_step.
  assert (completed words trans1 K) as Hc1.
  { intros x ch' Hx. rewrite Hother; [by apply Hc|]. intros [E _]%entry_inj. apply (st_inj words) in E; [by subst|by apply HK]. }
  destruct (IH trans1 w K) as (trans' & -> & Hl' & Hc' & Hrow & Hout); [lia|done..|].
  exists trans'. split_and!; [done|lia|done| |].
  - intros ch' Hch. destruct (decide (ch' ∈ cs)) as [Hcs|Hcs]; [by apply Hrow|]. apply elem_of_cons in Hch as [->|Hch]; [|done]. by rewrite Hout.
  - intros ch' [Hne' Hcs]%not_elem_of_cons. rewrite Hout by done. apply Hother. by intros [_ ->]%entry_inj.
Qed.

Lemma complete_ok words goto fail (ow : list str) : looped words goto -> forall trans (K : list str),
  (forall w, w ∈ K ++ ow -> vgetz fail (st words w) = Ret (st words (longest words (tail w)))) ->
  (forall w, w ∈ K ++ ow <-> w ∈ words) -> NoDup (K ++ ow) -> [] ∈ K -> StronglySorted shorter ow ->
  Z.of_nat (length trans) = ALPHABET_SIZE * Z.of_nat (length words) -> completed words trans K ->
  exists trans', complete goto fail trans (st words <$> ow) = Ret trans' /\ completed words trans' words.
Proof.
  intros Hlp. induction ow as [|w ow IH]; intros trans K Hf HK Hnd Hroot Hs Hl Hc; cbn [complete fmap list_fmap].
  { exists trans. split; [done|]. intros w ch Hin. apply Hc. apply HK in Hin. by rewrite app_nil_r in Hin. }
  assert (w ∈ K ++ w :: ow) as HwK by (apply elem_of_app; right; by left). rewrite Hf by done. ret_step.
  apply NoDup_app in Hnd as (Hnd1 & Hnd2 & Hnd3). assert (w ∉ K) as Hnk by (intros Hx; apply (Hnd2 _ Hx); by left).
  assert (w <> []) as Hne by (by intros ->).
  assert (longest words (tail w) ∈ K) as Hfk.
  { assert (longest words (tail w) ∈ K ++ w :: ow) as Hin by (apply HK, longest_in, Hlp). apply elem_of_app in Hin as [Hin|Hin]; [done|exfalso].
    assert (length w <= length (longest words (tail w)))%nat as Hle.
    { apply StronglySorted_cons in Hs as [Hs _]. rewrite Forall_forall in Hs. apply elem_of_cons in Hin as [E|Hin]; [by rewrite E|]. exact (Hs _ Hin). }
    pose proof (length_longest words (tail w)). destruct w; [done|]. cbn [tail length] in *. lia. }
  rewrite alphabet_chars.
  destruct (complete_row_ok words goto chars Hlp trans w K) as (trans1 & -> & Hl1 & Hc1 & Hrow & _); [done|by apply HK|done|done| |done|done|].
  { intros x Hx. apply HK, elem_of_app. by left. }
  ret_step. assert ((K ++ [w]) ++ ow = K ++ w :: ow) as Eapp by (by rewrite <- app_assoc).
  apply (IH trans1 (K ++ [w])); rewrite ?Eapp; [done|done| | | |lia|].
  - apply NoDup_app. done.
  - apply elem_of_app. by left.
  - by apply StronglySorted_cons in Hs as [_ Hs].
  - intros x ch [Hx| ->%list_elem_of_singleton]%elem_of_app; [by apply Hc1|]. apply Hrow, elem_of_chars.
Qed.

Lemma root_trans_ok words goto (cs : list ascii) : looped words goto -> forall trans,
  (forall ch, 0 <= uc ch < Z.of_nat (length trans)) ->
  exists trans', root_trans goto trans (uc <$> cs) = Ret trans' /\ length trans' = length trans /\
    (forall ch, ch ∈ cs -> vgetz trans' (uc ch) = Ret (st words (longest words [ch]))) /\
    forall ch, ch ∉ cs -> vgetz trans' (uc ch) = vgetz trans (uc ch).
Proof.
  intros [Hw Hg]. induction cs as [|ch cs IH]; intros trans Hl; cbn [root_trans fmap list_fmap].
  { exists trans. split_and!; [done|done| |done]. by intros ch ?%elem_of_nil. }
  pose proof (Hg [] ch (root_word _ Hw)) as Hget. rewrite (st_root _ Hw), root_entry, root_goto_nil in Hget by done. rewrite Hget. ret_step.
  rewrite decide_False by (rewrite (st_no_state words); intros Hn; apply Hn, longest_in, Hw).
  destruct (lookup_lt_is_Some_2 trans (Z.to_nat (uc ch))) as [e0 He0]; [specialize (Hl ch); lia|].
  destruct (vsetz_get trans _ (st words (longest words [ch])) e0 (vgetz_Some _ _ _ (proj1 (Hl ch)) He0)) as (trans1 & -> & Hl1 & Hsame & Hother). ret_step.
  destruct (IH trans1) as (trans' & -> & Hl' & Hin & Hout); [by rewrite Hl1|]. exists trans'. split_and!; [done|lia| |].
  - intros ch' Hch. destruct (decide (ch' ∈ cs)) as [Hcs|Hcs]; [by apply Hin|]. apply elem_of_cons in Hch as [->|Hch]; [|done]. by rewrite Hout.
  - intros ch' [Hne Hcs]%not_elem_of_cons. rewrite Hout by done. apply Hother. by intros ->%uc_inj.
Qed.

(** ** Flattening *)
Lemma flatten_ok (out : list (list Z)) : forall (s : nat) (ptr cnt flat : list Z),
  length ptr = (s + length out)%nat -> length cnt = (s + length out)%nat -> fits (length flat + length (mjoin out)) ->
  exists ptr' cnt', flatten_loop out s ptr cnt flat = Ret (ptr', cnt', flat ++ mjoin out) /\
    (forall i, (i < s)%nat -> ptr' !! i = ptr !! i /\ cnt' !! i = cnt !! i) /\
    forall k o, out !! k = Some o -> ptr' !! (s + k)%nat = Some (Z.of_nat (length flat + length (mjoin (take k out)))) /\
      cnt' !! (s + k)%nat = Some (Z.of_nat (length o)).
Proof.
  induction out as [|o out IH]; intros s ptr cnt flat Hp Hc Hfit; cbn [flatten_loop].
  { exists ptr, cnt. split_and!; [by rewrite app_nil_r|done|]. intros k o. by rewrite lookup_nil. }
  change (mjoin (o :: out)) with (o ++ mjoin out) in *. rewrite length_app in Hfit. cbn [length] in *. unfold fits in *.
  rewrite !fits_i32 by (unfold fits; lia). rewrite !vset_lt by lia. ret_step. ret_step.
  destruct (IH (S s) (<[s := Z.of_nat (length flat)]> ptr) (<[s := Z.of_nat (length o)]> cnt) (flat ++ o)) as (ptr' & cnt' & -> & Hlow & Hhigh);
    [rewrite length_insert; lia|rewrite length_insert; lia|rewrite length_app; lia|].
  exists ptr', cnt'. split_and!; [by rewrite <- app_assoc| |].
  - intros i Hi. destruct (Hlow i) as [-> ->]; [lia|]. by rewrite !list_lookup_insert_ne by lia.
  - intros [|k] o' Hk.
    + injection Hk as <-. rewrite Nat.add_0_r. destruct (Hlow s) as [-> ->]; [lia|]. rewrite !list_lookup_insert_eq by lia. cbn. by rewrite Nat.add_0_r.
    + destruct (Hhigh k o' Hk) as [H1 H2]. rewrite <- Nat.add_succ_comm. rewrite H1, H2. split; [|done].
      cbn [take]. change (mjoin (o :: take k out)) with (o ++ mjoin (take k out)). rewrite !length_app. f_equal. lia.
Qed.

Lemma lookup_flat {A} (out : list (list A)) : forall k o j z, out !! k = Some o -> o !! j = Some z ->
  mjoin out !! (length (mjoin (take k out)) + j)%nat = Some z.
Proof.
  induction out as [|o' out IH]; intros [|k] o j z Hk Hj; try done; change (mjoin (o' :: out)) with (o' ++ mjoin out).
  - injection Hk as ->. cbn. by apply lookup_app_l_Some.
  - cbn [take]. change (mjoin (o' :: take k out)) with (o' ++ mjoin (take k out)). rewrite length_app, lookup_app_r by lia.
    replace (length o' + length (mjoin (take k out)) + j - length o')%nat with (length (mjoin (take k out)) + j)%nat by lia. by eapply IH.
Qed.

Lemma length_join_le {A} (out : list (list A)) n : (forall o, o ∈ out -> (length o <= n)%nat) -> (length (mjoin out) <= length out * n)%nat.
Proof.
  induction out as [|o out IH]; intros Hle; [cbn; lia|]. change (mjoin (o :: out)) with (o ++ mjoin out). rewrite length_app. cbn [length].
  assert (length o <= n)%nat by (apply Hle; by left). assert (length (mjoin out) <= length out * n)%nat by (apply IH; intros; apply Hle; by right). lia.
Qed.

(** An automaton that has been built. *)
Record ready ps a : Prop := {
  rd_built : built_ a = true;
  rd_patterns : patterns_ a = ps;
  rd_tables : exists words, word_set words /\ (forall p, p ∈ ps -> p ∈ words) /\ completed words (trans_ a) words /\
    forall w, w ∈ words -> vgetz (outputCnt_ a) (st words w) = Ret (Z.of_nat (length (outs ps w))) /\
      exists off : nat, vgetz (outputPtr_ a) (st words w) = Ret (Z.of_nat off) /\
        forall j i, outs ps w !! j = Some i -> vgetz (outputData_ a) (Z.of_nat (off + j)) = Ret (Z.of_nat i);
}.

Lemma flatten_build words ps (ow : list str) out (ptr cnt : list Z) : word_set words -> length out = length words ->
  length ptr = length words -> length cnt = length words -> limit ps -> (length words <= total ps + 1)%nat ->
  (forall w, w ∈ words -> vgetz out (st words w) = Ret (Z.of_nat <$> outs ps w)) ->
  exists ptr' cnt', flatten_loop out 0 ptr cnt [] = Ret (ptr', cnt', mjoin out) /\
    forall w, w ∈ words -> vgetz cnt' (st words w) = Ret (Z.of_nat (length (outs ps w))) /\
      exists off : nat, vgetz ptr' (st words w) = Ret (Z.of_nat off) /\
        forall j i, outs ps w !! j = Some i -> vgetz (mjoin out) (Z.of_nat (off + j)) = Ret (Z.of_nat i).
Proof.
  intros Hw Hol Hp Hc Hlim Hlen Hout.
  assert (length (mjoin out) <= length words * length ps)%nat as Hflat.
  { rewrite <- Hol. apply length_join_le. intros o (k & Hk)%list_elem_of_lookup. apply lookup_lt_Some in Hk as Hlt.
    destruct (lookup_lt_is_Some_2 words k) as [w Hwk]; [lia|]. specialize (Hout w (list_elem_of_lookup_2 _ _ _ Hwk)).
    rewrite (st_lookup _ Hw _ _ Hwk), vgetz_nat in Hout. apply vget_Ret in Hout. rewrite Hk in Hout. injection Hout as ->.
    rewrite length_fmap. apply length_outs. }
  destruct (flatten_ok out 0 ptr cnt []) as (ptr' & cnt' & -> & _ & Hh); [lia|lia|unfold limit, fits in *; cbn [length]; nia|].
  exists ptr', cnt'. split; [done|]. intros w (k & Hk & E)%st_elem. specialize (Hout w (list_elem_of_lookup_2 _ _ _ Hk)).
  rewrite E in *. rewrite !vgetz_nat in *. apply vget_Ret in Hout. destruct (Hh _ _ Hout) as [H1 H2]. rewrite length_fmap in H2.
  split; [by apply vget_Some|]. eexists. split; [by apply vget_Some|]. intros j i Hj. rewrite vgetz_nat. apply vget_Some. cbn [length Nat.add].
  eapply lookup_flat; [exact Hout|]. by rewrite list_lookup_fmap, Hj.
Qed.

Lemma trans_build words ps goto fail out (ow : list str) : looped words goto -> bfs_inv words ow [] -> links words ps fail out ([] :: ow) ->
  (forall w, w ∈ [] :: ow <-> w ∈ words) ->
  exists trans, (trans0 ← root_trans goto (replicate (Z.to_nat (Z.of_nat (length words) * ALPHABET_SIZE)) 0) alphabet;
    complete goto fail trans0 (st words <$> ow)) = Ret trans /\ completed words trans words.
Proof.
  intros Hlp Hinv Hlk Hall. pose proof Hlp as [Hw _]. set (trans0 := replicate _ 0).
  assert (length words <> 0)%nat as Hn0 by (pose proof (length_word _ Hw _ (root_word _ Hw)); lia).
  assert (Z.of_nat (length trans0) = ALPHABET_SIZE * Z.of_nat (length words)) as Hl0 by (subst trans0; rewrite length_replicate; unfold ALPHABET_SIZE; lia).
  rewrite alphabet_chars. destruct (root_trans_ok words goto chars Hlp trans0) as (trans1 & -> & Hl1 & Hroot & _).
  { intros ch. pose proof (uc_range ch). unfold ALPHABET_SIZE in *. lia. }
  ret_step. pose proof (bi_nodup _ _ _ Hinv) as Hnd. pose proof (bi_sorted _ _ _ Hinv) as Hs. rewrite app_nil_r in Hnd, Hs.
  apply (complete_ok words goto fail ow Hlp trans1 [[]]); [by apply (lk_fail _ _ _ _ _ Hlk)|done|done|by left|done|lia|].
  intros w ch ->%list_elem_of_singleton. rewrite (st_root _ Hw), root_entry. apply Hroot, elem_of_chars.
Qed.

Lemma build_ok ps a : grown ps a -> limit ps -> exists a', build a = Ret a' /\ ready ps a'.
Proof.
  intros (words & [Htr Hfl Hf0 Hp Hc Hpat Hb] & Hlen) Hlim. pose proof Htr as [Hw Hgl _ Hol Hout Hps].
  assert (forall p, p ∈ ps -> p ∈ words) as Hps1 by (by intros p [? _]%Hps). assert (forall p, p ∈ ps -> p <> []) as Hps2 by (by intros p [_ ?]%Hps).
  unfold build. rewrite Hb. destruct (looped_ok _ _ _ _ Htr) as (goto & -> & Hgl' & Hlp). cbv zeta. ret_step.
  assert (Z.of_nat (length (goto_ a)) / ALPHABET_SIZE = Z.of_nat (length words)) as -> by (rewrite Hgl, Z.mul_comm; by apply Z.div_mul).
  assert (links words ps (fail_ a) (output_ a) [[]]) as Hlk0.
  { split; [done|done| | |].
    - intros w ->%list_elem_of_singleton. cbn [tail longest]. by rewrite (st_root _ Hw).
    - intros w ->%list_elem_of_singleton. rewrite Hout by (by apply root_word). rewrite indices_not_in; [done|]. by intros ?%Hps2.
    - intros w Hin _. by apply Hout. }
  destruct (queue_children_ok words ps goto (output_ a) chars Hlp Hps2 (fail_ a) [] [[]] NoDup_chars Hlk0) as (fail & Hq & Hlk); [by intros ch _ ?%list_elem_of_singleton|].
  rewrite <- alphabet_chars in Hq. rewrite Hq. ret_step. cbn [app] in *. rewrite Nat2Z.id.
  destruct (ac_bfs_ok words ps goto Hlp Hps1 (S (length words)) fail (output_ a) [] (children_of words [] chars)) as (fail' & out' & ow & Hbfs & Hinv & Hlk');
    [by apply bfs_start|done|cbn [length]; lia|].
  change (st words <$> []) with (@nil Z) in Hbfs. rewrite Hbfs. ret_step.
  assert (forall w, w ∈ [] :: ow <-> w ∈ words) as Hall.
  { intros w. split; [|by apply bfs_all]. intros Hin. apply (bi_words _ _ _ Hinv). by rewrite app_nil_r. }
  destruct (flatten_build words ps ow out' (outputPtr_ a) (outputCnt_ a)) as (ptr & cnt & -> & Hflat); [done|apply (lk_out_len _ _ _ _ _ Hlk')|lia|lia|done|lia|by intros w Hin; apply (lk_out _ _ _ _ _ Hlk'), Hall|].
  ret_step. destruct (trans_build words ps goto fail' out' ow) as (trans & Ht & Hcomp); [done..|].
  destruct (bind_Ret_inv _ _ _ Ht) as (trans0 & -> & Htr'). ret_step. rewrite Htr'. ret_step. eexists. split; [done|].
  split; cbn [goto_ trans_ fail_ outputData_ outputPtr_ outputCnt_ patterns_ built_ output_]; [done|done|]. by exists words.
Qed.

(** ** Matching *)

(** The results for the patterns that end where [t] ends. *)
Definition report ps t : list MatchResult :=
  (fun i => let n := length (default [] (ps !! i)) in
            mkMatch (Z.of_nat (length t) - Z.of_nat n) (Z.of_nat n) (Z.of_nat i)) <$> outs ps t.

Fixpoint matches_from ps t (text : str) : list MatchResult :=
  match text with
  | [] => []
  | ch :: text => report ps (t ++ [ch]) ++ matches_from ps (t ++ [ch]) text
  end.

Definition matches ps (text : str) : list MatchResult := matches_from ps [] text.

Definition in_memory (text : str) : Prop := Z.of_nat (length text) < 2 ^ 64.

Lemma emit_ok a t (off : nat) (l : list nat) : in_memory t -> t <> [] ->
  (forall i, i ∈ l -> exists p, patterns_ a !! i = Some p /\ p `suffix_of` t) ->
  forall j : nat, (forall k i, l !! k = Some i -> vgetz (outputData_ a) (Z.of_nat (off + (j + k))) = Ret (Z.of_nat i)) ->
  emit_loop (length l) a (Z.of_nat (length t) - 1) (Z.of_nat off) (Z.of_nat j) =
    Ret ((fun i => let n := length (default [] (patterns_ a !! i)) in
            mkMatch (Z.of_nat (length t) - Z.of_nat n) (Z.of_nat n) (Z.of_nat i)) <$> l).
Proof.
  unfold in_memory. intros Hmem Hne. induction l as [|i l IH]; intros Hl j Hdata; cbn [length emit_loop fmap list_fmap]; [done|].
  rewrite <- Nat2Z.inj_add, <- (Nat.add_0_r j) at 1. rewrite (Hdata 0%nat i) by done. ret_step.
  destruct (Hl i ltac:(by left)) as (p & Hp & Hs%suffix_length). rewrite vgetz_nat, (vget_Some _ _ _ Hp). ret_step.
  replace (Z.of_nat j + 1) with (Z.of_nat (S j)) by lia. rewrite IH.
  - ret_step. rewrite Hp. cbn [default]. do 3 f_equal. unfold u64. rewrite Zplus_mod_idemp_l, Z.mod_small; cbn; lia.
  - intros i' Hi'. apply Hl. by right.
  - intros k i' Hk. replace (S j + k)%nat with (j + S k)%nat by lia. by apply Hdata.
Qed.

Lemma scan_ok ps a words : patterns_ a = ps -> word_set words -> (forall p, p ∈ ps -> p ∈ words) -> completed words (trans_ a) words ->
  (forall w, w ∈ words -> vgetz (outputCnt_ a) (st words w) = Ret (Z.of_nat (length (outs ps w))) /\
    exists off : nat, vgetz (outputPtr_ a) (st words w) = Ret (Z.of_nat off) /\
      forall j i, outs ps w !! j = Some i -> vgetz (outputData_ a) (Z.of_nat (off + j)) = Ret (Z.of_nat i)) ->
  forall text t, in_memory (t ++ text) ->
  scan a text (Z.of_nat (length t)) (st words (longest words t)) = Ret (matches_from ps t text).
Proof.
  intros <- Hw Hps Hc Hout. set (ps := patterns_ a) in *. induction text as [|ch text IH]; intros t Hmem; cbn [scan matches_from]; [done|].
  rewrite Hc by (by apply longest_in). ret_step. rewrite longest_step by done.
  destruct (Hout (longest words (t ++ [ch])) (longest_in _ Hw _)) as (Hcnt & off & Hptr & Hdata). rewrite Hcnt. ret_step.
  rewrite outs_longest in * by done.
  assert ((if decide (0 < Z.of_nat (length (outs ps (t ++ [ch])))) then
             off0 ← vgetz (outputPtr_ a) (st words (longest words (t ++ [ch])));
             emit_loop (Z.to_nat (Z.of_nat (length (outs ps (t ++ [ch]))))) a (Z.of_nat (length t)) off0 0
           else Ret []) = Ret (report ps (t ++ [ch]))) as ->.
  { case_decide as Hd; [|unfold report; by destruct (outs ps (t ++ [ch]))]. rewrite Hptr. ret_step. rewrite Nat2Z.id.
    replace (Z.of_nat (length t)) with (Z.of_nat (length (t ++ [ch])) - 1) by (rewrite length_app; cbn [length]; lia).
    apply (emit_ok a (t ++ [ch]) off (outs ps (t ++ [ch]))) with (j := 0%nat).
    - unfold in_memory in *. rewrite length_app in *. cbn [length] in *. lia.
    - intros E. by apply app_nil in E as [_ ?].
    - intros i (p & Hp & _ & Hs)%elem_of_outs. by exists p.
    - intros k i Hk. by apply Hdata. }
  ret_step. replace (Z.of_nat (length t) + 1) with (Z.of_nat (length (t ++ [ch]))) by (rewrite length_app; cbn [length]; lia).
  rewrite IH by (by rewrite <- app_assoc). done.
Qed.

Lemma match_ok ps a text : ready ps a -> in_memory text -> match_ a text = Ret (matches ps text).
Proof.
  intros [Hb Hpat (words & Hw & Hps & Hc & Hout)] Hmem. unfold match_. rewrite Hb.
  pose proof (scan_ok ps a words Hpat Hw Hps Hc Hout text [] Hmem) as Hscan. cbn [longest] in Hscan. rewrite (st_root _ Hw) in Hscan. exact Hscan.
Qed.

(** ** The contract *)
Inductive ac_op :=
| AcInsert (pattern : str)
| AcBuild
| AcMatch (text : str)
| AcMatchEach (text : str)
| AcPatternCount
| AcGetPattern (index : nat).

Inductive ac_obs := AcDone | AcMatches (rs : list MatchResult) | AcNum (n : nat) | AcPattern p.

(** The callback of [matchEach] collects what it is given. *)
Definition ac_step a (op : ac_op) : outcome (AhoCorasick * ac_obs) :=
  match op with
  | AcInsert p => a ← insert a p; Ret (a, AcDone)
  | AcBuild => a ← build a; Ret (a, AcDone)
  | AcMatch text => rs ← match_ a text; Ret (a, AcMatches rs)
  | AcMatchEach text => rs ← matchEach a text (fun rs r => rs ++ [r]) []; Ret (a, AcMatches rs)
  | AcPatternCount => Ret (a, AcNum (patternCount a))
  | AcGetPattern index => p ← getPattern a index; Ret (a, AcPattern p)
  end.

#[local] Instance limit_dec ps : Decision (limit ps).
Proof. unfold limit, fits. apply _. Defined.
#[local] Instance in_memory_dec text : Decision (in_memory text).
Proof. unfold in_memory. apply _. Defined.

Definition ac_matches (ps : list str) (built : bool) text : outcome ((list str * bool) * ac_obs) :=
  if negb built then Throw runtime_error else
  if decide (in_memory text) then Ret ((ps, built), AcMatches (matches ps text)) else Undef.

(** The patterns, and whether the automaton was built. *)
Definition ac_spec (s : list str * bool) (op : ac_op) : outcome ((list str * bool) * ac_obs) :=
  let '(ps, built) := s in
  match op with
  | AcInsert p =>
    if bool_decide (p = []) then Throw invalid_argument else if (built : bool) then Throw runtime_error else
    if decide (limit (ps ++ [p])) then Ret ((ps ++ [p], false), AcDone) else Undef
  | AcBuild => Ret ((ps, true), AcDone)
  | AcMatch text | AcMatchEach text => ac_matches ps built text
  | AcPatternCount => Ret (s, AcNum (length ps))
  | AcGetPattern index => match ps !! index with Some p => Ret (s, AcPattern p) | None => Throw out_of_range end
  end.

Definition ac_rep a (s : list str * bool) : Prop := if (s.2 : bool) then ready s.1 a else grown s.1 a /\ limit s.1.

Lemma foldl_snoc {A} (l acc : list A) : foldl (fun rs r => rs ++ [r]) acc l = acc ++ l.
Proof. revert acc. induction l as [|r l IH]; intros acc; cbn [foldl]; [by rewrite app_nil_r|]. rewrite IH. by rewrite <- app_assoc. Qed.

Lemma match_each_collect a text : matchEach a text (fun rs r => rs ++ [r]) [] = match_ a text.
Proof. unfold matchEach, match_. case_match; [|done]. destruct (scan a text 0 0); [|done..]. rewrite bind_Ret. by rewrite foldl_snoc. Qed.

Lemma rep_built a ps built : ac_rep a (ps, built) -> built_ a = built /\ patterns_ a = ps.
Proof. destruct built; [intros [Hb Hp _]; done|]. intros [(words & Hg & _) _]. split; apply Hg. Qed.

#[export] Instance ac_simulates : Simulates ac_step ac_spec ac_rep.
Proof.
  intros a [ps built] op Hr. destruct (rep_built _ _ _ Hr) as [Hb Hpat].
  assert (forall text, match ac_matches ps built text with
    | Ret (s', o) => exists a', (rs ← match_ a text; Ret (a, AcMatches rs)) = Ret (a', o) /\ ac_rep a' s'
    | Throw e => (rs ← match_ a text; Ret (a, AcMatches rs)) = Throw e
    | _ => True end) as Hmatch.
  { intros text. unfold ac_matches. destruct built; cbn [negb]; [|unfold match_; by rewrite Hb].
    case_decide; [|done]. rewrite (match_ok ps) by done. exists a. done. }
  destruct op as [p| |text|text| |index]; cbn [ac_spec ac_step].
  - case_bool_decide as Hd; [by subst p|]. unfold insert at 2. destruct built; [destruct p; [done|]; cbn; unfold insert; by rewrite Hb|].
    case_decide as Hlim; [|done]. destruct Hr as [Hg _]. destruct (ac_insert_ok ps a p Hg Hd Hlim) as (a' & -> & Hg'). by exists a'.
  - destruct built; [unfold build; rewrite Hb; by exists a|]. destruct Hr as [Hg Hlim]. destruct (build_ok ps a Hg Hlim) as (a' & -> & Hr'). by exists a'.
  - apply Hmatch.
  - rewrite match_each_collect. apply Hmatch.
  - exists a. unfold patternCount. by rewrite Hpat.
  - unfold getPattern. rewrite Hpat. destruct (ps !! index); [by exists a|done].
Qed.

Lemma ac_new_rep : ac_rep ac_new ([], false).
Proof. split; [apply ac_new_ok|]. done. Qed.

(** ** What [matches] lists *)

(** The result marks an occurrence of its pattern. *)
Definition occurrence ps (text : str) (r : MatchResult) : Prop :=
  exists (i e : nat) p, ps !! i = Some p /\ (e <= length text)%nat /\ p `suffix_of` take e text /\
    r = mkMatch (Z.of_nat e - Z.of_nat (length p)) (Z.of_nat (length p)) (Z.of_nat i).

Definition end_of (r : MatchResult) : Z := position r + length_ r.

Lemma elem_of_report ps t r : (forall p, p ∈ ps -> p <> []) ->
  r ∈ report ps t <-> exists i p, ps !! i = Some p /\ p `suffix_of` t /\ r = mkMatch (Z.of_nat (length t) - Z.of_nat (length p)) (Z.of_nat (length p)) (Z.of_nat i).
Proof.
  intros Hps. unfold report. rewrite list_elem_of_fmap. split.
  - intros (i & -> & (p & Hp & _ & Hs)%elem_of_outs). exists i, p. by rewrite Hp.
  - intros (i & p & Hp & Hs & ->). exists i. rewrite Hp. split; [done|]. apply elem_of_outs. exists p. split_and!; [done| |done].
    eapply Hps, list_elem_of_lookup_2, Hp.
Qed.

Lemma report_end ps t r : r ∈ report ps t -> end_of r = Z.of_nat (length t).
Proof. unfold report. intros (i & -> & _)%list_elem_of_fmap. unfold end_of. cbn. lia. Qed.

Lemma NoDup_report ps t : NoDup (report ps t).
Proof. apply NoDup_fmap_2_strong; [|apply NoDup_outs]. intros i j _ _ [= _ _ E]. by apply Nat2Z.inj. Qed.

Lemma elem_of_matches_from ps text t r : (forall p, p ∈ ps -> p <> []) ->
  r ∈ matches_from ps t text <-> exists e, (length t < e <= length t + length text)%nat /\ r ∈ report ps (take e (t ++ text)).
Proof.
  intros Hps. revert t. induction text as [|ch text IH]; intros t; cbn [matches_from length].
  - split; [by intros ?%elem_of_nil|]. intros (e & He & _). lia.
  - rewrite elem_of_app, IH, length_app, <- app_assoc. cbn [app length]. assert (take (S (length t)) (t ++ ch :: text) = t ++ [ch]) as Et.
    { replace (t ++ ch :: text) with ((t ++ [ch]) ++ text) by (by rewrite <- app_assoc).
      replace (S (length t)) with (length (t ++ [ch])) by (rewrite length_app; cbn; lia). apply take_app_length. }
    split.
    + intros [Hr|(e & He & Hr)]; [exists (S (length t)); rewrite Et; split; [lia|done]|exists e; split; [lia|done]].
    + intros (e & He & Hr). destruct (decide (e = S (length t))) as [->|Hne]; [left; by rewrite Et in Hr|right; exists e; split; [lia|done]].
Qed.

Lemma matches_from_end ps text t r : r ∈ matches_from ps t text -> Z.of_nat (length t) < end_of r.
Proof.
  revert t. induction text as [|ch text IH]; intros t; cbn [matches_from]; [by intros ?%elem_of_nil|].
  intros [->%report_end|Hr%IH]%elem_of_app; rewrite length_app in *; cbn [length] in *; lia.
Qed.

Definition ends_before (r r' : MatchResult) : Prop := end_of r <= end_of r'.

Lemma matches_from_sorted ps text t : NoDup (matches_from ps t text) /\ StronglySorted ends_before (matches_from ps t text).
Proof.
  revert t. induction text as [|ch text IH]; intros t; cbn [matches_from]; [split; [apply NoDup_nil_2|constructor]|].
  destruct (IH (t ++ [ch])) as [H1 H2]. split.
  - apply NoDup_app. split_and!; [apply NoDup_report| |done]. intros r Hr%report_end Hr'%matches_from_end. lia.
  - apply StronglySorted_app. split_and!; [|clear|done].
    + intros r r' Hr%report_end Hr'%matches_from_end. unfold ends_before. lia.
    + assert (Forall (fun r => end_of r = Z.of_nat (length (t ++ [ch]))) (report ps (t ++ [ch]))) as Hall by (apply Forall_forall; intros r; apply report_end).
      induction Hall as [|r l Hr Hall IH]; constructor; [done|]. eapply Forall_impl; [exact Hall|]. intros r' Hr'. unfold ends_before. cbn in *. lia.
Qed.

Lemma matches_occurrences ps text r : (forall p, p ∈ ps -> p <> []) -> r ∈ matches ps text <-> occurrence ps text r.
Proof.
  intros Hps. unfold matches, occurrence. rewrite elem_of_matches_from by done. cbn [length app]. split.
  - intros (e & He & Hr). apply elem_of_report in Hr as (i & p & Hp & Hs & ->); [|done]. rewrite length_take in *. exists i, e, p. split_and!; [done|lia|done|]. by rewrite Nat.min_l by lia.
  - intros (i & e & p & Hp & He & Hs & ->). exists e. assert (p <> []) as Hne by (eapply Hps, list_elem_of_lookup_2, Hp).
    assert (length p <= e)%nat by (apply suffix_length in Hs; rewrite length_take in Hs; lia). split; [destruct p; [done|cbn in *; lia]|].
    apply elem_of_report; [done|]. exists i, p. split_and!; [done|done|]. rewrite length_take. by rewrite Nat.min_l by lia.
Qed.

(** Registering patterns and building. *)
Fixpoint insert_all a ps : outcome AhoCorasick := match ps with [] => build a | p :: ps => a ← insert a p; insert_all a ps end.

Lemma insert_all_ok ps : forall qs a, grown qs a -> (forall p, p ∈ ps -> p <> []) -> limit (qs ++ ps) ->
  exists a', insert_all a ps = Ret a' /\ ready (qs ++ ps) a'.
Proof.
  induction ps as [|p ps IH]; intros qs a Hg Hps Hlim; cbn [insert_all].
  - rewrite app_nil_r in *. by apply build_ok.
  - assert (qs ++ p :: ps = (qs ++ [p]) ++ ps) as E by (by rewrite <- app_assoc). rewrite E in *.
    assert (limit (qs ++ [p])) as Hlim'.
    { clear -Hlim. induction ps as [|p' ps IH] using rev_ind; [by rewrite app_nil_r in Hlim|]. apply IH. rewrite app_assoc in Hlim. by apply limit_snoc in Hlim as [? _]. }
    destruct (ac_insert_ok qs a p Hg (Hps p ltac:(by left)) Hlim') as (a1 & -> & Hg1). ret_step. apply IH; [done|intros; apply Hps; by right|done].
Qed.

(** every sequence of registrations, builds, matches and lookups is defined,
    throws exactly where the specification does (an empty pattern, a pattern after
    [build], a match before it, an index out of range), and each match lists, for
    every end in the text, the patterns ending there, longest first. *)
Theorem aho_corasick_refines ops (ab : list str * bool) os : trace ac_spec ([], false) ops = Ret (ab, os) ->
  exists a, trace ac_step ac_new ops = Ret (a, os) /\ ac_rep a ab.
Proof. intros Ht. exact (trace_refines (step := ac_step) (R := ac_rep) ops ac_new ([], false) ab os ac_new_rep Ht). Qed.

(** C13: an automaton built from non-empty patterns, of which (bytes in all + 1) * (number of patterns) fits an [int32_t],
    finds in a text that a [std::string] can hold every occurrence of every pattern exactly once, and nothing else, in the order of the ends. *)
Theorem aho_corasick_finds_all ps text : (forall p, p ∈ ps -> p <> []) -> limit ps -> in_memory text ->
  exists a rs, insert_all ac_new ps = Ret a /\ match_ a text = Ret rs /\
    NoDup rs /\ StronglySorted ends_before rs /\ forall r, r ∈ rs <-> occurrence ps text r.
Proof.
  intros Hps Hlim Hmem. destruct (insert_all_ok ps [] ac_new ac_new_ok Hps Hlim) as (a & Ha & Hr). exists a, (matches ps text).
  split; [done|]. split; [by apply match_ok|]. destruct (matches_from_sorted ps text []) as [H1 H2]. split; [done|]. split; [done|].
  intros r. by apply matches_occurrences.
Qed.

Section aho_corasick_witnesses.
Local Open Scope string_scope.

#[local] Definition chars_of (s : string) : str := String.list_ascii_of_string s.

(** The result for [abcd] comes after the one for [b], which starts later. *)
#[local] Definition sample : list ac_op :=
  [AcInsert (chars_of "abcd"); AcInsert (chars_of "b"); AcInsert []; AcMatch (chars_of "b"); AcBuild; AcInsert (chars_of "x");
   AcMatch (chars_of "xabcdb"); AcPatternCount; AcGetPattern 1; AcGetPattern 2].

Lemma aho_corasick_refines_witness : exists a, trace ac_step ac_new sample = Ret (a,
    [inl AcDone; inl AcDone; inr invalid_argument; inr runtime_error; inl AcDone; inr runtime_error;
     inl (AcMatches [mkMatch 2 1 1; mkMatch 1 4 0; mkMatch 5 1 1]); inl (AcNum 2); inl (AcPattern (chars_of "b")); inr out_of_range]).
Proof.
  destruct (trace ac_spec ([], false) sample) as [[ab os]|e| |] eqn:E; [|vm_compute in E; discriminate..].
  destruct (aho_corasick_refines sample ab os E) as (a & Ht & _). exists a. vm_compute in E. injection E as _ <-. exact Ht.
Defined.

#[local] Definition dictionary : list str := [chars_of "he"; chars_of "she"; chars_of "his"; chars_of "hers"].

Lemma aho_corasick_finds_all_witness : exists a rs, insert_all ac_new dictionary = Ret a /\ match_ a (chars_of "ushers") = Ret rs /\
  mkMatch 1 3 1 ∈ rs /\ mkMatch 2 2 0 ∈ rs /\ mkMatch 2 4 3 ∈ rs.
Proof.
  destruct (aho_corasick_finds_all dictionary (chars_of "ushers")) as (a & rs & Ha & Hm & _ & _ & Hr).
  - intros p Hp. unfold dictionary in Hp. cbn in Hp. repeat (apply elem_of_cons in Hp as [->|Hp]; [discriminate|]). by apply elem_of_nil in Hp.
  - unfold limit, fits. vm_compute. reflexivity.
  - unfold in_memory. vm_compute. reflexivity.
  - exists a, rs. split; [exact Ha|]. split; [exact Hm|]. split; [|split].
    + apply Hr. exists 1%nat, 4%nat, (chars_of "she"). split; [reflexivity|]. split; [cbn; lia|]. split; [by exists (chars_of "u")|reflexivity].
    + apply Hr. exists 0%nat, 4%nat, (chars_of "he"). split; [reflexivity|]. split; [cbn; lia|]. split; [by exists (chars_of "us")|reflexivity].
    + apply Hr. exists 3%nat, 6%nat, (chars_of "hers"). split; [reflexivity|]. split; [cbn; lia|]. split; [by exists (chars_of "us")|reflexivity].
Defined.
End aho_corasick_witnesses.
