(* ===== verification/SpanningForest.v ===== *)
(** * Spanning forests

    The reasoning behind the minimum spanning tree algorithms: an edge list joins
    nodes, a list without redundant edges is a forest, all forests that join the
    same nodes have the same number of edges, and a forest that is spanning below
    every weight is lightest. *)

From stdpp Require Import sorting.
From S2P Require Import Prelude.
Local Open Scope Z_scope.

(** [struct EdgeInfo] *)
Record EdgeInfo := mkEdgeInfo { from : Z; to : Z; weight : Z }.

Implicit Types (e : EdgeInfo) (F G : list EdgeInfo) (x y z : Z).

(** Two nodes are joined by the edges of a list, taken in both directions. *)
Definition joins F : relation Z := fun x y => exists e, e ∈ F /\ from e = x /\ to e = y.
Definition linked F : relation Z := rtsc (joins F).

(** No edge is redundant. *)
Definition acyclic F : Prop := forall e F', F ≡ₚ e :: F' -> ~ linked F' (from e) (to e).

Definition total F : Z := foldr (fun e s => weight e + s) 0 F.

(** ** Connectivity *)
#[global] Instance linked_equiv F : Equivalence (linked F).
Proof. apply rtsc_equivalence. Qed.

Lemma linked_edge F e : e ∈ F -> linked F (from e) (to e).
Proof. intros He. apply rtc_once. left. by exists e. Qed.

Lemma linked_least F (R : relation Z) `{!Equivalence R} : (forall e, e ∈ F -> R (from e) (to e)) -> forall x y, linked F x y -> R x y.
Proof.
  intros HR x y. induction 1 as [x|x y z [(e & He & <- & <-)|(e & He & <- & <-)] _ IH]; [done|..].
  - etransitivity; [by apply HR|done].
  - etransitivity; [symmetry; by apply HR|done].
Qed.

Lemma linked_mono F G : (forall e, e ∈ F -> linked G (from e) (to e)) -> forall x y, linked F x y -> linked G x y.
Proof. intros HF x y. by apply (linked_least F (linked G)). Qed.

Lemma linked_subset F G : (forall e, e ∈ F -> e ∈ G) -> forall x y, linked F x y -> linked G x y.
Proof. intros HF. apply linked_mono. intros e He. by apply linked_edge, HF. Qed.

Lemma linked_perm F G : F ≡ₚ G -> forall x y, linked F x y <-> linked G x y.
Proof. intros HP x y. split; apply linked_subset; intros e; by rewrite HP. Qed.

(** One more edge merges the classes of its ends. *)
Lemma linked_cons e F x y : linked (e :: F) x y <->
  linked F x y \/ (linked F x (from e) /\ linked F (to e) y) \/ (linked F x (to e) /\ linked F (from e) y).
Proof.
  split.
  - set (R := fun x y => linked F x y \/ (linked F x (from e) /\ linked F (to e) y) \/ (linked F x (to e) /\ linked F (from e) y)).
    assert (Equivalence R) as HR.
    { split.
      - intros z. by left.
      - intros u v [Huv|[[Hu Hv]|[Hu Hv]]]; [left; by symmetry|right; right; split; by symmetry|right; left; split; by symmetry].
      - intros u v w [Huv|[[Hu Hv]|[Hu Hv]]] [Hvw|[[Hv' Hw]|[Hv' Hw]]].
        + left. by transitivity v.
        + right. left. split; [by transitivity v|done].
        + right. right. split; [by transitivity v|done].
        + right. left. split; [done|by transitivity v].
        + right. left. by split.
        + left. by transitivity (from e).
        + right. right. split; [done|by transitivity v].
        + left. by transitivity (to e).
        + right. right. by split. }
    apply (linked_least (e :: F) R). intros e' [->|He']%elem_of_cons; [right; left; by split|left; by apply linked_edge].
  - assert (forall u v, linked F u v -> linked (e :: F) u v) as Hm by (apply linked_subset; intros e' He'; by right).
    assert (linked (e :: F) (from e) (to e)) as He by (apply linked_edge; by left).
    intros [H|[[H1 H2]|[H1 H2]]]; [by apply Hm|..].
    + transitivity (from e); [by apply Hm|]. transitivity (to e); [done|by apply Hm].
    + transitivity (to e); [by apply Hm|]. transitivity (from e); [by symmetry|by apply Hm].
Qed.

(** ** Forests *)
Lemma acyclic_nil : acyclic [].
Proof. intros e F' HP. by apply Permutation_nil_cons in HP. Qed.

Lemma acyclic_perm F G : F ≡ₚ G -> acyclic F -> acyclic G.
Proof. intros HP HF e F' HG. apply HF. by rewrite HP. Qed.

Lemma acyclic_cons_inv e F : acyclic (e :: F) -> acyclic F /\ ~ linked F (from e) (to e).
Proof.
  intros HF. split; [|by apply HF]. intros e' F' HP Hl. apply (HF e' (e :: F')).
  - rewrite HP. apply Permutation_swap.
  - revert Hl. apply linked_subset. intros e0 He0. by right.
Qed.

Lemma acyclic_cons e F : acyclic F -> ~ linked F (from e) (to e) -> acyclic (e :: F).
Proof.
  intros HF Hn e' F' HP Hl. assert (e' ∈ e :: F) as He' by (rewrite HP; by left).
  apply elem_of_cons in He' as [->|He'].
  { apply Permutation_cons_inv in HP. apply Hn. by apply (linked_perm _ _ HP). }
  apply elem_of_Permutation in He' as [F0 HF0].
  assert (F' ≡ₚ e :: F0) as HF' by (rewrite HF0, Permutation_swap in HP; symmetry; by apply Permutation_cons_inv in HP).
  assert (~ linked F0 (from e') (to e')) as Hn' by (by apply HF).
  apply (linked_perm _ _ HF') in Hl. apply linked_cons in Hl as [Hl|[[H1 H2]|[H1 H2]]]; [done|..]; apply Hn, (linked_perm _ _ HF0), linked_cons.
  - right. left. split; by symmetry.
  - right. right. split; done.
Qed.

Lemma acyclic_filter (P : EdgeInfo -> Prop) `{!forall e, Decision (P e)} F : acyclic F -> acyclic (filter P F).
Proof.
  induction F as [|e F IH]; intros HF; [done|]. apply acyclic_cons_inv in HF as [HF Hn]. rewrite filter_cons. case_decide; [|by apply IH].
  apply acyclic_cons; [by apply IH|]. intros Hl. apply Hn. revert Hl. apply linked_subset. intros e' [_ He']%list_elem_of_filter. done.
Qed.

(** ** Counting components *)

(** A representative of the component of a node. *)
Fixpoint label F x : Z :=
  match F with
  | [] => x
  | e :: F => if decide (label F x = label F (from e)) then label F (to e) else label F x
  end.

Lemma label_linked F x y : label F x = label F y <-> linked F x y.
Proof.
  revert x y. induction F as [|e F IH]; intros x y; cbn [label].
  - split; [by intros ->|]. intros H. apply (linked_least [] eq); [by intros e ?%elem_of_nil|done].
  - rewrite linked_cons, <- !IH. repeat case_decide; split; intros H'; try naive_solver congruence.
Qed.

Lemma label_idemp F x : label F (label F x) = label F x.
Proof.
  induction F as [|e F IH] in x |- *; cbn [label]; [done|]. repeat case_decide; rewrite ?IH in *; congruence.
Qed.

Section nodes.
Variable n : Z.
Definition inside x : Prop := 0 <= x < n.
Definition edges_inside F : Prop := forall e, e ∈ F -> inside (from e) /\ inside (to e).
Definition roots F : list Z := filter (fun x => label F x = x) (seqZ 0 n).

Lemma edges_inside_cons e F : edges_inside (e :: F) -> edges_inside F /\ inside (from e) /\ inside (to e).
Proof. intros H. split; [intros e' He'; apply H; by right|apply H; by left]. Qed.

Lemma label_inside F x : edges_inside F -> inside x -> inside (label F x).
Proof.
  induction F as [|e F IH] in x |- *; intros HF Hx; cbn [label]; [done|]. apply edges_inside_cons in HF as (HF & H1 & H2). case_decide; by apply IH.
Qed.

Lemma elem_of_roots F x : x ∈ roots F <-> label F x = x /\ inside x.
Proof. unfold roots, inside. rewrite list_elem_of_filter, elem_of_seqZ. intuition lia. Qed.

Lemma NoDup_roots F : NoDup (roots F).
Proof. apply NoDup_filter, NoDup_seqZ. Qed.

(** A forest has one component less for every edge. *)
Lemma forest_count F : acyclic F -> edges_inside F -> (length F + length (roots F) = Z.to_nat n)%nat.
Proof.
  induction F as [|e F IH]; intros HF Hin.
  - unfold roots. cbn [label]. rewrite filter_all by (apply Forall_forall; done). rewrite length_seqZ. done.
  - apply acyclic_cons_inv in HF as [HF Hn]. apply edges_inside_cons in Hin as (Hin & H1 & H2). specialize (IH HF Hin).
    rewrite <- label_linked in Hn. cbn [length]. rewrite <- IH. unfold roots at 2.
    rewrite <- (length_filter_exclude (fun x => label F x = x) (fun x => label (e :: F) x = x) (label F (from e)) (seqZ 0 n)); [unfold roots; lia|apply NoDup_seqZ| | |].
    + apply elem_of_seqZ. pose proof (label_inside F _ Hin H1) as Hl. unfold inside in Hl. lia.
    + apply label_idemp.
    + intros x. cbn [label]. pose proof (label_idemp F (from e)). pose proof (label_idemp F (to e)). case_decide; split; naive_solver congruence.
Qed.

Lemma roots_antitone F G : (forall x y, linked F x y -> linked G x y) -> edges_inside F -> (length (roots G) <= length (roots F))%nat.
Proof.
  intros HFG HF. rewrite <- (length_fmap (label F) (roots G)). apply submseteq_length, NoDup_submseteq.
  - apply NoDup_fmap_2_strong; [|apply NoDup_roots]. intros x y [Hx _]%elem_of_roots [Hy _]%elem_of_roots E.
    apply label_linked, HFG, label_linked in E. congruence.
  - intros y (x & -> & [_ Hx]%elem_of_roots)%list_elem_of_fmap. apply elem_of_roots. split; [apply label_idemp|by apply label_inside].
Qed.

(** A forest within the classes of another has at most as many edges. *)
Lemma forest_le F G : acyclic F -> acyclic G -> edges_inside F -> edges_inside G -> (forall x y, linked F x y -> linked G x y) -> (length F <= length G)%nat.
Proof.
  intros HF HG HiF HiG HFG. pose proof (forest_count F HF HiF). pose proof (forest_count G HG HiG). pose proof (roots_antitone F G HFG HiF). lia.
Qed.
End nodes.

(** ** Comparing weights *)
Definition below (w : Z) F : list EdgeInfo := filter (fun e => weight e <= w) F.

Lemma total_perm F G : F ≡ₚ G -> total F = total G.
Proof. unfold total. induction 1; cbn; lia. Qed.

Lemma heaviest e F : exists e' F', e :: F ≡ₚ e' :: F' /\ forall e0, e0 ∈ e :: F -> weight e0 <= weight e'.
Proof.
  revert e. induction F as [|e1 F IH]; intros e; [exists e, []; split; [done|]; by intros e0 ->%list_elem_of_singleton|].
  destruct (IH e1) as (e' & F' & HP & Hmax). destruct (decide (weight e <= weight e')) as [Hle|Hgt].
  - exists e', (e :: F'). split; [rewrite HP; apply Permutation_swap|]. intros e0 [->|He0]%elem_of_cons; auto.
  - exists e, (e1 :: F). split; [done|]. intros e0 [->|He0]%elem_of_cons; [lia|]. specialize (Hmax e0 He0). lia.
Qed.

Lemma below_perm w F G : F ≡ₚ G -> length (below w F) = length (below w G).
Proof. intros HP. unfold below. by rewrite HP. Qed.

Lemma below_all w F : (forall e, e ∈ F -> weight e <= w) -> below w F = F.
Proof. intros H. unfold below. apply filter_all. by apply Forall_forall. Qed.

Lemma length_below w F : (length (below w F) <= length F)%nat.
Proof. apply length_filter. Qed.

(** If [G] has at least as many edges below every weight, it is not heavier. *)
Lemma total_le F : forall G, length F = length G -> (forall w, length (below w F) <= length (below w G))%nat -> total G <= total F.
Proof.
  remember (length F) as k eqn:Ek. revert F Ek. induction k as [|k IH]; intros F Ek G Hl Hw.
  { destruct F, G; try done. }
  destruct F as [|e F]; [done|]. destruct G as [|e1 G]; [done|].
  destruct (heaviest e F) as (f & F' & HF & Hf). destruct (heaviest e1 G) as (g & G' & HG & Hg).
  pose proof (Permutation_length HF) as HlF. pose proof (Permutation_length HG) as HlG. cbn [length] in *.
  assert (weight g <= weight f) as Hgf.
  { specialize (Hw (weight f)). rewrite (below_all _ (e :: F)) in Hw by auto. rewrite (below_perm _ _ _ HG) in Hw. unfold below in Hw at 1.
    rewrite filter_cons in Hw. case_decide; [done|]. pose proof (length_below (weight f) G'). unfold below in *. cbn [length] in *. lia. }
  rewrite (total_perm _ _ HF), (total_perm _ _ HG). assert (total G' <= total F'); [|unfold total in *; cbn; lia].
  apply (IH F'); [lia|lia|]. intros w. destruct (decide (weight g <= w)) as [Hgw|Hgw].
  - rewrite (below_all w G'); [pose proof (length_below w F'); lia|]. intros e0 He0. transitivity (weight g); [apply Hg; rewrite HG; by right|done].
  - specialize (Hw w). rewrite (below_perm _ _ _ HF), (below_perm _ _ _ HG) in Hw. unfold below in *. rewrite !filter_cons in Hw.
    rewrite !decide_False in Hw by lia. done.
Qed.

(** A forest [T] that spans the edges [E] below every weight is lightest among the
    forests of [E] that span it. *)
Lemma lightest n (E T F : list EdgeInfo) : acyclic T -> acyclic F -> edges_inside n E -> edges_inside n T -> edges_inside n F ->
  (forall w e, e ∈ F -> weight e <= w -> linked (below w E) (from e) (to e)) ->
  (forall w x y, linked (below w E) x y -> linked (below w T) x y) ->
  (forall e, e ∈ T -> linked F (from e) (to e)) -> total T <= total F.
Proof.
  intros HT HF HiE HiT HiF HFE HET HTF.
  assert (forall w G, edges_inside n G -> edges_inside n (below w G)) as Hib by (intros w G HG e [_ He]%list_elem_of_filter; by apply HG).
  assert (forall w, length (below w F) <= length (below w T))%nat as Hle.
  { intros w. apply (forest_le n); [by apply acyclic_filter|by apply acyclic_filter|by apply Hib|by apply Hib|].
    intros x y Hxy. apply HET. revert Hxy. apply linked_mono. intros e [Hw He]%list_elem_of_filter. by apply HFE. }
  apply total_le; [|done]. apply Nat.le_antisymm.
  - destruct F as [|e F]; [cbn; lia|]. destruct (heaviest e F) as (f & F' & _ & Hf). specialize (Hle (weight f)).
    rewrite below_all in Hle by done. pose proof (length_below (weight f) T). lia.
  - apply (forest_le n); [done..|]. by apply linked_mono.
Qed.
