(* ===== verification/KruskalMST.v ===== *)
(** * Kruskal's minimum spanning forest ([data_structure/graph/algorithm/KruskalMST.cc])

    The edges with [u <= to], sorted by weight, are added while they join different
    sets of the file's own union-find.  [std::sort] leaves the order of equal
    weights open: it is a parameter that permutes and sorts.  The recursion of [find]
    follows a path of increasing ranks, which are below the number of nodes. *)

From stdpp Require Import sorting.
From S2P Require Import Prelude Forest Graph BreadthFirst SpanningForest.
Local Open Scope Z_scope.

#[local] Set Warnings "-register-all".

Record UnionFind := mkUF { parent_ : list Z; rank_ : list Z }.

(** [struct MSTResult] *)
Record MSTResult := mkMST { edges : list EdgeInfo; total_weight : Z }.

Implicit Types (s : UnionFind) (g : Graph) (a b u v x y : Z) (e : EdgeInfo).

(** ** [class UnionFind] *)
Fixpoint init_loop (k : nat) (i : Z) (parent : list Z) : outcome (list Z) :=
  match k with O => Ret parent | S k => parent ← vsetz parent i i; init_loop k (i + 1) parent end.

Definition uf_new (n : Z) : outcome UnionFind :=
  parent ← init_loop (Z.to_nat n) 0 (replicate (Z.to_nat n) 0); Ret (mkUF parent (replicate (Z.to_nat n) 0)).

Fixpoint find (fuel : nat) s x : outcome (Z * UnionFind) :=
  match fuel with
  | O => NoFuel
  | S fuel =>
    p ← vgetz (parent_ s) x;
    s ← (if decide (p <> x) then
           '(r, s) ← find fuel s p;
           parent ← vsetz (parent_ s) x r;
           Ret (mkUF parent (rank_ s))
         else Ret s);
    r ← vgetz (parent_ s) x;
    Ret (r, s)
  end.

Definition unite s a b : outcome (bool * UnionFind) :=
  let fuel := S (length (parent_ s)) in
  '(ra, s) ← find fuel s a;
  '(rb, s) ← find fuel s b;
  if decide (ra = rb) then Ret (false, s) else
  ka ← vgetz (rank_ s) ra;
  kb ← vgetz (rank_ s) rb;
  if decide (ka < kb) then parent ← vsetz (parent_ s) ra rb; Ret (true, mkUF parent (rank_ s))
  else if decide (kb < ka) then parent ← vsetz (parent_ s) rb ra; Ret (true, mkUF parent (rank_ s))
  else
    parent ← vsetz (parent_ s) rb ra;
    k ← add32 ka 1;
    rank ← vsetz (rank_ s) ra k;
    Ret (true, mkUF parent rank).

(** ** [compute] *)
Fixpoint collect_edges u (es : list Edge) (all_edges : list EdgeInfo) : list EdgeInfo :=
  match es with
  | [] => all_edges
  | e :: es => collect_edges u es (if decide (u <= to_ e) then all_edges ++ [mkEdgeInfo u (to_ e) (weight_ e)] else all_edges)
  end.

Fixpoint collect (k : nat) g u (all_edges : list EdgeInfo) : outcome (list EdgeInfo) :=
  match k with
  | O => Ret all_edges
  | S k => es ← getAdjList g u; collect k g (u + 1) (collect_edges u es all_edges)
  end.

Fixpoint add_edges s (result : MSTResult) (es : list EdgeInfo) : outcome MSTResult :=
  match es with
  | [] => Ret result
  | e :: es =>
    '(joined, s) ← unite s (from e) (to e);
    result ← (if (joined : bool) then
                w ← add32 (total_weight result) (weight e); Ret (mkMST (edges result ++ [e]) w)
              else Ret result);
    add_edges s result es
  end.

Section kruskal.
Variable sort : list EdgeInfo -> list EdgeInfo.

Definition lighter e e' : Prop := weight e <= weight e'.

(** What [std::sort] promises of the comparison by weight. *)
Definition sort_law : Prop := forall es, sort es ≡ₚ es /\ StronglySorted lighter (sort es).

Definition compute g : outcome MSTResult :=
  let n := getNodeCount g in
  if decide (n = 0) then Ret (mkMST [] 0) else
  all_edges ← collect (Z.to_nat n) g 0 [];
  s ← uf_new n;
  add_edges s (mkMST [] 0) (sort all_edges).

(** ** The union-find *)
Definition par s : Z -> option Z := fun x => if decide (0 <= x) then parent_ s !! Z.to_nat x else None.
Definition rk s : Z -> nat := fun x => if decide (0 <= x) then Z.to_nat (default 0 (rank_ s !! Z.to_nat x)) else 0%nat.

Record uf_ok (n : Z) s : Prop := {
  uf_parent : Z.of_nat (length (parent_ s)) = n;
  uf_rank : Z.of_nat (length (rank_ s)) = n;
  uf_nonneg : Forall (fun k => 0 <= k) (rank_ s);
  uf_wf : dsu_wf (par s) (rk s);
}.

Lemma par_Some s x : is_Some (par s x) <-> 0 <= x < Z.of_nat (length (parent_ s)).
Proof. unfold par. case_decide; [rewrite lookup_lt_is_Some; lia|]. split; [by intros [? ?]|lia]. Qed.

Lemma par_get s x y : par s x = Some y -> vgetz (parent_ s) x = Ret y.
Proof. unfold par, vgetz. case_decide; [|done]. apply vget_Some. Qed.

Lemma par_set s x y parent' z : vsetz (parent_ s) x y = Ret parent' ->
  length parent' = length (parent_ s) /\ par (mkUF parent' (rank_ s)) z = if decide (z = x) then Some y else par s z.
Proof.
  unfold vsetz. case_decide as Hx; [|done]. intros [Hlt ->]%vset_Ret. rewrite length_insert. split; [done|]. unfold par. cbn [parent_].
  repeat case_decide; subst; try done; try lia; [by rewrite list_lookup_insert_eq|by rewrite list_lookup_insert_ne by lia].
Qed.

Lemma uf_rank_get n s x : uf_ok n s -> 0 <= x < n -> vgetz (rank_ s) x = Ret (Z.of_nat (rk s x)).
Proof.
  intros Hok Hx. pose proof (uf_rank _ _ Hok). destruct (lookup_z (rank_ s) x) as [k Hk]; [lia|].
  rewrite (vgetz_Some _ _ k) by (done || lia). unfold rk. rewrite decide_True, Hk by lia. cbn. f_equal. pose proof (uf_nonneg _ _ Hok) as Hn.
  rewrite Forall_lookup in Hn. specialize (Hn _ _ Hk). lia.
Qed.

(** Ranks are far below the number of nodes. *)
Lemma rank_small n s r : uf_ok n s -> par s r = Some r -> Z.of_nat (rk s r) < n.
Proof.
  intros Hok Hr. pose proof (rank_bound (par s) (rk s) r (list_to_set (seqZ 0 n)) (uf_wf _ _ Hok)) as Hb.
  rewrite size_list_to_set, length_seqZ in Hb by apply NoDup_seqZ. specialize (Hb ltac:(intros z Hz; apply elem_of_list_to_set, elem_of_seqZ; apply par_Some in Hz; rewrite (uf_parent _ _ Hok) in Hz; lia) Hr).
  pose proof (Nat.pow_gt_lin_r 2 (rk s r)). lia.
Qed.

Lemma find_ok n fuel : forall s x r, uf_ok n s -> reaches (par s) x r -> (rk s r - rk s x < fuel)%nat ->
  exists s', find fuel s x = Ret (r, s') /\ uf_ok n s' /\ rank_ s' = rank_ s /\ forall a b, reaches (par s') a b <-> reaches (par s) a b.
Proof.
  induction fuel as [|fuel IH]; intros s x r Hok Hr Hf; [lia|]. cbn [find].
  destruct (reaches_dom _ _ _ Hr) as [p Hp]. rewrite (par_get _ _ _ Hp). ret_step. case_decide as Hpx.
  - assert (reaches (par s) p r) as Hpr by (destruct Hr as [r Hr|x y r Hxy Hne Hyr]; [congruence|]; by replace p with y by congruence).
    pose proof (wf_rank _ _ (uf_wf _ _ Hok) x p Hp (not_eq_sym Hpx)) as Hlt. pose proof (reaches_rank _ _ _ _ (uf_wf _ _ Hok) Hpr) as Hle.
    destruct (IH s p r Hok Hpr) as (s1 & -> & Hok1 & Hrank & Hreach); [lia|]. ret_step.
    assert (reaches (par s1) x r) as Hr1 by (by apply Hreach).
    pose proof (proj1 (par_Some s1 x) (reaches_dom _ _ _ Hr1)) as Hx. rewrite vsetz_lt by lia. ret_step. ret_step.
    assert (x <> r) as Hxr by (intros ->; apply reaches_is_root in Hr; congruence).
    destruct (par_set s1 x r (<[Z.to_nat x := r]> (parent_ s1)) x) as [Hlen Hpar]; [by rewrite vsetz_lt by lia|].
    assert (forall z, par (mkUF (<[Z.to_nat x := r]> (parent_ s1)) (rank_ s1)) z = if decide (z = x) then Some r else par s1 z) as Hpar'.
    { intros z. apply (par_set s1 x r). by rewrite vsetz_lt by lia. }
    destruct (compress_wf (par s1) (rk s1) x r _ (uf_wf _ _ Hok1) Hr1 Hxr Hpar') as [Hwf Hsame].
    rewrite (par_get _ x r) by (by rewrite Hpar, decide_True). ret_step. eexists. split; [done|]. split_and!; [|done|].
    + destruct Hok1. split; cbn [parent_ rank_]; [by rewrite Hlen|done|done|done].
    + intros a b. by rewrite Hsame, Hreach.
  - assert (p = x) as -> by (destruct (decide (p = x)); [done|by destruct Hpx]).
    rewrite (reaches_from_root _ _ _ Hp Hr). ret_step. rewrite (par_get _ _ _ Hp). ret_step. by exists s.
Qed.

Lemma find_root_ok n s x : uf_ok n s -> 0 <= x < n -> exists r s', find (S (length (parent_ s))) s x = Ret (r, s') /\ uf_ok n s' /\
  rank_ s' = rank_ s /\ reaches (par s) x r /\ forall a b, reaches (par s') a b <-> reaches (par s) a b.
Proof.
  intros Hok Hx. pose proof (uf_parent _ _ Hok). destruct (wf_total _ _ (uf_wf _ _ Hok) x) as [r Hr]; [apply par_Some; lia|].
  pose proof (rank_small n s r Hok (reaches_is_root _ _ _ Hr)). destruct (find_ok n (S (length (parent_ s))) s x r Hok Hr) as (s' & H1 & H2 & H3 & H4); [lia|].
  by exists r, s'.
Qed.

(** Merging the classes of [x] and [y]. *)
Definition merged s s' x y : Prop := forall u v, conn (par s') u v <->
  conn (par s) u v \/ (conn (par s) u x /\ conn (par s) y v) \/ (conn (par s) u y /\ conn (par s) x v).

(** The root [a] goes below the root [b]; [up] says that [b]'s rank is incremented. *)
Lemma link_roots_ok n s a b parent' rank' (up : bool) : uf_ok n s -> par s a = Some a -> par s b = Some b -> a <> b ->
  (if up then rk s a = rk s b else rk s a < rk s b)%nat ->
  vsetz (parent_ s) a b = Ret parent' -> rank' = (if up then <[Z.to_nat b := Z.of_nat (S (rk s b))]> (rank_ s) else rank_ s) ->
  uf_ok n (mkUF parent' rank') /\ forall x y, reaches (par s) x a -> reaches (par s) y b -> merged s (mkUF parent' rank') x y.
Proof.
  intros Hok Ha Hb Hab Hup Hset ->. pose proof (proj1 (par_Some s b) (ex_intro _ _ Hb)) as Hbr. rewrite (uf_parent _ _ Hok) in Hbr.
  pose proof (uf_rank _ _ Hok) as Hrl. destruct (par_set _ _ _ _ a Hset) as [Hlen _].
  set (s' := mkUF parent' (if up then <[Z.to_nat b := Z.of_nat (S (rk s b))]> (rank_ s) else rank_ s)).
  destruct (link_wf (par s) (rk s) a b (par s') (rk s') up (uf_wf _ _ Hok) Ha Hb Hab Hup) as [Hwf Hlink].
  - intros z. by destruct (par_set _ _ _ _ z Hset) as [_ <-].
  - intros z. unfold rk at 1. subst s'. cbn [rank_]. destruct up; [|by destruct (decide (z = b)); subst]. destruct (decide (z = b)) as [Hz|Hz].
    + subst z. rewrite decide_True, list_lookup_insert_eq by lia. cbn. apply Nat2Z.id.
    + unfold rk. case_decide; [|done]. by rewrite list_lookup_insert_ne by lia.
  - split; [|intros x y Hx Hy u v; by eapply link_conn]. split; subst s'; cbn [parent_ rank_]; [by rewrite Hlen; apply Hok| | |done].
    + destruct up; rewrite ?length_insert; done.
    + destruct up; [apply Forall_insert; [apply Hok|lia]|apply Hok].
Qed.

Lemma unite_ok n s x y : uf_ok n s -> n <= INT32_MAX -> 0 <= x < n -> 0 <= y < n ->
  exists j s', unite s x y = Ret (j, s') /\ uf_ok n s' /\ (j = true <-> ~ conn (par s) x y) /\ merged s s' x y.
Proof.
  intros Hok Hn Hx Hy. unfold unite. destruct (find_root_ok n s x Hok Hx) as (rx & s1 & -> & Hok1 & _ & Hrx & Hr1). ret_step.
  assert (length (parent_ s) = length (parent_ s1)) as -> by (pose proof (uf_parent _ _ Hok); pose proof (uf_parent _ _ Hok1); lia).
  destruct (find_root_ok n s1 y Hok1 Hy) as (ry & s2 & -> & Hok2 & _ & Hry & Hr2). ret_step.
  assert (forall u v, conn (par s2) u v <-> conn (par s) u v) as Hc by (apply conn_of_reaches; intros a b; by rewrite Hr2, Hr1).
  rewrite Hr1 in Hry. assert (reaches (par s2) x rx) as Hx2 by (by rewrite Hr2, Hr1). assert (reaches (par s2) y ry) as Hy2 by (by rewrite Hr2, Hr1).
  pose proof (conn_reaches _ _ _ _ _ Hrx Hry) as Hxy. pose proof (reaches_is_root _ _ _ Hx2) as Hpx. pose proof (reaches_is_root _ _ _ Hy2) as Hpy.
  case_decide as Heq.
  { exists false, s2. split_and!; [done|done|naive_solver|]. intros u v. rewrite Hc. split; [by left|].
    apply Hxy in Heq. intros [Huv|[[Hu Hv]|[Hu Hv]]]; [done|by rewrite Hu, Heq|by rewrite Hu, <- Heq]. }
  assert (forall s' (j : bool), uf_ok n s' -> j = true -> merged s2 s' x y -> uf_ok n s' /\ (j = true <-> ~ conn (par s) x y) /\ merged s s' x y) as Hfin.
  { intros s' j Hs' Hb Hm. split_and!; [done|naive_solver|]. intros u v. by rewrite (Hm u v), !Hc. }
  assert (forall s', merged s2 s' y x -> merged s2 s' x y) as Hswap by (intros s' Hm u v; rewrite (Hm u v); tauto).
  pose proof (proj1 (par_Some s2 rx) (ex_intro _ _ Hpx)) as Hbx. pose proof (proj1 (par_Some s2 ry) (ex_intro _ _ Hpy)) as Hby.
  pose proof (uf_parent _ _ Hok2) as Hl2. pose proof (uf_rank _ _ Hok2) as Hl2'. rewrite !(uf_rank_get n) by (done || lia). ret_step. ret_step.
  pose proof (rank_small n s2 rx Hok2 Hpx) as Hsmall. case_decide as E1; [|case_decide as E2].
  - rewrite vsetz_lt by lia. ret_step. eexists true, _. split; [done|].
    destruct (link_roots_ok n s2 rx ry _ _ false Hok2 Hpx Hpy Heq ltac:(cbn; lia) (vsetz_lt _ _ _ Hbx) eq_refl) as [Hok' Hm]. apply Hfin; auto.
  - rewrite vsetz_lt by lia. ret_step. eexists true, _. split; [done|].
    destruct (link_roots_ok n s2 ry rx _ _ false Hok2 Hpy Hpx (not_eq_sym Heq) ltac:(cbn; lia) (vsetz_lt _ _ _ Hby) eq_refl) as [Hok' Hm]. apply Hfin; auto.
  - rewrite vsetz_lt by lia. ret_step. rewrite add32_in by (unfold in_i32, INT32_MIN; lia). ret_step. rewrite vsetz_lt by lia. ret_step.
    eexists true, _. split; [done|].
    destruct (link_roots_ok n s2 ry rx _ _ true Hok2 Hpy Hpx (not_eq_sym Heq) ltac:(cbn; lia) (vsetz_lt _ _ _ Hby) eq_refl) as [Hok' Hm].
    replace (Z.of_nat (rk s2 rx) + 1) with (Z.of_nat (S (rk s2 rx))) by lia. apply Hfin; auto.
Qed.

(** The initial union-find: every node alone. *)
Lemma init_loop_ok k : forall i parent, 0 <= i -> Z.of_nat (length parent) = i + Z.of_nat k -> (forall j, 0 <= j < i -> parent !! Z.to_nat j = Some j) ->
  exists parent', init_loop k i parent = Ret parent' /\ length parent' = length parent /\ forall j, 0 <= j < i + Z.of_nat k -> parent' !! Z.to_nat j = Some j.
Proof.
  induction k as [|k IH]; intros i parent Hi Hl Hp; cbn [init_loop]; [exists parent; split_and!; [done|done|]; intros j Hj; apply Hp; lia|].
  rewrite vsetz_lt by lia. ret_step. destruct (IH (i + 1) (<[Z.to_nat i := i]> parent)) as (parent' & -> & Hl' & Hp'); [lia|rewrite length_insert; lia| |].
  - intros j Hj. destruct (decide (j = i)) as [->|Hne]; [apply list_lookup_insert_eq; lia|]. rewrite list_lookup_insert_ne by lia. apply Hp. lia.
  - rewrite length_insert in Hl'. exists parent'. split_and!; [done|done|]. intros j Hj. apply Hp'. lia.
Qed.

Lemma uf_new_ok n : 0 <= n -> exists s, uf_new n = Ret s /\ uf_ok n s /\ forall u v, conn (par s) u v -> u = v.
Proof.
  intros Hn. unfold uf_new. destruct (init_loop_ok (Z.to_nat n) 0 (replicate (Z.to_nat n) 0)) as (parent & -> & Hl & Hp); [lia|rewrite length_replicate; lia|intros j Hj; lia|].
  rewrite length_replicate in Hl. ret_step. eexists. split; [done|]. set (s := mkUF parent (replicate (Z.to_nat n) 0)).
  assert (forall x y, par s x = Some y -> y = x /\ 0 <= x) as Hpar.
  { intros x y. unfold par. subst s. cbn [parent_]. case_decide; [|done]. intros Hy. pose proof (lookup_lt_Some _ _ _ Hy) as Hlt. rewrite Hp in Hy by lia. by injection Hy as <-. }
  assert (forall u r, reaches (par s) u r -> u = r) as Hself.
  { intros u r. induction 1 as [|u v r Hu Hne _ _]; [done|]. apply Hpar in Hu as [-> _]. done. }
  split; [split|].
  - subst s. cbn. lia.
  - subst s. cbn. rewrite length_replicate. lia.
  - subst s. cbn. by apply Forall_replicate.
  - split.
    + intros x [y Hy]. exists x. apply reaches_root. by destruct (Hpar _ _ Hy) as [<- _].
    + intros x y Hy Hne. by apply Hpar in Hy as [-> _].
    + intros r Hr. exists {[r]}. split; [intros y ->%elem_of_singleton; by apply reaches_root|].
      unfold rk. subst s. cbn [rank_]. rewrite size_singleton. case_decide; [|done]. destruct (replicate (Z.to_nat n) 0 !! Z.to_nat r) as [k|] eqn:E; [|done].
      by apply lookup_replicate in E as [-> _].
  - intros u v [->|(r & Hu & Hv)]; [done|]. apply Hself in Hu as ->. by apply Hself in Hv as ->.
Qed.

(** ** The edges of the graph *)
Definition graph_edge g e : Prop := node g (from e) /\ mkEdge (to e) (weight e) ∈ adj g (from e).
Definition reverse e : EdgeInfo := mkEdgeInfo (to e) (from e) (weight e).

(** An undirected graph: every edge is there in both directions. *)
Definition symmetric g : Prop := forall e, graph_edge g e -> graph_edge g (reverse e).

(** A forest of edges of the graph that joins whatever the graph connects. *)
Definition spanning_forest g (F : list EdgeInfo) : Prop :=
  (forall e, e ∈ F -> graph_edge g e) /\ acyclic F /\ forall x y, reachable g x y -> linked F x y.

Lemma elem_of_collect_edges u es : forall acc e, e ∈ collect_edges u es acc <->
  e ∈ acc \/ (from e = u /\ u <= to e /\ mkEdge (to e) (weight e) ∈ es).
Proof.
  induction es as [|[t w] es IH]; intros acc e; cbn [collect_edges].
  - split; [by left|]. intros [He|(_ & _ & He)]; [done|by apply elem_of_nil in He].
  - rewrite IH, elem_of_cons. cbn [to_ weight_]. destruct e as [f t' w']. cbn [from to weight]. case_decide.
    + rewrite elem_of_app, list_elem_of_singleton. split; [|naive_solver].
      intros [[He|[= -> -> ->]]|He]; [by left|right; auto|naive_solver].
    + split; [naive_solver|]. intros [He|(-> & Ht & [[= -> ->]|He])]; [by left|lia|naive_solver].
Qed.

Lemma collect_ok g k : forall u acc, wf_graph g -> 0 <= u -> u + Z.of_nat k <= num_nodes_ g ->
  exists es, collect k g u acc = Ret es /\
    forall e, e ∈ es <-> e ∈ acc \/ (u <= from e < u + Z.of_nat k /\ from e <= to e /\ mkEdge (to e) (weight e) ∈ adj g (from e)).
Proof.
  induction k as [|k IH]; intros u acc Hwf Hu Hk; cbn [collect].
  { exists acc. split; [done|]. intros e. split; [by left|]. intros [He|He]; [done|lia]. }
  destruct (adj_ok g u Hwf) as [_ ->]; [unfold node; lia|]. ret_step.
  destruct (IH (u + 1) (collect_edges u (adj g u) acc) Hwf) as (es & -> & Hes); [lia|lia|]. exists es. split; [done|].
  intros e. rewrite Hes, elem_of_collect_edges. split.
  - intros [[He|(<- & Hle & He)]|He]; [by left|right; split_and!; [lia|lia|done|done]|right; split_and!; [lia|lia|apply He|apply He]].
  - intros [He|(Hr & Hle & He)]; [by left; left|]. destruct (decide (from e = u)) as [E|Hne]; [left; right; by rewrite E in *|right].
    split_and!; [lia|lia|done|done].
Qed.

(** ** The greedy loop *)

(** Weights of which as many as there are nodes fit an [int32_t]. *)
Definition small_weights (n : Z) (es : list EdgeInfo) : Prop := forall e, e ∈ es -> Z.abs (weight e) * n <= INT32_MAX.

Lemma total_weight_app (F G : list EdgeInfo) : total (F ++ G) = total F + total G.
Proof. unfold total in *. induction F as [|e F IH]; cbn in *; [done|rewrite IH; lia]. Qed.

Lemma total_bound n (F : list EdgeInfo) : 0 < n -> small_weights n F -> Z.abs (total F) * n <= INT32_MAX * Z.of_nat (length F).
Proof.
  intros Hn. induction F as [|e F IH]; intros HF; [cbn; lia|]. cbn [total foldr length]. fold (total F).
  pose proof (HF e ltac:(by left)). specialize (IH ltac:(intros e' He'; apply HF; by right)). pose proof (Z.abs_triangle (weight e) (total F)). nia.
Qed.

Record greedy n (done : list EdgeInfo) s (result : MSTResult) : Prop := {
  gd_uf : uf_ok n s;
  gd_conn : forall x y, conn (par s) x y <-> linked (edges result) x y;
  gd_below : forall w x y, linked (below w done) x y -> linked (below w (edges result)) x y;
  gd_acyclic : acyclic (edges result);
  gd_subset : forall e, e ∈ edges result -> e ∈ done;
  gd_total : total_weight result = total (edges result);
}.

Lemma greedy_below n done s result e (F : list EdgeInfo) : greedy n done s result -> (forall d, d ∈ done -> lighter d e) ->
  (forall d, d ∈ edges result -> d ∈ F) -> linked F (from e) (to e) -> (e ∈ F \/ F = edges result) ->
  forall w x y, linked (below w (done ++ [e])) x y -> linked (below w F) x y.
Proof.
  intros Hg Hl Hsub He HF w. apply linked_mono. intros d [Hw [Hd| ->%list_elem_of_singleton]%elem_of_app]%list_elem_of_filter.
  - assert (linked (below w (edges result)) (from d) (to d)) as Hd' by (apply (gd_below _ _ _ _ Hg), linked_edge, list_elem_of_filter; done).
    revert Hd'. apply linked_subset. intros d' [Hw' Hd']%list_elem_of_filter. apply list_elem_of_filter. split; [done|by apply Hsub].
  - destruct HF as [HF| ->]; [apply linked_edge, list_elem_of_filter; done|]. rewrite below_all; [done|].
    intros d Hd%(gd_subset _ _ _ _ Hg)%Hl. unfold lighter in Hd. lia.
Qed.

Lemma add_edges_greedy n es : 0 < n <= INT32_MAX -> forall done s result, greedy n done s result -> edges_inside n (done ++ es) -> small_weights n (done ++ es) ->
  (forall d e, d ∈ done -> e ∈ es -> lighter d e) -> StronglySorted lighter es ->
  exists r s', add_edges s result es = Ret r /\ greedy n (done ++ es) s' r.
Proof.
  intros Hn. induction es as [|e es IH]; intros done s result Hg Hin Hsmall Hl Hs; cbn [add_edges].
  { exists result, s. by rewrite app_nil_r. }
  assert (e ∈ done ++ e :: es) as He by (apply elem_of_app; right; by left). destruct (Hin e He) as [H1 H2]. apply StronglySorted_cons in Hs as [Hle Hs]. rewrite Forall_forall in Hle.
  destruct (unite_ok n s (from e) (to e) (gd_uf _ _ _ _ Hg)) as (j & s1 & -> & Hok1 & Hj & Hm); [lia|done|done|]. ret_step.
  assert ((done ++ [e]) ++ es = done ++ e :: es) as Eapp by (by rewrite <- app_assoc).
  assert (forall d e0, d ∈ done ++ [e] -> e0 ∈ es -> lighter d e0) as Hl'.
  { intros d e0 [Hd| ->%list_elem_of_singleton]%elem_of_app He0; [apply Hl; [done|by right]|by apply Hle]. }
  assert (forall d, d ∈ done -> lighter d e) as Hled by (intros d Hd; apply Hl; [done|by left]).
  rewrite (gd_conn _ _ _ _ Hg) in Hj. destruct j.
  - assert (~ linked (edges result) (from e) (to e)) as Hnl by (by apply Hj).
    assert (edges result ++ [e] ≡ₚ e :: edges result) as HP by (by rewrite Permutation_app_comm).
    assert (acyclic (edges result ++ [e])) as Hac by (apply (acyclic_perm (e :: edges result)); [done|apply acyclic_cons; [apply Hg|done]]).
    assert (forall d, d ∈ edges result ++ [e] -> d ∈ done ++ [e]) as Hsub.
    { intros d. rewrite !elem_of_app. intros [Hd|Hd]; [left; by apply (gd_subset _ _ _ _ Hg)|by right]. }
    assert (forall d, d ∈ edges result ++ [e] -> d ∈ done ++ e :: es) as Hsub' by (intros d Hd%Hsub; rewrite <- Eapp; apply elem_of_app; by left).
    rewrite (gd_total _ _ _ _ Hg). assert (total (edges result ++ [e]) = total (edges result) + weight e) as Ht by (rewrite total_weight_app; cbn; lia).
    rewrite add32_in, <- Ht.
    2: { assert (edges_inside n (edges result ++ [e])) as HiT by (intros d Hd; apply Hin; auto).
         pose proof (forest_count n _ Hac HiT) as Hcount. pose proof (total_bound n (edges result ++ [e]) ltac:(lia) ltac:(intros d Hd; apply Hsmall; auto)) as Hb.
         rewrite <- Ht. unfold in_i32, INT32_MIN, INT32_MAX in *. nia. }
    ret_step. ret_step. rewrite <- Eapp in Hin, Hsmall |- *. apply IH; [|done|done|done|done].
    split; cbn [edges total_weight]; [done| | |done|done|done].
    + intros x y. rewrite (Hm x y), (linked_perm _ _ HP), linked_cons, !(gd_conn _ _ _ _ Hg). done.
    + apply (greedy_below n done s result e); [done|done| | |].
      * intros d Hd. apply elem_of_app. by left.
      * apply linked_edge, elem_of_app. right. by left.
      * left. apply elem_of_app. right. by left.
  - assert (linked (edges result) (from e) (to e)) as Hle'.
    { apply label_linked. destruct (decide (label (edges result) (from e) = label (edges result) (to e))) as [E|E]; [done|]. rewrite label_linked in E. by apply Hj in E. }
    ret_step. rewrite <- Eapp in Hin, Hsmall |- *. apply IH; [|done|done|done|done].
    split; [done| | |apply Hg| |apply Hg].
    + intros x y. rewrite (Hm x y), !(gd_conn _ _ _ _ Hg). split; [|by left].
      intros [Hxy|[[Hx Hy]|[Hx Hy]]]; [done|..]; (etransitivity; [exact Hx|]; etransitivity; [|exact Hy]); [done|by symmetry].
    + apply (greedy_below n done s result e); [done|done|done|done|by right].
    + intros d Hd. apply elem_of_app. left. by apply (gd_subset _ _ _ _ Hg).
Qed.

Lemma greedy_start n s : uf_ok n s -> (forall u v, conn (par s) u v -> u = v) -> greedy n [] s (mkMST [] 0).
Proof.
  intros Hok Hc. split; cbn [edges total_weight]; [done| |done|apply acyclic_nil|done|done].
  intros x y. rewrite <- label_linked. cbn. split; [by apply Hc|by intros ->].
Qed.

Lemma reachable_linked g (F : list EdgeInfo) : (forall e, graph_edge g e -> linked F (from e) (to e)) -> forall x y, reachable g x y -> linked F x y.
Proof.
  intros HF x y [k Hk]. induction Hk as [u Hu|k u v w Hk IH Hvw]; [done|]. etransitivity; [exact IH|].
  destruct Hvw as [Hv ([t wt] & -> & He)%list_elem_of_fmap]. apply (HF (mkEdgeInfo v t wt)). done.
Qed.

Lemma graph_edge_reachable g e : wf_graph g -> graph_edge g e -> reachable g (from e) (to e).
Proof.
  intros Hwf [Hn He]. exists (0 + 1). eapply walk_snoc; [by apply walk_nil|]. split; [done|]. apply list_elem_of_fmap. by exists (mkEdge (to e) (weight e)).
Qed.

Lemma kruskal_ok g : sort_law -> wf_graph g -> symmetric g ->
  (forall e, graph_edge g e -> Z.abs (weight e) * num_nodes_ g <= INT32_MAX) ->
  exists r, compute g = Ret r /\ spanning_forest g (edges r) /\ total_weight r = total (edges r) /\
    forall F, spanning_forest g F -> total (edges r) <= total F.
Proof.
  intros Hsort Hwf Hsym Hw. pose proof (wf_nodes _ Hwf). pose proof (wf_int _ Hwf). unfold compute, getNodeCount. case_decide as Hn.
  { exists (mkMST [] 0). split; [done|]. assert (forall e, ~ graph_edge g e) as Hno by (intros e [Hnode _]; unfold node in Hnode; lia). split_and!; [|done|].
    - split_and!; [by intros e ?%elem_of_nil|apply acyclic_nil|]. apply reachable_linked. intros e He. by destruct (Hno e).
    - intros F [HF _]. destruct F as [|e F]; [done|]. destruct (Hno e). apply HF. by left. }
  set (n := num_nodes_ g) in *. destruct (collect_ok g (Z.to_nat n) 0 [] Hwf) as (E & -> & HE); [lia|lia|]. ret_step.
  assert (forall e, e ∈ E <-> graph_edge g e /\ from e <= to e) as HE'.
  { intros e. rewrite HE, elem_of_nil. unfold graph_edge, node. fold n. intuition lia. }
  destruct (uf_new_ok n) as (s & -> & Hok & Hc); [lia|]. ret_step. destruct (Hsort E) as [HP Hs].
  assert (forall e, graph_edge g e -> inside n (from e) /\ inside n (to e)) as Hinside.
  { intros e He. split; [apply He|]. destruct He as [He1 He2]. destruct (edge_node g (from e) (to e) Hwf) as [_ Hto]; [|done].
    split; [done|]. apply list_elem_of_fmap. by exists (mkEdge (to e) (weight e)). }
  assert (edges_inside n (sort E)) as HiE by (intros e He; rewrite HP in He; apply HE' in He as [He _]; by apply Hinside).
  destruct (add_edges_greedy n (sort E) ltac:(lia) [] s (mkMST [] 0)) as (r & s' & -> & Hg);
    [by apply greedy_start|done|intros e He; cbn [app] in He; rewrite HP in He; apply HE' in He as [He _]; by apply Hw|by intros d e ?%elem_of_nil|done|].
  cbn [app] in Hg. exists r. split; [done|]. assert (forall e, e ∈ edges r -> graph_edge g e) as HT.
  { intros e He%(gd_subset _ _ _ _ Hg). rewrite HP in He. by apply HE' in He as [He _]. }
  assert (forall w e, graph_edge g e -> weight e <= w -> linked (below w (sort E)) (from e) (to e)) as HFE.
  { intros w e He Hle. destruct (decide (from e <= to e)) as [Hd|Hd].
    - apply linked_edge, list_elem_of_filter. split; [done|]. rewrite HP. by apply HE'.
    - symmetry. apply (linked_edge _ (reverse e)), list_elem_of_filter. split; [done|]. rewrite HP. apply HE'. split; [by apply Hsym|]. cbn. lia. }
  split_and!; [split_and!; [done|apply Hg|]|apply Hg|].
  - apply reachable_linked. intros e He. specialize (HFE (weight e) e He ltac:(done)). apply (gd_below _ _ _ _ Hg) in HFE.
    revert HFE. apply linked_subset. by intros e' [_ He']%list_elem_of_filter.
  - intros F (HF1 & HF2 & HF3). apply (lightest n (sort E)); [apply Hg|done|done|intros e He; apply Hinside; auto|intros e He; apply Hinside; auto|auto|apply Hg|].
    intros e He. by apply HF3, graph_edge_reachable, HT.
Qed.

(** C28: on an undirected graph with weights of which as many as there are nodes fit
    an [int32_t], [compute] returns a spanning forest of the graph with its total
    weight, and no spanning forest of the graph is lighter, whatever order
    [std::sort] gives to edges of equal weight. *)
Theorem kruskal_minimum_spanning_forest g : sort_law -> wf_graph g -> symmetric g ->
  (forall e, graph_edge g e -> Z.abs (weight e) * num_nodes_ g <= INT32_MAX) ->
  exists r, compute g = Ret r /\ spanning_forest g (edges r) /\ total_weight r = total (edges r) /\
    forall F, spanning_forest g F -> total (edges r) <= total F.
Proof. apply kruskal_ok. Qed.
End kruskal.

Section kruskal_witness.

#[local] Instance Edge_eq_dec : EqDecision Edge.
Proof. solve_decision. Defined.

#[local] Instance lighter_dec : RelDecision lighter.
Proof. intros e e'. unfold lighter. apply _. Defined.

#[local] Instance lighter_total : Total lighter.
Proof. intros e e'. unfold lighter. lia. Qed.

#[local] Instance lighter_trans : Transitive lighter.
Proof. intros e1 e2 e3. unfold lighter. lia. Qed.

(** A merge sort is one that [std::sort] may be. *)
Lemma merge_sort_law : sort_law (merge_sort lighter).
Proof. intros es. split; [apply merge_sort_Permutation|]. apply Sorted_StronglySorted; [apply _|]. apply (Sorted_merge_sort lighter). Qed.

(** Checking the edges of every node. *)
Lemma edges_check g (P : Z -> Edge -> Prop) : Forall (fun u => Forall (P u) (adj g u)) (seqZ 0 (num_nodes_ g)) ->
  forall e, graph_edge g e -> P (from e) (mkEdge (to e) (weight e)).
Proof.
  intros Hall e [Hn He]. rewrite Forall_forall in Hall. assert (from e ∈ seqZ 0 (num_nodes_ g)) as Hin by (apply elem_of_seqZ; unfold node in Hn; lia).
  specialize (Hall _ Hin). rewrite Forall_forall in Hall. exact (Hall _ He).
Qed.

Lemma symmetric_check g : wf_graph g ->
  Forall (fun u => Forall (fun d : Edge => mkEdge u (weight_ d) ∈ adj g (to_ d)) (adj g u)) (seqZ 0 (num_nodes_ g)) -> symmetric g.
Proof.
  intros Hwf Hall e He. split; [|exact (edges_check g _ Hall e He)]. destruct He as [Hn He].
  apply (edge_node g (from e) (to e) Hwf). split; [done|]. apply list_elem_of_fmap. by exists (mkEdge (to e) (weight e)).
Qed.

(** A square with a diagonal. *)
#[local] Definition square : outcome Graph :=
  g ← graph_new 4; g ← addUndirectedEdge g 0 1 3; g ← addUndirectedEdge g 1 2 (-1); g ← addUndirectedEdge g 2 3 3;
  g ← addUndirectedEdge g 3 0 2; addUndirectedEdge g 0 2 5.

Lemma kruskal_minimum_spanning_forest_witness : exists g r, square = Ret g /\ compute (merge_sort lighter) g = Ret r /\
  edges r = [mkEdgeInfo 1 2 (-1); mkEdgeInfo 0 3 2; mkEdgeInfo 2 3 3] /\ total_weight r = 4 /\
  forall F, spanning_forest g F -> 4 <= total F.
Proof.
  destruct square as [g|e| |] eqn:E; [|vm_compute in E; discriminate..].
  assert (wf_graph g) as Hwf.
  { vm_compute in E. injection E as <-. split; [reflexivity|vm_compute; discriminate| |reflexivity]. unfold node. apply (bool_decide_unpack _). vm_compute. exact I. }
  destruct (kruskal_minimum_spanning_forest (merge_sort lighter) g) as (r & Hr & _ & Ht & Hmin); [apply merge_sort_law|exact Hwf| | |].
  - apply symmetric_check; [exact Hwf|]. vm_compute in E. injection E as <-. apply (bool_decide_unpack _). vm_compute. exact I.
  - apply (edges_check g (fun _ d => Z.abs (weight_ d) * num_nodes_ g <= INT32_MAX)). vm_compute in E. injection E as <-. apply (bool_decide_unpack _). vm_compute. exact I.
  - exists g, r. split; [reflexivity|]. split; [exact Hr|]. vm_compute in E. injection E as <-. vm_compute in Hr. injection Hr as <-.
    split; [reflexivity|]. split; [reflexivity|]. intros F HF. exact (Hmin F HF).
Defined.
End kruskal_witness.
