(* ===== verification/IntervalTree.v ===== *)
(** * Interval tree ([data_structure/spatial/IntervalTree.hpp], [Interval.hpp])

    An AVL tree of half-open intervals with payloads, ordered by interval, each node
    caching the greatest upper bound below it.  Whatever the operations, the tree is
    balanced, its caches are exact and its queries list exactly the matching entries.
    As long as no two stored entries have the same interval it is a finite map; with
    equal intervals it is not: rotations move one of them to the left of the other,
    where insertion and removal do not look.

    Every operation runs under the mutex of the object, so the model is sequential. *)

From stdpp Require Import sorting.
From S2P Require Import Prelude Refinement SortedList.

#[local] Set Warnings "-register-all".

Section interval_tree.
Context {V D : Type} (lt : V -> V -> bool) `{!StrictTotal lt} `{!EqDecision V, !EqDecision D}.

(** ** [class Interval] *)
Record Interval := mkInterval { low : V; high : V }.

#[local] Instance Interval_eq_dec : EqDecision Interval.
Proof using EqDecision0. solve_decision. Defined.

Implicit Types (iv interval query : Interval) (point : V) (data : D).

(** [a <= b] of a total order. *)
Definition le_ (a b : V) : bool := negb (lt b a).

(** The constructor, with its assertion. *)
Definition interval_new (lo hi : V) : outcome Interval := if le_ lo hi then Ret (mkInterval lo hi) else Undef.

Definition overlaps iv (other : Interval) : bool := negb (le_ (high iv) (low other) || le_ (high other) (low iv)).
Definition contains_point iv point : bool := le_ (low iv) point && lt point (high iv).
Definition contains_interval iv (other : Interval) : bool := le_ (low iv) (low other) && le_ (high other) (high iv).
Definition interval_empty iv : bool := bool_decide (low iv = high iv).

(** [operator<=>] *)
Definition interval_compare iv (other : Interval) : comparison :=
  if lt (low iv) (low other) then Lt else if lt (low other) (low iv) then Gt
  else if lt (high iv) (high other) then Lt else if lt (high other) (high iv) then Gt else Eq.

(** ** Nodes *)
Inductive Node :=
| Null
| N (interval_ : Interval) (data_ : D) (max_high_ : V) (height_ : Z) (left_ right_ : Node).

Implicit Types (node left right : Node).

Definition getHeight node : Z := match node with Null => 0 | N _ _ _ h _ _ => h end.

Definition getBalance node : outcome Z :=
  match node with Null => Undef | N _ _ _ _ l r => Ret (getHeight l - getHeight r)%Z end.

(** The greater of a value and the maximum cached in a child, if there is one. *)
Definition raise_max (m : V) node : V :=
  match node with Null => m | N _ _ mh _ _ _ => if lt m mh then mh else m end.

Definition updateStats node : outcome Node :=
  match node with
  | Null => Undef
  | N iv d _ _ l r => Ret (N iv d (raise_max (raise_max (high iv) l) r) (1 + Z.max (getHeight l) (getHeight r)) l r)
  end.

Definition rotateRight node : outcome Node :=
  match node with
  | N iv d m h (N liv ld lm lh ll lr) r =>
    node ← updateStats (N iv d m h lr r);
    updateStats (N liv ld lm lh ll node)
  | _ => Undef
  end.

Definition rotateLeft node : outcome Node :=
  match node with
  | N iv d m h l (N riv rd rm rh rl rr) =>
    node ← updateStats (N iv d m h l rl);
    updateStats (N riv rd rm rh node rr)
  | _ => Undef
  end.

Definition rebalance node : outcome Node :=
  match node with
  | Null => Undef
  | N iv d m h l r =>
    balance ← getBalance node;
    if (1 <? balance)%Z then
      lb ← getBalance l;
      l ← (if (lb <? 0)%Z then rotateLeft l else Ret l);
      rotateRight (N iv d m h l r)
    else if (balance <? -1)%Z then
      rb ← getBalance r;
      r ← (if (0 <? rb)%Z then rotateRight r else Ret r);
      rotateLeft (N iv d m h l r)
    else Ret node
  end.

Fixpoint verifyNode node : bool :=
  match node with
  | Null => true
  | N iv _ m _ l r =>
    let balance := (getHeight l - getHeight r)%Z in
    if (1 <? balance)%Z || (balance <? -1)%Z then false
    else if bool_decide (m <> raise_max (raise_max (high iv) l) r) then false
    else verifyNode l && verifyNode r
  end.

(** ** Insertion and removal *)

(** [interval.low() < node.low() || (low() == node.low() && high() < node.high())] *)
Definition goes_left interval iv : bool :=
  lt (low interval) (low iv) || (bool_decide (low interval = low iv) && lt (high interval) (high iv)).

Fixpoint insertImpl node (size_ : nat) interval data : outcome (Node * nat) :=
  match node with
  | Null => Ret (N interval data (high interval) 1 Null Null, S size_)
  | N iv d m h l r =>
    if bool_decide (low iv = low interval) && bool_decide (high iv = high interval) && bool_decide (d = data) then Ret (node, size_)
    else
      '(l, r, size_) ← (if goes_left interval iv then '(l, size_) ← insertImpl l size_ interval data; Ret (l, r, size_)
                        else '(r, size_) ← insertImpl r size_ interval data; Ret (l, r, size_));
      node ← updateStats (N iv d m h l r);
      node ← rebalance node;
      Ret (node, size_)
  end.

(** The successor's interval and data; the loop goes down the left children. *)
Fixpoint findMin node : outcome (Interval * D) :=
  match node with
  | Null => Undef
  | N iv d _ _ l _ => match l with Null => Ret (iv, d) | _ => findMin l end
  end.

Fixpoint removeImpl node (size_ : nat) interval data : outcome (Node * nat) :=
  match node with
  | Null => Ret (Null, size_)
  | N iv d m h l r =>
    let finish iv d l r (size_ : nat) :=
      node ← updateStats (N iv d m h l r); node ← rebalance node; Ret (node, size_) in
    if goes_left interval iv then '(l, size_) ← removeImpl l size_ interval data; finish iv d l r size_
    else if lt (low iv) (low interval) || lt (high iv) (high interval) || bool_decide (d <> data) then
      '(r, size_) ← removeImpl r size_ interval data; finish iv d l r size_
    else
      match l, r with
      | Null, _ => Ret (r, size_ - 1)
      | _, Null => Ret (l, size_ - 1)
      | _, _ =>
        '(siv, sd) ← findMin r;
        '(r, size_) ← removeImpl r size_ siv sd;
        finish siv sd l r size_
      end
  end.

(** ** Queries *)
Fixpoint queryOverlapImpl node query : list D :=
  match node with
  | Null => []
  | N iv d _ _ l r =>
    (if overlaps iv query then [d] else []) ++
    match l with
    | Null => []
    | N _ _ lm _ _ _ => if lt (low query) lm then queryOverlapImpl l query else []
    end ++
    queryOverlapImpl r query
  end.

Fixpoint queryPointImpl node point : list D :=
  match node with
  | Null => []
  | N iv d _ _ l r =>
    (if contains_point iv point then [d] else []) ++
    match l with
    | Null => []
    | N _ _ lm _ _ _ => if lt point lm then queryPointImpl l point else []
    end ++
    queryPointImpl r point
  end.

(** ** The class *)
Record IntervalTree := mkIT { root_ : Node; size_ : nat }.
Implicit Types t : IntervalTree.

Definition it_new : IntervalTree := mkIT Null 0.

Definition insert t interval data : outcome (bool * IntervalTree) :=
  '(root, size) ← insertImpl (root_ t) (size_ t) interval data; Ret (bool_decide (size_ t < size), mkIT root size).

Definition remove t interval data : outcome (bool * IntervalTree) :=
  '(root, size) ← removeImpl (root_ t) (size_ t) interval data; Ret (bool_decide (size < size_ t), mkIT root size).

Definition clear t : IntervalTree := it_new.
Definition queryOverlap t query : list D := queryOverlapImpl (root_ t) query.
Definition queryPoint t point : list D := queryPointImpl (root_ t) point.
Definition size t : nat := size_ t.
Definition empty t : bool := bool_decide (size_ t = 0).
Definition height t : Z := getHeight (root_ t).
Definition verifyIntegrity t : bool := verifyNode (root_ t).

(** Moving leaves an empty tree. *)
Definition it_move t : IntervalTree * IntervalTree := (t, mkIT Null 0).

(** ** Intervals *)
Lemma le_spec a b : le_ a b = true <-> lt b a = false.
Proof. unfold le_. by rewrite negb_true_iff. Qed.

Lemma overlaps_spec iv other : overlaps iv other = lt (low iv) (high other) && lt (low other) (high iv).
Proof. unfold overlaps, le_. rewrite negb_orb, !negb_involutive. apply andb_comm. Qed.

(** Intervals in the order of [operator<=>]: by lower, then by upper bound. *)
#[local] Instance goes_left_total : StrictTotal goes_left.
Proof.
  assert (forall a b, lt a b = false -> lt b a = false -> a = b) as Htot by (intros; by apply (st_total (lt := lt))).
  assert (forall a b, lt a b = true -> a <> b) as Hne by (intros a b Hab ->; by rewrite (sw_irrefl (lt := lt)) in Hab).
  split; [split|].
  - intros i. unfold goes_left. rewrite !(sw_irrefl (lt := lt)). by rewrite andb_false_r.
  - intros i j k. unfold goes_left. rewrite !orb_true_iff, !andb_true_iff, !bool_decide_eq_true.
    intros [H1|[H1 H1']] [H2|[H2 H2']].
    + left. by eapply sw_trans.
    + left. by rewrite <- H2.
    + left. by rewrite H1.
    + right. split; [congruence|by eapply sw_trans].
  - intros i j k. unfold goes_left. rewrite !orb_false_iff, !andb_false_iff, !bool_decide_eq_false.
    intros [H1 H1'] [H2 H2']. split; [by eapply sw_cotrans|]. destruct (decide (low i = low k)) as [E|E]; [right|by left].
    assert (low i = low j) as Ej by (apply Htot; [done|by rewrite E]).
    destruct H1' as [?|H1']; [done|]. destruct H2' as [H2'|H2']; [congruence|]. by eapply sw_cotrans.
  - intros i j. unfold goes_left. rewrite !orb_false_iff, !andb_false_iff, !bool_decide_eq_false. intros [H1 H1'] [H2 H2'].
    assert (low i = low j) as El by (by apply Htot). destruct H1' as [?|H1']; [done|]. destruct H2' as [?|H2']; [congruence|].
    destruct i, j. cbn in *. f_equal; [done|by apply Htot].
Qed.

(** ** Balance and caches *)

(** The entries in order. *)
Fixpoint entries node : list (Interval * D) :=
  match node with Null => [] | N iv d _ _ l r => entries l ++ (iv, d) :: entries r end.

Definition mk iv data left right : Node :=
  N iv data (raise_max (raise_max (high iv) left) right) (1 + Z.max (getHeight left) (getHeight right)) left right.

Fixpoint ok node : Prop :=
  match node with
  | Null => True
  | N iv d m h l r => ok l /\ ok r /\ (-1 <= getHeight l - getHeight r <= 1)%Z /\ node = mk iv d l r
  end.

Lemma ok_mk iv data left right : ok left -> ok right -> (-1 <= getHeight left - getHeight right <= 1)%Z -> ok (mk iv data left right).
Proof. intros. unfold mk. cbn [ok]. done. Qed.

Lemma height_mk iv data left right : getHeight (mk iv data left right) = (1 + Z.max (getHeight left) (getHeight right))%Z.
Proof. done. Qed.

Lemma entries_mk iv data left right : entries (mk iv data left right) = entries left ++ (iv, data) :: entries right.
Proof. done. Qed.

Lemma updateStats_mk iv data m h left right : updateStats (N iv data m h left right) = Ret (mk iv data left right).
Proof. done. Qed.

Lemma ok_height node : ok node -> (0 <= getHeight node)%Z.
Proof. induction node as [|iv d m h l IHl r IHr]; [done|]. intros (Hl & Hr & _ & ->). specialize (IHl Hl). specialize (IHr Hr). rewrite height_mk. lia. Qed.

Lemma ok_node node : ok node -> (0 < getHeight node)%Z -> exists iv data left right,
  node = mk iv data left right /\ ok left /\ ok right /\ (-1 <= getHeight left - getHeight right <= 1)%Z /\
  (0 <= getHeight left)%Z /\ (0 <= getHeight right)%Z.
Proof.
  destruct node as [|iv d m h l r]; [done|]. intros (Hl & Hr & Hb & Heq) _. exists iv, d, l, r.
  pose proof (ok_height l Hl). pose proof (ok_height r Hr). done.
Qed.

(** The rotations, on nodes with arbitrary caches at the top. *)
Lemma rotateRight_mk iv d m h liv ld ll lr right :
  rotateRight (N iv d m h (mk liv ld ll lr) right) = Ret (mk liv ld ll (mk iv d lr right)).
Proof. done. Qed.

Lemma rotateLeft_mk iv d m h left riv rd rl rr :
  rotateLeft (N iv d m h left (mk riv rd rl rr)) = Ret (mk riv rd (mk iv d left rl) rr).
Proof. done. Qed.

Lemma rebalance_mk iv d left right : rebalance (mk iv d left right) =
  let m := raise_max (raise_max (high iv) left) right in let h := (1 + Z.max (getHeight left) (getHeight right))%Z in
  if (1 <? getHeight left - getHeight right)%Z then
    lb ← getBalance left; l ← (if (lb <? 0)%Z then rotateLeft left else Ret left); rotateRight (N iv d m h l right)
  else if (getHeight left - getHeight right <? -1)%Z then
    rb ← getBalance right; r ← (if (0 <? rb)%Z then rotateRight right else Ret right); rotateLeft (N iv d m h left r)
  else Ret (mk iv d left right).
Proof. done. Qed.

Lemma getBalance_mk iv d left right : getBalance (mk iv d left right) = Ret (getHeight left - getHeight right)%Z.
Proof. done. Qed.

Lemma rotateRight_inner iv d liv ld ll lr right :
  rotateRight (mk iv d (mk liv ld ll lr) right) = Ret (mk liv ld ll (mk iv d lr right)).
Proof. done. Qed.

Lemma rotateLeft_inner iv d left riv rd rl rr :
  rotateLeft (mk iv d left (mk riv rd rl rr)) = Ret (mk riv rd (mk iv d left rl) rr).
Proof. done. Qed.

(** Rebalancing a node whose subtrees differ by at most two. *)
Lemma rebalance_ok iv d left right : ok left -> ok right -> (-2 <= getHeight left - getHeight right <= 2)%Z ->
  exists node', rebalance (mk iv d left right) = Ret node' /\ ok node' /\ entries node' = entries left ++ (iv, d) :: entries right /\
    (Z.max (getHeight left) (getHeight right) <= getHeight node' <= 1 + Z.max (getHeight left) (getHeight right))%Z /\
    ((-1 <= getHeight left - getHeight right <= 1)%Z -> node' = mk iv d left right).
Proof.
  intros Hl Hr Hb. pose proof (ok_height left Hl). pose proof (ok_height right Hr). rewrite rebalance_mk. cbv zeta.
  destruct (1 <? getHeight left - getHeight right)%Z eqn:E1; [|destruct (getHeight left - getHeight right <? -1)%Z eqn:E2].
  - apply Z.ltb_lt in E1. destruct (ok_node left Hl) as (liv & ld & ll & lr & -> & Hll & Hlr & Hlb & H1 & H2); [lia|]. rewrite height_mk in *.
    rewrite getBalance_mk. ret_step. destruct (getHeight ll - getHeight lr <? 0)%Z eqn:E.
    + apply Z.ltb_lt in E. destruct (ok_node lr Hlr) as (miv & md & a & b & -> & Ha & Hbb & Hab & H3 & H4); [lia|]. rewrite height_mk in *.
      rewrite rotateLeft_inner. ret_step. rewrite rotateRight_mk. eexists. split; [done|]. split_and!.
      * apply ok_mk; [apply ok_mk|apply ok_mk|rewrite !height_mk]; done || lia.
      * rewrite !entries_mk. app_simpl.
      * rewrite !height_mk. lia.
      * rewrite !height_mk. lia.
      * intros Hbal. rewrite ?height_mk in *. lia.
    + apply Z.ltb_ge in E. ret_step. rewrite rotateRight_mk. eexists. split; [done|]. split_and!.
      * apply ok_mk; [done|apply ok_mk; done || lia|rewrite !height_mk; lia].
      * rewrite !entries_mk. app_simpl.
      * rewrite !height_mk. lia.
      * rewrite !height_mk. lia.
      * intros Hbal. lia.
  - apply Z.ltb_lt in E2. destruct (ok_node right Hr) as (riv & rd & rl & rr & -> & Hrl & Hrr & Hrb & H1 & H2); [lia|]. rewrite height_mk in *.
    rewrite getBalance_mk. ret_step. destruct (0 <? getHeight rl - getHeight rr)%Z eqn:E.
    + apply Z.ltb_lt in E. destruct (ok_node rl Hrl) as (miv & md & a & b & -> & Ha & Hbb & Hab & H3 & H4); [lia|]. rewrite height_mk in *.
      rewrite rotateRight_inner. ret_step. rewrite rotateLeft_mk. eexists. split; [done|]. split_and!.
      * apply ok_mk; [apply ok_mk|apply ok_mk|rewrite !height_mk]; done || lia.
      * rewrite !entries_mk. app_simpl.
      * rewrite !height_mk. lia.
      * rewrite !height_mk. lia.
      * intros Hbal. rewrite ?height_mk in *. lia.
    + apply Z.ltb_ge in E. ret_step. rewrite rotateLeft_mk. eexists. split; [done|]. split_and!.
      * apply ok_mk; [apply ok_mk; done || lia|done|rewrite !height_mk; lia].
      * rewrite !entries_mk. app_simpl.
      * rewrite !height_mk. lia.
      * rewrite !height_mk. lia.
      * intros Hbal. lia.
  - apply Z.ltb_ge in E1, E2. eexists. split; [done|]. split_and!; [apply ok_mk; done || lia|done|cbn; lia|cbn; lia|done].
Qed.

(** [updateStats] and [rebalance], the common end of insertion and removal. *)
Lemma it_finish_ok iv d m h left right (n : nat) : ok left -> ok right -> (-2 <= getHeight left - getHeight right <= 2)%Z ->
  exists node', (node ← updateStats (N iv d m h left right); node ← rebalance node; Ret (node, n)) = Ret (node', n) /\
    ok node' /\ entries node' = entries left ++ (iv, d) :: entries right /\
    (Z.max (getHeight left) (getHeight right) <= getHeight node' <= 1 + Z.max (getHeight left) (getHeight right))%Z /\
    ((-1 <= getHeight left - getHeight right <= 1)%Z -> getHeight node' = (1 + Z.max (getHeight left) (getHeight right))%Z).
Proof.
  intros Hl Hr Hb. rewrite updateStats_mk. ret_step. destruct (rebalance_ok iv d left right Hl Hr Hb) as (node' & -> & H1 & H2 & H3 & H4).
  ret_step. exists node'. split_and!; [done|done|done|lia|lia|]. intros Hbal. by rewrite (H4 Hbal).
Qed.

Lemma verifyNode_ok node : ok node -> verifyNode node = true.
Proof.
  induction node as [|iv d m h l IHl r IHr]; [done|]. intros (Hl & Hr & Hb & Heq). cbn [verifyNode].
  assert ((1 <? getHeight l - getHeight r)%Z = false) as -> by (apply Z.ltb_ge; lia).
  assert ((getHeight l - getHeight r <? -1)%Z = false) as -> by (apply Z.ltb_ge; lia). cbn [orb].
  injection Heq as -> _. rewrite bool_decide_false by naive_solver. by rewrite IHl, IHr.
Qed.

(** ** What insertion and removal do *)
Definition elt (e e' : Interval * D) : bool := goes_left e.1 e'.1.

#[local] Instance elt_weak : StrictWeak elt.
Proof. split; intros *; unfold elt; [apply (sw_irrefl (lt := goes_left))|apply (sw_trans (lt := goes_left))|apply (sw_cotrans (lt := goes_left))]. Qed.

Lemma elt_equiv e e' : equiv elt e e' = true <-> e.1 = e'.1.
Proof.
  rewrite equiv_spec. unfold elt. split; [|intros ->; split; apply (sw_irrefl (lt := goes_left))].
  intros [H1 H2]. by apply (st_total (lt := goes_left)).
Qed.

(** No other entry has the interval of [e]. *)
Definition compatible (e : Interval * D) (l : list (Interval * D)) : Prop :=
  match get elt e l with Some e' => e' = e | None => True end.

Lemma it_insertImpl_ok interval data : forall node (n : nat), ok node ->
  exists node' n', insertImpl node n interval data = Ret (node', n') /\ ok node' /\
    (getHeight node <= getHeight node' <= getHeight node + 1)%Z /\
    ((n' = n /\ entries node' = entries node) \/ (n' = S n /\ entries node' ≡ₚ (interval, data) :: entries node)) /\
    (sorted elt (entries node) -> compatible (interval, data) (entries node) ->
      entries node' = ins elt (interval, data) (entries node) /\
      n' = match get elt (interval, data) (entries node) with Some _ => n | None => S n end).
Proof.
  induction node as [|iv d m h l IHl r IHr]; intros n Hok; cbn [insertImpl].
  { exists (mk interval data Null Null), (S n). split_and!; [done|done|cbn; lia|cbn; lia|by right|done]. }
  destruct Hok as (Hl & Hr & Hb & Heq). set (e := (interval, data)). cbn [entries].
  destruct (bool_decide (low iv = low interval) && bool_decide (high iv = high interval) && bool_decide (d = data)) eqn:Edup.
  { rewrite !andb_true_iff, !bool_decide_eq_true in Edup. destruct Edup as [[E1 E2] ->].
    exists (N iv data m h l r), n. split_and!; [done|done|lia|lia|by left|]. intros Hs _.
    assert (equiv elt e (iv, data) = true) as Hq by (apply elt_equiv; destruct iv, interval; cbn in *; congruence).
    rewrite (ins_here elt _ _ _ Hs _ Hq), (get_here elt _ _ _ Hs _ Hq). done. }
  assert (getHeight (N iv d m h l r) = (1 + Z.max (getHeight l) (getHeight r))%Z) as Hh by (rewrite Heq; apply height_mk).
  pose proof (ok_height l Hl). pose proof (ok_height r Hr). destruct (goes_left interval iv) eqn:Eg.
  - destruct (IHl n Hl) as (l' & n' & -> & Hl' & Hhl & Hcase & Hsort). rewrite !bind_Ret.
    destruct (it_finish_ok iv d m h l' r n' Hl' Hr) as (node' & -> & Hok' & Hent & Hh1 & Hh2); [lia|].
    exists node', n'. split_and!; [done|done|lia|lia| |].
    + rewrite Hent. destruct Hcase as [[-> ->]|[-> HP]]; [by left|right]. split; [done|]. rewrite HP. solve_Permutation.
    + intros Hs Hc. assert (elt e (iv, d) = true) as Hlt by done. pose proof Hs as (Hs1 & _)%sorted_mid.
      unfold compatible in *. rewrite (get_left elt _ _ _ Hs _ Hlt) in Hc |- *. destruct (Hsort Hs1 Hc) as [He Hn].
      rewrite Hent, He. split; [symmetry; exact (ins_left elt _ _ _ Hs _ Hlt)|done].
  - destruct (IHr n Hr) as (r' & n' & -> & Hr' & Hhr & Hcase & Hsort). rewrite !bind_Ret.
    destruct (it_finish_ok iv d m h l r' n' Hl Hr') as (node' & -> & Hok' & Hent & Hh1 & Hh2); [lia|].
    exists node', n'. split_and!; [done|done|lia|lia| |].
    + rewrite Hent. destruct Hcase as [[-> ->]|[-> HP]]; [by left|right]. split; [done|]. rewrite HP. solve_Permutation.
    + intros Hs Hc. assert (elt (iv, d) e = true) as Hlt.
      { destruct (elt (iv, d) e) eqn:E; [done|]. assert (iv = interval) as -> by (by apply (st_total (lt := goes_left))).
        unfold compatible in Hc. rewrite (get_here elt _ _ _ Hs e) in Hc by (by apply elt_equiv). injection Hc as ->.
        by rewrite !bool_decide_true in Edup. }
      pose proof Hs as (_ & Hs2 & _)%sorted_mid. unfold compatible in *. rewrite (get_right elt _ _ _ Hs _ Hlt) in Hc |- *. destruct (Hsort Hs2 Hc) as [He Hn].
      rewrite Hent, He. split; [symmetry; exact (ins_right elt _ _ _ Hs _ Hlt)|done].
Qed.

Lemma findMin_ok node : node <> Null -> exists e l, findMin node = Ret e /\ entries node = e :: l.
Proof.
  induction node as [|iv d m h l IHl r _]; intros Hne; [done|]. cbn [findMin entries]. destruct l as [|liv ld lm lh ll lr]; [by eexists _, _|].
  destruct IHl as (e & tl & -> & ->); [done|]. by eexists _, _.
Qed.

Lemma get_head e l : get elt e (e :: l) = Some e.
Proof. cbn [get]. by rewrite !(sw_irrefl (lt := elt)). Qed.

Lemma del_head e l : del elt e (e :: l) = l.
Proof. cbn [del]. by rewrite !(sw_irrefl (lt := elt)). Qed.

(** An element that is before all others is not among them. *)
Lemma get_before e l : (forall y, y ∈ l -> elt e y = true) -> get elt e l = None.
Proof. destruct l as [|y l]; [done|]. intros Hl. cbn [get]. by rewrite (Hl y ltac:(by left)). Qed.

(** Whether the entry itself is in the sorted list. *)
Definition stored (e : Interval * D) (l : list (Interval * D)) : bool := bool_decide (get elt e l = Some e).

Lemma it_removeImpl_ok : forall node interval data (n : nat), ok node -> length (entries node) <= n ->
  exists node' n', removeImpl node n interval data = Ret (node', n') /\ ok node' /\
    (getHeight node - 1 <= getHeight node' <= getHeight node)%Z /\
    ((n' = n /\ length (entries node') = length (entries node)) \/ (S n' = n /\ S (length (entries node')) = length (entries node))) /\
    (sorted elt (entries node) ->
      entries node' = (if stored (interval, data) (entries node) then del elt (interval, data) (entries node) else entries node) /\
      n' = if stored (interval, data) (entries node) then n - 1 else n).
Proof.
  induction node as [|iv d m h l IHl r IHr]; intros interval data n Hok Hn; cbn [removeImpl].
  { exists Null, n. split_and!; [done|done|cbn; lia|cbn; lia|by left|]. intros _. unfold stored. by rewrite bool_decide_false. }
  pose proof Hok as (Hl & Hr & Hb & Heq). set (e := (interval, data)). cbn [entries] in Hn |- *.
  assert (getHeight (N iv d m h l r) = (1 + Z.max (getHeight l) (getHeight r))%Z) as Hh by (rewrite Heq; apply height_mk).
  rewrite length_app in Hn. cbn [length] in Hn.
  pose proof (ok_height l Hl). pose proof (ok_height r Hr). cbv zeta. destruct (goes_left interval iv) eqn:Eg.
  - destruct (IHl interval data n Hl) as (l' & n' & -> & Hl' & Hhl & Hcase & Hsort); [lia|]. rewrite !bind_Ret.
    destruct (it_finish_ok iv d m h l' r n' Hl' Hr) as (node' & -> & Hok' & Hent & Hh1 & Hh2); [lia|].
    exists node', n'. rewrite Hent, !length_app. cbn [length]. split_and!; [done|done|lia|lia|lia|].
    intros Hs. pose proof Hs as (Hs1 & _)%sorted_mid. destruct (Hsort Hs1) as [He Hn'].
    assert (elt e (iv, d) = true) as Hlt by done. unfold stored in *. rewrite (get_left elt _ _ _ Hs _ Hlt). fold e in He, Hn'. rewrite He, Hn'. split; [|done].
    case_match; [symmetry; exact (del_left elt _ _ _ Hs _ Hlt)|done].
  - destruct (lt (low iv) (low interval) || lt (high iv) (high interval) || bool_decide (d <> data)) eqn:Ec.
    + destruct (IHr interval data n Hr) as (r' & n' & -> & Hr' & Hhr & Hcase & Hsort); [lia|]. rewrite !bind_Ret.
      destruct (it_finish_ok iv d m h l r' n' Hl Hr') as (node' & -> & Hok' & Hent & Hh1 & Hh2); [lia|].
      exists node', n'. rewrite Hent, !length_app. cbn [length]. split_and!; [done|done|lia|lia|lia|].
      intros Hs. pose proof Hs as (_ & Hs2 & _ & Hgt & _)%sorted_mid. destruct (Hsort Hs2) as [He Hn']. fold e in He, Hn'.
      destruct (elt (iv, d) e) eqn:Elt.
      * unfold stored in *. rewrite (get_right elt _ _ _ Hs _ Elt). rewrite He, Hn'. split; [|done]. case_match; [symmetry; exact (del_right elt _ _ _ Hs _ Elt)|done].
      * assert (iv = interval) as -> by (by apply (st_total (lt := goes_left))).
        assert (d <> data) as Hd by (rewrite !(sw_irrefl (lt := lt)) in Ec; cbn [orb] in Ec; by apply bool_decide_eq_true in Ec).
        assert (stored e (entries r) = false) as Er.
        { unfold stored. apply bool_decide_false. rewrite get_before; [done|]. intros y Hy. by apply (Hgt y). }
        rewrite Er in He, Hn'. unfold stored. rewrite (get_here elt _ _ _ Hs e) by (by apply elt_equiv).
        rewrite bool_decide_false by (by intros [= ->]). by rewrite He, Hn'.
    + rewrite !orb_false_iff, bool_decide_eq_false in Ec. destruct Ec as [[Ec1 Ec2] Ec3].
      assert (d = data) as -> by (destruct (decide (d = data)); [done|by destruct Ec3]).
      assert (low iv = low interval) as El.
      { unfold goes_left in Eg. rewrite orb_false_iff in Eg. destruct Eg as [Eg _]. by apply (st_total (lt := lt)). }
      assert (iv = interval) as ->.
      { unfold goes_left in Eg. rewrite orb_false_iff, El, bool_decide_true in Eg by done. destruct Eg as [_ Eg]. cbn in Eg.
        destruct iv, interval. cbn in *. f_equal; [done|]. by apply (st_total (lt := lt)). }
      fold e in Hn |- *.
      assert (forall l1 l2, sorted elt (l1 ++ e :: l2) -> stored e (l1 ++ e :: l2) = true /\ del elt e (l1 ++ e :: l2) = l1 ++ l2) as Hfound.
      { intros l1 l2 Hs. unfold stored. rewrite (get_here elt _ _ _ Hs e), (del_here elt _ _ _ Hs e) by (by apply elt_equiv). by rewrite bool_decide_true. }
      destruct l as [|liv ld lm lh ll lr]; [|destruct r as [|riv rd rm rh rl rr]].
      * exists r, (n - 1). cbn [entries app length getHeight] in *. split_and!; [done|done|lia|lia|right; lia|].
        intros Hs. destruct (Hfound [] (entries r) Hs) as [E1 E2]. cbn [app] in E1, E2. by rewrite E1, E2.
      * exists (N liv ld lm lh ll lr), (n - 1). set (left := N liv ld lm lh ll lr) in *. cbn [entries] in *. rewrite length_app. cbn [length getHeight] in *.
        split_and!; [done|done|lia|lia|right; lia|]. intros Hs. destruct (Hfound _ _ Hs) as [E1 E2]. by rewrite E1, E2, app_nil_r.
      * set (left := N liv ld lm lh ll lr) in *. set (right := N riv rd rm rh rl rr) in *.
        destruct (findMin_ok right) as ([siv sd] & tl & -> & Etl); [done|]. ret_step.
        destruct (IHr siv sd n Hr) as (r' & n' & -> & Hr' & Hhr & Hcase & Hsort); [lia|]. ret_step.
        destruct (it_finish_ok siv sd m h left r' n' Hl Hr') as (node' & -> & Hok' & Hent & Hh1 & Hh2); [lia|].
        exists node', n'. rewrite Hent, !length_app. cbn [length]. split_and!; [done|done|lia|lia|lia|].
        intros Hs. destruct (Hfound _ _ Hs) as [E1 E2]. rewrite E1, E2. pose proof Hs as (_ & Hs2 & _)%sorted_mid. destruct (Hsort Hs2) as [He Hn'].
        unfold stored in He, Hn'. rewrite Etl, get_head, bool_decide_true in He, Hn' by done. rewrite del_head in He. by rewrite He, Hn', Etl.
Qed.

(** ** Queries *)
Lemma raise_max_ge m node : lt (raise_max m node) m = false /\
  match node with Null => True | N _ _ mh _ _ _ => lt (raise_max m node) mh = false end.
Proof.
  destruct node as [|iv d mh h l r]; cbn [raise_max]; [by rewrite (sw_irrefl (lt := lt))|].
  destruct (lt m mh) eqn:E; [split; [by apply (sw_asym lt)|apply (sw_irrefl (lt := lt))]|split; [apply (sw_irrefl (lt := lt))|done]].
Qed.

(** The cached maximum bounds every upper bound below the node. *)
Lemma cache_bound node : ok node -> match node with Null => True | N _ _ m _ _ _ => forall e, e ∈ entries node -> lt m (high e.1) = false end.
Proof.
  induction node as [|iv d m h l IHl r IHr]; [done|]. intros (Hl & Hr & _ & Heq) e. specialize (IHl Hl). specialize (IHr Hr).
  injection Heq as -> _. cbn [entries]. destruct (raise_max_ge (raise_max (high iv) l) r) as [H1 H2]. destruct (raise_max_ge (high iv) l) as [H3 H4].
  intros [He|[->|He]%elem_of_cons]%elem_of_app.
  - destruct l as [|liv ld lm lh ll lr]; [by apply elem_of_nil in He|]. specialize (IHl _ He). eapply sw_cotrans; [exact H1|]. by eapply sw_cotrans.
  - by eapply sw_cotrans.
  - destruct r as [|riv rd rm rh rl rr]; [by apply elem_of_nil in He|]. specialize (IHr _ He). by eapply sw_cotrans.
Qed.

(** A traversal that skips a left subtree whose maximum is not above [p] misses
    nothing, when every entry it looks for ends above [p]. *)
Section pruned.
Variables (p : V) (hit : Interval -> bool) (query : Node -> list D).
Hypothesis hit_above : forall iv, hit iv = true -> lt p (high iv) = true.
Hypothesis query_Null : query Null = [].
Hypothesis query_N : forall iv d m h l r, query (N iv d m h l r) =
  (if hit iv then [d] else []) ++ match l with Null => [] | N _ _ lm _ _ _ => if lt p lm then query l else [] end ++ query r.

Definition hits (l : list (Interval * D)) : list D := snd <$> filter (fun e => hit e.1 = true) l.

Lemma hits_app l1 l2 : hits (l1 ++ l2) = hits l1 ++ hits l2.
Proof. unfold hits. by rewrite filter_app, fmap_app. Qed.

Lemma hits_cons e l : hits (e :: l) = (if hit e.1 then [e.2] else []) ++ hits l.
Proof. unfold hits. rewrite filter_cons. destruct (hit e.1); [by rewrite decide_True|by rewrite decide_False]. Qed.

Lemma hits_nil l : (forall e, e ∈ l -> hit e.1 = false) -> hits l = [].
Proof.
  induction l as [|e l IH]; intros Hl; [done|]. rewrite hits_cons, (Hl e ltac:(by left)), IH; [done|]. intros e' He'. apply Hl. by right.
Qed.

Lemma pruned_query node : ok node -> query node ≡ₚ hits (entries node).
Proof using All.
  induction node as [|iv d m h l IHl r IHr]; intros Hok; [by rewrite query_Null|]. destruct Hok as (Hl & Hr & _ & _).
  rewrite query_N. cbn [entries]. rewrite hits_app, hits_cons. cbn [fst snd]. rewrite (IHr Hr).
  assert (match l with Null => [] | N _ _ lm _ _ _ => if lt p lm then query l else [] end ≡ₚ hits (entries l)) as ->; [|solve_Permutation].
  pose proof (cache_bound l Hl) as Hc. destruct l as [|liv ld lm lh ll lr]; [done|]. destruct (lt p lm) eqn:E; [by apply IHl|].
  rewrite hits_nil; [done|]. intros e He. destruct (hit e.1) eqn:Eh; [|done]. apply hit_above in Eh.
  rewrite (sw_cotrans (lt := lt) p lm (high e.1)) in Eh; [done|done|by apply Hc].
Qed.
End pruned.

Definition overlapping (l : list (Interval * D)) query : list D := hits (fun iv => overlaps iv query) l.
Definition containing (l : list (Interval * D)) point : list D := hits (fun iv => contains_point iv point) l.

Lemma queryOverlapImpl_ok node query : ok node -> queryOverlapImpl node query ≡ₚ overlapping (entries node) query.
Proof.
  apply (pruned_query (low query) (fun iv => overlaps iv query) (fun node => queryOverlapImpl node query)); [|done|done].
  intros iv. rewrite overlaps_spec. by intros [_ ?]%andb_prop.
Qed.

Lemma queryPointImpl_ok node point : ok node -> queryPointImpl node point ≡ₚ containing (entries node) point.
Proof.
  apply (pruned_query point (fun iv => contains_point iv point) (fun node => queryPointImpl node point)); [|done|done].
  intros iv. unfold contains_point. by intros [_ ?]%andb_prop.
Qed.

(** The height is logarithmic in the number of entries. *)
Lemma ok_log node : ok node -> (2 ^ getHeight node <= (Z.of_nat (length (entries node)) + 1) * (Z.of_nat (length (entries node)) + 1))%Z.
Proof.
  induction node as [|iv d m h l IHl r IHr]; intros Hok; [done|]. pose proof Hok as (Hl & Hr & Hb & Heq). specialize (IHl Hl). specialize (IHr Hr).
  pose proof (ok_height l Hl). pose proof (ok_height r Hr). rewrite Heq. rewrite height_mk, entries_mk, length_app. cbn [length].
  assert (forall x y a b : Z, 0 <= x -> 0 <= y -> (-1 <= x - y <= 1) -> 0 <= a -> 0 <= b -> 2 ^ x <= (a + 1) * (a + 1) -> 2 ^ y <= (b + 1) * (b + 1) ->
    2 ^ (1 + Z.max x y) <= (a + b + 2) * (a + b + 2))%Z as Haux.
  { intros x y a b Hx Hy Hxy Ha Hbb H1 H2. rewrite Z.pow_add_r by lia. change (2 ^ 1)%Z with 2%Z.
    assert (0 < 2 ^ x)%Z by (by apply Z.pow_pos_nonneg). assert (0 < 2 ^ y)%Z by (by apply Z.pow_pos_nonneg).
    assert (2 ^ Z.max x y <= 2 * 2 ^ x /\ 2 ^ Z.max x y <= 2 * 2 ^ y)%Z as [HA HB].
    { split; rewrite <- Z.pow_succ_r by lia; apply Z.pow_le_mono_r; lia. }
    assert (2 ^ Z.max x y <= 2 ^ x \/ 2 ^ Z.max x y <= 2 ^ y)%Z as HC by (destruct (Z.max_spec x y) as [[_ ->]|[_ ->]]; lia). nia. }
  specialize (Haux (getHeight l) (getHeight r) (Z.of_nat (length (entries l))) (Z.of_nat (length (entries r))) ltac:(done) ltac:(done) Hb ltac:(lia) ltac:(lia) IHl IHr). lia.
Qed.

(** ** The contract *)
Inductive it_op :=
| ItInsert (interval : Interval) (data : D)
| ItRemove (interval : Interval) (data : D)
| ItClear
| ItSize
| ItEmpty
| ItVerify.

Definition it_step t (op : it_op) : outcome (IntervalTree * obs D) :=
  match op with
  | ItInsert interval data => '(b, t) ← insert t interval data; Ret (t, OBool b)
  | ItRemove interval data => '(b, t) ← remove t interval data; Ret (t, OBool b)
  | ItClear => Ret (clear t, ODone)
  | ItSize => Ret (t, ONum (size t))
  | ItEmpty => Ret (t, OBool (empty t))
  | ItVerify => Ret (t, OBool (verifyIntegrity t))
  end.

(** The entries sorted by interval; two entries with the same interval are left open. *)
Definition it_spec (l : list (Interval * D)) (op : it_op) : outcome (list (Interval * D) * obs D) :=
  match op with
  | ItInsert interval data =>
    match get elt (interval, data) l with
    | None => Ret (ins elt (interval, data) l, OBool true)
    | Some e => if decide (e = (interval, data)) then Ret (l, OBool false) else Undef
    end
  | ItRemove interval data =>
    if stored (interval, data) l then Ret (del elt (interval, data) l, OBool true) else Ret (l, OBool false)
  | ItClear => Ret ([], ODone)
  | ItSize => Ret (l, ONum (length l))
  | ItEmpty => Ret (l, OBool (bool_decide (length l = 0)))
  | ItVerify => Ret (l, OBool true)
  end.

Record sound t : Prop := { it_ok : ok (root_ t); it_size : size_ t = length (entries (root_ t)) }.

Definition it_rep t (l : list (Interval * D)) : Prop := sound t /\ entries (root_ t) = l /\ sorted elt l.

Lemma insert_sound t interval data : sound t -> exists b t', insert t interval data = Ret (b, t') /\ sound t'.
Proof.
  intros [Hok Hs]. unfold insert. destruct (it_insertImpl_ok interval data (root_ t) (size_ t) Hok) as (node' & n' & -> & Hok' & _ & Hcase & _).
  ret_step. eexists _, _. split; [done|]. split; [done|]. cbn [root_ size_]. destruct Hcase as [[-> ->]|[-> HP]]; [done|]. rewrite HP. cbn. by rewrite Hs.
Qed.

Lemma remove_sound t interval data : sound t -> exists b t', remove t interval data = Ret (b, t') /\ sound t'.
Proof.
  intros [Hok Hs]. unfold remove. destruct (it_removeImpl_ok (root_ t) interval data (size_ t) Hok) as (node' & n' & -> & Hok' & _ & Hcase & _); [lia|].
  ret_step. eexists _, _. split; [done|]. split; [done|]. cbn [root_ size_]. lia.
Qed.

Lemma it_step_sound t op : sound t -> exists t' o, it_step t op = Ret (t', o) /\ sound t'.
Proof.
  intros Hs. destruct op as [iv d|iv d| | | |]; cbn [it_step]; try by eexists _, _.
  - destruct (insert_sound t iv d Hs) as (b & t' & -> & Hs'). by eexists _, _.
  - destruct (remove_sound t iv d Hs) as (b & t' & -> & Hs'). by eexists _, _.
Qed.

Lemma it_trace_sound ops : forall t, sound t -> exists t' os, trace it_step t ops = Ret (t', os) /\ sound t'.
Proof.
  induction ops as [|op ops IH]; intros t Hs; cbn [trace]; [by eexists _, _|].
  destruct (it_step_sound t op Hs) as (t1 & o & -> & Hs1). destruct (IH t1 Hs1) as (t2 & os & -> & Hs2). by eexists _, _.
Qed.

#[local] Instance it_simulates : Simulates it_step it_spec it_rep.
Proof.
  intros t l op ([Hok Hsz] & <- & Hs). set (l := entries (root_ t)) in *. destruct op as [iv d|iv d| | | |]; cbn [it_step it_spec].
  - unfold insert. destruct (it_insertImpl_ok iv d (root_ t) (size_ t) Hok) as (node' & n' & -> & Hok' & _ & Hcase & Hsort). ret_step.
    assert (forall b l', n' = (if (b : bool) then S (size_ t) else size_ t) -> entries node' = l' -> sorted elt l' ->
      exists s', Ret (mkIT node' n', OBool (bool_decide (size_ t < n'))) = Ret (s', @OBool D b) /\ it_rep s' l') as Hfin.
    { intros b l' Hb Hl' Hs'. exists (mkIT node' n'). split; [f_equal; f_equal; f_equal; destruct b; [rewrite bool_decide_true|rewrite bool_decide_false]; done || lia|].
      split; [split; [done|]|done]. cbn [root_ size_]. destruct Hcase as [[-> E]|[-> E]]; [by rewrite E|rewrite E; cbn; by rewrite Hsz]. }
    rewrite bind_Ret. unfold compatible in Hsort. fold l in Hsort. destruct (get elt (iv, d) l) as [e|] eqn:Eg.
    + destruct (decide (e = (iv, d))) as [Hd|]; [|done]. destruct (Hsort Hs Hd) as [He Hn]. apply Hfin; [done| |done].
      rewrite He. apply (ins_found elt); [done|]. by rewrite Eg.
    + destruct (Hsort Hs I) as [He Hn]. apply Hfin; [done|done|]. by apply (ins_sorted elt).
  - unfold remove. destruct (it_removeImpl_ok (root_ t) iv d (size_ t) Hok) as (node' & n' & -> & Hok' & _ & Hcase & Hsort); [fold l; lia|]. ret_step. ret_step.
    fold l in Hsort. destruct (Hsort Hs) as [He Hn]. unfold stored in *. case_bool_decide as Hd.
    + assert (0 < length l) by (destruct l; [done|cbn; lia]). exists (mkIT node' n'). split; [by rewrite bool_decide_true by lia|].
      split; [split; [done|]|split; [done|by apply (del_sorted elt)]]. cbn [root_ size_]. fold l in Hcase. lia.
    + exists (mkIT node' n'). split; [by rewrite bool_decide_false by lia|]. split; [split; [done|]|done]. cbn [root_ size_]. by rewrite He, Hn.
  - exists it_new. split; [done|]. split; [done|]. split; [done|constructor].
  - exists t. unfold size. by rewrite Hsz.
  - exists t. unfold empty. by rewrite Hsz.
  - exists t. unfold verifyIntegrity. by rewrite verifyNode_ok.
Qed.

Lemma it_new_sound : sound it_new.
Proof. done. Qed.

Lemma it_new_rep : it_rep it_new [].
Proof. split; [done|]. split; [done|constructor]. Qed.

(** C24: after any operations, equal intervals included, [IntervalTree] is in a sound
    state: every operation returned, [verifyIntegrity] holds (balance and cached
    maxima), the size is the number of entries, the height is at most twice the
    logarithm of it, and [queryOverlap] and [queryPoint] list exactly the payloads of
    the matching entries in spite of the subtrees they prune. *)
Theorem interval_tree_sound (ops : list it_op) query point : exists t os,
  trace it_step it_new ops = Ret (t, os) /\ verifyIntegrity t = true /\ size t = length (entries (root_ t)) /\
  (2 ^ height t <= (Z.of_nat (size t) + 1) * (Z.of_nat (size t) + 1))%Z /\
  queryOverlap t query ≡ₚ overlapping (entries (root_ t)) query /\ queryPoint t point ≡ₚ containing (entries (root_ t)) point.
Proof.
  destruct (it_trace_sound ops it_new it_new_sound) as (t & os & Ht & [Hok Hs]). exists t, os. unfold size, height, verifyIntegrity.
  rewrite Hs. split_and!; [done|by apply verifyNode_ok|done|by apply ok_log|by apply queryOverlapImpl_ok|by apply queryPointImpl_ok].
Qed.

(** C23: as long as no insertion meets an equal interval with another payload,
    [IntervalTree] refines the list of its entries sorted by interval (the
    specification leaves the other insertions undefined): each operation reports
    what it does there, and at the end the queries list the payloads of exactly the
    entries of that list that match. *)
Theorem interval_tree_refines (ops : list it_op) l os query point :
  trace it_spec [] ops = Ret (l, os) -> exists t, trace it_step it_new ops = Ret (t, os) /\ entries (root_ t) = l /\
  queryOverlap t query ≡ₚ overlapping l query /\ queryPoint t point ≡ₚ containing l point.
Proof.
  intros Hl. destruct (trace_refines (step := it_step) (R := it_rep) ops it_new [] l os it_new_rep Hl) as (t & Ht & [Hok _] & He & _).
  exists t. split_and!; [done|done|rewrite <- He; by apply queryOverlapImpl_ok|rewrite <- He; by apply queryPointImpl_ok].
Qed.
End interval_tree.

Section interval_tree_witnesses.

#[local] Instance nat_ltb_total : StrictTotal Nat.ltb.
Proof.
  split; [split|]; intros *; rewrite ?Nat.ltb_lt, ?Nat.ltb_ge; lia.
Qed.

#[local] Abbreviation iv a b := (mkInterval (V := nat) a b).
#[local] Abbreviation it_op := (@it_op nat nat).
#[local] Abbreviation new := (@it_new nat nat).
#[local] Abbreviation run ops := (trace (it_step Nat.ltb) new ops).

#[local] Definition sample : list it_op :=
  [ItInsert (iv 5 8) 1; ItInsert (iv 1 9) 2; ItInsert (iv 6 7) 3; ItInsert (iv 2 3) 4; ItInsert (iv 5 8) 1; ItRemove (iv 1 9) 7; ItRemove (iv 5 8) 1;
   ItVerify; ItSize; ItEmpty].

Lemma interval_tree_refines_witness : exists t, run sample =
    Ret (t, [inl (OBool true); inl (OBool true); inl (OBool true); inl (OBool true); inl (OBool false); inl (OBool false); inl (OBool true);
             inl (OBool true); inl (ONum 3); inl (OBool false)]) /\
  queryPoint Nat.ltb t 6 ≡ₚ [2; 3] /\ queryOverlap Nat.ltb t (iv 0 3) ≡ₚ [2; 4].
Proof.
  destruct (trace (it_spec Nat.ltb) [] sample) as [[l os]|e| |] eqn:E; [|vm_compute in E; discriminate..].
  destruct (interval_tree_refines Nat.ltb sample l os (iv 0 3) 6 E) as (t & Ht & _ & Hq & Hp). exists t.
  vm_compute in E. injection E as <- <-. split; [exact Ht|]. split; [exact Hp|exact Hq].
Defined.

Lemma interval_tree_sound_witness : exists t os, run (sample ++ [ItInsert (iv 3 9) 8]) = Ret (t, os) /\ verifyIntegrity Nat.ltb t = true /\
  size t = 4 /\ (2 ^ height t <= 25)%Z /\ queryPoint Nat.ltb t 6 ≡ₚ [2; 8; 3].
Proof.
  destruct (interval_tree_sound Nat.ltb (sample ++ [ItInsert (iv 3 9) 8]) (iv 0 3) 6) as (t & os & Ht & Hv & Hs & Hh & _ & Hp). exists t, os.
  pose proof Ht as E. vm_compute in E. injection E as <- <-. split; [exact Ht|]. split; [exact Hv|]. split; [reflexivity|]. split; [exact Hh|exact Hp].
Defined.

(** Three entries with one interval: a rotation leaves the first on the left, where a
    removal does not find it and a second insertion of it does not see it. *)
Lemma interval_tree_equal_intervals :
  exists t, run [ItInsert (iv 1 2) 1; ItInsert (iv 1 2) 2; ItInsert (iv 1 2) 3; ItRemove (iv 1 2) 1; ItInsert (iv 1 2) 1] =
    Ret (t, inl <$> [OBool true; OBool true; OBool true; OBool false; OBool true]) /\ queryPoint Nat.ltb t 1 = [2; 1; 3; 1].
Proof. eexists. split; vm_compute; reflexivity. Qed.

(** A removal copies the in-order successor into the node and then deletes the entry
    equal to it where the search for it leads: here the search misses the copied
    entry, so the removal reports failure, has lost the entry it was asked to remove
    and leaves another one twice. *)
Lemma interval_tree_remove_duplicates :
  exists t, run [ItInsert (iv 3 4) 0; ItInsert (iv 1 2) 5; ItInsert (iv 5 6) 1; ItInsert (iv 5 6) 2; ItInsert (iv 5 6) 3; ItRemove (iv 3 4) 0; ItSize] =
    Ret (t, [inl (OBool true); inl (OBool true); inl (OBool true); inl (OBool true); inl (OBool true); inl (OBool false); inl (ONum 5)]) /\
  queryOverlap Nat.ltb t (iv 0 9) = [1; 5; 2; 1; 3].
Proof. eexists. split; vm_compute; reflexivity. Qed.

(** Intervals that only touch do not overlap; an empty interval overlaps one around it. *)
Lemma interval_overlaps_edges : overlaps Nat.ltb (iv 1 2) (iv 2 3) = false /\ overlaps Nat.ltb (iv 1 3) (iv 2 2) = true /\
  forall p, contains_point Nat.ltb (iv 2 2) p = false.
Proof.
  split; [done|]. split; [done|]. intros p. unfold contains_point, le_. cbn [low high]. by destruct (p <? 2).
Qed.
End interval_tree_witnesses.
