(* ===== verification/ClassicalCiphers.v ===== *)
(** * Classical ciphers ([crypto/cipher/CaesarCipher], [crypto/cipher/SubstitutionCipher])

    Both ciphers act on letters, keep the case and leave other characters alone.
    The characters are bytes; [char] is signed, the locale is "C".  Decryption
    undoes encryption for every key the constructors accept, and the substitution
    cipher built from a shift is the Caesar cipher. *)

From Stdlib Require Import Ascii String.
From S2P Require Import Prelude.

Local Open Scope Z_scope.

(** ** Characters and <cctype> *)
#[local] Instance ascii_inhabited : Inhabited ascii := populate zero.

Definition ord (c : ascii) : Z := Z.of_N (N_of_ascii c).
Definition chr (z : Z) : ascii := ascii_of_N (Z.to_N (z mod 256)).

Definition isupper (c : ascii) : bool := (65 <=? ord c) && (ord c <=? 90).
Definition islower (c : ascii) : bool := (97 <=? ord c) && (ord c <=? 122).
Definition isalpha (c : ascii) : bool := isupper c || islower c.

(** The value of a [char] as an [int]. *)
Definition char_value (c : ascii) : Z := if ord c <? 128 then ord c else ord c - 256.

(** [std::toupper] and [std::tolower] on an [int]: undefined for a value that is no
    [unsigned char] and not [EOF]. *)
Definition toupper (z : Z) : outcome Z :=
  if decide (-1 <= z <= 255) then Ret (if (97 <=? z) && (z <=? 122) then z - 32 else z) else Undef.
Definition tolower (z : Z) : outcome Z :=
  if decide (-1 <= z <= 255) then Ret (if (65 <=? z) && (z <=? 90) then z + 32 else z) else Undef.

(** ** [class CaesarCipher] *)
Module Caesar.
Definition kDefaultShift : Z := 3.
Definition kAlphabetSize : Z := 26.

Record CaesarCipher := mkCaesar { shift_ : Z }.
Implicit Types (cipher : CaesarCipher) (text : list ascii).

Definition NormalizeShift (shift : Z) : Z :=
  let shift := if decide (shift = INT32_MIN) then shift + kAlphabetSize else shift in
  let normalized := Z.rem shift kAlphabetSize in
  if normalized <? 0 then normalized + kAlphabetSize else normalized.

Definition caesar_new (shift : Z) : CaesarCipher := mkCaesar (NormalizeShift shift).
Definition CreateRot13 : CaesarCipher := caesar_new 13.
Definition GetShift cipher : Z := shift_ cipher.
Definition SetShift cipher (new_shift : Z) : CaesarCipher := mkCaesar (NormalizeShift new_shift).

Definition IsValidInput text : bool := forallb (fun c => ord c <=? 127) text.

Definition ShiftChar (c : ascii) (shift : Z) : outcome ascii :=
  let base := if isupper c then 65 else 97 in
  sum ← add32 (char_value c - base) shift;
  let offset := Z.rem sum kAlphabetSize in
  let offset := if offset <? 0 then offset + kAlphabetSize else offset in
  Ret (chr (base + offset)).

Definition Transform text (effective_shift : Z) : outcome (list ascii) :=
  if negb (IsValidInput text) then Throw invalid_argument
  else mapM (fun c => if isalpha c then ShiftChar c effective_shift else Ret c) text.

Definition Encrypt cipher text : outcome (list ascii) := Transform text (shift_ cipher).
Definition Decrypt cipher text : outcome (list ascii) := Transform text (- shift_ cipher).

(** The static utilities. *)
Definition Encrypt_with text (shift : Z) : outcome (list ascii) := Encrypt (caesar_new shift) text.
Definition Decrypt_with text (shift : Z) : outcome (list ascii) := Decrypt (caesar_new shift) text.
End Caesar.

(** ** [class SubstitutionCipher] *)
Module Substitution.
Definition ALPHABET_SIZE : nat := 26.
Definition kAlphabet : list ascii := (fun i => chr (65 + Z.of_nat i)) <$> seq 0 ALPHABET_SIZE.

Record SubstitutionCipher := mkSubst { encode_map_ : list ascii; decode_map_ : list ascii }.
Implicit Types (cipher : SubstitutionCipher) (text map encode_map decode_map : list ascii).

(** One iteration of [ValidateAndBuildReverseMap], for the entry [encoded] at [i]. *)
Fixpoint validate_loop (entries : list ascii) (i : nat) (seen : list bool) decode_map : outcome (list ascii) :=
  match entries with
  | [] => Ret decode_map
  | encoded :: entries =>
    if negb (isalpha encoded) then Throw invalid_argument else
    up ← toupper (ord encoded);
    let idx := up - 65 in
    dup ← vgetz seen idx;
    if (dup : bool) then Throw invalid_argument else
    seen ← vsetz seen idx true;
    letter ← vget kAlphabet i;
    decode_map ← vsetz decode_map idx letter;
    validate_loop entries (S i) seen decode_map
  end.

Definition ValidateAndBuildReverseMap encode_map : outcome SubstitutionCipher :=
  decode_map ← validate_loop encode_map 0 (replicate ALPHABET_SIZE false) (replicate ALPHABET_SIZE (chr 0));
  Ret (mkSubst encode_map decode_map).

(** The overrides of the user, in the order of iteration of the [unordered_map]. *)
Fixpoint apply_mapping (mapping : list (ascii * ascii)) encode_map : outcome (list ascii) :=
  match mapping with
  | [] => Ret encode_map
  | (from, to) :: mapping =>
    up ← toupper (char_value from);
    upto ← toupper (char_value to);
    encode_map ← vsetz encode_map (up - 65) (chr upto);
    apply_mapping mapping encode_map
  end.

Definition of_mapping (mapping : list (ascii * ascii)) : outcome SubstitutionCipher :=
  encode_map ← apply_mapping mapping kAlphabet;
  ValidateAndBuildReverseMap encode_map.

Definition normalize (shift : Z) : Z :=
  let normalized_shift := Z.rem shift (Z.of_nat ALPHABET_SIZE) in
  if normalized_shift <? 0 then normalized_shift + Z.of_nat ALPHABET_SIZE else normalized_shift.

Definition of_shift (shift : Z) : outcome SubstitutionCipher :=
  encode_map ← mapM (fun i => vgetz kAlphabet ((Z.of_nat i + normalize shift) mod Z.of_nat ALPHABET_SIZE)) (seq 0 ALPHABET_SIZE);
  ValidateAndBuildReverseMap encode_map.

(** [shuffle] stands for [std::ranges::shuffle] with a Mersenne twister. *)
Definition of_seed (shuffle : Z -> list ascii -> list ascii) (seed : Z) : outcome SubstitutionCipher :=
  let shuffled := shuffle seed kAlphabet in
  encode_map ← mapM (fun i => vget shuffled i) (seq 0 ALPHABET_SIZE);
  ValidateAndBuildReverseMap encode_map.

Definition TransformChar (c : ascii) map : outcome ascii :=
  if negb (isalpha c) then Ret c
  else if isupper c then vgetz map (char_value c - 65)
  else m ← vgetz map (char_value c - 97); low ← tolower (char_value m); Ret (chr low).

Definition Encrypt cipher text : outcome (list ascii) := mapM (fun c => TransformChar c (encode_map_ cipher)) text.
Definition Decrypt cipher text : outcome (list ascii) := mapM (fun c => TransformChar c (decode_map_ cipher)) text.
Definition GetMapping cipher : list ascii := encode_map_ cipher.
End Substitution.

(** ** Characters: facts *)
Lemma ord_range c : 0 <= ord c < 256.
Proof. unfold ord. pose proof (N_ascii_bounded c). lia. Qed.

Lemma chr_ord c : chr (ord c) = c.
Proof. unfold chr. rewrite Z.mod_small by apply ord_range. unfold ord. rewrite N2Z.id. apply ascii_N_embedding. Qed.

Lemma ord_chr z : 0 <= z < 256 -> ord (chr z) = z.
Proof. intros Hz. unfold ord, chr. rewrite Z.mod_small by done. rewrite N_ascii_embedding by lia. lia. Qed.

Lemma ord_inj c d : ord c = ord d -> c = d.
Proof. intros H. by rewrite <- (chr_ord c), H, chr_ord. Qed.

Lemma isupper_spec c : isupper c = true <-> 65 <= ord c <= 90.
Proof. unfold isupper. rewrite andb_true_iff. lia. Qed.

Lemma islower_spec c : islower c = true <-> 97 <= ord c <= 122.
Proof. unfold islower. rewrite andb_true_iff. lia. Qed.

Lemma not_upper c : isupper c = false <-> ~ 65 <= ord c <= 90.
Proof. rewrite <- isupper_spec. by destruct (isupper c). Qed.

Lemma not_lower c : islower c = false <-> ~ 97 <= ord c <= 122.
Proof. rewrite <- islower_spec. by destruct (islower c). Qed.

(** The three classes of characters. *)
Lemma char_cases c : (exists k, 0 <= k < 26 /\ c = chr (65 + k)) \/ (exists k, 0 <= k < 26 /\ c = chr (97 + k)) \/ (isupper c = false /\ islower c = false).
Proof.
  destruct (isupper c) eqn:E1.
  { apply isupper_spec in E1. left. exists (ord c - 65). split; [lia|]. by rewrite Z.add_comm, Z.sub_add, chr_ord. }
  destruct (islower c) eqn:E2; [|by right; right]. apply islower_spec in E2. right. left. exists (ord c - 97). split; [lia|].
  by rewrite Z.add_comm, Z.sub_add, chr_ord.
Qed.

Lemma upper_class k : 0 <= k < 26 -> isupper (chr (65 + k)) = true /\ islower (chr (65 + k)) = false /\ ord (chr (65 + k)) = 65 + k /\ char_value (chr (65 + k)) = 65 + k.
Proof.
  intros Hk. unfold char_value. rewrite isupper_spec, not_lower, ord_chr by lia. rewrite (proj2 (Z.ltb_lt _ _)) by lia. lia.
Qed.

Lemma lower_class k : 0 <= k < 26 -> isupper (chr (97 + k)) = false /\ islower (chr (97 + k)) = true /\ ord (chr (97 + k)) = 97 + k /\ char_value (chr (97 + k)) = 97 + k.
Proof.
  intros Hk. unfold char_value. rewrite islower_spec, not_upper, ord_chr by lia. rewrite (proj2 (Z.ltb_lt _ _)) by lia. lia.
Qed.

Lemma rem_mod x m : 0 < m -> (if Z.rem x m <? 0 then Z.rem x m + m else Z.rem x m) = x mod m.
Proof.
  intros Hm. pose proof (Z.quot_rem' x m) as Hq. pose proof (Z.rem_bound_abs x m ltac:(lia)).
  destruct (Z.ltb_spec (Z.rem x m) 0).
  - apply (Z.mod_unique _ _ (Z.quot x m - 1)); lia.
  - apply (Z.mod_unique _ _ (Z.quot x m)); lia.
Qed.

(** A letter moved [k] places down the alphabet, with its case. *)
Definition rot (k : Z) (c : ascii) : ascii :=
  if isupper c then chr (65 + (ord c - 65 + k) mod 26) else if islower c then chr (97 + (ord c - 97 + k) mod 26) else c.

Lemma rot_upper k j : 0 <= j < 26 -> rot k (chr (65 + j)) = chr (65 + (j + k) mod 26).
Proof. intros Hj. unfold rot. destruct (upper_class j Hj) as (-> & _ & -> & _). f_equal. f_equal. f_equal. lia. Qed.

Lemma rot_lower k j : 0 <= j < 26 -> rot k (chr (97 + j)) = chr (97 + (j + k) mod 26).
Proof. intros Hj. unfold rot. destruct (lower_class j Hj) as (-> & -> & -> & _). f_equal. f_equal. f_equal. lia. Qed.

Lemma rot_add a b c : rot a (rot b c) = rot (b + a) c.
Proof.
  destruct (char_cases c) as [(j & Hj & ->)|[(j & Hj & ->)|[Hu Hl]]].
  - rewrite (rot_upper b), rot_upper, rot_upper by (try apply Z.mod_pos_bound; lia). by rewrite Zplus_mod_idemp_l, Z.add_assoc.
  - rewrite (rot_lower b), rot_lower, rot_lower by (try apply Z.mod_pos_bound; lia). by rewrite Zplus_mod_idemp_l, Z.add_assoc.
  - unfold rot. by rewrite Hu, Hl, Hu, Hl.
Qed.

Lemma rot_0 c : rot 0 c = c.
Proof.
  destruct (char_cases c) as [(j & Hj & ->)|[(j & Hj & ->)|[Hu Hl]]].
  - by rewrite rot_upper, Z.add_0_r, Z.mod_small.
  - by rewrite rot_lower, Z.add_0_r, Z.mod_small.
  - unfold rot. by rewrite Hu, Hl.
Qed.

Lemma rot_mod k c : rot (k mod 26) c = rot k c.
Proof. unfold rot. by rewrite !Zplus_mod_idemp_r. Qed.

Lemma rot_inv k (text : list ascii) : (rot (- k) <$> (rot k <$> text)) = text.
Proof. rewrite <- list_fmap_compose. rewrite <- (list_fmap_id text) at 2. apply list_fmap_ext. intros ? c _. unfold compose. rewrite rot_add, Z.add_opp_diag_r. apply rot_0. Qed.

Lemma mapM_Ret {A B} (f : A -> outcome B) (g : A -> B) l : (forall x, x ∈ l -> f x = Ret (g x)) -> mapM f l = Ret (g <$> l).
Proof.
  induction l as [|x l IH]; intros Hf; [done|]. cbn. rewrite (Hf x) by (by left). ret_step. rewrite IH; [done|]. intros y Hy. apply Hf. by right.
Qed.

(** ** Caesar *)
Module CaesarLaws.
Import Caesar.

Lemma NormalizeShift_mod shift : NormalizeShift shift = shift mod 26.
Proof.
  unfold NormalizeShift. rewrite rem_mod by done. unfold kAlphabetSize. case_decide; [|done]. by rewrite Z.add_mod, Z.mod_same, Z.add_0_r, Z.mod_mod by done.
Qed.

Lemma IsValidInput_spec text : IsValidInput text = true <-> Forall (fun c => ord c < 128) text.
Proof. unfold IsValidInput. rewrite forallb_forall, Forall_forall. setoid_rewrite Z.leb_le. setoid_rewrite list_elem_of_In. split; intros H c Hc; specialize (H c Hc); lia. Qed.

Lemma ShiftChar_rot c k : isalpha c = true -> -26 < k < 26 -> ShiftChar c k = Ret (rot k c).
Proof.
  intros Ha Hk. unfold ShiftChar. destruct (char_cases c) as [(j & Hj & ->)|[(j & Hj & ->)|[Hu Hl]]].
  - destruct (upper_class j Hj) as (-> & _ & _ & ->). rewrite add32_in by (unfold in_i32, INT32_MIN, INT32_MAX; lia). ret_step.
    rewrite rem_mod by done. rewrite rot_upper by done. unfold kAlphabetSize. do 4 f_equal. lia.
  - destruct (lower_class j Hj) as (-> & _ & _ & ->). rewrite add32_in by (unfold in_i32, INT32_MIN, INT32_MAX; lia). ret_step.
    rewrite rem_mod by done. rewrite rot_lower by done. unfold kAlphabetSize. do 4 f_equal. lia.
  - unfold isalpha in Ha. by rewrite Hu, Hl in Ha.
Qed.

Lemma rot_not_alpha k c : isalpha c = false -> rot k c = c.
Proof. unfold isalpha, rot. intros [-> ->]%orb_false_elim. done. Qed.

Lemma Transform_ok text k : -26 < k < 26 -> Transform text k = if IsValidInput text then Ret (rot k <$> text) else Throw invalid_argument.
Proof.
  intros Hk. unfold Transform. destruct (IsValidInput text); [|done]. cbn [negb]. apply mapM_Ret. intros c _.
  destruct (isalpha c) eqn:E; [by apply ShiftChar_rot|by rewrite rot_not_alpha].
Qed.

Lemma rot_valid k (text : list ascii) : IsValidInput (rot k <$> text) = IsValidInput text.
Proof.
  unfold IsValidInput. induction text as [|c text IH]; [done|]. cbn [fmap list_fmap forallb]. f_equal; [|done]. destruct (char_cases c) as [(j & Hj & ->)|[(j & Hj & ->)|[Hu Hl]]].
  - rewrite rot_upper by done. pose proof (Z.mod_pos_bound (j + k) 26 ltac:(lia)). rewrite !ord_chr by lia. lia.
  - rewrite rot_lower by done. pose proof (Z.mod_pos_bound (j + k) 26 ltac:(lia)). rewrite !ord_chr by lia. lia.
  - unfold rot. by rewrite Hu, Hl.
Qed.

Lemma Encrypt_ok text shift : Encrypt_with text shift = if IsValidInput text then Ret (rot shift <$> text) else Throw invalid_argument.
Proof.
  unfold Encrypt_with, Encrypt, caesar_new. cbn [shift_]. rewrite NormalizeShift_mod, Transform_ok by (pose proof (Z.mod_pos_bound shift 26); lia).
  destruct (IsValidInput text); [|done]. f_equal. apply list_fmap_ext. intros. by rewrite rot_mod.
Qed.

Lemma Decrypt_ok text shift : Decrypt_with text shift = if IsValidInput text then Ret (rot (- shift) <$> text) else Throw invalid_argument.
Proof.
  unfold Decrypt_with, Decrypt, caesar_new. cbn [shift_]. rewrite NormalizeShift_mod, Transform_ok by (pose proof (Z.mod_pos_bound shift 26); lia).
  destruct (IsValidInput text); [|done]. f_equal. apply list_fmap_ext. intros ? c _. rewrite <- rot_mod, <- (rot_mod (- shift)). f_equal.
  rewrite <- Z.sub_0_l, <- (Z.sub_0_l shift), Zminus_mod_idemp_r. done.
Qed.
End CaesarLaws.

(** ** Substitution *)
Module SubstitutionLaws.
Import Substitution.

#[local] Abbreviation letter k := (chr (65 + k)).

(** The place of an upper-case letter. *)
Definition place (c : ascii) : nat := Z.to_nat (ord c - 65).

Lemma lookup_kAlphabet i : (i < 26)%nat -> kAlphabet !! i = Some (letter (Z.of_nat i)).
Proof. intros Hi. unfold kAlphabet. rewrite list_lookup_fmap, lookup_seq_lt by done. done. Qed.

Lemma place_letter k : 0 <= k < 26 -> place (letter k) = Z.to_nat k.
Proof. intros Hk. unfold place. destruct (upper_class k Hk) as (_ & _ & -> & _). f_equal. lia. Qed.

Lemma letter_place c : isupper c = true -> letter (Z.of_nat (place c)) = c /\ (place c < 26)%nat.
Proof. intros Hc%isupper_spec. unfold place. split; [|lia]. rewrite Z2Nat.id by lia. rewrite Z.add_comm, Z.sub_add. apply chr_ord. Qed.

Lemma place_inj c d : isupper c = true -> isupper d = true -> place c = place d -> c = d.
Proof. intros Hc Hd E. destruct (letter_place c Hc) as [<- _], (letter_place d Hd) as [<- _]. by rewrite E. Qed.

Lemma elem_of_kAlphabet c : c ∈ kAlphabet <-> isupper c = true.
Proof.
  split.
  - intros [i Hi]%list_elem_of_lookup. pose proof (lookup_lt_Some _ _ _ Hi) as Hl. unfold kAlphabet in Hl. rewrite length_fmap, length_seq in Hl.
    rewrite lookup_kAlphabet in Hi by done. injection Hi as <-. by apply upper_class; unfold ALPHABET_SIZE in Hl; lia.
  - intros Hc. destruct (letter_place c Hc) as [E Hl]. apply list_elem_of_lookup. exists (place c). by rewrite lookup_kAlphabet, E.
Qed.

Lemma NoDup_kAlphabet : NoDup kAlphabet.
Proof.
  unfold kAlphabet. apply NoDup_fmap_2_strong; [|apply NoDup_seq]. intros x y Hx%elem_of_seq Hy%elem_of_seq E. unfold ALPHABET_SIZE in *.
  apply (f_equal ord) in E. rewrite !ord_chr in E by lia. lia.
Qed.

(** A table is accepted when it is a permutation of the alphabet. *)
Definition bijective (table : list ascii) : Prop := table ≡ₚ kAlphabet.

Lemma bijective_spec table : length table = ALPHABET_SIZE -> bijective table <-> Forall (fun c => isupper c = true) table /\ NoDup table.
Proof.
  intros Hl. unfold bijective. split.
  - intros HP. split; [|rewrite HP; apply NoDup_kAlphabet]. rewrite Forall_forall. intros c. rewrite HP. apply elem_of_kAlphabet.
  - intros [Hu Hn]. apply submseteq_length_Permutation; [|by rewrite Hl].
    apply NoDup_submseteq; [done|]. intros c Hc. apply elem_of_kAlphabet. rewrite Forall_forall in Hu. by apply Hu.
Qed.

(** *** Validation *)
Definition acceptable (entries : list ascii) (seen : list bool) : Prop :=
  Forall (fun c => isupper c = true) entries /\ NoDup entries /\ Forall (fun c => seen !! place c = Some false) entries.

(** [decode'] is [decode_map] with the letters from place [i] on at the places of [entries]. *)
Definition filled (entries : list ascii) (i : nat) (decode_map decode' : list ascii) : Prop :=
  length decode' = 26%nat /\ (forall j c, entries !! j = Some c -> decode' !! place c = kAlphabet !! (i + j)%nat) /\
  (forall p, (forall c, c ∈ entries -> place c <> p) -> decode' !! p = decode_map !! p).

Lemma validate_loop_ok entries : forall i seen decode_map,
  Forall (fun c => islower c = false) entries -> length seen = 26%nat -> length decode_map = 26%nat -> (i + length entries <= 26)%nat ->
  (acceptable entries seen /\ exists decode', validate_loop entries i seen decode_map = Ret decode' /\ filled entries i decode_map decode') \/
  (~ acceptable entries seen /\ validate_loop entries i seen decode_map = Throw invalid_argument).
Proof.
  induction entries as [|c entries IH]; intros i seen decode_map Hlow Hs Hd Hi; cbn [validate_loop].
  { left. split; [by split_and!; constructor|]. exists decode_map. split; [done|]. by split_and!. }
  apply Forall_cons in Hlow as [Hc Hlow]. unfold isalpha. rewrite Hc, orb_false_r. destruct (isupper c) eqn:Eu; cbn [negb]; [|right; split; [|done]].
  2: { intros [H _]. apply Forall_cons in H as [H _]. congruence. }
  destruct (letter_place c Eu) as [Hlet Hpl]. pose proof (proj1 (isupper_spec c) Eu) as Hr. unfold toupper. rewrite decide_True by lia.
  rewrite (proj2 (andb_false_iff _ _)) by (left; lia). ret_step. cbn in Hi.
  destruct (lookup_lt_is_Some_2 seen (place c)) as [b Hb]; [lia|]. rewrite (vgetz_Some _ _ b) by (done || lia). ret_step. destruct b.
  { right. split; [|done]. intros (_ & _ & H). apply Forall_cons in H as [H _]. congruence. }
  rewrite vsetz_lt by lia. ret_step. rewrite (vget_Some _ i (letter (Z.of_nat i))) by (apply lookup_kAlphabet; lia). ret_step. rewrite vsetz_lt by lia. ret_step.
  fold (place c).
  destruct (IH (S i) (<[place c:=true]> seen) (<[place c:=letter (Z.of_nat i)]> decode_map)) as [[Hok (d' & -> & Hd' & Hin & Hout)]|[Hno ->]];
    [done|by rewrite length_insert|by rewrite length_insert|lia|left|right].
  - destruct Hok as (Hu & Hn & Hse). assert (c ∉ entries) as Hnin.
    { intros Hin'. rewrite Forall_forall in Hse. specialize (Hse c Hin'). by rewrite list_lookup_insert_eq in Hse by lia. }
    split.
    { split_and!; [by constructor|by constructor|]. constructor; [done|]. rewrite Forall_forall in Hse |- *. intros d Hdi. specialize (Hse d Hdi).
      rewrite list_lookup_insert_ne in Hse; [done|]. intros E. apply Hnin. rewrite Forall_forall in Hu. by rewrite (place_inj c d) by auto. }
    exists d'. split; [done|]. split_and!; [done| |].
    + intros [|j] d; cbn; [intros [= <-]; rewrite Nat.add_0_r|].
      * rewrite Hout, list_lookup_insert_eq; [symmetry; apply lookup_kAlphabet; lia|lia|].
        intros d Hdi E. apply Hnin. rewrite Forall_forall in Hu. by rewrite (place_inj c d) by auto.
      * intros Hj. rewrite (Hin j d Hj). f_equal. lia.
    + intros p Hp. rewrite Hout by (intros d Hdi; apply Hp; by right). apply list_lookup_insert_ne. apply Hp. by left.
  - split; [|done]. intros (Hu & Hn & Hse). apply Forall_cons in Hu as [_ Hu]. apply NoDup_cons in Hn as [Hnin Hn]. apply Forall_cons in Hse as [_ Hse]. apply Hno.
    split_and!; [done|done|]. rewrite Forall_forall in Hse, Hu |- *. intros d Hdi. rewrite list_lookup_insert_ne; [by apply Hse|].
    intros E. apply Hnin. by rewrite (place_inj c d) by auto.
Qed.

(** The tables of a cipher are inverse permutations. *)
Record wf cipher : Prop := {
  wf_encode : bijective (encode_map_ cipher);
  wf_length : length (decode_map_ cipher) = ALPHABET_SIZE;
  wf_decode : forall i c, encode_map_ cipher !! i = Some c -> decode_map_ cipher !! place c = kAlphabet !! i;
}.

Lemma validate_ok table : length table = ALPHABET_SIZE -> Forall (fun c => islower c = false) table ->
  (bijective table /\ exists cipher, ValidateAndBuildReverseMap table = Ret cipher /\ encode_map_ cipher = table /\ wf cipher) \/
  (~ bijective table /\ ValidateAndBuildReverseMap table = Throw invalid_argument).
Proof.
  intros Hl Hlow. unfold ValidateAndBuildReverseMap.
  destruct (validate_loop_ok table 0 (replicate ALPHABET_SIZE false) (replicate ALPHABET_SIZE (chr 0))) as [[Hok (d & -> & Hld & Hin & _)]|[Hno ->]];
    [done|by rewrite length_replicate|by rewrite length_replicate|by rewrite Hl|left|right].
  - destruct Hok as (Hu & Hn & _). assert (bijective table) as Hb by (by apply bijective_spec). split; [done|]. eexists. split; [done|]. split; [done|]. by split.
  - split; [|done]. intros Hb. apply Hno. apply bijective_spec in Hb as [Hu Hn]; [|done]. split_and!; [done|done|].
    apply Forall_forall. intros c Hc. rewrite Forall_forall in Hu. apply lookup_replicate_2. by apply letter_place, Hu.
Qed.

Lemma length_bijective table : bijective table -> length table = 26%nat.
Proof. unfold bijective. by intros ->. Qed.

Lemma elem_of_bijective table c : bijective table -> c ∈ table <-> isupper c = true.
Proof. unfold bijective. intros ->. apply elem_of_kAlphabet. Qed.

(** *** The constructors *)
Lemma kAlphabet_not_lower : Forall (fun c => islower c = false) kAlphabet.
Proof. apply Forall_forall. intros c Hc%elem_of_kAlphabet%isupper_spec. apply not_lower. lia. Qed.

(** What the overrides make of a table: keys and values count as upper-case letters. *)
Definition upper_of (c : ascii) : ascii := if islower c then chr (ord c - 32) else c.
Definition override (mapping : list (ascii * ascii)) (table : list ascii) : list ascii :=
  fold_left (fun table e => <[place (upper_of e.1) := upper_of e.2]> table) mapping table.

(** Keys are letters; values are ASCII. *)
Definition proper_entry (e : ascii * ascii) : Prop := isalpha e.1 = true /\ ord e.2 < 128.

Lemma toupper_ascii c : ord c < 128 -> exists u, toupper (char_value c) = Ret u /\ chr u = upper_of c /\ (isalpha c = true -> 65 <= u <= 90 /\ Z.to_nat (u - 65) = place (upper_of c)).
Proof.
  intros Hc. pose proof (ord_range c). unfold toupper, char_value, upper_of. rewrite (proj2 (Z.ltb_lt _ _)) by done. rewrite decide_True by lia.
  eexists. split; [done|]. fold (islower c). destruct (islower c) eqn:El.
  - split; [done|]. intros _. apply islower_spec in El. split; [lia|]. unfold place. rewrite ord_chr by lia. f_equal.
  - split; [apply chr_ord|]. unfold isalpha. rewrite El, orb_false_r. intros Hu%isupper_spec. split; [lia|done].
Qed.

Lemma upper_of_not_lower c : islower (upper_of c) = false.
Proof.
  unfold upper_of. destruct (islower c) eqn:E; [|done]. apply islower_spec in E. apply not_lower. rewrite ord_chr by lia. lia.
Qed.

Lemma apply_mapping_ok mapping : Forall proper_entry mapping -> forall table, length table = 26%nat -> Forall (fun c => islower c = false) table ->
  apply_mapping mapping table = Ret (override mapping table) /\ length (override mapping table) = 26%nat /\ Forall (fun c => islower c = false) (override mapping table).
Proof.
  induction mapping as [|[from to] mapping IH]; intros Hm table Hl Hlow; [done|]. apply Forall_cons in Hm as [[Hf Ht] Hm]. cbn [fst snd] in *. cbn [apply_mapping override fold_left fst snd].
  destruct (toupper_ascii from) as (u & -> & _ & Hu).
  { unfold isalpha in Hf. apply orb_prop in Hf as [H%isupper_spec|H%islower_spec]; lia. }
  destruct (Hu Hf) as [Hr Hp]. destruct (toupper_ascii to Ht) as (v & -> & Hv & _). ret_step. ret_step. rewrite Hv, vsetz_lt by lia. ret_step. rewrite Hp.
  apply IH; [done|by rewrite length_insert|]. apply Forall_insert; [done|apply upper_of_not_lower].
Qed.

Lemma of_shift_table shift : exists table, mapM (fun i => vgetz kAlphabet ((Z.of_nat i + normalize shift) mod Z.of_nat ALPHABET_SIZE)) (seq 0 ALPHABET_SIZE) = Ret table /\
  table = rot shift <$> kAlphabet.
Proof.
  exists (rot shift <$> kAlphabet). split; [|done]. unfold kAlphabet at 2. rewrite <- list_fmap_compose. apply mapM_Ret. intros i Hi%elem_of_seq.
  unfold ALPHABET_SIZE in *. unfold compose. rewrite rot_upper by lia. apply vgetz_Some; [apply Z.mod_pos_bound; lia|].
  unfold normalize. rewrite rem_mod by done. rewrite Zplus_mod_idemp_r. change (Z.of_nat 26) with 26. pose proof (Z.mod_pos_bound (Z.of_nat i + shift) 26 ltac:(lia)).
    rewrite lookup_kAlphabet by lia. by rewrite Z2Nat.id by lia.
Qed.

Lemma rot_bijective shift : bijective (rot shift <$> kAlphabet).
Proof.
  apply bijective_spec; [by rewrite length_fmap|]. split.
  - apply Forall_fmap, Forall_forall. intros c Hc%elem_of_kAlphabet. destruct (letter_place c Hc) as [E Hp]. unfold compose. rewrite <- E, rot_upper by lia.
    apply upper_class, Z.mod_pos_bound. lia.
  - apply NoDup_fmap_2_strong; [|apply NoDup_kAlphabet]. intros x y _ _ E. apply (f_equal (rot (- shift))) in E.
    by rewrite !rot_add, Z.add_opp_diag_r, !rot_0 in E.
Qed.

Lemma bijective_not_lower table : bijective table -> Forall (fun c => islower c = false) table.
Proof. intros Hb. unfold bijective in Hb. rewrite Hb. apply kAlphabet_not_lower. Qed.

Lemma of_shift_ok shift : exists cipher, of_shift shift = Ret cipher /\ wf cipher /\ encode_map_ cipher = rot shift <$> kAlphabet.
Proof.
  unfold of_shift. destruct (of_shift_table shift) as (table & -> & ->). ret_step. pose proof (rot_bijective shift) as Hb.
  destruct (validate_ok (rot shift <$> kAlphabet)) as [[_ (cipher & -> & He & Hw)]|[Hno _]]; [by rewrite length_fmap|by apply bijective_not_lower|by exists cipher|done].
Qed.

Lemma of_seed_ok shuffle seed : shuffle seed kAlphabet ≡ₚ kAlphabet ->
  exists cipher, of_seed shuffle seed = Ret cipher /\ wf cipher /\ encode_map_ cipher = shuffle seed kAlphabet.
Proof.
  intros HP. unfold of_seed. assert (length (shuffle seed kAlphabet) = 26%nat) as Hl by (by rewrite HP). set (table := shuffle seed kAlphabet) in *.
  assert (mapM (fun i => vget table i) (seq 0 ALPHABET_SIZE) = Ret ((fun i => table !!! i) <$> seq 0 ALPHABET_SIZE)) as ->.
  { apply mapM_Ret. intros i Hi%elem_of_seq. unfold ALPHABET_SIZE in Hi. apply vget_Some, list_lookup_lookup_total_lt. lia. }
  ret_step. assert (((fun i => table !!! i) <$> seq 0 ALPHABET_SIZE) = table) as ->.
  { apply list_eq. intros i. rewrite list_lookup_fmap. destruct (decide (i < 26)%nat).
    - rewrite lookup_seq_lt by done. cbn. symmetry. apply list_lookup_lookup_total_lt. lia.
    - rewrite (lookup_ge_None_2 table) by lia. by rewrite lookup_seq_ge by (unfold ALPHABET_SIZE; lia). }
  destruct (validate_ok table) as [[_ (cipher & -> & He & Hw)]|[Hno _]]; [done|by apply bijective_not_lower|by exists cipher|done].
Qed.

(** *** One character *)
(** The letter a table gives, with the case of the argument. *)
Definition subst_char (table : list ascii) (c : ascii) : ascii :=
  if isupper c then table !!! place c
  else if islower c then chr (ord (table !!! Z.to_nat (ord c - 97)) + 32) else c.

Lemma upper_entry table k : bijective table -> 0 <= k < 26 -> exists j, 0 <= j < 26 /\ table !! Z.to_nat k = Some (letter j).
Proof.
  intros Hb Hk. assert (length table = 26%nat) as Hl by (by apply length_bijective). destruct (lookup_lt_is_Some_2 table (Z.to_nat k)) as [c Hc]; [lia|].
  pose proof (list_elem_of_lookup_2 _ _ _ Hc) as Hin. apply (elem_of_bijective _ _ Hb) in Hin. destruct (letter_place c Hin) as [E Hp].
  exists (Z.of_nat (place c)). split; [lia|]. by rewrite E.
Qed.

Lemma subst_upper table k c : table !! Z.to_nat k = Some c -> 0 <= k < 26 -> subst_char table (letter k) = c.
Proof. intros Hc Hk. unfold subst_char. destruct (upper_class k Hk) as (-> & _). rewrite place_letter by done. by apply list_lookup_total_correct. Qed.

Lemma subst_lower table k j : table !! Z.to_nat k = Some (letter j) -> 0 <= k < 26 -> 0 <= j < 26 -> subst_char table (chr (97 + k)) = chr (97 + j).
Proof.
  intros Hc Hk Hj. unfold subst_char. destruct (lower_class k Hk) as (-> & -> & -> & _). replace (97 + k - 97) with k by lia.
  rewrite (list_lookup_total_correct _ _ _ Hc), ord_chr by lia. f_equal. lia.
Qed.

Lemma TransformChar_ok table c : bijective table -> TransformChar c table = Ret (subst_char table c).
Proof.
  intros Hb. unfold TransformChar, isalpha. destruct (char_cases c) as [(k & Hk & ->)|[(k & Hk & ->)|[Hu Hl]]].
  - destruct (upper_entry table k Hb Hk) as (j & Hj & Hc). rewrite (subst_upper _ _ _ Hc Hk). destruct (upper_class k Hk) as (-> & _ & _ & ->). cbn [orb negb].
    apply vgetz_Some; [lia|]. by replace (65 + k - 65) with k by lia.
  - destruct (upper_entry table k Hb Hk) as (j & Hj & Hc). rewrite (subst_lower _ _ _ Hc Hk Hj). destruct (lower_class k Hk) as (-> & -> & _ & ->). cbn [orb negb].
    rewrite (vgetz_Some _ _ (letter j)); [|lia|by replace (97 + k - 97) with k by lia]. ret_step.
    destruct (upper_class j Hj) as (_ & _ & _ & ->). unfold tolower. rewrite decide_True by lia. rewrite (proj2 (andb_true_iff _ _)) by (split; lia). ret_step. do 2 f_equal. lia.
  - unfold subst_char. by rewrite Hu, Hl.
Qed.

Lemma decode_bijective cipher : wf cipher -> bijective (decode_map_ cipher) /\
  forall k j, 0 <= k < 26 -> 0 <= j < 26 -> encode_map_ cipher !! Z.to_nat k = Some (letter j) <-> decode_map_ cipher !! Z.to_nat j = Some (letter k).
Proof.
  intros [Hb Hld Hd]. change ALPHABET_SIZE with 26%nat in Hld. set (enc := encode_map_ cipher) in *. set (dec := decode_map_ cipher) in *.
  assert (length enc = 26%nat) as Hl by (by apply length_bijective). pose proof (proj1 (bijective_spec enc Hl) Hb) as [Hup Hnd].
  assert (forall j, 0 <= j < 26 -> exists i, 0 <= i < 26 /\ enc !! Z.to_nat i = Some (letter j) /\ dec !! Z.to_nat j = Some (letter i)) as Hinv.
  { intros j Hj. assert (letter j ∈ enc) as [i Hi]%list_elem_of_lookup by (apply elem_of_bijective; [done|]; by apply upper_class).
    pose proof (lookup_lt_Some _ _ _ Hi). exists (Z.of_nat i). rewrite Nat2Z.id. split_and!; [lia|lia|done|].
    specialize (Hd _ _ Hi). by rewrite place_letter, lookup_kAlphabet in Hd by lia. }
  assert (forall i k, 0 <= i < 26 -> 0 <= k < 26 -> letter i = letter k -> i = k) as Hinj.
  { intros i k Hi Hk E. apply (f_equal ord) in E. rewrite !ord_chr in E by lia. lia. }
  assert (forall k j, 0 <= k < 26 -> 0 <= j < 26 -> enc !! Z.to_nat k = Some (letter j) <-> dec !! Z.to_nat j = Some (letter k)) as Hiff.
  { intros k j Hk Hj. destruct (Hinv j Hj) as (i & Hi & He & Hde). split; intros Hc.
    - enough (k = i) as -> by done. apply Z2Nat.inj; [lia..|]. by eapply NoDup_lookup.
    - rewrite Hde in Hc. injection Hc as E. by rewrite <- (Hinj i k). }
  split; [|done]. apply bijective_spec; [done|]. split.
  - apply Forall_forall. intros c [j Hj]%list_elem_of_lookup. pose proof (lookup_lt_Some _ _ _ Hj). destruct (Hinv (Z.of_nat j)) as (i & Hi & _ & Hde); [lia|].
    rewrite Nat2Z.id, Hj in Hde. injection Hde as ->. by apply upper_class.
  - apply NoDup_alt. intros i j c Hi Hj. pose proof (lookup_lt_Some _ _ _ Hi). pose proof (lookup_lt_Some _ _ _ Hj).
    destruct (Hinv (Z.of_nat i)) as (a & Ha & Ea & Da); [lia|]. destruct (Hinv (Z.of_nat j)) as (b & Hb' & Eb & Db); [lia|].
    rewrite Nat2Z.id in Da, Db. rewrite Hi in Da. rewrite Hj in Db. injection Da as ->. injection Db as E. rewrite (Hinj a b) in Ea by done.
    rewrite Ea in Eb. injection Eb as E'. apply (Hinj (Z.of_nat i) (Z.of_nat j)) in E'; lia.
Qed.

(** *** Texts *)
Lemma subst_char_inverse (table table' : list ascii) c :
  (forall k, 0 <= k < 26 -> exists j, 0 <= j < 26 /\ table !! Z.to_nat k = Some (letter j) /\ table' !! Z.to_nat j = Some (letter k)) ->
  subst_char table' (subst_char table c) = c.
Proof.
  intros H. destruct (char_cases c) as [(k & Hk & ->)|[(k & Hk & ->)|[Hu Hl]]].
  - destruct (H k Hk) as (j & Hj & Ht & Ht'). by rewrite (subst_upper table k (letter j)), (subst_upper table' j (letter k)).
  - destruct (H k Hk) as (j & Hj & Ht & Ht'). by rewrite (subst_lower table k j), (subst_lower table' j k).
  - unfold subst_char. by rewrite Hu, Hl, Hu, Hl.
Qed.

Lemma wf_inverse cipher c : wf cipher ->
  subst_char (decode_map_ cipher) (subst_char (encode_map_ cipher) c) = c /\ subst_char (encode_map_ cipher) (subst_char (decode_map_ cipher) c) = c.
Proof.
  intros Hw. destruct (decode_bijective cipher Hw) as [Hb Hiff]. pose proof (wf_encode _ Hw) as Hb'. split; apply subst_char_inverse; intros k Hk.
  - destruct (upper_entry _ k Hb' Hk) as (j & Hj & Hc). exists j. split_and!; [lia|lia|done|by apply Hiff].
  - destruct (upper_entry _ k Hb Hk) as (j & Hj & Hc). exists j. split_and!; [lia|lia|done|by apply Hiff].
Qed.

Lemma fmap_inverse {A} (f g : A -> A) (l : list A) : (forall x, g (f x) = x) -> g <$> (f <$> l) = l.
Proof. intros H. rewrite <- list_fmap_compose. rewrite <- (list_fmap_id l) at 2. apply list_fmap_ext. intros ? x _. apply H. Qed.

Lemma texts_ok cipher text : wf cipher ->
  Encrypt cipher text = Ret (subst_char (encode_map_ cipher) <$> text) /\ Decrypt cipher text = Ret (subst_char (decode_map_ cipher) <$> text).
Proof.
  intros Hw. split; apply mapM_Ret; intros c _; apply TransformChar_ok; [apply Hw|by apply decode_bijective].
Qed.

(** The character classes are kept, and what is no letter. *)
Definition same_shape (a b : ascii) : Prop := isupper a = isupper b /\ islower a = islower b /\ (isalpha a = false -> b = a).

Lemma subst_char_shape table c : bijective table -> same_shape c (subst_char table c).
Proof.
  intros Hb. unfold same_shape, isalpha. destruct (char_cases c) as [(k & Hk & ->)|[(k & Hk & ->)|[Hu Hl]]].
  - destruct (upper_entry table k Hb Hk) as (j & Hj & Hc). rewrite (subst_upper _ _ _ Hc Hk).
    destruct (upper_class k Hk) as (-> & -> & _), (upper_class j Hj) as (-> & -> & _). done.
  - destruct (upper_entry table k Hb Hk) as (j & Hj & Hc). rewrite (subst_lower _ _ _ Hc Hk Hj).
    destruct (lower_class k Hk) as (-> & -> & _), (lower_class j Hj) as (-> & -> & _). done.
  - unfold subst_char. rewrite Hu, Hl. done.
Qed.

Lemma of_mapping_ok mapping : Forall proper_entry mapping ->
  (bijective (override mapping kAlphabet) /\ exists cipher, of_mapping mapping = Ret cipher /\ encode_map_ cipher = override mapping kAlphabet /\ wf cipher) \/
  (~ bijective (override mapping kAlphabet) /\ of_mapping mapping = Throw invalid_argument).
Proof.
  intros Hm. unfold of_mapping. destruct (apply_mapping_ok mapping Hm kAlphabet) as (-> & Hl & Hlow); [done|apply kAlphabet_not_lower|]. ret_step. by apply validate_ok.
Qed.

Lemma subst_rot shift c : subst_char (rot shift <$> kAlphabet) c = rot shift c.
Proof.
  pose proof (rot_bijective shift) as Hb. destruct (char_cases c) as [(k & Hk & ->)|[(k & Hk & ->)|[Hu Hl]]].
  - apply subst_upper; [|done]. rewrite list_lookup_fmap, lookup_kAlphabet by lia. cbn. by rewrite Z2Nat.id by lia.
  - rewrite rot_lower by done. apply subst_lower; [|done|apply Z.mod_pos_bound; lia]. rewrite list_lookup_fmap, lookup_kAlphabet by lia. cbn. by rewrite Z2Nat.id, rot_upper by lia.
  - unfold subst_char, rot. by rewrite Hu, Hl.
Qed.
End SubstitutionLaws.

(** ** The properties *)
(** for every shift, [CaesarCipher] rejects exactly the texts with
    non-ASCII characters; on the others it moves every letter [shift] places down the
    alphabet with its case, decryption undoes encryption and encryption decryption,
    and the texts it produces are ones it accepts. *)
Theorem caesar_roundtrip (shift : Z) (text : list ascii) :
  if Caesar.IsValidInput text then
    Caesar.Encrypt_with text shift = Ret (rot shift <$> text) /\ Caesar.Decrypt_with (rot shift <$> text) shift = Ret text /\
    (ciphertext ← Caesar.Decrypt_with text shift; Caesar.Encrypt_with ciphertext shift) = Ret text
  else Caesar.Encrypt_with text shift = Throw invalid_argument /\ Caesar.Decrypt_with text shift = Throw invalid_argument.
Proof.
  rewrite !CaesarLaws.Encrypt_ok, !CaesarLaws.Decrypt_ok, CaesarLaws.rot_valid. destruct (Caesar.IsValidInput text) eqn:E; [|done].
  rewrite rot_inv. split; [done|]. split; [done|]. ret_step. rewrite CaesarLaws.Encrypt_ok, CaesarLaws.rot_valid, E. rewrite <- (rot_inv (- shift) text) at 2.
  by rewrite Z.opp_involutive.
Qed.

(** whichever constructor made it, [SubstitutionCipher] decrypts what it
    encrypted and encrypts what it decrypted, without undefined behaviour on any
    bytes, keeping the length, the case of letters and all other characters. *)
Theorem substitution_roundtrip (cipher : Substitution.SubstitutionCipher) (text : list ascii) :
  (exists mapping, Forall SubstitutionLaws.proper_entry mapping /\ Substitution.of_mapping mapping = Ret cipher) \/
  (exists shift, Substitution.of_shift shift = Ret cipher) \/
  (exists shuffle seed, shuffle seed Substitution.kAlphabet ≡ₚ Substitution.kAlphabet /\ Substitution.of_seed shuffle seed = Ret cipher) ->
  exists encrypted decrypted, Substitution.Encrypt cipher text = Ret encrypted /\ Substitution.Decrypt cipher encrypted = Ret text /\
    Substitution.Decrypt cipher text = Ret decrypted /\ Substitution.Encrypt cipher decrypted = Ret text /\
    Forall2 SubstitutionLaws.same_shape text encrypted.
Proof.
  intros Hc. assert (SubstitutionLaws.wf cipher) as Hw.
  { destruct Hc as [(m & Hm & E)|[(s & E)|(f & s & HP & E)]].
    - destruct (SubstitutionLaws.of_mapping_ok m Hm) as [[_ (c & E' & _ & Hw)]|[_ E']]; congruence.
    - destruct (SubstitutionLaws.of_shift_ok s) as (c & E' & Hw & _). congruence.
    - destruct (SubstitutionLaws.of_seed_ok f s HP) as (c & E' & Hw & _). congruence. }
  exists (SubstitutionLaws.subst_char (Substitution.encode_map_ cipher) <$> text), (SubstitutionLaws.subst_char (Substitution.decode_map_ cipher) <$> text).
  rewrite !(proj1 (SubstitutionLaws.texts_ok cipher _ Hw)), !(proj2 (SubstitutionLaws.texts_ok cipher _ Hw)).
  rewrite !SubstitutionLaws.fmap_inverse by (intros x; by apply SubstitutionLaws.wf_inverse). do 4 (split; [done|]).
  apply Forall2_fmap_r, Forall_Forall2_diag, Forall_forall. intros c _. by apply SubstitutionLaws.subst_char_shape, Hw.
Qed.

(** a mapping from letters to ASCII characters is accepted exactly when the
    table it leaves, identity where it says nothing, is a permutation of the
    alphabet; otherwise the constructor throws. *)
Theorem substitution_mapping_spec (mapping : list (ascii * ascii)) : Forall SubstitutionLaws.proper_entry mapping ->
  let table := SubstitutionLaws.override mapping Substitution.kAlphabet in
  (table ≡ₚ Substitution.kAlphabet /\ exists cipher, Substitution.of_mapping mapping = Ret cipher /\ Substitution.GetMapping cipher = table) \/
  (~ table ≡ₚ Substitution.kAlphabet /\ Substitution.of_mapping mapping = Throw invalid_argument).
Proof.
  intros Hm table. destruct (SubstitutionLaws.of_mapping_ok mapping Hm) as [[Hb (c & E & He & _)]|[Hb E]]; [left|right]; [|done]. split; [done|]. by exists c.
Qed.

(** the substitution cipher built from a shift always exists, and on every text
    the Caesar cipher accepts the two encrypt and decrypt alike. *)
Theorem substitution_caesar_equivalent (shift : Z) : exists cipher, Substitution.of_shift shift = Ret cipher /\
  forall text, Caesar.IsValidInput text = true ->
    Substitution.Encrypt cipher text = Caesar.Encrypt_with text shift /\ Substitution.Decrypt cipher text = Caesar.Decrypt_with text shift.
Proof.
  destruct (SubstitutionLaws.of_shift_ok shift) as (cipher & E & Hw & He). exists cipher. split; [done|]. intros text Ht.
  rewrite CaesarLaws.Encrypt_ok, CaesarLaws.Decrypt_ok, Ht. destruct (SubstitutionLaws.texts_ok cipher text Hw) as [-> ->].
  assert (forall c, SubstitutionLaws.subst_char (Substitution.encode_map_ cipher) c = rot shift c) as Hr by (intros c; rewrite He; apply SubstitutionLaws.subst_rot).
  split; f_equal; apply list_fmap_ext; intros _ c _; [done|].
  rewrite <- (rot_0 c), <- (Z.add_opp_diag_l shift), <- rot_add at 1. rewrite <- Hr. by apply SubstitutionLaws.wf_inverse.
Qed.

Section classical_cipher_witnesses.
Local Open Scope string_scope.

#[local] Definition chars_of (s : string) : list ascii := String.list_ascii_of_string s.

Example caesar_hello : Caesar.Encrypt_with (chars_of "Hello, World!") 3 = Ret (chars_of "Khoor, Zruog!") /\
  Caesar.Encrypt_with (chars_of "Hello, World!") INT32_MIN = Caesar.Encrypt_with (chars_of "Hello, World!") 2.
Proof. split; reflexivity. Qed.

#[local] Definition swap_ab : list (ascii * ascii) := [("a", "B"); ("B", "a")]%char.

#[local] Lemma swap_proper : Forall SubstitutionLaws.proper_entry swap_ab.
Proof. repeat constructor. Qed.

Lemma substitution_roundtrip_witness : exists cipher, Substitution.of_mapping swap_ab = Ret cipher /\
  exists encrypted, Substitution.Encrypt cipher (chars_of "Cab-BAc") = Ret encrypted /\ Substitution.Decrypt cipher encrypted = Ret (chars_of "Cab-BAc") /\
    encrypted = chars_of "Cba-ABc".
Proof.
  destruct (Substitution.of_mapping swap_ab) as [cipher|e| |] eqn:E; [|vm_compute in E; discriminate..]. exists cipher. split; [reflexivity|].
  destruct (substitution_roundtrip cipher (chars_of "Cab-BAc")) as (enc & dec & He & Hd & _).
  - left. exists swap_ab. split; [exact swap_proper|exact E].
  - exists enc. split; [exact He|]. split; [exact Hd|]. vm_compute in E. injection E as <-. vm_compute in He. injection He as <-. reflexivity.
Defined.

Lemma substitution_caesar_equivalent_witness : exists cipher, Substitution.of_shift 29 = Ret cipher /\
  Substitution.Encrypt cipher (chars_of "Hello") = Ret (chars_of "Khoor") /\ Substitution.Decrypt cipher (chars_of "Khoor") = Caesar.Decrypt_with (chars_of "Khoor") 29.
Proof.
  destruct (substitution_caesar_equivalent 29) as (cipher & E & H). exists cipher. split; [exact E|].
  destruct (H (chars_of "Hello") eq_refl) as [-> _]. split; [reflexivity|]. by destruct (H (chars_of "Khoor") eq_refl) as [_ ->].
Defined.

(** The table of the class documentation is not accepted: letters it leaves out stand for themselves. *)
Lemma substitution_mapping_spec_witness :
  Substitution.of_mapping [("A", "Q"); ("B", "W"); ("a", "q"); ("b", "w")]%char = Throw invalid_argument.
Proof.
  destruct (substitution_mapping_spec [("A", "Q"); ("B", "W"); ("a", "q"); ("b", "w")]%char) as [[_ (cipher & E & _)]|[_ E]].
  - repeat constructor.
  - vm_compute in E. discriminate.
  - exact E.
Defined.

(** A key that is no letter writes outside the table. *)
Lemma substitution_mapping_out_of_range : Substitution.of_mapping [("1", "A")]%char = Undef.
Proof. reflexivity. Qed.
End classical_cipher_witnesses.
