(* ===== verification/StreamCipher.v ===== *)
(** * Stream ciphers ([crypto/cipher/StreamCipher.hpp], [crypto/cipher/XorBitCipher])

    The abstract class [StreamCipher] is an interface with its laws: an initialised
    object holds a keystream that every call consumes from where the previous one
    stopped.  Against the laws alone, a second object with the same key and nonce
    decrypts what the first one encrypted, however either side splits the data.
    [XorBitCipher] discharges the laws and refines a key with a bit position.

    A byte is a [Z]; [transform] applies its function from the first element on. *)

From S2P Require Import Prelude Refinement.

(** ** [class StreamCipher] *)
Class StreamCipher (C : Type) := {
  initialize : C -> list Z -> list Z -> outcome C;
  encrypt : C -> list Z -> outcome (list Z * C);
  decrypt : C -> list Z -> outcome (list Z * C);
  generateKeystream : C -> nat -> outcome (list Z * C);
  reset : C -> outcome C;
  isInitialized : C -> bool;
}.

(** The first [n] bytes of a keystream from place [i] on, and data under it. *)
Definition stretch (ks : nat -> Z) (i n : nat) : list Z := ks <$> seq i n.
Definition masked (ks : nat -> Z) (i : nat) (data : list Z) : list Z := zip_with Z.lxor data (stretch ks i (length data)).

(** [at_ c ks i]: the object [c] consumes the keystream [ks] from place [i] on. *)
Class StreamCipherLaws (C : Type) `{!StreamCipher C} := {
  stream : list Z -> list Z -> nat -> Z;
  at_ : C -> (nat -> Z) -> nat -> Prop;
  initialize_law : forall c key nonce c', initialize c key nonce = Ret c' -> at_ c' (stream key nonce) 0;
  initialized_law : forall c ks i, at_ c ks i -> isInitialized c = true;
  encrypt_law : forall c ks i data, at_ c ks i -> exists c', encrypt c data = Ret (masked ks i data, c') /\ at_ c' ks (i + length data);
  decrypt_law : forall c ks i data, at_ c ks i -> exists c', decrypt c data = Ret (masked ks i data, c') /\ at_ c' ks (i + length data);
  keystream_law : forall c ks i n, at_ c ks i -> exists c', generateKeystream c n = Ret (stretch ks i n, c') /\ at_ c' ks (i + n);
  reset_law : forall c ks i, at_ c ks i -> exists c', reset c = Ret c' /\ at_ c' ks 0;
  uninitialized_law : forall c data n, isInitialized c = false ->
    encrypt c data = Throw runtime_error /\ decrypt c data = Throw runtime_error /\ generateKeystream c n = Throw runtime_error;
}.

(** Data processed in several calls. *)
Fixpoint each {C} (op : C -> list Z -> outcome (list Z * C)) (c : C) (chunks : list (list Z)) : outcome (list (list Z) * C) :=
  match chunks with
  | [] => Ret ([], c)
  | chunk :: chunks => '(out, c) ← op c chunk; '(outs, c) ← each op c chunks; Ret (out :: outs, c)
  end.

(** ** [class XorBitCipher] *)
Definition BITS_PER_BYTE : nat := 8.
Definition MSB_POSITION : nat := 7.

Record XorBitCipher := mkXor { key_stream_ : list Z; key_pos_ : nat; bit_pos_ : nat }.
Implicit Types (c : XorBitCipher) (key nonce data : list Z) (bits : list bool).

Definition xor_default : XorBitCipher := mkXor [] 0 0.
Definition xor_of_key key : XorBitCipher := mkXor key 0 0.

Definition hasKey c : bool := bool_decide (key_stream_ c <> []).

Definition validateInitialized c : outcome unit := throw_if (negb (hasKey c)) runtime_error.

Definition xor_initialize c key nonce : outcome XorBitCipher :=
  if decide (key = []) then Throw invalid_argument else Ret (mkXor key 0 0).

Definition nextKeyByte c : outcome (Z * XorBitCipher) :=
  if decide (key_stream_ c = []) then Throw invalid_argument else
  byte ← vget (key_stream_ c) (key_pos_ c);
  Ret (byte, mkXor (key_stream_ c) ((key_pos_ c + 1) mod length (key_stream_ c)) 0).

Definition nextKeyBit c : outcome (bool * XorBitCipher) :=
  if decide (key_stream_ c = []) then Throw invalid_argument else
  current_byte ← vget (key_stream_ c) (key_pos_ c);
  let bit := bool_decide (Z.land (Z.shiftr current_byte (Z.of_nat (MSB_POSITION - bit_pos_ c))) 1 <> 0%Z) in
  if decide (BITS_PER_BYTE <= bit_pos_ c + 1) then Ret (bit, mkXor (key_stream_ c) ((key_pos_ c + 1) mod length (key_stream_ c)) 0)
  else Ret (bit, mkXor (key_stream_ c) (key_pos_ c) (bit_pos_ c + 1)).

Fixpoint process c data : outcome (list Z * XorBitCipher) :=
  match data with
  | [] => Ret ([], c)
  | byte :: data =>
    '(k, c) ← nextKeyByte c;
    '(result, c) ← process c data;
    Ret (Z.lxor byte k :: result, c)
  end.

(** The bytes of the buffer before [i] have been replaced; the loop does the rest. *)
Fixpoint processInPlace_loop c data (i fuel : nat) : outcome (list Z * XorBitCipher) :=
  match fuel with
  | 0 => Ret (data, c)
  | S fuel =>
    '(k, c) ← nextKeyByte c;
    byte ← vget data i;
    data ← vset data i (Z.lxor byte k);
    processInPlace_loop c data (S i) fuel
  end.

Definition processInPlace c data : outcome (list Z * XorBitCipher) := processInPlace_loop c data 0 (length data).

Fixpoint processBits c bits : outcome (list bool * XorBitCipher) :=
  match bits with
  | [] => Ret ([], c)
  | bit :: bits =>
    '(k, c) ← nextKeyBit c;
    '(result, c) ← processBits c bits;
    Ret (xorb bit k :: result, c)
  end.

Definition xor_encrypt c data : outcome (list Z * XorBitCipher) := _ ← validateInitialized c; process c data.
Definition xor_decrypt c data : outcome (list Z * XorBitCipher) := _ ← validateInitialized c; process c data.

Fixpoint keystream_loop c (length : nat) : outcome (list Z * XorBitCipher) :=
  match length with
  | 0 => Ret ([], c)
  | S length => '(k, c) ← nextKeyByte c; '(stream, c) ← keystream_loop c length; Ret (k :: stream, c)
  end.

Definition xor_generateKeystream c (length : nat) : outcome (list Z * XorBitCipher) :=
  _ ← validateInitialized c; keystream_loop c length.

Definition xor_reset c : XorBitCipher := mkXor (key_stream_ c) 0 0.
Definition getCurrentPosition c : nat := key_pos_ c.
Definition getCurrentBitPosition c : nat := bit_pos_ c.

(** The linear congruential generator of [createWithPseudoRandomKey]. *)
Fixpoint random_key (key_length : nat) (state : Z) : list Z :=
  match key_length with
  | 0 => []
  | S key_length =>
    let state := u32 (u32 (state * 1103515245) + 12345) in
    Z.land (Z.shiftr state 16) 255 :: random_key key_length state
  end.

Definition createWithPseudoRandomKey (key_length : nat) : XorBitCipher :=
  xor_of_key (random_key key_length (u32 (u64 (Z.of_nat key_length * 2654435761)))).

#[global] Instance xor_stream_cipher : StreamCipher XorBitCipher := {|
  initialize := xor_initialize;
  encrypt := xor_encrypt;
  decrypt := xor_decrypt;
  generateKeystream := xor_generateKeystream;
  reset := fun c => Ret (xor_reset c);
  isInitialized := hasKey;
|}.

(** ** Keystreams *)
Lemma stretch_S ks i n : stretch ks i (S n) = ks i :: stretch ks (S i) n.
Proof. done. Qed.

Lemma length_stretch ks i n : length (stretch ks i n) = n.
Proof. unfold stretch. by rewrite length_fmap, length_seq. Qed.

Lemma masked_cons ks i x data : masked ks i (x :: data) = Z.lxor x (ks i) :: masked ks (S i) data.
Proof. done. Qed.

Lemma length_masked ks i data : length (masked ks i data) = length data.
Proof. unfold masked. rewrite length_zip_with, length_stretch. lia. Qed.

Lemma masked_app ks data1 : forall i data2, masked ks i (data1 ++ data2) = masked ks i data1 ++ masked ks (i + length data1) data2.
Proof.
  induction data1 as [|x data1 IH]; intros i data2; [cbn; by rewrite Nat.add_0_r|]. cbn [app length]. rewrite !masked_cons, IH. cbn [app]. by rewrite Nat.add_succ_r.
Qed.

Lemma masked_masked ks data : forall i, masked ks i (masked ks i data) = data.
Proof.
  induction data as [|x data IH]; intros i; [done|]. rewrite masked_cons, masked_cons, IH. by rewrite Z.lxor_assoc, Z.lxor_nilpotent, Z.lxor_0_r.
Qed.

(** ** Clients of the interface *)
Section clients.
Context {C : Type} `{!StreamCipher C, !StreamCipherLaws C}.

(** Processing in chunks masks the concatenation. *)
Lemma each_ok (op : C -> list Z -> outcome (list Z * C)) (ks : nat -> Z) :
  (forall (c : C) i data, at_ c ks i -> exists c' : C, op c data = Ret (masked ks i data, c') /\ at_ c' ks (i + length data)) ->
  forall chunks (c : C) i, at_ c ks i -> exists outs (c' : C), each op c chunks = Ret (outs, c') /\ concat outs = masked ks i (concat chunks) /\
    length <$> outs = length <$> chunks /\ at_ c' ks (i + length (concat chunks)).
Proof.
  intros Hop. induction chunks as [|chunk chunks IH]; intros c i Hc; cbn [each].
  { exists [], c. split_and!; [done|done|done|]. cbn. by rewrite Nat.add_0_r. }
  destruct (Hop c i chunk Hc) as (c1 & -> & Hc1). ret_step. destruct (IH c1 _ Hc1) as (outs & c2 & -> & Ho & Hl & Hc2). ret_step.
  exists (masked ks i chunk :: outs), c2. cbn [concat]. rewrite masked_app, Ho, length_app, Nat.add_assoc. split_and!; [done|done| |done].
  by rewrite !fmap_cons, length_masked, Hl.
Qed.
End clients.

(** with any implementation of [StreamCipher], an object initialised with a key and
    a nonce encrypts any sequence of chunks to chunks of the same lengths, and a second
    object initialised with the same key and nonce decrypts the concatenation back,
    however it is split on that side; reset brings either object back to the start. *)
Theorem stream_cipher_separate_instances {C : Type} `{!StreamCipher C, !StreamCipherLaws C} (a b a1 b1 : C) (key nonce : list Z) (plain : list (list Z)) :
  initialize a key nonce = Ret a1 -> initialize b key nonce = Ret b1 ->
  exists cipher a2, each encrypt a1 plain = Ret (cipher, a2) /\ length <$> cipher = length <$> plain /\
    (forall received, concat received = concat cipher ->
      exists texts b2, each decrypt b1 received = Ret (texts, b2) /\ concat texts = concat plain) /\
    exists a3 texts a4, reset a2 = Ret a3 /\ each decrypt a3 cipher = Ret (texts, a4) /\ concat texts = concat plain.
Proof.
  intros Ha%initialize_law Hb%initialize_law. pose proof (fun (c : C) i data => encrypt_law c (stream key nonce) i data) as He. pose proof (fun (c : C) i data => decrypt_law c (stream key nonce) i data) as Hd.
  destruct (each_ok encrypt _ He plain a1 0 Ha) as (cipher & a2 & E & Hc & Hl & Ha2). exists cipher, a2. split; [done|]. split; [done|]. split.
  - intros received Hr. destruct (each_ok decrypt _ Hd received b1 0 Hb) as (texts & b2 & E' & Ht & _). exists texts, b2. split; [done|]. by rewrite Ht, Hr, Hc, masked_masked.
  - destruct (reset_law a2 _ _ Ha2) as (a3 & Er & Ha3). destruct (each_ok decrypt _ Hd cipher a3 0 Ha3) as (texts & a4 & E' & Ht & _). exists a3, texts, a4.
    split; [done|]. split; [done|]. by rewrite Ht, Hc, masked_masked.
Qed.

(** ** The xor cipher *)
(** The repeated key, by byte and by bit (most significant first). *)
Definition key_byte key (i : nat) : Z := default 0%Z (key !! (i mod length key)).
Definition key_bit key (i : nat) : bool := Z.testbit (key_byte key (i / 8)) (Z.of_nat (7 - i mod 8)).

(** A key and the number of bits consumed; the code keeps the position within the key. *)
Definition xor_state : Type := list Z * nat.

Definition xor_rep c (s : xor_state) : Prop :=
  key_stream_ c = s.1 /\ key_pos_ c = (s.2 / 8) mod length s.1 /\ bit_pos_ c = s.2 mod 8 /\ (s.1 = [] -> s.2 = 0).

(** A byte operation drops what is left of a byte whose bits were partly consumed. *)
Definition advance (p n : nat) : nat := if decide (n = 0) then p else 8 * (p / 8 + n).

Lemma advance_succ p n : advance (8 * (p / 8 + 1)) n = advance p (S n).
Proof.
  unfold advance. rewrite (decide_False (P := S n = 0)) by done. rewrite (Nat.mul_comm 8 (p / 8 + 1)), Nat.div_mul by done. case_decide; lia.
Qed.

Lemma mod_add_1 a n : n <> 0 -> (a mod n + 1) mod n = (a + 1) mod n.
Proof. intros Hn. by rewrite Nat.Div0.add_mod_idemp_l. Qed.

Lemma xor_pos c s : xor_rep c s -> s.1 <> [] -> exists byte, key_stream_ c !! key_pos_ c = Some byte /\ key_byte s.1 (s.2 / 8) = byte.
Proof.
  intros (E1 & E2 & _) Hk. rewrite E1, E2. assert (length s.1 <> 0) by (by destruct s.1).
  destruct (lookup_lt_is_Some_2 s.1 ((s.2 / 8) mod length s.1)) as [byte Hb]; [by apply Nat.mod_upper_bound|]. exists byte. split; [done|]. unfold key_byte. by rewrite Hb.
Qed.

Lemma nextKeyByte_ok c key p : xor_rep c (key, p) -> key <> [] ->
  exists c', nextKeyByte c = Ret (key_byte key (p / 8), c') /\ xor_rep c' (key, 8 * (p / 8 + 1)).
Proof.
  intros Hr Hk. destruct (xor_pos c _ Hr Hk) as (byte & Hb & Hkb). destruct Hr as (E1 & E2 & E3 & _). cbn [fst snd] in *. unfold nextKeyByte.
  rewrite decide_False by congruence. rewrite (vget_Some _ _ _ Hb). ret_step. rewrite Hkb. eexists. split; [done|].
  assert (length key <> 0) by (by destruct key). split_and!; cbn [key_stream_ key_pos_ bit_pos_ fst snd]; [done| | |done].
  - rewrite E1, E2, mod_add_1 by done. f_equal. rewrite (Nat.mul_comm 8), Nat.div_mul; done.
  - by rewrite (Nat.mul_comm 8), Nat.Div0.mod_mul.
Qed.

Lemma land_1_testbit z k : (0 <= k)%Z -> bool_decide (Z.land (Z.shiftr z k) 1 <> 0%Z) = Z.testbit z k.
Proof.
  intros Hk. rewrite (Z.land_ones _ 1 ltac:(lia) : Z.land _ 1 = _). change (2 ^ 1)%Z with 2%Z. rewrite Z.shiftr_div_pow2 by done.
  rewrite Z.testbit_odd, Z.shiftr_div_pow2 by done. rewrite Zmod_odd. by destruct (Z.odd _).
Qed.

Lemma nextKeyBit_ok c key p : xor_rep c (key, p) -> key <> [] ->
  exists c', nextKeyBit c = Ret (key_bit key p, c') /\ xor_rep c' (key, p + 1).
Proof.
  intros Hr Hk. destruct (xor_pos c _ Hr Hk) as (byte & Hb & Hkb). destruct Hr as (E1 & E2 & E3 & _). cbn [fst snd] in *. unfold nextKeyBit.
  rewrite decide_False by congruence. rewrite (vget_Some _ _ _ Hb). ret_step. rewrite land_1_testbit by lia. unfold key_bit, MSB_POSITION. rewrite Hkb, E3.
  assert (length key <> 0) by (by destruct key). pose proof (Nat.div_mod_eq p 8) as Hp. pose proof (Nat.mod_upper_bound p 8 ltac:(lia)) as Hm.
  unfold BITS_PER_BYTE. rewrite E1, E2. destruct (decide (8 <= p mod 8 + 1)); eexists; (split; [done|]); split_and!; cbn [key_stream_ key_pos_ bit_pos_ fst snd]; try done.
  - rewrite mod_add_1 by done. f_equal. apply (Nat.div_unique _ _ _ 0); lia.
  - apply (Nat.mod_unique _ _ (p / 8 + 1)); lia.
  - f_equal. apply (Nat.div_unique _ _ _ (p mod 8 + 1)); lia.
  - apply (Nat.mod_unique _ _ (p / 8)); lia.
Qed.

Lemma process_ok key data : forall c p, xor_rep c (key, p) -> key <> [] ->
  exists c', process c data = Ret (masked (key_byte key) (p / 8) data, c') /\ xor_rep c' (key, advance p (length data)).
Proof.
  induction data as [|byte data IH]; intros c p Hr Hk; cbn [process]; [by exists c|].
  destruct (nextKeyByte_ok c key p Hr Hk) as (c1 & -> & Hr1). ret_step. destruct (IH c1 _ Hr1 Hk) as (c2 & -> & Hr2). ret_step. exists c2.
  rewrite advance_succ in Hr2. split; [|done]. rewrite masked_cons, (Nat.mul_comm 8), Nat.div_mul by done. by rewrite Nat.add_1_r.
Qed.

Lemma keystream_ok key n : forall c p, xor_rep c (key, p) -> key <> [] ->
  exists c', keystream_loop c n = Ret (stretch (key_byte key) (p / 8) n, c') /\ xor_rep c' (key, advance p n).
Proof.
  induction n as [|n IH]; intros c p Hr Hk; cbn [keystream_loop]; [by exists c|].
  destruct (nextKeyByte_ok c key p Hr Hk) as (c1 & -> & Hr1). ret_step. destruct (IH c1 _ Hr1 Hk) as (c2 & -> & Hr2). ret_step. exists c2.
  rewrite advance_succ in Hr2. split; [|done]. rewrite stretch_S, (Nat.mul_comm 8), Nat.div_mul by done. by rewrite Nat.add_1_r.
Qed.

Lemma processInPlace_loop_ok key fuel : forall c data i p, xor_rep c (key, p) -> key <> [] -> i + fuel = length data ->
  exists c', processInPlace_loop c data i fuel = Ret (take i data ++ masked (key_byte key) (p / 8) (drop i data), c') /\ xor_rep c' (key, advance p fuel).
Proof.
  induction fuel as [|fuel IH]; intros c data i p Hr Hk Hi; cbn [processInPlace_loop].
  { exists c. split; [|done]. rewrite take_ge, drop_ge by lia. unfold masked. cbn. by rewrite app_nil_r. }
  destruct (nextKeyByte_ok c key p Hr Hk) as (c1 & -> & Hr1). ret_step. destruct (vget_lt data i) as (byte & Hb & ->); [lia|]. ret_step. rewrite vset_lt by lia. ret_step.
  destruct (IH c1 (<[i:=Z.lxor byte (key_byte key (p / 8))]> data) (S i) _ Hr1 Hk) as (c2 & -> & Hr2); [rewrite length_insert; lia|]. exists c2.
  rewrite advance_succ in Hr2. split; [|done]. f_equal. f_equal. rewrite (drop_S data byte i Hb), masked_cons, (Nat.mul_comm 8), Nat.div_mul by done.
  rewrite (take_S_r _ i (Z.lxor byte (key_byte key (p / 8)))) by (apply list_lookup_insert_eq; lia). rewrite take_insert_ge, drop_insert_lt, <- app_assoc, Nat.add_1_r by lia. done.
Qed.

Lemma processBits_ok key bits : forall c p, xor_rep c (key, p) -> key <> [] ->
  exists c', processBits c bits = Ret (zip_with xorb bits (key_bit key <$> seq p (length bits)), c') /\ xor_rep c' (key, p + length bits).
Proof.
  induction bits as [|bit bits IH]; intros c p Hr Hk; cbn [processBits]; [exists c; cbn; by rewrite Nat.add_0_r|].
  destruct (nextKeyBit_ok c key p Hr Hk) as (c1 & -> & Hr1). ret_step. destruct (IH c1 _ Hr1 Hk) as (c2 & -> & Hr2). ret_step. exists c2.
  cbn [length seq]. replace (p + S (length bits)) with (p + 1 + length bits) by lia. split; [|done]. by rewrite <- (Nat.add_1_r p).
Qed.

(** *** The laws of the interface *)
Definition xor_at c (ks : nat -> Z) (i : nat) : Prop :=
  exists key p, xor_rep c (key, p) /\ key <> [] /\ p / 8 = i /\ ks = key_byte key.

Lemma advance_div p n : advance p n / 8 = p / 8 + n.
Proof. unfold advance. case_decide as Hn; [by rewrite Hn, Nat.add_0_r|]. by rewrite (Nat.mul_comm 8), Nat.div_mul. Qed.

Lemma xor_rep_ready c key p : xor_rep c (key, p) -> key <> [] -> validateInitialized c = Ret ().
Proof. intros (E & _) Hk. cbn in E. unfold validateInitialized, hasKey. rewrite E. by rewrite bool_decide_true. Qed.

Lemma xor_rep_new key : xor_rep (mkXor key 0 0) (key, 0).
Proof. split_and!; [done| |done|done]. symmetry. apply Nat.Div0.mod_0_l. Qed.

Lemma xor_reset_ok c key p : xor_rep c (key, p) -> xor_rep (xor_reset c) (key, 0).
Proof. intros (E & _). cbn in E. unfold xor_reset. rewrite E. apply xor_rep_new. Qed.

Lemma xor_encrypt_at c ks i data : xor_at c ks i -> exists c', xor_encrypt c data = Ret (masked ks i data, c') /\ xor_at c' ks (i + length data).
Proof.
  intros (key & p & Hr & Hk & <- & ->). unfold xor_encrypt. rewrite (xor_rep_ready _ _ _ Hr Hk). ret_step.
  destruct (process_ok key data c p Hr Hk) as (c' & -> & Hr'). exists c'. split; [done|]. exists key, (advance p (length data)). split_and!; [done|done|apply advance_div|done].
Qed.

Lemma xor_keystream_at c ks i n : xor_at c ks i -> exists c', xor_generateKeystream c n = Ret (stretch ks i n, c') /\ xor_at c' ks (i + n).
Proof.
  intros (key & p & Hr & Hk & <- & ->). unfold xor_generateKeystream. rewrite (xor_rep_ready _ _ _ Hr Hk). ret_step.
  destruct (keystream_ok key n c p Hr Hk) as (c' & -> & Hr'). exists c'. split; [done|]. exists key, (advance p n). split_and!; [done|done|apply advance_div|done].
Qed.

Lemma xor_initialize_at c key nonce c' : xor_initialize c key nonce = Ret c' -> xor_at c' (key_byte key) 0.
Proof. unfold xor_initialize. case_decide; [done|]. intros [= <-]. exists key, 0. split_and!; [apply xor_rep_new|done..]. Qed.

Lemma xor_initialized c ks i : xor_at c ks i -> hasKey c = true.
Proof. intros (key & p & (E & _) & Hk & _). cbn in E. unfold hasKey. rewrite E. by apply bool_decide_true. Qed.

Lemma xor_reset_at c ks i : xor_at c ks i -> exists c', Ret (xor_reset c) = Ret c' /\ xor_at c' ks 0.
Proof. intros (key & p & Hr & Hk & _ & ->). eexists. split; [done|]. exists key, 0. split_and!; [by apply (xor_reset_ok c key p)|done..]. Qed.

Lemma xor_uninitialized c data n : hasKey c = false ->
  xor_encrypt c data = Throw runtime_error /\ xor_decrypt c data = Throw runtime_error /\ xor_generateKeystream c n = Throw runtime_error.
Proof. intros Hh. unfold xor_encrypt, xor_decrypt, xor_generateKeystream, validateInitialized. by rewrite Hh. Qed.

#[global] Instance xor_stream_cipher_laws : StreamCipherLaws XorBitCipher := {|
  stream key nonce := key_byte key;
  at_ := xor_at;
  initialize_law := xor_initialize_at;
  initialized_law := xor_initialized;
  encrypt_law := xor_encrypt_at;
  decrypt_law := xor_encrypt_at;
  keystream_law := xor_keystream_at;
  reset_law := xor_reset_at;
  uninitialized_law := xor_uninitialized;
|}.

(** *** The contract *)
Inductive xor_op :=
| XInitialize key nonce
| XEncrypt data
| XDecrypt data
| XKeystream (n : nat)
| XReset
| XProcess data
| XProcessInPlace data
| XProcessBits bits
| XPosition
| XBitPosition
| XInitialized.

Inductive xor_obs :=
| XDone
| XBytes (l : list Z)
| XBits (l : list bool)
| XNum (n : nat)
| XBool (b : bool).

Definition xor_step c (op : xor_op) : outcome (XorBitCipher * xor_obs) :=
  let bytes (m : outcome (list Z * XorBitCipher)) := '(l, c) ← m; Ret (c, XBytes l) in
  match op with
  | XInitialize key nonce => c ← initialize c key nonce; Ret (c, XDone)
  | XEncrypt data => bytes (encrypt c data)
  | XDecrypt data => bytes (decrypt c data)
  | XKeystream n => bytes (generateKeystream c n)
  | XReset => c ← reset c; Ret (c, XDone)
  | XProcess data => bytes (process c data)
  | XProcessInPlace data => bytes (processInPlace c data)
  | XProcessBits bits => '(l, c) ← processBits c bits; Ret (c, XBits l)
  | XPosition => Ret (c, XNum (getCurrentPosition c))
  | XBitPosition => Ret (c, XNum (getCurrentBitPosition c))
  | XInitialized => Ret (c, XBool (isInitialized c))
  end.

(** The key and the number of bits consumed.  Without a key the checked operations
    throw [runtime_error], the others [invalid_argument] unless the data is empty. *)
Definition xor_spec (s : xor_state) (op : xor_op) : outcome (xor_state * xor_obs) :=
  let '(key, p) := s in
  let ks := key_byte key in
  let checked e (r : outcome (xor_state * xor_obs)) := if decide (key = []) then Throw e else r in
  let unchecked (n : nat) (r : outcome (xor_state * xor_obs)) := if decide (n = 0) then r else checked invalid_argument r in
  match op with
  | XInitialize key nonce => if decide (key = []) then Throw invalid_argument else Ret ((key, 0), XDone)
  | XEncrypt data | XDecrypt data => checked runtime_error (Ret ((key, advance p (length data)), XBytes (masked ks (p / 8) data)))
  | XKeystream n => checked runtime_error (Ret ((key, advance p n), XBytes (stretch ks (p / 8) n)))
  | XReset => Ret ((key, 0), XDone)
  | XProcess data | XProcessInPlace data => unchecked (length data) (Ret ((key, advance p (length data)), XBytes (masked ks (p / 8) data)))
  | XProcessBits bits => unchecked (length bits) (Ret ((key, p + length bits), XBits (zip_with xorb bits (key_bit key <$> seq p (length bits)))))
  | XPosition => Ret (s, XNum ((p / 8) mod length key))
  | XBitPosition => Ret (s, XNum (p mod 8))
  | XInitialized => Ret (s, XBool (bool_decide (key <> [])))
  end.

Lemma xor_spec_total : total_spec xor_spec.
Proof. intros [key p] []; cbn; repeat case_decide; done. Qed.

Lemma nextKeyByte_throws c : key_stream_ c = [] -> nextKeyByte c = Throw invalid_argument.
Proof. intros E. unfold nextKeyByte. by rewrite decide_True. Qed.

#[local] Instance xor_simulates : Simulates xor_step xor_spec xor_rep.
Proof.
  intros c [key p] op Hr. pose proof Hr as (E & Hpos & Hbit & Hnil). cbn [fst snd] in E, Hpos, Hbit, Hnil.
  destruct op as [key' nonce'|data|data|n| |data|data|bits| | | ]; cbn [xor_step xor_spec].
  - cbn. unfold xor_initialize. case_decide; [done|]. eexists. split; [done|apply xor_rep_new].
  - case_decide as Hk; [cbn; unfold xor_encrypt, validateInitialized, hasKey; by rewrite E, Hk|]. cbn [encrypt xor_stream_cipher]. unfold xor_encrypt.
    rewrite (xor_rep_ready _ _ _ Hr Hk). ret_step. destruct (process_ok key data c p Hr Hk) as (c' & -> & Hr'). by exists c'.
  - case_decide as Hk; [cbn; unfold xor_decrypt, validateInitialized, hasKey; by rewrite E, Hk|]. cbn [decrypt xor_stream_cipher]. unfold xor_decrypt.
    rewrite (xor_rep_ready _ _ _ Hr Hk). ret_step. destruct (process_ok key data c p Hr Hk) as (c' & -> & Hr'). by exists c'.
  - case_decide as Hk; [cbn; unfold xor_generateKeystream, validateInitialized, hasKey; by rewrite E, Hk|]. cbn [generateKeystream xor_stream_cipher]. unfold xor_generateKeystream.
    rewrite (xor_rep_ready _ _ _ Hr Hk). ret_step. destruct (keystream_ok key n c p Hr Hk) as (c' & -> & Hr'). by exists c'.
  - eexists. split; [done|]. by apply (xor_reset_ok c key p).
  - destruct data as [|byte data]; [by exists c|]. rewrite decide_False by done. case_decide as Hk.
    { cbn. by rewrite nextKeyByte_throws by congruence. }
    destruct (process_ok key (byte :: data) c p Hr Hk) as (c' & -> & Hr'). by exists c'.
  - unfold processInPlace. destruct data as [|byte data]; [by exists c|]. rewrite decide_False by done. case_decide as Hk.
    { cbn. by rewrite nextKeyByte_throws by congruence. }
    destruct (processInPlace_loop_ok key (length (byte :: data)) c (byte :: data) 0 p Hr Hk) as (c' & -> & Hr'); [done|]. by exists c'.
  - destruct bits as [|bit bits]; [exists c; cbn; by rewrite Nat.add_0_r|]. rewrite decide_False by done. case_decide as Hk.
    { cbn. unfold nextKeyBit. by rewrite decide_True by congruence. }
    destruct (processBits_ok key (bit :: bits) c p Hr Hk) as (c' & -> & Hr'). by exists c'.
  - exists c. unfold getCurrentPosition. by rewrite Hpos.
  - exists c. unfold getCurrentBitPosition. by rewrite Hbit.
  - exists c. cbn. unfold hasKey. by rewrite E.
Qed.

(** every sequence of operations on [XorBitCipher] is defined and observes a key
    with a count of consumed key bits: bytes are masked with the repeated key from the
    current byte on, bits with its bits from the current bit on, a byte operation after
    bit operations skips the rest of a begun byte, and without a key the operations
    throw, each its own exception. *)
Theorem xor_bit_cipher_refines (ops : list xor_op) : exists c s os,
  trace xor_spec ([], 0) ops = Ret (s, os) /\ trace xor_step xor_default ops = Ret (c, os) /\ xor_rep c s.
Proof.
  destruct (trace_refines_total (step := xor_step) (R := xor_rep) ops xor_default ([], 0) xor_spec_total (xor_rep_new [])) as (c & s & os & H). by exists c, s, os.
Qed.

(** *** Bytes *)
Definition is_byte (z : Z) : Prop := (0 <= z < 256)%Z.

Lemma lxor_byte a b : is_byte a -> is_byte b -> is_byte (Z.lxor a b).
Proof.
  unfold is_byte. change 256%Z with (2 ^ 8)%Z. intros [Ha Ha'] [Hb Hb']. split; [by apply Z.lxor_nonneg|].
  destruct (Z.eq_dec (Z.lxor a b) 0) as [->|Hn]; [done|]. pose proof (proj2 (Z.lxor_nonneg a b) ltac:(tauto)).
  apply Z.log2_lt_pow2; [lia|]. eapply Z.le_lt_trans; [by apply Z.log2_lxor|].
  apply Z.max_lub_lt; [destruct (Z.eq_dec a 0) as [->|]; [done|]|destruct (Z.eq_dec b 0) as [->|]; [done|]]; apply Z.log2_lt_pow2; lia.
Qed.

(** The keys the factory makes have the length asked for, and are bytes. *)
Lemma random_key_ok n : forall state, length (random_key n state) = n /\ Forall is_byte (random_key n state).
Proof.
  induction n as [|n IH]; intros state; [by split|]. cbn [random_key]. set (s := u32 _). destruct (IH s) as [Hl Hb]. split; [cbn; by rewrite Hl|].
  constructor; [|done]. change 255%Z with (Z.ones 8). rewrite Z.land_ones by done. apply Z.mod_pos_bound. done.
Qed.

Lemma createWithPseudoRandomKey_ok n : hasKey (createWithPseudoRandomKey n) = bool_decide (n <> 0) /\ length (key_stream_ (createWithPseudoRandomKey n)) = n /\
  Forall is_byte (key_stream_ (createWithPseudoRandomKey n)).
Proof.
  unfold createWithPseudoRandomKey, hasKey, xor_of_key. cbn [key_stream_]. destruct (random_key_ok n (u32 (u64 (Z.of_nat n * 2654435761)))) as [Hl Hb].
  split; [|done]. apply bool_decide_ext. rewrite <- Hl. by destruct (random_key _ _).
Qed.

Section stream_cipher_witnesses.
Local Open Scope Z_scope.

Lemma stream_cipher_separate_instances_witness : exists cipher a2 b2,
  each encrypt (mkXor [1; 2; 255] 0 0) [[7]; []; [7; 7; 7]] = Ret (cipher, a2) /\
  each decrypt (mkXor [1; 2; 255] 0 0) [[6; 5]; [248; 6]] = Ret ([[7; 7]; [7; 7]], b2).
Proof.
  destruct (stream_cipher_separate_instances xor_default xor_default (mkXor [1; 2; 255] 0 0) (mkXor [1; 2; 255] 0 0) [1; 2; 255] [] [[7]; []; [7; 7; 7]])
    as (cipher & a2 & E & _ & Hd & _); [reflexivity|reflexivity|]. exists cipher, a2. vm_compute in E. injection E as <- <-.
  destruct (Hd [[6; 5]; [248; 6]] eq_refl) as (texts & b2 & E & _). exists b2. split; [reflexivity|]. rewrite E. vm_compute in E. injection E as <- <-. reflexivity.
Defined.

Example xor_mixed : fst <$> (trace xor_step xor_default [XEncrypt [1]; XProcess []; XInitialize [240; 15] [];
    XProcessBits [true; false; true]; XPosition; XBitPosition; XEncrypt [255]; XPosition; XBitPosition; XReset; XKeystream 3]) = Ret (mkXor [240; 15] 1 0).
Proof. reflexivity. Qed.
End stream_cipher_witnesses.
