(* ===== verification/Dijkstra.v ===== *)
(** * Dijkstra's shortest paths

    Models [data_structure/graph/algorithm/Dijkstra.cc].  The priority queue is
    the list of the entries pushed and not yet popped; which of the least entries
    [std::priority_queue] yields first is a parameter.  The loop needs no more
    iterations than there are edges, plus one for the start: an entry is pushed only
    by an edge that improves a distance, and a node is expanded once.

    For non-negative weights of which [n] together fit, the distances are those of
    [BellmanFord], and the predecessors lead to the source along walks of them. *)

From S2P Require Import Prelude Graph BellmanFord.
Local Open Scope Z_scope.

Record DijkstraState := mkState { node_ : Z; dist_ : Z }.

#[local] Instance DijkstraState_eq_dec : EqDecision DijkstraState.
Proof. solve_decision. Defined.

Implicit Types (g : Graph) (u v s c m : Z) (d p : list Z) (pq : list DijkstraState).

(** [operator>]: [std::greater] puts the least distance on top. *)
Definition state_gtb (a other : DijkstraState) : bool := dist_ other <? dist_ a.

Section dijkstra.
(** The place of the entry that [top] and [pop] refer to. *)
Variable top : list DijkstraState -> nat.

(** The loop over the edges of [u], at distance [du]. *)
Fixpoint relax u (du : Z) (edges : list Edge) d p pq : outcome (list Z * list Z * list DijkstraState) :=
  match edges with
  | [] => Ret (d, p, pq)
  | e :: edges =>
    let v := to_ e in
    new_dist ← add32 du (weight_ e);
    dv ← vgetz d v;
    if decide (0 <= new_dist /\ new_dist < dv) then
      d ← vsetz d v new_dist;
      p ← vsetz p v u;
      relax u du edges d p (pq ++ [mkState v new_dist])
    else relax u du edges d p pq
  end.

Fixpoint dijkstra_loop (fuel : nat) g d p pq : outcome (list Z * list Z) :=
  match fuel with
  | O => NoFuel
  | S fuel =>
    if decide (pq = []) then Ret (d, p) else
    e ← vget pq (top pq);
    let pq := delete (top pq) pq in
    du ← vgetz d (node_ e);
    if decide (dist_ e <> du) then dijkstra_loop fuel g d p pq else
    edges ← getAdjList g (node_ e);
    '(d, p, pq) ← relax (node_ e) (dist_ e) edges d p pq;
    dijkstra_loop fuel g d p pq
  end.

Definition shortestPath g (start : Z) : outcome ShortestPathResult :=
  let n := getNodeCount g in
  let distance := replicate (Z.to_nat n) INT32_MAX in
  let previous := replicate (Z.to_nat n) (-1) in
  if decide (n = 0 \/ start < 0 \/ n <= start) then Ret (mkShortest start (-1) distance previous) else
  distance ← vsetz distance start 0;
  '(distance, previous) ← dijkstra_loop (S (S (Z.to_nat (getEdgeCount g)))) g distance previous [mkState start 0];
  Ret (mkShortest start (-1) distance previous).

Definition shortestPathToTarget g (start target : Z) : outcome ShortestPathResult :=
  r ← shortestPath g start;
  Ret (mkShortest (source r) target (distance r) (previous r)).

(** The first entry on top is one with the least distance. *)
Definition top_least : Prop :=
  forall pq, pq <> [] -> exists e, pq !! top pq = Some e /\ forall e', e' ∈ pq -> state_gtb e e' = false.

Definition nonnegative g : Prop := forall u v c, wedge g u v c -> 0 <= c.

Lemma nonnegative_cycles g J : nonnegative g -> no_negative_cycle g J.
Proof using.
  intros Hnn v ns w ns' w' _ H. clear -Hnn H. induction H as [|ns u v' w c H IH He]; [lia|]. specialize (Hnn _ _ _ He). lia.
Qed.

(** *** How long the loop runs *)
(** The edges out of the nodes that have not been expanded. *)
Section debt.
Context (g : Graph).
Implicit Types (S : gset Z).

Definition debt S : nat := sum_list ((fun v => if decide (v ∈ S) then 0%nat else length (adj g v)) <$> seqZ 0 (num_nodes_ g)).

Lemma sum_list_cons (f : Z -> nat) v l : sum_list (f <$> v :: l) = (f v + sum_list (f <$> l))%nat.
Proof using. done. Qed.

Lemma sum_list_same (f f' : Z -> nat) l : (forall v, v ∈ l -> f v = f' v) -> sum_list (f <$> l) = sum_list (f' <$> l).
Proof using. induction l as [|v l IH]; intros H; [done|]. rewrite !sum_list_cons, (H v) by (by left). f_equal. apply IH. intros x Hx. apply H. by right. Qed.

Lemma debt_expand S u : node g u -> u ∉ S -> (debt ({[u]} ∪ S) + length (adj g u) = debt S)%nat.
Proof using.
  intros Hu HS. unfold debt. assert (u ∈ seqZ 0 (num_nodes_ g)) as Hin by (rewrite elem_of_seqZ; unfold node in Hu; lia).
  pose proof (NoDup_seqZ 0 (num_nodes_ g)) as Hnd. revert Hin Hnd. generalize (seqZ 0 (num_nodes_ g)). induction l as [|v l IH]; [by intros ?%elem_of_nil|].
  intros [<-|Hin]%elem_of_cons [Hv Hnd]%NoDup_cons; rewrite !sum_list_cons.
  - rewrite decide_True by set_solver. rewrite decide_False by done.
    rewrite (sum_list_same _ (fun v => if decide (v ∈ S) then 0%nat else length (adj g v)) l); [lia|].
    intros x Hx. apply decide_ext. assert (x <> u) by (intros ->; done). set_solver.
  - assert (v <> u) by (intros ->; done). specialize (IH Hin Hnd). rewrite <- IH.
    destruct (decide (v ∈ S)); [rewrite decide_True by set_solver|rewrite decide_False by set_solver]; lia.
Qed.

Lemma debt_empty (Hwf : wf_graph g) : debt ∅ = Z.to_nat (edge_count_ g).
Proof using.
  unfold debt. rewrite (wf_count _ Hwf), Nat2Z.id, (wf_nodes _ Hwf).
  rewrite (sum_list_same _ (fun v => length (adj g v))) by (intros; by rewrite decide_False by set_solver). unfold adj. generalize (adj_list_ g) as ls. clear.
  assert (forall ls k, sum_list ((fun v => length (default [] (ls !! Z.to_nat (v - k)))) <$> seqZ k (Z.of_nat (length ls))) = length (mjoin (M := list) (A := Edge) ls)) as Haux.
  { induction ls as [|l ls IH]; intros k; [done|]. cbn [length]. rewrite Nat2Z.inj_succ, seqZ_cons, Z.pred_succ, sum_list_cons by lia. change (mjoin (l :: ls)) with (l ++ mjoin ls).
    rewrite Z.sub_diag, length_app, <- (IH (Z.succ k)). cbn [Z.to_nat lookup list_lookup default]. f_equal. apply sum_list_same. intros v Hv%elem_of_seqZ. replace (Z.to_nat (v - k)) with (S (Z.to_nat (v - Z.succ k))) by lia. done. }
  intros ls. rewrite <- (Haux ls 0). apply sum_list_same. intros v _. by rewrite Z.sub_0_r.
Qed.
End debt.

Section search.
Context (g : Graph) (Hwf : wf_graph g) (s : Z) (W : Z) (HW : weights_fit g W) (Hnn : nonnegative g).
Implicit Types (S : gset Z).

(** The state between two iterations: [S] are the nodes expanded so far, at
    distances of at most [m]; every other node found has its entry in the queue. *)
Record core S m d p pq : Prop := {
  core_bf : bf_inv g (eq s) true d (Some p);
  core_nonneg : forall v, node g v -> 0 <= at_node d v;
  core_entries : forall e, e ∈ pq -> node g (node_ e) /\ at_node d (node_ e) <= dist_ e /\ m <= dist_ e < INT32_MAX;
  core_nodup : NoDup pq;
  core_settled : forall v, v ∈ S -> node g v /\ at_node d v <= m /\ (mkState v (at_node d v) ∉ pq);
  core_pending : forall v, node g v -> v ∉ S -> at_node d v <> INT32_MAX -> mkState v (at_node d v) ∈ pq;
}.

(** Every edge out of [v] is relaxed. *)
Definition relaxed d v : Prop := forall x c, wedge g v x c -> at_node d x <= at_node d v + c.

Lemma relax_step S m d p pq u v c : core S m d p pq -> u ∈ S -> at_node d u = m -> m < INT32_MAX -> wedge g u v c -> m + c < at_node d v ->
  (v ∉ S) /\ exists p', vsetz p v u = Ret p' /\ core S m (<[Z.to_nat v := m + c]> d) p' (pq ++ [mkState v (m + c)]).
Proof using Hwf HW Hnn.
  intros Hc Hu Hm Hmax He Hlt. destruct (wedge_nodes g Hwf _ _ _ He) as [Hnu Hnv]. pose proof (Hnn _ _ _ He) as Hc0.
  assert (v ∉ S) as HvS by (intros Hv; destruct (core_settled _ _ _ _ _ Hc v Hv) as (_ & ? & _); lia). split; [done|].
  pose proof (core_bf _ _ _ _ _ Hc) as Hi. pose proof (bf_len _ _ _ _ _ Hi) as Hlen.
  destruct (relax_inv g Hwf (eq s) true W HW (nonnegative_cycles g _ Hnn) d (Some p) u v c Hi) as (prev' & Hp' & Hi'); [lia|done|lia|].
  cbn [set_previous] in Hp'. destruct (vsetz p v u) as [p'| | |]; try done. injection Hp' as <-. exists p'. split; [done|]. rewrite <- Hm in Hlt |- *.
  assert (forall x, node g x -> at_node (<[Z.to_nat v := at_node d u + c]> d) x = if decide (x = v) then at_node d u + c else at_node d x) as Hat
    by (intros x Hx; by apply (at_insert g Hwf)).
  split.
  - exact Hi'.
  - intros x Hx. rewrite Hat by done. pose proof (core_nonneg _ _ _ _ _ Hc x Hx). pose proof (core_nonneg _ _ _ _ _ Hc u Hnu). case_decide; lia.
  - intros e [H|H%list_elem_of_singleton]%elem_of_app.
    + destruct (core_entries _ _ _ _ _ Hc e H) as (Hx & Hle & Hme). split; [done|]. rewrite Hat by done. case_decide as E; [rewrite E in *; lia|lia].
    + subst e. cbn [node_ dist_]. rewrite Hat, decide_True by done. do 2 (split; [lia || done|]). split; [lia|].
      destruct (bf_bound g Hwf (eq s) true W HW d (Some p) v Hi Hnv) as [E|]; [rewrite <- E; lia|destruct HW; lia].
  - apply NoDup_app. split; [apply (core_nodup _ _ _ _ _ Hc)|]. split; [|apply NoDup_singleton].
    intros e H ->%list_elem_of_singleton. destruct (core_entries _ _ _ _ _ Hc _ H) as (_ & Hle & _). cbn [node_ dist_] in Hle. lia.
  - intros x Hx. destruct (core_settled _ _ _ _ _ Hc x Hx) as (Hn & Hle & Hnot). rewrite (Hat x Hn). rewrite decide_False by (by intros ->). split; [done|]. split; [lia|].
    rewrite not_elem_of_app. split; [done|]. rewrite list_elem_of_singleton. intros [= -> _]. done.
  - intros x Hx HxS. rewrite Hat by done. rewrite elem_of_app. case_decide as E; [subst x; right; apply list_elem_of_here|]. intros Hne. left. by apply (core_pending _ _ _ _ _ Hc).
Qed.

Lemma relax_ok S m u edges : u ∈ S -> m < INT32_MAX -> Forall (fun e => wedge g u (to_ e) (weight_ e)) edges -> forall d p pq,
  core S m d p pq -> at_node d u = m -> exists d' p' pq',
    relax u m edges d p pq = Ret (d', p', pq') /\ core S m d' p' pq' /\ (length pq' <= length pq + length edges)%nat /\ below g d d' /\
    (forall x, x ∈ S -> at_node d' x = at_node d x) /\ Forall (fun e => at_node d' (to_ e) <= m + weight_ e) edges.
Proof using Hwf HW Hnn.
  intros Hu Hmax. induction edges as [|e edges IH]; intros Hes d p pq Hc Hm; cbn [relax].
  { exists d, p, pq. split_and!; [done|done|lia|by intros x Hx|done|done]. }
  apply Forall_cons in Hes as [He Hes]. destruct (wedge_nodes g Hwf _ _ _ He) as [Hnu Hnv]. pose proof (core_bf _ _ _ _ _ Hc) as Hi. pose proof (bf_len _ _ _ _ _ Hi) as Hlen.
  assert (- W <= weight_ e <= W) as Hw by (destruct HW as (_ & _ & Hw); by eapply Hw). pose proof (Hnn _ _ _ He) as Hw0. pose proof (core_nonneg _ _ _ _ _ Hc u Hnu) as Hu0.
  destruct (bf_bound g Hwf (eq s) true W HW d (Some p) u Hi Hnu) as [?|Hb]; [lia|].
  rewrite add32_in by (unfold in_i32, INT32_MIN, INT32_MAX in *; lia). ret_step. rewrite (get_at g Hwf d _ Hlen Hnv). ret_step. case_decide as Hrel.
  - destruct (relax_step S m d p pq u (to_ e) (weight_ e) Hc Hu Hm Hmax He) as (HvS & p1 & Hp1 & Hc1); [lia|]. rewrite (set_at g Hwf d (to_ e) _ Hlen Hnv). ret_step. rewrite Hp1. ret_step.
    set (d1 := <[_ := _]> d) in *.
    assert (forall x, node g x -> at_node d1 x = if decide (x = to_ e) then m + weight_ e else at_node d x) as Hat by (intros x Hx; by apply (at_insert g Hwf)).
    assert (below g d d1) as Hb1 by (intros x Hx; rewrite Hat by done; case_decide; subst; lia).
    assert (forall x, x ∈ S -> at_node d1 x = at_node d x) as Hs1.
    { intros x Hx. destruct (core_settled _ _ _ _ _ Hc x Hx) as (Hn & _). rewrite (Hat x Hn). rewrite decide_False by (by intros ->). done. }
    destruct (IH Hes d1 p1 _ Hc1) as (d' & p' & pq' & -> & Hc' & Hl & Hb' & Hs' & Hall); [by rewrite Hs1|]. exists d', p', pq'. rewrite length_app in Hl. cbn in Hl.
    split_and!; [done|done|cbn; lia|by apply (below_trans g d d1)|intros x Hx; by rewrite Hs', Hs1|]. constructor; [|done].
    specialize (Hb' (to_ e) Hnv). rewrite Hat, decide_True in Hb' by done. done.
  - destruct (IH Hes d p pq Hc Hm) as (d' & p' & pq' & -> & Hc' & Hl & Hb' & Hs' & Hall). exists d', p', pq'. split_and!; [done|done|cbn; lia|done|done|].
    constructor; [|done]. specialize (Hb' (to_ e) Hnv). lia.
Qed.

(** *** The loop *)
Context (Htop : top_least).

Lemma dijkstra_loop_ok fuel : forall S m d p pq, core S m d p pq -> (forall v, v ∈ S -> relaxed d v) -> (length pq + debt g S < fuel)%nat ->
  exists S' m' d' p', dijkstra_loop fuel g d p pq = Ret (d', p') /\ core S' m' d' p' [] /\ forall v, v ∈ S' -> relaxed d' v.
Proof using Hwf HW Hnn Htop.
  induction fuel as [|fuel IH]; intros S m d p pq Hc Hrel Hf; [lia|]. cbn [dijkstra_loop]. case_decide as Hq; [subst pq; by exists S, m, d, p|].
  destruct (Htop pq Hq) as (e & He & Hmin). rewrite (vget_Some _ _ _ He). ret_step. pose proof (core_bf _ _ _ _ _ Hc) as Hi. pose proof (bf_len _ _ _ _ _ Hi) as Hlen.
  pose proof (delete_Permutation pq (top pq) e He) as HP. set (rest := delete (top pq) pq) in *.
  assert (length pq = Datatypes.S (length rest)) as Hlr by (by rewrite HP).
  assert (e ∈ pq) as Hin by (rewrite HP; apply list_elem_of_here). destruct (core_entries _ _ _ _ _ Hc e Hin) as (Hnu & Hle & Hme).
  pose proof (core_nodup _ _ _ _ _ Hc) as Hnd. rewrite HP in Hnd. apply NoDup_cons in Hnd as [Hfresh Hnd].
  assert (forall x, x ∈ rest -> x ∈ pq) as Hsub by (intros x Hx; rewrite HP; by right).
  rewrite (get_at g Hwf d _ Hlen Hnu). ret_step. case_decide as Hst.
  - (* a stale entry *)
    apply (IH S m); [|done|lia]. split; [done|apply Hc|intros x Hx; by apply (core_entries _ _ _ _ _ Hc), Hsub|done| |].
    + intros v Hv. destruct (core_settled _ _ _ _ _ Hc v Hv) as (? & ? & Hnot). split; [done|]. split; [done|]. intros Hx. by apply Hnot, Hsub.
    + intros v Hv HvS Hne. pose proof (core_pending _ _ _ _ _ Hc v Hv HvS Hne) as Hx. rewrite HP in Hx. apply elem_of_cons in Hx as [<-|Hx]; [by cbn in Hst|done].
  - (* an expansion *)
    set (u := node_ e) in *. set (m' := dist_ e) in *.
    assert (e = mkState u m') as Ee by (by destruct e).
    assert (u ∉ S) as HuS by (intros Hu; destruct (core_settled _ _ _ _ _ Hc u Hu) as (_ & _ & Hnot); apply Hnot; by rewrite <- Hst, <- Ee).
    destruct (adj_ok g u Hwf Hnu) as [_ ->]. ret_step.
    assert (core ({[u]} ∪ S) m' d p rest) as Hc1.
    { split; [done|apply Hc| |done| |].
      - intros x Hx. destruct (core_entries _ _ _ _ _ Hc x (Hsub x Hx)) as (? & ? & ?). split; [done|]. split; [done|]. split; [|lia].
        specialize (Hmin x (Hsub x Hx)). unfold state_gtb in Hmin. unfold m'. lia.
      - intros v [->%elem_of_singleton|Hv]%elem_of_union.
        + split; [done|]. split; [lia|]. by rewrite <- Hst, <- Ee.
        + destruct (core_settled _ _ _ _ _ Hc v Hv) as (? & ? & Hnot). split; [done|]. split; [lia|]. intros Hx. by apply Hnot, Hsub.
      - intros v Hv [Hvu HvS]%not_elem_of_union Hne. pose proof (core_pending _ _ _ _ _ Hc v Hv HvS Hne) as Hx. rewrite HP in Hx.
        apply elem_of_cons in Hx as [E|Hx]; [|done]. rewrite Ee in E. injection E as -> _. by destruct Hvu; apply elem_of_singleton. }
    destruct (relax_ok ({[u]} ∪ S) m' u (adj g u)) with (d := d) (p := p) (pq := rest) as (d' & p' & pq' & -> & Hc' & Hl & Hb & Hsame & Hall);
      [set_solver|lia|by apply adj_wedges|done|done|]. ret_step.
    apply (IH ({[u]} ∪ S) m'); [done| |].
    + intros v Hv x c Hx. pose proof Hx as [Hnv Hadj]. destruct (wedge_nodes g Hwf _ _ _ Hx) as [_ Hnx]. rewrite (Hsame v Hv). apply elem_of_union in Hv as [->%elem_of_singleton|Hv].
      * rewrite Forall_forall in Hall. specialize (Hall _ Hadj). cbn in Hall. lia.
      * specialize (Hrel v Hv x c Hx). specialize (Hb x Hnx). lia.
    + pose proof (debt_expand g S u Hnu HuS). lia.
Qed.

Context (Hs : node g s).

Lemma core_start : core ∅ 0 (<[Z.to_nat s := 0]> (replicate (Z.to_nat (num_nodes_ g)) INT32_MAX)) (replicate (Z.to_nat (num_nodes_ g)) (-1)) [mkState s 0].
Proof using Hwf Hs.
  pose proof (wf_nodes _ Hwf) as Hn. pose proof (start_inv g s Hwf Hs) as Hi. set (d := <[_ := _]> _) in *.
  assert (forall v, node g v -> at_node d v = if decide (v = s) then 0 else INT32_MAX) as Hat.
  { intros v Hv. unfold d. rewrite (at_insert g Hwf) by (done || rewrite length_replicate; lia). unfold node in Hv. by rewrite at_replicate by lia. }
  split; [done| | | | |].
  - intros v Hv. rewrite Hat by done. case_decide; unfold INT32_MAX; lia.
  - intros e ->%list_elem_of_singleton. cbn [node_ dist_]. rewrite Hat, decide_True by done. unfold INT32_MAX. split; [done|lia].
  - apply NoDup_singleton.
  - intros v Hv. by apply elem_of_empty in Hv.
  - intros v Hv _. rewrite Hat by done. case_decide as E; [|done]. subst v. intros _. apply list_elem_of_here.
Qed.

Lemma shortestPath_ok : exists d p, shortestPath g s = Ret (mkShortest s (-1) d p) /\ bf_inv g (eq s) true d (Some p) /\
  complete g (eq s) (pred (length (adj_list_ g))) d.
Proof using Hwf Hs HW Hnn Htop.
  pose proof (wf_nodes _ Hwf) as Hn. pose proof Hs as Hs'. unfold node in Hs'. unfold shortestPath, getNodeCount, getEdgeCount. rewrite decide_False by lia.
  rewrite (set_at g Hwf) by (done || rewrite length_replicate; lia). ret_step.
  destruct (dijkstra_loop_ok (S (S (Z.to_nat (edge_count_ g)))) ∅ 0 _ _ _ core_start) as (S' & m' & d & p & -> & Hc & Hrel); [set_solver|rewrite (debt_empty g Hwf); cbn; lia|].
  ret_step. exists d, p. pose proof (core_bf _ _ _ _ _ Hc) as Hi. split; [done|]. split; [done|].
  apply (complete_stable g Hwf (eq s) W HW); [by eapply complete_start| |unfold node in Hs'; lia].
  intros u v c He Hlt. destruct (wedge_nodes g Hwf _ _ _ He) as [Hu _]. destruct (decide (u ∈ S')) as [HuS|HuS]; [by apply (Hrel u HuS v c)|].
  pose proof (core_pending _ _ _ _ _ Hc u Hu HuS ltac:(lia)) as Hx. by apply elem_of_nil in Hx.
Qed.
End search.
End dijkstra.

(** ** Properties *)
(** The list of distances is determined. *)
Lemma distances_unique g s (l l' : list Z) : length l = length (adj_list_ g) -> length l' = length (adj_list_ g) -> wf_graph g ->
  (forall v, node g v -> is_distance g (eq s) v (at_node l v)) -> (forall v, node g v -> is_distance g (eq s) v (at_node l' v)) -> l = l'.
Proof.
  intros Hl Hl' Hwf H H'. apply list_eq. intros i. destruct (decide (i < length (adj_list_ g))%nat) as [Hi|Hi].
  - assert (node g (Z.of_nat i)) as Hn by (unfold node; rewrite (wf_nodes _ Hwf); lia).
    pose proof (is_distance_unique _ _ _ _ _ (H _ Hn) (H' _ Hn)) as E. unfold at_node in E. rewrite Nat2Z.id in E.
    destruct (lookup_lt_is_Some_2 l i) as [x Hx]; [lia|]. destruct (lookup_lt_is_Some_2 l' i) as [y Hy]; [lia|]. rewrite Hx, Hy in E |- *. cbn in E. by subst.
  - by rewrite !lookup_ge_None_2 by lia.
Qed.

(** C31: on a graph with non-negative weights of which [n] together fit an [int32_t],
    [Dijkstra::shortestPath] terminates within one iteration per edge and one more, is
    free of undefined behaviour whichever least entry the queue yields, and returns
    the least weights of walks; [reconstructPath] returns the nodes of such a walk, or
    nothing where no walk leads. *)
Theorem dijkstra_shortest (top : list DijkstraState -> nat) g s t W : top_least top -> wf_graph g -> node g s -> nonnegative g -> weights_fit g W ->
  exists r, shortestPathToTarget top g s t = Ret r /\ source r = s /\ target r = t /\ length (distance r) = length (adj_list_ g) /\
    forall v, node g v -> is_distance g (eq s) v (at_node (distance r) v) /\
      exists path, reconstructPath r v = Ret path /\
        if decide (at_node (distance r) v = INT32_MAX) then path = []
        else wpath g (eq s) (rev path) v (at_node (distance r) v).
Proof.
  intros Htop Hwf Hs Hnn HW. unfold shortestPathToTarget. destruct (shortestPath_ok top g Hwf s W HW Hnn Htop Hs) as (d & p & -> & Hi & Hc). ret_step.
  eexists. split; [done|]. split; [done|]. split; [done|]. split; [apply (bf_len _ _ _ _ _ Hi)|]. intros v Hv.
  destruct (result_ok g s W d p v Hwf Hs HW (nonnegative_cycles g _ Hnn) Hi Hc Hv) as [Hdist Hpath]. split; [exact Hdist|exact (Hpath t)].
Qed.

(** C32: on such a graph [Dijkstra] and [BellmanFord] return the same distances, and
    the paths they reconstruct to a node lead there from the same source with the same
    weight, though they may be different paths. *)
Theorem dijkstra_bellman_ford_equivalent (top : list DijkstraState -> nat) g s W : top_least top -> wf_graph g -> node g s -> nonnegative g -> weights_fit g W ->
  exists r r', shortestPath top g s = Ret r /\ BellmanFord.shortestPath g s = Ret r' /\ distance r = distance r' /\
    forall v, node g v -> exists path path', reconstructPath r v = Ret path /\ reconstructPath r' v = Ret path' /\
      ((path = [] /\ path' = []) \/ exists w, wpath g (eq s) (rev path) v w /\ wpath g (eq s) (rev path') v w).
Proof.
  intros Htop Hwf Hs Hnn HW. pose proof (nonnegative_cycles g (eq s) Hnn) as Hneg.
  destruct (shortestPath_ok top g Hwf s W HW Hnn Htop Hs) as (d & p & Hd & Hi & Hc). destruct (bellman_ford_ok g s W Hwf Hs HW Hneg) as (d' & p' & Hb & Hi' & Hc').
  assert (d = d') as <-.
  { apply (distances_unique g s); [apply (bf_len _ _ _ _ _ Hi)|apply (bf_len _ _ _ _ _ Hi')|done| |]; intros v Hv; by eapply result_ok. }
  eexists _, _. split; [exact Hd|]. split; [exact Hb|]. split; [done|]. intros v Hv.
  destruct (result_ok g s W d p v Hwf Hs HW Hneg Hi Hc Hv) as [_ Hpath]. destruct (Hpath (-1)) as (path & Hr & Hw).
  destruct (result_ok g s W d p' v Hwf Hs HW Hneg Hi' Hc' Hv) as [_ Hpath']. destruct (Hpath' (-1)) as (path' & Hr' & Hw').
  exists path, path'. split; [done|]. split; [done|]. case_decide; [by left|right]. by exists (at_node d v).
Qed.

Section dijkstra_witnesses.

(** The first of the least entries. *)
Fixpoint first_min pq : nat :=
  match pq with
  | [] => 0%nat
  | e :: pq =>
    match pq !! first_min pq with
    | Some e' => if state_gtb e e' then S (first_min pq) else 0%nat
    | None => 0%nat
    end
  end.

Lemma first_min_least : top_least first_min.
Proof.
  intros pq. induction pq as [|e pq IH]; intros Hq; [done|]. cbn [first_min]. destruct pq as [|e1 pq].
  { exists e. split; [done|]. intros e' ->%list_elem_of_singleton. unfold state_gtb. lia. }
  destruct IH as (e2 & He & Hmin); [done|]. rewrite He. unfold state_gtb in *. destruct (dist_ e2 <? dist_ e) eqn:E.
  - exists e2. split; [done|]. intros e' [->|H]%elem_of_cons; [lia|by apply Hmin].
  - exists e. split; [done|]. intros e' [->|H]%elem_of_cons; [lia|]. specialize (Hmin e' H). lia.
Qed.

#[local] Definition sample_edges : list (Z * Z * Z) := [(0, 1, 4); (0, 2, 1); (2, 1, 2); (1, 3, 5)].

Lemma dijkstra_sample : exists g, (g0 ← graph_new 5; addEdges g0 sample_edges) = Ret g /\ wf_graph g /\ nonnegative g /\ weights_fit g 5.
Proof.
  destruct (graph_new_ok 5) as (g0 & H0 & Hwf0 & Hn0 & _); [done|]. rewrite H0. ret_step.
  destruct (addEdges_ok sample_edges g0) as (g & Hg & Hwf & Hn); [done| | |].
  - unfold node. rewrite Hn0. repeat constructor; lia.
  - injection H0 as <-. done.
  - injection H0 as <-. rewrite Hg. vm_compute in Hg. injection Hg as <-. set (g := mkGraph _ 4 _) in *.
    assert (forall u v c, wedge g u v c -> 0 <= c <= 5) as Hw.
    { intros u v c [Hu He]%(edge_cases g u v c); [|done].
      repeat (apply elem_of_cons in Hu as [->|Hu]; [vm_compute in He; repeat (apply elem_of_cons in He as [[= -> ->]|He]; [lia|]); by apply elem_of_nil in He|]).
      by apply elem_of_nil in Hu. }
    exists g. split; [done|]. split; [done|]. split; [intros u v c H; apply (Hw u v c H)|]. split; [done|]. split; [done|]. intros u v c H. specialize (Hw u v c H). lia.
Qed.

Lemma dijkstra_shortest_witness : exists g r path, (g0 ← graph_new 5; addEdges g0 sample_edges) = Ret g /\
  shortestPathToTarget first_min g 0 3 = Ret r /\ distance r = [0; 3; 1; 8; INT32_MAX] /\ reconstructPath r 3 = Ret path /\ wpath g (eq 0) (rev path) 3 8.
Proof.
  destruct dijkstra_sample as (g & Hg & Hwf & Hnn & HW). vm_compute in Hg. injection Hg as <-. set (g := mkGraph _ 4 _) in *.
  destruct (dijkstra_shortest first_min g 0 3 5 first_min_least Hwf) as (r & Hr & _ & _ & _ & Hall); [by vm_compute|done|done|].
  assert (distance r = [0; 3; 1; 8; INT32_MAX]) as Hd by (vm_compute in Hr; by injection Hr as <-).
  destruct (Hall 3) as [_ (path & Hpath & Hwalk)]; [by vm_compute|]. rewrite Hd in Hwalk. cbn in Hwalk.
  exists g, r, path. split; [reflexivity|]. split; [exact Hr|]. split; [exact Hd|]. split; [exact Hpath|exact Hwalk].
Defined.

Lemma dijkstra_bellman_ford_equivalent_witness : exists g r r', (g0 ← graph_new 5; addEdges g0 sample_edges) = Ret g /\
  shortestPath first_min g 0 = Ret r /\ BellmanFord.shortestPath g 0 = Ret r' /\ distance r = distance r' /\ distance r = [0; 3; 1; 8; INT32_MAX].
Proof.
  destruct dijkstra_sample as (g & Hg & Hwf & Hnn & HW). vm_compute in Hg. injection Hg as <-. set (g := mkGraph _ 4 _) in *.
  destruct (dijkstra_bellman_ford_equivalent first_min g 0 5 first_min_least Hwf) as (r & r' & Hr & Hr' & Hd & _); [by vm_compute|done|done|].
  exists g, r, r'. split; [reflexivity|]. split; [exact Hr|]. split; [exact Hr'|]. split; [exact Hd|]. vm_compute in Hr. by injection Hr as <-.
Defined.

(** The guard [new_dist >= 0] comes after the addition it should protect. *)
Example dijkstra_overflow :
  (g ← graph_new 3; g ← addEdges g [(0, 1, 2147483646); (1, 2, 2)]; shortestPath first_min g 0) = Undef.
Proof. vm_compute. reflexivity. Qed.
End dijkstra_witnesses.
