(* ===== verification/BloomFilter.v ===== *)
(** * Bloom filter ([data_structure/filter/BloomFilter])

    A bit table with a list of salted hash functions.  The object refines a set of
    bit positions: insertion adds the positions of a key, a query asks for them all,
    [&=], [|=] and [^=] are intersection, union and symmetric difference.  Hence no
    false negatives after insertions, unions and intersections, when the table has a
    positive number of whole bytes; otherwise an insertion is undefined.

    The hash is computed on little-endian bytes; the search for the optimal
    parameters in floating point and the Mersenne twister are parameters. *)

From S2P Require Import Prelude Refinement.

Local Open Scope Z_scope.

Definition BITS_PER_CHAR : Z := 8.

(** ** [class BloomParameters] *)
Section parameters.
(** The type [double] of a false-positive probability. *)
Context {F : Type}.

Record BloomParameters := mkParams {
  minimum_size : Z;
  maximum_size : Z;
  minimum_number_of_hashes : Z;
  maximum_number_of_hashes : Z;
  projected_element_count : Z;
  false_positive_probability : F;
  random_seed : Z;
  number_of_hashes : Z;
  table_size : Z;
}.
Implicit Types (p : BloomParameters).

(** [false_positive_probability] starts as 1 / 10000. *)
Definition params_default (one_in_10000 : F) : BloomParameters :=
  mkParams 1 (2 ^ 64 - 1) 1 (2 ^ 32 - 1) 10000 one_in_10000 11936128517019425370 0 0.

(** [operator!]: [fpp_invalid] tells a negative or infinite probability. *)
Definition params_invalid (fpp_invalid : F -> bool) p : bool :=
  (maximum_size p <? minimum_size p) || (maximum_number_of_hashes p <? minimum_number_of_hashes p) || (minimum_number_of_hashes p <? 1) ||
  (maximum_number_of_hashes p =? 0) || (projected_element_count p =? 0) || fpp_invalid (false_positive_probability p) ||
  (random_seed p =? 0) || (random_seed p =? 2 ^ 64 - 1).

(** Rounding up to whole bytes, and the bounds. *)
Definition round_up (size : Z) : Z :=
  if decide (size mod BITS_PER_CHAR <> 0) then u64 (size + (BITS_PER_CHAR - size mod BITS_PER_CHAR)) else size.

Definition clamp (x lo hi : Z) : Z := if x <? lo then lo else if hi <? x then hi else x.

(** [search] is the loop over the numbers of hashes: the best number and the size of
    the table for it, if there is one. *)
Definition compute_optimal_parameters (fpp_invalid fpp_unusable : F -> bool) (search : Z -> F -> option (Z * Z)) p : bool * BloomParameters :=
  if params_invalid fpp_invalid p then (false, p)
  else if (projected_element_count p =? 0) || fpp_unusable (false_positive_probability p) then (false, p)
  else match search (projected_element_count p) (false_positive_probability p) with
       | None => (false, p)
       | Some (min_k, min_m) =>
         (true, mkParams (minimum_size p) (maximum_size p) (minimum_number_of_hashes p) (maximum_number_of_hashes p)
           (projected_element_count p) (false_positive_probability p) (random_seed p)
           (clamp min_k (minimum_number_of_hashes p) (maximum_number_of_hashes p))
           (clamp (round_up min_m) (minimum_size p) (maximum_size p)))
       end.
End parameters.
Arguments BloomParameters : clear implicits.

(** ** The hash function *)
Definition shl32 (x n : Z) : Z := u32 (Z.shiftl x n).
Definition not32 (x : Z) : Z := Z.lxor x (2 ^ 32 - 1).
Definition word16 (b0 b1 : Z) : Z := b0 + 256 * b1.
Definition word32 (b0 b1 b2 b3 : Z) : Z := b0 + 256 * (b1 + 256 * (b2 + 256 * b3)).

(** The two ways a word is mixed in. *)
Definition mix_even (hash i : Z) : Z := Z.lxor hash (not32 (u32 (shl32 hash 11 + Z.lxor i (Z.shiftr hash 5)))).
Definition mix_odd (hash i : Z) : Z := Z.lxor hash (Z.lxor (shl32 hash 7) (u32 (i * Z.shiftr hash 3))).

Definition mix_byte (hash b loop : Z) : Z := u32 (hash + u32 (Z.lxor b (u32 (hash * 2779096485)) + loop)).

(** The bytes that are left when there are fewer than eight. *)
Definition hash_tail (key : list Z) (hash : Z) : Z :=
  let last (rest : list Z) hash loop := match rest with b :: _ => mix_byte hash b loop | [] => hash end in
  let halves (rest : list Z) hash (loop : Z) :=
    match rest with
    | b0 :: b1 :: rest => last rest (if Z.odd loop then mix_odd hash (word16 b0 b1) else mix_even hash (word16 b0 b1)) (loop + 1)
    | _ => last rest hash loop
    end in
  match key with
  | b0 :: b1 :: b2 :: b3 :: rest => halves rest (mix_even hash (word32 b0 b1 b2 b3)) 1
  | _ => halves key hash 0
  end.

Fixpoint hash_ap (key : list Z) (hash : Z) : Z :=
  match key with
  | b0 :: b1 :: b2 :: b3 :: b4 :: b5 :: b6 :: b7 :: rest =>
    let i1 := word32 b0 b1 b2 b3 in
    let i2 := word32 b4 b5 b6 b7 in
    hash_ap rest (Z.lxor hash (Z.lxor (Z.lxor (shl32 hash 7) (u32 (i1 * Z.shiftr hash 3)))
      (not32 (u32 (shl32 hash 11 + Z.lxor i2 (Z.shiftr hash 5))))))
  | _ => hash_tail key hash
  end.

(** ** The salts *)
Definition pre_def_salt : list Z :=
  [2863311530; 1431655765; 858993459; 3435973836; 1717986918; 2576980377; 3048584629; 1263225675;
   2857740885; 1429427507; 869020620; 3429289062; 1721329305; 2578815413; 3041637707; 1269451690;
   2855512627; 1439454668; 862335846; 3432631449; 1723164341; 2571868491; 3047863722; 2863311411;
   1431655884; 858993510; 3435973785; 1717986997; 2576980299; 3048584618; 4294967295; 4294901760;
   3089356267; 3239648479; 4129533619; 3679996319; 3369348720; 2977166870; 2837076327; 3661790563;
   2984813290; 4139831637; 1225391779; 2794243751; 3281381250; 2724222955; 215341608; 1182553234;
   4049496450; 1640430291; 2518016850; 1855862106; 1755010622; 211300776; 1733542283; 2787272859;
   2359704647; 1120675972; 2391380379; 1859901395; 364280172; 493871076; 1677693074; 3879736370;
   4026438674; 2930696057; 2669959729; 2210477820; 3285863052; 2769366156; 1383199889; 2593426859;
   3471153805; 3052742059; 1506882071; 619168561; 1769742595; 2226168928; 2249551273; 2935139432;
   589577637; 1063556675; 1604621736; 1735462392; 2590787998; 3707437607; 1185166387; 405975162;
   3295346492; 3116957680; 3377464423; 876813279; 3058844459; 3815239979; 1115638811; 575406190;
   780032649; 2532940453; 199968042; 802716729; 1957880315; 573504804; 4082628108; 1141885726;
   2344485647; 1728371753; 289722671; 2492142421; 1838143465; 470917140; 2916178223; 4215042350;
   4235682863; 4190424716; 825307065; 145808761; 831497959; 3225473597; 3227032231; 212189301;
   4168397170; 217650389; 2018325120; 1317863100; 3312055669; 3451035793; 750786228; 1549747233].

(** In place: a later salt is mixed with the new values of the first ones. *)
Fixpoint mix_salts (i n : nat) (seed : Z) (salt : list Z) : outcome (list Z) :=
  match n with
  | O => Ret salt
  | S n =>
    a ← vget salt i;
    b ← vget salt ((i + 3) mod length salt)%nat;
    salt ← vset salt i (u32 (u32 (a * b) + u32 seed));
    mix_salts (S i) n seed salt
  end.

(** [draws]: the values the generator yields; the loop ends when there are enough salts. *)
Fixpoint draw_salts (draws : list Z) (count : nat) (salt : list Z) : outcome (list Z) :=
  if decide (length salt < count)%nat then
    match draws with
    | [] => NoFuel
    | current :: draws =>
      if decide (current = 0 \/ current ∈ salt) then draw_salts draws count salt else draw_salts draws count (salt ++ [current])
    end
  else Ret salt.

Definition generate_unique_salt (draws : Z -> list Z) (salt_count seed : Z) : outcome (list Z) :=
  if decide (salt_count <= 128) then
    let salt := take (Z.to_nat salt_count) pre_def_salt in mix_salts 0 (length salt) seed salt
  else draw_salts (draws (u32 seed)) (Z.to_nat salt_count) pre_def_salt.

(** ** [class BloomFilter] *)
Section bloom_filter.
Context {F : Type} (feq : F -> F -> bool).

Record BloomFilter := mkBloom {
  salt_ : list Z;
  bit_table_ : list Z;
  salt_count_ : Z;
  table_size_ : Z;
  projected_element_count_ : Z;
  inserted_element_count_ : Z;
  random_seed_ : Z;
  desired_false_positive_probability_ : F;
}.
Implicit Types (f : BloomFilter) (key salts table : list Z).

(** The constructor; an allocation that does not fit in memory is left aside. *)
Definition bloom_new (draws : Z -> list Z) (p : BloomParameters F) : outcome BloomFilter :=
  let seed := u64 (u64 (random_seed p * 2779096485) + 1) in
  salt ← generate_unique_salt draws (number_of_hashes p) seed;
  Ret (mkBloom salt (replicate (Z.to_nat (table_size p / 8)) 0) (number_of_hashes p) (table_size p) (projected_element_count p) 0 seed
    (false_positive_probability p)).

(** [compute_indices]: the remainder by zero is undefined. *)
Definition compute_indices (table_size hash : Z) : outcome (Z * Z) :=
  if decide (table_size = 0) then Undef else Ret (hash mod table_size, (hash mod table_size) mod 8).

Definition bit_mask : list Z := [1; 2; 4; 8; 16; 32; 64; 128].

Fixpoint insert_loop (salts : list Z) key (table_size : Z) table : outcome (list Z) :=
  match salts with
  | [] => Ret table
  | i :: salts =>
    '(bit_index, bit) ← compute_indices table_size (hash_ap key i);
    cell ← vgetz table (bit_index / 8);
    mask ← vgetz bit_mask bit;
    table ← vsetz table (bit_index / 8) (Z.lor cell mask);
    insert_loop salts key table_size table
  end.

Definition set_table f table (count : Z) : BloomFilter :=
  mkBloom (salt_ f) table (salt_count_ f) (table_size_ f) (projected_element_count_ f) count (random_seed_ f) (desired_false_positive_probability_ f).

Definition insert f key : outcome BloomFilter :=
  table ← insert_loop (salt_ f) key (table_size_ f) (bit_table_ f);
  Ret (set_table f table (u64 (inserted_element_count_ f + 1))).

Fixpoint contains_loop (salts : list Z) key (table_size : Z) table : outcome bool :=
  match salts with
  | [] => Ret true
  | i :: salts =>
    '(bit_index, bit) ← compute_indices table_size (hash_ap key i);
    cell ← vgetz table (bit_index / 8);
    mask ← vgetz bit_mask bit;
    if decide (Z.land cell mask <> mask) then Ret false else contains_loop salts key table_size table
  end.

Definition contains f key : outcome bool := contains_loop (salt_ f) key (table_size_ f) (bit_table_ f).

(** The overloads for a range of keys; the queries return the place where they stop. *)
Fixpoint insert_range f (keys : list (list Z)) : outcome BloomFilter :=
  match keys with
  | [] => Ret f
  | key :: keys => f ← insert f key; insert_range f keys
  end.

Fixpoint contains_all f (keys : list (list Z)) : outcome nat :=
  match keys with
  | [] => Ret 0%nat
  | key :: keys => b ← contains f key; if negb b then Ret 0%nat else n ← contains_all f keys; Ret (S n)
  end.

Fixpoint contains_none f (keys : list (list Z)) : outcome nat :=
  match keys with
  | [] => Ret 0%nat
  | key :: keys => b ← contains f key; if (b : bool) then Ret 0%nat else n ← contains_none f keys; Ret (S n)
  end.

Definition clear f : BloomFilter := set_table f (replicate (length (bit_table_ f)) 0) 0.

Definition size f : Z := table_size_ f.
Definition element_count f : Z := inserted_element_count_ f.
Definition hash_count f : nat := length (salt_ f).
Definition bloom_invalid f : bool := table_size_ f =? 0.

Definition bloom_eq f (other : BloomFilter) : bool :=
  bool_decide (salt_count_ f = salt_count_ other) && bool_decide (table_size_ f = table_size_ other) &&
  bool_decide (length (bit_table_ f) = length (bit_table_ other)) && bool_decide (projected_element_count_ f = projected_element_count_ other) &&
  bool_decide (inserted_element_count_ f = inserted_element_count_ other) && bool_decide (random_seed_ f = random_seed_ other) &&
  feq (desired_false_positive_probability_ f) (desired_false_positive_probability_ other) &&
  bool_decide (salt_ f = salt_ other) && bool_decide (bit_table_ f = bit_table_ other).

(** The loop of [operator&=], [|=] and [^=], for the operation [op] on cells. *)
Fixpoint combine_loop (op : Z -> Z -> Z) (i n : nat) table other : outcome (list Z) :=
  match n with
  | O => Ret table
  | S n => a ← vget table i; b ← vget other i; table ← vset table i (op a b); combine_loop op (S i) n table other
  end.

Definition combine (op : Z -> Z -> Z) f (other : BloomFilter) : outcome BloomFilter :=
  if decide (salt_count_ f = salt_count_ other /\ table_size_ f = table_size_ other /\ random_seed_ f = random_seed_ other) then
    table ← combine_loop op 0 (length (bit_table_ f)) (bit_table_ f) (bit_table_ other); Ret (set_table f table (inserted_element_count_ f))
  else Ret f.

Definition and_assign := combine Z.land.
Definition or_assign := combine Z.lor.
Definition xor_assign := combine Z.lxor.

(** *** Bits *)
Definition bit_at table (i : Z) : bool := Z.testbit (default 0 (table !! Z.to_nat (i / 8))) (i mod 8).

(** A table of whole bytes. *)
Definition table_ok (size : Z) table : Prop := 0 < size /\ size mod 8 = 0 /\ Z.of_nat (length table) = size / 8.

Definition positions salts (size : Z) key : list Z := (fun i => hash_ap key i mod size) <$> salts.

Lemma cell_place size table i : table_ok size table -> 0 <= i < size -> (Z.to_nat (i / 8) < length table)%nat /\ 0 <= i / 8.
Proof using.
  intros (H0 & Hm & Hl) Hi. pose proof (Z.div_pos i 8). split; [|lia]. assert (i / 8 < size / 8); [|lia].
  apply Z.div_lt_upper_bound; [lia|]. pose proof (Z.div_mod size 8). lia.
Qed.

Lemma mask_ok i : bit_mask !! Z.to_nat (i mod 8) = Some (2 ^ (i mod 8)).
Proof using.
  pose proof (Z.mod_pos_bound i 8 ltac:(lia)) as H. assert (i mod 8 ∈ [0; 1; 2; 3; 4; 5; 6; 7]) as Hin.
  { rewrite !elem_of_cons. lia. }
  repeat (apply elem_of_cons in Hin as [->|Hin]; [done|]). by apply elem_of_nil in Hin.
Qed.

Lemma mask_get i : vgetz bit_mask (i mod 8) = Ret (2 ^ (i mod 8)).
Proof using. apply vgetz_Some; [by apply Z.mod_pos_bound|apply mask_ok]. Qed.

(** Setting one bit. *)
Lemma bit_at_set size table i j : table_ok size table -> 0 <= i < size -> 0 <= j < size ->
  bit_at (<[Z.to_nat (i / 8) := Z.lor (default 0 (table !! Z.to_nat (i / 8))) (2 ^ (i mod 8))]> table) j = bit_at table j || bool_decide (j = i).
Proof using.
  intros Ht Hi Hj. destruct (cell_place _ _ i Ht Hi) as [Hl H0], (cell_place _ _ j Ht Hj) as [_ H0']. unfold bit_at. destruct (decide (i / 8 = j / 8)) as [E|E].
  - rewrite <- E, list_lookup_insert_eq by done. cbn [from_option id]. rewrite Z.lor_spec, Z.pow2_bits_eqb by (by apply Z.mod_pos_bound). f_equal.
    destruct (Z.eqb_spec (i mod 8) (j mod 8)) as [Em|Em].
    + rewrite bool_decide_true; [done|]. pose proof (Z.div_mod i 8). pose proof (Z.div_mod j 8). lia.
    + rewrite bool_decide_false; [done|]. by intros ->.
  - rewrite list_lookup_insert_ne by lia. rewrite bool_decide_false by (by intros ->). by rewrite orb_false_r.
Qed.

Lemma bl_land_mask cell k : 0 <= k -> Z.land cell (2 ^ k) = 2 ^ k <-> Z.testbit cell k = true.
Proof using.
  intros Hk. split.
  - intros H. apply (f_equal (fun z => Z.testbit z k)) in H. rewrite Z.land_spec, Z.pow2_bits_true in H by done. by rewrite andb_true_r in H.
  - intros H. apply Z.bits_inj'. intros n Hn. rewrite Z.land_spec, Z.pow2_bits_eqb by done. destruct (Z.eqb_spec k n) as [<-|]; [by rewrite H|by rewrite andb_false_r].
Qed.

Lemma bl_insert_loop_ok salts key size : forall table, table_ok size table ->
  exists table', insert_loop salts key size table = Ret table' /\ table_ok size table' /\
    forall j, 0 <= j < size -> bit_at table' j = bit_at table j || bool_decide (j ∈ positions salts size key).
Proof using.
  induction salts as [|i salts IH]; intros table Ht; cbn [insert_loop].
  { exists table. split; [done|]. split; [done|]. intros j _. rewrite bool_decide_false by apply not_elem_of_nil. by rewrite orb_false_r. }
  pose proof Ht as (H0 & Hm & Hl). unfold compute_indices. rewrite decide_False by lia. ret_step. pose proof (Z.mod_pos_bound (hash_ap key i) size H0) as Hb.
  set (b := hash_ap key i mod size) in *. destruct (cell_place _ _ b Ht Hb) as [Hc H0b]. destruct (lookup_lt_is_Some_2 table (Z.to_nat (b / 8)) Hc) as [cell Hcell].
  rewrite (vgetz_Some table (b / 8) cell H0b Hcell). ret_step. rewrite mask_get. ret_step. rewrite vsetz_lt by lia. ret_step.
  assert (cell = default 0 (table !! Z.to_nat (b / 8))) as -> by (by rewrite Hcell).
  destruct (IH (<[Z.to_nat (b / 8) := Z.lor (default 0 (table !! Z.to_nat (b / 8))) (2 ^ (b mod 8))]> table)) as (table' & -> & Ht' & Hbits).
  { unfold table_ok. by rewrite length_insert. }
  exists table'. split; [done|]. split; [done|]. intros j Hj. rewrite (Hbits j Hj), (bit_at_set size) by done. rewrite <- orb_assoc. f_equal.
  unfold positions. cbn [fmap list_fmap]. fold b. rewrite <- bool_decide_or. apply bool_decide_ext. symmetry. apply elem_of_cons.
Qed.

Lemma contains_loop_ok salts key size table : table_ok size table ->
  contains_loop salts key size table = Ret (forallb (bit_at table) (positions salts size key)).
Proof using.
  intros Ht. pose proof Ht as (H0 & Hm & Hl). induction salts as [|i salts IH]; cbn [contains_loop]; [done|]. unfold compute_indices. rewrite decide_False by lia. ret_step.
  pose proof (Z.mod_pos_bound (hash_ap key i) size H0) as Hb. unfold positions. cbn [fmap list_fmap forallb]. set (b := hash_ap key i mod size) in *.
  destruct (cell_place _ _ b Ht Hb) as [Hc H0b]. destruct (lookup_lt_is_Some_2 table (Z.to_nat (b / 8)) Hc) as [cell Hcell].
  rewrite (vgetz_Some table (b / 8) cell H0b Hcell). ret_step. rewrite mask_get. ret_step. unfold bit_at at 1. rewrite Hcell. cbn [from_option id].
  pose proof (bl_land_mask cell (b mod 8) ltac:(by apply Z.mod_pos_bound)) as Hiff. destruct (decide (Z.land cell (2 ^ (b mod 8)) <> 2 ^ (b mod 8))) as [Hn|He].
  - destruct (Z.testbit cell (b mod 8)) eqn:E; [by destruct Hn; apply Hiff|done].
  - apply dec_stable in He. rewrite (proj1 Hiff He). cbn [andb]. exact IH.
Qed.

Lemma combine_loop_ok (op : Z -> Z -> Z) other n : forall i table, (i + n = length table)%nat -> (length other = length table)%nat ->
  exists table', combine_loop op i n table other = Ret table' /\ length table' = length table /\
    forall k, table' !! k = if decide (i <= k)%nat then (a ← table !! k; b ← other !! k; Some (op a b)) else table !! k.
Proof using.
  induction n as [|n IH]; intros i table Hi Hl; cbn [combine_loop].
  { exists table. split; [done|]. split; [done|]. intros k. case_decide; [|done]. by rewrite !lookup_ge_None_2 by lia. }
  destruct (vget_lt table i) as (a & Ha & ->); [lia|]. ret_step. destruct (vget_lt other i) as (b & Hb & ->); [lia|]. ret_step. rewrite vset_lt by lia. ret_step.
  destruct (IH (S i) (<[i:=op a b]> table)) as (table' & -> & Hl' & Hk); [rewrite length_insert; lia|by rewrite length_insert|]. exists table'. rewrite length_insert in Hl'.
  split; [done|]. split; [done|]. intros k. rewrite Hk. destruct (decide (k = i)) as [->|Hne].
  - rewrite decide_False, decide_True by lia. rewrite list_lookup_insert_eq by lia. by rewrite Ha, Hb.
  - rewrite !list_lookup_insert_ne by done. destruct (decide (S i <= k)%nat); [by rewrite decide_True by lia|by rewrite decide_False by lia].
Qed.

(** *** Combining bits *)
Lemma combine_bits (op : Z -> Z -> Z) (bop : bool -> bool -> bool) size table other :
  (forall a b k, 0 <= k -> Z.testbit (op a b) k = bop (Z.testbit a k) (Z.testbit b k)) -> table_ok size table -> table_ok size other ->
  exists table', combine_loop op 0 (length table) table other = Ret table' /\ table_ok size table' /\
    forall j, 0 <= j < size -> bit_at table' j = bop (bit_at table j) (bit_at other j).
Proof using.
  intros Hop Ht Ho. assert (length other = length table) as Hl by (destruct Ht as (_ & _ & Ht), Ho as (_ & _ & Ho); lia).
  destruct (combine_loop_ok op other (length table) 0 table) as (table' & -> & Hl' & Hk); [lia|done|]. exists table'. split; [done|].
  assert (table_ok size table') as Ht' by (destruct Ht as (? & ? & ?); unfold table_ok; by rewrite Hl'). split; [done|]. intros j Hj.
  destruct (cell_place _ _ j Ht Hj) as [Hc H0]. unfold bit_at. rewrite Hk, decide_True by lia.
  destruct (lookup_lt_is_Some_2 table (Z.to_nat (j / 8)) Hc) as [a Ha]. destruct (lookup_lt_is_Some_2 other (Z.to_nat (j / 8))) as [b Hb]; [lia|].
  rewrite Ha, Hb. cbn. apply Hop. by apply Z.mod_pos_bound.
Qed.

(** ** The contract *)
(** Filters made with the same parameters, and the operations on them. *)
Inductive bl_op :=
| BlInsert (i : nat) key
| BlContains (i : nat) key
| BlClear (i : nat)
| BlCount (i : nat)
| BlAnd (i j : nat)
| BlOr (i j : nat)
| BlXor (i j : nat)
| BlAssign (i j : nat).

Inductive bl_obs :=
| BlDone
| BlBool (b : bool)
| BlNum (n : Z).

Definition bl_step (fs : list BloomFilter) (op : bl_op) : outcome (list BloomFilter * bl_obs) :=
  match op with
  | BlInsert i key => f ← vget fs i; f ← insert f key; fs ← vset fs i f; Ret (fs, BlDone)
  | BlContains i key => f ← vget fs i; b ← contains f key; Ret (fs, BlBool b)
  | BlClear i => f ← vget fs i; fs ← vset fs i (clear f); Ret (fs, BlDone)
  | BlCount i => f ← vget fs i; Ret (fs, BlNum (element_count f))
  | BlAnd i j => f ← vget fs i; g ← vget fs j; f ← and_assign f g; fs ← vset fs i f; Ret (fs, BlDone)
  | BlOr i j => f ← vget fs i; g ← vget fs j; f ← or_assign f g; fs ← vset fs i f; Ret (fs, BlDone)
  | BlXor i j => f ← vget fs i; g ← vget fs j; f ← xor_assign f g; fs ← vset fs i f; Ret (fs, BlDone)
  | BlAssign i j => g ← vget fs j; fs ← vset fs i g; Ret (fs, BlDone)
  end.

(** A set of bit positions and the number of insertions. *)
Definition bl_state : Type := gset Z * Z.

Section contract.
Context (salts : list Z) (m : Z).

Definition hits key : gset Z := list_to_set (positions salts m key).

Definition bl_spec (ss : list bl_state) (op : bl_op) : outcome (list bl_state * bl_obs) :=
  match op with
  | BlInsert i key => s ← vget ss i; ss ← vset ss i (hits key ∪ s.1, u64 (s.2 + 1)); Ret (ss, BlDone)
  | BlContains i key => s ← vget ss i; Ret (ss, BlBool (bool_decide (hits key ⊆ s.1)))
  | BlClear i => s ← vget ss i; ss ← vset ss i (∅, 0); Ret (ss, BlDone)
  | BlCount i => s ← vget ss i; Ret (ss, BlNum s.2)
  | BlAnd i j => s ← vget ss i; t ← vget ss j; ss ← vset ss i (s.1 ∩ t.1, s.2); Ret (ss, BlDone)
  | BlOr i j => s ← vget ss i; t ← vget ss j; ss ← vset ss i (s.1 ∪ t.1, s.2); Ret (ss, BlDone)
  | BlXor i j => s ← vget ss i; t ← vget ss j; ss ← vset ss i ((s.1 ∖ t.1) ∪ (t.1 ∖ s.1), s.2); Ret (ss, BlDone)
  | BlAssign i j => t ← vget ss j; ss ← vset ss i t; Ret (ss, BlDone)
  end.

Context (count seed : Z).

Record bl_rep f (s : bl_state) : Prop := {
  rep_salts : salt_ f = salts;
  rep_config : salt_count_ f = count /\ table_size_ f = m /\ random_seed_ f = seed;
  rep_table : table_ok m (bit_table_ f);
  rep_bits : forall j, 0 <= j < m -> bit_at (bit_table_ f) j = bool_decide (j ∈ s.1);
  rep_count : inserted_element_count_ f = s.2;
}.

Lemma hits_spec key j : j ∈ hits key <-> j ∈ positions salts m key.
Proof using. unfold hits. apply elem_of_list_to_set. Qed.

Lemma positions_range key j : 0 < m -> j ∈ positions salts m key -> 0 <= j < m.
Proof using. intros Hm (i & -> & _)%list_elem_of_fmap. by apply Z.mod_pos_bound. Qed.

Lemma bl_insert_rep f s key : bl_rep f s -> exists f', insert f key = Ret f' /\ bl_rep f' (hits key ∪ s.1, u64 (s.2 + 1)).
Proof using.
  intros [Hs (Hc & Hm & Hd) Ht Hb Hn]. unfold insert. rewrite Hs, Hm. destruct (bl_insert_loop_ok salts key m (bit_table_ f) Ht) as (table & -> & Ht' & Hbits). ret_step.
  eexists. split; [done|]. split; cbn; [done|done|done| |by rewrite Hn]. intros j Hj. rewrite (Hbits j Hj), (Hb j Hj), <- bool_decide_or. apply bool_decide_ext.
  rewrite elem_of_union, hits_spec. tauto.
Qed.

Lemma contains_rep f s key : bl_rep f s -> contains f key = Ret (bool_decide (hits key ⊆ s.1)).
Proof using.
  intros [Hs (Hc & Hm & Hd) Ht Hb Hn]. unfold contains. rewrite Hs, Hm, (contains_loop_ok salts key m _ Ht). f_equal. pose proof Ht as (H0 & _).
  apply eq_bool_prop_intro. rewrite bool_decide_spec, Is_true_true, forallb_forall. unfold subseteq, set_subseteq_instance. setoid_rewrite hits_spec. split.
  - intros H j Hj. pose proof (positions_range key j H0 Hj). specialize (H j (proj1 (list_elem_of_In _ _) Hj)). rewrite Hb in H by done. by apply bool_decide_eq_true in H.
  - intros H j Hj%list_elem_of_In. rewrite Hb by (by apply (positions_range key)). apply bool_decide_true. by apply H.
Qed.

Lemma bl_clear_rep f s : bl_rep f s -> bl_rep (clear f) (∅, 0).
Proof using.
  intros [Hs Hc Ht Hb Hn]. pose proof Ht as (H0 & Hm & Hl). split; cbn; [done|done| |intros j Hj|done].
  - unfold table_ok. by rewrite length_replicate.
  - destruct (cell_place _ _ j Ht Hj) as [Hcell _]. unfold bit_at. rewrite lookup_replicate_2 by done. cbn. rewrite bool_decide_false by (apply not_elem_of_empty). apply Z.testbit_0_l.
Qed.

Lemma combine_rep (op : Z -> Z -> Z) (bop : bool -> bool -> bool) (X : gset Z) f s g t :
  (forall a b k, 0 <= k -> Z.testbit (op a b) k = bop (Z.testbit a k) (Z.testbit b k)) ->
  (forall j, bop (bool_decide (j ∈ s.1)) (bool_decide (j ∈ t.1)) = bool_decide (j ∈ X)) ->
  bl_rep f s -> bl_rep g t -> exists f', combine op f g = Ret f' /\ bl_rep f' (X, s.2).
Proof using.
  intros Hop HX [Hs (Hc & Hm & Hd) Ht Hb Hn] [Hs' (Hc' & Hm' & Hd') Ht' Hb' Hn']. unfold combine. rewrite decide_True by (split_and!; congruence).
  destruct (combine_bits op bop m (bit_table_ f) (bit_table_ g) Hop Ht Ht') as (table & -> & Htab & Hbits). ret_step. eexists. split; [done|].
  split; cbn; [done|done|done| |done]. intros j Hj. by rewrite (Hbits j Hj), (Hb j Hj), (Hb' j Hj), HX.
Qed.

Lemma and_rep f s g t : bl_rep f s -> bl_rep g t -> exists f', and_assign f g = Ret f' /\ bl_rep f' (s.1 ∩ t.1, s.2).
Proof using.
  apply (combine_rep Z.land andb); [intros; apply Z.land_spec|]. intros j. rewrite <- bool_decide_and. apply bool_decide_ext. set_solver.
Qed.

Lemma or_rep f s g t : bl_rep f s -> bl_rep g t -> exists f', or_assign f g = Ret f' /\ bl_rep f' (s.1 ∪ t.1, s.2).
Proof using.
  apply (combine_rep Z.lor orb); [intros; apply Z.lor_spec|]. intros j. rewrite <- bool_decide_or. apply bool_decide_ext. set_solver.
Qed.

Lemma xor_rep f s g t : bl_rep f s -> bl_rep g t -> exists f', xor_assign f g = Ret f' /\ bl_rep f' ((s.1 ∖ t.1) ∪ (t.1 ∖ s.1), s.2).
Proof using.
  apply (combine_rep Z.lxor xorb); [intros; apply Z.lxor_spec|]. intros j. destruct (decide (j ∈ s.1)) as [H|H], (decide (j ∈ t.1)) as [H'|H'];
    rewrite ?(bool_decide_true (j ∈ s.1)), ?(bool_decide_true (j ∈ t.1)), ?(bool_decide_false (j ∈ s.1)), ?(bool_decide_false (j ∈ t.1)) by done; symmetry;
    [apply bool_decide_false|apply bool_decide_true|apply bool_decide_true|apply bool_decide_false]; set_solver.
Qed.

Lemma at_rep fs ss i s : Forall2 bl_rep fs ss -> ss !! i = Some s -> exists f, vget fs i = Ret f /\ bl_rep f s.
Proof using. intros H Hs. destruct (Forall2_lookup_r _ _ _ _ _ H Hs) as (f & Hf & Hr). exists f. split; [by apply vget_Some|done]. Qed.

Lemma set_rep fs ss i f s ss' : Forall2 bl_rep fs ss -> bl_rep f s -> vset ss i s = Ret ss' -> exists fs', vset fs i f = Ret fs' /\ Forall2 bl_rep fs' ss'.
Proof using.
  intros H Hr [Hi ->]%vset_Ret. rewrite vset_lt by (by rewrite (Forall2_length _ _ _ H)). eexists. split; [done|]. by apply Forall2_insert.
Qed.

Lemma store_rep fs ss i f s (o : bl_obs) : Forall2 bl_rep fs ss -> bl_rep f s ->
  match ss' ← vset ss i s; Ret (ss', o) with
  | Ret (a', o') => exists fs', (fs' ← vset fs i f; Ret (fs', o)) = Ret (fs', o') /\ Forall2 bl_rep fs' a'
  | Throw e => (fs' ← vset fs i f; Ret (fs', o)) = Throw e
  | Undef | NoFuel => True
  end.
Proof using.
  intros HR Hr. destruct (vset ss i s) as [ss'| | |] eqn:E; [|unfold vset in E; case_decide; discriminate|done..].
  destruct (set_rep fs ss i f s ss' HR Hr E) as (fs' & -> & HR'). by exists fs'.
Qed.

#[global] Instance bl_simulates : Simulates bl_step bl_spec (Forall2 bl_rep).
Proof using.
  intros fs ss op HR. destruct op as [i key|i key|i|i|i j|i j|i j|i j]; cbn [bl_step bl_spec].
  all: try (destruct (vget ss i) as [s| | |] eqn:Ei; [|unfold vget in Ei; destruct (ss !! i); discriminate|done..]; apply vget_Ret in Ei;
    destruct (at_rep fs ss i s HR Ei) as (f & -> & Hf); rewrite !bind_Ret).
  all: try (destruct (vget ss j) as [t| | |] eqn:Ej; [|unfold vget in Ej; destruct (ss !! j); discriminate|done..]; apply vget_Ret in Ej;
    destruct (at_rep fs ss j t HR Ej) as (g & -> & Hg); rewrite !bind_Ret).
  - destruct (bl_insert_rep f s key Hf) as (f' & -> & Hf'). rewrite bind_Ret. by apply store_rep.
  - rewrite (contains_rep f s key Hf), bind_Ret. by exists fs.
  - apply store_rep; [done|by apply (bl_clear_rep f s)].
  - exists fs. unfold element_count. by rewrite (rep_count _ _ Hf).
  - destruct (and_rep f s g t Hf Hg) as (f' & -> & Hf'). rewrite bind_Ret. by apply store_rep.
  - destruct (or_rep f s g t Hf Hg) as (f' & -> & Hf'). rewrite bind_Ret. by apply store_rep.
  - destruct (xor_rep f s g t Hf Hg) as (f' & -> & Hf'). rewrite bind_Ret. by apply store_rep.
  - by apply store_rep.
Qed.

(** A range of insertions, and the queries over a range. *)
Definition all_hits (keys : list (list Z)) : gset Z := foldr (fun key X => hits key ∪ X) ∅ keys.

Lemma insert_range_rep keys : forall f s, bl_rep f s -> exists f' n, insert_range f keys = Ret f' /\ bl_rep f' (all_hits keys ∪ s.1, n).
Proof using.
  induction keys as [|key keys IH]; intros f s Hf; cbn [insert_range].
  - exists f, s.2. split; [done|]. cbn. rewrite (left_id_L ∅ (∪)). by destruct s.
  - destruct (bl_insert_rep f s key Hf) as (f1 & -> & Hf1). rewrite bind_Ret. destruct (IH f1 _ Hf1) as (f' & n & -> & Hf'). exists f', n. split; [done|].
    cbn in Hf' |- *. replace (hits key ∪ all_hits keys ∪ s.1) with (all_hits keys ∪ (hits key ∪ s.1)) by set_solver. done.
Qed.

Lemma hits_all key keys : key ∈ keys -> hits key ⊆ all_hits keys.
Proof using.
  induction keys as [|k keys IH]; [by intros ?%elem_of_nil|]. intros [->|H]%elem_of_cons; cbn; [set_solver|]. specialize (IH H). set_solver.
Qed.

Lemma contains_all_rep f s keys : bl_rep f s -> (forall key, key ∈ keys -> hits key ⊆ s.1) -> contains_all f keys = Ret (length keys).
Proof using.
  intros Hf. induction keys as [|key keys IH]; intros Hk; cbn [contains_all]; [done|]. rewrite (contains_rep f s key Hf), bind_Ret.
  rewrite bool_decide_true by (apply Hk; by left). cbn [negb]. rewrite IH; [done|]. intros k H. apply Hk. by right.
Qed.
End contract.

(** *** Construction *)
Lemma bloom_new_rep draws p f : bloom_new draws p = Ret f -> 0 < table_size p -> table_size p mod 8 = 0 ->
  bl_rep (salt_ f) (table_size p) (salt_count_ f) (random_seed_ f) f (∅, 0).
Proof using.
  intros H H0 Hm. unfold bloom_new in H. apply bind_Ret_inv in H as (salts & _ & [= <-]). cbn. split; cbn; [done|done| |intros j Hj|done].
  - unfold table_ok. rewrite length_replicate, Z2Nat.id by (apply Z.div_pos; lia). done.
  - assert (table_ok (table_size p) (replicate (Z.to_nat (table_size p / 8)) 0)) as Ht by (unfold table_ok; rewrite length_replicate, Z2Nat.id by (apply Z.div_pos; lia); done).
    destruct (cell_place _ _ j Ht Hj) as [Hcell _]. rewrite length_replicate in Hcell. unfold bit_at. rewrite lookup_replicate_2 by done. cbn.
    rewrite bool_decide_false by (apply not_elem_of_empty). apply Z.testbit_0_l.
Qed.

Lemma mix_salts_ok n : forall i seed salt, (i + n = length salt)%nat -> exists salt', mix_salts i n seed salt = Ret salt' /\ length salt' = length salt.
Proof using.
  induction n as [|n IH]; intros i seed salt Hi; cbn [mix_salts]; [by exists salt|].
  destruct (vget_lt salt i) as (a & _ & ->); [lia|]. rewrite bind_Ret. destruct (vget_lt salt ((i + 3) mod length salt)) as (b & _ & ->); [apply Nat.mod_upper_bound; lia|].
  rewrite bind_Ret, vset_lt, bind_Ret by lia. destruct (IH (S i) seed (<[i:=u32 (u32 (a * b) + u32 seed)]> salt)) as (salt' & -> & Hl); [rewrite length_insert; lia|].
  exists salt'. by rewrite length_insert in Hl.
Qed.

(** Up to 128 hash functions the constructor returns, with as many salts. *)
Lemma bloom_new_ok draws p : 0 <= number_of_hashes p <= 128 -> exists f, bloom_new draws p = Ret f /\ Z.of_nat (hash_count f) = number_of_hashes p.
Proof using.
  intros Hk. unfold bloom_new, generate_unique_salt. rewrite decide_True by lia.
  destruct (mix_salts_ok (length (take (Z.to_nat (number_of_hashes p)) pre_def_salt)) 0 (u64 (u64 (random_seed p * 2779096485) + 1)) (take (Z.to_nat (number_of_hashes p)) pre_def_salt) eq_refl) as (salt & -> & Hl).
  rewrite bind_Ret. eexists. split; [done|]. unfold hash_count. cbn. rewrite Hl, length_take. change (length pre_def_salt) with 128%nat. lia.
Qed.
End bloom_filter.

(** Without rounding trouble the optimal table is usable. *)
Lemma optimal_usable {F : Type} (inv unus : F -> bool) search p p' :
  compute_optimal_parameters inv unus search p = (true, p') -> (forall min_k min_m, search (projected_element_count p) (false_positive_probability p) = Some (min_k, min_m) ->
    0 < min_k <= 128 /\ 0 < min_m < 2 ^ 64 - 8) -> minimum_size p = 1 -> maximum_size p = 2 ^ 64 - 1 -> minimum_number_of_hashes p = 1 ->
  maximum_number_of_hashes p = 2 ^ 32 - 1 ->
  0 < table_size p' /\ table_size p' mod 8 = 0 /\ 0 < number_of_hashes p' <= 128.
Proof.
  unfold compute_optimal_parameters. destruct (params_invalid inv p); [done|]. destruct ((projected_element_count p =? 0) || unus _); [done|].
  destruct (search _ _) as [[min_k min_m]|]; [|done]. intros [= <-] Hs Hmin Hmax Hk HK. destruct (Hs min_k min_m eq_refl) as [Hkk Hm]. cbn. rewrite Hmin, Hmax, Hk, HK.
  assert (min_m <= round_up min_m < 2 ^ 64 /\ round_up min_m mod 8 = 0) as [Hr Hr8].
  { unfold round_up, BITS_PER_CHAR. pose proof (Z.mod_pos_bound min_m 8 ltac:(lia)) as Hb. pose proof (Z.div_mod min_m 8 ltac:(lia)) as Hd. case_decide as E.
    - rewrite u64_small by lia. split; [lia|]. apply Z.mod_divide; [lia|]. exists (min_m / 8 + 1). lia.
    - split; [lia|]. lia. }
  unfold clamp. rewrite (proj2 (Z.ltb_ge (round_up min_m) 1)) by lia. rewrite (proj2 (Z.ltb_ge (2 ^ 64 - 1) (round_up min_m))) by lia.
  split; [lia|]. split; [done|]. destruct (Z.ltb_spec min_k 1); [lia|]. destruct (Z.ltb_spec (2 ^ 32 - 1) min_k); lia.
Qed.

(** ** Properties *)
(** filters made with one set of parameters, whose table is a positive number of
    whole bytes, refine sets of bit positions with a count of insertions: every
    sequence of insertions, queries, clearings, copies, intersections, unions and
    differences is free of undefined behaviour and answers a query exactly when all
    positions of the key are in the set. *)
Theorem bloom_filter_refines {F : Type} draws (p : BloomParameters F) f n (ops : list bl_op) ss os :
  bloom_new draws p = Ret f -> 0 < table_size p -> table_size p mod 8 = 0 ->
  trace (bl_spec (salt_ f) (table_size p)) (replicate n (∅, 0)) ops = Ret (ss, os) ->
  exists fs, trace bl_step (replicate n f) ops = Ret (fs, os) /\
    Forall2 (fun f s => forall key, contains f key = Ret (bool_decide (hits (salt_ f) (table_size_ f) key ⊆ s.1)) /\ element_count f = s.2) fs ss.
Proof.
  intros Hf H0 Hm Hs. pose proof (bloom_new_rep draws p f Hf H0 Hm) as Hr.
  destruct (trace_refines (step := bl_step) (R := Forall2 (bl_rep (salt_ f) (table_size p) (salt_count_ f) (random_seed_ f))) ops (replicate n f) _ _ _ (Forall2_replicate _ n _ _ Hr) Hs) as (fs & Ht & HR).
  exists fs. split; [done|]. eapply Forall2_impl; [exact HR|]. intros g s Hg key. cbn beta. destruct (Hg) as [Hsalt (_ & Hsize & _) _ _ Hcount]. rewrite Hsalt, Hsize.
  split; [by eapply contains_rep|done].
Qed.

(** with at most 128 hash functions and a table of whole bytes there are no false
    negatives: after the insertion of any keys into two filters, the union contains
    every key of either and the intersection every key of both. *)
Theorem bloom_filter_no_false_negatives {F : Type} draws (p : BloomParameters F) (keys1 keys2 : list (list Z)) :
  0 <= number_of_hashes p <= 128 -> 0 < table_size p -> table_size p mod 8 = 0 ->
  exists f f1 f2 u i, bloom_new draws p = Ret f /\ insert_range f keys1 = Ret f1 /\ insert_range f keys2 = Ret f2 /\
    or_assign f1 f2 = Ret u /\ and_assign f1 f2 = Ret i /\
    contains_all f1 keys1 = Ret (length keys1) /\ contains_all u (keys1 ++ keys2) = Ret (length (keys1 ++ keys2)) /\
    forall key, key ∈ keys1 -> key ∈ keys2 -> contains i key = Ret true.
Proof.
  intros Hk H0 Hm. destruct (bloom_new_ok draws p Hk) as (f & Hf & _). pose proof (bloom_new_rep draws p f Hf H0 Hm) as Hr.
  destruct (insert_range_rep _ _ _ _ keys1 _ _ Hr) as (f1 & n1 & H1 & Hr1). destruct (insert_range_rep _ _ _ _ keys2 _ _ Hr) as (f2 & n2 & H2 & Hr2).
  destruct (or_rep _ _ _ _ _ _ _ _ Hr1 Hr2) as (u & Hu & Hru). destruct (and_rep _ _ _ _ _ _ _ _ Hr1 Hr2) as (i & Hi & Hri).
  exists f, f1, f2, u, i. pose proof (hits_all (salt_ f) (table_size p)) as Hall. cbn [fst snd] in *. do 5 (split; [done|]). split; [|split].
  - eapply contains_all_rep; [exact Hr1|]. intros key Hkey. cbn [fst]. specialize (Hall key keys1 Hkey). set_solver.
  - eapply contains_all_rep; [exact Hru|]. intros key Hkey. cbn [fst]. apply elem_of_app in Hkey as [Hkey|Hkey]; specialize (Hall key _ Hkey); set_solver.
  - intros key Hk1 Hk2. rewrite (contains_rep _ _ _ _ _ _ key Hri). cbn [fst]. rewrite bool_decide_true; [done|].
    pose proof (Hall key keys1 Hk1). pose proof (Hall key keys2 Hk2). set_solver.
Qed.

Section bloom_filter_witnesses.

#[local] Definition sample : BloomParameters unit := mkParams 1 (2 ^ 64 - 1) 1 (2 ^ 32 - 1) 4 tt 11936128517019425370 3 40.

#[local] Definition sample_ops : list bl_op :=
  [BlInsert 0 [1; 2; 3]; BlContains 0 [1; 2; 3]; BlContains 1 [1; 2; 3]; BlOr 1 0; BlContains 1 [1; 2; 3]; BlXor 1 0; BlContains 1 [1; 2; 3]; BlCount 0].

Lemma bloom_filter_refines_witness : exists f fs, bloom_new (fun _ => []) sample = Ret f /\
  trace bl_step (replicate 2 f) sample_ops =
    Ret (fs, [inl BlDone; inl (BlBool true); inl (BlBool false); inl BlDone; inl (BlBool true); inl BlDone; inl (BlBool false); inl (BlNum 1)]).
Proof.
  destruct (bloom_new (fun _ => []) sample) as [f|e| |] eqn:E; [|vm_compute in E; discriminate..]. exists f.
  destruct (trace (bl_spec (salt_ f) (table_size sample)) (replicate 2 (∅, 0)) sample_ops)
    as [[ss os]|e| |] eqn:Es; [|vm_compute in E; injection E as <-; vm_compute in Es; discriminate..].
  destruct (bloom_filter_refines (fun _ => []) sample f 2 sample_ops ss os E) as (fs & Ht & _); [done|done|exact Es|]. exists fs. split; [reflexivity|].
  vm_compute in E. injection E as <-. vm_compute in Es. injection Es as _ <-. exact Ht.
Defined.

Lemma bloom_filter_no_false_negatives_witness : exists f f1 f2 u, bloom_new (fun _ => []) sample = Ret f /\ insert_range f [[1]; [2; 3]] = Ret f1 /\
  insert_range f [[4; 5; 6; 7; 8; 9; 10; 11; 12]] = Ret f2 /\ or_assign f1 f2 = Ret u /\ contains_all u ([[1]; [2; 3]] ++ [[4; 5; 6; 7; 8; 9; 10; 11; 12]]) = Ret 3%nat.
Proof.
  destruct (bloom_filter_no_false_negatives (fun _ => []) sample [[1]; [2; 3]] [[4; 5; 6; 7; 8; 9; 10; 11; 12]]) as (f & f1 & f2 & u & i & Hf & H1 & H2 & Hu & _ & _ & Hall & _);
    [vm_compute; split; discriminate|reflexivity|reflexivity|]. exists f, f1, f2, u. split; [exact Hf|]. split; [exact H1|]. split; [exact H2|]. split; [exact Hu|exact Hall].
Defined.

(** A loose probability: the optimal size rounds to none, the bound makes it one bit,
    and the table has no byte for it. *)
Lemma bloom_filter_no_table :
  let p := compute_optimal_parameters (fun _ => false) (fun _ => false) (fun _ _ => Some (1, 0)) (mkParams 1 (2 ^ 64 - 1) 1 (2 ^ 32 - 1) 1 tt 11936128517019425370 0 0) in
  fst p = true /\ table_size (snd p) = 1 /\ exists f, bloom_new (fun _ => []) (snd p) = Ret f /\ insert f [1] = Undef.
Proof. split; [done|]. split; [done|]. eexists. split; [vm_compute; reflexivity|vm_compute; reflexivity]. Qed.
End bloom_filter_witnesses.
