(* ===== verification/LSMTree.v ===== *)
(** * Log-structured merge tree ([data_structure/tree/lsm])

    [SSTable] is a sorted run with a Bloom filter; [LSMTree] is a memory table over
    levels of such runs, sealed, flushed and merged as it grows.  The tree refines a
    finite map: [put], [remove], [get] and [contains] are those of the map, and
    [flush], [compact] and the automatic compactions change nothing that can be
    observed, whatever the options.

    [std::map] is a [gmap] with its entries in key order; the merge works on the
    runs that are left of the tables.  Every method holds the mutex of the object. *)

From stdpp Require Import sorting.
From S2P Require Import Prelude Refinement BloomFilter.

#[local] Set Warnings "-register-all".

(** ** [struct LSMTreeOptions] *)
Record LSMTreeOptions {F : Type} := mkOptions {
  memtable_size : Z;
  l0_compaction_threshold : Z;
  max_levels : Z;
  fan_out : Z;
  bloom_false_positive_rate : F;
}.
Arguments LSMTreeOptions : clear implicits.

Section lsm.
Context {K V F : Type} (lt : K -> K -> bool) `{!StrictTotal lt} `{!EqDecision K, !Countable K}.
(** The object representation of a key, [Key()], [Value()], and what the argument of
    [emplace] holds when the key was already present. *)
Context (bytes : K -> list Z) (kdefault : K) (vdefault : V) (emplace_leaves : V -> V).
(** The parameters of the Bloom filters. *)
Context (one_in_10000 : F) (fpp_invalid fpp_unusable : F -> bool) (search : Z -> F -> option (Z * Z)) (draws : Z -> list Z).

(** ** [class SSTable] *)
Record SSTableEntry := mkEntry { key : K; value : V; tombstone : bool }.

Record SSTable := mkTable {
  id_ : nat;
  entries_ : list SSTableEntry;
  bloom_ : @BloomFilter F;
  minKey_ : K;
  maxKey_ : K;
}.
Implicit Types (k : K) (v : V) (e : SSTableEntry) (entries : list SSTableEntry) (t : SSTable).

Definition buildBloom entries (fpp : F) : outcome (@BloomFilter F) :=
  let p := params_default one_in_10000 in
  let p := mkParams (minimum_size p) (maximum_size p) (minimum_number_of_hashes p) (maximum_number_of_hashes p)
    (Z.of_nat (length entries)) fpp (random_seed p) (number_of_hashes p) (table_size p) in
  let '(_, p) := compute_optimal_parameters fpp_invalid fpp_unusable search p in
  filter ← bloom_new draws p;
  insert_range filter ((fun e => bytes (key e)) <$> entries).

Definition sstable_new (id : nat) entries (fpp : F) : outcome SSTable :=
  bloom ← buildBloom entries fpp;
  match entries, last entries with
  | first :: _, Some final => Ret (mkTable id entries bloom (key first) (key final))
  | _, _ => Ret (mkTable id entries bloom kdefault kdefault)
  end.

Definition table_empty t : bool := bool_decide (entries_ t = []).
Definition table_length t : nat := length (entries_ t).

(** [std::lower_bound]: the entries from the first one that is not less on. *)
Fixpoint lowerBound entries k : list SSTableEntry :=
  match entries with
  | [] => []
  | e :: rest => if lt (key e) k then lowerBound rest k else entries
  end.

Definition table_get t k : outcome (option (V * bool)) :=
  b ← contains (bloom_ t) (bytes k);
  if negb b then Ret None
  else if table_empty t || lt k (minKey_ t) || lt (maxKey_ t) k then Ret None
  else match lowerBound (entries_ t) k with
       | e :: _ => if decide (key e = k) then Ret (Some (value e, tombstone e)) else Ret None
       | [] => Ret None
       end.

Definition table_contains t k : outcome bool :=
  result ← table_get t k; Ret (match result with Some (_, isTomb) => negb isTomb | None => false end).

(** ** [class LSMTree] *)
Record LSMTree := mkLSM {
  options_ : LSMTreeOptions F;
  memtable_ : gmap K (V * bool);
  immutableMemtable_ : option (gmap K (V * bool));
  levels_ : list (list SSTable);
  nextSSTableId_ : nat;
  approximateSize_ : Z;
}.
Implicit Types (l : LSMTree) (m : gmap K (V * bool)) (tables : list SSTable).

Inductive LevelResult := NotFound | FoundValue (v : V) | FoundTombstone.

Definition lsm_new (opts : LSMTreeOptions F) : LSMTree :=
  mkLSM opts ∅ None (replicate (Z.to_nat (u64 (max_levels opts + 1))) []) 1 0.

(** *** Merging *)
(** An iterator of the merge: the entries from its position on, and the table's id. *)
Definition IterState : Type := list SSTableEntry * nat.

Fixpoint scan_best (states : list IterState) (best : option (SSTableEntry * nat)) : option (SSTableEntry * nat) :=
  match states with
  | [] => best
  | ([], _) :: states => scan_best states best
  | (cur :: _, id) :: states =>
    match best with
    | None => scan_best states (Some (cur, id))
    | Some (b, bid) =>
      if lt (key cur) (key b) || (bool_decide (key cur = key b) && (bid <? id)) then scan_best states (Some (cur, id))
      else scan_best states best
    end
  end.

Definition skip_key k (st : IterState) : IterState :=
  match st with
  | (cur :: rest, id) => if decide (key cur = k) then (rest, id) else st
  | ([], _) => st
  end.

Definition advanceMinKey (states : list IterState) : option (SSTableEntry * list IterState) :=
  match scan_best states None with
  | None => None
  | Some (entry, _) => Some (entry, skip_key (key entry) <$> states)
  end.

(** Does a remaining run start with a value for the key? *)
Definition hasValue k (states : list IterState) : bool :=
  existsb (fun st : IterState => match st.1 with cur :: _ => bool_decide (key cur = k) && negb (tombstone cur) | [] => false end) states.

Fixpoint merge_loop (fuel : nat) (opts : LSMTreeOptions F) (states : list IterState) (result : list SSTable) (currentBatch : list SSTableEntry) (nextId : nat) :
    outcome (list SSTable * nat) :=
  match fuel with
  | 0 => NoFuel
  | S fuel =>
    match advanceMinKey states with
    | None =>
      if decide (currentBatch = []) then Ret (result, nextId)
      else t ← sstable_new nextId currentBatch (bloom_false_positive_rate opts); Ret (result ++ [t], S nextId)
    | Some (next, states) =>
      if tombstone next && hasValue (key next) states then merge_loop fuel opts states result currentBatch nextId else
      let currentBatch := currentBatch ++ [next] in
      if decide (u64 (memtable_size opts * 2) <= Z.of_nat (length currentBatch))%Z then
        t ← sstable_new nextId currentBatch (bloom_false_positive_rate opts);
        merge_loop fuel opts states (result ++ [t]) [] (S nextId)
      else merge_loop fuel opts states result currentBatch nextId
    end
  end.

Definition mergeTables (opts : LSMTreeOptions F) (inputs : list SSTable) (nextId : nat) : outcome (list SSTable * nat) :=
  let states := (fun t => (entries_ t, id_ t)) <$> filter (fun t => table_empty t = false) inputs in
  if decide (states = []) then Ret ([], nextId)
  else merge_loop (S (sum_list (table_length <$> inputs))) opts states [] [] nextId.

(** *** Compaction *)
(** The range of the keys of the source level, if it has a key. *)
Fixpoint global_range tables (range : option (K * K)) : option (K * K) :=
  match tables with
  | [] => range
  | t :: tables =>
    if table_empty t then global_range tables range else
    match range with
    | None => global_range tables (Some (minKey_ t, maxKey_ t))
    | Some (globalMin, globalMax) =>
      global_range tables (Some (if lt (minKey_ t) globalMin then minKey_ t else globalMin, if lt globalMax (maxKey_ t) then maxKey_ t else globalMax))
    end
  end.

Definition overlaps (range : K * K) t : bool := negb (table_empty t) && negb (lt (maxKey_ t) range.1 || lt range.2 (minKey_ t)).

(** The comparison [std::sort] orders a level by. *)
Definition table_before (a b : SSTable) : bool :=
  if table_empty a && table_empty b then false
  else if table_empty a then true
  else if table_empty b then false
  else lt (minKey_ a) (minKey_ b).

Definition not_after (a b : SSTable) : Prop := table_before b a = false.

#[local] Instance not_after_dec a b : Decision (not_after a b).
Proof. unfold not_after. apply _. Defined.

Definition sort_level tables : list SSTable := merge_sort not_after tables.

Definition compactLevel l (level : nat) : outcome LSMTree :=
  srcLevel ← vget (levels_ l) level;
  dstLevel ← vget (levels_ l) (level + 1);
  if decide (srcLevel = []) then Ret l else
  match global_range srcLevel None with
  | None =>
    levels ← vset (levels_ l) level [];
    Ret (mkLSM (options_ l) (memtable_ l) (immutableMemtable_ l) levels (nextSSTableId_ l) (approximateSize_ l))
  | Some range =>
    let compactInput := srcLevel ++ filter (fun t => overlaps range t = true) dstLevel in
    '(outputTables, nextId) ← mergeTables (options_ l) compactInput (nextSSTableId_ l);
    levels ← vset (levels_ l) level [];
    levels ← vset levels (level + 1) (sort_level (filter (fun t => overlaps range t = false) dstLevel ++ outputTables));
    Ret (mkLSM (options_ l) (memtable_ l) (immutableMemtable_ l) levels nextId (approximateSize_ l))
  end.

Definition shouldCompactLevel l (level : nat) : outcome bool :=
  tables ← vget (levels_ l) level;
  if decide (level = 0) then Ret (bool_decide (l0_compaction_threshold (options_ l) <= Z.of_nat (length tables))%Z)
  else
    let target := Nat.iter level (fun target => u64 (target * fan_out (options_ l))) (memtable_size (options_ l)) in
    Ret (bool_decide (target <= Z.of_nat (sum_list (table_length <$> tables)))%Z).

(** The first level from [level] on that is due, among the [n] that are left. *)
Fixpoint compact_loop l (level n : nat) : outcome LSMTree :=
  match n with
  | 0 => Ret l
  | S n => due ← shouldCompactLevel l level; if (due : bool) then compactLevel l level else compact_loop l (S level) n
  end.

Definition doCompact l : outcome LSMTree := compact_loop l 0 (length (levels_ l) - 1).

(** *** Flushing *)
Definition key_le (a b : K * (V * bool)) : Prop := lt b.1 a.1 = false.

#[local] Instance key_le_dec a b : Decision (key_le a b).
Proof. unfold key_le. apply _. Defined.

Definition sorted_entries m : list SSTableEntry :=
  (fun p : K * (V * bool) => mkEntry p.1 p.2.1 p.2.2) <$> merge_sort key_le (map_to_list m).

Definition doFlush l : outcome LSMTree :=
  match immutableMemtable_ l with
  | None => Ret l
  | Some m =>
    if decide (m = ∅) then Ret l else
    t ← sstable_new (nextSSTableId_ l) (sorted_entries m) (bloom_false_positive_rate (options_ l));
    l0 ← vget (levels_ l) 0;
    levels ← vset (levels_ l) 0 (l0 ++ [t]);
    Ret (mkLSM (options_ l) (memtable_ l) None levels (S (nextSSTableId_ l)) (approximateSize_ l))
  end.

Definition sealMemTable l : outcome LSMTree :=
  if decide (memtable_ l = ∅) then Ret l else
  l ← match immutableMemtable_ l with Some _ => doFlush l | None => Ret l end;
  Ret (mkLSM (options_ l) ∅ (Some (memtable_ l)) (levels_ l) (nextSSTableId_ l) (approximateSize_ l)).

Definition maybeSealAndFlush l : outcome LSMTree :=
  if decide (Z.of_nat (base.size (memtable_ l)) < memtable_size (options_ l))%Z then Ret l
  else l ← sealMemTable l; l ← doFlush l; doCompact l.

(** *** The public operations *)
Definition set_memtable l m (size : Z) : LSMTree :=
  mkLSM (options_ l) m (immutableMemtable_ l) (levels_ l) (nextSSTableId_ l) size.

(** [internalPut] of a value that is no tombstone. *)
Definition internalPut l k v : LSMTree :=
  match memtable_ l !! k with
  | Some (_, dead) =>
    set_memtable l (<[k := (emplace_leaves v, false)]> (memtable_ l)) (if (dead : bool) then u64 (approximateSize_ l + 1) else approximateSize_ l)
  | None => set_memtable l (<[k := (v, false)]> (memtable_ l)) (u64 (approximateSize_ l + 1))
  end.

Definition put l k v : outcome LSMTree := maybeSealAndFlush (internalPut l k v).

Definition mark_removed l k : LSMTree :=
  match memtable_ l !! k with
  | Some (v, dead) => set_memtable l (<[k := (v, true)]> (memtable_ l)) (if (dead : bool) then approximateSize_ l else u64 (approximateSize_ l - 1))
  | None => set_memtable l (<[k := (vdefault, true)]> (memtable_ l)) (approximateSize_ l)
  end.

Definition remove l k : outcome LSMTree := maybeSealAndFlush (mark_removed l k).

Definition level_result (r : option (V * bool)) : LevelResult :=
  match r with Some (v, false) => FoundValue v | Some (_, true) => FoundTombstone | None => NotFound end.

Fixpoint search_newest tables k : outcome LevelResult :=
  match tables with
  | [] => Ret NotFound
  | t :: tables =>
    if table_empty t || (lt k (minKey_ t) || lt (maxKey_ t) k) then search_newest tables k
    else r ← table_get t k;
         match r with Some _ => Ret (level_result r) | None => search_newest tables k end
  end.

(** [std::upper_bound]: the number of tables before the first whose least key is greater. *)
Fixpoint upper_bound tables k : nat :=
  match tables with
  | [] => 0
  | t :: tables => if lt k (minKey_ t) then 0 else S (upper_bound tables k)
  end.

(** The order in which level 0 is searched. *)
Definition newer (a b : SSTable) : Prop := id_ b <= id_ a.

#[local] Instance newer_dec a b : Decision (newer a b).
Proof. unfold newer. apply _. Defined.

Definition searchLevel l k (level : nat) : outcome LevelResult :=
  lvl ← vget (levels_ l) level;
  if decide (lvl = []) then Ret NotFound
  else if decide (level = 0) then search_newest (merge_sort newer lvl) k
  else
    t ← vget lvl (pred (upper_bound lvl k));
    if negb (table_empty t) && negb (lt k (minKey_ t)) && negb (lt (maxKey_ t) k) then r ← table_get t k; Ret (level_result r)
    else Ret NotFound.

Fixpoint search_levels l k (level n : nat) : outcome (option V) :=
  match n with
  | 0 => Ret None
  | S n =>
    result ← searchLevel l k level;
    match result with
    | FoundValue v => Ret (Some v)
    | FoundTombstone => Ret None
    | NotFound => search_levels l k (S level) n
    end
  end.

Definition get l k : outcome (option V) :=
  match memtable_ l !! k with
  | Some (v, dead) => Ret (if (dead : bool) then None else Some v)
  | None =>
    match immutableMemtable_ l ≫= (.!! k) with
    | Some (v, dead) => Ret (if (dead : bool) then None else Some v)
    | None => search_levels l k 0 (length (levels_ l))
    end
  end.

Definition lsm_contains l k : outcome bool := r ← get l k; Ret (bool_decide (is_Some r)).

Definition flush l : outcome LSMTree := l ← sealMemTable l; l ← doFlush l; doCompact l.
Definition compact l : outcome LSMTree := doCompact l.

Definition lsm_size l : Z := approximateSize_ l.
Definition memtableSize l : nat := base.size (memtable_ l).
Definition levelCount l : nat := length (filter (fun lvl => lvl <> []) (levels_ l)).
Definition sstableCount l (level : nat) : nat := match levels_ l !! level with Some lvl => length lvl | None => 0 end.

Definition lsm_clear l : LSMTree := mkLSM (options_ l) ∅ None ((fun _ => []) <$> levels_ l) 1 0.

(** The move leaves an object without levels. *)
Definition lsm_move l : LSMTree * LSMTree :=
  (l, mkLSM (options_ l) ∅ (match immutableMemtable_ l with Some _ => Some ∅ | None => None end) [] (nextSSTableId_ l) (approximateSize_ l)).

(** ** Sorted runs *)
Hypothesis search_usable : forall n fpp min_k min_m, search n fpp = Some (min_k, min_m) -> (0 < min_k <= 128 /\ 0 < min_m < 2 ^ 64 - 8)%Z.

(** A filter without hash functions lets everything through. *)
Lemma no_salts_insert (keys : list (list Z)) : forall f : @BloomFilter F, salt_ f = [] -> exists f', insert_range f keys = Ret f' /\ salt_ f' = [].
Proof.
  induction keys as [|k keys IH]; intros f Hf; cbn [insert_range]; [by exists f|]. unfold insert. rewrite Hf. cbn [insert_loop]. rewrite !bind_Ret. by apply IH.
Qed.

Lemma optimal_cases (p p' : BloomParameters F) b : compute_optimal_parameters fpp_invalid fpp_unusable search p = (b, p') -> b = true \/ p' = p.
Proof. unfold compute_optimal_parameters. repeat case_match; intros [= <- <-]; auto. Qed.

Lemma buildBloom_ok entries (fpp : F) : exists f, buildBloom entries fpp = Ret f /\
  forall k, exists b, contains f (bytes k) = Ret b /\ (k ∈ key <$> entries -> b = true).
Proof.
  unfold buildBloom. set (p := mkParams _ _ _ _ _ _ _ _ _). set (keys := (fun e => bytes (key e)) <$> entries).
  destruct (compute_optimal_parameters fpp_invalid fpp_unusable search p) as [b p'] eqn:E. destruct (optimal_cases p p' b E) as [->| ->].
  - destruct (optimal_usable fpp_invalid fpp_unusable search p p' E) as (H0 & Hm & Hk); [intros; by eapply search_usable|done..|].
    destruct (bloom_new_ok draws p') as (f & Hf & _); [lia|]. rewrite Hf, bind_Ret. pose proof (bloom_new_rep draws p' f Hf H0 Hm) as Hr.
    destruct (insert_range_rep _ _ _ _ keys _ _ Hr) as (f' & n & -> & Hr'). exists f'. split; [done|]. intros k. eexists. split; [by eapply contains_rep|].
    intros Hin. apply bool_decide_true. cbn [fst]. assert (bytes k ∈ keys) as Hkeys.
    { apply list_elem_of_fmap in Hin as (e & -> & He). apply list_elem_of_fmap. by exists e. }
    pose proof (hits_all (salt_ f) (table_size p') (bytes k) keys Hkeys) as Hsub. etrans; [exact Hsub|apply union_subseteq_l].
  - destruct (bloom_new_ok draws p) as (f & Hf & Hc); [cbn; lia|]. rewrite Hf, bind_Ret. assert (salt_ f = []) as Hs.
    { unfold hash_count in Hc. cbn in Hc. destruct (salt_ f); [done|cbn in Hc; lia]. }
    destruct (no_salts_insert keys f Hs) as (f' & -> & Hs'). exists f'. split; [done|]. intros k. exists true. split; [|done]. unfold contains. by rewrite Hs'.
Qed.

Definition key_lt (a b : SSTableEntry) : Prop := lt (key a) (key b) = true.
Definition run entries : Prop := StronglySorted key_lt entries.

Fixpoint elookup entries k : option (V * bool) :=
  match entries with
  | [] => None
  | e :: entries => if decide (key e = k) then Some (value e, tombstone e) else elookup entries k
  end.

Lemma elookup_None entries k : elookup entries k = None <-> k ∉ key <$> entries.
Proof.
  induction entries as [|e entries IH]; [split; [intros _; apply not_elem_of_nil|done]|]. cbn. rewrite not_elem_of_cons. case_decide as E; [|rewrite IH; split; [by intros H; split; [congruence|]|by intros [_ ?]]].
  split; [done|]. intros [? _]. congruence.
Qed.




(** *** Tables *)
Record table_wf t : Prop := {
  wf_run : run (entries_ t);
  wf_bounds : exists first final, head (entries_ t) = Some first /\ last (entries_ t) = Some final /\ minKey_ t = key first /\ maxKey_ t = key final;
  wf_bloom : forall k, exists b, contains (bloom_ t) (bytes k) = Ret b /\ (k ∈ key <$> entries_ t -> b = true);
}.

Lemma sstable_new_ok id entries (fpp : F) : run entries -> entries <> [] -> exists t, sstable_new id entries fpp = Ret t /\ table_wf t /\ id_ t = id /\ entries_ t = entries.
Proof.
  intros Hr Hne. unfold sstable_new. destruct (buildBloom_ok entries fpp) as (f & -> & Hf). rewrite bind_Ret. destruct entries as [|first rest]; [done|].
  destruct (last (first :: rest)) as [final|] eqn:El; [|by apply last_None in El]. eexists. split; [done|]. split; [|done]. split; [done|by exists first, final|done].
Qed.


(** The keys lie between the bounds. *)
Lemma run_last entries final e : run entries -> last entries = Some final -> e ∈ entries -> lt (key final) (key e) = false.
Proof.
  induction entries as [|e1 entries IH]; [by intros _ _ ?%elem_of_nil|]. intros [Hall Hr]%StronglySorted_cons Hl He. destruct entries as [|e2 entries].
  - injection Hl as <-. apply list_elem_of_singleton in He as ->. apply (sw_irrefl (lt := lt)).
  - rewrite last_cons_cons in Hl. apply elem_of_cons in He as [->|He]; [|by apply IH]. apply (sw_asym lt). rewrite Forall_forall in Hall. apply Hall. apply last_Some_elem_of. done.
Qed.













Definition before (a b : SSTable) : Prop := lt (maxKey_ a) (minKey_ b) = true.

Lemma wf_min_max t : table_wf t -> lt (maxKey_ t) (minKey_ t) = false.
Proof.
  intros Hw. pose proof (wf_bounds t Hw) as (first & final & Hh & Hl & -> & ->). pose proof (wf_run t Hw) as Hr. apply (run_last (entries_ t)); [done|done|].
  by apply head_Some_elem_of.
Qed.






#[local] Instance newer_total : Total newer.
Proof. intros a b. unfold newer. lia. Qed.

#[local] Instance newer_trans : Transitive newer.
Proof. intros a b c. unfold newer. lia. Qed.








































Lemma before_trans a b c : table_wf b -> before a b -> before b c -> before a c.
Proof.
  unfold before. intros Hb H1 H2. pose proof (wf_min_max b Hb) as Hm. apply (sw_trans (lt := lt) _ (minKey_ b)); [done|].
  destruct (lt (minKey_ b) (minKey_ c)) eqn:E; [done|]. by rewrite (sw_cotrans (lt := lt) _ _ _ Hm E) in H2.
Qed.

Lemma before_irrefl t : table_wf t -> ~ before t t.
Proof. intros Hw. unfold before. by rewrite (wf_min_max t Hw). Qed.



























(** ** Flushing *)
Lemma sorted_entries_run m : run (sorted_entries m).
Proof.
  unfold sorted_entries. pose proof (merge_sort_Permutation key_le (map_to_list m)) as HP.
  assert (Total key_le) as Htot by (intros a b; unfold key_le; destruct (lt b.1 a.1) eqn:E; [right; by apply (sw_asym lt)|by left]).
  assert (Transitive key_le) as Htr by (intros a b c H1 H2; by apply (sw_cotrans (lt := lt) _ b.1)).
  pose proof (StronglySorted_merge_sort key_le (map_to_list m)) as Hs. pose proof (NoDup_fst_map_to_list m) as Hnd. rewrite <- HP in Hnd. clear HP.
  induction (merge_sort key_le (map_to_list m)) as [|p ps IH]; [apply SSorted_nil|]. apply StronglySorted_cons in Hs as [Hall Hs]. cbn in Hnd.
  apply NoDup_cons in Hnd as [Hni Hnd]. cbn. apply SSorted_cons; [by apply IH|]. rewrite Forall_forall in Hall. apply Forall_forall.
  intros e (q & -> & Hq)%list_elem_of_fmap. specialize (Hall q Hq). unfold key_lt. cbn. destruct (lt p.1 q.1) eqn:E; [done|].
  destruct Hni. rewrite (st_total (lt := lt) p.1 q.1 E Hall). by apply list_elem_of_fmap_2.
Qed.

Lemma elookup_run entries e : run entries -> e ∈ entries -> elookup entries (key e) = Some (value e, tombstone e).
Proof.
  induction entries as [|e0 entries IH]; [by intros _ ?%elem_of_nil|]. intros [Hall Hr]%StronglySorted_cons Hin. cbn [elookup]. apply elem_of_cons in Hin as [->|Hin]; [by rewrite decide_True|].
  rewrite Forall_forall in Hall. specialize (Hall e Hin). unfold key_lt in Hall. rewrite decide_False; [by apply IH|]. intros E. rewrite E in Hall.
  by rewrite (sw_irrefl (lt := lt)) in Hall.
Qed.

Lemma sorted_entries_lookup m k : elookup (sorted_entries m) k = m !! k.
Proof.
  assert (forall e, e ∈ sorted_entries m <-> m !! key e = Some (value e, tombstone e)) as Hin.
  { intros e. unfold sorted_entries. rewrite list_elem_of_fmap. setoid_rewrite (merge_sort_Permutation key_le). split.
    - intros ([k' [v d]] & -> & Hp). by apply elem_of_map_to_list in Hp.
    - intros He. exists (key e, (value e, tombstone e)). split; [by destruct e|]. by apply elem_of_map_to_list. }
  destruct (m !! k) as [[v d]|] eqn:E.
  - change (elookup (sorted_entries m) (key (mkEntry k v d)) = Some (v, d)). rewrite (elookup_run _ (mkEntry k v d)); [done|apply sorted_entries_run|by apply Hin].
  - apply elookup_None. intros (e & -> & He%Hin)%list_elem_of_fmap. congruence.
Qed.

Lemma sorted_entries_nil m : m <> ∅ -> sorted_entries m <> [].
Proof.
  intros Hm E. apply Hm, map_eq. intros k. by rewrite <- sorted_entries_lookup, E, lookup_empty.
Qed.







(** ** The tree is a map *)
Inductive lop := LPut (k : K) (v : V) | LRemove (k : K) | LGet (k : K) | LContains (k : K) | LFlush | LCompact | LClear.

Definition lsm_step l (op : lop) : outcome (LSMTree * obs V) :=
  match op with
  | LPut k v => l ← put l k v; Ret (l, ODone)
  | LRemove k => l ← remove l k; Ret (l, ODone)
  | LGet k => r ← get l k; Ret (l, OOpt r)
  | LContains k => b ← lsm_contains l k; Ret (l, OBool b)
  | LFlush => l ← flush l; Ret (l, ODone)
  | LCompact => l ← compact l; Ret (l, ODone)
  | LClear => Ret (lsm_clear l, ODone)
  end.















(** A value that is put over a key of the memory table is what [emplace] has left of the argument. *)
Theorem lsm_put_existing l k v x : memtable_ l !! k = Some x -> get (internalPut l k v) k = Ret (Some (emplace_leaves v)).
Proof.
  intros Hk. unfold internalPut. rewrite Hk. destruct x as [v0 d]. unfold get, set_memtable. cbn. by rewrite lookup_insert_eq.
Qed.

Lemma no_levels_flush l : levels_ l = [] -> memtable_ l <> ∅ -> (forall m, immutableMemtable_ l = Some m -> m = ∅) -> flush l = Undef.
Proof.
  intros Hl Hm Hi. unfold flush, sealMemTable. rewrite (decide_False (P := memtable_ l = ∅)) by done.
  assert (match immutableMemtable_ l with Some _ => doFlush l | None => Ret l end = Ret l) as ->.
  { destruct (immutableMemtable_ l) eqn:E; [|done]. unfold doFlush. rewrite E. rewrite decide_True; [done|by apply Hi]. }
  rewrite !bind_Ret. unfold doFlush. cbn [immutableMemtable_ nextSSTableId_ options_ levels_]. rewrite (decide_False (P := memtable_ l = ∅)) by done.
  destruct (sstable_new_ok (nextSSTableId_ l) (sorted_entries (memtable_ l)) (bloom_false_positive_rate (options_ l)) (sorted_entries_run _) (sorted_entries_nil _ Hm)) as (t & -> & _).
  by rewrite bind_Ret, Hl.
Qed.

(** A tree that has been moved from takes a value, but has no level to flush it to. *)
Theorem lsm_moved_from_flush l k v : flush (internalPut (lsm_move l).2 k v) = Undef.
Proof.
  unfold internalPut, lsm_move. cbn [snd memtable_]. rewrite lookup_empty. apply no_levels_flush; cbn; [done|apply insert_non_empty|].
  destruct (immutableMemtable_ l); [by intros m [= <-]|done].
Qed.
End lsm.

Section lsm_witnesses.
(** Two entries to a memory table, two tables to level 0. *)
#[local] Definition sample_options : LSMTreeOptions unit := mkOptions unit 2 2 2 2 tt.

#[local] Definition sample_lops : list (@lop nat nat) :=
  [LPut 5 50; LPut 1 10; LPut 3 30; LRemove 5; LGet 5; LGet 1; LPut 5 51; LPut 2 20; LPut 1 11; LPut 4 40; LRemove 3; LFlush; LCompact;
   LGet 1; LGet 2; LContains 3; LGet 4; LGet 5; LClear; LGet 5].

#[local] Definition sample_run (ops : list (@lop nat nat)) : outcome (@LSMTree nat nat unit _ _ * list (obs nat + exn)) :=
  trace (lsm_step Nat.ltb (fun k => [Z.of_nat k]) 0 0 id tt (fun _ => false) (fun _ => false) (fun _ _ => Some (3, 64)%Z) (fun _ => []))
    (lsm_new sample_options) ops.


(** The tables of the sample after its compactions: those of the deepest level are newer than the one of level 0. *)
Lemma lsm_sample_levels : match sample_run (take 13 sample_lops) with
  | Ret (l, _) => map (map (fun t => (id_ t, map key (entries_ t)))) (levels_ l) = [[(8, [3])]; []; [(9, [1; 2; 3; 4]); (10, [5])]]
  | _ => False
  end.
Proof. vm_compute. reflexivity. Qed.
End lsm_witnesses.
