(* ===== verification/MerkleTree.v ===== *)
(** * Merkle tree ([data_structure/tree/crypto/MerkleTree])

    The levels of a hash tree and its proofs.  The tree refines the list of its leaf
    hashes: the levels, the root and the siblings of a proof are those of a recursive
    definition.  Every proof the tree makes verifies, and a proof of the tree's depth
    that verifies for a block proves that the block is in the tree, or two
    inputs of one digest are computed from it.

    Bytes are integers.  SHA-256 is computed by OpenSSL: the digest is a parameter,
    of which only the length and the range of the bytes are assumed; failures of
    OpenSSL are not modelled. *)

From S2P Require Import Prelude Refinement.

#[local] Set Warnings "-register-all".

Definition hash : Type := list Z.

(** ** [struct MerkleProof] *)
Record MerkleProof := mkProof { leafIndex : nat; siblings : list hash; isLeft : list bool }.

(** ** [class MerkleTree] *)
Record MerkleTree := mkMerkle { levels_ : list (list hash); leaf_count_ : nat }.

Section merkle.
Context (evp_sha256 : list Z -> hash).
Implicit Types (t : MerkleTree) (h : hash) (leaves : list hash).

Definition sha256 (data : list Z) : hash := evp_sha256 data.
Definition sha256_2 (a b : list Z) : hash := evp_sha256 (a ++ b).

(** *** Construction *)
Fixpoint next_level (current : list hash) : list hash :=
  match current with
  | [] => []
  | [a] => [sha256_2 a a]
  | a :: b :: current => sha256_2 a b :: next_level current
  end.

Fixpoint build_levels (fuel : nat) (levels : list (list hash)) : outcome (list (list hash)) :=
  match fuel with
  | 0 => NoFuel
  | S fuel =>
    match last levels with
    | None => Undef
    | Some current => if decide (1 < length current) then build_levels fuel (levels ++ [next_level current]) else Ret levels
    end
  end.

Definition rebuildInternalNodes (levels : list (list hash)) : outcome MerkleTree :=
  match levels with
  | [] | [] :: _ => Ret (mkMerkle [] 0)
  | leaves :: _ => levels ← build_levels (S (length leaves)) [leaves]; Ret (mkMerkle levels (length leaves))
  end.

Definition merkle_default : MerkleTree := mkMerkle [] 0.

Definition merkle_new (dataBlocks : list (list Z)) : outcome MerkleTree :=
  if decide (length dataBlocks = 0) then Ret merkle_default else rebuildInternalNodes [sha256 <$> dataBlocks].

Definition addLeafByHash t (leafHash : hash) : outcome MerkleTree :=
  let levels := if decide (levels_ t = []) then [[]] else levels_ t in
  leaves ← vget levels 0;
  levels ← vset levels 0 (leaves ++ [leafHash]);
  rebuildInternalNodes levels.

Definition addLeaf t (dataBlock : list Z) : outcome MerkleTree := addLeafByHash t (sha256 dataBlock).

Definition clear t : MerkleTree := merkle_default.

(** The vectors are moved, the count is exchanged for zero. *)
Definition merkle_move t : MerkleTree * MerkleTree := (t, merkle_default).

(** *** Queries *)
Definition rootHash t : hash := match last (levels_ t) with Some (root :: _) => root | _ => [] end.

(** The characters of 0123456789abcdef. *)
Definition kHexChars : list Z := [48; 49; 50; 51; 52; 53; 54; 55; 56; 57; 97; 98; 99; 100; 101; 102]%Z.

Fixpoint hex_of (bytes : list Z) : outcome (list Z) :=
  match bytes with
  | [] => Ret []
  | b :: bytes =>
    hi ← vgetz kHexChars (Z.shiftr b 4);
    lo ← vgetz kHexChars (Z.land b 15);
    rest ← hex_of bytes;
    Ret (hi :: lo :: rest)
  end.

Definition rootHex t : outcome (list Z) := if decide (leaf_count_ t = 0) then Ret [] else hex_of (rootHash t).

Definition leafCount t : nat := leaf_count_ t.

Definition leafHash t (index : nat) : outcome hash :=
  match levels_ t with
  | [] => Throw out_of_range
  | leaves :: _ => if decide (length leaves <= index) then Throw out_of_range else vget leaves index
  end.

(** *** Proofs *)
Fixpoint proof_loop (levels : list (list hash)) (position : nat) (siblings : list hash) (isLeft : list bool) : outcome (list hash * list bool) :=
  match levels with
  | [] | [_] => Ret (siblings, isLeft)
  | currentLevel :: levels =>
    if decide (position mod 2 = 0) then
      sibling ← (if decide (position + 1 < length currentLevel) then vget currentLevel (position + 1) else vget currentLevel position);
      proof_loop levels (position / 2) (siblings ++ [sibling]) (isLeft ++ [false])
    else
      sibling ← vget currentLevel (position - 1);
      proof_loop levels (position / 2) (siblings ++ [sibling]) (isLeft ++ [true])
  end.

Definition getProof t (leafIndex : nat) : outcome (option MerkleProof) :=
  if decide (levels_ t = [] \/ leaf_count_ t <= leafIndex) then Ret None
  else '(siblings, isLeft) ← proof_loop (levels_ t) leafIndex [] []; Ret (Some (mkProof leafIndex siblings isLeft)).

Fixpoint verify_loop (siblings : list hash) (isLeft : list bool) (current : hash) : hash :=
  match siblings, isLeft with
  | sibling :: siblings, onLeft :: isLeft => verify_loop siblings isLeft (if (onLeft : bool) then sha256_2 sibling current else sha256_2 current sibling)
  | _, _ => current
  end.

Definition verifyProof (proof : MerkleProof) (leafHash rootHash : hash) : bool :=
  if decide (length (siblings proof) <> length (isLeft proof)) then false
  else bool_decide (verify_loop (siblings proof) (isLeft proof) leafHash = rootHash).

(** ** The tree of a list of leaves *)
(** The root of depth [d]: a missing right half is a copy of the left one. *)
Fixpoint mroot (d : nat) leaves : hash :=
  match d with
  | 0 => match leaves with h :: _ => h | [] => [] end
  | S d =>
    let lhs := mroot d (take (2 ^ d) leaves) in
    sha256_2 lhs (if decide (drop (2 ^ d) leaves = []) then lhs else mroot d (drop (2 ^ d) leaves))
  end.

(** The leaves below the node [j] of level [k]. *)
Definition chunk leaves (k j : nat) : list hash := take (2 ^ k) (drop (j * 2 ^ k) leaves).

Definition level leaves (k : nat) : list hash := Nat.iter k next_level leaves.

Lemma list_pair_ind {A} (P : list A -> Prop) : P [] -> (forall a, P [a]) -> (forall a b l, P l -> P (a :: b :: l)) -> forall l, P l.
Proof.
  intros H0 H1 H2. assert (forall l, P l /\ forall a, P (a :: l)) as H; [|intros l; apply H]. induction l as [|b l [IH1 IH2]]; [done|]. split; [apply IH2|].
  intros a. by apply H2.
Qed.

Lemma lookup_next_level (current : list hash) : forall j, next_level current !! j =
  (fun a => sha256_2 a (default a (current !! (2 * j + 1)))) <$> current !! (2 * j).
Proof.
  induction current as [|a|a b current IH] using list_pair_ind; intros j; cbn [next_level].
  - by rewrite !lookup_nil.
  - destruct j as [|j]; [done|]. replace (2 * S j) with (S (S (2 * j))) by lia. done.
  - destruct j as [|j]; [done|]. replace (2 * S j + 1) with (S (S (2 * j + 1))) by lia. replace (2 * S j) with (S (S (2 * j))) by lia. apply IH.
Qed.

Lemma chunk_nil leaves k j : chunk leaves k j = [] <-> length leaves <= j * 2 ^ k.
Proof.
  unfold chunk. rewrite <- length_zero_iff_nil, length_take, length_drop. pose proof (Nat.pow_nonzero 2 k). lia.
Qed.

Lemma mroot_chunk leaves k j : j * 2 ^ S k < length leaves ->
  mroot (S k) (chunk leaves (S k) j) =
  let lhs := mroot k (chunk leaves k (2 * j)) in sha256_2 lhs (if decide (chunk leaves k (2 * j + 1) = []) then lhs else mroot k (chunk leaves k (2 * j + 1))).
Proof.
  intros Hj. unfold chunk. cbn [mroot]. rewrite take_take, skipn_firstn_comm, drop_drop. rewrite (Nat.pow_succ_r' 2 k) in Hj |- *.
  replace (2 ^ k `min` (2 * 2 ^ k)) with (2 ^ k) by lia. replace (2 * 2 ^ k - 2 ^ k) with (2 ^ k) by lia.
  replace (j * (2 * 2 ^ k)) with (2 * j * 2 ^ k) by lia. by replace (2 * j * 2 ^ k + 2 ^ k) with ((2 * j + 1) * 2 ^ k) by lia.
Qed.

Lemma lookup_level leaves k : forall j, level leaves k !! j = if decide (j * 2 ^ k < length leaves) then Some (mroot k (chunk leaves k j)) else None.
Proof.
  induction k as [|k IH]; intros j.
  - change (level leaves 0) with leaves. unfold chunk. cbn [mroot]. change (2 ^ 0) with 1. rewrite Nat.mul_1_r. case_decide as Hj.
    + destruct (lookup_lt_is_Some_2 leaves j Hj) as [h Hh]. rewrite Hh. by rewrite (drop_S _ _ _ Hh).
    + by apply lookup_ge_None, Nat.le_ngt.
  - change (level leaves (S k)) with (next_level (level leaves k)). rewrite lookup_next_level, !IH. rewrite (Nat.pow_succ_r' 2 k).
    destruct (decide (2 * j * 2 ^ k < length leaves)) as [H|H].
    + rewrite (decide_True (P := j * (2 * 2 ^ k) < length leaves)) by lia. rewrite mroot_chunk by (rewrite Nat.pow_succ_r'; lia). cbn [fmap option_fmap option_map]. do 2 f_equal.
      destruct (decide ((2 * j + 1) * 2 ^ k < length leaves)) as [H'|H'].
      * rewrite decide_False; [done|]. rewrite chunk_nil. lia.
      * rewrite decide_True; [done|]. apply chunk_nil. lia.
    + rewrite (decide_False (P := j * (2 * 2 ^ k) < length leaves)) by lia. reflexivity.
Qed.

Lemma level_short leaves k : length (level leaves k) <= 1 <-> length leaves <= 2 ^ k.
Proof.
  rewrite <- lookup_ge_None, lookup_level. case_decide; [split; [done|lia]|]. split; [lia|done].
Qed.

(** *** The levels *)
Definition depth leaves : nat := Nat.log2_up (length leaves).

Definition levels_to leaves (k : nat) : list (list hash) := level leaves <$> seq 0 (S k).

Lemma levels_to_S leaves k : levels_to leaves (S k) = levels_to leaves k ++ [level leaves (S k)].
Proof. unfold levels_to. by rewrite (seq_S (S k)), fmap_app. Qed.

Lemma last_levels_to leaves k : last (levels_to leaves k) = Some (level leaves k).
Proof. destruct k; [done|]. by rewrite levels_to_S, last_snoc. Qed.

Lemma depth_enough leaves : length leaves <= 2 ^ depth leaves.
Proof.
  unfold depth. destruct (decide (length leaves <= 1)); [|apply Nat.log2_up_spec; lia]. pose proof (Nat.pow_nonzero 2 (Nat.log2_up (length leaves))). lia.
Qed.

Lemma depth_least leaves k : k < depth leaves -> 2 ^ k < length leaves.
Proof. intros Hk. destruct (decide (2 ^ k < length leaves)) as [|H]; [done|]. apply Nat.nlt_ge, Nat.log2_up_le_mono in H. rewrite Nat.log2_up_pow2 in H by lia. unfold depth in Hk. lia. Qed.

Lemma build_levels_ok leaves fuel : forall k, k <= depth leaves -> depth leaves < fuel + k -> build_levels fuel (levels_to leaves k) = Ret (levels_to leaves (depth leaves)).
Proof.
  induction fuel as [|fuel IH]; intros k Hk Hf; [lia|]. cbn [build_levels]. rewrite last_levels_to. case_decide as Hl.
  - assert (k < depth leaves) as Hlt.
    { destruct (decide (k = depth leaves)) as [->|]; [|lia]. pose proof (proj2 (level_short leaves (depth leaves)) (depth_enough leaves)). lia. }
    change (next_level (level leaves k)) with (level leaves (S k)). rewrite <- levels_to_S. apply IH; lia.
  - assert (k = depth leaves) as ->; [|done]. destruct (decide (k = depth leaves)); [done|]. pose proof (depth_least leaves k ltac:(lia)).
    apply Nat.nlt_ge, level_short in Hl. lia.
Qed.

(** The tree of the leaves. *)
Definition tree_of leaves : MerkleTree := mkMerkle (if decide (leaves = []) then [] else levels_to leaves (depth leaves)) (length leaves).

Lemma rebuild_ok leaves (levels : list (list hash)) : rebuildInternalNodes (leaves :: levels) = Ret (tree_of leaves).
Proof.
  destruct leaves as [|h leaves]; [done|]. cbn [rebuildInternalNodes]. change [h :: leaves] with (levels_to (h :: leaves) 0).
  rewrite build_levels_ok; [done|lia|]. unfold depth. pose proof (Nat.log2_up_le_lin (length (h :: leaves))). lia.
Qed.

(** ** The operations on the leaves *)
Definition merkle_root leaves : hash := mroot (depth leaves) leaves.

Lemma last_tree leaves : last (levels_ (tree_of leaves)) = if decide (leaves = []) then None else Some [merkle_root leaves].
Proof.
  unfold tree_of. cbn [levels_]. case_decide as Hne; [done|]. rewrite last_levels_to. f_equal. pose proof (proj2 (level_short leaves _) (depth_enough leaves)) as Hl.
  assert (level leaves (depth leaves) !! 0 = Some (merkle_root leaves)) as H0.
  { rewrite lookup_level. assert (leaves <> []) as Hl0 by done. rewrite <- length_zero_iff_nil in Hl0. rewrite decide_True by lia.
    unfold chunk. rewrite Nat.mul_0_l, drop_0, firstn_all2 by apply depth_enough. done. }
  destruct (level leaves (depth leaves)) as [|h [|h' rest]]; [done| |cbn in Hl; lia]. injection H0 as ->. done.
Qed.

Lemma rootHash_ok leaves : rootHash (tree_of leaves) = if decide (leaves = []) then [] else merkle_root leaves.
Proof. unfold rootHash. rewrite last_tree. by case_decide. Qed.

Lemma levels_tree leaves : leaves <> [] -> levels_ (tree_of leaves) = leaves :: (level leaves <$> seq 1 (depth leaves)).
Proof. intros Hne. unfold tree_of. cbn [levels_]. by rewrite decide_False. Qed.

Lemma addLeafByHash_ok leaves h : addLeafByHash (tree_of leaves) h = Ret (tree_of (leaves ++ [h])).
Proof.
  unfold addLeafByHash. destruct (decide (leaves = [])) as [->|Hne]; [apply (rebuild_ok [h])|]. rewrite levels_tree by done.
  rewrite decide_False by done. cbn [vget lookup list_lookup]. rewrite bind_Ret, vset_lt by (cbn; lia). rewrite bind_Ret. apply rebuild_ok.
Qed.

Lemma merkle_new_ok (dataBlocks : list (list Z)) : merkle_new dataBlocks = Ret (tree_of (sha256 <$> dataBlocks)).
Proof. unfold merkle_new. case_decide as Hd; [by destruct dataBlocks|]. apply rebuild_ok. Qed.

Lemma leafHash_ok leaves (i : nat) : leafHash (tree_of leaves) i = match leaves !! i with Some h => Ret h | None => Throw out_of_range end.
Proof.
  unfold leafHash. destruct (decide (leaves = [])) as [->|Hne]; [done|]. rewrite levels_tree by done.
  case_decide as Hi; [by rewrite (proj2 (lookup_ge_None leaves i))|].
  destruct (lookup_lt_is_Some_2 leaves i) as [h Hh]; [lia|]. by rewrite Hh, (vget_Some _ _ _ Hh).
Qed.

(** The node that stands for a missing one is its left neighbour. *)
Definition node leaves (k j : nat) : hash := mroot k (chunk leaves k j).

Definition sibling leaves (k p : nat) : hash * bool :=
  if decide (p mod 2 = 0) then (if decide (chunk leaves k (p + 1) = []) then node leaves k p else node leaves k (p + 1), false)
  else (node leaves k (p - 1), true).

(** The siblings of the nodes above leaf [i]. *)
Definition path leaves (i : nat) : list (hash * bool) := (fun k => sibling leaves k (i / 2 ^ k)) <$> seq 0 (depth leaves).

Lemma half_position (p n k : nat) : p * 2 ^ k < n -> p / 2 * 2 ^ S k < n.
Proof. intros H. rewrite Nat.pow_succ_r'. pose proof (Nat.Div0.div_mod p 2). nia. Qed.

Lemma proof_step leaves (k p : nat) (ls : list hash) : ls = level leaves k -> p * 2 ^ k < length leaves ->
  (if decide (p mod 2 = 0) then
     sibling ← (if decide (p + 1 < length ls) then vget ls (p + 1) else vget ls p); Ret (sibling, false)
   else sibling ← vget ls (p - 1); Ret (sibling, true)) = Ret (sibling leaves k p).
Proof.
  intros -> Hp. unfold sibling, node. case_decide as Hm.
  - case_decide as Hl.
    + pose proof (lookup_level leaves k (p + 1)) as H. destruct (lookup_lt_is_Some_2 _ _ Hl) as [h Hh]. rewrite (vget_Some _ _ _ Hh), bind_Ret. rewrite Hh in H.
      case_decide as Hk; [|done]. rewrite decide_False; [congruence|]. rewrite chunk_nil. lia.
    + apply Nat.nlt_ge, lookup_ge_None in Hl. rewrite lookup_level in Hl. case_decide as Hk; [done|]. rewrite (decide_True (P := chunk leaves k (p + 1) = [])) by (apply chunk_nil; lia).
      rewrite (vget_Some _ _ (mroot k (chunk leaves k p))); [done|]. by rewrite lookup_level, decide_True.
  - rewrite (vget_Some _ _ (mroot k (chunk leaves k (p - 1)))); [done|]. rewrite lookup_level, decide_True; [done|]. nia.
Qed.

Lemma proof_loop_ok leaves n : forall (k p : nat) (sibs : list hash) bits, k + n = depth leaves -> p * 2 ^ k < length leaves ->
  proof_loop (level leaves <$> seq k (S n)) p sibs bits =
  Ret (sibs ++ ((fun j => (sibling leaves (k + j) (p / 2 ^ j)).1) <$> seq 0 n), bits ++ ((fun j => (sibling leaves (k + j) (p / 2 ^ j)).2) <$> seq 0 n)).
Proof.
  induction n as [|n IH]; intros k p sibs bits Hk Hp; [cbn; by rewrite !app_nil_r|].
  change (level leaves <$> seq k (S (S n))) with (level leaves k :: (level leaves <$> seq (S k) (S n))). cbn [proof_loop].
  pose proof (proof_step leaves k p _ eq_refl Hp) as Hstep. specialize (IH (S k) (p / 2)). 
  assert (forall (x : hash) (b : bool), sibling leaves k p = (x, b) -> proof_loop (level leaves <$> seq (S k) (S n)) (p / 2) (sibs ++ [x]) (bits ++ [b]) =
    Ret (sibs ++ ((fun j => (sibling leaves (k + j) (p / 2 ^ j)).1) <$> seq 0 (S n)), bits ++ ((fun j => (sibling leaves (k + j) (p / 2 ^ j)).2) <$> seq 0 (S n)))) as Hrest.
  { intros x b E. rewrite IH by (lia || by apply half_position). assert (forall A (f : hash * bool -> A),
      (fun j => f (sibling leaves (S k + j) (p / 2 / 2 ^ j))) <$> seq 0 n = (fun j => f (sibling leaves (k + j) (p / 2 ^ j))) <$> seq 1 n) as Hs.
    { intros A f. rewrite <- fmap_S_seq, <- list_fmap_compose. apply list_fmap_ext. intros i j _. cbn. by rewrite Nat.pow_succ_r', Nat.Div0.div_div, Nat.add_succ_r. }
    rewrite (Hs _ fst), (Hs _ snd), <- !(assoc_L (++)). cbn [seq fmap list_fmap app]. by rewrite Nat.add_0_r, Nat.pow_0_r, Nat.div_1_r, E. }
  change (level leaves <$> seq (S k) (S n)) with (level leaves (S k) :: (level leaves <$> seq (S (S k)) n)) in Hrest |- *. cbn iota.
  destruct (decide (p mod 2 = 0)).
  - apply bind_Ret_inv in Hstep as (x & -> & [= Hx]). rewrite bind_Ret. by apply Hrest.
  - apply bind_Ret_inv in Hstep as (x & -> & [= Hx]). rewrite bind_Ret. by apply Hrest.
Qed.

Lemma getProof_ok leaves (i : nat) : getProof (tree_of leaves) i =
  Ret (if decide (i < length leaves) then Some (mkProof i (path leaves i).*1 (path leaves i).*2) else None).
Proof.
  unfold getProof. destruct (decide (i < length leaves)) as [Hi|Hi].
  - assert (leaves <> []) as Hne by (intros ->; cbn in Hi; lia). cbn [tree_of levels_ leaf_count_]. rewrite (decide_False (P := leaves = [])) by done.
    rewrite decide_False by (intros [?|?]; [done|lia]). unfold levels_to. rewrite (proof_loop_ok leaves (depth leaves) 0 i [] []) by (rewrite ?Nat.pow_0_r; lia).
    rewrite bind_Ret. unfold path. by rewrite <- !list_fmap_compose.
  - rewrite decide_True; [done|]. right. cbn. lia.
Qed.

(** *** The root in hexadecimal *)
Definition byte_ok (b : Z) : Prop := (0 <= b < 256)%Z.

Definition hex_digit (n : Z) : Z := (if decide (n < 10) then 48 + n else 87 + n)%Z.

Definition hex (bytes : list Z) : list Z := b ← bytes; [hex_digit (b / 16); hex_digit (b mod 16)].

Lemma kHexChars_lookup n : (0 <= n < 16)%Z -> vgetz kHexChars n = Ret (hex_digit n).
Proof.
  intros Hn. apply vgetz_Some; [lia|]. assert (n ∈ (Z.of_nat <$> seq 0 16)) as Hin.
  { apply list_elem_of_fmap. exists (Z.to_nat n). split; [lia|]. apply elem_of_seq. lia. }
  cbn in Hin. repeat (apply elem_of_cons in Hin as [->|Hin]; [done|]). by apply elem_of_nil in Hin.
Qed.

Lemma hex_of_ok (bytes : list Z) : Forall byte_ok bytes -> hex_of bytes = Ret (hex bytes).
Proof.
  induction 1 as [|b bytes Hb _ IH]; [done|]. unfold byte_ok in Hb. cbn [hex_of]. change (Z.land b 15) with (Z.land b (Z.ones 4)).
  rewrite Z.land_ones, Z.shiftr_div_pow2 by lia. change (2 ^ 4)%Z with 16%Z.
  rewrite !kHexChars_lookup, IH by (first [apply Z.mod_pos_bound; lia | split; [apply Z.div_pos; lia|apply Z.div_lt_upper_bound; lia]]). done.
Qed.

(** ** The tree is the list of its leaves *)
Inductive mop := MNew (blocks : list (list Z)) | MAdd (block : list Z) | MAddHash (h : hash) | MClear | MMove | MRoot | MHex | MCount | MLeaf (i : nat) | MProof (i : nat).
Inductive mobs := MoDone | MoBytes (b : list Z) | MoNum (n : nat) | MoProof (p : option MerkleProof).

Definition mstep t (op : mop) : outcome (MerkleTree * mobs) :=
  match op with
  | MNew blocks => t ← merkle_new blocks; Ret (t, MoDone)
  | MAdd block => t ← addLeaf t block; Ret (t, MoDone)
  | MAddHash h => t ← addLeafByHash t h; Ret (t, MoDone)
  | MClear => Ret (clear t, MoDone)
  | MMove => Ret ((merkle_move t).2, MoDone)
  | MRoot => Ret (t, MoBytes (rootHash t))
  | MHex => s ← rootHex t; Ret (t, MoBytes s)
  | MCount => Ret (t, MoNum (leafCount t))
  | MLeaf i => h ← leafHash t i; Ret (t, MoBytes h)
  | MProof i => p ← getProof t i; Ret (t, MoProof p)
  end.

(** A hash that is given is a list of bytes. *)
Definition mspec leaves (op : mop) : outcome (list hash * mobs) :=
  match op with
  | MNew blocks => Ret (evp_sha256 <$> blocks, MoDone)
  | MAdd block => Ret (leaves ++ [evp_sha256 block], MoDone)
  | MAddHash h => if decide (Forall byte_ok h) then Ret (leaves ++ [h], MoDone) else Undef
  | MClear | MMove => Ret ([], MoDone)
  | MRoot => Ret (leaves, MoBytes (if decide (leaves = []) then [] else merkle_root leaves))
  | MHex => Ret (leaves, MoBytes (if decide (leaves = []) then [] else hex (merkle_root leaves)))
  | MCount => Ret (leaves, MoNum (length leaves))
  | MLeaf i => match leaves !! i with Some h => Ret (leaves, MoBytes h) | None => Throw out_of_range end
  | MProof i => Ret (leaves, MoProof (if decide (i < length leaves) then Some (mkProof i (path leaves i).*1 (path leaves i).*2) else None))
  end.

Section digests.
Hypothesis evp_bytes : forall data, Forall byte_ok (evp_sha256 data).

Lemma mroot_bytes d : forall leaves, Forall (Forall byte_ok) leaves -> Forall byte_ok (mroot d leaves).
Proof. destruct d as [|d]; intros leaves Hl; cbn [mroot]; [by destruct Hl|apply evp_bytes]. Qed.

Definition merkle_rep t leaves : Prop := t = tree_of leaves /\ Forall (Forall byte_ok) leaves.

#[local] Instance merkle_simulates : Simulates mstep mspec merkle_rep.
Proof.
  intros t leaves op [-> Hb]. destruct op as [blocks|block|h| | | | | |i|i]; cbn [mstep mspec].
  - rewrite merkle_new_ok, bind_Ret. eexists. split; [done|]. split; [done|]. apply Forall_fmap, Forall_forall. intros b _. apply evp_bytes.
  - unfold addLeaf. rewrite addLeafByHash_ok, bind_Ret. eexists. split; [done|]. split; [done|]. apply Forall_app. split; [done|]. by constructor; [apply evp_bytes|].
  - case_decide; [|done]. rewrite addLeafByHash_ok, bind_Ret. eexists. split; [done|]. split; [done|]. apply Forall_app. split; [done|by constructor].
  - eexists. split; [done|]. by split; [|constructor].
  - eexists. split; [done|]. by split; [|constructor].
  - rewrite rootHash_ok. by eexists.
  - unfold rootHex. destruct (decide (leaves = [])) as [->|Hne]; [by eexists|]. rewrite decide_False by (cbn; by rewrite length_zero_iff_nil).
    rewrite rootHash_ok, decide_False, hex_of_ok, bind_Ret by (done || by apply mroot_bytes). by eexists.
  - by eexists.
  - rewrite leafHash_ok. destruct (leaves !! i); [rewrite bind_Ret; by eexists|done].
  - rewrite getProof_ok, bind_Ret. by eexists.
Qed.

(** The tree is the list of its leaf hashes: every sequence of constructions, additions, queries and proofs observes
    the root of the recursive definition and its hexadecimal form, the leaves, and the siblings of the nodes above a
    leaf; a leaf out of range throws or has no proof, and no access is out of range. *)
Theorem merkle_tree_refines (ops : list mop) leaves os : trace mspec [] ops = Ret (leaves, os) ->
  exists t, trace mstep merkle_default ops = Ret (t, os) /\ t = tree_of leaves.
Proof.
  intros Hs. destruct (trace_refines ops merkle_default [] leaves os) as (t & Ht & [-> _]); [by split|done|]. by exists (tree_of leaves).
Qed.
End digests.

(** ** Proofs *)
Lemma verify_path leaves n : forall k p, k + n = depth leaves -> p * 2 ^ k < length leaves ->
  verify_loop ((fun j => (sibling leaves (k + j) (p / 2 ^ j)).1) <$> seq 0 n) ((fun j => (sibling leaves (k + j) (p / 2 ^ j)).2) <$> seq 0 n) (node leaves k p) =
  node leaves (depth leaves) (p / 2 ^ n).
Proof.
  induction n as [|n IH]; intros k p Hk Hp; [cbn [seq fmap list_fmap verify_loop]; rewrite Nat.pow_0_r, Nat.div_1_r; by f_equal; lia|].
  cbn [seq fmap list_fmap verify_loop]. rewrite Nat.add_0_r, Nat.pow_0_r, Nat.div_1_r.
  assert (forall A (f : hash * bool -> A), (fun j => f (sibling leaves (k + j) (p / 2 ^ j))) <$> seq 1 n = (fun j => f (sibling leaves (S k + j) (p / 2 / 2 ^ j))) <$> seq 0 n) as Hs.
  { intros A f. rewrite <- fmap_S_seq, <- list_fmap_compose. apply list_fmap_ext. intros i j _. cbn. by rewrite Nat.pow_succ_r', Nat.Div0.div_div, Nat.add_succ_r. }
  rewrite (Hs _ fst), (Hs _ snd). pose proof (half_position _ _ _ Hp) as Hp'.
  assert ((if (sibling leaves k p).2 then sha256_2 (sibling leaves k p).1 (node leaves k p) else sha256_2 (node leaves k p) (sibling leaves k p).1) = node leaves (S k) (p / 2)) as ->.
  { unfold node at 3. rewrite mroot_chunk by done. unfold sibling. pose proof (Nat.div_mod_eq p 2) as Hd. pose proof (Nat.mod_upper_bound p 2 ltac:(lia)).
    destruct (decide (p mod 2 = 0)) as [Hm|Hm]; cbn [fst snd].
    - replace (2 * (p / 2)) with p by lia. unfold node. cbn beta zeta. by case_decide.
    - replace (2 * (p / 2) + 1) with p by lia. replace (2 * (p / 2)) with (p - 1) by lia. rewrite decide_False; [done|]. rewrite chunk_nil. lia. }
  rewrite IH by (done || lia). by rewrite Nat.Div0.div_div, <- Nat.pow_succ_r'.
Qed.

(** C17: Every proof a tree makes verifies: for each leaf of the tree of any blocks, [getProof] returns a proof that [verifyProof] accepts for the
    hash of the leaf and the root. *)
Theorem merkle_proof_complete (blocks : list (list Z)) (i : nat) : i < length blocks ->
  exists t proof h, merkle_new blocks = Ret t /\ getProof t i = Ret (Some proof) /\ leafHash t i = Ret h /\ verifyProof proof h (rootHash t) = true.
Proof.
  intros Hi. set (leaves := sha256 <$> blocks). assert (i < length leaves) as Hl by (unfold leaves; by rewrite length_fmap). destruct (lookup_lt_is_Some_2 leaves i Hl) as [h Hh].
  exists (tree_of leaves), (mkProof i (path leaves i).*1 (path leaves i).*2), h. rewrite merkle_new_ok, getProof_ok, leafHash_ok, decide_True, Hh by done. do 3 (split; [done|]).
  unfold verifyProof, path. cbn [siblings isLeft]. rewrite !length_fmap, decide_False by auto. apply bool_decide_true. rewrite <- !list_fmap_compose.
  assert (leaves <> []) as Hne by (intros E; rewrite E in Hl; cbn in Hl; lia). rewrite rootHash_ok, decide_False by done.
  pose proof (verify_path leaves (depth leaves) 0 i eq_refl) as Hv. rewrite Nat.pow_0_r, Nat.mul_1_r in Hv. specialize (Hv Hl).
  assert (node leaves 0 i = h) as <-. { pose proof (lookup_level leaves 0 i) as H0. change (level leaves 0) with leaves in H0. rewrite decide_True in H0 by (rewrite Nat.pow_0_r; lia). unfold node. congruence. }
  etrans; [exact Hv|]. rewrite Nat.div_small by (pose proof (depth_enough leaves); lia). unfold node, chunk, merkle_root. by rewrite Nat.mul_0_l, drop_0, firstn_all2 by apply depth_enough.
Qed.

(** ** The collision in a forged proof

    The inputs that the proof and the tree hash for one node, from the root downwards, as long as they agree; [rs] are the siblings
    from the root downwards. *)
Fixpoint path_collision (rs : list (hash * bool)) (cur : hash) leaves : option (list Z * list Z) :=
  match rs with
  | [] => None
  | (s, b) :: rs =>
    let v := verify_loop (rev rs).*1 (rev rs).*2 cur in
    let mine := if (b : bool) then s ++ v else v ++ s in
    let d := length rs in
    let lhs := mroot d (take (2 ^ d) leaves) in
    let theirs := lhs ++ (if decide (drop (2 ^ d) leaves = []) then lhs else mroot d (drop (2 ^ d) leaves)) in
    if decide (mine = theirs)
    then path_collision rs cur (if b then if decide (drop (2 ^ d) leaves = []) then take (2 ^ d) leaves else drop (2 ^ d) leaves else take (2 ^ d) leaves)
    else Some (mine, theirs)
  end.

(** Where the proof and the tree part, or else the block and the block of the tree with its digest. *)
Definition forged_collision (blocks : list (list Z)) (block : list Z) (proof : MerkleProof) : option (list Z * list Z) :=
  match path_collision (rev (zip (siblings proof) (isLeft proof))) (sha256 block) (sha256 <$> blocks) with
  | Some inputs => Some inputs
  | None => (fun b => (block, b)) <$> head (filter (fun b => sha256 b = sha256 block) blocks)
  end.

(** Two different inputs with one digest. *)
Definition is_collision (inputs : option (list Z * list Z)) : Prop :=
  match inputs with Some (x, y) => x <> y /\ evp_sha256 x = evp_sha256 y | None => False end.

Lemma verify_loop_snoc (ss : list hash) : forall bs s b cur, length ss = length bs ->
  verify_loop (ss ++ [s]) (bs ++ [b]) cur = if (b : bool) then sha256_2 s (verify_loop ss bs cur) else sha256_2 (verify_loop ss bs cur) s.
Proof. induction ss as [|s0 ss IH]; intros [|b0 bs] s b cur Hl; cbn in Hl; try lia; [done|]. cbn. apply IH. lia. Qed.

Section soundness.
Hypothesis evp_length : forall data, length (evp_sha256 data) = 32.

Lemma mroot_length d leaves : Forall (fun h => length h = 32) leaves -> leaves <> [] -> length (mroot d leaves) = 32.
Proof. destruct d as [|d]; cbn [mroot]; [|by intros _ _; apply evp_length]. destruct 1; [done|done]. Qed.

Lemma verify_loop_length (ss : list hash) : forall bs cur, length cur = 32 -> length (verify_loop ss bs cur) = 32.
Proof. induction ss as [|s ss IH]; intros [|b bs] cur Hc; try done. cbn. apply IH. destruct b; apply evp_length. Qed.

(** One level: the proof and the tree hash the same two halves, or two inputs collide. *)
Lemma halves_agree (s v lhs rhs : hash) (b : bool) : length v = 32 -> length lhs = 32 -> length rhs = 32 ->
  (if b then s ++ v else v ++ s) = lhs ++ rhs -> v = if b then rhs else lhs.
Proof. intros Hv Hl Hr E. destruct b; cbn in *; [apply (app_inj_2 s lhs v rhs) in E; [by destruct E|congruence]|apply (app_inj_1 v lhs s rhs) in E; [by destruct E|congruence]]. Qed.

Lemma verify_sound (cur : hash) (rs : list (hash * bool)) : forall leaves, leaves <> [] -> length leaves <= 2 ^ length rs ->
  Forall (fun h => length h = 32) leaves -> length cur = 32 -> verify_loop (rev rs).*1 (rev rs).*2 cur = mroot (length rs) leaves ->
  (cur ∈ leaves /\ path_collision rs cur leaves = None) \/ is_collision (path_collision rs cur leaves).
Proof.
  induction rs as [|[s b] rs IH]; intros leaves Hne Hl Hall Hc E.
  { destruct leaves; [done|]. cbn in E. subst. left. split; [by left|done]. }
  cbn [length path_collision mroot rev] in *. rewrite !fmap_app in E. cbn [fmap list_fmap fst snd] in E. rewrite verify_loop_snoc in E by (by rewrite !length_fmap). rewrite Nat.pow_succ_r' in Hl.
  set (v := verify_loop (rev rs).*1 (rev rs).*2 cur) in *. set (lo := take (2 ^ length rs) leaves) in *. set (hi := drop (2 ^ length rs) leaves) in *. pose proof (Nat.pow_nonzero 2 (length rs) ltac:(lia)) as Hp.
  assert (lo <> []) as Hlo by (intros H; apply (f_equal length) in H; unfold lo in H; rewrite length_take in H; destruct leaves; [done|cbn in H; lia]).
  assert (Forall (fun h => length h = 32) lo /\ Forall (fun h => length h = 32) hi) as [Hal Hah] by (split; [by apply Forall_take|by apply Forall_drop]).
  assert (length lo <= 2 ^ length rs /\ length hi <= 2 ^ length rs) as [Hll Hlh] by (unfold lo, hi; rewrite length_take, length_drop; lia).
  assert (lo ⊆ leaves /\ hi ⊆ leaves) as [Hsl Hsh] by (rewrite <- (take_drop (2 ^ length rs) leaves); split; intros x Hx; apply elem_of_app; [by left|by right]).
  pose proof (mroot_length (length rs) lo Hal Hlo) as Hlen. set (rhs := if decide (hi = []) then mroot (length rs) lo else mroot (length rs) hi) in *.
  assert (length rhs = 32) as Hlen2 by (unfold rhs; case_decide; [done|by apply mroot_length]).
  destruct (decide (_ = mroot (length rs) lo ++ _)) as [Heq|Hneq].
  - pose proof (halves_agree s v _ rhs b (verify_loop_length _ _ cur Hc) Hlen Hlen2 Heq) as Hv.
    set (side := if b then if decide (hi = []) then lo else hi else lo) in *. assert (v = mroot (length rs) side /\ side ⊆ leaves /\ side <> [] /\ length side <= 2 ^ length rs /\ Forall (fun h => length h = 32) side) as (Hv' & Hs & Hsn & Hsl' & Hsa).
    { unfold side, rhs in *. destruct b; [|done]. by case_decide. }
    destruct (IH side Hsn Hsl' Hsa Hc Hv') as [[Hin ->]|Hcol]; [left; split; [by apply Hs|done]|by right].
  - right. split; [done|]. destruct b; exact E.
Qed.

(** C16: A proof that verifies says the truth: when [verifyProof] accepts a proof with as many siblings as the tree of the blocks has levels above the leaves, for
    the hash of a block and the root of that tree, the block is one of the blocks, or the function [forged_collision] computes from the blocks, the block and the proof
    two different inputs of SHA-256 with one digest. *)
Theorem merkle_proof_sound (blocks : list (list Z)) (block : list Z) (proof : MerkleProof) t : merkle_new blocks = Ret t -> blocks <> [] ->
  S (length (siblings proof)) = length (levels_ t) -> verifyProof proof (sha256 block) (rootHash t) = true -> block ∈ blocks \/ is_collision (forged_collision blocks block proof).
Proof.
  rewrite merkle_new_ok. intros [= <-] Hne Hlen Hv. unfold forged_collision. set (leaves := sha256 <$> blocks) in *. assert (leaves <> []) as Hl by (unfold leaves; by destruct blocks).
  rewrite rootHash_ok, decide_False in Hv by done. rewrite levels_tree in Hlen by done. cbn [length] in Hlen. rewrite length_fmap, length_seq in Hlen.
  unfold verifyProof in Hv. case_decide as Hb; [done|]. apply bool_decide_eq_true in Hv. set (rs := rev (zip (siblings proof) (isLeft proof))).
  assert (length rs = depth leaves) as Hrs by (unfold rs; rewrite length_rev, length_zip; lia).
  destruct (verify_sound (sha256 block) rs leaves) as [[Hin ->]|Hcol]; [done|rewrite Hrs; apply depth_enough| |apply evp_length| | |].
  - unfold leaves. apply Forall_fmap, Forall_forall. intros b _. apply evp_length.
  - unfold rs. rewrite rev_involutive, fst_zip, snd_zip by lia. fold rs. by rewrite Hrs.
  - apply list_elem_of_fmap in Hin as (b & E & Hin). destruct (filter (fun b => sha256 b = sha256 block) blocks) as [|b' bs] eqn:Ef.
    + assert (b ∈ filter (fun b => sha256 b = sha256 block) blocks) as H by (by apply list_elem_of_filter). rewrite Ef in H. by apply elem_of_nil in H.
    + assert (b' ∈ filter (fun b => sha256 b = sha256 block) blocks) as [Hd Hb']%list_elem_of_filter by (rewrite Ef; by left). destruct (decide (block = b')) as [->|Hbne]; [by left|right; split; [done|by symmetry]].
  - right. by destruct (path_collision rs (sha256 block) leaves).
Qed.
End soundness.

(** ** What the root does not tell *)
Lemma next_level_again leaves x : last leaves = Some x -> Nat.Odd (length leaves) -> next_level (leaves ++ [x]) = next_level leaves.
Proof.
  induction leaves as [|a|a b leaves IH] using list_pair_ind; intros Hl Ho; [done|by injection Hl as ->|]. cbn [app next_level]. f_equal. destruct leaves as [|c leaves].
  - destruct Ho as [m Hm]. cbn in Hm. lia.
  - apply IH; [done|]. destruct Ho as [m Hm]. exists (m - 1). cbn in Hm |- *. lia.
Qed.

(** An odd number of leaves, at least three, has the root of the same leaves with the last one twice. *)
Theorem merkle_duplicate_last leaves x : last leaves = Some x -> Nat.Odd (length leaves) -> 1 < length leaves ->
  rootHash (tree_of (leaves ++ [x])) = rootHash (tree_of leaves).
Proof.
  intros Hl Ho Hlen. pose proof (next_level_again leaves x Hl Ho) as Hn. assert (exists d, depth leaves = S d) as [d Hd].
  { unfold depth. exists (pred (Nat.log2_up (length leaves))). pose proof (Nat.log2_up_pos (length leaves)). lia. }
  assert (depth (leaves ++ [x]) = S d) as Hd'.
  { rewrite <- Hd. unfold depth. rewrite length_app, Nat.add_1_r. destruct (Nat.log2_up_succ_or (length leaves)) as [E|E]; [|done]. exfalso.
    pose proof (Nat.log2_up_le_lin (length leaves)). pose proof (depth_enough leaves) as He. rewrite Hd, Nat.pow_succ_r' in He. unfold depth in Hd.
    assert (Nat.log2_up (S (length leaves)) <= S d) as Hle; [|lia]. rewrite <- (Nat.log2_up_pow2 (S d)) by lia. apply Nat.log2_up_le_mono.
    rewrite Nat.pow_succ_r'. destruct Ho as [m Hm]. lia. }
  unfold rootHash, tree_of. cbn [levels_]. assert (leaves <> []) as Hne by (intros ->; done).
  rewrite (decide_False (P := leaves = [])), (decide_False (P := leaves ++ [x] = [])), !last_levels_to, Hd, Hd' by (done || by destruct leaves).
  unfold level. rewrite !Nat.iter_succ_r. by rewrite Hn.
Qed.

(** A shorter proof verifies for the hash of an inner node. *)
Theorem merkle_inner_node (a b c d : hash) (i : nat) :
  verifyProof (mkProof i [sha256_2 c d] [false]) (sha256_2 a b) (rootHash (tree_of [a; b; c; d])) = true.
Proof. unfold verifyProof. cbn [siblings isLeft length]. rewrite decide_False by auto. by apply bool_decide_true. Qed.
End merkle.

Section merkle_witnesses.
(** A digest of 32 bytes. *)
#[local] Definition sum_digest (data : list Z) : hash :=
  let s := (foldl (fun acc b => acc * 31 + b + 7) 1 data mod 65536)%Z in (s / 256)%Z :: (s mod 256)%Z :: replicate 30 0%Z.

#[local] Definition sample_blocks : list (list Z) := [[1; 2]; [3; 4]; [5; 6]]%Z.

Lemma sum_digest_bytes data : Forall byte_ok (sum_digest data).
Proof.
  unfold sum_digest. set (s := (foldl _ _ _ mod 65536)%Z). assert (0 <= s < 65536)%Z as Hs by (apply Z.mod_pos_bound; lia).
  repeat constructor; unfold byte_ok; try lia; first [apply Z.div_pos; lia|apply Z.div_lt_upper_bound; lia|apply Z.mod_pos_bound; lia].
Qed.

Lemma merkle_tree_refines_witness : exists t,
  trace (mstep sum_digest) merkle_default [MLeaf 0; MNew sample_blocks; MCount; MProof 3; MLeaf 3; MAdd [7; 8]%Z; MCount; MClear; MHex; MAddHash [171]%Z; MHex; MRoot] =
  Ret (t, [inr out_of_range; inl MoDone; inl (MoNum 3); inl (MoProof None); inr out_of_range; inl MoDone; inl (MoNum 4); inl MoDone; inl (MoBytes []); inl MoDone;
    inl (MoBytes [97; 98]%Z); inl (MoBytes [171]%Z)]) /\ t = tree_of sum_digest [[171]%Z].
Proof. apply (merkle_tree_refines sum_digest sum_digest_bytes). vm_compute. reflexivity. Defined.

Lemma merkle_proof_complete_witness : exists t proof h, merkle_new sum_digest sample_blocks = Ret t /\ getProof t 2 = Ret (Some proof) /\
  leafHash t 2 = Ret h /\ verifyProof sum_digest proof h (rootHash t) = true.
Proof. apply (merkle_proof_complete sum_digest sample_blocks 2). cbn. lia. Defined.

#[local] Definition sample_tree : MerkleTree := Eval vm_compute in match merkle_new sum_digest sample_blocks with Ret t => t | _ => merkle_default end.
#[local] Definition sample_proof : MerkleProof := Eval vm_compute in match getProof sample_tree 1 with Ret (Some p) => p | _ => mkProof 0 [] [] end.

Lemma merkle_proof_sound_witness : length (siblings sample_proof) = 2 /\ verifyProof sum_digest sample_proof (sha256 sum_digest [3; 4]%Z) (rootHash sample_tree) = true /\
  ([3; 4]%Z ∈ sample_blocks \/ is_collision sum_digest (forged_collision sum_digest sample_blocks [3; 4]%Z sample_proof)).
Proof.
  split; [reflexivity|]. split; [vm_compute; reflexivity|].
  apply (merkle_proof_sound sum_digest (fun data => eq_refl) sample_blocks [3; 4]%Z sample_proof sample_tree); [vm_compute; reflexivity|done|reflexivity|vm_compute; reflexivity].
Defined.

(** A digest that ignores its input is easily forged, and the collision found. *)
#[local] Definition constant_digest (data : list Z) : hash := replicate 32 0%Z.

Example forged_proof : exists t, merkle_new constant_digest sample_blocks = Ret t /\ let forged := mkProof 7 [replicate 32 1; replicate 32 2]%Z [true; false] in
  verifyProof constant_digest forged (sha256 constant_digest [9]%Z) (rootHash t) = true /\ is_collision constant_digest (forged_collision constant_digest sample_blocks [9]%Z forged).
Proof. eexists. split; [vm_compute; reflexivity|]. split; [vm_compute; reflexivity|]. vm_compute. split; [discriminate|reflexivity]. Qed.
End merkle_witnesses.
