(* ===== verification/PasswordStore.v ===== *)
(** * Password database ([sql/PasswordSQL], [sql/sqlite/SQLiteManager])

    The queries of [PasswordSQL] over the connection of [SQLiteManager].  SQLite is
    a parameter: the class [Sqlite] has the two ways the code runs a statement, and
    [SqliteLaws] says what SQLite documents of the statements of the code, on the rows
    of the table of users.  Against these laws the class refines a map from names to
    passwords, up to the bytes that follow a zero byte, which do not reach SQLite.

    Strings are lists of bytes.  A connection is a value that a method returns anew. *)

From stdpp Require Import sorting.
From S2P Require Import Prelude Refinement.

#[local] Set Warnings "-register-all".

Definition str : Type := list Z.

(** The statements of the source, by what they do to the table. *)
Inductive statement :=
| CreateTable     (** CREATE TABLE IF NOT EXISTS users *)
| InsertUser      (** INSERT INTO users (username, password) VALUES (?, ?) *)
| SelectMatching  (** SELECT 1 FROM users WHERE username = ? AND password = ? *)
| UpdateMatching  (** UPDATE users SET password = ? WHERE username = ? AND password = ? *)
| UpdateUser      (** UPDATE users SET password = ? WHERE username = ? *)
| DeleteRow       (** DELETE FROM users WHERE username = ? *)
| SelectOne       (** SELECT 1 FROM users WHERE username = ? *)
| SelectName      (** SELECT username FROM users WHERE username = ? *)
| SelectNames.    (** SELECT username FROM users ORDER BY username *)

(** A prepared statement with its bound parameters: the change of the database with
    [sqlite3_changes], and the rows of a query. *)
Class Sqlite (D : Type) := {
  step_exec : D -> statement -> list str -> outcome (D * Z);
  step_query : D -> statement -> list str -> outcome (list (list str));
}.

(** The order of [BINARY] collation. *)
Fixpoint str_leb (a b : str) : bool :=
  match a, b with
  | [], _ => true
  | _ :: _, [] => false
  | x :: a, y :: b => (x <? y)%Z || ((x =? y)%Z && str_leb a b)
  end.

Definition str_le (a b : str) : Prop := str_leb a b = true.

#[global] Instance str_le_dec a b : Decision (str_le a b).
Proof. unfold str_le. apply _. Defined.

Definition sorted_names (M : gmap str str) : list str := merge_sort str_le (map_to_list M).*1.

(** What SQLite documents: a name is unique, [sqlite3_changes] counts the rows a statement
    has changed, and a statement that violates a constraint changes nothing. *)
Class SqliteLaws (D : Type) `{!Sqlite D} (rows : D -> gmap str str) : Prop := {
  law_create d : exists d', step_exec d CreateTable [] = Ret (d', 0%Z) /\ rows d' = rows d;
  law_insert d u p : match rows d !! u with
    | None => exists d', step_exec d InsertUser [u; p] = Ret (d', 1%Z) /\ rows d' = <[u := p]> (rows d)
    | Some _ => step_exec d InsertUser [u; p] = Throw runtime_error
    end;
  law_update_matching d q u p : exists d', step_exec d UpdateMatching [q; u; p] =
      Ret (d', if decide (rows d !! u = Some p) then 1 else 0)%Z /\
    rows d' = if decide (rows d !! u = Some p) then <[u := q]> (rows d) else rows d;
  law_update d q u : exists d', step_exec d UpdateUser [q; u] =
      Ret (d', if decide (is_Some (rows d !! u)) then 1 else 0)%Z /\
    rows d' = if decide (is_Some (rows d !! u)) then <[u := q]> (rows d) else rows d;
  law_delete d u : exists d', step_exec d DeleteRow [u] =
      Ret (d', if decide (is_Some (rows d !! u)) then 1 else 0)%Z /\ rows d' = delete u (rows d);
  law_matching d u p : step_query d SelectMatching [u; p] = Ret (if decide (rows d !! u = Some p) then [[[49%Z]]] else []);
  law_one d u : step_query d SelectOne [u] = Ret (if decide (is_Some (rows d !! u)) then [[[49%Z]]] else []);
  law_name d u : step_query d SelectName [u] = Ret (if decide (is_Some (rows d !! u)) then [[u]] else []);
  law_names d : step_query d SelectNames [] = Ret ((fun u => [u]) <$> sorted_names (rows d));
}.

Section store.
Context {D : Type} `{!Sqlite D}.

(** ** [class SQLiteManager] *)
(** The connection, if it is open. *)
Definition SQLiteManager : Type := option D.
Implicit Types (m : SQLiteManager).

(** [sqlite3_bind_text] with length -1 takes the characters before a zero. *)
Fixpoint c_str (s : str) : str :=
  match s with
  | [] => []
  | c :: s => if decide (c = 0%Z) then [] else c :: c_str s
  end.

Definition bindParameters (params : list str) : list str := c_str <$> params.

Definition isOpen m : bool := bool_decide (is_Some m).

Definition closeDatabase m : SQLiteManager := None.

Definition exec m (sql : statement) (params : list str) : outcome (SQLiteManager * Z) :=
  match m with
  | None => Throw runtime_error
  | Some d => '(d, affected) ← step_exec d sql (bindParameters params); Ret (Some d, affected)
  end.

Definition query m (sql : statement) (params : list str) : outcome (list (list str)) :=
  match m with
  | None => Throw runtime_error
  | Some d => step_query d sql (bindParameters params)
  end.

(** ** [class PasswordSQL] *)
(** [catch (const std::exception&)] around a statement. *)
Definition on_exception {A} (a : A) (r : outcome A) : outcome A := match r with Throw _ => Ret a | r => r end.

Definition is_empty (s : str) : bool := bool_decide (s = []).

Definition HasAnyEmpty (params : list str) : bool := existsb is_empty params.

Definition password_sql_new m : outcome SQLiteManager :=
  '(m, result) ← exec m CreateTable [];
  if (result <? 0)%Z then Throw runtime_error else Ret m.

(** [exec] of a statement, and whether it has changed a row. *)
Definition changed m (sql : statement) (params : list str) : outcome (SQLiteManager * bool) :=
  on_exception (m, false) ('(m, result) ← exec m sql params; Ret (m, (0 <? result)%Z)).

Definition RegisterUser m (username password : str) : outcome (SQLiteManager * bool) :=
  if is_empty username || is_empty password then Ret (m, false) else changed m InsertUser [username; password].

Definition AuthenticateUser m (username password : str) : outcome bool :=
  if is_empty username || is_empty password then Ret false
  else on_exception false (result ← query m SelectMatching [username; password]; Ret (negb (bool_decide (result = [])))).

Definition ChangePassword m (username old_password new_password : str) : outcome (SQLiteManager * bool) :=
  if HasAnyEmpty [username; old_password; new_password] then Ret (m, false)
  else changed m UpdateMatching [new_password; username; old_password].

Definition ResetPassword m (username new_password : str) : outcome (SQLiteManager * bool) :=
  if is_empty username || is_empty new_password then Ret (m, false) else changed m UpdateUser [new_password; username].

Definition DeleteUser m (username : str) : outcome (SQLiteManager * bool) :=
  if is_empty username then Ret (m, false) else changed m DeleteRow [username].

Definition UserExists m (username : str) : outcome bool :=
  if is_empty username then Ret false
  else on_exception false (result ← query m SelectOne [username]; Ret (negb (bool_decide (result = [])))).

Definition GetUser m (username : str) : outcome str :=
  if is_empty username then Ret []
  else on_exception [] (result ← query m SelectName [username]; Ret (match result with (cell :: _) :: _ => cell | _ => [] end)).

Definition GetAllUsers m : outcome (list str) :=
  on_exception [] (result ← query m SelectNames []; Ret (row ← result; match row with cell :: _ => [cell] | [] => [] end)).

(** ** The class is a map *)
Context (rows : D -> gmap str str) `{!SqliteLaws D rows}.

Inductive sop := SRegister (u p : str) | SAuthenticate (u p : str) | SChange (u p q : str) | SReset (u q : str) | SDelete (u : str) | SExists (u : str) | SGet (u : str) | SAll.
Inductive sobs := SoBool (b : bool) | SoStr (s : str) | SoList (l : list str).

Definition sstep m (op : sop) : outcome (SQLiteManager * sobs) :=
  match op with
  | SRegister u p => '(m, b) ← RegisterUser m u p; Ret (m, SoBool b)
  | SAuthenticate u p => b ← AuthenticateUser m u p; Ret (m, SoBool b)
  | SChange u p q => '(m, b) ← ChangePassword m u p q; Ret (m, SoBool b)
  | SReset u q => '(m, b) ← ResetPassword m u q; Ret (m, SoBool b)
  | SDelete u => '(m, b) ← DeleteUser m u; Ret (m, SoBool b)
  | SExists u => b ← UserExists m u; Ret (m, SoBool b)
  | SGet u => s ← GetUser m u; Ret (m, SoStr s)
  | SAll => l ← GetAllUsers m; Ret (m, SoList l)
  end.

(** Empty strings are refused before they are cut at a zero. *)
Definition sspec (M : gmap str str) (op : sop) : outcome (gmap str str * sobs) :=
  match op with
  | SRegister u p =>
    if decide (u = [] \/ p = [] \/ is_Some (M !! c_str u)) then Ret (M, SoBool false) else Ret (<[c_str u := c_str p]> M, SoBool true)
  | SAuthenticate u p => Ret (M, SoBool (bool_decide (u <> [] /\ p <> [] /\ M !! c_str u = Some (c_str p))))
  | SChange u p q =>
    if decide (u <> [] /\ p <> [] /\ q <> [] /\ M !! c_str u = Some (c_str p)) then Ret (<[c_str u := c_str q]> M, SoBool true) else Ret (M, SoBool false)
  | SReset u q => if decide (u <> [] /\ q <> [] /\ is_Some (M !! c_str u)) then Ret (<[c_str u := c_str q]> M, SoBool true) else Ret (M, SoBool false)
  | SDelete u => if decide (u <> [] /\ is_Some (M !! c_str u)) then Ret (delete (c_str u) M, SoBool true) else Ret (M, SoBool false)
  | SExists u => Ret (M, SoBool (bool_decide (u <> [] /\ is_Some (M !! c_str u))))
  | SGet u => Ret (M, SoStr (if decide (u <> [] /\ is_Some (M !! c_str u)) then c_str u else []))
  | SAll => Ret (M, SoList (sorted_names M))
  end.

(** The open connection to a table with these rows. *)
Definition store_rep m (M : gmap str str) : Prop := exists d, m = Some d /\ rows d = M.

Lemma is_empty_spec s : {is_empty s = true /\ s = [] } + {is_empty s = false /\ s <> [] }.
Proof. unfold is_empty. destruct (decide (s = [])); [left|right]; (split; [|done]); by rewrite ?bool_decide_true, ?bool_decide_false by done. Defined.

Lemma RegisterUser_ok m M u p : store_rep m M ->
  exists m', RegisterUser m u p = Ret (m', if decide (u = [] \/ p = [] \/ is_Some (M !! c_str u)) then false else true) /\
    store_rep m' (if decide (u = [] \/ p = [] \/ is_Some (M !! c_str u)) then M else <[c_str u := c_str p]> M).
Proof.
  intros (d & -> & <-). unfold RegisterUser, changed, exec, bindParameters. cbn [fmap list_fmap]. pose proof (law_insert d (c_str u) (c_str p)) as Hi.
  destruct (is_empty_spec u) as [[-> Hu]|[-> Hu]]; cbn [orb]; [exists (Some d); rewrite !decide_True by tauto; split; [done|by exists d]|].
  destruct (is_empty_spec p) as [[-> Hp]|[-> Hp]]; [exists (Some d); rewrite !decide_True by tauto; split; [done|by exists d]|].
  destruct (rows d !! c_str u) eqn:E.
  - rewrite Hi. exists (Some d). rewrite !decide_True by eauto. split; [done|by exists d].
  - destruct Hi as (d' & -> & Hr). exists (Some d'). rewrite !decide_False by (intros [|[|[? ?]]]; done). split; [done|by exists d'].
Qed.

Lemma AuthenticateUser_ok m M u p : store_rep m M ->
  AuthenticateUser m u p = Ret (bool_decide (u <> [] /\ p <> [] /\ M !! c_str u = Some (c_str p))).
Proof.
  intros (d & -> & <-). unfold AuthenticateUser, query, bindParameters. cbn [fmap list_fmap].
  destruct (is_empty_spec u) as [[-> Hu]|[-> Hu]]; cbn [orb]; [rewrite bool_decide_false by tauto; done|].
  destruct (is_empty_spec p) as [[-> Hp]|[-> Hp]]; [rewrite bool_decide_false by tauto; done|]. rewrite law_matching. cbn. f_equal. case_decide.
  - transitivity true; [done|]. symmetry. by apply bool_decide_true.
  - transitivity false; [done|]. symmetry. apply bool_decide_false. tauto.
Qed.

Lemma ChangePassword_ok m M u p q : store_rep m M ->
  exists m', ChangePassword m u p q = Ret (m', if decide (u <> [] /\ p <> [] /\ q <> [] /\ M !! c_str u = Some (c_str p)) then true else false) /\
    store_rep m' (if decide (u <> [] /\ p <> [] /\ q <> [] /\ M !! c_str u = Some (c_str p)) then <[c_str u := c_str q]> M else M).
Proof.
  intros (d & -> & <-). unfold ChangePassword, HasAnyEmpty, changed, exec, bindParameters. cbn [fmap list_fmap existsb].
  destruct (is_empty_spec u) as [[-> Hu]|[-> Hu]]; cbn [orb]; [exists (Some d); rewrite !decide_False by tauto; split; [done|by exists d]|].
  destruct (is_empty_spec p) as [[-> Hp]|[-> Hp]]; cbn [orb]; [exists (Some d); rewrite !decide_False by tauto; split; [done|by exists d]|].
  destruct (is_empty_spec q) as [[-> Hq]|[-> Hq]]; cbn [orb]; [exists (Some d); rewrite !decide_False by tauto; split; [done|by exists d]|].
  destruct (law_update_matching d (c_str q) (c_str u) (c_str p)) as (d' & -> & Hr). exists (Some d'). cbn. destruct (decide (rows d !! c_str u = Some (c_str p))).
  - rewrite !decide_True by tauto. split; [done|by exists d'].
  - rewrite !decide_False by tauto. split; [done|by exists d'].
Qed.

Lemma ResetPassword_ok m M u q : store_rep m M ->
  exists m', ResetPassword m u q = Ret (m', if decide (u <> [] /\ q <> [] /\ is_Some (M !! c_str u)) then true else false) /\
    store_rep m' (if decide (u <> [] /\ q <> [] /\ is_Some (M !! c_str u)) then <[c_str u := c_str q]> M else M).
Proof.
  intros (d & -> & <-). unfold ResetPassword, changed, exec, bindParameters. cbn [fmap list_fmap].
  destruct (is_empty_spec u) as [[-> Hu]|[-> Hu]]; cbn [orb]; [exists (Some d); rewrite !decide_False by tauto; split; [done|by exists d]|].
  destruct (is_empty_spec q) as [[-> Hq]|[-> Hq]]; cbn [orb]; [exists (Some d); rewrite !decide_False by tauto; split; [done|by exists d]|].
  destruct (law_update d (c_str q) (c_str u)) as (d' & -> & Hr). exists (Some d'). cbn. destruct (decide (is_Some (rows d !! c_str u))).
  - rewrite !decide_True by tauto. split; [done|by exists d'].
  - rewrite !decide_False by tauto. split; [done|by exists d'].
Qed.

Lemma DeleteUser_ok m M u : store_rep m M ->
  exists m', DeleteUser m u = Ret (m', if decide (u <> [] /\ is_Some (M !! c_str u)) then true else false) /\
    store_rep m' (if decide (u <> [] /\ is_Some (M !! c_str u)) then delete (c_str u) M else M).
Proof.
  intros (d & -> & <-). unfold DeleteUser, changed, exec, bindParameters. cbn [fmap list_fmap].
  destruct (is_empty_spec u) as [[-> Hu]|[-> Hu]]; [exists (Some d); rewrite !decide_False by tauto; split; [done|by exists d]|].
  destruct (law_delete d (c_str u)) as (d' & -> & Hr). exists (Some d'). cbn. destruct (decide (is_Some (rows d !! c_str u))) as [Hs|Hs].
  - rewrite !decide_True by tauto. split; [done|by exists d'].
  - rewrite !decide_False by tauto. split; [done|]. exists d'. split; [done|]. rewrite Hr. apply delete_id. by apply eq_None_not_Some.
Qed.

Lemma UserExists_ok m M u : store_rep m M -> UserExists m u = Ret (bool_decide (u <> [] /\ is_Some (M !! c_str u))).
Proof.
  intros (d & -> & <-). unfold UserExists, query, bindParameters. cbn [fmap list_fmap].
  destruct (is_empty_spec u) as [[-> Hu]|[-> Hu]]; [rewrite bool_decide_false by tauto; done|]. rewrite law_one. cbn. f_equal. case_decide.
  - transitivity true; [done|]. symmetry. by apply bool_decide_true.
  - transitivity false; [done|]. symmetry. apply bool_decide_false. tauto.
Qed.

Lemma GetUser_ok m M u : store_rep m M -> GetUser m u = Ret (if decide (u <> [] /\ is_Some (M !! c_str u)) then c_str u else []).
Proof.
  intros (d & -> & <-). unfold GetUser, query, bindParameters. cbn [fmap list_fmap].
  destruct (is_empty_spec u) as [[-> Hu]|[-> Hu]]; [rewrite decide_False by tauto; done|]. rewrite law_name. destruct (decide (is_Some (rows d !! c_str u))).
  - by rewrite decide_True.
  - rewrite decide_False by tauto. done.
Qed.

Lemma GetAllUsers_ok m M : store_rep m M -> GetAllUsers m = Ret (sorted_names M).
Proof.
  intros (d & -> & <-). unfold GetAllUsers, query, bindParameters. cbn [fmap list_fmap]. rewrite law_names. cbn. f_equal.
  induction (sorted_names (rows d)) as [|u l IH]; [done|]. cbn. by rewrite IH.
Qed.

#[local] Instance store_simulates : Simulates sstep sspec store_rep.
Proof.
  intros m M op HR. destruct op as [u p|u p|u p q|u q|u|u|u|]; cbn [sstep sspec].
  - destruct (RegisterUser_ok m M u p HR) as (m' & -> & HR'). rewrite bind_Ret. case_decide; by exists m'.
  - rewrite (AuthenticateUser_ok m M u p HR), bind_Ret. by exists m.
  - destruct (ChangePassword_ok m M u p q HR) as (m' & -> & HR'). rewrite bind_Ret. case_decide; by exists m'.
  - destruct (ResetPassword_ok m M u q HR) as (m' & -> & HR'). rewrite bind_Ret. case_decide; by exists m'.
  - destruct (DeleteUser_ok m M u HR) as (m' & -> & HR'). rewrite bind_Ret. case_decide; by exists m'.
  - rewrite (UserExists_ok m M u HR), bind_Ret. by exists m.
  - rewrite (GetUser_ok m M u HR), bind_Ret. by exists m.
  - rewrite (GetAllUsers_ok m M HR), bind_Ret. by exists m.
Qed.

Lemma sspec_total : total_spec sspec.
Proof. intros M []; cbn; repeat case_decide; done. Qed.

Lemma password_sql_new_ok d : exists m, password_sql_new (Some d) = Ret m /\ store_rep m (rows d).
Proof. unfold password_sql_new, exec. cbn. destruct (law_create d) as (d' & -> & Hr). rewrite !bind_Ret. exists (Some d'). split; [done|by exists d']. Qed.

(** On any database that keeps the laws of SQLite, every sequence of registrations, authentications, changes, resets and removals
    observes a map from names to passwords in which both end at their first zero byte; empty arguments and violated
    constraints are reported as false, never thrown. *)
Theorem password_sql_refines (d : D) (ops : list sop) :
  exists m m' M os, password_sql_new (Some d) = Ret m /\ trace sspec (rows d) ops = Ret (M, os) /\ trace sstep m ops = Ret (m', os) /\ store_rep m' M.
Proof.
  destruct (password_sql_new_ok d) as (m & Hm & HR). destruct (trace_refines_total ops m (rows d) sspec_total HR) as (m' & M & os & Hs & Ht & HR').
  by exists m, m', M, os.
Qed.

(** A connection that is not open answers as an empty table. *)
Lemma password_sql_closed u p : u <> [] -> p <> [] -> RegisterUser None u p = Ret (None, false) /\ AuthenticateUser None u p = Ret false /\ UserExists None u = Ret false.
Proof.
  intros Hu Hp. unfold RegisterUser, AuthenticateUser, UserExists, is_empty. by rewrite !bool_decide_false.
Qed.
End store.

(** ** A table in memory *)
#[global] Instance gmap_sqlite : Sqlite (gmap str str) := {|
  step_exec M sql params :=
    match sql, params with
    | CreateTable, [] => Ret (M, 0%Z)
    | InsertUser, [u; p] => if decide (is_Some (M !! u)) then Throw runtime_error else Ret (<[u := p]> M, 1%Z)
    | UpdateMatching, [q; u; p] => if decide (M !! u = Some p) then Ret (<[u := q]> M, 1%Z) else Ret (M, 0%Z)
    | UpdateUser, [q; u] => if decide (is_Some (M !! u)) then Ret (<[u := q]> M, 1%Z) else Ret (M, 0%Z)
    | DeleteRow, [u] => Ret (delete u M, if decide (is_Some (M !! u)) then 1 else 0)%Z
    | _, _ => Throw runtime_error
    end;
  step_query M sql params :=
    match sql, params with
    | SelectMatching, [u; p] => Ret (if decide (M !! u = Some p) then [[[49%Z]]] else [])
    | SelectOne, [u] => Ret (if decide (is_Some (M !! u)) then [[[49%Z]]] else [])
    | SelectName, [u] => Ret (if decide (is_Some (M !! u)) then [[u]] else [])
    | SelectNames, [] => Ret ((fun u => [u]) <$> sorted_names M)
    | _, _ => Throw runtime_error
    end |}.

#[global] Instance gmap_sqlite_laws : SqliteLaws (gmap str str) id.
Proof.
  split; intros; cbn; unfold id.
  - by eexists.
  - destruct (d !! u) eqn:E; [by rewrite decide_True by eauto|]. rewrite decide_False by (intros [? ?]; congruence). by eexists.
  - case_decide; by eexists.
  - case_decide; by eexists.
  - by eexists.
  - done.
  - done.
  - done.
  - done.
Qed.

Lemma password_sql_refines_witness : exists m m' M, password_sql_new (Some (∅ : gmap str str)) = Ret m /\
  trace sstep m [SRegister [98] [1]; SRegister [97] [2; 0; 3]; SRegister [98] [9]; SAuthenticate [97] [2]; SChange [97] [2; 0; 7] [8]; SReset [99] [1]; SGet [97; 0; 98]; SAll;
    SDelete [98]; SExists [98]; SExists []]%Z =
  Ret (m', inl <$> [SoBool true; SoBool true; SoBool false; SoBool true; SoBool true; SoBool false; SoStr [97]; SoList [[97]; [98]]; SoBool true; SoBool false; SoBool false]%Z) /\
  store_rep id m' M /\ M = {[ [97%Z] := [8%Z] ]}.
Proof.
  destruct (password_sql_refines id (∅ : gmap str str)
    [SRegister [98] [1]; SRegister [97] [2; 0; 3]; SRegister [98] [9]; SAuthenticate [97] [2]; SChange [97] [2; 0; 7] [8]; SReset [99] [1]; SGet [97; 0; 98]; SAll;
    SDelete [98]; SExists [98]; SExists []]%Z) as (m & m' & M & os & Hm & Hs & Ht & HR).
  exists m, m', M. split; [exact Hm|]. vm_compute in Hs. injection Hs as <- <-. split; [exact Ht|]. split; [exact HR|reflexivity].
Defined.
