(* ===== verification/UserAuthenticator.v ===== *)
(** * User authentication ([auth])

    [PasswordPolicy], [UserCredentials] and [UserAuthenticator] over the password
    database.  The authenticator refines a table of accounts with a salted hash, a count
    of failures and the time of the last one; an account with five failures is locked
    for five minutes, which bounds the passwords that can be tried.

    PBKDF2 and the random salts of OpenSSL are parameters, as is the clock: an
    operation has the readings it makes as arguments.  Times are nanoseconds in 64 bits.  A
    subtraction of [time_point]s that overflows is undefined by the standard, while a compiler may
    give it a value: [overflow] says which.  It matters, because the difference to
    [time_point::min()], with which every account starts, overflows. *)

From S2P Require Import Prelude Refinement PasswordStore.

#[local] Set Warnings "-register-all".

(** ** [class PasswordPolicy] *)
Record PasswordPolicy := mkPolicy {
  min_length_ : Z;
  max_length_ : Z;
  require_uppercase_ : bool;
  require_lowercase_ : bool;
  require_digits_ : bool;
  require_special_ : bool;
  max_login_attempts_ : Z;
}.

Definition policy_default : PasswordPolicy := mkPolicy 8 64 true true true true 5.

Definition between (lo hi c : Z) : bool := ((lo <=? c) && (c <=? hi))%Z.

(** The classes of the C locale. *)
Definition is_uppercase_char (c : Z) : bool := between 65 90 c.
Definition is_lowercase_char (c : Z) : bool := between 97 122 c.
Definition is_digit_char (c : Z) : bool := between 48 57 c.
Definition ispunct (c : Z) : bool := between 33 47 c || between 58 64 c || between 91 96 c || between 123 126 c.
Definition isspace (c : Z) : bool := (c =? 32)%Z || between 9 13 c.
Definition is_special_char (c : Z) : bool := ispunct c || isspace c.

Fixpoint validate_loop (password : str) (has_upper has_lower has_digit has_special : bool) : bool :=
  match password with
  | [] => has_upper && has_lower && has_digit && has_special
  | c :: password =>
    let '(has_upper, has_lower, has_digit, has_special) :=
      if negb has_upper && is_uppercase_char c then (true, has_lower, has_digit, has_special)
      else if negb has_lower && is_lowercase_char c then (has_upper, true, has_digit, has_special)
      else if negb has_digit && is_digit_char c then (has_upper, has_lower, true, has_special)
      else if negb has_special && is_special_char c then (has_upper, has_lower, has_digit, true)
      else (has_upper, has_lower, has_digit, has_special) in
    if has_upper && has_lower && has_digit && has_special then true else validate_loop password has_upper has_lower has_digit has_special
  end.

Definition validate (p : PasswordPolicy) (password : str) : bool :=
  if (Z.of_nat (length password) <? min_length_ p)%Z || (max_length_ p <? Z.of_nat (length password))%Z then false
  else validate_loop password (negb (require_uppercase_ p)) (negb (require_lowercase_ p)) (negb (require_digits_ p)) (negb (require_special_ p)).

Definition set_min_length (p : PasswordPolicy) (length : Z) : PasswordPolicy :=
  mkPolicy length (max_length_ p) (require_uppercase_ p) (require_lowercase_ p) (require_digits_ p) (require_special_ p) (max_login_attempts_ p).
Definition set_max_length (p : PasswordPolicy) (length : Z) : PasswordPolicy :=
  mkPolicy (min_length_ p) length (require_uppercase_ p) (require_lowercase_ p) (require_digits_ p) (require_special_ p) (max_login_attempts_ p).
Definition set_require_uppercase (p : PasswordPolicy) (require : bool) : PasswordPolicy :=
  mkPolicy (min_length_ p) (max_length_ p) require (require_lowercase_ p) (require_digits_ p) (require_special_ p) (max_login_attempts_ p).
Definition set_require_lowercase (p : PasswordPolicy) (require : bool) : PasswordPolicy :=
  mkPolicy (min_length_ p) (max_length_ p) (require_uppercase_ p) require (require_digits_ p) (require_special_ p) (max_login_attempts_ p).
Definition set_require_digits (p : PasswordPolicy) (require : bool) : PasswordPolicy :=
  mkPolicy (min_length_ p) (max_length_ p) (require_uppercase_ p) (require_lowercase_ p) require (require_special_ p) (max_login_attempts_ p).
Definition set_require_special (p : PasswordPolicy) (require : bool) : PasswordPolicy :=
  mkPolicy (min_length_ p) (max_length_ p) (require_uppercase_ p) (require_lowercase_ p) (require_digits_ p) require (max_login_attempts_ p).

(** ** [class CryptoToolKit] *)
Fixpoint compare_loop (a b : str) (result : Z) : Z :=
  match a, b with
  | x :: a, y :: b => compare_loop a b (Z.lor result (Z.lxor x y))
  | _, _ => result
  end.

(** The bytes are compared without an early exit. *)
Definition secure_compare (a b : str) : bool :=
  (Z.lor (compare_loop a b 0) (if decide (length a <> length b) then 1 else 0) =? 0)%Z.

(** ** [class UserCredentials] *)
Definition TIME_MIN : Z := (- 2 ^ 63)%Z.
Definition DEFAULT_MAX_ATTEMPTS : Z := 5.
Definition DEFAULT_LOCKOUT_DURATION : Z := 5.
Definition NS_PER_MINUTE : Z := 60000000000.

Record UserCredentials := mkCredentials {
  username_ : str;
  hashed_password_ : str;
  salt_ : str;
  failed_attempts_ : Z;
  last_failed_attempt_ : Z;
}.

Definition credentials_new (username hashed_password salt : str) : UserCredentials := mkCredentials username hashed_password salt 0 TIME_MIN.

Definition increment_failed_attempts (c : UserCredentials) (now : Z) : UserCredentials :=
  mkCredentials (username_ c) (hashed_password_ c) (salt_ c) (u64 (failed_attempts_ c + 1)) now.

Definition reset_failed_attempts (c : UserCredentials) : UserCredentials :=
  mkCredentials (username_ c) (hashed_password_ c) (salt_ c) 0 TIME_MIN.

(** ** The free functions of UserAuthenticator.cc *)
Definition username_char (c : Z) : bool := is_lowercase_char c || is_uppercase_char c || is_digit_char c || (c =? 95)%Z || (c =? 45)%Z.

(** The pattern ^[a-zA-Z0-9_-]{3,20}$. *)
Definition validate_username (username : str) : bool :=
  bool_decide (3 <= length username <= 20) && forallb username_char username.

(** The position of the first colon splits the data. *)
Fixpoint parse_credentials_data (credentials_data : str) : option (str * str) :=
  match credentials_data with
  | [] => None
  | c :: rest =>
    if decide (c = 58%Z) then Some ([], rest)
    else match parse_credentials_data rest with Some (salt, hashed_password) => Some (c :: salt, hashed_password) | None => None end
  end.

Definition format_credentials_data (salt hashed_password : str) : str := salt ++ 58%Z :: hashed_password.

(** ** [struct AuthResult] *)
Inductive AuthResult := LoggedIn | UserNotFound | AccountLocked | InvalidPassword.

(** The messages of the [AuthenticationException]s. *)
Inductive auth_error :=
| InvalidUsername | UsernameExists | PasswordRejected | NoSalt | NoHash | NotRegistered
| CurrentIncorrect (why : AuthResult) | NotFound | NotUpdated.

#[global] Instance AuthResult_eq_dec : EqDecision AuthResult.
Proof. solve_decision. Defined.

#[global] Instance auth_error_eq_dec : EqDecision auth_error.
Proof. solve_decision. Defined.

Section authenticator.
Context {D : Type} `{!Sqlite D}.
Context (pbkdf2 : str -> str -> option str) (overflow : Z -> Z -> option Z).

(** [now - last_failed_attempt_], of [int64_t]; [overflow] is none where an overflow is undefined. *)
Definition time_minus (a b : Z) : outcome Z :=
  if decide (- 2 ^ 63 <= a - b < 2 ^ 63)%Z then Ret (a - b)%Z else match overflow a b with Some z => Ret z | None => Undef end.

Definition is_locked_for (c : UserCredentials) (now lockout_duration max_attempts : Z) : outcome bool :=
  time_since_last_fail ← time_minus now (last_failed_attempt_ c);
  let minutes_since_last_fail := Z.quot time_since_last_fail NS_PER_MINUTE in
  Ret ((max_attempts <=? failed_attempts_ c) && (minutes_since_last_fail <? lockout_duration))%Z.

Definition is_locked (c : UserCredentials) (now : Z) : outcome bool := is_locked_for c now DEFAULT_LOCKOUT_DURATION DEFAULT_MAX_ATTEMPTS.

(** ** [class UserAuthenticator] *)
Record UserAuthenticator := mkAuth {
  password_policy_ : PasswordPolicy;
  users_ : gmap str UserCredentials;
  password_sql_ : @SQLiteManager D;
}.
Implicit Types (s : UserAuthenticator) (username password : str) (salt : option str) (now : Z).

(** What an operation returns or throws, with the state it leaves. *)
#[local] Abbreviation reply A := (outcome (UserAuthenticator * (auth_error + A))).

Definition set_users s (users : gmap str UserCredentials) : UserAuthenticator := mkAuth (password_policy_ s) users (password_sql_ s).
Definition set_sql s (sql : SQLiteManager) : UserAuthenticator := mkAuth (password_policy_ s) (users_ s) sql.

Definition auth_new (m : @SQLiteManager D) (policy : PasswordPolicy) : outcome UserAuthenticator :=
  sql ← password_sql_new m; Ret (mkAuth policy ∅ sql).

(** [generate_salt] and [hash_password]. *)
Definition new_credentials username password salt : auth_error + UserCredentials :=
  match salt with
  | None => inl NoSalt
  | Some salt => match pbkdf2 password salt with None => inl NoHash | Some hashed_password => inr (credentials_new username hashed_password salt) end
  end.

Definition register_user s username password salt : reply bool :=
  if negb (validate_username username) then Ret (s, inl InvalidUsername) else
  known ← (if decide (is_Some (users_ s !! username)) then Ret true else UserExists (password_sql_ s) username);
  if (known : bool) then Ret (s, inl UsernameExists) else
  if negb (validate (password_policy_ s) password) then Ret (s, inl PasswordRejected) else
  match new_credentials username password salt with
  | inl e => Ret (s, inl e)
  | inr c =>
    '(sql, ok) ← RegisterUser (password_sql_ s) username (format_credentials_data (salt_ c) (hashed_password_ c));
    if negb ok then Ret (set_sql s sql, inl NotRegistered)
    else Ret (set_users (set_sql s sql) (<[username := c]> (users_ s)), inr true)
  end.

Definition load_user_from_db s username : outcome (option UserCredentials) :=
  exists_ ← UserExists (password_sql_ s) username;
  if negb exists_ then Ret None else
  credentials_data ← GetUser (password_sql_ s) username;
  if is_empty credentials_data then Ret None else
  Ret (match parse_credentials_data credentials_data with Some (salt, hashed_password) => Some (credentials_new username hashed_password salt) | None => None end).

(** The user in the cache, after an attempt to load it. *)
Definition cache_user s username : outcome UserAuthenticator :=
  if decide (is_Some (users_ s !! username)) then Ret s else
  user_opt ← load_user_from_db s username;
  Ret (match user_opt with Some c => set_users s (<[username := c]> (users_ s)) | None => s end).

Definition authenticate s username password now1 now2 : reply AuthResult :=
  s ← cache_user s username;
  match users_ s !! username with
  | None => Ret (s, inr UserNotFound)
  | Some user =>
    locked ← is_locked user now1;
    if (locked : bool) then Ret (s, inr AccountLocked) else
    match pbkdf2 password (salt_ user) with
    | None => Ret (s, inl NoHash)
    | Some hashed_input =>
      if secure_compare hashed_input (hashed_password_ user)
      then Ret (set_users s (<[username := reset_failed_attempts user]> (users_ s)), inr LoggedIn)
      else Ret (set_users s (<[username := increment_failed_attempts user now2]> (users_ s)), inr InvalidPassword)
    end
  end.

(** [reset_password] from the check of the policy on; [change_password] ends alike. *)
Definition store_password s username new_password salt : reply bool :=
  if negb (validate (password_policy_ s) new_password) then Ret (s, inl PasswordRejected) else
  match new_credentials username new_password salt with
  | inl e => Ret (s, inl e)
  | inr c =>
    '(sql, ok) ← ResetPassword (password_sql_ s) username (format_credentials_data (salt_ c) (hashed_password_ c));
    if negb ok then Ret (set_sql s sql, inl NotUpdated)
    else Ret (set_users (set_sql s sql) (<[username := c]> (users_ s)), inr true)
  end.

Definition change_password s username current_password new_password salt now1 now2 : reply bool :=
  '(s, auth_result) ← authenticate s username current_password now1 now2;
  match auth_result with
  | inl e => Ret (s, inl e)
  | inr LoggedIn => match users_ s !! username with None => Ret (s, inl NotFound) | Some _ => store_password s username new_password salt end
  | inr why => Ret (s, inl (CurrentIncorrect why))
  end.

Definition reset_password s username new_password salt : reply bool := store_password s username new_password salt.

Definition user_exists s username : outcome bool :=
  if decide (is_Some (users_ s !! username)) then Ret true else UserExists (password_sql_ s) username.

Definition delete_user s username : outcome (UserAuthenticator * bool) :=
  '(sql, ok) ← DeleteUser (password_sql_ s) username;
  if negb ok then Ret (set_sql s sql, false) else Ret (set_users (set_sql s sql) (delete username (users_ s)), true).

Definition set_password_policy s (policy : PasswordPolicy) : UserAuthenticator := mkAuth policy (users_ s) (password_sql_ s).

(** ** The parts *)
Lemma policy_loop_ok password : forall u l d sp, validate_loop password u l d sp =
  (u || existsb is_uppercase_char password) && (l || existsb is_lowercase_char password) && (d || existsb is_digit_char password) && (sp || existsb is_special_char password).
Proof.
  induction password as [|c password IH]; intros u l d sp; cbn [validate_loop existsb]; [by rewrite !orb_false_r|].
  assert (is_uppercase_char c = true -> is_lowercase_char c = false /\ is_digit_char c = false /\ is_special_char c = false) as Hu.
  { unfold is_uppercase_char, is_lowercase_char, is_digit_char, is_special_char, ispunct, isspace, between. lia. }
  assert (is_lowercase_char c = true -> is_digit_char c = false /\ is_special_char c = false) as Hl.
  { unfold is_lowercase_char, is_digit_char, is_special_char, ispunct, isspace, between. lia. }
  assert (is_digit_char c = true -> is_special_char c = false) as Hd.
  { unfold is_digit_char, is_special_char, ispunct, isspace, between. lia. }
  destruct (is_uppercase_char c); [destruct (Hu eq_refl) as (-> & -> & ->)|destruct (is_lowercase_char c); [destruct (Hl eq_refl) as (-> & ->)|destruct (is_digit_char c); [rewrite (Hd eq_refl)|destruct (is_special_char c)]]];
    destruct u, l, d, sp; cbn [negb andb orb]; rewrite ?IH; cbn [negb andb orb]; rewrite ?andb_true_r; reflexivity.
Qed.

(** A password is accepted exactly when its length is within the bounds and it has a character of every class the policy requires, whatever
    the order of the characters and the early exit of the loop. *)
Theorem password_policy_spec (p : PasswordPolicy) password : validate p password =
  bool_decide (min_length_ p <= Z.of_nat (length password) <= max_length_ p)%Z &&
  (negb (require_uppercase_ p) || existsb is_uppercase_char password) && (negb (require_lowercase_ p) || existsb is_lowercase_char password) &&
  (negb (require_digits_ p) || existsb is_digit_char password) && (negb (require_special_ p) || existsb is_special_char password).
Proof.
  unfold validate. rewrite policy_loop_ok. destruct (decide (min_length_ p <= Z.of_nat (length password) <= max_length_ p)%Z) as [H|H].
  - rewrite bool_decide_true by done. rewrite (proj2 (Z.ltb_ge _ _)), (proj2 (Z.ltb_ge _ _)) by lia. done.
  - rewrite bool_decide_false by done. destruct (Z.ltb_spec (Z.of_nat (length password)) (min_length_ p)); [done|]. rewrite (proj2 (Z.ltb_lt _ _)) by lia. done.
Qed.

Lemma compare_loop_ok (a : str) : forall b r, length a = length b -> compare_loop a b r = 0%Z <-> r = 0%Z /\ a = b.
Proof.
  induction a as [|x a IH]; intros [|y b] r Hl; cbn in Hl; try lia; cbn [compare_loop]; [by split; [intros ->|intros [-> _]]|].
  rewrite IH, Z.lor_eq_0_iff, Z.lxor_eq_0_iff by lia. naive_solver.
Qed.

(** The comparison without early exit decides equality. *)
Lemma secure_compare_ok (a b : str) : secure_compare a b = bool_decide (a = b).
Proof.
  unfold secure_compare. symmetry. destruct (decide (length a = length b)) as [Hl|Hl].
  - rewrite (decide_False (P := length a <> length b)) by auto. rewrite Z.lor_0_r. destruct (decide (a = b)) as [H|H].
    + rewrite bool_decide_true by done. symmetry. apply Z.eqb_eq, compare_loop_ok; auto.
    + rewrite bool_decide_false by done. symmetry. apply Z.eqb_neq. rewrite compare_loop_ok by done. tauto.
  - rewrite (decide_True (P := length a <> length b)) by done. rewrite bool_decide_false by congruence. symmetry. apply Z.eqb_neq. rewrite Z.lor_eq_0_iff. lia.
Qed.

Lemma parse_none (data : str) : 58%Z ∉ data -> parse_credentials_data data = None.
Proof. induction data as [|c data IH]; [done|]. intros [H1 H2]%not_elem_of_cons. cbn. rewrite decide_False by auto. by rewrite IH. Qed.

(** The data that is stored is read back when the salt has no colon, and otherwise never. *)
Theorem parse_format_credentials (salt hashed_password : str) :
  parse_credentials_data (format_credentials_data salt hashed_password) = Some (salt, hashed_password) <-> 58%Z ∉ salt.
Proof.
  unfold format_credentials_data. revert hashed_password. induction salt as [|c salt IH]; intros h; cbn [app parse_credentials_data].
  - rewrite decide_True by done. split; [intros _; apply not_elem_of_nil|done].
  - rewrite not_elem_of_cons. case_decide as Hc; [split; [done|by intros [? _]]|]. rewrite <- (IH h).
    destruct (parse_credentials_data (salt ++ 58%Z :: h)) as [[a b]|]; split; [intros [= -> ->]; auto|intros [_ [= -> ->]]; done|done|by intros [_ ?]].
Qed.

Lemma c_str_id (u : str) : 0%Z ∉ u -> c_str u = u.
Proof. induction u as [|c u IH]; [done|]. intros [H1 H2]%not_elem_of_cons. cbn. rewrite decide_False by auto. by rewrite IH. Qed.

Lemma valid_username_ok username : validate_username username = true -> username <> [] /\ c_str username = username /\ 58%Z ∉ username.
Proof.
  intros [Hl%bool_decide_eq_true Hc]%andb_true_iff. rewrite forallb_forall in Hc.
  assert (forall c, username_char c = false -> c ∉ username) as Hn by (intros c Hf Hin%list_elem_of_In%Hc; congruence).
  split; [by intros ->; cbn in Hl; lia|]. split; [apply c_str_id|]; by apply Hn.
Qed.

(** ** The accounts *)
Record account := mkAccount { a_salt : str; a_hash : str; a_failed : Z; a_last : Z }.

Definition accounts : Type := PasswordPolicy * gmap str account * gset str.
Implicit Types (A : gmap str account) (N : gset str).

Definition FIVE_MINUTES : Z := 300000000000.

Definition locked_account (a : account) now : Prop := (5 <= a_failed a)%Z /\ (now < a_last a + FIVE_MINUTES)%Z.

#[local] Instance locked_account_dec a now : Decision (locked_account a now).
Proof. unfold locked_account. apply _. Defined.

Definition account_new password salt : auth_error + account :=
  match salt with
  | None => inl NoSalt
  | Some salt => match pbkdf2 password salt with None => inl NoHash | Some h => inr (mkAccount salt h 0 TIME_MIN) end
  end.

Definition login A username password now1 now2 : gmap str account * (auth_error + AuthResult) :=
  match A !! username with
  | None => (A, inr UserNotFound)
  | Some a =>
    if decide (locked_account a now1) then (A, inr AccountLocked) else
    match pbkdf2 password (a_salt a) with
    | None => (A, inl NoHash)
    | Some h => if decide (h = a_hash a) then (<[username := mkAccount (a_salt a) (a_hash a) 0 TIME_MIN]> A, inr LoggedIn)
                else (<[username := mkAccount (a_salt a) (a_hash a) (u64 (a_failed a + 1)) now2]> A, inr InvalidPassword)
    end
  end.

Definition new_password (p : PasswordPolicy) A N username password salt : gmap str account * (auth_error + bool) :=
  if negb (validate p password) then (A, inl PasswordRejected) else
  match account_new password salt with
  | inl e => (A, inl e)
  | inr a => if decide (username ∈ N) then (<[username := a]> A, inr true) else (A, inl NotUpdated)
  end.

Inductive aop :=
| ARegister (u p : str) (salt : option str) | ALogin (u p : str) (now1 now2 : Z) | AChange (u p q : str) (salt : option str) (now1 now2 : Z)
| AReset (u q : str) (salt : option str) | AExists (u : str) | ADelete (u : str) | ASetPolicy (p : PasswordPolicy).
Inductive aobs := AoBool (b : bool) | AoReply (r : auth_error + bool) | AoLogin (r : auth_error + AuthResult).

Definition astep s (op : aop) : outcome (UserAuthenticator * aobs) :=
  match op with
  | ARegister u p salt => '(s, r) ← register_user s u p salt; Ret (s, AoReply r)
  | ALogin u p now1 now2 => '(s, r) ← authenticate s u p now1 now2; Ret (s, AoLogin r)
  | AChange u p q salt now1 now2 => '(s, r) ← change_password s u p q salt now1 now2; Ret (s, AoReply r)
  | AReset u q salt => '(s, r) ← reset_password s u q salt; Ret (s, AoReply r)
  | AExists u => b ← user_exists s u; Ret (s, AoBool b)
  | ADelete u => '(s, b) ← delete_user s u; Ret (s, AoBool b)
  | ASetPolicy p => Ret (set_password_policy s p, AoBool true)
  end.

(** The clock is past its epoch, and before the year 2116. *)
Definition time_ok (now : Z) : Prop := (0 <= now < 2 ^ 62)%Z.

#[local] Instance time_ok_dec now : Decision (time_ok now).
Proof. unfold time_ok. apply _. Defined.

(** The difference that a login computes is defined: it overflows for an account whose last failure is [time_point::min()]. *)
Definition clock_defined (a : account) now : Prop := a_last a <> TIME_MIN \/ is_Some (overflow now TIME_MIN).

#[local] Instance clock_defined_dec a now : Decision (clock_defined a now).
Proof. unfold clock_defined. apply _. Defined.

Definition login_defined A username now : Prop := match A !! username with Some a => clock_defined a now | None => True end.

#[local] Instance login_defined_dec A username now : Decision (login_defined A username now).
Proof. unfold login_defined. destruct (A !! username); apply _. Defined.

(** The accounts of this process, and the names of the database: the other names cannot log in.
    Names with a zero byte are left open where they reach the database, and logins whose difference of times is undefined. *)
Definition aspec (S : accounts) (op : aop) : outcome (accounts * aobs) :=
  let '(P, A, N) := S in
  match op with
  | ARegister u p salt =>
    if negb (validate_username u) then Ret (S, AoReply (inl InvalidUsername)) else
    if decide (u ∈ N) then Ret (S, AoReply (inl UsernameExists)) else
    if negb (validate P p) then Ret (S, AoReply (inl PasswordRejected)) else
    match account_new p salt with
    | inl e => Ret (S, AoReply (inl e))
    | inr a => Ret ((P, <[u := a]> A, {[u]} ∪ N), AoReply (inr true))
    end
  | ALogin u p now1 now2 =>
    if decide (time_ok now1 /\ time_ok now2 /\ login_defined A u now1) then let '(A, r) := login A u p now1 now2 in Ret ((P, A, N), AoLogin r) else Undef
  | AChange u p q salt now1 now2 =>
    if decide (time_ok now1 /\ time_ok now2 /\ login_defined A u now1) then
      match login A u p now1 now2 with
      | (A, inl e) => Ret ((P, A, N), AoReply (inl e))
      | (A, inr LoggedIn) => let '(A, r) := new_password P A N u q salt in Ret ((P, A, N), AoReply r)
      | (A, inr why) => Ret ((P, A, N), AoReply (inl (CurrentIncorrect why)))
      end
    else Undef
  | AReset u q salt => if decide (0%Z ∈ u) then Undef else let '(A, r) := new_password P A N u q salt in Ret ((P, A, N), AoReply r)
  | AExists u => if decide (0%Z ∈ u) then Undef else Ret (S, AoBool (bool_decide (u ∈ N)))
  | ADelete u => if decide (0%Z ∈ u) then Undef else
    if decide (u ∈ N) then Ret ((P, delete u A, N ∖ {[u]}), AoBool true) else Ret (S, AoBool false)
  | ASetPolicy p => Ret ((p, A, N), AoBool true)
  end.

(** ** The authenticator is the table of accounts *)
Context (rows : D -> gmap str str) `{!SqliteLaws D rows}.

Definition credentials_of username (a : account) : UserCredentials := mkCredentials username (a_hash a) (a_salt a) (a_failed a) (a_last a).

Definition account_ok (a : account) : Prop := (a_failed a = 0%Z /\ a_last a = TIME_MIN) \/ time_ok (a_last a).

Definition all_valid N : Prop := forall u, u ∈ N -> validate_username u = true.

Record auth_rep s (S : accounts) : Prop := {
  ar_policy : password_policy_ s = S.1.1;
  ar_users : forall u, users_ s !! u = credentials_of u <$> S.1.2 !! u;
  ar_store : exists M, store_rep rows (password_sql_ s) M /\ dom M = S.2;
  ar_valid : all_valid S.2;
  ar_known : forall u a, S.1.2 !! u = Some a -> u ∈ S.2 /\ account_ok a;
}.

Lemma time_minus_in a b : (- 2 ^ 63 <= a - b < 2 ^ 63)%Z -> time_minus a b = Ret (a - b)%Z.
Proof. intros H. unfold time_minus. by rewrite decide_True. Qed.

Lemma time_minus_min now : time_ok now -> time_minus now TIME_MIN = match overflow now TIME_MIN with Some z => Ret z | None => Undef end.
Proof. unfold time_ok, time_minus, TIME_MIN. intros H. by rewrite decide_False by lia. Qed.

Lemma is_locked_undefined username a now : time_ok now -> ~ clock_defined a now -> is_locked (credentials_of username a) now = Undef.
Proof.
  intros Hn Hc. unfold clock_defined in Hc. assert (a_last a = TIME_MIN) as Hl by (destruct (decide (a_last a = TIME_MIN)); tauto). unfold is_locked, is_locked_for. cbn [last_failed_attempt_ credentials_of]. rewrite Hl, time_minus_min by done.
  destruct (overflow now TIME_MIN); [|done]. destruct Hc. by right.
Qed.

Lemma is_locked_ok username a now : account_ok a -> time_ok now -> clock_defined a now -> is_locked (credentials_of username a) now = Ret (bool_decide (locked_account a now)).
Proof.
  intros Ha Hn Hc. unfold is_locked, is_locked_for. cbn [failed_attempts_ last_failed_attempt_ credentials_of].
  unfold DEFAULT_MAX_ATTEMPTS, DEFAULT_LOCKOUT_DURATION, NS_PER_MINUTE. destruct Ha as [[H0 Hl]|Hl].
  - rewrite Hl, time_minus_min by done. destruct Hc as [?|[z ->]]; [done|]. rewrite bind_Ret, bool_decide_false by (unfold locked_account; lia). by rewrite H0.
  - unfold time_ok in *. rewrite time_minus_in, bind_Ret by lia. f_equal.
    assert (Z.quot (now - a_last a) 60000000000 < 5 <-> now < a_last a + 300000000000)%Z as Hq.
    { pose proof (Z.quot_rem' (now - a_last a) 60000000000) as Hd. destruct (decide (0 <= now - a_last a)%Z).
      - pose proof (Z.rem_bound_pos (now - a_last a) 60000000000 ltac:(lia) ltac:(lia)). lia.
      - pose proof (Z.rem_bound_pos_neg (now - a_last a) 60000000000 ltac:(lia) ltac:(lia)). lia. }
    destruct (decide (locked_account a now)) as [H|H].
    + rewrite bool_decide_true by done. unfold locked_account, FIVE_MINUTES in H. rewrite (proj2 (Z.leb_le _ _)) by lia. cbn [andb]. apply Z.ltb_lt. tauto.
    + rewrite bool_decide_false by done. unfold locked_account, FIVE_MINUTES in H. destruct (Z.leb_spec 5 (a_failed a)); [|done]. cbn [andb]. apply Z.ltb_ge. lia.
Qed.

Lemma users_lookup s S u : auth_rep s S -> is_Some (users_ s !! u) <-> is_Some (S.1.2 !! u).
Proof. intros HR. rewrite (ar_users s S HR u). apply fmap_is_Some. Qed.

(** A name of the database is no credential, so that no user is loaded from there. *)
Lemma cache_user_ok s S u : auth_rep s S -> cache_user s u = Ret s.
Proof.
  intros HR. unfold cache_user. case_decide; [done|]. unfold load_user_from_db. destruct (ar_store s S HR) as (M & HM & Hd).
  rewrite (UserExists_ok rows _ _ u HM), bind_Ret. destruct (decide (u <> [] /\ is_Some (M !! c_str u))) as [H0|H0]; [|rewrite bool_decide_false by done; reflexivity].
  rewrite bool_decide_true by done. cbn [negb]. rewrite (GetUser_ok rows _ _ u HM), bind_Ret. rewrite decide_True by done.
  assert (validate_username (c_str u) = true) as Hv. { apply (ar_valid s S HR). rewrite <- Hd. apply elem_of_dom. tauto. }
  destruct (valid_username_ok _ Hv) as (_ & _ & H58). rewrite (parse_none _ H58). by case_match.
Qed.

(** A change of one account. *)
Lemma rep_set_account s P A N u a : auth_rep s (P, A, N) -> u ∈ N -> account_ok a ->
  auth_rep (set_users s (<[u := credentials_of u a]> (users_ s))) (P, <[u := a]> A, N).
Proof.
  intros [Hp Hu Hs Hv Hk] Hin Ha. split; cbn in *; [done| |done|done|].
  - intros u'. destruct (decide (u' = u)) as [->|]; [by rewrite !lookup_insert_eq|by rewrite !lookup_insert_ne].
  - intros u' a' [[<- <-]|[Hne E]]%lookup_insert_Some; [done|by apply Hk].
Qed.

Lemma authenticate_ok s P A N u p now1 now2 : auth_rep s (P, A, N) -> time_ok now1 -> time_ok now2 -> login_defined A u now1 ->
  exists s', authenticate s u p now1 now2 = Ret (s', (login A u p now1 now2).2) /\ auth_rep s' (P, (login A u p now1 now2).1, N).
Proof.
  intros HR H1 H2 Hdef. unfold authenticate. rewrite (cache_user_ok s _ u HR), bind_Ret, (ar_users s _ HR u). cbn [fst snd]. unfold login. unfold login_defined in Hdef.
  destruct (A !! u) as [a|] eqn:Ea; cbn [fmap option_fmap option_map]; [|by exists s].
  destruct (ar_known s _ HR u a Ea) as [Hin Ha]. cbn [snd] in Hin. rewrite (is_locked_ok u a now1 Ha H1 Hdef), bind_Ret. destruct (decide (locked_account a now1)) as [Hl|Hl].
  - rewrite bool_decide_true by done. by exists s.
  - rewrite bool_decide_false by done. cbn [salt_ hashed_password_ credentials_of]. destruct (pbkdf2 p (a_salt a)) as [h|]; [|by exists s].
    rewrite secure_compare_ok. destruct (decide (h = a_hash a)) as [->|Hh].
    + rewrite bool_decide_true by done. eexists. split; [done|]. apply (rep_set_account s P A N u (mkAccount (a_salt a) (a_hash a) 0 TIME_MIN)); [done|done|by left].
    + rewrite bool_decide_false by done. eexists. split; [done|].
      apply (rep_set_account s P A N u (mkAccount (a_salt a) (a_hash a) (u64 (a_failed a + 1)) now2)); [done|done|by right].
Qed.

(** Otherwise the login is undefined. *)
Lemma authenticate_undefined s P A N u p now1 now2 : auth_rep s (P, A, N) -> time_ok now1 -> ~ login_defined A u now1 -> authenticate s u p now1 now2 = Undef.
Proof.
  intros HR H1 Hn. unfold authenticate. rewrite (cache_user_ok s _ u HR), bind_Ret, (ar_users s _ HR u). cbn [fst snd]. unfold login_defined in Hn. destruct (A !! u) as [a|]; [|tauto]. cbn [fmap option_fmap option_map].
  by rewrite is_locked_undefined.
Qed.

Lemma new_credentials_ok u p salt : new_credentials u p salt = match account_new p salt with inl e => inl e | inr a => inr (credentials_of u a) end.
Proof. unfold new_credentials, account_new. destruct salt as [salt|]; [|done]. by destruct (pbkdf2 p salt). Qed.

Lemma account_new_ok p salt a : account_new p salt = inr a -> account_ok a.
Proof. unfold account_new. repeat case_match; try done. intros [= <-]. by left. Qed.

Lemma dom_c_str (M : gmap str str) N u : dom M = N -> 0%Z ∉ u -> is_Some (M !! c_str u) <-> u ∈ N.
Proof. intros <- H. rewrite c_str_id by done. symmetry. apply elem_of_dom. Qed.

Lemma all_valid_ne N u : all_valid N -> u ∈ N -> u <> [].
Proof. intros Hv Hin. by apply valid_username_ok, Hv. Qed.

Lemma rep_sql s P A N m M : auth_rep s (P, A, N) -> store_rep rows m M -> dom M = N -> auth_rep (set_sql s m) (P, A, N).
Proof. intros [Hp Hu _ Hv Hk] Hm Hd. split; try done. by exists M. Qed.

Lemma store_password_ok s P A N u q salt : auth_rep s (P, A, N) -> 0%Z ∉ u ->
  exists s', store_password s u q salt = Ret (s', (new_password P A N u q salt).2) /\ auth_rep s' (P, (new_password P A N u q salt).1, N).
Proof.
  intros HR Hz. unfold store_password, new_password. rewrite (ar_policy s _ HR). cbn [fst]. destruct (validate P q); cbn [negb]; [|by exists s].
  rewrite new_credentials_ok. destruct (account_new q salt) as [e|a] eqn:Ea; [by exists s|].
  destruct (ar_store s _ HR) as (M & HM & Hd). cbn [snd] in Hd. destruct (ResetPassword_ok rows _ _ u (format_credentials_data (salt_ (credentials_of u a)) (hashed_password_ (credentials_of u a))) HM) as (m' & -> & HM').
  rewrite bind_Ret. pose proof (dom_c_str M N u Hd Hz) as Hdom. destruct (decide (u ∈ N)) as [Hin|Hin].
  - assert (u <> [] /\ format_credentials_data (salt_ (credentials_of u a)) (hashed_password_ (credentials_of u a)) <> [] /\ is_Some (M !! c_str u)) as Hyes.
    { split; [by eapply all_valid_ne; [apply (ar_valid s _ HR)|]|]. split; [by destruct (salt_ _)|by apply Hdom]. }
    rewrite decide_True in HM' by done. rewrite decide_True by done. cbn [negb].
    eexists. split; [done|]. apply (rep_set_account (set_sql s m')); [|done|by eapply account_new_ok]. eapply rep_sql; [done|done|]. rewrite dom_insert_L, c_str_id by done. set_solver.
  - rewrite decide_False in HM' by (intros (_ & _ & ?%Hdom); done). rewrite decide_False by (intros (_ & _ & ?%Hdom); done). cbn [negb]. eexists. split; [done|]. by eapply rep_sql.
Qed.

Lemma register_user_ok s P A N u p salt : auth_rep s (P, A, N) ->
  exists s' r P' A' N', register_user s u p salt = Ret (s', r) /\ aspec (P, A, N) (ARegister u p salt) = Ret ((P', A', N'), AoReply r) /\ auth_rep s' (P', A', N').
Proof.
  intros HR. unfold register_user. cbn [aspec]. destruct (validate_username u) eqn:Hu; cbn [negb]; [|by exists s, (inl InvalidUsername), P, A, N].
  destruct (valid_username_ok u Hu) as (Hne & Hc & _). destruct (ar_store s _ HR) as (M & HM & Hd). cbn [snd] in Hd.
  assert ((if decide (is_Some (users_ s !! u)) then Ret true else UserExists (password_sql_ s) u) = Ret (bool_decide (u ∈ N))) as ->.
  { assert (is_Some (M !! c_str u) <-> u ∈ N) as Hdom by (rewrite Hc, <- Hd; symmetry; apply elem_of_dom).
    destruct (decide (is_Some (users_ s !! u))) as [[a Ha]%(users_lookup s _ u HR)|_].
    - cbn [fst snd] in Ha. apply (ar_known s _ HR) in Ha as [Hin _]. by rewrite bool_decide_true.
    - rewrite (UserExists_ok rows _ _ u HM). f_equal. apply bool_decide_ext. tauto. }
  rewrite bind_Ret. destruct (decide (u ∈ N)) as [Hin|Hin]; [rewrite bool_decide_true by done; by exists s, (inl UsernameExists), P, A, N|]. rewrite bool_decide_false by done.
  rewrite (ar_policy s _ HR). cbn [fst]. destruct (validate P p); cbn [negb]; [|by exists s, (inl PasswordRejected), P, A, N].
  rewrite new_credentials_ok. destruct (account_new p salt) as [e|a] eqn:Ea; [by exists s, (inl e), P, A, N|].
  destruct (RegisterUser_ok rows _ _ u (format_credentials_data (salt_ (credentials_of u a)) (hashed_password_ (credentials_of u a))) HM) as (m' & -> & HM').
  assert (~ (u = [] \/ format_credentials_data (salt_ (credentials_of u a)) (hashed_password_ (credentials_of u a)) = [] \/ is_Some (M !! c_str u))) as Hno.
  { intros [|[H|H]]; [done|by destruct (salt_ _)|]. apply Hin. rewrite <- Hd. rewrite Hc in H. by apply elem_of_dom. }
  rewrite decide_False in HM' by exact Hno. rewrite decide_False by exact Hno. rewrite bind_Ret. cbn [negb]. eexists _, (inr true), P, (<[u := a]> A), ({[u]} ∪ N). split; [done|]. split; [done|].
  apply (rep_set_account (set_sql s m') P A ({[u]} ∪ N)); [|set_solver|by eapply account_new_ok]. destruct HR as [Hp Hus _ Hv Hk]. split; cbn in *; [done|done| | |].
  - exists (<[c_str u := c_str (format_credentials_data (a_salt a) (a_hash a))]> M). split; [done|]. by rewrite dom_insert_L, Hc, Hd.
  - intros u' [->%elem_of_singleton|Hu']%elem_of_union; [done|by apply Hv].
  - intros u' a' Hu'. split; [apply elem_of_union; right|]; by apply (Hk u' a').
Qed.

#[local] Instance auth_simulates : Simulates astep aspec auth_rep.
Proof.
  intros s [[P A] N] op HR. destruct op as [u p salt|u p now1 now2|u p q salt now1 now2|u q salt|u|u|p]; cbn [astep].
  - destruct (register_user_ok s P A N u p salt HR) as (s' & r & P' & A' & N' & -> & -> & HR'). rewrite bind_Ret. by exists s'.
  - cbn [aspec]. case_decide as Ht; [|done]. destruct (authenticate_ok s P A N u p now1 now2 HR) as (s' & -> & HR'); [tauto..|].
    destruct (login A u p now1 now2) as [A' r]. rewrite bind_Ret. by exists s'.
  - cbn [aspec]. case_decide as Ht; [|done]. destruct (authenticate_ok s P A N u p now1 now2 HR) as (s' & Ha & HR'); [tauto..|].
    unfold change_password. rewrite Ha, bind_Ret. destruct (login A u p now1 now2) as [A' [e|[| | |]]] eqn:El; cbn [fst snd] in HR' |- *; try (rewrite bind_Ret; by exists s').
    assert (exists a, A' !! u = Some a) as [a Hu].
    { unfold login in El. repeat case_match; try done. injection El as <-. eexists. apply lookup_insert_eq. }
    rewrite (ar_users s' _ HR' u). cbn [fst snd]. rewrite Hu. cbn [fmap option_fmap option_map].
    assert (0%Z ∉ u) as Hz.
    { destruct (ar_known s' _ HR' u a Hu) as [Hin _]. pose proof (valid_username_ok u (ar_valid s' _ HR' u Hin)) as (_ & Hc & _). clear -Hc.
      induction u as [|c u IH]; [apply not_elem_of_nil|]. cbn in Hc. case_decide; [done|]. injection Hc as Hc. apply not_elem_of_cons. split; [done|by apply IH]. }
    destruct (store_password_ok s' P A' N u q salt HR' Hz) as (s2 & -> & HR2). destruct (new_password P A' N u q salt) as [A2 r2]. rewrite bind_Ret. by exists s2.
  - cbn [aspec]. case_decide as Hz; [done|]. unfold reset_password. destruct (store_password_ok s P A N u q salt HR Hz) as (s' & -> & HR').
    destruct (new_password P A N u q salt) as [A' r]. rewrite bind_Ret. by exists s'.
  - cbn [aspec]. case_decide as Hz; [done|]. destruct (ar_store s _ HR) as (M & HM & Hd). cbn [snd] in Hd. pose proof (dom_c_str M N u Hd Hz) as Hdom. exists s. split; [|done].
    unfold user_exists. destruct (decide (is_Some (users_ s !! u))) as [[a Ha]%(users_lookup s _ u HR)|_].
    + apply (ar_known s _ HR) in Ha as [Hin _]. rewrite bind_Ret. by rewrite bool_decide_true.
    + rewrite (UserExists_ok rows _ _ u HM), bind_Ret. do 3 f_equal. apply bool_decide_ext. rewrite Hdom. split; [tauto|]. intros Hin. split; [by eapply all_valid_ne; [apply (ar_valid s _ HR)|]|done].
  - cbn [aspec]. case_decide as Hz; [done|]. destruct (ar_store s _ HR) as (M & HM & Hd). cbn [snd] in Hd. pose proof (dom_c_str M N u Hd Hz) as Hdom.
    unfold delete_user. destruct (DeleteUser_ok rows _ _ u HM) as (m' & -> & HM'). rewrite bind_Ret. destruct (decide (u ∈ N)) as [Hin|Hin].
    + assert (u <> [] /\ is_Some (M !! c_str u)) as Hyes by (split; [by eapply all_valid_ne; [apply (ar_valid s _ HR)|]|by apply Hdom]).
      rewrite decide_True in HM' by done. rewrite decide_True by done. cbn [negb]. rewrite bind_Ret. eexists. split; [done|].
      destruct HR as [Hp Hus _ Hv Hk]. split; cbn in *; [done| | | |].
      * intros u'. destruct (decide (u' = u)) as [->|]; [by rewrite !lookup_delete_eq|by rewrite !lookup_delete_ne].
      * exists (delete (c_str u) M). split; [done|]. by rewrite dom_delete_L, c_str_id, Hd.
      * intros u' [Hu' _]%elem_of_difference. by apply Hv.
      * intros u' a [Hne Hu']%lookup_delete_Some. destruct (Hk u' a Hu') as [H1 H2]. split; [set_solver|done].
    + rewrite decide_False in HM' by (intros (_ & ?%Hdom); done). rewrite decide_False by (intros (_ & ?%Hdom); done). cbn [negb]. rewrite bind_Ret.
      eexists. split; [done|]. by eapply rep_sql.
  - cbn [aspec]. eexists. split; [done|]. destruct HR as [Hp Hus Hs Hv Hk]. by split.
Qed.

Lemma auth_new_ok d policy : all_valid (dom (rows d)) -> exists s, auth_new (Some d) policy = Ret s /\ auth_rep s (policy, ∅, dom (rows d)).
Proof.
  intros Hv. unfold auth_new. destruct (password_sql_new_ok rows d) as (m & -> & HM). rewrite bind_Ret. eexists. split; [done|]. split; cbn; [done| | |done|done].
  - intros u. by rewrite !lookup_empty.
  - by exists (rows d).
Qed.

(** C38: The authenticator refines a table of accounts: for every sequence of registrations, logins, changes, resets, queries and removals, each operation returns or throws
    what it does on salted hashes with a count of failures and the time of the last, where five failures within five minutes lock; the
    names the database had before are known and cannot log in.  Left out are clock readings before 1970 or after 2116, resets, queries and
    removals of a name with a zero byte, and the logins that compute [now - time_point::min()], the first to every account and the next after
    a success, unless the compiler gives an overflow a value ([overflow]): where it does not, they are undefined. *)
Theorem user_authenticator_refines d policy (ops : list aop) (S : accounts) os : all_valid (dom (rows d)) ->
  trace aspec (policy, ∅, dom (rows d)) ops = Ret (S, os) ->
  exists s s', auth_new (Some d) policy = Ret s /\ trace astep s ops = Ret (s', os) /\ auth_rep s' S /\
    (forall u p now1 now2, time_ok now1 -> ~ login_defined S.1.2 u now1 -> authenticate s' u p now1 now2 = Undef).
Proof.
  intros Hv Hs. destruct (auth_new_ok d policy Hv) as (s & Hn & HR). destruct (trace_refines ops s _ S os HR Hs) as (s' & Ht & HR'). exists s, s'. split; [done|]. split; [done|]. split; [done|].
  destruct S as [[P A] N]. intros u p now1 now2. by apply (authenticate_undefined s' P A N).
Qed.

(** A user of the database that this process has not registered exists and cannot log in: [GetUser] returns the name in place of the password. *)
Theorem auth_restart_forgets d policy u p now1 now2 : all_valid (dom (rows d)) -> u ∈ dom (rows d) ->
  exists s, auth_new (Some d) policy = Ret s /\ user_exists s u = Ret true /\ authenticate s u p now1 now2 = Ret (s, inr UserNotFound).
Proof.
  intros Hv Hu. destruct (auth_new_ok d policy Hv) as (s & Hn & HR). exists s. split; [done|]. pose proof (ar_users s _ HR u) as Hus. cbn [fst snd] in Hus. rewrite lookup_empty in Hus. split.
  - unfold user_exists. rewrite Hus, decide_False by (intros [? ?]; done). destruct (ar_store s _ HR) as (M & HM & Hd). cbn [snd] in Hd. rewrite (UserExists_ok rows _ _ u HM).
    destruct (valid_username_ok u (Hv u Hu)) as (Hne & Hc & _). rewrite bool_decide_true; [done|]. split; [done|]. rewrite Hc. apply elem_of_dom. by rewrite Hd.
  - unfold authenticate. rewrite (cache_user_ok s _ u HR), bind_Ret, Hus. done.
Qed.

(** ** Guessing a password *)
Fixpoint guesses s u (tries : list (str * Z * Z)) : outcome (UserAuthenticator * list (auth_error + AuthResult)) :=
  match tries with
  | [] => Ret (s, [])
  | (p, now1, now2) :: tries => '(s, r) ← authenticate s u p now1 now2; '(s, rs) ← guesses s u tries; Ret (s, r :: rs)
  end.

(** The clock readings of the tries, from [lo] to [hi], do not go back. *)
Fixpoint in_order (lo : Z) (tries : list (str * Z * Z)) (hi : Z) : Prop :=
  match tries with
  | [] => (lo <= hi)%Z
  | (_, now1, now2) :: tries => (lo <= now1 <= now2)%Z /\ in_order now2 tries hi
  end.

Lemma in_order_le tries : forall lo hi, in_order lo tries hi -> (lo <= hi)%Z.
Proof. induction tries as [|[[p n1] n2] tries IH]; intros lo hi; cbn; [done|]. intros [H1 H2%IH]. lia. Qed.

Definition checked (rs : list (auth_error + AuthResult)) : nat := length (filter (fun r => r = inr InvalidPassword) rs).

(** The failures from [t0] on, of an account with a failure to count from. *)
Definition paced (t0 lo : Z) (a : account) : Prop :=
  (0 <= a_failed a)%Z /\ (t0 <= a_last a <= lo)%Z /\ (a_failed a <= 5 \/ (a_failed a - 5) * FIVE_MINUTES <= a_last a - t0)%Z.

(** A wrong password leaves the account paced. *)
Lemma login_paced A u p now1 now2 a t0 lo t1 A1 r : A !! u = Some a -> paced t0 lo a -> time_ok t0 -> time_ok t1 -> (lo <= now1 <= now2)%Z -> (now2 <= t1)%Z -> pbkdf2 p (a_salt a) <> Some (a_hash a) ->
  login A u p now1 now2 = (A1, r) -> r <> inr LoggedIn /\ exists a1, A1 !! u = Some a1 /\ paced t0 now2 a1 /\ a_salt a1 = a_salt a /\ a_hash a1 = a_hash a /\
    a_failed a1 = (a_failed a + if decide (r = inr InvalidPassword) then 1 else 0)%Z.
Proof.
  intros Ha (Hf & Hl & Hp) Ht0 Ht1 Hn Hle Hwrong. unfold login, time_ok in *. rewrite Ha. assert (paced t0 now2 a) as Hsame by (split; [done|]; split; [lia|done]).
  destruct (decide (locked_account a now1)) as [Hlk|Hlk]; [intros [= <- <-]; split; [done|]; exists a; rewrite decide_False by done; split_and!; (done || lia)|].
  destruct (pbkdf2 p (a_salt a)) as [h|]; [|intros [= <- <-]; split; [done|]; exists a; rewrite decide_False by done; split_and!; (done || lia)].
  destruct (decide (h = a_hash a)) as [->|]; [done|]. intros [= <- <-]. split; [done|]. eexists. split; [apply lookup_insert_eq|]. cbn [a_failed a_salt a_hash].
  assert (a_failed a < 2 ^ 63)%Z as Hbig by (unfold FIVE_MINUTES in Hp; lia). rewrite u64_small by lia. split; [|split; [done|split; [done|by rewrite decide_True]]].
  unfold locked_account in Hlk. unfold paced, FIVE_MINUTES in *. cbn [a_failed a_last]. lia.
Qed.

Lemma guesses_paced t0 t1 u tries : forall lo s P A N a, auth_rep s (P, A, N) -> A !! u = Some a -> paced t0 lo a -> time_ok t0 -> time_ok t1 ->
  Forall (fun '(p, _, _) => pbkdf2 p (a_salt a) <> Some (a_hash a)) tries -> in_order lo tries t1 ->
  exists s' rs, guesses s u tries = Ret (s', rs) /\ (inr LoggedIn ∉ rs) /\ (Z.of_nat (checked rs) + a_failed a <= 5 + (t1 - t0) / FIVE_MINUTES)%Z.
Proof.
  induction tries as [|[[p now1] now2] tries IH]; intros lo s P A N a HR Ha Hp Ht0 Ht1 Hw Ho; cbn [guesses].
  - exists s, []. split; [done|]. split; [apply not_elem_of_nil|]. cbn [in_order] in Ho. change (checked []) with 0. destruct Hp as (Hf & Hl & [H5|H5]).
    + pose proof (Z.div_pos (t1 - t0) FIVE_MINUTES ltac:(lia) ltac:(done)). lia.
    + pose proof (Z.div_le_lower_bound (t1 - t0) FIVE_MINUTES (a_failed a - 5) ltac:(done)). lia.
  - cbn [in_order] in Ho. destruct Ho as [Hn Ho]. apply Forall_cons in Hw as [Hwp Hw]. pose proof (in_order_le _ _ _ Ho) as Hle. pose proof Hp as (_ & Hl & _). unfold time_ok in *.
    destruct (authenticate_ok s P A N u p now1 now2 HR) as (s1 & -> & HR1); [unfold time_ok; lia..|unfold login_defined, clock_defined; rewrite Ha; left; unfold TIME_MIN; lia|]. rewrite bind_Ret.
    destruct (login A u p now1 now2) as [A1 r] eqn:El. cbn [fst snd] in HR1 |- *. destruct (login_paced A u p now1 now2 a t0 lo t1 A1 r) as (Hr & a1 & Ha1 & Hp1 & Hs1 & Hh1 & Hf1); try done.
    destruct (IH now2 s1 P A1 N a1 HR1 Ha1 Hp1) as (s' & rs & -> & Hno & Hrs); [unfold time_ok; lia..|by rewrite Hs1, Hh1|done|]. rewrite bind_Ret.
    exists s', (r :: rs). split; [done|]. split; [by apply not_elem_of_cons|]. rewrite Hf1 in Hrs. unfold checked in Hrs |- *. rewrite filter_cons. destruct (decide (r = inr InvalidPassword)); cbn [length]; lia.
Qed.

(** C39: The lockout bounds guessing: for an account with a failure to count from, at most five up to now, any wrong passwords tried up to [t1] with a clock
    that does not go back, between 1970 and 2116, are all answered, and compared with the stored hash so often that the failures are at most five and one
    more for every five minutes since that failure; the other tries are refused without a comparison.  The first failure of an account is
    none of these: that login is undefined, or a matter of the compiler ([auth_first_login_overflows]). *)
Theorem auth_guessing_bound s (S : accounts) u a tries t0 t1 : auth_rep s S -> S.1.2 !! u = Some a -> time_ok (a_last a) -> (0 <= a_failed a <= 5)%Z -> (a_last a <= t0)%Z -> time_ok t1 ->
  Forall (fun '(p, _, _) => pbkdf2 p (a_salt a) <> Some (a_hash a)) tries -> in_order t0 tries t1 ->
  exists s' rs, guesses s u tries = Ret (s', rs) /\ (inr LoggedIn ∉ rs) /\ (Z.of_nat (checked rs) + a_failed a <= 5 + (t1 - a_last a) / FIVE_MINUTES)%Z.
Proof.
  destruct S as [[P A] N]. intros HR Ha Hl Hf Hle Ht1 Hw Ho. apply (guesses_paced (a_last a) t1 u tries t0 s P A N a HR Ha); [|done..]. split; [lia|]. split; [lia|]. left. lia.
Qed.
End authenticator.

(** ** The subtraction of time points *)
(** By the standard, and as compiled with two's complement. *)
Definition no_overflow (a b : Z) : option Z := None.
Definition wrapped (a b : Z) : option Z := Some ((a - b + 2 ^ 63) mod 2 ^ 64 - 2 ^ 63)%Z.

(** The first login of an account overflows: [time_point::min()] is further than a duration from any time after the epoch. *)
Theorem auth_first_login_overflows username hashed_password salt now : (0 <= now)%Z ->
  is_locked no_overflow (credentials_new username hashed_password salt) now = Undef.
Proof.
  intros Hn. unfold is_locked, is_locked_for, time_minus. cbn [last_failed_attempt_ credentials_new]. unfold TIME_MIN. by rewrite decide_False by lia.
Qed.

Section authenticator_witnesses.
#[local] Definition salted (password salt : str) : option str := Some (salt ++ password).
#[local] Definition bob : str := [98; 111; 98]%Z.
#[local] Definition good : str := [65; 97; 49; 33; 65; 97; 49; 33]%Z.
#[local] Definition bad : str := [65; 97; 49; 33; 65; 97; 49; 34]%Z.
#[local] Definition minute : Z := 60000000000.
#[local] Definition fails (n : nat) (t : Z) : list aop := replicate n (ALogin bob bad t t).

#[local] Definition sample_ops : list aop :=
  [ARegister bob [65]%Z None; ARegister bob good None; ARegister bob good (Some [7]%Z); ARegister bob good (Some [7]%Z); AChange bob bad good (Some [8]%Z) 0 0] ++
  fails 4 minute ++ [ALogin bob good (2 * minute) (2 * minute); ALogin bob good (6 * minute) (6 * minute); AExists [99; 114; 114]%Z; ALogin [99; 114; 114]%Z good 0 0;
  AReset [99; 114; 114]%Z bad (Some []); ALogin [99; 114; 114]%Z bad 0 0; ADelete bob; AExists bob].

#[local] Definition crr : str := [99; 114; 114]%Z.
#[local] Definition crr_store : gmap str str := {[ crr := [58]%Z ]}.

#[local] Definition run_sample (overflow : Z -> Z -> option Z) (ops : list aop) : outcome (@UserAuthenticator (gmap str str) * list (aobs + exn)) :=
  s ← auth_new (Some crr_store) policy_default; trace (astep salted overflow) s ops.

(** Without a login to an account of this process nothing depends on overflows; the first such login is undefined. *)
#[local] Definition early_ops : list aop := [ARegister bob [65]%Z None; ARegister bob good (Some [7]%Z); ARegister bob good (Some [7]%Z); ALogin crr good 0 0; AReset bob bad (Some [8]%Z); AExists bob].

#[local] Lemma crr_valid : all_valid (dom (id crr_store)).
Proof. intros u Hu. unfold id, crr_store in Hu. rewrite dom_singleton_L in Hu. apply elem_of_singleton in Hu as ->. reflexivity. Qed.

Lemma user_authenticator_refines_witness :
  (exists s, run_sample wrapped sample_ops = Ret (s, inl <$>
    [AoReply (inl PasswordRejected); AoReply (inl NoSalt); AoReply (inr true); AoReply (inl UsernameExists); AoReply (inl (CurrentIncorrect InvalidPassword));
     AoLogin (inr InvalidPassword); AoLogin (inr InvalidPassword); AoLogin (inr InvalidPassword); AoLogin (inr InvalidPassword);
     AoLogin (inr AccountLocked); AoLogin (inr LoggedIn); AoBool true; AoLogin (inr UserNotFound); AoReply (inr true); AoLogin (inr LoggedIn); AoBool true; AoBool false])) /\
  (exists s, run_sample no_overflow early_ops = Ret (s, inl <$> [AoReply (inl PasswordRejected); AoReply (inr true); AoReply (inl UsernameExists); AoLogin (inr UserNotFound); AoReply (inr true); AoBool true]) /\
    authenticate salted no_overflow s bob good 0 0 = Undef).
Proof.
  split.
  - destruct (trace (aspec salted wrapped) (policy_default, ∅, dom (id crr_store)) sample_ops) as [[S os]|e| |] eqn:E; [|vm_compute in E; discriminate..].
    destruct (user_authenticator_refines salted wrapped id crr_store policy_default sample_ops S os crr_valid E) as (s & s' & Hn & Ht & _).
    exists s'. unfold run_sample. vm_compute in E. injection E as _ <-. rewrite Hn. exact Ht.
  - destruct (trace (aspec salted no_overflow) (policy_default, ∅, dom (id crr_store)) early_ops) as [[S os]|e| |] eqn:E; [|vm_compute in E; discriminate..].
    destruct (user_authenticator_refines salted no_overflow id crr_store policy_default early_ops S os crr_valid E) as (s & s' & Hn & Ht & _ & Hu).
    exists s'. unfold run_sample. vm_compute in E. injection E as <- <-. rewrite Hn. split; [exact Ht|]. apply Hu; [by split|].
    unfold login_defined, clock_defined. cbn [fst snd]. vm_compute. intros [H|[? H]]; [by apply H|discriminate].
Defined.

#[local] Definition bob_state (failed last : Z) : @UserAuthenticator (gmap str str) :=
  mkAuth policy_default {[ bob := mkCredentials bob [7]%Z [7]%Z failed last ]} (Some {[ bob := [] ]}).

(** One failure a minute ago: four more tries are compared, and one after five minutes. *)
Lemma auth_guessing_bound_witness : exists s' rs,
  guesses salted no_overflow (bob_state 1 0) bob (replicate 20 (bad, minute, minute) ++ replicate 9 (bad, 7 * minute, 7 * minute))%Z = Ret (s', rs) /\ (inr LoggedIn ∉ rs) /\ checked rs = 5.
Proof.
  destruct (auth_guessing_bound salted no_overflow id (bob_state 1 0)
    (policy_default, {[ bob := mkAccount [7] [7] 1 0 ]}, {[ bob ]})%Z bob (mkAccount [7] [7] 1 0)%Z
    (replicate 20 (bad, minute, minute) ++ replicate 9 (bad, 7 * minute, 7 * minute))%Z minute (7 * minute)%Z) as (s' & rs & Hg & Hno & Hb).
  - split; cbn [fst snd].
    + reflexivity.
    + intros u. unfold bob_state. cbn [users_]. destruct (decide (u = bob)) as [->|Hu]; [by rewrite !lookup_singleton_eq|by rewrite !lookup_singleton_ne].
    + exists {[ bob := [] ]}. split; [by eexists|]. by rewrite dom_singleton_L.
    + intros u ->%elem_of_singleton. reflexivity.
    + intros u a [<- <-]%lookup_singleton_Some. split; [by apply elem_of_singleton|]. right. split; [done|reflexivity].
  - reflexivity.
  - split; [done|reflexivity].
  - split; discriminate.
  - discriminate.
  - split; [done|reflexivity].
  - apply Forall_app. split; apply Forall_replicate; discriminate.
  - vm_compute. repeat (split; [split; discriminate|]). discriminate.
  - exists s', rs. split; [exact Hg|]. split; [exact Hno|]. vm_compute in Hg. injection Hg as _ <-. reflexivity.
Defined.

(** A password is cut at a zero byte on its way to the database, a name is not in the memory of the process: a reset for such a name
    changes the row of the shorter one and opens an account under the longer. *)
Lemma auth_reset_zero_byte : exists s, trace (astep salted wrapped) (bob_state 0 TIME_MIN) [AReset (bob ++ [0; 1]%Z) good (Some []); ALogin (bob ++ [0; 1]%Z) good 0 0; AExists (bob ++ [0]%Z)] =
  Ret (s, inl <$> [AoReply (inr true); AoLogin (inr LoggedIn); AoBool true]).
Proof. eexists. vm_compute. reflexivity. Qed.
End authenticator_witnesses.
