(* ===== verification/Reader.v ===== *)
(** * Character readers ([io/reader]: AbstractReader, StringReader, CharArrayReader, FilterReader, InputStreamReader)

    [AbstractReader] is a class of operations with laws: a reader is the sequence of the
    characters that are left, which [read], [read(cBuf, off, len)] and [skip] take from
    its front, the second possibly fewer than asked.  The sources and the decorators are
    instances; decorators are lawful over any lawful reader, so that they stack.

    A method returns the reader anew.  Characters are integers; sizes are natural
    numbers, except where the code lets them wrap. *)

From S2P Require Import Prelude Refinement.

#[local] Set Warnings "-register-all".

(** ** [class AbstractReader] *)
Class AbstractReader (R : Type) := {
  rd_read : R -> outcome (R * option Z);
  rd_read_into : R -> list Z -> nat -> nat -> outcome (R * list Z * Z);
  rd_markSupported : R -> bool;
  rd_mark : R -> nat -> outcome R;
  rd_reset : R -> outcome R;
  rd_ready : R -> outcome bool;
  rd_skip : R -> nat -> outcome (R * nat);
  rd_close : R -> outcome R;
  rd_isClosed : R -> bool;
}.

(** The buffer with [xs] from [off] on. *)
Definition write (buf : list Z) (off : nat) (xs : list Z) : list Z := take off buf ++ xs ++ drop (off + length xs) buf.

(** [std::copy_n(src + pos, n, dst + off)]. *)
Definition copy_n (src : list Z) (pos n : nat) (dst : list Z) (off : nat) : outcome (list Z) :=
  if decide (pos + n <= length src /\ off + n <= length dst) then Ret (write dst off (take n (drop pos src))) else Undef.

(** The check [off > cBuf.size() || len > cBuf.size() - off]. *)
Definition bad_range (cBuf : list Z) (off len : nat) : bool := bool_decide (length cBuf < off \/ length cBuf - off < len).

(** The number of characters as an [int]. *)
Definition int_of (n : nat) : Z := to_i32 (Z.of_nat n).

Section defaults.
Context {R : Type} (read_into : R -> list Z -> nat -> nat -> outcome (R * list Z * Z)).

Definition default_read (r : R) : outcome (R * option Z) :=
  '(r, buffer, bytesRead) ← read_into r [0%Z] 0 1;
  if (bytesRead <=? 0)%Z then Ret (r, None) else c ← vget buffer 0; Ret (r, Some c).

Definition SKIP_BUFFER_SIZE : nat := 1024.

Fixpoint skip_loop (fuel : nat) (r : R) (n skipped : nat) : outcome (R * nat) :=
  match fuel with
  | 0 => NoFuel
  | S fuel =>
    if decide (skipped < n) then
      '(r, _, readCount) ← read_into r (replicate SKIP_BUFFER_SIZE 0%Z) 0 (min (n - skipped) SKIP_BUFFER_SIZE);
      if (readCount <=? 0)%Z then Ret (r, skipped) else skip_loop fuel r n (skipped + Z.to_nat readCount)
    else Ret (r, skipped)
  end.

Definition default_skip (r : R) (n : nat) : outcome (R * nat) :=
  if decide (n = 0) then Ret (r, 0) else skip_loop (S n) r n 0.

(** [read(cBuf)], which fills the whole buffer. *)
Definition default_read_all (r : R) (cBuf : list Z) : outcome (R * list Z * Z) := read_into r cBuf 0 (length cBuf).
End defaults.

(** ** What a reader promises *)
Definition chunk_read (left : list Z) (buf : list Z) (off len n : nat) : Prop := n <= len /\ n <= length left /\ (n = 0 -> left = []).

Class ReaderLaws (R : Type) `{!AbstractReader R} (is_open : R -> Prop) (rest : R -> list Z) : Prop := {
  law_read r : is_open r -> exists r', rd_read r = Ret (r', head (rest r)) /\ is_open r' /\ rest r' = tail (rest r);
  law_read_into r buf off len : is_open r -> off + len <= length buf -> 0 < len -> (Z.of_nat len <= INT32_MAX)%Z ->
    exists r' n, rd_read_into r buf off len = Ret (r', write buf off (take n (rest r)), if decide (n = 0) then (-1)%Z else Z.of_nat n) /\
      chunk_read (rest r) buf off len n /\ is_open r' /\ rest r' = drop n (rest r);
  law_skip r n : is_open r -> exists r', rd_skip r n = Ret (r', min n (length (rest r))) /\ is_open r' /\ rest r' = drop n (rest r);
}.

Lemma write_nil buf off : write buf off [] = buf.
Proof. unfold write. cbn. rewrite Nat.add_0_r. apply take_drop. Qed.

Lemma length_write buf off xs : off + length xs <= length buf -> length (write buf off xs) = length buf.
Proof. intros H. unfold write. rewrite !length_app, length_take, length_drop. lia. Qed.

Lemma write_write buf off xs ys : off + length xs + length ys <= length buf -> write (write buf off xs) (off + length xs) ys = write buf off (xs ++ ys).
Proof.
  intros H. unfold write. rewrite length_app. rewrite (assoc_L (++) (take off buf) xs). rewrite take_app_length' by (rewrite length_app, length_take; lia).
  rewrite drop_app_ge by (rewrite length_app, length_take; lia). rewrite length_app, length_take, drop_drop.
  rewrite <- !(assoc_L (++)). do 4 f_equal. lia.
Qed.

Lemma take_min {A} n (l : list A) : take (min n (length l)) l = take n l.
Proof. destruct (decide (n <= length l)); [by rewrite Nat.min_l|]. by rewrite Nat.min_r, !firstn_all2 by lia. Qed.

Lemma drop_min {A} n (l : list A) : drop (min n (length l)) l = drop n l.
Proof. destruct (decide (n <= length l)); [by rewrite Nat.min_l|]. by rewrite Nat.min_r, !skipn_all2 by lia. Qed.

Lemma bad_range_false buf off len : off + len <= length buf -> bad_range buf off len = false.
Proof. intros H. apply bool_decide_false. lia. Qed.

Lemma int_of_small n : (Z.of_nat n <= INT32_MAX)%Z -> int_of n = Z.of_nat n.
Proof. intros H. apply to_i32_in. unfold in_i32, INT32_MIN, INT32_MAX in *. lia. Qed.

Lemma copy_n_ok src pos n dst off : pos + n <= length src -> off + n <= length dst -> copy_n src pos n dst off = Ret (write dst off (take n (drop pos src))).
Proof. intros. unfold copy_n. by rewrite decide_True. Qed.

(** ** [class StringReader] *)
Record StringReader := mkString { source_ : list Z; position_ : nat; mark_position_ : nat; mark_set_ : bool; closed_ : bool }.

Definition string_new (s : list Z) : StringReader := mkString s 0 0 false false.

Definition set_position (r : StringReader) (position : nat) : StringReader := mkString (source_ r) position (mark_position_ r) (mark_set_ r) (closed_ r).

Definition string_read (r : StringReader) : outcome (StringReader * option Z) :=
  if closed_ r || bool_decide (length (source_ r) <= position_ r) then Ret (r, None)
  else c ← vget (source_ r) (position_ r); Ret (set_position r (S (position_ r)), Some c).

Definition string_read_into (r : StringReader) (cBuf : list Z) (off len : nat) : outcome (StringReader * list Z * Z) :=
  if closed_ r then Throw runtime_error else
  if bad_range cBuf off len then Throw invalid_argument else
  if decide (length (source_ r) <= position_ r) then Ret (r, cBuf, (-1)%Z) else
  let available := length (source_ r) - position_ r in
  let actualRead := min (min len available) (length cBuf - off) in
  cBuf ← copy_n (source_ r) (position_ r) actualRead cBuf off;
  Ret (set_position r (position_ r + actualRead), cBuf, if decide (0 < actualRead) then int_of actualRead else (-1)%Z).

Definition string_skip (r : StringReader) (ns : nat) : outcome (StringReader * nat) :=
  if closed_ r then Ret (r, 0) else
  let charsToSkip := min ns (length (source_ r) - position_ r) in Ret (set_position r (position_ r + charsToSkip), charsToSkip).

Definition string_ready (r : StringReader) : outcome bool := Ret (negb (closed_ r) && bool_decide (position_ r < length (source_ r))).

Definition string_mark (r : StringReader) (readAheadLimit : nat) : outcome StringReader :=
  if closed_ r then Throw runtime_error else Ret (mkString (source_ r) (position_ r) (position_ r) true (closed_ r)).

Definition string_reset (r : StringReader) : outcome StringReader :=
  if closed_ r then Throw runtime_error else Ret (set_position r (if mark_set_ r then mark_position_ r else 0)).

Definition string_close (r : StringReader) : outcome StringReader := Ret (mkString [] 0 0 false true).

#[global] Instance string_reader : AbstractReader StringReader := {|
  rd_read := string_read; rd_read_into := string_read_into; rd_markSupported _ := true; rd_mark := string_mark; rd_reset := string_reset;
  rd_ready := string_ready; rd_skip := string_skip; rd_close := string_close; rd_isClosed := closed_ |}.

(** ** [class CharArrayReader] *)
Record CharArrayReader := mkChars { buf_ : list Z; pos_ : nat; marked_pos_ : nat; count_ : nat; chars_closed_ : bool }.

Definition chars_new (buffer : list Z) : CharArrayReader := mkChars buffer 0 0 (length buffer) false.

(** [offset + length] is computed in [size_t]. *)
Definition chars_new_range (buffer : list Z) (offset length_ : Z) : outcome CharArrayReader :=
  if decide (Z.of_nat (length buffer) < offset \/ Z.of_nat (length buffer) < u64 (offset + length_))%Z then Throw invalid_argument
  else if decide (offset + length_ <= Z.of_nat (length buffer))%Z
       then Ret (mkChars (take (Z.to_nat length_) (drop (Z.to_nat offset) buffer)) 0 0 (Z.to_nat length_) false)
       else Undef.

Definition set_pos (r : CharArrayReader) (pos : nat) : CharArrayReader := mkChars (buf_ r) pos (marked_pos_ r) (count_ r) (chars_closed_ r).

Definition chars_read (r : CharArrayReader) : outcome (CharArrayReader * option Z) :=
  if chars_closed_ r || bool_decide (count_ r <= pos_ r) then Ret (r, None) else c ← vget (buf_ r) (pos_ r); Ret (set_pos r (S (pos_ r)), Some c).

Definition chars_read_into (r : CharArrayReader) (b : list Z) (off len : nat) : outcome (CharArrayReader * list Z * Z) :=
  if bad_range b off len then Throw out_of_range else
  if chars_closed_ r || bool_decide (count_ r <= pos_ r) then Ret (r, b, (-1)%Z) else
  let toRead := min len (count_ r - pos_ r) in
  b ← copy_n (buf_ r) (pos_ r) toRead b off;
  Ret (set_pos r (pos_ r + toRead), b, int_of toRead).

Definition chars_skip (r : CharArrayReader) (n : nat) : outcome (CharArrayReader * nat) :=
  if chars_closed_ r then Ret (r, 0) else
  let skipped := min n (count_ r - pos_ r) in Ret (set_pos r (pos_ r + skipped), skipped).

Definition chars_ready (r : CharArrayReader) : outcome bool := Ret (negb (chars_closed_ r) && bool_decide (pos_ r < count_ r)).

Definition chars_mark (r : CharArrayReader) (readAheadLimit : nat) : outcome CharArrayReader :=
  if chars_closed_ r then Throw runtime_error else Ret (mkChars (buf_ r) (pos_ r) (pos_ r) (count_ r) (chars_closed_ r)).

Definition chars_reset (r : CharArrayReader) : outcome CharArrayReader :=
  if chars_closed_ r then Throw runtime_error else Ret (set_pos r (marked_pos_ r)).

Definition chars_close (r : CharArrayReader) : outcome CharArrayReader := Ret (mkChars [] 0 0 0 true).

#[global] Instance char_array_reader : AbstractReader CharArrayReader := {|
  rd_read := chars_read; rd_read_into := chars_read_into; rd_markSupported _ := true; rd_mark := chars_mark; rd_reset := chars_reset;
  rd_ready := chars_ready; rd_skip := chars_skip; rd_close := chars_close; rd_isClosed := chars_closed_ |}.

(** ** [class FilterReader] *)
Section filter_reader.
Context {R : Type} `{!AbstractReader R}.

(** The reader below, which may be absent. *)
Definition FilterReader : Type := option R.

Definition filter_lift {A} (f : R -> outcome (R * A)) (in_ : FilterReader) : outcome (FilterReader * A) :=
  match in_ with None => Throw runtime_error | Some r => '(r, a) ← f r; Ret (Some r, a) end.

Definition filter_unit (f : R -> outcome R) (in_ : FilterReader) : outcome FilterReader :=
  match in_ with None => Throw runtime_error | Some r => Some <$> f r end.

Definition filter_read (in_ : FilterReader) : outcome (FilterReader * option Z) := filter_lift rd_read in_.

Definition filter_read_into (in_ : FilterReader) (cBuf : list Z) (off len : nat) : outcome (FilterReader * list Z * Z) :=
  match in_ with
  | None => Throw runtime_error
  | Some r => if bad_range cBuf off len then Throw out_of_range else '(r, cBuf, n) ← rd_read_into r cBuf off len; Ret (Some r, cBuf, n)
  end.

#[global] Instance filter_reader : AbstractReader FilterReader := {|
  rd_read := filter_read; rd_read_into := filter_read_into;
  rd_markSupported in_ := match in_ with None => false | Some r => rd_markSupported r end;
  rd_mark in_ limit := filter_unit (fun r => rd_mark r limit) in_; rd_reset := filter_unit rd_reset;
  rd_ready in_ := match in_ with None => Ret false | Some r => rd_ready r end;
  rd_skip in_ n := filter_lift (fun r => rd_skip r n) in_; rd_close := filter_unit rd_close;
  rd_isClosed in_ := match in_ with None => true | Some r => rd_isClosed r end |}.
End filter_reader.
Arguments FilterReader : clear implicits.

(** ** [class InputStreamReader] *)
Section input_stream_reader.
Context {R : Type} `{!AbstractReader R}.

Record InputStreamReader := mkInput { reader_ : R; input_closed_ : bool }.

(** The reader is not null, and the charset is UTF-8. *)
Definition input_new (input : option R) (utf8 : bool) : outcome InputStreamReader :=
  match input with None => Throw invalid_argument | Some r => if utf8 then Ret (mkInput r false) else Throw invalid_argument end.

Definition input_read (s : InputStreamReader) : outcome (InputStreamReader * option Z) :=
  if input_closed_ s then Throw runtime_error else '(r, ch) ← rd_read (reader_ s); Ret (mkInput r (input_closed_ s), ch).

(** The characters from [off + i] on, one at a time. *)
Fixpoint input_loop (s : InputStreamReader) (cBuf : list Z) (off i n : nat) : outcome (InputStreamReader * list Z * Z) :=
  match n with
  | 0 => Ret (s, cBuf, int_of i)
  | S n =>
    '(s, ch) ← input_read s;
    match ch with
    | None => Ret (s, cBuf, if decide (0 < i) then int_of i else (-1)%Z)
    | Some ch => cBuf ← vset cBuf (off + i) ch; input_loop s cBuf off (S i) n
    end
  end.

Definition input_read_into (s : InputStreamReader) (cBuf : list Z) (off len : nat) : outcome (InputStreamReader * list Z * Z) :=
  if input_closed_ s then Throw runtime_error else
  if bad_range cBuf off len then Throw out_of_range else
  if decide (len = 0) then Ret (s, cBuf, 0%Z) else input_loop s cBuf off 0 len.

Definition input_ready (s : InputStreamReader) : outcome bool := if input_closed_ s then Throw runtime_error else rd_ready (reader_ s).

Definition input_close (s : InputStreamReader) : outcome InputStreamReader := r ← rd_close (reader_ s); Ret (mkInput r true).

#[global] Instance input_stream_reader : AbstractReader InputStreamReader := {|
  rd_read := input_read; rd_read_into := input_read_into; rd_markSupported _ := false; rd_mark _ _ := Throw runtime_error; rd_reset _ := Throw runtime_error;
  rd_ready := input_ready; rd_skip := default_skip input_read_into; rd_close := input_close; rd_isClosed s := input_closed_ s || rd_isClosed (reader_ s) |}.
End input_stream_reader.
Arguments InputStreamReader : clear implicits.

(** ** The laws *)
Definition string_open (r : StringReader) : Prop := closed_ r = false /\ position_ r <= length (source_ r).
Definition string_rest (r : StringReader) : list Z := drop (position_ r) (source_ r).

Lemma head_drop {A} (l : list A) n : head (drop n l) = l !! n.
Proof. revert n. induction l as [|x l IH]; intros [|n]; try done. cbn. apply IH. Qed.

Lemma tail_drop {A} (l : list A) n : tail (drop n l) = drop (S n) l.
Proof. revert n. induction l as [|x l IH]; intros [|n]; try done. cbn [drop]. apply IH. Qed.

#[global] Instance string_reader_laws : ReaderLaws StringReader string_open string_rest.
Proof.
  split.
  - intros r [Hc Hp]. unfold string_rest. cbn [rd_read string_reader]. unfold string_read. rewrite Hc, head_drop, tail_drop. cbn [orb]. destruct (decide (length (source_ r) <= position_ r)) as [Hl|Hl].
    + rewrite bool_decide_true by done. exists r. rewrite (proj2 (lookup_ge_None _ _)), !drop_ge by lia. done.
    + rewrite bool_decide_false by done. destruct (vget_lt (source_ r) (position_ r)) as (c & Hcc & ->); [lia|]. rewrite bind_Ret, Hcc. eexists. split; [done|].
      split; [|done]. split; [done|cbn; lia].
  - intros r buf off len [Hc Hp] Hr H0 Hi. unfold string_rest. cbn [rd_read_into string_reader]. unfold string_read_into. rewrite Hc, bad_range_false by done.
    destruct (decide (length (source_ r) <= position_ r)) as [Hl|Hl].
    + exists r, 0. rewrite decide_True by done. cbn [take]. rewrite write_nil. split; [done|]. split; [|done]. unfold chunk_read. rewrite drop_ge by lia. cbn. auto with lia.
    + set (n := min (min len (length (source_ r) - position_ r)) (length buf - off)). rewrite copy_n_ok, bind_Ret by lia.
      rewrite (decide_True (P := 0 < n)) by lia. exists (set_position r (position_ r + n)), n. rewrite int_of_small, decide_False by (unfold INT32_MAX in *; lia). split; [done|].
      unfold chunk_read, string_open. cbn [closed_ position_ source_ set_position]. rewrite length_drop, drop_drop. split; [lia|]. split; [split; [done|lia]|done].
  - intros r n [Hc Hp]. unfold string_rest. cbn [rd_skip string_reader]. unfold string_skip. rewrite Hc. eexists. rewrite length_drop. split; [done|].
    unfold string_open. cbn [closed_ position_ source_ set_position]. rewrite drop_drop. split; [split; [done|lia]|]. destruct (decide (n <= length (source_ r) - position_ r)).
    + by rewrite Nat.min_l.
    + rewrite Nat.min_r, !drop_ge by lia. done.
Qed.

Definition chars_open (r : CharArrayReader) : Prop := chars_closed_ r = false /\ count_ r = length (buf_ r) /\ pos_ r <= count_ r.
Definition chars_rest (r : CharArrayReader) : list Z := drop (pos_ r) (buf_ r).

#[global] Instance char_array_reader_laws : ReaderLaws CharArrayReader chars_open chars_rest.
Proof.
  split.
  - intros r (Hc & Hn & Hp). unfold chars_rest. cbn [rd_read char_array_reader]. unfold chars_read. rewrite Hc, head_drop, tail_drop. cbn [orb]. destruct (decide (count_ r <= pos_ r)) as [Hl|Hl].
    + rewrite bool_decide_true by done. exists r. rewrite (proj2 (lookup_ge_None _ _)), !drop_ge by lia. done.
    + rewrite bool_decide_false by done. destruct (vget_lt (buf_ r) (pos_ r)) as (c & Hcc & ->); [lia|]. rewrite bind_Ret, Hcc. eexists. split; [done|].
      split; [|done]. split; [done|cbn; lia].
  - intros r buf off len (Hc & Hn & Hp) Hr H0 Hi. unfold chars_rest. cbn [rd_read_into char_array_reader]. unfold chars_read_into. rewrite Hc, bad_range_false by done. cbn [orb].
    destruct (decide (count_ r <= pos_ r)) as [Hl|Hl].
    + rewrite bool_decide_true by done. exists r, 0. rewrite decide_True by done. cbn [take]. rewrite write_nil. split; [done|]. split; [|done]. unfold chunk_read. rewrite drop_ge by lia. cbn. auto with lia.
    + rewrite bool_decide_false by done. set (n := min len (count_ r - pos_ r)). rewrite copy_n_ok, bind_Ret by lia.
      exists (set_pos r (pos_ r + n)), n. rewrite int_of_small, decide_False by (unfold INT32_MAX in *; lia). split; [done|].
      unfold chunk_read, chars_open. cbn [chars_closed_ pos_ buf_ count_ set_pos]. rewrite length_drop, drop_drop. split; [lia|]. split; [split; [done|lia]|done].
  - intros r n (Hc & Hn & Hp). unfold chars_rest. cbn [rd_skip char_array_reader]. unfold chars_skip. rewrite Hc. eexists. rewrite length_drop, <- Hn. split; [done|].
    unfold chars_open. cbn [chars_closed_ pos_ buf_ count_ set_pos]. rewrite drop_drop. split; [split; [done|lia]|]. destruct (decide (n <= count_ r - pos_ r)).
    + by rewrite Nat.min_l.
    + rewrite Nat.min_r, !drop_ge by lia. done.
Qed.

(** The default [skip] and [read] over a lawful [read(cBuf, off, len)]. *)
Section default_skip.
Context {R : Type} (read_into : R -> list Z -> nat -> nat -> outcome (R * list Z * Z)) (is_open : R -> Prop) (rest : R -> list Z).
Hypothesis read_into_ok : forall r buf off len, is_open r -> off + len <= length buf -> 0 < len -> (Z.of_nat len <= INT32_MAX)%Z ->
  exists r' n, read_into r buf off len = Ret (r', write buf off (take n (rest r)), if decide (n = 0) then (-1)%Z else Z.of_nat n) /\
    chunk_read (rest r) buf off len n /\ is_open r' /\ rest r' = drop n (rest r).

Lemma skip_loop_ok fuel : forall r n skipped, is_open r -> skipped <= n -> n - skipped < fuel ->
  exists r', skip_loop read_into fuel r n skipped = Ret (r', skipped + min (n - skipped) (length (rest r))) /\ is_open r' /\ rest r' = drop (n - skipped) (rest r).
Proof.
  induction fuel as [|fuel IH]; intros r n skipped Ho Hs Hf; [lia|]. cbn [skip_loop]. case_decide as Hlt.
  - destruct (read_into_ok r (replicate SKIP_BUFFER_SIZE 0%Z) 0 (min (n - skipped) SKIP_BUFFER_SIZE)) as (r' & k & -> & (Hk1 & Hk2 & Hk3) & Ho' & Hr);
      [done|rewrite length_replicate; lia|unfold SKIP_BUFFER_SIZE; lia|unfold SKIP_BUFFER_SIZE, INT32_MAX; lia|]. rewrite bind_Ret. cbn beta iota. destruct (decide (k = 0)) as [->|Hk].
    + exists r'. rewrite (Hk3 eq_refl) in *. cbn. rewrite Hr. cbn. rewrite Nat.min_0_r, Nat.add_0_r, drop_nil. done.
    + rewrite (proj2 (Z.leb_gt _ _)) by lia. rewrite Nat2Z.id. destruct (IH r' n (skipped + k)) as (r2 & -> & Ho2 & Hr2); [done|lia|lia|].
      exists r2. rewrite Hr2, Hr, drop_drop, length_drop. split; [do 2 f_equal; lia|]. split; [done|]. f_equal. lia.
  - exists r. replace (n - skipped) with 0 by lia. cbn. rewrite Nat.add_0_r. done.
Qed.

Lemma default_skip_ok r n : is_open r -> exists r', default_skip read_into r n = Ret (r', min n (length (rest r))) /\ is_open r' /\ rest r' = drop n (rest r).
Proof.
  intros Ho. unfold default_skip. case_decide as Hn; [subst n; by exists r|]. destruct (skip_loop_ok (S n) r n 0) as (r' & -> & Ho' & Hr'); [done|lia|lia|].
  exists r'. by rewrite Nat.sub_0_r in Hr' |- *.
Qed.

Lemma default_read_ok r : is_open r -> exists r', default_read read_into r = Ret (r', head (rest r)) /\ is_open r' /\ rest r' = tail (rest r).
Proof.
  intros Ho. unfold default_read. destruct (read_into_ok r [0%Z] 0 1) as (r' & k & -> & (Hk1 & Hk2 & Hk3) & Ho' & Hr'); [done|cbn; lia..|done|]. rewrite bind_Ret.
  exists r'. destruct (decide (k = 0)) as [->|Hk]; [cbn; rewrite Hr', (Hk3 eq_refl); done|]. assert (k = 1) as -> by lia.
  rewrite Hr'. destruct (rest r) as [|c cs]; [cbn in Hk2; lia|]. done.
Qed.
End default_skip.

Lemma write_one buf i c : i < length buf -> <[i := c]> buf = write buf i [c].
Proof. intros Hi. unfold write. cbn [length]. rewrite Nat.add_1_r. by rewrite insert_take_drop. Qed.

(** A decorator reads what the reader below has. *)
Section input_laws.
Context {R : Type} `{!AbstractReader R} (is_open : R -> Prop) (rest : R -> list Z) `{!ReaderLaws R is_open rest}.

Definition input_is_open (s : InputStreamReader R) : Prop := input_closed_ s = false /\ is_open (reader_ s).
Definition input_rest (s : InputStreamReader R) : list Z := rest (reader_ s).

Lemma input_read_ok s : input_is_open s -> exists s', input_read s = Ret (s', head (input_rest s)) /\ input_is_open s' /\ input_rest s' = tail (input_rest s).
Proof.
  intros [Hc Ho]. unfold input_read, input_rest. rewrite Hc. destruct (law_read (reader_ s) Ho) as (r & -> & Ho' & Hr). rewrite bind_Ret. eexists. split; [done|]. done.
Qed.

Lemma input_loop_ok n : forall s cBuf off i, input_is_open s -> off + i + n <= length cBuf -> (Z.of_nat (i + n) <= INT32_MAX)%Z -> 0 < i + n ->
  exists s', input_loop s cBuf off i n = Ret (s', write cBuf (off + i) (take n (input_rest s)),
      if decide (i + min n (length (input_rest s)) = 0) then (-1)%Z else Z.of_nat (i + min n (length (input_rest s)))) /\
    input_is_open s' /\ input_rest s' = drop n (input_rest s).
Proof.
  induction n as [|n IH]; intros s cBuf off i Ho Hl Hi H0; cbn [input_loop].
  - exists s. cbn [take drop]. rewrite write_nil, Nat.min_0_l, Nat.add_0_r, decide_False, int_of_small by lia. done.
  - destruct (input_read_ok s Ho) as (s1 & -> & Ho1 & Hr1). rewrite bind_Ret. destruct (input_rest s) as [|c cs]; cbn [head tail hd_error] in *.
    + exists s1. rewrite write_nil. cbn [length]. rewrite Nat.min_0_r, Nat.add_0_r. split; [|by rewrite Hr1]. do 3 f_equal.
      destruct (decide (i = 0)) as [->|]; [by rewrite decide_False by lia|]. rewrite decide_True by lia. apply int_of_small. lia.
    + rewrite vset_lt, bind_Ret by lia. rewrite write_one by lia. destruct (IH s1 (write cBuf (off + i) [c]) off (S i) Ho1) as (s2 & -> & Ho2 & Hr2); [rewrite length_write by (cbn; lia); lia|lia|lia|].
      exists s2. rewrite Hr1 in *. cbn [take drop length]. rewrite <- Nat.succ_min_distr. split; [|done].
      rewrite (Nat.add_succ_r i), (Nat.add_succ_r off). change (S i + min n (length cs)) with (S (i + min n (length cs))). do 3 f_equal.
      rewrite <- (Nat.add_1_r (off + i)). change 1 with (length [c]). rewrite write_write; [done|]. cbn [length]. rewrite length_take. lia.
Qed.

#[global] Instance input_stream_reader_laws : ReaderLaws (InputStreamReader R) input_is_open input_rest.
Proof.
  assert (forall s buf off len, input_is_open s -> off + len <= length buf -> 0 < len -> (Z.of_nat len <= INT32_MAX)%Z ->
    exists s' n, input_read_into s buf off len = Ret (s', write buf off (take n (input_rest s)), if decide (n = 0) then (-1)%Z else Z.of_nat n) /\
      chunk_read (input_rest s) buf off len n /\ input_is_open s' /\ input_rest s' = drop n (input_rest s)) as Hinto.
  { intros s buf off len Ho Hr H0 Hi. unfold input_read_into. pose proof Ho as [Hc _]. rewrite Hc, bad_range_false, decide_False by (done || lia).
    destruct (input_loop_ok len s buf off 0 Ho) as (s' & -> & Ho' & Hr'); [lia|lia|lia|]. exists s', (min len (length (input_rest s))).
    rewrite Nat.add_0_r, !Nat.add_0_l. split; [|split; [|split; [done|]]].
    - by rewrite take_min.
    - unfold chunk_read. split; [lia|]. split; [lia|]. intros Hm. destruct (input_rest s); [done|cbn in Hm; lia].
    - by rewrite drop_min. }
  split; [apply input_read_ok|exact Hinto|]. intros s n Ho. exact (default_skip_ok input_read_into input_is_open input_rest Hinto s n Ho).
Qed.

(** A buffer that is filled whole holds the next characters. *)
Lemma read_all_ok r buf : is_open r -> buf <> [] -> (Z.of_nat (length buf) <= INT32_MAX)%Z ->
  exists r' n, default_read_all rd_read_into r buf = Ret (r', take n (rest r) ++ drop n buf, if decide (n = 0) then (-1)%Z else Z.of_nat n) /\
    n <= length buf /\ (n = 0 -> rest r = []) /\ is_open r' /\ rest r' = drop n (rest r).
Proof.
  intros Ho Hne Hi. unfold default_read_all. destruct (law_read_into r buf 0 (length buf) Ho) as (r' & n & -> & (H1 & H2 & H3) & Ho' & Hr); [lia|destruct buf; [done|cbn; lia]|done|].
  exists r', n. split; [|done]. unfold write. rewrite take_0, length_take, Nat.min_l, Nat.add_0_l by lia. done.
Qed.

Definition filter_open (in_ : FilterReader R) : Prop := exists r, in_ = Some r /\ is_open r.
Definition filter_rest (in_ : FilterReader R) : list Z := match in_ with Some r => rest r | None => [] end.

#[global] Instance filter_reader_laws : ReaderLaws (FilterReader R) filter_open filter_rest.
Proof.
  split; cbn [rd_read rd_read_into rd_skip filter_reader].
  - intros in_ (r & -> & Ho). unfold filter_read, filter_lift. cbn. destruct (law_read r Ho) as (r' & -> & Ho' & Hr). exists (Some r'). split; [done|]. split; [by exists r'|done].
  - intros in_ buf off len (r & -> & Ho) Hl H0 Hi. unfold filter_read_into. rewrite bad_range_false by done. cbn. destruct (law_read_into r buf off len Ho Hl H0 Hi) as (r' & n & -> & Hn & Ho' & Hr).
    exists (Some r'), n. split; [done|]. split; [done|]. split; [by exists r'|done].
  - intros in_ n (r & -> & Ho). unfold filter_lift. cbn. destruct (law_skip r n Ho) as (r' & -> & Ho' & Hr). exists (Some r'). split; [done|]. split; [by exists r'|done].
Qed.
End input_laws.

(** ** Equivalence of the two sources *)
Inductive rop := RRead | RReadInto (cBuf : list Z) (off len : nat) | RSkip (n : nat) | RReady | RMark (limit : nat) | RReset | RClose | RIsClosed | RMarkSupported.
Inductive robs := RoDone | RoChar (c : option Z) | RoRead (cBuf : list Z) (n : Z) | RoNum (n : nat) | RoBool (b : bool).

Definition rstep {R} `{!AbstractReader R} (r : R) (op : rop) : outcome (R * robs) :=
  match op with
  | RRead => '(r, c) ← rd_read r; Ret (r, RoChar c)
  | RReadInto cBuf off len => '(r, cBuf, n) ← rd_read_into r cBuf off len; Ret (r, RoRead cBuf n)
  | RSkip n => '(r, k) ← rd_skip r n; Ret (r, RoNum k)
  | RReady => b ← rd_ready r; Ret (r, RoBool b)
  | RMark limit => r ← rd_mark r limit; Ret (r, RoDone)
  | RReset => r ← rd_reset r; Ret (r, RoDone)
  | RClose => r ← rd_close r; Ret (r, RoDone)
  | RIsClosed => Ret (r, RoBool (rd_isClosed r))
  | RMarkSupported => Ret (r, RoBool (rd_markSupported r))
  end.

(** The sequences on which the two agree: what is read into a buffer fits, is not empty, and is not asked for after [close]. *)
Fixpoint agreed (closed : bool) (ops : list rop) : Prop :=
  match ops with
  | [] => True
  | RReadInto cBuf off len :: ops => closed = false /\ off + len <= length cBuf /\ 0 < len /\ agreed closed ops
  | RClose :: ops => agreed true ops
  | _ :: ops => agreed closed ops
  end.

Definition same_reader (r : StringReader) (c : CharArrayReader) : Prop :=
  source_ r = buf_ c /\ position_ r = pos_ c /\ closed_ r = chars_closed_ c /\ count_ c = length (buf_ c) /\
  (if mark_set_ r then mark_position_ r else 0) = marked_pos_ c.

Lemma same_reader_step closed r c op : same_reader r c -> closed_ r = closed -> agreed closed [op] ->
  (exists r' c' o, rstep r op = Ret (r', o) /\ rstep c op = Ret (c', o) /\ same_reader r' c' /\
    closed_ r' = match op with RClose => true | _ => closed end) \/
  (exists e, rstep r op = Throw e /\ rstep c op = Throw e /\ op <> RClose).
Proof.
  destruct r as [src p mk ms cl], c as [buf q mq n cl']. unfold same_reader. cbn [source_ position_ closed_ mark_set_ mark_position_ buf_ pos_ chars_closed_ count_ marked_pos_].
  intros (-> & -> & -> & -> & Hmk) -> Ha.
  destruct op as [|cBuf off len|k| |limit| | | |]; cbn [agreed] in Ha;
    cbn [rstep rd_read rd_read_into rd_skip rd_ready rd_mark rd_reset rd_close rd_isClosed rd_markSupported string_reader char_array_reader];
    unfold string_read, chars_read, string_read_into, chars_read_into, string_skip, chars_skip, string_ready, chars_ready, string_mark, chars_mark, string_reset, chars_reset, string_close, chars_close;
    cbn [source_ position_ closed_ mark_set_ mark_position_ buf_ pos_ chars_closed_ count_ marked_pos_ set_position set_pos].
  - left. destruct closed; cbn [orb]; [by eexists _, _, _|]. case_bool_decide as Hl; [by eexists _, _, _|]. destruct (vget_lt buf q) as (x & _ & ->); [lia|]. by eexists _, _, _.
  - destruct Ha as (-> & Hl & H0 & _). left. rewrite bad_range_false by done. cbn [orb]. case_decide as Hq; [rewrite bool_decide_true by done; by eexists _, _, _|].
    rewrite bool_decide_false by done. rewrite Nat.min_l, copy_n_ok by lia. rewrite !bind_Ret. rewrite decide_True by lia. by eexists _, _, _.
  - left. destruct closed; by eexists _, _, _.
  - left. by eexists _, _, _.
  - destruct closed; [by right; eexists|]. left. eexists _, _, _. done.
  - destruct closed; [by right; eexists|]. left. eexists _, _, _. split; [reflexivity|]. split; [reflexivity|]. done.
  - left. by eexists _, _, _.
  - left. by eexists _, _, _.
  - left. by eexists _, _, _.
Qed.

Lemma agreed_head closed op ops : agreed closed (op :: ops) -> agreed closed [op] /\ agreed (match op with RClose => true | _ => closed end) ops /\ (op <> RClose -> agreed closed ops).
Proof. destruct op; cbn; tauto. Qed.

Lemma same_reader_trace ops : forall closed r c, same_reader r c -> closed_ r = closed -> agreed closed ops ->
  exists r' c' os, trace rstep r ops = Ret (r', os) /\ trace rstep c ops = Ret (c', os) /\ same_reader r' c'.
Proof.
  induction ops as [|op ops IH]; intros closed r c Hs Hc Ha; [by eexists _, _, _|]. apply agreed_head in Ha as (Hop & Hnext & Hno). cbn [trace].
  destruct (same_reader_step closed r c op Hs Hc Hop) as [(r1 & c1 & o & -> & -> & Hs1 & Hc1)|(e & -> & -> & He)].
  - destruct (IH _ r1 c1 Hs1 Hc1 Hnext) as (r' & c' & os & -> & -> & Hs'). by eexists _, _, _.
  - destruct (IH _ r c Hs Hc (Hno He)) as (r' & c' & os & -> & -> & Hs'). by eexists _, _, _.
Qed.

(** A string reader and a character array reader on the same characters are the same reader: every sequence of reads, skips, marks, resets,
    [ready], [close] and [isClosed] gives the same results and the same exceptions from both, as long as the reads into a buffer
    fit it, ask for a character and come before [close]. *)
Theorem string_chars_equivalent s ops : agreed false ops ->
  exists r c os, trace rstep (string_new s) ops = Ret (r, os) /\ trace rstep (chars_new s) ops = Ret (c, os).
Proof.
  intros Ha. destruct (same_reader_trace ops false (string_new s) (chars_new s)) as (r & c & os & Hr & Hc & _); [done|done|done|]. by exists r, c, os.
Qed.

Lemma string_chars_equivalent_witness : exists r c os,
  trace rstep (string_new [97; 98; 99; 100]%Z) [RRead; RMark 1; RReadInto [0; 0; 0]%Z 1 2; RReset; RReady; RSkip 5; RRead; RClose; RReset; RIsClosed; RSkip 1; RRead] = Ret (r, os) /\
  trace rstep (chars_new [97; 98; 99; 100]%Z) [RRead; RMark 1; RReadInto [0; 0; 0]%Z 1 2; RReset; RReady; RSkip 5; RRead; RClose; RReset; RIsClosed; RSkip 1; RRead] = Ret (c, os).
Proof. apply string_chars_equivalent. cbn. lia. Defined.

(** Where they differ: a read of no characters, a range outside the buffer, and a read after [close]. *)
Lemma string_chars_differ :
  rstep (string_new [97]%Z) (RReadInto [] 0 0) = Ret (string_new [97]%Z, RoRead [] (-1)) /\ rstep (chars_new [97]%Z) (RReadInto [] 0 0) = Ret (chars_new [97]%Z, RoRead [] 0) /\
  rstep (string_new [97]%Z) (RReadInto [] 0 1) = Throw invalid_argument /\ rstep (chars_new [97]%Z) (RReadInto [] 0 1) = Throw out_of_range /\
  rstep (mkString [] 0 0 false true) (RReadInto [0]%Z 0 1) = Throw runtime_error /\ rstep (mkChars [] 0 0 0 true) (RReadInto [0]%Z 0 1) = Ret (mkChars [] 0 0 0 true, RoRead [0]%Z (-1)).
Proof. done. Qed.

(** The part of an array: its characters, or an exception; but a length that wraps [offset + length] around passes the check. *)
Lemma chars_new_range_ok buffer offset len : (0 <= offset)%Z -> (0 <= len)%Z -> (offset + len < 2 ^ 64)%Z ->
  chars_new_range buffer offset len = if decide (offset + len <= Z.of_nat (length buffer))%Z
    then Ret (chars_new (take (Z.to_nat len) (drop (Z.to_nat offset) buffer))) else Throw invalid_argument.
Proof.
  intros Ho Hl Hs. unfold chars_new_range. rewrite u64_small by lia. destruct (decide (offset + len <= Z.of_nat (length buffer))%Z) as [H|H].
  - rewrite (decide_False (P := _ \/ _)) by lia. unfold chars_new. rewrite length_take, length_drop. do 2 f_equal. lia.
  - by rewrite decide_True by lia.
Qed.

Lemma chars_new_range_wraps buffer offset : (0 < offset <= Z.of_nat (length buffer))%Z -> (Z.of_nat (length buffer) < 2 ^ 64)%Z ->
  chars_new_range buffer offset (2 ^ 64 - offset) = Undef.
Proof.
  intros Ho Hb. unfold chars_new_range. replace (offset + (2 ^ 64 - offset))%Z with (2 ^ 64)%Z by lia. change (u64 (2 ^ 64)) with 0%Z.
  rewrite (decide_False (P := _ \/ _)) by lia. by rewrite decide_False by lia.
Qed.
