(* ===== verification/BufferedReader.v ===== *)
(** * Buffered reader ([io/reader/BufferedReader])

    A decorator that reads blocks from the reader below.  Over any lawful reader,
    whatever the blocks it returns and whatever the size of the buffer, the operations
    that read take from the characters that are left, lines included; the decorator is
    lawful itself.  [mark] and [reset] are not transparent: an example shows the
    characters that are skipped. *)

From S2P Require Import Prelude Refinement Reader.

#[local] Set Warnings "-register-all".

Section buffered.
Context {R : Type} `{!AbstractReader R}.

(** ** [class BufferedReader] *)
Record BufferedReader := mkBuffered {
  buffer_ : list Z;
  reader_ : R;
  buffer_size_ : nat;
  pos_ : nat;
  count_ : nat;
  mark_limit_ : nat;
}.
Implicit Types (b : BufferedReader) (cBuf : list Z).

Definition DEFAULT_BUFFER_SIZE : Z := 8192.

Definition buffered_new (reader : R) (size : nat) : outcome BufferedReader :=
  if decide (size = 0) then Throw invalid_argument else Ret (mkBuffered (replicate size 0%Z) reader size 0 0 0).

(** The size that is not given. *)
Definition buffered_default (reader : R) : outcome BufferedReader := buffered_new reader (Z.to_nat DEFAULT_BUFFER_SIZE).

Definition advance b (n : nat) : BufferedReader := mkBuffered (buffer_ b) (reader_ b) (buffer_size_ b) (pos_ b + n) (count_ b) (mark_limit_ b).

Definition fillBuffer b : outcome (BufferedReader * bool) :=
  '(reader, buffer, bytesRead) ← rd_read_into (reader_ b) (buffer_ b) 0 (buffer_size_ b);
  let count := if (0 <? bytesRead)%Z then Z.to_nat bytesRead else 0 in
  Ret (mkBuffered buffer reader (buffer_size_ b) 0 count (mark_limit_ b), bool_decide (0 < count)).

(** [if (pos_ >= count_ && !fillBuffer())]: is there a character in the buffer? *)
Definition ensure b : outcome (BufferedReader * bool) := if decide (count_ b <= pos_ b) then fillBuffer b else Ret (b, true).

Definition read b : outcome (BufferedReader * option Z) :=
  '(b, more) ← ensure b;
  if negb more then Ret (b, None) else c ← vget (buffer_ b) (pos_ b); Ret (advance b 1, Some c).

Fixpoint read_loop (fuel : nat) b cBuf (totalBytesRead currentOffset remainingLen : nat) : outcome (BufferedReader * list Z * nat) :=
  match fuel with
  | 0 => NoFuel
  | S fuel =>
    if decide (0 < remainingLen) then
      '(b, more) ← ensure b;
      if negb more then Ret (b, cBuf, totalBytesRead) else
      let bytesToRead := min (count_ b - pos_ b) remainingLen in
      cBuf ← copy_n (buffer_ b) (pos_ b) bytesToRead cBuf currentOffset;
      read_loop fuel (advance b bytesToRead) cBuf (totalBytesRead + bytesToRead) (currentOffset + bytesToRead) (remainingLen - bytesToRead)
    else Ret (b, cBuf, totalBytesRead)
  end.

Definition read_into b cBuf (off len : nat) : outcome (BufferedReader * list Z * Z) :=
  if bad_range cBuf off len then Throw out_of_range else
  if decide (len = 0) then Ret (b, cBuf, 0%Z) else
  '(b, cBuf, totalBytesRead) ← read_loop (S len) b cBuf 0 off len;
  Ret (b, cBuf, if decide (0 < totalBytesRead) then int_of totalBytesRead else (-1)%Z).

(** One iteration per character; the fuel is a bound on their number. *)
Fixpoint readLine (fuel : nat) b (line : list Z) : outcome (BufferedReader * list Z) :=
  match fuel with
  | 0 => NoFuel
  | S fuel =>
    '(b, more) ← ensure b;
    if negb more then Ret (b, line) else
    ch ← vget (buffer_ b) (pos_ b);
    if decide (ch = 10%Z) then Ret (advance b 1, line)
    else readLine fuel (advance b 1) (if decide (ch <> 13%Z) then line ++ [ch] else line)
  end.

Fixpoint skip_loop (fuel : nat) b (remaining skipped : nat) : outcome (BufferedReader * nat) :=
  match fuel with
  | 0 => NoFuel
  | S fuel =>
    if decide (0 < remaining) then
      '(b, more) ← ensure b;
      if negb more then Ret (b, skipped) else
      let bytesToSkip := min (count_ b - pos_ b) remaining in
      skip_loop fuel (advance b bytesToSkip) (remaining - bytesToSkip) (skipped + bytesToSkip)
    else Ret (b, skipped)
  end.

Definition skip b (n : nat) : outcome (BufferedReader * nat) := if decide (n = 0) then Ret (b, 0) else skip_loop (S n) b n 0.

Definition set_reader b (r : R) : BufferedReader := mkBuffered (buffer_ b) r (buffer_size_ b) (pos_ b) (count_ b) (mark_limit_ b).

Definition close b : outcome BufferedReader := r ← rd_close (reader_ b); Ret (set_reader b r).

Definition mark b (readAheadLimit : nat) : outcome BufferedReader :=
  if decide (readAheadLimit = 0) then Throw invalid_argument else
  r ← rd_mark (reader_ b) readAheadLimit;
  Ret (mkBuffered (buffer_ b) r (buffer_size_ b) (pos_ b) (count_ b) (pos_ b)).

Definition reset b : outcome BufferedReader :=
  r ← rd_reset (reader_ b); Ret (mkBuffered (buffer_ b) r (buffer_size_ b) (mark_limit_ b) (count_ b) (mark_limit_ b)).

#[global] Instance buffered_reader : AbstractReader BufferedReader := {|
  rd_read := read; rd_read_into := read_into; rd_markSupported _ := true; rd_mark := mark; rd_reset := reset;
  rd_ready b := rd_ready (reader_ b); rd_skip := skip; rd_close := close; rd_isClosed b := rd_isClosed (reader_ b) |}.

(** ** The characters that are left *)
Context (is_open : R -> Prop) (rest : R -> list Z) `{!ReaderLaws R is_open rest}.

Definition pending b : list Z := drop (pos_ b) (take (count_ b) (buffer_ b)).

Definition buffered_open b : Prop :=
  is_open (reader_ b) /\ length (buffer_ b) = buffer_size_ b /\ 0 < buffer_size_ b /\ (Z.of_nat (buffer_size_ b) <= INT32_MAX)%Z /\
  pos_ b <= count_ b /\ count_ b <= buffer_size_ b.

Definition buffered_rest b : list Z := pending b ++ rest (reader_ b).

Lemma length_pending b : buffered_open b -> length (pending b) = count_ b - pos_ b.
Proof. intros (_ & Hl & _ & _ & Hp & Hc). unfold pending. rewrite length_drop, length_take. lia. Qed.

(** Either there is a character in the buffer, or the end is reached. *)
Lemma ensure_ok b : buffered_open b -> exists b' more, ensure b = Ret (b', more) /\ buffered_open b' /\ buffered_rest b' = buffered_rest b /\
  (if more : bool then pos_ b' < count_ b' else buffered_rest b = []).
Proof.
  intros Ho. pose proof Ho as (Hr & Hl & H0 & Hi & Hp & Hc). unfold ensure. case_decide as Hle; [|exists b, true; split; [done|]; split; [done|]; split; [done|]; cbn; lia].
  unfold fillBuffer. destruct (law_read_into (reader_ b) (buffer_ b) 0 (buffer_size_ b) Hr) as (r & n & -> & (Hn1 & Hn2 & Hn3) & Hr' & Hrest); [lia..|]. rewrite bind_Ret.
  assert (buffered_rest b = rest (reader_ b)) as Hall. { unfold buffered_rest, pending. rewrite drop_ge by (rewrite length_take; lia). done. }
  assert (length (write (buffer_ b) 0 (take n (rest (reader_ b)))) = buffer_size_ b) as Hlen by (rewrite length_write; [done|]; rewrite length_take; lia).
  rewrite Hall. eexists _, _. split; [reflexivity|]. destruct (decide (n = 0)) as [->|Hn].
  - cbn. rewrite (Hn3 eq_refl) in *. split; [by split_and!; cbn; try lia|]. unfold buffered_rest, pending. cbn. by rewrite Hrest.
  - rewrite (proj2 (Z.ltb_lt 0 (Z.of_nat n))), Nat2Z.id by lia. rewrite bool_decide_true by lia. split; [by split_and!; cbn; try lia|]. split; [|cbn; lia].
    unfold buffered_rest, pending, write. cbn. rewrite drop_0, take_0, (app_nil_l (take n _ ++ _)), take_app_length' by (rewrite length_take; lia). by rewrite Hrest, take_drop.
Qed.

(** What [n] buffered characters are, and what is left after them. *)
Lemma buffered_advance_ok b n : buffered_open b -> n <= count_ b - pos_ b ->
  buffered_open (advance b n) /\ buffered_rest (advance b n) = drop n (buffered_rest b) /\ take n (drop (pos_ b) (buffer_ b)) = take n (buffered_rest b).
Proof.
  intros Ho Hn. pose proof (length_pending b Ho) as Hp. destruct Ho as (Hr & Hl & H0 & Hi & Hpos & Hc). split; [split_and!; cbn; try done; lia|].
  unfold buffered_rest. rewrite drop_app_le, take_app_le by lia. unfold pending. cbn [advance buffer_ pos_ count_ reader_]. rewrite drop_drop. split; [done|].
  rewrite skipn_firstn_comm, firstn_firstn. f_equal. lia.
Qed.

Lemma vget_buffer b : buffered_open b -> pos_ b < count_ b -> exists c, vget (buffer_ b) (pos_ b) = Ret c /\ head (buffered_rest b) = Some c /\ buffered_rest b = c :: drop 1 (buffered_rest b).
Proof.
  intros Ho Hp. pose proof Ho as (Hr & Hl & H0 & Hi & Hpos & Hc). destruct (vget_lt (buffer_ b) (pos_ b)) as (c & Hcc & Hv); [lia|].
  exists c. split; [done|]. destruct (buffered_advance_ok b 1 Ho) as (_ & _ & Ht); [lia|]. rewrite (drop_S _ _ _ Hcc) in Ht. cbn in Ht. destruct (buffered_rest b) as [|c' cs]; [done|]. cbn in Ht |- *.
  injection Ht as <-. by rewrite drop_0.
Qed.

Lemma buffered_read_ok b : buffered_open b -> exists b', read b = Ret (b', head (buffered_rest b)) /\ buffered_open b' /\ buffered_rest b' = tail (buffered_rest b).
Proof.
  intros Ho. unfold read. destruct (ensure_ok b Ho) as (b1 & more & -> & Ho1 & Hr1 & Hm). rewrite bind_Ret. destruct more; cbn [negb].
  - destruct (vget_buffer b1 Ho1 Hm) as (c & -> & Hh & Hcons). rewrite bind_Ret. destruct (buffered_advance_ok b1 1 Ho1) as (Ho2 & Hr2 & _); [lia|].
    exists (advance b1 1). rewrite <- Hr1, Hh, Hr2. split; [done|]. split; [done|]. by rewrite Hcons at 2.
  - exists b1. rewrite Hr1, Hm. done.
Qed.

Lemma read_loop_ok fuel : forall b cBuf total off n, buffered_open b -> off + n <= length cBuf -> n < fuel ->
  exists b', read_loop fuel b cBuf total off n = Ret (b', write cBuf off (take n (buffered_rest b)), total + min n (length (buffered_rest b))) /\
    buffered_open b' /\ buffered_rest b' = drop n (buffered_rest b).
Proof.
  induction fuel as [|fuel IH]; intros b cBuf total off n Ho Hl Hf; [lia|]. cbn [read_loop]. case_decide as H0.
  2:{ replace n with 0 by lia. exists b. cbn [take drop]. by rewrite write_nil, Nat.min_0_l, Nat.add_0_r, drop_0. }
  destruct (ensure_ok b Ho) as (b1 & more & -> & Ho1 & Hr1 & Hm). rewrite bind_Ret. destruct more; cbn [negb].
  - pose proof Ho1 as (_ & Hlb & _ & _ & Hp1 & Hc1). pose proof (length_pending b1 Ho1) as Hpend. set (k := min (count_ b1 - pos_ b1) n). destruct (buffered_advance_ok b1 k Ho1) as (Ho2 & Hr2 & Ht); [lia|].
    assert (k <= length (buffered_rest b)) as Hkl by (rewrite <- Hr1; unfold buffered_rest; rewrite length_app; lia).
    rewrite copy_n_ok, bind_Ret by lia. destruct (IH (advance b1 k) (write cBuf off (take k (drop (pos_ b1) (buffer_ b1)))) (total + k) (off + k) (n - k)) as (b2 & -> & Ho3 & Hr3); [done|rewrite length_write by (rewrite length_take, length_drop; lia); lia|lia|].
    exists b2. rewrite Ht, Hr2, Hr1 in *. assert (length (take k (buffered_rest b)) = k) as Hk by (rewrite length_take; lia). split; [|split; [done|]].
    + rewrite length_drop. replace (off + k) with (off + length (take k (buffered_rest b))) by lia. rewrite write_write by (rewrite !length_take, length_drop; lia). f_equal. f_equal; [f_equal|lia].
      f_equal. rewrite take_take_drop. f_equal. lia.
    + rewrite Hr3, drop_drop. f_equal. lia.
  - exists b1. rewrite Hm in *. rewrite take_nil, write_nil, Nat.min_0_r, Nat.add_0_r, drop_nil, Hr1. done.
Qed.

(** Reading takes as many characters as there are. *)
Lemma buffered_read_into_ok b cBuf off len : buffered_open b -> off + len <= length cBuf -> 0 < len -> (Z.of_nat len <= INT32_MAX)%Z ->
  exists b', read_into b cBuf off len = Ret (b', write cBuf off (take len (buffered_rest b)),
      if decide (buffered_rest b = []) then (-1)%Z else Z.of_nat (min len (length (buffered_rest b)))) /\
    buffered_open b' /\ buffered_rest b' = drop len (buffered_rest b).
Proof.
  intros Ho Hl H0 Hi. unfold read_into. rewrite bad_range_false, decide_False by (done || lia).
  destruct (read_loop_ok (S len) b cBuf 0 off len Ho Hl) as (b' & -> & Hb'); [lia|]. rewrite bind_Ret, Nat.add_0_l. exists b'. split; [|done]. do 2 f_equal.
  destruct (decide (buffered_rest b = [])) as [->|Hne]; [by rewrite decide_False by (cbn; lia)|]. rewrite decide_True by (destruct (buffered_rest b); [done|cbn; lia]).
  apply int_of_small. lia.
Qed.

Lemma buffered_skip_loop_ok fuel : forall b n skipped, buffered_open b -> n < fuel ->
  exists b', skip_loop fuel b n skipped = Ret (b', skipped + min n (length (buffered_rest b))) /\ buffered_open b' /\ buffered_rest b' = drop n (buffered_rest b).
Proof.
  induction fuel as [|fuel IH]; intros b n skipped Ho Hf; [lia|]. cbn [skip_loop]. case_decide as H0.
  2:{ replace n with 0 by lia. exists b. by rewrite Nat.min_0_l, Nat.add_0_r, drop_0. }
  destruct (ensure_ok b Ho) as (b1 & more & -> & Ho1 & Hr1 & Hm). rewrite bind_Ret. destruct more; cbn [negb].
  - pose proof (length_pending b1 Ho1) as Hpend. set (k := min (count_ b1 - pos_ b1) n). destruct (buffered_advance_ok b1 k Ho1) as (Ho2 & Hr2 & _); [lia|].
    assert (k <= length (buffered_rest b)) as Hkl by (rewrite <- Hr1; unfold buffered_rest; rewrite length_app; lia).
    destruct (IH (advance b1 k) (n - k) (skipped + k) Ho2) as (b2 & -> & Ho3 & Hr3); [lia|]. exists b2. rewrite Hr3, Hr2, Hr1, drop_drop, length_drop.
    split; [do 2 f_equal; lia|]. split; [done|]. f_equal. lia.
  - exists b1. rewrite Hm in *. cbn [length]. by rewrite Nat.min_0_r, Nat.add_0_r, drop_nil, Hr1.
Qed.

Lemma buffered_skip_ok b n : buffered_open b -> exists b', skip b n = Ret (b', min n (length (buffered_rest b))) /\ buffered_open b' /\ buffered_rest b' = drop n (buffered_rest b).
Proof. intros Ho. unfold skip. case_decide as Hn; [subst n; by exists b|]. apply buffered_skip_loop_ok; [done|lia]. Qed.

#[global] Instance buffered_reader_laws : ReaderLaws BufferedReader buffered_open buffered_rest.
Proof.
  split; cbn [rd_read rd_read_into rd_skip buffered_reader]; [apply buffered_read_ok| |intros b n Ho; by apply buffered_skip_ok].
  intros b cBuf off len Ho Hl H0 Hi. destruct (buffered_read_into_ok b cBuf off len Ho Hl H0 Hi) as (b' & -> & Ho' & Hr').
  exists b', (min len (length (buffered_rest b))). rewrite Hr', take_min, drop_min. split; [|split; [|done]].
  - do 2 f_equal. destruct (buffered_rest b); [by rewrite Nat.min_0_r|]. rewrite decide_False by done. by rewrite decide_False by (cbn; lia).
  - unfold chunk_read. split; [lia|]. split; [lia|]. intros Hm. destruct (buffered_rest b); [done|cbn in Hm; lia].
Qed.

(** ** Lines *)
(** The line at the front of the characters and what is left after it: carriage returns are dropped wherever they are. *)
Fixpoint line_of (l : list Z) : list Z * list Z :=
  match l with
  | [] => ([], [])
  | c :: l => if decide (c = 10%Z) then ([], l) else let '(ln, l) := line_of l in (if decide (c <> 13%Z) then c :: ln else ln, l)
  end.

Lemma readLine_ok fuel : forall b acc, buffered_open b -> length (buffered_rest b) < fuel ->
  exists b', readLine fuel b acc = Ret (b', acc ++ (line_of (buffered_rest b)).1) /\ buffered_open b' /\ buffered_rest b' = (line_of (buffered_rest b)).2.
Proof.
  induction fuel as [|fuel IH]; intros b acc Ho Hf; [lia|]. cbn [readLine].
  destruct (ensure_ok b Ho) as (b1 & more & -> & Ho1 & Hr1 & Hm). rewrite bind_Ret. destruct more; cbn [negb].
  - destruct (vget_buffer b1 Ho1 Hm) as (c & -> & Hh & Hcons). rewrite bind_Ret. destruct (buffered_advance_ok b1 1 Ho1) as (Ho2 & Hr2 & _); [lia|].
    rewrite <- Hr2 in Hcons. rewrite Hr1 in Hcons. rewrite Hcons in Hf |- *. cbn [length] in Hf. cbn [line_of]. case_decide as Hc.
    + exists (advance b1 1). cbn. by rewrite app_nil_r.
    + destruct (IH (advance b1 1) (if decide (c <> 13%Z) then acc ++ [c] else acc) Ho2) as (b2 & -> & Ho3 & Hr3); [lia|]. exists b2.
      destruct (line_of (buffered_rest (advance b1 1))) as [ln l]. cbn in *. split; [|done]. case_decide; [|done]. by rewrite <- (assoc_L (++)).
  - exists b1. rewrite Hm in *. cbn. by rewrite app_nil_r.
Qed.

(** ** Refinement *)
Inductive bop := BRead | BReadInto (cBuf : list Z) (off len : nat) | BSkip (n : nat) | BLine.
Inductive bobs := BoChar (c : option Z) | BoRead (cBuf : list Z) (n : Z) | BoNum (n : nat) | BoLine (line : list Z).

Definition bstep (fuel : nat) b (op : bop) : outcome (BufferedReader * bobs) :=
  match op with
  | BRead => '(b, c) ← read b; Ret (b, BoChar c)
  | BReadInto cBuf off len => '(b, cBuf, n) ← read_into b cBuf off len; Ret (b, BoRead cBuf n)
  | BSkip n => '(b, k) ← skip b n; Ret (b, BoNum k)
  | BLine => '(b, line) ← readLine fuel b []; Ret (b, BoLine line)
  end.

(** The reader as the characters that are left; [int] counts fewer than [2^31] characters. *)
Definition bspec (chars : list Z) (op : bop) : outcome (list Z * bobs) :=
  match op with
  | BRead => Ret (tail chars, BoChar (head chars))
  | BReadInto cBuf off len =>
    if decide (off + len <= length cBuf) then
      if decide (len = 0) then Ret (chars, BoRead cBuf 0) else
      if decide (INT32_MAX < Z.of_nat len)%Z then Undef else
      Ret (drop len chars, BoRead (write cBuf off (take len chars)) (if decide (chars = []) then -1 else Z.of_nat (min len (length chars))))
    else Throw out_of_range
  | BSkip n => Ret (drop n chars, BoNum (min n (length chars)))
  | BLine => let '(line, chars) := line_of chars in Ret (chars, BoLine line)
  end.

Lemma length_line_of l : length (line_of l).2 <= length l.
Proof. induction l as [|c l IH]; cbn; [lia|]. case_decide; cbn; [lia|]. destruct (line_of l). cbn in *. lia. Qed.

Definition bufs_small (ops : list bop) : Prop := Forall (fun op => match op with BReadInto _ _ len => (Z.of_nat len <= INT32_MAX)%Z | _ => True end) ops.

Definition buffered_sim (fuel : nat) b (chars : list Z) : Prop := buffered_open b /\ buffered_rest b = chars /\ length chars < fuel.

#[global] Instance buffered_simulates fuel : Simulates (bstep fuel) bspec (buffered_sim fuel).
Proof.
  intros b chars op (Ho & <- & Hf). destruct op as [|cBuf off len|n|]; cbn [bstep bspec].
  - destruct (buffered_read_ok b Ho) as (b' & -> & Ho' & Hr'). eexists. split; [reflexivity|]. split_and!; [done|done|]. destruct (buffered_rest b); cbn in *; lia.
  - destruct (decide (off + len <= length cBuf)) as [Hl|Hl].
    2:{ unfold read_into, bad_range. rewrite bool_decide_true by lia. done. }
    case_decide as H0; [|case_decide as Hi; [done|]].
    + unfold read_into. rewrite bad_range_false, decide_True by done. eexists. split; [reflexivity|]. done.
    + destruct (buffered_read_into_ok b cBuf off len Ho Hl) as (b' & -> & Ho' & Hr'); [lia..|]. eexists. split; [reflexivity|]. split_and!; [done|done|]. rewrite length_drop. lia.
  - destruct (buffered_skip_ok b n Ho) as (b' & -> & Ho' & Hr'). eexists. split; [reflexivity|]. split_and!; [done|done|]. rewrite length_drop. lia.
  - destruct (readLine_ok fuel b [] Ho Hf) as (b' & -> & Ho' & Hr'). pose proof (length_line_of (buffered_rest b)). destruct (line_of (buffered_rest b)) as [ln l]. cbn in *.
    eexists. split; [reflexivity|]. split_and!; [done|done|lia].
Qed.

Lemma bspec_trace ops : forall chars, bufs_small ops -> exists chars' os, trace bspec chars ops = Ret (chars', os).
Proof.
  induction ops as [|op ops IH]; intros chars Hs; [by eexists _, _|]. apply Forall_cons in Hs as [Hop Hs]. cbn [trace].
  assert (forall x, exists chars' os, (r ← trace bspec x ops; Ret r) = Ret (chars', os)) as IH' by (intros x; destruct (IH x Hs) as (? & ? & ->); by eexists _, _).
  assert ((exists p, bspec chars op = Ret p) \/ (exists e, bspec chars op = Throw e)) as [([chars1 o] & ->)|(e & ->)].
  { destruct op as [|cBuf off len|n|]; cbn [bspec]; [by left; eexists| |by left; eexists|destruct (line_of chars); by left; eexists].
    case_decide; [|by right; eexists]. case_decide; [by left; eexists|]. rewrite decide_False by lia. by left; eexists. }
  - destruct (IH chars1 Hs) as (? & ? & ->). by eexists _, _.
  - destruct (IH chars Hs) as (? & ? & ->). by eexists _, _.
Qed.

(** A buffered reader over any reader that keeps its promise, whatever blocks that one returns and whatever the
    size of the buffer, gives the characters in order, each once: [read], [read(cBuf, off, len)], [skip] and [readLine] do what they do on
    the characters that are left, and the checks of the arguments are the only failures. *)
Theorem buffered_reader_refines reader size fuel ops : is_open reader -> 0 < size -> (Z.of_nat size <= INT32_MAX)%Z -> length (rest reader) < fuel -> bufs_small ops ->
  exists b b' chars os, buffered_new reader size = Ret b /\ trace bspec (rest reader) ops = Ret (chars, os) /\
    trace (bstep fuel) b ops = Ret (b', os) /\ buffered_open b' /\ buffered_rest b' = chars.
Proof.
  intros Ho H0 Hi Hf Hs. unfold buffered_new. rewrite decide_False by lia. destruct (bspec_trace ops (rest reader) Hs) as (chars & os & Ht).
  set (b := mkBuffered _ _ _ _ _ _). assert (buffered_sim fuel b (rest reader)) as HR.
  { split_and!; [split_and!; cbn; rewrite ?length_replicate; done || lia|done|done]. }
  destruct (trace_refines ops b (rest reader) chars os HR Ht) as (b' & Hb & (Ho' & Hr' & _)). exists b, b', chars, os. done.
Qed.
End buffered.
Arguments BufferedReader : clear implicits.

(** A line that was written is read: without line ends in it, and with either end. *)
Lemma line_of_line l r : Forall (fun c => c <> 10 /\ c <> 13)%Z l -> line_of (l ++ 10%Z :: r) = (l, r) /\ line_of (l ++ [13; 10]%Z ++ r) = (l, r).
Proof.
  induction 1 as [|c l [H10 H13] _ [IH1 IH2]]; [done|]. cbn [line_of app] in *. rewrite IH1, IH2. by rewrite !(decide_False (P := c = 10%Z)), !(decide_True (P := c <> 13%Z)) by done.
Qed.

(** The end of the characters is an empty line, and a carriage return is lost wherever it is. *)
Lemma line_of_ambiguous : line_of [] = ([], []) /\ line_of [10]%Z = ([], []) /\ line_of [97; 13; 98; 10]%Z = ([97; 98]%Z, []).
Proof. done. Qed.

(** [mark] and [reset] are passed to the reader below, which is ahead of the buffer: after reading "a", marking, reading "b" and "c", and resetting, the next
    character is "d" (a transparent buffer would give "b"). *)
Lemma buffered_reset_skips :
  (b ← buffered_new (string_new [97; 98; 99; 100; 101; 102]%Z) 2; '(b, c1) ← read b; b ← mark b 10; '(b, c2) ← read b; '(b, c3) ← read b; b ← reset b;
   '(b, c4) ← read b; Ret (c1, c2, c3, c4)) = Ret (Some 97, Some 98, Some 99, Some 100)%Z.
Proof. reflexivity. Qed.

(** [ready] asks the reader below, which the buffer has emptied: it is false with characters left. *)
Lemma buffered_ready_late :
  (b ← buffered_new (string_new [97; 98]%Z) 8; '(b, c1) ← read b; before ← rd_ready b; '(b, c2) ← read b; Ret (c1, before, c2)) = Ret (Some 97, false, Some 98)%Z.
Proof. reflexivity. Qed.

Section buffered_witness.
#[local] Definition text : list Z := [97; 98; 13; 10; 99; 100; 101; 10; 102]%Z.
#[local] Definition sample_bops : list bop := [BRead; BLine; BReadInto [0; 0; 0]%Z 1 2; BReadInto [0]%Z 0 2; BSkip 1; BReadInto [] 0 0; BLine; BRead; BRead; BReadInto [7]%Z 0 1].

Lemma buffered_reader_refines_witness : exists b b' chars os, buffered_new (Some (mkInput (string_new text) false)) 2 = Ret b /\
  trace bspec text sample_bops = Ret (chars, os) /\ trace (bstep 10) b sample_bops = Ret (b', os) /\
  buffered_open (filter_open (input_is_open string_open)) b' /\ buffered_rest (filter_rest (input_rest string_rest)) b' = chars.
Proof.
  apply (buffered_reader_refines (filter_open (input_is_open string_open)) (filter_rest (input_rest string_rest)) (Some (mkInput (string_new text) false)) 2 10 sample_bops).
  - eexists. split; [reflexivity|]. split; [done|]. split; [done|cbn; lia].
  - lia.
  - unfold INT32_MAX. lia.
  - cbn. lia.
  - unfold bufs_small, sample_bops, INT32_MAX. repeat constructor; lia.
Defined.
End buffered_witness.
