(* ===== verification/PushbackReader.v ===== *)
(** * Pushback reader ([io/reader/PushbackReader])

    A filter with a buffer that is filled from its end: [unread] puts characters in
    front of those that are left.  With a buffer of the default size it is a stack of
    at most 1024 characters on top of any lawful reader, and a lawful reader itself.
    The position starts at the default size whatever the size of the buffer: lemmas show
    what the other sizes do.

    What an object is after an exception of the reader below is not modelled. *)

From S2P Require Import Prelude Refinement Reader.

#[local] Set Warnings "-register-all".

Section pushback.
Context {R : Type} `{!AbstractReader R}.

(** ** [class PushbackReader] *)
Record PushbackReader := mkPushback { in_ : FilterReader R; buffer_ : list Z; buffer_pos_ : nat; closed_ : bool }.
Implicit Types (s : PushbackReader) (cBuf : list Z).

Definition DEFAULT_BUFFER_SIZE : nat := 1024.

Definition pushback_new (reader : FilterReader R) (size : nat) : outcome PushbackReader :=
  if decide (size = 0) then Throw invalid_argument else Ret (mkPushback reader (replicate size 0%Z) DEFAULT_BUFFER_SIZE false).

(** The size that is not given. *)
Definition pushback_default (reader : FilterReader R) : outcome PushbackReader := pushback_new reader DEFAULT_BUFFER_SIZE.

Definition is_none (in_ : FilterReader R) : bool := match in_ with None => true | Some _ => false end.

Definition validateOpen s : outcome unit := if closed_ s || is_none (in_ s) then Throw runtime_error else Ret ().
Definition validateNotClosed s : outcome unit := if closed_ s then Throw runtime_error else Ret ().

Definition set_in s (in_ : FilterReader R) : PushbackReader := mkPushback in_ (buffer_ s) (buffer_pos_ s) (closed_ s).
Definition set_buffer_pos s (n : nat) : PushbackReader := mkPushback (in_ s) (buffer_ s) n (closed_ s).

Definition read s : outcome (PushbackReader * option Z) :=
  validateOpen s;;
  if decide (buffer_pos_ s < length (buffer_ s)) then c ← vget (buffer_ s) (buffer_pos_ s); Ret (set_buffer_pos s (S (buffer_pos_ s)), Some c)
  else '(r, c) ← filter_read (in_ s); Ret (set_in s r, c).

(** [cBuf[off + bytesRead] = buffer_[buffer_pos_++]], [n] characters at most. *)
Fixpoint pushed_loop (n : nat) s cBuf (off bytesRead : nat) : outcome (PushbackReader * list Z * nat) :=
  match n with
  | 0 => Ret (s, cBuf, bytesRead)
  | S n =>
    if decide (buffer_pos_ s < length (buffer_ s)) then
      c ← vget (buffer_ s) (buffer_pos_ s);
      cBuf ← vset cBuf (off + bytesRead) c;
      pushed_loop n (set_buffer_pos s (S (buffer_pos_ s))) cBuf off (S bytesRead)
    else Ret (s, cBuf, bytesRead)
  end.

Definition read_into s cBuf (off len : nat) : outcome (PushbackReader * list Z * Z) :=
  validateOpen s;;
  if bad_range cBuf off len then Throw out_of_range else
  '(s, cBuf, bytesRead) ← pushed_loop len s cBuf off 0;
  if decide (bytesRead < len) then
    '(r, cBuf, underlyingBytesRead) ← filter_read_into (in_ s) cBuf (off + bytesRead) (len - bytesRead);
    if decide (underlyingBytesRead = -1)%Z then Ret (set_in s r, cBuf, if decide (0 < bytesRead) then int_of bytesRead else (-1)%Z)
    else Ret (set_in s r, cBuf, to_i32 (Z.of_nat bytesRead + underlyingBytesRead))
  else Ret (s, cBuf, int_of bytesRead).

Definition ready s : outcome bool :=
  if closed_ s || is_none (in_ s) then Ret false else
  if decide (buffer_pos_ s < length (buffer_ s)) then Ret true else rd_ready (in_ s).

Definition skip s (n : nat) : outcome (PushbackReader * nat) :=
  validateOpen s;;
  let skipped := if decide (buffer_pos_ s < length (buffer_ s)) then min n (length (buffer_ s) - buffer_pos_ s) else 0 in
  let s := set_buffer_pos s (buffer_pos_ s + skipped) in
  if decide (skipped < n) then '(r, k) ← rd_skip (in_ s) (n - skipped); Ret (set_in s r, skipped + k) else Ret (s, skipped).

(** [buffer_[--buffer_pos_] = c]. *)
Definition push_one s (c : Z) : outcome PushbackReader :=
  buffer ← vset (buffer_ s) (buffer_pos_ s - 1) c; Ret (mkPushback (in_ s) buffer (buffer_pos_ s - 1) (closed_ s)).

(** The characters from the last to the first. *)
Fixpoint push_loop s (cBuf : list Z) (off n : nat) : outcome PushbackReader :=
  match n with
  | 0 => Ret s
  | S n => c ← vget cBuf (off + n); s ← push_one s c; push_loop s cBuf off n
  end.

Definition unread_range s cBuf (off len : nat) : outcome PushbackReader :=
  validateNotClosed s;;
  if bad_range cBuf off len then Throw out_of_range else
  if decide (buffer_pos_ s < len) then Throw overflow_error else push_loop s cBuf off len.

Definition unread_all s cBuf : outcome PushbackReader := unread_range s cBuf 0 (length cBuf).

(** [static_cast<char>], eight bits with a sign. *)
Definition char_of (c : Z) : Z := ((c + 128) mod 256 - 128)%Z.

Definition unread s (c : Z) : outcome PushbackReader :=
  validateNotClosed s;;
  if decide (buffer_pos_ s = 0) then Throw overflow_error else push_one s (char_of c).

Definition close s : outcome PushbackReader := r ← rd_close (in_ s); Ret (mkPushback r [] (buffer_pos_ s) true).

#[global] Instance pushback_reader : AbstractReader PushbackReader := {|
  rd_read := read; rd_read_into := read_into; rd_markSupported _ := false; rd_mark _ _ := Throw runtime_error; rd_reset _ := Throw runtime_error;
  rd_ready := ready; rd_skip := skip; rd_close := close; rd_isClosed s := closed_ s || rd_isClosed (in_ s) |}.

(** ** The characters that are left *)
Context (is_open : R -> Prop) (rest : R -> list Z) `{!ReaderLaws R is_open rest}.

Definition pushed s : list Z := drop (buffer_pos_ s) (buffer_ s).

Definition pushback_open s : Prop :=
  closed_ s = false /\ filter_open is_open (in_ s) /\ length (buffer_ s) = DEFAULT_BUFFER_SIZE /\ buffer_pos_ s <= DEFAULT_BUFFER_SIZE.

Definition below s : list Z := filter_rest rest (in_ s).
Definition pushback_rest s : list Z := pushed s ++ below s.

Lemma pushback_validate_ok s : pushback_open s -> validateOpen s = Ret () /\ validateNotClosed s = Ret ().
Proof. intros (Hc & (r & Hr & _) & _). unfold validateOpen, validateNotClosed. by rewrite Hc, Hr. Qed.

Lemma length_pushed s : pushback_open s -> length (pushed s) = DEFAULT_BUFFER_SIZE - buffer_pos_ s.
Proof. intros (_ & _ & Hl & _). unfold pushed. rewrite length_drop. by rewrite Hl. Qed.

Lemma pushed_end s : pushback_open s -> ~ buffer_pos_ s < length (buffer_ s) -> pushed s = [].
Proof. intros _ H. apply drop_ge. lia. Qed.

Lemma set_buffer_pos_ok s n : pushback_open s -> n <= DEFAULT_BUFFER_SIZE -> pushback_open (set_buffer_pos s n).
Proof. by intros (Hc & Hi & Hl & _) Hn. Qed.

Lemma set_in_ok s r : pushback_open s -> filter_open is_open r -> pushback_open (set_in s r).
Proof. by intros (Hc & _ & Hl & Hp) Hr. Qed.

(** A read takes the characters that were pushed first. *)
Lemma pushback_read_ok s : pushback_open s -> exists s', read s = Ret (s', head (pushback_rest s)) /\ pushback_open s' /\
  pushed s' = tail (pushed s) /\ below s' = (if decide (pushed s = []) then tail (below s) else below s).
Proof.
  intros Ho. unfold read. rewrite (proj1 (pushback_validate_ok s Ho)), bind_Ret. pose proof Ho as (Hc & Hi & Hl & Hp). case_decide as Hlt.
  - destruct (vget_lt (buffer_ s) (buffer_pos_ s) Hlt) as (c & Hcc & ->). rewrite bind_Ret. exists (set_buffer_pos s (S (buffer_pos_ s))). split; [|split; [apply set_buffer_pos_ok; [done|lia]|]].
    + unfold pushback_rest, pushed. by rewrite (drop_S _ _ _ Hcc).
    + unfold pushed, below. cbn [set_buffer_pos buffer_ buffer_pos_ in_]. rewrite tail_drop, decide_False; [done|]. by rewrite (drop_S _ _ _ Hcc).
  - pose proof (pushed_end s Ho Hlt) as He. destruct (law_read (in_ s) Hi) as (r & Hr & Hi' & Hrest). cbn [rd_read filter_reader] in Hr. rewrite Hr, bind_Ret.
    exists (set_in s r). split; [|split; [by apply set_in_ok|]]; unfold pushback_rest; rewrite He; [done|]. rewrite decide_True by done. split; [exact He|done].
Qed.

Lemma pushed_loop_ok n : forall s cBuf off done_, pushback_open s -> off + done_ + n <= length cBuf ->
  exists s', pushed_loop n s cBuf off done_ = Ret (s', write cBuf (off + done_) (take n (pushed s)), done_ + min n (length (pushed s))) /\
    pushback_open s' /\ pushed s' = drop n (pushed s) /\ in_ s' = in_ s.
Proof.
  induction n as [|n IH]; intros s cBuf off done_ Ho Hl; cbn [pushed_loop].
  - exists s. rewrite take_0, write_nil, Nat.min_0_l, Nat.add_0_r. done.
  - case_decide as Hlt.
    2:{ exists s. rewrite (pushed_end s Ho Hlt). cbn. by rewrite write_nil, Nat.add_0_r. }
    pose proof Ho as (_ & _ & Hb & _). destruct (vget_lt (buffer_ s) (buffer_pos_ s) Hlt) as (c & Hcc & ->). rewrite bind_Ret, vset_lt, bind_Ret, write_one by lia.
    set (s1 := set_buffer_pos s (S (buffer_pos_ s))). assert (pushback_open s1) as Ho1 by (apply set_buffer_pos_ok; [done|lia]).
    destruct (IH s1 (write cBuf (off + done_) [c]) off (S done_) Ho1) as (s2 & -> & Ho2 & Hp2 & Hi2); [rewrite length_write by (cbn; lia); lia|]. exists s2.
    assert (pushed s = c :: pushed s1) as Hcons by (unfold pushed; by rewrite (drop_S _ _ _ Hcc)). rewrite Hcons, Hp2. cbn [take drop length]. split; [|done].
    rewrite Nat.add_succ_r, <- (Nat.add_1_r (off + done_)). change 1 with (length [c]). rewrite write_write by (cbn [length]; rewrite length_take; lia).
    cbn [app]. do 2 f_equal. lia.
Qed.

Lemma pushback_read_into_ok s cBuf off len : pushback_open s -> off + len <= length cBuf -> 0 < len -> (Z.of_nat len <= INT32_MAX)%Z ->
  exists s' n, read_into s cBuf off len = Ret (s', write cBuf off (take n (pushback_rest s)), if decide (n = 0) then (-1)%Z else Z.of_nat n) /\
    chunk_read (pushback_rest s) cBuf off len n /\ pushback_open s' /\ pushback_rest s' = drop n (pushback_rest s).
Proof.
  intros Ho Hl H0 Hi. unfold read_into. rewrite (proj1 (pushback_validate_ok s Ho)), bind_Ret, bad_range_false by done.
  destruct (pushed_loop_ok len s cBuf off 0 Ho) as (s1 & -> & Ho1 & Hp1 & Hi1); [lia|]. rewrite bind_Ret, Nat.add_0_r, Nat.add_0_l. set (k := min len (length (pushed s))).
  unfold pushback_rest, below in *. case_decide as Hk.
  - assert (k = length (pushed s)) as Ek by lia. rewrite (firstn_all2 (pushed s)) by lia. set (cBuf1 := write cBuf off (pushed s)).
    assert (length cBuf1 = length cBuf) as Hl1 by (apply length_write; lia). pose proof Ho1 as (_ & Hin & _).
    destruct (law_read_into (in_ s1) cBuf1 (off + k) (len - k) Hin) as (r & m & Hr & (Hm1 & Hm2 & Hm3) & Hin' & Hrest); [lia|lia|lia|]. cbn [rd_read_into filter_reader] in Hr. rewrite Hr, bind_Ret. clear Hr.
    exists (set_in s1 r), (k + m). cbn [set_in in_] in *. rewrite Hi1 in *. assert (pushed (set_in s1 r) = []) as Hnil by (change (pushed (set_in s1 r)) with (pushed s1); rewrite Hp1, drop_ge by lia; done).
    rewrite Hnil, Hrest, Ek, take_app_add, drop_app_add. unfold cBuf1. rewrite write_write by (rewrite length_take; lia).
    split; [|split; [|split; [by apply set_in_ok|done]]].
    + destruct (decide (m = 0)) as [->|Hm].
      * rewrite decide_True by done. rewrite Nat.add_0_r. do 2 f_equal. destruct (decide (length (pushed s) = 0)); [by rewrite decide_False by lia|]. rewrite decide_True by lia. apply int_of_small. lia.
      * rewrite (decide_False (P := Z.of_nat m = (-1)%Z)), decide_False by lia. do 2 f_equal. rewrite <- Nat2Z.inj_add. apply int_of_small. lia.
    + unfold chunk_read. rewrite length_app. split; [lia|]. split; [lia|]. intros Hz. rewrite Hm3 by lia. destruct (pushed s); [done|cbn in Hz; lia].
  - exists s1, len. rewrite Hi1, Hp1, (decide_False (P := len = 0)) by lia. rewrite take_app_le, drop_app_le by lia. rewrite int_of_small by lia. split; [|split; [|done]].
    + do 2 f_equal. lia.
    + unfold chunk_read. rewrite length_app. lia.
Qed.

Lemma pushback_skip_ok s n : pushback_open s -> exists s', skip s n = Ret (s', min n (length (pushback_rest s))) /\ pushback_open s' /\
  pushed s' = drop n (pushed s) /\ below s' = drop (n - length (pushed s)) (below s).
Proof.
  intros Ho. unfold skip. rewrite (proj1 (pushback_validate_ok s Ho)), bind_Ret. pose proof (length_pushed s Ho) as Hlen. pose proof Ho as (_ & Hin & Hb & Hp). unfold pushback_rest. rewrite length_app.
  set (k := if decide (buffer_pos_ s < length (buffer_ s)) then min n (length (buffer_ s) - buffer_pos_ s) else 0).
  assert (k = min n (length (pushed s))) as Ek by (unfold k; case_decide; lia). set (s1 := set_buffer_pos s (buffer_pos_ s + k)).
  assert (pushback_open s1) as Ho1 by (apply set_buffer_pos_ok; [done|lia]).
  assert (pushed s1 = drop n (pushed s)) as Hp1 by (rewrite <- (drop_min n), <- Ek; unfold pushed; cbn; by rewrite drop_drop). case_decide as Hk.
  - destruct (law_skip (in_ s1) (n - k)) as (r & Hr & Hin' & Hrest); [done|]. rewrite Hr, bind_Ret. exists (set_in s1 r). unfold below. cbn [set_in in_] in *. rewrite Hrest. change (in_ s1) with (in_ s).
    split; [do 2 f_equal; lia|]. split; [by apply set_in_ok|]. split; [done|]. f_equal. lia.
  - exists s1. split; [do 2 f_equal; lia|]. split; [done|]. split; [done|]. replace (n - length (pushed s)) with 0 by lia. done.
Qed.

#[global] Instance pushback_reader_laws : ReaderLaws PushbackReader pushback_open pushback_rest.
Proof.
  split; cbn [rd_read rd_read_into rd_skip pushback_reader]; [| |].
  - intros s Ho. destruct (pushback_read_ok s Ho) as (s' & -> & Ho' & Hp & Hb). exists s'. split; [done|]. split; [done|]. unfold pushback_rest. rewrite Hp, Hb.
    by destruct (pushed s).
  - intros s cBuf off len. apply pushback_read_into_ok.
  - intros s n Ho. destruct (pushback_skip_ok s n Ho) as (s' & -> & Ho' & Hp & Hb). exists s'. split; [done|]. split; [done|]. unfold pushback_rest. by rewrite Hp, Hb, drop_app.
Qed.

(** ** Pushing *)
Lemma push_one_ok s c : pushback_open s -> 0 < buffer_pos_ s -> exists s', push_one s c = Ret s' /\ pushback_open s' /\ pushed s' = c :: pushed s /\ in_ s' = in_ s /\ buffer_pos_ s' = buffer_pos_ s - 1.
Proof.
  intros (Hc & Hin & Hb & Hp) H0. unfold push_one. rewrite vset_lt, bind_Ret by lia. eexists. split; [done|]. split; [split_and!; cbn; rewrite ?length_insert; done || lia|]. split; [|done].
  unfold pushed. cbn. rewrite (drop_S _ c) by (apply list_lookup_insert_eq; lia). rewrite drop_insert_lt by lia. do 2 f_equal. lia.
Qed.

Lemma push_loop_ok n : forall s cBuf off, pushback_open s -> n <= buffer_pos_ s -> off + n <= length cBuf ->
  exists s', push_loop s cBuf off n = Ret s' /\ pushback_open s' /\ pushed s' = take n (drop off cBuf) ++ pushed s /\ in_ s' = in_ s.
Proof.
  induction n as [|n IH]; intros s cBuf off Ho Hn Hl; cbn [push_loop]; [by exists s|].
  destruct (vget_lt cBuf (off + n)) as (c & Hcc & ->); [lia|]. rewrite bind_Ret. destruct (push_one_ok s c Ho) as (s1 & -> & Ho1 & Hp1 & Hi1 & Hpos); [lia|]. rewrite bind_Ret.
  destruct (IH s1 cBuf off Ho1) as (s2 & -> & Ho2 & Hp2 & Hi2); [lia..|]. exists s2. rewrite Hp2, Hp1, Hi2. split; [done|]. split; [done|]. split; [|done].
  rewrite (take_S_r _ _ c) by (by rewrite lookup_drop). by rewrite <- (assoc_L (++)).
Qed.

(** ** Refinement *)
Inductive pop := PRead | PSkip (n : nat) | PUnread (c : Z) | PUnreadRange (cBuf : list Z) (off len : nat) | PUnreadAll (cBuf : list Z).
Inductive pobs := PoChar (c : option Z) | PoNum (n : nat) | PoDone.

Definition pstep s (op : pop) : outcome (PushbackReader * pobs) :=
  match op with
  | PRead => '(s, c) ← read s; Ret (s, PoChar c)
  | PSkip n => '(s, k) ← skip s n; Ret (s, PoNum k)
  | PUnread c => s ← unread s c; Ret (s, PoDone)
  | PUnreadRange cBuf off len => s ← unread_range s cBuf off len; Ret (s, PoDone)
  | PUnreadAll cBuf => s ← unread_all s cBuf; Ret (s, PoDone)
  end.

(** A stack of at most 1024 characters in front of those below. *)
Definition push_spec (stack chars : list Z) (cs : list Z) : outcome (list Z * list Z * pobs) :=
  if decide (DEFAULT_BUFFER_SIZE < length cs + length stack) then Throw overflow_error else Ret (cs ++ stack, chars, PoDone).

Definition pspec (a : list Z * list Z) (op : pop) : outcome (list Z * list Z * pobs) :=
  let '(stack, chars) := a in
  match op with
  | PRead => match stack with c :: stack => Ret (stack, chars, PoChar (Some c)) | [] => Ret ([], tail chars, PoChar (head chars)) end
  | PSkip n => Ret (drop n stack, drop (n - length stack) chars, PoNum (min n (length stack + length chars)))
  | PUnread c => push_spec stack chars [char_of c]
  | PUnreadRange cBuf off len => if bad_range cBuf off len then Throw out_of_range else push_spec stack chars (take len (drop off cBuf))
  | PUnreadAll cBuf => push_spec stack chars cBuf
  end.

Definition pushback_sim s (a : list Z * list Z) : Prop := pushback_open s /\ pushed s = a.1 /\ below s = a.2.

Lemma unread_range_ok s cBuf off len a : pushback_sim s a ->
  match pspec a (PUnreadRange cBuf off len) with
  | Ret (a', o) => exists s', pstep s (PUnreadRange cBuf off len) = Ret (s', o) /\ pushback_sim s' a'
  | Throw e => pstep s (PUnreadRange cBuf off len) = Throw e
  | Undef | NoFuel => True
  end.
Proof.
  destruct a as [stack chars]. intros (Ho & Hs & Hb). cbn [pspec pstep fst snd] in *. unfold unread_range. rewrite (proj2 (pushback_validate_ok s Ho)), bind_Ret.
  destruct (bad_range cBuf off len) eqn:Er; [done|]. apply bool_decide_eq_false in Er. assert (off + len <= length cBuf) as Hl by lia.
  pose proof (length_pushed s Ho) as Hlen. pose proof Ho as (_ & _ & _ & Hp). rewrite Hs in Hlen. unfold push_spec. rewrite length_take, length_drop, Nat.min_l by lia.
  destruct (decide (DEFAULT_BUFFER_SIZE < len + length stack)) as [Hbig|Hok]; [by rewrite decide_True by lia|]. rewrite decide_False by lia.
  destruct (push_loop_ok len s cBuf off Ho) as (s' & -> & Ho' & Hp' & Hi'); [lia..|]. exists s'. split; [done|]. split; [done|]. cbn. rewrite Hp', Hs. split; [done|]. unfold below. by rewrite Hi'.
Qed.

#[global] Instance pushback_simulates : Simulates pstep pspec pushback_sim.
Proof.
  intros s [stack chars] op HR. pose proof HR as (Ho & Hs & Hb). cbn [fst snd] in *. destruct op as [|n|c|cBuf off len|cBuf].
  - cbn [pspec pstep]. destruct (pushback_read_ok s Ho) as (s' & -> & Ho' & Hp' & Hb'). unfold pushback_rest. rewrite Hs, Hb in *. destruct stack as [|c stack]; (eexists; split; [reflexivity|]; split; [done|]; done).
  - cbn [pspec pstep]. destruct (pushback_skip_ok s n Ho) as (s' & -> & Ho' & Hp' & Hb'). unfold pushback_rest. rewrite Hs, Hb, length_app in *. eexists. split; [reflexivity|]. done.
  - cbn [pspec pstep]. unfold unread, push_spec. rewrite (proj2 (pushback_validate_ok s Ho)), bind_Ret. pose proof (length_pushed s Ho) as Hlen. rewrite Hs in Hlen. pose proof Ho as (_ & _ & _ & Hp). cbn [length].
    destruct (decide (buffer_pos_ s = 0)) as [H0|H0]; [by rewrite decide_True by lia|]. rewrite decide_False by lia. destruct (push_one_ok s (char_of c) Ho) as (s' & -> & Ho' & Hp' & Hi' & _); [lia|].
    exists s'. split; [done|]. split; [done|]. cbn. rewrite Hp', Hs. split; [done|]. unfold below. by rewrite Hi'.
  - by apply unread_range_ok.
  - pose proof (unread_range_ok s cBuf 0 (length cBuf) _ HR) as H. cbn [pspec pstep] in *. rewrite bad_range_false in H by lia. by rewrite drop_0, firstn_all in H.
Qed.

Lemma pspec_total : total_spec pspec.
Proof. intros [stack chars] []; cbn [pspec]; unfold push_spec; repeat case_match; done. Qed.

(** A pushback reader over any reader that keeps its promise is a stack of at most 1024 characters in front of the characters of that reader: [read] and [skip]
    take from the stack first, [unread] of a character or of a part of an array puts them back in the order they are read again, and the only
    failures are a full stack and a part outside the array. *)
Theorem pushback_reader_refines reader ops : filter_open is_open reader ->
  exists s s' a os, pushback_default reader = Ret s /\ trace pspec ([], filter_rest rest reader) ops = Ret (a, os) /\
    trace pstep s ops = Ret (s', os) /\ pushback_open s' /\ pushback_rest s' = a.1 ++ a.2.
Proof.
  intros Hr. set (s := mkPushback reader (replicate DEFAULT_BUFFER_SIZE 0%Z) DEFAULT_BUFFER_SIZE false).
  assert (pushback_sim s ([], filter_rest rest reader)) as HR. { split; [split_and!; cbn [s]; rewrite ?length_replicate; done|]. split; [apply drop_ge; cbn [s buffer_]; by rewrite length_replicate|done]. }
  destruct (trace_refines_total ops s _ pspec_total HR) as (s' & a & os & Ha & Hs & (Ho & Hp & Hb)).
  exists s, s', a, os. split; [done|]. split; [done|]. split; [done|]. split; [done|]. unfold pushback_rest. by rewrite Hp, Hb.
Qed.
End pushback.
Arguments PushbackReader : clear implicits.

(** A smaller buffer: the position is past its end, and the first [unread] writes there. *)
Lemma pushback_small_buffer {R} `{!AbstractReader R} (reader : FilterReader R) size c : 0 < size < DEFAULT_BUFFER_SIZE ->
  (s ← pushback_new reader size; unread s c) = Undef.
Proof.
  intros [H0 Hs]. unfold pushback_new. rewrite decide_False by lia. rewrite bind_Ret. unfold unread, validateNotClosed. cbn [closed_ buffer_pos_].
  rewrite bind_Ret, decide_False by done. unfold push_one. cbn [buffer_ buffer_pos_]. unfold vset. by rewrite decide_False by (rewrite length_replicate; lia).
Qed.

(** A larger one: the zero bytes after the position count as pushed characters, and are read before those of the reader below. *)
Lemma pushback_large_buffer {R} `{!AbstractReader R} (r : R) size : DEFAULT_BUFFER_SIZE < size ->
  exists s', (s ← pushback_new (Some r) size; read s) = Ret (s', Some 0%Z).
Proof.
  intros Hs. unfold pushback_new. rewrite decide_False by lia. rewrite bind_Ret. unfold read, validateOpen, is_none. cbn [closed_ in_ orb]. rewrite bind_Ret.
  cbn [buffer_ buffer_pos_]. rewrite decide_True by (by rewrite length_replicate). unfold vget. rewrite lookup_replicate_2 by done. cbn [from_option]. by eexists.
Qed.

Section pushback_witness.
#[local] Definition sample_pops : list pop :=
  [PRead; PUnread 97; PUnreadRange [1; 2; 3; 4]%Z 1 2; PRead; PSkip 3; PUnreadAll (replicate 1025 7%Z); PUnreadRange [] 1 0; PRead; PUnread 200; PRead; PRead]%Z.

Lemma pushback_reader_refines_witness : exists s s' a os, pushback_default (Some (string_new [97; 98; 99]%Z)) = Ret s /\
  trace pspec ([], [97; 98; 99]%Z) sample_pops = Ret (a, os) /\ trace pstep s sample_pops = Ret (s', os) /\
  pushback_open string_open s' /\ pushback_rest string_rest s' = a.1 ++ a.2.
Proof.
  apply (pushback_reader_refines string_open string_rest (Some (string_new [97; 98; 99]%Z)) sample_pops).
  eexists. split; [reflexivity|]. split; [done|cbn; lia].
Defined.

(** What it observes. *)
Lemma sample_pops_ok : (s ← pushback_default (Some (string_new [97; 98; 99]%Z)); snd <$> trace pstep s sample_pops) =
  Ret [inl (PoChar (Some 97)); inl PoDone; inl PoDone; inl (PoChar (Some 2)); inl (PoNum 3); inr overflow_error; inr out_of_range; inl (PoChar (Some 99));
       inl PoDone; inl (PoChar (Some (-56))); inl (PoChar None)]%Z.
Proof. vm_compute. reflexivity. Qed.
End pushback_witness.
