(* ===== verification/BTree.v ===== *)
(** * B-tree ([data_structure/tree/multiway/BTree.hpp])

    Nodes with several keys, split on the way down before an insertion and filled
    before a removal.  The leaves stay at one depth and every node keeps its number of
    keys, which bounds the height; the tree denotes the sequence of its keys in order.
    An insertion of a key that is present has no effect, unless a split on its way moves
    that very key up: the median is not compared for equality, and the key is added a second
    time.  The contract is that of a sorted bag, where an insertion adds a key that is
    present in this case only.

    A [unique_ptr] child is a subtree; [children_] holds no null pointer between two
    operations, and a pointer that is moved from is overwritten or dropped in the same
    function.  [count_] is a field of its own, as in the code.  A recursion runs on the depth of the
    node. *)

From stdpp Require Import sorting.
From S2P Require Import Prelude.

#[local] Set Warnings "-register-all".

(** ** Vectors *)
(** [v.insert(v.begin() + i, x)]. *)
Definition vinsert {A} (v : list A) (i : nat) (x : A) : outcome (list A) := if decide (i <= length v) then Ret (take i v ++ x :: drop i v) else Undef.

Definition pop_back {A} (v : list A) : outcome (list A) := if decide (v = []) then Undef else Ret (take (length v - 1) v).

(** [v[i] = std::move(v[i + 1])] for the [n] indices from [i] up. *)
Fixpoint shift_down {A} (n : nat) (v : list A) (i : nat) : outcome (list A) :=
  match n with 0 => Ret v | S n => x ← vget v (S i); v ← vset v i x; shift_down n v (S i) end.

(** [v[i + 1] = std::move(v[i])] for the [n] indices from [idx] on, downwards. *)
Fixpoint shift_up {A} (n : nat) (v : list A) (idx : nat) : outcome (list A) :=
  match n with 0 => Ret v | S n => x ← vget v (idx + n); v ← vset v (S (idx + n)) x; shift_up n v idx end.

(** [dst.push_back(std::move(src[i]))] for the [n] indices from [i] up. *)
Fixpoint push_range {A} (n : nat) (src : list A) (i : nat) (dst : list A) : outcome (list A) :=
  match n with 0 => Ret dst | S n => x ← vget src i; push_range n src (S i) (dst ++ [x]) end.

(** The index [n - 1]; minus one is outside every vector. *)
Definition pred_index (n : nat) : outcome nat := match n with 0 => Undef | S n => Ret n end.

Section btree.
Context {T : Type} `{!Inhabited T} (comp_ : T -> T -> bool) (Order : nat).

(** ** [struct Node] *)
Inductive Node : Type := mkNode { keys_ : list T; children_ : list Node; count_ : nat; leaf_ : bool }.

Definition isFull (n : Node) : bool := bool_decide (count_ n = 2 * Order - 1).

Fixpoint find_from (n idx : nat) (ks : list T) (key : T) : outcome nat :=
  match n with 0 => Ret idx | S n => k ← vget ks idx; if comp_ k key then find_from n (S idx) ks key else Ret idx end.

Definition findKey (n : Node) (key : T) : outcome nat := find_from (count_ n) 0 (keys_ n) key.

Definition set_children (n : Node) (cs : list Node) : Node := mkNode (keys_ n) cs (count_ n) (leaf_ n).
Definition set_keys (n : Node) (ks : list T) : Node := mkNode ks (children_ n) (count_ n) (leaf_ n).

(** [idx < node->count_ && !comp_(node->keys_[idx], key) && !comp_(key, node->keys_[idx])]. *)
Definition key_at (n : Node) (idx : nat) (key : T) : outcome bool :=
  if decide (idx < count_ n) then k ← vget (keys_ n) idx; Ret (negb (comp_ k key) && negb (comp_ key k)) else Ret false.

(** ** Insertion *)
Definition splitChild (parent : Node) (idx : nat) : outcome Node :=
  child ← vget (children_ parent) idx;
  sibling_keys ← push_range (Order - 1) (keys_ child) Order [];
  sibling_children ← (if leaf_ child then Ret [] else push_range Order (children_ child) Order []);
  median ← vget (keys_ child) (Order - 1);
  let sibling := mkNode sibling_keys sibling_children (Order - 1) (leaf_ child) in
  let child := mkNode (resize (Order - 1) inhabitant (keys_ child)) (if leaf_ child then children_ child else take Order (children_ child)) (Order - 1) (leaf_ child) in
  children ← vset (children_ parent) idx child;
  keys ← vinsert (keys_ parent) idx median;
  children ← vinsert children (S idx) sibling;
  Ret (mkNode keys children (S (count_ parent)) (leaf_ parent)).

(** The node after the call, and [size_]. *)
Fixpoint insertNonFull (fuel : nat) (size_ : Z) (node : Node) (key : T) : outcome (Node * Z) :=
  match fuel with
  | 0 => NoFuel
  | S fuel =>
    if leaf_ node then
      idx ← findKey node key;
      dup ← key_at node idx key;
      if dup : bool then Ret (node, size_) else
      keys ← shift_up (count_ node - idx) (resize (S (count_ node)) inhabitant (keys_ node)) idx;
      keys ← vset keys idx key;
      size_ ← add32 size_ 1;
      Ret (mkNode keys (children_ node) (S (count_ node)) (leaf_ node), size_)
    else
      idx ← findKey node key;
      dup ← key_at node idx key;
      if dup : bool then Ret (node, size_) else
      child ← vget (children_ node) idx;
      '(node, idx) ← (if isFull child then
          node ← splitChild node idx; k ← vget (keys_ node) idx; Ret (node, if comp_ k key then S idx else idx)
        else Ret (node, idx));
      child ← vget (children_ node) idx;
      '(child, size_) ← insertNonFull fuel size_ child key;
      children ← vset (children_ node) idx child;
      Ret (set_children node children, size_)
  end.

(** ** Removal *)
Fixpoint getPredecessor (fuel : nat) (node : Node) : outcome T :=
  match fuel with
  | 0 => NoFuel
  | S fuel => if leaf_ node then i ← pred_index (count_ node); vget (keys_ node) i else child ← vget (children_ node) (count_ node); getPredecessor fuel child
  end.

Fixpoint getSuccessor (fuel : nat) (node : Node) : outcome T :=
  match fuel with
  | 0 => NoFuel
  | S fuel => if leaf_ node then vget (keys_ node) 0 else child ← vget (children_ node) 0; getSuccessor fuel child
  end.

Definition borrowFromPrev (parent : Node) (idx : nat) : outcome Node :=
  prev ← pred_index idx;
  child ← vget (children_ parent) idx;
  sibling ← vget (children_ parent) prev;
  down ← vget (keys_ parent) prev;
  child_children ← (if leaf_ child then Ret (children_ child) else c ← vget (children_ sibling) (count_ sibling); Ret (c :: children_ child));
  last ← pred_index (count_ sibling);
  up ← vget (keys_ sibling) last;
  keys ← vset (keys_ parent) prev up;
  sibling_keys ← pop_back (keys_ sibling);
  sibling_children ← (if leaf_ sibling then Ret (children_ sibling) else pop_back (children_ sibling));
  children ← vset (children_ parent) idx (mkNode (down :: keys_ child) child_children (S (count_ child)) (leaf_ child));
  children ← vset children prev (mkNode sibling_keys sibling_children last (leaf_ sibling));
  Ret (mkNode keys children (count_ parent) (leaf_ parent)).

Definition borrowFromNext (parent : Node) (idx : nat) : outcome Node :=
  child ← vget (children_ parent) idx;
  sibling ← vget (children_ parent) (S idx);
  down ← vget (keys_ parent) idx;
  up ← vget (keys_ sibling) 0;
  keys ← vset (keys_ parent) idx up;
  count ← pred_index (count_ sibling);
  sibling_keys ← shift_down count (keys_ sibling) 0;
  sibling_keys ← pop_back sibling_keys;
  '(child_children, sibling_children) ← (if leaf_ child then Ret (children_ child, children_ sibling) else
    c ← vget (children_ sibling) 0;
    cs ← shift_down (S count) (children_ sibling) 0;
    cs ← pop_back cs;
    Ret (children_ child ++ [c], cs));
  children ← vset (children_ parent) idx (mkNode (keys_ child ++ [down]) child_children (S (count_ child)) (leaf_ child));
  children ← vset children (S idx) (mkNode sibling_keys sibling_children count (leaf_ sibling));
  Ret (mkNode keys children (count_ parent) (leaf_ parent)).

Definition merge (parent : Node) (idx : nat) : outcome Node :=
  left ← vget (children_ parent) idx;
  right ← vget (children_ parent) (S idx);
  down ← vget (keys_ parent) idx;
  left_keys ← push_range (count_ right) (keys_ right) 0 (keys_ left ++ [down]);
  left_children ← (if leaf_ left then Ret (children_ left) else push_range (S (count_ right)) (children_ right) 0 (children_ left));
  keys ← shift_down (count_ parent - 1 - idx) (keys_ parent) idx;
  keys ← pop_back keys;
  children ← vset (children_ parent) idx (mkNode left_keys left_children (S (count_ left) + count_ right) (leaf_ left));
  children ← shift_down (count_ parent - S idx) children (S idx);
  children ← pop_back children;
  count ← pred_index (count_ parent);
  Ret (mkNode keys children count (leaf_ parent)).

(** [node->children_[i]->count_ >= Order]. *)
Definition rich (node : Node) (i : nat) : outcome bool := child ← vget (children_ node) i; Ret (Order <=? count_ child).

Definition fill (parent : Node) (idx : nat) : outcome Node :=
  from_prev ← (if decide (0 < idx) then rich parent (idx - 1) else Ret false);
  if from_prev : bool then borrowFromPrev parent idx else
  from_next ← (if decide (idx < count_ parent) then rich parent (S idx) else Ret false);
  if from_next : bool then borrowFromNext parent idx else
  if decide (idx < count_ parent) then merge parent idx else prev ← pred_index idx; merge parent prev.

Fixpoint removeFromNode (fuel : nat) (size_ : Z) (node : Node) (key : T) : outcome (Node * Z) :=
  match fuel with
  | 0 => NoFuel
  | S fuel =>
    idx ← findKey node key;
    here ← key_at node idx key;
    if leaf_ node then
      if negb here then Ret (node, size_) else
      keys ← shift_down (count_ node - 1 - idx) (keys_ node) idx;
      keys ← pop_back keys;
      size_ ← add32 size_ (-1);
      Ret (mkNode keys (children_ node) (count_ node - 1) (leaf_ node), size_)
    else if here : bool then
      from_left ← rich node idx;
      if from_left : bool then
        child ← vget (children_ node) idx;
        pred ← getPredecessor fuel child;
        keys ← vset (keys_ node) idx pred;
        '(child, size_) ← removeFromNode fuel size_ child pred;
        children ← vset (children_ node) idx child;
        Ret (set_children (set_keys node keys) children, size_)
      else
      from_right ← rich node (S idx);
      if from_right : bool then
        child ← vget (children_ node) (S idx);
        succ ← getSuccessor fuel child;
        keys ← vset (keys_ node) idx succ;
        '(child, size_) ← removeFromNode fuel size_ child succ;
        children ← vset (children_ node) (S idx) child;
        Ret (set_children (set_keys node keys) children, size_)
      else
        node ← merge node idx;
        child ← vget (children_ node) idx;
        '(child, size_) ← removeFromNode fuel size_ child key;
        children ← vset (children_ node) idx child;
        Ret (set_children node children, size_)
    else
      child ← vget (children_ node) idx;
      node ← (if decide (count_ child = Order - 1) then fill node idx else Ret node);
      let childIdx := if decide (count_ node < idx) then count_ node else idx in
      child ← vget (children_ node) childIdx;
      '(child, size_) ← removeFromNode fuel size_ child key;
      children ← vset (children_ node) childIdx child;
      Ret (set_children node children, size_)
  end.

(** ** Traversal and verification *)
(** The children and keys from [i] on, [n] keys, and the last child. *)
Fixpoint inorder_loop (visit : Node -> list T -> outcome (list T)) (n i : nat) (node : Node) (result : list T) : outcome (list T) :=
  match n with
  | 0 => child ← vget (children_ node) i; visit child result
  | S n => child ← vget (children_ node) i; result ← visit child result; k ← vget (keys_ node) i; inorder_loop visit n (S i) node (result ++ [k])
  end.

Fixpoint inorder_node (fuel : nat) (node : Node) (result : list T) : outcome (list T) :=
  match fuel with
  | 0 => NoFuel
  | S fuel => if leaf_ node then push_range (count_ node) (keys_ node) 0 result else inorder_loop (inorder_node fuel) (count_ node) 0 node result
  end.

Fixpoint computeHeight (node : Node) : outcome nat :=
  match node with
  | mkNode _ _ _ true => Ret 1
  | mkNode _ (c :: _) _ false => h ← computeHeight c; Ret (S h)
  | mkNode _ [] _ false => Undef
  end.

(** The keys from [i] on, [n] of them, are in order and in the bounds. *)
Fixpoint keys_loop (n i : nat) (ks : list T) (lower upper : option T) : outcome bool :=
  match n with
  | 0 => Ret true
  | S n =>
    k ← vget ks i;
    if from_option (comp_ k) false lower then Ret false else
    if from_option (fun u => comp_ u k) false upper then Ret false else
    unordered ← (if decide (0 < i) then k0 ← vget ks (i - 1); Ret (negb (comp_ k0 k)) else Ret false);
    if unordered : bool then Ret false else keys_loop n (S i) ks lower upper
  end.

Fixpoint children_loop (verify : Node -> option T -> option T -> outcome bool) (n i : nat) (node : Node) (lower upper : option T) : outcome bool :=
  match n with
  | 0 => Ret true
  | S n =>
    newLower ← (if decide (i = 0) then Ret lower else k ← vget (keys_ node) (i - 1); Ret (Some k));
    newUpper ← (if decide (i = count_ node) then Ret upper else k ← vget (keys_ node) i; Ret (Some k));
    child ← vget (children_ node) i;
    good ← verify child newLower newUpper;
    if negb good then Ret false else children_loop verify n (S i) node lower upper
  end.

Fixpoint verifyNode (fuel : nat) (is_root : bool) (node : Node) (lower upper : option T) : outcome bool :=
  match fuel with
  | 0 => NoFuel
  | S fuel =>
    if negb is_root && (count_ node <? Order - 1) then Ret false else
    if 2 * Order - 1 <? count_ node then Ret false else
    good ← keys_loop (count_ node) 0 (keys_ node) lower upper;
    if negb good then Ret false else
    if leaf_ node then Ret (bool_decide (length (children_ node) = 0)) else
    if decide (length (children_ node) <> S (count_ node)) then Ret false else
    children_loop (verifyNode fuel false) (S (count_ node)) 0 node lower upper
  end.

(** ** [class BTree] *)
Record BTree := mkBTree { root_ : option Node; size_ : Z }.

(** The longest path down. *)
Fixpoint depth (n : Node) : nat := match n with mkNode _ cs _ _ => S (foldr (fun c d => max (depth c) d) 0 cs) end.

Definition btree_new : BTree := mkBTree None 0.

(** The tree moved to, and the one moved from. *)
Definition btree_move (other : BTree) : BTree * BTree := (other, mkBTree None 0).

Definition insert (t : BTree) (key : T) : outcome BTree :=
  match root_ t with
  | None => size ← add32 (size_ t) 1; Ret (mkBTree (Some (mkNode [key] [] 1 true)) size)
  | Some root =>
    root ← (if isFull root then splitChild (mkNode [] [root] 0 false) 0 else Ret root);
    '(root, size) ← insertNonFull (depth root) (size_ t) root key;
    Ret (mkBTree (Some root) size)
  end.

Definition remove (t : BTree) (key : T) : outcome (BTree * bool) :=
  match root_ t with
  | None => Ret (t, false)
  | Some root =>
    '(root, size) ← removeFromNode (depth root) (size_ t) root key;
    let root := if decide (count_ root = 0) then (if leaf_ root then None else match children_ root with c :: _ => Some c | [] => Some root end) else Some root in
    Ret (mkBTree root size, negb (bool_decide (size_ t = size)))
  end.

Fixpoint contains_loop (fuel : nat) (node : Node) (key : T) : outcome bool :=
  match fuel with
  | 0 => NoFuel
  | S fuel =>
    idx ← findKey node key;
    here ← key_at node idx key;
    if here : bool then Ret true else
    if leaf_ node then Ret false else child ← vget (children_ node) idx; contains_loop fuel child key
  end.

Definition contains (t : BTree) (key : T) : outcome bool := match root_ t with None => Ret false | Some root => contains_loop (depth root) root key end.
Definition size (t : BTree) : Z := size_ t.
Definition empty (t : BTree) : bool := bool_decide (size_ t = 0%Z).
Definition clear (t : BTree) : BTree := mkBTree None 0.
Definition inorder (t : BTree) : outcome (list T) := match root_ t with None => Ret [] | Some root => inorder_node (depth root) root [] end.
Definition height (t : BTree) : outcome nat := match root_ t with None => Ret 0 | Some root => computeHeight root end.
Definition verify (t : BTree) : outcome bool := match root_ t with None => Ret true | Some root => verifyNode (depth root) true root None None end.
End btree.

(** ** Vectors: what the loops compute *)
Section vector_lemmas.
Context {A : Type}.
Implicit Types (v l : list A) (x : A).

Lemma vget_mid l1 x l2 : vget (l1 ++ x :: l2) (length l1) = Ret x.
Proof. apply vget_Some. by apply list_lookup_middle. Qed.

Lemma vget_at l1 x l2 i : i = length l1 -> vget (l1 ++ x :: l2) i = Ret x.
Proof. intros ->. apply vget_mid. Qed.

Lemma vget_next l1 x y l2 : vget (l1 ++ x :: y :: l2) (S (length l1)) = Ret y.
Proof. rewrite (cons_middle x), (assoc_L (++)). apply vget_at. rewrite length_app. cbn. lia. Qed.

Lemma vset_at l1 x y l2 i : i = length l1 -> vset (l1 ++ x :: l2) i y = Ret (l1 ++ y :: l2).
Proof. intros ->. rewrite vset_lt by (rewrite length_app; cbn; lia). by rewrite insert_app_r_alt, Nat.sub_diag by done. Qed.

Lemma vset_next l1 x y z l2 : vset (l1 ++ x :: y :: l2) (S (length l1)) z = Ret (l1 ++ x :: z :: l2).
Proof. rewrite (cons_middle x), (assoc_L (++)), vset_at by (rewrite length_app; cbn; lia). by rewrite <- (assoc_L (++)). Qed.

Lemma vinsert_at l1 l2 x i : i = length l1 -> vinsert (l1 ++ l2) i x = Ret (l1 ++ x :: l2).
Proof. intros ->. unfold vinsert. rewrite decide_True by (rewrite length_app; lia). by rewrite take_app_length, drop_app_length. Qed.

Lemma pop_back_snoc v x : pop_back (v ++ [x]) = Ret v.
Proof. unfold pop_back. rewrite decide_False by (by destruct v). rewrite length_app. cbn. by rewrite Nat.add_sub, take_app_length. Qed.

(** Removing one element: the rest is shifted over it, and the last place dropped. *)
Lemma shift_down_ok l2 : forall l1 x i n, i = length l1 -> n = length l2 ->
  exists y, shift_down n (l1 ++ x :: l2) i = Ret (l1 ++ l2 ++ [y]).
Proof.
  induction l2 as [|z l2 IH]; intros l1 x i n -> ->; cbn [length shift_down]; [by exists x|].
  rewrite cons_middle, (assoc_L (++)). rewrite vget_at by (rewrite length_app; cbn; lia). rewrite bind_Ret, <- (assoc_L (++)). cbn [app].
  rewrite vset_at, bind_Ret by done. destruct (IH (l1 ++ [z]) z (S (length l1)) (length l2)) as (y & Hy); [rewrite length_app; cbn; lia|done|].
  rewrite <- (assoc_L (++)) in Hy. cbn [app] in Hy. exists y. rewrite Hy, <- (assoc_L (++)). done.
Qed.

Lemma erase_ok {B} l1 x l2 i n (f : list A -> outcome B) : i = length l1 -> n = length l2 ->
  (v ← shift_down n (l1 ++ x :: l2) i; v ← pop_back v; f v) = f (l1 ++ l2).
Proof. intros Hi Hn. destruct (shift_down_ok l2 l1 x i n Hi Hn) as (y & ->). by rewrite bind_Ret, (assoc_L (++)), pop_back_snoc, bind_Ret. Qed.

(** Making room for one element. *)
Lemma shift_up_ok l2 : forall l1 x l3 i n, i = length l1 -> n = length l2 ->
  exists y, shift_up n (l1 ++ l2 ++ x :: l3) i = Ret (l1 ++ y :: l2 ++ l3).
Proof.
  induction l2 as [|z l2 IH] using rev_ind; intros l1 x l3 i n -> ->; [by exists x|]. rewrite length_app. cbn [length]. rewrite Nat.add_1_r. cbn [shift_up].
  rewrite <- (assoc_L (++)), (assoc_L (++) l1). cbn [app]. rewrite vget_at by (rewrite length_app; lia). rewrite bind_Ret.
  rewrite (cons_middle z), (assoc_L (++) (l1 ++ l2)). rewrite vset_at, bind_Ret by (rewrite !length_app; cbn; lia).
  destruct (IH l1 z (z :: l3) (length l1) (length l2) eq_refl eq_refl) as (y & Hy). exists y.
  rewrite <- !(assoc_L (++)) in *. cbn [app] in *. exact Hy.
Qed.

Lemma insert_at_ok {B} l1 l2 x x0 i n (f : list A -> outcome B) : i = length l1 -> n = length l2 ->
  (v ← shift_up n (l1 ++ l2 ++ [x0]) i; v ← vset v i x; f v) = f (l1 ++ x :: l2).
Proof. intros Hi Hn. destruct (shift_up_ok l2 l1 x0 [] i n Hi Hn) as (y & ->). by rewrite bind_Ret, vset_at, bind_Ret, app_nil_r. Qed.

Lemma push_range_ok n : forall v i dst, i + n <= length v -> push_range n v i dst = Ret (dst ++ take n (drop i v)).
Proof.
  induction n as [|n IH]; intros v i dst Hl; cbn [push_range]; [by rewrite app_nil_r|]. destruct (vget_lt v i) as (x & Hx & ->); [lia|]. rewrite bind_Ret, IH by lia.
  by rewrite (drop_S v x i Hx), <- (assoc_L (++)).
Qed.
End vector_lemmas.

(** ** Sorted bags *)
Section bags.
Context {T : Type} (lt : T -> T -> bool) `{!StrictTotal lt}.
Implicit Types (l : list T) (k x y : T).

Definition wsorted l : Prop := StronglySorted (fun x y => lt y x = false) l.

(** Before the first element that is not smaller. *)
Fixpoint bins k l : list T := match l with [] => [k] | y :: l' => if lt y k then y :: bins k l' else k :: l end.

(** One copy. *)
Fixpoint bdel k l : list T := match l with [] => [] | y :: l' => if lt y k then y :: bdel k l' else if lt k y then l else l' end.

Definition all_before l k : Prop := Forall (fun y => lt y k = true) l.
Definition none_before l k : Prop := Forall (fun y => lt y k = false) l.
Definition all_after l k : Prop := Forall (fun y => lt k y = true) l.

Lemma all_after_none l k : all_after l k -> none_before l k.
Proof. intros H. eapply Forall_impl; [exact H|]. intros y Hy. by apply (sw_asym lt). Qed.

Lemma bins_pre l1 l2 k : all_before l1 k -> bins k (l1 ++ l2) = l1 ++ bins k l2.
Proof. induction 1 as [|y l1 Hy _ IH]; [done|]. cbn. by rewrite Hy, IH. Qed.

Lemma bdel_pre l1 l2 k : all_before l1 k -> bdel k (l1 ++ l2) = l1 ++ bdel k l2.
Proof. induction 1 as [|y l1 Hy _ IH]; [done|]. cbn. by rewrite Hy, IH. Qed.

Lemma bins_none l k : none_before l k -> bins k l = k :: l.
Proof. intros [|y l' Hy]; [done|]. cbn. by rewrite Hy. Qed.

Lemma bdel_none l k : all_after l k -> bdel k l = l.
Proof. intros [|y l' Hy]; [done|]. cbn. by rewrite (sw_asym lt _ _ Hy), Hy. Qed.

Lemma bins_post l1 l2 k : none_before l2 k -> bins k (l1 ++ l2) = bins k l1 ++ l2.
Proof. intros H2. induction l1 as [|y l1 IH]; cbn; [by rewrite bins_none|]. destruct (lt y k); [by rewrite IH|done]. Qed.

Lemma bdel_post l1 l2 k : all_after l2 k -> bdel k (l1 ++ l2) = bdel k l1 ++ l2.
Proof. intros H2. induction l1 as [|y l1 IH]; cbn; [by rewrite bdel_none|]. destruct (lt y k); [by rewrite IH|]. by destruct (lt k y). Qed.

Lemma wsorted_app l1 l2 : wsorted (l1 ++ l2) <-> wsorted l1 /\ wsorted l2 /\ (forall x y, x ∈ l1 -> y ∈ l2 -> lt y x = false).
Proof. unfold wsorted. rewrite StronglySorted_app. naive_solver. Qed.

Lemma wsorted_cons x l : wsorted (x :: l) <-> (forall y, y ∈ l -> lt y x = false) /\ wsorted l.
Proof. unfold wsorted. rewrite StronglySorted_cons, Forall_forall. done. Qed.

(** Everything in front of a key that is smaller is smaller, and everything behind one that is not smaller is not. *)
Lemma before_snoc l x k : wsorted (l ++ [x]) -> lt x k = true -> all_before (l ++ [x]) k.
Proof.
  rewrite wsorted_app. intros (_ & _ & H) Hx. apply Forall_app. split; [|by constructor]. apply Forall_forall. intros y Hy. apply (sw_le_lt lt _ x); [|done]. apply H; set_solver.
Qed.

Lemma none_cons x l k : wsorted (x :: l) -> lt x k = false -> none_before (x :: l) k.
Proof.
  rewrite wsorted_cons. intros [H _] Hx. constructor; [done|]. apply Forall_forall. intros y Hy. destruct (lt y k) eqn:E; [|done].
  pose proof (sw_lt_le lt y k x E Hx). rewrite H in *; done.
Qed.

Lemma after_cons x l k : wsorted (x :: l) -> lt k x = true -> all_after (x :: l) k.
Proof. rewrite wsorted_cons. intros [H _] Hx. constructor; [done|]. apply Forall_forall. intros y Hy. apply (sw_lt_le lt _ x); [done|]. by apply H. Qed.

(** Whichever copy is removed. *)
Lemma bdel_here l1 k l2 : wsorted (l1 ++ k :: l2) -> bdel k (l1 ++ k :: l2) = l1 ++ l2.
Proof.
  induction l1 as [|y l1 IH]; cbn [app bdel]; [by rewrite (sw_irrefl (lt := lt))|]. intros [Hy Hs]%wsorted_cons. specialize (IH Hs).
  destruct (lt y k) eqn:E; [by rewrite IH|]. assert (lt k y = false) as E' by (apply Hy; set_solver). rewrite E'. rewrite (st_total y k E E') in *. clear IH E E' y.
  induction l1 as [|z l1 IH]; [done|]. cbn [app] in *. assert (z = k) as ->.
  { apply st_total; [apply Hy; set_solver|]. apply wsorted_cons in Hs as [Hz _]. apply Hz. set_solver. }
  apply wsorted_cons in Hs as [_ Hs]. rewrite IH; [done| |done]. intros y Hin. apply Hy. set_solver.
Qed.

Lemma bdel_app_in l1 l2 k : wsorted l1 -> k ∈ l1 -> bdel k (l1 ++ l2) = bdel k l1 ++ l2.
Proof.
  induction l1 as [|y l1 IH]; [by intros _ ?%elem_of_nil|]. intros [Hy Hs]%wsorted_cons Hk. cbn. destruct (lt y k) eqn:E.
  - apply elem_of_cons in Hk as [->|Hk]; [by rewrite (sw_irrefl (lt := lt)) in E|]. by rewrite IH.
  - apply elem_of_cons in Hk as [->|Hk]; [by rewrite (sw_irrefl (lt := lt))|]. by rewrite (Hy k Hk).
Qed.

Lemma elem_of_bins k l x : x ∈ bins k l <-> x = k \/ x ∈ l.
Proof. induction l as [|y l IH]; cbn; [set_solver|]. destruct (lt y k); set_solver. Qed.

Lemma length_bins k l : length (bins k l) = S (length l).
Proof. induction l as [|y l IH]; cbn; [done|]. destruct (lt y k); cbn; lia. Qed.

Lemma bins_sorted k l : wsorted l -> wsorted (bins k l).
Proof.
  induction l as [|y l IH]; cbn; [by repeat constructor|]. intros Hs. destruct (lt y k) eqn:E.
  - apply wsorted_cons in Hs as [Hy Hs]. apply wsorted_cons. split; [|by apply IH]. intros x [->|Hx]%elem_of_bins; [by apply (sw_asym lt)|by apply Hy].
  - apply wsorted_cons. split; [|done]. apply Forall_forall. by apply none_cons.
Qed.

Lemma bdel_incl k l x : x ∈ bdel k l -> x ∈ l.
Proof. induction l as [|y l IH]; cbn; [done|]. destruct (lt y k); [set_solver|]. destruct (lt k y); set_solver. Qed.

Lemma bdel_sorted k l : wsorted l -> wsorted (bdel k l).
Proof.
  induction l as [|y l IH]; cbn; [done|]. intros Hs. pose proof Hs as [Hy Hs']%wsorted_cons. destruct (lt y k).
  - apply wsorted_cons. split; [|by apply IH]. intros x Hx%bdel_incl. by apply Hy.
  - by destruct (lt k y).
Qed.

Lemma bdel_absent k l : wsorted l -> k ∉ l -> bdel k l = l.
Proof.
  induction l as [|y l IH]; cbn; [done|]. intros [Hy Hs]%wsorted_cons [Hne Hk]%not_elem_of_cons. destruct (lt y k) eqn:E; [by rewrite IH|]. destruct (lt k y) eqn:E'; [done|].
  by destruct Hne; apply st_total.
Qed.

Lemma length_bdel k l : wsorted l -> k ∈ l -> S (length (bdel k l)) = length l.
Proof.
  induction l as [|y l IH]; [by intros _ ?%elem_of_nil|]. intros [Hy Hs]%wsorted_cons Hk. cbn. destruct (lt y k) eqn:E.
  - apply elem_of_cons in Hk as [->|Hk]; [by rewrite (sw_irrefl (lt := lt)) in E|]. cbn. by rewrite IH.
  - apply elem_of_cons in Hk as [->|Hk]; [by rewrite (sw_irrefl (lt := lt))|]. by rewrite (Hy k Hk).
Qed.
End bags.

(** ** The sequence a node denotes, and its shape *)
Section content.
Context {T : Type} (Order : nat).
Implicit Types (n c : Node (T := T)) (cs : list (Node (T := T))) (ks : list T).

(** Children and keys in turn. *)
Fixpoint inter (E : Node -> list T) cs ks : list T :=
  match cs, ks with
  | c :: cs, k :: ks => E c ++ k :: inter E cs ks
  | c :: _, [] => E c
  | [], _ => ks
  end.

Definition lpart (E : Node -> list T) cs ks : list T := concat (zip_with (fun c k => E c ++ [k]) cs ks).
Definition rpart (E : Node -> list T) ks cs : list T := match ks with [] => [] | k :: ks => k :: inter E cs ks end.

Fixpoint elems (h : nat) n : list T := match h with 0 => [] | S h => inter (elems h) (children_ n) (keys_ n) end.

(** All leaves at depth [h], the numbers of keys within their bounds; the number of the root has no lower bound. *)
Fixpoint shape (h : nat) n : Prop :=
  match h with
  | 0 => False
  | S h => count_ n = length (keys_ n) /\ count_ n <= 2 * Order - 1 /\
    match h with
    | 0 => leaf_ n = true /\ children_ n = []
    | S _ => leaf_ n = false /\ length (children_ n) = S (length (keys_ n)) /\ Forall (fun c => Order - 1 <= count_ c /\ shape h c) (children_ n)
    end
  end.

Lemma inter_mid E cs1 c cs2 ks1 ks2 : length cs1 = length ks1 ->
  inter E (cs1 ++ c :: cs2) (ks1 ++ ks2) = lpart E cs1 ks1 ++ E c ++ rpart E ks2 cs2.
Proof.
  revert ks1. induction cs1 as [|c1 cs1 IH]; intros [|k1 ks1] Hl; try done.
  - cbn. destruct ks2; cbn; [by rewrite app_nil_r|done].
  - cbn [app inter length] in *. rewrite IH by lia. unfold lpart. cbn [zip_with concat]. by rewrite <- !(assoc_L (++)).
Qed.

Lemma lpart_snoc E cs c ks k : length cs = length ks -> lpart E (cs ++ [c]) (ks ++ [k]) = lpart E cs ks ++ E c ++ [k].
Proof. intros Hl. unfold lpart. rewrite zip_with_app by done. rewrite concat_app. cbn. by rewrite app_nil_r. Qed.

Lemma rpart_cons E k ks c cs : rpart E (k :: ks) (c :: cs) = k :: E c ++ rpart E ks cs.
Proof. cbn. f_equal. destruct ks; cbn; [by rewrite app_nil_r|done]. Qed.

Lemma shape_leaf h n : shape (S h) n -> leaf_ n = bool_decide (h = 0).
Proof. destruct h; intros (_ & _ & Hl & _); by rewrite Hl. Qed.

Lemma shape_count h n : shape h n -> count_ n = length (keys_ n).
Proof. destruct h; [done|]. by intros (? & _). Qed.

Lemma shape_max h n : shape h n -> count_ n <= 2 * Order - 1.
Proof. destruct h; [done|]. by intros (_ & ? & _). Qed.

(** The children and keys around one child. *)
Definition focus n (cs1 : list (Node (T := T))) c cs2 ks1 ks2 : Prop :=
  children_ n = cs1 ++ c :: cs2 /\ keys_ n = ks1 ++ ks2 /\ length cs1 = length ks1 /\ length ks2 = length cs2.

Lemma shape_focus h n i : shape (S (S h)) n -> i <= count_ n ->
  exists cs1 c cs2 ks1 ks2, focus n cs1 c cs2 ks1 ks2 /\ i = length cs1 /\ ks1 = take i (keys_ n) /\ ks2 = drop i (keys_ n).
Proof.
  intros (Hc & _ & _ & Hl & _) Hi. destruct (lookup_lt_is_Some_2 (children_ n) i) as [c Hcc]; [lia|].
  exists (take i (children_ n)), c, (drop (S i) (children_ n)), (take i (keys_ n)), (drop i (keys_ n)). split; [|by rewrite length_take_le by lia]. split_and!.
  - by rewrite take_drop_middle.
  - by rewrite take_drop.
  - rewrite !length_take_le; lia.
  - rewrite !length_drop. lia.
Qed.

Lemma focus_elems h n cs1 c cs2 ks1 ks2 : focus n cs1 c cs2 ks1 ks2 ->
  elems (S h) n = lpart (elems h) cs1 ks1 ++ elems h c ++ rpart (elems h) ks2 cs2.
Proof. intros (Hc & Hk & Hl & _). cbn [elems]. rewrite Hc, Hk. by apply inter_mid. Qed.

Lemma focus_shape h n cs1 c cs2 ks1 ks2 : focus n cs1 c cs2 ks1 ks2 ->
  shape (S (S h)) n <-> count_ n = length ks1 + length ks2 /\ count_ n <= 2 * Order - 1 /\ leaf_ n = false /\
    Forall (fun c => Order - 1 <= count_ c /\ shape (S h) c) (cs1 ++ cs2) /\ Order - 1 <= count_ c /\ shape (S h) c.
Proof.
  intros (Hc & Hk & Hl & Hr). change (shape (S (S h)) n) with (count_ n = length (keys_ n) /\ count_ n <= 2 * Order - 1 /\ leaf_ n = false /\
    length (children_ n) = S (length (keys_ n)) /\ Forall (fun c => Order - 1 <= count_ c /\ shape (S h) c) (children_ n)).
  rewrite Hc, Hk, !Forall_app, Forall_cons, !length_app. cbn [length]. split; [intros (? & ? & ? & ? & ? & (? & ?) & ?)|intros (? & ? & ? & (? & ?) & ? & ?)]; split_and!; done || lia.
Qed.

(** Putting back another child. *)
Lemma focus_set n cs1 c cs2 ks1 ks2 c' : focus n cs1 c cs2 ks1 ks2 ->
  vset (children_ n) (length cs1) c' = Ret (cs1 ++ c' :: cs2) /\ vget (children_ n) (length cs1) = Ret c /\ focus (set_children n (cs1 ++ c' :: cs2)) cs1 c' cs2 ks1 ks2.
Proof. intros (Hc & Hk & Hl & Hr). rewrite Hc, vset_at, vget_mid by done. done. Qed.

Lemma focus_lookup n cs1 c cs2 ks1 ks2 : focus n cs1 c cs2 ks1 ks2 -> keys_ n !! length cs1 = head ks2.
Proof. intros (_ & Hk & Hl & _). rewrite Hk, Hl. destruct ks2; cbn; [rewrite app_nil_r; by apply lookup_ge_None|by apply list_lookup_middle]. Qed.
End content.

(** ** Finding a key *)
Section find.
Context {T : Type} (comp_ : T -> T -> bool) `{!StrictTotal comp_}.
Implicit Types (n : Node (T := T)).

Lemma find_from_ok m : forall idx ks key, idx + m = length ks -> all_before comp_ (take idx ks) key ->
  exists i, find_from comp_ m idx ks key = Ret i /\ i <= length ks /\ all_before comp_ (take i ks) key /\ (forall k, ks !! i = Some k -> comp_ k key = false).
Proof.
  induction m as [|m IH]; intros idx ks key Hl Hb; cbn [find_from].
  - exists idx. split; [done|]. split; [lia|]. split; [done|]. intros k Hk%lookup_lt_Some. lia.
  - destruct (vget_lt ks idx) as (k & Hk & ->); [lia|]. rewrite bind_Ret. destruct (comp_ k key) eqn:E.
    + apply IH; [lia|]. rewrite (take_S_r _ _ _ Hk). apply Forall_app. split; [done|]. by constructor.
    + exists idx. split; [done|]. split; [lia|]. split; [done|]. intros k'. rewrite Hk. by intros [= <-].
Qed.

Lemma findKey_ok n key : count_ n = length (keys_ n) ->
  exists i, findKey comp_ n key = Ret i /\ i <= count_ n /\ all_before comp_ (take i (keys_ n)) key /\ (forall k, keys_ n !! i = Some k -> comp_ k key = false).
Proof. intros Hc. unfold findKey. rewrite Hc. by apply find_from_ok; [lia|constructor]. Qed.

Lemma key_at_ok n idx key : count_ n = length (keys_ n) -> (forall k, keys_ n !! idx = Some k -> comp_ k key = false) ->
  exists b, key_at comp_ n idx key = Ret b /\ (if b : bool then keys_ n !! idx = Some key else forall k, keys_ n !! idx = Some k -> comp_ key k = true).
Proof.
  intros Hc Hi. unfold key_at. case_decide as Hlt.
  - destruct (vget_lt (keys_ n) idx) as (k & Hk & ->); [lia|]. rewrite bind_Ret. specialize (Hi k Hk). rewrite Hi. cbn [negb andb]. eexists. split; [done|]. destruct (comp_ key k) eqn:E; cbn.
    + intros k'. rewrite Hk. by intros [= <-].
    + rewrite Hk. f_equal. by apply st_total.
  - eexists. split; [done|]. intros k Hk%lookup_lt_Some. lia.
Qed.
End find.

Section insertion.
Context {T : Type} `{!Inhabited T} (comp_ : T -> T -> bool) `{!StrictTotal comp_} (Order : nat) (Horder : 2 <= Order).
Implicit Types (n c : Node (T := T)) (ks : list T) (key : T).

(** What lies in front of a child is before the key when the keys there are, and so on behind it. *)
Lemma lpart_before (E : Node -> list T) cs ks rest key : length cs = length ks -> wsorted comp_ (lpart E cs ks ++ rest) -> all_before comp_ ks key -> all_before comp_ (lpart E cs ks) key.
Proof.
  intros Hl Hs Hb. destruct ks as [|k ks _] using rev_ind; [by destruct cs|]. rewrite length_app in Hl. cbn in Hl.
  destruct cs as [|c cs _] using rev_ind; [cbn in Hl; lia|]. rewrite length_app in Hl. cbn in Hl. rewrite lpart_snoc, (assoc_L (++)) in * by lia.
  apply before_snoc; [apply _|by apply wsorted_app in Hs as [Hs _]|]. apply Forall_app in Hb as [_ Hb]. by apply Forall_cons in Hb as [Hb _].
Qed.

Lemma rpart_none (E : Node -> list T) cs ks front key : wsorted comp_ (front ++ rpart E ks cs) -> (forall k, head ks = Some k -> comp_ k key = false) -> none_before comp_ (rpart E ks cs) key.
Proof. intros Hs Hk. destruct ks as [|k ks]; [constructor|]. apply wsorted_app in Hs as (_ & Hs & _). apply none_cons; [apply _|done|by apply Hk]. Qed.

Lemma rpart_after (E : Node -> list T) cs ks front key : wsorted comp_ (front ++ rpart E ks cs) -> (forall k, head ks = Some k -> comp_ key k = true) -> all_after comp_ (rpart E ks cs) key.
Proof. intros Hs Hk. destruct ks as [|k ks]; [constructor|]. apply wsorted_app in Hs as (_ & Hs & _). apply after_cons; [apply _|done|by apply Hk]. Qed.

Lemma inter_split (E : Node -> list T) cs1 cs2 ks1 m ks2 : length cs1 = S (length ks1) ->
  inter E (cs1 ++ cs2) (ks1 ++ m :: ks2) = inter E cs1 ks1 ++ m :: inter E cs2 ks2.
Proof.
  revert cs1. induction ks1 as [|k ks1 IH]; intros [|c cs1] Hl; try done; cbn in Hl; [by destruct cs1|]. cbn [app inter]. rewrite IH by lia. by rewrite <- (assoc_L (++)).
Qed.

(** A full node is two of the least size and a key between them. *)
Lemma splitChild_ok h parent cs1 child cs2 ks1 ks2 : focus parent cs1 child cs2 ks1 ks2 -> shape Order h child -> count_ child = 2 * Order - 1 ->
  exists l m r, splitChild Order parent (length cs1) = Ret (mkNode (ks1 ++ m :: ks2) (cs1 ++ l :: r :: cs2) (S (count_ parent)) (leaf_ parent)) /\
    shape Order h l /\ shape Order h r /\ count_ l = Order - 1 /\ count_ r = Order - 1 /\ elems h child = elems h l ++ m :: elems h r.
Proof.
  intros (Hc & Hk & Hl & Hr) Hsh Hfull. unfold splitChild. rewrite Hc, vget_mid, bind_Ret. destruct h as [|h]; [done|]. pose proof Hsh as (Hn & _ & Hcs).
  rewrite (push_range_ok (Order - 1)), bind_Ret by lia. rewrite app_nil_l.
  destruct (vget_lt (keys_ child) (Order - 1)) as (m & Hm & Hgm); [lia|].
  assert (keys_ child = take (Order - 1) (keys_ child) ++ m :: drop Order (keys_ child)) as Hks. { rewrite <- (take_drop_middle _ _ _ Hm) at 1. do 3 f_equal. lia. }
  set (kl := take (Order - 1) (keys_ child)) in *. set (kr := drop Order (keys_ child)) in *.
  assert (length kl = Order - 1) as Hkl by (unfold kl; rewrite length_take; lia). assert (length kr = Order - 1) as Hkr by (unfold kr; rewrite length_drop; lia).
  rewrite (firstn_all2 kr), (resize_le (keys_ child)) by lia. fold kl.
  assert (exists crs cls, (if leaf_ child then Ret [] else push_range Order (children_ child) Order []) = Ret crs /\ (if leaf_ child then children_ child else take Order (children_ child)) = cls /\
    shape Order (S h) (mkNode kl cls (Order - 1) (leaf_ child)) /\ shape Order (S h) (mkNode kr crs (Order - 1) (leaf_ child)) /\
    inter (elems h) (children_ child) (kl ++ m :: kr) = inter (elems h) cls kl ++ m :: inter (elems h) crs kr) as (crs & cls & -> & -> & Hsl & Hsr & He).
  { destruct h as [|h]; destruct Hcs as [Hlf Hcs]; rewrite Hlf.
    - exists [], []. rewrite Hcs. split; [done|]. split; [done|]. cbn. split_and!; done || lia.
    - destruct Hcs as [Hlen Hall]. exists (drop Order (children_ child)), (take Order (children_ child)). rewrite push_range_ok by lia. rewrite app_nil_l, firstn_all2 by (rewrite length_drop; lia).
      split; [done|]. split; [done|]. split; [|split].
      + split; [cbn; lia|]. split; [cbn; lia|]. split; [done|]. split; [cbn; rewrite length_take; lia|]. cbn. by apply Forall_take.
      + split; [cbn; lia|]. split; [cbn; lia|]. split; [done|]. split; [cbn; rewrite length_drop; lia|]. cbn. by apply Forall_drop.
      + rewrite <- (take_drop Order (children_ child)) at 1. apply inter_split. rewrite length_take. lia. }
  rewrite bind_Ret, Hgm, bind_Ret. cbn zeta. rewrite vset_at, bind_Ret, Hk by done. rewrite (vinsert_at ks1 ks2), bind_Ret by exact Hl.
  rewrite (cons_middle _ cs1), (assoc_L (++) cs1). rewrite vinsert_at, bind_Ret by (rewrite length_app; cbn; lia). rewrite <- (assoc_L (++) cs1). cbn [app].
  eexists _, m, _. split; [reflexivity|]. split; [done|]. split; [done|]. split; [done|]. split; [done|]. cbn [elems children_ keys_]. by rewrite Hks.
Qed.

Lemma findKey_focus h n cs1 c cs2 ks1 ks2 key i : focus n cs1 c cs2 ks1 ks2 -> i = length cs1 -> wsorted comp_ (elems (S h) n) -> all_before comp_ (take i (keys_ n)) key ->
  (forall k, keys_ n !! i = Some k -> comp_ k key = false) ->
  all_before comp_ (lpart (elems h) cs1 ks1) key /\ none_before comp_ (rpart (elems h) ks2 cs2) key /\
  ((forall k, keys_ n !! i = Some k -> comp_ key k = true) -> all_after comp_ (rpart (elems h) ks2 cs2) key).
Proof.
  intros Hf -> Hs Hb Hi. rewrite (focus_elems _ _ _ _ _ _ _ Hf) in Hs. destruct Hf as (Hc & Hk & Hl & Hr). rewrite Hk, Hl, take_app_length in Hb.
  assert (forall k, head ks2 = Some k -> keys_ n !! length cs1 = Some k) as Hhead. { intros k Hh. rewrite Hk, Hl. destruct ks2 as [|k' ks2]; [done|]. injection Hh as ->. by apply list_lookup_middle. }
  split; [eapply lpart_before; [done|exact Hs|done]|]. rewrite (assoc_L (++)) in Hs. split; [eapply rpart_none; [exact Hs|]|]; [intros k Hh; by apply Hi, Hhead|].
  intros Ha. eapply rpart_after; [exact Hs|]. intros k Hh. by apply Ha, Hhead.
Qed.


(** A split on the way of an insertion moves the key itself up. *)
Fixpoint median_met (fuel : nat) (node : Node) (key : T) : outcome bool :=
  match fuel with
  | 0 => NoFuel
  | S fuel =>
    if leaf_ node then Ret false else
    idx ← findKey comp_ node key;
    dup ← key_at comp_ node idx key;
    if dup : bool then Ret false else
    child ← vget (children_ node) idx;
    if isFull Order child then
      node ← splitChild Order node idx;
      k ← vget (keys_ node) idx;
      if decide (comp_ k key = true) then child ← vget (children_ node) (S idx); median_met fuel child key else
      if decide (comp_ key k = true) then child ← vget (children_ node) idx; median_met fuel child key else Ret true
    else median_met fuel child key
  end.

(** What an insertion leaves: the same keys when the key is one of them, or one more; a key that is present
    is added only when a split moves it up ([met]), and then for certain if it is present once. *)
Definition inserted (met : outcome bool) (key : T) (l l' : list T) (s s' : Z) : Prop :=
  (l' = l /\ s' = s /\ key ∈ l /\ (NoDup l -> met <> Ret true)) \/ (l' = bins comp_ key l /\ s' = (s + 1)%Z /\ (key ∉ l \/ met = Ret true)).

Lemma all_before_not l key : all_before comp_ l key -> key ∉ l.
Proof. intros H Hin. apply (proj1 (Forall_forall _ _) H) in Hin. by rewrite (sw_irrefl (lt := comp_)) in Hin. Qed.

Lemma all_after_not l key : all_after comp_ l key -> key ∉ l.
Proof. intros H Hin. apply (proj1 (Forall_forall _ _) H) in Hin. by rewrite (sw_irrefl (lt := comp_)) in Hin. Qed.

Lemma inserted_focus met met' pre mid mid' post key s s' : all_before comp_ pre key -> none_before comp_ post key ->
  (all_after comp_ post key /\ met' = met) \/ (key ∈ post /\ met' = Ret true) -> inserted met key mid mid' s s' ->
  inserted met' key (pre ++ mid ++ post) (pre ++ mid' ++ post) s s'.
Proof.
  intros Hpre Hpost Hmet [(-> & -> & Hin & Hd)|(-> & -> & Hn)].
  - left. split; [done|]. split; [done|]. split; [set_solver|]. intros (_ & _ & (Hnd & Hdis & _)%NoDup_app)%NoDup_app. destruct Hmet as [[_ ->]|[Hp _]]; [by apply Hd|]. by destruct (Hdis key Hin).
  - right. split; [rewrite bins_pre by done; by rewrite bins_post|]. split; [done|]. destruct Hmet as [[Ha ->]|[_ ->]]; [|by right]. destruct Hn as [Hn| ->]; [left|by right].
    apply all_before_not in Hpre. apply all_after_not in Ha. set_solver.
Qed.

Lemma insert_leaf_ok n key idx size : shape Order 1 n -> count_ n < 2 * Order - 1 -> findKey comp_ n key = Ret idx -> idx <= count_ n -> (0 <= size < INT32_MAX)%Z ->
  all_before comp_ (take idx (keys_ n)) key -> none_before comp_ (drop idx (keys_ n)) key ->
  exists n', (keys ← shift_up (count_ n - idx) (resize (S (count_ n)) inhabitant (keys_ n)) idx;
      keys ← vset keys idx key; size ← add32 size 1; Ret (mkNode keys (children_ n) (S (count_ n)) (leaf_ n), size)) = Ret (n', (size + 1)%Z) /\
    shape Order 1 n' /\ count_ n' = S (count_ n) /\ elems 1 n' = bins comp_ key (elems 1 n).
Proof.
  intros (Hc & Hm & Hlf & Hcs) Hfull _ Hi Hs Hb Ha. rewrite resize_ge by lia. replace (S (count_ n) - length (keys_ n)) with 1 by lia. cbn [replicate].
  change (elems 1 n) with (inter (elems 0) (children_ n) (keys_ n)). rewrite Hcs. cbn [inter].
  assert (length (take idx (keys_ n)) = idx /\ length (drop idx (keys_ n)) = count_ n - idx) as [H1 H2] by (rewrite length_take, length_drop; lia).
  pose proof (take_drop idx (keys_ n)) as Hk. revert Hb Ha H1 H2 Hk. generalize (take idx (keys_ n)) (drop idx (keys_ n)). intros l1 l2 Hb Ha H1 H2 <-. rewrite <- (assoc_L (++)).
  rewrite insert_at_ok by lia. rewrite add32_in, bind_Ret by (unfold in_i32, INT32_MIN, INT32_MAX in *; lia).
  eexists. split; [reflexivity|]. split; [|split; [done|]].
  - cbn. rewrite length_app. cbn [length]. split_and!; done || lia.
  - cbn [elems children_ keys_ inter]. by rewrite bins_pre, bins_none.
Qed.

Lemma insertNonFull_ok h : forall fuel n key size, h <= fuel -> shape Order h n -> count_ n < 2 * Order - 1 -> wsorted comp_ (elems h n) -> (0 <= size < INT32_MAX)%Z ->
  exists n' size', insertNonFull comp_ Order fuel size n key = Ret (n', size') /\ shape Order h n' /\ count_ n <= count_ n' /\ inserted (median_met fuel n key) key (elems h n) (elems h n') size size'.
Proof.
  induction h as [|h IH]; intros fuel n key size Hf Hsh Hfull Hs Hz; [done|]. destruct fuel as [|fuel]; [lia|]. pose proof (shape_count _ _ _ Hsh) as Hcnt.
  destruct (findKey_ok comp_ n key Hcnt) as (i & Hfind & Hi & Hb & Hge). destruct (key_at_ok comp_ n i key Hcnt Hge) as (here & Hat & Hhere).
  cbn [insertNonFull median_met]. rewrite (shape_leaf _ _ _ Hsh). destruct h as [|h].
  - rewrite bool_decide_true, Hfind, bind_Ret, Hat, bind_Ret by done. pose proof Hsh as (_ & _ & Hlf & Hcs). assert (elems 1 n = keys_ n) as He by (cbn; by rewrite Hcs). destruct here.
    { exists n, size. split; [done|]. split; [done|]. split; [done|]. left. split; [done|]. split; [done|]. split; [|done]. rewrite He. by eapply list_elem_of_lookup_2. }
    destruct (insert_leaf_ok n key i size Hsh Hfull Hfind Hi Hz Hb) as (n' & Hr & Hsh' & Hc' & He').
    { rewrite He in Hs. destruct (drop i (keys_ n)) as [|k ks] eqn:Ed; [constructor|]. apply none_cons; [apply _| |].
      - rewrite <- (take_drop i (keys_ n)), Ed in Hs. by apply wsorted_app in Hs as (_ & Hs & _).
      - apply Hge. rewrite <- (Nat.add_0_r i), <- lookup_drop. by rewrite Ed. }
    cbn beta iota. rewrite Hlf in Hr. rewrite Hr. exists n', (size + 1)%Z. split; [done|]. split; [done|]. split; [lia|]. right. split; [done|]. split; [done|]. left. rewrite He in Hs |- *. rewrite <- (take_drop i (keys_ n)) in Hs |- *.
    apply all_before_not in Hb. assert (key ∉ drop i (keys_ n)); [|set_solver]. destruct (drop i (keys_ n)) as [|k ks] eqn:Ed; [apply not_elem_of_nil|].
    apply all_after_not. apply wsorted_app in Hs as (_ & Hs & _). apply after_cons; [apply _|done|]. apply Hhere. rewrite <- (Nat.add_0_r i), <- lookup_drop. by rewrite Ed.
  - rewrite bool_decide_false, Hfind, !bind_Ret, Hat, !bind_Ret by done. destruct (shape_focus Order h n i Hsh Hi) as (cs1 & c & cs2 & ks1 & ks2 & Hfo & Hil & _ & _). set (E := elems (T := T) (S h)).
    assert (elems (S (S h)) n = lpart E cs1 ks1 ++ E c ++ rpart E ks2 cs2) as He by exact (focus_elems _ _ _ _ _ _ _ Hfo).
    destruct (findKey_focus (S h) n cs1 c cs2 ks1 ks2 key i Hfo Hil Hs Hb Hge) as (Hpre & Hpost & Hafter). destruct here.
    { exists n, size. split; [done|]. split; [done|]. split; [done|]. left. split; [done|]. split; [done|]. split; [|done]. rewrite He.
      rewrite Hil, (focus_lookup _ _ _ _ _ _ Hfo) in Hhere. destruct ks2 as [|k ks2]; [done|]. injection Hhere as ->. cbn. set_solver. }
    destruct (focus_set n cs1 c cs2 ks1 ks2 c Hfo) as (_ & Hget & _). rewrite Hil, Hget, !bind_Ret.
    specialize (Hafter Hhere).
    assert (forall met n1 ds1 d ds2 ls1 ls2, focus n1 ds1 d ds2 ls1 ls2 -> shape Order (S (S h)) n1 -> elems (S (S h)) n1 = elems (S (S h)) n -> count_ n <= count_ n1 -> count_ d < 2 * Order - 1 ->
      all_before comp_ (lpart E ds1 ls1) key -> none_before comp_ (rpart E ls2 ds2) key ->
      (all_after comp_ (rpart E ls2 ds2) key /\ met = median_met fuel d key) \/ (key ∈ rpart E ls2 ds2 /\ met = Ret true) ->
      exists n' size', (child ← vget (children_ n1) (length ds1); '(child, size_) ← insertNonFull comp_ Order fuel size child key;
          children ← vset (children_ n1) (length ds1) child; Ret (set_children n1 children, size_)) = Ret (n', size') /\
        shape Order (S (S h)) n' /\ count_ n <= count_ n' /\ inserted met key (elems (S (S h)) n) (elems (S (S h)) n') size size') as Hdesc.
    { intros met n1 ds1 d ds2 ls1 ls2 Hfo1 Hsh1 He1 Hc1 Hd Hp1 Hp2 Hmet. destruct (focus_set n1 ds1 d ds2 ls1 ls2 d Hfo1) as (_ & -> & _). rewrite bind_Ret.
      pose proof (focus_elems (S h) _ _ _ _ _ _ Hfo1) as He1'. fold E in He1'. rewrite <- He1, He1' in *. apply (focus_shape Order h _ _ _ _ _ _ Hfo1) in Hsh1 as (Hs1 & Hs2 & Hs3 & Hs4 & Hs5 & Hs6).
      destruct (IH fuel d key size) as (d' & size' & -> & Hd1 & Hd2 & Hd3); [lia|done|done| |done|].
      { apply wsorted_app in Hs as (_ & Hs & _). by apply wsorted_app in Hs as (Hs & _). }
      rewrite bind_Ret. destruct (focus_set n1 ds1 d ds2 ls1 ls2 d' Hfo1) as (-> & _ & Hfo2). rewrite bind_Ret. eexists _, size'. split; [reflexivity|]. split; [|split; [done|]].
      - apply (focus_shape Order h _ _ _ _ _ _ Hfo2). cbn [set_children count_ leaf_]. split_and!; done || lia.
      - rewrite (focus_elems (S h) _ _ _ _ _ _ Hfo2). by apply (inserted_focus (median_met fuel d key)). }
    destruct (isFull Order c) eqn:Efull.
    2:{ rewrite !bind_Ret. cbn beta iota. apply (Hdesc _ n cs1 c cs2 ks1 ks2); try done; [|by left]. apply bool_decide_eq_false in Efull.
        apply (focus_shape Order h _ _ _ _ _ _ Hfo) in Hsh as (_ & _ & _ & _ & _ & Hc). pose proof (shape_max _ _ _ Hc). lia. }
    apply bool_decide_eq_true in Efull. pose proof Hsh as (Hs1 & Hs2 & Hs3 & Hs4 & Hs5 & Hs6)%(focus_shape Order h _ _ _ _ _ _ Hfo).
    destruct (splitChild_ok (S h) n cs1 c cs2 ks1 ks2 Hfo Hs6 Efull) as (l & m & r & -> & Hl & Hr & Hcl & Hcr & Hec). rewrite !bind_Ret. fold E in Hec.
    set (n1 := mkNode _ _ _ _). pose proof Hfo as (_ & _ & Hlen1 & Hlen2).
    assert (focus n1 cs1 l (r :: cs2) ks1 (m :: ks2)) as Hfl by (split_and!; cbn; done || lia).
    assert (focus n1 (cs1 ++ [l]) r cs2 (ks1 ++ [m]) ks2) as Hfr by (split_and!; cbn; rewrite <- ?(assoc_L (++)), ?length_app; cbn; done || lia).
    assert (shape Order (S (S h)) n1) as Hsn1. { apply (focus_shape Order h _ _ _ _ _ _ Hfl). cbn [count_ leaf_ n1 length]. apply Forall_app in Hs4 as [Hs4a Hs4b]. split_and!; [lia|lia|done| |lia|done]. apply Forall_app. split; [done|]. constructor; [|done]. split; [lia|done]. }
    assert (elems (S (S h)) n1 = elems (S (S h)) n) as Hen1. { rewrite He, (focus_elems (S h) _ _ _ _ _ _ Hfl). fold E. rewrite rpart_cons, Hec. by rewrite <- (assoc_L (++)). }
    rewrite (vget_at ks1 m ks2) by done. rewrite !bind_Ret. rewrite He, Hec in Hs.
    assert (vget (cs1 ++ l :: r :: cs2) (length cs1) = Ret l /\ vget (cs1 ++ l :: r :: cs2) (S (length cs1)) = Ret r) as [Hgl Hgr] by (rewrite vget_mid, vget_next; done).
    destruct (comp_ m key) eqn:Em; rewrite ?bind_Ret; cbn beta iota.
    + replace (S (length cs1)) with (length (cs1 ++ [l])) by (rewrite length_app; cbn; lia). apply (Hdesc _ n1 (cs1 ++ [l]) r cs2 (ks1 ++ [m]) ks2); try done; [cbn; lia|lia| |left; split; [done|]; rewrite length_app; cbn [length]; rewrite Nat.add_1_r, decide_True by done; cbn [children_ n1]; by rewrite Hgr, bind_Ret].
      rewrite lpart_snoc by done. rewrite !(assoc_L (++)) in Hs |- *. rewrite <- (assoc_L (++)) in Hs. apply before_snoc; [apply _| |done].
      change (m :: E r) with ([m] ++ E r) in Hs. rewrite !(assoc_L (++)) in Hs. by apply wsorted_app in Hs as [[Hs _]%wsorted_app _].
    + assert (wsorted comp_ (m :: E r ++ rpart E ks2 cs2)) as Hsm. { rewrite <- (assoc_L (++)) in Hs. apply wsorted_app in Hs as (_ & Hs & _). by apply wsorted_app in Hs as (_ & Hs & _). }
      apply (Hdesc _ n1 cs1 l (r :: cs2) ks1 (m :: ks2)); try done; [cbn; lia|lia| |]; rewrite rpart_cons; [by apply none_cons; [apply _| |]|].
      destruct (decide (comp_ m key = true)) as [H|_]; [congruence|]. destruct (decide (comp_ key m = true)) as [H|H].
      * left. split; [by apply after_cons; [apply _| |]|]. cbn [children_ n1]. by rewrite Hgl, bind_Ret.
      * right. split; [|done]. rewrite (st_total m key Em) by (by apply not_true_is_false). by left.
Qed.


(** ** Moving keys between neighbours *)
Lemma last_index (l : list T) : l <> [] -> exists l0 x, l = l0 ++ [x] /\ length l = S (length l0).
Proof. destruct l as [|x l0 _] using rev_ind; [done|]. intros _. exists l0, x. by rewrite length_app, Nat.add_1_r. Qed.

(** A leaf has no children; an inner node has one more than keys. *)
Lemma shape_split h n : shape Order (S h) n -> count_ n = length (keys_ n) /\ count_ n <= 2 * Order - 1 /\
  ((h = 0 /\ leaf_ n = true /\ children_ n = []) \/
   (h <> 0 /\ leaf_ n = false /\ length (children_ n) = S (length (keys_ n)) /\ Forall (fun c => Order - 1 <= count_ c /\ shape Order h c) (children_ n))).
Proof. intros (Hc & Hm & Hs). split; [done|]. split; [done|]. destruct h; [by left|by right]. Qed.

Lemma shape_make h ks cs cnt lf : cnt = length ks -> cnt <= 2 * Order - 1 ->
  ((h = 0 /\ lf = true /\ cs = []) \/ (h <> 0 /\ lf = false /\ length cs = S (length ks) /\ Forall (fun c => Order - 1 <= count_ c /\ shape Order h c) cs)) ->
  shape Order (S h) (mkNode ks cs cnt lf).
Proof. intros Hc Hm [(-> & -> & ->)|(Hh & -> & Hl & Hf)]; cbn; [done|]. by destruct h. Qed.

Lemma borrowFromPrev_ok h n cs1 s c cs2 ks1 k ks2 : focus n (cs1 ++ [s]) c cs2 (ks1 ++ [k]) ks2 -> shape Order h s -> shape Order h c -> 1 <= count_ s -> count_ c < 2 * Order - 1 ->
  exists s' up x c', borrowFromPrev n (S (length cs1)) = Ret (mkNode (ks1 ++ up :: ks2) (cs1 ++ s' :: c' :: cs2) (count_ n) (leaf_ n)) /\
    shape Order h s' /\ shape Order h c' /\ count_ s = S (count_ s') /\ count_ c' = S (count_ c) /\ elems h s = elems h s' ++ up :: x /\ elems h c' = x ++ k :: elems h c.
Proof.
  intros (Hc & Hk & Hl & Hr) Hs Hsc H1 Hm. destruct h as [|h]; [done|]. apply shape_split in Hs as (Hs1 & Hs2 & Hs3). apply shape_split in Hsc as (Hc1 & Hc2 & Hc3).
  rewrite !length_app in Hl. cbn in Hl. rewrite <- (assoc_L (++)) in Hc; rewrite <- (assoc_L (++)) in Hk. cbn [app] in Hc, Hk.
  unfold borrowFromPrev. cbn [pred_index]. rewrite bind_Ret, Hc. rewrite vget_next, bind_Ret, vget_mid, bind_Ret.
  rewrite Hk, vget_at, bind_Ret by lia.
  destruct (last_index (keys_ s)) as (kl & up & Hks & Hkl); [by destruct (keys_ s); cbn in *; [lia|]|]. rewrite Hs1, Hkl. cbn [pred_index].
  assert (exists sc x cc, (if leaf_ c then Ret (children_ c) else c0 ← vget (children_ s) (S (length kl)); Ret (c0 :: children_ c)) = Ret cc /\
    (if leaf_ s then Ret (children_ s) else pop_back (children_ s)) = Ret sc /\ shape Order (S h) (mkNode kl sc (length kl) (leaf_ s)) /\ shape Order (S h) (mkNode (k :: keys_ c) cc (S (count_ c)) (leaf_ c)) /\
    inter (elems h) (children_ s) (keys_ s) = inter (elems h) sc kl ++ up :: x /\ inter (elems h) cc (k :: keys_ c) = x ++ k :: inter (elems h) (children_ c) (keys_ c)) as (sc & x & cc & -> & -> & Hsh1 & Hsh2 & He1 & He2).
  { rewrite Hks. destruct Hs3 as [(-> & Hlf & Hcs)|(Hh & Hlf & Hlen & Hall)], Hc3 as [(Hh' & Hlf' & Hcs')|(Hh' & Hlf' & Hlen' & Hall')]; try done; rewrite Hlf, Hlf'.
    - exists [], [], []. rewrite Hcs, Hcs'. split; [done|]. split; [done|]. split; [apply shape_make; [done|lia|by left]|]. split; [apply shape_make; [cbn; lia|lia|by left]|]. done.
    - destruct (children_ s) as [|d sc _] eqn:Ecs using rev_ind; [cbn in Hlen; lia|]. rewrite length_app in Hlen. cbn in Hlen. exists sc, (elems h d), (d :: children_ c).
      rewrite vget_at, bind_Ret, pop_back_snoc by lia. apply Forall_app in Hall as [Hall Hd]. apply Forall_cons in Hd as [Hd _]. split; [done|]. split; [done|].
      split; [apply shape_make; [done|lia|right; split_and!; done || lia]|]. split; [apply shape_make; [cbn; lia|lia|right; cbn; split_and!; try done; [lia|by constructor]]|].
      split; [|done]. rewrite inter_split by lia. done. }
  rewrite !bind_Ret. cbn beta. rewrite Hks, vget_mid, bind_Ret, (vset_at ks1), bind_Ret, pop_back_snoc, bind_Ret by lia. rewrite bind_Ret.
  rewrite vset_next, bind_Ret, vset_at, bind_Ret by done.
  eexists _, up, x, _. split; [reflexivity|]. cbn [count_ elems]. rewrite Hks in He1 |- *. split_and!; done || lia.
Qed.

Lemma borrowFromNext_ok h n cs1 c s cs2 ks1 k ks2 : focus n cs1 c (s :: cs2) ks1 (k :: ks2) -> shape Order h s -> shape Order h c -> 1 <= count_ s -> count_ c < 2 * Order - 1 ->
  exists c' x up s', borrowFromNext n (length cs1) = Ret (mkNode (ks1 ++ up :: ks2) (cs1 ++ c' :: s' :: cs2) (count_ n) (leaf_ n)) /\
    shape Order h s' /\ shape Order h c' /\ count_ s = S (count_ s') /\ count_ c' = S (count_ c) /\ elems h s = x ++ up :: elems h s' /\ elems h c' = elems h c ++ k :: x.
Proof.
  intros (Hc & Hk & Hl & Hr) Hs Hsc H1 Hm. destruct h as [|h]; [done|]. apply shape_split in Hs as (Hs1 & Hs2 & Hs3). apply shape_split in Hsc as (Hc1 & Hc2 & Hc3).
  unfold borrowFromNext. rewrite Hc, vget_mid, bind_Ret. rewrite vget_next, bind_Ret.
  rewrite Hk, vget_at, bind_Ret by done. destruct (keys_ s) as [|up kr] eqn:Hks; [cbn in *; lia|]. cbn [length] in Hs1. rewrite Hs1. cbn [pred_index]. change (vget (up :: kr) 0) with (Ret up). rewrite bind_Ret, (vset_at ks1), bind_Ret by done.
  rewrite bind_Ret. rewrite (erase_ok [] up kr) by done. cbn [app].
  assert (exists sc x cc, (if leaf_ c then Ret (children_ c, children_ s) else c0 ← vget (children_ s) 0; cs ← shift_down (S (length kr)) (children_ s) 0; cs ← pop_back cs; Ret (children_ c ++ [c0], cs)) = Ret (cc, sc) /\
    shape Order (S h) (mkNode kr sc (length kr) (leaf_ s)) /\ shape Order (S h) (mkNode (keys_ c ++ [k]) cc (S (count_ c)) (leaf_ c)) /\
    inter (elems h) (children_ s) (keys_ s) = x ++ up :: inter (elems h) sc kr /\ inter (elems h) cc (keys_ c ++ [k]) = inter (elems h) (children_ c) (keys_ c) ++ k :: x) as (sc & x & cc & -> & Hsh1 & Hsh2 & He1 & He2).
  { rewrite Hks. destruct Hs3 as [(-> & Hlf & Hcs)|(Hh & Hlf & Hlen & Hall)], Hc3 as [(Hh' & Hlf' & Hcs')|(Hh' & Hlf' & Hlen' & Hall')]; try done; rewrite Hlf, Hlf'.
    - exists [], [], []. rewrite Hcs, Hcs'. split; [done|]. split; [apply shape_make; [done|lia|by left]|]. split; [apply shape_make; [rewrite length_app; cbn; lia|lia|by left]|]. done.
    - destruct (children_ s) as [|d sc] eqn:Ecs; [cbn in Hlen; lia|]. cbn [length] in Hlen. exists sc, (elems h d), (children_ c ++ [d]). change (vget (d :: sc) 0) with (Ret d). rewrite bind_Ret.
      rewrite (erase_ok [] d sc) by (done || lia). apply Forall_cons in Hall as [Hd Hall]. split; [done|].
      split; [apply shape_make; [done|lia|right; split_and!; done || lia]|]. split; [apply shape_make; [rewrite length_app; cbn; lia|lia|right; rewrite !length_app; cbn; split_and!; try done; [lia|apply Forall_app; split; [done|by constructor]]]|].
      split; [done|]. rewrite inter_split by lia. done. }
  rewrite bind_Ret. cbn beta iota. rewrite vset_at, bind_Ret, vset_next, bind_Ret by done.
  eexists _, x, up, _. split; [reflexivity|]. cbn [count_]. split_and!; try done.
Qed.

Lemma merge_ok h n cs1 l r cs2 ks1 k ks2 : focus n cs1 l (r :: cs2) ks1 (k :: ks2) -> count_ n = length (keys_ n) -> shape Order h l -> shape Order h r -> S (count_ l + count_ r) <= 2 * Order - 1 ->
  exists m, merge n (length cs1) = Ret (mkNode (ks1 ++ ks2) (cs1 ++ m :: cs2) (count_ n - 1) (leaf_ n)) /\
    shape Order h m /\ count_ m = S (count_ l + count_ r) /\ elems h m = elems h l ++ k :: elems h r.
Proof.
  intros (Hc & Hk & Hl & Hr) Hn Hsl Hsr Hm. destruct h as [|h]; [done|]. apply shape_split in Hsl as (Hl1 & Hl2 & Hl3). apply shape_split in Hsr as (Hr1 & Hr2 & Hr3).
  rewrite Hk, length_app in Hn. cbn [length] in Hn, Hr. unfold merge. rewrite Hc, vget_mid, bind_Ret. rewrite vget_next, bind_Ret.
  rewrite Hk, vget_at, bind_Ret by done. rewrite (push_range_ok _ (keys_ r)), bind_Ret by lia. rewrite drop_0, firstn_all2 by lia.
  assert (exists mc, (if leaf_ l then Ret (children_ l) else push_range (S (count_ r)) (children_ r) 0 (children_ l)) = Ret mc /\
    shape Order (S h) (mkNode ((keys_ l ++ [k]) ++ keys_ r) mc (S (count_ l) + count_ r) (leaf_ l)) /\
    inter (elems h) mc ((keys_ l ++ [k]) ++ keys_ r) = inter (elems h) (children_ l) (keys_ l) ++ k :: inter (elems h) (children_ r) (keys_ r)) as (mc & -> & Hsh & He).
  { rewrite <- (assoc_L (++)). cbn [app]. destruct Hl3 as [(-> & Hlf & Hcs)|(Hh & Hlf & Hlen & Hall)], Hr3 as [(Hh' & Hlf' & Hcs')|(Hh' & Hlf' & Hlen' & Hall')]; try done; rewrite Hlf.
    - exists []. rewrite Hcs, Hcs'. split; [done|]. split; [apply shape_make; [rewrite length_app; cbn; lia|lia|by left]|done].
    - exists (children_ l ++ children_ r). rewrite push_range_ok by lia. rewrite drop_0, firstn_all2 by lia. split; [done|].
      split; [apply shape_make; [rewrite length_app; cbn; lia|lia|right; rewrite !length_app; cbn; split_and!; try done; [lia|by apply Forall_app]]|]. by apply inter_split. }
  rewrite bind_Ret, (erase_ok ks1 k ks2) by lia. rewrite vset_at, bind_Ret by done. rewrite (cons_middle _ cs1), (assoc_L (++)), erase_ok by (rewrite ?length_app; cbn; lia).
  rewrite <- (assoc_L (++)). cbn [app]. rewrite Hn, Nat.add_succ_r. cbn [pred_index]. rewrite bind_Ret. eexists. split; [do 2 f_equal; lia|]. cbn [count_]. split_and!; try done.
Qed.


(** ** Removal *)
Lemma getPredecessor_ok h : forall fuel n, h <= fuel -> shape Order h n -> 1 <= count_ n -> exists p l, getPredecessor fuel n = Ret p /\ elems h n = l ++ [p].
Proof.
  induction h as [|h IH]; intros fuel n Hf Hsh H1; [done|]. destruct fuel as [|fuel]; [lia|]. cbn [getPredecessor]. pose proof Hsh as (Hc & Hm & Hs)%shape_split.
  destruct Hs as [(-> & -> & Hcs)|(Hh & -> & Hlen & Hall)].
  - destruct (last_index (keys_ n)) as (l & p & Hk & Hl); [by destruct (keys_ n); cbn in *; [lia|]|]. rewrite Hc, Hl. cbn [pred_index]. rewrite bind_Ret, Hk, vget_mid.
    exists p, l. split; [done|]. cbn. by rewrite Hcs, Hk.
  - destruct h as [|h]; [done|]. destruct (shape_focus Order h n (count_ n) Hsh) as (cs1 & c & cs2 & ks1 & ks2 & Hfo & Hi & Hk1 & Hk2); [done|].
    destruct (focus_set n cs1 c cs2 ks1 ks2 c Hfo) as (_ & Hg & _). rewrite Hi, Hg, bind_Ret. pose proof Hsh as (_ & _ & _ & _ & Hcc & Hsc)%(focus_shape Order h _ _ _ _ _ _ Hfo).
    destruct (IH fuel c) as (p & l & Hp & He); [lia|done|lia|]. exists p, (lpart (elems (S h)) cs1 ks1 ++ l). split; [done|].
    rewrite (focus_elems (S h) _ _ _ _ _ _ Hfo), He. assert (ks2 = []) as -> by (rewrite Hk2; apply drop_ge; lia). cbn [rpart]. by rewrite app_nil_r, (assoc_L (++)).
Qed.

Lemma getSuccessor_ok h : forall fuel n, h <= fuel -> shape Order h n -> 1 <= count_ n -> exists p l, getSuccessor fuel n = Ret p /\ elems h n = p :: l.
Proof.
  induction h as [|h IH]; intros fuel n Hf Hsh H1; [done|]. destruct fuel as [|fuel]; [lia|]. cbn [getSuccessor]. pose proof Hsh as (Hc & Hm & Hs)%shape_split.
  destruct Hs as [(-> & -> & Hcs)|(Hh & -> & Hlen & Hall)].
  - destruct (keys_ n) as [|p l] eqn:Hk; [cbn in *; lia|]. exists p, l. split; [done|]. cbn. by rewrite Hcs, Hk.
  - destruct (children_ n) as [|c cs] eqn:Hcs; [done|]. apply Forall_cons in Hall as [[Hcc Hsc] _]. change (vget (c :: cs) 0) with (Ret c). rewrite bind_Ret.
    destruct (IH fuel c) as (p & l & Hp & He); [lia|done|lia|]. exists p. rewrite Hp. cbn [elems]. rewrite Hcs. cbn [inter]. rewrite He. destruct (keys_ n); by eexists.
Qed.

Lemma rich_ok n i c : children_ n !! i = Some c -> rich Order n i = Ret (bool_decide (Order <= count_ c)).
Proof. intros Hc. unfold rich. rewrite (vget_Some _ _ _ Hc), bind_Ret. f_equal. apply eq_bool_prop_intro. rewrite Is_true_true, Nat.leb_le, bool_decide_spec. done. Qed.

(** The child to descend into has a key to spare. *)
Record filled (h : nat) n n' (i : nat) key (cs1 : list (Node (T := T))) c cs2 ks1 ks2 : Prop := {
  fl_focus : focus n' cs1 c cs2 ks1 ks2;
  fl_shape : shape Order (S (S h)) n';
  fl_elems : elems (S (S h)) n' = elems (S (S h)) n;
  fl_count : count_ n <= S (count_ n');
  fl_index : (if decide (count_ n' < i) then count_ n' else i) = length cs1;
  fl_rich : Order <= count_ c;
  fl_before : all_before comp_ (lpart (elems (S h)) cs1 ks1) key;
  fl_after : all_after comp_ (rpart (elems (S h)) ks2 cs2) key;
}.

Lemma all_before_app l1 l2 key : all_before comp_ (l1 ++ l2) key <-> all_before comp_ l1 key /\ all_before comp_ l2 key.
Proof. unfold all_before, all_after. by rewrite Forall_app. Qed.
Lemma all_after_app l1 l2 key : all_after comp_ (l1 ++ l2) key <-> all_after comp_ l1 key /\ all_after comp_ l2 key.
Proof. unfold all_before, all_after. by rewrite Forall_app. Qed.
Lemma all_before_cons x l key : all_before comp_ (x :: l) key <-> comp_ x key = true /\ all_before comp_ l key.
Proof. unfold all_before, all_after. by rewrite Forall_cons. Qed.
Lemma all_after_cons x l key : all_after comp_ (x :: l) key <-> comp_ key x = true /\ all_after comp_ l key.
Proof. unfold all_before, all_after. by rewrite Forall_cons. Qed.

Section filling.
Context (h : nat) (n : Node (T := T)) (key : T) (cs1 : list (Node (T := T))) (c : Node (T := T)) (cs2 : list (Node (T := T))) (ks1 ks2 : list T).
Hypothesis Hfo : focus n cs1 c cs2 ks1 ks2.
Hypothesis Hsh : shape Order (S (S h)) n.
Hypothesis Hpre : all_before comp_ (lpart (elems (S h)) cs1 ks1) key.
Hypothesis Hpost : all_after comp_ (rpart (elems (S h)) ks2 cs2) key.
Hypothesis Hpoor : count_ c = Order - 1.

Lemma prev_ok cs0 s ks0 k : cs1 = cs0 ++ [s] -> ks1 = ks0 ++ [k] -> Order <= count_ s ->
  exists n' cs1' c' cs2' ks1' ks2', borrowFromPrev n (length cs1) = Ret n' /\ filled h n n' (length cs1) key cs1' c' cs2' ks1' ks2'.
Proof using All.
  intros -> -> Hrich. pose proof Hsh as (Hs1 & Hs2 & Hs3 & Hs4 & Hs5 & Hs6)%(focus_shape Order h _ _ _ _ _ _ Hfo). rewrite !Forall_app, Forall_singleton in Hs4. destruct Hs4 as [[Hs4 [Hs7 Hs8]] Hs9].
  destruct (borrowFromPrev_ok (S h) n cs0 s c cs2 ks0 k ks2 Hfo Hs8 Hs6) as (s' & up & x & c' & Hb & Hs' & Hc' & Hn1 & Hn2 & He1 & He2); [lia|lia|].
  rewrite length_app, Nat.add_1_r. rewrite Hb. pose proof Hfo as (Hch & Hk & Hl & Hr). rewrite !length_app in Hl. cbn in Hl. set (n' := mkNode _ _ _ _).
  assert (focus n' (cs0 ++ [s']) c' cs2 (ks0 ++ [up]) ks2) as Hfo'. { split_and!; cbn; rewrite <- ?(assoc_L (++)), ?length_app; cbn; done || lia. }
  exists n', (cs0 ++ [s']), c', cs2, (ks0 ++ [up]), ks2. split; [done|]. rewrite lpart_snoc in Hpre by lia. rewrite He1 in Hpre. rewrite !all_before_app, !all_before_cons in Hpre.
  split; [done| | | | |lia| |done].
  - apply (focus_shape Order h _ _ _ _ _ _ Hfo'). cbn [n' count_ leaf_]. rewrite !Forall_app, Forall_singleton. rewrite length_app in *. cbn [length] in *. split_and!; done || lia.
  - rewrite (focus_elems (S h) _ _ _ _ _ _ Hfo'), (focus_elems (S h) _ _ _ _ _ _ Hfo), !lpart_snoc, He1, He2 by lia. by rewrite <- !(assoc_L (++)); cbn [app]; rewrite <- ?(assoc_L (++)).
  - cbn. lia.
  - cbn [n' count_]. rewrite length_app in *. cbn [length] in *. rewrite decide_False by lia. lia.
  - rewrite lpart_snoc by lia. rewrite !all_before_app, all_before_cons. naive_solver.
Qed.

Lemma next_ok s cs3 k ks3 : cs2 = s :: cs3 -> ks2 = k :: ks3 -> Order <= count_ s ->
  exists n' cs1' c' cs2' ks1' ks2', borrowFromNext n (length cs1) = Ret n' /\ filled h n n' (length cs1) key cs1' c' cs2' ks1' ks2'.
Proof using All.
  intros -> -> Hrich. pose proof Hsh as (Hs1 & Hs2 & Hs3 & Hs4 & Hs5 & Hs6)%(focus_shape Order h _ _ _ _ _ _ Hfo). rewrite !Forall_app, Forall_cons in Hs4. destruct Hs4 as [Hs4 [[Hs7 Hs8] Hs9]].
  destruct (borrowFromNext_ok (S h) n cs1 c s cs3 ks1 k ks3 Hfo Hs8 Hs6) as (c' & x & up & s' & Hb & Hs' & Hc' & Hn1 & Hn2 & He1 & He2); [lia|lia|].
  rewrite Hb. pose proof Hfo as (Hch & Hk & Hl & Hr). cbn in Hr. set (n' := mkNode _ _ _ _).
  assert (focus n' cs1 c' (s' :: cs3) ks1 (up :: ks3)) as Hfo' by (split_and!; cbn; done || lia).
  exists n', cs1, c', (s' :: cs3), ks1, (up :: ks3). split; [done|]. rewrite rpart_cons in Hpost. rewrite He1 in Hpost. rewrite all_after_cons, !all_after_app, all_after_cons in Hpost.
  split; [done| | | | |lia|done|].
  - apply (focus_shape Order h _ _ _ _ _ _ Hfo'). cbn [n' count_ leaf_]. rewrite !Forall_app, Forall_cons. cbn [length] in *. split_and!; done || lia.
  - rewrite (focus_elems (S h) _ _ _ _ _ _ Hfo'), (focus_elems (S h) _ _ _ _ _ _ Hfo), !rpart_cons, He1, He2. by rewrite <- !(assoc_L (++)); cbn [app]; rewrite <- ?(assoc_L (++)).
  - cbn. lia.
  - cbn [n' count_ length] in *. rewrite decide_False by lia. done.
  - rewrite rpart_cons. rewrite all_after_cons, all_after_app. naive_solver.
Qed.

Lemma merge_next_ok s cs3 k ks3 : cs2 = s :: cs3 -> ks2 = k :: ks3 -> count_ s < Order ->
  exists n' cs1' c' cs2' ks1' ks2', merge n (length cs1) = Ret n' /\ filled h n n' (length cs1) key cs1' c' cs2' ks1' ks2'.
Proof using All.
  intros -> -> Hrich. pose proof Hsh as (Hs1 & Hs2 & Hs3 & Hs4 & Hs5 & Hs6)%(focus_shape Order h _ _ _ _ _ _ Hfo). rewrite !Forall_app, Forall_cons in Hs4. destruct Hs4 as [Hs4 [[Hs7 Hs8] Hs9]].
  destruct (merge_ok (S h) n cs1 c s cs3 ks1 k ks3 Hfo (shape_count _ _ _ Hsh) Hs6 Hs8) as (m & Hb & Hm & Hn & He); [lia|].
  rewrite Hb. pose proof Hfo as (Hch & Hk & Hl & Hr). cbn in Hr. set (n' := mkNode _ _ _ _). cbn [length] in Hs1.
  assert (focus n' cs1 m cs3 ks1 ks3) as Hfo' by (split_and!; cbn; done || lia).
  exists n', cs1, m, cs3, ks1, ks3. split; [done|]. rewrite rpart_cons in Hpost. rewrite all_after_cons, all_after_app in Hpost.
  split; [done| | | | |lia|done|naive_solver].
  - apply (focus_shape Order h _ _ _ _ _ _ Hfo'). cbn [n' count_ leaf_]. rewrite !Forall_app. split_and!; done || lia.
  - rewrite (focus_elems (S h) _ _ _ _ _ _ Hfo'), (focus_elems (S h) _ _ _ _ _ _ Hfo), rpart_cons, He. by rewrite <- !(assoc_L (++)).
  - cbn. lia.
  - cbn [n' count_]. rewrite decide_False by lia. done.
Qed.

Lemma merge_prev_ok cs0 s ks0 k : cs1 = cs0 ++ [s] -> ks1 = ks0 ++ [k] -> cs2 = [] -> count_ s < Order ->
  exists n' cs1' c' cs2' ks1' ks2', merge n (length cs0) = Ret n' /\ filled h n n' (length cs1) key cs1' c' cs2' ks1' ks2'.
Proof using All.
  intros -> -> -> Hrich. pose proof Hsh as (Hs1 & Hs2 & Hs3 & Hs4 & Hs5 & Hs6)%(focus_shape Order h _ _ _ _ _ _ Hfo). rewrite !Forall_app, Forall_singleton in Hs4. destruct Hs4 as [[Hs4 [Hs7 Hs8]] Hs9].
  pose proof Hfo as (Hch & Hk & Hl & Hr). destruct ks2 as [|? ?]; [|done]. rewrite !length_app in Hl. cbn in Hl. rewrite <- (assoc_L (++)) in Hch; rewrite app_nil_r in Hk. cbn [app] in Hch.
  assert (focus n cs0 s [c] ks0 [k]) as Hfo0 by (split_and!; done || lia).
  destruct (merge_ok (S h) n cs0 s c [] ks0 k [] Hfo0 (shape_count _ _ _ Hsh) Hs8 Hs6) as (m & Hb & Hm & Hn & He); [lia|].
  rewrite Hb. set (n' := mkNode _ _ _ _). rewrite length_app in Hs1. cbn [length] in Hs1.
  assert (focus n' cs0 m [] ks0 []) as Hfo' by (split_and!; cbn; done || lia).
  exists n', cs0, m, [], ks0, []. split; [done|]. rewrite lpart_snoc in Hpre by lia. rewrite !all_before_app in Hpre.
  split; [done| | | | |lia|naive_solver|constructor].
  - apply (focus_shape Order h _ _ _ _ _ _ Hfo'). cbn [n' count_ leaf_ length]. rewrite !Forall_app. split_and!; done || lia.
  - rewrite (focus_elems (S h) _ _ _ _ _ _ Hfo'), (focus_elems (S h) _ _ _ _ _ _ Hfo0), rpart_cons, He. cbn. by rewrite !app_nil_r.
  - cbn. lia.
  - cbn [n' count_]. rewrite length_app. cbn [length]. rewrite decide_True by lia. lia.
Qed.

Lemma btree_fill_ok : 1 <= count_ n -> exists n' cs1' c' cs2' ks1' ks2', fill Order n (length cs1) = Ret n' /\ filled h n n' (length cs1) key cs1' c' cs2' ks1' ks2'.
Proof using All.
  intros H1. pose proof Hsh as (Hs1 & Hs2 & Hs3 & Hs4 & Hs5 & Hs6)%(focus_shape Order h _ _ _ _ _ _ Hfo). pose proof Hfo as (Hch & Hk & Hl & Hr). unfold fill.
  destruct (decide (cs1 = [])) as [Hnil|Hne].
  - rewrite (decide_False (P := 0 < length cs1)) by (rewrite Hnil; cbn; lia). rewrite bind_Ret. assert (length ks1 = 0) as Hz by (by rewrite <- Hl, Hnil).
    assert (exists k ks3 s cs3, ks2 = k :: ks3 /\ cs2 = s :: cs3) as (k & ks3 & s & cs3 & Ek & Ec). { clear -Hs1 Hz H1 Hr. destruct ks2 as [|k ks3], cs2 as [|s cs3]; cbn in *; try lia. eauto 10. }
    rewrite !(decide_True (P := length cs1 < count_ n)) by (rewrite Hnil; cbn; lia). rewrite (rich_ok n _ s), bind_Ret by (rewrite Hch, Hnil, Ec; done).
    case_bool_decide as Hrich; [by apply (next_ok s cs3 k ks3)|]. apply (merge_next_ok s cs3 k ks3); [done|done|lia].
  - rewrite (decide_True (P := 0 < length cs1)) by (destruct cs1; [done|cbn; lia]).
    destruct (exists_last Hne) as (cs0 & s & Ecs). assert (ks1 <> []) as Hnk by (destruct ks1; [by destruct cs1|done]). destruct (exists_last Hnk) as (ks0 & k & Eks).
    rewrite (rich_ok n (length cs1 - 1) s), bind_Ret.
    2:{ rewrite Hch, Ecs, length_app. cbn. rewrite Nat.add_sub, <- (assoc_L (++)). by apply list_lookup_middle. }
    case_bool_decide as Hrich; [by apply (prev_ok cs0 s ks0 k)|]. assert ((ks2 = [] /\ cs2 = []) \/ exists k2 ks3 s2 cs3, ks2 = k2 :: ks3 /\ cs2 = s2 :: cs3) as [[Ek Ec]|(k2 & ks3 & s2 & cs3 & Ek & Ec)].
    { clear -Hr. destruct ks2 as [|k2 ks3], cs2 as [|s2 cs3]; try done; [by left|right; eauto 10]. }
    + rewrite Ek in Hs1. cbn [length] in Hs1. rewrite !(decide_False (P := length cs1 < count_ n)) by lia. rewrite bind_Ret. assert (pred_index (length cs1) = Ret (length cs0)) as -> by (by rewrite Ecs, length_app, Nat.add_1_r). rewrite bind_Ret.
      apply (merge_prev_ok cs0 s ks0 k); [done|done|done|lia].
    + rewrite Ek in Hs1. cbn [length] in Hs1. rewrite !(decide_True (P := length cs1 < count_ n)) by lia. rewrite (rich_ok n _ s2), bind_Ret by (rewrite Hch, Ec, cons_middle, (assoc_L (++)); apply list_lookup_middle; rewrite length_app; cbn; lia).
      case_bool_decide as Hrich2; [by apply (next_ok s2 cs3 k2 ks3)|]. apply (merge_next_ok s2 cs3 k2 ks3); [done|done|lia].
Qed.
End filling.


(** One copy of the key is gone, or there was none. *)
Definition removed (key : T) (l l' : list T) (s s' : Z) : Prop := (key ∈ l /\ l' = bdel comp_ key l /\ (s' = s - 1)%Z) \/ (~ key ∈ l /\ l' = l /\ s' = s).

Lemma removed_focus pre mid mid' post key s s' : all_before comp_ pre key -> all_after comp_ post key -> removed key mid mid' s s' ->
  removed key (pre ++ mid ++ post) (pre ++ mid' ++ post) s s'.
Proof.
  intros Hpre Hpost [(Hin & -> & ->)|(Hnin & -> & ->)].
  - left. split; [set_solver|]. split; [|done]. rewrite bdel_pre by done. by rewrite bdel_post.
  - right. split; [|done]. apply all_before_not in Hpre. apply all_after_not in Hpost. set_solver.
Qed.

Lemma removed_in key l l' s s' : key ∈ l -> removed key l l' s s' -> l' = bdel comp_ key l /\ s' = (s - 1)%Z.
Proof. by intros Hin [(_ & -> & ->)|(Hnin & _)]. Qed.

Lemma elem_of_app_r_singleton (l : list T) p : p ∈ l ++ [p].
Proof. apply elem_of_app. right. by left. Qed.

(** The changed child is put back. *)
Lemma put_back h fuel n cs1 c cs2 ks1 ks2 key size c' size' : focus n cs1 c cs2 ks1 ks2 -> shape Order (S (S h)) n ->
  removeFromNode comp_ Order fuel size c key = Ret (c', size') -> shape Order (S h) c' -> Order - 1 <= count_ c' ->
  exists n', (child ← vget (children_ n) (length cs1); '(child, size_) ← removeFromNode comp_ Order fuel size child key;
      children ← vset (children_ n) (length cs1) child; Ret (set_children n children, size_)) = Ret (n', size') /\
    shape Order (S (S h)) n' /\ count_ n' = count_ n /\ elems (S (S h)) n' = lpart (elems (S h)) cs1 ks1 ++ elems (S h) c' ++ rpart (elems (S h)) ks2 cs2.
Proof.
  intros Hfo Hsh Hr Hc' Hn'. destruct (focus_set n cs1 c cs2 ks1 ks2 c' Hfo) as (Hset & -> & Hfo'). rewrite bind_Ret, Hr, bind_Ret, Hset, bind_Ret.
  eexists. split; [reflexivity|]. split; [|split; [done|by apply focus_elems]]. apply (focus_shape Order h _ _ _ _ _ _ Hfo) in Hsh as (? & ? & ? & ? & ? & ?).
  apply (focus_shape Order h _ _ _ _ _ _ Hfo'). done.
Qed.

Lemma wsorted_mid l1 l2 l3 : wsorted comp_ (l1 ++ l2 ++ l3) -> wsorted comp_ l2.
Proof. rewrite !wsorted_app. by intros (_ & (H & _) & _). Qed.

Section at_inner_node.
Context (h fuel : nat) (n : Node (T := T)) (size : Z) (key : T) (cs1 : list (Node (T := T))) (c c2 : Node (T := T)) (cs2 : list (Node (T := T))) (ks1 ks2 : list T).
Hypothesis IH : forall n key size, shape Order (S h) n -> 1 <= count_ n -> wsorted comp_ (elems (S h) n) -> (0 <= size <= INT32_MAX)%Z ->
  exists n' size', removeFromNode comp_ Order fuel size n key = Ret (n', size') /\ shape Order (S h) n' /\ count_ n <= S (count_ n') /\ removed key (elems (S h) n) (elems (S h) n') size size'.
Hypothesis Hfuel : S h <= fuel.
Hypothesis Hfo : focus n cs1 c (c2 :: cs2) ks1 (key :: ks2).
Hypothesis Hsh : shape Order (S (S h)) n.
Hypothesis Hs : wsorted comp_ (elems (S (S h)) n).
Hypothesis Hz : (0 <= size <= INT32_MAX)%Z.

Abbreviation E := (elems (T := T) (S h)).
Abbreviation result r := (exists n' size', r = Ret (n', size') /\ shape Order (S (S h)) n' /\ count_ n <= S (count_ n') /\
  removed key (elems (S (S h)) n) (elems (S (S h)) n') size size').

Lemma inner_elems : elems (S (S h)) n = (lpart E cs1 ks1 ++ E c) ++ key :: E c2 ++ rpart E ks2 cs2.
Proof using Hfo. rewrite (focus_elems (S h) _ _ _ _ _ _ Hfo), rpart_cons. by rewrite <- (assoc_L (++)). Qed.

Lemma inner_removed l1 l2 n' : elems (S (S h)) n = l1 ++ key :: l2 -> elems (S (S h)) n' = l1 ++ l2 -> removed key (elems (S (S h)) n) (elems (S (S h)) n') size (size - 1).
Proof using All. intros He He'. left. rewrite He'. rewrite He in Hs |- *. split; [apply elem_of_app; right; by left|]. by rewrite bdel_here. Qed.

(** The key is replaced by the greatest key on its left. *)
Lemma from_left_ok : Order <= count_ c ->
  result (child ← vget (children_ n) (length cs1); pred ← getPredecessor fuel child; keys ← vset (keys_ n) (length cs1) pred;
    '(child, size_) ← removeFromNode comp_ Order fuel size child pred; children ← vset (children_ n) (length cs1) child; Ret (set_children (set_keys n keys) children, size_)).
Proof using All.
  intros Hrich. pose proof Hsh as (Hs1 & Hs2 & Hs3 & Hs4 & Hs5 & Hs6)%(focus_shape Order h _ _ _ _ _ _ Hfo). pose proof Hfo as (Hch & Hk & Hl & Hr).
  destruct (focus_set n cs1 c (c2 :: cs2) ks1 (key :: ks2) c Hfo) as (_ & -> & _). rewrite bind_Ret. destruct (getPredecessor_ok (S h) fuel c) as (p & l & -> & Hp); [done|done|lia|].
  rewrite bind_Ret, Hk, (vset_at ks1), bind_Ret by done. pose proof inner_elems as He. rewrite Hp in He.
  assert (wsorted comp_ (l ++ [p])) as Hsc. { rewrite He in Hs. rewrite <- (assoc_L (++)) in Hs. by apply wsorted_mid in Hs. }
  destruct (IH c p size) as (c' & size' & Hrm & Hc' & Hcnt & Hrem); [done|lia|by rewrite Hp|done|]. rewrite Hp in Hrem. pose proof (removed_in p _ _ _ _ (elem_of_app_r_singleton l p) Hrem) as [Hec ->].
  rewrite bdel_here in Hec by done. rewrite app_nil_r in Hec.
  assert (focus (set_keys n (ks1 ++ p :: ks2)) cs1 c (c2 :: cs2) ks1 (p :: ks2)) as Hfo' by (split_and!; cbn; done).
  destruct (put_back h fuel (set_keys n (ks1 ++ p :: ks2)) cs1 c (c2 :: cs2) ks1 (p :: ks2) p size c' (size - 1) Hfo') as (n' & Hpb & Hsh' & Hcn & Hen); [|done|done|lia|].
  { apply (focus_shape Order h _ _ _ _ _ _ Hfo'). done. }
  cbn [children_ set_keys] in Hpb. destruct (focus_set n cs1 c (c2 :: cs2) ks1 (key :: ks2) c Hfo) as (_ & Hg & _). rewrite Hg, bind_Ret in Hpb. rewrite Hpb.
  exists n', (size - 1)%Z. split; [done|]. split; [done|]. split; [cbn in Hcn; lia|]. apply (inner_removed (lpart E cs1 ks1 ++ l ++ [p]) (E c2 ++ rpart E ks2 cs2)); [done|].
  rewrite Hen, Hec, rpart_cons. by rewrite <- !(assoc_L (++)).
Qed.

(** Or by the least key on its right. *)
Lemma from_right_ok : Order <= count_ c2 ->
  result (child ← vget (children_ n) (S (length cs1)); succ ← getSuccessor fuel child; keys ← vset (keys_ n) (length cs1) succ;
    '(child, size_) ← removeFromNode comp_ Order fuel size child succ; children ← vset (children_ n) (S (length cs1)) child; Ret (set_children (set_keys n keys) children, size_)).
Proof using All.
  intros Hrich. pose proof Hsh as (Hs1 & Hs2 & Hs3 & Hs4 & Hs5 & Hs6)%(focus_shape Order h _ _ _ _ _ _ Hfo). pose proof Hfo as (Hch & Hk & Hl & Hr).
  assert (focus n (cs1 ++ [c]) c2 cs2 (ks1 ++ [key]) ks2) as Hfo2. { split_and!; rewrite <- ?(assoc_L (++)), ?length_app; cbn in *; done || lia. }
  pose proof Hsh as (_ & _ & _ & _ & Ht5 & Ht6)%(focus_shape Order h _ _ _ _ _ _ Hfo2). assert (S (length cs1) = length (cs1 ++ [c])) as -> by (rewrite length_app; cbn; lia).
  destruct (focus_set n _ _ _ _ _ c2 Hfo2) as (_ & Hg & _). rewrite Hg, bind_Ret. destruct (getSuccessor_ok (S h) fuel c2) as (p & l & -> & Hp); [done|done|lia|].
  rewrite bind_Ret, Hk, (vset_at ks1), bind_Ret by done. pose proof inner_elems as He. rewrite Hp in He.
  assert (wsorted comp_ (p :: l)) as Hsc. { rewrite He in Hs. rewrite cons_middle, (assoc_L (++)) in Hs. apply (wsorted_mid (((lpart E cs1 ks1 ++ E c) ++ [key])) (p :: l) (rpart E ks2 cs2)). by rewrite <- (assoc_L (++)) in Hs |- *. }
  destruct (IH c2 p size) as (c' & size' & Hrm & Hc' & Hcnt & Hrem); [done|lia|by rewrite Hp|done|]. rewrite Hp in Hrem. pose proof (removed_in p _ _ _ _ (list_elem_of_here p l) Hrem) as [Hec ->].
  cbn [bdel] in Hec. rewrite (sw_irrefl (lt := comp_)) in Hec.
  assert (focus (set_keys n (ks1 ++ p :: ks2)) (cs1 ++ [c]) c2 cs2 (ks1 ++ [p]) ks2) as Hfo'.
  { destruct Hfo2 as (? & _ & ? & ?). rewrite length_app in *. split_and!; cbn; rewrite <- ?(assoc_L (++)), ?length_app; cbn in *; done || lia. }
  destruct (put_back h fuel (set_keys n (ks1 ++ p :: ks2)) (cs1 ++ [c]) c2 cs2 (ks1 ++ [p]) ks2 p size c' (size - 1) Hfo') as (n' & Hpb & Hsh' & Hcn & Hen); [|done|done|lia|].
  { apply (focus_shape Order h _ _ _ _ _ _ Hfo'). pose proof Hsh as Ht%(focus_shape Order h _ _ _ _ _ _ Hfo2). cbn [set_keys count_ leaf_]. rewrite length_app in *. cbn [length] in *. exact Ht. }
  cbn [children_ set_keys] in Hpb. rewrite Hg, bind_Ret in Hpb. rewrite Hpb.
  exists n', (size - 1)%Z. split; [done|]. split; [done|]. split; [cbn in Hcn; lia|]. apply (inner_removed (lpart E cs1 ks1 ++ E c) ((p :: l) ++ rpart E ks2 cs2)); [done|].
  rewrite Hen, Hec, lpart_snoc by done. by rewrite <- !(assoc_L (++)).
Qed.

(** Or it goes down into the two merged, which have none to spare. *)
Lemma merge_down_ok : count_ c < Order -> count_ c2 < Order ->
  result (node ← merge n (length cs1); child ← vget (children_ node) (length cs1); '(child, size_) ← removeFromNode comp_ Order fuel size child key;
    children ← vset (children_ node) (length cs1) child; Ret (set_children node children, size_)).
Proof using All.
  intros Hp1 Hp2. pose proof Hsh as (Hs1 & Hs2 & Hs3 & Hs4 & Hs5 & Hs6)%(focus_shape Order h _ _ _ _ _ _ Hfo). pose proof Hfo as (Hch & Hk & Hl & Hr).
  rewrite !Forall_app, Forall_cons in Hs4. destruct Hs4 as [Hs4 [[Hs7 Hs8] Hs9]].
  destruct (merge_ok (S h) n cs1 c c2 cs2 ks1 key ks2 Hfo (shape_count _ _ _ Hsh) Hs6 Hs8) as (m & -> & Hm & Hcm & Hem); [lia|]. rewrite bind_Ret. set (n1 := mkNode _ _ _ _). cbn [length] in Hs1, Hr.
  assert (focus n1 cs1 m cs2 ks1 ks2) as Hfo1 by (split_and!; cbn; done || lia).
  assert (shape Order (S (S h)) n1) as Hsh1. { apply (focus_shape Order h _ _ _ _ _ _ Hfo1). cbn [n1 count_ leaf_]. rewrite !Forall_app. split_and!; done || lia. }
  pose proof inner_elems as He. assert (elems (S (S h)) n = lpart E cs1 ks1 ++ E m ++ rpart E ks2 cs2) as He1 by (rewrite He, Hem; by rewrite <- !(assoc_L (++))).
  assert (wsorted comp_ (E m)) as Hsm by (rewrite He1 in Hs; by apply wsorted_mid in Hs).
  destruct (IH m key size) as (m' & size' & Hrm & Hm' & Hcnt & Hrem); [done|lia|done|done|]. assert (key ∈ E m) as Hin by (rewrite Hem; set_solver). destruct (removed_in _ _ _ _ _ Hin Hrem) as [Hem' ->].
  destruct (put_back h fuel n1 cs1 m cs2 ks1 ks2 key size m' (size - 1) Hfo1 Hsh1 Hrm Hm') as (n' & -> & Hsh' & Hcn & Hen); [lia|].
  exists n', (size - 1)%Z. split; [done|]. split; [done|]. split; [cbn in Hcn; lia|]. apply (inner_removed (lpart E cs1 ks1 ++ E c) (E c2 ++ rpart E ks2 cs2)); [done|].
  rewrite Hen, Hem'. rewrite Hem in Hsm |- *. rewrite bdel_here by (apply _ || exact Hsm). by rewrite <- !(assoc_L (++)).
Qed.
End at_inner_node.


Lemma remove_leaf_ok fuel n key size : shape Order 1 n -> 1 <= count_ n -> wsorted comp_ (elems 1 n) -> (0 <= size <= INT32_MAX)%Z ->
  exists n' size', removeFromNode comp_ Order (S fuel) size n key = Ret (n', size') /\ shape Order 1 n' /\ count_ n <= S (count_ n') /\ removed key (elems 1 n) (elems 1 n') size size'.
Proof.
  intros Hsh H1 Hs Hz. pose proof (shape_count _ _ _ Hsh) as Hcnt. destruct (findKey_ok comp_ n key Hcnt) as (i & Hfind & Hi & Hb & Hge). destruct (key_at_ok comp_ n i key Hcnt Hge) as (here & Hat & Hhere).
  cbn [removeFromNode]. rewrite Hfind, bind_Ret, Hat, bind_Ret. pose proof Hsh as (_ & Hm & Hlf & Hcs). rewrite Hlf. assert (elems 1 n = keys_ n) as He by (cbn; by rewrite Hcs). rewrite He in *.
  destruct here; cbn [negb].
  - pose proof (lookup_lt_Some _ _ _ Hhere) as Hlt. assert (length (take i (keys_ n)) = i /\ length (drop (S i) (keys_ n)) = count_ n - 1 - i) as [H2 H3] by (rewrite length_take, length_drop; lia).
    pose proof (take_drop_middle _ _ _ Hhere) as Hk. revert H2 H3 Hk. generalize (take i (keys_ n)) (drop (S i) (keys_ n)). intros l1 l2 H2 H3 Hk. rewrite <- Hk in Hs, Hcnt |- *. rewrite length_app in Hcnt. cbn [length] in Hcnt.
    rewrite erase_ok, add32_in, bind_Ret by (unfold in_i32, INT32_MIN, INT32_MAX in *; lia). eexists _, (size - 1)%Z. split; [reflexivity|]. split; [|split; [cbn; lia|]].
    + cbn. rewrite length_app. split_and!; done || lia.
    + left. split; [apply elem_of_app; right; by left|]. split; [|done]. cbn. rewrite Hcs. cbn. by rewrite bdel_here.
  - exists n, size. split; [done|]. split; [done|]. split; [lia|]. right. rewrite He. split; [|done]. intros Hin. rewrite <- (take_drop i (keys_ n)) in Hin, Hs. apply elem_of_app in Hin as [Hin|Hin].
    + by apply all_before_not in Hb.
    + destruct (drop i (keys_ n)) as [|k ks] eqn:Ed; [by apply elem_of_nil in Hin|]. apply wsorted_app in Hs as (_ & Hs & _). apply (after_cons comp_ k ks key) in Hs.
      * by apply all_after_not in Hs.
      * apply Hhere. rewrite <- (Nat.add_0_r i), <- lookup_drop. by rewrite Ed.
Qed.

Lemma removeFromNode_ok h : forall fuel n key size, h <= fuel -> shape Order h n -> 1 <= count_ n -> wsorted comp_ (elems h n) -> (0 <= size <= INT32_MAX)%Z ->
  exists n' size', removeFromNode comp_ Order fuel size n key = Ret (n', size') /\ shape Order h n' /\ count_ n <= S (count_ n') /\ removed key (elems h n) (elems h n') size size'.
Proof.
  induction h as [|h IH]; intros fuel n key size Hf Hsh H1 Hs Hz; [done|]. destruct fuel as [|fuel]; [lia|]. destruct h as [|h]; [by apply remove_leaf_ok|].
  assert (forall n key size, shape Order (S h) n -> 1 <= count_ n -> wsorted comp_ (elems (S h) n) -> (0 <= size <= INT32_MAX)%Z ->
    exists n' size', removeFromNode comp_ Order fuel size n key = Ret (n', size') /\ shape Order (S h) n' /\ count_ n <= S (count_ n') /\ removed key (elems (S h) n) (elems (S h) n') size size') as IH' by (intros; apply IH; done || lia).
  clear IH. pose proof (shape_count _ _ _ Hsh) as Hcnt. destruct (findKey_ok comp_ n key Hcnt) as (i & Hfind & Hi & Hb & Hge). destruct (key_at_ok comp_ n i key Hcnt Hge) as (here & Hat & Hhere).
  cbn [removeFromNode]. rewrite Hfind, bind_Ret, Hat, bind_Ret, (shape_leaf _ _ _ Hsh), bool_decide_false by done.
  destruct (shape_focus Order h n i Hsh Hi) as (cs1 & c & cs2 & ks1 & ks2 & Hfo & Hil & _ & _). destruct (findKey_focus (S h) n cs1 c cs2 ks1 ks2 key i Hfo Hil Hs Hb Hge) as (Hpre & _ & Hpost).
  pose proof Hsh as (Hs1 & Hs2 & Hs3 & Hs4 & Hs5 & Hs6)%(focus_shape Order h _ _ _ _ _ _ Hfo). pose proof Hfo as (Hch & Hk & Hl & Hr). destruct here.
  - rewrite Hil, (focus_lookup _ _ _ _ _ _ Hfo) in Hhere. destruct ks2 as [|k ks2]; [done|]. injection Hhere as ->. destruct cs2 as [|c2 cs2]; [done|]. rewrite Hil.
    rewrite (rich_ok n (length cs1) c), bind_Ret by (rewrite Hch; by apply list_lookup_middle). case_bool_decide as Hr1; [by apply (from_left_ok h fuel n size key cs1 c c2 cs2 ks1 ks2); try done; lia|].
    rewrite (rich_ok n (S (length cs1)) c2), bind_Ret by (rewrite Hch, cons_middle, (assoc_L (++)); apply list_lookup_middle; rewrite length_app; cbn; lia).
    case_bool_decide as Hr2; [by apply (from_right_ok h fuel n size key cs1 c c2 cs2 ks1 ks2); try done; lia|]. apply (merge_down_ok h fuel n size key cs1 c c2 cs2 ks1 ks2); done || lia.
  - specialize (Hpost Hhere). destruct (focus_set n cs1 c cs2 ks1 ks2 c Hfo) as (_ & Hg & _). rewrite Hil, Hg, bind_Ret.
    assert (exists n1 ds1 d ds2 ls1 ls2, (if decide (count_ c = Order - 1) then fill Order n (length cs1) else Ret n) = Ret n1 /\ filled h n n1 (length cs1) key ds1 d ds2 ls1 ls2) as (n1 & ds1 & d & ds2 & ls1 & ls2 & -> & [Hf1 Hf2 Hf3 Hf4 Hf5 Hf6 Hf7 Hf8]).
    { case_decide as Hp; [by apply (btree_fill_ok h n key cs1 c cs2 ks1 ks2)|]. exists n, cs1, c, cs2, ks1, ks2. split; [done|]. split; try done; [lia|by rewrite decide_False by lia|lia]. }
    rewrite bind_Ret. cbn zeta. rewrite Hf5. rewrite <- Hf3 in Hs |- *. rewrite (focus_elems (S h) _ _ _ _ _ _ Hf1) in Hs.
    pose proof Hf2 as (_ & _ & _ & _ & _ & Hd)%(focus_shape Order h _ _ _ _ _ _ Hf1).
    destruct (IH' d key size) as (d' & size' & Hrm & Hd1 & Hd2 & Hd3); [done|lia|by apply wsorted_mid in Hs|done|].
    destruct (put_back h fuel n1 ds1 d ds2 ls1 ls2 key size d' size' Hf1 Hf2 Hrm Hd1) as (n' & -> & Hsh' & Hcn & Hen); [lia|]. exists n', size'. split; [done|]. split; [done|]. split; [lia|].
    rewrite Hen, (focus_elems (S h) _ _ _ _ _ _ Hf1). by apply removed_focus.
Qed.

(** ** Queries *)
Lemma btree_contains_loop_ok h : forall fuel n key, h <= fuel -> shape Order h n -> wsorted comp_ (elems h n) ->
  exists b, contains_loop comp_ fuel n key = Ret b /\ (if b : bool then key ∈ elems h n else ~ key ∈ elems h n).
Proof.
  induction h as [|h IH]; intros fuel n key Hf Hsh Hs; [done|]. destruct fuel as [|fuel]; [lia|]. pose proof (shape_count _ _ _ Hsh) as Hcnt.
  destruct (findKey_ok comp_ n key Hcnt) as (i & Hfind & Hi & Hb & Hge). destruct (key_at_ok comp_ n i key Hcnt Hge) as (here & Hat & Hhere).
  cbn [contains_loop]. rewrite Hfind, bind_Ret, Hat, bind_Ret, (shape_leaf _ _ _ Hsh). destruct h as [|h].
  - rewrite bool_decide_true by done. pose proof Hsh as (_ & _ & _ & Hcs). assert (elems 1 n = keys_ n) as He by (cbn; by rewrite Hcs). rewrite He in *.
    destruct here; eexists; (split; [done|]); cbn beta iota; [by eapply list_elem_of_lookup_2|]. rewrite <- (take_drop i (keys_ n)) in Hs |- *. intros [Hin|Hin]%elem_of_app; [by apply all_before_not in Hb|].
    destruct (drop i (keys_ n)) as [|k ks] eqn:Ed; [by apply elem_of_nil in Hin|]. apply wsorted_app in Hs as (_ & Hs & _). apply (after_cons comp_ k ks key) in Hs; [by apply all_after_not in Hs|].
    apply Hhere. rewrite <- (Nat.add_0_r i), <- lookup_drop. by rewrite Ed.
  - rewrite bool_decide_false by done. destruct (shape_focus Order h n i Hsh Hi) as (cs1 & c & cs2 & ks1 & ks2 & Hfo & Hil & _ & _).
    destruct (findKey_focus (S h) n cs1 c cs2 ks1 ks2 key i Hfo Hil Hs Hb Hge) as (Hpre & _ & Hpost). pose proof (focus_elems (S h) _ _ _ _ _ _ Hfo) as He. rewrite He in Hs |- *. destruct here.
    + exists true. split; [done|]. rewrite Hil, (focus_lookup _ _ _ _ _ _ Hfo) in Hhere. destruct ks2 as [|k ks2]; [done|]. injection Hhere as ->. apply elem_of_app. right. apply elem_of_app. right. by left.
    + destruct (focus_set n cs1 c cs2 ks1 ks2 c Hfo) as (_ & Hg & _). rewrite Hil, Hg, bind_Ret. pose proof Hsh as (_ & _ & _ & _ & _ & Hsc)%(focus_shape Order h _ _ _ _ _ _ Hfo).
      destruct (IH fuel c key) as (b & -> & Hbb); [lia|done|by apply wsorted_mid in Hs|]. exists b. split; [done|]. specialize (Hpost Hhere). apply all_before_not in Hpre. apply all_after_not in Hpost.
      destruct b; rewrite !elem_of_app; tauto.
Qed.

Lemma inorder_loop_ok (visit : Node -> list T -> outcome (list T)) E n : (forall c r, c ∈ children_ n -> visit c r = Ret (r ++ E c)) -> length (children_ n) = S (length (keys_ n)) ->
  forall m i r, i + m = length (keys_ n) -> inorder_loop visit m i n r = Ret (r ++ inter E (drop i (children_ n)) (drop i (keys_ n))).
Proof.
  intros Hv Hl. induction m as [|m IH]; intros i r Hi; cbn [inorder_loop]; (destruct (vget_lt (children_ n) i) as (c & Hc & ->); [lia|]); rewrite bind_Ret, Hv by (by eapply list_elem_of_lookup_2).
  - rewrite (drop_S _ _ _ Hc), !drop_ge by lia. done.
  - rewrite bind_Ret. destruct (vget_lt (keys_ n) i) as (k & Hk & ->); [lia|]. rewrite bind_Ret, IH by lia. rewrite (drop_S _ _ _ Hc), (drop_S _ _ _ Hk). cbn [inter]. by rewrite <- !(assoc_L (++)).
Qed.

Lemma inorder_node_ok h : forall fuel n r, h <= fuel -> shape Order h n -> inorder_node fuel n r = Ret (r ++ elems h n).
Proof.
  induction h as [|h IH]; intros fuel n r Hf Hsh; [done|]. destruct fuel as [|fuel]; [lia|]. cbn [inorder_node]. apply shape_split in Hsh as (Hc & _ & [(-> & -> & Hcs)|(Hh & -> & Hlen & Hall)]).
  - rewrite push_range_ok, drop_0, Hc, firstn_all by lia. cbn. by rewrite Hcs.
  - rewrite (inorder_loop_ok _ (elems h)); [by rewrite !drop_0| |done|lia]. intros c r' Hcin. apply IH; [lia|]. rewrite Forall_forall in Hall. by apply Hall.
Qed.

Lemma computeHeight_ok h n : shape Order h n -> computeHeight n = Ret h /\ depth n = h.
Proof.
  revert n. induction h as [|h IH]; intros [ks cs cnt lf] Hsh; [done|]. apply shape_split in Hsh as (Hc & _ & [(-> & Hlf & Hcs)|(Hh & Hlf & Hlen & Hall)]); cbn in *; subst; [done|].
  assert (foldr (fun c d => max (depth c) d) 0 cs = h) as Hmax.
  { destruct cs as [|c cs]; [done|]. clear Hlen. cbn. apply Forall_cons in Hall as [[_ Hc'] Hall]. destruct (IH c Hc') as [_ ->]. clear Hc' c. induction Hall as [|c cs [_ Hc'] _ IHc]; cbn; [lia|]. destruct (IH c Hc') as [_ ->]. lia. }
  destruct cs as [|c cs]; [done|]. apply Forall_cons in Hall as [[_ Hc'] _]. destruct (IH c Hc') as [-> _]. by rewrite Hmax.
Qed.

(** ** What [verify] accepts *)
Definition ssorted (l : list T) : Prop := StronglySorted (fun x y => comp_ x y = true) l.

Lemma ssorted_app l1 l2 : ssorted (l1 ++ l2) <-> ssorted l1 /\ ssorted l2 /\ (forall x y, x ∈ l1 -> y ∈ l2 -> comp_ x y = true).
Proof. unfold ssorted. rewrite StronglySorted_app. naive_solver. Qed.

Lemma elem_of_inter E cs ks k : k ∈ ks -> k ∈ inter (T := T) E cs ks.
Proof.
  revert cs. induction ks as [|k' ks IH]; intros cs; [by intros ?%elem_of_nil|]. intros [->|Hk]%elem_of_cons; destruct cs as [|c cs]; cbn; [by left| |by right|].
  - apply elem_of_app. right. by left.
  - apply elem_of_app. right. right. by apply IH.
Qed.

Lemma inter_keys_sorted E cs ks : ssorted (inter E cs ks) -> ssorted ks.
Proof.
  revert cs. induction ks as [|k ks IH]; intros [|c cs]; cbn [inter]; [done|constructor|done|]. intros (_ & Hs & _)%ssorted_app. apply StronglySorted_cons in Hs as [Hk Hs].
  constructor; [by eapply IH|]. rewrite Forall_forall in Hk |- *. intros x Hx. by apply Hk, elem_of_inter.
Qed.

Lemma ssorted_lookup ks i k0 k : ssorted ks -> ks !! i = Some k0 -> ks !! S i = Some k -> comp_ k0 k = true.
Proof.
  intros Hs H0 Hk. rewrite <- (take_drop_middle _ _ _ H0) in Hs. apply ssorted_app in Hs as (_ & [Hs _]%StronglySorted_cons & _). rewrite Forall_forall in Hs. apply Hs.
  apply list_elem_of_lookup_2 with 0. by rewrite lookup_drop, Nat.add_0_r.
Qed.

Definition above (lower : option T) (l : list T) : Prop := forall lo x, lower = Some lo -> x ∈ l -> comp_ x lo = false.
Definition below (upper : option T) (l : list T) : Prop := forall hi x, upper = Some hi -> x ∈ l -> comp_ hi x = false.

Lemma keys_loop_ok m : forall i ks lower upper, i + m = length ks -> ssorted ks -> above lower ks -> below upper ks -> keys_loop comp_ m i ks lower upper = Ret true.
Proof.
  induction m as [|m IH]; intros i ks lower upper Hi Hs Hlo Hhi; [done|]. cbn [keys_loop]. destruct (vget_lt ks i) as (k & Hk & ->); [lia|]. rewrite bind_Ret.
  assert (k ∈ ks) as Hin by (by eapply list_elem_of_lookup_2). assert (from_option (comp_ k) false lower = false) as ->. { destruct lower as [lo|]; [|done]. cbn. by apply Hlo. }
  assert (from_option (fun u => comp_ u k) false upper = false) as ->. { destruct upper as [hi|]; [|done]. cbn. by apply Hhi. }
  case_decide as H0; [|rewrite bind_Ret; apply IH; done || lia]. destruct (vget_lt ks (i - 1)) as (k0 & Hk0 & ->); [lia|]. rewrite !bind_Ret.
  rewrite (ssorted_lookup ks (i - 1) k0 k); [apply IH; done || lia|done|done|by replace (S (i - 1)) with i by lia].
Qed.

Lemma btree_verifyNode_ok h : forall fuel n root lower upper, h <= fuel -> shape Order h n -> (root = true \/ Order - 1 <= count_ n) -> ssorted (elems h n) -> above lower (elems h n) -> below upper (elems h n) ->
  verifyNode comp_ Order fuel root n lower upper = Ret true.
Proof.
  induction h as [|h IH]; intros fuel n root lower upper Hf Hsh Hroot Hs Hlo Hhi; [done|]. destruct fuel as [|fuel]; [lia|]. cbn [verifyNode].
  assert (negb root && (count_ n <? Order - 1) = false) as ->. { destruct Hroot as [->|Hr]; [done|]. apply andb_false_iff. right. by apply Nat.ltb_ge. }
  pose proof Hsh as (Hc & Hm & Hcs)%shape_split. rewrite (proj2 (Nat.ltb_ge _ _)) by lia. rewrite Hc, keys_loop_ok, bind_Ret.
  2:{ done. } 2:{ by eapply inter_keys_sorted. } 2:{ intros lo x Hl Hx. apply (Hlo lo x Hl). by apply elem_of_inter. } 2:{ intros hi x Hl Hx. apply (Hhi hi x Hl). by apply elem_of_inter. }
  cbn [negb]. destruct Hcs as [(-> & -> & ->)|(Hh & -> & Hlen & Hall)]; [done|]. rewrite decide_False by lia. destruct h as [|h]; [done|].
  assert (forall m i, i + m = S (count_ n) -> children_loop (verifyNode comp_ Order fuel false) m i n lower upper = Ret true) as Hloop; [|apply Hloop; lia].
  induction m as [|m IHm]; intros i Hi; [done|]. cbn [children_loop]. destruct (shape_focus Order h n i Hsh) as (cs1 & c & cs2 & ks1 & ks2 & Hfo & Hil & Hk1 & Hk2); [lia|].
  destruct (focus_set n cs1 c cs2 ks1 ks2 c Hfo) as (_ & Hg & _). rewrite <- Hil in Hg. pose proof Hsh as (_ & _ & _ & _ & Hcc & Hcsh)%(focus_shape Order h _ _ _ _ _ _ Hfo).
  rewrite (focus_elems (S h) _ _ _ _ _ _ Hfo) in Hs, Hlo, Hhi. set (E := elems (T := T) (S h)) in *. pose proof Hs as (_ & (Hsc & _ & Hcr)%ssorted_app & Hlr)%ssorted_app.
  assert (exists lo', (if decide (i = 0) then Ret lower else k ← vget (keys_ n) (i - 1); Ret (Some k)) = Ret lo' /\ above lo' (E c)) as (lo' & -> & Hlo').
  { case_decide as H0; [exists lower; split; [done|]; intros lo x Hl Hx; apply (Hlo lo x Hl); rewrite !elem_of_app; tauto|].
    destruct (vget_lt (keys_ n) (i - 1)) as (k & Hk & ->); [lia|]. exists (Some k). split; [done|]. intros lo x [= <-] Hx. apply (sw_asym comp_). apply Hlr; [|apply elem_of_app; by left].
    assert (exists ks0 cs0 c0, ks1 = ks0 ++ [k] /\ cs1 = cs0 ++ [c0] /\ length cs0 = length ks0) as (ks0 & cs0 & c0 & -> & -> & Hl0).
    { destruct Hfo as (_ & _ & Hl & _). destruct cs1 as [|c0 cs0 _] using rev_ind; [cbn in Hil; lia|]. rewrite length_app in Hil, Hl. cbn in Hil, Hl. exists (take (i - 1) (keys_ n)), cs0, c0. split; [|split; [done|rewrite length_take; lia]].
      rewrite Hk1. replace i with (S (i - 1)) at 1 by lia. by apply take_S_r. }
    rewrite lpart_snoc by done. rewrite !elem_of_app. right. right. by left. }
  assert (exists hi', (if decide (i = count_ n) then Ret upper else k ← vget (keys_ n) i; Ret (Some k)) = Ret hi' /\ below hi' (E c)) as (hi' & -> & Hhi').
  { case_decide as H0; [exists upper; split; [done|]; intros hi x Hl Hx; apply (Hhi hi x Hl); rewrite !elem_of_app; tauto|].
    destruct (vget_lt (keys_ n) i) as (k & Hk & ->); [lia|]. exists (Some k). split; [done|]. intros hi x [= <-] Hx. apply (sw_asym comp_). apply Hcr; [done|].
    rewrite Hil, (focus_lookup _ _ _ _ _ _ Hfo) in Hk. destruct ks2 as [|k' ks2]; [done|]. injection Hk as ->. by left. }
  rewrite !bind_Ret, Hg, bind_Ret, IH, bind_Ret by (done || lia || auto). apply IHm. lia.
Qed.

(** ** The height *)
Lemma length_inter E cs ks b : length cs = S (length ks) -> Forall (fun c => b <= S (length (E c))) cs -> S (length ks) * b <= S (length (inter (T := T) E cs ks)).
Proof.
  revert cs. induction ks as [|k ks IH]; intros [|c cs] Hl Hf; try done; apply Forall_cons in Hf as [Hc Hf]; cbn [inter]; [cbn; lia|]. rewrite length_app. cbn [length] in *. specialize (IH cs ltac:(lia) Hf). nia.
Qed.

Lemma keys_bound h : forall n, shape Order (S h) n -> S (count_ n) * Order ^ h <= S (length (elems (S h) n)).
Proof.
  induction h as [|h IH]; intros n (Hc & Hm & Hcs)%shape_split; destruct Hcs as [(Hh & Hlf & Hcs)|(Hh & Hlf & Hlen & Hall)]; try done.
  - cbn [elems]. rewrite Hcs. cbn [inter]. rewrite Nat.pow_0_r. lia.
  - change (elems (S (S h)) n) with (inter (elems (S h)) (children_ n) (keys_ n)). rewrite Hc. apply length_inter; [done|]. eapply Forall_impl; [exact Hall|]. intros c [Hcc Hsc]. specialize (IH c Hsc).
    rewrite Nat.pow_succ_r'. nia.
Qed.


(** ** The tree against a sorted bag *)
Definition tree_rep (t : BTree) (l : list T) : Prop :=
  wsorted comp_ l /\ size_ t = Z.of_nat (length l) /\
  match root_ t with
  | None => l = []
  | Some n => exists h, shape Order h n /\ 1 <= count_ n /\ elems h n = l
  end.

Inductive top := TInsert (key : T) | TRemove (key : T) | TContains (key : T) | TSize | TEmpty | TClear | TInorder | TMove.
Inductive tobs := ToDone | ToBool (b : bool) | ToSize (n : Z) | ToKeys (l : list T).

Definition tstep (t : BTree (T := T)) (op : top) : outcome (BTree * tobs) :=
  match op with
  | TInsert key => t ← insert comp_ Order t key; Ret (t, ToDone)
  | TRemove key => '(t, b) ← remove comp_ Order t key; Ret (t, ToBool b)
  | TContains key => b ← contains comp_ t key; Ret (t, ToBool b)
  | TSize => Ret (t, ToSize (size t))
  | TEmpty => Ret (t, ToBool (empty t))
  | TClear => Ret (clear t, ToDone)
  | TInorder => l ← inorder t; Ret (t, ToKeys l)
  | TMove => Ret ((btree_move t).1, ToDone)
  end.

(** A split moves up the key of the insertion, below the root: the new root is compared with it. *)
Definition insert_meets (t : BTree (T := T)) (key : T) : outcome bool :=
  match root_ t with
  | None => Ret false
  | Some root =>
    root ← (if isFull Order root then splitChild Order (mkNode [] [root] 0 false) 0 else Ret root);
    median_met (depth root) root key
  end.

Definition step_meets (t : BTree (T := T)) (op : top) : bool :=
  match op with TInsert key => match insert_meets t key with Ret b => b | _ => false end | _ => false end.

(** The bag before and after an operation, and what is observed.  A key that is present is added again only if a
    split moves it up ([met]), and then for certain while no key is present twice. *)
Definition bag_step (met : bool) (l : list T) (op : top) (l' : list T) (o : tobs) : Prop :=
  match op with
  | TInsert key => o = ToDone /\ ((l' = bins comp_ key l /\ (key ∉ l \/ met = true)) \/ (l' = l /\ key ∈ l /\ (NoDup l -> met = false)))
  | TRemove key => (key ∈ l /\ l' = bdel comp_ key l /\ o = ToBool true) \/ (~ key ∈ l /\ l' = l /\ o = ToBool false)
  | TContains key => l' = l /\ ((key ∈ l /\ o = ToBool true) \/ (~ key ∈ l /\ o = ToBool false))
  | TSize => l' = l /\ o = ToSize (Z.of_nat (length l))
  | TEmpty => l' = l /\ o = ToBool (bool_decide (length l = 0))
  | TClear => l' = [] /\ o = ToDone
  | TInorder => l' = l /\ o = ToKeys l
  | TMove => l' = l /\ o = ToDone
  end.

Fixpoint bag_run (mets : list bool) (l : list T) (ops : list top) (os : list tobs) (l' : list T) : Prop :=
  match mets, ops, os with
  | [], [], [] => l' = l
  | met :: mets, op :: ops, o :: os => exists l1, bag_step met l op l1 o /\ bag_run mets l1 ops os l'
  | _, _, _ => False
  end.

Lemma btree_insert_ok t l key : tree_rep t l -> (Z.of_nat (length l) < INT32_MAX)%Z -> exists t' l', insert comp_ Order t key = Ret t' /\ tree_rep t' l' /\ bag_step (step_meets t (TInsert key)) l (TInsert key) l' ToDone.
Proof.
  intros (Hs & Hz & Hrt) Hmax. unfold insert, bag_step, step_meets, insert_meets. destruct (root_ t) as [n|].
  - destruct Hrt as (h & Hsh & H1 & He). assert (exists h1 n1, (if isFull Order n then splitChild Order (mkNode [] [n] 0 false) 0 else Ret n) = Ret n1 /\ shape Order h1 n1 /\ 1 <= count_ n1 /\ count_ n1 < 2 * Order - 1 /\ elems h1 n1 = l) as (h1 & n1 & -> & Hsh1 & H2 & Hlt & He1).
    { destruct (isFull Order n) eqn:Ef.
      - apply bool_decide_eq_true in Ef. destruct (splitChild_ok h (mkNode [] [n] 0 false) [] n [] [] []) as (lo & m & r & Hsp & Hlo & Hr & Hclo & Hcr & Hel); [done|done|done|]. cbn [length app] in Hsp. rewrite Hsp.
        exists (S h), (mkNode [m] [lo; r] 1 false). split; [done|]. destruct h as [|h]; [done|]. split.
        + change (1 = 1 /\ 1 <= 2 * Order - 1 /\ false = false /\ 2 = 2 /\ Forall (fun c => Order - 1 <= count_ c /\ shape Order (S h) c) [lo; r]). split_and!; try done; [lia|]. rewrite !Forall_cons. split_and!; try done; lia.
        + split; [done|]. split; [cbn; lia|]. rewrite <- He, Hel. done.
      - exists h, n. apply bool_decide_eq_false in Ef. pose proof (shape_max _ _ _ Hsh). split; [done|]. split; [done|]. split; [done|]. split; [lia|done]. }
    rewrite !bind_Ret, Hz. destruct (computeHeight_ok h1 n1 Hsh1) as [_ ->]. destruct (insertNonFull_ok h1 h1 n1 key (Z.of_nat (length l))) as (n' & size' & -> & Hsh' & Hc' & Hins); [done|done|done|by rewrite He1|lia|].
    rewrite bind_Ret. rewrite He1 in Hins. eexists _, (elems h1 n'). split; [reflexivity|]. split.
    + split; [|split; [|exists h1; split; [done|]; split; [lia|done]]].
      * destruct Hins as [(-> & _)|(-> & _)]; [done|by apply bins_sorted; [apply _|]].
      * cbn [size_]. destruct Hins as [(-> & -> & _)|(-> & -> & _)]; [done|]. rewrite length_bins. lia.
    + split; [done|]. destruct Hins as [(-> & _ & Hin & Hd)|(-> & _ & Hn)]; [right; split; [done|]; split; [done|]|left; split; [done|]].
      * intros Hnd. specialize (Hd Hnd). destruct (median_met h1 n1 key) as [[]| | |]; done.
      * destruct Hn as [Hn| ->]; auto.
  - subst l. rewrite Hz. cbn [length]. rewrite add32_in, bind_Ret by done. eexists _, [key]. split; [reflexivity|]. split; [|split; [done|]; left; split; [done|left; apply not_elem_of_nil]]. split; [by repeat constructor|]. split; [done|]. exists 1. cbn. split_and!; done || lia.
Qed.

Lemma btree_remove_ok t l key : tree_rep t l -> (Z.of_nat (length l) <= INT32_MAX)%Z -> exists t' b l', remove comp_ Order t key = Ret (t', b) /\ tree_rep t' l' /\ bag_step false l (TRemove key) l' (ToBool b).
Proof.
  intros (Hs & Hz & Hrt) Hmax. unfold remove. destruct (root_ t) as [n|] eqn:Et.
  - destruct Hrt as (h & Hsh & H1 & He). rewrite Hz. destruct (computeHeight_ok h n Hsh) as [_ ->]. destruct (removeFromNode_ok h h n key (Z.of_nat (length l))) as (n' & size' & -> & Hsh' & Hc' & Hrem); [done|done|done|by rewrite He|lia|].
    rewrite bind_Ret. rewrite He in Hrem.
    assert (wsorted comp_ (elems h n') /\ size' = Z.of_nat (length (elems h n'))) as [Hs' Hz'].
    { destruct Hrem as [(Hin & -> & ->)|(_ & -> & ->)]; [|done]. split; [by apply bdel_sorted; [apply _|]|]. pose proof (length_bdel comp_ key l Hs Hin). lia. }
    eexists _, _, (elems h n'). split; [reflexivity|]. split.
    + split; [done|]. split; [done|]. cbn [root_]. case_decide as H0; [|exists h; split; [done|]; split; [lia|done]]. destruct h as [|h]; [done|]. apply shape_split in Hsh' as (Hcn & _ & [(-> & -> & Hcs)|(Hh & -> & Hlen & Hall)]).
      * cbn. rewrite Hcs. destruct (keys_ n'); [done|cbn in *; lia].
      * destruct (keys_ n') as [|? ?] eqn:Ek; [|cbn in *; lia]. destruct (children_ n') as [|c [|? ?]] eqn:Ech; try done. apply Forall_cons in Hall as [[Hcc Hsc] _]. exists h. split; [done|]. split; [lia|]. cbn. by rewrite Ech, Ek.
    + cbn. destruct Hrem as [(Hin & -> & ->)|(Hnin & -> & ->)]; [left|right]; (split; [done|]; split; [done|]); [by rewrite bool_decide_false by lia|by rewrite bool_decide_true].
  - subst l. eexists t, false, []. split; [done|]. split; [split; [done|]; split; [done|by rewrite Et]|]. right. split; [apply not_elem_of_nil|done].
Qed.

Lemma contains_ok t l key : tree_rep t l -> exists b, contains comp_ t key = Ret b /\ (if b : bool then key ∈ l else ~ key ∈ l).
Proof.
  intros (Hs & _ & Hrt). unfold contains. destruct (root_ t) as [n|]; [|subst l; exists false; split; [done|apply not_elem_of_nil]].
  destruct Hrt as (h & Hsh & _ & <-). destruct (computeHeight_ok h n Hsh) as [_ ->]. by apply btree_contains_loop_ok.
Qed.

Lemma inorder_ok t l : tree_rep t l -> inorder t = Ret l.
Proof.
  intros (Hs & _ & Hrt). unfold inorder. destruct (root_ t) as [n|]; [|by subst l]. destruct Hrt as (h & Hsh & _ & <-). destruct (computeHeight_ok h n Hsh) as [_ ->]. exact (inorder_node_ok h h n [] (le_n h) Hsh).
Qed.

Lemma btree_tstep_ok t l op : tree_rep t l -> (Z.of_nat (length l) < INT32_MAX)%Z -> exists t' o l', tstep t op = Ret (t', o) /\ tree_rep t' l' /\ bag_step (step_meets t op) l op l' o /\ length l' <= S (length l).
Proof.
  intros HR Hmax. destruct op as [key|key|key| | | | |]; cbn [tstep].
  - destruct (btree_insert_ok t l key HR Hmax) as (t' & l' & -> & HR' & Hl). exists t', ToDone, l'. rewrite bind_Ret. split; [done|]. split; [done|]. split; [done|]. destruct Hl as (_ & [[-> _]|[-> _]]); [by rewrite length_bins|lia].
  - destruct (btree_remove_ok t l key HR ltac:(lia)) as (t' & b & l' & -> & HR' & Hl). exists t', (ToBool b), l'. rewrite bind_Ret. split; [done|]. split; [done|]. split; [done|]. destruct HR as (Hs & _).
    destruct Hl as [(Hin & -> & _)|(_ & -> & _)]; [pose proof (length_bdel comp_ key l Hs Hin); lia|lia].
  - destruct (contains_ok t l key HR) as (b & -> & Hb). exists t, (ToBool b), l. rewrite bind_Ret. split; [done|]. split; [done|]. split; [|lia]. split; [done|]. destruct b; auto.
  - destruct HR as (Hs & Hz & Hrt). exists t, (ToSize (size t)), l. unfold size. rewrite Hz. split_and!; done || lia.
  - pose proof HR as (_ & Hz & _). exists t, (ToBool (empty t)), l. split; [done|]. split; [done|]. split; [|lia]. split; [done|]. unfold empty. rewrite Hz. do 2 f_equal. apply bool_decide_ext. lia.
  - exists (clear t), ToDone, []. split; [done|]. split; [split; [constructor|done]|]. split; [done|cbn; lia].
  - exists t, (ToKeys l), l. rewrite (inorder_ok t l HR), bind_Ret. split_and!; done || lia.
  - exists t, ToDone, l. split_and!; done || lia.
Qed.

Fixpoint run (t : BTree (T := T)) (ops : list top) : outcome (BTree * list tobs) :=
  match ops with [] => Ret (t, []) | op :: ops => '(t, o) ← tstep t op; '(t, os) ← run t ops; Ret (t, o :: os) end.

(** For every operation of the run, whether a split moves up the key that it inserts. *)
Fixpoint run_meets (t : BTree (T := T)) (ops : list top) : list bool :=
  match ops with [] => [] | op :: ops => step_meets t op :: match tstep t op with Ret (t', _) => run_meets t' ops | _ => [] end end.

Lemma run_ok ops : forall t l, tree_rep t l -> (Z.of_nat (length l + length ops) <= INT32_MAX)%Z -> exists t' os l', run t ops = Ret (t', os) /\ tree_rep t' l' /\ bag_run (run_meets t ops) l ops os l'.
Proof.
  induction ops as [|op ops IH]; intros t l HR Hmax; [by exists t, [], l|]. cbn [length] in Hmax. cbn [run run_meets]. destruct (btree_tstep_ok t l op HR) as (t1 & o & l1 & -> & HR1 & Hb & Hl); [lia|]. rewrite bind_Ret.
  destruct (IH t1 l1 HR1) as (t' & os & l' & -> & HR' & Hbs); [lia|]. exists t', (o :: os), l'. split; [done|]. split; [done|]. by exists l1.
Qed.

(** C25: Over a strict total order of the keys and for an order of at least two, every sequence of fewer than [2^31] insertions, removals and queries on a new B-tree is defined and observes a sorted bag: no access is out of range
    and [size_] does not overflow.  The insertion of a key that is present has no effect, unless a split on its way, below the root, moves that key up
    ([run_meets]); then it is added again, for certain while no key is present twice.  At the end the keys are in order. *)
Theorem btree_refines ops : (Z.of_nat (length ops) <= INT32_MAX)%Z ->
  exists t os l, run btree_new ops = Ret (t, os) /\ bag_run (run_meets btree_new ops) [] ops os l /\ inorder t = Ret l /\ size t = Z.of_nat (length l) /\ wsorted comp_ l.
Proof.
  intros Hmax. destruct (run_ok ops btree_new []) as (t & os & l & Hr & HR & Hb); [split; [constructor|done]|done|]. exists t, os, l. split; [done|]. split; [done|]. split; [by apply inorder_ok|]. by destruct HR as (Hs & Hz & _).
Qed.

(** The tree stays balanced: after any sequence of operations the leaves are at one depth [h], which [height] returns, and a tree with keys has at least
    [2 * Order ^ (h - 1) - 1] of them; [verify] accepts the tree when no key occurs twice. *)
Theorem btree_balanced ops : (Z.of_nat (length ops) <= INT32_MAX)%Z ->
  exists t os h, run btree_new ops = Ret (t, os) /\ height t = Ret h /\ (h = 0 <-> size t = 0%Z) /\ (0 < h -> (2 * Z.of_nat Order ^ (Z.of_nat h - 1) <= size t + 1)%Z) /\
    (forall l, inorder t = Ret l -> NoDup l -> verify comp_ Order t = Ret true).
Proof.
  intros Hmax. destruct (run_ok ops btree_new []) as (t & os & l & Hr & HR & _); [split; [constructor|done]|done|]. exists t, os. pose proof (inorder_ok t l HR) as Hin. destruct HR as (Hs & Hz & Hrt). unfold height, size, verify. rewrite Hz.
  destruct (root_ t) as [n|]; [|subst l; exists 0; split_and!; done || lia]. destruct Hrt as (h & Hsh & H1 & He). destruct (computeHeight_ok h n Hsh) as [-> ->]. exists h. split; [done|]. split; [done|].
  destruct h as [|h]; [done|]. pose proof (keys_bound h n Hsh) as Hb. rewrite He in Hb. assert (0 < Order ^ h) as Hpos by (apply Nat.neq_0_lt_0, Nat.pow_nonzero; lia). split; [split; nia|]. split.
  - intros _. replace (Z.of_nat (S h) - 1)%Z with (Z.of_nat h) by lia. rewrite <- Nat2Z.inj_pow. nia.
  - intros l'. rewrite Hin. intros [= <-] Hnd. apply (btree_verifyNode_ok (S h)); [done|done|by left| |done|done]. rewrite He. clear -Hs Hnd StrictTotal0. induction l as [|x l IH]; [constructor|].
    apply NoDup_cons in Hnd as [Hx Hnd]. apply wsorted_cons in Hs as [Hle Hs]. constructor; [by apply IH|]. apply Forall_forall. intros y Hy. destruct (comp_ x y) eqn:E; [done|]. specialize (Hle y Hy).
    by rewrite (st_total x y E Hle) in Hx.
Qed.
End insertion.

(** The median that a split moves up is not compared for equality: the key is inserted again below it, and its removal leaves the other copy. *)
Definition insert_all (keys : list nat) : outcome (BTree (T := nat)) := foldl (fun t k => t ← t; insert Nat.ltb 2 t k) (Ret btree_new) keys.

Lemma btree_duplicate : (t ← insert_all [1; 2; 3; 4; 5; 6; 7; 6]; l ← inorder t; v ← verify Nat.ltb 2 t; '(t', _) ← remove Nat.ltb 2 t 6; b ← contains Nat.ltb t' 6; Ret (l, size t, v, b)) =
  Ret ([1; 2; 3; 4; 5; 6; 6; 7], 8%Z, true, true).
Proof. vm_compute. reflexivity. Qed.

(** Only the last insertion is met by its key: the third and the fourth find it in a leaf and in the root. *)
Lemma btree_duplicate_met : run_meets Nat.ltb 2 btree_new (TInsert <$> [1; 2; 2; 3; 2; 4; 5; 6; 7; 6]) = [false; false; false; false; false; false; false; false; false; true].
Proof. vm_compute. reflexivity. Qed.

(** [verify] does not compare the depths of the leaves. *)
Lemma verify_ignores_depth :
  verify Nat.ltb 2 (mkBTree (Some (mkNode [5] [mkNode [1] [] 1 true; mkNode [7] [mkNode [6] [] 1 true; mkNode [8] [] 1 true] 1 false] 1 false)) 5) = Ret true.
Proof. vm_compute. reflexivity. Qed.

Section btree_witnesses.
#[local] Definition sample_tops : list (top (T := nat)) :=
  (TInsert <$> [5; 3; 8; 1; 4; 7; 9; 2; 6; 10; 11; 12; 0; 4]) ++ [TContains 4; TRemove 8; TRemove 1; TRemove 13; TSize; TInorder; TMove] ++ (TRemove <$> [5; 4; 0; 2; 3]) ++ [TInorder; TEmpty; TContains 3].

Lemma btree_refines_witness : exists t os l, run Nat.ltb 2 btree_new sample_tops = Ret (t, os) /\ bag_run Nat.ltb (run_meets Nat.ltb 2 btree_new sample_tops) [] sample_tops os l /\ inorder t = Ret l /\ size t = Z.of_nat (length l) /\ wsorted Nat.ltb l.
Proof. apply (btree_refines Nat.ltb 2); [lia|]. unfold INT32_MAX. cbn. lia. Defined.

Lemma btree_balanced_witness : exists t os h, run Nat.ltb 2 btree_new sample_tops = Ret (t, os) /\ height t = Ret h /\ (h = 0 <-> size t = 0%Z) /\ (0 < h -> (2 * Z.of_nat 2 ^ (Z.of_nat h - 1) <= size t + 1)%Z) /\
  (forall l, inorder t = Ret l -> NoDup l -> verify Nat.ltb 2 t = Ret true).
Proof. apply (btree_balanced Nat.ltb 2); [lia|]. unfold INT32_MAX. cbn. lia. Defined.
End btree_witnesses.
