(* ===== verification/MichaelScottQueue.v ===== *)
(** * The Michael-Scott queue ([data_structure/concurrent/MichaelScottQueue.hpp])

    Any number of threads call [enqueue] and [try_dequeue] on one object, as
    interleavings of their accesses, in the manner of [TreiberStack], whose packed
    pointers, nodes and free pool (the same code) are used here.

    One thread at a time, whatever compare-exchanges fail, nodes are recycled and
    constructors throw, the object is a first-in first-out queue.  With two threads it is not: the word
    [next] carries no tag, and a node that went through the free pool has a null [next] while it is in
    it, so that an [enqueue] that was overtaken can link its node to one that has left
    the queue.  An execution shows the lost element, and that no order of the
    operations explains what the threads observe.

    Executions are sequentially consistent. *)

From S2P Require Import Prelude TreiberStack.

#[local] Set Warnings "-register-all".
Local Open Scope Z_scope.

(** [pool_head_] is [free_head_] and [count_] is [size_]; [nodes] is the heap. *)
Record queue (T : Type) := mkQueue { head_ : Z; tail_ : Z; pool_head_ : Z; count_ : Z; nodes : gmap Z (Node T) }.
Arguments mkQueue {T} head_ tail_ pool_head_ count_ nodes.
Arguments head_ {T} q.
Arguments tail_ {T} q.
Arguments pool_head_ {T} q.
Arguments count_ {T} q.
Arguments nodes {T} q.

(** [MichaelScottQueue()]; [new] returns [dummy]. *)
Definition queue_new {T} (dummy : Z) : queue T := mkQueue (pack_ptr dummy 0) (pack_ptr dummy 0) 0 0 {[ dummy := mkNode None 0 ]}.

Inductive op (T : Type) := Enqueue (value : T) | Dequeue.
Arguments Enqueue {T} value.
Arguments Dequeue {T}.

Inductive result (T : Type) := Enqueued | Dequeued (v : option T) | Threw.
Arguments Enqueued {T}.
Arguments Dequeued {T} v.
Arguments Threw {T}.

(** Where a thread is in [enqueue]; [expected] is 0 at [EqLink]. *)
Inductive enqueue_pc (T : Type) :=
| EqPool (value : T) (q : pop_free_pc)
| EqNew (value : T)
| EqEmplace (value : T) (node : Z)
| EqConstruct (value : T) (node : Z)
| EqRecover (value : T) (node : Z) (q : push_free_pc)
| EqTail (node : Z)
| EqNext (node tail : Z)
| EqCheck (node tail next : Z)
| EqLink (node tail : Z)
| EqCount (node tail : Z)
| EqSwing (node tail : Z)
| EqHelp (node tail next : Z).
Arguments EqPool {T} value q.
Arguments EqNew {T} value.
Arguments EqEmplace {T} value node.
Arguments EqConstruct {T} value node.
Arguments EqRecover {T} value node q.
Arguments EqTail {T} node.
Arguments EqNext {T} node tail.
Arguments EqCheck {T} node tail next.
Arguments EqLink {T} node tail.
Arguments EqCount {T} node tail.
Arguments EqSwing {T} node tail.
Arguments EqHelp {T} node tail next.

Inductive dequeue_pc (T : Type) :=
| DqHead
| DqTail (head : Z)
| DqNext (head tail : Z)
| DqCheck (head tail next : Z)
| DqHelp (tail next : Z)
| DqHasValue (head next : Z)
| DqCopy (head next : Z)
| DqCas (head next : Z) (extracted_value : option T)
| DqTake (node next : Z)
| DqRecycle (node : Z) (extracted_value : T) (q : push_free_pc)
| DqCount (extracted_value : T).
Arguments DqHead {T}.
Arguments DqTail {T} head.
Arguments DqNext {T} head tail.
Arguments DqCheck {T} head tail next.
Arguments DqHelp {T} tail next.
Arguments DqHasValue {T} head next.
Arguments DqCopy {T} head next.
Arguments DqCas {T} head next extracted_value.
Arguments DqTake {T} node next.
Arguments DqRecycle {T} node extracted_value q.
Arguments DqCount {T} extracted_value.

Inductive pc (T : Type) := Idle | Enqueuing (q : enqueue_pc T) | Dequeuing (q : dequeue_pc T).
Arguments Idle {T}.
Arguments Enqueuing {T} q.
Arguments Dequeuing {T} q.

Section operations.
Context {T : Type} (copyable : bool) (moved_from : T -> T).
Implicit Types (s : queue T) (c : choice).

Definition set_head s w : queue T := mkQueue w (tail_ s) (pool_head_ s) (count_ s) (nodes s).
Definition set_tail s w : queue T := mkQueue (head_ s) w (pool_head_ s) (count_ s) (nodes s).
Definition set_count s z : queue T := mkQueue (head_ s) (tail_ s) (pool_head_ s) z (nodes s).
Definition put_node s n nd : queue T := mkQueue (head_ s) (tail_ s) (pool_head_ s) (count_ s) (<[n := nd]> (nodes s)).
Definition load_node s n : outcome (Node T) := match nodes s !! n with Some nd => Ret nd | None => Undef end.

Definition put_next s n w : outcome (queue T) := nd ← load_node s n; Ret (put_node s n (mkNode (value nd) w)).
Definition put_value s n v : outcome (queue T) := nd ← load_node s n; Ret (put_node s n (mkNode v (next nd))).

(** The free pool with the nodes, on which the code of [TreiberStack] runs. *)
Definition pool_of s : stack T := mkStack 0 (pool_head_ s) 0 (nodes s).
Definition with_pool s (p : stack T) : queue T := mkQueue (head_ s) (tail_ s) (free_head_ p) (count_ s) (store p).

Definition pool_pop c s (q : pop_free_pc) : outcome (queue T * (pop_free_pc + Z)) :=
  '(p, r) ← pop_free_node c (pool_of s) q; Ret (with_pool s p, r).
Definition pool_push c s (node : Z) (q : push_free_pc) : outcome (queue T * option push_free_pc) :=
  '(p, r) ← push_free_node c (pool_of s) node q; Ret (with_pool s p, r).

(** A word with the pointer and one more than the tag of another. *)
Definition bump (ptr w : Z) : Z := pack_ptr ptr (u16 (unpack_tag w + 1)).

(** One access of [enqueue]; [emplace] first destroys the old value of the optional. *)
Definition enqueue c s (q : enqueue_pc T) : outcome (queue T * (enqueue_pc T + result T)) :=
  match q with
  | EqPool v q =>
    '(s, r) ← pool_pop c s q;
    Ret (s, inl (match r with inl q => EqPool v q | inr node => if decide (node = 0) then EqNew v else EqEmplace v node end))
  | EqNew v => if throws c then Ret (s, inr Threw) else Ret (put_node s (new_at c) (mkNode None 0), inl (EqEmplace v (new_at c)))
  | EqEmplace v node => s ← put_value s node None; Ret (s, inl (EqConstruct v node))
  | EqConstruct v node =>
    if throws c then Ret (s, inl (EqRecover v node FrLoad)) else s ← put_value s node (Some v); Ret (s, inl (EqTail node))
  | EqRecover v node q =>
    '(s, r) ← pool_push c s node q;
    Ret (s, match r with Some q => inl (EqRecover v node q) | None => inr Threw end)
  | EqTail node => Ret (s, inl (EqNext node (tail_ s)))
  | EqNext node tail => nd ← load_node s (unpack_ptr tail); Ret (s, inl (EqCheck node tail (next nd)))
  | EqCheck node tail nx =>
    Ret (s, inl (if decide (tail_ s = tail) then (if decide (unpack_ptr nx = 0) then EqLink node tail else EqHelp node tail nx) else EqTail node))
  | EqLink node tail =>
    nd ← load_node s (unpack_ptr tail);
    match compare_exchange_weak c (next nd) 0 (pack_ptr node 0) with
    | inl w => s ← put_next s (unpack_ptr tail) w; Ret (s, inl (EqCount node tail))
    | inr _ => Ret (s, inl (EqTail node))
    end
  | EqCount node tail => Ret (set_count s (u64 (count_ s + 1)), inl (EqSwing node tail))
  | EqSwing node tail =>
    match compare_exchange_weak c (tail_ s) tail (bump node tail) with
    | inl w => Ret (set_tail s w, inr Enqueued)
    | inr _ => Ret (s, inr Enqueued)
    end
  | EqHelp node tail nx =>
    match compare_exchange_weak c (tail_ s) tail (bump (unpack_ptr nx) tail) with
    | inl w => Ret (set_tail s w, inl (EqTail node))
    | inr _ => Ret (s, inl (EqTail node))
    end
  end.

(** One access of [try_dequeue], with both branches of its [if constexpr]. *)
Definition try_dequeue c s (q : dequeue_pc T) : outcome (queue T * (dequeue_pc T + result T)) :=
  match q with
  | DqHead => Ret (s, inl (DqTail (head_ s)))
  | DqTail head => Ret (s, inl (DqNext head (tail_ s)))
  | DqNext head tail => nd ← load_node s (unpack_ptr head); Ret (s, inl (DqCheck head tail (next nd)))
  | DqCheck head tail nx =>
    if decide (head_ s = head) then
      if decide (unpack_ptr head = unpack_ptr tail) then
        if decide (unpack_ptr nx = 0) then Ret (s, inr (Dequeued None)) else Ret (s, inl (DqHelp tail nx))
      else Ret (s, inl (if copyable then DqHasValue head nx else DqCas head nx None))
    else Ret (s, inl DqHead)
  | DqHelp tail nx =>
    match compare_exchange_weak c (tail_ s) tail (bump (unpack_ptr nx) tail) with
    | inl w => Ret (set_tail s w, inl DqHead)
    | inr _ => Ret (s, inl DqHead)
    end
  | DqHasValue head nx =>
    nd ← load_node s (unpack_ptr nx);
    Ret (s, inl (match value nd with Some _ => DqCopy head nx | None => DqHead end))
  | DqCopy head nx =>
    nd ← load_node s (unpack_ptr nx);
    match value nd with
    | Some x => if throws c then Ret (s, inr Threw) else Ret (s, inl (DqCas head nx (Some x)))
    | None => Undef
    end
  | DqCas head nx extracted =>
    match compare_exchange_weak c (head_ s) head (bump (unpack_ptr nx) head) with
    | inl w =>
      Ret (set_head s w, inl (match extracted with
                              | Some x => DqRecycle (unpack_ptr head) x FrLoad
                              | None => DqTake (unpack_ptr head) nx
                              end))
    | inr _ => Ret (s, inl DqHead)
    end
  | DqTake node nx =>
    nd ← load_node s (unpack_ptr nx);
    match value nd with
    | None => Ret (s, inl DqHead)
    | Some x => s ← put_value s (unpack_ptr nx) (Some (moved_from x)); Ret (s, inl (DqRecycle node x FrLoad))
    end
  | DqRecycle node x q =>
    '(s, r) ← pool_push c s node q;
    Ret (s, inl (match r with Some q => DqRecycle node x q | None => DqCount x end))
  | DqCount x => Ret (set_count s (u64 (count_ s - 1)), inr (Dequeued (Some x)))
  end.

Definition queue_size s : Z := count_ s.
Definition queue_empty s : bool := bool_decide (count_ s = 0).

(** The nodes left after the destructor. *)
Definition destroy_queue s : outcome (gmap Z (Node T)) :=
  let fuel := S (base.size (nodes s)) in st ← destroy_list fuel (nodes s) (head_ s); destroy_list fuel st (pool_head_ s).

(** The move constructor and assignment (to another object); [new] returns [dummy]. *)
Definition queue_move (dummy : Z) (other : queue T) : queue T * queue T := (other, queue_new dummy).
Definition queue_move_assign (dummy : Z) s (other : queue T) : outcome (queue T * queue T) := _ ← destroy_queue s; Ret (queue_move dummy other).

(** One access of the call a thread is in; it is idle again when the call ends. *)
Definition qstep c s (p : pc T) : outcome (queue T * pc T * option (result T)) :=
  match p with
  | Idle => Undef
  | Enqueuing q => '(s, r) ← enqueue c s q; Ret (match r with inl q => (s, Enqueuing q, None) | inr r => (s, Idle, Some r) end)
  | Dequeuing q => '(s, r) ← try_dequeue c s q; Ret (match r with inl q => (s, Dequeuing q, None) | inr r => (s, Idle, Some r) end)
  end.

Definition start (o : op T) : pc T := match o with Enqueue v => Enqueuing (EqPool v PfLoad) | Dequeue => Dequeuing DqHead end.

(** ** Executions *)
Record sys := mkSys { obj : queue T; threads : list (pc T) }.

Inductive event := Call (t : nat) (o : op T) | Return (t : nat) (r : result T).

(** [new] returns a fresh user-space address. *)
Definition alloc_ok c s (p : pc T) : Prop :=
  match p with Enqueuing (EqNew _) => 0 < new_at c < 2 ^ 48 /\ nodes s !! new_at c = None | _ => True end.

Inductive step (t : nat) : sys -> option event -> sys -> Prop :=
| step_call s ths o :
  ths !! t = Some Idle -> step t (mkSys s ths) (Some (Call t o)) (mkSys s (<[t := start o]> ths))
| step_run s ths p c s' p' r :
  ths !! t = Some p -> alloc_ok c s p -> qstep c s p = Ret (s', p', r) ->
  step t (mkSys s ths) (Return t <$> r) (mkSys s' (<[t := p']> ths)).

(** The executions of [n] threads on a new queue, with their histories. *)
Inductive exec (n : nat) : list event -> sys -> Prop :=
| exec_init dummy : 0 < dummy < 2 ^ 48 -> exec n [] (mkSys (queue_new dummy) (replicate n Idle))
| exec_step t evs S e S' : exec n evs S -> step t S e S' -> exec n (evs ++ option_list e) S'.

(** ** The specification: an atomic queue

    A call is pending until it takes effect, in one step, between its call and its return; it may
    also end by an exception without effect. *)
Inductive status := SIdle | SPending (o : op T) | SDone (r : result T).

Inductive atomic (n : nat) : list event -> list T -> list status -> Prop :=
| atomic_init : atomic n [] [] (replicate n SIdle)
| atomic_call t o evs l sts :
  atomic n evs l sts -> sts !! t = Some SIdle -> atomic n (evs ++ [Call t o]) l (<[t := SPending o]> sts)
| atomic_enqueue t v evs l sts :
  atomic n evs l sts -> sts !! t = Some (SPending (Enqueue v)) -> atomic n evs (l ++ [v]) (<[t := SDone Enqueued]> sts)
| atomic_dequeue t x evs l sts :
  atomic n evs (x :: l) sts -> sts !! t = Some (SPending Dequeue) -> atomic n evs l (<[t := SDone (Dequeued (Some x))]> sts)
| atomic_dequeue_empty t evs sts :
  atomic n evs [] sts -> sts !! t = Some (SPending Dequeue) -> atomic n evs [] (<[t := SDone (Dequeued None)]> sts)
| atomic_throw t o evs l sts :
  atomic n evs l sts -> sts !! t = Some (SPending o) -> atomic n evs l (<[t := SDone Threw]> sts)
| atomic_return t r evs l sts :
  atomic n evs l sts -> sts !! t = Some (SDone r) -> atomic n (evs ++ [Return t r]) l (<[t := SIdle]> sts).
End operations.

(** ** One thread at a time *)
Section sequential.
Context {T : Type} (copyable : bool) (moved_from : T -> T).
Implicit Types (s : queue T) (h : gmap Z (Node T)) (l : list T) (ns fs own : list Z).

(** The nodes from a word on; the last one has a null [next] without a tag. *)
Fixpoint links h (w : Z) ns : Prop :=
  match ns with
  | [] => w = 0
  | a :: ns => unpack_ptr w = a /\ exists nd, h !! a = Some nd /\ links h (next nd) ns
  end.

Definition holds h (a : Z) (v : T) : Prop := exists w, h !! a = Some (mkNode (Some v) w).

(** A queue: the dummy [d], the nodes [ns] of its elements, the pool [fs], and the nodes the running call owns. *)
Record rep s (d : Z) ns fs own l : Prop := {
  rp_chain : links (nodes s) (head_ s) (d :: ns);
  rp_tail : exists pre suf, d :: ns = pre ++ unpack_ptr (tail_ s) :: suf /\ (length suf <= 1)%nat;
  rp_vals : Forall2 (holds (nodes s)) ns l;
  rp_pool : chain (nodes s) (pool_head_ s) fs;
  rp_nodup : NoDup (d :: ns ++ fs ++ own);
  rp_dom : dom (nodes s) = list_to_set (d :: ns ++ fs ++ own);
  rp_range : forall a, a ∈ d :: ns ++ fs ++ own -> 0 < a < 2 ^ 48;
}.

Lemma links_frame h h' ns : forall w, (forall a, a ∈ ns -> h' !! a = h !! a) -> links h w ns -> links h' w ns.
Proof.
  induction ns as [|a ns IH]; intros w Hf; cbn [links]; [done|]. intros (Hw & nd & Hnd & Hl). split; [done|]. exists nd. rewrite Hf by by left. split; [done|]. apply IH; [|done]. intros b Hb. apply Hf. by right.
Qed.

Lemma links_ptr h w w' a ns : unpack_ptr w = unpack_ptr w' -> links h w (a :: ns) -> links h w' (a :: ns).
Proof. intros Hw. cbn [links]. by rewrite Hw. Qed.

(** The last node gets a successor. *)
Lemma links_snoc h (l1 : list Z) (w n : Z) (nd : Node T) : forall w0, 0 < n < 2 ^ 48 -> (n ∉ l1 ++ [w]) -> NoDup (l1 ++ [w]) -> links h w0 (l1 ++ [w]) -> h !! w = Some nd -> (exists v, h !! n = Some (mkNode v 0)) ->
  next nd = 0 /\ links (<[w := mkNode (value nd) (pack_ptr n 0)]> h) w0 (l1 ++ [w; n]).
Proof.
  induction l1 as [|b l1 IH]; intros w0 Hn Hnot Hnd Hl Hw [v Hv]; cbn [app links] in *.
  - destruct Hl as (Ha & nd' & Hnd' & H0). rewrite Hw in Hnd'. injection Hnd' as <-. split; [done|]. split; [done|]. exists (mkNode (value nd) (pack_ptr n 0)). split; [apply lookup_insert_eq|]. cbn.
    split; [apply unpack_pack_ptr; lia|]. exists (mkNode v 0). split; [|done]. rewrite lookup_insert_ne; [done|]. intros ->. set_solver.
  - destruct Hl as (Ha & nd' & Hnd' & Hl). apply NoDup_cons in Hnd as [Hb Hnd]. destruct (IH (next nd') Hn ltac:(set_solver) Hnd Hl Hw ltac:(by exists v)) as [H0 Hl']. split; [done|]. split; [done|]. exists nd'. split; [|done].
    rewrite lookup_insert_ne; [done|]. intros ->. set_solver.
Qed.

Lemma holds_frame h h' ns l : (forall a, a ∈ ns -> h' !! a = h !! a) -> Forall2 (holds h) ns l -> Forall2 (holds h') ns l.
Proof.
  intros Hf H. induction H as [|a v ns l [w Hw] _ IH]; [done|]. constructor; [exists w; rewrite Hf by (by left); done|]. apply IH. intros b Hb. apply Hf. by right.
Qed.

(** A word written to [next] leaves the value. *)
Lemma holds_keep h ns l (t w' : Z) nd : Forall2 (holds h) ns l -> h !! t = Some nd -> Forall2 (holds (<[t := mkNode (value nd) w']> h)) ns l.
Proof.
  intros H Ht. induction H as [|a x ns l [w Hw] _ IH]; [done|]. constructor; [|done]. destruct (decide (a = t)) as [->|Ha]; [|exists w; by rewrite lookup_insert_ne by done].
  rewrite Hw in Ht. injection Ht as <-. eexists. apply lookup_insert_eq.
Qed.

Lemma own_out d ns fs own n : NoDup (d :: ns ++ fs ++ own) -> n ∈ own -> n ∉ d :: ns ++ fs.
Proof. intros Hd Hn Hin. rewrite (assoc_L (++)), app_comm_cons in Hd. apply NoDup_app in Hd as (_ & Hd & _). by apply (Hd n). Qed.

Lemma insert_out h n (nd : Node T) (X : list Z) : n ∉ X -> forall a, a ∈ X -> <[n := nd]> h !! a = h !! a.
Proof. intros Hn a Ha. apply lookup_insert_ne. by intros ->. Qed.

(** A write to a node of the running call, or to the optional of the dummy. *)
Lemma rep_own_put s d ns fs own l n nd : rep s d ns fs own l -> n ∈ own -> rep (put_node s n nd) d ns fs own l.
Proof.
  intros [] Hn. pose proof (insert_out (nodes s) n nd _ (own_out _ _ _ _ _ rp_nodup0 Hn)) as Hne.
  split; cbn [put_node head_ tail_ pool_head_ nodes]; try done.
  - eapply links_frame; [|done]. intros a Ha. apply Hne. set_solver.
  - eapply holds_frame; [|done]. intros a Ha. apply Hne. set_solver.
  - eapply stack_chain_frame; [|done]. intros a Ha. apply Hne. set_solver.
  - rewrite dom_insert_L, rp_dom0. set_solver.
Qed.

Lemma rep_dummy_put s d ns fs own l nd v : rep s d ns fs own l -> nodes s !! d = Some nd -> rep (put_node s d (mkNode v (next nd))) d ns fs own l.
Proof.
  intros [] Hd. pose proof rp_nodup0 as [Hdn _]%NoDup_cons. pose proof (insert_out (nodes s) d (mkNode v (next nd)) (ns ++ fs ++ own) Hdn) as Hne.
  split; cbn [put_node head_ tail_ pool_head_ nodes]; try done.
  - cbn [links] in *. destruct rp_chain0 as (Hw & nd' & Hnd' & Hl). rewrite Hd in Hnd'. injection Hnd' as <-. split; [done|]. eexists. split; [apply lookup_insert_eq|]. eapply links_frame; [|exact Hl]. intros a Ha. apply Hne. set_solver.
  - eapply holds_frame; [|done]. intros a Ha. apply Hne. set_solver.
  - eapply stack_chain_frame; [|done]. intros a Ha. apply Hne. set_solver.
  - rewrite dom_insert_L, rp_dom0. set_solver.
Qed.

(** A node of the pool becomes the call's, and back. *)
Lemma rep_pool_take s d ns a fs l w : rep s d ns (a :: fs) [] l -> chain (nodes s) w fs -> rep (mkQueue (head_ s) (tail_ s) w (count_ s) (nodes s)) d ns fs [a] l.
Proof.
  intros [] Hw. assert (d :: ns ++ fs ++ [a] ≡ₚ d :: ns ++ (a :: fs) ++ []) as HP by (rewrite app_nil_r; do 2 f_equiv; symmetry; apply Permutation_cons_append).
  split; cbn [head_ tail_ pool_head_ nodes]; try done.
  - by rewrite HP.
  - rewrite rp_dom0. by rewrite HP.
  - intros b Hb. apply rp_range0. by rewrite <- HP.
Qed.

Lemma rep_pool_give s d ns a fs l w : rep s d ns fs [a] l -> chain (nodes s) w (a :: fs) -> rep (mkQueue (head_ s) (tail_ s) w (count_ s) (nodes s)) d ns (a :: fs) [] l.
Proof.
  intros [] Hw. assert (d :: ns ++ fs ++ [a] ≡ₚ d :: ns ++ (a :: fs) ++ []) as HP by (rewrite app_nil_r; do 2 f_equiv; symmetry; apply Permutation_cons_append).
  split; cbn [head_ tail_ pool_head_ nodes]; try done.
  - by rewrite <- HP.
  - rewrite rp_dom0. by rewrite HP.
  - intros b Hb. apply rp_range0. by rewrite HP.
Qed.

Lemma rep_count s d ns fs own l z : rep s d ns fs own l -> rep (set_count s z) d ns fs own l.
Proof. by intros []. Qed.

Lemma rep_tail_set s d ns fs own l w pre a suf : rep s d ns fs own l -> d :: ns = pre ++ a :: suf -> unpack_ptr w = a -> (length suf <= 1)%nat -> rep (set_tail s w) d ns fs own l.
Proof. intros [] Hs Hw Hl. split; try done. exists pre, suf. cbn. by rewrite Hw. Qed.

Lemma rep_alloc s d ns fs l n : rep s d ns fs [] l -> 0 < n < 2 ^ 48 -> nodes s !! n = None -> rep (put_node s n (mkNode None 0)) d ns fs [n] l.
Proof.
  intros [] Hn Hnone. assert (n ∉ d :: ns ++ fs ++ []) as Hnot. { intros Hin. apply not_elem_of_dom in Hnone. apply Hnone. rewrite rp_dom0. by apply elem_of_list_to_set. }
  pose proof (insert_out (nodes s) n (mkNode None 0) _ Hnot) as Hne. assert (d :: ns ++ fs ++ [n] ≡ₚ n :: d :: ns ++ fs ++ []) as HP by (rewrite app_nil_r, (assoc_L (++)), app_comm_cons; symmetry; apply Permutation_cons_append).
  split; cbn [put_node head_ tail_ pool_head_ nodes]; try done.
  - eapply links_frame; [|done]. intros a Ha. apply Hne. set_solver.
  - eapply holds_frame; [|done]. intros a Ha. apply Hne. set_solver.
  - eapply stack_chain_frame; [|done]. intros a Ha. apply Hne. set_solver.
  - rewrite HP. by apply NoDup_cons.
  - rewrite dom_insert_L, rp_dom0, HP. done.
  - intros a. rewrite HP. intros [->|Ha]%elem_of_cons; [done|]. by apply rp_range0.
Qed.

(** The call's node is linked behind the last one. *)
Lemma rep_link s d ns fs n l v nd : rep s d ns fs [n] l -> last (d :: ns) = Some (unpack_ptr (tail_ s)) -> nodes s !! unpack_ptr (tail_ s) = Some nd -> nodes s !! n = Some (mkNode (Some v) 0) ->
  next nd = 0 /\ rep (put_node s (unpack_ptr (tail_ s)) (mkNode (value nd) (pack_ptr n 0))) d (ns ++ [n]) fs [] (l ++ [v]).
Proof.
  intros HR Hlast Hnd Hn. pose proof HR as []. apply last_Some in Hlast as [l1 Hl1]. set (t := unpack_ptr (tail_ s)) in *.
  assert (n ∉ d :: ns ++ fs) as Hnot by (eapply own_out; [done|by left]). assert (0 < n < 2 ^ 48) as Hrange by (apply rp_range0; set_solver).
  assert (NoDup (d :: ns)) as Hdns. { rewrite app_comm_cons in rp_nodup0. by apply NoDup_app in rp_nodup0 as (? & _ & _). }
  destruct (links_snoc (nodes s) l1 t n nd (head_ s) Hrange) as [H0 Hlinks]; [rewrite <- Hl1; set_solver|by rewrite <- Hl1|by rewrite <- Hl1|done|by eexists|].
  split; [done|]. assert (t ∉ fs) as Htf. { assert (t ∈ d :: ns) as Ht by (rewrite Hl1; set_solver). rewrite app_comm_cons in rp_nodup0. apply NoDup_app in rp_nodup0 as (_ & Hdis & _). intros Hf. apply (Hdis t Ht). set_solver. }
  assert (d :: ns ++ fs ++ [n] ≡ₚ d :: (ns ++ [n]) ++ fs ++ []) as HP by (rewrite app_nil_r, <- (assoc_L (++)); do 2 f_equiv; apply Permutation_app_comm).
  assert (d :: ns ++ [n] = l1 ++ [t; n]) as Hl2 by (rewrite app_comm_cons, Hl1, <- (assoc_L (++)); done).
  split; cbn [put_node head_ tail_ pool_head_ nodes].
  - by rewrite Hl2.
  - exists l1, [n]. split; [by rewrite Hl2|done].
  - apply Forall2_app.
    + by apply holds_keep.
    + constructor; [|done]. exists 0. rewrite lookup_insert_ne; [done|]. intros Ht. apply Hnot. assert (t ∈ d :: ns) as Htin by (rewrite Hl1; set_solver). rewrite <- Ht. set_solver.
  - eapply stack_chain_frame; [|done]. intros a Ha. apply lookup_insert_ne. by intros ->.
  - by rewrite <- HP.
  - rewrite dom_insert_L, rp_dom0, HP. assert (t ∈ d :: ns) as Ht by (rewrite Hl1; set_solver). set_solver.
  - intros a Ha. apply rp_range0. by rewrite HP.
Qed.

(** The first node becomes the dummy, the old one the call's. *)
Lemma rep_advance s d a ns fs x l w : rep s d (a :: ns) fs [] (x :: l) -> unpack_ptr (tail_ s) <> d -> unpack_ptr w = a -> rep (set_head s w) a ns fs [d] l.
Proof.
  intros [] Htail Hw. assert (a :: ns ++ fs ++ [d] ≡ₚ d :: (a :: ns) ++ fs ++ []) as HP. { rewrite app_nil_r, (assoc_L (++)), app_comm_cons. symmetry. rewrite <- Permutation_cons_append. done. }
  destruct rp_chain0 as (_ & nd & Hnd & Hl). split; cbn [set_head head_ tail_ pool_head_ nodes]; try done.
  - cbn [links] in Hl |- *. by destruct Hl as (_ & Hl).
  - destruct rp_tail0 as (pre & suf & He & Hs). destruct pre as [|d' pre]; [injection He as -> _; done|]. injection He as _ He. by exists pre, suf.
  - by apply Forall2_cons in rp_vals0 as [_ ?].
  - by rewrite HP.
  - by rewrite rp_dom0, HP.
  - intros b Hb. apply rp_range0. by rewrite <- HP.
Qed.


(** ** Where the only running call is *)
Definition pool_pop_inv s own (q : pop_free_pc) : Prop :=
  match q with
  | PfLoad => own = []
  | PfHead w => own = [] /\ w = pool_head_ s
  | PfCas w nx => own = [] /\ w = pool_head_ s /\ unpack_ptr w <> 0 /\ exists nd, nodes s !! unpack_ptr w = Some nd /\ next nd = nx
  | PfReset n => own = [n]
  end.

Definition pool_push_inv s (n : Z) own (q : push_free_pc) : Prop :=
  own = [n] /\
  match q with
  | FrLoad => True
  | FrLink w => w = pool_head_ s
  | FrCas w => w = pool_head_ s /\ exists v, nodes s !! n = Some (mkNode v w)
  end.

(** The call owns a node with its value. *)
Definition carries s (n : Z) own (st : status (T := T)) : Prop := own = [n] /\ exists v, st = SPending (Enqueue v) /\ nodes s !! n = Some (mkNode (Some v) 0).

(** The tail lags one node behind. *)
Definition lags (d : Z) ns (t a : Z) : Prop := exists pre, d :: ns = pre ++ [t; a].

(** The call has found that the queue has a first element. *)
Definition found s (d : Z) ns (head nx : Z) : Prop := head = head_ s /\ unpack_ptr (tail_ s) <> d /\ exists ns', ns = unpack_ptr nx :: ns'.

Definition enqueue_inv s (d : Z) ns own (st : status (T := T)) (delta : Z) (q : enqueue_pc T) : Prop :=
  match q with
  | EqPool v q => st = SPending (Enqueue v) /\ delta = 0 /\ pool_pop_inv s own q
  | EqNew v => st = SPending (Enqueue v) /\ delta = 0 /\ own = []
  | EqEmplace v n => st = SPending (Enqueue v) /\ delta = 0 /\ own = [n] /\ exists x, nodes s !! n = Some (mkNode x 0)
  | EqConstruct v n => st = SPending (Enqueue v) /\ delta = 0 /\ own = [n] /\ nodes s !! n = Some (mkNode None 0)
  | EqRecover v n q => st = SPending (Enqueue v) /\ delta = 0 /\ pool_push_inv s n own q
  | EqTail n => carries s n own st /\ delta = 0
  | EqNext n t => carries s n own st /\ delta = 0 /\ t = tail_ s
  | EqCheck n t nx => carries s n own st /\ delta = 0 /\ t = tail_ s /\ exists nd, nodes s !! unpack_ptr t = Some nd /\ next nd = nx
  | EqLink n t => carries s n own st /\ delta = 0 /\ t = tail_ s /\ last (d :: ns) = Some (unpack_ptr t)
  | EqHelp n t nx => carries s n own st /\ delta = 0 /\ t = tail_ s /\ lags d ns (unpack_ptr t) (unpack_ptr nx)
  | EqCount n t => own = [] /\ st = SDone Enqueued /\ delta = -1 /\ t = tail_ s /\ lags d ns (unpack_ptr t) n
  | EqSwing n t => own = [] /\ st = SDone Enqueued /\ delta = 0 /\ t = tail_ s /\ lags d ns (unpack_ptr t) n
  end.

Definition dequeue_inv s (d : Z) ns own l (st : status (T := T)) (delta : Z) (q : dequeue_pc T) : Prop :=
  match q with
  | DqHead => own = [] /\ st = SPending Dequeue /\ delta = 0
  | DqTail h => own = [] /\ st = SPending Dequeue /\ delta = 0 /\ h = head_ s
  | DqNext h t => own = [] /\ st = SPending Dequeue /\ delta = 0 /\ h = head_ s /\ t = tail_ s
  | DqCheck h t nx => own = [] /\ st = SPending Dequeue /\ delta = 0 /\ h = head_ s /\ t = tail_ s /\ exists nd, nodes s !! unpack_ptr h = Some nd /\ next nd = nx
  | DqHelp t nx => own = [] /\ st = SPending Dequeue /\ delta = 0 /\ t = tail_ s /\ lags d ns (unpack_ptr t) (unpack_ptr nx)
  | DqHasValue h nx | DqCopy h nx => own = [] /\ st = SPending Dequeue /\ delta = 0 /\ found s d ns h nx
  | DqCas h nx ext => own = [] /\ st = SPending Dequeue /\ delta = 0 /\ found s d ns h nx /\ (forall x, ext = Some x -> head l = Some x)
  | DqTake n nx => own = [n] /\ delta = 1 /\ d = unpack_ptr nx /\ exists x, st = SDone (Dequeued (Some x)) /\ holds (nodes s) d x
  | DqRecycle n x q => st = SDone (Dequeued (Some x)) /\ delta = 1 /\ pool_push_inv s n own q
  | DqCount x => own = [] /\ st = SDone (Dequeued (Some x)) /\ delta = 1
  end.

Definition thread_inv s (d : Z) ns own l (st : status (T := T)) (delta : Z) (p : pc T) : Prop :=
  match p with
  | Idle => own = [] /\ st = SIdle /\ delta = 0
  | Enqueuing q => enqueue_inv s d ns own st delta q
  | Dequeuing q => dequeue_inv s d ns own l st delta q
  end.

Definition inv s l (st : status (T := T)) (p : pc T) : Prop :=
  exists d ns fs own delta, rep s d ns fs own l /\ count_ s = u64 (Z.of_nat (length l) + delta) /\ thread_inv s d ns own l st delta p.

(** What one access does: the state after it, and the operation takes effect or not. *)
Definition step_ok c s l (st : status (T := T)) (p : pc T) (evs : list (event (T := T))) : Prop :=
  exists s' p' r l' st', qstep copyable moved_from c s p = Ret (s', p', r) /\ inv s' l' st' p' /\ atomic 1 (evs ++ option_list (Return 0 <$> r)) l' [st'].

Lemma quiet_ok c s l st p evs s' p' : atomic 1 evs l [st] -> qstep copyable moved_from c s p = Ret (s', p', None) -> inv s' l st p' -> step_ok c s l st p evs.
Proof. intros Ha Hq Hi. exists s', p', None, l, st. cbn. by rewrite app_nil_r. Qed.

Lemma atomic_done evs l r : atomic (T := T) 1 evs l [SDone r] -> atomic 1 (evs ++ option_list (Return 0 <$> Some r)) l [SIdle].
Proof. intros Ha. exact (atomic_return 1 0 r evs l [SDone r] Ha eq_refl). Qed.

Lemma return_ok c s l st p evs s' r : atomic 1 evs l [SDone r] -> qstep copyable moved_from c s p = Ret (s', Idle, Some r) -> inv s' l SIdle Idle -> step_ok c s l st p evs.
Proof. intros Ha Hq Hi. exists s', Idle, (Some r), l, SIdle. split; [done|]. split; [done|]. by apply atomic_done. Qed.

Lemma rep_tail_node s d ns fs own l : rep s d ns fs own l -> exists nd, nodes s !! unpack_ptr (tail_ s) = Some nd /\
  ((last (d :: ns) = Some (unpack_ptr (tail_ s)) /\ next nd = 0) \/ (unpack_ptr (next nd) <> 0 /\ lags d ns (unpack_ptr (tail_ s)) (unpack_ptr (next nd)))).
Proof.
  intros []. destruct rp_tail0 as (pre & suf & He & Hs). assert (forall a, a ∈ d :: ns -> 0 < a) as Hpos by (intros a Ha; apply rp_range0; set_solver). rewrite He in rp_chain0, Hpos. revert rp_chain0. generalize (head_ s).
  unfold lags. rewrite He. clear He. induction pre as [|b pre IH]; intros w; cbn [app links].
  - intros (_ & nd & Hnd & Hl). exists nd. split; [done|]. destruct suf as [|a [|? ?]]; [left; done| |cbn in Hs; lia]. right. destruct Hl as (-> & _). split; [|by exists []]. assert (0 < a); [|lia]. apply Hpos. set_solver.
  - intros (_ & nd & Hnd & Hl). destruct (IH ltac:(intros; apply Hpos; by right) _ Hl) as (nd' & Hnd' & Hc). exists nd'. split; [done|]. destruct Hc as [[Hlast H0]|[Hne [pre' Hpre]]].
    + left. split; [|done]. rewrite last_cons. by rewrite Hlast.
    + right. split; [done|]. exists (b :: pre'). by rewrite Hpre.
Qed.

Lemma bump_ptr a w : 0 < a < 2 ^ 48 -> unpack_ptr (bump a w) = a.
Proof. intros Ha. apply unpack_pack_ptr. lia. Qed.

Lemma lags_set s d ns fs own l t a : rep s d ns fs own l -> t = tail_ s -> lags d ns (unpack_ptr t) a -> rep (set_tail s (bump a t)) d ns fs own l.
Proof.
  intros HR -> [pre He]. assert (0 < a < 2 ^ 48) as Ha. { apply (rp_range _ _ _ _ _ _ HR). assert (a ∈ d :: ns) as Hin by (rewrite He; set_solver). set_solver. }
  eapply (rep_tail_set s d ns fs own l _ (pre ++ [unpack_ptr (tail_ s)]) a []); [done|by rewrite <- (assoc_L (++))|by apply bump_ptr|cbn; lia].
Qed.

Lemma lags_ptr d ns fs own l s t nx : rep s d ns fs own l -> lags d ns t (unpack_ptr nx) -> unpack_ptr (unpack_ptr nx) = unpack_ptr nx.
Proof. intros HR _. unfold unpack_ptr. by rewrite <- Z.land_assoc, Z.land_diag. Qed.

(** ** The accesses keep the invariant *)
Lemma own_node s d ns fs own l n : rep s d ns fs own l -> n ∈ own -> 0 < n < 2 ^ 48 /\ exists nd, nodes s !! n = Some nd.
Proof.
  intros [] Hn. split; [apply rp_range0; set_solver|]. assert (is_Some (nodes s !! n)) as [nd Hnd]; [|by exists nd]. apply elem_of_dom. rewrite rp_dom0. set_solver.
Qed.

Lemma with_pool_of s : with_pool s (pool_of s) = s.
Proof. by destruct s. Qed.

Lemma pool_pop_ok c s d ns fs own l q : rep s d ns fs own l -> pool_pop_inv s own q ->
  exists s' r fs' own', pool_pop c s q = Ret (s', r) /\ count_ s' = count_ s /\ rep s' d ns fs' own' l /\
    match r with inl q' => pool_pop_inv s' own' q' | inr n => if decide (n = 0) then own' = [] else own' = [n] /\ exists x, nodes s' !! n = Some (mkNode x 0) end.
Proof.
  intros HR. pose proof HR as []. unfold pool_pop. destruct q as [|w|w nx|n]; cbn [pool_pop_inv pop_free_node].
  - intros ->. eexists _, _, fs, []. split; [done|]. by rewrite with_pool_of.
  - intros [-> ->]. cbn [pool_of free_head_ deref store]. destruct (chain_cases _ _ _ rp_pool0) as [[H0 ->]|(H0 & fs' & nd & -> & Hnd & Hc)].
    + rewrite decide_True by done. eexists _, _, [], []. split; [done|]. by rewrite with_pool_of.
    + rewrite decide_False by done. unfold deref. cbn [store pool_of]. rewrite Hnd. eexists _, _, (unpack_ptr (pool_head_ s) :: fs'), []. split; [done|]. rewrite with_pool_of. naive_solver.
  - intros (-> & -> & H0 & nd & Hnd & <-). cbn [pool_of free_head_]. destruct (chain_cases _ _ _ rp_pool0) as [[? ?]|(_ & fs' & nd' & -> & Hnd' & Hc)]; [done|]. rewrite Hnd in Hnd'. injection Hnd' as <-.
    destruct compare_exchange_weak as [w|w] eqn:Hcas; cbn [mbind].
    + apply compare_exchange_inl in Hcas as [_ ->]. eexists _, _, fs', [unpack_ptr (pool_head_ s)]. split; [done|]. split; [done|]. split; [|done].
      apply rep_pool_take; [done|]. eapply chain_ptr; [|done]. symmetry. apply unpack_pack_ptr, unpack_ptr_range.
    + apply compare_exchange_inr in Hcas as ->. eexists _, _, (unpack_ptr (pool_head_ s) :: fs'), []. split; [done|]. by rewrite with_pool_of.
  - intros ->. destruct (own_node _ _ _ _ _ _ n HR) as [Hn [nd Hnd]]; [by left|]. unfold store_next, deref. cbn [store pool_of]. rewrite Hnd. cbn [mbind].
    eexists _, _, fs, [n]. split; [done|]. split; [done|]. split; [apply (rep_own_put s d ns fs [n] l n (mkNode (value nd) 0)); [done|by left]|]. rewrite decide_False by lia. split; [done|]. eexists. apply lookup_insert_eq.
Qed.

Lemma pool_push_ok c s d ns fs own l n q : rep s d ns fs own l -> pool_push_inv s n own q ->
  exists s' r fs' own', pool_push c s n q = Ret (s', r) /\ count_ s' = count_ s /\ rep s' d ns fs' own' l /\
    match r with Some q' => pool_push_inv s' n own' q' | None => own' = [] end.
Proof.
  intros HR [-> Hq]. pose proof HR as []. destruct (own_node _ _ _ _ _ _ n HR) as [Hn [nd Hnd]]; [by left|]. unfold pool_push. destruct q as [|w|w]; cbn [push_free_node].
  - eexists _, _, fs, [n]. split; [done|]. by rewrite with_pool_of.
  - subst w. unfold store_next, deref. cbn [store pool_of]. rewrite Hnd. cbn [mbind]. eexists _, _, fs, [n]. split; [done|]. split; [done|]. split; [apply (rep_own_put s d ns fs [n] l n (mkNode (value nd) (pool_head_ s))); [done|by left]|].
    split; [done|]. split; [done|]. eexists. apply lookup_insert_eq.
  - destruct Hq as [-> [v Hv]]. cbn [pool_of free_head_]. destruct compare_exchange_weak as [w|w] eqn:Hcas; cbn [mbind].
    + apply compare_exchange_inl in Hcas as [_ ->]. eexists _, _, (n :: fs), []. split; [done|]. split; [done|]. split; [|done].
      apply rep_pool_give; [done|]. split; [apply unpack_pack_ptr; lia|]. split; [lia|]. by exists (mkNode v (pool_head_ s)).
    + apply compare_exchange_inr in Hcas as ->. eexists _, _, fs, [n]. split; [done|]. by rewrite with_pool_of.
Qed.

(** The tail is moved, by the one that linked the node or by another. *)
Lemma tail_ok c s d ns fs own l t a : rep s d ns fs own l -> t = tail_ s -> lags d ns (unpack_ptr t) a ->
  exists s', match compare_exchange_weak c (tail_ s) t (bump a t) with inl w => set_tail s w | inr _ => s end = s' /\ rep s' d ns fs own l /\ count_ s' = count_ s /\ nodes s' = nodes s.
Proof.
  intros HR Ht Hl. destruct compare_exchange_weak as [w|w] eqn:Hcas; eexists; (split; [reflexivity|]); [|done]. apply compare_exchange_inl in Hcas as [_ ->]. split; [by eapply lags_set|done].
Qed.

Lemma count_add x z : u64 (u64 x + z) = u64 (x + z).
Proof. unfold u64. by rewrite Zplus_mod_idemp_l. Qed.

Lemma atomic_throws evs l o : atomic (T := T) 1 evs l [SPending o] -> atomic 1 evs l [SDone Threw].
Proof. intros Ha. exact (atomic_throw 1 0 o evs l [SPending o] Ha eq_refl). Qed.

(** A step without effect, or one that ends the call. *)
Lemma enqueue_quiet c s d ns fs own l st delta q evs s' q' : atomic 1 evs l [st] -> enqueue c s q = Ret (s', inl q') ->
  rep s' d ns fs own l -> count_ s' = u64 (Z.of_nat (length l) + delta) -> enqueue_inv s' d ns own st delta q' -> step_ok c s l st (Enqueuing q) evs.
Proof. intros Ha Hq HR Hc Hi. eapply (quiet_ok _ _ _ _ _ _ s' (Enqueuing q')); [done|cbn; by rewrite Hq|]. by exists d, ns, fs, own, delta. Qed.

Lemma enqueue_return c s d ns fs l st q evs s' r : atomic 1 evs l [SDone r] -> enqueue c s q = Ret (s', inr r) ->
  rep s' d ns fs [] l -> count_ s' = u64 (Z.of_nat (length l) + 0) -> step_ok c s l st (Enqueuing q) evs.
Proof.
  intros Ha Hq HR Hc. exists s', Idle, (Some r), l, SIdle. split; [cbn; by rewrite Hq|]. split; [|by apply atomic_done]. by exists d, ns, fs, [], 0.
Qed.

Lemma enqueue_pool_ok c s l st v q evs : inv s l st (Enqueuing (EqPool v q)) -> atomic 1 evs l [st] -> step_ok c s l st (Enqueuing (EqPool v q)) evs.
Proof.
  intros (d & ns & fs & own & delta & HR & Hc & -> & -> & Hq) Ha. destruct (pool_pop_ok c _ _ _ _ _ _ _ HR Hq) as (s' & r & fs' & own' & Hr & Hc' & HR' & Hi). rewrite <- Hc' in Hc.
  eapply enqueue_quiet; [done|cbn [enqueue]; rewrite Hr; reflexivity|exact HR'|exact Hc|]. clear Hr. destruct r as [q'|n]; cbn [enqueue_inv]; [done|]. case_decide; cbn [enqueue_inv]; naive_solver.
Qed.

Lemma enqueue_build_ok c s l st q evs : match q with EqNew _ | EqEmplace _ _ | EqConstruct _ _ | EqRecover _ _ _ => True | _ => False end ->
  inv s l st (Enqueuing q) -> alloc_ok c s (Enqueuing q) -> atomic 1 evs l [st] -> step_ok c s l st (Enqueuing q) evs.
Proof.
  intros Hk (d & ns & fs & own & delta & HR & Hc & Hi) Hal Ha. destruct q as [| v|v n|v n|v n q| | | | | | |]; try done; clear Hk; cbn [thread_inv enqueue_inv alloc_ok] in *.
  - destruct Hi as (-> & -> & ->). destruct (throws c) eqn:Ht.
    + eapply enqueue_return; [by eapply atomic_throws|cbn [enqueue]; by rewrite Ht|done|done].
    + eapply enqueue_quiet; [done|cbn [enqueue]; by rewrite Ht|destruct Hal; by apply rep_alloc|done|]. cbn. split; [done|]. split; [done|]. split; [done|]. eexists. apply lookup_insert_eq.
  - destruct Hi as (-> & -> & -> & x & Hx). eapply enqueue_quiet; [done|cbn [enqueue]; unfold put_value, load_node; rewrite Hx; reflexivity|apply rep_own_put; [done|by left]|done|].
    cbn. rewrite lookup_insert_eq. done.
  - destruct Hi as (-> & -> & -> & Hx). destruct (throws c) eqn:Ht.
    + eapply enqueue_quiet; [done|cbn [enqueue]; by rewrite Ht|done|done|]. done.
    + eapply enqueue_quiet; [done|cbn [enqueue]; rewrite Ht; unfold put_value, load_node; rewrite Hx; reflexivity|apply rep_own_put; [done|by left]|done|].
      cbn. unfold carries. cbn. rewrite lookup_insert_eq. eauto.
  - destruct Hi as (-> & -> & Hq). destruct (pool_push_ok c _ _ _ _ _ _ _ _ HR Hq) as (s' & r & fs' & own' & Hr & Hc' & HR' & Hi'). rewrite <- Hc' in Hc. destruct r as [q'|].
    + eapply enqueue_quiet; [done|cbn [enqueue]; rewrite Hr; reflexivity|exact HR'|exact Hc|]. done.
    + subst own'. eapply enqueue_return; [by eapply atomic_throws|cbn [enqueue]; rewrite Hr; reflexivity|exact HR'|done].
Qed.

Lemma enqueue_link_ok c s l st q evs : match q with EqTail _ | EqNext _ _ | EqCheck _ _ _ | EqLink _ _ => True | _ => False end ->
  inv s l st (Enqueuing q) -> atomic 1 evs l [st] -> step_ok c s l st (Enqueuing q) evs.
Proof.
  intros Hk (d & ns & fs & own & delta & HR & Hc & Hi) Ha. destruct (rep_tail_node _ _ _ _ _ _ HR) as (nd & Hnd & Hcase).
  destruct q as [| | | | |n|n t|n t nx|n t| | |]; try done; clear Hk; cbn [thread_inv enqueue_inv] in *.
  - destruct Hi as (Hn & ->). by eapply enqueue_quiet.
  - destruct Hi as (Hn & -> & ->). eapply enqueue_quiet; [done|cbn [enqueue]; unfold load_node; rewrite Hnd; reflexivity|done|done|]. cbn. split_and!; eauto.
  - destruct Hi as (Hn & -> & -> & nd' & Hnd' & <-). rewrite Hnd in Hnd'. injection Hnd' as <-. eapply enqueue_quiet; [done|reflexivity|done|done|]. rewrite decide_True by done. destruct Hcase as [[Hlast ->]|[Hne Hlag]].
    + by rewrite decide_True by done.
    + rewrite decide_False by done. cbn. done.
  - destruct Hi as (Hn & -> & -> & Hlast). pose proof Hn as (-> & v & -> & Hv). destruct (rep_link _ _ _ _ _ _ _ _ HR Hlast Hnd Hv) as [H0 HR']. destruct (compare_exchange_weak c (next nd) 0 (pack_ptr n 0)) as [w|w] eqn:Hcas.
    + exists (put_node s (unpack_ptr (tail_ s)) (mkNode (value nd) (pack_ptr n 0))), (Enqueuing (EqCount n (tail_ s))), None, (l ++ [v]), (SDone Enqueued). cbn [qstep enqueue]. unfold load_node. rewrite Hnd, (bind_Ret nd).
      rewrite Hcas. apply compare_exchange_inl in Hcas as [_ ->]. unfold put_next, load_node. rewrite Hnd. split; [done|]. split.
      * exists d, (ns ++ [n]), fs, [], (-1). split; [done|]. split; [cbn [count_ put_node]; rewrite Hc, length_app; f_equal; cbn; lia|]. cbn. split_and!; try done. apply last_Some in Hlast as [pre Hpre]. exists pre. by rewrite app_comm_cons, Hpre, <- (assoc_L (++)).
      * cbn. rewrite app_nil_r. exact (atomic_enqueue 1 0 v evs l _ Ha eq_refl).
    + eapply enqueue_quiet; [done| |done|done|]. { cbn [enqueue]. unfold load_node. rewrite Hnd, (bind_Ret nd), Hcas. reflexivity. } done.
Qed.

Lemma enqueue_tail_ok c s l st q evs : match q with EqHelp _ _ _ | EqCount _ _ | EqSwing _ _ => True | _ => False end ->
  inv s l st (Enqueuing q) -> atomic 1 evs l [st] -> step_ok c s l st (Enqueuing q) evs.
Proof.
  intros Hk (d & ns & fs & own & delta & HR & Hc & Hi) Ha. destruct q as [| | | | | | | | |n t|n t|n t nx]; try done; clear Hk; cbn [thread_inv enqueue_inv] in *.
  - destruct Hi as (-> & -> & -> & -> & Hlag). eapply enqueue_quiet with (delta := 0); [done|reflexivity|by apply rep_count|cbn; rewrite Hc, count_add; f_equal; lia|]. done.
  - destruct Hi as (-> & -> & -> & -> & Hlag). destruct (tail_ok c _ _ _ _ _ _ _ n HR eq_refl Hlag) as (s' & Hs & HR' & Hc' & _). eapply enqueue_return; [done| |exact HR'|by rewrite Hc', Hc]. cbn [enqueue]. rewrite <- Hs. by destruct compare_exchange_weak.
  - destruct Hi as (Hn & -> & -> & Hlag). destruct (tail_ok c _ _ _ _ _ _ _ (unpack_ptr nx) HR eq_refl Hlag) as (s' & Hs & HR' & Hc' & Hns). eapply enqueue_quiet; [done| |exact HR'|by rewrite Hc', Hc|].
    + cbn [enqueue]. rewrite <- Hs. destruct compare_exchange_weak; reflexivity.
    + cbn. unfold carries. by rewrite Hns.
Qed.

Lemma dequeue_quiet c s d ns fs own l st delta q evs s' q' : atomic 1 evs l [st] -> try_dequeue copyable moved_from c s q = Ret (s', inl q') ->
  rep s' d ns fs own l -> count_ s' = u64 (Z.of_nat (length l) + delta) -> dequeue_inv s' d ns own l st delta q' -> step_ok c s l st (Dequeuing q) evs.
Proof. intros Ha Hq HR Hc Hi. eapply (quiet_ok _ _ _ _ _ _ s' (Dequeuing q')); [done|cbn; by rewrite Hq|]. by exists d, ns, fs, own, delta. Qed.

Lemma dequeue_return c s d ns fs l st q evs s' r : atomic 1 evs l [SDone r] -> try_dequeue copyable moved_from c s q = Ret (s', inr r) ->
  rep s' d ns fs [] l -> count_ s' = u64 (Z.of_nat (length l) + 0) -> step_ok c s l st (Dequeuing q) evs.
Proof.
  intros Ha Hq HR Hc. exists s', Idle, (Some r), l, SIdle. split; [cbn; by rewrite Hq|]. split; [|by apply atomic_done]. by exists d, ns, fs, [], 0.
Qed.

(** The node at the head, and whether there is an element behind it. *)
Lemma rep_head_node s d ns fs own l : rep s d ns fs own l -> unpack_ptr (head_ s) = d /\ exists nd, nodes s !! d = Some nd /\
  ((ns = [] /\ l = [] /\ next nd = 0 /\ unpack_ptr (tail_ s) = d) \/
   exists a ns' x l', ns = a :: ns' /\ l = x :: l' /\ unpack_ptr (next nd) = a /\ 0 < a /\ holds (nodes s) a x /\ (unpack_ptr (tail_ s) = d -> lags d ns d a)).
Proof.
  intros []. destruct rp_chain0 as (Hw & nd & Hnd & Hl). split; [done|]. exists nd. split; [done|]. destruct rp_tail0 as (pre & suf & He & Hs). destruct rp_vals0 as [|a x ns l Hx Hv]; cbn [links] in Hl.
  - left. destruct pre as [|? [|? ?]]; simplify_eq/=. done.
  - right. exists a, ns, x, l. destruct Hl as [Ha _]. split_and!; try done; [apply rp_range0; set_solver|]. intros Ht.
    assert (d ∉ a :: ns) as Hd by (apply NoDup_cons in rp_nodup0; set_solver).
    destruct pre as [|d' pre]; [|injection He as _ He; exfalso; apply Hd; rewrite He, Ht; set_solver]. injection He as _ He. rewrite <- He in Hs. destruct ns; [by exists []|cbn in Hs; lia].
Qed.

Lemma dequeue_read_ok c s l st q evs : match q with DqHead | DqTail _ | DqNext _ _ | DqCheck _ _ _ | DqHelp _ _ => True | _ => False end ->
  inv s l st (Dequeuing q) -> atomic 1 evs l [st] -> step_ok c s l st (Dequeuing q) evs.
Proof.
  intros Hk (d & ns & fs & own & delta & HR & Hc & Hi) Ha. destruct (rep_head_node _ _ _ _ _ _ HR) as (Hd & nd & Hnd & Hcase). rewrite <- Hd in Hnd.
  destruct q as [|h|h t|h t nx|t nx| | | | | |]; try done; clear Hk; cbn [thread_inv dequeue_inv] in *.
  - destruct Hi as (-> & -> & ->). by eapply dequeue_quiet.
  - destruct Hi as (-> & -> & -> & ->). by eapply dequeue_quiet.
  - destruct Hi as (-> & -> & -> & -> & ->). eapply dequeue_quiet; [done|cbn [try_dequeue]; unfold load_node; rewrite Hnd; reflexivity|done|done|]. cbn. split_and!; eauto.
  - destruct Hi as (-> & -> & -> & -> & -> & nd' & Hnd' & <-). rewrite Hnd in Hnd'. injection Hnd' as <-. destruct Hcase as [(-> & -> & H0 & Ht)|(a & ns' & x & l' & -> & -> & Ha' & Hpos & Hx & Hlag)].
    + eapply dequeue_return; [exact (atomic_dequeue_empty 1 0 evs _ Ha eq_refl)| |done|done]. cbn [try_dequeue]. rewrite decide_True by done. rewrite decide_True by congruence. by rewrite H0.
    + destruct (decide (unpack_ptr (head_ s) = unpack_ptr (tail_ s))) as [Ht|Ht].
      * eapply dequeue_quiet; [done| |done|done|]. { cbn [try_dequeue]. rewrite decide_True by done. rewrite decide_True by done. rewrite decide_False by lia. reflexivity. }
        cbn. split_and!; try done. rewrite <- Ht, Hd, Ha'. apply Hlag. congruence.
      * assert (found s d (a :: ns') (head_ s) (next nd)) as Hf by (split; [done|]; split; [congruence|]; exists ns'; by rewrite Ha').
        eapply dequeue_quiet; [done| |done|done|]. { cbn [try_dequeue]. rewrite decide_True by done. rewrite decide_False by done. reflexivity. } by destruct copyable.
  - destruct Hi as (-> & -> & -> & -> & Hlag). destruct (tail_ok c _ _ _ _ _ _ _ (unpack_ptr nx) HR eq_refl Hlag) as (s' & Hs & HR' & Hc' & _). eapply dequeue_quiet; [done| |exact HR'|by rewrite Hc', Hc|].
    + cbn [try_dequeue]. rewrite <- Hs. destruct compare_exchange_weak; reflexivity.
    + done.
Qed.

Lemma dequeue_value_ok c s l st q evs : match q with DqHasValue _ _ | DqCopy _ _ | DqCas _ _ _ => True | _ => False end ->
  inv s l st (Dequeuing q) -> atomic 1 evs l [st] -> step_ok c s l st (Dequeuing q) evs.
Proof.
  intros Hk (d & ns & fs & own & delta & HR & Hc & Hi) Ha. destruct (rep_head_node _ _ _ _ _ _ HR) as (Hd & nd & Hnd & Hcase).
  assert (forall (h nx : Z), found s d ns h nx -> exists ns' x l', ns = unpack_ptr nx :: ns' /\ l = x :: l' /\ holds (nodes s) (unpack_ptr nx) x) as Hfirst.
  { intros h nx (_ & Ht & ns' & ->). destruct Hcase as [(? & _)|(a & ? & x & l' & He & -> & _ & _ & Hx & _)]; [done|]. injection He as <- <-. eauto 10. }
  destruct q as [| | | | |h nx|h nx|h nx ext| | |]; try done; clear Hk; cbn [thread_inv dequeue_inv] in *.
  - destruct Hi as (-> & -> & -> & Hf). destruct (Hfirst _ _ Hf) as (ns' & x & l' & -> & -> & w & Hx). eapply dequeue_quiet; [done|cbn [try_dequeue]; unfold load_node; rewrite Hx; reflexivity|done|done|]. done.
  - destruct Hi as (-> & -> & -> & Hf). destruct (Hfirst _ _ Hf) as (ns' & x & l' & -> & -> & w & Hx). destruct (throws c) eqn:Ht.
    + eapply dequeue_return; [by eapply atomic_throws| |done|done]. cbn [try_dequeue]. unfold load_node. rewrite Hx, bind_Ret. cbn [value]. by rewrite Ht.
    + eapply dequeue_quiet; [done| |done|done|]. { cbn [try_dequeue]. unfold load_node. rewrite Hx, bind_Ret. cbn [value]. rewrite Ht. reflexivity. } cbn. split_and!; try done.
  - destruct Hi as (-> & -> & -> & Hf & Hext). destruct (Hfirst _ _ Hf) as (ns' & x & l' & -> & -> & Hx). destruct Hf as (-> & Ht & _). destruct (compare_exchange_weak c (head_ s) (head_ s) (bump (unpack_ptr nx) (head_ s))) as [w|w] eqn:Hcas.
    + assert (unpack_ptr w = unpack_ptr nx) as Hw by (apply compare_exchange_inl in Hcas as [_ ->]; apply unpack_pack_ptr, unpack_ptr_range).
      pose proof (rep_advance _ _ _ _ _ _ _ _ HR Ht Hw) as HR'. eexists (set_head s w), _, None, l', (SDone (Dequeued (Some x))). cbn [qstep try_dequeue]. rewrite Hcas, bind_Ret. split; [reflexivity|]. split.
      * exists (unpack_ptr nx), ns', fs, [d], 1. split; [done|]. split; [cbn [count_ set_head]; rewrite Hc; f_equal; cbn; lia|]. destruct ext as [y|]; cbn.
        -- injection (Hext y eq_refl) as <-. by rewrite Hd.
        -- rewrite Hd. split_and!; eauto.
      * cbn. rewrite app_nil_r. exact (atomic_dequeue 1 0 x evs l' _ Ha eq_refl).
    + eapply dequeue_quiet; [done| |done|done|]. { cbn [try_dequeue]. rewrite Hcas. reflexivity. } done.
Qed.

Lemma dequeue_finish_ok c s l st q evs : match q with DqTake _ _ | DqRecycle _ _ _ | DqCount _ => True | _ => False end ->
  inv s l st (Dequeuing q) -> atomic 1 evs l [st] -> step_ok c s l st (Dequeuing q) evs.
Proof.
  intros Hk (d & ns & fs & own & delta & HR & Hc & Hi) Ha. destruct q as [| | | | | | | |n nx|n x q|x]; try done; clear Hk; cbn [thread_inv dequeue_inv] in *.
  - destruct Hi as (-> & -> & -> & x & -> & w & Hx). eapply dequeue_quiet; [done| |by eapply (rep_dummy_put s _ ns fs [n] l _ (Some (moved_from x)))|exact Hc|].
    + cbn [try_dequeue]. unfold load_node. rewrite Hx, bind_Ret. cbn [value]. unfold put_value, load_node. rewrite Hx. reflexivity.
    + done.
  - destruct Hi as (-> & -> & Hq). destruct (pool_push_ok c _ _ _ _ _ _ _ _ HR Hq) as (s' & r & fs' & own' & Hr & Hc' & HR' & Hi'). rewrite <- Hc' in Hc. eapply dequeue_quiet; [done|cbn [try_dequeue]; rewrite Hr; reflexivity|exact HR'|exact Hc|]. by destruct r.
  - destruct Hi as (-> & -> & ->). eapply dequeue_return; [done|reflexivity|by apply rep_count|]. cbn [count_ set_count]. rewrite Hc. unfold Z.sub. rewrite count_add. f_equal. lia.
Qed.

(** Every access has a result, and keeps the invariant and the history. *)
Lemma access_ok c s l st p evs : p <> Idle -> inv s l st p -> alloc_ok c s p -> atomic 1 evs l [st] -> step_ok c s l st p evs.
Proof.
  intros Hp Hinv Hal Ha. destruct p as [|q|q]; [done| |]; destruct q; eauto using enqueue_pool_ok.
  all: first [by apply enqueue_build_ok|by apply enqueue_link_ok|by apply enqueue_tail_ok|by apply dequeue_read_ok|by apply dequeue_value_ok|by apply dequeue_finish_ok].
Qed.

(** ** What is left of a call, in accesses *)
Definition behind s : bool := match nodes s !! unpack_ptr (tail_ s) with Some nd => bool_decide (unpack_ptr (next nd) <> 0) | None => false end.

Definition free_left (q : push_free_pc) : nat := match q with FrLoad => 3 | FrLink _ => 2 | FrCas _ => 1 end.

Definition remaining s (p : pc T) : nat :=
  match p with
  | Idle => 0
  | Enqueuing q =>
    let b := if behind s then 4 else 0 in
    match q with
    | EqPool _ PfLoad => 20 | EqPool _ (PfHead _) => 19 | EqPool _ (PfCas _ _) => 18 | EqPool _ (PfReset _) => 17
    | EqNew _ => 16 | EqEmplace _ _ => 15 | EqConstruct _ _ => 14
    | EqRecover _ _ q => free_left q
    | EqTail _ => b + 6 | EqNext _ _ => b + 5 | EqCheck _ _ _ => b + 4
    | EqHelp _ _ _ => 7 | EqLink _ _ => 3 | EqCount _ _ => 2 | EqSwing _ _ => 1
    end
  | Dequeuing q =>
    let b := if behind s then 5 else 0 in
    match q with
    | DqHead => b + 12 | DqTail _ => b + 11 | DqNext _ _ => b + 10 | DqCheck _ _ _ => b + 9
    | DqHelp _ _ => 13
    | DqHasValue _ _ => 8 | DqCopy _ _ => 7 | DqCas _ _ _ => 6 | DqTake _ _ => 5
    | DqRecycle _ _ q => S (free_left q) | DqCount _ => 1
    end
  end%nat.

Lemma behind_spec s d ns fs own l : rep s d ns fs own l ->
  (behind s = false <-> last (d :: ns) = Some (unpack_ptr (tail_ s))) /\ (forall a, lags d ns (unpack_ptr (tail_ s)) a -> behind s = true /\ last (d :: ns) = Some a).
Proof.
  intros HR. destruct (rep_tail_node _ _ _ _ _ _ HR) as (nd & Hnd & Hc). unfold behind. rewrite Hnd. split.
  - destruct Hc as [[Hl ->]|[Hne [pre Hpre]]]; [by rewrite bool_decide_eq_false_2 by (by intros [])|]. rewrite bool_decide_eq_true_2 by done. split; [done|]. intros Hl. exfalso.
    pose proof (rp_nodup _ _ _ _ _ _ HR) as Hd. rewrite app_comm_cons, Hpre in Hd. rewrite Hpre, last_app in Hl. cbn in Hl. injection Hl as Hl. rewrite Hl in Hd. rewrite <- (assoc_L (++)) in Hd. apply NoDup_app in Hd as (_ & _ & Hd). apply NoDup_cons in Hd as [Hd _]. set_solver.
  - intros a [pre Hpre]. split; [|by rewrite Hpre, last_app]. apply bool_decide_eq_true_2. destruct Hc as [[Hl _]|[Hne _]]; [|done]. exfalso.
    pose proof (rp_nodup _ _ _ _ _ _ HR) as Hd. rewrite app_comm_cons, Hpre in Hd. rewrite Hpre, last_app in Hl. cbn in Hl. injection Hl as ->. rewrite <- (assoc_L (++)) in Hd. apply NoDup_app in Hd as (_ & _ & Hd). apply NoDup_cons in Hd as [Hd _]. set_solver.
Qed.

Lemma cas_go c w x : spurious c = false -> compare_exchange_weak c w w x = inl x.
Proof. intros Hc. unfold compare_exchange_weak. by rewrite decide_True by done. Qed.

(** After the tail was moved it is not behind. *)
Lemma behind_moved s d ns fs own l a : rep s d ns fs own l -> lags d ns (unpack_ptr (tail_ s)) a -> behind (set_tail s (bump a (tail_ s))) = false.
Proof.
  intros HR Hlag. pose proof (proj2 (behind_spec _ _ _ _ _ _ HR) a Hlag) as [_ Hlast]. pose proof (lags_set _ _ _ _ _ _ _ _ HR eq_refl Hlag) as HR'. apply (proj1 (behind_spec _ _ _ _ _ _ HR')). cbn. rewrite bump_ptr; [done|].
  apply (rp_range _ _ _ _ _ _ HR). destruct Hlag as [pre Hpre]. rewrite app_comm_cons, Hpre. set_solver.
Qed.

Lemma pool_push_left c s n own q s' r : pool_push_inv s n own q -> spurious c = false -> pool_push c s n q = Ret (s', r) ->
  match r with Some q' => (free_left q' < free_left q)%nat | None => True end.
Proof.
  intros [_ Hq] Hsp ([p1 r1] & Hp & [= _ <-])%bind_Ret_inv. destruct q as [|w|w]; cbn [push_free_node] in Hp.
  - injection Hp as _ <-. cbn. lia.
  - apply bind_Ret_inv in Hp as (? & _ & [= _ <-]). cbn. lia.
  - destruct Hq as [-> _]. cbn [pool_of free_head_] in Hp. rewrite cas_go in Hp by done. by injection Hp as _ <-.
Qed.

Lemma enqueue_drops c s l st q s' r : inv s l st (Enqueuing q) -> spurious c = false -> enqueue c s q = Ret (s', r) ->
  match r with inl q' => (remaining s' (Enqueuing q') < remaining s (Enqueuing q))%nat | inr _ => True end.
Proof.
  intros (d & ns & fs & own & delta & HR & _ & Hi) Hsp.
  destruct q as [v q|v|v n|v n|v n q|n|n t|n t nx|n t|n t|n t|n t nx]; cbn [enqueue thread_inv enqueue_inv] in *.
  - destruct Hi as (_ & _ & Hq). intros ([s1 r1] & Hp & [= <- <-])%bind_Ret_inv. apply bind_Ret_inv in Hp as ([p1 r2] & Hp & [= <- <-]). destruct q as [|w|w nx|n]; cbn [pop_free_node pool_pop_inv] in *.
    + injection Hp as _ <-. cbn. lia.
    + case_decide; [injection Hp as _ <-; rewrite decide_True by done; cbn; lia|]. apply bind_Ret_inv in Hp as (? & _ & [= _ <-]). cbn. lia.
    + destruct Hq as (_ & -> & _). cbn [pool_of free_head_] in Hp. rewrite cas_go in Hp by done. injection Hp as _ <-. cbn. lia.
    + apply bind_Ret_inv in Hp as (? & _ & [= _ <-]). case_decide; cbn; lia.
  - case_match; intros [= <- <-]; cbn; lia.
  - intros (? & _ & [= <- <-])%bind_Ret_inv. cbn. lia.
  - case_match; [intros [= <- <-]; cbn; lia|]. intros (? & _ & [= <- <-])%bind_Ret_inv. cbn. case_match; lia.
  - destruct Hi as (_ & _ & Hq). intros ([s1 r1] & Hp & [= <- <-])%bind_Ret_inv. pose proof (pool_push_left _ _ _ _ _ _ _ Hq Hsp Hp). destruct r1; [|done]. done.
  - intros [= <- <-]. cbn. case_match; lia.
  - intros (? & _ & [= <- <-])%bind_Ret_inv. cbn. case_match; lia.
  - destruct Hi as (_ & _ & -> & nd & Hnd & <-). intros [= <- <-]. rewrite decide_True by done. unfold remaining, behind. rewrite Hnd. case_decide; [case_match; lia|]. rewrite bool_decide_eq_true_2 by done. lia.
  - destruct Hi as (_ & _ & -> & Hlast). intros (nd & Hnd & Hp)%bind_Ret_inv. unfold load_node in Hnd. destruct (rep_tail_node _ _ _ _ _ _ HR) as (nd' & Hnd' & Hc). rewrite Hnd' in Hnd. injection Hnd as ->.
    destruct Hc as [[_ H0]|[_ Hlag]]; [|by destruct (proj2 (behind_spec _ _ _ _ _ _ HR) _ Hlag) as [Hb _]; rewrite (proj2 (proj1 (behind_spec _ _ _ _ _ _ HR)) Hlast) in Hb].
    rewrite H0, cas_go in Hp by done. apply bind_Ret_inv in Hp as (? & _ & [= <- <-]). cbn. lia.
  - intros [= <- <-]. cbn. lia.
  - case_match; by intros [= <- <-].
  - destruct Hi as (_ & _ & -> & Hlag). rewrite cas_go by done. intros [= <- <-]. cbn [remaining]. rewrite (behind_moved _ _ _ _ _ _ _ HR Hlag). lia.
Qed.

Lemma dequeue_drops c s l st q s' r : inv s l st (Dequeuing q) -> spurious c = false -> try_dequeue copyable moved_from c s q = Ret (s', r) ->
  match r with inl q' => (remaining s' (Dequeuing q') < remaining s (Dequeuing q))%nat | inr _ => True end.
Proof.
  intros (d & ns & fs & own & delta & HR & _ & Hi) Hsp. destruct (rep_head_node _ _ _ _ _ _ HR) as (Hd & nd & Hnd & Hcase). rewrite <- Hd in Hnd.
  assert (forall h0 nx : Z, found s d ns h0 nx -> exists w x, nodes s !! unpack_ptr nx = Some (mkNode (Some x) w)) as Hfirst.
  { intros h0 nx (_ & Ht & ns' & ->). destruct Hcase as [(? & _)|(a & ? & x & l' & He & _ & _ & _ & [w Hx] & _)]; [done|]. injection He as <- _. eauto. }
  destruct q as [|h|h t|h t nx|t nx|h nx|h nx|h nx ext|n nx|n x q|x]; cbn [try_dequeue thread_inv dequeue_inv] in *.
  - intros [= <- <-]. cbn. case_match; lia.
  - intros [= <- <-]. cbn. case_match; lia.
  - intros (? & _ & [= <- <-])%bind_Ret_inv. cbn. case_match; lia.
  - destruct Hi as (_ & _ & _ & -> & -> & nd' & Hnd' & <-). rewrite decide_True by done. case_decide as Ht; [|intros [= <- <-]; destruct copyable; cbn; case_match; lia]. case_decide as Hz; intros [= <- <-]; [done|].
    rewrite Ht in Hnd'. unfold remaining, behind. rewrite Hnd', bool_decide_eq_true_2 by done. lia.
  - destruct Hi as (_ & _ & _ & -> & Hlag). rewrite cas_go by done. intros [= <- <-]. cbn [remaining]. rewrite (behind_moved _ _ _ _ _ _ _ HR Hlag). lia.
  - destruct Hi as (_ & _ & _ & Hf). destruct (Hfirst _ _ Hf) as (w & x & Hx). unfold load_node. rewrite Hx, bind_Ret. intros [= <- <-]. cbn. lia.
  - intros (nd1 & _ & Hp)%bind_Ret_inv. destruct (value nd1); [|done]. case_match; injection Hp as <- <-; cbn; [done|lia].
  - destruct Hi as (_ & _ & _ & (-> & _) & _). rewrite cas_go by done. intros [= <- <-]. destruct ext; cbn; lia.
  - destruct Hi as (_ & _ & -> & x & _ & w & Hx). unfold load_node. rewrite Hx, bind_Ret. cbn [value]. intros (? & _ & [= <- <-])%bind_Ret_inv. cbn. lia.
  - destruct Hi as (_ & _ & Hq). intros ([s1 r1] & Hp & [= <- <-])%bind_Ret_inv. pose proof (pool_push_left _ _ _ _ _ _ _ Hq Hsp Hp). destruct r1; cbn; [lia|]. destruct q; cbn; lia.
  - intros [= <- <-]. done.
Qed.

Lemma remaining_drops c s l st p s' p' r : inv s l st p -> spurious c = false -> qstep copyable moved_from c s p = Ret (s', p', r) -> p' = Idle \/ (remaining s' p' < remaining s p)%nat.
Proof.
  intros Hinv Hsp. destruct p as [|q|q]; [done| |]; cbn [qstep]; intros ([s1 r1] & Hq & [= Hr])%bind_Ret_inv.
  - pose proof (enqueue_drops _ _ _ _ _ _ _ Hinv Hsp Hq). destruct r1; injection Hr as <- <- <-; auto.
  - pose proof (dequeue_drops _ _ _ _ _ _ _ Hinv Hsp Hq). destruct r1; injection Hr as <- <- <-; auto.
Qed.

Lemma remaining_bound s p : (remaining s p <= 20)%nat.
Proof.
  destruct p as [|q|q]; [cbn; lia| |].
  - destruct q as [? []|?|? ?|? ?|? ? []|?|? ?|? ? ?|? ?|? ?|? ?|? ? ?]; cbn; destruct (behind s); lia.
  - destruct q as [|?|? ?|? ? ?|? ?|? ?|? ?|? ? ?|? ?|? ? []|?]; cbn; destruct (behind s); lia.
Qed.

Lemma inv_new dummy : 0 < dummy < 2 ^ 48 -> inv (queue_new dummy) [] SIdle Idle.
Proof.
  intros Hd. assert (unpack_ptr (pack_ptr dummy 0) = dummy) as Hu by (apply unpack_pack_ptr; lia). exists dummy, [], [], [], 0. split; [|done]. unfold queue_new. split; cbn [head_ tail_ pool_head_ nodes links app].
  - split; [done|]. eexists. split; [apply lookup_insert_eq|done].
  - exists [], []. split; [by rewrite Hu|cbn; lia].
  - done.
  - done.
  - repeat constructor. set_solver.
  - rewrite dom_singleton_L. set_solver.
  - intros a ->%list_elem_of_singleton. done.
Qed.

Lemma inv_start s l o : inv s l SIdle Idle -> inv s l (SPending o) (start o).
Proof. intros (d & ns & fs & own & delta & HR & Hc & -> & _ & ->). exists d, ns, fs, [], 0. by destruct o. Qed.

(** Every state one thread reaches satisfies the invariant. *)
Lemma queue_exec_inv evs S : exec copyable moved_from 1 evs S -> exists s p l st, S = mkSys s [p] /\ inv s l st p /\ atomic 1 evs l [st].
Proof.
  induction 1 as [dummy Hd|t evs S e S' _ (s & p & l & st & -> & Hinv & Ha) Hst].
  - exists (queue_new dummy), Idle, [], SIdle. split; [done|]. split; [by apply inv_new|]. exact (atomic_init 1).
  - inversion Hst as [s0 ths o Ht|s0 ths p0 c s' p' r Ht Hal Hq]; subst; destruct t as [|t]; try done; cbn in Ht; injection Ht as ->.
    + exists s, (start o), l, (SPending o). split; [done|]. assert (st = SIdle) as -> by (by destruct Hinv as (? & ? & ? & ? & ? & _ & _ & _ & -> & _)).
      split; [by apply inv_start|]. exact (atomic_call 1 0 o evs l _ Ha eq_refl).
    + destruct (access_ok c s l st p0 evs) as (s1 & p1 & r1 & l1 & st1 & Hq1 & Hi & Ha1); [by intros ->|done|done|done|]. rewrite Hq in Hq1. injection Hq1 as <- <- <-. by exists s', p', l1, st1.
Qed.

Lemma links_chain (h : gmap Z (Node T)) ns : forall w, (forall a, a ∈ ns -> 0 < a) -> links h w ns -> chain h w ns.
Proof.
  induction ns as [|a ns IH]; intros w Hp; cbn [links chain]; [by intros ->|]. intros (-> & nd & Hnd & Hl). assert (0 < a) by (apply Hp; by left). split_and!; [done|lia|]. exists nd. split; [done|]. apply IH; [|done]. intros b Hb. apply Hp. by right.
Qed.

Lemma rep_destroy s d ns fs l : rep s d ns fs [] l -> destroy_queue s = Ret ∅.
Proof.
  intros []. rewrite app_nil_r, app_comm_cons in *. pose proof rp_nodup0 as (Hn & Hdis & Hf)%NoDup_app. assert (length (d :: ns) + length fs <= base.size (nodes s))%nat as Hlen by (by rewrite <- length_app, <- size_dom, rp_dom0, size_list_to_set).
  unfold destroy_queue. destruct (destroy_list_spec (d :: ns) (S (base.size (nodes s))) (nodes s) (head_ s)) as (st & -> & Hd & Hs); [|done|lia|].
  { apply links_chain; [|done]. intros a Ha. apply rp_range0. set_solver. } ret_step.
  destruct (destroy_list_spec fs (S (base.size (nodes s))) st (pool_head_ s)) as (st' & -> & Hd' & _); [|done|lia|].
  { eapply stack_chain_frame; [|done]. intros a Ha. apply Hs. intros Hl. by apply (Hdis a). }
  f_equal. apply dom_empty_inv_L. rewrite Hd', Hd, rp_dom0, list_to_set_app_L. set_solver.
Qed.

(** C7: one thread, in every execution and whatever compare-exchanges and constructors fail: its history is one of
    an atomic queue; the next access is defined; if its compare-exchange does not fail spuriously the call has ended or comes
    nearer to its end, of at most twenty accesses; between calls the size is the number of elements, and the
    destructor deletes every node that was allocated. *)
Theorem michael_scott_sequential evs S : exec copyable moved_from 1 evs S ->
  exists s p l st, S = mkSys s [p] /\ atomic 1 evs l [st] /\ (remaining s p <= 20)%nat /\
    (p <> Idle -> forall c, alloc_ok c s p -> exists s' p' r, qstep copyable moved_from c s p = Ret (s', p', r) /\
       (spurious c = false -> p' = Idle \/ (remaining s' p' < remaining s p)%nat)) /\
    (p = Idle -> st = SIdle /\ queue_size s = u64 (Z.of_nat (length l)) /\
       (Z.of_nat (length l) < 2 ^ 64 -> queue_empty s = bool_decide (l = [])) /\ destroy_queue s = Ret ∅).
Proof.
  intros (s & p & l & st & -> & Hinv & Ha)%queue_exec_inv. exists s, p, l, st. split; [done|]. split; [done|]. split; [apply remaining_bound|]. split.
  - intros Hp c Hal. destruct (access_ok c s l st p evs) as (s' & p' & r & l' & st' & Hq & _); try done. exists s', p', r. split; [done|]. intros Hsp. by eapply remaining_drops.
  - intros ->. destruct Hinv as (d & ns & fs & own & delta & HR & Hc & -> & -> & ->). rewrite Z.add_0_r in Hc. split; [done|]. split; [done|]. split; [|by eapply rep_destroy].
    intros Hl. unfold queue_empty. apply bool_decide_ext. rewrite Hc. unfold u64. rewrite Z.mod_small by lia. destruct l; cbn; naive_solver lia.
Qed.
End sequential.

(** ** Schedules: executions computed from a list of choices *)
Section schedules.
Context {T : Type} (copyable : bool) (moved_from : T -> T).

#[global] Instance queue_alloc_ok_dec c (s : queue T) p : Decision (alloc_ok c s p).
Proof. unfold alloc_ok. repeat case_match; apply _. Defined.

(** Thread [t] calls an operation, or does its next access. *)
Definition sched (x : list event * sys (T := T)) (a : nat * (op T + choice)) : option (list event * sys) :=
  let '(evs, sy) := x in
  let '(t, a) := a in
  p ← threads sy !! t;
  match a, p with
  | inl o, Idle => Some (evs ++ [Call t o], mkSys (obj sy) (<[t := start o]> (threads sy)))
  | inl o, _ => None
  | inr c, _ =>
    if decide (alloc_ok c (obj sy) p) then
      match qstep copyable moved_from c (obj sy) p with
      | Ret (s', p', r) => Some (evs ++ option_list (Return t <$> r), mkSys s' (<[t := p']> (threads sy)))
      | _ => None
      end
    else None
  end.

Definition run (n : nat) (dummy : Z) (sch : list (nat * (op T + choice))) : option (list event * sys) :=
  foldl (fun x a => x ≫= fun x => sched x a) (Some ([], mkSys (queue_new dummy) (replicate n Idle))) sch.

Lemma queue_sched_exec n evs S a evs' S' : exec copyable moved_from n evs S -> sched (evs, S) a = Some (evs', S') -> exec copyable moved_from n evs' S'.
Proof.
  destruct a as [t a]. destruct S as [s ths]. intros He. cbn. destruct (ths !! t) as [p|] eqn:Ht; cbn; [|done]. destruct a as [o|c].
  - destruct p; try done. intros [= <- <-]. refine (exec_step _ _ n t evs (mkSys s ths) (Some (Call t o)) _ He _). by apply step_call.
  - case_decide as Hal; [|done]. destruct qstep as [[[s' p'] r]|e| |] eqn:Hs; try done. intros [= <- <-]. refine (exec_step _ _ n t evs (mkSys s ths) _ (mkSys s' _) He _). by eapply step_run.
Qed.

Lemma queue_run_exec n dummy sch evs S : 0 < dummy < 2 ^ 48 -> run n dummy sch = Some (evs, S) -> exec copyable moved_from n evs S.
Proof.
  intros Hd. unfold run. revert evs S. induction sch as [|a sch IH] using rev_ind; intros evs S.
  - intros [= <- <-]. by apply exec_init.
  - rewrite foldl_app. cbn. destruct foldl as [[evs0 S0]|]; [|done]. cbn [mbind option_bind]. apply queue_sched_exec. by apply IH.
Qed.
End schedules.

Definition qgo : choice := mkChoice false 0 false.
Definition qaccesses (t k : nat) : list (nat * (op nat + choice)) := replicate k (t, inr qgo).
Definition qallocate (t : nat) (a : Z) : nat * (op nat + choice) := (t, inr (mkChoice false a false)).
Definition lost_element : list (nat * (op nat + choice)) :=
  [(0%nat, inl (Enqueue 7%nat))] ++ qaccesses 0 2 ++ [qallocate 0 8192] ++ qaccesses 0 5 ++
  [(1%nat, inl (Enqueue 8%nat))] ++ qaccesses 1 2 ++ [qallocate 1 12288] ++ qaccesses 1 8 ++
  [(1%nat, inl Dequeue)] ++ qaccesses 1 11 ++ qaccesses 0 3 ++
  [(1%nat, inl Dequeue)] ++ qaccesses 1 4.


Definition one_element : list (nat * (op nat + choice)) :=
  [(0%nat, inl (Enqueue 7%nat))] ++ qaccesses 0 2 ++ [qallocate 0 8192] ++ qaccesses 0 8 ++ [(0%nat, inl Dequeue)] ++ qaccesses 0 11.

(** ** Deciding whether a history is one of an atomic queue

    After each event the queue and the statuses the atomic queue can have are computed. *)
#[global] Instance op_eq_dec : EqDecision (op nat).
Proof. solve_decision. Defined.
#[global] Instance result_eq_dec : EqDecision (result nat).
Proof. solve_decision. Defined.
#[global] Instance status_eq_dec : EqDecision (status (T := nat)).
Proof. solve_decision. Defined.

Definition config : Type := list nat * list (status (T := nat)).

Definition effects (x : config) (t : nat) : list config :=
  let '(l, sts) := x in
  match sts !! t with
  | Some (SPending o) =>
    (l, <[t := SDone Threw]> sts) ::
    match o, l with
    | Enqueue v, _ => [(l ++ [v], <[t := SDone Enqueued]> sts)]
    | Dequeue, y :: l => [(l, <[t := SDone (Dequeued (Some y))]> sts)]
    | Dequeue, [] => [([], <[t := SDone (Dequeued None)]> sts)]
    end
  | _ => []
  end.

Definition all_effects (x : config) : list config := seq 0 (length x.2) ≫= effects x.

Definition after_event (e : event (T := nat)) (x : config) : list config :=
  let '(l, sts) := x in
  match e with
  | Call t o => if decide (sts !! t = Some SIdle) then [(l, <[t := SPending o]> sts)] else []
  | Return t r => if decide (sts !! t = Some (SDone r)) then [(l, <[t := SIdle]> sts)] else []
  end.

(** The states reached by effects, when [k] rounds reach them all. *)
Fixpoint saturate (k : nat) (xs : list config) : option (list config) :=
  if decide (Forall (fun y => y ∈ xs) (xs ≫= all_effects)) then Some xs
  else match k with 0%nat => None | S k => saturate k (remove_dups (xs ++ (xs ≫= all_effects))) end.

Definition configs (n : nat) (evs : list event) : option (list config) :=
  foldl (fun acc e => acc ≫= fun xs => saturate (S n) (xs ≫= after_event e)) (saturate (S n) [([], replicate n SIdle)]) evs.

Lemma saturate_ok k : forall xs ys, saturate k xs = Some ys -> xs ⊆ ys /\ forall x y, x ∈ ys -> y ∈ all_effects x -> y ∈ ys.
Proof.
  induction k as [|k IH]; intros xs ys; cbn [saturate]; (case_decide as Hc; [intros [= <-]; split; [done|]; rewrite Forall_forall in Hc; intros x y Hx Hy; apply Hc, list_elem_of_bind; eauto|]); [done|].
  intros [Hs Hcl]%IH. split; [|done]. intros x Hx. apply Hs, elem_of_remove_dups, elem_of_app. by left.
Qed.

Lemma effect_in (xs : list config) l sts t y : (forall x y, x ∈ xs -> y ∈ all_effects x -> y ∈ xs) -> (l, sts) ∈ xs -> is_Some (sts !! t) -> y ∈ effects (l, sts) t -> y ∈ xs.
Proof. intros Hcl Hx Ht Hy. apply (Hcl _ _ Hx), list_elem_of_bind. exists t. split; [done|]. apply elem_of_seq. apply lookup_lt_is_Some in Ht. cbn. lia. Qed.

(** The computed states are all there are. *)
Lemma configs_complete n evs (l : list nat) sts : atomic n evs l sts -> forall xs, configs n evs = Some xs -> (l, sts) ∈ xs.
Proof.
  assert (forall evs xs, configs n evs = Some xs -> forall x y, x ∈ xs -> y ∈ all_effects x -> y ∈ xs) as Hcl.
  { intros evs0. destruct evs0 as [|e evs0 _] using rev_ind; intros xs; unfold configs; [by intros [_ ?]%saturate_ok|]. rewrite foldl_app. cbn [foldl]. by intros (? & _ & [_ ?]%saturate_ok)%bind_Some. }
  assert (forall e evs xs x y, configs n (evs ++ [e]) = Some xs -> (forall ys, configs n evs = Some ys -> x ∈ ys) -> y ∈ after_event e x -> y ∈ xs) as Hev.
  { intros e evs0 xs x y. unfold configs at 1. rewrite foldl_app. cbn [foldl]. intros (ys & Hys & [Hs _]%saturate_ok)%bind_Some Hx Hy. apply Hs, list_elem_of_bind. eauto. }
  induction 1 as [|t o evs l sts _ IH Ht|t v evs l sts _ IH Ht|t x evs l sts _ IH Ht|t evs sts _ IH Ht|t o evs l sts _ IH Ht|t r evs l sts _ IH Ht]; intros xs Hxs.
  1: { apply saturate_ok in Hxs as [Hs _]. apply Hs. by left. }
  1: { refine (Hev _ _ _ _ _ Hxs IH _). cbn. rewrite decide_True by done. by left. }
  5: { refine (Hev _ _ _ _ _ Hxs IH _). cbn. rewrite decide_True by done. by left. }
  all: refine (effect_in xs _ sts t _ (Hcl _ _ Hxs) (IH _ Hxs) (mk_is_Some _ _ Ht) _); cbn; rewrite Ht; set_solver.
Qed.

(** C8: with two threads the queue is not linearizable: in one execution two elements are enqueued and both calls return; one
    element is dequeued; then the queue, whose size is 1, is found empty, and no order of the operations explains it. *)
Theorem michael_scott_not_linearizable : exists evs S, exec true id 2 evs S /\ Forall (eq Idle) (threads S) /\ queue_size (obj S) = 1 /\
  last evs = Some (Return 1 (Dequeued None)) /\ forall (l : list nat) sts, ~ atomic 2 evs l sts.
Proof.
  destruct (run true id 2 4096 lost_element) as [[evs S]|] eqn:Hrun; [|by vm_compute in Hrun]. exists evs, S.
  split; [refine (queue_run_exec true id 2 4096 lost_element evs S _ Hrun); lia|]. vm_compute in Hrun. injection Hrun as <- <-. split; [by repeat constructor|]. split; [done|]. split; [done|].
  intros l sts Ha. eapply configs_complete in Ha; [|vm_compute; reflexivity]. by apply not_elem_of_nil in Ha.
Qed.

Lemma michael_scott_sequential_witness : exists evs S, exec true id 1 evs S /\ evs = [Call 0 (Enqueue 7%nat); Return 0 Enqueued; Call 0 Dequeue; Return 0 (Dequeued (Some 7%nat))] /\
  exists s p (l : list nat) st, S = mkSys s [p] /\ atomic 1 evs l [st] /\ (p = Idle -> destroy_queue s = Ret ∅).
Proof.
  assert (is_Some (run true id 1 4096 one_element)) as [[evs S] Hrun] by (vm_compute; eauto).
  assert (exec true id 1 evs S) as He by (refine (queue_run_exec true id 1 4096 one_element evs S _ Hrun); lia).
  exists evs, S. split; [done|]. split; [vm_compute in Hrun; by injection Hrun as <- _|].
  destruct (michael_scott_sequential true id evs S He) as (s & p & l & st & HS & Ha & _ & _ & Hi). exists s, p, l, st. split; [done|]. split; [done|]. intros Hp. by apply Hi.
Defined.
