(* ===== verification/CuckooHashMap.v ===== *)
(** * Cuckoo hash map ([data_structure/hash/CuckooHashMap.hpp])

    A key has one slot in each of two tables; an insertion displaces what it
    finds there, and after [max_kicks] rounds uses a stash of eight slots; when the
    stash is full the tables are doubled and everything is inserted again, with the
    next seed, and so on.

    The hash function and the load test in floating point are parameters; [KeyEqual]
    is equality.  [fuel] bounds the nesting of rehashes only.  It is not enough for
    every map: eleven keys with one hash value can never be placed
    ([cuckoo_insert_diverges]).  Ten keys always can ([cuckoo_map_refines]), and an
    insertion returns when some table it can grow to separates the keys
    ([cuckoo_insert_returns]). *)

From S2P Require Import Prelude Refinement RobinHood.

#[local] Set Warnings "-register-all".

Inductive Region := T1 | T2 | STASH.

#[global] Instance Region_eq_dec : EqDecision Region.
Proof. solve_decision. Defined.

Definition INITIAL_CAPACITY : Z := 4.
Definition STASH_SIZE : nat := 8.
Definition GOLDEN_RATIO : Z := 0x9E3779B97F4A7C15.

Inductive State := EMPTY | OCCUPIED.

#[global] Instance cuckoo_State_eq_dec : EqDecision State.
Proof. solve_decision. Defined.

Record Slot (K V : Type) := mkSlot { state : State; key : K; value : V }.
Arguments mkSlot {K V} state key value.
Arguments state {K V} s.
Arguments key {K V} s.
Arguments value {K V} s.

Record CuckooHashMap (K V D : Type) := mkCuckoo {
  table1_ : list (Slot K V);
  table2_ : list (Slot K V);
  stash_ : list (Slot K V);
  size_ : nat;
  seed_ : Z;
  mask1_ : Z;
  mask2_ : Z;
  max_load_factor_ : D;
}.
Arguments mkCuckoo {K V D} table1_ table2_ stash_ size_ seed_ mask1_ mask2_ max_load_factor_.
Arguments table1_ {K V D} c.
Arguments table2_ {K V D} c.
Arguments stash_ {K V D} c.
Arguments size_ {K V D} c.
Arguments seed_ {K V D} c.
Arguments mask1_ {K V D} c.
Arguments mask2_ {K V D} c.
Arguments max_load_factor_ {K V D} c.

(** [static uint64_t hash_mix] *)
Definition xorshift33 (h : Z) : Z := Z.lxor h (Z.shiftr h 33).

Definition hash_mix (h seed : Z) : Z :=
  let h := Z.lxor h seed in
  let h := xorshift33 h in
  let h := u64 (h * 0xFF51AFD7ED558CCD) in
  let h := xorshift33 h in
  let h := u64 (h * 0xC4CEB9FE1A85EC53) in
  xorshift33 h.

Section cuckoo.
Context {K V D : Type} `{!EqDecision K} (K_default : K) (V_default : V) (hasher : K -> Z).

(** [static_cast<double>(n) / static_cast<double>(cap) > mlf] (with 0 for the
    quotient by 0), the truncated [static_cast<double>(count) / mlf] if it is a number, and 0.75. *)
Context (exceeds : D -> nat -> nat -> bool) (needed : D -> nat -> option Z) (DEFAULT_MAX_LOAD_FACTOR : D).

Implicit Types (k : K) (v : V) (s entry : Slot K V) (slots : list (Slot K V)) (t : CuckooHashMap K V D) (r : Region).

Definition occupied s : Prop := state s = OCCUPIED.
#[global] Instance cuckoo_occupied_dec s : Decision (occupied s).
Proof. unfold occupied. apply _. Defined.

Definition empty_slot : Slot K V := mkSlot EMPTY K_default V_default.

(** [slot.state = Slot::EMPTY] *)
Definition vacate s : Slot K V := mkSlot EMPTY (key s) (value s).

(** ** The slots *)
Definition h1 t k : nat := Z.to_nat (Z.land (hash_mix (u64 (hasher k)) (seed_ t)) (mask1_ t)).
Definition h2 t k : nat := Z.to_nat (Z.land (hash_mix (u64 (u64 (hasher k) + GOLDEN_RATIO)) (seed_ t)) (mask2_ t)).

Definition region t r : list (Slot K V) := match r with T1 => table1_ t | T2 => table2_ t | STASH => stash_ t end.

Definition with_region t r slots : CuckooHashMap K V D :=
  match r with
  | T1 => mkCuckoo slots (table2_ t) (stash_ t) (size_ t) (seed_ t) (mask1_ t) (mask2_ t) (max_load_factor_ t)
  | T2 => mkCuckoo (table1_ t) slots (stash_ t) (size_ t) (seed_ t) (mask1_ t) (mask2_ t) (max_load_factor_ t)
  | STASH => mkCuckoo (table1_ t) (table2_ t) slots (size_ t) (seed_ t) (mask1_ t) (mask2_ t) (max_load_factor_ t)
  end.

Definition with_size t (n : nat) : CuckooHashMap K V D :=
  mkCuckoo (table1_ t) (table2_ t) (stash_ t) n (seed_ t) (mask1_ t) (mask2_ t) (max_load_factor_ t).

(** A [Slot*] into the map, and what an iterator holds: the region and the index; a
    null pointer and [end()] are [None]. *)
Definition Position : Type := Region * nat.

Definition slot_at t (p : Position) : outcome (Slot K V) := vget (region t p.1) p.2.
Definition set_slot t (p : Position) s : outcome (CuckooHashMap K V D) := slots ← vset (region t p.1) p.2 s; Ret (with_region t p.1 slots).

Definition bucket_count t : nat := length (table1_ t) + length (table2_ t).
Definition max_kicks t : nat := max 8 (Nat.log2 (bucket_count t)).

Definition alloc_tables t (per_table_cap : Z) : CuckooHashMap K V D :=
  let slots := replicate (Z.to_nat per_table_cap) empty_slot in
  mkCuckoo slots slots (stash_ t) (size_ t) (seed_ t) (per_table_cap - 1) (per_table_cap - 1) (max_load_factor_ t).

(** Member initialisers. *)
Definition no_tables : CuckooHashMap K V D := mkCuckoo [] [] (replicate STASH_SIZE empty_slot) 0 0 0 0 DEFAULT_MAX_LOAD_FACTOR.

Definition cuckoo_new : CuckooHashMap K V D := alloc_tables no_tables INITIAL_CAPACITY.

(** [std::max(INITIAL_CAPACITY, next_power_of_two(capacity / 2 + 1))] *)
Definition per_table_of (capacity : Z) : Z := Z.max INITIAL_CAPACITY (next_power_of_two (capacity / 2 + 1)).
Definition cuckoo_sized (capacity : Z) : CuckooHashMap K V D := alloc_tables no_tables (per_table_of capacity).

(** ** Lookup *)
Fixpoint stash_find slots k (i : nat) : option nat :=
  match slots with
  | [] => None
  | s :: slots => if decide (occupied s /\ key s = k) then Some i else stash_find slots k (S i)
  end.

Definition find_slot t k : outcome (option Position) :=
  if decide (table1_ t = []) then Ret None
  else
    s1 ← vget (table1_ t) (h1 t k);
    if decide (occupied s1 /\ key s1 = k) then Ret (Some (T1, h1 t k))
    else
      s2 ← vget (table2_ t) (h2 t k);
      if decide (occupied s2 /\ key s2 = k) then Ret (Some (T2, h2 t k))
      else Ret (pair STASH <$> stash_find (stash_ t) k 0).

(** ** Insertion *)

(** [s = std::move(entry); s.state = Slot::OCCUPIED; ++size_;] *)
Definition place t (p : Position) entry : outcome (CuckooHashMap K V D) :=
  t ← set_slot t p (mkSlot OCCUPIED (key entry) (value entry)); Ret (with_size t (S (size_ t))).

(** The rounds of displacements: the map and where the last entry was placed, or the
    entry that is left. *)
Fixpoint kick_loop (kicks : nat) t entry : outcome (CuckooHashMap K V D * (Position + Slot K V)) :=
  match kicks with
  | O => Ret (t, inr entry)
  | S kicks =>
    let p1 := (T1, h1 t (key entry)) in
    s1 ← slot_at t p1;
    if decide (occupied s1) then
      t ← set_slot t p1 entry;
      let p2 := (T2, h2 t (key s1)) in
      s2 ← slot_at t p2;
      if decide (occupied s2) then t ← set_slot t p2 s1; kick_loop kicks t s2
      else t ← place t p2 s1; Ret (t, inl p2)
    else t ← place t p1 entry; Ret (t, inl p1)
  end.

Fixpoint stash_free slots (i : nat) : option nat :=
  match slots with
  | [] => None
  | s :: slots => if decide (occupied s) then stash_free slots (S i) else Some i
  end.

(** Displacements, then the stash. *)
Definition try_place t entry : outcome (CuckooHashMap K V D * (Position + Slot K V)) :=
  '(t, r) ← kick_loop (max_kicks t) t entry;
  match r with
  | inl p => Ret (t, inl p)
  | inr entry =>
    match stash_free (stash_ t) 0 with
    | Some i => t ← place t (STASH, i) entry; Ret (t, inl (STASH, i))
    | None => Ret (t, inr entry)
    end
  end.

Fixpoint reinsert (ins : CuckooHashMap K V D -> Slot K V -> outcome (CuckooHashMap K V D)) t slots : outcome (CuckooHashMap K V D) :=
  match slots with
  | [] => Ret t
  | s :: slots => if decide (occupied s) then t ← ins t s; reinsert ins t slots else reinsert ins t slots
  end.

(** [rehash_impl], with the function that inserts again. *)
Definition rehash_with (ins : CuckooHashMap K V D -> Slot K V -> outcome (CuckooHashMap K V D)) t (per_table_cap : Z) : outcome (CuckooHashMap K V D) :=
  let per_table_cap := Z.max INITIAL_CAPACITY (next_power_of_two per_table_cap) in
  let cleared := mkCuckoo [] [] (vacate <$> stash_ t) 0 (u64 (seed_ t + 1)) (mask1_ t) (mask2_ t) (max_load_factor_ t) in
  fresh ← reinsert ins (alloc_tables cleared per_table_cap) (table1_ t);
  fresh ← reinsert ins fresh (table2_ t);
  reinsert ins fresh (stash_ t).

(** [table1_.size() * 2] *)
Definition twice t : Z := u64 (Z.of_nat (length (table1_ t)) * 2).

Fixpoint insert_no_resize (fuel : nat) t entry : outcome (CuckooHashMap K V D) :=
  match fuel with
  | O => NoFuel
  | S fuel =>
    '(t, r) ← try_place t entry;
    match r with
    | inl _ => Ret t
    | inr entry => t ← rehash_with (insert_no_resize fuel) t (twice t); insert_no_resize fuel t entry
    end
  end.

Definition rehash_impl (fuel : nat) t (per_table_cap : Z) : outcome (CuckooHashMap K V D) :=
  rehash_with (insert_no_resize fuel) t per_table_cap.

Fixpoint insert_new_entry (fuel : nat) t entry : outcome (CuckooHashMap K V D * Position) :=
  match fuel with
  | O => NoFuel
  | S fuel =>
    '(t, r) ← try_place t entry;
    match r with
    | inl p => Ret (t, p)
    | inr entry => t ← rehash_impl fuel t (twice t); insert_new_entry fuel t entry
    end
  end.

Definition ensure_capacity (fuel : nat) t : outcome (CuckooHashMap K V D) :=
  let total_cap := bucket_count t in
  if decide (total_cap = 0 \/ exceeds (max_load_factor_ t) (S (size_ t)) total_cap = true) then
    rehash_impl fuel t (if decide (total_cap = 0) then INITIAL_CAPACITY else twice t)
  else Ret t.

(** [insert]: the map, the position of the returned iterator, whether it inserted. *)
Definition insert (fuel : nat) t k v : outcome (CuckooHashMap K V D * Position * bool) :=
  existing ← find_slot t k;
  match existing with
  | Some p => Ret (t, p, false)
  | None => t ← ensure_capacity fuel t; '(t, p) ← insert_new_entry fuel t (mkSlot OCCUPIED k v); Ret (t, p, true)
  end.

(** [slot->value = value] *)
Definition set_value t (p : Position) v : outcome (CuckooHashMap K V D) :=
  s ← slot_at t p; set_slot t p (mkSlot (state s) (key s) v).

Definition insert_or_assign (fuel : nat) t k v : outcome (CuckooHashMap K V D * Position * bool) :=
  existing ← find_slot t k;
  match existing with
  | Some p => t ← set_value t p v; Ret (t, p, false)
  | None => t ← ensure_capacity fuel t; '(t, p) ← insert_new_entry fuel t (mkSlot OCCUPIED k v); Ret (t, p, true)
  end.

(** [operator\[\]] followed by an assignment through the reference it returns. *)
Definition index_assign (fuel : nat) t k v : outcome (CuckooHashMap K V D) :=
  '(t, p, _) ← insert fuel t k V_default; set_value t p v.

(** ** Iteration *)
Fixpoint first_occupied slots (i : nat) : option nat :=
  match slots with
  | [] => None
  | s :: slots => if decide (occupied s) then Some i else first_occupied slots (S i)
  end.

(** [advance_to_next_occupied] of an iterator at [i] of a region. *)
Definition advance_to_next_occupied t r (i : nat) : option Position :=
  let stash := pair STASH <$> first_occupied (stash_ t) 0 in
  let t2 := match first_occupied (table2_ t) 0 with Some j => Some (T2, j) | None => stash end in
  match first_occupied (drop i (region t r)) i with
  | Some j => Some (r, j)
  | None => match r with T1 => t2 | T2 => stash | STASH => None end
  end.

(** [init_iter_begin] *)
Definition begin t : option Position := if decide (table1_ t = []) then None else advance_to_next_occupied t T1 0.
Definition iterator_next t (p : Position) : option Position := advance_to_next_occupied t p.1 (S p.2).

(** [find_next_occupied] of a slot of the map. *)
Definition find_next_occupied t (after : Position) : option Position := advance_to_next_occupied t after.1 (S after.2).

(** ** Erasure *)
Definition erase_at t (p : Position) : outcome (CuckooHashMap K V D) :=
  s ← slot_at t p; t ← set_slot t p (vacate s); Ret (with_size t (size_ t - 1)).

Definition erase t k : outcome (CuckooHashMap K V D * bool) :=
  r ← find_slot t k;
  match r with None => Ret (t, false) | Some p => t ← erase_at t p; Ret (t, true) end.

Definition erase_iterator t (it : option Position) : outcome (CuckooHashMap K V D * option Position) :=
  match it with
  | None => Ret (t, None)
  | Some p =>
    s ← slot_at t p;
    if decide (occupied s) then t ← erase_at t p; Ret (t, find_next_occupied t p) else Ret (t, None)
  end.

(** ** The other members *)
Definition contains t k : outcome bool := r ← find_slot t k; Ret (bool_decide (is_Some r)).

(** [find] and a dereference of the iterator. *)
Definition find t k : outcome (option V) :=
  r ← find_slot t k;
  match r with Some p => s ← slot_at t p; Ret (Some (value s)) | None => Ret None end.

Definition at_ t k : outcome V :=
  r ← find_slot t k;
  match r with Some p => s ← slot_at t p; Ret (value s) | None => Throw out_of_range end.

Definition size t : nat := size_ t.
Definition empty t : bool := bool_decide (size_ t = 0).

Definition rehash (fuel : nat) t (new_total_capacity : Z) : outcome (CuckooHashMap K V D) :=
  let per_table := per_table_of new_total_capacity in
  if decide (per_table = Z.of_nat (length (table1_ t))) then Ret t else rehash_impl fuel t per_table.

Definition reserve (fuel : nat) t (count : nat) : outcome (CuckooHashMap K V D) := c ← to_size (needed (max_load_factor_ t) count); rehash fuel t c.

Definition set_max_load_factor (fuel : nat) t (mlf : D) : outcome (CuckooHashMap K V D) :=
  let t := mkCuckoo (table1_ t) (table2_ t) (stash_ t) (size_ t) (seed_ t) (mask1_ t) (mask2_ t) mlf in
  if exceeds mlf (size_ t) (bucket_count t) then rehash fuel t (u64 (Z.of_nat (bucket_count t))) else Ret t.

Definition clear t : CuckooHashMap K V D :=
  mkCuckoo (vacate <$> table1_ t) (vacate <$> table2_ t) (vacate <$> stash_ t) 0 (seed_ t) (mask1_ t) (mask2_ t) (max_load_factor_ t).

Definition swap (a b : CuckooHashMap K V D) : CuckooHashMap K V D * CuckooHashMap K V D := (b, a).
Definition copy t : CuckooHashMap K V D :=
  mkCuckoo (table1_ t) (table2_ t) (stash_ t) (size_ t) (seed_ t) (mask1_ t) (mask2_ t) (max_load_factor_ t).

(** The move constructor and assignment: the new map and what is left of [other].  A moved vector
    is empty; the slots of a moved array keep their states, [moved] what is left of a slot. *)
Definition move (moved : Slot K V -> Slot K V) (other : CuckooHashMap K V D) : CuckooHashMap K V D * CuckooHashMap K V D :=
  (copy other, mkCuckoo [] [] (moved <$> stash_ other) 0 0 0 0 DEFAULT_MAX_LOAD_FACTOR).

(** ** What is stored, and where *)
Context `{!Countable K}.

Definition stored s : option (K * V) := if decide (occupied s) then Some (key s, value s) else None.
Definition contents slots : list (K * V) := omap stored slots.
Definition all_contents t : list (K * V) := contents (table1_ t) ++ contents (table2_ t) ++ contents (stash_ t).

Definition fits t (p : Position) k : Prop := match p.1 with T1 => h1 t k = p.2 | T2 => h2 t k = p.2 | STASH => True end.

Record wf t : Prop := {
  wf_cap : exists n : nat, 2 <= n < 64 /\ length (table1_ t) = 2 ^ n;
  wf_cap2 : length (table2_ t) = length (table1_ t);
  wf_mask1 : mask1_ t = (Z.of_nat (length (table1_ t)) - 1)%Z;
  wf_mask2 : mask2_ t = (Z.of_nat (length (table1_ t)) - 1)%Z;
  wf_stash : length (stash_ t) = STASH_SIZE;
  wf_seed : u64 (seed_ t) = seed_ t;
  wf_fits : forall p s, region t p.1 !! p.2 = Some s -> occupied s -> fits t p (key s);
}.

(** Same sizes, seed and load factor. *)
Record alike t t' : Prop := {
  al_seed : seed_ t' = seed_ t;
  al_mask1 : mask1_ t' = mask1_ t;
  al_mask2 : mask2_ t' = mask2_ t;
  al_mlf : max_load_factor_ t' = max_load_factor_ t;
  al_len1 : length (table1_ t') = length (table1_ t);
}.

#[global] Instance alike_preorder : PreOrder alike.
Proof. split; [done|]. intros t1 t2 t3 [] []. split; congruence. Qed.

Lemma alike_h1 t t' k : alike t t' -> h1 t' k = h1 t k.
Proof. intros []. unfold h1. congruence. Qed.

Lemma alike_fits t t' p k : alike t t' -> fits t' p k <-> fits t p k.
Proof. intros []. unfold fits, h1, h2. rewrite al_seed0, al_mask3, al_mask4. done. Qed.

Lemma stored_Some s x : stored s = Some x <-> occupied s /\ x = (key s, value s).
Proof. unfold stored. case_decide; naive_solver. Qed.

Lemma stored_None s : stored s = None <-> ~ occupied s.
Proof. unfold stored. case_decide; naive_solver. Qed.

Lemma cuckoo_stored_split slots i s : slots !! i = Some s -> contents slots ≡ₚ option_list (stored s) ++ contents (take i slots ++ drop (S i) slots).
Proof.
  intros Hs. unfold contents. rewrite <- (take_drop_middle _ _ _ Hs) at 1. rewrite !omap_app. cbn. destruct (stored s); cbn; [by rewrite Permutation_middle|done].
Qed.

Lemma cuckoo_contents_insert slots i s s' : slots !! i = Some s -> option_list (stored s) ++ contents (<[i := s']> slots) ≡ₚ option_list (stored s') ++ contents slots.
Proof.
  intros Hs. pose proof (lookup_lt_Some _ _ _ Hs) as Hi. rewrite (cuckoo_stored_split slots i s Hs), (cuckoo_stored_split _ i s') by (by apply list_lookup_insert_eq).
  rewrite take_insert_ge, drop_insert_lt by lia. rewrite !app_assoc. by rewrite (Permutation_app_comm (option_list (stored s))).
Qed.

Lemma all_contents_region t p s s' : region t p.1 !! p.2 = Some s ->
  option_list (stored s) ++ all_contents (with_region t p.1 (<[p.2 := s']> (region t p.1))) ≡ₚ option_list (stored s') ++ all_contents t.
Proof.
  destruct p as [r i]. cbn [fst snd]. intros Hs. pose proof (cuckoo_contents_insert _ _ _ s' Hs) as HP. unfold all_contents. destruct r; cbn [with_region region table1_ table2_ stash_] in *.
  - rewrite !app_assoc. by rewrite HP.
  - rewrite (Permutation_app_swap_app (option_list (stored s))), (Permutation_app_swap_app (option_list (stored s'))). rewrite (app_assoc (option_list (stored s))), HP. by rewrite <- app_assoc.
  - rewrite (app_assoc (contents (table1_ t))), (Permutation_app_swap_app (option_list (stored s))), HP. rewrite (app_assoc (contents (table1_ t)) (contents (table2_ t))). by rewrite Permutation_app_swap_app.
Qed.

Lemma h1_lt t k : wf t -> h1 t k < length (table1_ t).
Proof.
  intros [(n & Hn & Hl) _ Hm _ _ _ _]. unfold h1. rewrite Hm, Hl, Nat2Z.inj_pow. change (Z.of_nat 2) with 2%Z. rewrite Z.sub_1_r, <- Z.ones_equiv, Z.land_ones by lia.
  assert (0 < 2 ^ Z.of_nat n)%Z by (apply Z.pow_pos_nonneg; lia). pose proof (Z.mod_pos_bound (hash_mix (u64 (hasher k)) (seed_ t)) (2 ^ Z.of_nat n)). apply Nat2Z.inj_lt. rewrite Z2Nat.id, Nat2Z.inj_pow by lia. lia.
Qed.

Lemma h2_lt t k : wf t -> h2 t k < length (table2_ t).
Proof.
  intros [(n & Hn & Hl) Hl2 _ Hm _ _ _]. unfold h2. rewrite Hl2, Hm, Hl, Nat2Z.inj_pow. change (Z.of_nat 2) with 2%Z. rewrite Z.sub_1_r, <- Z.ones_equiv, Z.land_ones by lia.
  assert (0 < 2 ^ Z.of_nat n)%Z by (apply Z.pow_pos_nonneg; lia). pose proof (Z.mod_pos_bound (hash_mix (u64 (u64 (hasher k) + GOLDEN_RATIO)) (seed_ t)) (2 ^ Z.of_nat n)). apply Nat2Z.inj_lt. rewrite Z2Nat.id, Nat2Z.inj_pow by lia. lia.
Qed.

Lemma wf_slot1 t k : wf t -> exists s, region t T1 !! h1 t k = Some s.
Proof. intros Hw. apply lookup_lt_is_Some_2. by apply h1_lt. Qed.

Lemma wf_slot2 t k : wf t -> exists s, region t T2 !! h2 t k = Some s.
Proof. intros Hw. apply lookup_lt_is_Some_2. by apply h2_lt. Qed.

(** A slot is written. *)
Lemma set_slot_ok t p s s' : wf t -> region t p.1 !! p.2 = Some s -> (occupied s' -> fits t p (key s')) ->
  exists t', set_slot t p s' = Ret t' /\ t' = with_region t p.1 (<[p.2 := s']> (region t p.1)) /\ wf t' /\ alike t t' /\ size_ t' = size_ t /\
    option_list (stored s) ++ all_contents t' ≡ₚ option_list (stored s') ++ all_contents t.
Proof.
  intros Hw Hs Hf. exists (with_region t p.1 (<[p.2 := s']> (region t p.1))). assert (alike t (with_region t p.1 (<[p.2 := s']> (region t p.1)))) as Ha by (destruct p as [[] i]; split; cbn; by rewrite ?length_insert).
  split; [unfold set_slot; by rewrite vset_lt by (by eapply lookup_lt_Some)|]. split; [done|]. split; [|split; [done|]; split; [by destruct p as [[] i]|by apply all_contents_region]].
  pose proof (lookup_lt_Some _ _ _ Hs) as Hi. destruct Hw, p as [r i]. cbn [fst snd] in *. split; try (destruct r; cbn; rewrite ?length_insert; done).
  intros [r' i'] s1 Hs1 Ho. rewrite (alike_fits _ _ _ _ Ha). cbn [fst snd] in *. destruct (decide (r' = r /\ i' = i)) as [[-> ->]|Hne].
  - assert (s1 = s') as ->; [|by apply Hf]. destruct r; cbn in Hs1; rewrite list_lookup_insert_eq in Hs1 by done; congruence.
  - apply (wf_fits0 (r', i')); [|done]. cbn [fst snd]. destruct r, r'; cbn in *; try done; by rewrite list_lookup_insert_ne in Hs1 by naive_solver.
Qed.

Lemma place_ok t p s e : wf t -> region t p.1 !! p.2 = Some s -> ~ occupied s -> fits t p (key e) ->
  exists t', place t p e = Ret t' /\ wf t' /\ alike t t' /\ size_ t' = S (size_ t) /\ all_contents t' ≡ₚ (key e, value e) :: all_contents t.
Proof.
  intros Hw Hs Ho Hf. destruct (set_slot_ok t p s (mkSlot OCCUPIED (key e) (value e)) Hw Hs (fun _ => Hf)) as (t' & Ht & _ & Hw' & Ha & Hn & HP). exists (with_size t' (S (size_ t'))). unfold place. rewrite Ht. split; [done|].
  split; [by destruct Hw'; split|]. split; [by destruct Ha; split|]. split; [cbn; by rewrite Hn|]. apply stored_None in Ho. rewrite Ho in HP. done.
Qed.

(** ** Displacements *)
Lemma slot_at_ok t p s : region t p.1 !! p.2 = Some s -> slot_at t p = Ret s.
Proof. intros Hs. unfold slot_at. by rewrite (vget_Some _ _ _ Hs). Qed.

Lemma in_contents slots i s : slots !! i = Some s -> occupied s -> (key s, value s) ∈ contents slots.
Proof. intros Hs Ho. apply list_elem_of_omap. exists s. split; [by eapply list_elem_of_lookup_2|]. by apply stored_Some. Qed.

(** An occupied slot gets another entry; what it held is carried on. *)
Lemma displace_ok t p s e : wf t -> region t p.1 !! p.2 = Some s -> occupied s -> occupied e -> fits t p (key e) ->
  exists t', set_slot t p e = Ret t' /\ wf t' /\ alike t t' /\ size_ t' = size_ t /\ stash_ t' = (if decide (p.1 = STASH) then stash_ t' else stash_ t) /\
    (key s, value s) :: all_contents t' ≡ₚ (key e, value e) :: all_contents t /\
    region t' p.1 !! p.2 = Some e /\ (forall r, r <> p.1 -> region t' r = region t r).
Proof.
  intros Hw Hs Ho He Hf. destruct (set_slot_ok t p s e Hw Hs (fun _ => Hf)) as (t' & Ht & Heq & Hw' & Ha & Hn & HP). exists t'. pose proof (lookup_lt_Some _ _ _ Hs) as Hi.
  assert (stored s = Some (key s, value s)) as Hst by (by apply stored_Some). assert (stored e = Some (key e, value e)) as Hse by (by apply stored_Some). rewrite Hst, Hse in HP.
  subst t'. destruct p as [[] i]; cbn in *; split_and!; try done; try (by rewrite list_lookup_insert_eq); by intros [].
Qed.

Lemma kick_loop_ok kicks : forall t e, wf t -> occupied e -> exists t' (r : Position + Slot K V), kick_loop kicks t e = Ret (t', r) /\ wf t' /\ alike t t' /\
  match r with
  | inl _ => size_ t' = S (size_ t) /\ all_contents t' ≡ₚ (key e, value e) :: all_contents t
  | inr e' => occupied e' /\ size_ t' = size_ t /\ stash_ t' = stash_ t /\ (key e', value e') :: all_contents t' ≡ₚ (key e, value e) :: all_contents t /\
      (0 < kicks -> contents (table1_ t') <> [] /\ contents (table2_ t') <> [])
  end.
Proof.
  induction kicks as [|kicks IH]; intros t e Hw He; cbn [kick_loop]; [exists t, (inr e); split_and!; try done; lia|].
  destruct (wf_slot1 t (key e) Hw) as [s1 Hs1]. rewrite (slot_at_ok t (T1, h1 t (key e)) s1 Hs1). ret_step. case_decide as Ho1.
  2: { destruct (place_ok t (T1, h1 t (key e)) s1 e Hw Hs1 Ho1 eq_refl) as (t' & -> & Hw' & Ha & Hn & HP). ret_step. by eexists _, (inl _). }
  destruct (displace_ok t (T1, h1 t (key e)) s1 e Hw Hs1 Ho1 He eq_refl) as (t1 & -> & Hw1 & Ha1 & Hn1 & Hst1 & HP1 & Hr1 & _). ret_step. cbn [fst snd decide] in *. change (stash_ t1 = stash_ t) in Hst1.
  destruct (wf_slot2 t1 (key s1) Hw1) as [s2 Hs2]. rewrite (slot_at_ok t1 (T2, h2 t1 (key s1)) s2 Hs2). ret_step. case_decide as Ho2.
  2: { destruct (place_ok t1 (T2, h2 t1 (key s1)) s2 s1 Hw1 Hs2 Ho2 eq_refl) as (t' & -> & Hw' & Ha & Hn & HP). ret_step. eexists _, (inl _). split; [done|]. split; [done|]. split; [by etrans|]. split; [by rewrite Hn, Hn1|]. by rewrite HP, HP1. }
  destruct (displace_ok t1 (T2, h2 t1 (key s1)) s2 s1 Hw1 Hs2 Ho2 Ho1 eq_refl) as (t2 & -> & Hw2 & Ha2 & Hn2 & Hst2 & HP2 & Hr2 & Hne2). ret_step. cbn [fst snd decide] in *. change (stash_ t2 = stash_ t1) in Hst2.
  destruct (IH t2 s2 Hw2 Ho2) as (t' & r & Hk & Hw' & Ha & Hc). rewrite Hk. exists t', r. split; [done|]. split; [done|]. split; [by repeat (etrans; [done|])|]. destruct r as [p|e'].
  - destruct Hc as [Hn HP]. split; [by rewrite Hn, Hn2, Hn1|]. by rewrite HP, HP2, HP1.
  - destruct Hc as (He' & Hn & Hst & HP & Hne). split; [done|]. split; [by rewrite Hn, Hn2, Hn1|]. split; [by rewrite Hst, Hst2|]. split; [by rewrite HP, HP2, HP1|]. intros _. destruct kicks as [|kicks]; [|apply Hne; lia].
    cbn in Hk. injection Hk as <- _.
    split; intros H0.
    + assert ((key e, value e) ∈ contents (table1_ t2)) as Hin; [|rewrite H0 in Hin; by apply not_elem_of_nil in Hin]. eapply in_contents; [|done]. rewrite <- (Hne2 T1) in Hr1 by done. exact Hr1.
    + assert ((key s1, value s1) ∈ contents (table2_ t2)) as Hin; [|rewrite H0 in Hin; by apply not_elem_of_nil in Hin]. eapply in_contents; [|done]. exact Hr2.
Qed.

(** ** The stash, and one attempt *)
Lemma stash_free_spec slots : forall i, match stash_free slots i with
  | Some j => exists n s, j = i + n /\ slots !! n = Some s /\ ~ occupied s
  | None => Forall occupied slots
  end.
Proof.
  induction slots as [|s slots IH]; intros i; cbn [stash_free]; [constructor|]. case_decide as Ho; [|exists 0, s; split_and!; [lia|done|done]].
  specialize (IH (S i)). destruct stash_free as [j|]; [|by constructor]. destruct IH as (n & s' & -> & Hs' & Ho'). exists (S n), s'. split_and!; [lia|done|done].
Qed.

Lemma contents_occupied slots : Forall occupied slots -> length (contents slots) = length slots.
Proof.
  intros H. unfold contents. induction H as [|s slots Ho _ IH]; [done|]. cbn. assert (stored s = Some (key s, value s)) as -> by (by apply stored_Some). cbn. by rewrite IH.
Qed.

Lemma try_place_ok t e : wf t -> occupied e -> exists t' (r : Position + Slot K V), try_place t e = Ret (t', r) /\ wf t' /\ alike t t' /\
  match r with
  | inl _ => size_ t' = S (size_ t) /\ all_contents t' ≡ₚ (key e, value e) :: all_contents t
  | inr e' => occupied e' /\ size_ t' = size_ t /\ (key e', value e') :: all_contents t' ≡ₚ (key e, value e) :: all_contents t /\ 10 <= length (all_contents t')
  end.
Proof.
  intros Hw He. unfold try_place. destruct (kick_loop_ok (max_kicks t) t e Hw He) as (t' & r & -> & Hw' & Ha & Hc). ret_step. destruct r as [p|e']; [by exists t', (inl p)|].
  destruct Hc as (He' & Hn & Hst & HP & Hne). pose proof (stash_free_spec (stash_ t') 0) as Hf. destruct stash_free as [i|].
  - destruct Hf as (i' & s & Hi & Hs & Ho). cbn in Hi. subst i. destruct (place_ok t' (STASH, i') s e' Hw' Hs Ho I) as (t'' & -> & Hw'' & Ha' & Hn' & HP'). ret_step. eexists t'', (inl _). split; [done|]. split; [done|]. split; [by etrans|].
    split; [by rewrite Hn', Hn|]. by rewrite HP', HP.
  - exists t', (inr e'). split; [done|]. split; [done|]. split; [done|]. split; [done|]. split; [done|]. split; [done|].
    destruct Hne as [H1 H2]; [unfold max_kicks; lia|]. unfold all_contents. rewrite !length_app, (contents_occupied _ Hf), (wf_stash _ Hw'). unfold STASH_SIZE.
    destruct (contents (table1_ t')); [done|]. destruct (contents (table2_ t')); [done|]. cbn. lia.
Qed.

(** ** Lookup *)
Lemma stash_find_spec slots k : forall i, match stash_find slots k i with
  | Some j => exists n s, j = i + n /\ slots !! n = Some s /\ occupied s /\ key s = k
  | None => forall s, s ∈ slots -> occupied s -> key s <> k
  end.
Proof.
  induction slots as [|s slots IH]; intros i; cbn [stash_find]; [by intros s ?%not_elem_of_nil|]. case_decide as Ho; [exists 0, s; split_and!; [lia|done|by destruct Ho..]|].
  specialize (IH (S i)). destruct stash_find as [j|]; [|intros s' [->|Hin]%elem_of_cons; [naive_solver|by apply IH]]. destruct IH as (n & s' & -> & Hs' & Ho'). exists (S n), s'. split_and!; [lia|done|by destruct Ho'..].
Qed.

Lemma find_slot_ok t k : wf t -> exists r : option Position, find_slot t k = Ret r /\
  match r with
  | Some p => exists s, region t p.1 !! p.2 = Some s /\ occupied s /\ key s = k
  | None => k ∉ (all_contents t).*1
  end.
Proof.
  intros Hw. unfold find_slot. destruct (wf_slot1 t k Hw) as [s1 Hs1]. rewrite decide_False by (intros H0; cbn in Hs1; by rewrite H0 in Hs1). cbn [region] in Hs1. rewrite (vget_Some _ _ _ Hs1). ret_step.
  case_decide as H1; [eexists; split; [done|]; by exists s1|]. destruct (wf_slot2 t k Hw) as [s2 Hs2]. cbn [region] in Hs2. rewrite (vget_Some _ _ _ Hs2). ret_step. case_decide as H2; [eexists; split; [done|]; by exists s2|].
  eexists. split; [done|]. pose proof (stash_find_spec (stash_ t) k 0) as Hst. destruct stash_find as [j|]; cbn.
  - destruct Hst as (n & s & -> & Hs & Ho & Hk). by exists s.
  - intros ((k' & v) & -> & Hin)%list_elem_of_fmap. unfold all_contents, contents in Hin. rewrite !elem_of_app, !list_elem_of_omap in Hin. cbn [fst] in *. destruct Hin as [(s & Hs & [Ho [= -> ->]]%stored_Some)|[(s & Hs & [Ho [= -> ->]]%stored_Some)|(s & Hs & [Ho [= -> ->]]%stored_Some)]].
    + apply list_elem_of_lookup in Hs as [i Hi]. pose proof (wf_fits _ Hw (T1, i) s Hi Ho) as Hf. cbn in Hf. rewrite Hf in Hs1. rewrite Hs1 in Hi. injection Hi as ->. by apply H1.
    + apply list_elem_of_lookup in Hs as [i Hi]. pose proof (wf_fits _ Hw (T2, i) s Hi Ho) as Hf. cbn in Hf. rewrite Hf in Hs2. rewrite Hs2 in Hi. injection Hi as ->. by apply H2.
    + by apply (Hst s Hs Ho).
Qed.

(** ** Rehashing *)
Lemma next_power_of_two_any c : (0 <= c < 2 ^ 64)%Z -> exists n : nat, 2 <= n < 64 /\ Z.max INITIAL_CAPACITY (next_power_of_two c) = (2 ^ Z.of_nat n)%Z.
Proof.
  intros Hc. unfold INITIAL_CAPACITY. destruct (decide (c <= 2 ^ 63)%Z) as [Hle|Hgt].
  - rewrite next_power_of_two_spec by done. destruct (decide (Z.log2_up c <= 2)%Z) as [H2|H2].
    + exists 2. split; [lia|]. assert (2 ^ Z.log2_up c <= 2 ^ 2)%Z by (apply Z.pow_le_mono_r; lia). lia.
    + exists (Z.to_nat (Z.log2_up c)). assert (1 < c)%Z by (destruct (decide (c <= 1)%Z); [rewrite Z.log2_up_eqn0 in H2 by lia|]; lia).
      assert (Z.log2_up c <= 63)%Z by (apply Z.log2_up_le_pow2; lia). split; [lia|]. rewrite Z2Nat.id by lia. assert (2 ^ 2 <= 2 ^ Z.log2_up c)%Z by (apply Z.pow_le_mono_r; lia). lia.
  - exists 2. split; [lia|]. unfold next_power_of_two. rewrite decide_False by lia. rewrite smear_all, decide_False by lia.
    assert (Z.log2 (c - 1) = 63)%Z as -> by (apply Z.log2_unique; [lia|change (Z.succ 63) with 64%Z; lia]). done.
Qed.

Lemma contents_vacate slots : contents (vacate <$> slots) = [].
Proof. unfold contents. induction slots as [|s slots IH]; [done|]. cbn. by rewrite IH. Qed.

Lemma cuckoo_contents_replicate n : contents (replicate n empty_slot) = [].
Proof. unfold contents. induction n as [|n IH]; [done|]. cbn. by rewrite IH. Qed.

Lemma unoccupied (X : list (Slot K V)) i s : contents X = [] -> X !! i = Some s -> ~ occupied s.
Proof. intros H0 Hs Ho. pose proof (in_contents _ _ _ Hs Ho) as Hin. rewrite H0 in Hin. by apply not_elem_of_nil in Hin. Qed.

Lemma alloc_wf t c (n : nat) : u64 (seed_ t) = seed_ t -> 2 <= n < 64 -> c = (2 ^ Z.of_nat n)%Z -> length (stash_ t) = STASH_SIZE -> contents (stash_ t) = [] ->
  wf (alloc_tables t c) /\ all_contents (alloc_tables t c) = [] /\ length (table1_ (alloc_tables t c)) = 2 ^ n.
Proof.
  intros Hseed Hn -> Hst H0. assert (Z.to_nat (2 ^ Z.of_nat n) = 2 ^ n) as Hp. { change 2%Z with (Z.of_nat 2). by rewrite <- Nat2Z.inj_pow, Nat2Z.id. }
  unfold alloc_tables. rewrite Hp. split; [split|split]; cbn; rewrite ?length_replicate; try done.
  - by exists n.
  - by rewrite Nat2Z.inj_pow.
  - by rewrite Nat2Z.inj_pow.
  - intros [[] i] s Hs Ho; exfalso; cbn in Hs; (eapply unoccupied; [|exact Hs|exact Ho]); try done; apply cuckoo_contents_replicate.
  - unfold all_contents. cbn. rewrite cuckoo_contents_replicate. exact H0.
Qed.

Definition sized t : Prop := size_ t = length (all_contents t).

Lemma sized_placed t t' x : sized t -> size_ t' = S (size_ t) -> all_contents t' ≡ₚ x :: all_contents t -> sized t'.
Proof. unfold sized. intros Hs Hn ->. cbn. lia. Qed.

(** A function that inserts an entry, unless it exhausts its fuel on a map of [L] or more entries. *)
Definition ins_ok (L : nat) (ins : CuckooHashMap K V D -> Slot K V -> outcome (CuckooHashMap K V D)) : Prop := forall t e, wf t -> sized t -> occupied e ->
  (ins t e = NoFuel /\ L <= length (all_contents t)) \/
  exists t', ins t e = Ret t' /\ wf t' /\ max_load_factor_ t' = max_load_factor_ t /\ sized t' /\ all_contents t' ≡ₚ (key e, value e) :: all_contents t.

Lemma reinsert_ok L ins slots : ins_ok L ins -> forall t, wf t -> sized t ->
  (reinsert ins t slots = NoFuel /\ L < length (contents slots) + length (all_contents t)) \/
  exists t', reinsert ins t slots = Ret t' /\ wf t' /\ max_load_factor_ t' = max_load_factor_ t /\ sized t' /\ all_contents t' ≡ₚ contents slots ++ all_contents t.
Proof.
  intros Hins. induction slots as [|s slots IH]; intros t Hw Hs; cbn [reinsert]; [right; by exists t|]. assert (contents (s :: slots) = option_list (stored s) ++ contents slots) as Hc by (unfold contents; cbn; by destruct (stored s)).
  rewrite Hc. case_decide as Ho; [|apply stored_None in Ho; rewrite Ho; by apply IH]. assert (stored s = Some (key s, value s)) as -> by (by apply stored_Some).
  change (option_list (Some (key s, value s)) ++ contents slots) with ((key s, value s) :: contents slots). cbn [length].
  destruct (Hins t s Hw Hs Ho) as [[-> HL]|(t1 & -> & Hw1 & Hm1 & Hn1 & HP1)]; [left; split; [done|lia]|]. ret_step. destruct (IH t1 Hw1 Hn1) as [[-> HL]|(t2 & -> & Hw2 & Hm2 & Hn2 & HP2)].
  - left. split; [done|]. rewrite HP1 in HL. cbn in HL. lia.
  - right. exists t2. split; [done|]. split; [done|]. split; [by rewrite Hm2|]. split; [done|]. rewrite HP2, HP1. by rewrite <- Permutation_middle.
Qed.

Lemma rehash_with_ok L ins t c : ins_ok L ins -> wf t -> (0 <= c < 2 ^ 64)%Z ->
  (rehash_with ins t c = NoFuel /\ L < length (all_contents t)) \/
  exists t', rehash_with ins t c = Ret t' /\ wf t' /\ max_load_factor_ t' = max_load_factor_ t /\ sized t' /\ all_contents t' ≡ₚ all_contents t.
Proof.
  intros Hins Hw Hc. unfold rehash_with. destruct (next_power_of_two_any c Hc) as (n & Hn & ->). set (cleared := mkCuckoo _ _ _ _ _ _ _ _).
  assert (u64 (seed_ cleared) = seed_ cleared) as Hseed by (cbn; unfold u64; by rewrite Zmod_mod).
  destruct (alloc_wf cleared _ n Hseed Hn eq_refl) as (Hw0 & H0 & _); [cbn; rewrite length_fmap; by apply wf_stash|apply contents_vacate|]. assert (sized (alloc_tables cleared (2 ^ Z.of_nat n))) as Hs0 by (by unfold sized; rewrite H0). assert (length (all_contents t) = length (contents (table1_ t)) + (length (contents (table2_ t)) + length (contents (stash_ t)))) as Hl by (unfold all_contents; by rewrite !length_app).
  destruct (reinsert_ok L ins (table1_ t) Hins _ Hw0 Hs0) as [[-> HL]|(t1 & -> & Hw1 & Hm1 & Hn1 & HP1)]; [left; split; [done|rewrite H0 in HL; cbn in HL; lia]|]. ret_step. rewrite H0, app_nil_r in HP1.
  destruct (reinsert_ok L ins (table2_ t) Hins _ Hw1 Hn1) as [[-> HL]|(t2 & -> & Hw2 & Hm2 & Hn2 & HP2)]; [left; split; [done|rewrite HP1 in HL; lia]|]. ret_step. rewrite HP1 in HP2.
  destruct (reinsert_ok L ins (stash_ t) Hins _ Hw2 Hn2) as [[-> HL]|(t3 & -> & Hw3 & Hm3 & Hn3 & HP3)]; [left; split; [done|rewrite HP2, length_app in HL; lia]|].
  right. exists t3. split; [done|]. split; [done|]. split; [by rewrite Hm3, Hm2, Hm1|]. split; [done|]. rewrite HP3, HP2. unfold all_contents. rewrite Permutation_app_comm, (Permutation_app_comm (contents (table2_ t))). by rewrite <- app_assoc.
Qed.

(** With fuel a nested rehash happens only with ten entries. *)
Definition limit (fuel : nat) : nat := match fuel with O => 0 | S _ => 10 end.

Lemma twice_range t : (0 <= twice t < 2 ^ 64)%Z.
Proof. apply Z.mod_pos_bound. lia. Qed.

Lemma insert_no_resize_ok fuel : ins_ok (limit fuel) (insert_no_resize fuel).
Proof.
  induction fuel as [|fuel IH]; intros t e Hw Hs He; [left; split; [done|cbn; lia]|]. cbn [insert_no_resize limit]. destruct (try_place_ok t e Hw He) as (t1 & r & -> & Hw1 & Ha1 & Hc). ret_step. destruct r as [p|e'].
  - right. exists t1. destruct Hc as [Hn HP]. split_and!; try done; [by destruct Ha1|]. by eapply sized_placed.
  - destruct Hc as (He' & Hn & HP & Hlen). assert (10 <= length (all_contents t)) as Hten by (apply Permutation_length in HP; cbn in HP; lia).
    assert (sized t1) as Hs1 by (unfold sized in *; apply Permutation_length in HP; cbn in HP; lia).
    destruct (rehash_with_ok _ _ t1 (twice t1) IH Hw1 (twice_range t1)) as [[-> _]|(t2 & -> & Hw2 & Hm2 & Hn2 & HP2)]; [by left|]. ret_step.
    destruct (IH t2 e' Hw2 Hn2 He') as [[-> _]|(t3 & -> & Hw3 & Hm3 & Hn3 & HP3)]; [by left|]. right. exists t3. split; [done|]. split; [done|]. split; [destruct Ha1; congruence|]. split; [done|]. by rewrite HP3, HP2, HP.
Qed.

Lemma rehash_impl_ok fuel t c : wf t -> (0 <= c < 2 ^ 64)%Z ->
  (rehash_impl fuel t c = NoFuel /\ limit fuel < length (all_contents t)) \/
  exists t', rehash_impl fuel t c = Ret t' /\ wf t' /\ max_load_factor_ t' = max_load_factor_ t /\ sized t' /\ all_contents t' ≡ₚ all_contents t.
Proof. intros Hw Hc. by apply (rehash_with_ok _ _ t c (insert_no_resize_ok fuel)). Qed.

Lemma insert_new_entry_ok fuel : forall t e, wf t -> sized t -> occupied e ->
  (insert_new_entry fuel t e = NoFuel /\ limit fuel <= length (all_contents t)) \/
  exists t' p, insert_new_entry fuel t e = Ret (t', p) /\ wf t' /\ sized t' /\ all_contents t' ≡ₚ (key e, value e) :: all_contents t.
Proof.
  induction fuel as [|fuel IH]; intros t e Hw Hs He; [left; split; [done|cbn; lia]|]. cbn [insert_new_entry limit]. destruct (try_place_ok t e Hw He) as (t1 & r & -> & Hw1 & Ha1 & Hc). ret_step. destruct r as [p|e'].
  - right. exists t1, p. destruct Hc as [Hn HP]. split_and!; try done. by eapply sized_placed.
  - destruct Hc as (He' & Hn & HP & Hlen). assert (10 <= length (all_contents t)) as Hten by (apply Permutation_length in HP; cbn in HP; lia).
    destruct (rehash_impl_ok fuel t1 (twice t1) Hw1 (twice_range t1)) as [[-> _]|(t2 & -> & Hw2 & Hm2 & Hs2 & HP2)]; [by left|]. ret_step.
    destruct (IH t2 e' Hw2 Hs2 He') as [[-> _]|(t3 & p & -> & Hw3 & Hs3 & HP3)]; [by left|]. right. exists t3, p. split_and!; try done. by rewrite HP3, HP2, HP.
Qed.

Lemma ensure_capacity_ok fuel t : wf t -> sized t ->
  (ensure_capacity fuel t = NoFuel /\ limit fuel < length (all_contents t)) \/
  exists t', ensure_capacity fuel t = Ret t' /\ wf t' /\ sized t' /\ all_contents t' ≡ₚ all_contents t.
Proof.
  intros Hw Hs. unfold ensure_capacity. case_decide; [|right; by exists t]. match goal with |- context [rehash_impl fuel t ?c] => destruct (rehash_impl_ok fuel t c Hw) as [[-> HL]|(t' & -> & Hw' & _ & Hs' & HP)] end; [|by left|right; by exists t'].
  case_decide; [unfold INITIAL_CAPACITY; lia|apply twice_range].
Qed.

(** ** The map a table holds *)
Record rep t (m : gmap K V) : Prop := {
  rep_wf : wf t;
  rep_sized : sized t;
  rep_nodup : NoDup (all_contents t).*1;
  rep_map : list_to_map (all_contents t) = m;
}.

Lemma rep_perm t t' m : rep t m -> wf t' -> sized t' -> all_contents t' ≡ₚ all_contents t -> rep t' m.
Proof. intros [] Hw Hs HP. split; [done|done|by rewrite HP|]. rewrite <- rep_map0. apply list_to_map_proper; [|done]. by rewrite HP. Qed.

Lemma in_all_contents t p s : region t p.1 !! p.2 = Some s -> occupied s -> (key s, value s) ∈ all_contents t.
Proof. intros Hs Ho. pose proof (in_contents _ _ _ Hs Ho) as Hin. unfold all_contents. rewrite !elem_of_app. destruct p as [[] i]; cbn in Hin; auto. Qed.

Lemma cuckoo_rep_size t m : rep t m -> size_ t = base.size m.
Proof. intros []. rewrite <- rep_map0, <- size_dom, dom_list_to_map_L, size_list_to_set by done. by rewrite rep_sized0, length_fmap. Qed.

Lemma cuckoo_rep_find t m k : rep t m -> exists r : option Position, find_slot t k = Ret r /\
  match r with Some p => exists s, region t p.1 !! p.2 = Some s /\ occupied s /\ key s = k /\ m !! k = Some (value s) | None => m !! k = None end.
Proof.
  intros []. destruct (find_slot_ok t k rep_wf0) as (r & -> & Hr). exists r. split; [done|]. destruct r as [p|].
  - destruct Hr as (s & Hs & Ho & <-). exists s. split_and!; try done. rewrite <- rep_map0. apply elem_of_list_to_map_1; [done|]. by eapply in_all_contents.
  - rewrite <- rep_map0. by apply not_elem_of_list_to_map_1.
Qed.

Lemma rep_cons t t' m k v : rep t m -> m !! k = None -> wf t' -> sized t' -> all_contents t' ≡ₚ (k, v) :: all_contents t -> rep t' (<[k := v]> m).
Proof.
  intros [] Hk Hw Hs HP. assert (NoDup ((k, v) :: all_contents t).*1) as Hnd by (cbn; apply NoDup_cons; split; [apply not_elem_of_list_to_map; by rewrite rep_map0|done]).
  assert (NoDup (all_contents t').*1) as Hnd' by (by rewrite HP). split; [done|done|done|]. rewrite (list_to_map_proper _ _ Hnd' HP). cbn. by rewrite rep_map0.
Qed.

(** The value of an occupied slot is assigned. *)
Lemma set_value_ok t m p s v : rep t m -> region t p.1 !! p.2 = Some s -> occupied s -> exists t', set_value t p v = Ret t' /\ rep t' (<[key s := v]> m).
Proof.
  intros [] Hs Ho. unfold set_value. rewrite (slot_at_ok _ _ _ Hs). ret_step. pose proof (wf_fits _ rep_wf0 _ _ Hs Ho) as Hf. destruct (set_slot_ok t p s (mkSlot (state s) (key s) v) rep_wf0 Hs (fun _ => Hf)) as (t' & -> & _ & Hw & _ & Hn & HP). exists t'. split; [done|].
  assert (stored s = Some (key s, value s)) as H1 by (by apply stored_Some). assert (stored (mkSlot (state s) (key s) v) = Some (key s, v)) as H2 by (by apply stored_Some). rewrite H1, H2 in HP. cbn in HP.
  destruct (elem_of_Permutation (all_contents t) (key s, value s)) as [[rest Hrest] _]; [by eapply in_all_contents|]. rewrite Hrest in HP. rewrite (Permutation_swap (key s, value s)) in HP. apply Permutation_cons_inv in HP.
  assert (NoDup ((key s, v) :: rest).*1) as Hnd by (by rewrite Hrest in rep_nodup0). assert (NoDup (all_contents t').*1) as Hnd' by (by rewrite HP).
  split; [done|unfold sized in *; rewrite Hn, rep_sized0, HP, Hrest; done|done|]. rewrite (list_to_map_proper _ _ Hnd' HP). rewrite <- rep_map0. rewrite (list_to_map_proper (all_contents t) _ rep_nodup0 Hrest). cbn. by rewrite insert_insert_eq.
Qed.

Lemma erase_at_ok t m p s : rep t m -> region t p.1 !! p.2 = Some s -> occupied s -> exists t', erase_at t p = Ret t' /\ rep t' (delete (key s) m).
Proof.
  intros [] Hs Ho. unfold erase_at. rewrite (slot_at_ok _ _ _ Hs). ret_step. destruct (set_slot_ok t p s (vacate s) rep_wf0 Hs ltac:(done)) as (t' & -> & _ & Hw & Ha & Hn & HP). ret_step. eexists. split; [done|].
  assert (stored s = Some (key s, value s)) as H1 by (by apply stored_Some). rewrite H1 in HP. cbn in HP. assert (NoDup ((key s, value s) :: all_contents t').*1) as Hnd by (by rewrite HP).
  split; [by destruct Hw; split|unfold sized in *; cbn [size_ with_size]; rewrite Hn, rep_sized0, <- HP; cbn; apply Nat.sub_0_r|cbn in Hnd; by apply NoDup_cons in Hnd as [_ ?]|].
  rewrite <- rep_map0, <- (list_to_map_proper _ _ Hnd HP). cbn in Hnd |- *. apply NoDup_cons in Hnd as [Hk _]. rewrite delete_insert_id; [done|]. by apply not_elem_of_list_to_map_1.
Qed.

(** ** The maximum load factor changes by assignment only *)
#[local] Abbreviation mlf := max_load_factor_.

Definition keeps_mlf (ins : CuckooHashMap K V D -> Slot K V -> outcome (CuckooHashMap K V D)) : Prop := forall t s t', ins t s = Ret t' -> mlf t' = mlf t.

Lemma set_slot_mlf t p s t' : set_slot t p s = Ret t' -> mlf t' = mlf t.
Proof. unfold set_slot. intros (slots & _ & [= <-])%bind_Ret_inv. by destruct p as [[] ?]. Qed.

Lemma place_mlf t p e t' : place t p e = Ret t' -> mlf t' = mlf t.
Proof. unfold place. intros (t1 & H%set_slot_mlf & [= <-])%bind_Ret_inv. exact H. Qed.

Lemma kick_loop_mlf kicks : forall t e t' o, kick_loop kicks t e = Ret (t', o) -> mlf t' = mlf t.
Proof.
  induction kicks as [|kicks IH]; intros t e t' o; cbn [kick_loop]; [by intros [= <- _]|]. intros (s1 & _ & H)%bind_Ret_inv. destruct (decide (occupied s1)).
  - apply bind_Ret_inv in H as (t1 & E1%set_slot_mlf & H). apply bind_Ret_inv in H as (s2 & _ & H). destruct (decide (occupied s2)).
    + apply bind_Ret_inv in H as (t2 & E2%set_slot_mlf & H). rewrite (IH _ _ _ _ H). congruence.
    + apply bind_Ret_inv in H as (t2 & E2%place_mlf & [= <- _]). congruence.
  - apply bind_Ret_inv in H as (t1 & E1%place_mlf & [= <- _]). done.
Qed.

Lemma try_place_mlf t e t' o : try_place t e = Ret (t', o) -> mlf t' = mlf t.
Proof.
  unfold try_place. intros ([t1 [p|e1]] & E1%kick_loop_mlf & H)%bind_Ret_inv; [by injection H as <- _|]. destruct (stash_free (stash_ t1) 0); [|by injection H as <- _].
  apply bind_Ret_inv in H as (t2 & E2%place_mlf & [= <- _]). congruence.
Qed.

Lemma reinsert_mlf ins slots : keeps_mlf ins -> forall t t', reinsert ins t slots = Ret t' -> mlf t' = mlf t.
Proof.
  intros Hins. induction slots as [|s slots IH]; intros t t'; cbn [reinsert]; [by intros [= <-]|]. destruct (decide (occupied s)); [|apply IH].
  intros (t1 & E1%Hins & H%IH)%bind_Ret_inv. congruence.
Qed.

Lemma rehash_with_mlf ins t c t' : keeps_mlf ins -> rehash_with ins t c = Ret t' -> mlf t' = mlf t.
Proof.
  intros Hins. unfold rehash_with. intros (t1 & E1%(reinsert_mlf _ _ Hins) & H)%bind_Ret_inv. apply bind_Ret_inv in H as (t2 & E2%(reinsert_mlf _ _ Hins) & H%(reinsert_mlf _ _ Hins)). cbn in *. congruence.
Qed.

Lemma insert_no_resize_mlf fuel : keeps_mlf (insert_no_resize fuel).
Proof.
  induction fuel as [|fuel IH]; intros t e t'; cbn [insert_no_resize]; [done|]. intros ([t1 [p|e1]] & E1%try_place_mlf & H)%bind_Ret_inv; [by injection H as <-|].
  apply bind_Ret_inv in H as (t2 & E2%(rehash_with_mlf _ _ _ _ IH) & H%IH). congruence.
Qed.

Lemma rehash_impl_mlf fuel t c t' : rehash_impl fuel t c = Ret t' -> mlf t' = mlf t.
Proof. apply rehash_with_mlf, insert_no_resize_mlf. Qed.

Lemma insert_new_entry_mlf fuel : forall t e t' p, insert_new_entry fuel t e = Ret (t', p) -> mlf t' = mlf t.
Proof.
  induction fuel as [|fuel IH]; intros t e t' p; cbn [insert_new_entry]; [done|]. intros ([t1 [p1|e1]] & E1%try_place_mlf & H)%bind_Ret_inv; [by injection H as <- _|].
  apply bind_Ret_inv in H as (t2 & E2%rehash_impl_mlf & H%IH). congruence.
Qed.

Lemma ensure_capacity_mlf fuel t t' : ensure_capacity fuel t = Ret t' -> mlf t' = mlf t.
Proof. unfold ensure_capacity. cbv zeta. destruct (decide _); [apply rehash_impl_mlf|by intros [= <-]]. Qed.

Lemma insert_mlf fuel t k v t' p b : insert fuel t k v = Ret (t', p, b) -> mlf t' = mlf t.
Proof.
  unfold insert. intros ([p1|] & _ & H)%bind_Ret_inv; [by injection H as <- _ _|]. apply bind_Ret_inv in H as (t1 & E1%ensure_capacity_mlf & H).
  apply bind_Ret_inv in H as ([t2 p2] & E2%insert_new_entry_mlf & [= <- _ _]). congruence.
Qed.

Lemma set_value_mlf t p v t' : set_value t p v = Ret t' -> mlf t' = mlf t.
Proof. unfold set_value. intros (s & _ & H%set_slot_mlf)%bind_Ret_inv. exact H. Qed.

Lemma insert_or_assign_mlf fuel t k v t' p b : insert_or_assign fuel t k v = Ret (t', p, b) -> mlf t' = mlf t.
Proof.
  unfold insert_or_assign. intros ([p1|] & _ & H)%bind_Ret_inv; [apply bind_Ret_inv in H as (t1 & E1%set_value_mlf & [= <- _ _]); done|].
  apply bind_Ret_inv in H as (t1 & E1%ensure_capacity_mlf & H). apply bind_Ret_inv in H as ([t2 p2] & E2%insert_new_entry_mlf & [= <- _ _]). congruence.
Qed.

Lemma erase_at_mlf t p t' : erase_at t p = Ret t' -> mlf t' = mlf t.
Proof. unfold erase_at. intros (s & _ & H)%bind_Ret_inv. by apply bind_Ret_inv in H as (t1 & H%set_slot_mlf & [= <-]). Qed.

Lemma rehash_mlf fuel t c t' : rehash fuel t c = Ret t' -> mlf t' = mlf t.
Proof. unfold rehash. cbv zeta. destruct (decide _); [by intros [= <-]|apply rehash_impl_mlf]. Qed.

(** ** Operations and their specification *)
Inductive ck_op :=
| Insert (k : K) (v : V) | InsertOrAssign (k : K) (v : V) | IndexAssign (k : K) (v : V) | Erase (k : K) | EraseFound (k : K) | Find (k : K) | Contains (k : K) | At (k : K)
| Size | Empty | Clear | Rehash (c : Z) | Reserve (n : nat) | SetMaxLoadFactor (d : D).

Definition ck_step (fuel : nat) t (op : ck_op) : outcome (CuckooHashMap K V D * obs V) :=
  match op with
  | Insert k v => '(t, _, b) ← insert fuel t k v; Ret (t, OBool b)
  | InsertOrAssign k v => '(t, _, b) ← insert_or_assign fuel t k v; Ret (t, OBool b)
  | IndexAssign k v => t ← index_assign fuel t k v; Ret (t, ODone)
  | Erase k => '(t, b) ← erase t k; Ret (t, OBool b)
  | EraseFound k => it ← find_slot t k; '(t, _) ← erase_iterator t it; Ret (t, ODone)
  | Find k => r ← find t k; Ret (t, OOpt r)
  | Contains k => b ← contains t k; Ret (t, OBool b)
  | At k => v ← at_ t k; Ret (t, OVal v)
  | Size => Ret (t, ONum (size t))
  | Empty => Ret (t, OBool (empty t))
  | Clear => Ret (clear t, ODone)
  | Rehash c => t ← rehash fuel t (u64 c); Ret (t, ODone)
  | Reserve n => t ← reserve fuel t n; Ret (t, ODone)
  | SetMaxLoadFactor d => t ← set_max_load_factor fuel t d; Ret (t, ODone)
  end.

(** The map and the maximum load factor.  The contract leaves undefined a [reserve] whose quotient is no [size_t], as C++ does,
    and an assignment through [operator\[\]] to an absent key: see [cuckoo_index_overwrites]. *)
Definition ck_spec (a : gmap K V * D) (op : ck_op) : outcome (gmap K V * D * obs V) :=
  let '(m, d) := a in
  match op with
  | Insert k v => match m !! k with Some _ => Ret (m, d, OBool false) | None => Ret (<[k := v]> m, d, OBool true) end
  | InsertOrAssign k v => Ret (<[k := v]> m, d, OBool (bool_decide (m !! k = None)))
  | IndexAssign k v => match m !! k with Some _ => Ret (<[k := v]> m, d, ODone) | None => Undef end
  | Erase k => Ret (delete k m, d, OBool (bool_decide (is_Some (m !! k))))
  | EraseFound k => Ret (delete k m, d, ODone)
  | Find k => Ret (m, d, OOpt (m !! k))
  | Contains k => Ret (m, d, OBool (bool_decide (is_Some (m !! k))))
  | At k => match m !! k with Some v => Ret (m, d, OVal v) | None => Throw out_of_range end
  | Size => Ret (m, d, ONum (base.size m))
  | Empty => Ret (m, d, OBool (bool_decide (m = ∅)))
  | Clear => Ret (∅, d, ODone)
  | Rehash _ => Ret (m, d, ODone)
  | Reserve n => _ ← to_size (needed d n); Ret (m, d, ODone)
  | SetMaxLoadFactor d => Ret (m, d, ODone)
  end.

Lemma cuckoo_rep_length t m : rep t m -> length (all_contents t) = base.size m.
Proof. intros HR. rewrite <- (cuckoo_rep_size t m HR). by destruct HR. Qed.

Lemma rehash_ok fuel t m c : rep t m -> (0 <= c < 2 ^ 64)%Z -> (rehash (S fuel) t c = NoFuel /\ 10 < base.size m) \/ exists t', rehash (S fuel) t c = Ret t' /\ rep t' m.
Proof.
  intros HR Hc. unfold rehash. case_decide; [right; by exists t|]. assert (0 <= per_table_of c < 2 ^ 64)%Z as Hp.
  { unfold per_table_of. assert (0 <= c / 2 < 2 ^ 63)%Z by (split; [apply Z.div_pos; lia|apply Z.div_lt_upper_bound; lia]). destruct (next_power_of_two_any (c / 2 + 1)) as (n & Hn & ->); [lia|]. split; [apply Z.pow_nonneg; lia|apply Z.pow_lt_mono_r; lia]. }
  destruct (rehash_impl_ok (S fuel) t _ (rep_wf _ _ HR) Hp) as [[-> HL]|(t' & -> & Hw & _ & Hs & HP)]; [left; by rewrite <- (cuckoo_rep_length t m HR)|]. right. exists t'. split; [done|]. by eapply rep_perm.
Qed.

Lemma rep_with_mlf t m d : rep t m -> rep (mkCuckoo (table1_ t) (table2_ t) (stash_ t) (size_ t) (seed_ t) (mask1_ t) (mask2_ t) d) m.
Proof. intros [[] ? ? ?]. split; [split| | |]; done. Qed.

(** Insertion of an absent key, after the search. *)
Lemma insert_absent_ok fuel t m k v : rep t m -> m !! k = None ->
  ((t ← ensure_capacity (S fuel) t; insert_new_entry (S fuel) t (mkSlot OCCUPIED k v)) = NoFuel /\ 10 <= base.size m) \/
  exists t' p, (t ← ensure_capacity (S fuel) t; insert_new_entry (S fuel) t (mkSlot OCCUPIED k v)) = Ret (t', p) /\ rep t' (<[k := v]> m).
Proof.
  intros HR Hk. rewrite <- (cuckoo_rep_length t m HR). destruct (ensure_capacity_ok (S fuel) t (rep_wf _ _ HR) (rep_sized _ _ HR)) as [[-> HL]|(t1 & -> & Hw & Hs & HP)]; [left; split; [done|cbn in HL; lia]|]. ret_step.
  assert (rep t1 m) as HR1 by (by eapply rep_perm). destruct (insert_new_entry_ok (S fuel) t1 (mkSlot OCCUPIED k v) Hw Hs eq_refl) as [[-> HL]|(t2 & p & -> & Hw2 & Hs2 & HP2)].
  - left. split; [done|]. by rewrite HP in HL.
  - right. exists t2, p. split; [done|]. by eapply rep_cons.
Qed.

Lemma cuckoo_insert_ok fuel t m k v : rep t m ->
  (insert (S fuel) t k v = NoFuel /\ m !! k = None /\ 10 <= base.size m) \/
  exists t' p, insert (S fuel) t k v = Ret (t', p, bool_decide (m !! k = None)) /\ rep t' (if decide (m !! k = None) then <[k := v]> m else m).
Proof.
  intros HR. unfold insert. destruct (cuckoo_rep_find t m k HR) as (r & -> & Hr). ret_step. destruct r as [p|].
  - destruct Hr as (s & _ & _ & _ & Hm). right. exists t, p. rewrite bool_decide_eq_false_2, decide_False by (by rewrite Hm). done.
  - rewrite <- (bind_assoc (ensure_capacity (S fuel) t)). destruct (insert_absent_ok fuel t m k v HR Hr) as [[-> HL]|(t' & p & -> & HR')]; [by left|]. right. exists t', p. by rewrite bool_decide_eq_true_2, decide_True by done.
Qed.

Lemma insert_or_assign_ok fuel t m k v : rep t m ->
  (insert_or_assign (S fuel) t k v = NoFuel /\ m !! k = None /\ 10 <= base.size m) \/
  exists t' p, insert_or_assign (S fuel) t k v = Ret (t', p, bool_decide (m !! k = None)) /\ rep t' (<[k := v]> m).
Proof.
  intros HR. unfold insert_or_assign. destruct (cuckoo_rep_find t m k HR) as (r & -> & Hr). ret_step. destruct r as [p|].
  - destruct Hr as (s & Hs & Ho & <- & Hm). destruct (set_value_ok t m p s v HR Hs Ho) as (t' & -> & HR'). ret_step. right. exists t', p. by rewrite bool_decide_eq_false_2 by (by rewrite Hm).
  - rewrite <- (bind_assoc (ensure_capacity (S fuel) t)). destruct (insert_absent_ok fuel t m k v HR Hr) as [[-> HL]|(t' & p & -> & HR')]; [by left|]. right. exists t', p. by rewrite bool_decide_eq_true_2 by done.
Qed.

Lemma cuckoo_erase_ok t m k : rep t m -> exists t', erase t k = Ret (t', bool_decide (is_Some (m !! k))) /\ rep t' (delete k m).
Proof.
  intros HR. unfold erase. destruct (cuckoo_rep_find t m k HR) as (r & -> & Hr). ret_step. destruct r as [p|].
  - destruct Hr as (s & Hs & Ho & <- & Hm). destruct (erase_at_ok t m p s HR Hs Ho) as (t' & -> & HR'). exists t'. by rewrite bool_decide_eq_true_2 by (by rewrite Hm).
  - exists t. rewrite bool_decide_eq_false_2 by (rewrite Hr; by intros []). split; [done|]. by rewrite delete_id.
Qed.

Lemma erase_found_ok t m k : rep t m -> exists (r : option Position) t' (r' : option Position), find_slot t k = Ret r /\ erase_iterator t r = Ret (t', r') /\ rep t' (delete k m).
Proof.
  intros HR. destruct (cuckoo_rep_find t m k HR) as (r & -> & Hr). exists r. destruct r as [p|]; cbn [erase_iterator].
  - destruct Hr as (s & Hs & Ho & <- & Hm). rewrite (slot_at_ok _ _ _ Hs). ret_step. rewrite decide_True by done. destruct (erase_at_ok t m p s HR Hs Ho) as (t' & -> & HR'). eexists t', _. split_and!; done.
  - exists t, None. split_and!; try done. by rewrite delete_id.
Qed.

Lemma cuckoo_clear_rep t m : rep t m -> rep (clear t) ∅.
Proof.
  intros [[Hc H2 Hm1 Hm2 Hst Hsd Hf] _ _ _]. assert (all_contents (clear t) = []) as H0 by (unfold all_contents; cbn; by rewrite !contents_vacate). split; [|by unfold sized; rewrite H0|rewrite H0; constructor|by rewrite H0].
  split; cbn; rewrite ?length_fmap; try done. intros [[] i] s Hs Ho; exfalso; cbn in Hs; (eapply unoccupied; [|exact Hs|exact Ho]); apply contents_vacate.
Qed.

Lemma cuckoo_new_rep : rep cuckoo_new ∅.
Proof.
  destruct (alloc_wf no_tables INITIAL_CAPACITY 2) as (Hw & H0 & _); [done|lia|done|done|apply cuckoo_contents_replicate|]. change (alloc_tables no_tables INITIAL_CAPACITY) with cuckoo_new in *. split; [done|unfold sized; by rewrite H0|rewrite H0; constructor|by rewrite H0].
Qed.

(** A map of the contract's load factor. *)
Definition rep_mlf t (a : gmap K V * D) : Prop := rep t a.1 /\ mlf t = a.2.

Lemma index_assign_present fuel t m k v v0 : rep t m -> m !! k = Some v0 -> exists t', index_assign fuel t k v = Ret t' /\ rep t' (<[k := v]> m) /\ mlf t' = mlf t.
Proof.
  intros HR Hk. unfold index_assign, insert. destruct (cuckoo_rep_find t m k HR) as (r & -> & Hr). ret_step. destruct r as [p|]; [|congruence]. destruct Hr as (s & Hs & Ho & <- & _). ret_step.
  destruct (set_value_ok t m p s v HR Hs Ho) as (t' & E & HR'). exists t'. split; [done|]. split; [done|]. by eapply set_value_mlf.
Qed.

(** Every operation does what the specification says, unless it needs more fuel, on more than ten entries. *)
Lemma ck_step_ok fuel t a op : rep_mlf t a ->
  (ck_step (S fuel) t op = NoFuel /\ exists a' o, ck_spec a op = Ret (a', o) /\ 10 < base.size a'.1) \/
  match ck_spec a op with
  | Ret (a', o) => exists t', ck_step (S fuel) t op = Ret (t', o) /\ rep_mlf t' a'
  | Throw e => ck_step (S fuel) t op = Throw e
  | Undef => True
  | NoFuel => False
  end.
Proof.
  destruct a as [m mf]. unfold rep_mlf. cbn [fst snd]. intros [HR <-]. destruct op as [k v|k v|k v|k|k|k|k|k| | | |c|n|d]; cbn [ck_step ck_spec].
  - destruct (cuckoo_insert_ok fuel t m k v HR) as [(-> & Hk & HL)|(t' & p & E & HR')].
    + left. rewrite Hk. split; [done|]. eexists _, _. split; [done|]. cbn [fst]. rewrite map_size_insert_None by done. lia.
    + right. rewrite E. pose proof (insert_mlf _ _ _ _ _ _ _ E). destruct (m !! k) as [v'|] eqn:Hk; cbn; by exists t'.
  - destruct (insert_or_assign_ok fuel t m k v HR) as [(-> & Hk & HL)|(t' & p & E & HR')].
    + left. split; [done|]. eexists _, _. split; [done|]. cbn [fst]. rewrite map_size_insert_None by done. lia.
    + right. rewrite E. pose proof (insert_or_assign_mlf _ _ _ _ _ _ _ E). by exists t'.
  - right. destruct (m !! k) as [v0|] eqn:Hk; [|done]. destruct (index_assign_present (S fuel) t m k v v0 HR Hk) as (t' & -> & HR' & Hmf). by exists t'.
  - right. destruct (cuckoo_erase_ok t m k HR) as (t' & E & HR'). rewrite E. exists t'. split; [done|]. split; [done|]. unfold erase in E.
    apply bind_Ret_inv in E as ([p|] & _ & E); [apply bind_Ret_inv in E as (t1 & E%erase_at_mlf & [= <- _]); done|by injection E as <- _].
  - right. destruct (erase_found_ok t m k HR) as (r & t' & r' & -> & He & HR'). ret_step. rewrite He. exists t'. split; [done|]. split; [done|]. destruct r as [p|]; cbn [erase_iterator] in He; [|by injection He as <- _].
    apply bind_Ret_inv in He as (s & _ & He). destruct (decide (occupied s)); [apply bind_Ret_inv in He as (t1 & E%erase_at_mlf & [= <- _]); done|by injection He as <- _].
  - right. unfold find. destruct (cuckoo_rep_find t m k HR) as (r & -> & Hr). ret_step. destruct r as [p|]; [|exists t; by rewrite Hr]. destruct Hr as (s & Hs & _ & _ & ->). rewrite (slot_at_ok _ _ _ Hs). by exists t.
  - right. unfold contains. destruct (cuckoo_rep_find t m k HR) as (r & -> & Hr). ret_step. exists t. split; [|done]. destruct r as [p|]; [destruct Hr as (s & _ & _ & _ & ->)|rewrite Hr]; done.
  - right. unfold at_. destruct (cuckoo_rep_find t m k HR) as (r & -> & Hr). ret_step. destruct r as [p|]; [|by rewrite Hr]. destruct Hr as (s & Hs & _ & _ & ->). rewrite (slot_at_ok _ _ _ Hs). by exists t.
  - right. exists t. unfold size. by rewrite (cuckoo_rep_size t m HR).
  - right. exists t. unfold empty. rewrite (cuckoo_rep_size t m HR). split; [|done]. do 3 f_equal. apply bool_decide_ext. by rewrite map_size_empty_iff.
  - right. eexists. split; [done|]. split; [by eapply cuckoo_clear_rep|done].
  - destruct (rehash_ok fuel t m (u64 c) HR) as [[-> HL]|(t' & E & HR')]; [apply Z.mod_pos_bound; lia|left; by eauto|right]. rewrite E. apply rehash_mlf in E. by exists t'.
  - unfold reserve. destruct (needed (mlf t) n) as [c|]; [|by right]. cbn [to_size]. case_decide as Hc; [|by right]. ret_step.
    destruct (rehash_ok fuel t m c HR Hc) as [[-> HL]|(t' & E & HR')]; [left; by eauto|right]. rewrite E. apply rehash_mlf in E. by exists t'.
  - unfold set_max_load_factor. pose proof (rep_with_mlf t m d HR) as HRd. cbv zeta. set (td := mkCuckoo _ _ _ _ _ _ _ _) in *. destruct (exceeds d (size_ td) (bucket_count td)); [|right; by exists td].
    destruct (rehash_ok fuel td m (u64 (Z.of_nat (bucket_count td))) HRd) as [[-> HL]|(t' & E & HR')]; [apply Z.mod_pos_bound; lia|left; by eauto|right]. rewrite E. apply rehash_mlf in E. by exists t'.
Qed.

Lemma cuckoo_trace_ok fuel ops : forall t a a' os, rep_mlf t a -> trace ck_spec a ops = Ret (a', os) ->
  (exists t', trace (ck_step (S fuel)) t ops = Ret (t', os) /\ rep_mlf t' a') \/
  (trace (ck_step (S fuel)) t ops = NoFuel /\ exists ops1 ops2 a1 os1, ops = ops1 ++ ops2 /\ trace ck_spec a ops1 = Ret (a1, os1) /\ 10 < base.size a1.1).
Proof.
  induction ops as [|op ops IH]; intros t a a' os HR; cbn [trace]; [intros [= <- <-]; left; by exists t|].
  destruct (ck_step_ok fuel t a op HR) as [(-> & a1 & o & Hsp & HL)|Hs].
  { intros _. right. split; [done|]. exists [op], ops, a1, [inl o]. split; [done|]. split; [|done]. cbn. by rewrite Hsp. }
  destruct (ck_spec a op) as [[a1 o]|e| |] eqn:Hsp; try done; intros ([a2 os2] & Ht & [= <- <-])%bind_Ret_inv.
  - destruct Hs as (t1 & -> & HR1). destruct (IH t1 a1 a2 os2 HR1 Ht) as [(t2 & -> & HR2)|(-> & ops1 & ops2 & a3 & os3 & -> & Hm & HL)]; [left; by exists t2|].
    right. split; [done|]. exists (op :: ops1), ops2, a3, (inl o :: os3). split; [done|]. split; [|done]. cbn. by rewrite Hsp, Hm.
  - rewrite Hs. destruct (IH t a a2 os2 HR Ht) as [(t2 & -> & HR2)|(-> & ops1 & ops2 & a3 & os3 & -> & Hm & HL)]; [left; by exists t2|].
    right. split; [done|]. exists (op :: ops1), ops2, a3, (inr e :: os3). split; [done|]. split; [|done]. cbn. by rewrite Hsp, Hm.
Qed.

(** C19: every sequence of operations on a new map, rehashes included, observes what it observes on a
    finite map, as long as the map holds at most ten entries; beyond, whenever it returns.  The contract [ck_spec] leaves undefined, and so says nothing of a sequence with, a [reserve] for which the
    quotient of the count and the maximum load factor is no [size_t] (undefined in C++) and an assignment through [operator\[\]] to an absent key. *)
Theorem cuckoo_map_refines fuel ops a os : trace ck_spec (∅, DEFAULT_MAX_LOAD_FACTOR) ops = Ret (a, os) ->
  (exists t, trace (ck_step (S fuel)) cuckoo_new ops = Ret (t, os) /\ rep t a.1) \/
  (trace (ck_step (S fuel)) cuckoo_new ops = NoFuel /\ exists ops1 ops2 a1 os1, ops = ops1 ++ ops2 /\ trace ck_spec (∅, DEFAULT_MAX_LOAD_FACTOR) ops1 = Ret (a1, os1) /\ 10 < base.size a1.1).
Proof.
  intros Ht. destruct (cuckoo_trace_ok fuel ops cuckoo_new (∅, DEFAULT_MAX_LOAD_FACTOR) a os (conj cuckoo_new_rep eq_refl) Ht) as [(t & E & HR & _)|H]; [left; by exists t|by right].
Qed.

(** ** When insertion returns *)

(** An entry whose first slot is free is placed at once. *)
Lemma try_place_direct t e : wf t -> NoDup (h1 t <$> key e :: (all_contents t).*1) -> exists t' p, try_place t e = Ret (t', inl p).
Proof.
  intros Hw Hd. unfold try_place. destruct (max_kicks t) as [|kicks] eqn:Hk; [unfold max_kicks in Hk; lia|]. cbn [kick_loop]. destruct (wf_slot1 t (key e) Hw) as [s Hs]. rewrite (slot_at_ok t (T1, h1 t (key e)) s Hs). ret_step.
  assert (~ occupied s) as Ho.
  { intros Ho. rewrite fmap_cons in Hd. apply NoDup_cons in Hd as [Hd _]. apply Hd. apply list_elem_of_fmap. exists (key s). split; [symmetry; exact (wf_fits _ Hw (T1, h1 t (key e)) s Hs Ho)|].
    apply list_elem_of_fmap. exists (key s, value s). split; [done|]. exact (in_all_contents t (T1, _) s Hs Ho). }
  rewrite decide_False by done. destruct (place_ok t (T1, h1 t (key e)) s e Hw Hs Ho eq_refl) as (t' & -> & _). rewrite bind_Ret, bind_Ret. eauto.
Qed.

Lemma NoDup_sub (f : K -> nat) (l1 l2 : list K) : l1 ⊆+ l2 -> NoDup (f <$> l2) -> NoDup (f <$> l1).
Proof. intros [l3 ->]%submseteq_Permutation. rewrite fmap_app. by intros [? _]%NoDup_app. Qed.

Section growing.
Context (seed0 : Z) (n0 j : nat) (Hj : n0 + j < 64) (keys : list K).

Definition at_level (i : nat) t : Prop := seed_ t = u64 (seed0 + Z.of_nat i) /\ length (table1_ t) = 2 ^ (n0 + i).

Context (Hsep : forall t, wf t -> at_level j t -> NoDup (h1 t <$> keys)).

Definition ins_level (F : nat) (ins : CuckooHashMap K V D -> Slot K V -> outcome (CuckooHashMap K V D)) : Prop :=
  forall t e i, wf t -> sized t -> occupied e -> at_level i t -> i <= j -> key e :: (all_contents t).*1 ⊆+ keys -> j - i < F ->
  exists t' i', ins t e = Ret t' /\ wf t' /\ sized t' /\ all_contents t' ≡ₚ (key e, value e) :: all_contents t /\ at_level i' t' /\ i <= i' <= j.

Lemma reinsert_level F ins slots : ins_level F ins -> forall t i, wf t -> sized t -> at_level i t -> i <= j -> (contents slots ++ all_contents t).*1 ⊆+ keys -> j - i < F ->
  exists t' i', reinsert ins t slots = Ret t' /\ wf t' /\ sized t' /\ all_contents t' ≡ₚ contents slots ++ all_contents t /\ at_level i' t' /\ i <= i' <= j.
Proof.
  intros Hins. induction slots as [|s slots IH]; intros t i Hw Hs Hl Hi Hk HF; cbn [reinsert]; [by exists t, i|]. assert (contents (s :: slots) = option_list (stored s) ++ contents slots) as Hc by (unfold contents; cbn; by destruct (stored s)).
  rewrite Hc in Hk |- *. case_decide as Ho; [|apply stored_None in Ho; rewrite Ho in Hk |- *; by apply IH]. assert (stored s = Some (key s, value s)) as Hst by (by apply stored_Some). rewrite Hst in Hk |- *.
  change (option_list (Some (key s, value s)) ++ contents slots) with ((key s, value s) :: contents slots) in *.
  destruct (Hins t s i Hw Hs Ho Hl Hi) as (t1 & i1 & -> & Hw1 & Hs1 & HP1 & Hl1 & Hi1); [|done|].
  { etrans; [|exact Hk]. rewrite fmap_app, fmap_cons. cbn. apply submseteq_skip, submseteq_inserts_l. done. }
  ret_step. destruct (IH t1 i1 Hw1 Hs1 Hl1) as (t2 & i2 & -> & Hw2 & Hs2 & HP2 & Hl2 & Hi2); [lia| |lia|].
  { rewrite HP1, <- Permutation_middle. done. }
  exists t2, i2. split; [done|]. split; [done|]. split; [done|]. split; [by rewrite HP2, HP1, <- Permutation_middle|]. split; [done|lia].
Qed.

Lemma rehash_level F ins t i : ins_level F ins -> wf t -> at_level i t -> i < j -> (all_contents t).*1 ⊆+ keys -> j - S i < F ->
  exists t' i', rehash_with ins t (twice t) = Ret t' /\ wf t' /\ sized t' /\ all_contents t' ≡ₚ all_contents t /\ at_level i' t' /\ i < i' <= j.
Proof.
  intros Hins Hw [Hsd Hl] Hi Hk HF. unfold rehash_with. destruct (wf_cap _ Hw) as (n & Hn & Hl'). rewrite Hl' in Hl. apply Nat.pow_inj_r in Hl as ->; [|lia].
  assert (Z.max INITIAL_CAPACITY (next_power_of_two (twice t)) = 2 ^ Z.of_nat (n0 + S i))%Z as ->.
  { unfold twice. rewrite Hl', Nat2Z.inj_pow. change (Z.of_nat 2) with 2%Z. replace (2 ^ Z.of_nat (n0 + i) * 2)%Z with (2 ^ Z.of_nat (n0 + S i))%Z by (rewrite Nat.add_succ_r, Nat2Z.inj_succ, Z.pow_succ_r by lia; lia).
    assert (2 ^ Z.of_nat (n0 + S i) <= 2 ^ 63)%Z by (apply Z.pow_le_mono_r; lia). assert (2 ^ 2 <= 2 ^ Z.of_nat (n0 + S i))%Z by (apply Z.pow_le_mono_r; lia). rewrite u64_small by lia.
    rewrite next_power_of_two_spec by done. rewrite Z.log2_up_pow2 by lia. unfold INITIAL_CAPACITY. lia. }
  set (cleared := mkCuckoo _ _ _ _ _ _ _ _). assert (u64 (seed_ cleared) = seed_ cleared) as Hseed by (cbn; unfold u64; by rewrite Zmod_mod).
  destruct (alloc_wf cleared (2 ^ Z.of_nat (n0 + S i))%Z (n0 + S i) Hseed) as (Hw0 & H0 & Hl0); [lia|done|cbn; rewrite length_fmap; by apply wf_stash|apply contents_vacate|].
  assert (sized (alloc_tables cleared (2 ^ Z.of_nat (n0 + S i))%Z)) as Hs0 by (by unfold sized; rewrite H0).
  assert (at_level (S i) (alloc_tables cleared (2 ^ Z.of_nat (n0 + S i))%Z)) as Hlv0. { split; [|done]. cbn. rewrite Hsd. unfold u64. rewrite Zplus_mod_idemp_l. f_equal. lia. }
  destruct (reinsert_level F ins (table1_ t) Hins _ (S i) Hw0 Hs0 Hlv0) as (t1 & i1 & -> & Hw1 & Hs1 & HP1 & Hl1 & Hi1); [lia| |lia|].
  { rewrite H0, app_nil_r. etrans; [|exact Hk]. unfold all_contents. rewrite fmap_app. by apply submseteq_inserts_r. }
  ret_step. rewrite H0, app_nil_r in HP1. destruct (reinsert_level F ins (table2_ t) Hins _ i1 Hw1 Hs1 Hl1) as (t2 & i2 & -> & Hw2 & Hs2 & HP2 & Hl2 & Hi2); [lia| |lia|].
  { rewrite HP1. etrans; [|exact Hk]. unfold all_contents. rewrite (Permutation_app_comm (contents (table2_ t)) (contents (table1_ t))), app_assoc, (fmap_app _ (contents (table1_ t) ++ contents (table2_ t))). by apply submseteq_inserts_r. }
  ret_step. rewrite HP1 in HP2. destruct (reinsert_level F ins (stash_ t) Hins _ i2 Hw2 Hs2 Hl2) as (t3 & i3 & -> & Hw3 & Hs3 & HP3 & Hl3 & Hi3); [lia| |lia|].
  { rewrite HP2. etrans; [|exact Hk]. unfold all_contents. rewrite Permutation_app_comm, (Permutation_app_comm (contents (table2_ t))). by rewrite <- app_assoc. }
  exists t3, i3. split; [done|]. split; [done|]. split; [done|]. split; [|split; [done|lia]]. rewrite HP3, HP2. unfold all_contents. rewrite Permutation_app_comm, (Permutation_app_comm (contents (table2_ t))). by rewrite <- app_assoc.
Qed.

(** An attempt at a level below the last may fail; at the last one it does not. *)
Lemma attempt_level t e i : wf t -> sized t -> occupied e -> at_level i t -> i <= j -> key e :: (all_contents t).*1 ⊆+ keys ->
  exists t1 (r : Position + Slot K V), try_place t e = Ret (t1, r) /\ wf t1 /\ sized t1 /\ at_level i t1 /\
  match r with
  | inl _ => all_contents t1 ≡ₚ (key e, value e) :: all_contents t
  | inr e' => occupied e' /\ i < j /\ (key e', value e') :: all_contents t1 ≡ₚ (key e, value e) :: all_contents t
  end.
Proof.
  intros Hw Hs He Hl Hi Hk. destruct (try_place_ok t e Hw He) as (t1 & r & Hr & Hw1 & Ha1 & Hc). exists t1, r. split; [done|]. split; [done|].
  assert (at_level i t1) as Hl1 by (destruct Ha1, Hl; split; congruence). destruct r as [p|e'].
  - destruct Hc as [Hn HP]. split; [by eapply sized_placed|done].
  - destruct Hc as (He' & Hn & HP & _). split; [unfold sized in *; apply Permutation_length in HP; cbn in HP; lia|]. split; [done|]. split; [done|]. split; [|done].
    destruct (decide (i = j)) as [->|]; [|lia]. destruct (try_place_direct t e Hw) as (t' & p & Hp); [eapply NoDup_sub; [exact Hk|by apply Hsep]|]. by rewrite Hr in Hp.
Qed.

Lemma insert_no_resize_level F : ins_level F (insert_no_resize F).
Proof.
  induction F as [|F IH]; intros t e i Hw Hs He Hl Hi Hk HF; [lia|]. cbn [insert_no_resize]. destruct (attempt_level t e i Hw Hs He Hl Hi Hk) as (t1 & r & -> & Hw1 & Hs1 & Hl1 & Hc). ret_step. destruct r as [p|e']; [by exists t1, i|].
  destruct Hc as (He' & Hij & HP). assert (key e' :: (all_contents t1).*1 ⊆+ keys) as Hk1 by (etrans; [|exact Hk]; change (((key e', value e') :: all_contents t1).*1 ⊆+ ((key e, value e) :: all_contents t).*1); by rewrite HP).
  destruct (rehash_level F _ t1 i IH Hw1 Hl1 Hij) as (t2 & i2 & -> & Hw2 & Hs2 & HP2 & Hl2 & Hi2); [etrans; [|exact Hk1]; by apply submseteq_cons|lia|]. ret_step.
  destruct (IH t2 e' i2 Hw2 Hs2 He' Hl2) as (t3 & i3 & -> & Hw3 & Hs3 & HP3 & Hl3 & Hi3); [lia|by rewrite HP2|lia|]. exists t3, i3. split_and!; try done; [by rewrite HP3, HP2, HP|lia..].
Qed.

Lemma insert_new_entry_level F : forall t e i, wf t -> sized t -> occupied e -> at_level i t -> i <= j -> key e :: (all_contents t).*1 ⊆+ keys -> j - i < F ->
  exists t' p, insert_new_entry F t e = Ret (t', p) /\ wf t' /\ sized t' /\ all_contents t' ≡ₚ (key e, value e) :: all_contents t.
Proof.
  induction F as [|F IH]; intros t e i Hw Hs He Hl Hi Hk HF; [lia|]. cbn [insert_new_entry]. destruct (attempt_level t e i Hw Hs He Hl Hi Hk) as (t1 & r & -> & Hw1 & Hs1 & Hl1 & Hc). ret_step. destruct r as [p|e']; [by exists t1, p|].
  destruct Hc as (He' & Hij & HP). assert (key e' :: (all_contents t1).*1 ⊆+ keys) as Hk1 by (etrans; [|exact Hk]; change (((key e', value e') :: all_contents t1).*1 ⊆+ ((key e, value e) :: all_contents t).*1); by rewrite HP).
  unfold rehash_impl. destruct (rehash_level F _ t1 i (insert_no_resize_level F) Hw1 Hl1 Hij) as (t2 & i2 & -> & Hw2 & Hs2 & HP2 & Hl2 & Hi2); [etrans; [|exact Hk1]; by apply submseteq_cons|lia|]. ret_step.
  destruct (IH t2 e' i2 Hw2 Hs2 He' Hl2) as (t3 & p & -> & Hw3 & Hs3 & HP3); [lia|by rewrite HP2|lia|]. exists t3, p. split_and!; try done. by rewrite HP3, HP2, HP.
Qed.
End growing.

(** The tables after [j] doublings, empty. *)
Definition grown t (j : nat) : CuckooHashMap K V D :=
  alloc_tables (mkCuckoo [] [] (replicate STASH_SIZE empty_slot) 0 (u64 (seed_ t + Z.of_nat j)) 0 0 (max_load_factor_ t)) (Z.of_nat (length (table1_ t)) * 2 ^ Z.of_nat j).

(** C20: a key is inserted, whatever displacements and rehashes it takes, when some number of doublings
    leads to a table in which the first hash separates the keys; that many nested rehashes are enough. *)
Theorem cuckoo_insert_returns fuel j t m k v : rep t m -> m !! k = None -> 1 <= j < fuel -> (Z.of_nat (length (table1_ t)) * 2 ^ Z.of_nat j < 2 ^ 64)%Z ->
  NoDup (h1 (grown t j) <$> k :: (map_to_list m).*1) ->
  exists t' p, insert fuel t k v = Ret (t', p, true) /\ rep t' (<[k := v]> m).
Proof.
  intros HR Hk Hj Hcap Hsep. pose proof HR as [Hw Hs Hnd Hm]. destruct (wf_cap _ Hw) as (n0 & Hn0 & Hl0). rewrite Hl0, Nat2Z.inj_pow, <- Z.pow_add_r in Hcap by lia. apply Z.pow_lt_mono_r_iff in Hcap; [|lia..].
  set (keys := k :: (all_contents t).*1). assert (forall t', wf t' -> at_level (seed_ t) n0 j t' -> NoDup (h1 t' <$> keys)) as Hsep'.
  { intros t' Hw' [Hsd Hl]. assert (h1 t' = h1 (grown t j)) as Heq.
    { unfold h1. rewrite (wf_mask1 _ Hw'), Hl, Hsd. cbn. rewrite Hl0, !Nat2Z.inj_pow, <- Z.pow_add_r by lia. by rewrite Nat2Z.inj_add. }
    rewrite Heq. eapply NoDup_sub; [|exact Hsep]. subst keys. apply submseteq_skip. rewrite <- Hm, map_to_list_to_map by done. done. }
  assert (at_level (seed_ t) n0 0 t) as Hlv by (split; [by rewrite Z.add_0_r, (wf_seed _ Hw)|by rewrite Nat.add_0_r]).
  unfold insert. destruct (cuckoo_rep_find t m k HR) as (r & -> & Hr). destruct r as [p|]; [destruct Hr as (? & _ & _ & _ & Hr); congruence|]. ret_step.
  assert (exists t1 i, ensure_capacity fuel t = Ret t1 /\ wf t1 /\ sized t1 /\ all_contents t1 ≡ₚ all_contents t /\ at_level (seed_ t) n0 i t1 /\ i <= j) as (t1 & i & -> & Hw1 & Hs1 & HP1 & Hl1 & Hi1).
  { unfold ensure_capacity. case_decide; [|exists t, 0; split_and!; try done; lia]. assert (bucket_count t <> 0) as Hb by (unfold bucket_count; rewrite (wf_cap2 _ Hw), Hl0; pose proof (Nat.pow_nonzero 2 n0); lia).
    rewrite decide_False by done. unfold rehash_impl. destruct (rehash_level (seed_ t) n0 j ltac:(lia) keys fuel _ t 0 (insert_no_resize_level (seed_ t) n0 j ltac:(lia) keys Hsep' fuel) Hw Hlv) as (t1 & i & -> & Hw1 & Hs1 & HP1 & Hl1 & Hi1); [lia|by apply submseteq_cons|lia|].
    exists t1, i. split_and!; try done; lia. }
  ret_step. destruct (insert_new_entry_level (seed_ t) n0 j ltac:(lia) keys Hsep' fuel t1 (mkSlot OCCUPIED k v) i Hw1 Hs1 eq_refl Hl1 Hi1) as (t2 & p & -> & Hw2 & Hs2 & HP2); [cbn [key]; by rewrite HP1|lia|]. ret_step.
  exists t2, p. split; [done|]. apply (rep_cons t t2 m k v HR Hk Hw2 Hs2). by rewrite HP2, HP1.
Qed.

(** ** When it does not *)
Lemma contents_single slots : (forall i i' s s', slots !! i = Some s -> slots !! i' = Some s' -> occupied s -> occupied s' -> i = i') -> length (contents slots) <= 1.
Proof.
  unfold contents. induction slots as [|s slots IH]; intros Hone; [cbn; lia|]. cbn [omap list_omap]. destruct (decide (occupied s)) as [Ho|Ho].
  - assert (omap stored slots = []) as H0. { apply elem_of_nil_inv. intros x (s' & [i Hi]%list_elem_of_lookup & [Ho' _]%stored_Some)%list_elem_of_omap. by specialize (Hone 0 (S i) s s' eq_refl Hi Ho Ho'). }
    assert (stored s = Some (key s, value s)) as -> by (by apply stored_Some). cbn in H0 |- *. rewrite H0. cbn. lia.
  - apply stored_None in Ho. rewrite Ho. apply IH. intros i i' s1 s2 H1 H2 Ho1 Ho2. specialize (Hone (S i) (S i') s1 s2 H1 H2 Ho1 Ho2). lia.
Qed.

Lemma length_contents slots : length (contents slots) <= length slots.
Proof. unfold contents. induction slots as [|s slots IH]; [done|]. cbn in *. destruct (stored s); cbn; lia. Qed.

Definition same_hash (h : Z) (l : list (K * V)) : Prop := Forall (fun x => u64 (hasher x.1) = h) l.

Lemma same_hash_bound h t : wf t -> same_hash h (all_contents t) -> length (all_contents t) <= 10.
Proof.
  intros Hw Hh. unfold same_hash in Hh. rewrite Forall_forall in Hh. assert (forall p s, region t p.1 !! p.2 = Some s -> occupied s -> u64 (hasher (key s)) = h) as Hk by (intros p s Hs Ho; by apply (Hh _ (in_all_contents t p s Hs Ho))).
  unfold all_contents. rewrite !length_app. assert (length (contents (table1_ t)) <= 1) as H1.
  { apply contents_single. intros i i' s s' Hs Hs' Ho Ho'. pose proof (wf_fits _ Hw (T1, i) s Hs Ho) as <-. pose proof (wf_fits _ Hw (T1, i') s' Hs' Ho') as <-. unfold h1. by rewrite (Hk (T1, _) s Hs Ho), (Hk (T1, _) s' Hs' Ho'). }
  assert (length (contents (table2_ t)) <= 1) as H2.
  { apply contents_single. intros i i' s s' Hs Hs' Ho Ho'. pose proof (wf_fits _ Hw (T2, i) s Hs Ho) as <-. pose proof (wf_fits _ Hw (T2, i') s' Hs' Ho') as <-. unfold h2. by rewrite (Hk (T2, _) s Hs Ho), (Hk (T2, _) s' Hs' Ho'). }
  assert (length (contents (stash_ t)) <= STASH_SIZE) as H3 by (rewrite <- (wf_stash _ Hw); apply length_contents). unfold STASH_SIZE in H3. lia.
Qed.

Lemma insert_new_entry_diverges h fuel : forall t e, wf t -> occupied e -> same_hash h ((key e, value e) :: all_contents t) -> 10 <= length (all_contents t) -> insert_new_entry fuel t e = NoFuel.
Proof.
  induction fuel as [|fuel IH]; intros t e Hw He Hh Hlen; [done|]. cbn [insert_new_entry]. destruct (try_place_ok t e Hw He) as (t1 & r & -> & Hw1 & Ha1 & Hc). ret_step. destruct r as [p|e'].
  - destruct Hc as [_ HP]. unfold same_hash in Hh. rewrite <- HP in Hh. pose proof (same_hash_bound h t1 Hw1 Hh) as Hle. rewrite HP in Hle. cbn in Hle. lia.
  - destruct Hc as (He' & _ & HP & Hten). unfold same_hash in Hh. rewrite <- HP in Hh. destruct (rehash_impl_ok fuel t1 (twice t1) Hw1 (twice_range t1)) as [[-> _]|(t2 & -> & Hw2 & _ & _ & HP2)]; [done|]. ret_step.
    apply IH; [done|done|unfold same_hash; by rewrite HP2|by rewrite HP2].
Qed.

(** an eleventh key with the hash value of ten others is never inserted: the tables grow without end. *)
Theorem cuckoo_insert_diverges fuel t m k v : rep t m -> m !! k = None -> 10 <= base.size m -> (forall k', is_Some (m !! k') -> u64 (hasher k') = u64 (hasher k)) -> insert fuel t k v = NoFuel.
Proof.
  intros HR Hk Hten Hh. pose proof HR as [Hw Hs Hnd Hm]. unfold insert. destruct (cuckoo_rep_find t m k HR) as (r & -> & Hr). destruct r as [p|]; [destruct Hr as (? & _ & _ & _ & Hr); congruence|]. ret_step.
  destruct (ensure_capacity_ok fuel t Hw Hs) as [[-> _]|(t1 & -> & Hw1 & Hs1 & HP1)]; [done|]. ret_step. rewrite (insert_new_entry_diverges (u64 (hasher k)) fuel t1 (mkSlot OCCUPIED k v)); [done|done|done| |].
  - constructor; [done|]. rewrite HP1. apply Forall_forall. intros [k' v'] Hin. apply Hh. rewrite <- Hm. exists v'. by apply elem_of_list_to_map_1.
  - rewrite HP1, (cuckoo_rep_length t m HR). done.
Qed.

(** ** Iteration *)
Fixpoint visited (n : nat) t (it : option Position) : outcome (list (K * V)) :=
  match n, it with
  | _, None => Ret []
  | O, Some _ => NoFuel
  | S n, Some p => s ← slot_at t p; l ← visited n t (iterator_next t p); Ret ((key s, value s) :: l)
  end.

Lemma cuckoo_first_occupied_spec slots : forall i, match first_occupied slots i with
  | Some j => exists n s, j = i + n /\ slots !! n = Some s /\ occupied s /\ contents slots = (key s, value s) :: contents (drop (S n) slots)
  | None => contents slots = []
  end.
Proof.
  induction slots as [|s slots IH]; intros i; cbn [first_occupied]; [done|]. unfold contents in *. cbn [omap list_omap]. case_decide as Ho.
  - assert (stored s = Some (key s, value s)) as -> by (by apply stored_Some). exists 0, s. split_and!; [lia|done..].
  - assert (stored s = None) as -> by (by apply stored_None). specialize (IH (S i)). destruct first_occupied as [j|]; [|done]. destruct IH as (n & s' & -> & Hs & Ho' & Hc). exists (S n), s'. split_and!; [lia|done..].
Qed.

(** What is stored from a slot on. *)
Definition rest t r (i : nat) : list (K * V) :=
  contents (drop i (region t r)) ++ match r with T1 => contents (table2_ t) ++ contents (stash_ t) | T2 => contents (stash_ t) | STASH => [] end.

Lemma cuckoo_advance_ok t r i : match advance_to_next_occupied t r i with
  | Some p => exists s, region t p.1 !! p.2 = Some s /\ rest t r i = (key s, value s) :: rest t p.1 (S p.2)
  | None => rest t r i = []
  end.
Proof.
  assert (forall r (i : nat), match first_occupied (drop i (region t r)) i with
    | Some j => exists s, region t r !! j = Some s /\ contents (drop i (region t r)) = (key s, value s) :: contents (drop (S j) (region t r))
    | None => contents (drop i (region t r)) = [] end) as Hr.
  { intros r' i'. pose proof (cuckoo_first_occupied_spec (drop i' (region t r')) i') as H. destruct first_occupied as [j|]; [|done]. destruct H as (n & s & -> & Hs & _ & ->). rewrite lookup_drop in Hs. exists s. split; [done|]. rewrite drop_drop. by replace (i' + S n) with (S (i' + n)) by lia. }
  pose proof (Hr STASH 0) as H3. pose proof (Hr T2 0) as H2. specialize (Hr r i). rewrite drop_0 in H2, H3. cbn [region] in H2, H3. unfold advance_to_next_occupied, rest.
  destruct (first_occupied (drop i (region t r)) i) as [j|]; [destruct Hr as (s & Hs & ->); by exists s|]. rewrite Hr. destruct r; cbn [app]; [destruct (first_occupied (table2_ t) 0) as [j2|]; [destruct H2 as (s & Hs & ->); by exists s|rewrite H2; cbn [app]]| |done].
  all: destruct (first_occupied (stash_ t) 0) as [j3|]; cbn; [destruct H3 as (s & Hs & ->); exists s; split; [done|cbn; by rewrite app_nil_r]|done].
Qed.

Lemma visited_ok n : forall t r i, length (rest t r i) <= n -> visited n t (advance_to_next_occupied t r i) = Ret (rest t r i).
Proof.
  induction n as [|n IH]; intros t r i Hn; pose proof (cuckoo_advance_ok t r i) as Ha; destruct (advance_to_next_occupied t r i) as [p|]; cbn [visited]; try by rewrite Ha.
  - destruct Ha as (s & _ & Hc). rewrite Hc in Hn. cbn in Hn. lia.
  - destruct Ha as (s & Hs & Hc). rewrite Hc in Hn |- *. cbn in Hn. rewrite (slot_at_ok _ _ _ Hs). ret_step. unfold iterator_next. rewrite IH by lia. done.
Qed.

(** The iterators visit each entry once. *)
Theorem cuckoo_iteration t m : rep t m -> exists l, visited (base.size m) t (begin t) = Ret l /\ l ≡ₚ map_to_list m.
Proof.
  intros HR. exists (all_contents t). pose proof HR as [Hw _ Hnd Hm]. split; [|by rewrite <- Hm, map_to_list_to_map]. unfold begin. rewrite decide_False by (intros H0; destruct (wf_cap _ Hw) as (n & _ & Hl); rewrite H0 in Hl; pose proof (Nat.pow_nonzero 2 n); cbn in Hl; lia).
  assert (rest t T1 0 = all_contents t) as <- by (unfold rest, all_contents; by rewrite drop_0). apply visited_ok. rewrite <- (cuckoo_rep_length t m HR). unfold rest, all_contents. by rewrite drop_0.
Qed.
End cuckoo.

(** ** Executions *)
Definition three_quarters (d : unit) (n cap : nat) : bool := Nat.ltb (3 * cap) (4 * n).
Definition count_needed (d : unit) (n : nat) : option Z := Some (Z.of_nat n).
Definition nat_hash (k : nat) : Z := Z.of_nat k.
Definition one_hash (k : nat) : Z := 0.
Definition nat_new : CuckooHashMap nat nat unit := cuckoo_new 0 0 tt.

(** [map.insert(0, 5); map\[1\] = 9;] leaves 9 under the key 0 and the default under 1. *)
Theorem cuckoo_index_overwrites : exists t t', insert 0 0 nat_hash three_quarters 1 nat_new 0 5 = Ret (t, (T1, 0), true) /\
  index_assign 0 0 nat_hash three_quarters 1 t 1 9 = Ret t' /\ find nat_hash t' 0 = Ret (Some 9) /\ find nat_hash t' 1 = Ret (Some 0).
Proof. eexists _, _. split; [vm_compute; reflexivity|]. split; [vm_compute; reflexivity|]. split; vm_compute; reflexivity. Qed.

Definition stashed : outcome (CuckooHashMap nat nat unit) :=
  '(t, _, _) ← insert 0 0 one_hash three_quarters 1 nat_new 0 5; '(t, _, _) ← insert 0 0 one_hash three_quarters 1 t 1 6;
  '(t, _, _) ← insert 0 0 one_hash three_quarters 1 t 2 7; Ret t.

(** A map that was moved from has size 0 and finds nothing; its first insertion brings back
    what the other one had in its stash. *)
Theorem cuckoo_moved_from_stash : exists t t' p, stashed = Ret t /\ size (move tt id t).2 = 0 /\ find one_hash (move tt id t).2 1 = Ret None /\
  insert 0 0 one_hash three_quarters 1 (move tt id t).2 8 1 = Ret (t', p, true) /\ size t' = 2 /\ exists k v, k <> 8 /\ find one_hash t' k = Ret (Some v).
Proof.
  eexists _, _, _. split; [vm_compute; reflexivity|]. split; [done|]. split; [vm_compute; reflexivity|]. split; [vm_compute; reflexivity|]. split; [done|]. exists 1, 6. split; [done|]. vm_compute. reflexivity.
Qed.

(** Ten keys with one hash value. *)
Definition ten_keys : list (ck_op (K := nat) (V := nat) (D := unit)) := (fun i => Insert i i) <$> seq 0 10.

Lemma ten_keys_rep : exists t m, rep one_hash t m /\ m = (list_to_map ((fun i => (i, i)) <$> seq 0 10) : gmap nat nat) /\ trace (ck_step 0 0 one_hash three_quarters count_needed 1) nat_new ten_keys = Ret (t, replicate 10 (inl (OBool true))).
Proof.
  destruct (trace (ck_spec count_needed) (∅, tt) ten_keys) as [[a os]|e| |] eqn:E; [|vm_compute in E; discriminate..].
  destruct (cuckoo_trace_ok 0 0 one_hash three_quarters count_needed tt 0 ten_keys nat_new (∅, tt) a os (conj (cuckoo_new_rep 0 0 one_hash three_quarters count_needed tt) eq_refl) E) as [(t & Ht & HR & _)|[Ht _]].
  - vm_compute in E. injection E as <- <-. exists t. eexists. split; [exact HR|]. split; [by vm_compute|done].
  - vm_compute in Ht. done.
Qed.

Lemma cuckoo_map_refines_witness : exists t m, trace (ck_step 0 0 one_hash three_quarters count_needed 1) nat_new (ten_keys ++ [Find 7; At 11; Erase 3; IndexAssign 4 8; Find 4; Reserve 30; Rehash 40%Z; Size]) =
  Ret (t, replicate 10 (inl (OBool true)) ++ [inl (OOpt (Some 7)); inr out_of_range; inl (OBool true); inl ODone; inl (OOpt (Some 8)); inl ODone; inl ODone; inl (ONum 9)]) /\ rep one_hash t m.
Proof.
  destruct (trace (ck_spec count_needed) (∅, tt) (ten_keys ++ [Find 7; At 11; Erase 3; IndexAssign 4 8; Find 4; Reserve 30; Rehash 40%Z; Size])) as [[a os]|e| |] eqn:E; [|vm_compute in E; discriminate..].
  destruct (cuckoo_map_refines 0 0 one_hash three_quarters count_needed tt 0 _ a os E) as [(t & Ht & HR)|[Ht _]].
  - exists t, a.1. split; [|exact HR]. etrans; [exact Ht|]. vm_compute in E. injection E as _ <-. reflexivity.
  - vm_compute in Ht. done.
Defined.

Lemma cuckoo_insert_returns_witness : exists t m t' p, rep nat_hash t m /\ m !! 0 = Some 5 /\ insert 0 0 nat_hash three_quarters 2 t 1 6 = Ret (t', p, true) /\ rep nat_hash t' (<[1 := 6]> m).
Proof.
  destruct (cuckoo_insert_ok 0 0 nat_hash three_quarters count_needed tt 0 nat_new ∅ 0 5 (cuckoo_new_rep 0 0 nat_hash three_quarters count_needed tt)) as [(_ & _ & H)|(t & p & Ht & HR)]; [by apply Nat.nle_succ_0 in H|].
  exists t. change (rep nat_hash t (<[0 := 5]> ∅)) in HR. exists (<[0 := 5]> ∅). vm_compute in Ht. injection Ht as <- <-.
  destruct (cuckoo_insert_returns 0 0 nat_hash three_quarters count_needed tt 2 1 _ _ 1 6 HR) as (t' & p & Hi & HR'); [by vm_compute|split; [done|vm_compute; lia]|by vm_compute|apply (bool_decide_unpack _); by vm_compute|]. exists t', p. by split_and!.
Defined.

Lemma cuckoo_insert_diverges_witness : exists t m, rep one_hash t m /\ base.size m = 10 /\ forall fuel, insert 0 0 one_hash three_quarters fuel t 10 10 = NoFuel.
Proof.
  destruct ten_keys_rep as (t & m & HR & -> & _). eexists t, _. split; [exact HR|]. split; [by vm_compute|]. intros fuel. apply (cuckoo_insert_diverges 0 0 one_hash three_quarters count_needed tt fuel t _ 10 10 HR); [by vm_compute|by vm_compute|done].
Defined.
