(* ===== verification/TarjanSCC.v ===== *)
(** * Strongly connected components ([data_structure/graph/algorithm/TarjanSCC.cc])

    One depth-first search gives every node an index and a low link, the least index
    its subtree is seen to reach on the stack of nodes without a component; a node whose low link is its
    index takes what is above it from the stack as a component.  The components are proved to be the
    classes of mutual reachability, in an order in which edges lead to earlier components.

    The recursion goes to a node without an index each time: one more than the number of
    these is enough fuel, and [compute] supplies one more than the number of nodes. *)

From stdpp Require Import relations sorting.
From S2P Require Import Prelude Graph.
Local Open Scope Z_scope.

#[local] Set Warnings "-register-all".

Record SCCResult := mkSCC { components : list (list Z); component_id : list Z }.

(** The variables of [compute] that [tarjanDFS] gets by reference; the top of the stack comes first. *)
Record State := mkState {
  index : list Z;
  lowlink : list Z;
  on_stack : list bool;
  st : list Z;
  current_index : Z;
  result : SCCResult;
}.

Implicit Types (g : Graph) (u v w x y : Z) (s : State).

Definition set_lowlink s u x : outcome State :=
  low ← vsetz (lowlink s) u x; Ret (mkState (index s) low (on_stack s) (st s) (current_index s) (result s)).

(** The loop over the edges of [u]; [dfs] is the recursive call. *)
Fixpoint scan_edges (dfs : Z -> State -> outcome State) u (edges : list Edge) s : outcome State :=
  match edges with
  | [] => Ret s
  | e :: edges =>
    let v := to_ e in
    iv ← vgetz (index s) v;
    if decide (iv = -1) then
      s ← dfs v s;
      lu ← vgetz (lowlink s) u;
      lv ← vgetz (lowlink s) v;
      s ← set_lowlink s u (Z.min lu lv);
      scan_edges dfs u edges s
    else
      on ← vgetz (on_stack s) v;
      if (on : bool) then
        lu ← vgetz (lowlink s) u;
        s ← set_lowlink s u (Z.min lu iv);
        scan_edges dfs u edges s
      else scan_edges dfs u edges s
  end.

(** [while (true)] over the top of the stack, until it is [u]. *)
Fixpoint pop_component u (stack : list Z) (on : list bool) (id : Z) (ids component : list Z) : outcome (list Z * list bool * list Z * list Z) :=
  match stack with
  | [] => Undef
  | w :: stack =>
    on ← vsetz on w false;
    ids ← vsetz ids w id;
    let component := component ++ [w] in
    if decide (w = u) then Ret (stack, on, ids, component) else pop_component u stack on id ids component
  end.

Fixpoint tarjanDFS (fuel : nat) g u s : outcome State :=
  match fuel with
  | O => NoFuel
  | S fuel =>
    idx ← vsetz (index s) u (current_index s);
    low ← vsetz (lowlink s) u (current_index s);
    next ← add32 (current_index s) 1;
    on ← vsetz (on_stack s) u true;
    edges ← getAdjList g u;
    s ← scan_edges (tarjanDFS fuel g) u edges (mkState idx low on (u :: st s) next (result s));
    lu ← vgetz (lowlink s) u;
    iu ← vgetz (index s) u;
    if decide (lu = iu) then
      '(stack, on, ids, component) ← pop_component u (st s) (on_stack s) (Z.of_nat (length (components (result s)))) (component_id (result s)) [];
      Ret (mkState (index s) (lowlink s) on stack (current_index s) (mkSCC (components (result s) ++ [component]) ids))
    else Ret s
  end.

Fixpoint start_loop g (todo : list Z) s : outcome State :=
  match todo with
  | [] => Ret s
  | i :: todo =>
    ii ← vgetz (index s) i;
    if decide (ii = -1) then s ← tarjanDFS (S (Z.to_nat (getNodeCount g))) g i s; start_loop g todo s
    else start_loop g todo s
  end.

Definition compute g : outcome SCCResult :=
  let n := Z.to_nat (getNodeCount g) in
  let res := mkSCC [] (replicate n (-1)) in
  if decide (getNodeCount g = 0) then Ret res
  else s ← start_loop g (seqZ 0 (getNodeCount g)) (mkState (replicate n (-1)) (replicate n (-1)) (replicate n false) [] 0 res); Ret (result s).

(** ** What holds during the search *)
Definition at_ (l : list Z) v : Z := default (-1) (l !! Z.to_nat v).
Definition idx s v : Z := at_ (index s) v.
Definition low s v : Z := at_ (lowlink s) v.
Definition whites s : nat := length (filter (eq (-1)) (index s)).

Section tarjan.
Context (g : Graph) (Hg : wf_graph g).

#[local] Abbreviation n := (num_nodes_ g).
#[local] Abbreviation reach := (rtc (edge g)).

Definition disc s v : Prop := node g v /\ idx s v <> -1.

(** A component is a class of mutual reachability. *)
Definition class (c : list Z) : Prop := c <> [] /\ forall x, x ∈ c -> forall y, y ∈ c <-> reach x y /\ reach y x.

(** [G] are the nodes whose calls are running. *)
Record inv (G : list Z) s : Prop := {
  len_index : Z.of_nat (length (index s)) = n;
  len_low : length (lowlink s) = length (index s);
  len_on : length (on_stack s) = length (index s);
  len_ids : length (component_id (result s)) = length (index s);
  inv_current : current_index s + Z.of_nat (whites s) = n;
  inv_idx : forall v, disc s v -> 0 <= idx s v < current_index s;
  inv_on : forall v, node g v -> on_stack s !! Z.to_nat v = Some (bool_decide (v ∈ st s));
  inv_disc : forall v, v ∈ st s -> disc s v;
  inv_sorted : StronglySorted (fun x y => idx s y < idx s x) (st s);
  inv_gray : G ⊆ st s;
  inv_down : forall x y, x ∈ G -> y ∈ st s -> idx s x <= idx s y -> reach x y;
  inv_up : forall x, x ∈ st s -> x ∉ G -> exists y, y ∈ st s /\ idx s y < idx s x /\ reach x y;
  inv_black : forall x y, disc s x -> x ∉ G -> edge g x y -> disc s y;
  inv_closed : forall x y, disc s x -> x ∉ st s -> edge g x y -> disc s y /\ y ∉ st s;
  inv_done : forall v, v ∈ concat (components (result s)) <-> disc s v /\ v ∉ st s;
  inv_once : NoDup (concat (components (result s)));
  inv_class : Forall class (components (result s));
  inv_ids : forall i c v, components (result s) !! i = Some c -> v ∈ c -> component_id (result s) !! Z.to_nat v = Some (Z.of_nat i);
  inv_order : forall i c j c' x y, components (result s) !! i = Some c -> components (result s) !! j = Some c' -> x ∈ c -> y ∈ c' -> edge g x y -> (j <= i)%nat;
}.

Lemma at_lookup (l : list Z) v : 0 <= v < Z.of_nat (length l) -> l !! Z.to_nat v = Some (at_ l v).
Proof. intros Hv. unfold at_. destruct (lookup_z l v Hv) as [x Hx]. by rewrite Hx. Qed.

Lemma at_get (l : list Z) v : 0 <= v < Z.of_nat (length l) -> vgetz l v = Ret (at_ l v).
Proof. intros Hv. apply vgetz_Some; [lia|by apply at_lookup]. Qed.

Lemma at_set (l : list Z) u v x : 0 <= u < Z.of_nat (length l) -> 0 <= v -> at_ (<[Z.to_nat u := x]> l) v = if decide (v = u) then x else at_ l v.
Proof. intros Hu Hv. unfold at_. case_decide as H; [subst v; rewrite list_lookup_insert_eq by lia; done|by rewrite list_lookup_insert_ne by lia]. Qed.

Lemma whites_mark (l : list Z) i x : l !! i = Some (-1) -> x <> -1 -> length (filter (eq (-1)) l) = S (length (filter (eq (-1)) (<[i := x]> l))).
Proof.
  intros Hi Hx. revert i Hi. induction l as [|a l IH]; intros [|i] Hi; try done; cbn [lookup list_lookup insert list_insert] in *.
  - injection Hi as ->. rewrite filter_cons_True, filter_cons_False by congruence. done.
  - rewrite !filter_cons. specialize (IH i Hi). case_decide; cbn; by rewrite IH.
Qed.

Lemma sorted_NoDup s l : StronglySorted (fun x y => idx s y < idx s x) l -> NoDup l.
Proof. induction 1 as [|a l _ IH Hl]; constructor; [|done]. intros Ha. rewrite Forall_forall in Hl. specialize (Hl a Ha). lia. Qed.

Lemma sorted_app s (l1 l2 : list Z) x y : StronglySorted (fun x y => idx s y < idx s x) (l1 ++ l2) -> x ∈ l1 -> y ∈ l2 -> idx s y < idx s x.
Proof. intros Hs Hx Hy. exact (StronglySorted_app_1_elem_of _ l1 l2 x y Hs Hx Hy). Qed.

Lemma sorted_ext s s' l : (forall x, x ∈ l -> idx s' x = idx s x) -> StronglySorted (fun x y => idx s y < idx s x) l -> StronglySorted (fun x y => idx s' y < idx s' x) l.
Proof.
  intros Hi. induction 1 as [|a l Hs IH Ha]; constructor; [apply IH; set_solver|]. rewrite Forall_forall in *. intros x Hx. rewrite !Hi by set_solver. by apply Ha.
Qed.

Lemma node_get (l : list Z) G s v : inv G s -> node g v -> length l = length (index s) -> vgetz l v = Ret (at_ l v).
Proof. intros Hi Hv Hl. apply at_get. rewrite Hl, (len_index _ _ Hi). done. Qed.

(** ** A node is discovered *)
Definition mark s u : State :=
  mkState (<[Z.to_nat u := current_index s]> (index s)) (<[Z.to_nat u := current_index s]> (lowlink s)) (<[Z.to_nat u := true]> (on_stack s)) (u :: st s) (current_index s + 1) (result s).

Lemma mark_idx G s u v : inv G s -> node g u -> node g v -> idx (mark s u) v = if decide (v = u) then current_index s else idx s v.
Proof. intros Hi Hu Hv. unfold idx, mark. cbn. apply at_set; [rewrite (len_index _ _ Hi); done|apply Hv]. Qed.

Lemma mark_low G s u v : inv G s -> node g u -> node g v -> low (mark s u) v = if decide (v = u) then current_index s else low s v.
Proof. intros Hi Hu Hv. unfold low, mark. cbn. apply at_set; [rewrite (len_low _ _ Hi), (len_index _ _ Hi); done|apply Hv]. Qed.

Lemma current_nonneg G s : inv G s -> 0 <= current_index s <= n.
Proof. intros Hi. pose proof (inv_current _ _ Hi). split; [|lia]. unfold whites in *. pose proof (length_filter (eq (-1)) (index s)). rewrite <- (len_index _ _ Hi) in *. lia. Qed.

Lemma mark_disc G s u v : inv G s -> node g u -> disc (mark s u) v <-> disc s v \/ v = u.
Proof.
  intros Hi Hu. pose proof (current_nonneg _ _ Hi). unfold disc. split.
  - intros [Hv Hne]. rewrite (mark_idx _ _ _ _ Hi Hu Hv) in Hne. case_decide; auto.
  - intros [[Hv Hne]| ->]; (split; [done|]); rewrite (mark_idx _ _ _ _ Hi) by done; case_decide; lia.
Qed.

Lemma mark_inv G s u : inv G s -> node g u -> idx s u = -1 -> (forall y, y ∈ G -> reach y u) ->
  inv (u :: G) (mark s u) /\ whites s = S (whites (mark s u)) /\ (u ∉ st s) /\ current_index s < n.
Proof.
  intros Hi Hu Hw HG. pose proof (current_nonneg _ _ Hi) as Hc. assert (0 <= u < Z.of_nat (length (index s))) as Hr by (by rewrite (len_index _ _ Hi)).
  assert (whites s = S (whites (mark s u))) as Hws by (apply whites_mark; [rewrite (at_lookup _ _ Hr); by f_equal|lia]).
  assert (u ∉ st s) as Hst by (intros Hin; by apply (inv_disc _ _ Hi) in Hin as [_ ?]). assert (forall v, v ∈ st s -> idx (mark s u) v = idx s v) as Hsame.
  { intros v Hin. destruct (inv_disc _ _ Hi v Hin) as [Hv Hd]. rewrite (mark_idx _ _ _ _ Hi Hu Hv). case_decide; [by subst|done]. }
  assert (forall v, disc s v -> v <> u) as Hne by (intros v [_ Hd] ->; done). pose proof (fun v => mark_disc G s u v Hi Hu) as Hmd. assert (idx (mark s u) u = current_index s) as Hiu by (rewrite (mark_idx _ _ _ _ Hi Hu Hu); by case_decide).
  split; [|split; [done|split; [done|pose proof (inv_current _ _ Hi); lia]]]. split; unfold mark; cbn [index lowlink on_stack st current_index result]; rewrite ?length_insert; try apply Hi; try change (mkState _ _ _ _ _ _) with (mark s u) in *.
  - pose proof (inv_current _ _ Hi). lia.
  - intros v Hd. destruct (Hd) as [Hv _]. apply Hmd in Hd. rewrite (mark_idx _ _ _ _ Hi Hu Hv). case_decide; [lia|]. destruct Hd as [Hd|]; [|done]. pose proof (inv_idx _ _ Hi v Hd). lia.
  - intros v Hv. pose proof (inv_on _ _ Hi v Hv) as Hon. destruct (decide (v = u)) as [->|Hvu].
    + rewrite list_lookup_insert_eq by (apply lookup_lt_Some in Hon; lia). f_equal. symmetry. apply bool_decide_eq_true_2. by left.
    + unfold node in *. rewrite list_lookup_insert_ne by lia. rewrite Hon. f_equal. apply bool_decide_ext. set_solver.
  - intros v [->|Hin]%elem_of_cons; apply Hmd; [by right|]. left. by apply (inv_disc _ _ Hi).
  - constructor; [apply (sorted_ext s); [done|apply Hi]|]. rewrite Forall_forall. intros v Hin. rewrite Hiu, Hsame by done. apply (inv_idx _ _ Hi), (inv_disc _ _ Hi), Hin.
  - intros v [->|Hin]%elem_of_cons; [by left|]. right. by apply (inv_gray _ _ Hi).
  - intros x y Hx [->|Hy]%elem_of_cons Hle; [apply elem_of_cons in Hx as [->|Hx]; [done|by apply HG]|]. apply elem_of_cons in Hx as [->|Hx].
    + exfalso. rewrite Hiu, Hsame in Hle by done. pose proof (inv_idx _ _ Hi y (inv_disc _ _ Hi y Hy)). lia.
    + apply (inv_down _ _ Hi); [done|done|]. rewrite !Hsame in Hle; [done|done|by apply (inv_gray _ _ Hi)].
  - intros x [->|Hx]%elem_of_cons HxG; [set_solver|]. destruct (inv_up _ _ Hi x Hx) as (y & Hy & Hlt & Hxy); [set_solver|]. exists y. rewrite !Hsame by done. split; [by right|done].
  - intros x y [Hd| ->]%Hmd HxG Hxy; [|set_solver]. apply Hmd. left. apply (inv_black _ _ Hi x y Hd); [set_solver|done].
  - intros x y [Hd| ->]%Hmd Hxs Hxy; [|set_solver]. destruct (inv_closed _ _ Hi x y Hd ltac:(set_solver) Hxy) as [Hy Hys]. split; [apply Hmd; by left|]. pose proof (Hne y Hy). set_solver.
  - intros v. rewrite (inv_done _ _ Hi), Hmd. pose proof (Hne v). set_solver.
Qed.

(** ** The low links *)
Definition with_low s (l : list Z) : State := mkState (index s) l (on_stack s) (st s) (current_index s) (result s).

Lemma with_low_inv G s l : inv G s -> length l = length (lowlink s) -> inv G (with_low s l).
Proof. intros [] Hl. split; try done. cbn. congruence. Qed.

Lemma set_lowlink_ok G s u x : inv G s -> node g u -> exists l, set_lowlink s u x = Ret (with_low s l) /\ inv G (with_low s l) /\ forall v, node g v -> low (with_low s l) v = if decide (v = u) then x else low s v.
Proof.
  intros Hi Hu. assert (0 <= u < Z.of_nat (length (lowlink s))) as Hr by (rewrite (len_low _ _ Hi), (len_index _ _ Hi); done). exists (<[Z.to_nat u := x]> (lowlink s)). unfold set_lowlink. rewrite vsetz_lt by done. split; [done|].
  split; [apply with_low_inv; [done|apply length_insert]|]. intros v Hv. unfold low, with_low. cbn. apply at_set; [done|apply Hv].
Qed.

Lemma get_low G s v : inv G s -> node g v -> vgetz (lowlink s) v = Ret (low s v).
Proof. intros Hi Hv. eapply node_get; [done|done|by eapply len_low]. Qed.

Lemma get_idx G s v : inv G s -> node g v -> vgetz (index s) v = Ret (idx s v).
Proof. intros Hi Hv. by eapply node_get. Qed.

Lemma get_on G s v : inv G s -> node g v -> vgetz (on_stack s) v = Ret (bool_decide (v ∈ st s)).
Proof. intros Hi Hv. apply vgetz_Some; [apply Hv|by eapply inv_on]. Qed.

(** What a call does that starts in a state [s]. *)
Record visited (G : list Z) s u s' : Prop := {
  vi_inv : inv G s';
  vi_idx : forall v, disc s v -> idx s' v = idx s v;
  vi_low : forall v, disc s v -> low s' v = low s v;
  vi_whites : (whites s' < whites s)%nat;
  vi_disc : disc s' u;
  vi_new : exists new, st s' = new ++ st s /\
    ((new = [] /\ forall y, y ∈ st s -> idx s y < low s' u) \/
     ((exists y, y ∈ st s /\ idx s y = low s' u /\ reach u y) /\ forall x y, x ∈ new -> y ∈ st s -> edge g x y -> low s' u <= idx s y));
}.

Definition dfs_ok (F : nat) (dfs : Z -> State -> outcome State) : Prop :=
  forall G s u, inv G s -> node g u -> idx s u = -1 -> (forall y, y ∈ G -> reach y u) -> (whites s <= F)%nat -> exists s', dfs u s = Ret s' /\ visited G s u s'.

(** The state in the loop of the call of [u] when the nodes [ps] were seen. *)
Record scanning (G : list Z) u (st0 : list Z) s (ps : list Z) : Prop := {
  sc_inv : inv (u :: G) s;
  sc_gray : G ⊆ st0;
  sc_le : low s u <= idx s u;
  sc_least : exists y, y ∈ st s /\ idx s y = low s u /\ reach u y;
  sc_seen : forall v, v ∈ ps -> disc s v /\ (v ∈ st0 -> low s u <= idx s v);
  sc_new : exists new, st s = new ++ u :: st0 /\ forall x y, x ∈ new -> y ∈ st0 -> edge g x y -> low s u <= idx s y;
}.

Lemma disc_keep s s' v : (forall v, disc s v -> idx s' v = idx s v) -> disc s v -> disc s' v.
Proof. intros Hf Hd. split; [apply Hd|]. rewrite (Hf v Hd). apply Hd. Qed.

(** The low link is lowered to the index of a node of the stack that [u] reaches. *)
Lemma scanning_lower G u st0 s ps l y v : scanning G u st0 s ps -> y ∈ st s -> reach u y -> (forall v, node g v -> low (with_low s l) v = if decide (v = u) then Z.min (low s u) (idx s y) else low s v) ->
  length l = length (lowlink s) -> disc s v -> (v ∈ st0 -> v = y) -> scanning G u st0 (with_low s l) (ps ++ [v]).
Proof.
  intros [Hi HG Hle (y0 & Hy0 & Hy0l & Hy0r) Hseen (new & Hst & Hnew)] Hy Hr Hl Hlen Hv Hvy. assert (node g u) as Hu by (apply (inv_disc _ _ Hi u); rewrite Hst; set_solver). specialize (Hl u Hu). rewrite decide_True in Hl by done.
  split; [by apply with_low_inv|done|change (low (with_low s l) u <= idx s u); lia| | |].
  - destruct (decide (low s u <= idx s y)); [exists y0|exists y]; (split; [done|]; split; [rewrite Hl; change (idx (with_low s l)) with (idx s); lia|done]).
  - intros x [Hx| ->%list_elem_of_singleton]%elem_of_app; (split; [|intros Hx0; rewrite Hl; change (idx (with_low s l)) with (idx s)]).
    + by apply (Hseen x Hx).
    + pose proof (proj2 (Hseen x Hx) Hx0). lia.
    + done.
    + rewrite (Hvy Hx0). lia.
  - exists new. split; [done|]. intros x z Hx Hz He. specialize (Hnew x z Hx Hz He). rewrite Hl. change (idx (with_low s l)) with (idx s). lia.
Qed.

Lemma scanning_seen G u st0 s ps v : scanning G u st0 s ps -> disc s v -> (v ∉ st0) -> scanning G u st0 s (ps ++ [v]).
Proof. intros [] Hv Hst. split; try done. intros x [Hx| ->%list_elem_of_singleton]%elem_of_app; [by apply sc_seen0|done]. Qed.

(** After the call of a successor. *)
Lemma scanning_visit G u st0 s ps v s' l : scanning G u st0 s ps -> edge g u v -> idx s v = -1 -> visited (u :: G) s v s' ->
  (forall x, node g x -> low (with_low s' l) x = if decide (x = u) then Z.min (low s' u) (low s' v) else low s' x) -> length l = length (lowlink s') ->
  scanning G u st0 (with_low s' l) (ps ++ [v]).
Proof.
  intros [Hi HG Hle (y0 & Hy0 & Hy0l & Hy0r) Hseen (new & Hst & Hnew)] He Hw [Hi' Hidx Hlow _ Hdv (new2 & Hst2 & Hc)] Hl Hlen.
  assert (disc s u) as Hdu by (apply (inv_disc _ _ Hi u); rewrite Hst; set_solver). pose proof Hdu as [Hu _]. specialize (Hl u Hu). rewrite decide_True in Hl by done.
  assert (low s' u = low s u) as Hlu by (by apply Hlow). assert (forall y, y ∈ st s -> idx s' y = idx s y) as Hsame by (intros y Hy; by apply Hidx, (inv_disc _ _ Hi)).
  assert (v ∉ st s) as Hvs by (intros Hin; by apply (inv_disc _ _ Hi) in Hin as [_ ?]). assert (reach u v) as Huv by (by apply rtc_once). change (idx (with_low s' l)) with (idx s') in *.
  assert (forall y, y ∈ st s -> y ∈ st s') as Hin by (intros y Hy; rewrite Hst2; set_solver). assert (forall y, y ∈ st0 -> y ∈ st s) as Hin0 by (intros y Hy; rewrite Hst; set_solver).
  split; [by apply with_low_inv|done|change (low (with_low s' l) u <= idx s' u); rewrite (Hidx u Hdu); lia| | |].
  - destruct (decide (low s' u <= low s' v)) as [Hm|Hm]; [exists y0; split; [by apply Hin|]; split; [change (idx s' y0 = low (with_low s' l) u); rewrite (Hsame _ Hy0); lia|done]|].
    destruct Hc as [[_ Hall]|[(y & Hy & Hyl & Hyr) _]]; [specialize (Hall y0 Hy0); lia|]. exists y. split; [by apply Hin|]. split; [change (idx s' y = low (with_low s' l) u); rewrite (Hsame _ Hy); lia|by etrans].
  - intros x [Hx| ->%list_elem_of_singleton]%elem_of_app.
    + destruct (Hseen x Hx) as [Hdx Hx0]. split; [by apply (disc_keep s s' x)|]. intros Hxs. specialize (Hx0 Hxs). change (low (with_low s' l) u <= idx s' x). rewrite (Hidx x Hdx). lia.
    + split; [done|]. intros Hv0. by apply Hin0 in Hv0.
  - exists (new2 ++ new). split; [change (st s' = (new2 ++ new) ++ u :: st0); by rewrite Hst2, Hst, (assoc_L (++))|]. intros x y Hx Hy Hxy. change (low (with_low s' l) u <= idx s' y). rewrite (Hsame y) by auto. apply elem_of_app in Hx as [Hx|Hx].
    + destruct Hc as [[-> _]|[_ Hall]]; [by apply not_elem_of_nil in Hx|]. specialize (Hall x y Hx (Hin0 y Hy) Hxy). lia.
    + specialize (Hnew x y Hx Hy Hxy). lia.
Qed.

(** ** The loop over the edges *)
Record kept u s s' : Prop := {
  kp_idx : forall v, disc s v -> idx s' v = idx s v;
  kp_low : forall v, disc s v -> v <> u -> low s' v = low s v;
  kp_whites : (whites s' <= whites s)%nat;
}.

Lemma kept_refl u s : kept u s s.
Proof. by split. Qed.

Lemma kept_trans u s1 s2 s3 : kept u s1 s2 -> kept u s2 s3 -> kept u s1 s3.
Proof.
  intros [H1 H2 H3] [H1' H2' H3']. assert (forall v, disc s1 v -> disc s2 v) as Hd by (intros v; by apply disc_keep). split; [intros v Hv; rewrite H1', H1; auto|intros v Hv Hne; rewrite H2', H2; auto|lia].
Qed.

Lemma kept_with_low u s l : (forall x, node g x -> x <> u -> low (with_low s l) x = low s x) -> kept u s (with_low s l).
Proof. intros Hl. split; [done| |done]. intros v [Hv _] Hne. by apply Hl. Qed.

Lemma scan_edges_ok F dfs G u st0 : dfs_ok F dfs -> forall es s ps, Forall (fun e => edge g u (to_ e)) es -> scanning G u st0 s ps -> (whites s <= F)%nat ->
  exists s', scan_edges dfs u es s = Ret s' /\ scanning G u st0 s' (ps ++ (to_ <$> es)) /\ kept u s s'.
Proof.
  intros Hdfs. induction es as [|e es IH]; intros s ps Hes Hsc HF; cbn [scan_edges].
  { exists s. split; [done|]. split; [by rewrite app_nil_r|apply kept_refl]. }
  apply Forall_cons in Hes as [He Hes]. set (v := to_ e) in *. destruct (edge_node g u v Hg He) as [Hu Hv]. pose proof (sc_inv _ _ _ _ _ Hsc) as Hi. rewrite (get_idx _ _ _ Hi Hv). ret_step.
  assert (forall s1, scanning G u st0 s1 (ps ++ [v]) -> kept u s s1 -> exists s', scan_edges dfs u es s1 = Ret s' /\ scanning G u st0 s' (ps ++ (to_ <$> e :: es)) /\ kept u s s') as Hrest.
  { intros s1 Hs1 Hk. destruct (IH s1 (ps ++ [v]) Hes Hs1) as (s' & Hs' & Hsc' & Hk'); [pose proof (kp_whites _ _ _ Hk); lia|]. exists s'. split; [done|]. split; [by rewrite <- (assoc_L (++)) in Hsc'|by eapply kept_trans]. }
  case_decide as Hw.
  - destruct (Hdfs (u :: G) s v Hi Hv Hw) as (s' & -> & Hvis); [|done|].
    { intros y Hy. assert (u ∈ st s) as Hus by (destruct (sc_new _ _ _ _ _ Hsc) as (new & -> & _); set_solver). etrans; [|by apply rtc_once]. apply elem_of_cons in Hy as [->|Hy]; [done|]. apply (inv_down _ _ Hi); [by right|done|].
      destruct (sc_new _ _ _ _ _ Hsc) as (new & Hst & _). pose proof (inv_sorted _ _ Hi) as Hso. rewrite Hst in Hso. replace (new ++ u :: st0) with ((new ++ [u]) ++ st0) in Hso by (by rewrite <- (assoc_L (++))). assert (idx s y < idx s u); [|lia]. eapply sorted_app; [exact Hso|set_solver|by apply (sc_gray _ _ _ _ _ Hsc)]. }
    ret_step. pose proof (vi_inv _ _ _ _ Hvis) as Hi'. rewrite (get_low _ _ _ Hi' Hu). ret_step. rewrite (get_low _ _ _ Hi' Hv). ret_step. destruct (set_lowlink_ok _ _ _ (Z.min (low s' u) (low s' v)) Hi' Hu) as (l & -> & Hil & Hl). ret_step.
    assert (length l = length (lowlink s')) as Hlen by (pose proof (len_low _ _ Hil); pose proof (len_low _ _ Hi'); cbn in *; congruence). apply Hrest; [by eapply scanning_visit|].
    apply (kept_trans u s s'); [split; [apply Hvis|intros; by apply Hvis|pose proof (vi_whites _ _ _ _ Hvis); lia]|]. apply kept_with_low. intros x Hx Hne. rewrite Hl by done. by case_decide.
  - rewrite (get_on _ _ _ Hi Hv). ret_step. case_bool_decide as Hon.
    + rewrite (get_low _ _ _ Hi Hu). ret_step. destruct (set_lowlink_ok _ _ _ (Z.min (low s u) (idx s v)) Hi Hu) as (l & -> & Hil & Hl). ret_step.
      assert (length l = length (lowlink s)) as Hlen by (pose proof (len_low _ _ Hil); pose proof (len_low _ _ Hi); cbn in *; congruence). apply Hrest; [by eapply scanning_lower; [..|done]; try done; apply rtc_once|].
      apply kept_with_low. intros x Hx Hne. rewrite Hl by done. by case_decide.
    + apply Hrest; [|apply kept_refl]. apply scanning_seen; [done|done|]. intros Hin. apply Hon. destruct (sc_new _ _ _ _ _ Hsc) as (new & -> & _). set_solver.
Qed.

Lemma scanning_start G s u : inv G s -> node g u -> idx s u = -1 -> (forall y, y ∈ G -> reach y u) -> scanning G u (st s) (mark s u) [].
Proof.
  intros Hi Hu Hw HG. destruct (mark_inv G s u Hi Hu Hw HG) as (Hi' & _ & Hus & _). assert (idx (mark s u) u = current_index s) as Hiu by (rewrite (mark_idx _ _ _ _ Hi Hu Hu); by case_decide). assert (low (mark s u) u = current_index s) as Hlu by (rewrite (mark_low _ _ _ _ Hi Hu Hu); by case_decide).
  split; [done|by apply (inv_gray _ _ Hi)|lia| |intros v Hv; by apply not_elem_of_nil in Hv|exists []; split; [done|intros x y Hx; by apply not_elem_of_nil in Hx]]. exists u. split; [by left|]. split; [lia|done].
Qed.

(** The call of a node that is no root ends. *)
Lemma finish_inner G u st0 s : scanning G u st0 s (to_ <$> adj g u) -> low s u <> idx s u -> inv G s.
Proof.
  intros [Hi HG Hle (y0 & Hy0 & Hy0l & Hy0r) Hseen (new & Hst & Hnew)] Hne. split; try apply Hi.
  - intros x Hx. apply (inv_gray _ _ Hi). by right.
  - intros x y Hx. apply (inv_down _ _ Hi). by right.
  - intros x Hx HxG. destruct (decide (x = u)) as [->|Hxu]; [|apply (inv_up _ _ Hi); [done|set_solver]]. exists y0. split; [done|]. split; [lia|done].
  - intros x y Hd HxG Hxy. destruct (decide (x = u)) as [->|Hxu]; [|apply (inv_black _ _ Hi x y); [done|set_solver|done]]. by apply Hseen, Hxy.
Qed.

(** ** A component *)
Lemma pop_component_ok u stack : forall new st0 on id ids component, stack = new ++ u :: st0 -> (u ∉ new) -> Forall (fun v => 0 <= v < Z.of_nat (length on) /\ 0 <= v < Z.of_nat (length ids)) (new ++ [u]) ->
  exists on' ids', pop_component u stack on id ids component = Ret (st0, on', ids', component ++ new ++ [u]) /\ length on' = length on /\ length ids' = length ids /\
    (forall v, 0 <= v -> on' !! Z.to_nat v = if decide (v ∈ new ++ [u]) then Some false else on !! Z.to_nat v) /\
    (forall v, 0 <= v -> ids' !! Z.to_nat v = if decide (v ∈ new ++ [u]) then Some id else ids !! Z.to_nat v).
Proof.
  intros new. revert stack. induction new as [|w new IH]; intros stack st0 on id ids component -> Hu Hr; cbn [app pop_component] in *; apply Forall_cons in Hr as [[Hw Hw'] Hr].
  - rewrite (vsetz_lt on) by done. ret_step. rewrite (vsetz_lt ids) by done. ret_step. rewrite decide_True by done. eexists _, _. split; [done|]. rewrite !length_insert. split; [done|]. split; [done|].
    split; intros v Hv; (case_decide as Hin; [apply list_elem_of_singleton in Hin as ->; rewrite list_lookup_insert_eq by lia; done|rewrite list_lookup_insert_ne; [done|]; intros Heq; apply Hin, list_elem_of_singleton; lia]).
  - rewrite (vsetz_lt on) by done. ret_step. rewrite (vsetz_lt ids) by done. ret_step. rewrite decide_False by set_solver.
    destruct (IH _ st0 (<[Z.to_nat w := false]> on) id (<[Z.to_nat w := id]> ids) (component ++ [w]) eq_refl) as (on' & ids' & -> & Hlo & Hli & Hon & Hids); [set_solver|by rewrite !length_insert|].
    eexists _, _. split; [by rewrite <- (assoc_L (++))|]. rewrite Hlo, Hli, !length_insert. split; [done|]. split; [done|].
    split; intros v Hv; [rewrite Hon by done|rewrite Hids by done]; (case_decide as Hin; [rewrite decide_True by set_solver; done|]); (destruct (decide (v = w)) as [->|Hne]; [rewrite list_lookup_insert_eq by lia; rewrite decide_True by set_solver; done|rewrite list_lookup_insert_ne by lia; rewrite decide_False by set_solver; done]).
Qed.

Lemma in_component (cs : list (list Z)) i c v : cs !! i = Some c -> v ∈ c -> v ∈ concat cs.
Proof. revert i. induction cs as [|c0 cs IH]; intros [|i] Hc Hv; try done; cbn; apply elem_of_app; [left; by injection Hc as ->|right; by eapply IH]. Qed.

Lemma in_components (cs : list (list Z)) v : v ∈ concat cs -> exists i c, cs !! i = Some c /\ v ∈ c.
Proof. induction cs as [|c cs IH]; cbn; [by intros ?%not_elem_of_nil|]. intros [Hv|Hv]%elem_of_app; [by exists 0%nat, c|]. destruct (IH Hv) as (i & c' & Hc & Hv'). by exists (S i), c'. Qed.

Lemma done_reach G s x y : inv G s -> disc s x -> (x ∉ st s) -> reach x y -> disc s y /\ y ∉ st s.
Proof. intros Hi Hd Hx Hr. induction Hr as [x|x y z He _ IH]; [done|]. destruct (inv_closed _ _ Hi x y Hd Hx He). by apply IH. Qed.

(** [u] is a root: what is above it on the stack is a component. *)
Section root.
Context (G : list Z) u (st0 : list Z) s (new : list Z).
Context (Hi : inv (u :: G) s) (HG : G ⊆ st0) (Hst : st s = (new ++ [u]) ++ st0).
Context (Hseen : forall v, edge g u v -> disc s v /\ (v ∈ st0 -> idx s u <= idx s v)).
Context (Hnew : forall x y, x ∈ new -> y ∈ st0 -> edge g x y -> idx s u <= idx s y).

Lemma root_idx x y : x ∈ new ++ [u] -> y ∈ st0 -> idx s y < idx s u /\ idx s u <= idx s x.
Proof.
  intros Hx Hy. pose proof (inv_sorted _ _ Hi) as Hs. rewrite Hst in Hs. split; [eapply sorted_app; [exact Hs|set_solver|done]|]. apply elem_of_app in Hx as [Hx|Hx]; [|apply list_elem_of_singleton in Hx; subst x; lia].
  assert (idx s u < idx s x); [|lia]. rewrite <- (assoc_L (++)) in Hs. eapply sorted_app; [exact Hs|done|set_solver].
Qed.

Lemma root_above x : x ∈ new ++ [u] -> idx s u <= idx s x.
Proof.
  intros Hx. pose proof (inv_sorted _ _ Hi) as Hs. rewrite Hst in Hs. apply elem_of_app in Hx as [Hx|Hx]; [|apply list_elem_of_singleton in Hx; subst x; lia]. assert (idx s u < idx s x); [|lia]. rewrite <- (assoc_L (++)) in Hs. eapply sorted_app; [exact Hs|done|set_solver].
Qed.

Lemma root_NoDup : NoDup ((new ++ [u]) ++ st0).
Proof. rewrite <- Hst. eapply sorted_NoDup, inv_sorted, Hi. Qed.

Lemma root_apart x : x ∈ new ++ [u] -> x ∉ st0.
Proof. pose proof root_NoDup as (_ & Hd & _)%NoDup_app. apply Hd. Qed.

Lemma root_on_stack x : x ∈ new ++ [u] -> x ∈ st s /\ disc s x.
Proof. intros Hx. assert (x ∈ st s) as Hin by (rewrite Hst; set_solver). split; [done|]. by apply (inv_disc _ _ Hi). Qed.

Lemma root_edge x y : x ∈ new ++ [u] -> edge g x y -> y ∈ new ++ [u] \/ (disc s y /\ y ∉ st s).
Proof.
  intros Hx He. assert (disc s y /\ (y ∉ st0)) as [Hd Hy0].
  { apply elem_of_app in Hx as [Hx|Hx]; [|apply list_elem_of_singleton in Hx; subst x; destruct (Hseen y He) as [Hd H0]; split; [done|]; intros Hy; specialize (H0 Hy); pose proof (root_idx u y ltac:(set_solver) Hy); lia].
    assert (x ∈ new ++ [u]) as Hx' by set_solver. split.
    - apply (inv_black _ _ Hi x y); [by apply root_on_stack| |done]. intros [->|HxG]%elem_of_cons; [|by apply (root_apart x Hx'), HG]. pose proof root_NoDup as [Hn _]%NoDup_app. apply NoDup_app in Hn as (_ & Hn & _). apply (Hn u Hx). by left.
    - intros Hy. pose proof (Hnew x y Hx Hy He). pose proof (root_idx x y Hx' Hy). lia. }
  destruct (decide (y ∈ st s)) as [Hy|]; [|by right]. rewrite Hst in Hy. set_solver.
Qed.

Lemma root_reach x y : x ∈ new ++ [u] -> reach x y -> y ∈ new ++ [u] \/ (disc s y /\ y ∉ st s).
Proof.
  intros Hx Hr. revert Hx. induction Hr as [x|x y z He Hr IH]; [auto|]. intros Hx. destruct (root_edge x y Hx He) as [Hy|[Hd Hy]]; [by apply IH|]. right. by eapply done_reach.
Qed.

Lemma root_back x : x ∈ new ++ [u] -> reach x u.
Proof.
  intros Hx. remember (Z.to_nat (idx s x)) as k eqn:Hk. revert x Hx Hk. induction (Nat.lt_wf_0 k) as [k _ IH]. intros x Hx ->. destruct (root_on_stack x Hx) as [Hxs Hxd]. destruct (decide (x = u)) as [->|Hxu]; [done|].
  destruct (inv_up _ _ Hi x Hxs) as (y & Hy & Hlt & Hxy); [intros [->|HxG]%elem_of_cons; [done|by apply (root_apart x Hx), HG]|]. destruct (root_reach x y Hx Hxy) as [Hyn|[_ Hyn]]; [|done]. etrans; [exact Hxy|]. pose proof (inv_idx _ _ Hi y (inv_disc _ _ Hi y Hy)). eapply IH; [|done|reflexivity]. lia.
Qed.

Lemma root_class : class (new ++ [u]).
Proof.
  split; [by destruct new|]. intros x Hx y. assert (forall z, z ∈ new ++ [u] -> reach u z) as Hdown by (intros z Hz; apply (inv_down _ _ Hi); [by left|by apply root_on_stack|by apply root_above]). split.
  - intros Hy. split; (etrans; [by apply root_back|by apply Hdown]).
  - intros [Hxy Hyx]. destruct (root_reach x y Hx Hxy) as [Hy|[Hd Hy]]; [done|]. destruct (done_reach _ _ _ _ Hi Hd Hy Hyx) as [_ Hxs]. by destruct (root_on_stack x Hx).
Qed.

Lemma root_inv on ids : length on = length (on_stack s) -> length ids = length (component_id (result s)) ->
  (forall v, 0 <= v -> on !! Z.to_nat v = if decide (v ∈ new ++ [u]) then Some false else on_stack s !! Z.to_nat v) ->
  (forall v, 0 <= v -> ids !! Z.to_nat v = if decide (v ∈ new ++ [u]) then Some (Z.of_nat (length (components (result s)))) else component_id (result s) !! Z.to_nat v) ->
  inv G (mkState (index s) (lowlink s) on st0 (current_index s) (mkSCC (components (result s) ++ [new ++ [u]]) ids)).
Proof.
  intros Hlo Hli Hon Hids. assert (forall v, v ∈ st s <-> v ∈ new ++ [u] \/ v ∈ st0) as Hin by (intros v; rewrite Hst; apply elem_of_app). assert (u ∉ st0) as Hu0 by (apply root_apart; set_solver).
  assert (forall v, disc s v -> 0 <= v) as Hnn by (intros v [[? _] _]; done).
  split; cbn [index lowlink on_stack st current_index result components component_id]; try apply Hi; change (disc (mkState _ _ _ _ _ _)) with (disc s); change (idx (mkState _ _ _ _ _ _)) with (idx s).
  - rewrite Hlo. apply Hi.
  - rewrite Hli. apply Hi.
  - intros v Hv. rewrite (Hon v) by apply Hv. case_decide as Hd; [f_equal; symmetry; by apply bool_decide_eq_false_2, root_apart|]. rewrite (inv_on _ _ Hi v Hv). f_equal. apply bool_decide_ext. rewrite Hin. tauto.
  - intros v Hv. apply (inv_disc _ _ Hi), Hin. by right.
  - eapply StronglySorted_app_1_r. rewrite <- Hst. apply Hi.
  - done.
  - intros x y Hx Hy. apply (inv_down _ _ Hi); [by right|]. apply Hin. by right.
  - intros x Hx HxG. destruct (inv_up _ _ Hi x) as (y & Hy & Hlt & Hxy); [apply Hin; by right|set_solver|]. exists y. split; [|done]. apply Hin in Hy as [Hy|]; [|done]. pose proof (root_idx y x Hy Hx). lia.
  - intros x y Hd HxG He. destruct (decide (x = u)) as [->|Hxu]; [by apply Hseen|]. apply (inv_black _ _ Hi x y); [done|set_solver|done].
  - intros x y Hd Hx He. destruct (decide (x ∈ new ++ [u])) as [Hxn|Hxn].
    + destruct (root_edge x y Hxn He) as [Hy|[Hyd Hy]]; [split; [by apply root_on_stack|by apply root_apart]|]. split; [done|]. intros H0. apply Hy, Hin. by right.
    + destruct (inv_closed _ _ Hi x y Hd) as [Hyd Hy]; [rewrite Hin; tauto|done|]. split; [done|]. intros H0. apply Hy, Hin. by right.
  - intros v. rewrite concat_app, elem_of_app, (inv_done _ _ Hi), Hin. cbn [concat]. rewrite app_nil_r. split; [intros [[Hd Hv]|Hv]; [tauto|split; [by apply root_on_stack|by apply root_apart]]|]. intros [Hd Hv]. destruct (decide (v ∈ new ++ [u])); tauto.
  - rewrite concat_app. cbn [concat]. rewrite app_nil_r. apply NoDup_app. split; [apply Hi|]. split; [|by pose proof root_NoDup as (? & _)%NoDup_app]. intros v Hv Hvn. apply (inv_done _ _ Hi) in Hv as [_ Hv]. apply Hv. by apply root_on_stack.
  - apply Forall_app. split; [apply Hi|]. constructor; [apply root_class|done].
  - intros i c v Hc Hv. apply lookup_app_Some in Hc as [Hc|[Hlen Hc]].
    + assert (v ∈ concat (components (result s))) as Hvc by (by eapply in_component). apply (inv_done _ _ Hi) in Hvc as [Hd Hvs]. rewrite Hids by auto. rewrite decide_False by (intros Hvn; by apply Hvs, root_on_stack). by apply (inv_ids _ _ Hi i c v).
    + destruct (i - length (components (result s)))%nat as [|] eqn:Hz; [|done]. injection Hc as <-. rewrite Hids by (apply Hnn; by apply root_on_stack). rewrite decide_True by done. do 2 f_equal. lia.
  - intros i c j c' x y Hc Hc' Hx Hy He. assert (j <= length (components (result s)))%nat as Hj by (apply lookup_lt_Some in Hc'; rewrite length_app in Hc'; cbn in Hc'; lia). apply lookup_app_Some in Hc as [Hc|[Hlen Hc]]; [|lia].
    apply lookup_app_Some in Hc' as [Hc'|[Hlen' Hc']]; [by apply (inv_order _ _ Hi i c j c' x y)|]. exfalso. destruct (j - length (components (result s)))%nat as [|] eqn:Hz; [|done]. injection Hc' as <-.
    assert (x ∈ concat (components (result s))) as Hxc by (by eapply in_component). apply (inv_done _ _ Hi) in Hxc as [Hd Hxs]. destruct (inv_closed _ _ Hi x y Hd Hxs He) as [_ Hys]. by apply Hys, root_on_stack.
Qed.
End root.

(** ** A call, and all of them *)
Lemma tarjanDFS_ok F : dfs_ok F (tarjanDFS F g).
Proof.
  induction F as [|F IH]; intros G s u Hi Hu Hw HG HF; destruct (mark_inv G s u Hi Hu Hw HG) as (Him & Hws & Hus & Hcur); [lia|]. cbn [tarjanDFS].
  assert (0 <= u < Z.of_nat (length (index s))) as Hr by (by rewrite (len_index _ _ Hi)). pose proof (current_nonneg _ _ Hi) as Hc. pose proof (wf_int _ Hg) as Hint.
  rewrite (vsetz_lt (index s)) by done. ret_step. rewrite (vsetz_lt (lowlink s)) by (by rewrite (len_low _ _ Hi)). ret_step. rewrite add32_in by (unfold in_i32, INT32_MIN; lia). ret_step.
  rewrite (vsetz_lt (on_stack s)) by (by rewrite (len_on _ _ Hi)). ret_step. destruct (adj_ok g u Hg Hu) as [Hadj ->]. ret_step. lazymatch goal with |- context [scan_edges _ _ _ ?t] => change t with (mark s u) end.
  assert (Forall (fun e => edge g u (to_ e)) (adj g u)) as Hes by (apply Forall_forall; intros e He; split; [done|by apply list_elem_of_fmap_2]).
  destruct (scan_edges_ok F (tarjanDFS F g) G u (st s) IH (adj g u) (mark s u) [] Hes (scanning_start G s u Hi Hu Hw HG)) as (s1 & -> & Hsc & Hk); [lia|]. ret_step. cbn [app] in Hsc.
  pose proof (sc_inv _ _ _ _ _ Hsc) as Hi1. rewrite (get_low _ _ _ Hi1 Hu). ret_step. rewrite (get_idx _ _ _ Hi1 Hu). ret_step.
  assert (forall v, disc s v -> disc (mark s u) v /\ v <> u) as Hdm by (intros v Hd; split; [apply (mark_disc G s u v Hi Hu); by left|intros ->; by apply Hd]). assert (forall v, disc s v -> idx s1 v = idx s v) as Hidx.
  { intros v Hd. destruct (Hdm v Hd) as [Hd' Hne]. rewrite (kp_idx _ _ _ Hk v Hd'), (mark_idx G s u v Hi Hu ltac:(apply Hd)). by case_decide. }
  assert (forall v, disc s v -> low s1 v = low s v) as Hlow.
  { intros v Hd. destruct (Hdm v Hd) as [Hd' Hne]. rewrite (kp_low _ _ _ Hk v Hd' Hne), (mark_low G s u v Hi Hu ltac:(apply Hd)). by case_decide. }
  pose proof (kp_whites _ _ _ Hk) as Hwh. pose proof Hsc as [_ HGst Hle (y0 & Hy0 & Hy0l & Hy0r) Hseen (new & Hst & Hnew)]. assert (disc s1 u) as Hdu by (apply (inv_disc _ _ Hi1); rewrite Hst; set_solver).
  assert (forall y, y ∈ st s -> idx s1 y = idx s y) as Hsame by (intros y Hy; by apply Hidx, (inv_disc _ _ Hi)). assert (forall v, edge g u v -> v ∈ to_ <$> adj g u) as Hsucc by (intros v [_ Hv]; done).
  case_decide as Hroot.
  - rewrite Hroot in *. assert (st s1 = (new ++ [u]) ++ st s) as Hst' by (by rewrite Hst, <- (assoc_L (++))). pose proof (fun v He => Hseen v (Hsucc v He)) as Hseen'.
    pose proof (inv_sorted _ _ Hi1) as Hso. pose proof (sorted_NoDup _ _ Hso) as Hnd. rewrite Hst' in Hso, Hnd.
    destruct (pop_component_ok u (st s1) new (st s) (on_stack s1) (Z.of_nat (length (components (result s1)))) (component_id (result s1)) [] Hst) as (on & ids & -> & Hlo & Hli & Hon & Hids).
    { intros Hin. apply NoDup_app in Hnd as [Hnd _]. apply NoDup_app in Hnd as (_ & Hnd & _). apply (Hnd u Hin). by left. }
    { apply Forall_forall. intros v Hv. rewrite (len_on _ _ Hi1), (len_ids _ _ Hi1), (len_index _ _ Hi1). assert (node g v); [|done]. apply (inv_disc _ _ Hi1 v). rewrite Hst'. set_solver. }
    ret_step. cbn [app]. pose proof (root_inv G u (st s) s1 new Hi1 HGst Hst' Hseen' Hnew on ids Hlo Hli Hon Hids) as Hinv. eexists. split; [done|]. split; try done; [change (whites s1 < whites s)%nat; lia|].
    exists []. split; [done|]. left. split; [done|]. intros y Hy. change (idx s y < low s1 u). rewrite Hroot, <- Hsame by done. by apply (root_idx G u (st s) s1 new Hi1 HGst Hst' Hseen' Hnew u y); [set_solver|].
  - pose proof (finish_inner G u (st s) s1 Hsc Hroot) as Hinv. exists s1. split; [done|]. split; try done; [lia|]. exists (new ++ [u]). split; [by rewrite Hst, <- (assoc_L (++))|]. right. split.
    + exists y0. rewrite Hst in Hy0. assert (y0 ∈ st s) as Hin; [|split; [done|]; split; [by rewrite <- Hsame|done]]. apply elem_of_app in Hy0 as [Hy0|[->|Hy0]%elem_of_cons]; [|congruence|done]. exfalso.
      pose proof (inv_sorted _ _ Hi1) as Hso. rewrite Hst in Hso. assert (idx s1 u < idx s1 y0); [eapply sorted_app; [exact Hso|done|set_solver]|lia].
    + intros x y Hx Hy Hxy. rewrite <- Hsame by done. apply elem_of_app in Hx as [Hx|Hx]; [by apply (Hnew x y)|]. apply list_elem_of_singleton in Hx as ->. apply Hseen; [by apply Hsucc|done].
Qed.

Lemma start_loop_ok todo : forall s, Forall (node g) todo -> inv [] s -> st s = [] -> exists s', start_loop g todo s = Ret s' /\ inv [] s' /\ st s' = [] /\ (forall v, disc s v -> disc s' v) /\ Forall (disc s') todo.
Proof.
  induction todo as [|i todo IH]; intros s Ht Hi Hst; cbn [start_loop]; [by exists s|]. apply Forall_cons in Ht as [Hn Ht]. rewrite (get_idx _ _ _ Hi Hn). ret_step. case_decide as Hw.
  - destruct (tarjanDFS_ok (S (Z.to_nat (getNodeCount g))) [] s i Hi Hn Hw) as (s1 & -> & Hv); [intros y Hy; by apply not_elem_of_nil in Hy|unfold getNodeCount; pose proof (inv_current _ _ Hi); pose proof (current_nonneg _ _ Hi); lia|]. ret_step.
    assert (st s1 = []) as Hst1. { destruct (vi_new _ _ _ _ Hv) as (new & Heq & [[-> _]|[(y & Hy & _) _]]); [by rewrite Heq, Hst|]. rewrite Hst in Hy. by apply not_elem_of_nil in Hy. }
    destruct (IH s1 Ht (vi_inv _ _ _ _ Hv) Hst1) as (s' & -> & Hi' & Hst' & Hd & Hall). exists s'. split; [done|]. split; [done|]. split; [done|]. split; [intros v Hdv; apply Hd; destruct (Hdv); split; [done|by rewrite (vi_idx _ _ _ _ Hv)]|]. constructor; [apply Hd, (vi_disc _ _ _ _ Hv)|done].
  - destruct (IH s Ht Hi Hst) as (s' & -> & Hi' & Hst' & Hd & Hall). exists s'. split; [done|]. split; [done|]. split; [done|]. split; [done|]. constructor; [by apply Hd|done].
Qed.

Lemma at_none k v : at_ (replicate k (-1)) v = -1.
Proof. unfold at_. destruct (replicate k (-1) !! Z.to_nat v) eqn:E; [by apply lookup_replicate in E as [-> _]|done]. Qed.

Lemma whites_replicate k : length (filter (eq (-1)) (replicate k (-1))) = k.
Proof. induction k as [|k IH]; [done|]. cbn [replicate]. rewrite filter_cons_True by done. cbn [length]. by rewrite IH. Qed.

Lemma init_inv : let k := Z.to_nat n in inv [] (mkState (replicate k (-1)) (replicate k (-1)) (replicate k false) [] 0 (mkSCC [] (replicate k (-1)))).
Proof.
  intros k. pose proof (wf_nodes _ Hg) as Hn. set (s := mkState _ _ _ _ _ _). assert (forall v, ~ disc s v) as Hd by (intros v [_ Hne]; apply Hne, at_none).
  split; cbn [s index lowlink on_stack st current_index result components component_id concat]; rewrite ?length_replicate; try done; try (by intros v Hv; apply not_elem_of_nil in Hv); try (by intros x y Hx; apply not_elem_of_nil in Hx); try (by intros v Hv; apply Hd in Hv); try (by intros x y Hx; apply Hd in Hx); try constructor.
  - lia.
  - unfold whites. cbn. rewrite whites_replicate. lia.
  - intros v Hv. rewrite lookup_replicate_2 by (unfold node in Hv; lia). f_equal.
  - intros Hv. by apply not_elem_of_nil in Hv.
  - intros [Hv _]. by apply Hd in Hv.
Qed.

(** C27: the search returns; every node is in one component; two nodes have the same component number exactly when
    each reaches the other; and no edge leads to a component found later. *)
Theorem tarjan_scc_spec : exists r, compute g = Ret r /\ concat (components r) ≡ₚ seqZ 0 n /\ Forall (fun c => c <> []) (components r) /\
  (forall i c v, components r !! i = Some c -> v ∈ c -> component_id r !! Z.to_nat v = Some (Z.of_nat i)) /\
  (forall u v, node g u -> node g v -> component_id r !! Z.to_nat u = component_id r !! Z.to_nat v <-> reach u v /\ reach v u) /\
  (forall u v i j, edge g u v -> component_id r !! Z.to_nat u = Some i -> component_id r !! Z.to_nat v = Some j -> j <= i).
Proof.
  destruct (start_loop_ok (seqZ 0 n) _ ltac:(apply Forall_seqZ; unfold node; lia) init_inv eq_refl) as (s & Hs & Hi & Hst & _ & Hall).
  assert (compute g = Ret (result s)) as ->. { unfold compute, getNodeCount. cbn zeta. case_decide as H0; [rewrite H0 in Hs |- *; cbn in Hs; by injection Hs as <-|by rewrite Hs]. }
  exists (result s). split; [done|]. rewrite Forall_forall in Hall. assert (forall v, node g v <-> v ∈ concat (components (result s))) as Hin.
  { intros v. rewrite (inv_done _ _ Hi), Hst. split; [intros Hv; split; [apply Hall, elem_of_seqZ; unfold node in Hv; lia|apply not_elem_of_nil]|by intros [[? _] _]]. }
  assert (forall v, node g v -> exists i c, components (result s) !! i = Some c /\ v ∈ c /\ component_id (result s) !! Z.to_nat v = Some (Z.of_nat i)) as Hid.
  { intros v [i [c [Hc Hv]]]%Hin%in_components. exists i, c. split; [done|]. split; [done|]. by apply (inv_ids _ _ Hi i c). }
  pose proof (inv_class _ _ Hi) as Hcl. rewrite Forall_lookup in Hcl.
  split; [apply NoDup_Permutation; [apply Hi|apply NoDup_seqZ|intros v; rewrite <- Hin, elem_of_seqZ; unfold node; lia]|]. split; [eapply Forall_impl; [apply (inv_class _ _ Hi)|by intros c [? _]]|]. split; [apply (inv_ids _ _ Hi)|]. split.
  - intros u v Hu Hv. destruct (Hid u Hu) as (i & c & Hc & Huc & ->), (Hid v Hv) as (j & c' & Hc' & Hvc & ->). destruct (Hcl i c Hc) as [_ Hc2]. rewrite <- (Hc2 u Huc v). split; [intros [= Hij]; assert (i = j) as -> by lia; congruence|].
    intros Hvc2. pose proof (inv_ids _ _ Hi i c v Hc Hvc2) as E1. pose proof (inv_ids _ _ Hi j c' v Hc' Hvc) as E2. congruence.
  - intros u v i j He Hi1 Hj1. destruct (edge_node g u v Hg He) as [Hu Hv]. destruct (Hid u Hu) as (i' & c & Hc & Huc & Hu'), (Hid v Hv) as (j' & c' & Hc' & Hvc & Hv'). pose proof (inv_order _ _ Hi i' c j' c' u v Hc Hc' Huc Hvc He). rewrite Hi1 in Hu'. rewrite Hj1 in Hv'. injection Hu' as ->. injection Hv' as ->. lia.
Qed.
End tarjan.

(** ** A concrete graph: the cycles 0 1 2 and 3 4, with 2 -> 3, and 5 -> 0. *)
Definition sample : Graph :=
  mkGraph 6 7 [[mkEdge 1 1]; [mkEdge 2 1]; [mkEdge 0 1; mkEdge 3 1]; [mkEdge 4 1]; [mkEdge 3 1]; [mkEdge 0 1]].

Example tarjan_sample_built : (g ← graph_new 6; addEdges g [(0, 1, 1); (1, 2, 1); (2, 0, 1); (2, 3, 1); (3, 4, 1); (4, 3, 1); (5, 0, 1)]) = Ret sample.
Proof. vm_compute. reflexivity. Qed.

Example sample_compute : compute sample = Ret (mkSCC [[4; 3]; [2; 1; 0]; [5]] [1; 1; 1; 0; 0; 2]).
Proof. vm_compute. reflexivity. Qed.

Lemma tarjan_sample_wf : wf_graph sample.
Proof. split; [done|vm_compute; discriminate|repeat constructor; vm_compute; (done || discriminate)|done]. Qed.

Lemma tarjan_scc_spec_witness : wf_graph sample /\ exists r, compute sample = Ret r /\ concat (components r) ≡ₚ seqZ 0 (num_nodes_ sample) /\ Forall (fun c => c <> []) (components r) /\
  (forall i c v, components r !! i = Some c -> v ∈ c -> component_id r !! Z.to_nat v = Some (Z.of_nat i)) /\
  (forall u v, node sample u -> node sample v -> component_id r !! Z.to_nat u = component_id r !! Z.to_nat v <-> rtc (edge sample) u v /\ rtc (edge sample) v u) /\
  (forall u v i j, edge sample u v -> component_id r !! Z.to_nat u = Some i -> component_id r !! Z.to_nat v = Some j -> j <= i).
Proof. split; [exact tarjan_sample_wf|]. apply (tarjan_scc_spec sample tarjan_sample_wf). Defined.
