(* ===== verification/CuckooFilter.v ===== *)
(** * Cuckoo filter ([data_structure/filter/CuckooFilter.hpp])

    Buckets of fingerprints; a fingerprint in a bucket has one other bucket, and being
    moved there is an involution.  The filter is the multiset of its signatures: a
    fingerprint with the first of its two buckets.  A query is exact on signatures, so there are no false
    negatives for the keys inserted and not removed, except that an insertion that
    fails undoes only its first 128 displacements.

    [Hash] is a parameter; the template parameters are the arguments [epb] (entries in a
    bucket) and [bits].  Loads and error rates in floating point are left out. *)

From stdpp Require Import gmultiset.
From S2P Require Import Prelude.
Local Open Scope Z_scope.

Definition FP_ZERO_MAPPED : Z := 1.
Definition MAX_KICKS : nat := 500.
Definition TRAIL_CAPACITY : nat := 128.

(** [uint8_t]. *)
Definition u8 (z : Z) : Z := z mod 2 ^ 8.

(** ** [struct Bucket] *)
Record Bucket := mkBucket { entries_ : list Z; count_ : Z; displacement_counter_ : Z }.
Implicit Types (b : Bucket) (fp : Z).

(** [alignas(8) Bucket] with zero members. *)
Definition bucket_new (epb : nat) : Bucket := mkBucket (replicate epb 0) 0 0.

Definition set_entries b (es : list Z) (count : Z) : Bucket := mkBucket es count (displacement_counter_ b).

Definition has_slot (epb : nat) b : bool := count_ b <? Z.of_nat epb.
Definition is_full (epb : nat) b : bool := Z.of_nat epb <=? count_ b.

Fixpoint add_loop b (seen es : list Z) fp : Bucket :=
  match es with
  | [] => b
  | e :: es => if decide (e = 0) then set_entries b (seen ++ fp :: es) (u8 (count_ b + 1)) else add_loop b (seen ++ [e]) es fp
  end.
Definition add b fp : Bucket := add_loop b [] (entries_ b) fp.

Fixpoint contains_loop (n i : nat) (es : list Z) fp : outcome bool :=
  match n with
  | O => Ret false
  | S n => e ← vget es i; if decide (e = fp) then Ret true else contains_loop n (S i) es fp
  end.
Definition bucket_contains b fp : outcome bool := contains_loop (Z.to_nat (count_ b)) 0 (entries_ b) fp.

Fixpoint remove_loop (n i : nat) b fp : outcome (bool * Bucket) :=
  match n with
  | O => Ret (false, b)
  | S n =>
    e ← vget (entries_ b) i;
    if decide (e = fp) then
      let last := Z.to_nat (count_ b - 1) in
      l ← vget (entries_ b) last;
      es ← vset (entries_ b) i l;
      es ← vset es last 0;
      Ret (true, set_entries b es (u8 (count_ b - 1)))
    else remove_loop n (S i) b fp
  end.
Definition bucket_remove b fp : outcome (bool * Bucket) := remove_loop (Z.to_nat (count_ b)) 0 b fp.

(** The counter is mutable; the modulus of an empty bucket is undefined. *)
Definition random_index b : outcome (Z * Bucket) :=
  let counter := u64 (displacement_counter_ b + 1) in
  if decide (count_ b = 0) then Undef else Ret (counter mod count_ b, mkBucket (entries_ b) (count_ b) counter).

(** The counters do not count. *)
Definition bucket_eqb b (other : Bucket) : bool := bool_decide (entries_ b = entries_ other) && (count_ b =? count_ other).

(** ** [class CuckooFilter] *)
Record CuckooFilter := mkFilter { buckets_ : list Bucket; num_buckets_ : Z; element_count_ : Z }.
Implicit Types (f : CuckooFilter) (bs : list Bucket).

Definition next_power_of_2 (n : Z) : Z :=
  if decide (n = 0) then 1 else
  u64 (smear 32 (smear 16 (smear 8 (smear 4 (smear 2 (smear 1 (n - 1)))))) + 1).

(** An entry of [trail]: the bucket, the slot and the old fingerprint. *)
Record TrailEntry := mkTrail { bucket_idx : Z; slot_idx : Z; old_fp : Z }.

Section cuckoo_filter.
Context {T : Type} (Hash : T -> Z) (epb : nat) (bits : Z).
Implicit Types (key : T).

Definition buckets_needed (expected_capacity : Z) : Z :=
  let slots_needed := u64 (expected_capacity + expected_capacity / 20) in
  u64 (u64 (slots_needed + Z.of_nat epb) - 1) / Z.of_nat epb.

Definition filter_new (expected_capacity : Z) : CuckooFilter :=
  let num := next_power_of_2 (buckets_needed expected_capacity) in
  mkFilter (replicate (Z.to_nat num) (bucket_new epb)) num 0.

Definition FINGERPRINT_MASK : Z := if decide (32 <= bits) then 0xFFFFFFFF else Z.shiftl 1 bits - 1.
Definition hash_fingerprint fp : Z := u64 (fp * 0x9E3779B97F4A7C15).

(** [static_cast<fp_type_>] keeps the low bits. *)
Definition extract_fingerprint (hash : Z) : Z :=
  let fp := Z.land hash FINGERPRINT_MASK mod 2 ^ bits in
  if decide (fp = 0) then FP_ZERO_MAPPED else fp.

Definition compute_bucket1 (num : Z) (hash : Z) : Z := Z.land (Z.shiftr hash 16) (u64 (num - 1)).
Definition compute_bucket2 (num : Z) (bucket1 fp : Z) : Z :=
  let fp_hash := hash_fingerprint fp in Z.land (Z.lxor bucket1 (Z.land fp_hash (u64 (num - 1)))) (u64 (num - 1)).

(** The loop of [insert]: the buckets after it, the trail (its last entry first) and whether
    the last evicted fingerprint found a slot. *)
Fixpoint kick_loop (kicks : nat) (num : Z) bs (cur_bucket_idx cur_fp : Z) (trail : list TrailEntry) : outcome (list Bucket * list TrailEntry * bool) :=
  match kicks with
  | O => Ret (bs, trail, false)
  | S kicks =>
    cur_bucket ← vgetz bs cur_bucket_idx;
    '(index, cur_bucket) ← random_index cur_bucket;
    let victim_idx := u8 index in
    evicted_fp ← vgetz (entries_ cur_bucket) victim_idx;
    let trail := if decide (length trail < TRAIL_CAPACITY)%nat then mkTrail cur_bucket_idx victim_idx evicted_fp :: trail else trail in
    es ← vsetz (entries_ cur_bucket) victim_idx cur_fp;
    bs ← vsetz bs cur_bucket_idx (set_entries cur_bucket es (count_ cur_bucket));
    let alt_bucket := compute_bucket2 num cur_bucket_idx evicted_fp in
    alt_b ← vgetz bs alt_bucket;
    if has_slot epb alt_b then bs ← vsetz bs alt_bucket (add alt_b evicted_fp); Ret (bs, trail, true)
    else kick_loop kicks num bs alt_bucket evicted_fp trail
  end.

Fixpoint rollback bs (trail : list TrailEntry) : outcome (list Bucket) :=
  match trail with
  | [] => Ret bs
  | entry :: trail =>
    b ← vgetz bs (bucket_idx entry);
    es ← vsetz (entries_ b) (slot_idx entry) (old_fp entry);
    bs ← vsetz bs (bucket_idx entry) (set_entries b es (count_ b));
    rollback bs trail
  end.

Definition insert f key : outcome (bool * CuckooFilter) :=
  let hash_val := Hash key in
  let fp := extract_fingerprint hash_val in
  let bucket1 := compute_bucket1 (num_buckets_ f) hash_val in
  let bucket2 := compute_bucket2 (num_buckets_ f) bucket1 fp in
  let counted bs := mkFilter bs (num_buckets_ f) (u64 (element_count_ f + 1)) in
  b1 ← vgetz (buckets_ f) bucket1;
  if has_slot epb b1 then bs ← vsetz (buckets_ f) bucket1 (add b1 fp); Ret (true, counted bs) else
  b2 ← vgetz (buckets_ f) bucket2;
  if has_slot epb b2 then bs ← vsetz (buckets_ f) bucket2 (add b2 fp); Ret (true, counted bs) else
  '(bs, trail, placed) ← kick_loop MAX_KICKS (num_buckets_ f) (buckets_ f) bucket1 fp [];
  if (placed : bool) then Ret (true, counted bs)
  else bs ← rollback bs trail; Ret (false, mkFilter bs (num_buckets_ f) (element_count_ f)).

Definition contains f key : outcome bool :=
  let hash_val := Hash key in
  let fp := extract_fingerprint hash_val in
  let bucket1 := compute_bucket1 (num_buckets_ f) hash_val in
  let bucket2 := compute_bucket2 (num_buckets_ f) bucket1 fp in
  b1 ← vgetz (buckets_ f) bucket1; found ← bucket_contains b1 fp;
  if (found : bool) then Ret true else b2 ← vgetz (buckets_ f) bucket2; bucket_contains b2 fp.

Definition remove f key : outcome (bool * CuckooFilter) :=
  let hash_val := Hash key in
  let fp := extract_fingerprint hash_val in
  let bucket1 := compute_bucket1 (num_buckets_ f) hash_val in
  let bucket2 := compute_bucket2 (num_buckets_ f) bucket1 fp in
  let counted bs := mkFilter bs (num_buckets_ f) (u64 (element_count_ f - 1)) in
  b1 ← vgetz (buckets_ f) bucket1; '(found, b1) ← bucket_remove b1 fp;
  if (found : bool) then bs ← vsetz (buckets_ f) bucket1 b1; Ret (true, counted bs) else
  b2 ← vgetz (buckets_ f) bucket2; '(found, b2) ← bucket_remove b2 fp;
  if (found : bool) then bs ← vsetz (buckets_ f) bucket2 b2; Ret (true, counted bs) else Ret (false, f).

Definition size f : Z := num_buckets_ f.
Definition element_count f : Z := element_count_ f.
Definition capacity f : Z := u64 (num_buckets_ f * Z.of_nat epb).

Definition clear f : CuckooFilter :=
  mkFilter ((fun b => set_entries b (replicate epb 0) 0) <$> buckets_ f) (num_buckets_ f) 0.

Fixpoint buckets_eqb bs (others : list Bucket) : bool :=
  match bs, others with
  | [], [] => true
  | b :: bs, other :: others => bucket_eqb b other && buckets_eqb bs others
  | _, _ => false
  end.
Definition filter_eqb f (other : CuckooFilter) : bool :=
  (num_buckets_ f =? num_buckets_ other) && (element_count_ f =? element_count_ other) && buckets_eqb (buckets_ f) (buckets_ other).

(** The range overload ignores the results. *)
Fixpoint insert_range f (keys : list T) : outcome CuckooFilter :=
  match keys with
  | [] => Ret f
  | key :: keys => '(_, f) ← insert f key; insert_range f keys
  end.

(** ** Hashes: the other bucket of a fingerprint *)
Definition pow2_size (num : Z) : Prop := exists k, 0 <= k < 64 /\ num = 2 ^ k.

Lemma mask_ones num k : num = 2 ^ k -> 0 <= k < 64 -> u64 (num - 1) = Z.ones k.
Proof.
  intros -> Hk. rewrite Z.ones_equiv. rewrite <- Z.sub_1_r. apply u64_small. assert (2 ^ k <= 2 ^ 63) by (apply Z.pow_le_mono_r; lia). assert (0 < 2 ^ k) by (apply Z.pow_pos_nonneg; lia). lia.
Qed.

Lemma masked num x : pow2_size num -> 0 <= Z.land x (u64 (num - 1)) < num.
Proof. intros (k & Hk & Hn). rewrite (mask_ones num k Hn Hk), Z.land_ones by lia. subst num. apply Z.mod_pos_bound. apply Z.pow_pos_nonneg; lia. Qed.

Lemma bucket1_range num hash : pow2_size num -> 0 <= compute_bucket1 num hash < num.
Proof. apply masked. Qed.

Lemma bucket2_range num i fp : pow2_size num -> 0 <= compute_bucket2 num i fp < num.
Proof. apply masked. Qed.

Lemma bucket2_involutive num i fp : pow2_size num -> 0 <= i < num -> compute_bucket2 num (compute_bucket2 num i fp) fp = i.
Proof.
  intros (k & Hk & Hn) Hi. unfold compute_bucket2. rewrite (mask_ones num k Hn Hk). generalize (hash_fingerprint fp). intros h. subst num.
  rewrite <- (Z.mod_small i (2 ^ k)) at 2 by done. rewrite <- (Z.land_ones i k) by lia. apply Z.bits_inj'. intros j Hj. rewrite !Z.land_spec, !Z.lxor_spec, !Z.land_spec, !Z.lxor_spec, !Z.land_spec.
  destruct (Z.testbit i j), (Z.testbit h j), (Z.testbit (Z.ones k) j); done.
Qed.

Lemma fingerprint_nonzero hash : 0 < bits -> extract_fingerprint hash <> 0 /\ 0 <= extract_fingerprint hash < 2 ^ bits.
Proof.
  intros Hb. unfold extract_fingerprint. assert (1 < 2 ^ bits) by (apply Z.pow_gt_1; lia). case_decide; [unfold FP_ZERO_MAPPED; lia|]. split; [done|]. apply Z.mod_pos_bound. lia.
Qed.

(** What a fingerprint in a bucket is: the two buckets are not distinguished. *)
Definition sig (num i fp : Z) : Z * Z := (fp, Z.min i (compute_bucket2 num i fp)).

Lemma sig_alt num i fp : pow2_size num -> 0 <= i < num -> sig num (compute_bucket2 num i fp) fp = sig num i fp.
Proof. intros Hp Hi. unfold sig. rewrite bucket2_involutive by done. f_equal. lia. Qed.

Lemma sig_eq num i j fp fp' : pow2_size num -> 0 <= i < num -> 0 <= j < num -> sig num i fp = sig num j fp' <-> fp = fp' /\ (i = j \/ i = compute_bucket2 num j fp).
Proof.
  intros Hp Hi Hj. split; [|intros [<- [-> | ->]]; [done|by apply sig_alt]]. unfold sig. intros [= <- Hm]. split; [done|].
  destruct (decide (i = j)) as [|Hij]; [by left|right]. destruct (Z.min_spec i (compute_bucket2 num i fp)) as [[_ H1]|[_ H1]], (Z.min_spec j (compute_bucket2 num j fp)) as [[_ H2]|[_ H2]]; rewrite H1, H2 in Hm; [done|done| |].
  - rewrite <- (bucket2_involutive num i fp) by done. by rewrite Hm.
  - rewrite <- (bucket2_involutive num i fp), Hm, (bucket2_involutive num j fp) in Hij by done. done.
Qed.

(** ** Buckets: the fingerprints come first *)
Definition holds b (l : list Z) : Prop :=
  entries_ b = l ++ replicate (epb - length l) 0 /\ count_ b = Z.of_nat (length l) /\ (length l <= epb)%nat /\ Forall (fun x => x <> 0) l.

Lemma holds_new : holds (bucket_new epb) [].
Proof. split; [cbn; by rewrite Nat.sub_0_r|]. split; [done|]. split; [cbn; lia|constructor]. Qed.

Lemma holds_functional b l l' : holds b l -> holds b l' -> l = l'.
Proof.
  intros (He & Hc & _ & _) (He' & Hc' & _ & _). rewrite He in He'. assert (length l = length l') as Hl by lia. by apply app_inj_1 in He' as [? _].
Qed.

Lemma has_slot_holds b l : holds b l -> has_slot epb b = bool_decide (length l < epb)%nat.
Proof. intros (_ & Hc & _). unfold has_slot. rewrite Hc. case_bool_decide; [apply Z.ltb_lt|apply Z.ltb_ge]; lia. Qed.

Lemma add_loop_app b seen l es fp : Forall (fun x => x <> 0) l -> add_loop b seen (l ++ 0 :: es) fp = set_entries b (seen ++ l ++ fp :: es) (u8 (count_ b + 1)).
Proof.
  revert seen. induction l as [|x l IH]; intros seen Hl; cbn [app add_loop]; [done|]. apply Forall_cons in Hl as [Hx Hl]. rewrite decide_False by done. rewrite IH by done. by rewrite <- (assoc_L (++)).
Qed.

Lemma add_holds b l fp : (epb <= 255)%nat -> holds b l -> (length l < epb)%nat -> fp <> 0 -> holds (add b fp) (l ++ [fp]).
Proof.
  intros H255 (He & Hc & Hl & Hz) Hlt Hfp. unfold add. rewrite He. replace (epb - length l)%nat with (S (epb - S (length l))) by lia. cbn [replicate]. rewrite add_loop_app by done.
  split; [|split; [|split]]; cbn [entries_ count_ set_entries]; rewrite ?length_app; cbn [length].
  - replace (epb - (length l + 1))%nat with (epb - S (length l))%nat by lia. by rewrite <- (assoc_L (++)).
  - rewrite Hc. unfold u8. rewrite Z.mod_small by lia. lia.
  - lia.
  - apply Forall_app. split; [done|]. by constructor.
Qed.

Lemma contains_loop_spec l2 fp : forall l1 es, contains_loop (length l2) (length l1) (l1 ++ l2 ++ es) fp = Ret (bool_decide (fp ∈ l2)).
Proof.
  induction l2 as [|x l2 IH]; intros l1 es; cbn [length contains_loop]; [by rewrite bool_decide_eq_false_2 by apply not_elem_of_nil|].
  rewrite (vget_Some _ _ x) by (rewrite lookup_app_r by lia; by rewrite Nat.sub_diag). ret_step. destruct (decide (x = fp)) as [->|Hx]; [by rewrite bool_decide_eq_true_2 by (by left)|].
  specialize (IH (l1 ++ [x]) es). rewrite length_app, <- (assoc_L (++)) in IH. cbn [length] in IH. rewrite Nat.add_1_r in IH. cbn [app] in *. rewrite IH. f_equal. apply bool_decide_ext. set_solver.
Qed.

Lemma contains_holds b l fp : holds b l -> bucket_contains b fp = Ret (bool_decide (fp ∈ l)).
Proof. intros (He & Hc & _ & _). unfold bucket_contains. rewrite Hc, Nat2Z.id, He. apply (contains_loop_spec l fp []). Qed.

Lemma replace_last (m : list Z) z i fp : (m ++ [z]) !! i = Some fp -> fp :: <[i := z]> m ≡ₚ m ++ [z].
Proof.
  intros Hi. destruct (decide (i < length m)%nat) as [Hlt|Hge].
  - rewrite lookup_app_l in Hi by done. rewrite insert_take_drop by done. rewrite <- (take_drop_middle m i fp Hi) at 3. rewrite <- (assoc_L (++)). cbn [app]. etrans; [apply perm_skip; symmetry; apply Permutation_middle|]. etrans; [|apply Permutation_middle]. apply perm_skip. rewrite (assoc_L (++)). apply Permutation_cons_append.
  - rewrite list_insert_ge by lia. rewrite lookup_app_r in Hi by lia. destruct (i - length m)%nat as [|[|]]; try done. injection Hi as ->. apply Permutation_cons_append.
Qed.

Lemma remove_loop_spec b l fp l2 : (epb <= 255)%nat -> holds b l -> forall l1, l = l1 ++ l2 ->
  if decide (fp ∈ l2) then exists b' l', remove_loop (length l2) (length l1) b fp = Ret (true, b') /\ holds b' l' /\ fp :: l' ≡ₚ l else remove_loop (length l2) (length l1) b fp = Ret (false, b).
Proof.
  intros H255 Hh. destruct (Hh) as (He & Hc & Hl & Hz). induction l2 as [|x l2 IH]; intros l1 Heq; cbn [length remove_loop]; [by rewrite decide_False by apply not_elem_of_nil|].
  assert (l !! length l1 = Some x) as Hx by (subst l; rewrite lookup_app_r by lia; by rewrite Nat.sub_diag). rewrite (vget_Some (entries_ b) (length l1) x) by (rewrite He; by apply lookup_app_l_Some). ret_step.
  destruct (decide (x = fp)) as [->|Hne].
  - rewrite decide_True by (by left). destruct l as [|z m _] using rev_ind; [by rewrite lookup_nil in Hx|]. rewrite length_app in *. cbn [length] in *. replace (Z.to_nat (count_ b - 1)) with (length m) by lia.
    rewrite (vget_Some (entries_ b) (length m) z) by (rewrite He, <- (assoc_L (++)), lookup_app_r by lia; by rewrite Nat.sub_diag). ret_step. apply lookup_lt_Some in Hx as Hlt. rewrite length_app in Hlt. cbn in Hlt.
    assert (length (entries_ b) = epb) as Hlen by (rewrite He, !length_app, length_replicate; cbn; lia). rewrite vset_lt by lia. ret_step. rewrite vset_lt by (rewrite length_insert; lia). ret_step.
    exists (set_entries b (<[length m := 0]> (<[length l1 := z]> (entries_ b))) (u8 (count_ b - 1))), (<[length l1 := z]> m). split; [done|]. split; [|by apply replace_last].
    assert (length (<[length l1 := z]> m) = length m) as Hlm by apply length_insert. split; [|split; [|split]]; cbn [entries_ count_ set_entries]; rewrite ?Hlm.
    + rewrite He, <- (assoc_L (++)). cbn [app]. assert (<[length l1 := z]> (m ++ z :: replicate (epb - (length m + 1)) 0) = <[length l1 := z]> m ++ z :: replicate (epb - (length m + 1)) 0) as ->.
      { destruct (decide (length l1 < length m)%nat); [by rewrite insert_app_l|]. rewrite insert_app_r_alt by lia. rewrite (list_insert_ge m) by lia. by replace (length l1 - length m)%nat with O by lia. }
      rewrite insert_app_r_alt by lia. rewrite Hlm, Nat.sub_diag. cbn. by replace (epb - length m)%nat with (S (epb - (length m + 1))) by lia.
    + unfold u8. rewrite Z.mod_small by lia. lia.
    + lia.
    + apply Forall_app in Hz as [Hz Hz1]. apply Forall_insert; [done|]. by apply Forall_cons in Hz1 as [? _].
  - specialize (IH (l1 ++ [x])). rewrite <- (assoc_L (++)), length_app in IH. cbn [app length] in IH. rewrite Nat.add_1_r in IH. specialize (IH Heq). case_decide as Hd; [rewrite decide_True by (by right)|rewrite decide_False by set_solver]; exact IH.
Qed.

Lemma remove_holds b l fp : (epb <= 255)%nat -> holds b l -> if decide (fp ∈ l) then exists b' l', bucket_remove b fp = Ret (true, b') /\ holds b' l' /\ fp :: l' ≡ₚ l else bucket_remove b fp = Ret (false, b).
Proof. intros H255 Hh. destruct (Hh) as (_ & Hc & _). unfold bucket_remove. rewrite Hc, Nat2Z.id. by apply (remove_loop_spec b l fp l H255 Hh []). Qed.

(** ** Tables: lists of buckets *)
Definition bag (num i : Z) (l : list Z) : gmultiset (Z * Z) := list_to_set_disj (sig num i <$> l).

Fixpoint sigs (num i : Z) (ls : list (list Z)) : gmultiset (Z * Z) :=
  match ls with
  | [] => ∅
  | l :: ls => bag num i l ⊎ sigs num (i + 1) ls
  end.

Definition table_bag num ls := sigs num 0 ls.

Lemma bag_app num i l1 l2 : bag num i (l1 ++ l2) = bag num i l1 ⊎ bag num i l2.
Proof. unfold bag. by rewrite fmap_app, list_to_set_disj_app. Qed.

Lemma bag_cons num i x l : bag num i (x :: l) = {[+ sig num i x +]} ⊎ bag num i l.
Proof. done. Qed.

Lemma bag_single num i x : bag num i [x] = {[+ sig num i x +]}.
Proof. rewrite bag_cons. apply (right_id_L ∅ (⊎)). Qed.

Lemma bag_perm num i l l' : l ≡ₚ l' -> bag num i l = bag num i l'.
Proof. intros Hp. unfold bag. apply list_to_set_disj_perm. by rewrite Hp. Qed.

(** Two steps of cancellation. *)
Lemma bag_cancel (X Y Z B : gmultiset (Z * Z)) : X ⊎ B = Y ⊎ (B ⊎ Z) -> X = Y ⊎ Z.
Proof. multiset_solver. Qed.

Lemma bag_less (X Y : gmultiset (Z * Z)) s : X ⊎ {[+ s +]} = Y -> X = Y ∖ {[+ s +]}.
Proof. multiset_solver. Qed.

Lemma bag_absent (X : gmultiset (Z * Z)) s : (s ∉ X) -> X = X ∖ {[+ s +]}.
Proof. multiset_solver. Qed.

Lemma bag_exchange (X Y B B' O N : gmultiset (Z * Z)) : X ⊎ B = Y ⊎ B' -> O ⊎ B' = N ⊎ B -> X ⊎ O = Y ⊎ N.
Proof. multiset_solver. Qed.

Lemma sigs_insert num ls l l' : forall off k, ls !! k = Some l -> sigs num off (<[k := l']> ls) ⊎ bag num (off + Z.of_nat k) l = sigs num off ls ⊎ bag num (off + Z.of_nat k) l'.
Proof.
  induction ls as [|l0 ls IH]; intros off [|k] Hk; try done; cbn [lookup list_lookup insert list_insert sigs] in *.
  - injection Hk as ->. rewrite Z.add_0_r. multiset_solver.
  - specialize (IH (off + 1) k Hk). replace (off + Z.of_nat (S k)) with (off + 1 + Z.of_nat k) by lia. multiset_solver.
Qed.

Lemma table_bag_insert num ls i l l' : 0 <= i -> ls !! Z.to_nat i = Some l -> table_bag num (<[Z.to_nat i := l']> ls) ⊎ bag num i l = table_bag num ls ⊎ bag num i l'.
Proof. intros Hi Hl. pose proof (sigs_insert num ls l l' 0 _ Hl) as H. rewrite Z2Nat.id in H by done. exact H. Qed.

Lemma elem_of_sigs num ls s : forall off, s ∈ sigs num off ls <-> exists k l, ls !! k = Some l /\ s ∈ sig num (off + Z.of_nat k) <$> l.
Proof.
  induction ls as [|l ls IH]; intros off; cbn [sigs]; [split; [multiset_solver|by intros (k & l & Hk & _)]|]. rewrite gmultiset_elem_of_disj_union, IH. unfold bag. rewrite elem_of_list_to_set_disj. split.
  - intros [H|(k & l' & Hk & H)]; [exists 0%nat, l; by rewrite Z.add_0_r|]. exists (S k), l'. split; [done|]. by replace (off + Z.of_nat (S k)) with (off + 1 + Z.of_nat k) by lia.
  - intros ([|k] & l' & Hk & H); [injection Hk as ->; left; by rewrite Z.add_0_r in H|]. right. exists k, l'. split; [done|]. by replace (off + 1 + Z.of_nat k) with (off + Z.of_nat (S k)) by lia.
Qed.

Lemma size_sigs num ls : forall off, base.size (sigs num off ls) = length (concat ls).
Proof. induction ls as [|l ls IH]; intros off; cbn [sigs concat]; [apply gmultiset_size_empty|]. rewrite gmultiset_size_disj_union, IH, length_app. f_equal. unfold bag. clear IH. induction l as [|x l IHl]; [apply gmultiset_size_empty|]. rewrite fmap_cons, list_to_set_disj_cons, gmultiset_size_disj_union, gmultiset_size_singleton, IHl. done. Qed.

(** A signature is present when one of its two buckets has the fingerprint. *)
Lemma elem_of_table num ls i fp l1 l2 : pow2_size num -> Z.of_nat (length ls) = num -> 0 <= i < num -> ls !! Z.to_nat i = Some l1 -> ls !! Z.to_nat (compute_bucket2 num i fp) = Some l2 -> sig num i fp ∈ table_bag num ls <-> fp ∈ l1 \/ fp ∈ l2.
Proof.
  intros Hp Hn Hi H1 H2. pose proof (bucket2_range num i fp Hp) as Hr. unfold table_bag. rewrite elem_of_sigs. split.
  - intros (k & l & Hk & (fp' & He & Hin)%list_elem_of_fmap). apply lookup_lt_Some in Hk as Hlt. symmetry in He. apply sig_eq in He as [-> [Heq|Heq]]; [| |done|lia|done]; rewrite Z.add_0_l in Heq.
    + left. subst i. rewrite Nat2Z.id in H1. congruence.
    + right. rewrite <- Heq, Nat2Z.id in H2. congruence.
  - intros [Hin|Hin]; [exists (Z.to_nat i), l1|exists (Z.to_nat (compute_bucket2 num i fp)), l2]; (split; [done|]); apply list_elem_of_fmap; exists fp; (split; [|done]); rewrite Z.add_0_l, Z2Nat.id by lia; [done|]. symmetry. by apply sig_alt.
Qed.

(** ** Rounding up to a power of two *)
Lemma next_power_of_2_spec n : 0 <= n < 2 ^ 64 -> next_power_of_2 n = if decide (n <= 2 ^ 63) then 2 ^ Z.log2_up n else 0.
Proof.
  intros Hn. unfold next_power_of_2. destruct (decide (n = 0)) as [->|Hn0]; [done|]. cbv zeta. destruct (decide (n = 1)) as [->|Hn1]; [done|].
  rewrite smear_all, decide_False by lia.
  rewrite Z.log2_up_eqn by lia. rewrite <- Z.sub_1_r, <- Z.add_1_r. rewrite Z.ones_equiv, <- Z.sub_1_r, Z.sub_add. pose proof (Z.log2_nonneg (n - 1)). case_decide as H63.
  - apply u64_small. assert (Z.log2 (n - 1) < 63) by (apply Z.log2_lt_pow2; lia). split; [apply Z.pow_nonneg; lia|]. apply Z.pow_lt_mono_r; lia.
  - assert (Z.log2 (n - 1) = 63) as ->; [|done]. apply Z.log2_unique; [lia|]. cbn. lia.
Qed.

Lemma next_power_of_2_size n : 0 <= n <= 2 ^ 63 -> pow2_size (next_power_of_2 n).
Proof.
  intros Hn. rewrite next_power_of_2_spec by lia. rewrite decide_True by lia. exists (Z.log2_up n). split; [|done]. split; [apply Z.log2_up_nonneg|]. assert (Z.log2_up n <= 63); [|lia]. rewrite <- (Z.log2_up_pow2 63) by done. apply Z.log2_up_le_mono. lia.
Qed.

(** ** The displacements, and how they are undone *)
Definition table num bs (ls : list (list Z)) : Prop := Forall2 holds bs ls /\ Z.of_nat (length ls) = num.

Definition entry (ls : list (list Z)) (i j : nat) : option Z := l ← ls !! i; l !! j.
Definition put (ls : list (list Z)) (i j : nat) (x : Z) : list (list Z) := alter (<[j := x]>) i ls.

Implicit Types (e : TrailEntry) (trail : list TrailEntry).
Definition trail_slot e : nat * nat := (Z.to_nat (bucket_idx e), Z.to_nat (slot_idx e)).

Fixpoint undo (ls : list (list Z)) trail : list (list Z) :=
  match trail with
  | [] => ls
  | e :: trail => undo (put ls (trail_slot e).1 (trail_slot e).2 (old_fp e)) trail
  end.

Definition entry_ok (ls : list (list Z)) e : Prop :=
  0 <= bucket_idx e /\ 0 <= slot_idx e /\ old_fp e <> 0 /\ is_Some (entry ls (trail_slot e).1 (trail_slot e).2).

Definition shape (ls : list (list Z)) : list nat := length <$> ls.

(** [ls0] is the table before the first displacement. *)
Record trail_inv (ls0 ls : list (list Z)) trail : Prop := {
  ti_shape : shape ls = shape ls0;
  ti_ok : Forall (entry_ok ls0) trail;
  ti_rest : (length trail < TRAIL_CAPACITY)%nat -> forall i j, ((i, j) ∉ trail_slot <$> trail) -> entry ls i j = entry ls0 i j;
  ti_undo : forall ls1 i j, shape ls1 = shape ls0 -> (i, j) ∈ trail_slot <$> trail -> entry (undo ls1 trail) i j = entry ls0 i j;
}.

Lemma put_insert ls i j x l : ls !! i = Some l -> <[i := <[j := x]> l]> ls = put ls i j x.
Proof.
  intros Hl. apply list_eq. intros m. unfold put. rewrite list_lookup_alter. destruct (decide (i = m)) as [->|Hm]; [|rewrite list_lookup_insert_ne by done; done]. rewrite list_lookup_insert_eq by (by eapply lookup_lt_Some). by rewrite Hl.
Qed.

Lemma shape_put ls i j x : shape (put ls i j x) = shape ls.
Proof. unfold shape, put. apply list_eq. intros k. rewrite !list_lookup_fmap, list_lookup_alter. case_decide as Hk; [subst|done]. destruct (ls !! k); cbn; [by rewrite length_insert|done]. Qed.

Lemma shape_undo trail : forall ls, shape (undo ls trail) = shape ls.
Proof. induction trail as [|e trail IH]; intros ls; cbn [undo]; [done|]. by rewrite IH, shape_put. Qed.

Lemma shape_entry ls ls' i j : shape ls = shape ls' -> is_Some (entry ls i j) -> is_Some (entry ls' i j).
Proof.
  unfold entry. intros Hs. assert ((length <$> ls) !! i = (length <$> ls') !! i) as Hi by (change (shape ls !! i = shape ls' !! i); by rewrite Hs). rewrite !list_lookup_fmap in Hi.
  destruct (ls !! i) as [l|]; [|by intros [? ?]]. destruct (ls' !! i) as [l'|]; [|done]. cbn in *. injection Hi as Hi. rewrite !lookup_lt_is_Some. by rewrite Hi.
Qed.

Lemma entry_put ls i j x k m : is_Some (entry ls i j) -> entry (put ls i j x) k m = if decide ((k, m) = (i, j)) then Some x else entry ls k m.
Proof.
  unfold entry, put. rewrite list_lookup_alter. intros [y Hy]. destruct (ls !! i) as [l|] eqn:Hl; [|done]. cbn in Hy. apply lookup_lt_Some in Hy.
  destruct (decide (k = i)) as [->|Hk]; [|rewrite !decide_False by congruence; done]. rewrite (decide_True (P := i = i)) by done. rewrite Hl. cbn.
  destruct (decide (m = j)) as [->|Hm]; [rewrite decide_True by done; by rewrite list_lookup_insert_eq|rewrite decide_False by congruence; by rewrite list_lookup_insert_ne].
Qed.

Lemma undo_other trail ls0 i j : Forall (entry_ok ls0) trail -> ((i, j) ∉ trail_slot <$> trail) -> forall ls, shape ls = shape ls0 -> entry (undo ls trail) i j = entry ls i j.
Proof.
  induction 1 as [|e trail (_ & _ & _ & He) _ IH]; intros Hn ls Hs; cbn [undo]; [done|]. rewrite fmap_cons in Hn. rewrite IH; [|set_solver|by rewrite shape_put]. rewrite entry_put by (by apply (shape_entry ls0)).
  rewrite decide_False; [done|]. intros Heq. apply Hn. rewrite Heq. destruct (trail_slot e). by left.
Qed.

Lemma trail_inv_start ls : trail_inv ls ls [].
Proof. split; try done. intros ls1 i j _ H. by apply not_elem_of_nil in H. Qed.

Lemma trail_inv_put ls0 ls trail i j old x : 0 <= i -> 0 <= j -> old <> 0 -> entry ls (Z.to_nat i) (Z.to_nat j) = Some old -> trail_inv ls0 ls trail ->
  trail_inv ls0 (put ls (Z.to_nat i) (Z.to_nat j) x) (if decide (length trail < TRAIL_CAPACITY)%nat then mkTrail i j old :: trail else trail).
Proof.
  intros Hi Hj Ho He [Hs Hok Hrest Hundo]. split.
  - by rewrite shape_put.
  - case_decide; [|done]. constructor; [|done]. split; [done|]. split; [done|]. split; [done|]. cbn. apply (shape_entry ls); [done|by eexists].
  - case_decide as Hlen; [|intros; lia]. intros _ k m. rewrite fmap_cons. intros Hn. rewrite entry_put by (by eexists). rewrite decide_False by (intros Heq; apply Hn; rewrite Heq; by left). apply Hrest; [done|]. intros Hin. apply Hn. by right.
  - case_decide as Hlen; [|done]. intros ls1 k m Hs1. rewrite fmap_cons. cbn [undo trail_slot bucket_idx slot_idx old_fp fst snd]. intros Hin. destruct (decide ((k, m) ∈ trail_slot <$> trail)) as [Hin'|Hnin]; [apply Hundo; [by rewrite shape_put|done]|].
    rewrite (undo_other trail ls0 k m Hok Hnin) by (by rewrite shape_put). apply elem_of_cons in Hin as [Heq|]; [|done]. injection Heq as -> ->.
    rewrite entry_put; [|apply (shape_entry ls0); [done|]; apply (shape_entry ls); [done|by eexists]]. rewrite decide_True by done. rewrite <- Hrest by done. by rewrite He.
Qed.

Lemma table_get num bs ls i : table num bs ls -> 0 <= i < num -> exists b l, vgetz bs i = Ret b /\ ls !! Z.to_nat i = Some l /\ holds b l /\ bs !! Z.to_nat i = Some b.
Proof.
  intros [Ht Hn] Hi. destruct (lookup_z ls i) as [l Hl]; [lia|]. destruct (Forall2_lookup_r _ _ _ _ _ Ht Hl) as (b & Hb & Hh). exists b, l. split; [apply vgetz_Some; [lia|done]|done].
Qed.

Lemma table_set num bs ls i b l : table num bs ls -> 0 <= i < num -> holds b l -> vsetz bs i b = Ret (<[Z.to_nat i := b]> bs) /\ table num (<[Z.to_nat i := b]> bs) (<[Z.to_nat i := l]> ls).
Proof.
  intros [Ht Hn] Hi Hh. pose proof (Forall2_length _ _ _ Ht). split; [apply vsetz_lt; lia|]. split; [by apply Forall2_insert|by rewrite length_insert].
Qed.

Lemma holds_put b l j x : holds b l -> (j < length l)%nat -> x <> 0 -> forall c, holds (mkBucket (<[j := x]> (entries_ b)) (count_ b) c) (<[j := x]> l).
Proof.
  intros (He & Hc & Hl & Hz) Hj Hx c. split; [|split; [|split]]; cbn [entries_ count_]; rewrite ?length_insert; try done; [rewrite He; by rewrite insert_app_l|by apply Forall_insert].
Qed.

Lemma replace_perm (l : list Z) j x old : l !! j = Some old -> old :: <[j := x]> l ≡ₚ x :: l.
Proof. intros Hj. assert (j < length l)%nat by (by eapply lookup_lt_Some). rewrite insert_take_drop by done. rewrite <- (take_drop_middle l j old Hj) at 3. etrans; [apply perm_skip; symmetry; apply Permutation_middle|]. etrans; [|apply perm_skip, Permutation_middle]. apply perm_swap. Qed.

Context (Hhash : forall key, 0 <= Hash key < 2 ^ 64) (Hepb : (1 <= epb <= 255)%nat) (Hbits : bits = 8 \/ bits = 16 \/ bits = 32).

Lemma random_index_full b l : holds b l -> length l = epb -> exists k c, random_index b = Ret (Z.of_nat k, mkBucket (entries_ b) (count_ b) c) /\ (k < epb)%nat /\ u8 (Z.of_nat k) = Z.of_nat k.
Proof.
  intros (_ & Hc & _) Hl. unfold random_index. rewrite Hc, decide_False by lia. set (c := u64 _). exists (Z.to_nat (c mod Z.of_nat (length l))), c. pose proof (Z.mod_pos_bound c (Z.of_nat (length l))) as Hm. rewrite Z2Nat.id by lia.
  split; [done|]. split; [lia|]. apply Z.mod_small. lia.
Qed.

Lemma filter_kick_loop_ok num ls0 kicks : pow2_size num -> forall bs ls i fp trail l, table num bs ls -> 0 <= i < num -> ls !! Z.to_nat i = Some l -> length l = epb -> fp <> 0 -> trail_inv ls0 ls trail ->
  exists bs' ls' trail' placed, kick_loop kicks num bs i fp trail = Ret (bs', trail', placed) /\ table num bs' ls' /\
    if (placed : bool) then table_bag num ls' = table_bag num ls ⊎ {[+ sig num i fp +]} else trail_inv ls0 ls' trail'.
Proof.
  intros Hp. induction kicks as [|kicks IH]; intros bs ls i fp trail l Ht Hi Hl Hfull Hfp Hti; cbn [kick_loop]; [by exists bs, ls, trail, false|].
  destruct (table_get num bs ls i Ht Hi) as (b & l' & -> & Hl' & Hh & _). assert (l' = l) as -> by congruence. ret_step. destruct (random_index_full b l Hh Hfull) as (k & c & -> & Hk & Hu8). ret_step. cbn [entries_ count_]. rewrite Hu8.
  destruct (lookup_lt_is_Some_2 l k) as [old Hold]; [lia|]. destruct (Hh) as (He & _ & _ & Hz). assert (entries_ b !! k = Some old) as Hek by (rewrite He; by apply lookup_app_l_Some).
  rewrite (vgetz_Some _ _ old) by (rewrite ?Nat2Z.id; (lia || done)). ret_step. rewrite vsetz_lt by (apply lookup_lt_Some in Hek; lia). ret_step. rewrite Nat2Z.id. unfold set_entries. cbn [entries_ count_ displacement_counter_].
  assert (holds (mkBucket (<[k := fp]> (entries_ b)) (count_ b) c) (<[k := fp]> l)) as Hh' by (apply holds_put; [done|lia|done]).
  destruct (table_set num bs ls i _ _ Ht Hi Hh') as [-> Ht']. ret_step. set (bs1 := <[_ := _]> bs) in *. set (ls1 := <[_ := _]> ls) in *.
  assert (old <> 0) as Ho by (rewrite Forall_lookup in Hz; by apply (Hz k)). pose proof (bucket2_range num i old Hp) as Hr2. destruct (table_get num bs1 ls1 _ Ht' Hr2) as (b2 & l2 & -> & Hl2 & Hh2 & _). ret_step.
  rewrite (has_slot_holds b2 l2 Hh2). assert (table_bag num ls1 ⊎ {[+ sig num i old +]} = table_bag num ls ⊎ {[+ sig num i fp +]}) as Hbag.
  { pose proof (table_bag_insert num ls i l (<[k := fp]> l) (proj1 Hi) Hl) as H. fold ls1 in H. pose proof (bag_perm num i _ _ (replace_perm l k fp old Hold)) as H2. rewrite !bag_cons in H2. exact (bag_exchange _ _ _ _ _ _ H H2). }
  destruct (bool_decide (length l2 < epb)%nat) eqn:Hs.
  - apply bool_decide_eq_true in Hs. assert (holds (add b2 old) (l2 ++ [old])) as Hh2' by (apply add_holds; (done || lia)). destruct (table_set num bs1 ls1 _ _ _ Ht' Hr2 Hh2') as [-> Ht2]. ret_step. eexists _, _, _, true. split; [done|]. split; [exact Ht2|].
    pose proof (table_bag_insert num ls1 _ l2 (l2 ++ [old]) (proj1 Hr2) Hl2) as H. rewrite bag_app in H. assert (bag num (compute_bucket2 num i old) [old] = {[+ sig num i old +]}) as Hb by (rewrite <- (sig_alt num i old Hp Hi); apply bag_single). rewrite Hb in H. apply bag_cancel in H. rewrite H. exact Hbag.
  - apply bool_decide_eq_false in Hs. destruct (Hh2) as (_ & _ & Hle & _).
    destruct (IH bs1 ls1 (compute_bucket2 num i old) old (if decide (length trail < TRAIL_CAPACITY)%nat then mkTrail i (Z.of_nat k) old :: trail else trail) l2) as (bs' & ls' & trail' & placed & -> & Hts & Hpl); [exact Ht'|exact Hr2|exact Hl2|lia|exact Ho| |].
    { pose proof (trail_inv_put ls0 ls trail i (Z.of_nat k) old fp) as H. unfold put in H. rewrite Nat2Z.id in H. replace ls1 with (alter (<[k := fp]>) (Z.to_nat i) ls); [apply H; [lia|lia|exact Ho|unfold entry; by rewrite Hl|exact Hti]|].
      symmetry. by apply put_insert. }
    exists bs', ls', trail', placed. split; [done|]. split; [done|]. destruct placed; [|done]. rewrite Hpl, (sig_alt num i old Hp Hi). exact Hbag.
Qed.

Lemma rollback_ok num ls0 trail : forall bs ls, table num bs ls -> shape ls = shape ls0 -> Forall (entry_ok ls0) trail -> exists bs', rollback bs trail = Ret bs' /\ table num bs' (undo ls trail).
Proof.
  intros bs ls Ht Hs Hok. revert bs ls Ht Hs. induction Hok as [|e trail (Hb & Hsl & Ho & He) _ IH]; intros bs ls Ht Hs; cbn [rollback undo]; [by exists bs|].
  apply (shape_entry ls0 ls) in He; [|done]. destruct He as [old He]. unfold entry in He. cbn [trail_slot fst snd] in He. destruct (ls !! Z.to_nat (bucket_idx e)) as [l|] eqn:Hl; [|done]. cbn in He. apply lookup_lt_Some in He as Hlt. apply lookup_lt_Some in Hl as Hlt'.
  assert (0 <= bucket_idx e < num) as Hr by (destruct Ht as [_ <-]; lia). destruct (table_get num bs ls (bucket_idx e) Ht Hr) as (b & l' & -> & Hl' & Hh & _). assert (l' = l) as -> by congruence. ret_step.
  destruct (Hh) as (Hen & Hc & Hle & Hz). rewrite vsetz_lt by (rewrite Hen, length_app; lia). ret_step. destruct (table_set num bs ls (bucket_idx e) _ _ Ht Hr (holds_put b l (Z.to_nat (slot_idx e)) (old_fp e) Hh Hlt Ho (displacement_counter_ b))) as [Hset Ht1].
  unfold set_entries. rewrite Hset. ret_step. replace (<[Z.to_nat (bucket_idx e) := <[Z.to_nat (slot_idx e) := old_fp e]> l]> ls) with (put ls (Z.to_nat (bucket_idx e)) (Z.to_nat (slot_idx e)) (old_fp e)) in Ht1; [apply IH; [exact Ht1|by rewrite shape_put]|].
  symmetry. by apply put_insert.
Qed.

(** ** The operations on the multiset of signatures *)
Record wf f (ls : list (list Z)) : Prop := {
  wf_table : table (num_buckets_ f) (buckets_ f) ls;
  wf_size : pow2_size (num_buckets_ f);
  wf_count : element_count_ f = u64 (Z.of_nat (length (concat ls)));
}.

Definition keysig (num : Z) key : Z * Z := sig num (compute_bucket1 num (Hash key)) (extract_fingerprint (Hash key)).

Definition contents f (X : gmultiset (Z * Z)) : Prop := exists ls, wf f ls /\ X = table_bag (num_buckets_ f) ls.

Lemma size_table num ls : base.size (table_bag num ls) = length (concat ls).
Proof. apply size_sigs. Qed.

Lemma concat_shape ls ls' : shape ls = shape ls' -> length (concat ls) = length (concat ls').
Proof. revert ls'. induction ls as [|l ls IH]; intros [|l' ls'] Hs; try done. injection Hs as Hl Hs. cbn [concat]. rewrite !length_app, Hl. f_equal. by apply IH. Qed.

Lemma fp_ok key : extract_fingerprint (Hash key) <> 0.
Proof. apply fingerprint_nonzero. lia. Qed.

Lemma table_length num bs ls i l : table num bs ls -> ls !! i = Some l -> (length l <= epb)%nat.
Proof. intros [Ht _] Hl. destruct (Forall2_lookup_r _ _ _ _ _ Ht Hl) as (b & _ & _ & _ & H & _). exact H. Qed.

(** One more fingerprint in a bucket. *)
Lemma filter_add_ok num bs ls i b l fp : table num bs ls -> 0 <= i < num -> ls !! Z.to_nat i = Some l -> holds b l -> (length l < epb)%nat -> fp <> 0 ->
  exists bs' ls', vsetz bs i (add b fp) = Ret bs' /\ table num bs' ls' /\ table_bag num ls' = table_bag num ls ⊎ {[+ sig num i fp +]}.
Proof.
  intros Ht Hi Hl Hh Hlt Hfp. destruct (table_set num bs ls i _ _ Ht Hi (add_holds b l fp ltac:(lia) Hh Hlt Hfp)) as [Hs Ht']. eexists _, _. split; [exact Hs|]. split; [exact Ht'|].
  pose proof (table_bag_insert num ls i l (l ++ [fp]) (proj1 Hi) Hl) as H. rewrite bag_app, bag_single in H. by apply bag_cancel in H.
Qed.

(** One less. *)
Lemma filter_drop_ok num bs ls i b l fp l' : table num bs ls -> 0 <= i < num -> ls !! Z.to_nat i = Some l -> holds b l' -> fp :: l' ≡ₚ l ->
  exists bs' ls', vsetz bs i b = Ret bs' /\ table num bs' ls' /\ table_bag num ls' ⊎ {[+ sig num i fp +]} = table_bag num ls.
Proof.
  intros Ht Hi Hl Hh Hp. destruct (table_set num bs ls i _ _ Ht Hi Hh) as [Hs Ht']. eexists _, _. split; [exact Hs|]. split; [exact Ht'|].
  pose proof (table_bag_insert num ls i l l' (proj1 Hi) Hl) as H. rewrite <- (bag_perm num i _ _ Hp), bag_cons in H. symmetry. apply (bag_cancel _ _ _ (bag num i l')). rewrite <- H. rewrite (comm_L (⊎) (bag num i l')). done.
Qed.

Lemma counted_wf num bs (ls ls' : list (list Z)) (n n' : Z) : pow2_size num -> table num bs ls' -> n = u64 (Z.of_nat (length (concat ls))) ->
  Z.of_nat (base.size (table_bag num ls')) = Z.of_nat (base.size (table_bag num ls)) + n' -> wf (mkFilter bs num (u64 (n + n'))) ls'.
Proof.
  intros Hp Ht -> Hn. rewrite !size_table in Hn. split; [done|done|]. cbn [element_count_]. rewrite Hn. unfold u64. by rewrite Z.add_mod_idemp_l.
Qed.

(** The two buckets of a key are full. *)
Definition both_full f key : bool :=
  let bucket1 := compute_bucket1 (num_buckets_ f) (Hash key) in
  match buckets_ f !! Z.to_nat bucket1, buckets_ f !! Z.to_nat (compute_bucket2 (num_buckets_ f) bucket1 (extract_fingerprint (Hash key))) with
  | Some b1, Some b2 => is_full epb b1 && is_full epb b2
  | _, _ => false
  end.

(** The same, of a multiset of signatures: enough of them can only be in the two buckets. *)
Definition crowded (num : Z) (X : gmultiset (Z * Z)) key : Prop :=
  let bucket1 := compute_bucket1 num (Hash key) in
  let bucket2 := compute_bucket2 num bucket1 (extract_fingerprint (Hash key)) in
  exists l1 l2, length l1 = epb /\ length l2 = epb /\ bag num bucket1 l1 ⊆ X /\ bag num bucket2 l2 ⊆ X /\ (bucket1 <> bucket2 -> bag num bucket1 l1 ⊎ bag num bucket2 l2 ⊆ X).

Lemma bag_part (X Y B : gmultiset (Z * Z)) : X ⊎ B = Y ⊎ ∅ -> B ⊆ Y.
Proof. multiset_solver. Qed.

Lemma bag_parts (X Y Z B C : gmultiset (Z * Z)) : X ⊎ B = Y ⊎ ∅ -> Z ⊎ C = X ⊎ ∅ -> B ⊎ C ⊆ Y.
Proof. multiset_solver. Qed.

Lemma table_part num ls i l : 0 <= i -> ls !! Z.to_nat i = Some l -> table_bag num (<[Z.to_nat i := []]> ls) ⊎ bag num i l = table_bag num ls ⊎ ∅.
Proof. intros Hi Hl. exact (table_bag_insert num ls i l [] Hi Hl). Qed.

Lemma full_length b l : holds b l -> is_full epb b = true -> length l = epb.
Proof. intros (_ & Hc & Hl & _). unfold is_full. rewrite Hc. intros H%Z.leb_le. lia. Qed.

(** The walk of a failed insertion. *)
Definition failed_walk f (ls ls1 : list (list Z)) trail key : Prop :=
  exists bs1, kick_loop MAX_KICKS (num_buckets_ f) (buckets_ f) (compute_bucket1 (num_buckets_ f) (Hash key)) (extract_fingerprint (Hash key)) [] = Ret (bs1, trail, false) /\
    table (num_buckets_ f) bs1 ls1 /\ trail_inv ls ls1 trail.

Lemma filter_insert_ok f ls key : wf f ls -> exists placed f' ls', insert f key = Ret (placed, f') /\ wf f' ls' /\ num_buckets_ f' = num_buckets_ f /\
  if (placed : bool) then table_bag (num_buckets_ f) ls' = table_bag (num_buckets_ f) ls ⊎ {[+ keysig (num_buckets_ f) key +]}
  else both_full f key = true /\ element_count_ f' = element_count_ f /\ exists ls1 trail, failed_walk f ls ls1 trail key /\ ls' = undo ls1 trail.
Proof.
  intros [Ht Hp Hc]. unfold insert, keysig, failed_walk, both_full. destruct f as [bs num n]. cbn [buckets_ num_buckets_ element_count_] in *. cbv zeta. pose proof (fp_ok key) as Hfp. set (fp := extract_fingerprint _) in *.
  pose proof (bucket1_range num (Hash key) Hp) as Hr1. set (i := compute_bucket1 _ _) in *. pose proof (bucket2_range num i fp Hp) as Hr2. destruct (table_get num bs ls i Ht Hr1) as (b1 & l1 & -> & Hl1 & Hh1 & Hb1). ret_step.
  rewrite (has_slot_holds b1 l1 Hh1). destruct (bool_decide (length l1 < epb)%nat) eqn:Hs1.
  { apply bool_decide_eq_true in Hs1. destruct (filter_add_ok num bs ls i b1 l1 fp Ht Hr1 Hl1 Hh1 Hs1 Hfp) as (bs' & ls' & -> & Ht' & Hb). ret_step. eexists true, _, ls'. split; [done|]. split; [|by split].
    apply (counted_wf num bs' ls ls' n 1 Hp Ht' Hc). rewrite Hb, gmultiset_size_disj_union, gmultiset_size_singleton. lia. }
  destruct (table_get num bs ls _ Ht Hr2) as (b2 & l2 & -> & Hl2 & Hh2 & Hb2). ret_step. rewrite (has_slot_holds b2 l2 Hh2). destruct (bool_decide (length l2 < epb)%nat) eqn:Hs2.
  { apply bool_decide_eq_true in Hs2. destruct (filter_add_ok num bs ls _ b2 l2 fp Ht Hr2 Hl2 Hh2 Hs2 Hfp) as (bs' & ls' & -> & Ht' & Hb). rewrite (sig_alt num i fp Hp Hr1) in Hb. ret_step. eexists true, _, ls'. split; [done|]. split; [|by split].
    apply (counted_wf num bs' ls ls' n 1 Hp Ht' Hc). rewrite Hb, gmultiset_size_disj_union, gmultiset_size_singleton. lia. }
  apply bool_decide_eq_false in Hs1, Hs2. pose proof (table_length _ _ _ _ _ Ht Hl1) as Hle. destruct (filter_kick_loop_ok num ls MAX_KICKS Hp bs ls i fp [] l1 Ht Hr1 Hl1 ltac:(lia) Hfp (trail_inv_start ls)) as (bs1 & ls1 & trail & placed & Hk & Ht1 & Hpl).
  rewrite Hk. ret_step. destruct placed.
  - eexists true, _, ls1. split; [done|]. split; [|by split]. apply (counted_wf num bs1 ls ls1 n 1 Hp Ht1 Hc). rewrite Hpl, gmultiset_size_disj_union, gmultiset_size_singleton. lia.
  - destruct (rollback_ok num ls trail bs1 ls1 Ht1 (ti_shape _ _ _ Hpl) (ti_ok _ _ _ Hpl)) as (bs' & -> & Ht'). ret_step. eexists false, _, (undo ls1 trail). split; [done|]. split; [|split; [done|split; [|split; [done|by eauto 10]]]].
    + split; [done|done|]. cbn. rewrite Hc. do 2 f_equal. apply concat_shape. rewrite shape_undo. symmetry. apply Hpl.
    + rewrite Hb1, Hb2. unfold is_full. destruct Hh1 as (_ & -> & _), Hh2 as (_ & -> & _). apply andb_true_iff. rewrite !Z.leb_le. lia.
Qed.

Lemma both_full_crowded f ls key : wf f ls -> both_full f key = true -> crowded (num_buckets_ f) (table_bag (num_buckets_ f) ls) key.
Proof.
  intros [[Ht _] Hp _]. unfold both_full, crowded. cbv zeta. set (num := num_buckets_ f) in *. pose proof (bucket1_range num (Hash key) Hp) as Hr1. set (i := compute_bucket1 _ _) in *.
  pose proof (bucket2_range num i (extract_fingerprint (Hash key)) Hp) as Hr2. set (j := compute_bucket2 _ _ _) in *. destruct (buckets_ f !! Z.to_nat i) as [b1|] eqn:Hb1; [|done]. destruct (buckets_ f !! Z.to_nat j) as [b2|] eqn:Hb2; [|done].
  intros [Hf1 Hf2]%andb_true_iff. destruct (Forall2_lookup_l _ _ _ _ _ Ht Hb1) as (l1 & Hl1 & Hh1), (Forall2_lookup_l _ _ _ _ _ Ht Hb2) as (l2 & Hl2 & Hh2). exists l1, l2.
  split; [by apply (full_length b1)|]. split; [by apply (full_length b2)|]. pose proof (table_part num ls i l1 (proj1 Hr1) Hl1) as H1. pose proof (table_part num ls j l2 (proj1 Hr2) Hl2) as H2. split; [by eapply bag_part|]. split; [by eapply bag_part|].
  intros Hij. apply (bag_parts _ _ _ _ _ H1 (table_part num (<[Z.to_nat i := []]> ls) j l2 (proj1 Hr2) ltac:(rewrite list_lookup_insert_ne by lia; exact Hl2))).
Qed.

Lemma filter_contains_ok f ls key : wf f ls -> contains f key = Ret (bool_decide (keysig (num_buckets_ f) key ∈ table_bag (num_buckets_ f) ls)).
Proof.
  intros [Ht Hp Hc]. unfold contains, keysig. destruct f as [bs num n]. cbn [buckets_ num_buckets_ element_count_] in *. cbv zeta. set (fp := extract_fingerprint _) in *.
  pose proof (bucket1_range num (Hash key) Hp) as Hr1. set (i := compute_bucket1 _ _) in *. pose proof (bucket2_range num i fp Hp) as Hr2. destruct (table_get num bs ls i Ht Hr1) as (b1 & l1 & -> & Hl1 & Hh1 & _). ret_step.
  rewrite (contains_holds b1 l1 fp Hh1). ret_step. destruct (table_get num bs ls _ Ht Hr2) as (b2 & l2 & -> & Hl2 & Hh2 & _). pose proof (elem_of_table num ls i fp l1 l2 Hp (proj2 Ht) Hr1 Hl1 Hl2) as Hin. case_bool_decide as H1; [by rewrite bool_decide_eq_true_2 by tauto|].
  ret_step. rewrite (contains_holds b2 l2 fp Hh2). f_equal. apply bool_decide_ext. tauto.
Qed.

Lemma filter_remove_ok f ls key : wf f ls -> exists f' ls', remove f key = Ret (bool_decide (keysig (num_buckets_ f) key ∈ table_bag (num_buckets_ f) ls), f') /\ wf f' ls' /\ num_buckets_ f' = num_buckets_ f /\
  table_bag (num_buckets_ f) ls' = table_bag (num_buckets_ f) ls ∖ {[+ keysig (num_buckets_ f) key +]}.
Proof.
  intros Hw. destruct (Hw) as [Ht Hp Hc]. unfold remove, keysig. destruct f as [bs num n]. cbn [buckets_ num_buckets_ element_count_] in *. cbv zeta. set (fp := extract_fingerprint _) in *.
  pose proof (bucket1_range num (Hash key) Hp) as Hr1. set (i := compute_bucket1 _ _) in *. pose proof (bucket2_range num i fp Hp) as Hr2. destruct (table_get num bs ls i Ht Hr1) as (b1 & l1 & -> & Hl1 & Hh1 & _). ret_step.
  pose proof (remove_holds b1 l1 fp ltac:(lia) Hh1) as Hd1. destruct (table_get num bs ls _ Ht Hr2) as (b2 & l2 & Hg2 & Hl2 & Hh2 & _). pose proof (elem_of_table num ls i fp l1 l2 Hp (proj2 Ht) Hr1 Hl1 Hl2) as Hin. set (s := sig num i fp) in *.
  assert (forall bs' ls', table num bs' ls' -> table_bag num ls' ⊎ {[+ s +]} = table_bag num ls -> wf (mkFilter bs' num (u64 (n - 1))) ls' /\ table_bag num ls' = table_bag num ls ∖ {[+ s +]}) as Hdone.
  { intros bs' ls' Ht' Hb. split; [|by apply bag_less]. apply (counted_wf num bs' ls ls' n (-1) Hp Ht' Hc). rewrite <- Hb, gmultiset_size_disj_union, gmultiset_size_singleton. lia. }
  destruct (decide (fp ∈ l1)) as [H1|H1].
  - destruct Hd1 as (b' & l' & -> & Hh' & Hperm). ret_step. destruct (filter_drop_ok num bs ls i b' l1 fp l' Ht Hr1 Hl1 Hh' Hperm) as (bs' & ls' & -> & Ht' & Hb). ret_step. eexists _, ls'. rewrite bool_decide_eq_true_2 by tauto. split; [done|]. destruct (Hdone bs' ls' Ht' Hb). by split.
  - rewrite Hd1. ret_step. rewrite Hg2. ret_step. pose proof (remove_holds b2 l2 fp ltac:(lia) Hh2) as Hd2. destruct (decide (fp ∈ l2)) as [H2|H2].
    + destruct Hd2 as (b' & l' & -> & Hh' & Hperm). ret_step. destruct (filter_drop_ok num bs ls _ b' l2 fp l' Ht Hr2 Hl2 Hh' Hperm) as (bs' & ls' & -> & Ht' & Hb). rewrite (sig_alt num i fp Hp Hr1) in Hb. ret_step. eexists _, ls'. rewrite bool_decide_eq_true_2 by tauto. split; [done|]. destruct (Hdone bs' ls' Ht' Hb). by split.
    + rewrite Hd2. ret_step. exists (mkFilter bs num n), ls. rewrite bool_decide_eq_false_2 by tauto. split; [done|]. split; [done|]. split; [done|]. apply bag_absent. tauto.
Qed.

(** ** A failed insertion *)
Definition slot bs (i j : nat) : option Z := b ← bs !! i; entries_ b !! j.

(** Every slot that the displacements leave changed is among the 128 of the trail. *)
Definition recorded f key : bool :=
  match kick_loop MAX_KICKS (num_buckets_ f) (buckets_ f) (compute_bucket1 (num_buckets_ f) (Hash key)) (extract_fingerprint (Hash key)) [] with
  | Ret (bs, trail, false) =>
    forallb (fun i => forallb (fun j => bool_decide (slot bs i j = slot (buckets_ f) i j) || bool_decide ((i, j) ∈ trail_slot <$> trail)) (seq 0 epb)) (seq 0 (length bs))
  | _ => true
  end.

Lemma table_eqb num bs ls bs' ls' : table num bs ls -> table num bs' ls' -> buckets_eqb bs bs' = true <-> ls = ls'.
Proof.
  intros [Ht Hn] [Ht' Hn']. assert (length ls = length ls') as Hl by lia. clear Hn Hn'. revert bs' ls' Ht' Hl. induction Ht as [|b l bs ls Hh _ IH]; intros bs' ls' [|b' l' bs1 ls1 Hh' Ht'] Hl; try done. injection Hl as Hl. cbn [buckets_eqb].
  rewrite andb_true_iff, (IH bs1 ls1 Ht' Hl). unfold bucket_eqb. rewrite andb_true_iff, bool_decide_eq_true, Z.eqb_eq. destruct (Hh) as (He & Hc & _), (Hh') as (He' & Hc' & _). split.
  - intros [[E1 E2] ->]. f_equal. rewrite E1, He' in He. assert (length l' = length l) as Hll by lia. by apply app_inj_1 in He as [? _].
  - intros [= -> ->]. rewrite He, He', Hc, Hc'. done.
Qed.

Lemma slot_entry num bs ls i j l : table num bs ls -> ls !! i = Some l -> slot bs i j = if decide (j < length l)%nat then entry ls i j else if decide (j < epb)%nat then Some 0 else None.
Proof.
  intros [Ht _] Hl. destruct (Forall2_lookup_r _ _ _ _ _ Ht Hl) as (b & Hb & He & _ & Hle & _). unfold slot, entry. rewrite Hb, Hl. cbn. rewrite He. case_decide; [by rewrite lookup_app_l|]. rewrite lookup_app_r by lia. case_decide; [apply lookup_replicate_2|apply lookup_replicate_None]; lia.
Qed.

Lemma undo_unchanged ls ls1 trail : trail_inv ls ls1 trail -> undo ls1 trail = ls <-> forall i j, entry ls1 i j = entry ls i j \/ (i, j) ∈ trail_slot <$> trail.
Proof.
  intros [Hs Hok _ Hu]. split.
  - intros Heq i j. destruct (decide ((i, j) ∈ trail_slot <$> trail)) as [|Hn]; [by right|left]. rewrite <- Heq. symmetry. by apply (undo_other trail ls).
  - intros Hall. assert (shape (undo ls1 trail) = shape ls) as Hsh by (by rewrite shape_undo). assert (forall i j, entry (undo ls1 trail) i j = entry ls i j) as He.
    { intros i j. destruct (decide ((i, j) ∈ trail_slot <$> trail)) as [Hin|Hn]; [by apply Hu|]. rewrite (undo_other trail ls) by done. by destruct (Hall i j). }
    apply list_eq. intros i. assert ((length <$> undo ls1 trail) !! i = (length <$> ls) !! i) as Hi by (change (shape (undo ls1 trail) !! i = shape ls !! i); by rewrite Hsh). rewrite !list_lookup_fmap in Hi.
    destruct (undo ls1 trail !! i) as [l|] eqn:E1, (ls !! i) as [l'|] eqn:E2; try done. f_equal. apply list_eq. intros j. specialize (He i j). unfold entry in He. by rewrite E1, E2 in He.
Qed.

Lemma recorded_undo f ls ls1 trail key : wf f ls -> failed_walk f ls ls1 trail key -> recorded f key = true <-> undo ls1 trail = ls.
Proof.
  intros [Ht _ _] (bs1 & Hk & Ht1 & Hi). rewrite (undo_unchanged ls ls1 trail Hi). unfold recorded. rewrite Hk, forallb_forall. pose proof (ti_shape _ _ _ Hi) as Hs. destruct (Ht1) as [Hf1 Hn1]. pose proof (Forall2_length _ _ _ Hf1) as Hlen.
  assert (forall i l, ls1 !! i = Some l -> exists l0, ls !! i = Some l0 /\ length l0 = length l) as Hrow.
  { intros i l Hl. assert ((length <$> ls1) !! i = (length <$> ls) !! i) as E by (change (shape ls1 !! i = shape ls !! i); by rewrite Hs). rewrite !list_lookup_fmap, Hl in E. destruct (ls !! i) as [l0|]; [|done]. injection E as E. by exists l0. }
  split.
  - intros Hall i j. destruct (ls1 !! i) as [l|] eqn:Hl.
    + destruct (Hrow i l Hl) as (l0 & Hl0 & Hll). destruct (decide (j < length l)%nat) as [Hj|Hj].
      * pose proof (table_length _ _ _ _ _ Ht1 Hl) as Hle. apply lookup_lt_Some in Hl as Hlt. specialize (Hall i ltac:(apply in_seq; lia)). rewrite forallb_forall in Hall. specialize (Hall j ltac:(apply in_seq; lia)).
        rewrite orb_true_iff, !bool_decide_eq_true in Hall. rewrite (slot_entry _ _ _ _ _ _ Ht1 Hl), (slot_entry _ _ _ _ _ _ Ht Hl0), !decide_True in Hall by lia. exact Hall.
      * left. unfold entry. rewrite Hl, Hl0. cbn. rewrite !lookup_ge_None_2 by lia. done.
    + left. unfold entry. rewrite Hl. destruct (ls !! i) as [l0|] eqn:Hl0; [|done]. apply lookup_lt_Some in Hl0. apply lookup_ge_None in Hl. assert (length ls1 = length ls); [|lia]. by rewrite <- (length_fmap length ls1), <- (length_fmap length ls); unfold shape in Hs; rewrite Hs.
  - intros Hall i Hi1%in_seq. apply forallb_forall. intros j Hj%in_seq. apply orb_true_iff. rewrite !bool_decide_eq_true. destruct (Hall i j) as [He|]; [left|by right]. destruct (lookup_lt_is_Some_2 ls1 i) as [l Hl]; [lia|]. destruct (Hrow i l Hl) as (l0 & Hl0 & Hll).
    rewrite (slot_entry _ _ _ _ _ _ Ht1 Hl), (slot_entry _ _ _ _ _ _ Ht Hl0), Hll. by case_decide.
Qed.

Lemma concat_empty k : concat (replicate k []) = @nil Z.
Proof. by induction k. Qed.

Lemma sigs_empty num k : forall off, sigs num off (replicate k []) = ∅.
Proof. induction k as [|k IH]; intros off; [done|]. cbn [replicate sigs]. by rewrite IH. Qed.

Lemma filter_new_ok expected_capacity : 0 <= expected_capacity -> buckets_needed expected_capacity <= 2 ^ 63 -> contents (filter_new expected_capacity) ∅ /\ pow2_size (num_buckets_ (filter_new expected_capacity)).
Proof.
  intros Hc Hb. assert (pow2_size (next_power_of_2 (buckets_needed expected_capacity))) as Hp by (apply next_power_of_2_size; split; [|done]; unfold buckets_needed, u64; apply Z.div_pos; [apply Z.mod_pos_bound; done|lia]).
  split; [|exact Hp]. unfold filter_new. set (num := next_power_of_2 _) in *. assert (0 <= num) by (destruct Hp as (k & Hk & ->); apply Z.pow_nonneg; lia). exists (replicate (Z.to_nat num) []). split; [split; [split|exact Hp|]|].
  - cbn [buckets_]. clear. induction (Z.to_nat num); constructor; [apply holds_new|done].
  - cbn [num_buckets_]. rewrite length_replicate. lia.
  - cbn [element_count_]. by rewrite concat_empty.
  - symmetry. apply sigs_empty.
Qed.

Lemma filter_clear_ok f ls : wf f ls -> contents (clear f) ∅.
Proof.
  intros [[Ht Hn] Hp _]. exists (replicate (length ls) []). split; [split; [split|exact Hp|]|].
  - cbn [buckets_ clear]. clear Hn. induction Ht as [|b l bs ls _ _ IH]; constructor; [|exact IH]. split; [cbn; by rewrite Nat.sub_0_r|]. split; [done|]. split; [cbn; lia|constructor].
  - cbn. by rewrite length_replicate.
  - cbn. by rewrite concat_empty.
  - symmetry. apply sigs_empty.
Qed.

Lemma insert_recorded f X key : contents f X -> exists placed f' X', insert f key = Ret (placed, f') /\ contents f' X' /\ num_buckets_ f' = num_buckets_ f /\ (placed = false -> both_full f key = true /\ crowded (num_buckets_ f) X key /\ element_count_ f' = element_count_ f) /\
  (placed || recorded f key = true -> X' = if placed then X ⊎ {[+ keysig (num_buckets_ f) key +]} else X) /\ (placed = false -> filter_eqb f f' = recorded f key).
Proof.
  intros (ls & Hw & ->). destruct (filter_insert_ok f ls key Hw) as (placed & f' & ls' & Hi & Hw' & Hn & Hpl). exists placed, f', (table_bag (num_buckets_ f) ls'). split; [done|]. split; [exists ls'; by rewrite Hn|]. split; [done|]. destruct placed; [by split|].
  destruct Hpl as (He & Hc & ls1 & trail & Hf & ->). pose proof (recorded_undo f ls ls1 trail key Hw Hf) as Hr. split; [intros _; split; [exact He|split; [by apply both_full_crowded|exact Hc]]|]. split; [intros Hrec; rewrite orb_false_l in Hrec; apply Hr in Hrec; by rewrite Hrec|]. intros _. apply eq_true_iff_eq. rewrite Hr.
  unfold filter_eqb. rewrite Hn, Hc, !Z.eqb_refl. pose proof (wf_table _ _ Hw') as Ht'. rewrite Hn in Ht'. rewrite (table_eqb _ _ _ _ _ (wf_table _ _ Hw) Ht'). naive_solver.
Qed.

(** ** Sequences of operations *)
Inductive op :=
| Insert key
| InsertRange (keys : list T)
| Contains key
| Remove key
| ElementCount
| Size
| Capacity
| Clear.

Inductive obs :=
| Bool (result : bool)
| Num (result : Z)
| Unit.

Definition step f (o : op) : outcome (CuckooFilter * obs) :=
  match o with
  | Insert key => '(placed, f) ← insert f key; Ret (f, Bool placed)
  | InsertRange keys => f ← insert_range f keys; Ret (f, Unit)
  | Contains key => found ← contains f key; Ret (f, Bool found)
  | Remove key => '(found, f) ← remove f key; Ret (f, Bool found)
  | ElementCount => Ret (f, Num (element_count f))
  | Size => Ret (f, Num (size f))
  | Capacity => Ret (f, Num (capacity f))
  | Clear => Ret (clear f, Unit)
  end.

Fixpoint run f (ops : list op) : outcome (CuckooFilter * list obs) :=
  match ops with
  | [] => Ret (f, [])
  | o :: ops => '(f, r) ← step f o; '(f, rs) ← run f ops; Ret (f, r :: rs)
  end.

(** No failed insertion of the run leaves a slot changed that it did not record. *)
Fixpoint range_recorded f (keys : list T) : bool :=
  match keys with
  | [] => true
  | key :: keys => match insert f key with Ret (placed, f') => (placed || recorded f key) && range_recorded f' keys | _ => true end
  end.

Fixpoint run_recorded f (ops : list op) : bool :=
  match ops with
  | [] => true
  | o :: ops =>
    (match o with Insert key => range_recorded f [key] | InsertRange keys => range_recorded f keys | _ => true end) &&
    match step f o with Ret (f', _) => run_recorded f' ops | _ => true end
  end.

(** The contract, on multisets of signatures. *)
Inductive spec_insert (num : Z) (X : gmultiset (Z * Z)) key : bool -> gmultiset (Z * Z) -> Prop :=
| spec_placed : spec_insert num X key true (X ⊎ {[+ keysig num key +]})
| spec_full : crowded num X key -> spec_insert num X key false X.

Inductive spec_range (num : Z) : gmultiset (Z * Z) -> list T -> gmultiset (Z * Z) -> Prop :=
| spec_range_nil X : spec_range num X [] X
| spec_range_cons X key placed X1 keys X2 : spec_insert num X key placed X1 -> spec_range num X1 keys X2 -> spec_range num X (key :: keys) X2.

Inductive spec_step (num : Z) (X : gmultiset (Z * Z)) : op -> obs -> gmultiset (Z * Z) -> Prop :=
| spec_op_insert key placed X' : spec_insert num X key placed X' -> spec_step num X (Insert key) (Bool placed) X'
| spec_op_range keys X' : spec_range num X keys X' -> spec_step num X (InsertRange keys) Unit X'
| spec_op_contains key : spec_step num X (Contains key) (Bool (bool_decide (keysig num key ∈ X))) X
| spec_op_remove key : spec_step num X (Remove key) (Bool (bool_decide (keysig num key ∈ X))) (X ∖ {[+ keysig num key +]})
| spec_op_count : spec_step num X ElementCount (Num (u64 (Z.of_nat (base.size X)))) X
| spec_op_size : spec_step num X Size (Num num) X
| spec_op_capacity : spec_step num X Capacity (Num (u64 (num * Z.of_nat epb))) X
| spec_op_clear : spec_step num X Clear Unit ∅.

Inductive spec_run (num : Z) : gmultiset (Z * Z) -> list op -> list obs -> gmultiset (Z * Z) -> Prop :=
| spec_run_nil X : spec_run num X [] [] X
| spec_run_cons X o r X1 ops rs X2 : spec_step num X o r X1 -> spec_run num X1 ops rs X2 -> spec_run num X (o :: ops) (r :: rs) X2.

#[local] Hint Constructors spec_insert spec_range spec_step spec_run : core.

Lemma insert_range_ok keys : forall f X, contents f X -> exists f', insert_range f keys = Ret f' /\ num_buckets_ f' = num_buckets_ f /\ exists X', contents f' X' /\ (range_recorded f keys = true -> spec_range (num_buckets_ f) X keys X').
Proof.
  induction keys as [|key keys IH]; intros f X Hc; cbn [insert_range range_recorded]; [exists f; eauto 10|]. destruct (insert_recorded f X key Hc) as (placed & f1 & X1 & Hi & Hc1 & Hn1 & Hfail & Hrec & _). rewrite Hi. ret_step.
  destruct (IH f1 X1 Hc1) as (f' & -> & Hn & X' & Hc' & Hr). exists f'. split; [done|]. split; [congruence|]. exists X'. split; [done|]. intros [H1 H2]%andb_true_iff. rewrite Hn1 in Hr. apply (spec_range_cons _ X key placed X1); [|by apply Hr]. rewrite (Hrec H1). destruct placed; [constructor|]. constructor. by apply Hfail.
Qed.

Lemma filter_step_ok f X o : contents f X -> exists f' r, step f o = Ret (f', r) /\ num_buckets_ f' = num_buckets_ f /\ exists X', contents f' X' /\
  ((match o with Insert key => range_recorded f [key] | InsertRange keys => range_recorded f keys | _ => true end) = true -> spec_step (num_buckets_ f) X o r X').
Proof.
  intros Hc. destruct (Hc) as (ls & Hw & HX). destruct o as [key|keys|key|key| | | |]; cbn [step].
  - cbn [range_recorded]. destruct (insert_recorded f X key Hc) as (placed & f1 & X1 & -> & Hc1 & Hn1 & Hfail & Hrec & _). ret_step. exists f1, (Bool placed). split; [done|]. split; [done|]. exists X1. split; [done|]. rewrite andb_true_r. intros H1.
    constructor. rewrite (Hrec H1). destruct placed; [constructor|]. constructor. by apply Hfail.
  - destruct (insert_range_ok keys f X Hc) as (f' & -> & Hn & X' & Hc' & Hr). ret_step. exists f', Unit. split; [done|]. split; [done|]. exists X'. split; [done|]. auto.
  - rewrite (filter_contains_ok f ls key Hw), <- HX. ret_step. eexists _, _. split; [done|]. split; [done|]. exists X. auto.
  - destruct (filter_remove_ok f ls key Hw) as (f' & ls' & -> & Hw' & Hn & HX'). ret_step. eexists _, _. split; [done|]. split; [done|]. rewrite <- HX. exists (X ∖ {[+ keysig (num_buckets_ f) key +]}). split; [|auto]. exists ls'. split; [done|]. by rewrite Hn, HX', HX.
  - eexists _, _. split; [done|]. split; [done|]. exists X. split; [done|]. intros _. unfold element_count. rewrite (wf_count _ _ Hw), <- (size_table (num_buckets_ f)), <- HX. constructor.
  - eexists _, _. split; [done|]. split; [done|]. exists X. auto.
  - eexists _, _. split; [done|]. split; [done|]. exists X. split; [done|]. intros _. constructor.
  - eexists _, _. split; [done|]. split; [done|]. exists ∅. split; [by eapply filter_clear_ok|auto].
Qed.

Lemma filter_run_ok ops : forall f X, contents f X -> exists f' rs, run f ops = Ret (f', rs) /\ num_buckets_ f' = num_buckets_ f /\ exists X', contents f' X' /\ (run_recorded f ops = true -> spec_run (num_buckets_ f) X ops rs X').
Proof.
  induction ops as [|o ops IH]; intros f X Hc; cbn [run run_recorded]; [eexists _, _; eauto 10|]. destruct (filter_step_ok f X o Hc) as (f1 & r & Hs & Hn1 & X1 & Hc1 & H1). rewrite Hs. ret_step.
  destruct (IH f1 X1 Hc1) as (f' & rs & -> & Hn & X' & Hc' & H2). ret_step. eexists _, _. split; [done|]. split; [congruence|]. exists X'. split; [done|]. intros [Hr1 Hr2]%andb_true_iff. rewrite Hn1 in H2. econstructor; [by apply H1|by apply H2].
Qed.

(** A client's multiset of keys: it removes only keys that it has inserted. *)
Inductive history : list T -> list op -> list obs -> list T -> Prop :=
| history_nil K : history K [] [] K
| history_insert K key placed ops rs K' : history (if (placed : bool) then key :: K else K) ops rs K' -> history K (Insert key :: ops) (Bool placed :: rs) K'
| history_remove K key K1 found ops rs K' : K ≡ₚ key :: K1 -> history K1 ops rs K' -> history K (Remove key :: ops) (Bool found :: rs) K'
| history_contains K key found ops rs K' : history K ops rs K' -> history K (Contains key :: ops) (Bool found :: rs) K'
| history_count K o n ops rs K' : o = ElementCount \/ o = Size \/ o = Capacity -> history K ops rs K' -> history K (o :: ops) (Num n :: rs) K'
| history_clear K ops rs K' : history [] ops rs K' -> history K (Clear :: ops) (Unit :: rs) K'.

Definition keys_bag (num : Z) (K : list T) : gmultiset (Z * Z) := list_to_set_disj (keysig num <$> K).

Lemma bag_remove (s : Z * Z) (X : gmultiset (Z * Z)) : ({[+ s +]} ⊎ X) ∖ {[+ s +]} = X.
Proof. multiset_solver. Qed.

Lemma spec_history num K ops rs K' : history K ops rs K' -> forall X', spec_run num (keys_bag num K) ops rs X' -> X' = keys_bag num K'.
Proof.
  induction 1 as [K|K key placed ops rs K' _ IH|K key K1 found ops rs K' HK _ IH|K key found ops rs K' _ IH|K o n ops rs K' Ho _ IH|K ops rs K' _ IH]; intros X' Hr; inversion Hr as [|? ? ? X1 ? ? ? Hs Hr1]; subst; [done|..].
  - apply IH. assert (X1 = keys_bag num (if placed then key :: K else K)) as <-; [|exact Hr1]. inversion Hs as [? ? ? Hi| | | | | | |]; subst. inversion Hi; subst; [|done]. unfold keys_bag. rewrite fmap_cons, list_to_set_disj_cons. apply (comm_L (⊎)).
  - apply IH. assert (X1 = keys_bag num K1) as <-; [|exact Hr1]. inversion Hs; subst. unfold keys_bag. assert (list_to_set_disj (keysig num <$> K) =@{gmultiset (Z * Z)} list_to_set_disj (keysig num <$> (key :: K1))) as -> by (apply list_to_set_disj_perm; by rewrite HK). rewrite fmap_cons, list_to_set_disj_cons. apply bag_remove.
  - apply IH. by inversion Hs; subst.
  - apply IH. destruct Ho as [->|[->| ->]]; by inversion Hs; subst.
  - apply IH. inversion Hs; subst. exact Hr1.
Qed.

Lemma filter_eqb_contents f X (g : CuckooFilter) Y : contents f X -> contents g Y -> filter_eqb f g = true -> X = Y.
Proof.
  intros (ls & Hw & ->) (ls' & Hw' & ->). unfold filter_eqb. intros [[Hn _]%andb_true_iff Hb]%andb_true_iff. apply Z.eqb_eq in Hn. pose proof (wf_table _ _ Hw') as Ht. rewrite <- Hn in *. apply (table_eqb _ _ _ _ _ (wf_table _ _ Hw) Ht) in Hb. by subst.
Qed.

(** C21: every sequence of operations on a new filter is defined.  If no failed insertion leaves a slot
    changed that its trail did not record, the filter is observed as a multiset of signatures: queries and
    removals are exact on it, and an insertion fails only when EntriesPerBucket of its signatures fill each of the
    two buckets of the key.  A bucket has between one and 255 entries and a fingerprint 8, 16 or 32 bits, and the
    capacity needs at most 2^63 buckets. *)
Theorem cuckoo_filter_refines expected_capacity ops : 0 <= expected_capacity -> buckets_needed expected_capacity <= 2 ^ 63 ->
  exists f rs, run (filter_new expected_capacity) ops = Ret (f, rs) /\
    (run_recorded (filter_new expected_capacity) ops = true -> exists X, spec_run (num_buckets_ (filter_new expected_capacity)) ∅ ops rs X /\ contents f X).
Proof.
  intros Hc Hb. destruct (filter_new_ok expected_capacity Hc Hb) as [H0 _]. destruct (filter_run_ok ops _ _ H0) as (f & rs & Hr & _ & X & HX & Hs). exists f, rs. split; [exact Hr|]. intros Hrec. exists X. auto.
Qed.

(** the keys a client has inserted and not removed are found, and are counted. *)
Theorem cuckoo_filter_no_false_negatives expected_capacity ops f rs K : 0 <= expected_capacity -> buckets_needed expected_capacity <= 2 ^ 63 ->
  run (filter_new expected_capacity) ops = Ret (f, rs) -> run_recorded (filter_new expected_capacity) ops = true -> history [] ops rs K ->
  Forall (fun key => contains f key = Ret true) K /\ element_count f = u64 (Z.of_nat (length K)).
Proof.
  intros Hc Hb Hr Hrec Hh. destruct (filter_new_ok expected_capacity Hc Hb) as [H0 _]. destruct (filter_run_ok ops _ _ H0) as (f' & rs' & Hr' & Hn & X & (ls & Hw & HX) & Hs). assert (f' = f /\ rs' = rs) as [-> ->] by (rewrite Hr in Hr'; by injection Hr' as -> ->).
  apply (spec_history _ [] ops rs K Hh) in Hs; [|exact Hrec]. rewrite Hs in HX. unfold keys_bag in HX. rewrite <- Hn in HX. split.
  - apply Forall_forall. intros key Hk. rewrite (filter_contains_ok f ls key Hw), <- HX. f_equal. apply bool_decide_eq_true. apply elem_of_list_to_set_disj, list_elem_of_fmap. by exists key.
  - unfold element_count. rewrite (wf_count _ _ Hw), <- (size_table (num_buckets_ f)), <- HX. do 2 f_equal. clear. induction K as [|key K IH]; [apply gmultiset_size_empty|]. rewrite fmap_cons, list_to_set_disj_cons, gmultiset_size_disj_union, gmultiset_size_singleton, IH. done.
Qed.

(** C22: an insertion fails only when both buckets of the key are full, and keeps the count, but the filter is
    equal to the one before exactly when every slot left changed is among the first 128 displaced. *)
Theorem cuckoo_filter_failed_insert f X key f' : contents f X -> insert f key = Ret (false, f') ->
  filter_eqb f f' = recorded f key /\ both_full f key = true /\ element_count f' = element_count f /\ exists X', contents f' X' /\ base.size X' = base.size X.
Proof.
  intros Hc Hi. destruct (Hc) as (ls & Hw & ->). destruct (insert_recorded f _ key Hc) as (placed & f1 & X1 & Hi' & _ & _ & Hf & _ & He). assert (placed = false /\ f1 = f') as [-> ->] by (rewrite Hi in Hi'; by injection Hi' as <- <-).
  destruct (Hf eq_refl) as (Hfull & _ & Hcnt). split; [by apply He|]. split; [exact Hfull|]. split; [exact Hcnt|]. destruct (filter_insert_ok f ls key Hw) as (placed & f2 & ls2 & Hi2 & Hw2 & Hn2 & Hpl). assert (placed = false /\ f2 = f') as [-> ->] by (rewrite Hi in Hi2; by injection Hi2 as <- <-).
  destruct Hpl as (_ & _ & ls1 & trail & (bs1 & _ & _ & Hti) & ->). exists (table_bag (num_buckets_ f') (undo ls1 trail)). split; [by eexists|]. rewrite !size_table. apply concat_shape. rewrite shape_undo. apply Hti.
Qed.
End cuckoo_filter.

(** ** Concrete filters: 64-bit keys that are their own hash, four entries, eight bits. *)
Definition hash64 (key : Z) : Z := u64 key.

Lemma hash64_range key : 0 <= hash64 key < 2 ^ 64.
Proof. apply Z.mod_pos_bound. done. Qed.

(** One bucket: the fifth key does not fit, and its displacements are undone. *)
Definition sample_ops : list (op (T := Z)) :=
  [Insert 258; Insert 513; InsertRange [772; 1031]; Insert 5; Contains 258; Contains 5; Remove 258; Contains 258; ElementCount; Capacity; Insert 5; Size].

Lemma cuckoo_filter_refines_witness :
  (exists f, run hash64 4 8 (filter_new 4 4) sample_ops = Ret (f, [Bool true; Bool true; Unit; Bool false; Bool true; Bool false; Bool true; Bool false; Num 3; Num 4; Bool true; Num 1])) /\
  exists f rs, run hash64 4 8 (filter_new 4 4) sample_ops = Ret (f, rs) /\
    (run_recorded hash64 4 8 (filter_new 4 4) sample_ops = true -> exists X, spec_run hash64 4 8 (num_buckets_ (filter_new 4 4)) ∅ sample_ops rs X /\ contents 4 f X).
Proof.
  split; [eexists; vm_compute; reflexivity|].
  apply (cuckoo_filter_refines hash64 4 8 hash64_range ltac:(lia) (or_introl eq_refl) 4 sample_ops); vm_compute; discriminate.
Defined.

Lemma cuckoo_filter_no_false_negatives_witness : exists f rs, run hash64 4 8 (filter_new 4 4) [Insert 258; Insert 513; Insert 258; Remove 258] = Ret (f, rs) /\
  Forall (fun key => contains hash64 8 f key = Ret true) [513; 258] /\ element_count f = u64 2.
Proof.
  eexists _, [Bool true; Bool true; Bool true; Bool true]. split; [vm_compute; reflexivity|].
  apply (cuckoo_filter_no_false_negatives hash64 4 8 hash64_range ltac:(lia) (or_introl eq_refl) 4 [Insert 258; Insert 513; Insert 258; Remove 258] _ [Bool true; Bool true; Bool true; Bool true] [513; 258]); [lia|vm_compute; discriminate|vm_compute; reflexivity|vm_compute; reflexivity|].
  do 3 constructor. apply (history_remove _ 258 [513; 258]); [done|constructor].
Defined.

(** The filter with one full bucket. *)
Lemma cuckoo_filter_failed_insert_witness : exists f X f', contents 4 f X /\ insert hash64 4 8 f 5 = Ret (false, f') /\
  filter_eqb f f' = recorded hash64 4 8 f 5 /\ both_full hash64 4 8 f 5 = true /\ element_count f' = element_count f /\ exists X', contents 4 f' X' /\ base.size X' = base.size X.
Proof.
  destruct (filter_run_ok hash64 4 8 hash64_range ltac:(lia) (or_introl eq_refl) [Insert 258; Insert 513; Insert 772; Insert 1031] (filter_new 4 4) ∅) as (f & rs & Hr & _ & X & HX & _); [apply filter_new_ok; [lia|vm_compute; discriminate..]|].
  vm_compute in Hr. injection Hr as <- <-. eexists _, X, _. split; [exact HX|]. split; [vm_compute; reflexivity|].
  apply (cuckoo_filter_failed_insert hash64 4 8 hash64_range ltac:(lia) (or_introl eq_refl) _ X 5 _ HX). vm_compute. reflexivity.
Defined.

(** An insertion that fails although the comment says that the filter is unchanged: it loses a key. *)
Definition scattered (n : Z) : Z := u64 (n * 0x2545F4914F6CDD1D).

Theorem cuckoo_filter_loses : exists f f',
  run hash64 4 8 (filter_new 4 60) (Insert <$> (scattered <$> seqZ 1 64)) = Ret (f, replicate 64 (Bool true)) /\ contains hash64 8 f (scattered 1) = Ret true /\
  insert hash64 4 8 f (scattered 65) = Ret (false, f') /\ filter_eqb f f' = false /\ contains hash64 8 f' (scattered 1) = Ret false.
Proof. eexists _, _. split; [vm_compute; reflexivity|]. split; [vm_compute; reflexivity|]. split; [vm_compute; reflexivity|]. split; vm_compute; reflexivity. Qed.

(** The count of a bucket has eight bits: 256 entries are taken for none. *)
Theorem cuckoo_filter_wide_bucket : exists f,
  run hash64 256 8 (filter_new 256 200) (replicate 256 (Insert 1)) = Ret (f, replicate 256 (Bool true)) /\ contains hash64 8 f 1 = Ret false /\ element_count f = 256.
Proof. eexists. split; [vm_compute; reflexivity|]. split; vm_compute; reflexivity. Qed.
