(* ===== verification/Buffers.v ===== *)
(** * Buffers with a position, a limit and a capacity ([buffer/], [interface/io/IBuffer.hpp])

    The seven classes [ByteBuffer] to [LongBuffer] implement one interface with separate code.  Each is a
    record of operations; the contract is a zipper: what is before the position, what is
    between it and the limit, and what is after.  All seven are proved to be lawful, and clients use
    the laws alone; the calls that only some classes have, of several elements and of elements at an index, refine the
    zipper as well.

    The element type is a parameter.  Sizes are [size_t]: sums and differences wrap. *)

From S2P Require Import Prelude Refinement.
Local Open Scope Z_scope.

(** ** The interface *)

(** [IBuffer], with the operations on elements that every class has. *)
Record IBuffer (A B : Type) := mkIBuffer {
  capacity : B -> Z;
  position : B -> Z;
  set_position : B -> Z -> outcome B;
  limit : B -> Z;
  set_limit : B -> Z -> outcome B;
  clear : B -> B;
  flip : B -> B;
  rewind : B -> B;
  remaining : B -> Z;
  hasRemaining : B -> bool;
  get : B -> outcome (A * B);
  put : B -> A -> outcome B;
  compact : B -> outcome B;
  getRemaining : B -> outcome (list A);
}.
Arguments mkIBuffer {A B}.
Arguments capacity {A B}.
Arguments position {A B}.
Arguments set_position {A B}.
Arguments limit {A B}.
Arguments set_limit {A B}.
Arguments clear {A B}.
Arguments flip {A B}.
Arguments rewind {A B}.
Arguments remaining {A B}.
Arguments hasRemaining {A B}.
Arguments get {A B}.
Arguments put {A B}.
Arguments compact {A B}.
Arguments getRemaining {A B}.

(** The data members; [buffer_] is a vector or a string. *)
Record Buffer (A : Type) := mkBuffer { buffer_ : list A; position_ : Z; limit_ : Z; capacity_ : Z }.
Arguments mkBuffer {A}.
Arguments buffer_ {A}.
Arguments position_ {A}.
Arguments limit_ {A}.
Arguments capacity_ {A}.

Section classes.
Context {A : Type} (zero : A).
Implicit Types (b : Buffer A) (x : A) (xs : list A) (i n : Z).

Definition at_position b i : Buffer A := mkBuffer (buffer_ b) i (limit_ b) (capacity_ b).
Definition at_limit b i : Buffer A := mkBuffer (buffer_ b) (position_ b) i (capacity_ b).

(** A range of iterators [\[first, last)] of the vector; any other pair is undefined. *)
Definition range (v : list A) (first last : Z) : outcome (list A) :=
  if decide (0 <= first /\ first <= last /\ last <= Z.of_nat (length v)) then Ret (take (Z.to_nat (last - first)) (drop (Z.to_nat first) v)) else Undef.

(** [std::copy] and [memcpy] to the elements from [first] on. *)
Definition copy_to (v : list A) (first : Z) xs : outcome (list A) :=
  if decide (0 <= first /\ first + Z.of_nat (length xs) <= Z.of_nat (length v)) then Ret (take (Z.to_nat first) v ++ xs ++ drop (Z.to_nat first + length xs) v) else Undef.

(** *** What the code of all classes has in common *)
Definition buffer_new n : Buffer A := mkBuffer (replicate (Z.to_nat n) zero) 0 n n.

(** [limit(newLimit)] assigns the limit first, or the position first. *)
Definition limit_first b n : outcome (Buffer A) :=
  if decide (capacity_ b < n) then Throw out_of_range else
  let b := at_limit b n in if decide (limit_ b < position_ b) then Ret (at_position b (limit_ b)) else Ret b.
Definition position_first b n : outcome (Buffer A) :=
  if decide (capacity_ b < n) then Throw out_of_range else
  let b := if decide (n < position_ b) then at_position b n else b in Ret (at_limit b n).

Definition vector_buffer (set_limit : Buffer A -> Z -> outcome (Buffer A)) : IBuffer A (Buffer A) :=
  let hasRemaining b := bool_decide (position_ b < limit_ b) in {|
  capacity := capacity_;
  position := position_;
  set_position b n := if decide (limit_ b < n) then Throw out_of_range else Ret (at_position b n);
  limit := limit_;
  set_limit := set_limit;
  clear b := at_limit (at_position b 0) (capacity_ b);
  flip b := at_position (at_limit b (position_ b)) 0;
  rewind b := at_position b 0;
  remaining b := u64 (limit_ b - position_ b);
  hasRemaining := hasRemaining;
  get b := if negb (hasRemaining b) then Throw underflow_error else x ← vgetz (buffer_ b) (position_ b); Ret (x, at_position b (position_ b + 1));
  put b x := if negb (hasRemaining b) then Throw overflow_error else v ← vsetz (buffer_ b) (position_ b) x; Ret (mkBuffer v (position_ b + 1) (limit_ b) (capacity_ b));
  compact b :=
    let count := u64 (limit_ b - position_ b) in
    v ← (if decide (0 < count /\ 0 < position_ b) then moved ← range (buffer_ b) (position_ b) (limit_ b); copy_to (buffer_ b) 0 moved else Ret (buffer_ b));
    Ret (mkBuffer v count (capacity_ b) (capacity_ b));
  getRemaining b := if decide (limit_ b <= position_ b) then Ret [] else range (buffer_ b) (position_ b) (limit_ b);
|}.

(** [put] of a vector and [get] of a number of elements; [fits] is the guard. *)
Definition put_all (fits : Buffer A -> Z -> bool) b xs : outcome (Buffer A) :=
  if decide (xs = []) then Ret b else
  if negb (fits b (Z.of_nat (length xs))) then Throw overflow_error else
  v ← copy_to (buffer_ b) (position_ b) xs; Ret (mkBuffer v (u64 (position_ b + Z.of_nat (length xs))) (limit_ b) (capacity_ b)).

Definition get_n (fits : Buffer A -> Z -> bool) b n : outcome (list A * Buffer A) :=
  if decide (n = 0) then Ret ([], b) else
  if negb (fits b n) then Throw underflow_error else
  let last := u64 (position_ b + n) in result ← range (buffer_ b) (position_ b) last; Ret (result, at_position b last).

(** [size > remaining()], or [position_ + size > limit_]. *)
Definition fits_remaining b n : bool := negb (bool_decide (u64 (limit_ b - position_ b) < n)).
Definition fits_sum b n : bool := negb (bool_decide (limit_ b < u64 (position_ b + n))).

Definition get_at b i : outcome A := if decide (limit_ b <= i) then Throw out_of_range else vgetz (buffer_ b) i.
Definition put_at b i x : outcome (Buffer A) :=
  if decide (limit_ b <= i) then Throw out_of_range else v ← vsetz (buffer_ b) i x; Ret (mkBuffer v (position_ b) (limit_ b) (capacity_ b)).

(** *** The classes *)
Definition ByteBuffer : IBuffer A (Buffer A) := vector_buffer limit_first.
Definition ByteBuffer_put_all := put_all fits_remaining.
Definition ByteBuffer_get_n := get_n fits_remaining.

Definition CharBuffer : IBuffer A (Buffer A) := vector_buffer position_first.
Definition CharBuffer_put_string := put_all fits_sum.

Definition DoubleBuffer : IBuffer A (Buffer A) := vector_buffer position_first.
Definition DoubleBuffer_put_all := put_all fits_remaining.

Definition FloatBuffer : IBuffer A (Buffer A) := vector_buffer position_first.
Definition FloatBuffer_put_all := put_all fits_remaining.
Definition FloatBuffer_get_n := get_n fits_sum.

Definition IntBuffer : IBuffer A (Buffer A) := vector_buffer position_first.
Definition LongBuffer : IBuffer A (Buffer A) := vector_buffer limit_first.
Definition ShortBuffer : IBuffer A (Buffer A) := vector_buffer limit_first.

(** [wrap]: [data] is null or points to that many elements at least. *)
Definition ShortBuffer_wrap (data : option (list A)) n : outcome (Buffer A) :=
  let sb := buffer_new n in
  match data with
  | Some data => if decide (0 < n) then src ← range data 0 n; v ← copy_to (buffer_ sb) 0 src; Ret (mkBuffer v (position_ sb) (limit_ sb) (capacity_ sb)) else Ret sb
  | None => Ret sb
  end.

(** A write through [data()] is not bounded by the limit. *)
Definition ShortBuffer_data b : list A := buffer_ b.
Definition ShortBuffer_data_write b i x : outcome (Buffer A) := v ← vsetz (buffer_ b) i x; Ret (mkBuffer v (position_ b) (limit_ b) (capacity_ b)).

Definition all_buffers : list (IBuffer A (Buffer A)) := [ByteBuffer; CharBuffer; DoubleBuffer; FloatBuffer; IntBuffer; LongBuffer; ShortBuffer].

(** A class: the interface, and the calls that only some classes have ([indexed]: elements at an index below the limit). *)
Record BufferClass := mkClass {
  interface : IBuffer A (Buffer A);
  put_many : option (Buffer A -> list A -> outcome (Buffer A));
  get_many : option (Buffer A -> Z -> outcome (list A * Buffer A));
  indexed : bool;
}.

Definition all_classes : list BufferClass :=
  [mkClass ByteBuffer (Some ByteBuffer_put_all) (Some ByteBuffer_get_n) false; mkClass CharBuffer (Some CharBuffer_put_string) None false;
   mkClass DoubleBuffer (Some DoubleBuffer_put_all) None false; mkClass FloatBuffer (Some FloatBuffer_put_all) (Some FloatBuffer_get_n) false;
   mkClass IntBuffer None None true; mkClass LongBuffer None None false; mkClass ShortBuffer None None true].

(** ** The contract: a zipper *)
Record Zipper := mkZipper { before : list A; inside : list A; after : list A }.
Implicit Types (z : Zipper).

Definition everything z : list A := before z ++ inside z ++ after z.
Definition zlength (l : list A) : Z := Z.of_nat (length l).
(** The first [i] elements are before, the next up to [n] inside. *)
Definition cut (l : list A) (i n : nat) : Zipper := mkZipper (take i l) (take (n - i) (drop i l)) (drop n l).

Inductive op :=
| Capacity | Position | SetPosition n | Limit | SetLimit n | Clear | Flip | Rewind | Remaining | HasRemaining
| Get | Put x | Compact | GetRemaining.

Inductive result :=
| Done
| Size (n : Z)
| Bool (r : bool)
| Elem x
| Elems xs.

Definition spec_step z (o : op) : outcome (Zipper * result) :=
  match o with
  | Capacity => Ret (z, Size (zlength (everything z)))
  | Position => Ret (z, Size (zlength (before z)))
  | SetPosition n => if decide (zlength (before z ++ inside z) < n) then Throw out_of_range else Ret (cut (everything z) (Z.to_nat n) (length (before z ++ inside z)), Done)
  | Limit => Ret (z, Size (zlength (before z ++ inside z)))
  | SetLimit n => if decide (zlength (everything z) < n) then Throw out_of_range else Ret (cut (everything z) (length (before z) `min` Z.to_nat n) (Z.to_nat n), Done)
  | Clear => Ret (mkZipper [] (everything z) [], Done)
  | Flip => Ret (mkZipper [] (before z) (inside z ++ after z), Done)
  | Rewind => Ret (mkZipper [] (before z ++ inside z) (after z), Done)
  | Remaining => Ret (z, Size (zlength (inside z)))
  | HasRemaining => Ret (z, Bool (negb (bool_decide (inside z = []))))
  | Get => match inside z with [] => Throw underflow_error | x :: rest => Ret (mkZipper (before z ++ [x]) rest (after z), Elem x) end
  | Put x => match inside z with [] => Throw overflow_error | _ :: rest => Ret (mkZipper (before z ++ [x]) rest (after z), Done) end
  | Compact => Ret (mkZipper (inside z) (drop (length (inside z)) (everything z)) [], Done)
  | GetRemaining => Ret (z, Elems (inside z))
  end.

(** An operation of any class. *)
Definition step {B} (ops : IBuffer A B) (b : B) (o : op) : outcome (B * result) :=
  match o with
  | Capacity => Ret (b, Size (capacity ops b))
  | Position => Ret (b, Size (position ops b))
  | SetPosition n => b ← set_position ops b n; Ret (b, Done)
  | Limit => Ret (b, Size (limit ops b))
  | SetLimit n => b ← set_limit ops b n; Ret (b, Done)
  | Clear => Ret (clear ops b, Done)
  | Flip => Ret (flip ops b, Done)
  | Rewind => Ret (rewind ops b, Done)
  | Remaining => Ret (b, Size (remaining ops b))
  | HasRemaining => Ret (b, Bool (hasRemaining ops b))
  | Get => '(x, b) ← get ops b; Ret (b, Elem x)
  | Put x => b ← put ops b x; Ret (b, Done)
  | Compact => b ← compact ops b; Ret (b, Done)
  | GetRemaining => xs ← getRemaining ops b; Ret (b, Elems xs)
  end.

(** Arguments are of type [size_t]. *)
Definition op_ok (o : op) : Prop := match o with SetPosition n | SetLimit n => 0 <= n | _ => True end.

(** The laws of the interface: [R] relates the states of a class to zippers. *)
Class Lawful {B} (ops : IBuffer A B) (R : B -> Zipper -> Prop) : Prop :=
  lawful_step : forall (s : B) z (o : op), R s z -> op_ok o ->
    match spec_step z o with
    | Ret (z', r) => exists s' : B, step ops s o = Ret (s', r) /\ R s' z'
    | Throw e => step ops s o = Throw e
    | Undef | NoFuel => False
    end.

(** *** The calls of a class *)
Inductive call :=
| Single (o : op)
| PutMany xs
| GetMany n
| GetAt i
| PutAt i x.

Definition offers (c : BufferClass) (o : call) : Prop :=
  match o with
  | Single _ => True
  | PutMany _ => is_Some (put_many c)
  | GetMany _ => is_Some (get_many c)
  | GetAt _ | PutAt _ _ => indexed c = true
  end.

(** Sizes are of type [size_t], and the size of a vector is below [2 ^ 63]; so is the number of elements asked for. *)
Definition call_ok (o : call) : Prop :=
  match o with
  | Single o => op_ok o
  | PutMany xs => zlength xs < 2 ^ 63
  | GetMany n => 0 <= n < 2 ^ 63
  | GetAt i | PutAt i _ => 0 <= i
  end.

Definition spec_call z (o : call) : outcome (Zipper * result) :=
  match o with
  | Single o => spec_step z o
  | PutMany xs =>
    if decide (length xs <= length (inside z))%nat then Ret (mkZipper (before z ++ xs) (drop (length xs) (inside z)) (after z), Done) else Throw overflow_error
  | GetMany n =>
    if decide (Z.to_nat n <= length (inside z))%nat then Ret (mkZipper (before z ++ take (Z.to_nat n) (inside z)) (drop (Z.to_nat n) (inside z)) (after z), Elems (take (Z.to_nat n) (inside z)))
    else Throw underflow_error
  | GetAt i => match (before z ++ inside z) !! Z.to_nat i with Some x => Ret (z, Elem x) | None => Throw out_of_range end
  | PutAt i x =>
    if decide (Z.to_nat i < length (before z ++ inside z))%nat then Ret (cut (<[Z.to_nat i := x]> (everything z)) (length (before z)) (length (before z ++ inside z)), Done) else Throw out_of_range
  end.

(** A call of an operation that the class does not have is no program. *)
Definition call_step (c : BufferClass) b (o : call) : outcome (Buffer A * result) :=
  match o, put_many c, get_many c, indexed c with
  | Single o, _, _, _ => step (interface c) b o
  | PutMany xs, Some put_many, _, _ => b ← put_many b xs; Ret (b, Done)
  | GetMany n, _, Some get_many, _ => '(xs, b) ← get_many b n; Ret (b, Elems xs)
  | GetAt i, _, _, true => x ← get_at b i; Ret (b, Elem x)
  | PutAt i x, _, _, true => b ← put_at b i x; Ret (b, Done)
  | _, _, _, _ => Undef
  end.

(** [size_t] holds twice the size of any vector. *)
Definition holds b z : Prop :=
  buffer_ b = everything z /\ position_ b = zlength (before z) /\ limit_ b = zlength (before z ++ inside z) /\ capacity_ b = zlength (everything z) /\ zlength (everything z) < 2 ^ 63.

Lemma zlength_app (l1 l2 : list A) : zlength (l1 ++ l2) = zlength l1 + zlength l2.
Proof. unfold zlength. rewrite length_app. lia. Qed.

Lemma zlength_nonneg (l : list A) : 0 <= zlength l.
Proof. unfold zlength. lia. Qed.

Lemma cut_everything (l : list A) (i n : nat) : (i <= n)%nat -> everything (cut l i n) = l.
Proof. intros Hi. unfold everything, cut. cbn. rewrite (assoc_L (++)). rewrite take_take_drop. replace (i + (n - i))%nat with n by lia. apply take_drop. Qed.

Lemma cut_holds b z (i n : nat) : holds b z -> (i <= n)%nat -> (n <= length (everything z))%nat -> holds (mkBuffer (buffer_ b) (Z.of_nat i) (Z.of_nat n) (capacity_ b)) (cut (everything z) i n).
Proof.
  intros (Hb & _ & _ & Hc & Hlt) Hi Hn. unfold zlength in *. split; [|split; [|split; [|split]]]; cbn [buffer_ position_ limit_ capacity_]; rewrite ?cut_everything by lia; unfold zlength; try done.
  - cbn. rewrite length_take. lia.
  - cbn. rewrite length_app, !length_take, length_drop. lia.
Qed.

Lemma cut_make (v : list A) c (i n : nat) : (i <= n)%nat -> (n <= length v)%nat -> c = zlength v -> zlength v < 2 ^ 63 -> holds (mkBuffer v (Z.of_nat i) (Z.of_nat n) c) (cut v i n).
Proof.
  intros Hi Hn -> Hlt. unfold holds. rewrite cut_everything by done. cbn [buffer_ position_ limit_ capacity_ cut before inside]. unfold zlength in *. rewrite length_app, !length_take, length_drop. split_and!; (done || lia).
Qed.

Lemma holds_cut b z : holds b z -> z = cut (everything z) (length (before z)) (length (before z ++ inside z)).
Proof.
  intros _. destruct z as [l1 l2 l3]. unfold cut, everything. cbn. rewrite length_app. f_equal.
  - by rewrite take_app_length.
  - rewrite drop_app_length. replace (length l1 + length l2 - length l1)%nat with (length l2) by lia. by rewrite take_app_length.
  - rewrite (assoc_L (++)), <- length_app. by rewrite drop_app_length.
Qed.

Lemma range_ok (l1 l2 l3 : list A) : range (l1 ++ l2 ++ l3) (zlength l1) (zlength (l1 ++ l2)) = Ret l2.
Proof.
  unfold range, zlength. rewrite decide_True by (rewrite !length_app; lia). f_equal. rewrite Nat2Z.id, drop_app_length. replace (Z.to_nat _) with (length l2) by (rewrite length_app; lia). by rewrite take_app_length.
Qed.

Lemma copy_ok (l1 l2 l3 xs : list A) : length xs = length l2 -> copy_to (l1 ++ l2 ++ l3) (zlength l1) xs = Ret (l1 ++ xs ++ l3).
Proof.
  intros Hl. unfold copy_to, zlength. rewrite decide_True by (rewrite !length_app; lia). f_equal. rewrite Nat2Z.id, take_app_length. do 2 f_equal. rewrite Hl, (assoc_L (++)), <- length_app. by rewrite drop_app_length.
Qed.

Lemma remaining_ok b z : holds b z -> u64 (limit_ b - position_ b) = zlength (inside z).
Proof.
  intros (_ & Hp & Hl & _ & Hlt). rewrite Hp, Hl, zlength_app. replace (_ - _) with (zlength (inside z)) by lia. apply u64_small. pose proof (zlength_nonneg (inside z)). unfold everything in Hlt. rewrite !zlength_app in Hlt. pose proof (zlength_nonneg (before z)). pose proof (zlength_nonneg (after z)). lia.
Qed.

Lemma has_remaining_ok b z : holds b z -> bool_decide (position_ b < limit_ b) = negb (bool_decide (inside z = [])).
Proof.
  intros (_ & Hp & Hl & _ & _). rewrite Hp, Hl, zlength_app. unfold zlength. destruct (inside z) as [|x l]; cbn [length].
  - rewrite bool_decide_eq_false_2 by lia. by rewrite bool_decide_eq_true_2.
  - rewrite bool_decide_eq_true_2 by lia. by rewrite bool_decide_eq_false_2.
Qed.

(** ** The classes are lawful *)
Definition set_limit_ok (set_limit : Buffer A -> Z -> outcome (Buffer A)) : Prop :=
  forall b n, set_limit b n = if decide (capacity_ b < n) then Throw out_of_range else Ret (mkBuffer (buffer_ b) (Z.min (position_ b) n) n (capacity_ b)).

Lemma limit_first_ok : set_limit_ok limit_first.
Proof. intros b n. unfold limit_first. case_decide; [done|]. cbn. case_decide; unfold at_limit, at_position; cbn; do 2 f_equal; lia. Qed.

Lemma position_first_ok : set_limit_ok position_first.
Proof. intros b n. unfold position_first. case_decide; [done|]. case_decide; unfold at_limit, at_position; cbn; do 2 f_equal; lia. Qed.

Lemma holds_next b z x x' (rest : list A) : holds b z -> inside z = x :: rest ->
  holds (mkBuffer (before z ++ x' :: rest ++ after z) (position_ b + 1) (limit_ b) (capacity_ b)) (mkZipper (before z ++ [x']) rest (after z)).
Proof.
  intros (Hb & Hp & Hl & Hc & Hlt) Hin. unfold holds, everything in *. cbn [before inside after buffer_ position_ limit_ capacity_] in *. rewrite Hin in *. rewrite <- !(assoc_L (++)). cbn [app] in *. rewrite Hp, Hl, Hc. unfold zlength in *. rewrite !length_app in *. cbn [length] in *. rewrite !length_app in *. split_and!; (done || lia).
Qed.

Lemma buffer_put_ok sl b z x y rest : holds b z -> inside z = y :: rest -> let b' := mkBuffer (before z ++ x :: rest ++ after z) (position_ b + 1) (limit_ b) (capacity_ b) in
  put (vector_buffer sl) b x = Ret b' /\ holds b' (mkZipper (before z ++ [x]) rest (after z)).
Proof.
  intros Hh Hin. split; [|by apply (holds_next b z y)]. destruct (Hh) as (Hb & Hp & _). cbn [put vector_buffer]. rewrite (has_remaining_ok b z Hh), Hin. rewrite bool_decide_eq_false_2 by done. cbn [negb].
  rewrite vsetz_lt by (rewrite Hb, Hp; unfold everything, zlength; rewrite Hin, !length_app; cbn [length]; lia). ret_step. rewrite Hb, Hp. unfold everything, zlength. rewrite Nat2Z.id, Hin, insert_app_r_alt by lia. by rewrite Nat.sub_diag.
Qed.

Lemma buffer_get_ok sl b z x rest : holds b z -> inside z = x :: rest -> get (vector_buffer sl) b = Ret (x, at_position b (position_ b + 1)) /\ holds (at_position b (position_ b + 1)) (mkZipper (before z ++ [x]) rest (after z)).
Proof.
  intros Hh Hin. destruct (Hh) as (Hb & Hp & _). split.
  - cbn [get vector_buffer]. rewrite (has_remaining_ok b z Hh), Hin. rewrite bool_decide_eq_false_2 by done. cbn [negb]. rewrite (vgetz_Some _ _ x); [done|rewrite Hp; apply zlength_nonneg|].
    rewrite Hb, Hp. unfold everything, zlength. rewrite Nat2Z.id, Hin. rewrite lookup_app_r by lia. by rewrite Nat.sub_diag.
  - unfold at_position. rewrite Hb. pose proof (holds_next b z x x rest Hh Hin) as H. unfold everything. by rewrite Hin.
Qed.

Lemma compact_ok b z set_limit : holds b z -> exists b', compact (vector_buffer set_limit) b = Ret b' /\ holds b' (mkZipper (inside z) (drop (length (inside z)) (everything z)) []).
Proof.
  intros Hh. destruct (Hh) as (Hb & Hp & Hl & Hc & Hlt). cbn [compact vector_buffer]. rewrite (remaining_ok b z Hh). pose proof (zlength_nonneg (inside z)). pose proof (zlength_nonneg (before z)).
  assert (holds (mkBuffer (inside z ++ drop (length (inside z)) (everything z)) (zlength (inside z)) (capacity_ b) (capacity_ b)) (mkZipper (inside z) (drop (length (inside z)) (everything z)) [])) as Hgoal.
  { assert (zlength (inside z ++ drop (length (inside z)) (everything z)) = zlength (everything z)) as He by (unfold zlength, everything; rewrite !length_app, length_drop, !length_app; lia).
    assert (everything (mkZipper (inside z) (drop (length (inside z)) (everything z)) []) = inside z ++ drop (length (inside z)) (everything z)) as Hz by (unfold everything at 1; cbn [before inside after]; by rewrite app_nil_r).
    unfold holds. rewrite Hz. cbn [buffer_ position_ limit_ capacity_ before inside after]. rewrite He. by rewrite Hc. }
  case_decide as Hd.
  - rewrite Hb, Hp, Hl. assert (range (everything z) (zlength (before z)) (zlength (before z ++ inside z)) = Ret (inside z)) as -> by apply range_ok. ret_step. assert (copy_to (everything z) 0 (inside z) = Ret (inside z ++ drop (length (inside z)) (everything z))) as Hcopy.
    { pose proof (copy_ok [] (take (length (inside z)) (everything z)) (drop (length (inside z)) (everything z)) (inside z)) as Hx. cbn [app] in Hx. rewrite take_drop in Hx. apply Hx. rewrite length_take. unfold everything. rewrite !length_app. lia. }
    rewrite Hcopy. ret_step. by eexists.
  - ret_step. eexists. split; [done|]. assert (buffer_ b = inside z ++ drop (length (inside z)) (everything z)) as ->; [|done]. rewrite Hb. unfold everything. destruct (inside z) as [|x l] eqn:E; [done|]. assert (before z = []) as ->; [|cbn; by rewrite drop_app_length].
    destruct (before z) as [|y l0] eqn:E0; [done|]. exfalso. apply Hd. rewrite Hp. unfold zlength. cbn [length]. lia.
Qed.

Lemma cut_all (l : list A) : cut l 0 (length l) = mkZipper [] l [].
Proof. unfold cut. rewrite take_0, drop_0, Nat.sub_0_r, firstn_all, drop_all. done. Qed.

#[export] Instance vector_buffer_lawful set_limit : set_limit_ok set_limit -> Lawful (vector_buffer set_limit) holds.
Proof.
  intros Hsl b z o Hh Hop. destruct (Hh) as (Hb & Hp & Hl & Hc & Hlt). pose proof (has_remaining_ok b z Hh) as Hrem. destruct o as [| |n| |n| | | | | | |x| |]; cbn [spec_step step op_ok] in *.
  - exists b. cbn. by rewrite Hc.
  - exists b. cbn. by rewrite Hp.
  - cbn [set_position vector_buffer]. rewrite Hl. destruct (decide (zlength (before z ++ inside z) < n)) as [Hd|Hd]; [done|]. ret_step. eexists. split; [done|]. unfold at_position. rewrite Hl. pose proof (cut_holds b z (Z.to_nat n) (length (before z ++ inside z)) Hh) as H. rewrite Z2Nat.id in H by done. unfold zlength in Hd. apply H; [lia|]. unfold everything. rewrite !length_app. lia.
  - exists b. cbn. by rewrite Hl.
  - cbn [vector_buffer]. change (Buffers.set_limit (vector_buffer set_limit)) with set_limit. rewrite Hsl, Hc. destruct (decide (zlength (everything z) < n)) as [Hd|Hd]; [done|]. ret_step. eexists. split; [done|]. rewrite Hp. pose proof (cut_holds b z (length (before z) `min` Z.to_nat n) (Z.to_nat n) Hh) as H. rewrite Hc, Nat2Z.inj_min, Z2Nat.id in H by done. unfold zlength in Hd. apply H; lia.
  - eexists. split; [done|]. cbn. unfold at_limit, at_position. cbn. rewrite Hc. pose proof (cut_holds b z 0 (length (everything z)) Hh) as H. rewrite Hc, cut_all in H. apply H; lia.
  - eexists. split; [done|]. cbn. unfold at_limit, at_position. cbn. rewrite Hp. unfold holds. cbn. unfold everything. cbn. done.
  - eexists. split; [done|]. cbn. unfold at_position. unfold holds, everything in *. cbn. rewrite <- (assoc_L (++)). done.
  - exists b. cbn. by rewrite (remaining_ok b z Hh).
  - exists b. cbn. by rewrite Hrem.
  - destruct (inside z) as [|x rest] eqn:Hin; [cbn [get vector_buffer]; rewrite Hrem; by rewrite bool_decide_eq_true_2|]. destruct (buffer_get_ok set_limit b z x rest Hh Hin) as [-> Hn]. ret_step. by eexists.
  - destruct (inside z) as [|y rest] eqn:Hin; [cbn [put vector_buffer]; rewrite Hrem; by rewrite bool_decide_eq_true_2|]. destruct (buffer_put_ok set_limit b z x y rest Hh Hin) as [-> Hn]. ret_step. by eexists.
  - destruct (compact_ok b z set_limit Hh) as (b' & -> & Hh'). ret_step. by eexists.
  - cbn [getRemaining vector_buffer]. assert (limit_ b <= position_ b <-> inside z = []) as Hiff by (rewrite Hp, Hl, zlength_app; unfold zlength; destruct (inside z); cbn [length]; split; (done || lia)). destruct (decide (limit_ b <= position_ b)) as [Hd|Hd].
    + apply Hiff in Hd. ret_step. exists b. by rewrite Hd.
    + rewrite Hb, Hp, Hl. assert (range (everything z) (zlength (before z)) (zlength (before z ++ inside z)) = Ret (inside z)) as -> by apply range_ok. ret_step. by exists b.
Qed.

Lemma all_lawful : Forall (fun ops => Lawful ops holds) all_buffers.
Proof. repeat constructor; apply vector_buffer_lawful; (apply limit_first_ok || apply position_first_ok). Qed.

(** ** Several elements at once *)
Fixpoint put_each (ops : IBuffer A (Buffer A)) b xs : outcome (Buffer A) :=
  match xs with
  | [] => Ret b
  | x :: xs => b ← put ops b x; put_each ops b xs
  end.

Fixpoint get_each (ops : IBuffer A (Buffer A)) b (n : nat) : outcome (list A * Buffer A) :=
  match n with
  | O => Ret ([], b)
  | S n => '(x, b) ← get ops b; '(xs, b) ← get_each ops b n; Ret (x :: xs, b)
  end.

Lemma inside_bound b z : holds b z -> zlength (before z) + zlength (inside z) < 2 ^ 63.
Proof. intros (_ & _ & _ & _ & Hlt). unfold everything in Hlt. rewrite !zlength_app in Hlt. pose proof (zlength_nonneg (after z)). lia. Qed.

Lemma fits_remaining_ok b z n : holds b z -> fits_remaining b n = bool_decide (n <= zlength (inside z)).
Proof. intros Hh. unfold fits_remaining. rewrite (remaining_ok b z Hh). rewrite <- bool_decide_not. apply bool_decide_ext. lia. Qed.

(** The sum does not wrap for a size of a vector. *)
Lemma fits_sum_ok b z n : holds b z -> 0 <= n < 2 ^ 63 -> fits_sum b n = bool_decide (n <= zlength (inside z)).
Proof.
  intros Hh Hn. pose proof (inside_bound b z Hh). destruct (Hh) as (_ & Hp & Hl & _ & _). unfold fits_sum. pose proof (zlength_nonneg (inside z)). pose proof (zlength_nonneg (before z)). rewrite u64_small by lia. rewrite Hp, Hl, zlength_app. rewrite <- bool_decide_not. apply bool_decide_ext. lia.
Qed.

Lemma put_each_ok sl xs : forall b z, holds b z -> zlength xs <= zlength (inside z) -> put_each (vector_buffer sl) b xs = Ret (mkBuffer (before z ++ xs ++ drop (length xs) (inside z) ++ after z) (zlength (before z) + zlength xs) (limit_ b) (capacity_ b)).
Proof.
  induction xs as [|x xs IH]; intros b z Hh Hle; cbn [put_each].
  - destruct (Hh) as (Hb & Hp & _). destruct b as [v p l c]. cbn in *. subst. unfold everything, zlength. cbn. f_equal. f_equal. lia.
  - destruct (inside z) as [|y rest] eqn:Hin; [unfold zlength in Hle; cbn [length] in Hle; lia|]. destruct (buffer_put_ok sl b z x y rest Hh Hin) as [-> Hn]. ret_step.
    rewrite (IH _ _ Hn) by (cbn [inside]; unfold zlength in *; cbn [length] in Hle; lia). cbn [before inside after limit_ capacity_ length drop]. rewrite <- !(assoc_L (++)). do 2 f_equal. rewrite zlength_app. unfold zlength. cbn [length]. lia.
Qed.

Lemma get_each_ok sl (n : nat) : forall b z, holds b z -> (n <= length (inside z))%nat -> get_each (vector_buffer sl) b n = Ret (take n (inside z), at_position b (zlength (before z) + Z.of_nat n)).
Proof.
  induction n as [|n IH]; intros b z Hh Hle; cbn [get_each].
  - destruct (Hh) as (_ & Hp & _). destruct b as [v p l c]. cbn in Hp. subst. unfold at_position. cbn. do 3 f_equal. lia.
  - destruct (inside z) as [|x rest] eqn:Hin; [cbn in Hle; lia|]. destruct (buffer_get_ok sl b z x rest Hh Hin) as [-> Hn]. ret_step. rewrite (IH _ _ Hn) by (cbn in *; lia). ret_step. cbn [before inside take]. do 2 f_equal. unfold at_position. cbn. f_equal. rewrite zlength_app. unfold zlength. cbn [length]. lia.
Qed.

Lemma put_all_ok fits b z xs : holds b z -> fits b (zlength xs) = bool_decide (zlength xs <= zlength (inside z)) ->
  put_all fits b xs = if decide (zlength xs <= zlength (inside z)) then Ret (mkBuffer (before z ++ xs ++ drop (length xs) (inside z) ++ after z) (zlength (before z) + zlength xs) (limit_ b) (capacity_ b)) else Throw overflow_error.
Proof.
  intros Hh Hf. destruct (Hh) as (Hb & Hp & _). pose proof (inside_bound b z Hh). pose proof (zlength_nonneg (before z)). pose proof (zlength_nonneg (inside z)). unfold put_all. destruct (decide (xs = [])) as [->|Hne].
  - rewrite decide_True by (unfold zlength; cbn [length]; lia). destruct b as [v p l c]. cbn in *. subst. unfold everything, zlength. cbn. do 2 f_equal. lia.
  - change (Z.of_nat (length xs)) with (zlength xs). rewrite Hf. destruct (decide (zlength xs <= zlength (inside z))) as [Hle|Hgt]; [rewrite bool_decide_eq_true_2 by done|rewrite bool_decide_eq_false_2 by done; done]. cbn [negb].
    assert (copy_to (buffer_ b) (position_ b) xs = Ret (before z ++ xs ++ drop (length xs) (inside z) ++ after z)) as ->.
    { rewrite Hb, Hp. unfold everything. rewrite <- (take_drop (length xs) (inside z)) at 1. rewrite <- (assoc_L (++)). apply copy_ok. rewrite length_take. unfold zlength in Hle. lia. }
    ret_step. rewrite Hp, u64_small by (pose proof (zlength_nonneg xs); lia). done.
Qed.

Lemma get_n_ok fits b z n : holds b z -> 0 <= n -> fits b n = bool_decide (n <= zlength (inside z)) ->
  get_n fits b n = if decide (n <= zlength (inside z)) then Ret (take (Z.to_nat n) (inside z), at_position b (zlength (before z) + n)) else Throw underflow_error.
Proof.
  intros Hh Hn Hf. destruct (Hh) as (Hb & Hp & _). pose proof (inside_bound b z Hh). pose proof (zlength_nonneg (before z)). pose proof (zlength_nonneg (inside z)). unfold get_n. destruct (decide (n = 0)) as [->|Hne].
  - rewrite decide_True by done. cbn [Z.to_nat take]. rewrite Z.add_0_r, <- Hp. by destruct b.
  - rewrite Hf. destruct (decide (n <= zlength (inside z))) as [Hle|Hgt]; [rewrite bool_decide_eq_true_2 by done|rewrite bool_decide_eq_false_2 by done; done]. cbn [negb]. rewrite Hp, u64_small by lia.
    assert (range (buffer_ b) (zlength (before z)) (zlength (before z) + n) = Ret (take (Z.to_nat n) (inside z))) as ->; [|done]. rewrite Hb. unfold everything. rewrite <- (take_drop (Z.to_nat n) (inside z)) at 1. rewrite <- (assoc_L (++)).
    replace (zlength (before z) + n) with (zlength (before z ++ take (Z.to_nat n) (inside z))) by (rewrite zlength_app; unfold zlength in *; rewrite length_take; lia). apply range_ok.
Qed.

Lemma new_holds n : 0 <= n < 2 ^ 63 -> holds (buffer_new n) (mkZipper [] (replicate (Z.to_nat n) zero) []).
Proof. intros Hn. unfold holds, buffer_new, everything, zlength. cbn. rewrite app_nil_r, length_replicate. split_and!; (done || lia). Qed.

(** What a call of several elements leaves. *)
Lemma put_many_holds b z xs : holds b z -> (length xs <= length (inside z))%nat ->
  holds (mkBuffer (before z ++ xs ++ drop (length xs) (inside z) ++ after z) (zlength (before z) + zlength xs) (limit_ b) (capacity_ b)) (mkZipper (before z ++ xs) (drop (length xs) (inside z)) (after z)).
Proof.
  intros (_ & _ & Hl & Hc & Hlt) Hle. unfold holds, everything, zlength in *. cbn [buffer_ position_ limit_ capacity_ before inside after]. rewrite Hl, Hc. rewrite !length_app in *. rewrite length_drop. rewrite <- !(assoc_L (++)). split_and!; (done || lia).
Qed.

Lemma get_many_holds b z n : holds b z -> 0 <= n -> (Z.to_nat n <= length (inside z))%nat ->
  holds (at_position b (zlength (before z) + n)) (mkZipper (before z ++ take (Z.to_nat n) (inside z)) (drop (Z.to_nat n) (inside z)) (after z)).
Proof.
  intros (Hb & _ & Hl & Hc & Hlt) Hn Hle. unfold holds, at_position, everything, zlength in *. cbn [buffer_ position_ limit_ capacity_ before inside after]. rewrite Hb, Hl, Hc. rewrite !length_app in *. rewrite length_take, length_drop.
  rewrite <- (take_drop (Z.to_nat n) (inside z)) at 1. rewrite <- !(assoc_L (++)). split_and!; (done || lia).
Qed.

Lemma get_at_ok b z i : holds b z -> 0 <= i -> get_at b i = match (before z ++ inside z) !! Z.to_nat i with Some x => Ret x | None => Throw out_of_range end.
Proof.
  intros (Hb & _ & Hl & _ & _) Hi. unfold get_at. rewrite Hl. unfold zlength. destruct ((before z ++ inside z) !! Z.to_nat i) as [x|] eqn:Hx.
  - apply lookup_lt_Some in Hx as Hlt. rewrite decide_False by lia. apply vgetz_Some; [done|]. rewrite Hb. unfold everything. rewrite (assoc_L (++)). by apply lookup_app_l_Some.
  - apply lookup_ge_None in Hx. by rewrite decide_True by lia.
Qed.

Lemma put_at_ok b z i x : holds b z -> 0 <= i -> if decide (Z.to_nat i < length (before z ++ inside z))%nat
  then exists b', put_at b i x = Ret b' /\ holds b' (cut (<[Z.to_nat i := x]> (everything z)) (length (before z)) (length (before z ++ inside z))) else put_at b i x = Throw out_of_range.
Proof.
  intros (Hb & Hp & Hl & Hc & Hlt) Hi. unfold put_at. rewrite Hl. unfold zlength in *. case_decide as Hd; [rewrite decide_False by lia|by rewrite decide_True by lia].
  assert (length (before z ++ inside z) <= length (everything z))%nat as Hle by (unfold everything; rewrite !length_app; lia). rewrite vsetz_lt by (rewrite Hb; lia). ret_step. eexists. split; [done|].
  rewrite Hb, Hp, Hc. apply cut_make; [rewrite length_app; lia|by rewrite length_insert|unfold zlength; by rewrite length_insert|unfold zlength; by rewrite length_insert].
Qed.

(** The guards of the classes agree below [2 ^ 63]. *)
Definition guard (fits : Buffer A -> Z -> bool) : Prop := forall b z n, holds b z -> 0 <= n < 2 ^ 63 -> fits b n = bool_decide (n <= zlength (inside z)).

Lemma fits_remaining_guard : guard fits_remaining.
Proof. intros b z n Hh _. by apply fits_remaining_ok. Qed.

Lemma fits_sum_guard : guard fits_sum.
Proof. intros b z n Hh Hn. by apply fits_sum_ok. Qed.

#[local] Hint Resolve fits_remaining_guard fits_sum_guard : core.

Lemma put_many_fits c pm : c ∈ all_classes -> put_many c = Some pm -> exists fits, pm = put_all fits /\ guard fits.
Proof. unfold all_classes. rewrite !elem_of_cons, elem_of_nil. intros [-> |[-> |[-> |[-> |[-> |[-> |[-> |[]]]]]]]]; intros [= <-]; eexists; (split; [reflexivity|]); auto. Qed.

Lemma get_many_fits c gm : c ∈ all_classes -> get_many c = Some gm -> exists fits, gm = get_n fits /\ guard fits.
Proof. unfold all_classes. rewrite !elem_of_cons, elem_of_nil. intros [-> |[-> |[-> |[-> |[-> |[-> |[-> |[]]]]]]]]; intros [= <-]; eexists; (split; [reflexivity|]); auto. Qed.

Lemma interface_lawful c : c ∈ all_classes -> Lawful (interface c) holds.
Proof. intros Hc. assert (interface c ∈ all_buffers) as Hi by (change all_buffers with (interface <$> all_classes); by apply list_elem_of_fmap_2). by apply (proj1 (Forall_forall _ _) all_lawful). Qed.

Lemma call_step_ok c b z (o : call) : c ∈ all_classes -> holds b z -> offers c o -> call_ok o ->
  match spec_call z o with
  | Ret (z', r) => exists b', call_step c b o = Ret (b', r) /\ holds b' z'
  | Throw e => call_step c b o = Throw e
  | Undef | NoFuel => False
  end.
Proof.
  intros Hc Hh Ho Hok. pose proof (interface_lawful c Hc) as HL. destruct o as [o|xs|n|i|i x]; cbn [spec_call offers call_ok] in *.
  - pose proof (lawful_step b z o Hh Hok) as Hs. cbn [call_step]. exact Hs.
  - destruct Ho as [pm Hpm]. destruct (put_many_fits c pm Hc Hpm) as (fits & -> & Hfits). cbn [call_step]. rewrite Hpm, (put_all_ok fits b z xs Hh) by (apply Hfits; [done|pose proof (zlength_nonneg xs); lia]).
    unfold zlength. case_decide as Hd; [rewrite decide_True by lia|by rewrite decide_False by lia]. ret_step. eexists. split; [done|]. by apply put_many_holds.
  - destruct Ho as [gm Hgm]. destruct (get_many_fits c gm Hc Hgm) as (fits & -> & Hfits). assert (call_step c b (GetMany n) = ('(xs, b) ← get_n fits b n; Ret (b, Elems xs))) as -> by (unfold call_step; rewrite Hgm; by destruct (put_many c)).
    rewrite (get_n_ok fits b z n Hh) by (try apply Hfits; (done || lia)). unfold zlength. case_decide as Hd; [rewrite decide_True by lia|by rewrite decide_False by lia]. ret_step. eexists. split; [done|]. apply get_many_holds; (done || lia).
  - assert (call_step c b (GetAt i) = (x ← get_at b i; Ret (b, Elem x))) as -> by (unfold call_step; rewrite Ho; by destruct (put_many c), (get_many c)).
    rewrite (get_at_ok b z i Hh Hok). destruct (_ !! _) as [x|]; [|done]. ret_step. by exists b.
  - assert (call_step c b (PutAt i x) = (b ← put_at b i x; Ret (b, Done))) as -> by (unfold call_step; rewrite Ho; by destruct (put_many c), (get_many c)).
    pose proof (put_at_ok b z i x Hh Hok) as Hp. case_decide; [|by rewrite Hp]. destruct Hp as (b' & -> & Hh'). ret_step. by exists b'.
Qed.

Lemma calls_trace c os : c ∈ all_classes -> Forall (fun o => offers c o /\ call_ok o) os -> forall b z, holds b z -> exists b' z' rs, trace (call_step c) b os = Ret (b', rs) /\ trace spec_call z os = Ret (z', rs) /\ holds b' z'.
Proof.
  intros Hc. induction 1 as [|o os [Ho Hok] _ IH]; intros b z Hh; cbn [trace]; [eauto 10|]. pose proof (call_step_ok c b z o Hc Hh Ho Hok) as Hs. destruct (spec_call z o) as [[z1 r]|e| |]; try done.
  - destruct Hs as (b1 & -> & Hh1). destruct (IH b1 z1 Hh1) as (b' & z' & rs & -> & -> & Hh'). ret_step. eauto 10.
  - rewrite Hs. destruct (IH b z Hh) as (b' & z' & rs & -> & -> & Hh'). ret_step. eauto 10.
Qed.

(** C33: every class does what the contract says: any sequence of its calls on a new buffer, those of several elements and
    of elements at an index included, observes the zipper, overflow, underflow and range errors included, and never leaves
    the vector.  A call asks for less than [2 ^ 63] elements.  [ShortBuffer::wrap] and [data] are not calls of the sequence. *)
Theorem buffers_refine n c os : 0 <= n < 2 ^ 63 -> c ∈ all_classes -> Forall (fun o => offers c o /\ call_ok o) os ->
  exists b z rs, trace (call_step c) (buffer_new n) os = Ret (b, rs) /\ trace spec_call (mkZipper [] (replicate (Z.to_nat n) zero) []) os = Ret (z, rs) /\ holds b z.
Proof. intros Hn Hc Hos. by apply calls_trace, new_holds. Qed.

(** the bulk operations of the classes equal their operations on single elements, except that they
    change nothing when there is not enough room or data. *)
Theorem buffers_bulk_equivalent b z xs n : holds b z -> zlength xs < 2 ^ 63 -> 0 <= n < 2 ^ 63 ->
  (forall put_many ops, In (put_many, ops) [(ByteBuffer_put_all, ByteBuffer); (CharBuffer_put_string, CharBuffer); (DoubleBuffer_put_all, DoubleBuffer); (FloatBuffer_put_all, FloatBuffer)] ->
    put_many b xs = if decide (zlength xs <= remaining ops b) then put_each ops b xs else Throw overflow_error) /\
  (forall get_many ops, In (get_many, ops) [(ByteBuffer_get_n, ByteBuffer); (FloatBuffer_get_n, FloatBuffer)] ->
    get_many b n = if decide (n <= remaining ops b) then get_each ops b (Z.to_nat n) else Throw underflow_error).
Proof.
  intros Hh Hxs Hn. pose proof (zlength_nonneg xs) as Hx0. split.
  - assert (forall fits sl, fits b (zlength xs) = bool_decide (zlength xs <= zlength (inside z)) -> put_all fits b xs = if decide (zlength xs <= remaining (vector_buffer sl) b) then put_each (vector_buffer sl) b xs else Throw overflow_error) as Hput.
    { intros fits sl Hf. rewrite (put_all_ok fits b z xs Hh Hf). change (remaining (vector_buffer sl) b) with (u64 (limit_ b - position_ b)). rewrite (remaining_ok b z Hh). destruct (decide _) as [Hle|]; [|done]. symmetry. by apply put_each_ok. }
    intros put_many ops [H|[H|[H|[H|[]]]]]; injection H as <- <-; apply Hput; (by apply fits_remaining_ok) || (by apply fits_sum_ok).
  - assert (forall fits sl, fits b n = bool_decide (n <= zlength (inside z)) -> get_n fits b n = if decide (n <= remaining (vector_buffer sl) b) then get_each (vector_buffer sl) b (Z.to_nat n) else Throw underflow_error) as Hget.
    { intros fits sl Hf. rewrite (get_n_ok fits b z n Hh ltac:(lia) Hf). change (remaining (vector_buffer sl) b) with (u64 (limit_ b - position_ b)). rewrite (remaining_ok b z Hh). destruct (decide _) as [Hle|]; [|done]. rewrite (get_each_ok sl (Z.to_nat n) b z Hh) by (unfold zlength in Hle; lia). rewrite Z2Nat.id by lia. done. }
    intros get_many ops [H|[H|[]]]; injection H as <- <-; apply Hget; (by apply fits_remaining_ok) || (by apply fits_sum_ok).
Qed.

(** The bound on [n] is needed: [position_ + length > limit_] wraps for the sizes just below [2 ^ 64]. *)
Theorem float_get_n_wraps b z k : holds b z -> 0 < k <= position_ b -> FloatBuffer_get_n b (2 ^ 64 - k) = Undef.
Proof.
  intros Hh Hk. pose proof (inside_bound b z Hh) as Hb. destruct (Hh) as (_ & Hp & Hl & _ & _). pose proof (zlength_nonneg (inside z)). rewrite zlength_app in Hl. unfold FloatBuffer_get_n, get_n, fits_sum.
  assert (u64 (position_ b + (2 ^ 64 - k)) = position_ b - k) as ->.
  { unfold u64. replace (position_ b + (2 ^ 64 - k)) with (position_ b - k + 1 * 2 ^ 64) by lia. rewrite Z_mod_plus_full. apply Z.mod_small. lia. }
  rewrite decide_False by lia. rewrite bool_decide_eq_false_2 by lia. cbn [negb]. unfold range. rewrite decide_False by lia. done.
Qed.

(** What is put is got back after a [flip]. *)
Lemma buffer_round_trip n xs : zlength xs <= n < 2 ^ 63 -> (b ← ByteBuffer_put_all (buffer_new n) xs; ByteBuffer_get_n (flip ByteBuffer b) (zlength xs)) = Ret (xs, mkBuffer (xs ++ replicate (Z.to_nat n - length xs) zero) (zlength xs) (zlength xs) n).
Proof.
  intros Hn. pose proof (zlength_nonneg xs) as H0. pose proof (new_holds n ltac:(lia)) as Hh. unfold ByteBuffer_put_all. rewrite (put_all_ok _ _ _ xs Hh) by (by apply fits_remaining_ok). cbn [inside before after]. rewrite decide_True by (unfold zlength in *; rewrite length_replicate; lia). ret_step. rewrite drop_replicate. cbn [app limit_ capacity_ buffer_new].
  set (v := xs ++ replicate (Z.to_nat n - length xs) zero ++ []). assert (holds (flip ByteBuffer (mkBuffer v (zlength [] + zlength xs) n n)) (mkZipper [] xs (replicate (Z.to_nat n - length xs) zero))) as Hf.
  { unfold v. rewrite app_nil_r. unfold holds, everything. cbn. unfold zlength in *. rewrite length_app, length_replicate. split_and!; (done || lia). }
  unfold ByteBuffer_get_n. rewrite (get_n_ok _ _ _ (zlength xs) Hf H0) by (by apply fits_remaining_ok). cbn [inside before]. rewrite decide_True by done. unfold zlength. rewrite Nat2Z.id, firstn_all. cbn. unfold at_position, v. cbn. by rewrite app_nil_r.
Qed.

Lemma short_wrap_ok data n : 0 <= n < 2 ^ 63 -> n <= zlength data -> exists b, ShortBuffer_wrap (Some data) n = Ret b /\ holds b (mkZipper [] (take (Z.to_nat n) data) []).
Proof.
  intros Hn Hd. unfold ShortBuffer_wrap. case_decide as H0.
  - unfold zlength in Hd. unfold range. rewrite decide_True by lia. ret_step. rewrite Z.sub_0_r, drop_0. change (buffer_ (buffer_new n)) with (replicate (Z.to_nat n) zero). assert (copy_to (replicate (Z.to_nat n) zero) 0 (take (Z.to_nat n) data) = Ret (take (Z.to_nat n) data)) as ->.
    { pose proof (copy_ok [] (replicate (Z.to_nat n) zero) [] (take (Z.to_nat n) data)) as H. cbn [app] in H. rewrite !app_nil_r in H. apply H. rewrite length_take, length_replicate. lia. }
    ret_step. eexists. split; [done|]. unfold holds, everything, zlength. cbn. rewrite app_nil_r, length_take. split_and!; (done || lia).
  - assert (n = 0) as -> by lia. eexists. split; [done|]. by apply (new_holds 0).
Qed.

(** ** A client of the interface: a channel from a writer to a reader *)
Section channel.
Context {B : Type} (ops : IBuffer A B) (R : B -> Zipper -> Prop) `{!Lawful ops R}.

Fixpoint fill (s : B) xs : outcome (B * list A) :=
  match xs with
  | [] => Ret (s, [])
  | x :: rest => if hasRemaining ops s then s ← put ops s x; fill s rest else Ret (s, xs)
  end.

Fixpoint drain (n : nat) (s : B) : outcome (list A * B) :=
  match n with
  | O => Ret ([], s)
  | S n => if hasRemaining ops s then '(x, s) ← get ops s; '(xs, s) ← drain n s; Ret (x :: xs, s) else Ret ([], s)
  end.

(** Write what fits, [flip], read at most so many, [compact]. *)
Fixpoint channel (rounds : list nat) (s : B) xs : outcome (list A * B * list A) :=
  match rounds with
  | [] => Ret ([], s, xs)
  | n :: rounds =>
    '(s, xs) ← fill s xs;
    '(out, s) ← drain n (flip ops s);
    s ← compact ops s;
    '(out', s, xs) ← channel rounds s xs; Ret (out ++ out', s, xs)
  end.

Lemma lawful_has_remaining s z : R s z -> hasRemaining ops s = negb (bool_decide (inside z = [])).
Proof. intros Hr. pose proof (lawful_step s z HasRemaining Hr I) as Hs. cbn in Hs. destruct Hs as (s' & [= _ ->] & _). done. Qed.

Lemma lawful_put s z x y rest : R s z -> inside z = y :: rest -> exists s', put ops s x = Ret s' /\ R s' (mkZipper (before z ++ [x]) rest (after z)).
Proof. intros Hr Hi. pose proof (lawful_step s z (Put x) Hr I) as Hs. cbn [spec_step step] in Hs. rewrite Hi in Hs. destruct Hs as (s' & Hs & Hr'). apply bind_Ret_inv in Hs as (s1 & Hs & [= ->]). by exists s'. Qed.

Lemma lawful_get s z x rest : R s z -> inside z = x :: rest -> exists s', get ops s = Ret (x, s') /\ R s' (mkZipper (before z ++ [x]) rest (after z)).
Proof. intros Hr Hi. pose proof (lawful_step s z Get Hr I) as Hs. cbn [spec_step step] in Hs. rewrite Hi in Hs. destruct Hs as (s' & Hs & Hr'). apply bind_Ret_inv in Hs as ([x1 s1] & Hs & [= -> ->]). by exists s'. Qed.

Lemma channel_fill_ok xs : forall s z, R s z -> exists s' rest written free, fill s xs = Ret (s', rest) /\ xs = written ++ rest /\ R s' (mkZipper (before z ++ written) free (after z)).
Proof.
  induction xs as [|x xs IH]; intros s z Hr; cbn [fill]; [exists s, [], [], (inside z); rewrite !app_nil_r; split; [done|]; split; [done|]; by destruct z|]. rewrite (lawful_has_remaining s z Hr). destruct (inside z) as [|y rest] eqn:Hi.
  - rewrite bool_decide_eq_true_2 by done. exists s, (x :: xs), [], []. destruct z as [l1 l2 l3]. cbn in *. subst. rewrite !app_nil_r. auto.
  - rewrite bool_decide_eq_false_2 by done. destruct (lawful_put s z x y rest Hr Hi) as (s1 & -> & Hr1). ret_step. destruct (IH s1 _ Hr1) as (s' & rest' & written & free & -> & -> & Hr'). exists s', rest', (x :: written), free. cbn [before after] in Hr'. rewrite <- (assoc_L (++)) in Hr'. done.
Qed.

Lemma channel_drain_ok (n : nat) : forall s z, R s z -> exists out s' left, drain n s = Ret (out, s') /\ inside z = out ++ left /\ R s' (mkZipper (before z ++ out) left (after z)).
Proof.
  induction n as [|n IH]; intros s z Hr; cbn [drain]; [exists [], s, (inside z); rewrite app_nil_r; split; [done|]; split; [done|]; by destruct z|]. rewrite (lawful_has_remaining s z Hr). destruct (inside z) as [|x rest] eqn:Hi.
  - rewrite bool_decide_eq_true_2 by done. exists [], s, []. destruct z as [l1 l2 l3]. cbn in *. subst. rewrite !app_nil_r. auto.
  - rewrite bool_decide_eq_false_2 by done. destruct (lawful_get s z x rest Hr Hi) as (s1 & -> & Hr1). ret_step. destruct (IH s1 _ Hr1) as (out & s' & left & -> & Hl & Hr'). ret_step. exists (x :: out), s', left. cbn [inside before after] in *. subst rest. rewrite <- (assoc_L (++)) in Hr'. done.
Qed.

(** The reader gets what was written, in order; the rest is pending in the buffer or not yet written. *)
Theorem channel_in_order rounds : forall s z xs, R s z -> exists out s' z' rest, channel rounds s xs = Ret (out, s', rest) /\ R s' z' /\ out ++ before z' ++ rest = before z ++ xs.
Proof.
  induction rounds as [|n rounds IH]; intros s z xs Hr; cbn [channel]; [by exists [], s, z, xs|]. destruct (channel_fill_ok xs s z Hr) as (s1 & rest1 & written & free & -> & -> & Hr1). ret_step.
  pose proof (lawful_step s1 _ Flip Hr1 I) as Hf. cbn in Hf. destruct Hf as (s2 & [= <-] & Hr2). destruct (channel_drain_ok n _ _ Hr2) as (out & s3 & left & -> & Hl & Hr3). ret_step. cbn [inside before after] in *.
  pose proof (lawful_step s3 _ Compact Hr3 I) as Hc. cbn [spec_step step inside] in Hc. destruct Hc as (s4 & Hc & Hr4). apply bind_Ret_inv in Hc as (s5 & -> & [= ->]). ret_step.
  destruct (IH s4 _ rest1 Hr4) as (out' & s' & z' & rest & -> & Hr' & Heq). ret_step. exists (out ++ out'), s', z', rest. split; [done|]. split; [done|]. cbn [before] in Heq. rewrite <- (assoc_L (++)), Heq. by rewrite (assoc_L (++)), <- Hl, <- (assoc_L (++)).
Qed.
End channel.
End classes.

(** ** Buffers of four elements *)
Definition buffer_ops : list (op (A := Z)) :=
  [Put 7; Put 8; Flip; Get; Compact; Put 9; Flip; GetRemaining; SetLimit 5; SetPosition 3; Get; Get; Get; Remaining; Clear; Limit].

Definition float_calls : list (call (A := Z)) := (Single <$> buffer_ops) ++ [PutMany [1; 2; 3]; PutMany [4; 5]; Single Flip; GetMany 2; GetMany 2; Single Get].

Definition int_calls : list (call (A := Z)) := [Single (Put 1); Single (Put 2); Single Flip; GetAt 1; GetAt 2; PutAt 0 5; PutAt 2 6; Single GetRemaining].

Lemma buffers_refine_witness :
  let float_class := mkClass FloatBuffer (Some FloatBuffer_put_all) (Some FloatBuffer_get_n) false in
  let int_class := mkClass IntBuffer None None true in
  (exists b, trace (call_step float_class) (buffer_new 0 4) float_calls = Ret (b, [inl Done; inl Done; inl Done; inl (Elem 7); inl Done; inl Done; inl Done; inl (Elems [8; 9]);
    inr out_of_range; inr out_of_range; inl (Elem 8); inl (Elem 9); inr underflow_error; inl (Size 0); inl Done; inl (Size 4);
    inl Done; inr overflow_error; inl Done; inl (Elems [1; 2]); inr underflow_error; inl (Elem 3)])) /\
  (exists b, trace (call_step int_class) (buffer_new 0 4) int_calls = Ret (b, [inl Done; inl Done; inl Done; inl (Elem 2); inr out_of_range; inl Done; inr out_of_range; inl (Elems [5; 2])])) /\
  (exists b z rs, trace (call_step float_class) (buffer_new 0 4) float_calls = Ret (b, rs) /\ trace spec_call (mkZipper [] (replicate 4 0) []) float_calls = Ret (z, rs) /\ holds b z) /\
  (exists b z rs, trace (call_step int_class) (buffer_new 0 4) int_calls = Ret (b, rs) /\ trace spec_call (mkZipper [] (replicate 4 0) []) int_calls = Ret (z, rs) /\ holds b z).
Proof.
  cbv zeta. split; [eexists; vm_compute; reflexivity|]. split; [eexists; vm_compute; reflexivity|]. split.
  - apply (buffers_refine 0 4 (mkClass FloatBuffer (Some FloatBuffer_put_all) (Some FloatBuffer_get_n) false) float_calls); [lia|unfold all_classes; do 3 right; left|]. repeat constructor; (discriminate || (eexists; reflexivity)).
  - apply (buffers_refine 0 4 (mkClass IntBuffer None None true) int_calls); [lia|unfold all_classes; do 4 right; left|]. repeat constructor; discriminate.
Defined.

Lemma buffers_bulk_equivalent_witness :
  (forall put_many ops, In (put_many, ops) [(ByteBuffer_put_all, ByteBuffer); (CharBuffer_put_string, CharBuffer); (DoubleBuffer_put_all, DoubleBuffer); (FloatBuffer_put_all, FloatBuffer)] ->
    put_many (buffer_new 0 4) [1; 2] = if decide (zlength [1; 2] <= remaining ops (buffer_new 0 4)) then put_each ops (buffer_new 0 4) [1; 2] else Throw overflow_error) /\
  (forall get_many ops, In (get_many, ops) [(ByteBuffer_get_n, ByteBuffer); (FloatBuffer_get_n, FloatBuffer)] ->
    get_many (buffer_new 0 4) 5 = if decide (5 <= remaining ops (buffer_new 0 4)) then get_each ops (buffer_new 0 4) (Z.to_nat 5) else Throw underflow_error).
Proof. apply (buffers_bulk_equivalent (buffer_new 0 4) (mkZipper [] (replicate 4 0) [])); [apply (new_holds 0 4); lia|vm_compute; reflexivity|lia]. Defined.

(** One element read, and the sizes just below [2 ^ 64]. *)
Lemma float_get_n_wraps_witness : exists b, get FloatBuffer (buffer_new 0 4) = Ret (0, b) /\ FloatBuffer_get_n b (2 ^ 64 - 1) = Undef /\ ByteBuffer_get_n b (2 ^ 64 - 1) = Throw underflow_error.
Proof.
  exists (mkBuffer [0; 0; 0; 0] 1 4 4). split; [vm_compute; reflexivity|]. split; [|vm_compute; reflexivity].
  apply (float_get_n_wraps _ (mkZipper [0] [0; 0; 0] [])); [split_and!; vm_compute; reflexivity|cbn; lia].
Defined.
