(* ===== verification/OutputStream.v ===== *)
(** * Byte output streams ([io/writer]: AbstractOutputStream, ByteArrayOutputStream, FilterOutputStream, BufferedOutputStream)

    [AbstractOutputStream] is a class of operations; its laws say that a stream is the
    sequence of the bytes it has accepted.  [ByteArrayOutputStream] is a source of the laws;
    [FilterOutputStream] and [BufferedOutputStream] are proved lawful over any lawful stream, the second
    except for [write] of a whole vector, which it inherits and which overtakes the buffer.

    A method leaves its object also when it throws: its result is the object and the
    exception, if any.  Bytes are integers, sizes natural numbers: sums of two sizes of
    vectors do not wrap. *)

From S2P Require Import Prelude Refinement.

(** The object after a call, and what the call threw. *)
Abbreviation res St := (outcome (St * option exn)%type).

Definition ok {St} (s : St) : res St := Ret (s, None).
Definition throws {St} (s : St) (e : exn) : res St := Ret (s, Some e).

(** A call on a member object; [wrap] puts it back when the call throws. *)
Definition call {St D} (m : res St) (wrap : St -> D) (k : St -> res D) : res D :=
  '(s, x) ← m; match x with None => k s | Some e => throws (wrap s) e end.

(** [catch (...)] *)
Definition ignoring {St} (m : res St) (k : St -> res St) : res St := '(s, _) ← m; k s.

(** ** [class AbstractOutputStream] *)
Class AbstractOutputStream (St : Type) := {
  os_write : St -> Z -> res St;
  os_write_vector : St -> list Z -> res St;
  os_write_range : St -> list Z -> nat -> nat -> res St;
  (** A pointer is null or the bytes from it on. *)
  os_write_ptr : St -> option (list Z) -> nat -> res St;
  os_flush : St -> res St;
  os_close : St -> res St;
  os_isClosed : St -> bool;
}.

Definition bad_range (data : list Z) (offset len : nat) : bool := bool_decide (length data < offset \/ length data - offset < len).

(** The bytes a range denotes. *)
Definition bytes_of (data : list Z) (offset len : nat) : list Z := take len (drop offset data).

Section defaults.
Context {St : Type} (write : St -> Z -> res St) (write_range : St -> list Z -> nat -> nat -> res St).

Definition default_write_vector (s : St) (buffer : list Z) : res St :=
  if decide (buffer = []) then ok s else write_range s buffer 0 (length buffer).

Fixpoint write_loop (s : St) (buffer : list Z) (offset i n : nat) : res St :=
  match n with
  | O => ok s
  | S n => b ← vget buffer (offset + i); call (write s b) id (fun s => write_loop s buffer offset (i + 1) n)
  end.
Definition default_write_range (s : St) (buffer : list Z) (offset len : nat) : res St :=
  if bad_range buffer offset len then throws s out_of_range else write_loop s buffer offset 0 len.
End defaults.

(** ** [class ByteArrayOutputStream] *)
Record ByteArrayOutputStream := mkBytes { buf_ : list Z; count_ : nat }.
Implicit Types (b : Z) (o : ByteArrayOutputStream).

Definition bytes_new : ByteArrayOutputStream := mkBytes (replicate 32 0%Z) 0.
Definition bytes_sized (size : nat) : outcome ByteArrayOutputStream := if decide (size = 0) then Throw invalid_argument else Ret (mkBytes (replicate size 0%Z) 0).

Definition ensureCapacity o (additionalCapacity : nat) : ByteArrayOutputStream :=
  if decide (length (buf_ o) < count_ o + additionalCapacity) then
    let minCapacity := count_ o + additionalCapacity in
    let newCapacity := length (buf_ o) * 2 in
    let newCapacity := if decide (newCapacity < minCapacity) then minCapacity else newCapacity in
    mkBytes (resize newCapacity 0%Z (buf_ o)) (count_ o)
  else o.

(** [std::copy_n] to a vector; reading past [src] or writing past [dst] is undefined. *)
Definition copy_n (src : list Z) (n : nat) (dst : list Z) (pos : nat) : outcome (list Z) :=
  if decide (n <= length src /\ pos + n <= length dst) then Ret (take pos dst ++ take n src ++ drop (pos + n) dst) else Undef.

Definition bytes_append o (src : list Z) (n : nat) : res ByteArrayOutputStream :=
  let o := ensureCapacity o n in buf ← copy_n src n (buf_ o) (count_ o); ok (mkBytes buf (count_ o + n)).

Definition bytes_write o b : res ByteArrayOutputStream :=
  let o := ensureCapacity o 1 in buf ← vset (buf_ o) (count_ o) b; ok (mkBytes buf (count_ o + 1)).

Definition bytes_write_range o (buffer : list Z) (offset len : nat) : res ByteArrayOutputStream :=
  if decide (len = 0) then ok o else if bad_range buffer offset len then throws o out_of_range else bytes_append o (drop offset buffer) len.

Definition bytes_write_ptr o (buffer : option (list Z)) (len : nat) : res ByteArrayOutputStream :=
  if decide (len = 0) then ok o else match buffer with None => throws o invalid_argument | Some buffer => bytes_append o buffer len end.

Definition bytes_reset o : ByteArrayOutputStream := mkBytes (buf_ o) 0.
Definition toByteArray o : list Z := take (count_ o) (buf_ o).
Definition size o : nat := count_ o.
(** [toString]: the bytes as characters. *)
Definition bytes_toString o : list Z := take (count_ o) (buf_ o).
Definition capacity o : nat := length (buf_ o).

#[export] Instance ByteArrayOutputStream_stream : AbstractOutputStream ByteArrayOutputStream := {|
  os_write := bytes_write;
  os_write_vector := default_write_vector bytes_write_range;
  os_write_range := bytes_write_range;
  os_write_ptr := bytes_write_ptr;
  os_flush := ok;
  os_close := ok;
  os_isClosed _ := false;
|}.

Definition writeTo {St} `{!AbstractOutputStream St} o (out : St) : res St :=
  if decide (0 < count_ o) then os_write_range out (buf_ o) 0 (count_ o) else ok out.

(** ** [class FilterOutputStream] *)
Section filter.
Context {St : Type} `{!AbstractOutputStream St}.

(** [output_stream_] is not null: the constructor checks it. *)
Record FilterOutputStream := mkFilter { output_stream_ : St; closed_ : bool }.
Implicit Types (f : FilterOutputStream) (s : St).

Definition filter_new (outputStream : option St) : outcome FilterOutputStream :=
  match outputStream with None => Throw invalid_argument | Some s => Ret (mkFilter s false) end.

Definition with_stream f s : FilterOutputStream := mkFilter s (closed_ f).

(** [ensureOpen], then a call. *)
Definition filter_forward f (m : St -> res St) : res FilterOutputStream :=
  if closed_ f then throws f runtime_error else call (m (output_stream_ f)) (with_stream f) (fun s => ok (with_stream f s)).

Definition filter_write f b : res FilterOutputStream := filter_forward f (fun s => os_write s b).
Definition filter_write_vector f (buffer : list Z) : res FilterOutputStream := filter_forward f (fun s => os_write_vector s buffer).
Definition filter_write_range f (buffer : list Z) (offset len : nat) : res FilterOutputStream :=
  if closed_ f then throws f runtime_error else
  if bad_range buffer offset len then throws f out_of_range else filter_forward f (fun s => os_write_range s buffer offset len).
Definition filter_write_ptr f (buffer : option (list Z)) (len : nat) : res FilterOutputStream :=
  if closed_ f then throws f runtime_error else
  if decide (len = 0) then ok f else
  match buffer with None => throws f invalid_argument | Some _ => filter_forward f (fun s => os_write_ptr s buffer len) end.
Definition filter_flush f : res FilterOutputStream := filter_forward f os_flush.

Definition filter_close f : res FilterOutputStream :=
  if closed_ f then ok f else
  let f := mkFilter (output_stream_ f) true in
  ignoring (filter_flush f) (fun f => call (os_close (output_stream_ f)) (with_stream f) (fun s => ok (with_stream f s))).

Definition filter_isClosed f : bool := closed_ f || os_isClosed (output_stream_ f).

#[export] Instance FilterOutputStream_stream : AbstractOutputStream FilterOutputStream := {|
  os_write := filter_write;
  os_write_vector := filter_write_vector;
  os_write_range := filter_write_range;
  os_write_ptr := filter_write_ptr;
  os_flush := filter_flush;
  os_close := filter_close;
  os_isClosed := filter_isClosed;
|}.
End filter.
Arguments FilterOutputStream : clear implicits.

(** ** [class BufferedOutputStream] *)
Section buffered.
Context {St : Type} `{!AbstractOutputStream St}.

(** [base] is the part of [FilterOutputStream], whose [closed_] is another member. *)
Record BufferedOutputStream := mkBuffered { base : FilterOutputStream St; bufferSize_ : nat; buffer_ : list Z; buffer_position_ : nat; buffered_closed_ : bool }.
Implicit Types (d : BufferedOutputStream) (s : St).

Definition DEFAULT_BUFFER_SIZE : nat := Z.to_nat 8192.

Definition buffered_new (out : option St) (size : nat) : outcome BufferedOutputStream :=
  base ← filter_new out; if decide (size = 0) then Throw invalid_argument else Ret (mkBuffered base size (replicate size 0%Z) 0 false).
Definition buffered_default (out : option St) : outcome BufferedOutputStream := buffered_new out DEFAULT_BUFFER_SIZE.

Definition put_base d s : BufferedOutputStream := mkBuffered (with_stream (base d) s) (bufferSize_ d) (buffer_ d) (buffer_position_ d) (buffered_closed_ d).
Definition put_buffer d (buffer : list Z) (pos : nat) : BufferedOutputStream := mkBuffered (base d) (bufferSize_ d) buffer pos (buffered_closed_ d).

Definition flushBuffer d : res BufferedOutputStream :=
  if decide (0 < buffer_position_ d) then
    call (os_write_range (output_stream_ (base d)) (buffer_ d) 0 (buffer_position_ d)) (put_base d) (fun s => let d := put_base d s in ok (put_buffer d (buffer_ d) 0))
  else ok d.

Definition buffered_write d b : res BufferedOutputStream :=
  if buffered_closed_ d then ok d else
  call (if decide (bufferSize_ d <= buffer_position_ d) then flushBuffer d else ok d) id (fun d =>
    buffer ← vset (buffer_ d) (buffer_position_ d) b; ok (put_buffer d buffer (buffer_position_ d + 1))).

(** The loop of both writes of several bytes. *)
Fixpoint buffered_loop (fuel : nat) d (data : list Z) (offset bytesWritten len : nat) : res BufferedOutputStream :=
  match fuel with
  | O => NoFuel
  | S fuel =>
    if decide (bytesWritten < len) then
      call (if decide (buffer_position_ d = bufferSize_ d) then flushBuffer d else ok d) id (fun d =>
        let bytesToCopy := (len - bytesWritten) `min` (bufferSize_ d - buffer_position_ d) in
        buffer ← copy_n (drop (offset + bytesWritten) data) bytesToCopy (buffer_ d) (buffer_position_ d);
        buffered_loop fuel (put_buffer d buffer (buffer_position_ d + bytesToCopy)) data offset (bytesWritten + bytesToCopy) len)
    else ok d
  end.

Definition buffered_write_range d (data : list Z) (offset len : nat) : res BufferedOutputStream :=
  if decide (len = 0 \/ buffered_closed_ d = true) then ok d else
  if bad_range data offset len then throws d out_of_range else
  if decide (bufferSize_ d <= len) then
    call (flushBuffer d) id (fun d => call (os_write_range (output_stream_ (base d)) data offset len) (put_base d) (fun s => ok (put_base d s)))
  else buffered_loop (len + 1) d data offset 0 len.

Definition buffered_write_ptr d (buffer : option (list Z)) (len : nat) : res BufferedOutputStream :=
  if decide (len = 0 \/ buffered_closed_ d = true) then ok d else
  match buffer with
  | None => throws d invalid_argument
  | Some data =>
    if decide (bufferSize_ d <= len) then
      call (flushBuffer d) id (fun d => call (os_write_ptr (output_stream_ (base d)) (Some data) len) (put_base d) (fun s => ok (put_base d s)))
    else buffered_loop (len + 1) d data 0 0 len
  end.

Definition buffered_flush d : res BufferedOutputStream :=
  call (flushBuffer d) id (fun d => call (os_flush (output_stream_ (base d))) (put_base d) (fun s => ok (put_base d s))).

Definition buffered_close d : res BufferedOutputStream :=
  if buffered_closed_ d then ok d else
  let d := mkBuffered (base d) (bufferSize_ d) (buffer_ d) (buffer_position_ d) true in
  ignoring (buffered_flush d) (fun d => call (os_close (output_stream_ (base d))) (put_base d) (fun s => ok (put_base d s))).

(** The destructor: the inner stream is left. *)
Definition buffered_destroy d : outcome St := '(d, _) ← buffered_flush d; Ret (output_stream_ (base d)).

(** [using FilterOutputStream::write]: not overridden, so the base class writes to the stream. *)
Definition buffered_write_vector d (buffer : list Z) : res BufferedOutputStream :=
  call (filter_write_vector (base d) buffer) (fun f => mkBuffered f (bufferSize_ d) (buffer_ d) (buffer_position_ d) (buffered_closed_ d))
    (fun f => ok (mkBuffered f (bufferSize_ d) (buffer_ d) (buffer_position_ d) (buffered_closed_ d))).

Definition getBufferSize d : nat := bufferSize_ d.
Definition getBufferedDataSize d : nat := buffer_position_ d.

#[export] Instance BufferedOutputStream_stream : AbstractOutputStream BufferedOutputStream := {|
  os_write := buffered_write;
  os_write_vector := buffered_write_vector;
  os_write_range := buffered_write_range;
  os_write_ptr := buffered_write_ptr;
  os_flush := buffered_flush;
  os_close := buffered_close;
  os_isClosed := buffered_closed_;
|}.
End buffered.
Arguments BufferedOutputStream : clear implicits.

(** ** The laws *)
Section laws.
Context {St : Type} `{!AbstractOutputStream St}.

(** An open stream accepts bytes and keeps them in order; [sink] are the accepted bytes. *)
Class OutputLaws (is_open : St -> Prop) (sink : St -> list Z) : Prop := {
  law_write : forall s b, is_open s -> exists s', os_write s b = ok s' /\ is_open s' /\ sink s' = sink s ++ [b];
  law_range : forall s data offset len, is_open s -> bad_range data offset len = false -> exists s', os_write_range s data offset len = ok s' /\ is_open s' /\ sink s' = sink s ++ bytes_of data offset len;
  law_ptr : forall s data len, is_open s -> len <= length data -> exists s', os_write_ptr s (Some data) len = ok s' /\ is_open s' /\ sink s' = sink s ++ take len data;
  law_flush : forall s, is_open s -> exists s', os_flush s = ok s' /\ is_open s' /\ sink s' = sink s;
  law_close : forall s, is_open s -> exists s', os_close s = ok s' /\ sink s' = sink s;
}.

(** The law of [write] of a vector is apart: not every class has it. *)
Class VectorLaw (is_open : St -> Prop) (sink : St -> list Z) : Prop :=
  law_vector : forall s data, is_open s -> exists s', os_write_vector s data = ok s' /\ is_open s' /\ sink s' = sink s ++ data.
End laws.

Lemma range_in_bounds (data : list Z) offset len : bad_range data offset len = false <-> offset + len <= length data.
Proof. unfold bad_range. rewrite bool_decide_eq_false. lia. Qed.

Lemma bytes_of_all (data : list Z) : bytes_of data 0 (length data) = data.
Proof. unfold bytes_of. by rewrite drop_0, firstn_all. Qed.

Lemma bytes_of_length (data : list Z) offset len : offset + len <= length data -> length (bytes_of data offset len) = len.
Proof. intros Hl. unfold bytes_of. rewrite length_take, length_drop. lia. Qed.

Lemma call_ok {St D} (s : St) (wrap : St -> D) k : call (ok s) wrap k = k s.
Proof. done. Qed.

Lemma ignoring_ok {St} (s : St) k : ignoring (ok s) k = k s.
Proof. done. Qed.

(** The inherited definition writes byte by byte. *)
Lemma default_write_range_ok {St} `{!AbstractOutputStream St} is_open sink `{!OutputLaws is_open sink} s data offset len : is_open s -> bad_range data offset len = false ->
  exists s', default_write_range os_write s data offset len = ok s' /\ is_open s' /\ sink s' = sink s ++ bytes_of data offset len.
Proof.
  intros Ho Hb. unfold default_write_range. rewrite Hb. apply range_in_bounds in Hb. assert (forall n i s, is_open s -> offset + i + n <= length data -> exists s', write_loop os_write s data offset i n = ok s' /\ is_open s' /\ sink s' = sink s ++ bytes_of data (offset + i) n) as Hloop.
  { induction n as [|n IH]; intros i s0 Ho0 Hi; cbn [write_loop]; [exists s0; unfold bytes_of; rewrite take_0, app_nil_r; done|]. destruct (lookup_lt_is_Some_2 data (offset + i)) as [b Hbt]; [lia|]. rewrite (vget_Some _ _ b Hbt). ret_step.
    destruct (law_write s0 b Ho0) as (s1 & -> & Ho1 & Hs1). rewrite call_ok. destruct (IH (i + 1) s1 Ho1 ltac:(lia)) as (s' & -> & Ho' & Hs'). exists s'. split; [done|]. split; [done|]. rewrite Hs', Hs1, <- (assoc_L (++)). f_equal. unfold bytes_of. replace (offset + (i + 1)) with (S (offset + i)) by lia.
    rewrite (drop_S data b (offset + i) Hbt). done. }
  destruct (Hloop len 0 s Ho ltac:(lia)) as (s' & -> & Ho' & Hs'). rewrite Nat.add_0_r in Hs'. by exists s'.
Qed.

(** ** [ByteArrayOutputStream] is lawful *)
Definition bytes_open o : Prop := count_ o <= length (buf_ o).

Lemma ensureCapacity_ok o n : bytes_open o -> toByteArray (ensureCapacity o n) = toByteArray o /\ count_ (ensureCapacity o n) = count_ o /\ count_ o + n <= length (buf_ (ensureCapacity o n)).
Proof.
  unfold bytes_open, ensureCapacity, toByteArray. intros Ho. case_decide as Hc; [|repeat split; lia]. cbn. set (m := if decide _ then _ else _). assert (length (buf_ o) <= m /\ count_ o + n <= m) as [H1 H2] by (unfold m; case_decide; lia). rewrite length_resize.
  split; [|split; [done|lia]]. rewrite resize_ge by done. by rewrite take_app_le.
Qed.

Lemma copy_at_ok (src dst : list Z) n pos : n <= length src -> pos + n <= length dst -> copy_n src n dst pos = Ret (take pos dst ++ take n src ++ drop (pos + n) dst).
Proof. intros H1 H2. unfold copy_n. by rewrite decide_True. Qed.

Lemma bytes_append_ok o src n : bytes_open o -> n <= length src -> exists o', bytes_append o src n = ok o' /\ bytes_open o' /\ toByteArray o' = toByteArray o ++ take n src.
Proof.
  intros Ho Hn. destruct (ensureCapacity_ok o n Ho) as (Hb & Hc & Hl). unfold bytes_append. set (e := ensureCapacity o n) in *. rewrite copy_at_ok by lia. ret_step. eexists. split; [done|]. unfold bytes_open, toByteArray in *. cbn. rewrite <- Hb. split.
  - rewrite !length_app, !length_take, length_drop. lia.
  - rewrite (assoc_L (++)). rewrite take_app_length' by (rewrite length_app, !length_take; lia). done.
Qed.

Lemma bytes_write_ok o b : bytes_open o -> exists o', bytes_write o b = ok o' /\ bytes_open o' /\ toByteArray o' = toByteArray o ++ [b].
Proof.
  intros Ho. destruct (ensureCapacity_ok o 1 Ho) as (Hb & Hc & Hl). unfold bytes_write. set (e := ensureCapacity o 1) in *. rewrite vset_lt by lia. ret_step. eexists. split; [done|]. unfold bytes_open, toByteArray in *. cbn. rewrite <- Hb, length_insert. split; [lia|].
  rewrite Nat.add_1_r. rewrite (take_S_r _ _ b) by (apply list_lookup_insert_eq; lia). by rewrite take_insert_ge by lia.
Qed.

#[export] Instance bytes_lawful : OutputLaws bytes_open toByteArray.
Proof.
  split.
  - intros o b Ho. by apply bytes_write_ok.
  - intros o data offset len Ho Hb. cbn. unfold bytes_write_range. rewrite Hb. apply range_in_bounds in Hb. case_decide as Hl; [subst; exists o; unfold bytes_of; by rewrite take_0, app_nil_r|]. apply bytes_append_ok; [done|]. rewrite length_drop. lia.
  - intros o data len Ho Hl. cbn. unfold bytes_write_ptr. case_decide; [subst; exists o; by rewrite take_0, app_nil_r|]. by apply bytes_append_ok.
  - intros o Ho. by exists o.
  - intros o Ho. by exists o.
Qed.

#[export] Instance bytes_vector : VectorLaw bytes_open toByteArray.
Proof.
  intros o data Ho. cbn. unfold default_write_vector. case_decide; [subst; exists o; by rewrite app_nil_r|]. destruct (law_range o data 0 (length data) Ho) as (o' & Hw & Ho' & Hs); [apply range_in_bounds; lia|]. exists o'. by rewrite bytes_of_all in Hs.
Qed.

(** ** The decorators are lawful over a lawful stream *)
Section decorators.
Context {St : Type} `{!AbstractOutputStream St} (is_open : St -> Prop) (sink : St -> list Z) `{!OutputLaws is_open sink}.
Implicit Types (s : St) (f : FilterOutputStream St) (d : BufferedOutputStream St).

Definition filter_open f : Prop := closed_ f = false /\ is_open (output_stream_ f).
Definition filter_sink f : list Z := sink (output_stream_ f).

Lemma filter_forward_ok f m s' l : filter_open f -> m (output_stream_ f) = ok s' -> is_open s' -> sink s' = l -> exists f', filter_forward f m = ok f' /\ filter_open f' /\ filter_sink f' = l.
Proof. intros [Hc Ho] Hm Ho' Hs. unfold filter_forward. rewrite Hc, Hm, call_ok. exists (with_stream f s'). done. Qed.

#[export] Instance filter_lawful : OutputLaws filter_open filter_sink.
Proof.
  split.
  - intros f b Hf. destruct (law_write (output_stream_ f) b (proj2 Hf)) as (s' & Hw & Ho' & Hs). by eapply filter_forward_ok.
  - intros f data offset len Hf Hb. cbn. unfold filter_write_range. rewrite (proj1 Hf), Hb. destruct (law_range (output_stream_ f) data offset len (proj2 Hf) Hb) as (s' & Hw & Ho' & Hs). by eapply filter_forward_ok.
  - intros f data len Hf Hl. cbn. unfold filter_write_ptr. rewrite (proj1 Hf). case_decide; [subst; exists f; by rewrite take_0, app_nil_r|]. destruct (law_ptr (output_stream_ f) data len (proj2 Hf) Hl) as (s' & Hw & Ho' & Hs). by eapply filter_forward_ok.
  - intros f Hf. destruct (law_flush (output_stream_ f) (proj2 Hf)) as (s' & Hw & Ho' & Hs). by eapply filter_forward_ok.
  - intros f [Hc Ho]. cbn. unfold filter_close. rewrite Hc. unfold filter_flush, filter_forward, ignoring. cbn. destruct (law_close (output_stream_ f) Ho) as (s' & -> & Hs). rewrite call_ok. by eexists.
Qed.

#[export] Instance filter_vector `{!VectorLaw is_open sink} : VectorLaw filter_open filter_sink.
Proof. intros f data Hf. destruct (law_vector (output_stream_ f) data (proj2 Hf)) as (s' & Hw & Ho' & Hs). by eapply filter_forward_ok. Qed.

(** [close] never flushes the stream: [flush] finds the filter closed, and the exception is dropped. *)
Lemma filter_close_skips_flush f : closed_ f = false -> filter_close f = call (os_close (output_stream_ f)) (fun s => mkFilter s true) (fun s => ok (mkFilter s true)).
Proof. intros Hc. unfold filter_close. rewrite Hc. done. Qed.
End decorators.

(** ** [BufferedOutputStream] over a lawful stream *)
Section buffered_laws.
Context {St : Type} `{!AbstractOutputStream St} (is_open : St -> Prop) (sink : St -> list Z) `{!OutputLaws is_open sink}.
Implicit Types (s : St) (d : BufferedOutputStream St).

Abbreviation inner d := (output_stream_ (base d)).
Definition pending d : list Z := take (buffer_position_ d) (buffer_ d).

Record buffered_wf d : Prop := {
  bw_base : closed_ (base d) = false;
  bw_inner : is_open (inner d);
  bw_size : 0 < bufferSize_ d;
  bw_length : length (buffer_ d) = bufferSize_ d;
  bw_position : buffer_position_ d <= bufferSize_ d;
}.

Definition buffered_open d : Prop := buffered_closed_ d = false /\ buffered_wf d.
Definition buffered_sink d : list Z := sink (inner d) ++ pending d.

Lemma copy_bytes (data : list Z) i n len : n <= len -> bytes_of data i len = take n (drop i data) ++ bytes_of data (i + n) (len - n).
Proof. intros Hn. unfold bytes_of. rewrite <- drop_drop, take_take_drop. f_equal. lia. Qed.

Lemma flushBuffer_ok d : buffered_wf d -> exists d', flushBuffer d = ok d' /\ buffered_wf d' /\ buffer_position_ d' = 0 /\ sink (inner d') = buffered_sink d /\ bufferSize_ d' = bufferSize_ d /\ buffered_closed_ d' = buffered_closed_ d.
Proof.
  intros [Hb Hi Hs Hl Hp]. unfold flushBuffer, buffered_sink, pending. case_decide as Hz.
  - destruct (law_range (inner d) (buffer_ d) 0 (buffer_position_ d) Hi) as (s' & -> & Ho' & Hsk); [apply range_in_bounds; lia|]. rewrite call_ok. eexists. split; [done|]. cbn. split; [by split; cbn; try lia|]. split; [done|]. unfold bytes_of in Hsk. by rewrite drop_0 in Hsk.
  - exists d. split; [done|]. assert (buffer_position_ d = 0) as -> by lia. rewrite take_0, app_nil_r. split; [by split|done].
Qed.

(** Some bytes copied to the buffer. *)
Lemma buffer_copy d (src : list Z) n : buffered_wf d -> n <= length src -> buffer_position_ d + n <= bufferSize_ d ->
  exists buffer, copy_n src n (buffer_ d) (buffer_position_ d) = Ret buffer /\ buffered_wf (put_buffer d buffer (buffer_position_ d + n)) /\ buffered_sink (put_buffer d buffer (buffer_position_ d + n)) = buffered_sink d ++ take n src.
Proof.
  intros [Hb Hi Hs Hl Hp] Hn Hf. rewrite copy_at_ok by lia. eexists. split; [done|]. split.
  - split; cbn; try done. rewrite !length_app, !length_take, length_drop. lia.
  - unfold buffered_sink, pending. cbn. rewrite <- (assoc_L (++)). f_equal. rewrite (assoc_L (++)). rewrite take_app_length' by (rewrite length_app, !length_take; lia). done.
Qed.

(** The buffer is flushed first when it is full. *)
Lemma make_room d full : buffered_wf d -> (full = false -> buffer_position_ d < bufferSize_ d) ->
  exists d', (if (full : bool) then flushBuffer d else ok d) = ok d' /\ buffered_wf d' /\ buffer_position_ d' < bufferSize_ d' /\ buffered_sink d' = buffered_sink d /\ bufferSize_ d' = bufferSize_ d /\ buffered_closed_ d' = buffered_closed_ d /\
    buffer_position_ d' = if full then 0 else buffer_position_ d.
Proof.
  intros Hw Hf. destruct full; [|exists d; pose proof (Hf eq_refl); by split_and!]. destruct (flushBuffer_ok d Hw) as (d' & -> & Hw' & Hp & Hs & Hz & Hc). exists d'. split; [done|]. split; [done|]. split; [rewrite Hp; apply Hw'|]. split; [|done]. unfold buffered_sink at 1, pending. by rewrite Hp, take_0, app_nil_r.
Qed.

(** How many bytes are in the buffer after [n] more: it is flushed when it is full and there are more. *)
Definition filled (size pos n : nat) : nat := if decide (pos + n <= size) then pos + n else pos + n - size.

Lemma buffered_loop_ok data offset len fuel : offset + len <= length data -> forall d written, buffered_wf d -> written <= len -> len - written < fuel ->
  exists d', buffered_loop fuel d data offset written len = ok d' /\ buffered_wf d' /\ buffered_sink d' = buffered_sink d ++ bytes_of data (offset + written) (len - written) /\ bufferSize_ d' = bufferSize_ d /\ buffered_closed_ d' = buffered_closed_ d /\
    (len - written <= bufferSize_ d -> buffer_position_ d' = filled (bufferSize_ d) (buffer_position_ d) (len - written)).
Proof.
  intros Hd. induction fuel as [|fuel IH]; intros d written Hw Hwr Hf; [lia|]. cbn [buffered_loop]. case_decide as Hlt.
  - destruct (make_room d (bool_decide (buffer_position_ d = bufferSize_ d)) Hw) as (d1 & Hr & Hw1 & Hp1 & Hs1 & Hz1 & Hc1 & Hq1); [intros Hb%bool_decide_eq_false; pose proof (bw_position _ Hw); lia|].
    rewrite decide_bool_decide, Hr. rewrite call_ok. cbv zeta.
    set (n := (len - written) `min` (bufferSize_ d1 - buffer_position_ d1)). destruct (buffer_copy d1 (drop (offset + written) data) n Hw1) as (buffer & -> & Hw2 & Hs2); [rewrite length_drop; lia|lia|]. ret_step.
    destruct (IH _ (written + n) Hw2 ltac:(lia) ltac:(lia)) as (d' & -> & Hw' & Hs' & Hz' & Hc' & Hq'). exists d'. split; [done|]. split; [done|]. split; [|split; [cbn in *; congruence|split; [cbn in *; congruence|]]].
    2:{ intros Hle. cbn [bufferSize_ buffer_position_ put_buffer] in *. rewrite Hq' by lia. pose proof (bw_position _ Hw). unfold filled. rewrite Hz1, Hq1. repeat case_decide; case_bool_decide; lia. }
    rewrite Hs', Hs2, Hs1, <- (assoc_L (++)). f_equal. rewrite (copy_bytes data (offset + written) n) by lia. do 2 f_equal; lia.
  - exists d. split; [done|]. split; [done|]. replace (len - written) with 0 by lia. split; [unfold bytes_of; by rewrite take_0, app_nil_r|]. split; [done|]. split; [done|]. intros _. pose proof (bw_position _ Hw). unfold filled. rewrite decide_True; lia.
Qed.

Lemma buffered_write_ok d b : buffered_open d -> exists d', buffered_write d b = ok d' /\ buffered_open d' /\ buffered_sink d' = buffered_sink d ++ [b] /\ bufferSize_ d' = bufferSize_ d /\ buffer_position_ d' = filled (bufferSize_ d) (buffer_position_ d) 1.
Proof.
  intros [Hc Hw]. unfold buffered_write. rewrite Hc. destruct (make_room d (bool_decide (bufferSize_ d <= buffer_position_ d)) Hw) as (d1 & Hr & Hw1 & Hp1 & Hs1 & Hz1 & Hc1 & Hq1); [intros Hb%bool_decide_eq_false; lia|].
  rewrite decide_bool_decide, Hr. rewrite call_ok. destruct (Hw1) as [Hb Hi Hs Hl Hp]. rewrite vset_lt by lia. ret_step. eexists. split; [done|]. split.
  - split; [cbn; congruence|]. split; cbn; rewrite ?length_insert; (done || lia).
  - split; [|split; [exact Hz1|cbn; rewrite Hq1; pose proof (bw_position _ Hw); pose proof (bw_size _ Hw); unfold filled; case_bool_decide; case_decide; lia]].
    unfold buffered_sink, pending in *. cbn. rewrite Nat.add_1_r. rewrite (take_S_r _ _ b) by (apply list_lookup_insert_eq; lia). rewrite take_insert_ge by lia. by rewrite (assoc_L (++)), Hs1.
Qed.

(** A write of at least the size of the buffer goes to the stream, after the buffer. *)
Lemma write_through_ok d (m : St -> res St) (bytes : list Z) : buffered_open d -> (forall s, is_open s -> exists s', m s = ok s' /\ is_open s' /\ sink s' = sink s ++ bytes) ->
  exists d', call (flushBuffer d) id (fun d => call (m (inner d)) (put_base d) (fun s => ok (put_base d s))) = ok d' /\ buffered_open d' /\ buffered_sink d' = buffered_sink d ++ bytes /\ bufferSize_ d' = bufferSize_ d /\ buffer_position_ d' = 0.
Proof.
  intros [Hc Hw] Hm. destruct (flushBuffer_ok d Hw) as (d1 & -> & Hw1 & Hp & Hs & Hz & Hc1). rewrite call_ok. destruct (Hw1) as [Hb Hi Hsz Hl Hpos]. destruct (Hm (inner d1) Hi) as (s' & -> & Ho' & Hs'). rewrite call_ok. eexists. split; [done|]. split; [split; [cbn; congruence|by split]|]. split; [|done].
  unfold buffered_sink at 1, pending. cbn. by rewrite Hp, take_0, app_nil_r, Hs', Hs.
Qed.

(** The same after a write of [n] bytes: one of at least the size of the buffer goes past it. *)
Definition after_write (size pos n : nat) : nat := if decide (0 < n /\ size <= n) then 0 else filled size pos n.

Lemma after_write_none size pos : pos <= size -> after_write size pos 0 = pos.
Proof. intros Hp. unfold after_write, filled. rewrite decide_False by lia. rewrite decide_True; lia. Qed.

Lemma buffered_write_range_ok d data offset len : buffered_open d -> bad_range data offset len = false -> exists d', buffered_write_range d data offset len = ok d' /\ buffered_open d' /\ buffered_sink d' = buffered_sink d ++ bytes_of data offset len /\
  bufferSize_ d' = bufferSize_ d /\ buffer_position_ d' = after_write (bufferSize_ d) (buffer_position_ d) len.
Proof.
  intros Ho Hbad. pose proof (bw_size _ (proj2 Ho)) as Hbs. pose proof (bw_position _ (proj2 Ho)) as Hbp. destruct (Ho) as [Hc Hw]. unfold buffered_write_range. rewrite Hc, Hbad. case_decide as H0; [destruct H0 as [->|]; [|done]; exists d; unfold bytes_of; by rewrite take_0, app_nil_r, after_write_none|]. case_decide.
  - unfold after_write. rewrite (decide_True (P := 0 < len /\ _)) by lia. apply (write_through_ok d (fun s => os_write_range s data offset len)); [done|]. intros s Hs. by apply law_range.
  - apply range_in_bounds in Hbad. destruct (buffered_loop_ok data offset len (len + 1) Hbad d 0 Hw ltac:(lia) ltac:(lia)) as (d' & -> & Hw' & Hs' & Hz & Hc' & Hq). exists d'. split; [done|]. split; [split; [congruence|done]|]. rewrite Nat.add_0_r in Hs'. rewrite Nat.sub_0_r in Hs', Hq. split; [done|]. split; [done|]. unfold after_write. rewrite (decide_False (P := 0 < len /\ _)) by lia. apply Hq. lia.
Qed.

Lemma buffered_write_ptr_ok d data len : buffered_open d -> len <= length data -> exists d', buffered_write_ptr d (Some data) len = ok d' /\ buffered_open d' /\ buffered_sink d' = buffered_sink d ++ take len data /\
  bufferSize_ d' = bufferSize_ d /\ buffer_position_ d' = after_write (bufferSize_ d) (buffer_position_ d) len.
Proof.
  intros Ho Hl. pose proof (bw_size _ (proj2 Ho)) as Hbs. pose proof (bw_position _ (proj2 Ho)) as Hbp. destruct (Ho) as [Hc Hw]. unfold buffered_write_ptr. rewrite Hc. case_decide as H0; [destruct H0 as [->|]; [|done]; exists d; by rewrite take_0, app_nil_r, after_write_none|]. case_decide.
  - unfold after_write. rewrite (decide_True (P := 0 < len /\ _)) by lia. apply (write_through_ok d (fun s => os_write_ptr s (Some data) len)); [done|]. intros s Hs. by apply law_ptr.
  - destruct (buffered_loop_ok data 0 len (len + 1) Hl d 0 Hw ltac:(lia) ltac:(lia)) as (d' & -> & Hw' & Hs' & Hz & Hc' & Hq). exists d'. split; [done|]. split; [split; [congruence|done]|]. unfold bytes_of in Hs'. rewrite drop_0 in Hs'. rewrite Nat.sub_0_r in Hs', Hq. split; [done|]. split; [done|]. unfold after_write. rewrite (decide_False (P := 0 < len /\ _)) by lia. apply Hq. lia.
Qed.

Lemma buffered_flush_ok d : buffered_wf d -> exists d', buffered_flush d = ok d' /\ buffered_wf d' /\ buffer_position_ d' = 0 /\ sink (inner d') = buffered_sink d /\ buffered_closed_ d' = buffered_closed_ d /\ bufferSize_ d' = bufferSize_ d.
Proof.
  intros Hw. unfold buffered_flush. destruct (flushBuffer_ok d Hw) as (d1 & -> & Hw1 & Hp & Hs & Hz & Hc1). rewrite call_ok. destruct (Hw1) as [Hb Hi Hsz Hl Hpos]. destruct (law_flush (inner d1) Hi) as (s' & -> & Ho' & Hs'). rewrite call_ok. eexists. split; [done|]. split; [by split|]. split; [done|]. split; [cbn; congruence|done].
Qed.

Lemma buffered_close_ok d : buffered_open d -> exists d', buffered_close d = ok d' /\ buffered_closed_ d' = true /\ buffer_position_ d' = 0 /\ sink (inner d') = buffered_sink d /\ bufferSize_ d' = bufferSize_ d.
Proof.
  intros [Hc Hw]. unfold buffered_close. rewrite Hc. cbv zeta. set (d0 := mkBuffered _ _ _ _ true). assert (buffered_wf d0) as Hw0 by (by destruct Hw). destruct (buffered_flush_ok d0 Hw0) as (d1 & -> & Hw1 & Hp & Hs & Hc1 & Hz1). rewrite ignoring_ok.
  destruct (law_close (inner d1) (bw_inner _ Hw1)) as (s' & -> & Hs'). rewrite call_ok. eexists. split; [done|]. split; [done|]. split; [done|]. cbn. split; [by rewrite Hs', Hs|exact Hz1].
Qed.

#[export] Instance buffered_lawful : OutputLaws buffered_open buffered_sink.
Proof.
  split.
  - intros d b Hd. destruct (buffered_write_ok d b Hd) as (d' & Hw & Ho & Hs & _). by exists d'.
  - intros d data offset len Hd Hb. destruct (buffered_write_range_ok d data offset len Hd Hb) as (d' & Hw & Ho & Hs & _). by exists d'.
  - intros d data len Hd Hl. destruct (buffered_write_ptr_ok d data len Hd Hl) as (d' & Hw & Ho & Hs & _). by exists d'.
  - intros d [Hc Hw]. change (os_flush d) with (buffered_flush d). destruct (buffered_flush_ok d Hw) as (d' & -> & Hw' & Hp & Hs & Hc' & _). exists d'. split; [done|]. split; [split; [congruence|done]|]. unfold buffered_sink at 1, pending. by rewrite Hp, take_0, app_nil_r.
  - intros d Hd. change (os_close d) with (buffered_close d). destruct (buffered_close_ok d Hd) as (d' & -> & _ & Hp & Hs & _). exists d'. split; [done|]. unfold buffered_sink at 1, pending. by rewrite Hp, take_0, app_nil_r.
Qed.

(** A vector overtakes what is in the buffer. *)
Lemma write_vector_overtakes `{!VectorLaw is_open sink} d data : buffered_open d -> exists d', buffered_write_vector d data = ok d' /\ buffered_open d' /\ sink (inner d') = sink (inner d) ++ data /\ pending d' = pending d /\ bufferSize_ d' = bufferSize_ d.
Proof.
  intros [Hc Hw]. unfold buffered_write_vector, filter_write_vector, filter_forward. rewrite (bw_base _ Hw). destruct (law_vector (inner d) data (bw_inner _ Hw)) as (s' & -> & Ho' & Hs'). rewrite !call_ok. eexists. split; [done|]. split; [by destruct Hw|]. done.
Qed.
End buffered_laws.

(** ** Sequences of calls *)
Inductive sop :=
| Write (b : Z)
| WriteVector (data : list Z)
| WriteRange (data : list Z) (offset len : nat)
| WritePtr (buffer : option (list Z)) (len : nat)
| Flush
| Close
| IsClosed
| BufferSize
| BufferedDataSize.

Inductive sobs :=
| Done (thrown : option exn)
| Is (r : bool)
| Num (n : nat).

Section contract.
Context {St : Type} `{!AbstractOutputStream St}.

Definition sstep (d : BufferedOutputStream St) (op : sop) : outcome (BufferedOutputStream St * sobs) :=
  match op with
  | Write b => '(d, x) ← buffered_write d b; Ret (d, Done x)
  | WriteVector data => '(d, x) ← buffered_write_vector d data; Ret (d, Done x)
  | WriteRange data offset len => '(d, x) ← buffered_write_range d data offset len; Ret (d, Done x)
  | WritePtr buffer len => '(d, x) ← buffered_write_ptr d buffer len; Ret (d, Done x)
  | Flush => '(d, x) ← buffered_flush d; Ret (d, Done x)
  | Close => '(d, x) ← buffered_close d; Ret (d, Done x)
  | IsClosed => Ret (d, Is (buffered_closed_ d))
  | BufferSize => Ret (d, Num (getBufferSize d))
  | BufferedDataSize => Ret (d, Num (getBufferedDataSize d))
  end.

(** The bytes the stream has got, those that wait, and whether the decorator is closed. *)
Record Sink := mkSink { delivered : list Z; waiting : list Z; is_closed : bool }.
Implicit Types (a : Sink).

(** Bytes wait until more than [size] of them do: then the first [size] go. *)
Definition queue (size : nat) a (bytes : list Z) : Sink :=
  let all := waiting a ++ bytes in
  if decide (length all <= size) then mkSink (delivered a) all false else mkSink (delivered a ++ take size all) (drop size all) false.

(** [size] bytes at once, or more, do not wait. *)
Definition queue_many (size : nat) a (bytes : list Z) : Sink :=
  if decide (size <= length bytes) then mkSink (delivered a ++ waiting a ++ bytes) [] false else queue size a bytes.

Definition send a (closed : bool) : Sink := mkSink (delivered a ++ waiting a) [] closed.

(** A closed stream drops what is written; a range error comes first unless nothing is written.  A vector
    overtakes the bytes that wait.  A pointer to fewer bytes than asked is undefined.  What a vector and a flush do after
    [close] is left to the stream below, which gets them although it is closed. *)
Definition sink_step (size : nat) a (op : sop) : outcome (Sink * sobs) :=
  match op with
  | Write b => if is_closed a then Ret (a, Done None) else Ret (queue size a [b], Done None)
  | WriteVector data => if is_closed a then Undef else Ret (mkSink (delivered a ++ data) (waiting a) false, Done None)
  | WriteRange data offset len =>
    if bool_decide (len = 0) || is_closed a then Ret (a, Done None) else
    if bad_range data offset len then Ret (a, Done (Some out_of_range)) else Ret (queue_many size a (bytes_of data offset len), Done None)
  | WritePtr buffer len =>
    if bool_decide (len = 0) || is_closed a then Ret (a, Done None) else
    match buffer with
    | None => Ret (a, Done (Some invalid_argument))
    | Some data => if decide (len <= length data) then Ret (queue_many size a (take len data), Done None) else Undef
    end
  | Flush => if is_closed a then Undef else Ret (send a false, Done None)
  | Close => if is_closed a then Ret (a, Done None) else Ret (send a true, Done None)
  | IsClosed => Ret (a, Is (is_closed a))
  | BufferSize => Ret (a, Num size)
  | BufferedDataSize => Ret (a, Num (length (waiting a)))
  end.

Context (open : St -> Prop) (sink : St -> list Z) `{!OutputLaws open sink} `{!VectorLaw open sink}.

Definition delivers (size : nat) (d : BufferedOutputStream St) a : Prop :=
  bufferSize_ d = size /\ sink (output_stream_ (base d)) = delivered a /\ pending d = waiting a /\ buffer_position_ d = length (waiting a) /\
  buffered_closed_ d = is_closed a /\ (is_closed a = false -> buffered_wf open d).

Lemma pending_length d : buffered_wf open d -> length (pending d) = buffer_position_ d.
Proof. intros [_ _ _ Hl Hp]. unfold pending. rewrite length_take. lia. Qed.

(** All bytes in order, and how many of them wait, determine both parts. *)
Lemma delivers_split size d a : buffered_open open d -> bufferSize_ d = size -> is_closed a = false ->
  buffered_sink sink d = delivered a ++ waiting a -> buffer_position_ d = length (waiting a) -> delivers size d a.
Proof.
  intros [Hc Hw] Hsz Hcl Hs Hp. unfold buffered_sink in Hs. apply app_inj_2 in Hs as [Hs1 Hs2]; [|by rewrite (pending_length d Hw)]. split_and!; try done. by rewrite Hcl.
Qed.

Lemma queue_bytes size a bytes : delivered (queue size a bytes) ++ waiting (queue size a bytes) = delivered a ++ waiting a ++ bytes.
Proof. unfold queue. case_decide; cbn [delivered waiting]; [done|]. by rewrite <- (assoc_L (++)), take_drop. Qed.

Lemma queue_length size a bytes : length (waiting (queue size a bytes)) = filled size (length (waiting a)) (length bytes).
Proof. unfold queue, filled. rewrite length_app. case_decide; cbn [waiting]; [by rewrite length_app|]. by rewrite length_drop, length_app. Qed.

Lemma queue_open size a bytes : is_closed (queue size a bytes) = false.
Proof. unfold queue. by case_decide. Qed.

Lemma queue_ok size d d' a bytes : delivers size d a -> buffered_open open d' -> bufferSize_ d' = bufferSize_ d -> buffered_sink sink d' = buffered_sink sink d ++ bytes ->
  buffer_position_ d' = filled (bufferSize_ d) (buffer_position_ d) (length bytes) -> delivers size d' (queue size a bytes).
Proof.
  intros (Hsz & Hs & Hp & Hn & _) Ho Hsz' Hs' Hn'. apply delivers_split; [done|congruence|apply queue_open|rewrite queue_bytes, Hs'; unfold buffered_sink; by rewrite Hs, Hp, (assoc_L (++))|by rewrite queue_length, Hn', Hsz, Hn].
Qed.

Lemma queue_many_ok size d d' a bytes : delivers size d a -> bytes <> [] -> buffered_open open d' -> bufferSize_ d' = bufferSize_ d -> buffered_sink sink d' = buffered_sink sink d ++ bytes ->
  buffer_position_ d' = after_write (bufferSize_ d) (buffer_position_ d) (length bytes) -> delivers size d' (queue_many size a bytes).
Proof.
  intros Hd Hne Ho Hsz' Hs' Hn'. pose proof Hd as (Hsz & Hs & Hp & Hn & _). assert (0 < length bytes) as Hpos by (destruct bytes; [done|cbn; lia]). unfold queue_many, after_write in *. rewrite Hsz in Hn'. destruct (decide (size <= length bytes)) as [Hc|Hc].
  - rewrite decide_True in Hn' by done. apply delivers_split; [done|congruence|done| |done]. cbn. rewrite app_nil_r, Hs'. unfold buffered_sink. by rewrite Hs, Hp, (assoc_L (++)).
  - rewrite decide_False in Hn' by lia. by apply (queue_ok size d); [| | | |rewrite Hn', Hsz].
Qed.

Lemma send_ok size d d' a cl : delivers size d a -> buffer_position_ d' = 0 -> sink (output_stream_ (base d')) = buffered_sink sink d -> bufferSize_ d' = bufferSize_ d -> buffered_closed_ d' = cl -> (cl = false -> buffered_wf open d') -> delivers size d' (send a cl).
Proof.
  intros (Hsz & Hs & Hp & _) Hp' Hs' Hsz' Hc Hw. split_and!; try done; [congruence| |]; cbn; [rewrite Hs'; unfold buffered_sink; by rewrite Hs, Hp|]. unfold pending. by rewrite Hp', take_0.
Qed.

#[export] Instance buffered_simulates size : Simulates sstep (sink_step size) (delivers size).
Proof.
  intros d a op Hd. destruct (Hd) as (Hsz & Hsk & Hpe & Hpo & Hcl & Hwf). assert (forall (m : res (BufferedOutputStream St)) d', m = ok d' -> ('(d1, x) ← m; Ret (d1, Done x)) = Ret (d', Done None)) as Hdone by (by intros m d' ->).
  assert (is_closed a = false -> buffered_open open d) as Hopen by (intros H; split; [congruence|by apply Hwf]). destruct op as [b|data|data offset len|buffer len| | | | |]; cbn [sink_step].
  - destruct (is_closed a) eqn:Ec; [exists d; cbn; unfold buffered_write; by rewrite Hcl|]. destruct (buffered_write_ok open sink d b (Hopen eq_refl)) as (d' & Hw & Ho & Hs' & Hz & Hq). exists d'. split; [by apply Hdone|]. by eapply queue_ok.
  - destruct (is_closed a) eqn:Ec; [done|]. destruct (write_vector_overtakes open sink d data (Hopen eq_refl)) as (d' & Hw & [Hc' Hw'] & Hs' & Hp' & Hz). exists d'. split; [by apply Hdone|]. rewrite Hsk in Hs'. rewrite Hpe in Hp'. split_and!; try done; [congruence|]. cbn. by rewrite <- (pending_length d' Hw'), Hp'.
  - destruct (bool_decide (len = 0) || is_closed a) eqn:Hn; [exists d; cbn; unfold buffered_write_range; rewrite Hcl, decide_True by (apply orb_true_iff in Hn as [Hn%bool_decide_eq_true|]; auto); done|]. apply orb_false_iff in Hn as [Hn%bool_decide_eq_false Ec]. destruct (bad_range data offset len) eqn:Hbad.
    + exists d. cbn. unfold buffered_write_range. rewrite Hcl, Ec, Hbad, decide_False by (by intros [?|?]). done.
    + destruct (buffered_write_range_ok open sink d data offset len (Hopen Ec) Hbad) as (d' & Hw & Ho & Hs' & Hz & Hq). exists d'. split; [by apply Hdone|]. apply range_in_bounds in Hbad. pose proof (bytes_of_length data offset len Hbad) as Hlen. rewrite <- Hlen in Hq at 1. apply (queue_many_ok size d); try done. intros He. rewrite He in Hlen. cbn in Hlen. lia.
  - destruct (bool_decide (len = 0) || is_closed a) eqn:Hn; [exists d; cbn; unfold buffered_write_ptr; rewrite Hcl, decide_True by (apply orb_true_iff in Hn as [Hn%bool_decide_eq_true|]; auto); done|]. apply orb_false_iff in Hn as [Hn%bool_decide_eq_false Ec]. destruct buffer as [data|].
    + case_decide as Hl; [|done]. destruct (buffered_write_ptr_ok open sink d data len (Hopen Ec) Hl) as (d' & Hw & Ho & Hs' & Hz & Hq). exists d'. split; [by apply Hdone|]. assert (length (take len data) = len) as Hlen by (rewrite length_take; lia). rewrite <- Hlen in Hq at 1. apply (queue_many_ok size d); try done. intros He. rewrite He in Hlen. cbn in Hlen. lia.
    + exists d. cbn. unfold buffered_write_ptr. rewrite Hcl, Ec, decide_False by (by intros [?|?]). done.
  - destruct (is_closed a) eqn:Ec; [done|]. destruct (buffered_flush_ok open sink d (Hwf eq_refl)) as (d' & Hw & Hw' & Hp & Hs' & Hc' & Hz). exists d'. split; [by apply Hdone|]. apply (send_ok size d); (done || congruence).
  - destruct (is_closed a) eqn:Ec; [exists d; cbn; unfold buffered_close; by rewrite Hcl|]. destruct (buffered_close_ok open sink d (Hopen eq_refl)) as (d' & Hw & Hc' & Hp & Hs' & Hz). exists d'. split; [by apply Hdone|]. by apply (send_ok size d).
  - exists d. cbn. by rewrite Hcl.
  - exists d. cbn. unfold getBufferSize. by rewrite Hsz.
  - exists d. cbn. unfold getBufferedDataSize. by rewrite Hpo.
Qed.

(** C34: over any lawful stream, every sequence of calls on a new [BufferedOutputStream], of every public method and with no vector
    written nor flush after [close], observes its contract: the bytes written wait in order until more than the size of
    the buffer do, [size] of them at once follow those that wait, a vector goes to the stream before those that wait, and a
    flush, a close and the destructor leave none waiting. *)
Theorem buffered_output_refines s size ops a rs : open s -> 0 < size -> trace (sink_step size) (mkSink (sink s) [] false) ops = Ret (a, rs) ->
  exists d0 d, buffered_new (Some s) size = Ret d0 /\ trace sstep d0 ops = Ret (d, rs) /\ sink (output_stream_ (base d)) = delivered a /\ pending d = waiting a /\
    (is_closed a = false -> exists s', buffered_destroy d = Ret s' /\ sink s' = delivered a ++ waiting a).
Proof.
  intros Ho Hsz Ht. exists (mkBuffered (mkFilter s false) size (replicate size 0%Z) 0 false). assert (delivers size (mkBuffered (mkFilter s false) size (replicate size 0%Z) 0 false) (mkSink (sink s) [] false)) as Hd.
  { split_and!; try done. intros _. split; cbn; rewrite ?length_replicate; (done || lia). }
  destruct (trace_refines (R := delivers size) ops _ _ _ _ Hd Ht) as (d & Hr & (_ & Hs & Hp & _ & _ & Hw)). exists d. split; [unfold buffered_new; cbn; by rewrite decide_False by lia|]. split; [exact Hr|]. split; [exact Hs|]. split; [exact Hp|].
  intros Hc. destruct (buffered_flush_ok open sink d (Hw Hc)) as (d' & Hf & _ & _ & Hs' & _). exists (output_stream_ (base d')). split; [unfold buffered_destroy; by rewrite Hf|]. rewrite Hs'. unfold buffered_sink. by rewrite Hs, Hp.
Qed.
End contract.

(** The decorators stack: the laws of a tower are found by instance search. *)
Lemma tower_lawful : exists open sink, OutputLaws (St := BufferedOutputStream (FilterOutputStream (BufferedOutputStream ByteArrayOutputStream))) open sink.
Proof. eexists _, _. apply _. Qed.

(** ** A stream of three bytes over a byte array *)
Definition sample_calls : list sop := [Write 1; Write 2; WriteRange [9; 3; 4; 9] 1 2; BufferedDataSize; WriteRange [5] 1 1; WritePtr None 4; WriteVector [0]; Flush; WritePtr (Some [5; 6; 7; 8]) 4; Write 9; IsClosed; Close; Write 10; BufferSize]%Z.

Lemma buffered_output_refines_witness : exists d0 d, buffered_new (Some bytes_new) 3 = Ret d0 /\
  trace sstep d0 sample_calls = Ret (d, inl <$> [Done None; Done None; Done None; Num 1; Done (Some out_of_range); Done (Some invalid_argument); Done None; Done None; Done None; Done None; Is false; Done None; Done None; Num 3]) /\
  toByteArray (output_stream_ (base d)) = [1; 2; 3; 0; 4; 5; 6; 7; 8; 9]%Z /\ pending d = [] /\ (true = false -> exists s', buffered_destroy d = Ret s' /\ toByteArray s' = [1; 2; 3; 0; 4; 5; 6; 7; 8; 9]%Z ++ []).
Proof.
  apply (buffered_output_refines bytes_open toByteArray bytes_new 3 sample_calls (mkSink [1; 2; 3; 0; 4; 5; 6; 7; 8; 9]%Z [] true)); [unfold bytes_open; cbn; lia|lia|vm_compute; reflexivity].
Defined.

(** [write] of a vector is written before the byte that is in the buffer, and also after [close]. *)
Theorem buffered_write_vector_overtakes : exists d0 d1 d2 d3 d4 d5, buffered_new (Some bytes_new) 3 = Ret d0 /\ buffered_write d0 1 = ok d1 /\ buffered_write_vector d1 [2; 3]%Z = ok d2 /\
  buffered_flush d2 = ok d3 /\ toByteArray (output_stream_ (base d3)) = [2; 3; 1]%Z /\
  buffered_close d3 = ok d4 /\ buffered_write_vector d4 [4]%Z = ok d5 /\ toByteArray (output_stream_ (base d5)) = [2; 3; 1; 4]%Z.
Proof. eexists _, _, _, _, _, _. split; [vm_compute; reflexivity|]. repeat (split; [vm_compute; reflexivity|]). vm_compute. reflexivity. Qed.
