(* ===== verification/InputStream.v ===== *)
(** * Byte input streams ([io/reader]: AbstractInputStream, ByteArrayInputStream, FilterInputStream, BufferedInputStream, PushbackInputStream)

    The laws of [AbstractInputStream]: a stream is the sequence of the bytes that are left; the reads
    of several bytes take at least one of them, and end of file is reported only when none is
    left.  Byte arrays and filters are lawful, and so is a buffered stream over any lawful
    stream, as long as it is neither reset nor read as a whole vector; a pushback stream refines a
    sequence one can also prepend to.

    A method leaves its object also when it throws.  Bytes are integers, 255 at the end of
    file; positions are natural numbers, and their differences wrap. *)

From S2P Require Import Prelude Refinement Reader.

(** The object after a call, and its value or what it threw. *)
Abbreviation res St A := (outcome (St * (A + exn))%type).

Definition ret {St A} (s : St) (x : A) : res St A := Ret (s, inl x).
Definition throws {St A} (s : St) (e : exn) : res St A := Ret (s, inr e).

Definition call {St D A B} (m : res St A) (wrap : St -> D) (k : St -> A -> res D B) : res D B :=
  '(s, r) ← m; match r with inl x => k s x | inr e => throws (wrap s) e end.

Definition END : Z := 255.

(** ** [class AbstractInputStream]: a read of several bytes returns the buffer and their number. *)
Class AbstractInputStream (St : Type) := {
  is_available : St -> res St nat;
  is_mark : St -> Z -> res St unit;
  is_markSupported : St -> bool;
  is_read : St -> res St Z;
  is_read_vector : St -> list Z -> res St (list Z * nat);
  is_read_range : St -> list Z -> nat -> nat -> res St (list Z * nat);
  is_reset : St -> res St unit;
  is_skip : St -> Z -> res St nat;
  is_close : St -> res St unit;
  is_isClosed : St -> bool;
  is_isEof : St -> bool;
}.

(** The inherited definitions; [set_eof] assigns the flag. *)
Section defaults.
Context {St : Type} (read : St -> res St Z) (isEof : St -> bool) (set_eof : bool -> St -> St).

Definition default_mark (s : St) (readLimit : Z) : res St unit := throws s runtime_error.
Definition default_reset (s : St) : res St unit := throws s runtime_error.

Fixpoint default_read_loop (s : St) (buffer : list Z) (offset i n bytesRead : nat) : res St (list Z * nat) :=
  match n with
  | O => ret s (buffer, bytesRead)
  | S n =>
    if isEof s then ret s (buffer, bytesRead) else
    call (read s) id (fun s b => buffer ← vset buffer (offset + i) b; default_read_loop s buffer offset (i + 1) n (bytesRead + 1))
  end.
Definition default_read_range (s : St) (buffer : list Z) (offset len : nat) : res St (list Z * nat) :=
  if bad_range buffer offset len then throws s out_of_range else default_read_loop (set_eof false s) buffer offset 0 len 0.

Fixpoint default_skip_loop (s : St) (n skipped : nat) : res St nat :=
  match n with
  | O => ret s skipped
  | S n => if isEof s then ret s skipped else call (read s) id (fun s _ => default_skip_loop s n (skipped + 1))
  end.
Definition default_skip (s : St) (n : Z) : res St nat :=
  if decide (n <= 0)%Z then ret s 0 else default_skip_loop (set_eof false s) (Z.to_nat n) 0.
End defaults.

(** ** [class ByteArrayInputStream] *)
Record ByteArrayInputStream := mkBytes { buffer_ : list Z; pos_ : nat; mark_position_ : nat; closed_ : bool; eof_ : bool }.
Implicit Types (a : ByteArrayInputStream).

Definition bytes_new (buf : list Z) : ByteArrayInputStream := mkBytes buf 0 0 false (bool_decide (buf = [])).

(** A new position, with the end-of-file flag set when it is the end. *)
Definition advance a (pos : nat) : ByteArrayInputStream := mkBytes (buffer_ a) pos (mark_position_ a) (closed_ a) (eof_ a || bool_decide (length (buffer_ a) <= pos)).
Definition at_end a : bool := closed_ a || bool_decide (length (buffer_ a) <= pos_ a).

Definition bytes_read a : res ByteArrayInputStream Z :=
  if at_end a then ret (mkBytes (buffer_ a) (pos_ a) (mark_position_ a) (closed_ a) true) END else
  b ← vget (buffer_ a) (pos_ a); ret (advance a (pos_ a + 1)) b.

Definition bytes_read_vector a (cBuf : list Z) : res ByteArrayInputStream (list Z * nat) :=
  if at_end a then ret a (cBuf, 0) else
  let bytesToRead := length cBuf `min` (length (buffer_ a) - pos_ a) in
  cBuf ← copy_n (buffer_ a) (pos_ a) bytesToRead cBuf 0; ret (advance a (pos_ a + bytesToRead)) (cBuf, bytesToRead).

Definition bytes_read_range a (cBuf : list Z) (off len : nat) : res ByteArrayInputStream (list Z * nat) :=
  if bad_range cBuf off len then throws a out_of_range else
  if at_end a then ret a (cBuf, 0) else
  let bytesToRead := len `min` (length (buffer_ a) - pos_ a) in
  cBuf ← copy_n (buffer_ a) (pos_ a) bytesToRead cBuf off; ret (advance a (pos_ a + bytesToRead)) (cBuf, bytesToRead).

Definition bytes_skip a (n : Z) : res ByteArrayInputStream nat :=
  if closed_ a || bool_decide (n <= 0)%Z then ret a 0 else
  let bytesToSkip := Z.to_nat n `min` (length (buffer_ a) - pos_ a) in ret (advance a (pos_ a + bytesToSkip)) bytesToSkip.

Definition bytes_available a : res ByteArrayInputStream nat := if closed_ a then ret a 0 else ret a (length (buffer_ a) - pos_ a).
Definition bytes_reset a : res ByteArrayInputStream unit :=
  if closed_ a then throws a runtime_error else ret (mkBytes (buffer_ a) (mark_position_ a) (mark_position_ a) (closed_ a) false) tt.
Definition bytes_mark a (readLimit : Z) : res ByteArrayInputStream unit :=
  if closed_ a then throws a runtime_error else ret (mkBytes (buffer_ a) (pos_ a) (pos_ a) (closed_ a) (eof_ a)) tt.
Definition bytes_close a : res ByteArrayInputStream unit := ret (mkBytes (buffer_ a) (pos_ a) (mark_position_ a) true true) tt.

#[export] Instance ByteArrayInputStream_stream : AbstractInputStream ByteArrayInputStream := {|
  is_available := bytes_available; is_mark := bytes_mark; is_markSupported _ := true; is_read := bytes_read; is_read_vector := bytes_read_vector;
  is_read_range := bytes_read_range; is_reset := bytes_reset; is_skip := bytes_skip; is_close := bytes_close; is_isClosed := closed_; is_isEof := eof_;
|}.

(** ** [class FilterInputStream] *)
Section filter.
Context {St : Type} `{!AbstractInputStream St}.

(** A null stream is not rejected by the constructor. *)
Record FilterInputStream := mkFilter { input_stream_ : option St; filter_eof_ : bool }.
Implicit Types (f : FilterInputStream).

Definition filter_new (inputStream : option St) : FilterInputStream := mkFilter inputStream false.

(** [validateInputStream], then a call; [eof] tells whether the flag of the stream is taken over. *)
Definition filter_forward {A} (eof : bool) f (m : St -> res St A) : res FilterInputStream A :=
  match input_stream_ f with
  | None => throws f runtime_error
  | Some s => call (m s) (fun s => mkFilter (Some s) (filter_eof_ f)) (fun s x => ret (mkFilter (Some s) (filter_eof_ f || eof && is_isEof s)) x)
  end.

Definition filter_available f := filter_forward false f is_available.
Definition filter_mark f (readLimit : Z) := filter_forward false f (fun s => is_mark s readLimit).
Definition filter_markSupported f : bool := match input_stream_ f with None => false | Some s => is_markSupported s end.
Definition filter_read f := filter_forward true f is_read.
Definition filter_read_vector f (buffer : list Z) := filter_forward true f (fun s => is_read_vector s buffer).
Definition filter_read_range f (buffer : list Z) (offset len : nat) := filter_forward true f (fun s => is_read_range s buffer offset len).
Definition filter_reset f := filter_forward false f is_reset.
Definition filter_skip f (n : Z) := filter_forward true f (fun s => is_skip s n).
Definition filter_close f : res FilterInputStream unit := match input_stream_ f with None => ret f tt | Some _ => filter_forward false f is_close end.
Definition filter_isClosed f : bool := match input_stream_ f with None => true | Some s => is_isClosed s end.

#[export] Instance FilterInputStream_stream : AbstractInputStream FilterInputStream := {|
  is_available := filter_available; is_mark := filter_mark; is_markSupported := filter_markSupported; is_read := filter_read; is_read_vector := filter_read_vector;
  is_read_range := filter_read_range; is_reset := filter_reset; is_skip := filter_skip; is_close := filter_close; is_isClosed := filter_isClosed; is_isEof := filter_eof_;
|}.
End filter.
Arguments FilterInputStream : clear implicits.

(** ** [class BufferedInputStream] *)
Section buffered.
Context {St : Type} `{!AbstractInputStream St}.

Record BufferedInputStream := mkBuffered { base : FilterInputStream St; buf_ : list Z; count_ : nat; mark_limit_ : Z; mark_pos_ : nat; buffered_pos_ : nat }.
Implicit Types (d : BufferedInputStream).

Definition DEFAULT_BUFFER_SIZE : nat := Z.to_nat 8192.

Definition buffered_new (inp : option St) (size : nat) : outcome BufferedInputStream :=
  let base := filter_new inp in
  match inp with None => Throw invalid_argument | Some _ => if decide (size = 0) then Throw invalid_argument else Ret (mkBuffered base (replicate size 0%Z) 0 0 0 0) end.
Definition buffered_default (inp : option St) : outcome BufferedInputStream := buffered_new inp DEFAULT_BUFFER_SIZE.

Definition put_base d (f : FilterInputStream St) : BufferedInputStream := mkBuffered f (buf_ d) (count_ d) (mark_limit_ d) (mark_pos_ d) (buffered_pos_ d).
Definition put_stream d (s : St) : BufferedInputStream := put_base d (mkFilter (Some s) (filter_eof_ (base d))).
Definition put_pos d (pos : nat) : BufferedInputStream := mkBuffered (base d) (buf_ d) (count_ d) (mark_limit_ d) (mark_pos_ d) pos.
Definition put_eof d : BufferedInputStream := put_base d (mkFilter (input_stream_ (base d)) true).

(** [input_stream_->f(...)] *)
Definition inner_call {A B} d (m : St -> res St A) (k : BufferedInputStream -> A -> res BufferedInputStream B) : res BufferedInputStream B :=
  match input_stream_ (base d) with None => Undef | Some s => call (m s) (put_stream d) (fun s => k (put_stream d s)) end.

(** [count_ - pos_], of 64 bits. *)
Definition bytesAvailable d : Z := u64 (Z.of_nat (count_ d) - Z.of_nat (buffered_pos_ d)).

(** Const: it does not override the inherited [available]. *)
Definition buffered_available d : res BufferedInputStream Z := inner_call d is_available (fun d n => ret d (u64 (bytesAvailable d + Z.of_nat n))).

Definition buffered_close d : res BufferedInputStream unit := inner_call d is_close (fun d _ => ret (mkBuffered (base d) [] (count_ d) (mark_limit_ d) (mark_pos_ d) (buffered_pos_ d)) tt).

Definition buffered_mark d (readLimit : Z) : res BufferedInputStream unit :=
  let d := mkBuffered (base d) (buf_ d) (count_ d) (u64 readLimit) (mark_pos_ d) (buffered_pos_ d) in
  inner_call d (fun s => is_mark s readLimit) (fun d _ => ret (mkBuffered (base d) (buf_ d) (count_ d) (mark_limit_ d) (buffered_pos_ d) (buffered_pos_ d)) tt).

Definition fillBuffer d : res BufferedInputStream unit :=
  inner_call d (fun s => is_read_range s (buf_ d) 0 (length (buf_ d))) (fun d '(buf, count) => ret (mkBuffered (base d) buf count (mark_limit_ d) (mark_pos_ d) 0) tt).

Definition take_byte d : res BufferedInputStream Z := b ← vget (buf_ d) (buffered_pos_ d); ret (put_pos d (buffered_pos_ d + 1)) b.

Definition buffered_read d : res BufferedInputStream Z :=
  if decide (count_ d <= buffered_pos_ d) then
    call (fillBuffer d) id (fun d _ => if decide (count_ d <= buffered_pos_ d) then ret (put_eof d) END else take_byte d)
  else take_byte d.

(** [x] are the variables the operation captures by reference. *)
Definition processWithBuffer {X} d (x : X) (op : BufferedInputStream -> Z -> X -> res BufferedInputStream (X * nat)) : res BufferedInputStream (X * nat) :=
  if decide (bytesAvailable d = 0%Z) then
    call (fillBuffer d) id (fun d _ => if decide (bytesAvailable d = 0%Z) then ret d (x, 0%nat) else op d (bytesAvailable d) x)
  else op d (bytesAvailable d) x.

Definition read_chunk d (available : Z) '((buffer, currentOffset, remainingLen) : list Z * nat * nat) : res BufferedInputStream (list Z * nat * nat * nat) :=
  let bytesToRead := Z.to_nat (Z.min (Z.of_nat remainingLen) available) in
  buffer ← copy_n (buf_ d) (buffered_pos_ d) bytesToRead buffer currentOffset;
  ret (put_pos d (buffered_pos_ d + bytesToRead)) (buffer, currentOffset + bytesToRead, remainingLen - bytesToRead, bytesToRead).

Fixpoint buffered_read_loop (fuel : nat) d (buffer : list Z) (currentOffset remainingLen totalBytesRead : nat) : res BufferedInputStream (list Z * nat) :=
  match fuel with
  | O => NoFuel
  | S fuel =>
    if decide (0 < remainingLen) then
      call (processWithBuffer d (buffer, currentOffset, remainingLen) read_chunk) id (fun d '(buffer, currentOffset, remainingLen, bytesProcessed) =>
        if decide (bytesProcessed = 0) then ret d (buffer, totalBytesRead)
        else buffered_read_loop fuel d buffer currentOffset remainingLen (totalBytesRead + bytesProcessed))
    else ret d (buffer, totalBytesRead)
  end.

Definition buffered_read_range d (buffer : list Z) (offset len : nat) : res BufferedInputStream (list Z * nat) :=
  if bad_range buffer offset len then throws d out_of_range else
  if decide (len = 0) then ret d (buffer, 0) else buffered_read_loop (len + 1) d buffer offset len 0.

Definition buffered_reset d : res BufferedInputStream unit := inner_call (put_pos d (mark_pos_ d)) is_reset (fun d _ => ret d tt).

Definition skip_chunk d (available : Z) (remaining : nat) : res BufferedInputStream (nat * nat) :=
  let bytesToSkip := Z.to_nat (Z.min (Z.of_nat remaining) available) in ret (put_pos d (buffered_pos_ d + bytesToSkip)) (remaining - bytesToSkip, bytesToSkip).

Fixpoint buffered_skip_loop (fuel : nat) d (remaining skipped : nat) : res BufferedInputStream nat :=
  match fuel with
  | O => NoFuel
  | S fuel =>
    if decide (0 < remaining) then
      call (processWithBuffer d remaining skip_chunk) id (fun d '(remaining, bytesProcessed) =>
        if decide (bytesProcessed = 0) then ret d skipped else buffered_skip_loop fuel d remaining (skipped + bytesProcessed))
    else ret d skipped
  end.

Definition buffered_skip d (n : Z) : res BufferedInputStream nat := if decide (n <= 0)%Z then ret d 0 else buffered_skip_loop (Z.to_nat n + 1) d (Z.to_nat n) 0.

Definition buffered_isClosed d : bool := match input_stream_ (base d) with None => true | Some s => is_isClosed s end.

(** The operations the class inherits from [FilterInputStream]. *)
Definition inherited {A} d (m : FilterInputStream St -> res (FilterInputStream St) A) : res BufferedInputStream A := call (m (base d)) (put_base d) (fun f => ret (put_base d f)).

#[export] Instance BufferedInputStream_stream : AbstractInputStream BufferedInputStream := {|
  is_available d := inherited d filter_available; is_mark := buffered_mark; is_markSupported _ := true; is_read := buffered_read;
  is_read_vector d buffer := inherited d (fun f => filter_read_vector f buffer);
  is_read_range := buffered_read_range; is_reset := buffered_reset; is_skip := buffered_skip; is_close := buffered_close; is_isClosed := buffered_isClosed; is_isEof d := filter_eof_ (base d);
|}.
End buffered.
Arguments BufferedInputStream : clear implicits.

(** ** [class PushbackInputStream] *)
Section pushback.
Context {St : Type} `{!AbstractInputStream St}.

Record PushbackInputStream := mkPushback { pushback_base : FilterInputStream St; pushback_buffer_ : list Z; buffer_pos_ : nat }.
Implicit Types (p : PushbackInputStream).

Definition pushback_new (inputStream : option St) (bufferSize : nat) : PushbackInputStream := mkPushback (filter_new inputStream) (replicate bufferSize 0%Z) bufferSize.

Definition pushback_put p (f : FilterInputStream St) : PushbackInputStream := mkPushback f (pushback_buffer_ p) (buffer_pos_ p).
Definition pushback_at p (pos : nat) : PushbackInputStream := mkPushback (pushback_base p) (pushback_buffer_ p) pos.

(** An operation of the base class; its null check is the one of the callers. *)
Definition below_call {A B} p (m : FilterInputStream St -> res (FilterInputStream St) A) (k : PushbackInputStream -> A -> res PushbackInputStream B) : res PushbackInputStream B :=
  call (m (pushback_base p)) (pushback_put p) (fun f => k (pushback_put p f)).

Definition pushback_available p : res PushbackInputStream nat := below_call p filter_available (fun p n => ret p (length (pushback_buffer_ p) - buffer_pos_ p + n)).

Definition is_null p : bool := match input_stream_ (pushback_base p) with None => true | Some _ => false end.

Definition pushback_read p : res PushbackInputStream Z :=
  if is_null p then throws p runtime_error else
  if decide (buffer_pos_ p < length (pushback_buffer_ p)) then b ← vget (pushback_buffer_ p) (buffer_pos_ p); ret (pushback_at p (buffer_pos_ p + 1)) b
  else below_call p filter_read ret.

(** [n] bytes at most. *)
Fixpoint pushed_loop (n : nat) p (buffer : list Z) (offset bytesRead : nat) : outcome (PushbackInputStream * list Z * nat) :=
  match n with
  | O => Ret (p, buffer, bytesRead)
  | S n =>
    if decide (buffer_pos_ p < length (pushback_buffer_ p)) then
      b ← vget (pushback_buffer_ p) (buffer_pos_ p);
      buffer ← vset buffer (offset + bytesRead) b;
      pushed_loop n (pushback_at p (buffer_pos_ p + 1)) buffer offset (bytesRead + 1)
    else Ret (p, buffer, bytesRead)
  end.

Definition bad_start (buffer : list Z) (offset len : nat) : bool := bool_decide (length buffer <= offset \/ length buffer - offset < len).

Definition pushback_read_range p (buffer : list Z) (offset len : nat) : res PushbackInputStream (list Z * nat) :=
  if is_null p then throws p runtime_error else
  if bad_start buffer offset len then throws p out_of_range else
  '(p, buffer, bytesRead) ← pushed_loop len p buffer offset 0;
  if decide (bytesRead < len) then
    below_call p (fun f => filter_read_range f buffer (offset + bytesRead) (len - bytesRead)) (fun p '(buffer, n) => ret p (buffer, bytesRead + n))
  else ret p (buffer, bytesRead).

Definition pushback_read_vector p (buffer : list Z) : res PushbackInputStream (list Z * nat) :=
  if is_null p then throws p runtime_error else pushback_read_range p buffer 0 (length buffer).

Definition unread p (b : Z) : res PushbackInputStream unit :=
  if decide (buffer_pos_ p = 0) then throws p overflow_error else
  buffer ← vset (pushback_buffer_ p) (buffer_pos_ p - 1) b; ret (mkPushback (pushback_base p) buffer (buffer_pos_ p - 1)) tt.

(** [pushback_buffer_[--buffer_pos_] = buffer[offset + len - i - 1]], from the last byte to the first. *)
Fixpoint unread_loop p (buffer : list Z) (offset n : nat) : outcome PushbackInputStream :=
  match n with
  | O => Ret p
  | S n =>
    b ← vget buffer (offset + n);
    pushed ← vset (pushback_buffer_ p) (buffer_pos_ p - 1) b;
    unread_loop (mkPushback (pushback_base p) pushed (buffer_pos_ p - 1)) buffer offset n
  end.

Definition unread_range p (buffer : list Z) (offset len : nat) : res PushbackInputStream unit :=
  if bad_start buffer offset len then throws p out_of_range else
  if decide (buffer_pos_ p < len) then throws p overflow_error else p ← unread_loop p buffer offset len; ret p tt.
Definition unread_all p (buffer : list Z) : res PushbackInputStream unit := unread_range p buffer 0 (length buffer).

Definition pushback_isClosed p : bool := match input_stream_ (pushback_base p) with None => true | Some s => is_isClosed s end.

#[export] Instance PushbackInputStream_stream : AbstractInputStream PushbackInputStream := {|
  is_available := pushback_available; is_mark p limit := below_call p (fun f => filter_mark f limit) ret; is_markSupported p := filter_markSupported (pushback_base p);
  is_read := pushback_read; is_read_vector := pushback_read_vector; is_read_range := pushback_read_range;
  is_reset p := below_call p filter_reset ret; is_skip p n := below_call p (fun f => filter_skip f n) ret; is_close p := below_call p filter_close ret;
  is_isClosed := pushback_isClosed; is_isEof p := filter_eof_ (pushback_base p);
|}.
End pushback.
Arguments PushbackInputStream : clear implicits.

(** ** The laws *)
Section laws.
Context {St : Type} `{!AbstractInputStream St}.

(** [n] bytes of those that are left: some of them, if there are any. *)
Definition chunk (len n : nat) (left : list Z) : Prop := n <= len /\ n <= length left /\ (0 < len -> left <> [] -> 0 < n).

Class InputLaws (is_open : St -> Prop) (rest : St -> list Z) : Prop := {
  law_read : forall s, is_open s -> exists s', is_read s = ret s' (default END (head (rest s))) /\ is_open s' /\ rest s' = tail (rest s);
  law_range : forall s buffer off len, is_open s -> bad_range buffer off len = false -> exists s' n,
    is_read_range s buffer off len = ret s' (write buffer off (take n (rest s)), n) /\ chunk len n (rest s) /\ is_open s' /\ rest s' = drop n (rest s);
  law_bad : forall s buffer off len, is_open s -> bad_range buffer off len = true -> is_read_range s buffer off len = throws s out_of_range;
  law_skip : forall s n, is_open s -> exists s' k, is_skip s n = ret s' k /\ chunk (Z.to_nat n) k (rest s) /\ is_open s' /\ rest s' = drop k (rest s);
  law_available : forall s, is_open s -> exists s' n, is_available s = ret s' n /\ n <= length (rest s) /\ is_open s' /\ rest s' = rest s;
  law_eof : forall s, is_open s -> is_isEof s = true -> rest s = [];
}.

(** A stream whose reads stop short only at the end. *)
Class ExactLaws (is_open : St -> Prop) (rest : St -> list Z) : Prop := {
  exact_range : forall s buffer off len, is_open s -> bad_range buffer off len = false -> exists s', is_read_range s buffer off len = ret s' (write buffer off (take len (rest s)), len `min` length (rest s)) /\ is_open s' /\ rest s' = drop len (rest s);
  exact_skip : forall s n, is_open s -> exists s', is_skip s n = ret s' (Z.to_nat n `min` length (rest s)) /\ is_open s' /\ rest s' = drop (Z.to_nat n) (rest s);
}.
End laws.

Lemma chunk_min len (left : list Z) : chunk len (len `min` length left) left.
Proof. split_and!; [lia|lia|]. intros Hl Hne. destruct left; [done|]. cbn. lia. Qed.

Lemma take_min_length (l : list Z) n : take (n `min` length l) l = take n l.
Proof. destruct (decide (n <= length l)); [by rewrite Nat.min_l|]. by rewrite Nat.min_r, !firstn_all2 by lia. Qed.

Lemma drop_min_length (l : list Z) n : drop (n `min` length l) l = drop n l.
Proof. destruct (decide (n <= length l)); [by rewrite Nat.min_l|]. by rewrite Nat.min_r, !skipn_all2 by lia. Qed.

Lemma in_range (buffer : list Z) off len : bad_range buffer off len = false -> off + len <= length buffer.
Proof. unfold bad_range. rewrite bool_decide_eq_false. lia. Qed.

Lemma call_ret {St D A B} (s : St) (x : A) (wrap : St -> D) (k : St -> A -> res D B) : call (ret s x) wrap k = k s x.
Proof. done. Qed.

(** ** Byte arrays *)
Definition bytes_rest (a : ByteArrayInputStream) : list Z := drop (pos_ a) (buffer_ a).
Record bytes_open (a : ByteArrayInputStream) : Prop := {
  bo_open : closed_ a = false;
  bo_pos : pos_ a <= length (buffer_ a);
  bo_mark : mark_position_ a <= length (buffer_ a);
  bo_eof : eof_ a = true -> bytes_rest a = [];
}.

Section bytes_laws.

Lemma bytes_new_open buf : bytes_open (bytes_new buf) /\ bytes_rest (bytes_new buf) = buf.
Proof. split; [|done]. split; cbn; [done|lia|lia|]. intros ->%bool_decide_eq_true. done. Qed.

Lemma bytes_left a : length (bytes_rest a) = length (buffer_ a) - pos_ a.
Proof. unfold bytes_rest. apply length_drop. Qed.

Lemma advance_open a n : bytes_open a -> n <= length (bytes_rest a) -> bytes_open (advance a (pos_ a + n)) /\ bytes_rest (advance a (pos_ a + n)) = drop n (bytes_rest a).
Proof.
  intros [Hc Hp Hm He] Hn. rewrite bytes_left in Hn. assert (bytes_rest (advance a (pos_ a + n)) = drop n (bytes_rest a)) as Hr by (unfold bytes_rest; cbn; by rewrite drop_drop).
  split; [|done]. split; [done|cbn; lia|done|]. intros Ht. rewrite Hr. cbn in Ht. apply orb_true_iff in Ht as [Ht|Ht%bool_decide_eq_true]; [by rewrite (He Ht), drop_nil|]. apply drop_ge. rewrite bytes_left. lia.
Qed.

Lemma at_end_open a : bytes_open a -> at_end a = bool_decide (bytes_rest a = []).
Proof.
  intros [Hc Hp _ _]. unfold at_end. rewrite Hc. cbn. apply bool_decide_ext. rewrite <- length_zero_iff_nil, bytes_left. lia.
Qed.

Lemma bytes_read_ok a : bytes_open a -> exists a', bytes_read a = ret a' (default END (head (bytes_rest a))) /\ bytes_open a' /\ bytes_rest a' = tail (bytes_rest a).
Proof.
  intros Ho. unfold bytes_read. rewrite at_end_open by done. case_bool_decide as He.
  - eexists. split; [by rewrite He|]. unfold bytes_rest in *. cbn. rewrite He. split; [|done]. by destruct Ho.
  - destruct (bytes_rest a) as [|b t] eqn:Hr; [done|]. assert (buffer_ a !! pos_ a = Some b) as Hb by (unfold bytes_rest in Hr; by rewrite <- (Nat.add_0_r (pos_ a)), <- lookup_drop, Hr).
    unfold vget. rewrite Hb, bind_Ret. destruct (advance_open a 1 Ho) as [Ho' Hr']; [rewrite Hr; cbn; lia|]. eexists. split; [done|]. split; [exact Ho'|]. by rewrite Hr', Hr.
Qed.

(** Both reads of several bytes copy what is left, as far as it fits. *)
Lemma bytes_copy_ok a cBuf off len : bytes_open a -> off + len <= length cBuf ->
  exists a', (if at_end a then ret a (cBuf, 0%nat) else
    let bytesToRead := len `min` (length (buffer_ a) - pos_ a) in
    cBuf ← copy_n (buffer_ a) (pos_ a) bytesToRead cBuf off; ret (advance a (pos_ a + bytesToRead)) (cBuf, bytesToRead)) = ret a' (write cBuf off (take len (bytes_rest a)), len `min` length (bytes_rest a)) /\
  bytes_open a' /\ bytes_rest a' = drop len (bytes_rest a).
Proof.
  intros Ho Hl. rewrite at_end_open by done. case_bool_decide as He.
  - exists a. rewrite He, take_nil, drop_nil, write_nil, Nat.min_0_r. done.
  - cbv zeta. rewrite <- bytes_left. pose proof (bo_pos a Ho) as Hp. pose proof (bytes_left a) as Hb. rewrite copy_n_ok by lia. rewrite bind_Ret. destruct (advance_open a (len `min` length (bytes_rest a)) Ho) as [Ho' Hr']; [lia|].
    eexists. split; [|split; [exact Ho'|by rewrite Hr', drop_min_length]]. fold (bytes_rest a). by rewrite take_min_length.
Qed.

Lemma bytes_skip_ok a n : bytes_open a -> exists a', bytes_skip a n = ret a' (Z.to_nat n `min` length (bytes_rest a)) /\ bytes_open a' /\ bytes_rest a' = drop (Z.to_nat n) (bytes_rest a).
Proof.
  intros Ho. unfold bytes_skip. rewrite (bo_open a Ho). cbn [orb]. case_bool_decide as Hn; [exists a; by replace (Z.to_nat n) with 0 by lia|]. rewrite <- bytes_left. cbv zeta.
  destruct (advance_open a (Z.to_nat n `min` length (bytes_rest a)) Ho) as [Ho' Hr']; [lia|]. eexists. split; [done|]. split; [exact Ho'|by rewrite Hr', drop_min_length].
Qed.

#[export] Instance bytes_exact : ExactLaws bytes_open bytes_rest.
Proof.
  split; [|intros a n Ho; by apply bytes_skip_ok]. intros a buffer off len Ho Hb. cbn. unfold bytes_read_range. rewrite Hb. apply bytes_copy_ok; [done|by apply in_range].
Qed.

#[export] Instance bytes_lawful : InputLaws bytes_open bytes_rest.
Proof.
  split.
  - intros a Ho. by apply bytes_read_ok.
  - intros a buffer off len Ho Hb. destruct (exact_range a buffer off len Ho Hb) as (a' & Hr & Ho' & Hd). exists a', (len `min` length (bytes_rest a)). rewrite take_min_length, drop_min_length. split_and!; [exact Hr|apply chunk_min..|done|done].
  - intros a buffer off len Ho Hb. cbn. unfold bytes_read_range. by rewrite Hb.
  - intros a n Ho. destruct (exact_skip a n Ho) as (a' & Hr & Ho' & Hd). exists a', (Z.to_nat n `min` length (bytes_rest a)). rewrite drop_min_length. split_and!; [exact Hr|apply chunk_min..|done|done].
  - intros a Ho. exists a, (length (bytes_rest a)). split; [cbn; unfold bytes_available; by rewrite (bo_open a Ho), bytes_left|done].
  - intros a Ho. apply (bo_eof a Ho).
Qed.

(** [reset] goes back to the mark. *)
Lemma bytes_mark_reset a limit : bytes_open a -> exists a1, bytes_mark a limit = ret a1 tt /\ bytes_rest a1 = bytes_rest a /\
  forall a2, bytes_open a2 -> buffer_ a2 = buffer_ a1 -> mark_position_ a2 = mark_position_ a1 -> exists a3, bytes_reset a2 = ret a3 tt /\ bytes_open a3 /\ bytes_rest a3 = bytes_rest a.
Proof.
  intros [Hc Hp Hm He]. unfold bytes_mark. rewrite Hc. eexists. split; [done|]. split; [done|]. intros a2 [Hc2 Hp2 Hm2 He2] Hb Hk. unfold bytes_reset. rewrite Hc2. eexists. split; [done|]. cbn in *. split; [split; cbn; rewrite ?Hb; (done || lia)|]. unfold bytes_rest. cbn. by rewrite Hb, Hk.
Qed.

(** The inherited [read] of several bytes, at the end of a byte array, counts a byte that is not there. *)
Lemma default_read_phantom : exists a a', bytes_open a /\ bytes_rest a = [] /\ default_read_range bytes_read eof_ (fun e a => mkBytes (buffer_ a) (pos_ a) (mark_position_ a) (closed_ a) e) a [0; 0]%Z 0 2 = ret a' ([255; 0]%Z, 1).
Proof. exists (bytes_new []). eexists. split; [apply bytes_new_open|]. split; [done|]. vm_compute. reflexivity. Qed.
End bytes_laws.

(** ** Filters *)
Section filter_laws.
Context {St : Type} `{!AbstractInputStream St} (is_open : St -> Prop) (rest : St -> list Z) `{!InputLaws is_open rest}.
Implicit Types (f : FilterInputStream St).

Definition filter_rest f : list Z := match input_stream_ f with None => [] | Some s => rest s end.
Definition filter_open f : Prop := (exists s, input_stream_ f = Some s /\ is_open s) /\ (filter_eof_ f = true -> filter_rest f = []).

Lemma filter_new_open s : is_open s -> filter_open (filter_new (Some s)).
Proof. split; [by exists s|done]. Qed.

(** A call that leaves a part of the bytes. *)
Lemma input_forward_ok {A} (take_eof : bool) f (m : St -> res St A) s s' x n : filter_open f -> input_stream_ f = Some s ->
  m s = ret s' x -> is_open s' -> rest s' = drop n (rest s) ->
  exists f', filter_forward take_eof f m = ret f' x /\ filter_open f' /\ filter_rest f' = drop n (filter_rest f).
Proof.
  intros [_ He] Hs Hm Ho Hr. unfold filter_forward. rewrite Hs, Hm, call_ret. eexists. split; [done|]. assert (filter_rest f = rest s) as Hf by (unfold filter_rest; by rewrite Hs). rewrite Hf in *. split; [|unfold filter_rest; cbn; exact Hr].
  split; [by exists s'|]. cbn. unfold filter_rest. cbn. intros [Ht|[_ Ht]%andb_true_iff]%orb_true_iff; [by rewrite Hr, (He Ht), drop_nil|by apply law_eof].
Qed.

Lemma filter_inner f : filter_open f -> exists s, input_stream_ f = Some s /\ is_open s /\ filter_rest f = rest s.
Proof. intros [(s & Hs & Ho) _]. exists s. split; [done|]. split; [done|]. unfold filter_rest. by rewrite Hs. Qed.

Lemma drop_1_tail (l : list Z) : drop 1 l = tail l.
Proof. by destruct l. Qed.

#[export] Instance filter_lawful : InputLaws filter_open filter_rest.
Proof.
  split.
  - intros f Hf. destruct (filter_inner f Hf) as (s & Hs & Ho & ->). destruct (law_read s Ho) as (s' & Hr & Ho' & Ht). rewrite <- drop_1_tail in Ht. destruct (input_forward_ok true f is_read s s' _ 1 Hf Hs Hr Ho' Ht) as (f' & Hf' & Hof & Hrf). exists f'. split; [exact Hf'|]. split; [done|]. rewrite Hrf, drop_1_tail. unfold filter_rest. by rewrite Hs.
  - intros f buffer off len Hf Hb. destruct (filter_inner f Hf) as (s & Hs & Ho & He). rewrite He. destruct (law_range s buffer off len Ho Hb) as (s' & n & Hr & Hc & Ho' & Ht). destruct (input_forward_ok true f (fun s => is_read_range s buffer off len) s s' _ n Hf Hs Hr Ho' Ht) as (f' & Hf' & Hof & Hrf). exists f', n. split; [exact Hf'|]. split; [done|]. split; [done|]. by rewrite Hrf, He.
  - intros f buffer off len Hf Hb. destruct (filter_inner f Hf) as (s & Hs & Ho & _). cbn. unfold filter_read_range, filter_forward. rewrite Hs, law_bad by done. cbn. rewrite <- Hs. by destruct f.
  - intros f n Hf. destruct (filter_inner f Hf) as (s & Hs & Ho & He). rewrite He. destruct (law_skip s n Ho) as (s' & k & Hr & Hc & Ho' & Ht). destruct (input_forward_ok true f (fun s => is_skip s n) s s' _ k Hf Hs Hr Ho' Ht) as (f' & Hf' & Hof & Hrf). exists f', k. split; [exact Hf'|]. split; [done|]. split; [done|]. by rewrite Hrf, He.
  - intros f Hf. destruct (filter_inner f Hf) as (s & Hs & Ho & He). rewrite He. destruct (law_available s Ho) as (s' & n & Hr & Hn & Ho' & Ht). destruct (input_forward_ok false f is_available s s' _ 0 Hf Hs Hr Ho') as (f' & Hf' & Hof & Hrf); [by rewrite drop_0|]. exists f', n. split; [exact Hf'|]. split; [done|]. split; [done|]. by rewrite Hrf, He, drop_0.
  - intros f [_ He]. exact He.
Qed.

#[export] Instance filter_exact `{!ExactLaws is_open rest} : ExactLaws filter_open filter_rest.
Proof.
  split.
  - intros f buffer off len Hf Hb. destruct (filter_inner f Hf) as (s & Hs & Ho & He). rewrite He. destruct (exact_range s buffer off len Ho Hb) as (s' & Hr & Ho' & Ht). destruct (input_forward_ok true f (fun s => is_read_range s buffer off len) s s' _ len Hf Hs Hr Ho' Ht) as (f' & Hf' & Hof & Hrf). exists f'. split; [exact Hf'|]. split; [done|]. by rewrite Hrf, He.
  - intros f n Hf. destruct (filter_inner f Hf) as (s & Hs & Ho & He). rewrite He. destruct (exact_skip s n Ho) as (s' & Hr & Ho' & Ht). destruct (input_forward_ok true f (fun s => is_skip s n) s s' _ (Z.to_nat n) Hf Hs Hr Ho' Ht) as (f' & Hf' & Hof & Hrf). exists f'. split; [exact Hf'|]. split; [done|]. by rewrite Hrf, He.
Qed.
End filter_laws.

(** ** Buffered streams read exactly *)
Section buffered_laws.
Context {St : Type} `{!AbstractInputStream St} (is_open : St -> Prop) (rest : St -> list Z) `{!InputLaws is_open rest}.
Implicit Types (d : BufferedInputStream St).

Definition buffered_bytes d : list Z := drop (buffered_pos_ d) (take (count_ d) (buf_ d)).
Definition buffered_rest d : list Z := buffered_bytes d ++ filter_rest rest (base d).

Record buffered_open d : Prop := {
  io_base : exists s, input_stream_ (base d) = Some s /\ is_open s;
  io_buf : 0 < length (buf_ d);
  io_count : count_ d <= length (buf_ d);
  io_pos : buffered_pos_ d <= count_ d;
  io_size : (Z.of_nat (length (buf_ d)) < 2 ^ 64)%Z;
  io_eof : filter_eof_ (base d) = true -> buffered_rest d = [];
}.

Lemma bytesAvailable_open d : buffered_open d -> bytesAvailable d = Z.of_nat (count_ d - buffered_pos_ d).
Proof. intros [_ _ Hc Hp Hs _]. unfold bytesAvailable, u64. rewrite Z.mod_small by lia. lia. Qed.

Lemma length_buffered d : buffered_open d -> length (buffered_bytes d) = count_ d - buffered_pos_ d.
Proof. intros [_ _ Hc Hp _ _]. unfold buffered_bytes. rewrite length_drop, length_take. lia. Qed.

Lemma buffered_new_open s size : is_open s -> 0 < size -> (Z.of_nat size < 2 ^ 64)%Z -> exists d, buffered_new (Some s) size = Ret d /\ buffered_open d /\ buffered_rest d = rest s /\ filter_eof_ (base d) = false.
Proof.
  intros Ho Hs Hz. unfold buffered_new. rewrite decide_False by lia. eexists. split; [done|]. split; [|done]. split; cbn; rewrite ?length_replicate; [by exists s|done|lia|lia|done|done].
Qed.

(** Moving the position takes bytes off the front. *)
Lemma put_pos_ok d n : buffered_open d -> n <= length (buffered_bytes d) -> buffered_open (put_pos d (buffered_pos_ d + n)) /\ buffered_rest (put_pos d (buffered_pos_ d + n)) = drop n (buffered_rest d) /\ filter_eof_ (base (put_pos d (buffered_pos_ d + n))) = filter_eof_ (base d).
Proof.
  intros Hd Hn. pose proof (length_buffered d Hd) as Hl. destruct Hd as [Hb Hz Hc Hp Hs He]. assert (buffered_rest (put_pos d (buffered_pos_ d + n)) = drop n (buffered_rest d)) as Hr.
  { unfold buffered_rest. rewrite drop_app_le by done. f_equal. unfold buffered_bytes. cbn. by rewrite drop_drop. }
  split; [|done]. split; cbn; [done|done|done|lia|done|]. intros Ht. transitivity (drop n (buffered_rest d)); [exact Hr|by rewrite (He Ht), drop_nil].
Qed.

(** An empty buffer is filled with bytes of the stream, and stays empty only at the end. *)
Lemma fillBuffer_ok d : buffered_open d -> buffered_bytes d = [] -> exists d', fillBuffer d = ret d' tt /\ buffered_open d' /\ buffered_rest d' = buffered_rest d /\ filter_eof_ (base d') = filter_eof_ (base d) /\ (buffered_bytes d' = [] -> buffered_rest d = []).
Proof.
  intros Hd Hb. destruct Hd as [(s & Hs & Ho) Hz Hc Hp Hz2 He]. assert (buffered_rest d = rest s) as Hrd by (unfold buffered_rest, filter_rest; by rewrite Hb, Hs). rewrite Hrd in *.
  unfold fillBuffer, inner_call. rewrite Hs. destruct (law_range s (buf_ d) 0 (length (buf_ d)) Ho) as (s' & n & -> & (Hn1 & Hn2 & Hn3) & Ho' & Hr'); [unfold bad_range; rewrite bool_decide_eq_false; lia|]. rewrite call_ret. eexists. split; [done|].
  assert (length (take n (rest s)) = n) as Hln by (rewrite length_take; lia).
  assert (take n (write (buf_ d) 0 (take n (rest s))) = take n (rest s)) as Htw by (unfold write; rewrite take_0, app_nil_l; by rewrite take_app_length' by lia).
  assert (buffered_rest (mkBuffered (mkFilter (Some s') (filter_eof_ (base d))) (write (buf_ d) 0 (take n (rest s))) n (mark_limit_ d) (mark_pos_ d) 0) = rest s) as Hr.
  { unfold buffered_rest, buffered_bytes, filter_rest. cbn [buf_ count_ buffered_pos_ base input_stream_]. rewrite drop_0, Htw, Hr'. apply take_drop. }
  split; [split; cbn [base buf_ count_ buffered_pos_ input_stream_ filter_eof_ put_stream put_base mark_limit_ mark_pos_]; rewrite ?length_write by lia; [by exists s'|done|lia|lia|done|]; intros Ht; rewrite Hr; by apply He|]. split; [exact Hr|]. split; [done|].
  intros Hbb. unfold buffered_bytes in Hbb. cbn [buf_ count_ buffered_pos_] in Hbb. rewrite drop_0, Htw in Hbb. destruct (rest s) as [|b t]; [done|]. rewrite Hbb in Hln. cbn in Hln. specialize (Hn3 Hz). exfalso. assert (0 < n) by (by apply Hn3). lia.
Qed.

Lemma empty_bytes d : buffered_open d -> count_ d <= buffered_pos_ d <-> buffered_bytes d = [].
Proof. intros Hd. rewrite <- length_zero_iff_nil, length_buffered by done. lia. Qed.

Lemma take_byte_ok d : buffered_open d -> buffered_bytes d <> [] -> exists d', take_byte d = ret d' (default END (head (buffered_rest d))) /\ buffered_open d' /\ buffered_rest d' = tail (buffered_rest d) /\ filter_eof_ (base d') = filter_eof_ (base d).
Proof.
  intros Hd Hb. destruct (buffered_bytes d) as [|b t] eqn:Hbb; [done|]. assert (buf_ d !! buffered_pos_ d = Some b) as Hlk.
  { pose proof (length_buffered d Hd) as Hl. rewrite Hbb in Hl. cbn in Hl. unfold buffered_bytes in Hbb. rewrite <- (lookup_take_lt _ (count_ d)) by lia. rewrite <- (Nat.add_0_r (buffered_pos_ d)), <- lookup_drop. by rewrite Hbb. }
  unfold take_byte, vget. rewrite Hlk, bind_Ret. destruct (put_pos_ok d 1 Hd) as (Ho & Hr & He); [rewrite Hbb; cbn; lia|]. eexists. split; [unfold buffered_rest; by rewrite Hbb|]. split; [exact Ho|]. split; [by rewrite Hr, drop_1_tail|done].
Qed.

Lemma stream_buffered_read_ok d : buffered_open d -> exists d', buffered_read d = ret d' (default END (head (buffered_rest d))) /\ buffered_open d' /\ buffered_rest d' = tail (buffered_rest d) /\ filter_eof_ (base d') = filter_eof_ (base d) || bool_decide (buffered_rest d = []).
Proof.
  intros Hd. assert (forall d', buffered_rest d' = buffered_rest d -> buffered_bytes d' <> [] -> bool_decide (buffered_rest d = []) = false) as Hne.
  { intros d' He Hb. rewrite bool_decide_eq_false, <- He. unfold buffered_rest. by intros [? _]%app_nil. }
  unfold buffered_read. destruct (decide (count_ d <= buffered_pos_ d)) as [Hc|Hc]; rewrite (empty_bytes d Hd) in Hc.
  - destruct (fillBuffer_ok d Hd Hc) as (d1 & -> & Hd1 & Hr1 & He1 & Hend). rewrite call_ret. destruct (decide (count_ d1 <= buffered_pos_ d1)) as [Hc1|Hc1]; rewrite (empty_bytes d1 Hd1) in Hc1.
    + specialize (Hend Hc1). rewrite Hend. eexists. split; [done|]. split; [|split; [transitivity (buffered_rest d1); [done|by rewrite Hr1]|rewrite bool_decide_eq_true_2, orb_true_r by done; done]].
      destruct Hd1 as [(s & Hs & Ho) ? ? ? ? ?]. split; cbn; try done; [by exists s|]. intros _. transitivity (buffered_rest d1); [done|by rewrite Hr1].
    + destruct (take_byte_ok d1 Hd1 Hc1) as (d' & -> & Hd' & Hr' & He'). exists d'. rewrite (Hne d1 Hr1 Hc1), orb_false_r, Hr1 in *. split_and!; [done|done|done|by rewrite He'].
  - destruct (take_byte_ok d Hd Hc) as (d' & -> & Hd' & Hr' & He'). exists d'. rewrite (Hne d eq_refl Hc), orb_false_r. done.
Qed.

(** [processWithBuffer] runs the operation on what is in the buffer, or ends. *)
Lemma processWithBuffer_ok {X} d (x : X) op : buffered_open d ->
  (exists d', processWithBuffer d x op = ret d' (x, 0%nat) /\ buffered_open d' /\ buffered_rest d' = [] /\ buffered_rest d = [] /\ filter_eof_ (base d') = filter_eof_ (base d)) \/
  (exists d1, processWithBuffer d x op = op d1 (Z.of_nat (length (buffered_bytes d1))) x /\ buffered_open d1 /\ buffered_bytes d1 <> [] /\ buffered_rest d1 = buffered_rest d /\ filter_eof_ (base d1) = filter_eof_ (base d)).
Proof.
  assert (forall d, buffered_open d -> bytesAvailable d = 0%Z <-> buffered_bytes d = []) as Hav.
  { clear d. intros d Hd. rewrite <- length_zero_iff_nil, length_buffered, bytesAvailable_open by done. lia. }
  assert (forall d, buffered_open d -> bytesAvailable d = Z.of_nat (length (buffered_bytes d))) as Hlen by (intros ? ?; by rewrite length_buffered, bytesAvailable_open).
  intros Hd. unfold processWithBuffer. destruct (decide (bytesAvailable d = 0%Z)) as [Hz|Hz]; rewrite (Hav d Hd) in Hz.
  - destruct (fillBuffer_ok d Hd Hz) as (d1 & -> & Hd1 & Hr1 & He1 & Hend). rewrite call_ret. destruct (decide (bytesAvailable d1 = 0%Z)) as [Hz1|Hz1]; rewrite (Hav d1 Hd1) in Hz1.
    + left. exists d1. rewrite Hr1, (Hend Hz1). done.
    + right. exists d1. rewrite (Hlen d1 Hd1). done.
  - right. exists d. rewrite (Hlen d Hd). done.
Qed.

Lemma take_buffered d n : n <= length (buffered_bytes d) -> take n (drop (buffered_pos_ d) (take (count_ d) (buf_ d))) = take n (buffered_rest d).
Proof. intros Hn. unfold buffered_rest. by rewrite take_app_le. Qed.

Lemma read_chunk_ok d buffer off remaining : buffered_open d -> off + remaining <= length buffer ->
  exists d', read_chunk d (Z.of_nat (length (buffered_bytes d))) (buffer, off, remaining) =
    (let n := remaining `min` length (buffered_bytes d) in ret d' (write buffer off (take n (buffered_rest d)), off + n, remaining - n, n)) /\
  buffered_open d' /\ buffered_rest d' = drop (remaining `min` length (buffered_bytes d)) (buffered_rest d) /\ filter_eof_ (base d') = filter_eof_ (base d).
Proof.
  intros Hd Hl. set (n := remaining `min` length (buffered_bytes d)). assert (Z.to_nat (Z.min (Z.of_nat remaining) (Z.of_nat (length (buffered_bytes d)))) = n) as Hn by (unfold n; lia). unfold read_chunk. rewrite Hn. cbv zeta.
  pose proof (length_buffered d Hd) as Hlb. pose proof (io_count d Hd) as Hc. pose proof (io_pos d Hd) as Hp. destruct (put_pos_ok d n Hd) as (Ho & Hr & He); [unfold n; lia|].
  rewrite copy_n_ok by (unfold n; lia). rewrite bind_Ret. eexists. split; [|split; [exact Ho|split; [exact Hr|exact He]]]. do 5 f_equal.
  rewrite <- take_buffered by (unfold n; lia). rewrite skipn_firstn_comm, take_take. f_equal. unfold n. lia.
Qed.

Lemma take_split (l : list Z) n m : n <= m -> take n l ++ take (m - n) (drop n l) = take m l.
Proof. intros Hn. rewrite take_take_drop. f_equal. lia. Qed.

Lemma buffered_read_loop_ok fuel : forall d buffer off remaining total, remaining < fuel -> buffered_open d -> off + remaining <= length buffer ->
  exists d', buffered_read_loop fuel d buffer off remaining total = ret d' (write buffer off (take remaining (buffered_rest d)), total + remaining `min` length (buffered_rest d)) /\
  buffered_open d' /\ buffered_rest d' = drop remaining (buffered_rest d) /\ filter_eof_ (base d') = filter_eof_ (base d).
Proof.
  induction fuel as [|fuel IH]; intros d buffer off remaining total Hf Hd Hl; [lia|]. cbn [buffered_read_loop]. destruct (decide (0 < remaining)) as [H0|H0].
  2: { exists d. replace remaining with 0 by lia. rewrite take_0, write_nil, drop_0, Nat.min_0_l, Nat.add_0_r. done. }
  destruct (processWithBuffer_ok d (buffer, off, remaining) read_chunk Hd) as [(d' & -> & Hd' & Hr' & Hr & He)|(d1 & -> & Hd1 & Hne & Hr1 & He1)].
  - rewrite call_ret, decide_True by done. exists d'. rewrite Hr, Hr', take_nil, drop_nil, write_nil, Nat.min_0_r, Nat.add_0_r. done.
  - destruct (read_chunk_ok d1 buffer off remaining Hd1 Hl) as (d2 & -> & Hd2 & Hr2 & He2). rewrite Hr1 in *. cbv zeta. set (n := remaining `min` length (buffered_bytes d1)) in *.
    assert (0 < n) as Hn by (unfold n; destruct (buffered_bytes d1); [done|cbn; lia]). assert (n <= length (buffered_rest d)) as Hnr by (rewrite <- Hr1; unfold buffered_rest; rewrite length_app; unfold n; lia).
    rewrite call_ret, decide_False by lia. assert (length (take n (buffered_rest d)) = n) as Hlt by (rewrite length_take; lia).
    destruct (IH d2 (write buffer off (take n (buffered_rest d))) (off + n) (remaining - n) (total + n)) as (d' & -> & Hd' & Hr' & He'); [lia|done|rewrite length_write by lia; lia|]. exists d'. rewrite Hr2 in *. split; [|split; [done|]].
    + do 2 f_equal. * replace (off + n) with (off + length (take n (buffered_rest d))) by lia. rewrite write_write by (rewrite ?length_take, ?length_drop; lia). by rewrite take_split by (unfold n; lia). * rewrite length_drop. lia.
    + split; [rewrite Hr', drop_drop; f_equal; unfold n; lia|congruence].
Qed.

Lemma stream_skip_loop_ok fuel : forall d remaining skipped, remaining < fuel -> buffered_open d ->
  exists d', buffered_skip_loop fuel d remaining skipped = ret d' (skipped + remaining `min` length (buffered_rest d)) /\ buffered_open d' /\ buffered_rest d' = drop remaining (buffered_rest d) /\ filter_eof_ (base d') = filter_eof_ (base d).
Proof.
  induction fuel as [|fuel IH]; intros d remaining skipped Hf Hd; [lia|]. cbn [buffered_skip_loop]. destruct (decide (0 < remaining)) as [H0|H0].
  2: { exists d. replace remaining with 0 by lia. rewrite drop_0, Nat.min_0_l, Nat.add_0_r. done. }
  destruct (processWithBuffer_ok d remaining skip_chunk Hd) as [(d' & -> & Hd' & Hr' & Hr & He)|(d1 & -> & Hd1 & Hne & Hr1 & He1)].
  - rewrite call_ret, decide_True by done. exists d'. rewrite Hr, Hr', drop_nil, Nat.min_0_r, Nat.add_0_r. done.
  - unfold skip_chunk. cbv zeta. set (n := remaining `min` length (buffered_bytes d1)). replace (Z.to_nat (Z.min (Z.of_nat remaining) (Z.of_nat (length (buffered_bytes d1))))) with n by (unfold n; lia).
    assert (0 < n) as Hn by (unfold n; destruct (buffered_bytes d1); [done|cbn; lia]). assert (n <= length (buffered_rest d)) as Hnr by (rewrite <- Hr1; unfold buffered_rest; rewrite length_app; unfold n; lia).
    destruct (put_pos_ok d1 n Hd1) as (Hd2 & Hr2 & He2); [unfold n; lia|]. rewrite call_ret, decide_False by lia.
    destruct (IH _ (remaining - n) (skipped + n) ltac:(lia) Hd2) as (d' & -> & Hd' & Hr' & He'). exists d'. rewrite Hr2, Hr1 in *. split; [f_equal; rewrite length_drop; lia|]. split; [done|]. split; [rewrite Hr', drop_drop; f_equal; unfold n; lia|congruence].
Qed.

Lemma buffered_read_range_ok d buffer off len : buffered_open d -> bad_range buffer off len = false ->
  exists d', buffered_read_range d buffer off len = ret d' (write buffer off (take len (buffered_rest d)), len `min` length (buffered_rest d)) /\ buffered_open d' /\ buffered_rest d' = drop len (buffered_rest d) /\ filter_eof_ (base d') = filter_eof_ (base d).
Proof.
  intros Hd Hb. unfold buffered_read_range. rewrite Hb. destruct (decide (len = 0)) as [->|Hl]; [exists d; by rewrite take_0, write_nil, drop_0|]. apply buffered_read_loop_ok; [lia|done|by apply in_range].
Qed.

Lemma stream_buffered_skip_ok d n : buffered_open d -> exists d', buffered_skip d n = ret d' (Z.to_nat n `min` length (buffered_rest d)) /\ buffered_open d' /\ buffered_rest d' = drop (Z.to_nat n) (buffered_rest d) /\ filter_eof_ (base d') = filter_eof_ (base d).
Proof.
  intros Hd. unfold buffered_skip. destruct (decide (n <= 0)%Z); [exists d; by replace (Z.to_nat n) with 0 by lia|]. apply (stream_skip_loop_ok _ d (Z.to_nat n) 0); [lia|done].
Qed.

#[export] Instance buffered_exact : ExactLaws buffered_open buffered_rest.
Proof.
  split.
  - intros d buffer off len Hd Hb. destruct (buffered_read_range_ok d buffer off len Hd Hb) as (d' & Hr & Hd' & Hs & _). by exists d'.
  - intros d n Hd. destruct (stream_buffered_skip_ok d n Hd) as (d' & Hr & Hd' & Hs & _). by exists d'.
Qed.

#[export] Instance buffered_input_lawful : InputLaws buffered_open buffered_rest.
Proof.
  split.
  - intros d Hd. destruct (stream_buffered_read_ok d Hd) as (d' & Hr & Hd' & Hs & _). by exists d'.
  - intros d buffer off len Hd Hb. destruct (exact_range d buffer off len Hd Hb) as (d' & Hr & Hd' & Hs). exists d', (len `min` length (buffered_rest d)). rewrite take_min_length, drop_min_length. split_and!; [exact Hr|apply chunk_min..|done|done].
  - intros d buffer off len Hd Hb. cbn. unfold buffered_read_range. by rewrite Hb.
  - intros d n Hd. destruct (exact_skip d n Hd) as (d' & Hr & Hd' & Hs). exists d', (Z.to_nat n `min` length (buffered_rest d)). rewrite drop_min_length. split_and!; [exact Hr|apply chunk_min..|done|done].
  - intros d Hd. destruct (io_base d Hd) as (s & Hs & Ho). destruct (law_available s Ho) as (s' & n & Ha & Hn & Ho' & Hr'). assert (buffered_rest (put_base d (mkFilter (Some s') (filter_eof_ (base d) || false && is_isEof s'))) = buffered_rest d) as Hr.
    { unfold buffered_rest, buffered_bytes, filter_rest. cbn. by rewrite Hs, Hr'. }
    exists (put_base d (mkFilter (Some s') (filter_eof_ (base d) || false && is_isEof s'))), n. split; [cbn; unfold inherited, filter_available, filter_forward; by rewrite Hs, Ha|]. split; [unfold buffered_rest, filter_rest; rewrite Hs, length_app; lia|]. split; [|exact Hr].
    destruct Hd. split; cbn; try done; [by exists s'|]. intros Ht. rewrite orb_false_r in Ht. change (buffered_rest (put_base d (mkFilter (Some s') (filter_eof_ (base d) || false && is_isEof s'))) = []). rewrite Hr. auto.
  - intros d Hd. apply (io_eof d Hd).
Qed.
End buffered_laws.

(** ** Pushback streams *)
Section pushback_laws.
Context {St : Type} `{!AbstractInputStream St} (is_open : St -> Prop) (rest : St -> list Z) `{!InputLaws is_open rest, !ExactLaws is_open rest}.
Implicit Types (p : PushbackInputStream St).

Definition pushed p : list Z := drop (buffer_pos_ p) (pushback_buffer_ p).
Definition below p : list Z := filter_rest rest (pushback_base p).
Definition pushback_open p : Prop := filter_open is_open rest (pushback_base p) /\ buffer_pos_ p <= length (pushback_buffer_ p).

(** What an operation may do to the bytes; the size of the buffer is fixed. *)
Definition becomes p p' (top bottom : list Z) : Prop := pushback_open p' /\ pushed p' = top /\ below p' = bottom /\ length (pushback_buffer_ p') = length (pushback_buffer_ p).

Lemma length_on_top p : pushback_open p -> length (pushed p) = length (pushback_buffer_ p) - buffer_pos_ p.
Proof. intros _. unfold pushed. apply length_drop. Qed.

Lemma nothing_on_top p : ~ buffer_pos_ p < length (pushback_buffer_ p) -> pushed p = [].
Proof. intros Hl. apply drop_ge. lia. Qed.

Lemma not_null p : pushback_open p -> is_null p = false.
Proof. intros [[(s & Hs & _) _] _]. unfold is_null. by rewrite Hs. Qed.

Lemma take_top p b : pushback_open p -> pushback_buffer_ p !! buffer_pos_ p = Some b -> pushed p = b :: pushed (pushback_at p (buffer_pos_ p + 1)) /\ pushback_open (pushback_at p (buffer_pos_ p + 1)).
Proof.
  intros [Ho Hp] Hb. pose proof (lookup_lt_Some _ _ _ Hb). split; [|split; [done|cbn; lia]]. unfold pushed. cbn. rewrite Nat.add_1_r. by apply drop_S.
Qed.

Lemma pushback_put_ok p f : pushback_open p -> filter_open is_open rest f -> becomes p (pushback_put p f) (pushed p) (filter_rest rest f).
Proof. by intros [_ Hp] Hf. Qed.

Lemma stream_read_ok p : pushback_open p -> exists p', pushback_read p = ret p' (default END (head (pushed p ++ below p))) /\ becomes p p' (tail (pushed p)) (if decide (pushed p = []) then tail (below p) else below p).
Proof.
  intros Ho. unfold pushback_read. rewrite not_null by done. destruct (decide (buffer_pos_ p < length (pushback_buffer_ p))) as [Hl|Hl].
  - destruct (vget_lt _ _ Hl) as (b & Hb & ->). rewrite bind_Ret. destruct (take_top p b Ho Hb) as [-> Ho']. eexists. split; [done|]. rewrite decide_False by done. by split.
  - rewrite (nothing_on_top p Hl). unfold below_call. destruct (law_read (pushback_base p) (proj1 Ho)) as (f & Hf & Hof & Hr). change (is_read (pushback_base p)) with (filter_read (pushback_base p)) in Hf. rewrite Hf, call_ret. eexists. split; [done|]. rewrite decide_True by done. destruct (pushback_put_ok p f Ho Hof) as (H1 & H2 & H3 & H4). split; [exact H1|]. split; [by rewrite H2, nothing_on_top|]. split; [by rewrite H3|exact H4].
Qed.

Lemma on_top_loop_ok n : forall p buffer off read, pushback_open p -> off + read + n <= length buffer ->
  exists p', pushed_loop n p buffer off read = Ret (p', write buffer (off + read) (take n (pushed p)), read + n `min` length (pushed p)) /\ becomes p p' (drop n (pushed p)) (below p) /\ pushback_base p' = pushback_base p.
Proof.
  induction n as [|n IH]; intros p buffer off read Ho Hl; cbn [pushed_loop].
  - exists p. rewrite take_0, write_nil, Nat.min_0_l, Nat.add_0_r. done.
  - destruct (decide (buffer_pos_ p < length (pushback_buffer_ p))) as [Hlt|Hlt].
    2:{ exists p. rewrite (nothing_on_top p Hlt). cbn. rewrite write_nil, Nat.add_0_r. split; [done|]. split; [|done]. split; [done|]. split; [by apply nothing_on_top|done]. }
    destruct (vget_lt _ _ Hlt) as (b & Hb & ->). rewrite bind_Ret, vset_lt, bind_Ret, write_one by lia. destruct (take_top p b Ho Hb) as [-> Ho1]. cbn [take drop length].
    destruct (IH _ (write buffer (off + read) [b]) off (read + 1) Ho1) as (p' & -> & Hp' & Hb'); [rewrite length_write by (cbn; lia); lia|]. exists p'. split; [|done].
    replace (off + (read + 1)) with (off + read + length [b]) by (cbn; lia). rewrite write_write by (cbn [length]; rewrite length_take; lia). cbn [app]. do 2 f_equal. lia.
Qed.

Lemma good_start buffer off len : bad_start buffer off len = false -> off < length buffer /\ off + len <= length buffer.
Proof. unfold bad_start. rewrite bool_decide_eq_false. lia. Qed.

Lemma take_app_split (l k : list Z) n : n <= length l -> take n (l ++ k) = take n l.
Proof. apply take_app_le. Qed.

Lemma stream_read_range_ok p buffer off len : pushback_open p -> bad_start buffer off len = false ->
  exists p', pushback_read_range p buffer off len = ret p' (write buffer off (take len (pushed p ++ below p)), len `min` length (pushed p ++ below p)) /\ becomes p p' (drop len (pushed p)) (drop (len - length (pushed p)) (below p)).
Proof.
  intros Ho Hb. unfold pushback_read_range. rewrite not_null, Hb by done. apply good_start in Hb as [_ Hl]. destruct (on_top_loop_ok len p buffer off 0 Ho) as (p1 & -> & (Ho1 & Ht1 & Hb1 & Hl1) & Hbase); [lia|]. rewrite bind_Ret, Nat.add_0_r, Nat.add_0_l. rewrite length_app.
  destruct (decide (len `min` length (pushed p) < len)) as [Hk|Hk].
  - replace (len `min` length (pushed p)) with (length (pushed p)) by lia. rewrite (firstn_all2 (pushed p)) by lia. unfold below_call. destruct (exact_range (pushback_base p1) (write buffer off (pushed p)) (off + length (pushed p)) (len - length (pushed p)) (proj1 Ho1)) as (f & Hf & Hof & Hr).
    { unfold bad_range. rewrite bool_decide_eq_false, length_write by lia. lia. }
    change (is_read_range (pushback_base p1)) with (filter_read_range (pushback_base p1)) in Hf. rewrite Hf, call_ret. fold (below p1) in *. rewrite Hb1 in *. eexists. split.
    + f_equal. f_equal; [|lia]. rewrite write_write by (rewrite length_take; lia). f_equal. rewrite take_app, (firstn_all2 (pushed p)) by lia. done.
    + destruct (pushback_put_ok p1 f Ho1 Hof) as (H1 & H2 & H3 & H4). split; [exact H1|]. split; [by rewrite H2|]. split; [by rewrite H3|]. by rewrite H4.
  - exists p1. rewrite take_app_le by lia. split; [f_equal; f_equal; lia|]. split; [done|]. split; [done|]. split; [|done]. replace (len - length (pushed p)) with 0 by lia. by rewrite Hb1.
Qed.

(** The inherited [skip] passes over the bytes below, not over those pushed back. *)
Lemma stream_skip_ok p n : pushback_open p -> exists p', is_skip p n = ret p' (Z.to_nat n `min` length (below p)) /\ becomes p p' (pushed p) (drop (Z.to_nat n) (below p)).
Proof.
  intros Ho. cbn [is_skip PushbackInputStream_stream]. unfold below_call. destruct (exact_skip (pushback_base p) n (proj1 Ho)) as (f & Hf & Hof & Hr). change (is_skip (pushback_base p)) with (filter_skip (pushback_base p)) in Hf. rewrite Hf, call_ret. eexists. split; [done|].
  destruct (pushback_put_ok p f Ho Hof) as (H1 & H2 & H3 & H4). split; [done|]. split; [done|]. split; [by rewrite H3|done].
Qed.

Lemma put_top p b : pushback_open p -> 0 < buffer_pos_ p -> exists buffer, vset (pushback_buffer_ p) (buffer_pos_ p - 1) b = Ret buffer /\ becomes p (mkPushback (pushback_base p) buffer (buffer_pos_ p - 1)) (b :: pushed p) (below p).
Proof.
  intros [Ho Hp] H0. rewrite vset_lt by lia. eexists. split; [done|]. split; [split; [done|cbn; rewrite length_insert; lia]|]. split; [|split; [done|cbn; by rewrite length_insert]].
  unfold pushed. cbn. rewrite (drop_S _ b) by (apply list_lookup_insert_eq; lia). rewrite drop_insert_lt by lia. do 2 f_equal. lia.
Qed.

Lemma unread_loop_ok n : forall p buffer off, pushback_open p -> n <= buffer_pos_ p -> off + n <= length buffer ->
  exists p', unread_loop p buffer off n = Ret p' /\ becomes p p' (take n (drop off buffer) ++ pushed p) (below p).
Proof.
  induction n as [|n IH]; intros p buffer off Ho Hn Hl; cbn [unread_loop]; [by exists p|].
  destruct (vget_lt buffer (off + n)) as (b & Hb & ->); [lia|]. rewrite bind_Ret. destruct (put_top p b Ho) as (pb & -> & (Ho1 & Ht1 & Hb1 & Hl1)); [lia|]. rewrite bind_Ret.
  destruct (IH _ buffer off Ho1) as (p' & -> & (Ho2 & Ht2 & Hb2 & Hl2)); [cbn; lia|lia|]. exists p'. split; [done|]. split; [done|]. split; [|split; congruence]. rewrite Ht2, Ht1. rewrite (take_S_r _ _ b) by (by rewrite lookup_drop). by rewrite <- (assoc_L (++)).
Qed.
End pushback_laws.

(** ** Sequences of calls *)
Inductive iobs :=
| Byte (b : Z)
| Bytes (buffer : list Z) (n : nat)
| Count (n : nat)
| Flag (r : bool)
| Done
| Thrown (e : exn).

(** The object and what the caller sees. *)
Definition seen {St A} (f : A -> iobs) (m : res St A) : outcome (St * iobs) := '(s, r) ← m; Ret (s, match r with inl x => f x | inr e => Thrown e end).

Lemma seen_ret {St A} (f : A -> iobs) (s : St) (x : A) : seen f (ret s x) = Ret (s, f x).
Proof. done. Qed.

Definition seen_bytes : list Z * nat -> iobs := fun '(buffer, n) => Bytes buffer n.

(** The calls that keep to the order of the bytes. *)
Inductive bop := Read | ReadRange (buffer : list Z) (off len : nat) | Skip (n : Z) | IsEof.

Section buffered_contract.
Context {St : Type} `{!AbstractInputStream St}.

Definition bstep (d : BufferedInputStream St) (op : bop) : outcome (BufferedInputStream St * iobs) :=
  match op with
  | Read => seen Byte (is_read d)
  | ReadRange buffer off len => seen seen_bytes (is_read_range d buffer off len)
  | Skip n => seen Count (is_skip d n)
  | IsEof => Ret (d, Flag (is_isEof d))
  end.

(** The bytes that are left and the flag, set by a [read] of a byte that is not there. *)
Definition source_step '((bytes, eof) : list Z * bool) (op : bop) : outcome (list Z * bool * iobs) :=
  match op with
  | Read => Ret (tail bytes, eof || bool_decide (bytes = []), Byte (default END (head bytes)))
  | ReadRange buffer off len =>
    if bad_range buffer off len then Ret (bytes, eof, Thrown out_of_range) else Ret (drop len bytes, eof, Bytes (write buffer off (take len bytes)) (len `min` length bytes))
  | Skip n => Ret (drop (Z.to_nat n) bytes, eof, Count (Z.to_nat n `min` length bytes))
  | IsEof => Ret (bytes, eof, Flag eof)
  end.

Lemma source_total : total_spec source_step.
Proof. intros [bytes eof] []; cbn; repeat case_match; done. Qed.

Context (is_open : St -> Prop) (rest : St -> list Z) `{!InputLaws is_open rest}.

Definition supplies (d : BufferedInputStream St) (x : list Z * bool) : Prop := buffered_open is_open rest d /\ buffered_rest rest d = x.1 /\ filter_eof_ (base d) = x.2.

#[export] Instance buffered_input_simulates : Simulates bstep source_step supplies.
Proof.
  intros d [bytes eof] op (Hd & Hr0 & He0). cbn [fst snd] in Hr0, He0. subst bytes eof. destruct op as [|buffer off len|n|]; cbn [source_step bstep].
  - destruct (stream_buffered_read_ok is_open rest d Hd) as (d' & Hr & Hd' & Hs & He). change (is_read d) with (buffered_read d). rewrite Hr, seen_ret. exists d'. done.
  - destruct (bad_range buffer off len) eqn:Hb; [rewrite (law_bad d buffer off len Hd Hb); by exists d|]. destruct (buffered_read_range_ok is_open rest d buffer off len Hd Hb) as (d' & Hr & Hd' & Hs & He). change (is_read_range d) with (buffered_read_range d). rewrite Hr, seen_ret. exists d'. done.
  - destruct (stream_buffered_skip_ok is_open rest d n Hd) as (d' & Hr & Hd' & Hs & He). change (is_skip d) with (buffered_skip d). rewrite Hr, seen_ret. exists d'. done.
  - exists d. done.
Qed.

(** C35: over any lawful stream, however short its reads, and for any size of the buffer, every sequence of reads of one byte, reads of a range of a
    vector, skips and queries of the end-of-file flag on a new [BufferedInputStream] returns, and observes the bytes of the stream in order: reads
    and skips stop short only at the end, range errors change nothing, and the end-of-file flag is set exactly by a [read] of one byte at
    the end.  The other methods are not among the calls: [mark] and [reset], [close], the inherited [read] of a whole vector and [available]
    do not keep to this contract ([buffered_reset_wrong], [buffered_read_after_close] and [buffered_vector_overtakes]). *)
Theorem buffered_input_refines s size ops : is_open s -> 0 < size -> (Z.of_nat size < 2 ^ 64)%Z ->
  exists d0 d x os, buffered_new (Some s) size = Ret d0 /\ trace source_step (rest s, false) ops = Ret (x, os) /\ trace bstep d0 ops = Ret (d, os) /\ buffered_rest rest d = x.1.
Proof.
  intros Ho Hs Hz. destruct (buffered_new_open is_open rest s size Ho Hs Hz) as (d0 & Hnew & Hd0 & Hr0 & He0). assert (supplies d0 (rest s, false)) as HR by done.
  destruct (trace_refines_total ops d0 _ source_total HR) as (d & x & os & Ha & Ht & (_ & Hr & _)). by exists d0, d, x, os.
Qed.
End buffered_contract.

Inductive uop := URead | UReadRange (buffer : list Z) (off len : nat) | UReadVector (buffer : list Z) | USkip (n : Z) | Unread (b : Z) | UnreadRange (buffer : list Z) (off len : nat) | UnreadAll (buffer : list Z).

Section pushback_contract.
Context {St : Type} `{!AbstractInputStream St}.

Definition ustep (p : PushbackInputStream St) (op : uop) : outcome (PushbackInputStream St * iobs) :=
  match op with
  | URead => seen Byte (is_read p)
  | UReadRange buffer off len => seen seen_bytes (is_read_range p buffer off len)
  | UReadVector buffer => seen seen_bytes (is_read_vector p buffer)
  | USkip n => seen Count (is_skip p n)
  | Unread b => seen (fun _ => Done) (unread p b)
  | UnreadRange buffer off len => seen (fun _ => Done) (unread_range p buffer off len)
  | UnreadAll buffer => seen (fun _ => Done) (unread_all p buffer)
  end.

(** The bytes pushed back, at most [size], and those of the stream below. *)
Definition put_back (size : nat) (top bottom bytes : list Z) : outcome (list Z * list Z * iobs) :=
  if decide (size < length bytes + length top) then Ret (top, bottom, Thrown overflow_error) else Ret (bytes ++ top, bottom, Done).

Definition spec_read_range (top bottom buffer : list Z) (off len : nat) : outcome (list Z * list Z * iobs) :=
  if bad_start buffer off len then Ret (top, bottom, Thrown out_of_range) else
  Ret (drop len top, drop (len - length top) bottom, Bytes (write buffer off (take len (top ++ bottom))) (len `min` length (top ++ bottom))).

Definition stack_step (size : nat) '((top, bottom) : list Z * list Z) (op : uop) : outcome (list Z * list Z * iobs) :=
  match op with
  | URead => Ret (tail top, if decide (top = []) then tail bottom else bottom, Byte (default END (head (top ++ bottom))))
  | UReadRange buffer off len => spec_read_range top bottom buffer off len
  | UReadVector buffer => spec_read_range top bottom buffer 0 (length buffer)
  | USkip n => Ret (top, drop (Z.to_nat n) bottom, Count (Z.to_nat n `min` length bottom))
  | Unread b => put_back size top bottom [b]
  | UnreadRange buffer off len => if bad_start buffer off len then Ret (top, bottom, Thrown out_of_range) else put_back size top bottom (take len (drop off buffer))
  | UnreadAll buffer => if bad_start buffer 0 (length buffer) then Ret (top, bottom, Thrown out_of_range) else put_back size top bottom buffer
  end.

Lemma stack_total size : total_spec (stack_step size).
Proof. intros [top bottom] []; cbn; unfold put_back, spec_read_range; repeat case_match; done. Qed.

Context (is_open : St -> Prop) (rest : St -> list Z) `{!InputLaws is_open rest, !ExactLaws is_open rest}.

Definition stacks (size : nat) (p : PushbackInputStream St) (x : list Z * list Z) : Prop := becomes is_open rest p p x.1 x.2 /\ length (pushback_buffer_ p) = size.

Lemma becomes_stacks size p p' top bottom : length (pushback_buffer_ p) = size -> becomes is_open rest p p' top bottom -> stacks size p' (top, bottom).
Proof. intros Hs (H1 & H2 & H3 & H4). split; [done|congruence]. Qed.

Lemma read_range_stacks size p top bottom buffer off len : stacks size p (top, bottom) ->
  match spec_read_range top bottom buffer off len with
  | Ret (a', o) => exists p', seen seen_bytes (pushback_read_range p buffer off len) = Ret (p', o) /\ stacks size p' a'
  | _ => False
  end.
Proof.
  intros [(Ho & Ht0 & Hb0 & _) Hs]. cbn [fst snd] in Ht0, Hb0. subst top bottom. unfold spec_read_range. destruct (bad_start buffer off len) eqn:Hb.
  - exists p. unfold pushback_read_range. rewrite (not_null is_open rest), Hb by done. done.
  - destruct (stream_read_range_ok is_open rest p buffer off len Ho Hb) as (p' & -> & Hp'). exists p'. split; [done|]. by eapply becomes_stacks.
Qed.

Lemma unread_range_stacks size p top bottom buffer off len : stacks size p (top, bottom) -> bad_start buffer off len = false ->
  match put_back size top bottom (take len (drop off buffer)) with
  | Ret (a', o) => exists p', seen (fun _ => Done) (unread_range p buffer off len) = Ret (p', o) /\ stacks size p' a'
  | _ => False
  end.
Proof.
  intros [(Ho & Ht0 & Hb0 & _) Hs] Hb. cbn [fst snd] in Ht0, Hb0. subst top bottom. pose proof (good_start _ _ _ Hb) as [_ Hl]. pose proof (length_on_top is_open rest p Ho) as Ht. pose proof (proj2 Ho) as Hp. unfold put_back, unread_range. rewrite Hb, length_take, length_drop.
  destruct (decide (buffer_pos_ p < len)) as [Hlt|Hlt]; [rewrite decide_True by lia; by exists p|]. rewrite decide_False by lia. destruct (unread_loop_ok is_open rest len p buffer off Ho) as (p' & -> & Hp'); [lia..|]. exists p'. split; [done|]. by eapply becomes_stacks.
Qed.

#[export] Instance pushback_input_simulates size : Simulates ustep (stack_step size) (stacks size).
Proof.
  intros p [top bottom] op HR. pose proof HR as [(Ho & Ht & Hb & _) Hs]. cbn [fst snd] in Ht, Hb. destruct op as [|buffer off len|buffer|n|b|buffer off len|buffer]; cbn [stack_step ustep].
  - subst top bottom. destruct (stream_read_ok is_open rest p Ho) as (p' & Hr & Hp'). change (is_read p) with (pushback_read p). rewrite Hr, seen_ret. exists p'. split; [done|]. by eapply becomes_stacks.
  - pose proof (read_range_stacks size p top bottom buffer off len HR) as H. change (is_read_range p) with (pushback_read_range p). destruct (spec_read_range _ _ _ _ _) as [[a' o]|e| |]; done.
  - pose proof (read_range_stacks size p top bottom buffer 0 (length buffer) HR) as H. change (is_read_vector p) with (pushback_read_vector p). unfold pushback_read_vector. rewrite (not_null is_open rest) by done. destruct (spec_read_range _ _ _ _ _) as [[a' o]|e| |]; done.
  - subst top bottom. destruct (stream_skip_ok is_open rest p n Ho) as (p' & Hr & Hp'). rewrite Hr, seen_ret. exists p'. split; [done|]. by eapply becomes_stacks.
  - subst top bottom. pose proof (length_on_top is_open rest p Ho) as Hl. pose proof (proj2 Ho) as Hp. unfold put_back, unread. cbn [length]. destruct (decide (buffer_pos_ p = 0)) as [H0|H0]; [rewrite decide_True by lia; by exists p|]. rewrite decide_False by lia.
    destruct (put_top is_open rest p b Ho) as (buffer & -> & Hp'); [lia|]. rewrite bind_Ret, seen_ret. eexists. split; [done|]. by eapply becomes_stacks.
  - destruct (bad_start buffer off len) eqn:Hbad; [exists p; unfold unread_range; rewrite Hbad; done|]. pose proof (unread_range_stacks size p top bottom buffer off len HR Hbad) as H. destruct (put_back _ _ _ _) as [[a' o]|e| |]; done.
  - unfold unread_all. destruct (bad_start buffer 0 (length buffer)) eqn:Hbad; [exists p; unfold unread_range; rewrite Hbad; done|]. pose proof (unread_range_stacks size p top bottom buffer 0 (length buffer) HR Hbad) as H. rewrite drop_0, firstn_all in H. destruct (put_back _ _ _ _) as [[a' o]|e| |]; done.
Qed.

(** Over an exact stream a pushback stream is a bounded stack in front of it; every call returns. *)
Theorem pushback_input_refines s size ops : is_open s ->
  exists p x os, trace (stack_step size) ([], rest s) ops = Ret (x, os) /\ trace ustep (pushback_new (Some s) size) ops = Ret (p, os) /\ pushed p = x.1 /\ below rest p = x.2.
Proof.
  intros Ho. assert (stacks size (pushback_new (Some s) size) ([], rest s)) as HR.
  { split; [|apply length_replicate]. split; [split; [by apply filter_new_open|cbn; by rewrite length_replicate]|]. split; [apply drop_ge; cbn; by rewrite length_replicate|done]. }
  destruct (trace_refines_total ops _ _ (stack_total size) HR) as (p & x & os & Ha & Ht & [(_ & Hp & Hb & _) _]). by exists p, x, os.
Qed.
End pushback_contract.

(** A pushback stream over two buffers and a filter over bytes: its laws are found by instance search. *)
Lemma input_tower_exact : exists is_open rest, ExactLaws (St := BufferedInputStream (FilterInputStream (BufferedInputStream ByteArrayInputStream))) is_open rest.
Proof. eexists _, _. apply _. Qed.

Definition sample_reads : list bop := [Read; ReadRange [0; 0; 0; 0; 0; 0] 1 4; ReadRange [0] 1 1; IsEof; Skip 2; Read; IsEof]%Z.

Lemma buffered_input_refines_witness : exists d0 d x os, buffered_new (Some (bytes_new [1; 2; 3; 4; 5; 6; 7]%Z)) 2 = Ret d0 /\
  trace source_step ([1; 2; 3; 4; 5; 6; 7]%Z, false) sample_reads = Ret (x, os) /\ trace bstep d0 sample_reads = Ret (d, os) /\ buffered_rest bytes_rest d = x.1.
Proof. apply (buffered_input_refines bytes_open bytes_rest (bytes_new [1; 2; 3; 4; 5; 6; 7]%Z) 2 sample_reads); [apply bytes_new_open|lia|lia]. Defined.

Example sample_reads_result : match buffered_new (Some (bytes_new [1; 2; 3; 4; 5; 6; 7]%Z)) 2 with Ret d0 => snd <$> trace bstep d0 sample_reads | _ => Undef end =
  Ret (inl <$> [Byte 1; Bytes [0; 2; 3; 4; 5; 0] 4; Thrown out_of_range; Flag false; Count 2; Byte 255; Flag true])%Z.
Proof. vm_compute. reflexivity. Qed.

(** ** What the contract leaves out *)
(** [reset] returns to a position of a buffer that has been filled again: the byte read is not the byte at the mark. *)
Theorem buffered_reset_wrong : exists d0 d1 d2 d3 d4 d5, buffered_new (Some (bytes_new [1; 2; 3; 4]%Z)) 2 = Ret d0 /\ buffered_read d0 = ret d1 1%Z /\ buffered_mark d1 100 = ret d2 tt /\
  buffered_rest bytes_rest d2 = [2; 3; 4]%Z /\ buffered_read_range d2 [0; 0]%Z 0 2 = ret d3 ([2; 3]%Z, 2) /\ buffered_reset d3 = ret d4 tt /\ buffered_read d4 = ret d5 4%Z.
Proof. eexists _, _, _, _, _, _. repeat (split; [vm_compute; reflexivity|]). vm_compute. reflexivity. Qed.

(** Reading a closed stream whose buffer was not empty leaves the vector. *)
Theorem buffered_read_after_close : exists d0 d1 d2, buffered_new (Some (bytes_new [1; 2; 3; 4]%Z)) 2 = Ret d0 /\ buffered_read d0 = ret d1 1%Z /\ buffered_close d1 = ret d2 tt /\ buffered_read d2 = Undef.
Proof. eexists _, _, _. repeat (split; [vm_compute; reflexivity|]). vm_compute. reflexivity. Qed.

(** The inherited [read] of a vector and [available] do not see what is in the buffer. *)
Theorem buffered_vector_overtakes : exists d0 d1 d2 d3, buffered_new (Some (bytes_new [1; 2; 3; 4]%Z)) 2 = Ret d0 /\ buffered_read d0 = ret d1 1%Z /\ is_available d1 = ret d2 2 /\ buffered_available d1 = ret d2 3%Z /\ is_read_vector d1 [0; 0]%Z = ret d3 ([3; 4]%Z, 2).
Proof. eexists _, _, _, _. repeat (split; [vm_compute; reflexivity|]). vm_compute. reflexivity. Qed.

(** The end-of-file flag stays when a byte is pushed back. *)
Theorem pushback_eof_stays : exists p1 p2 p3, is_read (pushback_new (Some (bytes_new [1]%Z)) 1) = ret p1 1%Z /\ unread p1 1 = ret p2 tt /\ is_isEof p2 = true /\ is_read p2 = ret p3 1%Z.
Proof. eexists _, _, _. repeat (split; [vm_compute; reflexivity|]). vm_compute. reflexivity. Qed.
