(* ===== verification/FloydWarshall.v ===== *)
(** * All-pairs shortest paths

    Models [data_structure/graph/algorithm/FloydWarshall.cc] and
    [AllPairsShortestPathResult] of [GraphTraits.hpp].  Distances are [int32_t]: an
    addition that overflows is undefined.  Pairs without an edge start at half of
    [INT32_MAX], a number like any other: the matrix is that of a complete graph, and
    the loops compute the least weights of its walks.

    For simple graphs without negative cycles and weights of which [4 n] together fit,
    the entries below a limit are the distances that [BellmanFord] returns, the others belong
    to pairs without a walk, and the next nodes lead along a walk of that weight, also when
    there are cycles of weight zero: each step descends in a number made of the rounds in
    which an entry was improved.  Negative cycles are found, unless an addition
    overflows first. *)

From S2P Require Import Prelude Graph BellmanFord.
Local Open Scope Z_scope.

Record AllPairsShortestPathResult := mkAllPairs {
  distances : list (list Z);
  next : list (list Z);
  has_negative_cycle : bool;
}.

Implicit Types (g : Graph) (u v i j k w c : Z) (dist nxt : list (list Z)).

(** [INT32_MAX / 2] *)
Definition NO_EDGE : Z := INT32_MAX / 2.

Definition mget dist i j : outcome Z := row ← vgetz dist i; vgetz row j.
Definition mset dist i j (x : Z) : outcome (list (list Z)) := row ← vgetz dist i; row ← vsetz row j x; vsetz dist i row.

(** The distance from a node to itself. *)
Fixpoint set_diagonal (rows : list Z) dist nxt : outcome (list (list Z) * list (list Z)) :=
  match rows with
  | [] => Ret (dist, nxt)
  | i :: rows => dist ← mset dist i i 0; nxt ← mset nxt i i i; set_diagonal rows dist nxt
  end.

Fixpoint set_edges u (edges : list Edge) dist nxt : outcome (list (list Z) * list (list Z)) :=
  match edges with
  | [] => Ret (dist, nxt)
  | e :: edges => dist ← mset dist u (to_ e) (weight_ e); nxt ← mset nxt u (to_ e) (to_ e); set_edges u edges dist nxt
  end.

Fixpoint set_all g (us : list Z) dist nxt : outcome (list (list Z) * list (list Z)) :=
  match us with
  | [] => Ret (dist, nxt)
  | u :: us => edges ← getAdjList g u; '(dist, nxt) ← set_edges u edges dist nxt; set_all g us dist nxt
  end.

(** The loops over [j], [i] and [k]. *)
Fixpoint improve_row k i (js : list Z) dist nxt : outcome (list (list Z) * list (list Z)) :=
  match js with
  | [] => Ret (dist, nxt)
  | j :: js =>
    a ← mget dist i k;
    b ← mget dist k j;
    new_dist ← add32 a b;
    old ← mget dist i j;
    if decide (new_dist < old) then
      dist ← mset dist i j new_dist;
      h ← mget nxt i k;
      nxt ← mset nxt i j h;
      improve_row k i js dist nxt
    else improve_row k i js dist nxt
  end.

Fixpoint improve_rows k (js rows : list Z) dist nxt : outcome (list (list Z) * list (list Z)) :=
  match rows with
  | [] => Ret (dist, nxt)
  | i :: rows => '(dist, nxt) ← improve_row k i js dist nxt; improve_rows k js rows dist nxt
  end.

Fixpoint improve_all (nodes ks : list Z) dist nxt : outcome (list (list Z) * list (list Z)) :=
  match ks with
  | [] => Ret (dist, nxt)
  | k :: ks => '(dist, nxt) ← improve_rows k nodes nodes dist nxt; improve_all nodes ks dist nxt
  end.

Fixpoint negative_diagonal (rows : list Z) dist : outcome bool :=
  match rows with
  | [] => Ret false
  | i :: rows => x ← mget dist i i; if decide (x < 0) then Ret true else negative_diagonal rows dist
  end.

Definition compute g : outcome AllPairsShortestPathResult :=
  let n := getNodeCount g in
  let nodes := seqZ 0 n in
  let dist := replicate (Z.to_nat n) (replicate (Z.to_nat n) NO_EDGE) in
  let nxt := replicate (Z.to_nat n) (replicate (Z.to_nat n) (-1)) in
  '(dist, nxt) ← set_diagonal nodes dist nxt;
  '(dist, nxt) ← set_all g nodes dist nxt;
  '(dist, nxt) ← improve_all nodes nodes dist nxt;
  negative ← negative_diagonal nodes dist;
  Ret (mkAllPairs dist nxt negative).

(** The loop of [reconstructPath]. *)
Fixpoint next_loop (fuel : nat) nxt (from to current : Z) (path : list Z) : outcome (list Z) :=
  match fuel with
  | O => NoFuel
  | S fuel =>
    if decide (current = to) then Ret path else
    current ← mget nxt current to;
    if decide (current = -1 \/ current = from) then Ret [] else next_loop fuel nxt from to current (path ++ [current])
  end.

Definition reconstructPath (r : AllPairsShortestPathResult) (from to : Z) : outcome (list Z) :=
  if decide (has_negative_cycle r = true \/ from < 0 \/ to < 0 \/ Z.of_nat (length (next r)) <= from \/ Z.of_nat (length (next r)) <= to) then Ret [] else
  h ← mget (next r) from to;
  if decide (h = -1) then Ret [] else next_loop (S (length (next r))) (next r) from to from [from].

(** ** Matrices as functions *)
Section matrices.
Context (g : Graph).

Definition rep dist (f : Z -> Z -> Z) : Prop :=
  length dist = Z.to_nat (num_nodes_ g) /\ forall i, node g i -> exists row, dist !! Z.to_nat i = Some row /\ length row = Z.to_nat (num_nodes_ g) /\ forall j, node g j -> row !! Z.to_nat j = Some (f i j).

Lemma rep_ext dist f f' : rep dist f -> (forall i j, node g i -> node g j -> f i j = f' i j) -> rep dist f'.
Proof. intros [Hl Hr] He. split; [done|]. intros i Hi. destruct (Hr i Hi) as (row & Hrow & Hlr & Hj). exists row. split; [done|]. split; [done|]. intros j Hnj. by rewrite <- He, Hj. Qed.

Lemma mget_ok dist f i j : rep dist f -> node g i -> node g j -> mget dist i j = Ret (f i j).
Proof.
  intros [Hl Hr] Hi Hj. destruct (Hr i Hi) as (row & Hrow & Hlr & Hall). unfold mget. rewrite (vgetz_Some _ _ row) by (unfold node in Hi; lia || done). ret_step. apply vgetz_Some; [unfold node in Hj; lia|by apply Hall].
Qed.

Lemma mset_ok dist f i j x : rep dist f -> node g i -> node g j -> exists dist', mset dist i j x = Ret dist' /\ rep dist' (fun a b => if decide (a = i /\ b = j) then x else f a b).
Proof.
  intros [Hl Hr] Hi Hj. destruct (Hr i Hi) as (row & Hrow & Hlr & Hall). unfold node in Hi, Hj. unfold mset. rewrite (vgetz_Some _ _ row) by (lia || done). ret_step. rewrite vsetz_lt by lia. ret_step. rewrite vsetz_lt by lia. eexists. split; [done|].
  split; [by rewrite length_insert|]. intros a Ha. unfold node in Ha. destruct (decide (a = i)) as [->|Hne].
  - rewrite list_lookup_insert_eq by lia. eexists. split; [done|]. split; [by rewrite length_insert|]. intros b Hb. unfold node in Hb. destruct (decide (b = j)) as [->|Hnb].
    + rewrite list_lookup_insert_eq by lia. by rewrite decide_True.
    + rewrite list_lookup_insert_ne by lia. rewrite decide_False by naive_solver. by apply Hall.
  - rewrite list_lookup_insert_ne by lia. destruct (Hr a Ha) as (row' & Hrow' & Hlr' & Hall'). exists row'. split; [done|]. split; [done|]. intros b Hb. rewrite decide_False by naive_solver. by apply Hall'.
Qed.

Lemma rep_constant x : rep (replicate (Z.to_nat (num_nodes_ g)) (replicate (Z.to_nat (num_nodes_ g)) x)) (fun _ _ => x).
Proof.
  split; [apply length_replicate|]. intros i Hi. unfold node in Hi. eexists. split; [apply lookup_replicate_2; lia|]. split; [apply length_replicate|]. intros j Hj. unfold node in Hj. apply lookup_replicate_2. lia.
Qed.

Lemma all_nodes : Forall (node g) (seqZ 0 (num_nodes_ g)).
Proof. apply Forall_forall. intros v Hv%elem_of_seqZ. unfold node. lia. Qed.

Lemma set_diagonal_ok rows : Forall (node g) rows -> forall dist nxt f h, rep dist f -> rep nxt h ->
  exists dist' nxt', set_diagonal rows dist nxt = Ret (dist', nxt') /\ rep dist' (fun a b => if decide (a = b /\ a ∈ rows) then 0 else f a b) /\ rep nxt' (fun a b => if decide (a = b /\ a ∈ rows) then a else h a b).
Proof.
  induction rows as [|i rows IH]; intros Hf dist nxt f h Hd Hn; cbn [set_diagonal].
  - exists dist, nxt. split; [done|]. split; eapply rep_ext; [exact Hd| |exact Hn|]; intros a b _ _; cbn; rewrite decide_False; set_solver.
  - apply Forall_cons in Hf as [Hi Hf]. destruct (mset_ok dist f i i 0 Hd Hi Hi) as (d1 & -> & Hd1). ret_step. destruct (mset_ok nxt h i i i Hn Hi Hi) as (n1 & -> & Hn1). ret_step.
    destruct (IH Hf _ _ _ _ Hd1 Hn1) as (d2 & n2 & -> & Hd2 & Hn2). exists d2, n2. split; [done|]. split; eapply rep_ext; [exact Hd2| |exact Hn2|]; intros a b _ _; cbn; repeat case_decide; set_solver.
Qed.

(** The weight of the edge, [NO_EDGE] without one. *)
Fixpoint edge_weight (edges : list Edge) v (x : Z) : Z :=
  match edges with [] => x | e :: edges => edge_weight edges v (if decide (to_ e = v) then weight_ e else x) end.
Fixpoint edge_next (edges : list Edge) v (x : Z) : Z :=
  match edges with [] => x | e :: edges => edge_next edges v (if decide (to_ e = v) then v else x) end.

Lemma set_edges_ok u edges : node g u -> Forall (fun e => node g (to_ e)) edges -> forall dist nxt f h, rep dist f -> rep nxt h ->
  exists dist' nxt', set_edges u edges dist nxt = Ret (dist', nxt') /\ rep dist' (fun a b => if decide (a = u) then edge_weight edges b (f a b) else f a b) /\ rep nxt' (fun a b => if decide (a = u) then edge_next edges b (h a b) else h a b).
Proof.
  intros Hu. induction edges as [|e edges IH]; intros Hf dist nxt f h Hd Hn; cbn [set_edges edge_weight edge_next].
  - exists dist, nxt. split; [done|]. split; eapply rep_ext; [exact Hd| |exact Hn|]; intros a b _ _; cbn; by case_decide.
  - apply Forall_cons in Hf as [He Hf]. destruct (mset_ok dist f u (to_ e) (weight_ e) Hd Hu He) as (d1 & -> & Hd1). ret_step. destruct (mset_ok nxt h u (to_ e) (to_ e) Hn Hu He) as (n1 & -> & Hn1). ret_step.
    destruct (IH Hf _ _ _ _ Hd1 Hn1) as (d2 & n2 & -> & Hd2 & Hn2). exists d2, n2. split; [done|]. split; eapply rep_ext; [exact Hd2| |exact Hn2|]; intros a b _ _; cbn; case_decide as Ha; [subst| |subst|].
    + f_equal. destruct (decide (to_ e = b)); [by rewrite decide_True|by rewrite decide_False by naive_solver].
    + by rewrite decide_False by naive_solver.
    + f_equal. destruct (decide (to_ e = b)) as [<-|]; [by rewrite decide_True|by rewrite decide_False by naive_solver].
    + by rewrite decide_False by naive_solver.
Qed.

Lemma set_all_ok (Hwf : wf_graph g) us : Forall (node g) us -> NoDup us -> forall dist nxt f h, rep dist f -> rep nxt h ->
  exists dist' nxt', set_all g us dist nxt = Ret (dist', nxt') /\ rep dist' (fun a b => if decide (a ∈ us) then edge_weight (adj g a) b (f a b) else f a b) /\ rep nxt' (fun a b => if decide (a ∈ us) then edge_next (adj g a) b (h a b) else h a b).
Proof.
  induction us as [|u us IH]; intros Hf Hnd dist nxt f h Hd Hn; cbn [set_all].
  - exists dist, nxt. split; [done|]. split; eapply rep_ext; [exact Hd| |exact Hn|]; intros a b _ _; cbn; by rewrite decide_False by apply not_elem_of_nil.
  - apply Forall_cons in Hf as [Hu Hf]. apply NoDup_cons in Hnd as [Hfresh Hnd]. destruct (adj_ok g u Hwf Hu) as [_ ->]. ret_step.
    destruct (set_edges_ok u (adj g u) Hu) with (dist := dist) (nxt := nxt) (f := f) (h := h) as (d1 & n1 & -> & Hd1 & Hn1); [by apply targets_nodes|done|done|]. ret_step.
    destruct (IH Hf Hnd _ _ _ _ Hd1 Hn1) as (d2 & n2 & -> & Hd2 & Hn2). exists d2, n2. split; [done|]. split; eapply rep_ext; [exact Hd2| |exact Hn2|]; intros a b _ _; cbn; destruct (decide (a ∈ us)), (decide (a = u)); subst; try done.
    all: try (by rewrite (decide_True (P := _ ∈ _ :: _)) by set_solver). all: by rewrite (decide_False (P := _ ∈ _ :: _)) by set_solver.
Qed.
End matrices.

(** ** One round *)
Section round.
Context (g : Graph) (k : Z) (Hk : node g k) (d0 n0 : Z -> Z -> Z) (Hdiag : 0 <= d0 k k).
Implicit Types (f h : Z -> Z -> Z) (P : Z -> Z -> Prop).

Definition through i j : Z := d0 i k + d0 k j.
Definition better i j : Prop := through i j < d0 i j.

(** The matrices after the round. *)
Definition round_dist i j : Z := if decide (through i j < d0 i j) then through i j else d0 i j.
Definition round_next i j : Z := if decide (through i j < d0 i j) then n0 i k else n0 i j.

(** Each entry is new or old, and new where [P] holds. *)
Definition mixed P f h : Prop :=
  forall i j, node g i -> node g j -> (f i j = round_dist i j /\ h i j = round_next i j) \/ (~ P i j /\ f i j = d0 i j /\ h i j = n0 i j).

Definition overflows : Prop := exists i j, node g i /\ node g j /\ ~ in_i32 (through i j).

(** The column and the row of [k] do not change. *)
Lemma round_pivot i : round_dist i k = d0 i k /\ round_next i k = n0 i k /\ round_dist k i = d0 k i.
Proof using Hdiag. unfold round_dist, round_next, through. repeat case_decide; split_and!; lia. Qed.

Lemma mixed_pivot P f h i : mixed P f h -> node g i -> f i k = d0 i k /\ h i k = n0 i k /\ f k i = d0 k i.
Proof using Hk Hdiag.
  intros Hm Hi. destruct (round_pivot i) as (H1 & H2 & H3). destruct (Hm i k Hi Hk) as [[-> ->]|(_ & -> & ->)], (Hm k i Hk Hi) as [[-> _]|(_ & -> & _)]; done.
Qed.

Lemma mixed_weaken P P' f h : mixed P f h -> (forall a b, P' a b -> P a b) -> mixed P' f h.
Proof using. intros Hm HP a b Ha Hb. destruct (Hm a b Ha Hb) as [?|(Hn & ? & ?)]; [by left|right]. split; [|done]. intros HP'. by apply Hn, HP. Qed.

Lemma improve_row_ok i js : node g i -> Forall (node g) js -> forall dist nxt f h P, rep g dist f -> rep g nxt h -> mixed P f h ->
  (exists dist' nxt' f' h', improve_row k i js dist nxt = Ret (dist', nxt') /\ rep g dist' f' /\ rep g nxt' h' /\ mixed (fun a b => P a b \/ (a = i /\ b ∈ js)) f' h') \/
  (improve_row k i js dist nxt = Undef /\ overflows).
Proof using Hk Hdiag.
  intros Hi. induction js as [|j js IH]; intros Hf dist nxt f h P Hd Hn Hm; cbn [improve_row].
  { left. exists dist, nxt, f, h. split; [done|]. split; [done|]. split; [done|]. eapply mixed_weaken; [exact Hm|]. intros a b [?|[_ H]]; [done|by apply not_elem_of_nil in H]. }
  apply Forall_cons in Hf as [Hj Hf]. destruct (mixed_pivot P f h i Hm Hi) as (Hfi & Hhi & _), (mixed_pivot P f h j Hm Hj) as (_ & _ & Hfj).
  rewrite (mget_ok g dist f i k Hd Hi Hk). ret_step. rewrite (mget_ok g dist f k j Hd Hk Hj). ret_step. rewrite Hfi, Hfj. fold (through i j).
  destruct (decide (in_i32 (through i j))) as [Hin|Hin]; [|right; split; [unfold add32; by rewrite decide_False|by exists i, j]]. rewrite add32_in by done. ret_step. rewrite (mget_ok g dist f i j Hd Hi Hj). ret_step. fold (through i j).
  assert (mixed (fun a b => P a b \/ a = i /\ b = j) f h \/ f i j = d0 i j /\ better i j) as Hcase.
  { destruct (decide (f i j = d0 i j /\ through i j < d0 i j)) as [Hb|Hb]; [right; exact Hb|left]. intros a b Ha Hb'. destruct (Hm a b Ha Hb') as [?|(HP & Hfab & Hhab)]; [by left|]. destruct (decide (a = i /\ b = j)) as [[-> ->]|Hne].
    - left. unfold round_dist, round_next. rewrite !decide_False by (intros ?; apply Hb; done). done.
    - right. split; [|done]. by intros [?|?]. }
  case_decide as Hlt.
  - destruct (mset_ok g dist f i j (through i j) Hd Hi Hj) as (d1 & -> & Hd1). ret_step. rewrite (mget_ok g nxt h i k Hn Hi Hk). ret_step. rewrite Hhi. destruct (mset_ok g nxt h i j (n0 i k) Hn Hi Hj) as (n1 & -> & Hn1). ret_step.
    destruct (IH Hf d1 n1 _ _ (fun a b => P a b \/ a = i /\ b = j) Hd1 Hn1) as [(d2 & n2 & f' & h' & Hr & Hd2 & Hn2 & Hm2)|[Hr Ho]]; [|left|by right].
    + assert (through i j < d0 i j) as Hb. { destruct (Hm i j Hi Hj) as [[E _]|(_ & E & _)]; rewrite E in Hlt; [|done]. unfold round_dist in Hlt. case_decide; lia. }
      intros a b Ha Hb'. case_decide as E; [destruct E as [-> ->]; left; unfold round_dist, round_next; by rewrite !decide_True|]. destruct (Hm a b Ha Hb') as [?|(HP & ? & ?)]; [by left|right]. split; [|done]. by intros [?|?].
    + exists d2, n2, f', h'. split; [exact Hr|]. split; [done|]. split; [done|]. eapply mixed_weaken; [exact Hm2|]. cbn. set_solver.
  - destruct Hcase as [Hm'|[E Hb]]; [|rewrite E in Hlt; unfold better in Hb; lia].
    destruct (IH Hf dist nxt f h _ Hd Hn Hm') as [(d2 & n2 & f' & h' & Hr & Hd2 & Hn2 & Hm2)|[Hr Ho]]; [left|by right]. exists d2, n2, f', h'. split; [exact Hr|]. split; [done|]. split; [done|]. eapply mixed_weaken; [exact Hm2|]. cbn. set_solver.
Qed.

Lemma improve_rows_ok js rows : Forall (node g) js -> Forall (node g) rows -> forall dist nxt f h P, rep g dist f -> rep g nxt h -> mixed P f h ->
  (exists dist' nxt' f' h', improve_rows k js rows dist nxt = Ret (dist', nxt') /\ rep g dist' f' /\ rep g nxt' h' /\ mixed (fun a b => P a b \/ (a ∈ rows /\ b ∈ js)) f' h') \/
  (improve_rows k js rows dist nxt = Undef /\ overflows).
Proof using Hk Hdiag.
  intros Hjs. induction rows as [|i rows IH]; intros Hf dist nxt f h P Hd Hn Hm; cbn [improve_rows].
  { left. exists dist, nxt, f, h. split; [done|]. split; [done|]. split; [done|]. eapply mixed_weaken; [exact Hm|]. intros a b [?|[H _]]; [done|by apply not_elem_of_nil in H]. }
  apply Forall_cons in Hf as [Hi Hf]. destruct (improve_row_ok i js Hi Hjs dist nxt f h P Hd Hn Hm) as [(d1 & n1 & f1 & h1 & -> & Hd1 & Hn1 & Hm1)|[-> Ho]]; [|by right]. ret_step.
  destruct (IH Hf d1 n1 f1 h1 _ Hd1 Hn1 Hm1) as [(d2 & n2 & f' & h' & Hr & Hd2 & Hn2 & Hm2)|[Hr Ho]]; [left|by right]. exists d2, n2, f', h'. split; [exact Hr|]. split; [done|]. split; [done|]. eapply mixed_weaken; [exact Hm2|]. cbn. set_solver.
Qed.

(** A round computes the new matrices, or overflows. *)
Lemma round_ok dist nxt : rep g dist d0 -> rep g nxt n0 ->
  (exists dist' nxt', improve_rows k (seqZ 0 (num_nodes_ g)) (seqZ 0 (num_nodes_ g)) dist nxt = Ret (dist', nxt') /\ rep g dist' round_dist /\ rep g nxt' round_next) \/
  (improve_rows k (seqZ 0 (num_nodes_ g)) (seqZ 0 (num_nodes_ g)) dist nxt = Undef /\ overflows).
Proof using Hk Hdiag.
  intros Hd Hn. destruct (improve_rows_ok _ _ (all_nodes g) (all_nodes g) dist nxt d0 n0 (fun _ _ => False) Hd Hn) as [(d1 & n1 & f & h & Hr & Hd1 & Hn1 & Hm)|?]; [intros i j _ _; right; split; [by intros []|done]| |by right].
  left. exists d1, n1. split; [exact Hr|]. assert (forall i j, node g i -> node g j -> f i j = round_dist i j /\ h i j = round_next i j) as He.
  { intros i j Hi Hj. destruct (Hm i j Hi Hj) as [?|(HP & _)]; [done|]. destruct HP. right. unfold node in *. rewrite !elem_of_seqZ. lia. }
  split; eapply rep_ext; [exact Hd1| |exact Hn1|]; intros i j Hi Hj; by apply He.
Qed.
End round.

(** ** Entries only decrease *)
Section monotone.
Context (g : Graph).
Implicit Types (f h : Z -> Z -> Z).

Definition lower f' f : Prop := forall i j, node g i -> node g j -> f' i j <= f i j.

Lemma lower_refl f : lower f f.
Proof. intros i j _ _. lia. Qed.

Lemma lower_trans f1 f2 f3 : lower f1 f2 -> lower f2 f3 -> lower f1 f3.
Proof. intros H1 H2 i j Hi Hj. specialize (H1 i j Hi Hj). specialize (H2 i j Hi Hj). lia. Qed.

Lemma improve_row_lower k i js : node g k -> node g i -> Forall (node g) js -> forall dist nxt f h dist' nxt', rep g dist f -> rep g nxt h -> improve_row k i js dist nxt = Ret (dist', nxt') ->
  exists f' h', rep g dist' f' /\ rep g nxt' h' /\ lower f' f.
Proof.
  intros Hk Hi. induction js as [|j js IH]; intros Hf dist nxt f h dist' nxt' Hd Hn; cbn [improve_row]; [intros [= <- <-]; exists f, h; split; [done|]; split; [done|apply lower_refl]|].
  apply Forall_cons in Hf as [Hj Hf]. rewrite (mget_ok g dist f i k Hd Hi Hk). ret_step. rewrite (mget_ok g dist f k j Hd Hk Hj). ret_step. intros (x & Hx & Hr)%bind_Ret_inv. rewrite (mget_ok g dist f i j Hd Hi Hj) in Hr. revert Hr. ret_step. case_decide as Hlt; intros Hr.
  - destruct (mset_ok g dist f i j x Hd Hi Hj) as (d1 & Hs1 & Hd1). rewrite Hs1 in Hr. revert Hr. ret_step. rewrite (mget_ok g nxt h i k Hn Hi Hk). ret_step. destruct (mset_ok g nxt h i j (h i k) Hn Hi Hj) as (n1 & -> & Hn1). ret_step. intros Hr.
    destruct (IH Hf _ _ _ _ _ _ Hd1 Hn1 Hr) as (f' & h' & Hd' & Hn' & Hl). exists f', h'. split; [done|]. split; [done|]. eapply lower_trans; [exact Hl|]. intros a b _ _. cbn. case_decide as E; [destruct E as [-> ->]; lia|lia].
  - by apply (IH Hf _ _ _ _ _ _ Hd Hn Hr).
Qed.

Lemma improve_rows_lower k js rows : node g k -> Forall (node g) js -> Forall (node g) rows -> forall dist nxt f h dist' nxt', rep g dist f -> rep g nxt h -> improve_rows k js rows dist nxt = Ret (dist', nxt') ->
  exists f' h', rep g dist' f' /\ rep g nxt' h' /\ lower f' f.
Proof.
  intros Hk Hjs. induction rows as [|i rows IH]; intros Hf dist nxt f h dist' nxt' Hd Hn; cbn [improve_rows]; [intros [= <- <-]; exists f, h; split; [done|]; split; [done|apply lower_refl]|].
  apply Forall_cons in Hf as [Hi Hf]. intros ([d1 n1] & Hx & Hr)%bind_Ret_inv. destruct (improve_row_lower k i js Hk Hi Hjs _ _ _ _ _ _ Hd Hn Hx) as (f1 & h1 & Hd1 & Hn1 & Hl1). destruct (IH Hf _ _ _ _ _ _ Hd1 Hn1 Hr) as (f' & h' & Hd' & Hn' & Hl). exists f', h'. split; [done|]. split; [done|]. by eapply lower_trans.
Qed.

Lemma improve_all_lower js ks : Forall (node g) js -> Forall (node g) ks -> forall dist nxt f h dist' nxt', rep g dist f -> rep g nxt h -> improve_all js ks dist nxt = Ret (dist', nxt') ->
  exists f' h', rep g dist' f' /\ rep g nxt' h' /\ lower f' f.
Proof.
  intros Hjs. induction ks as [|k ks IH]; intros Hf dist nxt f h dist' nxt' Hd Hn; cbn [improve_all]; [intros [= <- <-]; exists f, h; split; [done|]; split; [done|apply lower_refl]|].
  apply Forall_cons in Hf as [Hk Hf]. intros ([d1 n1] & Hx & Hr)%bind_Ret_inv. destruct (improve_rows_lower k js js Hk Hjs Hjs _ _ _ _ _ _ Hd Hn Hx) as (f1 & h1 & Hd1 & Hn1 & Hl1). destruct (IH Hf _ _ _ _ _ _ Hd1 Hn1 Hr) as (f' & h' & Hd' & Hn' & Hl). exists f', h'. split; [done|]. split; [done|]. by eapply lower_trans.
Qed.

Lemma rep_unique dist f f' i j : rep g dist f -> rep g dist f' -> node g i -> node g j -> f i j = f' i j.
Proof. intros H H' Hi Hj. pose proof (mget_ok g dist f i j H Hi Hj) as E. rewrite (mget_ok g dist f' i j H' Hi Hj) in E. by injection E. Qed.
End monotone.

(** ** The matrix of the graph and its walks *)
(** No edge to the node itself, and at most one to every other. *)
Definition simple g : Prop := forall u, node g u -> NoDup (u :: (to_ <$> adj g u)).

Definition start_dist g i j : Z := if decide (i = j) then 0 else edge_weight (adj g i) j NO_EDGE.
Definition start_next g i j : Z := if decide (i = j) then i else edge_next (adj g i) j (-1).

Lemma edge_weight_absent edges v x y : v ∉ (to_ <$> edges) -> edge_weight edges v x = x /\ edge_next edges v y = y.
Proof.
  revert x y. induction edges as [|e edges IH]; intros x y; cbn; [done|]. rewrite not_elem_of_cons. intros [Hne Hv]. rewrite !decide_False by congruence. by apply IH.
Qed.

Lemma edge_weight_present edges v c x y : NoDup (to_ <$> edges) -> mkEdge v c ∈ edges -> edge_weight edges v x = c /\ edge_next edges v y = v.
Proof.
  revert x y. induction edges as [|e edges IH]; intros x y; cbn [fmap list_fmap edge_weight edge_next]; [by intros _ ?%elem_of_nil|]. intros [Hfresh Hnd]%NoDup_cons [<-|He]%elem_of_cons; cbn [to_ weight_] in *.
  - rewrite !decide_True by done. split; by apply edge_weight_absent.
  - by apply IH.
Qed.

Section matrix.
Context (g : Graph) (Hwf : wf_graph g) (Hsimple : simple g).
Abbreviation M := (start_dist g).

Lemma simple_parts u : node g u -> (u ∉ (to_ <$> adj g u)) /\ NoDup (to_ <$> adj g u).
Proof using Hsimple. intros Hu. by apply NoDup_cons, Hsimple. Qed.

Lemma edge_entry u v c : wedge g u v c -> u <> v /\ M u v = c /\ start_next g u v = v.
Proof using Hsimple.
  intros [Hu He]. destruct (simple_parts u Hu) as [Hself Hnd]. assert (u <> v) as Hne by (intros ->; apply Hself; apply list_elem_of_fmap; by exists (mkEdge v c)). split; [done|].
  unfold start_dist, start_next. rewrite !decide_False by done. by apply edge_weight_present.
Qed.

Lemma no_edge_entry u v : node g u -> u <> v -> (wedge g u v (M u v) /\ start_next g u v = v) \/ ((forall c, ~ wedge g u v c) /\ M u v = NO_EDGE /\ start_next g u v = -1).
Proof using Hsimple.
  intros Hu Hne. destruct (decide (v ∈ (to_ <$> adj g u))) as [([v' c] & -> & He)%list_elem_of_fmap|Hv].
  - left. cbn. assert (wedge g u v' c) as Hw by done. destruct (edge_entry u v' c Hw) as (_ & -> & ->). done.
  - right. split; [intros c [_ He]; apply Hv, list_elem_of_fmap; by exists (mkEdge v c)|]. unfold start_dist, start_next. rewrite !decide_False by done. by apply edge_weight_absent.
Qed.

Lemma diagonal_entry u : M u u = 0.
Proof using. unfold start_dist. by rewrite decide_True. Qed.

(** Walks of the complete graph between whose ends all nodes are below [k]. *)
Inductive kwalk k : Z -> Z -> Z -> Prop :=
| kw_edge i j : node g i -> node g j -> kwalk k i j (M i j)
| kw_step i x v w : kwalk k i x w -> x < k -> node g v -> kwalk k i v (w + M x v).

Lemma kwalk_nodes k i j w : kwalk k i j w -> node g i /\ node g j.
Proof using. induction 1 as [|i x v w _ [? _]]; done. Qed.

Lemma kwalk_mono k k' i j w : k <= k' -> kwalk k i j w -> kwalk k' i j w.
Proof using. intros Hk. induction 1; [by constructor|]. apply kw_step; [done|lia|done]. Qed.

Lemma kwalk_app k i x j w1 w2 : kwalk k i x w1 -> x < k -> kwalk k x j w2 -> kwalk k i j (w1 + w2).
Proof using.
  intros H1 Hx H2. induction H2 as [x j Hnx Hj|x y v w H2 IH Hy Hv]; [by apply kw_step|]. rewrite Z.add_assoc. apply kw_step; [by apply IH|done|done].
Qed.

(** A walk passes through [k] at most once when closed walks are not negative. *)
Lemma kwalk_split k i j w : node g k -> (forall w, kwalk k k k w -> 0 <= w) -> kwalk (k + 1) i j w ->
  kwalk k i j w \/ exists w1 w2, kwalk k i k w1 /\ kwalk k k j w2 /\ w1 + w2 <= w.
Proof using.
  intros Hk Hc. induction 1 as [i j Hi Hj|i x v w H IH Hx Hv]; [left; by constructor|].
  destruct (decide (x = k)) as [->|Hne].
  - right. destruct IH as [H1|(w1 & w2 & H1 & H2 & Hle)]; [exists w, (M k v)|exists w1, (M k v); specialize (Hc w2 H2)]; (split; [done|]; split; [by constructor|lia]).
  - destruct IH as [H1|(w1 & w2 & H1 & H2 & Hle)]; [left; apply kw_step; [done|lia|done]|right]. exists w1, (w2 + M x v). split; [done|]. split; [apply kw_step; [done|lia|done]|lia].
Qed.

Lemma wpath_kwalk i ns j w : wpath g (eq i) ns j w -> kwalk (num_nodes_ g) i j w.
Proof using Hwf Hsimple.
  induction 1 as [s <- Hs|ns u v w c Hp IH He]; [rewrite <- (diagonal_entry i); by constructor|]. destruct (edge_entry u v c He) as (_ & <- & _). destruct (wedge_nodes g Hwf _ _ _ He) as [Hu Hv]. apply kw_step; [done|unfold node in Hu; lia|done].
Qed.

Definition complete_below k (d : Z -> Z -> Z) : Prop := forall i j w, kwalk k i j w -> d i j <= w.

(** One more node between. *)
Lemma complete_next_round k d : node g k -> (forall w, kwalk k k k w -> 0 <= w) -> complete_below k d -> complete_below (k + 1) (round_dist k d).
Proof using.
  intros Hk Hc Hd i j w Hw. assert (round_dist k d i j <= d i j /\ round_dist k d i j <= d i k + d k j) as [H1 H2] by (unfold round_dist, through; case_decide; lia).
  destruct (kwalk_split k i j w Hk Hc Hw) as [Hkw|(w1 & w2 & Hw1 & Hw2 & Hle)]; [specialize (Hd _ _ _ Hkw); lia|]. pose proof (Hd _ _ _ Hw1). pose proof (Hd _ _ _ Hw2). lia.
Qed.

Lemma complete_start_dist : complete_below 0 M.
Proof using. intros i j w H. destruct H as [i j Hi Hj|i x v w H Hx Hv]; [lia|]. exfalso. destruct (kwalk_nodes _ _ _ _ H) as [_ Hn]. unfold node in Hn. lia. Qed.

(** *** Potentials *)
Context (p : Z -> Z) (B : Z) (Hp : forall v, node g v -> - B <= p v <= 0) (Hedge : forall u v c, wedge g u v c -> p v <= p u + c) (HB : 0 <= B <= NO_EDGE).

Lemma entry_potential i j : node g i -> node g j -> p j <= p i + M i j.
Proof using Hsimple Hp Hedge HB.
  intros Hi Hj. destruct (decide (i = j)) as [->|Hne]; [rewrite diagonal_entry; lia|]. destruct (no_edge_entry i j Hi Hne) as [[He _]|(_ & -> & _)]; [by apply Hedge|]. pose proof (Hp i Hi). pose proof (Hp j Hj). lia.
Qed.

Lemma kwalk_potential k i j w : kwalk k i j w -> p j - p i <= w.
Proof using Hsimple Hp Hedge HB.
  induction 1 as [i j Hi Hj|i x v w H IH Hx Hv]; [pose proof (entry_potential i j Hi Hj); lia|]. pose proof (entry_potential x v (proj2 (kwalk_nodes _ _ _ _ H)) Hv). lia.
Qed.

(** A walk of the complete graph is one of the graph, or as heavy as an edge that is not there. *)
Definition phantom i j w : Prop := NO_EDGE - B + p j - p i <= w.

Lemma phantom_edge i j : node g i -> node g j -> phantom i j NO_EDGE.
Proof using Hp. intros Hi Hj. unfold phantom. pose proof (Hp i Hi). pose proof (Hp j Hj). lia. Qed.

Lemma kwalk_real k i j w : kwalk k i j w -> (exists ns, wpath g (eq i) ns j w) \/ phantom i j w.
Proof using Hsimple Hp Hedge HB.
  assert (forall a, node g a -> exists ns, wpath g (eq a) ns a 0) as Hnil by (intros a Ha; exists [a]; by constructor).
  induction 1 as [i j Hi Hj|i x v w H IH Hx Hv].
  - destruct (decide (i = j)) as [->|Hne]; [left; rewrite diagonal_entry; by apply Hnil|]. destruct (no_edge_entry i j Hi Hne) as [[He _]|(_ & -> & _)]; [|right; by apply phantom_edge].
    left. destruct (Hnil i Hi) as [ns Hns]. exists (j :: ns). rewrite <- (Z.add_0_l (M i j)). by apply wp_snoc with i.
  - destruct (kwalk_nodes _ _ _ _ H) as [Hi Hnx]. pose proof (entry_potential x v Hnx Hv) as Hpot. destruct IH as [[ns Hns]|Hph]; [|right; unfold phantom in *; lia].
    destruct (decide (x = v)) as [->|Hne]; [left; rewrite diagonal_entry, Z.add_0_r; by exists ns|]. destruct (no_edge_entry x v Hnx Hne) as [[He _]|(_ & -> & _)]; [left; exists (v :: ns); by apply wp_snoc with x|right].
    pose proof (kwalk_potential _ _ _ _ H). pose proof (phantom_edge x v Hnx Hv). unfold phantom in *. lia.
Qed.
End matrix.

(** ** All rounds *)
Section rounds.
Context (g : Graph) (Hwf : wf_graph g) (Hsimple : simple g).
Context (p : Z -> Z) (B : Z) (Hp : forall v, node g v -> - B <= p v <= 0) (Hedge : forall u v c, wedge g u v c -> p v <= p u + c) (HB : 0 <= B <= NO_EDGE).
Context (Hsmall : forall u v c, wedge g u v c -> c <= NO_EDGE).
Abbreviation M := (start_dist g).
Abbreviation n := (num_nodes_ g).

(** The entries are weights of walks of the complete graph, no heavier than those below [k]; a next node that is
    not [-1] starts an edge towards [j] after which the entry, or else the rank, is smaller. *)
Record apsp_inv k (d nx rank : Z -> Z -> Z) : Prop := {
  ai_diag : forall i, node g i -> d i i = 0 /\ nx i i = i /\ rank i i = 0;
  ai_walk : forall i j, node g i -> node g j -> kwalk g n i j (d i j);
  ai_complete : complete_below g k d;
  ai_next : forall i j, node g i -> node g j -> i <> j -> nx i j <> -1 -> wedge g i (nx i j) (M i (nx i j)) /\
    (M i (nx i j) + d (nx i j) j < d i j \/ (M i (nx i j) + d (nx i j) j = d i j /\ rank (nx i j) j < rank i j));
  ai_none : forall i j, node g i -> node g j -> i <> j -> nx i j = -1 -> phantom p B i j (d i j);
  ai_rank : forall i j, node g i -> node g j -> 0 <= rank i j < 2 ^ (k + 1);
}.

Definition round_rank k (d rank : Z -> Z -> Z) i j : Z := if decide (through k d i j < d i j) then 2 ^ (k + 1) + rank i k else rank i j.

Lemma not_negative k d nx rank i j : apsp_inv k d nx rank -> node g k -> node g i -> node g j -> p j - p i <= d i j /\ (i = k \/ j = k \/ i = j -> d i j <= through k d i j).
Proof using Hsimple Hp Hedge HB.
  intros Hi Hk Hni Hnj. assert (forall a b, node g a -> node g b -> p b - p a <= d a b) as Hlow by (intros a b Ha Hb; apply (kwalk_potential g Hsimple p B Hp Hedge HB n), (ai_walk _ _ _ _ Hi); done).
  split; [by apply Hlow|]. destruct (ai_diag _ _ _ _ Hi k Hk) as [Hdk _]. unfold through. intros [-> | [-> | ->]]; [lia|lia|]. destruct (ai_diag _ _ _ _ Hi j Hnj) as [-> _]. pose proof (Hlow j k Hnj Hk). pose proof (Hlow k j Hk Hnj). lia.
Qed.

Lemma round_inv k d nx rank : node g k -> apsp_inv k d nx rank -> apsp_inv (k + 1) (round_dist k d) (round_next k d nx) (round_rank k d rank).
Proof using Hwf Hsimple Hp Hedge HB.
  intros Hk Hi. pose proof (fun i j => not_negative k d nx rank i j Hi Hk) as Hnn. assert (0 < 2 ^ (k + 1)) as Hpow by (apply Z.pow_pos_nonneg; unfold node in Hk; lia).
  assert (forall i, node g i -> ~ through k d i i < d i i) as Hself by (intros i Hni; specialize (Hnn i i Hni Hni) as [_ H]; specialize (H ltac:(by right; right)); lia).
  split.
  - intros i Hni. unfold round_dist, round_next, round_rank. rewrite !decide_False by (by apply Hself). by apply (ai_diag _ _ _ _ Hi).
  - intros i j Hni Hnj. unfold round_dist. case_decide; [|by apply (ai_walk _ _ _ _ Hi)]. apply kwalk_app with k; [by apply (ai_walk _ _ _ _ Hi)|unfold node in Hk; lia|by apply (ai_walk _ _ _ _ Hi)].
  - apply (complete_next_round g k d Hk); [|apply (ai_complete _ _ _ _ Hi)]. intros w Hw. pose proof (kwalk_potential g Hsimple p B Hp Hedge HB _ _ _ _ Hw). lia.
  - intros i j Hni Hnj Hne. unfold round_next, round_dist at 2 4, round_rank at 2. destruct (decide (through k d i j < d i j)) as [Hb|Hb]; intros Hnx.
    + assert (i <> k) as Hik by (intros ->; destruct (Hnn k j Hk Hnj) as [_ H]; specialize (H ltac:(by left)); lia). destruct (ai_next _ _ _ _ Hi i k Hni Hk Hik Hnx) as [He Hd]. split; [done|]. set (v := nx i k) in *. pose proof (proj2 (wedge_nodes g Hwf _ _ _ He)) as Hv.
      pose proof (ai_rank _ _ _ _ Hi v j Hv Hnj). pose proof (ai_rank _ _ _ _ Hi i k Hni Hk). unfold round_dist, round_rank, through in *. case_decide; lia.
    + destruct (ai_next _ _ _ _ Hi i j Hni Hnj Hne Hnx) as [He Hd]. split; [done|]. unfold round_dist, round_rank, through in *. case_decide; lia.
  - intros i j Hni Hnj Hne. unfold round_next, round_dist. destruct (decide (through k d i j < d i j)) as [Hb|Hb]; intros Hnx; [|by apply (ai_none _ _ _ _ Hi)].
    assert (i <> k) as Hik by (intros ->; destruct (Hnn k j Hk Hnj) as [_ H]; specialize (H ltac:(by left)); lia). pose proof (ai_none _ _ _ _ Hi i k Hni Hk Hik Hnx) as Hph. destruct (Hnn k j Hk Hnj) as [Hlow _]. unfold phantom, through in *. lia.
  - intros i j Hni Hnj. pose proof (ai_rank _ _ _ _ Hi i j Hni Hnj). pose proof (ai_rank _ _ _ _ Hi i k Hni Hk). rewrite (Z.pow_add_r 2 (k + 1) 1) by (unfold node in Hk; lia). unfold round_rank. case_decide; lia.
Qed.

Lemma entry_at_most k d nx rank i j : apsp_inv k d nx rank -> node g i -> node g j -> d i j <= NO_EDGE.
Proof using Hsimple Hsmall HB.
  intros Hi Hni Hnj. pose proof (ai_complete _ _ _ _ Hi i j _ (kw_edge g k i j Hni Hnj)) as H. destruct (decide (i = j)) as [->|Hne]; [rewrite diagonal_entry in H; unfold NO_EDGE, INT32_MAX in *; lia|]. destruct (no_edge_entry g Hsimple i j Hni Hne) as [[He _]|(_ & E & _)]; [pose proof (Hsmall _ _ _ He)|rewrite E in H]; lia.
Qed.

Lemma no_overflow k d nx rank : node g k -> apsp_inv k d nx rank -> ~ overflows g k d.
Proof using Hsimple Hp Hedge HB Hsmall.
  intros Hk Hi (i & j & Hni & Hnj & Ho). apply Ho. pose proof (entry_at_most k d nx rank i k Hi Hni Hk). pose proof (entry_at_most k d nx rank k j Hi Hk Hnj). destruct (not_negative k d nx rank i k Hi Hk Hni Hk) as [H1 _], (not_negative k d nx rank k j Hi Hk Hk Hnj) as [H2 _].
  pose proof (Hp i Hni). pose proof (Hp j Hnj). pose proof (Hp k Hk). unfold in_i32, through, INT32_MIN, NO_EDGE, INT32_MAX in *. change (2147483647 / 2) with 1073741823 in *. lia.
Qed.

Lemma improve_all_ok m : forall k dist nxt d nx rank, 0 <= k -> n = k + Z.of_nat m -> rep g dist d -> rep g nxt nx -> apsp_inv k d nx rank ->
  exists dist' nxt' d' nx' rank', improve_all (seqZ 0 n) (seqZ k (Z.of_nat m)) dist nxt = Ret (dist', nxt') /\ rep g dist' d' /\ rep g nxt' nx' /\ apsp_inv n d' nx' rank'.
Proof using Hwf Hsimple Hp Hedge HB Hsmall.
  induction m as [|m IH]; intros k dist nxt d nx rank H0 Hm Hd Hn Hi.
  - rewrite (seqZ_nil k) by lia. cbn [improve_all]. exists dist, nxt, d, nx, rank. assert (k = n) as -> by lia. done.
  - rewrite (seqZ_cons k) by lia. replace (Z.pred (Z.of_nat (S m))) with (Z.of_nat m) by lia. cbn [improve_all]. assert (node g k) as Hk by (unfold node; lia). destruct (round_ok g k Hk d nx) with (dist := dist) (nxt := nxt) as [(d1 & n1 & -> & Hd1 & Hn1)|[_ Ho]]; [|done|done| |].
    + destruct (ai_diag _ _ _ _ Hi k Hk) as [-> _]. done.
    + ret_step. rewrite <- Z.add_1_r. apply (IH (k + 1) d1 n1 (round_dist k d) (round_next k d nx) (round_rank k d rank)); [lia|lia|done|done|]. by apply round_inv.
    + by destruct (no_overflow k d nx rank Hk Hi).
Qed.

Lemma start_apsp_inv : apsp_inv 0 M (start_next g) (fun i j => if decide (i = j) then 0 else 1).
Proof using Hwf Hsimple Hp.
  split.
  - intros i Hi. rewrite diagonal_entry, decide_True by done. split; [done|]. split; [|done]. unfold start_next. by rewrite decide_True.
  - intros i j Hi Hj. by constructor.
  - apply complete_start_dist.
  - intros i j Hi Hj Hne Hnx. destruct (no_edge_entry g Hsimple i j Hi Hne) as [[He E]|(_ & _ & E)]; [|done]. rewrite E. split; [done|]. right. rewrite diagonal_entry, decide_True, decide_False by done. lia.
  - intros i j Hi Hj Hne Hnx. destruct (no_edge_entry g Hsimple i j Hi Hne) as [[He E]|(_ & -> & E)]; [|by eapply phantom_edge]. rewrite E in Hnx. unfold node in Hj. lia.
  - intros i j Hi Hj. change (2 ^ (0 + 1)) with 2. case_decide; lia.
Qed.
End rounds.

(** The matrices before the rounds. *)
Lemma start_ok g : wf_graph g -> simple g -> exists dist nxt dist' nxt', set_diagonal (seqZ 0 (num_nodes_ g)) (replicate (Z.to_nat (num_nodes_ g)) (replicate (Z.to_nat (num_nodes_ g)) NO_EDGE)) (replicate (Z.to_nat (num_nodes_ g)) (replicate (Z.to_nat (num_nodes_ g)) (-1))) = Ret (dist, nxt) /\
  set_all g (seqZ 0 (num_nodes_ g)) dist nxt = Ret (dist', nxt') /\ rep g dist' (start_dist g) /\ rep g nxt' (start_next g).
Proof.
  intros Hwf Hs. destruct (set_diagonal_ok g _ (all_nodes g) _ _ _ _ (rep_constant g NO_EDGE) (rep_constant g (-1))) as (d1 & n1 & Hr1 & Hd1 & Hn1). destruct (set_all_ok g Hwf _ (all_nodes g) (NoDup_seqZ _ _) _ _ _ _ Hd1 Hn1) as (d2 & n2 & Hr2 & Hd2 & Hn2).
  exists d1, n1, d2, n2. split; [done|]. split; [done|]. assert (forall i, node g i -> i ∈ seqZ 0 (num_nodes_ g)) as Hin by (intros i Hi; apply elem_of_seqZ; unfold node in Hi; lia).
  split; eapply rep_ext; [exact Hd2| |exact Hn2|]; intros i j Hi Hj; cbn; rewrite (decide_True (P := i ∈ _)) by auto; unfold start_dist, start_next; (destruct (decide (i = j)) as [<-|Hne]; [|by rewrite decide_False by naive_solver]); rewrite decide_True by auto.
  - by apply (edge_weight_absent _ _ _ 0), (simple_parts g Hs).
  - by apply (edge_weight_absent _ _ 0), (simple_parts g Hs).
Qed.

Lemma negative_diagonal_ok g rows dist f : rep g dist f -> Forall (node g) rows -> exists b, negative_diagonal rows dist = Ret b /\ (b = true <-> exists i, i ∈ rows /\ f i i < 0).
Proof.
  intros Hd. induction rows as [|i rows IH]; intros Hf; cbn [negative_diagonal]; [exists false; split; [done|]; split; [done|]; by intros (i & ?%elem_of_nil & _)|].
  apply Forall_cons in Hf as [Hi Hf]. rewrite (mget_ok g dist f i i Hd Hi Hi). ret_step. case_decide as Hneg; [exists true; split; [done|]; split; [|done]; intros _; exists i; by split; [left|]|].
  destruct (IH Hf) as (b & -> & Hb). exists b. split; [done|]. rewrite Hb. split; intros (j & Hj & Hlt); exists j; (split; [|done]); [by right|]. by apply elem_of_cons in Hj as [->|?].
Qed.

(** ** Following the next nodes *)
Section paths.
Context (g : Graph) (Hwf : wf_graph g) (Hsimple : simple g).
Context (p : Z -> Z) (B : Z) (Hp : forall v, node g v -> - B <= p v <= 0) (Hedge : forall u v c, wedge g u v c -> p v <= p u + c) (HB : 0 <= B <= NO_EDGE).
Context (d nx rank : Z -> Z -> Z) (Hi : apsp_inv g p B (num_nodes_ g) d nx rank).
Abbreviation M := (start_dist g).

(** The nodes after [i] on the way to [j], and whether it gets there. *)
Inductive follow j : Z -> list Z -> bool -> Prop :=
| fo_here : follow j j [] true
| fo_dead i : i <> j -> nx i j = -1 -> follow j i [] false
| fo_step i ns b : i <> j -> nx i j <> -1 -> follow j (nx i j) ns b -> follow j i (nx i j :: ns) b.

(** After the last round every step is tight, and descends. *)
Lemma next_tight i j : node g i -> node g j -> i <> j -> nx i j <> -1 -> wedge g i (nx i j) (M i (nx i j)) /\ node g (nx i j) /\ M i (nx i j) + d (nx i j) j = d i j /\ rank (nx i j) j < rank i j.
Proof using Hwf Hsimple Hi.
  intros Hni Hnj Hne Hnx. destruct (ai_next _ _ _ _ _ _ _ Hi i j Hni Hnj Hne Hnx) as [He Hd]. pose proof (proj2 (wedge_nodes g Hwf _ _ _ He)) as Hv. split; [done|]. split; [done|].
  assert (d i j <= M i (nx i j) + d (nx i j) j); [|lia]. apply (ai_complete _ _ _ _ _ _ _ Hi). apply kwalk_app with (nx i j); [by constructor|unfold node in Hv; lia|by apply (ai_walk _ _ _ _ _ _ _ Hi)].
Qed.

Lemma follow_exists j : node g j -> forall i, node g i -> exists ns b, follow j i ns b /\ Forall (fun x => node g x /\ rank x j < rank i j) ns /\ NoDup (i :: ns).
Proof using Hwf Hsimple Hi.
  intros Hj i. remember (Z.to_nat (rank i j)) as m eqn:Hm. revert i Hm. induction (lt_wf m) as [m _ IH]. intros i -> Hni. destruct (decide (i = j)) as [->|Hne]; [exists [], true; split; [constructor|]; split; [done|apply NoDup_singleton]|].
  destruct (decide (nx i j = -1)) as [Hn|Hn]; [exists [], false; split; [by constructor|]; split; [done|apply NoDup_singleton]|].
  destruct (next_tight i j Hni Hj Hne Hn) as (_ & Hv & _ & Hlt). pose proof (ai_rank _ _ _ _ _ _ _ Hi (nx i j) j Hv Hj). destruct (IH (Z.to_nat (rank (nx i j) j))) with (i := nx i j) as (ns & b & Hf & Hall & Hnd); [lia|done|done|].
  exists (nx i j :: ns), b. split; [by constructor|]. assert (Forall (fun x => node g x /\ rank x j < rank i j) (nx i j :: ns)) as Hall' by (constructor; [done|]; eapply Forall_impl; [exact Hall|]; cbn; intros x [? ?]; split; [done|lia]).
  split; [done|]. apply NoDup_cons. split; [|done]. intros Hin. rewrite Forall_forall in Hall'. destruct (Hall' _ Hin). lia.
Qed.

Lemma wpath_first ns j i v c w : wpath g (eq v) ns j w -> wedge g i v c -> wpath g (eq i) (ns ++ [i]) j (c + w).
Proof using.
  intros H He. induction H as [s <- Hs|ns u x w c' Hp' IH He']; cbn [app].
  - rewrite Z.add_comm. apply wp_snoc with i; [|done]. constructor; [done|apply He].
  - rewrite Z.add_assoc. by apply wp_snoc with u.
Qed.

Lemma follow_weight j i ns b : node g j -> node g i -> follow j i ns b -> if b then wpath g (eq i) (rev (i :: ns)) j (d i j) else phantom p B i j (d i j).
Proof using Hwf Hsimple Hp Hedge HB Hi.
  intros Hj Hni H. induction H as [|i Hne Hn|i ns b Hne Hn H IH].
  - destruct (ai_diag _ _ _ _ _ _ _ Hi j Hj) as [-> _]. by constructor.
  - by apply (ai_none _ _ _ _ _ _ _ Hi).
  - destruct (next_tight i j Hni Hj Hne Hn) as (He & Hv & Hd & _). specialize (IH Hv). destruct b.
    + rewrite <- Hd. change (rev (i :: nx i j :: ns)) with (rev (nx i j :: ns) ++ [i]). by apply wpath_first with (nx i j).
    + pose proof (Hedge _ _ _ He). unfold phantom in *. lia.
Qed.

Lemma next_loop_ok nxt from j : rep g nxt nx -> node g j -> forall fuel i ns b path, node g i -> follow j i ns b -> from ∉ ns -> (length ns < fuel)%nat ->
  next_loop fuel nxt from j i path = Ret (if b then path ++ ns else []).
Proof using Hwf Hsimple Hi.
  intros Hrep Hj. induction fuel as [|fuel IH]; intros i ns b path Hni Hf Hfrom Hl; [lia|]. cbn [next_loop]. destruct Hf as [|i Hne Hn|i ns b Hne Hn Hf].
  - rewrite decide_True, app_nil_r by done. done.
  - rewrite decide_False by done. rewrite (mget_ok g nxt nx i j Hrep Hni Hj). ret_step. rewrite decide_True by auto. done.
  - rewrite decide_False by done. rewrite (mget_ok g nxt nx i j Hrep Hni Hj). ret_step. apply not_elem_of_cons in Hfrom as [Hff Hfrom]. rewrite decide_False by (intros [?|?]; congruence).
    rewrite (IH _ ns b) by (done || cbn in Hl; lia || apply (next_tight i j Hni Hj Hne Hn)). destruct b; [|done]. by rewrite <- (assoc_L (++)).
Qed.

Lemma reconstruct_ok dist nxt i j : rep g nxt nx -> node g i -> node g j -> exists ns b, follow j i ns b /\ reconstructPath (mkAllPairs dist nxt false) i j = Ret (if b then i :: ns else []).
Proof using Hwf Hsimple Hi.
  intros Hrep Hni Hj. destruct (follow_exists j Hj i Hni) as (ns & b & Hf & Hall & Hnd). exists ns, b. split; [done|]. pose proof (proj1 Hrep) as Hl. pose proof Hni as Hni'. pose proof Hj as Hj'. unfold node in Hni', Hj'. unfold reconstructPath. cbn [has_negative_cycle next].
  rewrite decide_False by (rewrite Hl; intros [?|?]; [done|lia]). rewrite (mget_ok g nxt nx i j Hrep Hni Hj). ret_step. assert (Forall (node g) (i :: ns)) as Hns by (constructor; [done|]; eapply Forall_impl; [exact Hall|]; by intros x [? _]).
  pose proof (length_simple g Hwf _ Hnd Hns) as Hlen. apply NoDup_cons in Hnd as [Hfresh _]. case_decide as Hh.
  - destruct Hf as [|i Hne Hn|i ns b Hne Hn Hf]; [|done|done]. destruct (ai_diag _ _ _ _ _ _ _ Hi j Hj) as (_ & E & _). rewrite E in Hh. lia.
  - rewrite (next_loop_ok nxt i j Hrep Hj _ i ns b) by (done || rewrite Hl; cbn [length] in Hlen; lia). done.
Qed.

(** Below the limit the entry is the distance; above it there is no walk. *)
Lemma entry_distance Wn i j : node g i -> node g j -> 2 * B + Wn < NO_EDGE -> (forall ns w, wpath g (eq i) ns j w -> exists w', w' <= w /\ w' <= Wn /\ exists ns', wpath g (eq i) ns' j w') ->
  forall ns b, follow j i ns b ->
  if decide (d i j < NO_EDGE - 2 * B) then b = true /\ is_distance g (eq i) j (d i j) /\ wpath g (eq i) (rev (i :: ns)) j (d i j) else b = false /\ forall ns w, ~ wpath g (eq i) ns j w.
Proof using Hwf Hsimple Hp Hedge HB Hi.
  intros Hni Hj Hfit Hshort ns b Hf. pose proof (follow_weight j i ns b Hj Hni Hf) as Hw. pose proof (Hp i Hni). pose proof (Hp j Hj).
  assert (forall ns w, wpath g (eq i) ns j w -> d i j <= w) as Hmin by (intros ns' w Hw'; apply (ai_complete _ _ _ _ _ _ _ Hi); by eapply wpath_kwalk). case_decide as Hlt.
  - destruct b; [|unfold phantom in Hw; lia]. split; [done|]. split; [|done]. right. split; [by eexists|]. exact Hmin.
  - assert (forall ns w, ~ wpath g (eq i) ns j w) as Hnone by (intros ns' w Hw'; destruct (Hshort ns' w Hw') as (w' & _ & Hle & ns2 & Hw2); specialize (Hmin _ _ Hw2); lia). split; [|done]. destruct b; [|done]. by destruct (Hnone _ _ Hw).
Qed.
End paths.

(** The run of [compute]. *)
Lemma compute_run g (Hwf : wf_graph g) (Hs : simple g) p B : (forall v, node g v -> - B <= p v <= 0) -> (forall u v c, wedge g u v c -> p v <= p u + c) -> 0 <= B <= NO_EDGE -> (forall u v c, wedge g u v c -> c <= NO_EDGE) ->
  exists dist nxt d nx rank, compute g = Ret (mkAllPairs dist nxt false) /\ rep g dist d /\ rep g nxt nx /\ apsp_inv g p B (num_nodes_ g) d nx rank.
Proof.
  intros Hp He HB Hsm. destruct (start_ok g Hwf Hs) as (d0 & n0 & d1 & n1 & H0 & H1 & Hd1 & Hn1). assert (num_nodes_ g = 0 + Z.of_nat (Z.to_nat (num_nodes_ g))) as Hn by (rewrite (wf_nodes _ Hwf); lia).
  destruct (improve_all_ok g Hwf Hs p B Hp He HB Hsm (Z.to_nat (num_nodes_ g)) 0 d1 n1 _ _ _ ltac:(done) Hn Hd1 Hn1 (start_apsp_inv g Hwf Hs p B Hp)) as (d2 & n2 & d & nx & rank & H2 & Hd2 & Hn2 & Hi).
  exists d2, n2, d, nx, rank. split; [|done]. unfold compute, getNodeCount. rewrite H0. ret_step. rewrite H1. ret_step. rewrite <- Hn in H2 || rewrite Z2Nat.id in H2 by lia. rewrite H2. ret_step.
  destruct (negative_diagonal_ok g _ d2 d Hd2 (all_nodes g)) as (b & -> & Hb). ret_step. destruct b; [|done]. destruct (proj1 Hb eq_refl) as (i & Hin & Hlt). rewrite elem_of_seqZ in Hin. destruct (ai_diag _ _ _ _ _ _ _ Hi i) as [E _]; [unfold node; lia|lia].
Qed.

(** ** Properties *)
(** Three walks through all nodes stay below [NO_EDGE]. *)
Definition weights_fit_half g (W : Z) : Prop := 0 <= W /\ 3 * (num_nodes_ g * W) < NO_EDGE /\ forall u v c, wedge g u v c -> - W <= c <= W.

Lemma half_fit g W : wf_graph g -> weights_fit_half g W -> weights_fit g W.
Proof.
  intros Hwf (HW & Hfit & Hc). split; [done|]. split; [|done]. assert (0 <= num_nodes_ g * W) by (rewrite (wf_nodes _ Hwf); lia). unfold NO_EDGE, INT32_MAX in *. change (2147483647 / 2) with 1073741823 in Hfit. lia.
Qed.

(** The least weights of walks to a node from anywhere. *)
Lemma potentials_exist g W : wf_graph g -> weights_fit g W -> no_negative_cycle g (fun _ => True) ->
  exists p, (forall v, node g v -> - (num_nodes_ g * W) <= p v <= 0) /\ forall u v c, wedge g u v c -> p v <= p u + c.
Proof.
  intros Hwf HW Hneg. pose proof (wf_nodes _ Hwf) as Hn. destruct (decide (num_nodes_ g = 0)) as [E|E]; [exists (fun _ => 0); split; [unfold node; lia|]; intros u v c [Hu _]; unfold node in Hu; lia|].
  destruct (relax_rounds_spec g Hwf (fun _ => True) false W HW Hneg (pred (length (adj_list_ g))) 0 _ None (zeros_inv g Hwf)) as (d & prev & conv & Hr & Hi & Hc); [by eapply complete_start, zeros_inv|lia|].
  assert (forall v, node g v -> (exists ns, wpath g (fun _ => True) ns v (at_node d v)) /\ forall ns w, wpath g (fun _ => True) ns v w -> at_node d v <= w) as Hd.
  { intros v Hv. destruct (complete_distance g Hwf (fun _ => True) false W HW Hneg d prev v Hi Hc Hv) as [[_ Hno]|?]; [|done]. destruct (Hno [v] 0). by constructor. }
  exists (at_node d). split.
  - intros v Hv. destruct (Hd v Hv) as [[ns Hns] Hmin]. split; [|apply (Hmin [v]); by constructor]. destruct (wpath_simple g Hwf (fun _ => True) ns v _ Hneg Hns) as (ns' & w' & Hp' & Hnd & Hle). pose proof (Hmin _ _ Hp') as Hge.
    pose proof (wpath_bound g W _ ns' v w' HW Hp') as Hb. pose proof (wpath_nodes g Hwf _ _ _ _ Hp') as (_ & Hf & ns2 & ->). pose proof (length_simple g Hwf _ Hnd Hf) as Hl. cbn [length] in Hl, Hb. destruct HW as (HW & _).
    assert (W * (Z.of_nat (S (length ns2)) - 1) <= W * num_nodes_ g) by (apply Z.mul_le_mono_nonneg_l; lia). lia.
  - intros u v c He. destruct (wedge_nodes g Hwf _ _ _ He) as [Hu Hv]. destruct (Hd u Hu) as [[ns Hns] _]. destruct (Hd v Hv) as [_ Hmin]. apply (Hmin (v :: ns)). by apply wp_snoc with u.
Qed.

Lemma negative_cycle_from g s : no_negative_cycle g (fun _ => True) -> no_negative_cycle g (eq s).
Proof.
  intros H v ns w ns' w' Hp Hc. apply (H v ns w ns' w'); [|done]. clear -Hp. induction Hp; [by constructor|by eapply wp_snoc].
Qed.

(** A walk can be replaced by one within the bound. *)
Lemma short_walk g W i j : wf_graph g -> weights_fit g W -> no_negative_cycle g (fun _ => True) -> forall ns w, wpath g (eq i) ns j w -> exists w', w' <= w /\ w' <= num_nodes_ g * W /\ exists ns', wpath g (eq i) ns' j w'.
Proof.
  intros Hwf HW Hneg ns w Hp. destruct (wpath_simple g Hwf (eq i) ns j w (negative_cycle_from g i Hneg) Hp) as (ns' & w' & Hp' & Hnd & Hle). exists w'. split; [done|]. split; [|by exists ns'].
  pose proof (wpath_bound g W _ ns' j w' HW Hp') as Hb. pose proof (wpath_nodes g Hwf _ _ _ _ Hp') as (_ & Hf & ns2 & ->). pose proof (length_simple g Hwf _ Hnd Hf) as Hl. cbn [length] in Hl, Hb. destruct HW as (HW & _).
  assert (W * (Z.of_nat (S (length ns2)) - 1) <= W * num_nodes_ g) by (apply Z.mul_le_mono_nonneg_l; lia). lia.
Qed.

(** Below this an entry is a distance. *)
Definition distance_limit g W : Z := NO_EDGE - 2 * (num_nodes_ g * W).

Lemma floyd_warshall_ok g W : wf_graph g -> simple g -> weights_fit_half g W -> no_negative_cycle g (fun _ => True) ->
  exists r, compute g = Ret r /\ has_negative_cycle r = false /\ forall s t, node g s -> node g t -> exists d path, mget (distances r) s t = Ret d /\ reconstructPath r s t = Ret path /\
    if decide (d < distance_limit g W) then is_distance g (eq s) t d /\ wpath g (eq s) (rev path) t d else path = [] /\ forall ns w, ~ wpath g (eq s) ns t w.
Proof.
  intros Hwf Hs HW Hneg. pose proof (half_fit g W Hwf HW) as HW'. destruct (potentials_exist g W Hwf HW' Hneg) as (p & Hp & He). pose proof HW as (H0 & Hfit & Hc). assert (0 <= num_nodes_ g * W) by (rewrite (wf_nodes _ Hwf); lia).
  assert (forall u v c, wedge g u v c -> c <= NO_EDGE) as Hsm. { intros u v c Huv. specialize (Hc _ _ _ Huv). destruct Huv as [Hu _]. unfold node in Hu. assert (1 * W <= num_nodes_ g * W) by (apply Z.mul_le_mono_nonneg_r; lia). lia. }
  destruct (compute_run g Hwf Hs p (num_nodes_ g * W) Hp He ltac:(lia) Hsm) as (dist & nxt & d & nx & rank & Hr & Hd & Hn & Hi). eexists. split; [exact Hr|]. split; [done|]. intros s t Hns Hnt.
  destruct (reconstruct_ok g Hwf Hs p (num_nodes_ g * W) d nx rank Hi dist nxt s t Hn Hns Hnt) as (ns & b & Hf & Hpath). exists (d s t), (if b then s :: ns else []). split; [by apply (mget_ok g dist d s t Hd)|]. split; [exact Hpath|].
  pose proof (entry_distance g Hwf Hs p (num_nodes_ g * W) Hp He ltac:(lia) d nx rank Hi (num_nodes_ g * W) s t Hns Hnt ltac:(lia) (short_walk g W s t Hwf HW' Hneg) ns b Hf) as Hres. fold (distance_limit g W) in Hres. case_decide; [by destruct Hres as (-> & ? & ?)|by destruct Hres as (-> & ?)].
Qed.

(** C30: on a simple graph without negative cycles, with weights of which [3 n] together stay below half of [INT32_MAX], [FloydWarshall::compute] is free of undefined behaviour and
    reports no negative cycle; for every pair of nodes the entry below the limit is the least weight of a walk and [reconstructPath] returns the
    nodes of a walk of that weight, even along cycles of weight zero, and otherwise there is no walk and the path is empty. *)
Theorem floyd_warshall_shortest g W : wf_graph g -> simple g -> weights_fit_half g W -> no_negative_cycle g (fun _ => True) ->
  exists r, compute g = Ret r /\ has_negative_cycle r = false /\ forall s t, node g s -> node g t -> exists d path, mget (distances r) s t = Ret d /\ reconstructPath r s t = Ret path /\
    if decide (d < distance_limit g W) then is_distance g (eq s) t d /\ wpath g (eq s) (rev path) t d else path = [] /\ forall ns w, ~ wpath g (eq s) ns t w.
Proof. apply floyd_warshall_ok. Qed.

(** Row by row these are the distances of [BellmanFord]. *)
Theorem floyd_warshall_bellman_ford_equivalent g W : wf_graph g -> simple g -> weights_fit_half g W -> no_negative_cycle g (fun _ => True) ->
  exists r, compute g = Ret r /\ forall s, node g s -> exists r', BellmanFord.shortestPath g s = Ret r' /\
    forall t, node g t -> exists d, mget (distances r) s t = Ret d /\ at_node (distance r') t = if decide (d < distance_limit g W) then d else INT32_MAX.
Proof.
  intros Hwf Hs HW Hneg. destruct (floyd_warshall_ok g W Hwf Hs HW Hneg) as (r & Hr & _ & Hall). exists r. split; [done|]. intros s Hns. pose proof (negative_cycle_from g s Hneg) as Hneg'. pose proof (half_fit g W Hwf HW) as HW'.
  destruct (bellman_ford_ok g s W Hwf Hns HW' Hneg') as (l & pr & Hb & Hi & Hc). eexists. split; [exact Hb|]. intros t Hnt. destruct (Hall s t Hns Hnt) as (d & path & Hd & _ & Hcase). exists d. split; [done|]. cbn [distance].
  destruct (result_ok g s W l pr t Hwf Hns HW' Hneg' Hi Hc Hnt) as [Hdist _]. apply (is_distance_unique g (eq s) t _ _ Hdist). case_decide; [apply Hcase|]. left. by destruct Hcase.
Qed.

(** *** Negative cycles *)
Lemma rounds_complete g m : simple g -> forall k dist nxt d nx dist' nxt' d', 0 <= k -> num_nodes_ g = k + Z.of_nat m -> rep g dist d -> rep g nxt nx -> complete_below g k d ->
  improve_all (seqZ 0 (num_nodes_ g)) (seqZ k (Z.of_nat m)) dist nxt = Ret (dist', nxt') -> rep g dist' d' -> (forall i, node g i -> 0 <= d' i i) -> exists d2, rep g dist' d2 /\ complete_below g (num_nodes_ g) d2.
Proof.
  intros Hs. induction m as [|m IH]; intros k dist nxt d nx dist' nxt' d' H0 Hm Hd Hn Hc Hr Hd' Hpos.
  - rewrite (seqZ_nil k) in Hr by lia. injection Hr as <- <-. exists d. assert (k = num_nodes_ g) as <- by lia. done.
  - pose proof Hr as Hrun. rewrite (seqZ_cons k) in Hr by lia. replace (Z.pred (Z.of_nat (S m))) with (Z.of_nat m) in Hr by lia. cbn [improve_all] in Hr. assert (node g k) as Hk by (unfold node; lia).
    assert (0 <= d k k) as Hdiag.
    { assert (Forall (node g) (seqZ k (Z.of_nat (S m)))) as Hks by (apply Forall_forall; intros v Hv%elem_of_seqZ; unfold node; lia).
      destruct (improve_all_lower g _ _ (all_nodes g) Hks _ _ _ _ _ _ Hd Hn Hrun) as (f' & h' & Hf' & _ & Hl). specialize (Hpos k Hk). rewrite (rep_unique g _ _ _ k k Hd' Hf' Hk Hk) in Hpos. specialize (Hl k k Hk Hk). lia. }
    destruct (round_ok g k Hk d nx Hdiag dist nxt Hd Hn) as [(d1 & n1 & Hr1 & Hd1 & Hn1)|[Hu _]]; [|rewrite Hu in Hr; done]. rewrite Hr1 in Hr. revert Hr. ret_step. intros Hr. rewrite <- Z.add_1_r in Hr.
    eapply (IH (k + 1)); [lia|lia|exact Hd1|exact Hn1| |exact Hr|exact Hd'|exact Hpos]. apply complete_next_round; [done| |done]. intros w Hw. specialize (Hc _ _ _ Hw). lia.
Qed.

(** On a simple graph, whatever the weights, [compute] overflows or returns, and when it reports no negative cycle there is none. *)
Theorem floyd_warshall_negative_cycle g r : wf_graph g -> simple g -> compute g = Ret r -> has_negative_cycle r = false -> no_negative_cycle g (fun _ => True).
Proof.
  intros Hwf Hs Hr Hf. destruct (start_ok g Hwf Hs) as (d0 & n0 & d1 & n1 & H0 & H1 & Hd1 & Hn1). unfold compute, getNodeCount in Hr. rewrite H0 in Hr. revert Hr. ret_step. rewrite H1. ret_step. intros ([d2 n2] & H2 & Hr)%bind_Ret_inv.
  destruct (improve_all_lower g _ _ (all_nodes g) (all_nodes g) _ _ _ _ _ _ Hd1 Hn1 H2) as (f & h & Hd2 & _ & _). destruct (negative_diagonal_ok g _ d2 f Hd2 (all_nodes g)) as (b & Hb & Hneg). rewrite Hb in Hr. revert Hr. ret_step. intros [= <-]. cbn in Hf. subst b.
  assert (forall i, node g i -> 0 <= f i i) as Hpos. { intros i Hi. destruct (decide (f i i < 0)) as [Hlt|]; [|lia]. assert (false = true) as E; [|done]. apply Hneg. exists i. split; [apply elem_of_seqZ; unfold node in Hi; lia|done]. }
  assert (num_nodes_ g = 0 + Z.of_nat (Z.to_nat (num_nodes_ g))) as Hn by (rewrite (wf_nodes _ Hwf); lia). rewrite Hn in H2 at 2. rewrite Z.add_0_l in H2.
  destruct (rounds_complete g _ Hs 0 d1 n1 _ _ d2 n2 f ltac:(done) Hn Hd1 Hn1 (complete_start_dist g) H2 Hd2 Hpos) as (f2 & Hf2 & Hc). intros v ns w ns' w' Hp Hcyc. destruct (wpath_nodes g Hwf _ _ _ _ Hp) as [Hv _].
  specialize (Hpos v Hv). rewrite (rep_unique g _ _ _ v v Hd2 Hf2 Hv Hv) in Hpos. pose proof (Hc v v w' (wpath_kwalk g Hwf Hs v ns' v w' Hcyc)). lia.
Qed.

Lemma potential_no_negative_cycle g (p : Z -> Z) : (forall u v c, wedge g u v c -> p v <= p u + c) -> no_negative_cycle g (fun _ => True).
Proof.
  intros Hp v ns w ns' w' _ H. assert (forall x ns x' w, wpath g (eq x) ns x' w -> p x' - p x <= w) as Hw; [|specialize (Hw _ _ _ _ H); lia].
  clear -Hp. intros x ns x' w H. induction H as [s <- _|ns u v w c _ IH He]; [lia|]. specialize (Hp _ _ _ He). lia.
Qed.

(** ** Examples *)
Section apsp_witnesses.
#[local] Definition sample_edges : list (Z * Z * Z) := [(0, 1, 4); (0, 2, 5); (2, 1, -3); (1, 3, 2); (3, 1, -2); (4, 0, -1)].

Lemma apsp_sample : exists g, (g0 ← graph_new 5; addEdges g0 sample_edges) = Ret g /\ wf_graph g /\ simple g /\ weights_fit_half g 5 /\ no_negative_cycle g (fun _ => True).
Proof.
  destruct (graph_new_ok 5) as (g0 & H0 & Hwf0 & Hn0 & _); [done|]. rewrite H0. ret_step.
  destruct (addEdges_ok sample_edges g0) as (g & Hg & Hwf & Hn); [done| | |].
  - unfold node. rewrite Hn0. repeat constructor; lia.
  - injection H0 as <-. done.
  - injection H0 as <-. rewrite Hg. vm_compute in Hg. injection Hg as <-. set (g := mkGraph _ 6 _) in *.
    assert (simple g) as Hs by (intros u Hu; assert (u ∈ seqZ 0 5) as Hin by (apply elem_of_seqZ; unfold node in Hu; cbn in Hu; lia); repeat (apply elem_of_cons in Hin as [->|Hin]; [by apply (bool_decide_unpack _); vm_compute|]); by apply elem_of_nil in Hin).
    exists g. split; [done|]. split; [done|]. split; [done|]. split.
    + split; [done|]. split; [done|]. intros u v c [Hu He]. assert (u ∈ seqZ 0 5) as Hin by (apply elem_of_seqZ; unfold node in Hu; cbn in Hu; lia).
      repeat (apply elem_of_cons in Hin as [->|Hin]; [vm_compute in He; repeat (apply elem_of_cons in He as [[= -> ->]|He]; [lia|]); by apply elem_of_nil in He|]). by apply elem_of_nil in Hin.
    + apply (potential_no_negative_cycle g (at_node [-1; -3; 0; -1; 0])). intros u v c [Hu He]. assert (u ∈ seqZ 0 5) as Hin by (apply elem_of_seqZ; unfold node in Hu; cbn in Hu; lia).
      repeat (apply elem_of_cons in Hin as [->|Hin]; [vm_compute in He; repeat (apply elem_of_cons in He as [[= -> ->]|He]; [vm_compute; congruence|]); by apply elem_of_nil in He|]). by apply elem_of_nil in Hin.
Qed.

Lemma floyd_warshall_shortest_witness : exists g r path, (g0 ← graph_new 5; addEdges g0 sample_edges) = Ret g /\ compute g = Ret r /\ mget (distances r) 0 3 = Ret 4 /\
  reconstructPath r 0 3 = Ret path /\ is_distance g (eq 0) 3 4 /\ wpath g (eq 0) (rev path) 3 4.
Proof.
  destruct apsp_sample as (g & Hg & Hwf & Hs & HW & Hneg). vm_compute in Hg. injection Hg as <-. set (g := mkGraph _ 6 _) in *.
  destruct (floyd_warshall_shortest g 5 Hwf Hs HW Hneg) as (r & Hr & _ & Hall). destruct (Hall 0 3) as (d & path & Hd & Hpath & Hcase); [by vm_compute|by vm_compute|].
  assert (d = 4) as -> by (vm_compute in Hr; injection Hr as <-; vm_compute in Hd; by injection Hd as <-). rewrite decide_True in Hcase by (vm_compute; reflexivity). exists g, r, path. split; [reflexivity|]. split; [exact Hr|]. split; [exact Hd|]. split; [exact Hpath|exact Hcase].
Defined.

(** The last of two parallel edges counts, not the lightest. *)
Theorem floyd_warshall_parallel : exists r, (g ← graph_new 2; g ← addEdges g [(0, 1, 1); (0, 1, 7)]; compute g) = Ret r /\ mget (distances r) 0 1 = Ret 7.
Proof. eexists. split; vm_compute; reflexivity. Qed.

(** An edge from a node to itself becomes the distance to itself. *)
Theorem floyd_warshall_self_loop : exists r, (g ← graph_new 1; g ← addEdges g [(0, 0, 3)]; compute g) = Ret r /\ mget (distances r) 0 0 = Ret 3.
Proof. eexists. split; vm_compute; reflexivity. Qed.

(** With negative weights the entry of a pair without a walk is not [INT32_MAX / 2]. *)
Theorem floyd_warshall_phantom : exists r, (g ← graph_new 3; g ← addEdges g [(1, 2, -1)]; compute g) = Ret r /\ mget (distances r) 0 2 = Ret (NO_EDGE - 1) /\ reconstructPath r 0 2 = Ret [].
Proof. eexists. split; [vm_compute; reflexivity|]. split; vm_compute; reflexivity. Qed.

(** A negative cycle is reported, or overflows. *)
Example negative_cycle_reported : exists r, (g ← graph_new 2; g ← addEdges g [(0, 1, 1); (1, 0, -2)]; compute g) = Ret r /\ has_negative_cycle r = true.
Proof. eexists. split; vm_compute; reflexivity. Qed.

Example negative_cycle_overflows : (g ← graph_new 2; g ← addEdges g [(0, 1, -1000000000); (1, 0, -1000000000)]; compute g) = Undef.
Proof. vm_compute. reflexivity. Qed.
End apsp_witnesses.
