(* ===== verification/PrimMST.v ===== *)
(** * Prim's minimum spanning tree ([data_structure/graph/algorithm/PrimMST.cc])

    The tree grows from node 0: the priority queue holds, for every other node next to it, the
    lightest edge that leads there, and stale entries.  As for Dijkstra, the queue is the list of its entries, which of
    the least comes first is a parameter, and the loop needs one iteration per edge and one more.

    The tree is kept lightest by an invariant of its own: a node of the tree with an edge of weight [w] out of it is linked,
    by tree edges of at most that weight, to the node that was added last.  On a connected
    graph the total is that of [KruskalMST]; on others only the component of node 0 is spanned. *)

From S2P Require Import Prelude Graph BreadthFirst BellmanFord Dijkstra SpanningForest KruskalMST.
Local Open Scope Z_scope.

#[local] Set Warnings "-register-all".

Record PrimState := mkPrim { node_ : Z; key_ : Z }.

#[local] Instance PrimState_eq_dec : EqDecision PrimState.
Proof. solve_decision. Defined.

Implicit Types (g : Graph) (u v w x y : Z) (key parent : list Z) (in_mst : list bool) (pq : list PrimState) (e : EdgeInfo) (r : MSTResult).

(** [operator>] *)
Definition prim_gtb (a other : PrimState) : bool := key_ other <? key_ a.

Section prim.
(** The place of the entry that [top] and [pop] refer to. *)
Variable top : list PrimState -> nat.

(** The loop over the edges of [u]. *)
Fixpoint update_keys u (es : list Edge) in_mst key parent pq : outcome (list Z * list Z * list PrimState) :=
  match es with
  | [] => Ret (key, parent, pq)
  | d :: es =>
    let v := to_ d in
    let w := weight_ d in
    inside ← vgetz in_mst v;
    if (inside : bool) then update_keys u es in_mst key parent pq else
    kv ← vgetz key v;
    if decide (w < kv) then
      key ← vsetz key v w;
      parent ← vsetz parent v u;
      update_keys u es in_mst key parent (pq ++ [mkPrim v w])
    else update_keys u es in_mst key parent pq
  end.

(** The edge to the parent, which the root does not have. *)
Definition add_tree_edge u key parent r : outcome MSTResult :=
  p ← vgetz parent u;
  if decide (p <> -1) then
    k ← vgetz key u;
    w ← add32 (total_weight r) k;
    Ret (mkMST (edges r ++ [mkEdgeInfo p u k]) w)
  else Ret r.

Fixpoint prim_loop (fuel : nat) g key parent in_mst pq r : outcome MSTResult :=
  match fuel with
  | O => NoFuel
  | S fuel =>
    if decide (pq = []) then Ret r else
    t ← vget pq (top pq);
    let pq := delete (top pq) pq in
    let u := node_ t in
    inside ← vgetz in_mst u;
    if (inside : bool) then prim_loop fuel g key parent in_mst pq r else
    in_mst ← vsetz in_mst u true;
    r ← add_tree_edge u key parent r;
    es ← getAdjList g u;
    '(key, parent, pq) ← update_keys u es in_mst key parent pq;
    prim_loop fuel g key parent in_mst pq r
  end.

Definition compute g : outcome MSTResult :=
  let n := getNodeCount g in
  if decide (n = 0) then Ret (mkMST [] 0) else
  let key := replicate (Z.to_nat n) INT32_MAX in
  let parent := replicate (Z.to_nat n) (-1) in
  let in_mst := replicate (Z.to_nat n) false in
  key ← vsetz key 0 0;
  prim_loop (S (S (Z.to_nat (getEdgeCount g)))) g key parent in_mst [mkPrim 0 0] (mkMST [] 0).

(** The first entry on top is one with the least key. *)
Definition prim_top_least : Prop :=
  forall pq, pq <> [] -> exists t, pq !! top pq = Some t /\ forall t', t' ∈ pq -> prim_gtb t t' = false.

(** ** The tree *)
Section tree.
Context (g : Graph) (Hwf : wf_graph g) (Hsym : symmetric g).
Implicit Types (S : gset Z) (T : list EdgeInfo).

(** [l] is the node added last. *)
Record tree_inv S l T : Prop := {
  ti_nodes : forall x, x ∈ S -> node g x /\ reachable g 0 x;
  ti_edges : forall e, e ∈ T -> graph_edge g e /\ from e ∈ S /\ to e ∈ S;
  ti_acyclic : acyclic T;
  ti_linked : forall x, x ∈ S -> linked T 0 x;
  ti_cycle : forall e, graph_edge g e -> from e ∈ S -> to e ∈ S -> linked (below (weight e) T) (from e) (to e);
  ti_open : forall e, graph_edge g e -> from e ∈ S -> to e ∉ S -> linked (below (weight e) T) (from e) l;
}.

Lemma linked_below w w' T d x y : w <= w' -> linked (below w T) x y -> linked (below w' (T ++ [d])) x y.
Proof using.
  intros Hw. apply linked_subset. intros e [He Hin]%list_elem_of_filter. apply list_elem_of_filter. split; [lia|]. apply elem_of_app. by left.
Qed.

Lemma linked_new w T d : weight d <= w -> linked (below w (T ++ [d])) (from d) (to d).
Proof using. intros Hw. apply linked_edge, list_elem_of_filter. split; [done|]. apply elem_of_app. right. apply list_elem_of_here. Qed.

Lemma linked_inside S l T x y : tree_inv S l T -> linked T x y -> (x ∈ S <-> y ∈ S).
Proof using.
  intros Hi. assert (Equivalence (fun x y => x ∈ S <-> y ∈ S)) as Heq by (split; [intros a|intros a b|intros a b c]; tauto). apply (linked_least T (fun x y => x ∈ S <-> y ∈ S)). intros e He. destruct (ti_edges _ _ _ Hi e He) as (_ & H1 & H2). tauto.
Qed.

Lemma tree_start : node g 0 -> tree_inv {[0]} 0 [].
Proof using.
  intros H0. split; [intros x ->%elem_of_singleton; split; [done|by exists 0; apply walk_nil]|by intros e ?%elem_of_nil|apply acyclic_nil|by intros x ->%elem_of_singleton|intros e _ ->%elem_of_singleton ->%elem_of_singleton; done|by intros e _ ->%elem_of_singleton _].
Qed.

(** A lightest edge out of the tree keeps it. *)
Lemma tree_grow S l T d : tree_inv S l T -> graph_edge g d -> from d ∈ S -> to d ∉ S -> (forall e, graph_edge g e -> from e ∈ S -> to e ∉ S -> weight d <= weight e) -> tree_inv ({[to d]} ∪ S) (to d) (T ++ [d]).
Proof using Hwf Hsym.
  intros Hi Hd Hq Hu Hmin. set (u := to d) in *.
  (* from an edge out of the tree to the new node *)
  assert (forall e, graph_edge g e -> from e ∈ S -> to e ∉ S -> linked (below (weight e) (T ++ [d])) (from e) u) as Hnew.
  { intros e He Hf Ht. specialize (Hmin e He Hf Ht). transitivity l; [by apply (linked_below (weight e)), (ti_open _ _ _ Hi)|]. transitivity (from d); [|by apply linked_new]. symmetry. apply (linked_below (weight d)); [done|]. by apply (ti_open _ _ _ Hi). }
  split.
  - intros x [->%elem_of_singleton|Hx]%elem_of_union; [|by apply (ti_nodes _ _ _ Hi)]. assert (edge g (from d) u) as He by (split; [apply Hd|]; apply list_elem_of_fmap; exists (mkEdge (to d) (weight d)); split; [done|apply Hd]).
    split; [by apply (edge_node g (from d) u Hwf)|]. destruct (ti_nodes _ _ _ Hi (from d) Hq) as [_ [k Hk]]. exists (k + 1). by apply walk_snoc with (from d).
  - intros e [He| ->%list_elem_of_singleton]%elem_of_app; [destruct (ti_edges _ _ _ Hi e He) as (? & ? & ?); set_solver|set_solver].
  - apply (acyclic_perm (d :: T)); [by rewrite (Permutation_app_comm T)|]. apply acyclic_cons; [apply (ti_acyclic _ _ _ Hi)|]. intros Hl. apply (linked_inside S l T _ _ Hi) in Hl. tauto.
  - assert (forall x y, linked T x y -> linked (T ++ [d]) x y) as Hm by (apply linked_subset; intros e He; apply elem_of_app; by left). intros x [->%elem_of_singleton|Hx]%elem_of_union; [|by apply Hm, (ti_linked _ _ _ Hi)].
    transitivity (from d); [by apply Hm, (ti_linked _ _ _ Hi)|]. apply linked_edge, elem_of_app. right. apply list_elem_of_here.
  - intros e He Hf Ht. destruct (decide (from e ∈ S)) as [Hf'|Hf'], (decide (to e ∈ S)) as [Ht'|Ht'].
    + by apply (linked_below (weight e)), (ti_cycle _ _ _ Hi).
    + assert (to e = u) as -> by set_solver. apply Hnew; [done|done|]. set_solver.
    + assert (from e = u) as E by set_solver. symmetry. rewrite E. apply (Hnew (reverse e)); [by apply Hsym|done|done].
    + assert (from e = u) as -> by set_solver. assert (to e = u) as -> by set_solver. done.
  - intros e He Hf Ht. destruct (decide (from e ∈ S)) as [Hf'|Hf']; [apply Hnew; set_solver|]. by assert (from e = u) as -> by set_solver.
Qed.

(** ** The keys *)
(** [P] are the edges taken into account. *)
Record keys_inv S (P : EdgeInfo -> Prop) key parent pq : Prop := {
  ki_len : length key = length (adj_list_ g) /\ length parent = length (adj_list_ g);
  ki_max : forall v, node g v -> at_node key v <= INT32_MAX;
  ki_entry : forall t, t ∈ pq -> node g (node_ t) /\ key_ t < INT32_MAX /\ (node_ t ∉ S -> at_node key (node_ t) <= key_ t);
  ki_pending : forall v, node g v -> v ∉ S -> at_node key v <> INT32_MAX -> mkPrim v (at_node key v) ∈ pq /\
    ((S = ∅ /\ v = 0 /\ at_node parent v = -1) \/ (at_node parent v ∈ S /\ graph_edge g (mkEdgeInfo (at_node parent v) v (at_node key v))));
  ki_open : forall e, graph_edge g e -> from e ∈ S -> to e ∉ S -> P e -> at_node key (to e) <= weight e;
}.

Definition marks S in_mst : Prop := length in_mst = length (adj_list_ g) /\ forall v, node g v -> vgetz in_mst v = Ret (bool_decide (v ∈ S)).

Lemma graph_edge_nodes e : graph_edge g e -> node g (from e) /\ node g (to e).
Proof using Hwf.
  intros [Hf He]. apply (edge_node g (from e) (to e) Hwf). split; [done|]. apply list_elem_of_fmap. by exists (mkEdge (to e) (weight e)).
Qed.

Lemma update_keys_ok S in_mst u : marks S in_mst -> u ∈ S -> node g u -> forall es, Forall (fun d => graph_edge g (mkEdgeInfo u (to_ d) (weight_ d))) es -> forall P key parent pq, keys_inv S P key parent pq ->
  exists key' parent' pq', update_keys u es in_mst key parent pq = Ret (key', parent', pq') /\ (length pq' <= length pq + length es)%nat /\
    keys_inv S (fun e => P e \/ (from e = u /\ mkEdge (to e) (weight e) ∈ es)) key' parent' pq'.
Proof using Hwf.
  intros [Hlm Hmarks] HuS Hu. induction es as [|[v w] es IH]; intros Hes P key parent pq Hk; cbn [update_keys to_ weight_].
  { exists key, parent, pq. split; [done|]. split; [lia|]. destruct Hk as [H1 H2 H3 H4 H5]. split; try done. intros e He Hf Ht [HP|[_ Hx]]; [by apply H5|by apply not_elem_of_nil in Hx]. }
  apply Forall_cons in Hes as [Hd Hes]. cbn [to_ weight_] in Hd. destruct (graph_edge_nodes _ Hd) as [_ Hv]. cbn [to] in Hv. rewrite Hmarks by done. ret_step. destruct (ki_len _ _ _ _ _ Hk) as [Hlk Hlp].
  (* the edge is taken into account when the key of its end is at most its weight *)
  assert (forall key parent pq, keys_inv S P key parent pq -> (v ∉ S -> at_node key v <= w) -> keys_inv S (fun e => P e \/ e = mkEdgeInfo u v w) key parent pq) as Hacc.
  { clear -Hwf. intros key parent pq [H1 H2 H3 H4 H5] Hle. split; try done. intros e He Hf Ht [HP| ->]; [by apply H5|by apply Hle]. }
  assert (forall key parent pq, keys_inv S (fun e => P e \/ e = mkEdgeInfo u v w) key parent pq -> exists key' parent' pq', update_keys u es in_mst key parent pq = Ret (key', parent', pq') /\ (length pq' <= length pq + length es)%nat /\ keys_inv S (fun e => P e \/ (from e = u /\ mkEdge (to e) (weight e) ∈ mkEdge v w :: es)) key' parent' pq') as Hrest.
  { intros key1 parent1 pq1 Hk1. destruct (IH Hes _ key1 parent1 pq1 Hk1) as (key' & parent' & pq' & Hr & Hl & Hk'). exists key', parent', pq'. split; [done|]. split; [done|]. destruct Hk' as [H1 H2 H3 H4 H5]. split; try done.
    intros e He Hf Ht HP. apply H5; [done..|]. destruct HP as [HP|[Hfu [E|Hin]%elem_of_cons]]; [by left; left|left; right|by right]. destruct e. cbn in *. by simplify_eq. }
  destruct (decide (v ∈ S)) as [HvS|HvS].
  { rewrite bool_decide_eq_true_2 by done. destruct (Hrest key parent pq) as (key' & parent' & pq' & Hr & Hl & Hk'); [by apply Hacc|]. exists key', parent', pq'. split; [exact Hr|]. split; [cbn; lia|done]. }
  rewrite bool_decide_eq_false_2 by done. rewrite (get_at g Hwf key v Hlk Hv). ret_step. case_decide as Hlt.
  - rewrite (set_at g Hwf key v w Hlk Hv). ret_step. rewrite (set_at g Hwf parent v u Hlp Hv). ret_step. destruct (Hrest (<[Z.to_nat v := w]> key) (<[Z.to_nat v := u]> parent) (pq ++ [mkPrim v w])) as (key' & parent' & pq' & Hr & Hl & Hk'); [|exists key', parent', pq'; split; [exact Hr|]; split; [rewrite length_app in Hl; cbn in *; lia|done]].
    pose proof (ki_max _ _ _ _ _ Hk v Hv) as Hvmax.
    assert (forall x, node g x -> at_node (<[Z.to_nat v := w]> key) x = if decide (x = v) then w else at_node key x) as Hat by (intros x Hx; by apply (at_insert g Hwf)).
    assert (forall x, node g x -> at_node (<[Z.to_nat v := u]> parent) x = if decide (x = v) then u else at_node parent x) as Hpt by (intros x Hx; by apply (at_insert g Hwf)).
    apply Hacc; [|intros _; rewrite Hat, decide_True by done; done]. split.
    + by rewrite !length_insert.
    + intros x Hx. rewrite Hat by done. pose proof (ki_max _ _ _ _ _ Hk x Hx). case_decide; lia.
    + intros t [Ht| ->%list_elem_of_singleton]%elem_of_app.
      * destruct (ki_entry _ _ _ _ _ Hk t Ht) as (Hnt & Hmt & Hle). split; [done|]. split; [done|]. intros HtS. specialize (Hle HtS). rewrite Hat by done. case_decide as E; [rewrite E in Hle; lia|done].
      * cbn [node_ key_]. split; [done|]. split; [lia|]. intros _. rewrite Hat, decide_True by done. done.
    + intros x Hx HxS. rewrite Hat, Hpt by done. case_decide as E; [subst x; intros _; split; [apply elem_of_app; right; apply list_elem_of_here|by right]|]. intros Hne. destruct (ki_pending _ _ _ _ _ Hk x Hx HxS Hne) as [Hin Hpar]. split; [apply elem_of_app; by left|done].
    + intros e He Hf Ht HP. pose proof (ki_open _ _ _ _ _ Hk e He Hf Ht HP) as Hle. rewrite Hat by apply (graph_edge_nodes e He). case_decide as E; [rewrite E in Hle; lia|done].
  - destruct (Hrest key parent pq) as (key' & parent' & pq' & Hr & Hl & Hk'); [apply Hacc; [done|intros _; lia]|]. exists key', parent', pq'. split; [exact Hr|]. split; [cbn; lia|done].
Qed.

(** ** The loop *)
Context (Hw : forall e, graph_edge g e -> Z.abs (weight e) * num_nodes_ g <= INT32_MAX) (Htop : prim_top_least).

(** Before the first iteration nothing is in the tree. *)
Definition grown S T : Prop := (S = ∅ /\ T = []) \/ (0 ∈ S /\ exists l, tree_inv S l T).

Record run_inv S key parent in_mst pq r : Prop := {
  ri_marks : marks S in_mst;
  ri_keys : keys_inv S (fun _ => True) key parent pq;
  ri_total : total_weight r = total (edges r);
  ri_grown : grown S (edges r);
}.

Lemma total_fits S l T d : tree_inv S l (T ++ [d]) -> graph_edge g d -> total (T ++ [d]) = total T + weight d /\ in_i32 (total T + weight d).
Proof.
  intros Hi Hd. assert (total (T ++ [d]) = total T + weight d) as Ht by (rewrite total_weight_app; cbn; lia). split; [done|]. rewrite <- Ht.
  assert (0 < num_nodes_ g) as Hn by (destruct Hd as [Hd _]; unfold node in Hd; lia). assert (edges_inside (num_nodes_ g) (T ++ [d])) as Hin by (intros e He; destruct (ti_edges _ _ _ Hi e He) as [He' _]; destruct (graph_edge_nodes e He'); split; done).
  pose proof (forest_count _ _ (ti_acyclic _ _ _ Hi) Hin) as Hc. pose proof (total_bound (num_nodes_ g) (T ++ [d]) Hn) as Hb. assert (small_weights (num_nodes_ g) (T ++ [d])) as Hs by (intros e He; apply Hw, (ti_edges _ _ _ Hi e He)). specialize (Hb Hs).
  assert (INT32_MAX * Z.of_nat (length (T ++ [d])) <= INT32_MAX * num_nodes_ g) by (apply Z.mul_le_mono_nonneg_l; [unfold INT32_MAX; lia|lia]). unfold in_i32, INT32_MIN, INT32_MAX in *. nia.
Qed.

(** The entry on top, when its node is not in the tree, is the node's key and no key is smaller. *)
Lemma least_key S P key parent pq t : keys_inv S P key parent pq -> t ∈ pq -> (forall t', t' ∈ pq -> prim_gtb t t' = false) -> node_ t ∉ S ->
  key_ t = at_node key (node_ t) /\ at_node key (node_ t) <> INT32_MAX /\ forall v, node g v -> v ∉ S -> key_ t <= at_node key v.
Proof.
  intros Hk Ht Hmin Hu. destruct (ki_entry _ _ _ _ _ Hk t Ht) as (Hn & Hm & Hle). specialize (Hle Hu).
  assert (forall v, node g v -> v ∉ S -> key_ t <= at_node key v) as Hleast.
  { intros v Hv HvS. destruct (decide (at_node key v = INT32_MAX)) as [->|Hne]; [lia|]. destruct (ki_pending _ _ _ _ _ Hk v Hv HvS Hne) as [Hin _]. specialize (Hmin _ Hin). unfold prim_gtb in Hmin. cbn in Hmin. lia. }
  split; [specialize (Hleast _ Hn Hu); lia|]. split; [lia|done].
Qed.

(** Taking the entry off the queue, with its node in the tree from now on. *)
Lemma keys_pop S S' P P' key parent pq rest t : keys_inv S P key parent pq -> pq ≡ₚ t :: rest -> S ⊆ S' -> node_ t ∈ S' -> (S = ∅ -> node_ t = 0) -> (S = ∅ -> S' = ∅ \/ 0 ∈ S') ->
  (forall e, graph_edge g e -> from e ∈ S' -> to e ∉ S' -> P' e -> from e ∈ S /\ P e) -> keys_inv S' P' key parent rest.
Proof.
  intros Hk HP Hsub Ht H0 H0' HPe. destruct Hk as [H1 H2 H3 H4 H5]. split; [done|done| | |].
  - intros t' Ht'. destruct (H3 t') as (? & ? & Hle); [rewrite HP; by right|]. split; [done|]. split; [done|]. intros Hn. apply Hle. set_solver.
  - intros v Hv HvS Hne. destruct (H4 v Hv) as [Hin Hpar]; [set_solver|done|]. split.
    + rewrite HP in Hin. apply elem_of_cons in Hin as [<-|Hin]; [by cbn in Ht|done].
    + destruct Hpar as [(HS & -> & Hp)|[Hp He]]; [|right; split; [set_solver|done]]. destruct (H0' HS) as [->|?]; [by left|done].
  - intros e He Hf Hte HP'. destruct (HPe e He Hf Hte HP') as [HfS HPP]. apply H5; [done|done|set_solver|done].
Qed.

Lemma marks_insert S in_mst u : marks S in_mst -> node g u -> exists in_mst', vsetz in_mst u true = Ret in_mst' /\ marks ({[u]} ∪ S) in_mst'.
Proof.
  intros [Hl Hm] Hu. pose proof (wf_nodes _ Hwf) as Hn. pose proof Hu as Hu'. unfold node in Hu'. rewrite vsetz_lt by lia. eexists. split; [done|]. split; [by rewrite length_insert|]. intros v Hv. specialize (Hm v Hv). unfold node in Hv. unfold vgetz, vget in *. rewrite decide_True in * by lia.
  destruct (decide (v = u)) as [->|Hne]; [rewrite list_lookup_insert_eq by lia; by rewrite bool_decide_eq_true_2 by set_solver|]. rewrite list_lookup_insert_ne by lia. rewrite Hm. f_equal. apply bool_decide_ext. set_solver.
Qed.

(** One node more in the tree. *)
Lemma add_tree_edge_ok S key parent in_mst pq r t : run_inv S key parent in_mst pq r -> t ∈ pq -> (forall t', t' ∈ pq -> prim_gtb t t' = false) -> node_ t ∉ S ->
  exists r', add_tree_edge (node_ t) key parent r = Ret r' /\ total_weight r' = total (edges r') /\ 0 ∈ {[node_ t]} ∪ S /\ (exists l, tree_inv ({[node_ t]} ∪ S) l (edges r')) /\ (S = ∅ -> node_ t = 0).
Proof.
  intros [Hm Hk Htot Hg] Ht Hmin Hu. destruct (least_key _ _ _ _ _ t Hk Ht Hmin Hu) as (Ekey & Hne & Hleast). destruct (ki_entry _ _ _ _ _ Hk t Ht) as (Hn & _ & _). set (u := node_ t) in *. destruct (ki_len _ _ _ _ _ Hk) as [Hlk Hlp].
  unfold add_tree_edge. rewrite (get_at g Hwf parent u Hlp Hn). ret_step. destruct (ki_pending _ _ _ _ _ Hk u Hn Hu Hne) as [_ [(HS & -> & Hp)|[Hp He]]].
  - rewrite Hp, decide_False by (intros ?; done). destruct Hg as [[_ HT]|[H0 _]]; [|set_solver]. exists r. split; [done|]. split; [done|]. split; [set_solver|]. split; [|done]. exists 0. rewrite HT. replace ({[0]} ∪ S) with ({[0]} : gset Z) by set_solver. by apply tree_start.
  - destruct (graph_edge_nodes _ He) as [Hnp _]. cbn [from] in Hnp. rewrite decide_True by (unfold node in Hnp; lia). rewrite (get_at g Hwf key u Hlk Hn). ret_step. destruct Hg as [[HS _]|[H0 [l Hi]]]; [set_solver|].
    assert (tree_inv ({[u]} ∪ S) u (edges r ++ [mkEdgeInfo (at_node parent u) u (at_node key u)])) as Hi'.
    { apply (tree_grow S l (edges r) (mkEdgeInfo (at_node parent u) u (at_node key u)) Hi); [done|done|done|]. intros e Hed Hf Hto. cbn [weight]. rewrite <- Ekey. destruct (graph_edge_nodes e Hed) as [_ Hnt]. specialize (Hleast _ Hnt Hto). pose proof (ki_open _ _ _ _ _ Hk e Hed Hf Hto I). lia. }
    destruct (total_fits _ _ _ _ Hi' He) as [Ht1 Ht2]. rewrite Htot, add32_in by done. ret_step. eexists. split; [done|]. cbn [edges total_weight]. split; [by rewrite Ht1|]. split; [set_solver|]. split; [by exists u|set_solver].
Qed.

Lemma prim_loop_ok fuel : forall S key parent in_mst pq r, run_inv S key parent in_mst pq r -> (length pq + debt g S < fuel)%nat ->
  exists S' key' parent' in_mst' r', prim_loop fuel g key parent in_mst pq r = Ret r' /\ run_inv S' key' parent' in_mst' [] r' /\ S ⊆ S' /\ (pq = [] \/ S' <> ∅).
Proof.
  induction fuel as [|fuel IH]; intros S key parent in_mst pq r Hi Hf; [lia|]. cbn [prim_loop]. case_decide as Hq; [subst pq; exists S, key, parent, in_mst, r; split; [done|]; split; [done|]; split; [done|by left]|].
  destruct (Htop pq Hq) as (t & Ht & Hmin). rewrite (vget_Some _ _ _ Ht). ret_step. pose proof (delete_Permutation pq (top pq) t Ht) as HP. set (rest := delete (top pq) pq) in *. assert (length pq = Datatypes.S (length rest)) as Hlr by (by rewrite HP).
  assert (t ∈ pq) as Hin by (rewrite HP; by left). destruct (ri_marks _ _ _ _ _ _ Hi) as [_ Hmk]. destruct (ki_entry _ _ _ _ _ (ri_keys _ _ _ _ _ _ Hi) t Hin) as (Hn & _ & _). rewrite Hmk by done. ret_step. destruct (decide (node_ t ∈ S)) as [HuS|HuS].
  - rewrite bool_decide_eq_true_2 by done. destruct (IH S key parent in_mst rest r) as (S' & key' & parent' & in_mst' & r' & Hr & Hi' & Hsub & _); [|lia|].
    { destruct Hi as [H1 H2 H3 H4]. split; [done| |done|done]. apply (keys_pop S S (fun _ => True) (fun _ => True) key parent pq rest t); try done; [intros HS; set_solver|by left]. }
    exists S', key', parent', in_mst', r'. split; [done|]. split; [done|]. split; [done|]. right. set_solver.
  - rewrite bool_decide_eq_false_2 by done. set (u := node_ t) in *. destruct (marks_insert S in_mst u (ri_marks _ _ _ _ _ _ Hi) Hn) as (in_mst1 & -> & Hm1). ret_step.
    destruct (add_tree_edge_ok S key parent in_mst pq r t Hi Hin Hmin HuS) as (r1 & Hr1 & Ht1 & H01 & Hg1 & HS0). fold u in Hr1, H01, Hg1, HS0. rewrite Hr1. ret_step. destruct (adj_ok g u Hwf Hn) as [_ ->]. ret_step.
    assert (keys_inv ({[u]} ∪ S) (fun e => from e <> u) key parent rest) as Hk1.
    { apply (keys_pop S ({[u]} ∪ S) (fun _ => True) (fun e => from e <> u) key parent pq rest t); [apply (ri_keys _ _ _ _ _ _ Hi)|done|set_solver|set_solver|done|by right|]. intros e He Hfe Hte Hne. split; [set_solver|done]. }
    destruct (update_keys_ok ({[u]} ∪ S) in_mst1 u Hm1 ltac:(set_solver) Hn (adj g u)) with (P := fun e => from e <> u) (key := key) (parent := parent) (pq := rest) as (key2 & parent2 & pq2 & -> & Hl2 & Hk2); [|done|].
    { apply Forall_forall. intros [v w] Hd. by split. }
    ret_step. destruct (IH ({[u]} ∪ S) key2 parent2 in_mst1 pq2 r1) as (S' & key' & parent' & in_mst' & r' & Hr & Hi' & Hsub & _).
    + split; [done| |done|by right]. destruct Hk2 as [H1 H2 H3 H4 H5]. split; try done. intros e He Hfe Hte _. apply H5; [done..|]. destruct (decide (from e = u)) as [E|E]; [right; split; [done|]|by left]. rewrite <- E. apply He.
    + pose proof (debt_expand g S u Hn HuS). lia.
    + exists S', key', parent', in_mst', r'. split; [done|]. split; [done|]. split; [set_solver|]. right. set_solver.
Qed.

(** The run of [compute]. *)
Lemma prim_run : 0 < num_nodes_ g -> exists r S l, compute g = Ret r /\ total_weight r = total (edges r) /\ 0 ∈ S /\ tree_inv S l (edges r) /\ forall e, graph_edge g e -> from e ∈ S -> to e ∈ S.
Proof.
  intros Hpos. pose proof (wf_nodes _ Hwf) as Hn. assert (node g 0) as H0 by (unfold node; lia). unfold compute, getNodeCount, getEdgeCount. rewrite decide_False by lia. rewrite (set_at g Hwf) by (done || rewrite length_replicate; lia). ret_step.
  set (key := <[_ := _]> _). assert (forall v, node g v -> at_node key v = if decide (v = 0) then 0 else INT32_MAX) as Hat.
  { intros v Hv. unfold key. rewrite (at_insert g Hwf) by (done || rewrite length_replicate; lia). unfold node in Hv. by rewrite at_replicate by lia. }
  destruct (prim_loop_ok (S (S (Z.to_nat (edge_count_ g)))) ∅ key (replicate (Z.to_nat (num_nodes_ g)) (-1)) (replicate (Z.to_nat (num_nodes_ g)) false) [mkPrim 0 0] (mkMST [] 0)) as (S' & key' & parent' & in_mst' & r & -> & Hi & _ & Hne).
  - split; [| |done|by left].
    + split; [rewrite length_replicate; lia|]. intros v Hv. rewrite bool_decide_eq_false_2 by set_solver. unfold node in Hv. apply vgetz_Some; [lia|]. apply lookup_replicate_2. lia.
    + split.
      * unfold key. rewrite length_insert, !length_replicate. lia.
      * intros v Hv. rewrite Hat by done. unfold INT32_MAX. case_decide; lia.
      * intros t ->%list_elem_of_singleton. cbn. split; [done|]. split; [unfold INT32_MAX; lia|]. intros _. rewrite Hat, decide_True by done. done.
      * intros v Hv _. rewrite Hat by done. case_decide as E; [|done]. subst v. intros _. split; [by left|left]. split; [done|]. split; [done|]. unfold at_node. by rewrite lookup_replicate_2 by lia.
      * intros e _ Hf. set_solver.
  - rewrite (debt_empty g Hwf). cbn. lia.
  - assert (S' <> ∅) as HS by (by destruct Hne). destruct (ri_grown _ _ _ _ _ _ Hi) as [[? _]|[H0S [l Ht]]]; [done|]. exists r, S', l. split; [done|]. split; [apply (ri_total _ _ _ _ _ _ Hi)|]. split; [done|]. split; [done|].
    intros e He Hf. destruct (decide (to e ∈ S')) as [Ht'|Ht']; [done|]. exfalso. pose proof (ri_keys _ _ _ _ _ _ Hi) as Hk. pose proof (ki_open _ _ _ _ _ Hk e He Hf Ht' I) as Hle. destruct (graph_edge_nodes e He) as [Hnf Hnt].
    destruct (decide (at_node key' (to e) = INT32_MAX)) as [E|E]; [|destruct (ki_pending _ _ _ _ _ Hk _ Hnt Ht' E) as [Hin _]; by apply elem_of_nil in Hin].
    assert (from e <> to e) by (intros E'; rewrite E' in Hf; done). specialize (Hw e He). unfold node in Hnf, Hnt. rewrite E in Hle. unfold INT32_MAX in *. nia.
Qed.

(** A tree of the edges of the graph that joins node [s] with all it reaches. *)
Definition spanning_tree s (F : list EdgeInfo) : Prop :=
  (forall e, e ∈ F -> graph_edge g e /\ reachable g s (from e)) /\ acyclic F /\ forall x, reachable g s x -> linked F s x.

Lemma prim_ok : exists r, compute g = Ret r /\ total_weight r = total (edges r) /\ spanning_tree 0 (edges r) /\ forall F, spanning_tree 0 F -> total (edges r) <= total F.
Proof.
  pose proof (wf_nodes _ Hwf) as Hn. destruct (decide (num_nodes_ g = 0)) as [E|E].
  { assert (forall v, ~ node g v) as Hno by (intros v Hv; unfold node in Hv; lia). exists (mkMST [] 0). split; [unfold compute, getNodeCount; by rewrite decide_True|]. split; [done|]. split.
    - split; [by intros e ?%elem_of_nil|]. split; [apply acyclic_nil|]. intros x [k Hk]. exfalso. clear -Hk Hno. induction Hk; [by eapply Hno|done].
    - intros F [HF _]. destruct F as [|e F]; [done|]. destruct (HF e) as [[He _] _]; [by left|]. by destruct (Hno (from e)). }
  destruct (prim_run ltac:(lia)) as (r & S & l & Hr & Ht & H0 & Hi & Hclosed). exists r. split; [done|]. split; [done|].
  assert (forall x, reachable g 0 x -> x ∈ S) as Hreach.
  { intros x [k Hk]. remember 0 as z eqn:Ez in Hk. induction Hk as [u Hu|k u v w Hk IH Hvw]; [by subst|]. specialize (IH Ez). destruct Hvw as [Hv ([t wt] & -> & He)%list_elem_of_fmap]. by apply (Hclosed (mkEdgeInfo v t wt)). }
  split.
  - split; [|split; [apply (ti_acyclic _ _ _ Hi)|intros x Hx; by apply (ti_linked _ _ _ Hi), Hreach]]. intros e He. destruct (ti_edges _ _ _ Hi e He) as (Hge & Hf & _). split; [done|]. by apply (ti_nodes _ _ _ Hi).
  - intros F (HF1 & HF2 & HF3). assert (forall G, (forall e, e ∈ G -> graph_edge g e) -> edges_inside (num_nodes_ g) G) as Hin by (intros G HG e He; destruct (graph_edge_nodes e (HG e He)); split; done).
    apply (lightest (num_nodes_ g) (edges r)); [apply (ti_acyclic _ _ _ Hi)|done|apply Hin; intros e He; apply (ti_edges _ _ _ Hi e He)..|apply Hin; intros e He; by apply HF1| |done|].
    + intros w e He Hle. destruct (HF1 e He) as [Hge Hre]. specialize (Hreach _ Hre). pose proof (ti_cycle _ _ _ Hi e Hge Hreach (Hclosed e Hge Hreach)) as Hl. revert Hl. apply linked_subset. intros e' [He' Hin']%list_elem_of_filter. apply list_elem_of_filter. split; [lia|done].
    + intros e He. destruct (ti_edges _ _ _ Hi e He) as (_ & Hf & Hte). transitivity 0; [symmetry|]; apply HF3; by apply (ti_nodes _ _ _ Hi).
Qed.
End tree.

(** C29: on an undirected graph with weights of which as many as there are nodes fit an [int32_t], [compute] returns, whichever least entry the queue yields,
    a tree of edges of the graph that joins node 0 with all it reaches, with its total weight, and no such tree is lighter. *)
Theorem prim_minimum_spanning_tree g : prim_top_least -> wf_graph g -> symmetric g -> (forall e, graph_edge g e -> Z.abs (weight e) * num_nodes_ g <= INT32_MAX) ->
  exists r, compute g = Ret r /\ total_weight r = total (edges r) /\ spanning_tree g 0 (edges r) /\ forall F, spanning_tree g 0 F -> total (edges r) <= total F.
Proof. intros Htop Hwf Hsym Hw. by apply prim_ok. Qed.

(** On a connected graph Prim and Kruskal return as many edges, of the same total weight. *)
Theorem prim_kruskal_equivalent sort g : prim_top_least -> sort_law sort -> wf_graph g -> symmetric g -> (forall e, graph_edge g e -> Z.abs (weight e) * num_nodes_ g <= INT32_MAX) ->
  (forall v, node g v -> reachable g 0 v) ->
  exists r r', compute g = Ret r /\ KruskalMST.compute sort g = Ret r' /\ total_weight r = total_weight r' /\ length (edges r) = length (edges r').
Proof.
  intros Htop Hsort Hwf Hsym Hw Hconn. destruct (prim_ok g Hwf Hsym Hw Htop) as (r & Hr & Ht & Hs & Hmin). destruct (kruskal_ok sort g Hsort Hwf Hsym Hw) as (r' & Hr' & Hf & Ht' & Hmin'). exists r, r'. split; [done|]. split; [done|].
  assert (forall x y, reachable g x y -> node g x /\ node g y) as Hnodes by (intros x y [k Hk]; induction Hk as [u Hu|k u v w Hk [Hu _] [Hv He]]; [done|]; split; [done|]; by apply (edge_node g v w Hwf)).
  assert (spanning_tree g 0 (edges r')) as Hst. { destruct Hf as (H1 & H2 & H3). split; [|split; [done|by intros x; apply H3]]. intros e He. split; [by apply H1|]. apply Hconn, H1, He. }
  assert (spanning_forest g (edges r)) as Hsf. { destruct Hs as (H1 & H2 & H3). split; [intros e He; by apply H1|]. split; [done|]. intros x y Hxy. destruct (Hnodes x y Hxy) as [Hx Hy]. transitivity 0; [symmetry|]; by apply H3, Hconn. }
  split; [rewrite Ht, Ht'; pose proof (Hmin _ Hst); pose proof (Hmin' _ Hsf); lia|].
  assert (forall F, (forall e, e ∈ F -> graph_edge g e) -> edges_inside (num_nodes_ g) F) as Hin by (intros F HF e He; destruct (graph_edge_nodes g Hwf e (HF e He)); split; done).
  destruct Hsf as (H1 & H2 & H3), Hf as (H1' & H2' & H3'). apply Nat.le_antisymm; apply (forest_le (num_nodes_ g)); try done; try (by apply Hin); apply linked_mono; intros e He; [apply H3'|apply H3]; by apply graph_edge_reachable, (fun H => H e He).
Qed.
End prim.

Section prim_witness.
#[local] Instance adjacent_eq_dec : EqDecision Edge.
Proof. solve_decision. Defined.

(** The first of the least entries. *)
Fixpoint first_least pq : nat :=
  match pq with
  | [] => 0%nat
  | t :: pq => match pq !! first_least pq with Some t' => if prim_gtb t t' then S (first_least pq) else 0%nat | None => 0%nat end
  end.

Lemma first_least_least : prim_top_least first_least.
Proof.
  intros pq. induction pq as [|t pq IH]; intros Hq; [done|]. cbn [first_least]. destruct pq as [|t1 pq].
  { exists t. split; [done|]. intros t' ->%list_elem_of_singleton. unfold prim_gtb. lia. }
  destruct IH as (t2 & Ht & Hmin); [done|]. rewrite Ht. unfold prim_gtb in *. destruct (key_ t2 <? key_ t) eqn:E.
  - exists t2. split; [done|]. intros t' [->|H]%elem_of_cons; [lia|by apply Hmin].
  - exists t. split; [done|]. intros t' [->|H]%elem_of_cons; [lia|]. specialize (Hmin t' H). lia.
Qed.

(** A square with a diagonal. *)
#[local] Definition prim_square : outcome Graph :=
  g ← graph_new 4; g ← addUndirectedEdge g 0 1 3; g ← addUndirectedEdge g 1 2 (-1); g ← addUndirectedEdge g 2 3 3;
  g ← addUndirectedEdge g 3 0 2; addUndirectedEdge g 0 2 5.

Lemma prim_minimum_spanning_tree_witness : exists g r, prim_square = Ret g /\ compute first_least g = Ret r /\
  edges r = [mkEdgeInfo 0 3 2; mkEdgeInfo 0 1 3; mkEdgeInfo 1 2 (-1)] /\ total_weight r = 4 /\ forall F, spanning_tree g 0 F -> 4 <= total F.
Proof.
  destruct prim_square as [g|e| |] eqn:E; [|vm_compute in E; discriminate..].
  assert (wf_graph g) as Hwf.
  { vm_compute in E. injection E as <-. split; [reflexivity|vm_compute; discriminate| |reflexivity]. unfold node. apply (bool_decide_unpack _). vm_compute. exact I. }
  destruct (prim_minimum_spanning_tree first_least g first_least_least Hwf) as (r & Hr & Ht & _ & Hmin).
  - apply symmetric_check; [exact Hwf|]. vm_compute in E. injection E as <-. apply (bool_decide_unpack _). vm_compute. exact I.
  - apply (edges_check g (fun _ d => Z.abs (weight_ d) * num_nodes_ g <= INT32_MAX)). vm_compute in E. injection E as <-. apply (bool_decide_unpack _). vm_compute. exact I.
  - exists g, r. split; [reflexivity|]. split; [exact Hr|]. vm_compute in E. injection E as <-. vm_compute in Hr. injection Hr as <-.
    split; [reflexivity|]. split; [reflexivity|]. intros F HF. exact (Hmin F HF).
Defined.

(** Components without node 0 are left out, where Kruskal spans them. *)
Theorem prim_leaves_components : exists g, (g ← graph_new 3; addUndirectedEdge g 1 2 7) = Ret g /\ compute first_least g = Ret (mkMST [] 0) /\ KruskalMST.compute (fun es => es) g = Ret (mkMST [mkEdgeInfo 1 2 7] 7).
Proof. eexists. split; [vm_compute; reflexivity|]. split; vm_compute; reflexivity. Qed.
End prim_witness.
